(* ===== verification/_CoqProject ===== *)
-Q . S2P
Prelude.v
H2Tables.v
H2Codec.v
H2FrameFacts.v
H2HpackFacts.v
H2ResponseFacts.v
PyCollections.v
PrivacyGraph.v
PrivacyOrderFacts.v
PrivacyOrderClaims.v
PrivacyRegistry.v
PrivacyPlanner.v
PrivacyPlanFacts.v
PrivacyPlanClaims.v
PrivacyRegistryFacts.v
PyText.v
PrivacyExecute.v
PrivacyExecuteClaims.v
StructuredFields.v
CacheControl.v
StructuredClaims.v
JsonPath.v
JsonPathParser.v
JsonPathEvalFacts.v
JsonPathParserFacts.v
JsonPathRegexp.v
JsonPathClaims.v
CedarSyntax.v
CedarLexer.v
CedarParser.v
CedarEval.v
CedarEvalFacts.v
CedarAnalysis.v
CedarNoninterference.v
CedarSchema.v
CedarEngine.v
CedarParserFacts.v
CedarDecisions.v
CedarComposition.v
CedarAuthorizer.v
CedarQueryFacts.v
CedarExamples.v
CedarClaims.v
KvTable.v
KvRefine.v
KvSteps.v
KvClaims.v
CapabilityMap.v
CapabilityClaims.v
CapabilityStores.v
Idempotency.v
IdempotencyClaims.v
Temporal.v
RecurrenceText.v
Recurrence.v
RecurrenceSearch.v
TemporalClaims.v
GraphqlCost.v
GraphqlExecute.v
GraphqlOrderFacts.v
GraphqlExecuteFacts.v
GraphqlWork.v
GraphqlClaims.v
TokenBucket.v
TokenBucketFacts.v
TokenBucketRefine.v
TokenBucketClaims.v
Quota.v
QuotaClaims.v
RateLimit.v
RateClaims.v
JobQueue.v
JobFacts.v
JobSystem.v
JobClaims.v
PassKeys.v
PassLedger.v
PassDriver.v
PassFacts.v
PassClaims.v
