(* ===== verification/Prelude.v ===== *)
(** * Wreath, verified: the core logic of the Python sources

    Wreath is a web framework with a native core.  This library models parts of
    its own logic, file by file, as executable definitions, and proves what
    makes them correct.  Paths below are relative to [src/wreath/]; a claim is
    named by its theorem, whose comment carries its number.

    ** Parts and files

    - [Prelude] (this file): results with an error type and the [let!]
      notation, Python indexing and slicing on lists with integer positions,
      big-endian bytes, shared automation.  [PyCollections]: ordered
      comparison, the stable [sorted], insertion-ordered dictionaries, the
      edges a worklist has yet to expand.  [PyText]: [str] of an integer and
      its digits, and the character classes of [str] methods as a class [UnicodeData] with its laws [UnicodeLaws], and an ASCII instance.

    - Cedar authorization.  The language, [_auth/cedar_engine.py] and the
      evaluator in [_native/cedar.c]: [CedarSyntax] (the compiled program, and
      its encoding as the tuples the Python analysis walks), [CedarLexer],
      [CedarParser] (one definition per method, mutually recursive on the
      nesting of calls), [CedarEval] (values, [cedar_eval], scopes, the plan
      and both decision loops).  The policy analysis that decides what a
      request may leave out: [CedarAnalysis].  Schemas, [_auth/cedar_schema.py]:
      [CedarSchema].  The class [CedarPolicies] with its construction, entity
      layers, single and batch queries: [CedarEngine].  Around it,
      [_auth/principal.py] and [_auth/facts.py]: [CedarComposition]; and
      [CedarAuthorizer.authorize] of [_auth/cedar.py] with delegation:
      [CedarAuthorizer].  An engine is the record [CedarPolicies]; its
      [policies_init] is the constructor, and the record [built]
      ([CedarQueryFacts]) is what every constructed engine satisfies.
      Lemmas: [CedarEvalFacts],
      [CedarNoninterference],
      [CedarParserFacts], [CedarDecisions],
      [CedarQueryFacts], [CedarExamples].
      [CedarExamples] holds concrete policy sets, and the inputs on which the
      code departs from its documentation.  [CedarClaims]: decisions follow
      Cedar ([authorization_decides]), the early exit and the batches agree
      with them ([route_denial_agrees], [batch_agrees]), evaluation stays in 64
      bits ([evaluation_bounded]), [in] is reachability, [like] matches
      wildcards, the parser ends and types its programs ([parsing_terminates],
      [parsed_wellformed]), references read back ([uid_roundtrip]).
      As for what may be left out: context keys, set members and the principal's entity
      can be left out as the analysis says ([context_keys_suffice],
      [members_suffice], [principal_entity_omitted]); a delegate has no more
      than its principal, and the skipped second pass changes nothing
      ([delegate_within], [shortcut_exact]), for policies that read the context
      attribute by attribute and, the last, do not ask [context has] a delegation
      key ([whole_context_omitted], [has_actor_skipped]); composition reduces;
      validated attribute paths evaluate, or miss an attribute
      ([validated_paths]); descendants are the reachable actions.

    - HTTP/2 replay reader, [_h2_codec.py].  [H2Tables]: the static table and
      the Huffman code of RFC 7541 as the source lists them.  [H2Codec]:
      [parse_frames], the incremental Huffman decoder, [_decode_integer],
      [_decode_string], [HpackDecoder] (a record of entries, size and limit;
      one definition per method), [_header_block] and [decode_response] (a
      state of decoder, streams and pending block, stepped by each frame).
      [H2FrameFacts], [H2HpackFacts], [H2ResponseFacts]:
      frames are cut exactly, the Huffman code round-trips, HPACK refines the
      RFC's table machine where no size update raises the limit again (the code
      refuses one, [size_update_refused]), ends on any bytes and keeps its size invariant,
      responses are assembled per stream, header blocks may be continued and
      padded.

    - Erasure of personal data, [_privacy/].  [PrivacyGraph]: [graph.py], the
      foreign-key graph, breadth-first reachability, the child-first order and
      its residue.  [PrivacyRegistry]: [registry.py] and [declare.py], the
      declarations and the annotations they can come from.  [PrivacyPlanner]:
      [planner.py], the erasure and export plans.  [PrivacyExecute]:
      [execute.py] and the write path of [record.py], the statements, the
      passes and the record.  A mapped class is its identity, an integer; a
      Python set is a duplicate-free list visited through an arbitrary
      iteration order, so results hold for every order the interpreter may
      choose.  The planner reads the graph, execution reads plan, graph and
      registry, as in the sources.  [PrivacyOrderFacts],
      [PrivacyOrderClaims]: shortest
      chains, safe and deterministic order, exact residue, faithful graph.
      [PrivacyPlanFacts], [PrivacyPlanClaims]: plans exist, account for every
      personal column, are ordered, report exactly the blocking references; a
      cascade nobody performs.  [PrivacyRegistryFacts]: declarations keep an
      invariant, fail for the stated causes, agree with annotations.
      [PrivacyExecuteClaims]: the generated conditions
      select the subject's rows, by the printed path or by a declared subject
      ([predicate_selects_subject]); passes match the plan, rewrites can be
      repeated, a record is written once and only for a finished erasure;
      colliding pass names.

    - JSONPath, [jsonpath.py].  [JsonPath]: JSON values, the compiled
      expression, the evaluator in a monad that carries the visit budget,
      normalized paths, the program for the native evaluator.
      [JsonPathParser]: the recursive descent parser; a position is the unread
      rest.  [JsonPathRegexp]: the I-Regexp translator.  [JsonPathEvalFacts],
      [JsonPathParserFacts], [JsonPathClaims]: the parser
      returns and types ([parse_total_typed]), the budget is only a gate, descendants and slices are
      those of RFC 9535, paths lead back to their match, the program determines
      the expression, comparisons are an order, patterns are translated; an
      index error that escapes, and the recursion errors of nesting and of long
      chains ([nesting_outruns_stack], [chain_nests_left]).

    - Structured fields, [_structured_fields.py] and [cache_control.py].
      [StructuredFields]: the serializer, the Boolean item reader with its
      regular expressions run by derivatives.  [CacheControl]: the policies.
      [StructuredClaims]: printable output; two renderings agree.

    - Time, [temporal.py] and the recurrence part of [_native/codecs.c].
      [Temporal]: dates, naive datetimes and the native day arithmetic, then
      [wall_clock], [from_wall_clock] and [Bucket]; an instant is a number of
      microseconds since 0001-01-01T00:00Z, a zone is the record [tzinfo] of
      what it answers.  [RecurrenceText]: cron expressions and
      calendar recurrences, read into five sets.  [Recurrence]: the constructor
      with the bit masks of its native plan, [matches], the search for the next
      occurrence and [next_after] with its cache.  [RecurrenceSearch]
      (days, hours, minutes, the specification [first_occurrence], the cache and
      when a search succeeds).  [TemporalClaims]: the search returns the first
      occurrence on the wall clock and finds it whenever there is one
      ([next_after_least], [next_after_complete]), which on the timeline is the
      next firing unless the clocks were set back ([earlier_pass_skipped]), a
      recurrence keeps firing ([next_after_liveness]), the masks test what the
      sets hold ([plan_matches]), texts give proper sets and every calendar
      recurrence has a cron spelling ([texts_wellformed], [calendar_as_cron]),
      buckets tile the wall clock and the timeline ([buckets_tile],
      [bucket_instants]), the cache is invisible, and a leap day the search
      does not reach.

    - GraphQL, [_graphql/].  [GraphqlCost]: the parsed document ([ast.py]),
      the parser's limits, the declarations of a schema.  And there:
      [_flatten], the expansion of fragments, and [weigh] ([cost.py]), which
      charges an operation before it runs.  [GraphqlExecute]: [order_fields]
      ([resolvers.py]), and the executor ([execute.py] with the projections of
      [_native/graphql.c]) in a monad that carries what the authorizer has
      answered, the phases marked and, for the theorems, all that was resolved
      ([record], which nothing reads); objects, resolvers and the session are
      the class [World].  [GraphqlOrderFacts] (expansion as a relation, the
      stack [weigh] needs, the invariant of the depth-first order),
      [GraphqlExecuteFacts] (a partial-correctness logic [wp] for the monad, what
      a run may ask and resolve), [GraphqlWork] and
      [GraphqlClaims]: what is selected is no more work than was charged
      ([work_within_charge]), what resolvers require unselected is not charged
      ([hidden_uncharged]); a run asks about each resource once and resolves
      only what was allowed ([phases_authorized]); a level is its objects
      ([level_is_its_parts]); requirements come first
      ([order_respects_requires]); weighing ends ([weighing_terminates]) in a
      stack that grows with chains of fragments ([chain_outruns_depth]), and
      doubles with every fragment of a chain ([bomb_doubles]).

    - The key/value table, [_native/kv.c], the type behind [kv.py].
      [KvTable]: the record [kv] of control bytes, slots, recency links and
      counters, and one definition per C function, from [kv_mix] to [kv_set].
      Also what it promises, a list of entries with the most recent first
      ([lru], [lru_step]), and [kv_step], an operation of the table.
      [KvRefine]: the invariant [indexed] of the control bytes, that the probe
      finds a key exactly when it is held, and the relation [repr] between a
      table and the list it stands for, kept by the changes to one slot.
      [KvSteps]: rebuilding, evicting, making room, and each operation.
      [KvClaims]: any run answers as the list ([kv_runs_as_lru]),
      within its limits ([kv_stays_within_limits]); what is set is read back
      ([kv_get_after_set]); the least recently used entry makes room
      ([kv_set_evicts_oldest]), but for the sizes at which every entry does
      ([kv_tight_table_forgets]).

    - Capabilities that are used once, [_capability_map.py] and its users.
      [CapabilityMap]: the class [Table], what the map asks of a key/value
      table, with its laws [TableLaws], and one definition per method, in the
      three overflow modes; the clock is a sequence of readings.
      [CapabilityClaims]: the invariant [sound] of a map that refuses when full,
      and every operation as the operation [spec_step] on the map of what is
      alive; [KvTable] is such a table ([kv_table_laws]);
      runs refine the map ([cap_runs_as_map]), a claim is granted once
      ([cap_claim_single_use]).  [CapabilityStores]: the stores built on it,
      the login limiter of [users.py], the ledgers of [signatures.py], [saml.py],
      [tokens.py], [webhooks.py] and [chat/_core.py], the pending logins of
      [sso.py], the approvals of [_agents/approvals.py].  There, failures are counted ([limiter_counts_failures]), approvals granted at
      most once ([approvals_granted_once]).

    - Replay-safe requests, [policy/idempotency.py].  [Idempotency]: the store
      key, [action] and [after] over the class [IdempotencyStore], the in-memory
      store over [CapabilityMap], the shared table over the class [Rows].
      [IdempotencyClaims]: a key can be read back from the text it hashes;
      requests in flight as a step relation, with the invariant [in_order]; one
      handler per key ([one_handler_per_key]), replays
      ([kept_response_replayed]), exact keys ([store_key_exact]), and the two
      ways a key gets two handlers ([late_release_frees_claim],
      [released_between_claim_and_read]).

    - Rate limits, [_native/ratelimit.c], and [policy/ratelimit.py], and quotas,
      [quota.py].  [TokenBucket]: the open-addressed table of buckets, one
      definition per C function.  [TokenBucketFacts]: linear probing finds a key
      exactly when it is held.  [TokenBucketRefine]: what the table promises, a
      level per key ([level], [spec_acquire]), with states equal when all their
      levels are ([same_levels]), then the invariant [table_ok],
      rebuilding, when there is room.  [TokenBucketClaims]: runs answer as the
      levels ([bucket_runs_as_levels]) and admit no more than burst and rate
      allow ([admitted_within_rate]).  [Quota]: periods, the counters in memory
      and in a table, the meter and its keys.  [QuotaClaims]: neither store is
      overspent ([quota_never_overspent], [shared_quota_never_overspent]).
      [RateLimit]: both stores of buckets, the stage of a policy with the quota
      behind it, tiers.  [RateClaims]: a refused caller who waits passes
      ([retry_after_honoured]); the most generous tier is charged.

    - Durable jobs, [jobs.py] over [_jobcore.py] and [_leased.py].  [JobQueue]:
      the table of jobs, one definition per SQL statement (insert with its
      conflict clause, claim, completion, failure, release, sweep, cancel,
      purge), the runner with its tasks, schedules and passes, backoff.
      [JobFacts]: the life of a row ([outside], [worked]) and what each
      statement does to it; runners as the constructor builds them
      ([runner_ok]).  [JobSystem]: workers of any number of processes over the
      table, as a step function on events with the clock each statement reads,
      its reachable states and their invariant [Inv] (who may write a row, which
      leases are over, how often a job may yet be started).  [JobClaims]: a
      finished job stays finished ([job_life_legal]), one handler at a time
      ([one_handler_per_job]), a bound on the handlers started
      ([starts_bounded]), one row per key ([one_job_per_key]), one firing per
      schedule and minute ([schedules_fire_once]), [launch] hands back a row
      ([launch_watchable]); and the runs in which a documented limit fails
      ([batch_runs_twice], [own_limit_passed], [pass_stalls],
      [schedules_collide], [merge_mixes_tasks]).

    - Chunked passes, [passes.py] over [_passes/].  [PassKeys]: keys and what is
      refused of them ([keyset.py]), the probes that cut a walk into ranges
      ([driver.py]), the frontiers [Ceiling] and [Sealed], [Purge] and [Rewrite]
      as changes of the walked table, the gate, the pace and the declaration.
      [PassLedger]: the row of a pass and its holes, one definition per method
      of [Ledger]; the progress read off it ([progress.py]).  [PassDriver]: any
      number of workers, each at the statement that comes next, as a step
      function on events, from [_shift] over the loop of [_shift_bound],
      [_attempt] and [_run_chunk] to [_finish], [_run_gate] and [_gate_unit];
      between their steps rows come and go, units are requeued, holes are
      retried and workers die.  [PassFacts]: the order of the walk, what a probe
      answers, and the invariant [Inv] of a pass with a fixed ceiling.
      [PassClaims]: the irreversible step finds no row of the launch unprocessed
      ([irreversible_after_walk]), nor does the end leave one but under an open
      hole ([finished_pass_complete]); no row is processed twice ([walk_once]);
      a worker left alone finishes ([lone_walk_finishes]); ranges have the
      declared size ([next_range_fills]); a paced pass works its share of the
      time ([duty_cycle_share]).  Then the runs in which a documented promise
      fails: the step taken unverified ([step_without_verification]) or twice
      ([step_runs_twice]), a finished pass blocked ([stale_halt_blocks_done]),
      holes and units that are lost or left ([loser_leaves_a_hole],
      [claimed_unit_lost], [narrow_unit_clears_hole], [requeue_drops_unit]), live
      rows purged over a descending key ([descending_purge_deletes_live]), a
      cycle rewound under a worker ([cycle_rewound]), and two reports
      ([unverified_not_blocked], [changed_guard_forgotten]).

    ** Fuel

    Loops that are not structural take fuel that the callers compute, and a
    theorem shows that it is never exhausted: HPACK consumes at least one byte
    per step; a breadth-first walk visits each table once; the layered order
    removes a layer per round; [JsonPathParser.parse] has eight units per
    character, one for each of the at most eight methods entered between two
    characters, and the interpreter's stack, of which eight frames per character
    are enough ([parse_total_typed]) and fewer end in [RecursionError]; the
    JSONPath descendants walk has one unit per value;
    [parse_regexp] has four per character.  The scan for display parameters
    takes one unit per byte and drops at least one byte a step.  In Cedar the
    scanner has one unit per character; the parser takes the number of nested
    calls the interpreter allows, and nine per token and ten more are enough
    ([parsing_terminates]; running out is Python's [RecursionError], which the
    code handles); the walks over compiled tuples have their size; the search
    among parents has one unit per edge; schema types nest at most 64 deep, as
    the source bounds them.  The recurrence search runs for the 1462 days of
    [_SEARCH_DAYS], as the source does; [find_year] steps from a year at most
    32 too small ([year_guess]).  In GraphQL [_flatten] has two units per
    selection and fragment ([flatten_total]); the fuel of [weigh], [_project],
    [visit] and [ensure] is the interpreter's stack, and running out is its
    [RecursionError].  A probe of the key/value table has one unit per group, a
    walk of its list one per slot; running out is [Stuck], which no operation
    answers ([kv_runs_as_lru]); doubling a size takes 64 steps at most.
    A probe of the bucket table has one unit per slot; the load factor leaves
    one empty ([acquire_refines]).

    ** Assumptions

    What is not code of this repository is an argument: the native JSON
    decoder, the [re] engine and the Unicode tables behind JSONPath, the native
    dictionary parser, the digest of a plan, the class attributes an ORM model
    carries, the declaration checks of [wreath.passes], Python's character
    classes ([UnicodeData]; [UnicodeLaws] states them on ASCII), and the
    [unicode_escape] codec.  Claims hold for every value of these, except
    [normalized_path_exact], whose hypothesis [decoders_ok] states that JSON
    strings are decoded as RFC 8259 says and ASCII digits are digits, and the
    order claims, which take the iteration of a set to be a permutation of it,
    and the claims on zones: [next_after_complete] asks that the zone convert
    the local minutes searched and that it name repeated ones as PEP 495 says
    ([folds_read_back]), [next_after_liveness] and [bucket_instants]
    are about zones of fixed offset, and [next_after_least] is about any.
    [predicate_selects_subject] shows tables plain where the names of models and
    of their schemas are ([plain_sources]); [work_within_charge] asks that no list
    exceed a page ([paged]) and that costs are not negative ([wired]), and counts
    every resolution only where what resolvers require is free.
    [str.upper] is the class [CaseData].  Times are integers, except in rate
    limits and quotas, where a [float] is an exact rational: rounding, NaN and
    infinities are left out.  The claims on token buckets and on the in-memory
    quota ask that the clock does not go back; an SQL statement is the change it
    makes to its row.  BLAKE2s, the JSON
    of a problem and the native check of response headers are arguments of the
    idempotency policy; the statements of its shared table are the class [Rows],
    whose laws [RowsLaws] say that a missing row is claimed and a deleted one is
    missing.  [limiter_counts_failures] and the idempotency claims ask that the
    clock does not go back; [one_handler_per_key] also that handlers end within
    the window of their claim.  In the jobs system each statement is one step
    with a [now()] that is not later than its effect, in no particular order;
    the rows a scan visits, their order and the rows locked by others are
    arguments of a claim; time passes only as long as no handler is past its
    deadline, which is [asyncio.timeout] cancelling a handler that lets itself
    be cancelled.  In chunked passes key values are integers and the key columns
    identify a row; the transaction of a chunk takes effect at once, each other
    statement commits by itself, the seed with [set_pacing] is one step, and
    [_measure] may report at any time.  [irreversible_after_walk] and
    [finished_pass_complete] ask that units be requeued from the start of the
    domain ([whole_requeue]; [narrow_unit_clears_hole] is why), and [walk_once]
    that nothing be requeued or retried.

    ** Not modelled

    Memory, and Python's recursion limit except in the Cedar parser, in the
    JSONPath parser (the program built from its result is by structural
    recursion) and in GraphQL; messages
    of exceptions; checks that only tell Python types apart; concurrency
    between database sessions (a transaction is one step that leaves the
    database unchanged when it raises); the plan digest; rendering, retention
    reports and command lines of [_privacy/]; of chunked passes the range source [Buckets], what a
    verification asks of the database (its answer is an argument of the step),
    [refuse_reused_predicate], the [jsonb] form of a cursor, SQL text and DDL,
    durations as text, the connection and its budgets; a shift of a pass as jobs
    see it is its result;
    of [_auth/cedar.py] the compiled route plans, the batch entry points, the
    vocabulary checks at start-up and foreign engines; custom mappers; of
    [temporal.py] the type [Instant], durations, spines, relative phrases, the
    lookup of zone names; of jobs the progress registry, recordings of attempts,
    the query budget, the doorbell that wakes workers, counters, the DDL and
    [read_jobs]; of GraphQL the
    native parser, the schema derived from the models, the JSON projection with
    its batched authorization, and the endpoint; of the capability map no
    theorem is about the modes that evict; of its users everything but the
    in-memory stores; of the idempotency policy its OpenAPI description, its
    schema and the purge of its table; of the key/value table the
    clock, arguments and their types, and [__init__] on a table in use.  Its
    sizes are unbounded integers where the C code has [size_t] and 32-bit links:
    the model is of tables of fewer than [2^31] slots, and its claims of at most
    [2^59] entries.

    ** Plan

    Next: the batch and route entry points of the authorizer; link templates
    ([link_template.py]) and a reference parser for structured fields with the
    round trip; retention windows; the billing ledger; the GraphQL endpoint; bucketed
    ranges of passes; keyed stores ([store.py]); messages and workflows over [_leased.py]. *)

From Stdlib Require Import Ascii String.
From stdpp Require Import base strings list gmap numbers.
From Stdlib Require Import ZArith Lia.
#[local] Open Scope Z_scope.

(** ** Fallible code

    Python code that raises is modelled by a function into [res E A]: [Err e]
    is the exception that leaves the function, [Ok a] its return value. *)

Inductive res (E A : Type) : Type :=
| Ok (a : A)
| Err (e : E).
Arguments Ok {E A} a.
Arguments Err {E A} e.

Definition res_bind {E A B} (c : res E A) (k : A -> res E B) : res E B :=
  match c with
  | Ok a => k a
  | Err e => Err e
  end.

Declare Scope wreath_scope.
Delimit Scope wreath_scope with wreath.
Notation "'let!' x := c 'in' k" := (res_bind c (fun x => k))
  (at level 10, x pattern, c at level 100, k at level 200) : wreath_scope.
#[global] Open Scope wreath_scope.

(** [Ok] inversion for a sequenced computation. *)
Lemma res_bind_Ok {E A B} (c : res E A) (k : A -> res E B) b :
  res_bind c k = Ok b <-> exists a, c = Ok a /\ k a = Ok b.
Proof.
  destruct c as [a|e]; simpl; split.
  - intros H. by exists a.
  - by intros (a' & [= <-] & H).
  - done.
  - by intros (a' & ? & H).
Qed.

Definition is_ok {E A} (c : res E A) : bool :=
  match c with Ok _ => true | Err _ => false end.

(** ** Python sequences

    Python indexes and slices with arbitrary integers; a negative bound counts
    from the end and slices clamp. [pyget] is [l[i]] ([None] is [IndexError]),
    [pyslice] is [l[i:j]]. *)

Definition zlen {A} (l : list A) : Z := Z.of_nat (length l).

Definition pyget {A} (l : list A) (i : Z) : option A :=
  let i := if i <? 0 then i + zlen l else i in
  if i <? 0 then None else l !! Z.to_nat i.

Definition pyclamp (n i : Z) : Z :=
  if i <? 0 then Z.max 0 (i + n) else Z.min i n.

Definition pyslice {A} (l : list A) (i j : Z) : list A :=
  let a := pyclamp (zlen l) i in
  let b := pyclamp (zlen l) j in
  take (Z.to_nat (b - a)) (drop (Z.to_nat a) l).

Lemma zlen_app {A} (l k : list A) : zlen (l ++ k) = zlen l + zlen k.
Proof. unfold zlen. rewrite length_app. lia. Qed.

Lemma zlen_cons {A} (x : A) l : zlen (x :: l) = 1 + zlen l.
Proof. unfold zlen. simpl. lia. Qed.

Lemma zlen_nil {A} : zlen (@nil A) = 0.
Proof. reflexivity. Qed.

Lemma zlen_nonneg {A} (l : list A) : 0 <= zlen l.
Proof. unfold zlen. lia. Qed.

Lemma pyget_0 {A} (l : list A) : pyget l 0 = head l.
Proof. by destruct l. Qed.

Lemma pyget_nonneg {A} (l : list A) i :
  0 <= i -> pyget l i = l !! Z.to_nat i.
Proof.
  intros. unfold pyget. replace (i <? 0) with false by lia. simpl.
  by replace (i <? 0) with false by lia.
Qed.

(** Reading past a known prefix reads the suffix. *)
Lemma pyget_app_r {A} (l k : list A) i :
  i = zlen l -> pyget (l ++ k) i = head k.
Proof.
  intros ->. rewrite pyget_nonneg by (unfold zlen; lia). unfold zlen.
  rewrite Nat2Z.id, lookup_app_r by lia. rewrite Nat.sub_diag.
  by destruct k.
Qed.

Lemma pyget_head_drop {A} (l : list A) i :
  0 <= i -> pyget l i = head (drop (Z.to_nat i) l).
Proof.
  intros. rewrite pyget_nonneg by done.
  rewrite <- (Nat.add_0_r (Z.to_nat i)) at 1.
  rewrite <- lookup_drop. by destruct (drop _ l).
Qed.

Lemma pyslice_nonneg {A} (l : list A) i j :
  0 <= i -> 0 <= j ->
  pyslice l i j = take (Z.to_nat (j - i)) (drop (Z.to_nat i) l).
Proof.
  intros Hi Hj. unfold pyslice, pyclamp, zlen.
  replace (i <? 0) with false by lia. replace (j <? 0) with false by lia.
  destruct (decide (Z.to_nat i <= length l)%nat) as [Hle|Hgt].
  - replace (Z.min i (Z.of_nat (length l))) with i by lia.
    destruct (decide (Z.to_nat j <= length l)%nat) as [Hle'|Hgt'].
    + by replace (Z.min j (Z.of_nat (length l))) with j by lia.
    + replace (Z.min j (Z.of_nat (length l))) with (Z.of_nat (length l)) by lia.
      rewrite !take_ge; rewrite ?length_drop; (done || lia).
  - rewrite !drop_ge by lia. by rewrite !take_nil.
Qed.

Lemma pyslice_app {A} (p m s : list A) i j :
  i = zlen p -> j = zlen p + zlen m -> pyslice (p ++ m ++ s) i j = m.
Proof.
  intros -> ->. rewrite pyslice_nonneg by (unfold zlen; lia).
  unfold zlen. rewrite Nat2Z.id, drop_app_length.
  replace (Z.to_nat _) with (length m) by lia. apply take_app_length.
Qed.

Lemma pyslice_from_prefix {A} (m s : list A) j :
  j = zlen m -> pyslice (m ++ s) 0 j = m.
Proof. intros ->. by apply (pyslice_app [] m s). Qed.

(** ** Bytes and big-endian integers *)

(** The character codes of an ASCII literal: a Python [bytes] or [str]. *)
Fixpoint bs (s : string) : list Z :=
  match s with
  | EmptyString => []
  | String c s => Z.of_N (N_of_ascii c) :: bs s
  end.

Definition byte_ok (b : Z) : Prop := 0 <= b < 256.
Definition bytes_ok (l : list Z) : Prop := Forall byte_ok l.

#[global] Instance byte_ok_dec b : Decision (byte_ok b).
Proof. unfold byte_ok. apply _. Defined.

(** [int.from_bytes(l, "big")]. *)
Definition from_bytes_be (l : list Z) : Z :=
  fold_left (fun acc b => acc * 256 + b) l 0.

(** The [n]-byte big-endian image of [v], the inverse of [from_bytes_be]. *)
Fixpoint to_bytes_be (n : nat) (v : Z) : list Z :=
  match n with
  | O => []
  | S n => to_bytes_be n (v / 256) ++ [v mod 256]
  end.

Lemma to_bytes_be_length n v : length (to_bytes_be n v) = n.
Proof.
  revert v. induction n as [|n IH]; intros v; simpl; [done|].
  rewrite length_app, IH. simpl. lia.
Qed.

Lemma to_bytes_be_zlen n v : zlen (to_bytes_be n v) = Z.of_nat n.
Proof. unfold zlen. by rewrite to_bytes_be_length. Qed.

Lemma to_bytes_be_ok n v : bytes_ok (to_bytes_be n v).
Proof.
  revert v. induction n as [|n IH]; intros v; simpl; [constructor|].
  apply Forall_app. split; [apply IH|].
  constructor; [|constructor]. apply Z.mod_pos_bound. lia.
Qed.

Lemma from_bytes_be_snoc l b :
  from_bytes_be (l ++ [b]) = from_bytes_be l * 256 + b.
Proof. unfold from_bytes_be. by rewrite fold_left_app. Qed.

Lemma from_to_bytes_be n v :
  0 <= v < 256 ^ Z.of_nat n -> from_bytes_be (to_bytes_be n v) = v.
Proof.
  revert v. induction n as [|n IH]; intros v Hv; cbn [to_bytes_be].
  - change (256 ^ Z.of_nat 0) with 1 in Hv. unfold from_bytes_be. simpl. lia.
  - rewrite from_bytes_be_snoc, IH.
    + pose proof (Z.div_mod v 256). lia.
    + rewrite Nat2Z.inj_succ, Z.pow_succ_r in Hv by lia.
      split; [apply Z.div_pos; lia|]. apply Z.div_lt_upper_bound; lia.
Qed.

Lemma to_from_bytes_be l :
  bytes_ok l -> to_bytes_be (length l) (from_bytes_be l) = l.
Proof.
  induction l as [|b l IH] using rev_ind; intros Hl; [done|].
  apply Forall_app in Hl as [Hl Hb]. inversion_clear Hb. unfold byte_ok in *.
  rewrite length_app, Nat.add_comm. cbn [length Nat.add to_bytes_be].
  rewrite from_bytes_be_snoc, Z.div_add_l, (Z.div_small b), Z.add_0_r, IH by (done || lia).
  by rewrite Z.add_comm, Z.mod_add, Z.mod_small by lia.
Qed.

Lemma from_bytes_be_bound l :
  bytes_ok l -> 0 <= from_bytes_be l < 256 ^ zlen l.
Proof.
  induction l as [|b l IH] using rev_ind; intros Hl.
  - change (256 ^ zlen []) with 1. unfold from_bytes_be. simpl. lia.
  - apply Forall_app in Hl as [Hl Hb]. inversion_clear Hb.
    unfold byte_ok in *. specialize (IH Hl).
    rewrite from_bytes_be_snoc, zlen_app, Z.pow_add_r
      by (unfold zlen; simpl; lia).
    change (zlen [b]) with 1. lia.
Qed.

Lemma gtb_false x y : x <= y -> (x >? y) = false.
Proof. intros. rewrite Z.gtb_ltb. by apply Z.ltb_ge. Qed.

(** ** What a byte-string coder promises its clients *)

Class ByteStringCode (enc dec : list Z -> list Z) : Prop := {
  code_bytes s : bytes_ok (enc s);
  code_inverse s : bytes_ok s -> dec (enc s) = s;
}.

(** ** Checks by evaluation *)

Lemma forallb_elem {A} (f : A -> bool) l x : forallb f l = true -> x ∈ l -> f x = true.
Proof. rewrite forallb_forall, list_elem_of_In. auto. Qed.

Lemma forallb_rev {A} (f : A -> bool) l : forallb f (rev l) = forallb f l.
Proof. induction l as [|x l IH]; cbn; [done|]. rewrite forallb_app, IH. cbn. by rewrite andb_true_r, andb_comm. Qed.

(** ** Tactics of the development *)

(** Case analysis on the scrutinee of the first [match] or [if] found. *)
Ltac case_scrut :=
  match goal with
  | |- context [match ?x with _ => _ end] => destruct x eqn:?
  end.

Ltac res_inv :=
  repeat match goal with
  | H : Ok _ = Ok _ |- _ => injection H; clear H; intros
  | H : Err _ = Err _ |- _ => injection H; clear H; intros
  | H : Ok _ = Err _ |- _ => discriminate H
  | H : Err _ = Ok _ |- _ => discriminate H
  | H : res_bind _ _ = Ok _ |- _ => apply res_bind_Ok in H as (? & ? & ?)
  | H : (let '_ := ?p in _) = Ok _ |- _ => destruct p
  end; simplify_eq/=.

Create HintDb wreath discriminated.
#[export] Hint Resolve zlen_nonneg to_bytes_be_ok : wreath.
Create Rewrite HintDb zlen.
#[export] Hint Rewrite @zlen_app @zlen_cons @zlen_nil : zlen.
