(* ===== verification/H2Codec.v ===== *)
(** * The HTTP/2 reader of [src/wreath/_h2_codec.py]

    Frames, HPACK integers, strings and Huffman codes, the stateful HPACK
    decoder and the fold that turns a server's output into one response per
    stream.  Bytes are integers in [0, 256); positions are integers, as in the
    source.  An exception is a value of [pyerr]. *)

From stdpp Require Import base list gmap numbers strings.
From Stdlib Require Import ZArith Lia.
From S2P Require Import Prelude H2Tables.
#[local] Open Scope Z_scope.

(** [HpackError] and [IndexError] are Python's; [OutOfFuel] marks a loop that
    was cut off, which [H2HpackFacts] shows never happens. *)
Inductive pyerr : Type :=
| HpackError
| IndexError
| OutOfFuel.

Abbreviation header := (list Z * list Z)%type.

Definition DATA : Z := 0x0.
Definition HEADERS : Z := 0x1.
Definition RST_STREAM : Z := 0x3.
Definition GOAWAY : Z := 0x7.
Definition CONTINUATION : Z := 0x9.

Definition FLAG_END_STREAM : Z := 0x1.
Definition FLAG_END_HEADERS : Z := 0x4.
Definition FLAG_PADDED : Z := 0x8.
Definition FLAG_PRIORITY : Z := 0x20.

(** [flags & flag] as a condition. *)
Definition has_flag (flags flag : Z) : bool := negb (Z.land flags flag =? 0).

Record Frame : Type := mkFrame {
  f_type : Z;
  f_flags : Z;
  f_stream_id : Z;
  f_payload : list Z;
}.

(** ** Frames *)

Fixpoint parse_frames_loop (fuel : nat) (data : list Z) (n pos : Z) : list Frame :=
  match fuel with
  | O => []
  | S fuel =>
    if pos + 9 <=? n then
      let length := from_bytes_be (pyslice data pos (pos + 3)) in
      if pos + 9 + length >? n then []
      else
        let type_ := default 0 (pyget data (pos + 3)) in
        let flags := default 0 (pyget data (pos + 4)) in
        let stream_id :=
          Z.land (from_bytes_be (pyslice data (pos + 5) (pos + 9))) 0x7FFFFFFF in
        let payload := pyslice data (pos + 9) (pos + 9 + length) in
        mkFrame type_ flags stream_id payload
          :: parse_frames_loop fuel data n (pos + (9 + length))
    else []
  end.

(** Each turn consumes at least nine bytes, so [length data] turns suffice. *)
Definition parse_frames (data : list Z) : list Frame :=
  parse_frames_loop (length data) data (zlen data) 0.

(** ** Huffman strings *)

(** [_HuffmanDecoder.__init__]: code length to code to symbol, filled in the
    order of [enumerate(_HUFFMAN_CODES)]. *)
Definition _by_len_of (codes : list (Z * Z)) : gmap Z (gmap Z Z) :=
  foldl (fun d '(sym, (code, len)) => <[len := <[code := sym]> (default ∅ (d !! len))]> d)
    ∅ (imap (fun i c => (Z.of_nat i, c)) codes).

Definition _by_len : gmap Z (gmap Z Z) := _by_len_of _HUFFMAN_CODES.

(** [for length in range(5, 31)]: the first length at which the top bits are a
    symbol below 256, with the symbol. *)
Fixpoint huffman_match (lens : list Z) (bits nbits : Z) : option (Z * Z) :=
  match lens with
  | [] => None
  | len :: lens =>
    if len >? nbits then None
    else
      let code := Z.land (Z.shiftr bits (nbits - len)) (Z.shiftl 1 len - 1) in
      match default ∅ (_by_len !! len) !! code with
      | Some sym => if sym <? 256 then Some (sym, len) else huffman_match lens bits nbits
      | None => huffman_match lens bits nbits
      end
  end.

Definition huffman_lengths : list Z := map Z.of_nat (seq 5 26).

(** The inner [while True]: emit symbols until no code matches. *)
Fixpoint huffman_drain (fuel : nat) (bits nbits : Z) (out : list Z) : Z * Z * list Z :=
  match fuel with
  | O => (bits, nbits, out)
  | S fuel =>
    match huffman_match huffman_lengths bits nbits with
    | Some (sym, len) =>
      let nbits := nbits - len in
      huffman_drain fuel (Z.land bits (Z.shiftl 1 nbits - 1)) nbits (out ++ [sym])
    | None => (bits, nbits, out)
    end
  end.

(** One byte of input: the buffer gains eight bits and is drained. Each match
    removes at least five bits, so [nbits] turns suffice. *)
Definition huffman_feed (st : Z * Z * list Z) (byte : Z) : Z * Z * list Z :=
  let '(bits, nbits, out) := st in
  let bits := Z.lor (Z.shiftl bits 8) byte in
  let nbits := nbits + 8 in
  huffman_drain (Z.to_nat nbits) bits nbits out.

Definition huffman_decode (data : list Z) : list Z :=
  let '(_, _, out) := foldl huffman_feed (0, 0, []) data in out.

(** ** HPACK integers and strings *)

Fixpoint decode_integer_loop (rest : list Z) (value shift pos : Z) : res pyerr (Z * Z) :=
  match rest with
  | [] => Err IndexError
  | byte :: rest =>
    let value := value + Z.shiftl (Z.land byte 0x7F) shift in
    if Z.land byte 0x80 =? 0 then Ok (value, pos + 1)
    else decode_integer_loop rest value (shift + 7) (pos + 1)
  end.

Definition _decode_integer (data : list Z) (pos prefix_bits : Z) : res pyerr (Z * Z) :=
  let max_prefix := Z.shiftl 1 prefix_bits - 1 in
  match pyget data pos with
  | None => Err IndexError
  | Some byte =>
    let value := Z.land byte max_prefix in
    if value <? max_prefix then Ok (value, pos + 1)
    else decode_integer_loop (drop (Z.to_nat (pos + 1)) data) value 0 (pos + 1)
  end.

Definition _decode_string (data : list Z) (pos : Z) : res pyerr (list Z * Z) :=
  match pyget data pos with
  | None => Err IndexError
  | Some byte =>
    let huffman := has_flag byte 0x80 in
    let! (length, pos) := _decode_integer data pos 7 in
    let raw := pyslice data pos (pos + length) in
    Ok (if huffman then huffman_decode raw else raw, pos + length)
  end.

(** ** The HPACK decoder *)

Record HpackDecoder : Type := mkDecoder {
  dynamic : list header;
  max_size : Z;
  _size : Z;
}.

Definition fresh_decoder : HpackDecoder := mkDecoder [] 4096 0.

Definition _entry_size (e : header) : Z := zlen (fst e) + zlen (snd e) + 32.

(** [while self.dynamic and self._size + extra > limit: pop()], on the table
    read from its last entry. *)
Fixpoint evict_from_end (rdyn : list header) (size extra limit : Z) : list header * Z :=
  match rdyn with
  | [] => ([], size)
  | e :: r =>
    if size + extra >? limit then evict_from_end r (size - _entry_size e) extra limit
    else (rdyn, size)
  end.

Definition _evict (dyn : list header) (size extra limit : Z) : list header * Z :=
  let '(r, s) := evict_from_end (rev dyn) size extra limit in (rev r, s).

Definition _add (d : HpackDecoder) (e : header) : HpackDecoder :=
  let size := _entry_size e in
  let '(dyn, total) := _evict (dynamic d) (_size d) size (max_size d) in
  if size <=? max_size d then mkDecoder (e :: dyn) (max_size d) (total + size)
  else mkDecoder dyn (max_size d) total.

Definition _lookup (d : HpackDecoder) (index : Z) : res pyerr header :=
  if index =? 0 then Err HpackError
  else if index <=? zlen _STATIC_TABLE then
    match pyget _STATIC_TABLE (index - 1) with
    | Some e => Ok e
    | None => Err IndexError
    end
  else
    let dyn := index - zlen _STATIC_TABLE - 1 in
    if dyn >=? zlen (dynamic d) then Err HpackError
    else match pyget (dynamic d) dyn with
         | Some e => Ok e
         | None => Err IndexError
         end.

Definition _name_value (d : HpackDecoder) (data : list Z) (pos index : Z)
    : res pyerr (list Z * list Z * Z) :=
  let! (name, pos) :=
    (if index =? 0 then _decode_string data pos
     else let! e := _lookup d index in Ok (fst e, pos)) in
  let! (value, pos) := _decode_string data pos in
  Ok (name, value, pos).

(** The dynamic table size update of the decoding loop. *)
Definition resize (d : HpackDecoder) (new_size : Z) : res pyerr HpackDecoder :=
  if new_size >? max_size d then Err HpackError
  else
    let '(dyn, total) := _evict (dynamic d) (_size d) 0 new_size in
    Ok (mkDecoder dyn new_size total).

(** One turn of [while pos < n]: the decoder, the position and the header it
    appends, if any. *)
Definition decode_field (d : HpackDecoder) (data : list Z) (pos byte : Z)
    : res pyerr (HpackDecoder * Z * list header) :=
  if has_flag byte 0x80 then
    let! (index, pos) := _decode_integer data pos 7 in
    let! e := _lookup d index in
    Ok (d, pos, [e])
  else if has_flag byte 0x40 then
    let! (index, pos) := _decode_integer data pos 6 in
    let! (name, value, pos) := _name_value d data pos index in
    Ok (_add d (name, value), pos, [(name, value)])
  else if has_flag byte 0x20 then
    let! (new_size, pos) := _decode_integer data pos 5 in
    let! d := resize d new_size in
    Ok (d, pos, [])
  else
    let! (index, pos) := _decode_integer data pos 4 in
    let! (name, value, pos) := _name_value d data pos index in
    Ok (d, pos, [(name, value)]).

Fixpoint hpack_loop (fuel : nat) (d : HpackDecoder) (data : list Z) (n pos : Z)
    (headers : list header) : res pyerr (HpackDecoder * list header) :=
  if pos <? n then
    match fuel with
    | O => Err OutOfFuel
    | S fuel =>
      match pyget data pos with
      | None => Err IndexError
      | Some byte =>
        let! (d, pos, hs) := decode_field d data pos byte in
        hpack_loop fuel d data n pos (headers ++ hs)
      end
    end
  else Ok (d, headers).

(** [HpackDecoder.decode]: the decoder it leaves behind and the header list.
    Every field consumes a byte, so [length data] turns suffice. *)
Definition hpack_decode (d : HpackDecoder) (data : list Z)
    : res pyerr (HpackDecoder * list header) :=
  hpack_loop (length data) d data (zlen data) 0 [].

(** ** Responses *)

Record H2StreamResponse : Type := mkResponse {
  r_stream_id : Z;
  r_status : Z;
  r_headers : list header;
  r_body : list Z;
  r_ended : bool;
  r_reset : option Z;
}.

Definition new_response (sid : Z) : H2StreamResponse :=
  mkResponse sid 0 [] [] false None.

(** [H2StreamResponse.header]: the first value of a header. *)
Fixpoint response_header (hs : list header) (name : list Z) : option (list Z) :=
  match hs with
  | [] => None
  | (key, value) :: hs => if decide (key = name) then Some value else response_header hs name
  end.

Definition set_status (s : Z) (r : H2StreamResponse) : H2StreamResponse :=
  mkResponse (r_stream_id r) s (r_headers r) (r_body r) (r_ended r) (r_reset r).
Definition set_headers (hs : list header) (r : H2StreamResponse) : H2StreamResponse :=
  mkResponse (r_stream_id r) (r_status r) hs (r_body r) (r_ended r) (r_reset r).
Definition set_body (b : list Z) (r : H2StreamResponse) : H2StreamResponse :=
  mkResponse (r_stream_id r) (r_status r) (r_headers r) b (r_ended r) (r_reset r).
Definition set_ended (r : H2StreamResponse) : H2StreamResponse :=
  mkResponse (r_stream_id r) (r_status r) (r_headers r) (r_body r) true (r_reset r).
Definition set_reset (c : Z) (r : H2StreamResponse) : H2StreamResponse :=
  mkResponse (r_stream_id r) (r_status r) (r_headers r) (r_body r) (r_ended r) (Some c).

Definition _header_block (frame : Frame) : res pyerr (list Z) :=
  let payload := f_payload frame in
  let! (pad, pos) :=
    (if has_flag (f_flags frame) FLAG_PADDED then
       match pyget payload 0 with
       | Some b => Ok (b, 1)
       | None => Err IndexError
       end
     else Ok (0, 0)) in
  let pos := if has_flag (f_flags frame) FLAG_PRIORITY then pos + 5 else pos in
  Ok (pyslice payload pos (zlen payload - pad)).

(** [int(value)] on a byte string: surrounding ASCII white space, one sign,
    decimal digits with single underscores between them, at most 4300 digits
    (the interpreter's default limit); [None] is [ValueError]. *)
Definition is_space_byte (b : Z) : bool := (b =? 32) || ((9 <=? b) && (b <=? 13)).

Fixpoint skip_spaces (l : list Z) : list Z :=
  match l with
  | b :: l' => if is_space_byte b then skip_spaces l' else l
  | [] => []
  end.

Fixpoint scan_digits (l : list Z) (prev_us : bool) (acc : Z) (digits : nat)
    : option (Z * nat * list Z) :=
  match l with
  | b :: l' =>
    if (48 <=? b) && (b <=? 57) then scan_digits l' false (acc * 10 + (b - 48)) (S digits)
    else if b =? 95 then
      if prev_us then None else scan_digits l' true acc digits
    else if prev_us then None else Some (acc, digits, l)
  | [] => if prev_us then None else Some (acc, digits, [])
  end.

Definition py_int (value : list Z) : option Z :=
  let l := skip_spaces value in
  let '(neg, l) :=
    match l with
    | b :: l' => if b =? 43 then (false, l') else if b =? 45 then (true, l') else (false, l)
    | [] => (false, [])
    end in
  match l with
  | [] => None
  | b :: _ =>
    if b =? 95 then None
    else match scan_digits l false 0 0 with
         | Some (v, digits, rest) =>
           if (digits =? 0)%nat || (4300 <? digits)%nat then None
           else if decide (skip_spaces rest = []) then Some (if neg then - v else v)
           else None
         | None => None
         end
  end.

(** The state of [decode_response]: its decoder and its three dictionaries. *)
Record h2_state : Type := mkState {
  st_decoder : HpackDecoder;
  st_streams : gmap Z H2StreamResponse;
  st_pending : gmap Z (list Z);
  st_bodies : gmap Z (list Z);
}.

Definition initial_state : h2_state := mkState fresh_decoder ∅ ∅ ∅.

Definition _stream (streams : gmap Z H2StreamResponse) (sid : Z)
    : gmap Z H2StreamResponse * H2StreamResponse :=
  match streams !! sid with
  | Some got => (streams, got)
  | None => (<[sid := new_response sid]> streams, new_response sid)
  end.

(** [_stream(sid)] followed by an attribute assignment. *)
Definition update_stream (f : H2StreamResponse -> H2StreamResponse) (sid : Z)
    (streams : gmap Z H2StreamResponse) : gmap Z H2StreamResponse :=
  let '(streams, got) := _stream streams sid in <[sid := f got]> streams.

Definition STATUS_NAME : list Z := bs ":status".

(** The loop over the decoded fields: the status it leaves and the list
    [rest]. *)
Fixpoint split_fields (decoded : list header) (status : Z) (rest : list header)
    : Z * list header :=
  match decoded with
  | [] => (status, rest)
  | (name, value) :: decoded =>
    if decide (name = STATUS_NAME) then split_fields decoded (default 0 (py_int value)) rest
    else if decide (head name = Some 58) then split_fields decoded status rest
    else split_fields decoded status (rest ++ [(name, value)])
  end.

Definition _apply_headers (st : h2_state) (sid : Z) (block : list Z) : res pyerr h2_state :=
  let '(streams, stream) := _stream (st_streams st) sid in
  let! (decoder, decoded) := hpack_decode (st_decoder st) block in
  let '(status, rest) := split_fields decoded (r_status stream) [] in
  Ok (mkState decoder (<[sid := set_headers rest (set_status status stream)]> streams)
        (st_pending st) (st_bodies st)).

Definition with_streams (f : gmap Z H2StreamResponse -> gmap Z H2StreamResponse)
    (st : h2_state) : h2_state :=
  mkState (st_decoder st) (f (st_streams st)) (st_pending st) (st_bodies st).

Definition with_pending (f : gmap Z (list Z) -> gmap Z (list Z)) (st : h2_state) : h2_state :=
  mkState (st_decoder st) (st_streams st) (f (st_pending st)) (st_bodies st).

Definition with_bodies (f : gmap Z (list Z) -> gmap Z (list Z)) (st : h2_state) : h2_state :=
  mkState (st_decoder st) (st_streams st) (st_pending st) (f (st_bodies st)).

(** The body of [for frame in parse_frames(data)]. *)
Definition handle_frame (st : h2_state) (frame : Frame) : res pyerr h2_state :=
  let sid := f_stream_id frame in
  let flags := f_flags frame in
  if sid =? 0 then Ok st
  else if f_type frame =? HEADERS then
    let! block := _header_block frame in
    let! st :=
      (if has_flag flags FLAG_END_HEADERS then _apply_headers st sid block
       else Ok (with_pending (insert sid block) st)) in
    Ok (if has_flag flags FLAG_END_STREAM
        then with_streams (update_stream set_ended sid) st else st)
  else if f_type frame =? CONTINUATION then
    match st_pending st !! sid with
    | None => Ok st
    | Some buf =>
      let buf := buf ++ f_payload frame in
      let st := with_pending (insert sid buf) st in
      if has_flag flags FLAG_END_HEADERS then
        let! st := _apply_headers st sid buf in
        Ok (with_pending (delete sid) st)
      else Ok st
    end
  else if f_type frame =? DATA then
    let st := with_streams (fun m => fst (_stream m sid)) st in
    let st := with_bodies (fun m => <[sid := default [] (m !! sid) ++ f_payload frame]> m) st in
    Ok (if has_flag flags FLAG_END_STREAM
        then with_streams (update_stream set_ended sid) st else st)
  else if f_type frame =? RST_STREAM then
    Ok (with_streams (update_stream
          (set_reset (from_bytes_be (pyslice (f_payload frame) 0 4))) sid) st)
  else Ok st.

Fixpoint handle_frames (st : h2_state) (frames : list Frame) : res pyerr h2_state :=
  match frames with
  | [] => Ok st
  | frame :: frames => let! st := handle_frame st frame in handle_frames st frames
  end.

(** [for stream_id, body in bodies.items(): streams[stream_id].body = ...]. *)
Definition freeze_bodies (st : h2_state) : gmap Z H2StreamResponse :=
  map_imap (fun sid r =>
    Some (match st_bodies st !! sid with Some b => set_body b r | None => r end))
    (st_streams st).

Definition decode_response (data : list Z) : res pyerr (gmap Z H2StreamResponse) :=
  let! st := handle_frames initial_state (parse_frames data) in
  Ok (freeze_bodies st).

Fixpoint first_goaway (frames : list Frame) : option Z :=
  match frames with
  | [] => None
  | frame :: frames =>
    if (f_type frame =? GOAWAY) && (8 <=? zlen (f_payload frame))
    then Some (from_bytes_be (pyslice (f_payload frame) 4 8))
    else first_goaway frames
  end.

Definition goaway_error (data : list Z) : option Z := first_goaway (parse_frames data).
