(* ===== verification/H2FrameFacts.v ===== *)
(** * The frame layer: [parse_frames] against RFC 9113 section 4.1

    [encode_frame] is the wire image of a frame.  [parse_frames] is shown to
    be its inverse, torn tail included, and on arbitrary bytes to cut the
    buffer into exactly the complete frames it holds. *)

From stdpp Require Import base list numbers gmap strings.
From Stdlib Require Import ZArith Lia.
From S2P Require Import Prelude H2Tables H2Codec.
#[local] Open Scope Z_scope.

(** ** Wire images *)

Definition frame_ok (f : Frame) : Prop :=
  byte_ok (f_type f) /\ byte_ok (f_flags f) /\
  0 <= f_stream_id f < 2 ^ 31 /\ zlen (f_payload f) < 2 ^ 24 /\
  bytes_ok (f_payload f).

(** The nine-octet header with its reserved bit [r], then the payload. *)
Definition frame_image (r : Z) (f : Frame) : list Z :=
  to_bytes_be 3 (zlen (f_payload f)) ++ f_type f :: f_flags f ::
  to_bytes_be 4 (f_stream_id f + r * 2 ^ 31) ++ f_payload f.

Definition encode_frame (f : Frame) : list Z := frame_image 0 f.

(** A buffer that holds no complete frame at its start. *)
Definition incomplete (s : list Z) : Prop :=
  zlen s < 9 \/ zlen s < 9 + from_bytes_be (take 3 s).

Lemma frame_image_zlen r f : zlen (frame_image r f) = 9 + zlen (f_payload f).
Proof.
  unfold frame_image.
  rewrite zlen_app, !zlen_cons, zlen_app, !to_bytes_be_zlen. lia.
Qed.

(** ** The loop on the unread suffix *)

Definition cut_frame (s : list Z) : option (Frame * list Z) :=
  if 9 <=? zlen s then
    let len := from_bytes_be (take 3 s) in
    if 9 + len >? zlen s then None
    else Some (mkFrame (default 0 (s !! 3%nat)) (default 0 (s !! 4%nat))
                 (Z.land (from_bytes_be (take 4 (drop 5 s))) 0x7FFFFFFF)
                 (take (Z.to_nat len) (drop 9 s)),
               drop (Z.to_nat (9 + len)) s)
  else None.

Fixpoint cut_frames (fuel : nat) (s : list Z) : list Frame :=
  match fuel with
  | O => []
  | S fuel =>
    match cut_frame s with
    | Some (f, s) => f :: cut_frames fuel s
    | None => []
    end
  end.

Lemma bytes_ok_take n l : bytes_ok l -> bytes_ok (take n l).
Proof. apply Forall_take. Qed.

Lemma bytes_ok_drop n l : bytes_ok l -> bytes_ok (drop n l).
Proof. apply Forall_drop. Qed.

#[local] Hint Resolve bytes_ok_take bytes_ok_drop : wreath.

Lemma from_take_nonneg n l : bytes_ok l -> 0 <= from_bytes_be (take n l).
Proof. intros. apply from_bytes_be_bound. auto with wreath. Qed.

Lemma drop_app_at {A} (p s : list A) i k :
  0 <= k -> i = zlen p + k -> drop (Z.to_nat i) (p ++ s) = drop (Z.to_nat k) s.
Proof.
  intros Hk ->. unfold zlen.
  replace (Z.to_nat _) with (length p + Z.to_nat k)%nat by lia.
  by rewrite <- drop_drop, drop_app_length.
Qed.

Lemma pyslice_app_at {A} (p s : list A) i j a b :
  0 <= a -> 0 <= b -> i = zlen p + a -> j = zlen p + b ->
  pyslice (p ++ s) i j = take (Z.to_nat (b - a)) (drop (Z.to_nat a) s).
Proof.
  intros Ha Hb -> ->. rewrite pyslice_nonneg by (unfold zlen; lia).
  rewrite (drop_app_at p s _ a) by lia. f_equal. lia.
Qed.

Lemma pyget_app_at {A} (p s : list A) i k :
  0 <= k -> i = zlen p + k -> pyget (p ++ s) i = s !! Z.to_nat k.
Proof.
  intros Hk ->. rewrite pyget_head_drop by (unfold zlen; lia).
  rewrite (drop_app_at p s _ k) by lia.
  by rewrite <- pyget_head_drop, pyget_nonneg by lia.
Qed.

(** The loop of the source at offset [zlen p] is the loop on the suffix. *)
Lemma parse_frames_loop_cut fuel p s :
  bytes_ok s ->
  parse_frames_loop fuel (p ++ s) (zlen (p ++ s)) (zlen p) = cut_frames fuel s.
Proof.
  revert p s. induction fuel as [|fuel IH]; intros p s Hs; [done|].
  cbn [parse_frames_loop cut_frames]. unfold cut_frame. rewrite zlen_app.
  pose proof (from_take_nonneg 3 s Hs) as Hlen.
  replace (zlen p + 9 <=? zlen p + zlen s) with (9 <=? zlen s) by lia.
  destruct (9 <=? zlen s) eqn:E9; [|done].
  rewrite (pyslice_app_at p s _ _ 0 3), (pyslice_app_at p s _ _ 5 9),
    (pyget_app_at p s _ 3), (pyget_app_at p s _ 4) by lia.
  change (take (Z.to_nat (3 - 0)) (drop (Z.to_nat 0) s)) with (take 3 s).
  set (len := from_bytes_be (take 3 s)) in *.
  replace (zlen p + 9 + len >? zlen p + zlen s) with (9 + len >? zlen s) by lia.
  destruct (9 + len >? zlen s) eqn:Eend; [done|].
  rewrite (pyslice_app_at p s _ _ 9 (9 + len)) by lia.
  replace (9 + len - 9) with len by lia.
  f_equal.
  rewrite <- (take_drop (Z.to_nat (9 + len)) s) at 1 2.
  rewrite app_assoc. rewrite <- zlen_app, app_assoc.
  replace (zlen p + (9 + len)) with (zlen (p ++ take (Z.to_nat (9 + len)) s)).
  { apply IH. auto with wreath. }
  rewrite zlen_app. f_equal. unfold zlen in *. rewrite length_take. lia.
Qed.

Lemma cut_frame_length s f s' :
  bytes_ok s -> cut_frame s = Some (f, s') -> (length s' < length s)%nat /\ bytes_ok s'.
Proof.
  intros Hs. unfold cut_frame. pose proof (from_take_nonneg 3 s Hs).
  destruct (9 <=? zlen s) eqn:E; [|done].
  destruct (_ >? _) eqn:E'; [done|]. intros [= <- <-].
  split; [|auto with wreath]. rewrite length_drop. unfold zlen in *. lia.
Qed.

(** Any amount of fuel above the length gives the same frames. *)
Lemma cut_frames_fuel k1 k2 s :
  bytes_ok s -> (length s <= k1)%nat -> (length s <= k2)%nat ->
  cut_frames k1 s = cut_frames k2 s.
Proof.
  revert k2 s. induction k1 as [|k1 IH]; intros k2 s Hs H1 H2.
  - destruct s; [|simpl in *; lia]. destruct k2; done.
  - destruct k2 as [|k2]; [destruct s; [done|simpl in *; lia]|]. simpl.
    destruct (cut_frame s) as [[f s']|] eqn:E; [|done].
    destruct (cut_frame_length _ _ _ Hs E). f_equal. apply IH; (done || lia).
Qed.

(** The unfolding equation of the parser, free of fuel. *)
Lemma parse_frames_eq s :
  bytes_ok s ->
  parse_frames s =
    match cut_frame s with
    | Some (f, s') => f :: parse_frames s'
    | None => []
    end.
Proof.
  intros Hs. unfold parse_frames.
  pose proof (parse_frames_loop_cut (length s) [] s Hs) as E. simpl in E.
  rewrite zlen_nil in E. rewrite E.
  destruct (length s) as [|k] eqn:Hk; [by destruct s|]. simpl.
  destruct (cut_frame s) as [[f s']|] eqn:Ec; [|done].
  destruct (cut_frame_length _ _ _ Hs Ec).
  pose proof (parse_frames_loop_cut (length s') [] s' ltac:(done)) as E'. simpl in E'.
  rewrite zlen_nil in E'. rewrite E'.
  f_equal. apply cut_frames_fuel; (done || lia).
Qed.

(** ** One frame *)

Lemma land_stream_mask v : Z.land v 0x7FFFFFFF = v mod 2 ^ 31.
Proof. change 0x7FFFFFFF with (Z.ones 31). apply Z.land_ones. lia. Qed.

Lemma cut_frame_image r f s :
  frame_ok f -> 0 <= r <= 1 -> cut_frame (frame_image r f ++ s) = Some (f, s).
Proof.
  intros (Ht & Hf & Hs & Hp & _) Hr. unfold cut_frame.
  pose proof (zlen_nonneg (f_payload f)). pose proof (zlen_nonneg s).
  assert (Htake : take 3 (frame_image r f ++ s) = to_bytes_be 3 (zlen (f_payload f))).
  { unfold frame_image. rewrite <- app_assoc. by apply take_app_length'. }
  rewrite Htake, from_to_bytes_be by (change (256 ^ Z.of_nat 3) with (2 ^ 24); lia).
  rewrite zlen_app, frame_image_zlen.
  replace (9 <=? _) with true by lia. replace (_ >? _) with false by lia.
  rewrite (drop_app_length' (frame_image r f) s (Z.to_nat (9 + _)))
    by (pose proof (frame_image_zlen r f); unfold zlen in *; lia).
  destruct f as [ty fl sid pl]. unfold frame_image. simpl in *. do 3 f_equal.
  - change (from_bytes_be _) with
      (from_bytes_be (to_bytes_be 4 (sid + r * 2 ^ 31))).
    rewrite from_to_bytes_be by (change (256 ^ Z.of_nat 4) with (2 ^ 32); lia).
    rewrite land_stream_mask. rewrite Z.mod_add, Z.mod_small by lia. done.
  - by rewrite drop_0, take_app_length' by (unfold zlen; lia).
Qed.

Lemma cut_frame_inv s f s' :
  bytes_ok s -> cut_frame s = Some (f, s') ->
  frame_ok f /\ exists r, 0 <= r <= 1 /\ s = frame_image r f ++ s'.
Proof.
  intros Hs. unfold cut_frame. destruct (9 <=? zlen s) eqn:E9; [|done].
  destruct (_ >? _) eqn:Eend; [done|]. intros [= <- <-].
  destruct s as [|a [|b [|c [|ty [|fl [|d [|e [|g [|h rest]]]]]]]]];
    rewrite ?zlen_cons, ?zlen_nil in E9; try (exfalso; clear - E9; lia).
  pose proof (zlen_nonneg rest). rewrite !zlen_cons in Eend. clear E9.
  set (len := from_bytes_be (take 3 _)) in *.
  assert (Hb3 : bytes_ok [a; b; c]) by (by apply (bytes_ok_take 3) in Hs).
  assert (Hb4 : bytes_ok [d; e; g; h]).
  { apply (bytes_ok_drop 5), (bytes_ok_take 4) in Hs. done. }
  assert (Hlen : 0 <= len < 2 ^ 24) by exact (from_bytes_be_bound _ Hb3).
  set (word := from_bytes_be [d; e; g; h]).
  assert (Hword : 0 <= word < 2 ^ 32) by exact (from_bytes_be_bound _ Hb4).
  simpl take. simpl drop. simpl lookup. simpl default. rewrite drop_0, take_0. fold word.
  rewrite land_stream_mask.
  assert (Hty : byte_ok ty /\ byte_ok fl).
  { unfold bytes_ok in Hs. rewrite !Forall_cons_iff in Hs. tauto. }
  assert (Hpl : zlen (take (Z.to_nat len) rest) = len).
  { unfold zlen in *. rewrite length_take. lia. }
  split.
  - unfold frame_ok. simpl. rewrite Hpl.
    apply (bytes_ok_drop 9), (bytes_ok_take (Z.to_nat len)) in Hs. simpl in Hs.
    rewrite drop_0 in Hs. intuition; apply Z.mod_pos_bound; lia.
  - exists (word / 2 ^ 31). split.
    { split; [apply Z.div_pos; lia|]. apply Z.lt_succ_r, Z.div_lt_upper_bound; lia. }
    unfold frame_image. simpl f_payload. simpl f_type. simpl f_flags. simpl f_stream_id.
    pose proof (to_from_bytes_be _ Hb3) as T3. pose proof (to_from_bytes_be _ Hb4) as T4.
    cbn [length] in T3, T4. rewrite Hpl. fold word in T4.
    change (from_bytes_be [a; b; c]) with len in T3. rewrite T3.
    replace (word mod 2 ^ 31 + word / 2 ^ 31 * 2 ^ 31) with word
      by (rewrite (Z.div_mod word (2 ^ 31)) at 1; lia).
    rewrite T4. simpl. do 9 f_equal.
    replace (Z.to_nat (9 + len)) with (9 + Z.to_nat len)%nat by lia. simpl.
    by rewrite take_drop.
Qed.

Lemma cut_frame_None s : bytes_ok s -> cut_frame s = None <-> incomplete s.
Proof.
  intros Hs. unfold cut_frame, incomplete.
  pose proof (from_take_nonneg 3 s Hs).
  destruct (9 <=? zlen s) eqn:E9; [destruct (_ >? _) eqn:E|];
    split; (done || lia || intros; lia).
Qed.

Lemma frame_image_bytes r f : frame_ok f -> bytes_ok (frame_image r f).
Proof.
  intros (Ht & Hf & _ & _ & Hp). unfold frame_image, bytes_ok.
  rewrite Forall_app. split; [apply to_bytes_be_ok|].
  constructor; [done|]. constructor; [done|].
  rewrite Forall_app. split; [apply (to_bytes_be_ok 4)|done].
Qed.

Lemma parse_frames_encode_bytes fs tail :
  Forall frame_ok fs -> bytes_ok tail ->
  bytes_ok (concat (map encode_frame fs) ++ tail).
Proof.
  intros Hfs Ht. unfold bytes_ok. rewrite Forall_app. split; [|done].
  induction Hfs as [|f fs Hf _ IH]; cbn [map concat]; [constructor|].
  rewrite Forall_app. split; [|done]. by apply frame_image_bytes.
Qed.

(** ** The properties *)

(** C2. reading back is exact.  For any well-formed frames written one after
    the other and followed by a tail that holds no complete frame, the parser
    returns those frames and nothing of the tail. *)
Theorem parse_frames_encode fs tail :
  Forall frame_ok fs -> bytes_ok tail -> incomplete tail ->
  parse_frames (concat (map encode_frame fs) ++ tail) = fs.
Proof.
  intros Hfs Ht Hi.
  induction Hfs as [|f fs Hf Hfs IH]; rewrite parse_frames_eq
    by (apply parse_frames_encode_bytes; [by constructor|done]).
  - simpl. by apply cut_frame_None in Hi as ->.
  - cbn [map concat]. rewrite <- app_assoc. unfold encode_frame at 1.
    rewrite cut_frame_image by (done || lia). by rewrite IH.
Qed.

(** A HEADERS frame, a DATA frame, and a DATA frame torn in its payload. *)
Lemma parse_frames_encode_witness :
  parse_frames (concat (map encode_frame
      [mkFrame 1 4 3 [0x88]; mkFrame 0 1 3 [104; 105]]) ++ [0; 0; 9; 0; 0; 0; 0; 0; 5; 1; 2])
  = [mkFrame 1 4 3 [0x88]; mkFrame 0 1 3 [104; 105]].
Proof.
  apply parse_frames_encode.
  - repeat constructor; simpl; lia.
  - unfold bytes_ok, byte_ok. repeat constructor; lia.
  - right. reflexivity.
Defined.

(** On arbitrary bytes the parser cuts the buffer at frame boundaries:
    the buffer is the images of the returned frames, in order, each
    well-formed and up to its reserved bit, then a rest that holds no
    complete frame. *)
Theorem parse_frames_exact data :
  bytes_ok data ->
  exists images rest,
    data = concat images ++ rest /\ incomplete rest /\
    Forall2 (fun f img => frame_ok f /\ exists r, 0 <= r <= 1 /\ img = frame_image r f)
      (parse_frames data) images.
Proof.
  remember (length data) as k eqn:Hk. revert data Hk.
  induction k as [k IH] using lt_wf_ind. intros data -> Hd.
  rewrite parse_frames_eq by done.
  destruct (cut_frame data) as [[f s']|] eqn:E.
  - destruct (cut_frame_length _ _ _ Hd E) as [Hlt Hs'].
    destruct (cut_frame_inv _ _ _ Hd E) as (Hf & r & Hr & ->).
    destruct (IH _ Hlt s' eq_refl Hs') as (images & rest & -> & Hi & HF).
    exists (frame_image r f :: images), rest. simpl. rewrite app_assoc.
    split; [done|]. split; [done|]. constructor; [|done]. eauto.
  - exists [], data. split; [done|]. split; [by apply cut_frame_None|constructor].
Qed.

Lemma parse_frames_exact_witness :
  exists images rest,
    [0; 0; 1; 7; 0; 0x80; 0; 0; 0; 42; 1] = concat images ++ rest /\ incomplete rest /\
    Forall2 (fun f img => frame_ok f /\ exists r, 0 <= r <= 1 /\ img = frame_image r f)
      (parse_frames [0; 0; 1; 7; 0; 0x80; 0; 0; 0; 42; 1]) images.
Proof.
  apply (parse_frames_exact [0; 0; 1; 7; 0; 0x80; 0; 0; 0; 42; 1]).
  unfold bytes_ok, byte_ok. repeat constructor; lia.
Defined.

(** ** Huffman strings: the decoder inverts the RFC 7541 section 5.2 encoding

    The integer bit buffer of the decoder is related to a list of bits; on
    lists the greedy search is correct because the code is prefix-free, which
    is checked on the table itself. *)

(** *** Bit strings, most significant bit first *)

Definition bits_val (l : list bool) : Z :=
  fold_left (fun acc b => 2 * acc + Z.b2z b) l 0.

Definition byte_bits (b : Z) : list bool :=
  map (Z.testbit b) [7; 6; 5; 4; 3; 2; 1; 0].

(** The [len] low bits of [code]. *)
Fixpoint code_bits (len : nat) (code : Z) : list bool :=
  match len with
  | O => []
  | S len => Z.testbit code (Z.of_nat len) :: code_bits len code
  end.

Definition sym_bits (sym : Z) : list bool :=
  match _HUFFMAN_CODES !! Z.to_nat sym with
  | Some (code, len) => code_bits (Z.to_nat len) code
  | None => []
  end.

(** Eight bits per byte; the caller passes a multiple of eight. *)
Fixpoint pack (l : list bool) : list Z :=
  match l with
  | b7 :: b6 :: b5 :: b4 :: b3 :: b2 :: b1 :: b0 :: l =>
    bits_val [b7; b6; b5; b4; b3; b2; b1; b0] :: pack l
  | _ => []
  end.

(** The encoder of RFC 7541 section 5.2: the codes of the bytes, filled up to
    a byte boundary with the most significant bits of EOS, all ones. *)
Definition padding (n : nat) : list bool := replicate ((8 - n mod 8) mod 8) true.

Definition huffman_encode (s : list Z) : list Z :=
  let body := concat (map sym_bits s) in pack (body ++ padding (length body)).

(** *** Values of bit strings *)

Lemma bits_val_acc l a :
  fold_left (fun acc b => 2 * acc + Z.b2z b) l a = a * 2 ^ zlen l + bits_val l.
Proof.
  unfold bits_val. revert a. induction l as [|b l IH]; intros a.
  - change (2 ^ zlen []) with 1. simpl. lia.
  - cbn [fold_left]. rewrite IH, (IH (2 * 0 + Z.b2z b)), zlen_cons.
    rewrite Z.pow_add_r by (pose proof (zlen_nonneg l); lia). lia.
Qed.

Lemma bits_val_app l k : bits_val (l ++ k) = bits_val l * 2 ^ zlen k + bits_val k.
Proof. unfold bits_val at 1. rewrite fold_left_app. apply bits_val_acc. Qed.

Lemma bits_val_cons b l : bits_val (b :: l) = Z.b2z b * 2 ^ zlen l + bits_val l.
Proof. unfold bits_val at 1. cbn [fold_left]. rewrite bits_val_acc. lia. Qed.

Lemma bits_val_bound l : 0 <= bits_val l < 2 ^ zlen l.
Proof.
  induction l as [|b l IH]; [change (2 ^ zlen []) with 1; unfold bits_val; simpl; lia|].
  rewrite bits_val_cons, zlen_cons, Z.pow_add_r by (pose proof (zlen_nonneg l); lia).
  destruct b; simpl; lia.
Qed.

Lemma bits_val_inj l k : length l = length k -> bits_val l = bits_val k -> l = k.
Proof.
  revert k. induction l as [|b l IH]; intros [|c k]; simpl; try done.
  intros [= Hlen]. rewrite !bits_val_cons.
  pose proof (bits_val_bound l). pose proof (bits_val_bound k).
  assert (zlen l = zlen k) as Hz by (unfold zlen; lia). rewrite Hz in *.
  intros E. assert (b = c) as -> by (destruct b, c; simpl in *; (done || lia)).
  f_equal. apply IH; [done|]. lia.
Qed.

Lemma code_bits_length n code : length (code_bits n code) = n.
Proof. induction n; simpl; congruence. Qed.

Lemma bits_val_code_bits n code :
  bits_val (code_bits n code) = code mod 2 ^ Z.of_nat n.
Proof.
  induction n as [|n IH].
  - change (2 ^ Z.of_nat 0) with 1. by rewrite Z.mod_1_r.
  - cbn [code_bits]. rewrite bits_val_cons, IH. unfold zlen. rewrite code_bits_length.
    rewrite Nat2Z.inj_succ, Z.pow_succ_r by lia.
    rewrite (Z.mul_comm 2), Z.rem_mul_r by lia.
    rewrite Z.testbit_spec' by lia. lia.
Qed.

Lemma bits_val_byte_bits b : byte_ok b -> bits_val (byte_bits b) = b.
Proof.
  intros [H0 H1]. change (byte_bits b) with (code_bits 8 b).
  rewrite bits_val_code_bits. by apply Z.mod_small.
Qed.

Lemma byte_bits_val b7 b6 b5 b4 b3 b2 b1 b0 :
  byte_bits (bits_val [b7; b6; b5; b4; b3; b2; b1; b0]) =
  [b7; b6; b5; b4; b3; b2; b1; b0].
Proof. by destruct b7, b6, b5, b4, b3, b2, b1, b0. Qed.

(** *** The integer buffer holds the bits of a list *)

Lemma land_low_mask v n : 0 <= n -> Z.land v (Z.shiftl 1 n - 1) = v mod 2 ^ n.
Proof.
  intros. rewrite Z.shiftl_1_l, Z.sub_1_r, <- Z.ones_equiv. by apply Z.land_ones.
Qed.

Lemma buffer_top l k :
  Z.land (Z.shiftr (bits_val (l ++ k)) (zlen (l ++ k) - zlen l)) (Z.shiftl 1 (zlen l) - 1)
  = bits_val l.
Proof.
  pose proof (zlen_nonneg l). pose proof (zlen_nonneg k).
  pose proof (bits_val_bound l). pose proof (bits_val_bound k).
  rewrite land_low_mask, Z.shiftr_div_pow2 by (rewrite ?zlen_app; lia).
  rewrite zlen_app, bits_val_app. replace (zlen l + zlen k - zlen l) with (zlen k) by lia.
  rewrite Z.div_add_l, Z.div_small, Z.add_0_r by lia. by apply Z.mod_small.
Qed.

Lemma buffer_rest l k :
  Z.land (bits_val (l ++ k)) (Z.shiftl 1 (zlen (l ++ k) - zlen l) - 1) = bits_val k.
Proof.
  pose proof (zlen_nonneg k). pose proof (bits_val_bound k).
  rewrite zlen_app. replace (zlen l + zlen k - zlen l) with (zlen k) by lia.
  rewrite land_low_mask, bits_val_app by lia.
  rewrite Z.add_comm, Z.mod_add by lia. by apply Z.mod_small.
Qed.

Lemma buffer_push l b :
  byte_ok b -> Z.lor (Z.shiftl (bits_val l) 8) b = bits_val (l ++ byte_bits b).
Proof.
  intros Hb. rewrite bits_val_app, bits_val_byte_bits by done. change (zlen (byte_bits b)) with 8.
  rewrite <- Z.shiftl_mul_pow2 by lia. symmetry. apply Z.add_nocarry_lor.
  apply Z.bits_inj'. intros n Hn. rewrite Z.land_spec, Z.bits_0.
  destruct (decide (n < 8)).
  - by rewrite Z.shiftl_spec_low.
  - destruct Hb. rewrite (Z.bits_above_log2 b n), andb_false_r; [done|lia|].
    destruct (decide (b = 0)) as [->|]; [simpl; lia|].
    apply Z.log2_lt_pow2; [lia|]. apply Z.lt_le_trans with (2 ^ 8); [lia|].
    apply Z.pow_le_mono_r; lia.
Qed.

(** *** The table *)

Lemma by_len_of_sound l len code sym :
  default ∅ (_by_len_of l !! len) !! code = Some sym ->
  0 <= sym /\ l !! Z.to_nat sym = Some (code, len).
Proof.
  induction l as [|[c n] l IH] using rev_ind; [done|].
  unfold _by_len_of. rewrite imap_app, foldl_app. simpl.
  change (foldl _ ∅ _) with (_by_len_of l).
  rewrite lookup_insert. case_decide as Hn; [subst n|].
  - simpl. rewrite lookup_insert. case_decide as Hc; [subst c|].
    + intros [= <-]. split; [lia|]. rewrite Nat2Z.id, Nat.add_0_r.
      by rewrite lookup_app_r, Nat.sub_diag by lia.
    + intros H. destruct (IH H) as [? Hl]. split; [done|].
      by rewrite lookup_app_l by by eapply lookup_lt_Some.
  - intros H. destruct (IH H) as [? Hl]. split; [done|].
    by rewrite lookup_app_l by by eapply lookup_lt_Some.
Qed.

Definition symbols : list Z := map Z.of_nat (seq 0 257).

Lemma elem_symbols sym : 0 <= sym <= 256 -> sym ∈ symbols.
Proof.
  intros. unfold symbols. apply list_elem_of_fmap.
  exists (Z.to_nat sym). split; [lia|]. apply elem_of_seq. lia.
Qed.

(** Every code is found under its length and value, and is 5 to 30 bits long. *)
Definition code_found (sym : Z) : bool :=
  bool_decide (default ∅ (_by_len !! zlen (sym_bits sym)) !! bits_val (sym_bits sym) = Some sym)
  && (5 <=? zlen (sym_bits sym)) && (zlen (sym_bits sym) <=? 30).

Fixpoint is_prefix (l k : list bool) : bool :=
  match l, k with
  | [], _ => true
  | b :: l, c :: k => eqb b c && is_prefix l k
  | _ :: _, [] => false
  end.

Definition no_prefix (p q : Z * list bool) : bool :=
  negb (is_prefix (snd p) (snd q)) || (fst p =? fst q).

Definition coded : list (Z * list bool) := map (fun sym => (sym, sym_bits sym)) symbols.

Lemma table_complete : forallb code_found symbols = true.
Proof. vm_compute. reflexivity. Qed.

Lemma table_prefix_free : forallb (fun p => forallb (no_prefix p) coded) coded = true.
Proof. vm_compute. reflexivity. Qed.

Lemma by_len_eq : _by_len = _by_len_of _HUFFMAN_CODES.
Proof. reflexivity. Qed.

Lemma huffman_codes_length : length _HUFFMAN_CODES = 257%nat.
Proof. reflexivity. Qed.

#[local] Opaque _by_len _by_len_of _HUFFMAN_CODES.

Lemma by_len_complete sym :
  0 <= sym <= 256 ->
  default ∅ (_by_len !! zlen (sym_bits sym)) !! bits_val (sym_bits sym) = Some sym /\
  5 <= zlen (sym_bits sym) <= 30.
Proof.
  intros Hs. pose proof (forallb_elem _ _ _ table_complete (elem_symbols sym Hs)) as T.
  unfold code_found in T. rewrite !andb_true_iff, bool_decide_eq_true in T.
  destruct T as [[T1 T2] T3]. split; [exact T1|]. lia.
Qed.

Lemma is_prefix_app l k : is_prefix l (l ++ k) = true.
Proof. induction l as [|[] l IH]; simpl; auto. Qed.

Lemma elem_coded sym : 0 <= sym <= 256 -> (sym, sym_bits sym) ∈ coded.
Proof.
  intros. unfold coded. apply list_elem_of_fmap. exists sym.
  split; [reflexivity|by apply elem_symbols].
Qed.

Lemma sym_bits_prefix x y k :
  0 <= x <= 256 -> 0 <= y <= 256 -> sym_bits y = sym_bits x ++ k -> x = y.
Proof.
  intros Hx Hy E.
  pose proof (forallb_elem _ _ _ table_prefix_free (elem_coded x Hx)) as T.
  cbv beta in T. apply (fun H => forallb_elem _ _ _ H (elem_coded y Hy)) in T.
  unfold no_prefix in T. cbn [fst snd] in T. rewrite E, is_prefix_app in T. simpl in T.
  by apply Z.eqb_eq.
Qed.

Lemma by_len_bits l sym :
  default ∅ (_by_len !! zlen l) !! bits_val l = Some sym ->
  0 <= sym <= 256 /\ sym_bits sym = l.
Proof.
  rewrite by_len_eq. intros H. apply by_len_of_sound in H as [H0 Hl].
  split.
  - apply lookup_lt_Some in Hl. rewrite huffman_codes_length in Hl. lia.
  - unfold sym_bits. rewrite Hl. unfold zlen. rewrite Nat2Z.id.
    apply bits_val_inj; [apply code_bits_length|].
    rewrite bits_val_code_bits. apply Z.mod_small, bits_val_bound.
Qed.

(** *** The greedy search *)

Lemma zlen_take_drop {A} (n : nat) (l : list A) :
  (n <= length l)%nat -> zlen (take n l) = Z.of_nat n.
Proof. intros. unfold zlen. rewrite length_take. lia. Qed.

(** What the search reads at length [a] is the first [a] bits. *)
Lemma search_code l a :
  (a <= length l)%nat ->
  Z.land (Z.shiftr (bits_val l) (zlen l - Z.of_nat a)) (Z.shiftl 1 (Z.of_nat a) - 1)
  = bits_val (take a l).
Proof.
  intros Ha. pose proof (buffer_top (take a l) (drop a l)) as E.
  rewrite take_drop, zlen_take_drop in E by done. exact E.
Qed.

Lemma match_found sym rest a n :
  0 <= sym < 256 -> (a <= length (sym_bits sym) < a + n)%nat ->
  huffman_match (map Z.of_nat (seq a n))
    (bits_val (sym_bits sym ++ rest)) (zlen (sym_bits sym ++ rest))
  = Some (sym, zlen (sym_bits sym)).
Proof.
  intros Hs. set (c := sym_bits sym). revert a.
  induction n as [|n IH]; intros a Ha; [lia|].
  cbn [seq map huffman_match].
  rewrite gtb_false by (unfold zlen; rewrite length_app; lia).
  rewrite search_code by (rewrite length_app; lia).
  destruct (decide (a = length c)) as [->|Hne].
  - rewrite take_app_length. change (Z.of_nat (length c)) with (zlen c). unfold c.
    rewrite (proj1 (by_len_complete sym ltac:(lia))).
    by replace (sym <? 256) with true by lia.
  - rewrite take_app_le by lia.
    destruct (default ∅ _ !! _) as [sym'|] eqn:E; [exfalso|apply IH; lia].
    rewrite <- (zlen_take_drop a c) in E by lia.
    destruct (by_len_bits _ _ E) as [Hs' E'].
    assert (sym' = sym) as ->.
    { apply (sym_bits_prefix sym' sym (drop a c)); [done|lia|].
      rewrite E'. by rewrite take_drop. }
    apply (f_equal length) in E'. rewrite length_take in E'. fold c in E'. lia.
Qed.

Lemma match_none sym l k a n :
  0 <= sym <= 256 -> sym_bits sym = l ++ k -> k <> [] ->
  huffman_match (map Z.of_nat (seq a n)) (bits_val l) (zlen l) = None.
Proof.
  intros Hs Hl Hk. revert a. induction n as [|n IH]; intros a; [done|].
  cbn [seq map huffman_match].
  destruct (Z.of_nat a >? zlen l) eqn:Ea; [done|].
  assert (a <= length l)%nat by (unfold zlen in Ea; lia).
  rewrite search_code by done.
  destruct (default ∅ _ !! _) as [sym'|] eqn:E; [exfalso|apply IH].
  rewrite <- (zlen_take_drop a l) in E by lia.
  destruct (by_len_bits _ _ E) as [Hs' E'].
  assert (sym' = sym) as ->.
  { apply (sym_bits_prefix sym' sym (drop a l ++ k)); [done|lia|].
    rewrite E', Hl. by rewrite app_assoc, take_drop. }
  rewrite Hl in E'. apply (f_equal length) in E'.
  rewrite length_app, length_take in E'. clear E.
  destruct k; [exact (Hk eq_refl)|]. simpl in E'. lia.
Qed.

Lemma match_padding l :
  Forall (eq true) l -> (length l < 8)%nat ->
  huffman_match huffman_lengths (bits_val l) (zlen l) = None.
Proof.
  intros Hl Hn.
  assert (l = replicate (length l) true) as ->.
  { clear Hn. induction Hl as [|b l <- _ IH]; simpl; [done|]. by f_equal. }
  apply (match_none 256 _ (replicate (30 - length l) true)); [lia| |].
  - rewrite <- replicate_add.
    replace (length l + (30 - length l))%nat with 30%nat by lia.
    vm_compute. reflexivity.
  - destruct (30 - length l)%nat eqn:?; [lia|done].
Qed.

(** *** Draining the buffer *)

Definition stream (todo : list Z) (pad : list bool) : list bool :=
  concat (map sym_bits todo) ++ pad.

Lemma sym_bits_length sym :
  0 <= sym <= 256 -> (5 <= length (sym_bits sym) < 5 + 26)%nat.
Proof. intros H. destruct (by_len_complete sym H) as [_ E]. unfold zlen in E. lia. Qed.

(** With [l] buffered and [r] still to come, draining emits the symbols whose
    codes are complete in [l] and leaves the rest of the stream. *)
Lemma drain_stream todo pad l r fuel out :
  bytes_ok todo -> Forall (eq true) pad -> (length pad < 8)%nat ->
  l ++ r = stream todo pad -> (length l <= fuel)%nat ->
  exists done' todo' l',
    todo = done' ++ todo' /\ l' ++ r = stream todo' pad /\
    huffman_drain fuel (bits_val l) (zlen l) out = (bits_val l', zlen l', out ++ done') /\
    (r = [] -> todo' = []).
Proof.
  revert l fuel out. induction todo as [|x todo IH]; intros l fuel out Ht Hp Hn Hl Hf.
  - exists [], [], l. rewrite (app_nil_r out). split; [done|]. split; [done|].
    split; [|done]. destruct fuel; [reflexivity|]. cbn [huffman_drain].
    unfold stream in Hl. simpl in Hl. rewrite <- Hl in Hp, Hn.
    rewrite Forall_app in Hp. rewrite length_app in Hn.
    rewrite match_padding by (tauto || lia). reflexivity.
  - apply Forall_cons_iff in Ht as [Hx Ht]. unfold byte_ok in Hx.
    pose proof (sym_bits_length x ltac:(lia)) as Hlen.
    unfold stream in Hl. cbn [map concat] in Hl. rewrite <- app_assoc in Hl.
    destruct (decide (length (sym_bits x) <= length l)%nat) as [Hle|Hgt].
    + assert (l = sym_bits x ++ drop (length (sym_bits x)) l) as El.
      { rewrite <- (take_drop (length (sym_bits x)) l) at 1. f_equal.
        apply (f_equal (take (length (sym_bits x)))) in Hl.
        by rewrite take_app_le, take_app_length in Hl by done. }
      set (l1 := drop _ l) in El. rewrite El, <- app_assoc in Hl. apply app_inv_head in Hl.
      destruct fuel as [|fuel]; [lia|].
      destruct (IH l1 fuel (out ++ [x]) Ht Hp Hn Hl) as (d & t & l' & -> & Hl' & E & Hr).
      { rewrite El, length_app in Hf. lia. }
      exists (x :: d), t, l'. split; [reflexivity|]. split; [exact Hl'|]. split; [|exact Hr].
      rewrite El. cbn [huffman_drain]. unfold huffman_lengths.
      rewrite match_found by lia. rewrite buffer_rest, zlen_app.
      replace (zlen (sym_bits x) + zlen l1 - zlen (sym_bits x)) with (zlen l1) by lia.
      by rewrite E, <- app_assoc.
    + exists [], (x :: todo), l. rewrite (app_nil_r out). split; [done|].
      assert (Hpre : sym_bits x = l ++ drop (length l) (sym_bits x)).
      { rewrite <- (take_drop (length l) (sym_bits x)) at 1. f_equal.
        apply (f_equal (take (length l))) in Hl.
        by rewrite take_app_length, take_app_le in Hl by lia. }
      split; [unfold stream; cbn [map concat]; by rewrite <- app_assoc|]. split.
      * destruct fuel as [|fuel]; [done|]. cbn [huffman_drain]. unfold huffman_lengths.
        rewrite (match_none x l _ 5 26 ltac:(lia) Hpre); [done|].
        intros E. apply (f_equal length) in E. rewrite length_drop in E. simpl in E. lia.
      * intros ->. exfalso. apply (f_equal length) in Hl.
        rewrite !length_app in Hl. simpl in Hl. lia.
Qed.

(** *** Feeding whole bytes *)

Lemma feed_stream bytes todo pad l out :
  bytes_ok bytes -> bytes_ok todo -> Forall (eq true) pad -> (length pad < 8)%nat ->
  l ++ concat (map byte_bits bytes) = stream todo pad ->
  (bytes = [] -> todo = []) ->
  exists l', foldl huffman_feed (bits_val l, zlen l, out) bytes
             = (bits_val l', zlen l', out ++ todo).
Proof.
  revert todo l out. induction bytes as [|b bytes IH]; intros todo l out Hb Ht Hp Hn Hl Hd.
  - rewrite (Hd eq_refl), app_nil_r. by exists l.
  - apply Forall_cons_iff in Hb as [Hb0 Hb]. cbn [map concat] in Hl.
    rewrite app_assoc in Hl. cbn [foldl huffman_feed].
    rewrite buffer_push by done.
    replace (zlen l + 8) with (zlen (l ++ byte_bits b)) by (rewrite zlen_app; done).
    destruct (drain_stream todo pad (l ++ byte_bits b) (concat (map byte_bits bytes))
      (Z.to_nat (zlen (l ++ byte_bits b))) out Ht Hp Hn Hl) as (d & t & l' & -> & Hl' & -> & Hr).
    { unfold zlen. lia. }
    apply Forall_app in Ht as [_ Ht].
    destruct (IH t l' (out ++ d) Hb Ht Hp Hn Hl') as (l'' & ->).
    + intros ->. by apply Hr.
    + exists l''. by rewrite app_assoc.
Qed.

Lemma pack_bits n l :
  length l = (n * 8)%nat -> concat (map byte_bits (pack l)) = l /\ bytes_ok (pack l).
Proof.
  revert l. induction n as [|n IH]; intros l Hl.
  - destruct l; [|done]. split; [done|constructor].
  - do 8 (destruct l as [|? l]; [simpl in Hl; lia|]).
    destruct (IH l) as [E1 E2]; [simpl in Hl; lia|].
    cbn [pack map concat]. rewrite byte_bits_val, E1. split; [done|].
    constructor; [|done].
    match goal with |- byte_ok ?v => exact (bits_val_bound _) end.
Qed.

Lemma padding_length n : exists k, (n + length (padding n) = k * 8)%nat.
Proof.
  exists ((n + length (padding n)) / 8)%nat. unfold padding. rewrite length_replicate.
  pose proof (Nat.div_mod_eq n 8). pose proof (Nat.mod_upper_bound n 8 ltac:(lia)).
  destruct (decide (n mod 8 = 0)%nat) as [E|E].
  - rewrite E. change ((8 - 0) mod 8)%nat with 0%nat. rewrite Nat.add_0_r. lia.
  - rewrite (Nat.mod_small (8 - _)) by lia.
    replace (n + (8 - n mod 8))%nat with ((n / 8 + 1) * 8)%nat by lia.
    by rewrite Nat.div_mul.
Qed.

Lemma huffman_encode_bytes s : bytes_ok (huffman_encode s).
Proof.
  unfold huffman_encode. set (body := concat _).
  destruct (padding_length (length body)) as [k Hk].
  apply (pack_bits k). rewrite length_app. exact Hk.
Qed.

Lemma huffman_inverse s :
  bytes_ok s -> huffman_decode (huffman_encode s) = s.
Proof.
  intros Hs. unfold huffman_decode, huffman_encode. set (body := concat _).
  destruct (padding_length (length body)) as [k Hk].
  set (bits := body ++ padding (length body)).
  destruct (pack_bits k bits) as [E1 E2]; [unfold bits; by rewrite length_app|].
  destruct (feed_stream (pack bits) s (padding (length body)) [] [])
    as (l' & E); simpl; try done.
  - unfold padding. apply Forall_replicate. done.
  - unfold padding. rewrite length_replicate. apply Nat.mod_upper_bound. lia.
  - intros En. rewrite En in E1. unfold bits in E1. symmetry in E1.
    apply app_nil in E1 as [E1 _].
    destruct s as [|x s]; [done|]. unfold body in E1. cbn [map concat] in E1.
    apply Forall_cons_iff in Hs as [Hx _]. unfold byte_ok in Hx.
    apply (f_equal length) in E1. rewrite length_app in E1. simpl in E1.
    pose proof (sym_bits_length x ltac:(lia)). lia.
  - change (bits_val []) with 0 in E. change (zlen []) with 0 in E. by rewrite E.
Qed.

#[export] Instance huffman_code : ByteStringCode huffman_encode huffman_decode :=
  {| code_bytes := huffman_encode_bytes; code_inverse := huffman_inverse |}.

(** C4. the Huffman decoder inverts the RFC 7541 encoding of every byte
    string, whatever its padding. *)
Theorem huffman_decode_encode s :
  bytes_ok s -> huffman_decode (huffman_encode s) = s.
Proof. apply code_inverse. Qed.

(** The RFC's own example, "www.example.com", and its published encoding. *)
Lemma huffman_decode_encode_witness :
  huffman_encode (bs "www.example.com")
    = [0xf1; 0xe3; 0xc2; 0xe5; 0xf2; 0x3a; 0x6b; 0xa0; 0xab; 0x90; 0xf4; 0xff] /\
  huffman_decode (huffman_encode (bs "www.example.com")) = bs "www.example.com".
Proof.
  split; [vm_compute; reflexivity|].
  apply huffman_decode_encode. vm_compute. repeat constructor; discriminate.
Defined.
