(* ===== verification/H2HpackFacts.v ===== *)
(** * HPACK: the decoder refines the RFC 7541 machine

    The reference side is the RFC's: the prefix-coded integers of section 5.1,
    the string literals of section 5.2, the header field representations of
    section 6 and the dynamic table of section 4, as the longest prefix of
    entries that fits.  [hpack_decode] is shown to compute what that machine
    computes, to keep its size bookkeeping exact on every input, and to stop. *)

From stdpp Require Import base list gmap numbers strings.
From Stdlib Require Import ZArith Lia.
From S2P Require Import Prelude H2Tables H2Codec H2FrameFacts.
#[local] Open Scope Z_scope.

(** ** Reference: integers and strings *)

Fixpoint encode_cont (fuel : nat) (n : Z) : list Z :=
  match fuel with
  | O => [n]
  | S fuel => if n <? 128 then [n] else n mod 128 + 128 :: encode_cont fuel (n / 128)
  end.

(** [n] on a [bits]-bit prefix under the pattern [pattern * 2 ^ bits]. *)
Definition encode_integer (pattern bits n : Z) : list Z :=
  let top := 2 ^ bits - 1 in
  if n <? top then [pattern * 2 ^ bits + n]
  else pattern * 2 ^ bits + top
       :: encode_cont (Z.to_nat (Z.log2 (n - top))) (n - top).

Definition encode_string (huff : bool) (s : list Z) : list Z :=
  let raw := if huff then huffman_encode s else s in
  encode_integer (if huff then 1 else 0) 7 (zlen raw) ++ raw.

(** ** Reference: representations and the table *)

Inductive name_ref : Type :=
| NameIndex (i : Z)
| NameLiteral (huff : bool) (s : list Z).

Inductive representation : Type :=
| Indexed (i : Z)
| LiteralIncremental (n : name_ref) (huff : bool) (v : list Z)
| LiteralPlain (never : bool) (n : name_ref) (huff : bool) (v : list Z)
| SizeUpdate (n : Z).

Definition encode_name (n : name_ref) : list Z :=
  match n with
  | NameIndex _ => []
  | NameLiteral huff s => encode_string huff s
  end.

Definition name_index (n : name_ref) : Z :=
  match n with NameIndex i => i | NameLiteral _ _ => 0 end.

Definition encode_rep (r : representation) : list Z :=
  match r with
  | Indexed i => encode_integer 1 7 i
  | LiteralIncremental n huff v =>
    encode_integer 1 6 (name_index n) ++ encode_name n ++ encode_string huff v
  | LiteralPlain never n huff v =>
    encode_integer (if never then 1 else 0) 4 (name_index n) ++
    encode_name n ++ encode_string huff v
  | SizeUpdate n => encode_integer 1 5 n
  end.

Definition name_ref_ok (n : name_ref) : Prop :=
  match n with NameIndex i => 0 < i | NameLiteral _ s => bytes_ok s end.

Definition rep_ok (r : representation) : Prop :=
  match r with
  | Indexed i => 0 <= i
  | LiteralIncremental n _ v | LiteralPlain _ n _ v => name_ref_ok n /\ bytes_ok v
  | SizeUpdate n => 0 <= n
  end.

(** Entries, newest first, and the size limit. *)
Record rfc_table : Type := mkTable { entries : list header; limit : Z }.

Definition total (l : list header) : Z := foldr (fun e acc => _entry_size e + acc) 0 l.

(** The longest prefix of the entries whose size is within the limit. *)
Fixpoint fit (lim : Z) (l : list header) : list header :=
  match l with
  | [] => []
  | e :: l => if _entry_size e <=? lim then e :: fit (lim - _entry_size e) l else []
  end.

(** Section 4.4: adding evicts until the new entry fits; an entry larger than
    the table empties it. *)
Definition rfc_insert (e : header) (t : rfc_table) : rfc_table :=
  mkTable (fit (limit t) (e :: fit (limit t - _entry_size e) (entries t))) (limit t).

Definition rfc_resize (n : Z) (t : rfc_table) : rfc_table :=
  mkTable (fit n (entries t)) n.

(** Section 2.3.3: one address space, static entries first. *)
Definition rfc_lookup (t : rfc_table) (i : Z) : option header :=
  if i <=? 0 then None else (_STATIC_TABLE ++ entries t) !! Z.to_nat (i - 1).

Definition rfc_name (t : rfc_table) (n : name_ref) : option (list Z) :=
  match n with
  | NameIndex i => fst <$> rfc_lookup t i
  | NameLiteral _ s => Some s
  end.

(** Sections 6.1 to 6.3.  A size update is bounded by [announced], the value of
    SETTINGS_HEADER_TABLE_SIZE the decoder's side announced, whatever the limit is
    at the moment. *)
Definition rfc_step (announced : Z) (t : rfc_table) (r : representation) : option (rfc_table * list header) :=
  match r with
  | Indexed i => e ← rfc_lookup t i; Some (t, [e])
  | LiteralIncremental n _ v => s ← rfc_name t n; Some (rfc_insert (s, v) t, [(s, v)])
  | LiteralPlain _ n _ v => s ← rfc_name t n; Some (t, [(s, v)])
  | SizeUpdate n => if n <=? announced then Some (rfc_resize n t, []) else None
  end.

Fixpoint rfc_run (announced : Z) (t : rfc_table) (rs : list representation) (acc : list header)
    : option (rfc_table * list header) :=
  match rs with
  | [] => Some (t, acc)
  | r :: rs => '(t, hs) ← rfc_step announced t r; rfc_run announced t rs (acc ++ hs)
  end.

(** No size update raises the limit above what it is by then. *)
Fixpoint never_raised (lim : Z) (rs : list representation) : bool :=
  match rs with
  | [] => true
  | SizeUpdate n :: rs => (n <=? lim) && never_raised n rs
  | _ :: rs => never_raised lim rs
  end.

(** The decoder that holds a table: its size field is the table's size. *)
Definition decoder_of (t : rfc_table) : HpackDecoder :=
  mkDecoder (entries t) (limit t) (total (entries t)).

Definition table_ok (t : rfc_table) : Prop := total (entries t) <= limit t.

(** ** Integers *)

Definition all_bytes : list Z := map Z.of_nat (seq 0 256).

Lemma byte_check (f : Z -> bool) b : forallb f all_bytes = true -> byte_ok b -> f b = true.
Proof.
  intros H [H0 H1]. apply (forallb_elem _ _ _ H). apply list_elem_of_fmap.
  exists (Z.to_nat b). split; [lia|]. apply elem_of_seq. lia.
Qed.

Lemma high_bit b : byte_ok b -> (Z.land b 0x80 =? 0) = (b <? 128).
Proof.
  intros Hb. apply eqb_prop.
  by apply (byte_check (fun b => eqb (Z.land b 0x80 =? 0) (b <? 128))).
Qed.

Lemma low_bits b : Z.land b 0x7F = b mod 128.
Proof. change 0x7F with (Z.ones 7). by rewrite Z.land_ones. Qed.

Lemma cont_fuel_enough n fuel :
  128 <= n < 128 ^ Z.of_nat (S (S fuel)) -> n / 128 < 128 ^ Z.of_nat (S fuel).
Proof.
  intros [H0 H1]. apply Z.div_lt_upper_bound; [lia|].
  rewrite Nat2Z.inj_succ, Z.pow_succ_r in H1 by lia. done.
Qed.

Lemma decode_cont fuel n s value shift pos :
  0 <= n < 128 ^ Z.of_nat (S fuel) -> 0 <= shift ->
  decode_integer_loop (encode_cont fuel n ++ s) value shift pos
  = Ok (value + n * 2 ^ shift, pos + zlen (encode_cont fuel n)).
Proof.
  revert n value shift pos. induction fuel as [|fuel IH]; intros n value shift pos Hn Hs;
    cbn [encode_cont].
  2: destruct (n <? 128) eqn:E.
  1, 2: change (Z.of_nat 1) with 1 in Hn; assert (n < 128) by lia; cbn [app decode_integer_loop];
    rewrite high_bit, low_bits by (unfold byte_ok; lia);
    replace (n <? 128) with true by lia; rewrite Z.shiftl_mul_pow2, Z.mod_small by lia; done.
  pose proof (Z.mod_pos_bound n 128). cbn [app decode_integer_loop].
  rewrite high_bit, low_bits by (unfold byte_ok; lia).
  replace (_ <? 128) with false by lia.
  rewrite Z.shiftl_mul_pow2 by lia.
  rewrite (Z.add_mod (n mod 128)), Z.mod_mod, Z.mod_same, Z.add_0_r, Z.mod_mod by lia.
  rewrite IH; [|split; [apply Z.div_pos; lia|apply cont_fuel_enough; lia]|lia].
  rewrite zlen_cons. do 2 f_equal; [|lia].
  rewrite Z.pow_add_r by lia. change (2 ^ 7) with 128.
  rewrite (Z.div_mod n 128) at 3 by lia. lia.
Qed.

Lemma prefix_mask pattern bits v :
  0 <= bits -> 0 <= v < 2 ^ bits ->
  Z.land (pattern * 2 ^ bits + v) (Z.shiftl 1 bits - 1) = v.
Proof.
  intros Hb Hv. rewrite land_low_mask by done.
  rewrite Z.add_comm, Z.mod_add by lia. by apply Z.mod_small.
Qed.

Lemma encode_integer_zlen pattern bits n : 0 < zlen (encode_integer pattern bits n).
Proof.
  unfold encode_integer. cbv zeta. destruct (n <? 2 ^ bits - 1); unfold zlen; cbn [length]; lia.
Qed.

(** The integer decoder inverts the section 5.1 encoding at any offset, under
    any pattern, for every natural number. *)
Lemma decode_encode_integer p s pattern bits n :
  0 < bits -> 0 <= n ->
  _decode_integer (p ++ encode_integer pattern bits n ++ s) (zlen p) bits
  = Ok (n, zlen p + zlen (encode_integer pattern bits n)).
Proof.
  intros Hb Hn. pose proof (Z.pow_gt_1 2 bits ltac:(lia)) as Hp.
  unfold _decode_integer, encode_integer. rewrite pyget_app_r by done.
  cbv zeta. destruct (n <? 2 ^ bits - 1) eqn:E.
  - cbn [app head]. rewrite prefix_mask, Z.shiftl_1_l by lia. by rewrite E.
  - cbn [app head]. rewrite prefix_mask, Z.shiftl_1_l by lia.
    replace (2 ^ bits - 1 <? 2 ^ bits - 1) with false by lia.
    rewrite (drop_app_at p _ _ 1) by lia. change (Z.to_nat 1) with 1%nat.
    rewrite skipn_cons, drop_0.
    rewrite decode_cont.
    + rewrite zlen_cons. do 2 f_equal; lia.
    + split; [lia|]. rewrite Nat2Z.inj_succ.
      destruct (decide (n - (2 ^ bits - 1) = 0)) as [->|]; [reflexivity|].
      rewrite Z2Nat.id by apply Z.log2_nonneg.
      apply Z.lt_le_trans with (2 ^ Z.succ (Z.log2 (n - (2 ^ bits - 1)))).
      * apply Z.log2_spec. lia.
      * apply Z.pow_le_mono_l. split; lia.
    + lia.
Qed.

(** ** Strings *)

Lemma encode_integer_head pattern bits n s :
  exists v, head (encode_integer pattern bits n ++ s) = Some (pattern * 2 ^ bits + v) /\
    v = Z.min n (2 ^ bits - 1).
Proof.
  unfold encode_integer. cbv zeta. destruct (n <? 2 ^ bits - 1) eqn:E; eexists; split;
    [reflexivity|lia|reflexivity|lia].
Qed.

Lemma has_flag_spec b :
  byte_ok b ->
  has_flag b 0x80 = (128 <=? b) /\
  has_flag b 0x40 = ((64 <=? b) && (b <? 128) || (192 <=? b)) /\
  (b < 64 -> has_flag b 0x20 = (32 <=? b)).
Proof.
  intros Hb.
  pose proof (byte_check (fun b => eqb (has_flag b 0x80) (128 <=? b)) b eq_refl Hb) as H1.
  pose proof (byte_check (fun b => eqb (has_flag b 0x40)
    ((64 <=? b) && (b <? 128) || (192 <=? b))) b eq_refl Hb) as H2.
  pose proof (byte_check (fun b => negb (b <? 64) || eqb (has_flag b 0x20) (32 <=? b))
    b eq_refl Hb) as H3.
  apply eqb_prop in H1, H2. split; [done|]. split; [done|]. intros Hlt.
  cbv beta in H3. replace (b <? 64) with true in H3 by lia. by apply eqb_prop in H3.
Qed.

Lemma decode_encode_string p s huff v :
  bytes_ok v ->
  _decode_string (p ++ encode_string huff v ++ s) (zlen p)
  = Ok (v, zlen p + zlen (encode_string huff v)).
Proof.
  intros Hv. unfold _decode_string, encode_string. cbv zeta.
  set (raw := if huff then huffman_encode v else v).
  set (pat := if huff then 1 else 0). rewrite <- app_assoc.
  pose proof (zlen_nonneg raw) as Hraw.
  rewrite pyget_app_r by done.
  destruct (encode_integer_head pat 7 (zlen raw) (raw ++ s)) as (first & -> & Hfirst).
  rewrite decode_encode_integer by lia. cbn [res_bind].
  replace (has_flag (pat * 2 ^ 7 + first) 128) with huff.
  2: { destruct (has_flag_spec (pat * 2 ^ 7 + first)) as [-> _]; unfold byte_ok, pat;
       destruct huff; lia. }
  rewrite app_assoc, pyslice_app by (rewrite ?zlen_app; lia).
  rewrite zlen_app, Z.add_assoc. unfold raw. destruct huff; [|done].
  by rewrite code_inverse.
Qed.

(** ** The table *)

Lemma total_app l k : total (l ++ k) = total l + total k.
Proof. induction l as [|e l IH]; simpl; [done|]. rewrite IH. lia. Qed.

Lemma entry_size_pos e : 32 <= _entry_size e.
Proof.
  unfold _entry_size. pose proof (zlen_nonneg e.1). pose proof (zlen_nonneg e.2). lia.
Qed.

Lemma total_nonneg l : 0 <= total l.
Proof. induction l as [|e l IH]; simpl; [lia|]. pose proof (entry_size_pos e). lia. Qed.

Lemma fit_all lim l : total l <= lim -> fit lim l = l.
Proof.
  revert lim. induction l as [|e l IH]; intros lim H; simpl in *; [done|].
  pose proof (total_nonneg l). replace (_ <=? _) with true by lia. by rewrite IH by lia.
Qed.

Lemma fit_snoc lim l e : lim < total (l ++ [e]) -> fit lim (l ++ [e]) = fit lim l.
Proof.
  revert lim. induction l as [|x l IH]; intros lim H; simpl in *.
  - replace (_ <=? _) with false by lia. done.
  - destruct (_ <=? _); [|done]. f_equal. apply IH. lia.
Qed.

Lemma fit_total lim l : 0 <= lim -> total (fit lim l) <= lim.
Proof.
  revert lim. induction l as [|e l IH]; intros lim H; simpl; [lia|].
  destruct (_ <=? _) eqn:E; simpl; [|lia]. specialize (IH (lim - _entry_size e)). lia.
Qed.

(** Popping from the end until the bound holds leaves the longest prefix that
    fits, and the size field follows. *)
Lemma evict_fit l extra lim :
  _evict l (total l) extra lim = (fit (lim - extra) l, total (fit (lim - extra) l)).
Proof.
  unfold _evict. induction l as [|e l IH] using rev_ind; [done|].
  rewrite rev_app_distr. cbn [rev app evict_from_end].
  destruct (total (l ++ [e]) + extra >? lim) eqn:E.
  - rewrite fit_snoc by lia. rewrite total_app. simpl total at 2.
    replace (total l + (_entry_size e + 0) - _entry_size e) with (total l) by lia.
    exact IH.
  - rewrite fit_all by lia. cbn [rev]. by rewrite rev_involutive.
Qed.

Lemma add_refines t e :
  table_ok t -> _add (decoder_of t) e = decoder_of (rfc_insert e t).
Proof.
  intros Ht. unfold _add, decoder_of, rfc_insert. cbn [dynamic max_size _size entries limit].
  rewrite evict_fit. cbn [fit].
  destruct (_entry_size e <=? limit t) eqn:E.
  - rewrite (fit_all (limit t - _entry_size e) (fit _ _)) by (apply fit_total; lia).
    simpl. f_equal. lia.
  - destruct (entries t) as [|x l]; [done|]. cbn [fit].
    pose proof (entry_size_pos x). replace (_entry_size x <=? _) with false by lia. done.
Qed.

Lemma rfc_insert_ok e t : table_ok t -> table_ok (rfc_insert e t).
Proof.
  unfold table_ok, rfc_insert. cbn [entries limit]. intros H.
  apply fit_total. pose proof (total_nonneg (entries t)). lia.
Qed.

Lemma rfc_resize_ok n t : 0 <= n -> table_ok (rfc_resize n t).
Proof. intros. unfold table_ok, rfc_resize. cbn. by apply fit_total. Qed.

Lemma resize_refines t n :
  resize (decoder_of t) n =
    if n <=? limit t then Ok (decoder_of (rfc_resize n t)) else Err HpackError.
Proof.
  unfold resize, decoder_of. cbn [dynamic max_size _size].
  rewrite evict_fit, Z.sub_0_r. cbn.
  destruct (n >? limit t) eqn:E; destruct (n <=? limit t) eqn:E'; (done || lia).
Qed.

Lemma lookup_refines t i :
  0 <= i ->
  _lookup (decoder_of t) i =
    match rfc_lookup t i with Some e => Ok e | None => Err HpackError end.
Proof.
  intros Hi. unfold _lookup, rfc_lookup. cbn [dynamic decoder_of].
  destruct (i =? 0) eqn:E0; [by replace (i <=? 0) with true by lia|].
  replace (i <=? 0) with false by lia.
  destruct (i <=? zlen _STATIC_TABLE) eqn:E1.
  - rewrite pyget_nonneg by lia.
    rewrite lookup_app_l by (unfold zlen in E1; lia).
    destruct (_STATIC_TABLE !! Z.to_nat (i - 1)) eqn:E; [done|].
    apply lookup_ge_None in E. unfold zlen in E1. lia.
  - rewrite lookup_app_r by (unfold zlen in E1; lia).
    replace (Z.to_nat (i - 1) - length _STATIC_TABLE)%nat
      with (Z.to_nat (i - zlen _STATIC_TABLE - 1)) by (unfold zlen; lia).
    destruct (_ >=? _) eqn:E2.
    + rewrite lookup_ge_None_2 by (unfold zlen in *; lia). done.
    + rewrite pyget_nonneg by lia.
      destruct (entries t !! _) eqn:E; [done|].
      apply lookup_ge_None in E. unfold zlen in *. lia.
Qed.

(** ** One representation *)

Lemma name_value_refines p s t n huff v :
  name_ref_ok n -> bytes_ok v ->
  _name_value (decoder_of t) (p ++ encode_name n ++ encode_string huff v ++ s) (zlen p)
    (name_index n)
  = match rfc_name t n with
    | Some nm => Ok (nm, v, zlen p + zlen (encode_name n) + zlen (encode_string huff v))
    | None => Err HpackError
    end.
Proof.
  intros Hn Hv. unfold _name_value. destruct n as [i|h nm]; simpl in Hn.
  - cbn [name_index encode_name rfc_name app]. replace (i =? 0) with false by lia.
    rewrite lookup_refines by lia. destruct (rfc_lookup t i) as [e|]; [|done].
    cbn [res_bind fmap option_fmap option_map]. rewrite decode_encode_string by done.
    cbn [res_bind]. do 2 f_equal. rewrite zlen_nil. lia.
  - cbn [name_index encode_name rfc_name]. cbn [Z.eqb].
    rewrite decode_encode_string by done. cbn [res_bind].
    rewrite <- zlen_app, app_assoc. rewrite decode_encode_string by done.
    cbn [res_bind]. done.
Qed.

(** The first byte of a representation selects its branch. *)
Lemma field_byte pattern bits n s lo :
  0 <= n -> 0 < bits -> lo = pattern * 2 ^ bits ->
  exists b, head (encode_integer pattern bits n ++ s) = Some b /\ lo <= b < lo + 2 ^ bits.
Proof.
  intros Hn Hb ->. destruct (encode_integer_head pattern bits n s) as (v & E & Hv).
  pose proof (Z.pow_gt_1 2 bits ltac:(lia)). eexists. split; [exact E|]. lia.
Qed.

(** Both literal forms read their index, name and value the same way. *)
Lemma literal_refines {B} p s t pat bits n huff v (k : list Z -> list Z -> Z -> res pyerr B) :
  0 < bits -> name_ref_ok n -> bytes_ok v ->
  let img := encode_integer pat bits (name_index n) ++ encode_name n ++ encode_string huff v in
  (let! (index, pos) := _decode_integer (p ++ img ++ s) (zlen p) bits in
   let! (name, value, pos) := _name_value (decoder_of t) (p ++ img ++ s) pos index in
   k name value pos)
  = match rfc_name t n with
    | Some nm => k nm v (zlen p + zlen img)
    | None => Err HpackError
    end.
Proof.
  intros Hb Hn Hv img. unfold img. rewrite <- app_assoc.
  assert (0 <= name_index n) by (destruct n; simpl in *; lia).
  rewrite decode_encode_integer by lia. cbn [res_bind].
  rewrite <- zlen_app, <- app_assoc, app_assoc, name_value_refines by done.
  destruct (rfc_name t n) as [nm|]; [|done]. cbn [res_bind]. f_equal. rewrite !zlen_app. lia.
Qed.

(** Which branch of the decoder a first byte selects. *)
Lemma decode_field_branch d data pos b :
  byte_ok b ->
  decode_field d data pos b =
    if 128 <=? b then
      let! (index, pos) := _decode_integer data pos 7 in
      let! e := _lookup d index in Ok (d, pos, [e])
    else if 64 <=? b then
      let! (index, pos) := _decode_integer data pos 6 in
      let! (name, value, pos) := _name_value d data pos index in
      Ok (_add d (name, value), pos, [(name, value)])
    else if 32 <=? b then
      let! (new_size, pos) := _decode_integer data pos 5 in
      let! d := resize d new_size in Ok (d, pos, [])
    else
      let! (index, pos) := _decode_integer data pos 4 in
      let! (name, value, pos) := _name_value d data pos index in
      Ok (d, pos, [(name, value)]).
Proof.
  intros Hb. unfold decode_field. destruct (has_flag_spec b Hb) as (-> & -> & H20).
  destruct (128 <=? b) eqn:E1; [done|].
  replace ((64 <=? b) && (b <? 128) || (192 <=? b)) with (64 <=? b) by lia.
  destruct (64 <=? b) eqn:E2; [done|]. by rewrite H20 by lia.
Qed.

Definition rep_byte (r : representation) (b : Z) : Prop :=
  match r with
  | Indexed _ => 128 <= b < 256
  | LiteralIncremental _ _ _ => 64 <= b < 128
  | LiteralPlain _ _ _ _ => 0 <= b < 32
  | SizeUpdate _ => 32 <= b < 64
  end.

Lemma encode_rep_byte r s :
  rep_ok r -> exists b, head (encode_rep r ++ s) = Some b /\ rep_byte r b.
Proof.
  intros Hr. destruct r as [i|n huff v|never n huff v|n]; cbn [encode_rep rep_byte rep_ok] in *.
  - apply (field_byte 1 7 i s 128); (done || lia).
  - rewrite <- app_assoc. apply (field_byte 1 6 _ _ 64); [|lia|done].
    destruct n; simpl in *; lia.
  - rewrite <- app_assoc.
    destruct (field_byte (if never then 1 else 0) 4 (name_index n)
      ((encode_name n ++ encode_string huff v) ++ s) ((if never then 1 else 0) * 2 ^ 4))
      as (b & Hb & Hlt); [destruct n; simpl in *; lia|lia|reflexivity|].
    exists b. split; [done|]. destruct never; lia.
  - apply (field_byte 1 5 n s 32); (done || lia).
Qed.

Lemma decode_field_refines p s t r b :
  table_ok t -> rep_ok r -> rep_byte r b ->
  decode_field (decoder_of t) (p ++ encode_rep r ++ s) (zlen p) b =
    match rfc_step (limit t) t r with
    | Some (t', hs) => Ok (decoder_of t', zlen p + zlen (encode_rep r), hs)
    | None => Err HpackError
    end.
Proof.
  intros Ht Hr Hb.
  rewrite decode_field_branch by (unfold byte_ok; destruct r; simpl in Hb; lia).
  destruct r as [i|n huff v|never n huff v|n]; cbn [encode_rep rep_ok rfc_step rep_byte] in *.
  - replace (128 <=? b) with true by lia.
    rewrite decode_encode_integer by lia. cbn [res_bind].
    rewrite lookup_refines by done. by destruct (rfc_lookup t i).
  - replace (128 <=? b) with false by lia. replace (64 <=? b) with true by lia.
    rewrite literal_refines by (lia || tauto). destruct (rfc_name t n); [|done].
    cbn. by rewrite add_refines.
  - replace (128 <=? b) with false by lia. replace (64 <=? b) with false by lia.
    replace (32 <=? b) with false by lia.
    rewrite literal_refines by (lia || tauto). by destruct (rfc_name t n).
  - replace (128 <=? b) with false by lia. replace (64 <=? b) with false by lia.
    replace (32 <=? b) with true by lia.
    rewrite decode_encode_integer by lia. cbn [res_bind].
    rewrite resize_refines. by destruct (n <=? limit t).
Qed.

Lemma rfc_step_ok announced t r t' hs :
  table_ok t -> rep_ok r -> rfc_step announced t r = Some (t', hs) -> table_ok t'.
Proof.
  intros Ht Hr. destruct r as [i|n huff v|never n huff v|n]; simpl in *.
  - destruct (rfc_lookup t i); [|done]. by intros [= <- _].
  - destruct (rfc_name t n); [|done]. intros [= <- _]. by apply rfc_insert_ok.
  - destruct (rfc_name t n); [|done]. by intros [= <- _].
  - destruct (_ <=? _); [|done]. intros [= <- _]. by apply rfc_resize_ok.
Qed.

(** A step the decoder takes is one of the RFC's; one it refuses is refused
    there too, or raises the limit. *)
Lemma rfc_step_limit announced t r rs :
  limit t <= announced ->
  match rfc_step (limit t) t r with
  | Some (t', hs) =>
    rfc_step announced t r = Some (t', hs) /\ limit t' <= announced /\
    never_raised (limit t) (r :: rs) = never_raised (limit t') rs
  | None => rfc_step announced t r = None \/ never_raised (limit t) (r :: rs) = false
  end.
Proof.
  intros Hl. destruct r as [i|n huff v|never n huff v|n]; cbn [rfc_step never_raised].
  - destruct (rfc_lookup t i); [done|by left].
  - destruct (rfc_name t n); [done|by left].
  - destruct (rfc_name t n); [done|by left].
  - destruct (Z.leb_spec n (limit t)); [|by right]. replace (n <=? announced) with true by lia.
    split; [done|]. cbn [limit rfc_resize]. split; [lia|done].
Qed.

Lemma encode_rep_nonempty r : rep_ok r -> (0 < length (encode_rep r))%nat.
Proof.
  intros Hr. destruct (encode_rep_byte r [] Hr) as (b & E & _).
  rewrite app_nil_r in E. destruct (encode_rep r); [done|]. simpl. lia.
Qed.

Lemma hpack_loop_refines announced rs fuel p t acc :
  table_ok t -> limit t <= announced -> Forall rep_ok rs ->
  (length (concat (map encode_rep rs)) <= fuel)%nat ->
  hpack_loop fuel (decoder_of t) (p ++ concat (map encode_rep rs))
    (zlen (p ++ concat (map encode_rep rs))) (zlen p) acc
  = match (if never_raised (limit t) rs then rfc_run announced t rs acc else None) with
    | Some (t', hs) => Ok (decoder_of t', hs)
    | None => Err HpackError
    end.
Proof.
  intros Ht Hl Hrs. revert fuel p t acc Ht Hl.
  induction Hrs as [|r rs Hr Hrs IH]; intros fuel p t acc Ht Hl Hf; cbn [map concat rfc_run] in *.
  - rewrite app_nil_r. destruct fuel; simpl;
      by replace (zlen p <? zlen p) with false by lia.
  - pose proof (encode_rep_nonempty r Hr) as Hlen. rewrite length_app in Hf.
    destruct fuel as [|fuel]; [lia|]. cbn [hpack_loop].
    replace (zlen p <? _) with true by (rewrite !zlen_app; unfold zlen; lia).
    rewrite pyget_app_r by done.
    destruct (encode_rep_byte r (concat (map encode_rep rs)) Hr) as (b & -> & Hb).
    rewrite (decode_field_refines _ _ _ _ _ Ht Hr Hb).
    pose proof (rfc_step_limit announced t r rs Hl) as Hstep.
    destruct (rfc_step (limit t) t r) as [[t' hs]|] eqn:E.
    + destruct Hstep as (-> & Hl' & ->). cbn [res_bind mbind option_bind].
      rewrite <- zlen_app, app_assoc. apply IH; [by eapply rfc_step_ok|done|lia].
    + cbn [res_bind]. destruct Hstep as [-> | ->]; [|done]. by destruct (never_raised (limit t) (r :: rs)).
Qed.

(** ** Arbitrary input *)

(** A read at [pos] either raises one of Python's exceptions or moves on. *)
Definition advances {A} (pos : Z) (c : res pyerr (A * Z)) : Prop :=
  match c with
  | Ok (_, pos') => pos < pos'
  | Err e => e <> OutOfFuel
  end.

Lemma advances_bind {A B} pos pos' (c : res pyerr (A * Z)) (k : A * Z -> res pyerr (B * Z)) :
  advances pos c -> (forall a q, pos < q -> advances pos' (k (a, q))) ->
  advances pos' (res_bind c k).
Proof. destruct c as [[a q]|e]; simpl; auto. Qed.

Lemma advances_le {A} pos pos' (c : res pyerr (A * Z)) :
  pos' <= pos -> advances pos c -> advances pos' c.
Proof. destruct c as [[a q]|e]; simpl; [lia|done]. Qed.

Lemma integer_loop_advances rest value shift pos :
  0 <= value -> 0 <= shift ->
  advances pos (decode_integer_loop rest value shift pos) /\
  forall v q, decode_integer_loop rest value shift pos = Ok (v, q) -> 0 <= v.
Proof.
  revert value shift pos. induction rest as [|b rest IH]; intros value shift pos Hv Hs; [done|].
  cbn [decode_integer_loop].
  assert (0 <= value + Z.shiftl (Z.land b 0x7F) shift).
  { apply Z.add_nonneg_nonneg; [done|]. apply Z.shiftl_nonneg, Z.land_nonneg. lia. }
  destruct (_ =? 0).
  - split; [simpl; lia|]. by intros v q [= <- _].
  - destruct (IH (value + Z.shiftl (Z.land b 0x7F) shift) (shift + 7) (pos + 1)) as [E1 E2];
      [done|lia|]. split; [|done]. eapply advances_le; [|exact E1]. lia.
Qed.

Lemma decode_integer_advances data pos bits :
  0 < bits ->
  advances pos (_decode_integer data pos bits) /\
  forall v q, _decode_integer data pos bits = Ok (v, q) -> 0 <= v.
Proof.
  intros Hb. unfold _decode_integer. destruct (pyget data pos) as [b|]; [|done].
  assert (0 <= Z.land b (Z.shiftl 1 bits - 1)).
  { apply Z.land_nonneg. right. rewrite Z.shiftl_1_l.
    pose proof (Z.pow_gt_1 2 bits ltac:(lia)). lia. }
  cbv zeta. destruct (_ <? _).
  - split; [simpl; lia|]. by intros v q [= <- _].
  - destruct (integer_loop_advances (drop (Z.to_nat (pos + 1)) data)
      (Z.land b (Z.shiftl 1 bits - 1)) 0 (pos + 1)) as [E1 E2]; [done|lia|].
    split; [|done]. eapply advances_le; [|exact E1]. lia.
Qed.

Lemma decode_string_advances data pos : advances pos (_decode_string data pos).
Proof.
  unfold _decode_string. destruct (pyget data pos); [|done]. cbv zeta.
  destruct (decode_integer_advances data pos 7) as [E1 E2]; [lia|].
  destruct (_decode_integer data pos 7) as [[len q]|e]; [|done].
  specialize (E2 _ _ eq_refl). simpl in *. lia.
Qed.

Lemma lookup_not_fuel {A} d i (k : header -> res pyerr (A * Z)) pos :
  (forall e, advances pos (k e)) -> advances pos (res_bind (_lookup d i) k).
Proof. intros Hk. unfold _lookup. repeat case_match; simpl; auto; done. Qed.

Lemma name_value_advances d data pos i : advances pos (_name_value d data pos i).
Proof.
  unfold _name_value. destruct (i =? 0).
  - eapply advances_bind; [apply decode_string_advances|]. intros a q Hq.
    eapply advances_bind; [apply decode_string_advances|]. intros b q' Hq'. simpl. lia.
  - destruct (_lookup d i) as [e|e] eqn:E; simpl.
    + eapply advances_bind; [apply decode_string_advances|]. intros b q' Hq'. simpl. lia.
    + pose proof (lookup_not_fuel d i (fun e => Ok (e, pos + 1)) pos) as H.
      rewrite E in H. apply H. simpl. lia.
Qed.

(** What a decoded field guarantees: progress, and a decoder that is still the
    image of a table within a limit that did not grow. *)
Definition field_ok (t : rfc_table) (pos : Z) (c : res pyerr (HpackDecoder * Z * list header))
    : Prop :=
  match c with
  | Ok (d, pos', _) =>
    pos < pos' /\ exists t', d = decoder_of t' /\ table_ok t' /\ limit t' <= limit t
  | Err e => e <> OutOfFuel
  end.

Lemma field_ok_bind {A} t pos (c : res pyerr (A * Z)) k :
  advances pos c -> (forall a q, c = Ok (a, q) -> pos < q -> field_ok t pos (k (a, q))) ->
  field_ok t pos (res_bind c k).
Proof. destruct c as [[a q]|e]; simpl; auto. Qed.

Lemma lookup_field_ok t pos i (k : header -> res pyerr (HpackDecoder * Z * list header)) :
  (forall e, field_ok t pos (k e)) -> field_ok t pos (res_bind (_lookup (decoder_of t) i) k).
Proof. intros Hk. unfold _lookup. repeat case_match; simpl; auto; done. Qed.

Lemma decode_field_ok t data pos b :
  table_ok t -> field_ok t pos (decode_field (decoder_of t) data pos b).
Proof.
  intros Ht. unfold decode_field.
  destruct (has_flag b 0x80); [|destruct (has_flag b 0x40); [|destruct (has_flag b 0x20)]].
  - apply field_ok_bind; [by apply decode_integer_advances|]. intros i q _ Hq.
    apply lookup_field_ok. intros e. split; [done|]. by exists t.
  - apply field_ok_bind; [by apply decode_integer_advances|]. intros i q _ Hq.
    apply field_ok_bind; [eapply advances_le; [|apply name_value_advances]; lia|].
    intros [nm v] q' _ Hq'. split; [done|]. exists (rfc_insert (nm, v) t).
    rewrite add_refines by done. split; [done|]. split; [by apply rfc_insert_ok|done].
  - apply field_ok_bind; [by apply decode_integer_advances|]. intros n q E Hq.
    apply decode_integer_advances in E; [|lia]. rewrite resize_refines.
    destruct (n <=? limit t) eqn:El; [|done]. split; [done|].
    exists (rfc_resize n t). split; [done|]. split; [by apply rfc_resize_ok|simpl; lia].
  - apply field_ok_bind; [by apply decode_integer_advances|]. intros i q _ Hq.
    apply field_ok_bind; [eapply advances_le; [|apply name_value_advances]; lia|].
    intros [nm v] q' _ Hq'. split; [done|]. by exists t.
Qed.

Lemma hpack_loop_ok fuel t data pos acc :
  table_ok t -> 0 <= pos -> zlen data - pos <= Z.of_nat fuel ->
  match hpack_loop fuel (decoder_of t) data (zlen data) pos acc with
  | Ok (d, _) => exists t', d = decoder_of t' /\ table_ok t' /\ limit t' <= limit t
  | Err e => e <> OutOfFuel
  end.
Proof.
  revert t pos acc. induction fuel as [|fuel IH]; intros t pos acc Ht Hp Hf; cbn [hpack_loop].
  - replace (pos <? zlen data) with false by lia. by exists t.
  - destruct (pos <? zlen data) eqn:E; [|by exists t].
    destruct (pyget data pos) as [b|]; [|done].
    pose proof (decode_field_ok t data pos b Ht) as Hfield.
    destruct (decode_field _ data pos b) as [[[d q] hs]|e]; [|exact Hfield].
    destruct Hfield as (Hq & t' & -> & Ht' & Hl). cbn [res_bind].
    specialize (IH t' q (acc ++ hs) Ht' ltac:(lia) ltac:(lia)).
    destruct (hpack_loop fuel _ _ _ q _) as [[d' hs']|e]; [|exact IH].
    destruct IH as (t'' & -> & Ht'' & Hl''). exists t''. split; [done|].
    split; [done|]. lia.
Qed.

(** ** The properties *)

(** C3. HPACK refinement.  On the wire image of any sequence of
    representations in which no size update raises the limit again, the decoder
    returns the headers and the dynamic table of the RFC 7541 machine, and raises
    [HpackError] exactly where that machine has no step (index 0, an index past
    both tables).  A size update above the current limit is an [HpackError], be
    it within the announced size or not; there the code departs from the RFC. *)
Theorem hpack_decode_refines announced t rs :
  table_ok t -> limit t <= announced -> Forall rep_ok rs ->
  hpack_decode (decoder_of t) (concat (map encode_rep rs))
  = match (if never_raised (limit t) rs then rfc_run announced t rs [] else None) with
    | Some (t', hs) => Ok (decoder_of t', hs)
    | None => Err HpackError
    end.
Proof.
  intros Ht Hl Hrs. unfold hpack_decode.
  exact (hpack_loop_refines announced rs _ [] t [] Ht Hl Hrs (Nat.le_refl _)).
Qed.

(** An incremental literal, its reuse by index, a shrink, and a bad index. *)
Lemma hpack_decode_refines_witness :
  hpack_decode (decoder_of (mkTable [] 4096))
    (concat (map encode_rep
      [LiteralIncremental (NameLiteral true (bs "x-a")) false (bs "1"); Indexed 62;
       SizeUpdate 36; SizeUpdate 0; Indexed 62]))
  = Err HpackError /\
  hpack_decode (decoder_of (mkTable [] 4096))
    (concat (map encode_rep
      [SizeUpdate 100; LiteralIncremental (NameIndex 1) true (bs "h"); Indexed 62]))
  = Ok (decoder_of (mkTable [(bs ":authority", bs "h")] 100),
        [(bs ":authority", bs "h"); (bs ":authority", bs "h")]).
Proof.
  split.
  - rewrite (hpack_decode_refines 4096); [vm_compute; reflexivity|done|done|].
    repeat constructor; simpl; lia.
  - rewrite (hpack_decode_refines 4096); [vm_compute; reflexivity|done|done|].
    repeat constructor; simpl; lia.
Defined.

(** A peer that empties the table and then allows it its full size again, all
    within the announced size, is refused. *)
Example size_update_refused :
  rfc_run 4096 (mkTable [] 4096) [SizeUpdate 0; SizeUpdate 4096; Indexed 2] [] =
    Some (mkTable [] 4096, [(bs ":method", bs "GET")]) /\
  hpack_decode (decoder_of (mkTable [] 4096)) (concat (map encode_rep [SizeUpdate 0; SizeUpdate 4096; Indexed 2])) =
    Err HpackError.
Proof. split; vm_compute; reflexivity. Qed.

(** On every input, well formed or not, the decoder stops within its
    [length data] turns: it never reports [OutOfFuel], so its answer is a
    header list or one of Python's two exceptions. *)
Theorem hpack_decode_terminates t data :
  table_ok t ->
  hpack_decode (decoder_of t) data = Err HpackError \/
  hpack_decode (decoder_of t) data = Err IndexError \/
  exists d hs, hpack_decode (decoder_of t) data = Ok (d, hs).
Proof.
  intros Ht. pose proof (hpack_loop_ok (length data) t data 0 [] Ht) as H.
  unfold hpack_decode. unfold zlen in H at 1. specialize (H ltac:(lia) ltac:(lia)).
  destruct (hpack_loop _ _ _ _ _ _) as [[d hs]|[]]; eauto. done.
Qed.

Lemma hpack_decode_terminates_witness :
  hpack_decode (decoder_of (mkTable [] 4096)) [0x40; 0x03; 0x61] = Err HpackError \/
  hpack_decode (decoder_of (mkTable [] 4096)) [0x40; 0x03; 0x61] = Err IndexError \/
  exists d hs, hpack_decode (decoder_of (mkTable [] 4096)) [0x40; 0x03; 0x61] = Ok (d, hs).
Proof. apply (hpack_decode_terminates (mkTable [] 4096)). vm_compute. discriminate. Defined.

(** The dynamic table invariant.  From a decoder whose size field is the
    size of its entries and within its limit, any successful decode leads to
    one again, with a limit that did not grow. *)
Theorem hpack_decode_invariant t data d hs :
  table_ok t -> hpack_decode (decoder_of t) data = Ok (d, hs) ->
  _size d = total (dynamic d) /\ _size d <= max_size d /\ max_size d <= limit t.
Proof.
  intros Ht E. pose proof (hpack_loop_ok (length data) t data 0 [] Ht) as H.
  unfold hpack_decode in E. rewrite E in H. unfold zlen in H.
  destruct H as (t' & -> & Ht' & Hl); [lia|lia|]. by split.
Qed.

(** An insertion that evicts: the limit admits one entry of 34 octets. *)
Lemma hpack_decode_invariant_witness :
  let d := mkDecoder [(bs "b", bs "2")] 40 34 in
  _size d = total (dynamic d) /\ _size d <= max_size d /\ max_size d <= 40.
Proof.
  apply (hpack_decode_invariant (mkTable [] 40) [0x40; 1; 97; 1; 49; 0x40; 1; 98; 1; 50] _
    [(bs "a", bs "1"); (bs "b", bs "2")]).
  - vm_compute. discriminate.
  - vm_compute. reflexivity.
Defined.
