(* ===== verification/H2ResponseFacts.v ===== *)
(** * Responses: what [decode_response] says of each stream

    The per-stream specification is read off the frame list alone: the body is
    the concatenation of the stream's DATA payloads, the stream has ended when
    one of its HEADERS or DATA frames carries END_STREAM, and it was reset with
    the code of its last RST_STREAM.  A header block may be split over
    CONTINUATION frames at any point. *)

From stdpp Require Import base list gmap numbers strings.
From Stdlib Require Import ZArith Lia.
From S2P Require Import Prelude H2Tables H2Codec H2FrameFacts H2HpackFacts.
#[local] Open Scope Z_scope.

(** ** The specification *)

Definition frame_on (sid ty : Z) (f : Frame) : bool :=
  (f_stream_id f =? sid) && (f_type f =? ty).

Definition data_of (sid : Z) (fs : list Frame) : list Z :=
  concat (map f_payload (base.filter (fun f => frame_on sid DATA f = true) fs)).

Definition ends (sid : Z) (f : Frame) : bool :=
  (frame_on sid DATA f || frame_on sid HEADERS f) && has_flag (f_flags f) FLAG_END_STREAM.

Definition ended_of (sid : Z) (fs : list Frame) : bool := existsb (ends sid) fs.

Definition reset_code (f : Frame) : Z := from_bytes_be (pyslice (f_payload f) 0 4).

Definition reset_of (sid : Z) (fs : list Frame) : option Z :=
  last (map reset_code (base.filter (fun f => frame_on sid RST_STREAM f = true) fs)).

(** ** Views of the state *)

Definition view (m : gmap Z H2StreamResponse) (sid : Z) : H2StreamResponse :=
  default (new_response sid) (m !! sid).

Lemma view_stream m sid k : view (fst (_stream m sid)) k = view m k.
Proof.
  unfold _stream, view. destruct (m !! sid) eqn:E; [done|]. simpl.
  rewrite lookup_insert. case_decide; [subst|done]. by rewrite E.
Qed.

Lemma stream_snd m sid : snd (_stream m sid) = view m sid.
Proof. unfold _stream, view. by destruct (m !! sid) eqn:E. Qed.

Lemma view_insert m sid r k :
  view (<[sid := r]> m) k = if decide (k = sid) then r else view m k.
Proof. unfold view. rewrite lookup_insert. repeat case_decide; by subst. Qed.

Lemma view_update f m sid k :
  view (update_stream f sid m) k = if decide (k = sid) then f (view m sid) else view m k.
Proof.
  unfold update_stream. pose proof (stream_snd m sid) as E.
  pose proof (view_stream m sid k) as E'. destruct (_stream m sid) as [m' got].
  simpl in *. rewrite view_insert, E. case_decide; [done|]. exact E'.
Qed.

Lemma update_stream_lookup f m sid k :
  is_Some (m !! k) -> is_Some (update_stream f sid m !! k).
Proof.
  unfold update_stream, _stream. intros H.
  destruct (m !! sid); rewrite !lookup_insert; repeat case_decide; eauto.
Qed.

Lemma update_stream_self f m sid : is_Some (update_stream f sid m !! sid).
Proof.
  unfold update_stream, _stream.
  destruct (m !! sid); rewrite lookup_insert; case_decide; (done || eauto).
Qed.

Lemma apply_headers_view st sid block st' :
  _apply_headers st sid block = Ok st' ->
  st_bodies st' = st_bodies st /\ st_pending st' = st_pending st /\
  exists status rest, forall k,
    view (st_streams st') k =
      if decide (k = sid) then set_headers rest (set_status status (view (st_streams st) sid))
      else view (st_streams st) k.
Proof.
  unfold _apply_headers. pose proof (stream_snd (st_streams st) sid) as E.
  pose proof (view_stream (st_streams st) sid) as E'.
  destruct (_stream (st_streams st) sid) as [m got]. simpl in E, E'.
  destruct (hpack_decode _ _) as [[d hs]|e]; [|done]. cbn [res_bind].
  destruct (split_fields _ _ _) as [status rest]. intros [= <-]. cbn.
  split; [done|]. split; [done|]. exists status, rest. intros k.
  rewrite view_insert, E. case_decide; [done|]. apply E'.
Qed.

(** ** The invariant of the frame loop *)

(** What the specification determines of a response. *)
Definition agrees (fs : list Frame) (sid : Z) (r : H2StreamResponse) : Prop :=
  r_stream_id r = sid /\ r_body r = [] /\
  r_ended r = ended_of sid fs /\ r_reset r = reset_of sid fs.

Record loop_inv (fs : list Frame) (st : h2_state) : Prop := {
  inv_agrees sid : sid <> 0 -> agrees fs sid (view (st_streams st) sid);
  inv_bodies sid : sid <> 0 -> default [] (st_bodies st !! sid) = data_of sid fs;
  inv_owned sid : is_Some (st_bodies st !! sid) -> is_Some (st_streams st !! sid);
  inv_zero : st_streams st !! 0 = None;
}.

Lemma loop_inv_initial : loop_inv [] initial_state.
Proof. split; try done. intros sid [x Hx]. simpl in Hx. by rewrite lookup_empty in Hx. Qed.

Lemma data_of_snoc sid fs f :
  data_of sid (fs ++ [f]) = data_of sid fs ++ (if frame_on sid DATA f then f_payload f else []).
Proof.
  unfold data_of. rewrite filter_app, map_app, concat_app. f_equal.
  rewrite filter_cons. destruct (frame_on sid DATA f) eqn:E; simpl.
  - by rewrite app_nil_r.
  - done.
Qed.

Lemma ended_of_snoc sid fs f : ended_of sid (fs ++ [f]) = ended_of sid fs || ends sid f.
Proof. unfold ended_of. rewrite existsb_app. simpl. by rewrite orb_false_r. Qed.

Lemma reset_of_snoc sid fs f :
  reset_of sid (fs ++ [f]) =
    if frame_on sid RST_STREAM f then Some (reset_code f) else reset_of sid fs.
Proof.
  unfold reset_of. rewrite filter_app, map_app, filter_cons.
  destruct (frame_on sid RST_STREAM f) eqn:E; simpl.
  - by rewrite last_snoc.
  - by rewrite app_nil_r.
Qed.

(** [agrees] after one more frame, from what the frame did to the response. *)
Lemma agrees_snoc fs f sid r r' :
  agrees fs sid r -> r_stream_id r' = r_stream_id r -> r_body r' = [] ->
  r_ended r' = r_ended r || ends sid f ->
  r_reset r' = (if frame_on sid RST_STREAM f then Some (reset_code f) else r_reset r) ->
  agrees (fs ++ [f]) sid r'.
Proof.
  intros (H1 & H2 & H3 & H4) E1 E2 E3 E4. unfold agrees.
  rewrite ended_of_snoc, reset_of_snoc, E3, E4, <- H3, <- H4. split; [congruence|].
  split; [done|]. by split.
Qed.

(** ** One frame *)

(** The change a frame makes to what is observed of stream [k]. *)
Record frame_effect (f : Frame) (st st' : h2_state) (k : Z) : Prop := {
  eff_id : r_stream_id (view (st_streams st') k) = r_stream_id (view (st_streams st) k);
  eff_body : r_body (view (st_streams st') k) = r_body (view (st_streams st) k);
  eff_ended :
    r_ended (view (st_streams st') k) = r_ended (view (st_streams st) k) || ends k f;
  eff_reset :
    r_reset (view (st_streams st') k) =
      if frame_on k RST_STREAM f then Some (reset_code f)
      else r_reset (view (st_streams st) k);
  eff_data :
    default [] (st_bodies st' !! k) =
      default [] (st_bodies st !! k) ++ (if frame_on k DATA f then f_payload f else []);
}.

Lemma frame_on_other k ty f : f_stream_id f <> k -> frame_on k ty f = false.
Proof. intros. unfold frame_on. by replace (_ =? k) with false by lia. Qed.

Lemma ends_other k f : f_stream_id f <> k -> ends k f = false.
Proof. intros. unfold ends. by rewrite !frame_on_other. Qed.

Lemma frame_on_type k ty f : f_stream_id f = k -> frame_on k ty f = (f_type f =? ty).
Proof. intros. unfold frame_on. by replace (_ =? k) with true by lia. Qed.

(** A change confined to the frame's own stream. *)
Lemma effect_other f st st' k :
  f_stream_id f <> k ->
  view (st_streams st') k = view (st_streams st) k ->
  st_bodies st' !! k = st_bodies st !! k ->
  frame_effect f st st' k.
Proof.
  intros Hk Hv Hb. split; rewrite ?Hv, ?Hb, ?ends_other, ?frame_on_other by done;
    rewrite ?orb_false_r, ?app_nil_r; done.
Qed.

(** A change of the frame's own stream: [r'] is the response it leaves. *)
Lemma effect_self f st st' k r' tail :
  f_stream_id f = k ->
  view (st_streams st') k = r' ->
  r_stream_id r' = r_stream_id (view (st_streams st) k) ->
  r_body r' = r_body (view (st_streams st) k) ->
  r_ended r' = r_ended (view (st_streams st) k) ||
    ((f_type f =? DATA) || (f_type f =? HEADERS)) && has_flag (f_flags f) FLAG_END_STREAM ->
  r_reset r' = (if f_type f =? RST_STREAM then Some (reset_code f)
                else r_reset (view (st_streams st) k)) ->
  default [] (st_bodies st' !! k) = default [] (st_bodies st !! k) ++ tail ->
  tail = (if f_type f =? DATA then f_payload f else []) ->
  frame_effect f st st' k.
Proof.
  intros Hk Hv H1 H2 H3 H4 H5 H6. split; rewrite ?Hv; [done..| | |].
  - rewrite H3. unfold ends. by rewrite !frame_on_type.
  - rewrite H4. by rewrite frame_on_type.
  - rewrite H5, H6. by rewrite frame_on_type.
Qed.

Definition maybe_end (flags sid : Z) (st : h2_state) : h2_state :=
  if has_flag flags FLAG_END_STREAM then with_streams (update_stream set_ended sid) st else st.

Lemma maybe_end_view flags sid st k :
  view (st_streams (maybe_end flags sid st)) k =
    if decide (k = sid) then
      (if has_flag flags FLAG_END_STREAM then set_ended (view (st_streams st) sid)
       else view (st_streams st) sid)
    else view (st_streams st) k.
Proof.
  unfold maybe_end. destruct (has_flag _ _); cbn [with_streams st_streams].
  - apply view_update.
  - case_decide; by subst.
Qed.

Lemma maybe_end_bodies flags sid st : st_bodies (maybe_end flags sid st) = st_bodies st.
Proof. unfold maybe_end. by destruct (has_flag _ _). Qed.

(** A step that rewrites status and header list of one stream at most. *)
Definition quiet_step (sid : Z) (st st1 : h2_state) : Prop :=
  st_bodies st1 = st_bodies st /\
  exists g, (forall r, r_stream_id (g r) = r_stream_id r /\ r_body (g r) = r_body r /\
                       r_ended (g r) = r_ended r /\ r_reset (g r) = r_reset r) /\
    forall j, view (st_streams st1) j =
      if decide (j = sid) then g (view (st_streams st) sid) else view (st_streams st) j.

Lemma quiet_same sid st st1 :
  st_streams st1 = st_streams st -> st_bodies st1 = st_bodies st -> quiet_step sid st st1.
Proof.
  intros Hs Hb. split; [done|]. exists id. split; [done|]. intros j. rewrite Hs.
  case_decide; by subst.
Qed.

Lemma quiet_apply st st0 sid block st1 :
  st_streams st0 = st_streams st -> st_bodies st0 = st_bodies st ->
  _apply_headers st0 sid block = Ok st1 -> quiet_step sid st st1.
Proof.
  intros Es Eb H. apply apply_headers_view in H as (H1 & _ & status & rest & H2).
  rewrite Es in H2. split; [congruence|].
  exists (fun r => set_headers rest (set_status status r)). by split.
Qed.

(** A quiet step, then END_STREAM if the flag says so: HEADERS. *)
Lemma headers_effect f st st1 k :
  f_type f = HEADERS -> quiet_step (f_stream_id f) st st1 ->
  frame_effect f st (maybe_end (f_flags f) (f_stream_id f) st1) k.
Proof.
  intros Hty (Hb & g & Hg & Hv). destruct (decide (f_stream_id f = k)) as [<-|Hk].
  - destruct (Hg (view (st_streams st) (f_stream_id f))) as (G1 & G2 & G3 & G4).
    eapply effect_self with (tail := []); [done|apply maybe_end_view|..];
      rewrite ?decide_True, ?Hv, ?decide_True, ?Hty by done; cbn.
    + by destruct (has_flag _ _).
    + by destruct (has_flag _ _).
    + destruct (has_flag _ _); cbn; rewrite ?orb_true_r, ?orb_false_r; done.
    + by destruct (has_flag _ _).
    + by rewrite maybe_end_bodies, Hb, app_nil_r.
    + done.
  - apply effect_other; [done| |by rewrite maybe_end_bodies, Hb].
    by rewrite maybe_end_view, decide_False, Hv, decide_False.
Qed.

(** A quiet step and nothing else: CONTINUATION and the ignored types. *)
Lemma quiet_effect f st st1 k :
  f_type f <> HEADERS -> f_type f <> DATA -> f_type f <> RST_STREAM ->
  quiet_step (f_stream_id f) st st1 -> frame_effect f st st1 k.
Proof.
  intros H1 H2 H3 (Hb & g & Hg & Hv). destruct (decide (f_stream_id f = k)) as [<-|Hne].
  - destruct (Hg (view (st_streams st) (f_stream_id f))) as (G1 & G2 & G3 & G4).
    apply Z.eqb_neq in H1, H2, H3.
    eapply effect_self with (tail := []); [done|apply Hv|..];
      rewrite ?decide_True, ?H1, ?H2, ?H3 by done; cbn; rewrite ?Hb, ?orb_false_r, ?app_nil_r;
      done.
  - apply effect_other; [done| |by rewrite Hb]. by rewrite Hv, decide_False.
Qed.

Lemma data_effect f st k :
  f_type f = DATA ->
  let sid := f_stream_id f in
  frame_effect f st (maybe_end (f_flags f) sid
    (with_bodies (fun m => <[sid := default [] (m !! sid) ++ f_payload f]> m)
      (with_streams (fun m => fst (_stream m sid)) st))) k.
Proof.
  intros Hty sid. set (st1 := with_bodies _ _).
  assert (Hv : forall j, view (st_streams st1) j = view (st_streams st) j)
    by (intros; apply view_stream).
  destruct (decide (sid = k)) as [<-|Hne].
  - eapply effect_self with (tail := f_payload f); [done|apply maybe_end_view|..];
      rewrite ?decide_True, ?Hv, ?Hty by done; cbn; try (by destruct (has_flag _ _)).
    + destruct (has_flag _ _); cbn; by rewrite ?orb_true_r, ?orb_false_r.
    + rewrite maybe_end_bodies. unfold st1. cbn. by rewrite lookup_insert, decide_True.
    + done.
  - apply effect_other; [done| |].
    + by rewrite maybe_end_view, decide_False, Hv.
    + rewrite maybe_end_bodies. unfold st1. cbn. by rewrite lookup_insert_ne.
Qed.

Lemma rst_effect f st k :
  f_type f = RST_STREAM ->
  frame_effect f st (with_streams (update_stream (set_reset (reset_code f)) (f_stream_id f)) st) k.
Proof.
  intros Hty. destruct (decide (f_stream_id f = k)) as [<-|Hne].
  - eapply effect_self with (tail := []); [done|apply view_update|..];
      rewrite ?decide_True, ?Hty by done; cbn; rewrite ?orb_false_r, ?app_nil_r; done.
  - apply effect_other; [done| |done]. cbn. by rewrite view_update, decide_False.
Qed.

Lemma handle_frame_effect f st st' k :
  k <> 0 -> handle_frame st f = Ok st' -> frame_effect f st st' k.
Proof.
  intros Hk. unfold handle_frame.
  destruct (f_stream_id f =? 0) eqn:E0.
  { intros [= <-]. apply effect_other; [lia|done|done]. }
  destruct (f_type f =? HEADERS) eqn:E1.
  { destruct (_header_block f) as [block|]; [|done]. cbn [res_bind].
    destruct (has_flag (f_flags f) FLAG_END_HEADERS).
    - destruct (_apply_headers st _ block) as [st1|] eqn:E; [|done]. cbn [res_bind].
      intros [= <-]. apply (headers_effect f st st1 k); [lia|]. by eapply quiet_apply.
    - intros [= <-]. apply headers_effect with (st1 := with_pending _ st); [lia|].
      by apply quiet_same. }
  destruct (f_type f =? CONTINUATION) eqn:E2.
  { intros H. apply quiet_effect; [lia|unfold DATA, CONTINUATION in *; lia
      |unfold RST_STREAM, CONTINUATION in *; lia|]. revert H.
    destruct (st_pending st !! _) as [buf|]; cbn [res_bind].
    - destruct (has_flag (f_flags f) FLAG_END_HEADERS).
      + destruct (_apply_headers _ _ _) as [st1|] eqn:E; [|done]. intros [= <-].
        by eapply quiet_apply in E.
      + intros [= <-]. by apply quiet_same.
    - intros [= <-]. by apply quiet_same. }
  destruct (f_type f =? DATA) eqn:E3.
  { intros [= <-]. apply (data_effect f st k). lia. }
  destruct (f_type f =? RST_STREAM) eqn:E4.
  { intros [= <-]. apply (rst_effect f st k). lia. }
  intros [= <-]. apply quiet_effect; [lia..|]. by apply quiet_same.
Qed.

(** Streams are only added, on the frame's own identifier, and a body is only
    opened for a stream that exists. *)
Record grown (sid : Z) (st st' : h2_state) : Prop := {
  grown_keeps k : is_Some (st_streams st !! k) -> is_Some (st_streams st' !! k);
  grown_local k : k <> sid -> st_streams st' !! k = st_streams st !! k;
  grown_owned k : is_Some (st_bodies st' !! k) ->
                  is_Some (st_bodies st !! k) \/ is_Some (st_streams st' !! k);
}.

#[global] Instance grown_preorder sid : PreOrder (grown sid).
Proof.
  split.
  - intros st. split; eauto.
  - intros a b c [K1 L1 O1] [K2 L2 O2]. split; [eauto| |].
    + intros k Hk. rewrite L2, L1; done.
    + intros k Hk. destruct (O2 k Hk) as [Hb|]; [|by right].
      destruct (O1 k Hb); [by left|right; eauto].
Qed.

Lemma update_stream_other f m sid k : k <> sid -> update_stream f sid m !! k = m !! k.
Proof.
  intros Hk. unfold update_stream, _stream.
  destruct (m !! sid); by rewrite !lookup_insert_ne by done.
Qed.

Lemma grown_update f sid st : grown sid st (with_streams (update_stream f sid) st).
Proof.
  split; cbn; eauto using update_stream_lookup, update_stream_other.
Qed.

Lemma grown_maybe_end flags sid st : grown sid st (maybe_end flags sid st).
Proof. unfold maybe_end. destruct (has_flag _ _); [apply grown_update|reflexivity]. Qed.

Lemma grown_pending sid g st : grown sid st (with_pending g st).
Proof. split; cbn; eauto. Qed.

Lemma grown_data sid g st :
  grown sid st (with_bodies (fun m => <[sid := g m]> m)
                  (with_streams (fun m => fst (_stream m sid)) st)).
Proof.
  unfold _stream. split; cbn; intros k Hk.
  - destruct (st_streams st !! sid) eqn:E; [done|]. simpl.
    rewrite lookup_insert. case_decide; eauto.
  - destruct (st_streams st !! sid); [done|]. simpl. by rewrite lookup_insert_ne.
  - rewrite lookup_insert in Hk. case_decide; [subst k|by left]. right.
    destruct (st_streams st !! sid) eqn:E; [eauto|]. simpl.
    by rewrite lookup_insert, decide_True.
Qed.

Lemma grown_apply sid st block st' : _apply_headers st sid block = Ok st' -> grown sid st st'.
Proof.
  unfold _apply_headers, _stream. intros H.
  destruct (st_streams st !! sid) eqn:E;
    (destruct (hpack_decode _ _) as [[d hs]|]; [|done]); cbn [res_bind] in H;
    destruct (split_fields _ _ _) as [status rest]; injection H as <-;
    split; cbn; intros k Hk; rewrite ?lookup_insert in *; repeat case_decide; eauto; done.
Qed.

Lemma handle_frame_grown f st st' :
  handle_frame st f = Ok st' -> f_stream_id f <> 0 -> grown (f_stream_id f) st st'.
Proof.
  unfold handle_frame. intros H H0. replace (f_stream_id f =? 0) with false in H by lia.
  destruct (f_type f =? HEADERS).
  { destruct (_header_block f) as [block|]; [|done]. cbn [res_bind] in H.
    destruct (has_flag (f_flags f) FLAG_END_HEADERS); cbn [res_bind] in H.
    - destruct (_apply_headers st _ block) as [st1|] eqn:E; [|done]. injection H as <-.
      etrans; [by eapply grown_apply|apply grown_maybe_end].
    - injection H as <-. etrans; [eapply grown_pending|apply grown_maybe_end]. }
  destruct (f_type f =? CONTINUATION).
  { destruct (st_pending st !! _) as [buf|]; [|by injection H as <-].
    destruct (has_flag (f_flags f) FLAG_END_HEADERS); [|injection H as <-; apply grown_pending].
    destruct (_apply_headers _ _ _) as [st1|] eqn:E; [|done]. injection H as <-.
    etrans; [eapply grown_pending|]. etrans; [by eapply grown_apply|apply grown_pending]. }
  destruct (f_type f =? DATA).
  { injection H as <-. etrans; [eapply grown_data|apply grown_maybe_end]. }
  destruct (f_type f =? RST_STREAM); injection H as <-; [apply grown_update|reflexivity].
Qed.

Lemma loop_inv_step fs f st st' :
  loop_inv fs st -> handle_frame st f = Ok st' -> loop_inv (fs ++ [f]) st'.
Proof.
  intros Hinv H.
  assert (G : st' = st \/ (f_stream_id f <> 0 /\ grown (f_stream_id f) st st')).
  { destruct (decide (f_stream_id f = 0)) as [E|E].
    - left. unfold handle_frame in H. replace (_ =? 0) with true in H by lia. congruence.
    - right. eauto using handle_frame_grown. }
  pose proof (fun k Hk => handle_frame_effect f st st' k Hk H) as Heff. split.
  - intros k Hk. destruct (Heff k Hk) as [F1 F2 F3 F4 F5].
    pose proof (inv_agrees _ _ Hinv k Hk) as A. eapply agrees_snoc; eauto.
    rewrite F2. apply A.
  - intros k Hk. rewrite data_of_snoc, (eff_data _ _ _ _ (Heff k Hk)).
    by rewrite (inv_bodies _ _ Hinv k Hk).
  - intros k Hk. destruct G as [->|[_ G]]; [by apply (inv_owned _ _ Hinv)|].
    destruct (grown_owned _ _ _ G k Hk) as [Hb|]; [|done].
    apply (grown_keeps _ _ _ G), (inv_owned _ _ Hinv _ Hb).
  - destruct G as [->|[H0 G]]; [apply (inv_zero _ _ Hinv)|].
    rewrite (grown_local _ _ _ G) by done. apply (inv_zero _ _ Hinv).
Qed.

Lemma loop_inv_frames fs st fs' st' :
  loop_inv fs' st -> handle_frames st fs = Ok st' -> loop_inv (fs' ++ fs) st'.
Proof.
  revert st fs'. induction fs as [|f fs IH]; intros st fs' Hinv H; cbn in H.
  - injection H as <-. by rewrite app_nil_r.
  - destruct (handle_frame st f) as [st1|] eqn:E; [|done]. cbn in H.
    rewrite cons_middle, app_assoc. eapply IH; [|done]. by eapply loop_inv_step.
Qed.

(** C36. Refinement to the frame list: whenever [decode_response] returns, the
    response it reports for a stream has, as body, the concatenation of that
    stream's DATA payloads in arrival order, has ended exactly when one of the
    stream's HEADERS or DATA frames carries END_STREAM, and carries the code
    of the last RST_STREAM; a stream it does not report had none of these; and
    stream 0 is never reported. *)
Theorem decode_response_streams data m sid :
  decode_response data = Ok m -> sid <> 0 ->
  let fs := parse_frames data in
  m !! 0 = None /\
  match m !! sid with
  | Some r => r_stream_id r = sid /\ r_body r = data_of sid fs /\
              r_ended r = ended_of sid fs /\ r_reset r = reset_of sid fs
  | None => data_of sid fs = [] /\ ended_of sid fs = false /\ reset_of sid fs = None
  end.
Proof.
  unfold decode_response. intros H Hsid. destruct (handle_frames _ _) as [st|] eqn:E; [|done].
  injection H as <-. cbn zeta.
  pose proof (loop_inv_frames _ _ [] _ loop_inv_initial E) as Hinv. cbn [app] in Hinv.
  destruct (inv_agrees _ _ Hinv sid Hsid) as (A1 & A2 & A3 & A4).
  pose proof (inv_bodies _ _ Hinv sid Hsid) as B. unfold freeze_bodies.
  rewrite !map_lookup_imap, (inv_zero _ _ Hinv). split; [done|].
  pose proof (inv_owned _ _ Hinv sid) as O. unfold view in *.
  destruct (st_streams st !! sid) as [r|] eqn:Es; cbn in *.
  - destruct (st_bodies st !! sid) as [b|]; cbn in *; [by rewrite B|].
    rewrite A2, B. done.
  - destruct (st_bodies st !! sid) as [b|]; [by destruct O as [? [=]]|]. done.
Qed.

Definition response_sample : list Z :=
  concat (map encode_frame
    [mkFrame 1 4 3 [0x88]; mkFrame 0 0 3 [104; 105]; mkFrame 0 1 3 [33];
     mkFrame 3 0 5 [0; 0; 0; 8]]).

Lemma decode_response_streams_witness :
  exists m, decode_response response_sample = Ok m /\ 3 <> 0 /\
    m !! 0 = None /\
    match m !! 3 with
    | Some r => r_stream_id r = 3 /\ r_body r = data_of 3 (parse_frames response_sample) /\
                r_ended r = ended_of 3 (parse_frames response_sample) /\
                r_reset r = reset_of 3 (parse_frames response_sample)
    | None => data_of 3 (parse_frames response_sample) = [] /\
              ended_of 3 (parse_frames response_sample) = false /\
              reset_of 3 (parse_frames response_sample) = None
    end.
Proof.
  eexists. split; [vm_compute; reflexivity|]. split; [lia|].
  apply (decode_response_streams response_sample); [vm_compute; reflexivity|lia].
Defined.

(** ** Header blocks split over CONTINUATION frames *)

Definition end_flag (es : bool) : Z := if es then FLAG_END_STREAM else 0.

(** The block [b0 ++ concat mid ++ bl] sent as HEADERS and CONTINUATIONs. *)
Definition split_block (sid : Z) (es : bool) (b0 : list Z) (mid : list (list Z)) (bl : list Z)
    : list Frame :=
  mkFrame HEADERS (end_flag es) sid b0 ::
  map (mkFrame CONTINUATION 0 sid) mid ++ [mkFrame CONTINUATION FLAG_END_HEADERS sid bl].

Definition whole_block (sid : Z) (es : bool) (block : list Z) : Frame :=
  mkFrame HEADERS (Z.lor (end_flag es) FLAG_END_HEADERS) sid block.

Lemma apply_headers_pending g st sid block :
  _apply_headers (with_pending g st) sid block =
  let! st' := _apply_headers st sid block in Ok (with_pending g st').
Proof.
  unfold _apply_headers. cbn. destruct (_stream _ _).
  destruct (hpack_decode _ _) as [[d hs]|]; [|done]. cbn. by destruct (split_fields _ _ _).
Qed.


Lemma delete_pending sid p st :
  with_pending (delete sid) (with_pending (insert sid p) st) = with_pending (delete sid) st.
Proof. unfold with_pending. cbn. by rewrite delete_insert_eq. Qed.

Lemma continuation_step st sid flags p buf :
  sid <> 0 -> st_pending st !! sid = Some buf ->
  handle_frame st (mkFrame CONTINUATION flags sid p) =
  if has_flag flags FLAG_END_HEADERS then
    let! st' := _apply_headers st sid (buf ++ p) in Ok (with_pending (delete sid) st')
  else Ok (with_pending (insert sid (buf ++ p)) st).
Proof.
  intros Hsid Hp. unfold handle_frame. cbn [f_type f_flags f_stream_id f_payload].
  replace (sid =? 0) with false by lia. rewrite Hp. cbn [Z.eqb CONTINUATION HEADERS Pos.eqb].
  destruct (has_flag _ _); [|done]. rewrite apply_headers_pending.
  destruct (_apply_headers _ _ _) as [st'|]; [|done]. cbn [res_bind].
  by rewrite delete_pending.
Qed.

(** Evaluate the flag tests on constants. *)
Ltac eval_flags :=
  repeat match goal with
  | |- context [has_flag ?a ?b] =>
    let v := eval vm_compute in (has_flag a b) in change (has_flag a b) with v
  end.

(** A HEADERS frame with neither PADDED nor PRIORITY. *)
Lemma headers_step st sid es (whole : bool) p :
  sid <> 0 ->
  handle_frame st
    (mkFrame HEADERS (Z.lor (end_flag es) (if whole then FLAG_END_HEADERS else 0)) sid p) =
  let! st' := (if whole then _apply_headers st sid p else Ok (with_pending (insert sid p) st)) in
  Ok (if es then with_streams (update_stream set_ended sid) st' else st').
Proof.
  intros Hsid. unfold handle_frame, _header_block. cbn [f_type f_flags f_stream_id f_payload].
  replace (sid =? 0) with false by lia.
  assert (E : pyslice p 0 (zlen p - 0) = p).
  { rewrite Z.sub_0_r, <- (app_nil_r p) at 1. by apply pyslice_from_prefix. }
  destruct es, whole; eval_flags; cbn [Z.eqb HEADERS Pos.eqb res_bind]; by rewrite E.
Qed.

Lemma continuation_run sid mid bl st buf :
  sid <> 0 -> st_pending st !! sid = Some buf ->
  handle_frames st
    (map (mkFrame CONTINUATION 0 sid) mid ++ [mkFrame CONTINUATION FLAG_END_HEADERS sid bl]) =
  let! st' := _apply_headers st sid (buf ++ concat mid ++ bl) in
  Ok (with_pending (delete sid) st').
Proof.
  intros Hsid. revert st buf.
  induction mid as [|b mid IH]; intros st buf Hp; cbn [map app handle_frames concat];
    rewrite (continuation_step _ _ _ _ buf) by done.
  - eval_flags. cbn [app]. by destruct (_apply_headers _ _ _).
  - eval_flags. cbn [res_bind].
    rewrite (IH _ (buf ++ b)) by (cbn; by rewrite lookup_insert, decide_True).
    rewrite apply_headers_pending, <- !app_assoc.
    destruct (_apply_headers _ _ _) as [st'|]; [|done]. cbn [res_bind].
    by rewrite delete_pending.
Qed.

(** Marking a stream ended before or after its header block is applied. *)
Lemma apply_headers_ended st sid block :
  _apply_headers (with_streams (update_stream set_ended sid) st) sid block =
  let! st' := _apply_headers st sid block in
  Ok (with_streams (update_stream set_ended sid) st').
Proof.
  unfold _apply_headers, with_streams, update_stream, _stream. cbn.
  destruct (st_streams st !! sid) as [r|] eqn:E; rewrite !lookup_insert, !decide_True by done;
    (destruct (hpack_decode _ _) as [[d hs]|]; [|done]); cbn;
    destruct (split_fields _ _ _) as [status rest]; cbn;
    rewrite !lookup_insert, !decide_True by done; by rewrite ?insert_insert_eq.
Qed.

(** A header block may be cut anywhere: HEADERS followed by any number of
    CONTINUATION frames has the effect, on every dictionary and on the HPACK
    context, of one HEADERS frame with the whole block and END_HEADERS, the
    errors of the header decoder included. *)
Theorem headers_continuation st sid es b0 mid bl :
  sid <> 0 -> st_pending st !! sid = None ->
  handle_frames st (split_block sid es b0 mid bl) =
  handle_frame st (whole_block sid es (b0 ++ concat mid ++ bl)).
Proof.
  intros Hsid Hp. unfold split_block, whole_block.
  rewrite (headers_step st sid es true) by done. cbn [handle_frames].
  replace (end_flag es) with (Z.lor (end_flag es) 0) by apply Z.lor_0_r.
  rewrite (headers_step st sid es false) by done. cbn [res_bind].
  assert (Hd : forall st', st_pending st' = st_pending st ->
    with_pending (delete sid) (with_pending (insert sid b0) st') = st').
  { intros st' E. rewrite delete_pending. destruct st'. unfold with_pending. cbn in *. subst.
    by rewrite delete_id. }
  destruct es; (rewrite continuation_run with (buf := b0);
    [|done|cbn; by rewrite lookup_insert, decide_True]);
    rewrite ?apply_headers_ended, ?apply_headers_pending;
    (destruct (_apply_headers st sid _) as [st'|] eqn:E; [|done]); cbn [res_bind];
    f_equal; apply apply_headers_view in E as (_ & E & _); rewrite <- (Hd st' E) at 2; done.
Qed.

Lemma headers_continuation_witness :
  3 <> 0 /\ st_pending initial_state !! 3 = None /\
  handle_frames initial_state (split_block 3 true [0x88; 0x40; 1] [[97; 2]; []] [98; 99]) =
  handle_frame initial_state (whole_block 3 true [0x88; 0x40; 1; 97; 2; 98; 99]).
Proof.
  split; [lia|]. split; [reflexivity|].
  apply (headers_continuation initial_state 3 true [0x88; 0x40; 1] [[97; 2]; []] [98; 99]);
    [lia|reflexivity].
Defined.

(** ** Padding of a HEADERS payload *)

(** The padding of a HEADERS frame is removed exactly: a payload that is a
    pad length, the priority fields if flagged, a fragment and that many octets
    of padding gives the fragment.  An over-long pad length, which RFC 9113
    section 6.2 makes a connection error, is accepted instead: the slice then
    counts its end from the end of the payload, and octets before it are read
    as the fragment. *)
Theorem header_block_padding flags sid prio frag padding :
  has_flag flags FLAG_PADDED = true ->
  zlen prio = (if has_flag flags FLAG_PRIORITY then 5 else 0) ->
  _header_block (mkFrame HEADERS flags sid (zlen padding :: prio ++ frag ++ padding)) = Ok frag
  /\ _header_block (mkFrame HEADERS FLAG_PADDED sid [4; 1; 2]) = Ok [1]
  /\ _header_block (mkFrame HEADERS flags sid []) = Err IndexError.
Proof.
  intros Hpad Hprio. split; [|split; [reflexivity|]].
  - unfold _header_block. cbn [f_flags f_payload]. rewrite Hpad, pyget_nonneg by lia.
    change (Z.to_nat 0) with 0%nat. cbn [lookup list_lookup res_bind]. f_equal.
    replace (if has_flag flags FLAG_PRIORITY then 1 + 5 else 1) with (zlen (zlen padding :: prio))
      by (rewrite zlen_cons, Hprio; destruct (has_flag flags FLAG_PRIORITY); reflexivity).
    replace (zlen (zlen padding :: prio ++ frag ++ padding) - zlen padding)
      with (zlen (zlen padding :: prio) + zlen frag)
      by (rewrite !zlen_cons, !zlen_app; lia).
    by apply (pyslice_app (zlen padding :: prio)).
  - unfold _header_block. cbn [f_flags f_payload]. by rewrite Hpad.
Qed.

Lemma header_block_padding_witness :
  has_flag 0x28 FLAG_PADDED = true /\
  zlen [0; 0; 0; 0; 7] = (if has_flag 0x28 FLAG_PRIORITY then 5 else 0) /\
  _header_block (mkFrame HEADERS 0x28 1 ([2; 0; 0; 0; 0; 7] ++ [0x88] ++ [0; 0])) = Ok [0x88]
  /\ _header_block (mkFrame HEADERS FLAG_PADDED 1 [4; 1; 2]) = Ok [1]
  /\ _header_block (mkFrame HEADERS 0x28 1 []) = Err IndexError.
Proof.
  split; [reflexivity|]. split; [reflexivity|].
  apply (header_block_padding 0x28 1 [0; 0; 0; 0; 7] [0x88] [0; 0]); reflexivity.
Defined.
