(* ===== verification/PyCollections.v ===== *)
(** * Python collections

    Ordered comparison, stable sorting and insertion-ordered dictionaries, as
    the modelled code uses them.  A Python [str] is the list of its code
    points; a [dict] is the list of its items in insertion order, and assigning
    to a key that is present keeps its place. *)

From Stdlib Require Import Sorted.
From stdpp Require Import base list sets numbers.
From Stdlib Require Import ZArith Lia.
From S2P Require Import Prelude.
#[local] Open Scope Z_scope.

Definition pystr : Type := list Z.

(** ** Comparison *)

Class PyOrd (A : Type) : Type := {
  pycmp : A -> A -> comparison;
  pycmp_eq x y : pycmp x y = Eq <-> x = y;
  pycmp_flip x y : pycmp y x = CompOpp (pycmp x y);
  pycmp_lt_trans x y z : pycmp x y = Lt -> pycmp y z = Lt -> pycmp x z = Lt;
}.

#[global] Program Instance Z_pyord : PyOrd Z := { pycmp := Z.compare }.
Next Obligation. intros. apply Z.compare_eq_iff. Qed.
Next Obligation. intros. apply Z.compare_antisym. Qed.
Next Obligation. intros x y z. rewrite !Z.compare_lt_iff. lia. Qed.

(** Strings, tuples and lists compare item by item. *)
Fixpoint list_cmp {A} `{PyOrd A} (l k : list A) : comparison :=
  match l, k with
  | [], [] => Eq
  | [], _ :: _ => Lt
  | _ :: _, [] => Gt
  | x :: l, y :: k => match pycmp x y with Eq => list_cmp l k | c => c end
  end.

Section list_order.
Context {A : Type} `{PyOrd A}.

Lemma list_cmp_eq (l k : list A) : list_cmp l k = Eq <-> l = k.
Proof.
  revert k. induction l as [|x l IH]; intros [|y k]; simpl; try done.
  destruct (pycmp x y) eqn:E.
  - apply pycmp_eq in E as ->. rewrite IH. split; [by intros ->|by intros [= ->]].
  - split; [done|]. intros [= -> ->]. rewrite (proj2 (pycmp_eq y y)) in E; done.
  - split; [done|]. intros [= -> ->]. rewrite (proj2 (pycmp_eq y y)) in E; done.
Qed.

Lemma list_cmp_flip (l k : list A) : list_cmp k l = CompOpp (list_cmp l k).
Proof.
  revert k. induction l as [|x l IH]; intros [|y k]; simpl; try done.
  rewrite (pycmp_flip x y). destruct (pycmp x y); simpl; auto.
Qed.

Lemma list_cmp_lt_trans (l k m : list A) :
  list_cmp l k = Lt -> list_cmp k m = Lt -> list_cmp l m = Lt.
Proof.
  revert k m. induction l as [|x l IH]; intros [|y k] [|z m]; simpl; try done.
  destruct (pycmp x y) eqn:E1; try done.
  - apply pycmp_eq in E1 as ->. destruct (pycmp y z); try done. apply IH.
  - intros _. destruct (pycmp y z) eqn:E2; try done.
    + apply pycmp_eq in E2 as ->. by rewrite E1.
    + intros _. by rewrite (pycmp_lt_trans _ _ _ E1 E2).
Qed.

#[global] Instance list_pyord : PyOrd (list A) := {
  pycmp := list_cmp;
  pycmp_eq := list_cmp_eq;
  pycmp_flip := list_cmp_flip;
  pycmp_lt_trans := list_cmp_lt_trans;
}.
End list_order.

Definition pyleb {A} `{PyOrd A} (x y : A) : bool :=
  match pycmp x y with Gt => false | _ => true end.

Section leb.
Context {A : Type} `{PyOrd A}.

Lemma pyleb_total (x y : A) : pyleb x y = true \/ pyleb y x = true.
Proof. unfold pyleb. rewrite (pycmp_flip x y). destruct (pycmp x y); auto. Qed.

Lemma pyleb_trans (x y z : A) : pyleb x y = true -> pyleb y z = true -> pyleb x z = true.
Proof.
  unfold pyleb. destruct (pycmp x y) eqn:E1; try done.
  - by apply pycmp_eq in E1 as ->.
  - intros _. destruct (pycmp y z) eqn:E2; try done.
    + apply pycmp_eq in E2 as ->. by rewrite E1.
    + intros _. by rewrite (pycmp_lt_trans _ _ _ E1 E2).
Qed.

Lemma pyleb_antisym (x y : A) : pyleb x y = true -> pyleb y x = true -> x = y.
Proof.
  unfold pyleb. rewrite (pycmp_flip x y).
  destruct (pycmp x y) eqn:E; simpl; try done. by apply pycmp_eq in E.
Qed.
End leb.

(** ** [sorted(l, key=key)]: a stable sort *)

Section sorting.
Context {A K : Type} `{PyOrd K} (key : A -> K).

Fixpoint sort_insert (x : A) (l : list A) : list A :=
  match l with
  | [] => [x]
  | y :: l => if pyleb (key x) (key y) then x :: y :: l else y :: sort_insert x l
  end.

Definition sorted_by (l : list A) : list A := foldr sort_insert [] l.

Definition key_le (x y : A) : Prop := pyleb (key x) (key y) = true.

Lemma sort_insert_perm x l : sort_insert x l ≡ₚ x :: l.
Proof.
  induction l as [|y l IH]; simpl; [done|]. destruct (pyleb _ _); [done|].
  rewrite IH. apply Permutation_swap.
Qed.

Lemma sorted_by_perm l : sorted_by l ≡ₚ l.
Proof. induction l as [|x l IH]; simpl; [done|]. by rewrite sort_insert_perm, IH. Qed.

Lemma sort_insert_sorted x l :
  StronglySorted key_le l -> StronglySorted key_le (sort_insert x l).
Proof.
  induction 1 as [|y l Hl IH Hy]; simpl; [repeat constructor|].
  destruct (pyleb (key x) (key y)) eqn:E.
  - constructor; [by constructor|]. constructor; [done|].
    eapply Forall_impl; [|exact Hy]. intros z Hz. by eapply pyleb_trans.
  - constructor; [done|]. rewrite sort_insert_perm. constructor; [|done].
    destruct (pyleb_total (key x) (key y)) as [E'|E']; [congruence|done].
Qed.

Lemma sorted_by_sorted l : StronglySorted key_le (sorted_by l).
Proof.
  induction l as [|x l IH]; simpl; [constructor|]. by apply sort_insert_sorted.
Qed.

Definition key_inj (l : list A) : Prop :=
  forall x y, x ∈ l -> y ∈ l -> key x = key y -> x = y.

Lemma sorted_unique l k :
  key_inj l -> l ≡ₚ k -> StronglySorted key_le l -> StronglySorted key_le k -> l = k.
Proof.
  intros Hinj Hp Hl. revert k Hp. induction Hl as [|x l Hl IH Hx]; intros k Hp Hk.
  - by apply Permutation_nil in Hp as ->.
  - destruct Hk as [|y k Hk Hy]; [by symmetry in Hp; apply Permutation_nil in Hp|].
    assert (x = y) as ->.
    { apply Hinj; [set_solver| |].
      - rewrite Hp. set_solver.
      - assert (Hyin : y ∈ x :: l) by (rewrite Hp; set_solver).
        assert (Hxin : x ∈ y :: k) by (rewrite <- Hp; set_solver).
        apply elem_of_cons in Hyin as [->|Hyin]; [done|].
        apply elem_of_cons in Hxin as [->|Hxin]; [done|].
        rewrite List.Forall_forall in Hx, Hy. apply pyleb_antisym;
          [apply (Hx y)|apply (Hy x)]; by apply list_elem_of_In. }
    f_equal. apply IH; [|by eapply Permutation_cons_inv|done].
    intros a b Ha Hb. apply Hinj; set_solver.
Qed.

(** Distinct keys make the sorted list a function of the set of items. *)
Lemma sorted_by_det l k : key_inj l -> l ≡ₚ k -> sorted_by l = sorted_by k.
Proof.
  intros Hinj Hp. apply sorted_unique; try apply sorted_by_sorted.
  - intros x y. rewrite !sorted_by_perm. apply Hinj.
  - by rewrite !sorted_by_perm.
Qed.
End sorting.

(** ** Dictionaries *)

Section dict.
Context {K V : Type} `{EqDecision K}.

Fixpoint dget (d : list (K * V)) (k : K) : option V :=
  match d with
  | [] => None
  | (k', v) :: d => if decide (k' = k) then Some v else dget d k
  end.

Fixpoint dset (d : list (K * V)) (k : K) (v : V) : list (K * V) :=
  match d with
  | [] => [(k, v)]
  | (k', v') :: d => if decide (k' = k) then (k', v) :: d else (k', v') :: dset d k v
  end.

Definition dmem (d : list (K * V)) (k : K) : bool :=
  match dget d k with Some _ => true | None => false end.

Definition dkeys (d : list (K * V)) : list K := map fst d.

Lemma dget_dset d k v j : dget (dset d k v) j = if decide (k = j) then Some v else dget d j.
Proof.
  induction d as [|[k' v'] d IH]; simpl; [done|].
  destruct (decide (k' = k)) as [->|Hk]; simpl.
  - by case_decide.
  - rewrite IH. repeat case_decide; congruence.
Qed.

Lemma dget_elem d k v : dget d k = Some v -> (k, v) ∈ d.
Proof.
  induction d as [|[k' v'] d IH]; simpl; [done|].
  case_decide; [intros [= ->]; subst; set_solver|]. intros E. apply IH in E. set_solver.
Qed.

Lemma dget_keys d k : is_Some (dget d k) <-> k ∈ dkeys d.
Proof.
  induction d as [|[k' v'] d IH]; simpl.
  - split; [by intros [? ?]|set_solver].
  - rewrite elem_of_cons. case_decide; [subst; split; eauto|]. rewrite IH. naive_solver.
Qed.

Lemma dget_none_keys d k : dget d k = None <-> k ∉ dkeys d.
Proof. rewrite <- dget_keys. destruct (dget d k); split; intros; naive_solver. Qed.

Lemma dmem_spec d k : dmem d k = true <-> k ∈ dkeys d.
Proof.
  rewrite <- dget_keys. unfold dmem. destruct (dget d k); split; naive_solver.
Qed.

Lemma dset_fresh d k v : k ∉ dkeys d -> dset d k v = d ++ [(k, v)].
Proof.
  induction d as [|[k' v'] d IH]; simpl; [done|]. intros Hk.
  rewrite decide_False by set_solver. rewrite IH by set_solver. done.
Qed.

Lemma dset_keys d k v : dkeys (dset d k v) = if decide (k ∈ dkeys d) then dkeys d else dkeys d ++ [k].
Proof.
  case_decide as Hk; [|rewrite dset_fresh by done; unfold dkeys; by rewrite map_app].
  induction d as [|[k' v'] d IH]; simpl in *; [set_solver|].
  case_decide as E; simpl; [done|]. rewrite IH by set_solver. done.
Qed.

Lemma dset_nodup d k v : NoDup (dkeys d) -> NoDup (dkeys (dset d k v)).
Proof.
  intros Hd. rewrite dset_keys. case_decide; [done|]. apply list.NoDup_app.
  split; [done|]. split; [set_solver|]. apply list.NoDup_singleton.
Qed.

Lemma dget_nodup d k v : NoDup (dkeys d) -> (k, v) ∈ d -> dget d k = Some v.
Proof.
  induction d as [|[k' v'] d IH]; simpl; [set_solver|]. intros Hd.
  apply list.NoDup_cons in Hd as [Hk Hd]. rewrite elem_of_cons. intros [[= -> ->]|Hin].
  - by rewrite decide_True.
  - rewrite decide_False; [by apply IH|]. intros ->. apply Hk.
    unfold dkeys. apply list_elem_of_fmap. by exists (k, v).
Qed.

(** Edges out of the nodes a worklist has not expanded. *)
Fixpoint unseen_edges (edges : list (K * list K)) (seen : list K) : nat :=
  match edges with
  | [] => 0%nat
  | e :: edges => ((if bool_decide (e.1 ∈ seen) then 0 else length (e.2)) + unseen_edges edges seen)%nat
  end.

Lemma unseen_edges_nil edges : unseen_edges edges [] = list_sum (map (fun e => length (e.2)) edges).
Proof.
  induction edges as [|e edges IH]; [done|]. cbn -[bool_decide].
  rewrite bool_decide_false by set_solver. by rewrite IH.
Qed.

Lemma unseen_edges_mono edges seen u :
  (unseen_edges edges (u :: seen) <= unseen_edges edges seen)%nat.
Proof.
  induction edges as [|e edges IH]; [done|]. cbn -[bool_decide].
  repeat case_bool_decide; try lia; set_solver.
Qed.
End dict.

(** Expanding a node pays for the edges it adds to the worklist. *)
Lemma unseen_edges_add {K} `{EqDecision K} (edges : list (K * list K)) seen u :
  u ∉ seen ->
  (unseen_edges edges (u :: seen) + length (default [] (dget edges u)) <= unseen_edges edges seen)%nat.
Proof.
  intros Hu. induction edges as [|[v us] edges IH]; [done|].
  cbn -[bool_decide]. pose proof (unseen_edges_mono edges seen u).
  destruct (decide (v = u)) as [->|Hv]; cbn.
  - rewrite bool_decide_true by set_solver. rewrite bool_decide_false by done. lia.
  - repeat case_bool_decide; try lia; set_solver.
Qed.

(** ** Filters *)

Lemma filter_ext_elem {A} (P Q : A -> Prop) `{!forall x, Decision (P x)}
    `{!forall x, Decision (Q x)} (l : list A) :
  (forall x, x ∈ l -> P x <-> Q x) -> base.filter P l = base.filter Q l.
Proof.
  induction l as [|x l IH]; [done|]. intros HPQ. rewrite !filter_cons.
  rewrite IH by (intros y Hy; apply HPQ; set_solver).
  assert (Hx : P x <-> Q x) by (apply HPQ; set_solver).
  repeat case_decide; naive_solver.
Qed.
