(* ===== verification/PrivacyGraph.v ===== *)
(** * The foreign-key graph of an erasure

    [src/wreath/_privacy/graph.py], with the value types [Edge] and [Reach] of
    [_privacy/model.py].  A mapped class is its object identity, an integer;
    what the ORM registry says of it is a [ModelSpec].  Dictionaries keep their
    insertion order.  A Python [set] is a duplicate-free list of its elements,
    and a loop over a set visits [set_iter s], an arbitrary function: every
    theorem about this file holds for every iteration order. *)

From stdpp Require Import base list sets strings numbers.
From Stdlib Require Import ZArith Lia.
From S2P Require Import Prelude PyCollections.
#[local] Open Scope Z_scope.

Definition model : Type := Z.

(** What leaves the privacy planner as an exception. *)
Inductive perr : Type :=
| ValueError
| KeyError
| OutOfFuel.

(** ** Values *)

Record Edge : Type := mkEdge {
  from_table : pystr;
  from_column : pystr;
  to_table : pystr;
  to_column : pystr;
  on_delete : pystr;
  deferrable : bool;
}.

Definition edge_explain (e : Edge) : pystr :=
  from_table e ++ bs "." ++ from_column e ++ bs " -> " ++ to_table e ++ bs "." ++ to_column e.

Record Reach : Type := mkReach { path : list Edge }.

Definition depth (r : Reach) : Z := zlen (path r).

(** [sep.join(parts)]. *)
Fixpoint str_join (sep : pystr) (parts : list pystr) : pystr :=
  match parts with
  | [] => []
  | [p] => p
  | p :: parts => p ++ sep ++ str_join sep parts
  end.

Definition reach_explain (r : Reach) : pystr :=
  match path r with
  | [] => bs "declares the subject column"
  | p => str_join (bs " via ") (map edge_explain p)
  end.

#[global] Instance Edge_eq_dec : EqDecision Edge.
Proof. solve_decision. Defined.
#[global] Instance Reach_eq_dec : EqDecision Reach.
Proof. solve_decision. Defined.

(** ** The compiled ORM registry, as far as it is read *)

Record ColumnRef : Type := mkRef {
  ref_model_type : model;
  ref_column : pystr;
  ref_on_delete : pystr;
  ref_deferrable : bool;
}.

Record ColumnSpec : Type := mkColumn {
  database_name : pystr;
  c_nullable : bool;
  reference : option ColumnRef;
}.

Record ModelSpec : Type := mkSpec {
  model_type : model;
  sp_name : pystr;
  sp_schema : pystr;
  sp_table : pystr;
  sp_primary_key : list ColumnSpec;
  sp_columns : list ColumnSpec;
}.

(** ** The graph *)

Record Node : Type := mkNode {
  n_model : model;
  n_label : pystr;
  n_schema : pystr;
  n_table : pystr;
  n_primary_key : list pystr;
  n_nullable : list (pystr * bool);
}.

Definition qualified (n : Node) : pystr := n_schema n ++ bs "." ++ n_table n.

Record Graph : Type := mkGraph {
  nodes : list (model * Node);
  outbound : list (model * list (Edge * model));
  inbound : list (model * list (Edge * model));
}.

(** [self.inbound.get(m, ())] and [self.outbound.get(m, ())]. *)
Definition inbound_of (g : Graph) (m : model) : list (Edge * model) :=
  default [] (dget (inbound g) m).
Definition outbound_of (g : Graph) (m : model) : list (Edge * model) :=
  default [] (dget (outbound g) m).

(** *** [Graph.reachable_from] *)

(** The inner loop: [for edge, child in self.inbound.get(parent, ())]. *)
Fixpoint reach_children (edges : list (Edge * model)) (ppath : list Edge)
    (found : list (model * Reach)) (queue : list model)
    : list (model * Reach) * list model :=
  match edges with
  | [] => (found, queue)
  | (edge, child) :: edges =>
    if dmem found child then reach_children edges ppath found queue
    else reach_children edges ppath
           (dset found child (mkReach (ppath ++ [edge]))) (queue ++ [child])
  end.

Fixpoint reach_loop (g : Graph) (fuel : nat) (found : list (model * Reach))
    (queue : list model) : res perr (list (model * Reach)) :=
  match queue with
  | [] => Ok found
  | parent :: queue =>
    match fuel with
    | O => Err OutOfFuel
    | S fuel =>
      match dget found parent with
      | None => Err KeyError
      | Some r =>
        let '(found, queue) := reach_children (inbound_of g parent) (path r) found queue in
        reach_loop g fuel found queue
      end
    end
  end.

(** Each table enters the queue at most once, as the root or as the child of an
    inbound edge. *)
Definition all_children (g : Graph) : list model := concat (map (map snd ∘ snd) (inbound g)).

Definition reachable_from (g : Graph) (root : model) : res perr (list (model * Reach)) :=
  reach_loop g (S (length (all_children g))) [(root, mkReach [])] [root].

(** *** [build_graph] *)

Definition node_of_spec (spec : ModelSpec) : Node := {|
  n_model := model_type spec;
  n_label := sp_name spec;
  n_schema := sp_schema spec;
  n_table := sp_table spec;
  n_primary_key := map database_name (sp_primary_key spec);
  n_nullable := foldl (fun d c => dset d (database_name c) (c_nullable c)) [] (sp_columns spec);
|}.

(** [d.setdefault(k, []).append(x)]. *)
Definition dpush {V} (d : list (model * list V)) (k : model) (x : V) : list (model * list V) :=
  dset d k (default [] (dget d k) ++ [x]).

Definition column_edges (nodes : list (model * Node)) (child : model) (column : ColumnSpec)
    (g : Graph) : res perr Graph :=
  match reference column with
  | None => Ok g
  | Some ref =>
    let target := ref_model_type ref in
    match dget nodes target with
    | None => Ok g
    | Some parent_node =>
      match dget nodes child with
      | None => Err KeyError
      | Some child_node =>
        let edge := {|
          from_table := qualified child_node;
          from_column := database_name column;
          to_table := qualified parent_node;
          to_column := ref_column ref;
          on_delete := ref_on_delete ref;
          deferrable := ref_deferrable ref;
        |} in
        Ok (mkGraph nodes (dpush (outbound g) child (edge, target))
              (dpush (inbound g) target (edge, child)))
      end
    end
  end.

Fixpoint columns_edges nodes (child : model) (columns : list ColumnSpec) (g : Graph)
    : res perr Graph :=
  match columns with
  | [] => Ok g
  | column :: columns =>
    let! g := column_edges nodes child column g in columns_edges nodes child columns g
  end.

Fixpoint specs_edges nodes (specs : list ModelSpec) (g : Graph) : res perr Graph :=
  match specs with
  | [] => Ok g
  | spec :: specs =>
    let! g := columns_edges nodes (model_type spec) (sp_columns spec) g in
    specs_edges nodes specs g
  end.

Definition build_graph (specs : list ModelSpec) : res perr Graph :=
  match specs with
  | [] => Err ValueError
  | _ =>
    let nodes := foldl (fun d spec => dset d (model_type spec) (node_of_spec spec)) [] specs in
    specs_edges nodes specs (mkGraph nodes [] [])
  end.

(** *** [order_children_first] and [_cycles] *)

(** [s.add(x)]. *)
Definition sadd (s : list model) (x : model) : list model :=
  if decide (x ∈ s) then s else s ++ [x].

(** [sorted(l, key=lambda m: graph.nodes[m].qualified)]. *)
Definition node_key (g : Graph) (m : model) : pystr :=
  match dget (nodes g) m with Some n => qualified n | None => [] end.

Definition sorted_nodes (g : Graph) (l : list model) : res perr (list model) :=
  if forallb (dmem (nodes g)) l then Ok (sorted_by (node_key g) l) else Err KeyError.

Section ordering.
Context (set_iter : list model -> list model).

(** [after[parent].add(child)] for the edges of one child. *)
Fixpoint after_edges (members : list model) (child : model) (edges : list (Edge * model))
    (after : list (model * list model)) : list (model * list model) :=
  match edges with
  | [] => after
  | (_, parent) :: edges =>
    after_edges members child edges
      (if decide (parent ∈ members /\ parent <> child)
       then dset after parent (sadd (default [] (dget after parent)) child)
       else after)
  end.

Fixpoint after_loop (g : Graph) (members children : list model)
    (after : list (model * list model)) : list (model * list model) :=
  match children with
  | [] => after
  | child :: children =>
    after_loop g members children (after_edges members child (outbound_of g child) after)
  end.

Definition after_of (g : Graph) (members : list model) : list (model * list model) :=
  after_loop g members (set_iter members) (map (fun m => (m, [])) (set_iter members)).

(** [parents_by_child[child].add(parent)] for the children of one parent. *)
Fixpoint parents_children (parent : model) (children : list model)
    (pbc : list (model * list model)) : list (model * list model) :=
  match children with
  | [] => pbc
  | child :: children =>
    parents_children parent children
      (dset pbc child (sadd (default [] (dget pbc child)) parent))
  end.

Fixpoint parents_loop (after pbc : list (model * list model)) : list (model * list model) :=
  match after with
  | [] => pbc
  | (parent, children) :: after =>
    parents_loop after (parents_children parent (set_iter children) pbc)
  end.

(** [for parent in parents_by_child[model]]: decrement and collect. *)
Fixpoint settle_parents (parents : list model) (waiting : list (model * Z))
    (following : list model) : res perr (list (model * Z) * list model) :=
  match parents with
  | [] => Ok (waiting, following)
  | parent :: parents =>
    match dget waiting parent with
    | None => Err KeyError
    | Some n =>
      settle_parents parents (dset waiting parent (n - 1))
        (if n - 1 =? 0 then following ++ [parent] else following)
    end
  end.

Fixpoint settle_layer (pbc : list (model * list model)) (ready : list model)
    (waiting : list (model * Z)) (following ordered : list model)
    : res perr (list (model * Z) * list model * list model) :=
  match ready with
  | [] => Ok (waiting, following, ordered)
  | m :: ready =>
    match dget pbc m with
    | None => Err KeyError
    | Some parents =>
      let! (waiting, following) := settle_parents (set_iter parents) waiting following in
      settle_layer pbc ready waiting following (ordered ++ [m])
    end
  end.

(** [while ready]: every turn places at least one member. *)
Fixpoint kahn_loop (g : Graph) (fuel : nat) (pbc : list (model * list model))
    (ready : list model) (waiting : list (model * Z)) (ordered : list model)
    : res perr (list (model * Z) * list model) :=
  match ready with
  | [] => Ok (waiting, ordered)
  | _ =>
    match fuel with
    | O => Err OutOfFuel
    | S fuel =>
      let! (waiting, following, ordered) := settle_layer pbc ready waiting [] ordered in
      let! ready := sorted_nodes g following in
      kahn_loop g fuel pbc ready waiting ordered
    end
  end.

(** The [while stack] walk of [_cycles]; the stack is read from its end. *)
Definition neighbours (g : Graph) (members : list model) (m : model) : list model :=
  base.filter (fun c => c ∈ members) (map snd (inbound_of g m)) ++
  base.filter (fun c => c ∈ members) (map snd (outbound_of g m)).

Fixpoint component_loop (g : Graph) (members : list model) (fuel : nat)
    (stack component : list model) : res perr (list model) :=
  match stack with
  | [] => Ok component
  | m :: stack =>
    match fuel with
    | O => Err OutOfFuel
    | S fuel =>
      if decide (m ∈ component) then component_loop g members fuel stack component
      else component_loop g members fuel (rev (neighbours g members m) ++ stack)
             (component ++ [m])
    end
  end.

(** Each model is expanded once, and pushes its neighbours. *)
Definition component_fuel (g : Graph) (members : list model) : nat :=
  S (length (concat (map (neighbours g members) members))).

Fixpoint cycles_loop (g : Graph) (members starts seen : list model)
    (components : list (list model)) : res perr (list (list model)) :=
  match starts with
  | [] => Ok components
  | start :: starts =>
    if decide (start ∈ seen) then cycles_loop g members starts seen components
    else
      let! component := component_loop g members (component_fuel g members) [start] [] in
      let! sorted := sorted_nodes g component in
      cycles_loop g members starts (seen ++ component) (components ++ [sorted])
  end.

Definition _cycles (g : Graph) (members : list model) : res perr (list (list model)) :=
  let! starts := sorted_nodes g (set_iter members) in
  cycles_loop g members starts [] [].

Definition order_children_first (g : Graph) (members : list model)
    : res perr (list model * list (list model)) :=
  let after := after_of g members in
  let pbc := parents_loop after (map (fun m => (m, [])) (set_iter members)) in
  let waiting := map (fun '(m, children) => (m, zlen children)) after in
  let! ready := sorted_nodes g
    (base.filter (fun m => dget waiting m = Some 0) (set_iter members)) in
  let! (waiting, ordered) := kahn_loop g (length members) pbc ready waiting [] in
  let residue := map fst (base.filter (fun p => snd p <> 0) waiting) in
  let! cycles := _cycles g residue in
  Ok (ordered, cycles).
End ordering.

(** ** The catalog check *)

Definition catalog_row : Type := pystr * pystr * pystr * pystr.

(** [catalog_edge_rows]: the set of qualified rows. *)
Definition catalog_edge_rows (rows : list catalog_row) (schema : pystr) : list catalog_row :=
  foldl (fun found '(child, child_column, parent, parent_column) =>
    let row := (schema ++ bs "." ++ child, child_column, schema ++ bs "." ++ parent,
                parent_column) in
    if decide (row ∈ found) then found else found ++ [row]) [] rows.

Definition edge_row (e : Edge) : catalog_row :=
  (from_table e, from_column e, to_table e, to_column e).

Definition row_key (r : catalog_row) : list pystr :=
  let '(a, b, c, d) := r in [a; b; c; d].

Definition declared_rows (g : Graph) : list catalog_row :=
  concat (map (fun '(_, edges) => map (edge_row ∘ fst) edges) (outbound g)).

Definition missing_edges (g : Graph) (catalog : list catalog_row) : list catalog_row :=
  sorted_by row_key (base.filter (fun r => r ∉ declared_rows g) catalog).
