(* ===== verification/PrivacyOrderFacts.v ===== *)
(** * Reachability: [Graph.reachable_from] is a shortest-path search

    A walk follows inbound foreign keys from the subject.  The search finds
    exactly the models a walk ends at, each with a shortest walk, and the loop
    bound is never reached.  The invariant reads the queue as a suffix of the
    dictionary: [found] is the processed pairs [D] followed by the queued
    pairs [Q]. *)

From Stdlib Require Import Sorted.
From stdpp Require Import relations base list sets strings numbers.
From Stdlib Require Import ZArith Lia.
From S2P Require Import Prelude PyCollections PrivacyGraph.

Section reach.
Context (g : Graph) (root : model).

(** The foreign keys walked, from the subject outwards, and where they end. *)
Inductive walk : list Edge -> model -> Prop :=
| walk_root : walk [] root
| walk_snoc p m e c : walk p m -> (e, c) ∈ inbound_of g m -> walk (p ++ [e]) c.

Lemma walk_inv p c :
  walk p c -> (p = [] /\ c = root) \/
  exists p' m e, p = p' ++ [e] /\ walk p' m /\ (e, c) ∈ inbound_of g m.
Proof. destruct 1; [by left|right; eauto 10]. Qed.

Definition plen (x : model * Reach) : nat := length (path (snd x)).

(** ** The inner loop *)

(** New entries [N] for a parent with path [pp], over [edges]. *)
Record discovers (edges : list (Edge * model)) (pp : list Edge)
    (found N : list (model * Reach)) : Prop := {
  disc_nodup : NoDup (dkeys found) -> NoDup (dkeys (found ++ N));
  disc_new c r : (c, r) ∈ N ->
    c ∉ dkeys found /\ exists e, (e, c) ∈ edges /\ r = mkReach (pp ++ [e]);
  disc_all e c : (e, c) ∈ edges -> c ∈ dkeys (found ++ N);
}.

Lemma dkeys_app {V} (l k : list (model * V)) : dkeys (l ++ k) = dkeys l ++ dkeys k.
Proof. apply map_app. Qed.

Lemma reach_children_discovers edges pp found queue :
  exists N, reach_children edges pp found queue = (found ++ N, queue ++ dkeys N) /\
    discovers edges pp found N.
Proof.
  revert found queue. induction edges as [|[e c] edges IH]; intros found queue; simpl.
  { exists []. rewrite !app_nil_r. split; [done|].
    split; rewrite ?app_nil_r; [done|set_solver|set_solver]. }
  destruct (dmem found c) eqn:Em.
  - destruct (IH found queue) as (N & -> & [H1 H2 H3]). exists N. split; [done|].
    apply dmem_spec in Em. split; [done| |].
    + intros c' r Hin. destruct (H2 _ _ Hin) as (Hc & e' & He & ->).
      split; [done|]. exists e'. set_solver.
    + intros e' c'. rewrite elem_of_cons. intros [[= -> ->]|Hin]; [|eauto].
      rewrite dkeys_app. set_solver.
  - assert (Hc : c ∉ dkeys found) by (intros H; apply dmem_spec in H; congruence).
    rewrite dset_fresh by done.
    destruct (IH (found ++ [(c, mkReach (pp ++ [e]))]) (queue ++ [c]))
      as (N & -> & [H1 H2 H3]).
    exists ((c, mkReach (pp ++ [e])) :: N). rewrite <- !app_assoc in *. split; [done|]. split.
    + intros Hd. apply H1. rewrite dkeys_app.
      apply list.NoDup_app. simpl. split; [done|].
      split; [set_solver|apply list.NoDup_singleton].
    + intros c' r. rewrite elem_of_cons. intros [[= -> ->]|Hin].
      * split; [done|]. exists e. set_solver.
      * destruct (H2 _ _ Hin) as (Hc' & e' & He & ->). rewrite dkeys_app in Hc'.
        split; [set_solver|]. exists e'. set_solver.
    + intros e' c'. rewrite elem_of_cons. intros [[= -> ->]|Hin].
      * rewrite dkeys_app. simpl. set_solver.
      * apply (H3 e' c' Hin).
Qed.

(** ** The loop invariant *)

Record bfs_inv (D Q : list (model * Reach)) : Prop := {
  b_nodup : NoDup (dkeys (D ++ Q));
  b_walk m r : (m, r) ∈ D ++ Q -> walk (path r) m;
  b_short m r p : (m, r) ∈ D ++ Q -> walk p m -> (length (path r) <= length p)%nat;
  b_sorted : StronglySorted (fun x y => (plen x <= plen y)%nat) Q;
  b_spread x y : head Q = Some x -> y ∈ Q -> (plen y <= S (plen x))%nat;
  b_closed m r e c : (m, r) ∈ D -> (e, c) ∈ inbound_of g m -> c ∈ dkeys (D ++ Q);
  b_level x p m : head Q = Some x -> walk p m ->
    ((length p < plen x)%nat -> m ∈ dkeys D) /\
    ((length p <= plen x)%nat -> m ∈ dkeys (D ++ Q));
  b_root : root ∈ dkeys (D ++ Q);
}.

Lemma bfs_initial : bfs_inv [] [(root, mkReach [])].
Proof.
  assert (Hin : forall m r, (m, r) ∈ [] ++ [(root, mkReach [])] -> m = root /\ r = mkReach []).
  { intros m r. simpl. rewrite list_elem_of_singleton. by intros [= -> ->]. }
  split.
  - apply list.NoDup_singleton.
  - intros m r H. destruct (Hin _ _ H) as [-> ->]. constructor.
  - intros m r p H _. destruct (Hin _ _ H) as [-> ->]. simpl. lia.
  - repeat constructor.
  - intros x y [= <-]. rewrite list_elem_of_singleton. intros ->. lia.
  - set_solver.
  - intros x p m [= <-] Hw. unfold plen. simpl. split; [lia|]. intros Hp.
    apply walk_inv in Hw as [[-> ->]|(p' & ? & e & -> & _)]; [set_solver|].
    rewrite length_app in Hp. simpl in Hp. lia.
  - set_solver.
Qed.

Lemma dkeys_elem {V} (l : list (model * V)) m : m ∈ dkeys l <-> exists r, (m, r) ∈ l.
Proof.
  unfold dkeys. rewrite list_elem_of_fmap. split.
  - intros ([m' r] & -> & H). eauto.
  - intros [r H]. exists (m, r). eauto.
Qed.

Section step.
Context (D Q N : list (model * Reach)) (m : model) (r : Reach).
Context (Hinv : bfs_inv D ((m, r) :: Q))
        (HN : discovers (inbound_of g m) (path r) (D ++ (m, r) :: Q) N).

Let F : list (model * Reach) := D ++ (m, r) :: Q.

Lemma step_app : (D ++ [(m, r)]) ++ Q ++ N = F ++ N.
Proof. unfold F. by rewrite <- !app_assoc. Qed.

Lemma step_plen y : y ∈ N -> plen y = S (length (path r)).
Proof.
  destruct y as [c r']. intros Hy. destruct (disc_new _ _ _ _ HN _ _ Hy) as (_ & e & _ & ->).
  unfold plen. simpl. rewrite length_app. simpl. lia.
Qed.

(** Walks no longer than the head's path end at models already found. *)
Lemma step_found p c : walk p c -> (length p <= length (path r))%nat -> c ∈ dkeys F.
Proof. intros Hw Hp. by apply (b_level _ _ Hinv (m, r) p c). Qed.

Lemma step_short c r' p : (c, r') ∈ F ++ N -> walk p c -> (length (path r') <= length p)%nat.
Proof.
  intros Hin Hw. apply elem_of_app in Hin as [Hin|Hin]; [by apply (b_short _ _ Hinv c r' p)|].
  pose proof (step_plen _ Hin) as E. unfold plen in E. simpl in E. rewrite E.
  destruct (disc_new _ _ _ _ HN _ _ Hin) as [Hnew _].
  destruct (decide (length p <= length (path r))%nat) as [Hp|Hp]; [|lia].
  exfalso. apply Hnew. by apply (step_found p c).
Qed.

Lemma step_closed c r' e c' :
  (c, r') ∈ D ++ [(m, r)] -> (e, c') ∈ inbound_of g c -> c' ∈ dkeys (F ++ N).
Proof.
  rewrite elem_of_app, list_elem_of_singleton. intros [Hin|[= -> ->]] He.
  - rewrite dkeys_app. apply elem_of_app. left. by apply (b_closed _ _ Hinv c r' e c').
  - by apply (disc_all _ _ _ _ HN e c').
Qed.

Lemma step_sorted : StronglySorted (fun x y => (plen x <= plen y)%nat) (Q ++ N).
Proof.
  pose proof (b_sorted _ _ Hinv) as Hs. inversion Hs as [|? ? HsQ HQ]; subst.
  assert (HsN : StronglySorted (fun x y => (plen x <= plen y)%nat) N /\
                Forall (fun y => plen y = S (length (path r))) N).
  { assert (Hall : Forall (fun y => plen y = S (length (path r))) N)
      by (apply list.Forall_forall; apply step_plen).
    split; [|done]. clear HN. induction Hall as [|y l Hy Hl IH]; [constructor|].
    constructor; [exact IH|].
    eapply Forall_impl; [|exact Hl]. simpl. intros z Hz. lia. }
  destruct HsN as [HsN HeN].
  assert (Hup : Forall (fun y => (plen y <= S (length (path r)))%nat) Q).
  { apply list.Forall_forall. intros y Hy.
    apply (b_spread _ _ Hinv (m, r) y); [done|set_solver]. }
  clear Hs HQ HN Hinv F. induction HsQ as [|x l Hl IH Hx]; simpl; [done|].
  apply Forall_cons_iff in Hup as [Hux Hul]. constructor; [by apply IH|].
  apply Forall_app. split; [done|].
  eapply Forall_impl; [|exact HeN]. simpl. intros z Hz. lia.
Qed.

Lemma step_le x : x ∈ Q ++ N -> (length (path r) <= plen x <= S (length (path r)))%nat.
Proof.
  rewrite elem_of_app. intros [Hx|Hx]; [|rewrite (step_plen x) by done; lia].
  split; [|apply (b_spread _ _ Hinv (m, r) x); [done|set_solver]].
  pose proof (b_sorted _ _ Hinv) as Hs. inversion Hs as [|? ? HsQ HQ]; subst.
  rewrite list.Forall_forall in HQ. by apply (HQ x).
Qed.

(** A model with a walk shorter than the new head's path was processed. *)
Lemma step_level_lt x p c :
  head (Q ++ N) = Some x -> walk p c -> (length p < plen x)%nat ->
  c ∈ dkeys (D ++ [(m, r)]).
Proof.
  intros Hx Hw Hp. assert (Hxin : x ∈ Q ++ N) by (destruct (Q ++ N); [done|set_solver]).
  pose proof (step_le x Hxin) as Hle.
  assert (Hc : c ∈ dkeys F) by (apply (step_found p c); [done|lia]).
  apply dkeys_elem in Hc as [rc Hc]. unfold F in Hc. apply elem_of_app in Hc as [Hc|Hc].
  { apply dkeys_elem. exists rc. set_solver. }
  apply elem_of_cons in Hc as [[= -> ->]|Hc]; [apply dkeys_elem; exists r; set_solver|].
  pose proof (b_short _ _ Hinv c rc p ltac:(set_solver) Hw) as Hs.
  assert (Hxc : (plen x <= plen (c, rc))%nat); [|unfold plen in *; simpl in *; lia].
  pose proof step_sorted as HsQN. destruct (Q ++ N) as [|x' l] eqn:E; [done|].
  injection Hx as ->. inversion HsQN as [|? ? _ Hall]; subst.
  assert (Hin : (c, rc) ∈ x :: l) by (rewrite <- E; set_solver).
  apply elem_of_cons in Hin as [<-|Hin]; [lia|].
  rewrite list.Forall_forall in Hall. by apply (Hall (c, rc)).
Qed.

Lemma bfs_step : bfs_inv (D ++ [(m, r)]) (Q ++ N).
Proof.
  split; rewrite ?step_app.
  - apply (disc_nodup _ _ _ _ HN), (b_nodup _ _ Hinv).
  - intros c r' Hin. apply elem_of_app in Hin as [Hin|Hin]; [by apply (b_walk _ _ Hinv)|].
    destruct (disc_new _ _ _ _ HN _ _ Hin) as (_ & e & He & ->). simpl.
    apply (walk_snoc _ m); [|done]. apply (b_walk _ _ Hinv). set_solver.
  - apply step_short.
  - apply step_sorted.
  - intros x y Hx Hy. pose proof (step_le y Hy).
    assert (Hxin : x ∈ Q ++ N) by (destruct (Q ++ N); [done|set_solver]).
    pose proof (step_le x Hxin). lia.
  - apply step_closed.
  - intros x p c Hx Hw. split; [by apply (step_level_lt x p c)|]. intros Hp.
    apply walk_inv in Hw as [[-> ->]|(p' & m' & e & -> & Hw & He)].
    + rewrite dkeys_app. apply elem_of_app. left. apply (b_root _ _ Hinv).
    + rewrite length_app in Hp. simpl in Hp.
      assert (Hm : m' ∈ dkeys (D ++ [(m, r)])) by (apply (step_level_lt x p'); [done..|lia]).
      apply dkeys_elem in Hm as [rm Hm]. by apply (step_closed m' rm e c).
  - rewrite dkeys_app. apply elem_of_app. left. apply (b_root _ _ Hinv).
Qed.
End step.

(** ** The result *)

(** The dictionary holds exactly the ends of walks, with shortest walks. *)
Record shortest_paths (found : list (model * Reach)) : Prop := {
  sp_nodup : NoDup (dkeys found);
  sp_walk m r : dget found m = Some r -> walk (path r) m;
  sp_short m r p : dget found m = Some r -> walk p m -> (length (path r) <= length p)%nat;
  sp_complete m p : walk p m -> is_Some (dget found m);
}.

Lemma bfs_done D : bfs_inv D [] -> shortest_paths D.
Proof.
  intros Hinv. pose proof (app_nil_r D) as E. split.
  - rewrite <- E. apply (b_nodup _ _ Hinv).
  - intros m r H. apply (b_walk _ _ Hinv). rewrite E. by apply dget_elem.
  - intros m r p H. apply (b_short _ _ Hinv). rewrite E. by apply dget_elem.
  - intros m p Hw. apply dget_keys. induction Hw as [|p m e c Hw IH He].
    + rewrite <- E. apply (b_root _ _ Hinv).
    + apply dkeys_elem in IH as [rm Hm]. rewrite <- E. by apply (b_closed _ _ Hinv m rm e c).
Qed.

Lemma inbound_children m e c : (e, c) ∈ inbound_of g m -> c ∈ all_children g.
Proof.
  unfold inbound_of, all_children. destruct (dget (inbound g) m) as [l|] eqn:E; [|set_solver].
  intros H. apply dget_elem in E. apply list_elem_of_In, in_concat.
  exists (map snd l). split; apply list_elem_of_In.
  - apply list_elem_of_fmap. exists (m, l). split; [done|exact E].
  - apply list_elem_of_fmap. exists (e, c). by split.
Qed.

Lemma walk_ends p m : walk p m -> m ∈ root :: all_children g.
Proof. destruct 1; [set_solver|]. apply elem_of_cons. right. by eapply inbound_children. Qed.

Lemma bfs_bound D Q : bfs_inv D Q -> (length D + length Q <= S (length (all_children g)))%nat.
Proof.
  intros Hinv. rewrite <- length_app. replace (length (D ++ Q)) with (length (dkeys (D ++ Q)))
    by apply length_map.
  change (S (length (all_children g))) with (length (root :: all_children g)).
  apply submseteq_length, NoDup_submseteq; [apply (b_nodup _ _ Hinv)|].
  intros m Hm. apply dkeys_elem in Hm as [r Hm]. eapply walk_ends, (b_walk _ _ Hinv _ _ Hm).
Qed.

Lemma reach_loop_ok fuel D Q :
  bfs_inv D Q -> (S (length (all_children g)) <= fuel + length D)%nat ->
  exists found, reach_loop g fuel (D ++ Q) (dkeys Q) = Ok found /\ shortest_paths found.
Proof.
  revert D Q. induction fuel as [|fuel IH]; intros D [|[m r] Q] Hinv Hfuel.
  1, 3: exists D; rewrite app_nil_r; split; [done|by apply bfs_done].
  { apply bfs_bound in Hinv. simpl in *. lia. }
  cbn [dkeys map fst reach_loop].
  rewrite (dget_nodup (D ++ (m, r) :: Q) m r); [|apply (b_nodup _ _ Hinv)|set_solver].
  destruct (reach_children_discovers (inbound_of g m) (path r) (D ++ (m, r) :: Q) (dkeys Q))
    as (N & E & HN).
  change (map fst Q) with (dkeys Q). rewrite E, <- (step_app D Q N m r), <- dkeys_app.
  apply IH; [by apply bfs_step|]. rewrite length_app. simpl. lia.
Qed.

Lemma reachable_from_ok :
  exists found, reachable_from g root = Ok found /\ shortest_paths found.
Proof. apply (reach_loop_ok _ [] _ bfs_initial). simpl. lia. Qed.
End reach.

(** [reachable_from] returns, for every graph and every root (its
    loop never runs out of fuel and never misses a key): the dictionary has
    one entry per model that some chain of inbound foreign keys leads to, no
    entry for any other model, and each recorded path is such a chain, no
    longer than any other chain to the same model. *)
Theorem reachable_from_shortest g root :
  exists found, reachable_from g root = Ok found /\ NoDup (dkeys found) /\
    forall m,
      match dget found m with
      | Some r => walk g root (path r) m /\
                  forall p, walk g root p m -> (length (path r) <= length p)%nat
      | None => forall p, ~ walk g root p m
      end.
Proof.
  destruct (reachable_from_ok g root) as (found & E & [H1 H2 H3 H4]). exists found.
  split; [done|]. split; [done|]. intros m. destruct (dget found m) as [r|] eqn:Em.
  - split; [by apply H2|]. intros p. by apply H3.
  - intros p Hw. destruct (H4 _ _ Hw). congruence.
Qed.

(** ** Deletion order: [order_children_first] and its cycle report

    The two index dictionaries are dictionaries of sets; [sets_ok] says which
    relation one represents.  The loop invariant of the topological walk ties
    the [waiting] counters to the children not yet placed, from which follow
    the children-first order, the exact residue, and the agreement with the
    layer-by-layer reference that rescans every remaining dependency set. *)

(** *** Dictionaries of sets *)

Section sets.
Implicit Types (d : list (model * list model)) (R : model -> model -> Prop).

Record sets_ok (keys : list model) d R : Prop := {
  so_keys : dkeys d = keys;
  so_sets p : p ∈ keys -> exists s, dget d p = Some s /\ NoDup s /\ forall c, c ∈ s <-> R p c;
}.

Lemma sets_ext keys d R R' :
  sets_ok keys d R -> (forall p c, p ∈ keys -> R p c <-> R' p c) -> sets_ok keys d R'.
Proof.
  intros [Hk Hs] HR. split; [done|]. intros p Hp. destruct (Hs p Hp) as (s & E & Hn & Hc).
  exists s. split; [done|]. split; [done|]. intros c. by rewrite Hc, HR.
Qed.

Lemma sets_empty keys : sets_ok keys (map (fun m => (m, [])) keys) (fun _ _ => False).
Proof.
  split.
  - unfold dkeys. rewrite map_map. apply map_id.
  - intros p Hp. exists []. split; [|split; [constructor|set_solver]].
    induction keys as [|k keys IH]; simpl; [set_solver|].
    case_decide; [done|]. apply IH. set_solver.
Qed.

Lemma sadd_elem s x y : y ∈ sadd s x <-> y ∈ s \/ y = x.
Proof. unfold sadd. case_decide; set_solver. Qed.

Lemma sadd_nodup s x : NoDup s -> NoDup (sadd s x).
Proof.
  intros Hs. unfold sadd. case_decide; [done|]. apply list.NoDup_app.
  split; [done|]. split; [set_solver|apply list.NoDup_singleton].
Qed.

Lemma sets_add keys d R p c :
  sets_ok keys d R -> p ∈ keys ->
  sets_ok keys (dset d p (sadd (default [] (dget d p)) c))
    (fun p' c' => R p' c' \/ (p' = p /\ c' = c)).
Proof.
  intros [Hk Hs] Hp. split.
  - rewrite dset_keys, decide_True; [done|]. by rewrite Hk.
  - intros q Hq. rewrite dget_dset. destruct (Hs q Hq) as (s & E & Hn & Hc).
    case_decide as Epq; [subst q|].
    + rewrite E. simpl. exists (sadd s c). split; [done|]. split; [by apply sadd_nodup|].
      intros c'. rewrite sadd_elem, Hc. naive_solver.
    + exists s. split; [done|]. split; [done|]. intros c'. rewrite Hc. naive_solver.
Qed.
End sets.

Section order.
Context (set_iter : list model -> list model) (Hiter : forall s, set_iter s ≡ₚ s).
Context (g : Graph) (members : list model).
Context (Hmem : NoDup members) (Hnodes : forall m, m ∈ members -> m ∈ dkeys (nodes g)).

(** [child] is a member with a foreign key to another member [parent]. *)
Definition depends (parent child : model) : Prop :=
  child ∈ members /\ parent ∈ members /\ parent <> child /\
  parent ∈ map snd (outbound_of g child).

#[local] Instance depends_dec p c : Decision (depends p c).
Proof. unfold depends. apply _. Defined.

Definition kids (p : model) : list model := base.filter (depends p) members.

Lemma kids_elem p c : c ∈ kids p <-> depends p c.
Proof. unfold kids. rewrite list_elem_of_filter. unfold depends. naive_solver. Qed.

Lemma kids_nodup p : NoDup (kids p).
Proof. by apply list.NoDup_filter. Qed.

(** *** The index dictionaries *)

Lemma after_edges_ok keys d R child edges :
  sets_ok keys d R -> (forall m, m ∈ members -> m ∈ keys) ->
  sets_ok keys (after_edges members child edges d)
    (fun p c => R p c \/ (c = child /\ p ∈ members /\ p <> child /\ p ∈ map snd edges)).
Proof.
  intros Hd Hsub. revert d R Hd. induction edges as [|[e parent] edges IH]; intros d R Hd; simpl.
  { eapply sets_ext; [exact Hd|]. set_solver. }
  case_decide as Hp.
  - eapply sets_ext; [apply IH, (sets_add _ _ _ _ child Hd), Hsub, Hp|].
    intros p c _. cbn beta. rewrite elem_of_cons. naive_solver.
  - eapply sets_ext; [apply IH, Hd|]. intros p c _. cbn beta. rewrite elem_of_cons. naive_solver.
Qed.

Lemma after_loop_ok keys d R children :
  sets_ok keys d R -> (forall m, m ∈ members -> m ∈ keys) ->
  sets_ok keys (after_loop g members children d)
    (fun p c => R p c \/ (c ∈ children /\ p ∈ members /\ p <> c /\
                          p ∈ map snd (outbound_of g c))).
Proof.
  intros Hd Hsub. revert d R Hd. induction children as [|c children IH]; intros d R Hd; simpl.
  { eapply sets_ext; [exact Hd|]. set_solver. }
  eapply sets_ext; [apply IH, (after_edges_ok _ _ _ _ _ Hd Hsub)|].
  intros p c' _. cbn beta. rewrite elem_of_cons. naive_solver.
Qed.

Lemma after_of_ok : sets_ok (set_iter members) (after_of set_iter g members) depends.
Proof.
  eapply sets_ext; [apply after_loop_ok; [apply sets_empty|]|].
  - intros m. by rewrite Hiter.
  - intros p c _. cbn beta. unfold depends. rewrite Hiter. naive_solver.
Qed.

Lemma parents_children_ok keys d R parent children :
  sets_ok keys d R -> (forall c, c ∈ children -> c ∈ keys) ->
  sets_ok keys (parents_children parent children d)
    (fun c p => R c p \/ (p = parent /\ c ∈ children)).
Proof.
  revert d R. induction children as [|c children IH]; intros d R Hd Hsub; simpl.
  { eapply sets_ext; [exact Hd|]. set_solver. }
  eapply sets_ext; [apply IH; [apply (sets_add _ _ _ _ parent Hd)|]; set_solver|].
  intros c' p _. cbn beta. rewrite elem_of_cons. naive_solver.
Qed.

Lemma parents_loop_ok keys d R after :
  sets_ok keys d R -> (forall p s c, (p, s) ∈ after -> c ∈ s -> c ∈ keys) ->
  sets_ok keys (parents_loop set_iter after d)
    (fun c p => R c p \/ exists s, (p, s) ∈ after /\ c ∈ s).
Proof.
  revert d R. induction after as [|[p s] after IH]; intros d R Hd Hsub; simpl.
  { eapply sets_ext; [exact Hd|]. set_solver. }
  eapply sets_ext; [apply IH; [apply parents_children_ok; [exact Hd|]|]|].
  - intros c. rewrite Hiter. apply (Hsub p s). set_solver.
  - intros p' s' c Hin. apply (Hsub p' s'). set_solver.
  - intros c q _. cbn beta. rewrite Hiter. split.
    + intros [[?|[-> ?]]|(s' & ? & ?)]; [by left|right; exists s; set_solver|].
      right. exists s'. set_solver.
    + intros [?|(s' & Hin & ?)]; [by do 2 left|].
      apply elem_of_cons in Hin as [[= -> ->]|?]; [left; by right|right; eauto].
Qed.

Definition pbc_of : list (model * list model) :=
  parents_loop set_iter (after_of set_iter g members) (map (fun m => (m, [])) (set_iter members)).

Lemma pbc_ok : sets_ok (set_iter members) pbc_of (fun c p => depends p c).
Proof.
  destruct after_of_ok as [Hk Hs].
  assert (Hn : NoDup (dkeys (after_of set_iter g members))) by (rewrite Hk, Hiter; done).
  assert (Hget : forall p s, (p, s) ∈ after_of set_iter g members ->
            p ∈ members /\ forall c, c ∈ s <-> depends p c).
  { intros p s Hin. assert (Hp : p ∈ set_iter members).
    { rewrite <- Hk. apply list_elem_of_fmap. by exists (p, s). }
    destruct (Hs p Hp) as (s' & E & _ & Hc). apply (dget_nodup _ _ _ Hn) in Hin.
    rewrite Hin in E. injection E as <-. by rewrite Hiter in Hp. }
  eapply sets_ext; [apply parents_loop_ok; [apply sets_empty|]|].
  - intros p s c Hin Hc. rewrite Hiter. by apply (Hget p s Hin) in Hc as [? _].
  - intros c p _. cbn beta. split.
    + intros [[]|(s & Hin & Hc)]. by apply (Hget p s Hin).
    + intros Hd. right. destruct (Hs p) as (s & E & _ & Hc); [rewrite Hiter; apply Hd|].
      exists s. split; [by apply dget_elem|by apply Hc].
Qed.

(** *** The counters *)

(** The children of [p] outside [O]. *)
Definition cnt (O : list model) (p : model) : nat :=
  length (base.filter (fun c => c ∉ O) (kids p)).

Definition waiting_ok (O : list model) (w : list (model * Z)) : Prop :=
  dkeys w = set_iter members /\ forall p, p ∈ members -> dget w p = Some (Z.of_nat (cnt O p)).

Lemma cnt_zero O p : cnt O p = 0%nat <-> forall c, c ∈ kids p -> c ∈ O.
Proof.
  unfold cnt. rewrite length_zero_iff_nil. split.
  - intros E c Hc. destruct (decide (c ∈ O)) as [|Hn]; [done|].
    assert (H : c ∈ base.filter (fun c => c ∉ O) (kids p)) by (by apply list_elem_of_filter).
    rewrite E in H. set_solver.
  - intros H. destruct (base.filter _ _) as [|c l] eqn:E; [done|].
    assert (Hc : c ∈ base.filter (fun c => c ∉ O) (kids p)) by (rewrite E; set_solver).
    apply list_elem_of_filter in Hc as [Hn Hc]. by apply H in Hc.
Qed.

Lemma cnt_other O m p : m ∉ kids p -> cnt (O ++ [m]) p = cnt O p.
Proof.
  intros Hm. unfold cnt. f_equal. apply filter_ext_elem. intros c Hc. set_solver.
Qed.

Lemma cnt_place O m p : m ∈ kids p -> m ∉ O -> cnt O p = S (cnt (O ++ [m]) p).
Proof.
  unfold cnt. pose proof (kids_nodup p) as Hn. revert Hn.
  induction (kids p) as [|c l IH]; [set_solver|]. intros Hn Hm HO.
  apply list.NoDup_cons in Hn as [Hc Hn]. rewrite !filter_cons.
  apply elem_of_cons in Hm as [->|Hm].
  - rewrite decide_True by done. rewrite decide_False by set_solver. simpl. do 2 f_equal.
    apply filter_ext_elem. intros c' Hc'. set_solver.
  - specialize (IH Hn Hm HO). assert (c <> m) by set_solver.
    destruct (decide (c ∉ O)); [rewrite decide_True by set_solver|rewrite decide_False by set_solver];
      simpl; lia.
Qed.

Lemma cnt_mono O O' p : (forall c, c ∈ O -> c ∈ O') -> cnt O p = 0%nat -> cnt O' p = 0%nat.
Proof. intros Hsub. rewrite !cnt_zero. eauto. Qed.

Definition waiting_of : list (model * Z) :=
  map (fun '(m, children) => (m, zlen children)) (after_of set_iter g members).

Lemma dget_map {V W} (f : V -> W) (d : list (model * V)) k :
  dget (map (fun '(m, v) => (m, f v)) d) k = f <$> dget d k.
Proof. induction d as [|[k' v] d IH]; simpl; [done|]. by case_decide. Qed.

Lemma waiting_initial : waiting_ok [] waiting_of.
Proof.
  destruct after_of_ok as [Hk Hs]. split.
  - rewrite <- Hk. unfold waiting_of, dkeys. rewrite map_map. apply map_ext. by intros [].
  - intros p Hp. unfold waiting_of. rewrite (dget_map (@zlen model)).
    destruct (Hs p) as (s & -> & Hn & Hc); [by rewrite Hiter|]. simpl. unfold zlen. do 2 f_equal.
    apply Permutation_length. unfold cnt.
    apply NoDup_Permutation; [done|apply list.NoDup_filter, kids_nodup|]. intros c.
    rewrite Hc, list_elem_of_filter, kids_elem. set_solver.
Qed.

(** *** One layer *)

Lemma settle_parents_ok ps (w : list (model * Z)) (f : model -> Z) F :
  NoDup ps -> (forall p, p ∈ ps -> p ∈ members) ->
  (forall p, p ∈ members -> dget w p = Some (f p)) ->
  (forall p, p ∈ members -> p ∈ dkeys w) ->
  exists w', settle_parents ps w F = Ok (w', F ++ base.filter (fun p => f p = 1%Z) ps) /\
    dkeys w' = dkeys w /\
    forall p, p ∈ members -> dget w' p = Some (if decide (p ∈ ps) then f p - 1 else f p)%Z.
Proof.
  revert w f F. induction ps as [|q ps IH]; intros w f F Hn Hsub Hw Hk; simpl.
  { exists w. rewrite app_nil_r. split; [done|]. split; [done|]. intros p Hp. by apply Hw. }
  apply list.NoDup_cons in Hn as [Hq Hn]. rewrite (Hw q) by set_solver.
  assert (Hkeys : dkeys (dset w q (f q - 1)%Z) = dkeys w)
    by (rewrite dset_keys, decide_True; [done|]; apply Hk, Hsub; set_solver).
  destruct (IH (dset w q (f q - 1)%Z) (fun p => if decide (p = q) then f q - 1 else f p)%Z
    (if (f q - 1 =? 0)%Z then F ++ [q] else F)) as (w' & E & Hk' & Hw'); [done|set_solver| | |].
  { intros p Hp. rewrite dget_dset, Hw by done. repeat case_decide; congruence. }
  { intros p Hp. rewrite Hkeys. by apply Hk. }
  exists w'. split; [|split; [congruence|]].
  - rewrite E. do 2 f_equal. rewrite filter_cons.
    rewrite (filter_ext_elem _ (fun p => f p = 1%Z))
      by (intros p Hp; rewrite decide_False; [done|congruence]).
    destruct (f q - 1 =? 0)%Z eqn:Ef; [rewrite decide_True by lia|rewrite decide_False by lia].
    + by rewrite <- app_assoc.
    + done.
  - intros p Hp. rewrite Hw' by done. f_equal. repeat case_decide; set_solver.
Qed.

(** The state between layers: [O] is placed, [R] is the next layer. *)
Record layer_inv (O R : list model) : Prop := {
  l_nodup : NoDup (O ++ R);
  l_sub p : p ∈ O ++ R -> p ∈ members;
  l_ready p : p ∈ members -> cnt O p = 0%nat <-> p ∈ O ++ R;
}.

(** What the turn has collected after settling [R1] of the layer [R]. *)
Definition collected (O R1 R F : list model) : Prop :=
  NoDup F /\ forall p, p ∈ F <-> p ∈ members /\ cnt (O ++ R1) p = 0%nat /\ p ∉ O ++ R.

Lemma collected_step O R1 R F m ps :
  layer_inv O R -> m ∈ R -> m ∉ O ++ R1 -> NoDup ps ->
  (forall p, p ∈ ps <-> depends p m) -> collected O R1 R F ->
  collected O (R1 ++ [m]) R (F ++ base.filter (fun p => Z.of_nat (cnt (O ++ R1) p) = 1%Z) ps).
Proof.
  intros HL Hm Hnew Hn Hps [HF HFs]. split.
  - apply list.NoDup_app. split; [done|]. split; [|by apply list.NoDup_filter].
    intros p Hp Hp'. apply HFs in Hp as (_ & E & _).
    apply list_elem_of_filter in Hp' as [E' _]. lia.
  - intros p. rewrite elem_of_app, HFs, list_elem_of_filter, Hps, app_assoc.
    destruct (decide (depends p m)) as [Hd|Hd].
    + pose proof (cnt_place (O ++ R1) m p ltac:(by apply kids_elem) Hnew) as Ec. split.
      * intros [(H1 & H2 & H3)|[H1 _]]; [lia|]. split; [apply Hd|]. split; [lia|].
        intros Hin. apply (l_ready _ _ HL) in Hin; [|apply Hd].
        apply (cnt_mono O (O ++ R1)) in Hin; [lia|set_solver].
      * intros (H1 & H2 & H3). right. split; [lia|done].
    + rewrite (cnt_other _ m p) by (by rewrite kids_elem). naive_solver.
Qed.

Lemma settle_layer_ok O R R1 R2 w F :
  layer_inv O R -> R = R1 ++ R2 -> waiting_ok (O ++ R1) w -> collected O R1 R F ->
  exists w' F', settle_layer set_iter pbc_of R2 w F (O ++ R1) = Ok (w', F', O ++ R) /\
    waiting_ok (O ++ R) w' /\ collected O R R F'.
Proof.
  intros HL. revert R1 w F. induction R2 as [|m R2 IH]; intros R1 w F HR Hw HF; simpl.
  { rewrite app_nil_r in HR. subst R1. eauto. }
  assert (Hm : m ∈ members) by (apply (l_sub _ _ HL); set_solver).
  destruct pbc_ok as [_ Hpbc]. destruct (Hpbc m) as (ps & -> & Hn & Hps); [by rewrite Hiter|].
  assert (Hnew : m ∉ O ++ R1).
  { pose proof (l_nodup _ _ HL) as HN. rewrite HR, app_assoc in HN.
    apply list.NoDup_app in HN as (_ & HN & _). intros H. by apply (HN m H); set_solver. }
  assert (Hps' : forall p, p ∈ set_iter ps <-> depends p m)
    by (intros p; rewrite Hiter; apply Hps).
  destruct Hw as [Hk Hw].
  destruct (settle_parents_ok (set_iter ps) w (fun p => Z.of_nat (cnt (O ++ R1) p)) F)
    as (w' & -> & Hk' & Hw').
  - by rewrite Hiter.
  - intros p Hp. by apply Hps' in Hp as (_ & ? & _).
  - exact Hw.
  - intros p Hp. by rewrite Hk, Hiter.
  - cbn [res_bind]. rewrite <- app_assoc. apply IH.
    + by rewrite <- app_assoc.
    + split; [congruence|]. intros p Hp. rewrite Hw', app_assoc by done. f_equal.
      case_decide as Hd; rewrite Hps', <- kids_elem in Hd.
      * rewrite (cnt_place (O ++ R1) m p) by done. lia.
      * by rewrite cnt_other.
    + apply collected_step; [done|set_solver|done|by rewrite Hiter|done|done].
Qed.

(** *** The walk *)

Definition before (c p : model) (l : list model) : Prop :=
  exists l1 l2, l = l1 ++ p :: l2 /\ c ∈ l1.

Definition children_first (O : list model) : Prop :=
  forall p c, p ∈ O -> depends p c -> before c p O.

Lemma children_first_layer O R : layer_inv O R -> children_first O -> children_first (O ++ R).
Proof.
  intros HL HO p c Hp Hd. apply elem_of_app in Hp as [Hp|Hp].
  - destruct (HO p c Hp Hd) as (l1 & l2 & -> & Hc). exists l1, (l2 ++ R).
    split; [by rewrite <- app_assoc|done].
  - assert (E : cnt O p = 0%nat) by (apply (l_ready _ _ HL); [apply Hd|set_solver]).
    rewrite cnt_zero in E. apply list_elem_of_split in Hp as (l1 & l2 & ->).
    exists (O ++ l1), l2. split; [by rewrite <- app_assoc|].
    apply elem_of_app. left. by apply E, kids_elem.
Qed.

Lemma layer_next O R F R' :
  layer_inv O R -> collected O R R F -> R' ≡ₚ F -> layer_inv (O ++ R) R'.
Proof.
  intros HL [HF HFs] HR'. split.
  - apply list.NoDup_app. split; [apply (l_nodup _ _ HL)|]. split; [|by rewrite HR'].
    intros p Hp. rewrite HR'. intros Hp'. by apply HFs in Hp' as (_ & _ & ?).
  - intros p Hp. apply elem_of_app in Hp as [Hp|Hp]; [by apply (l_sub _ _ HL)|].
    rewrite HR' in Hp. by apply HFs in Hp as [? _].
  - intros p Hp. rewrite (elem_of_app (O ++ R)), HR', HFs. split.
    + intros E. destruct (decide (p ∈ O ++ R)); [by left|by right].
    + intros [Hin|(_ & E & _)]; [|done]. apply (l_ready _ _ HL) in Hin; [|done].
      apply (cnt_mono O); [set_solver|done].
Qed.

Lemma sorted_nodes_ok l :
  (forall m, m ∈ l -> m ∈ members) -> sorted_nodes g l = Ok (sorted_by (node_key g) l).
Proof.
  intros Hl. unfold sorted_nodes. rewrite (proj2 (forallb_forall _ _)); [done|].
  intros m Hm. apply list_elem_of_In in Hm. by apply dmem_spec, Hnodes, Hl.
Qed.

(** The layer the reference places next: every child placed already. *)
Definition ready_after (O : list model) : list model :=
  base.filter (fun p => p ∉ O /\ cnt O p = 0%nat) members.

Lemma collected_ready O R F : layer_inv O R -> collected O R R F -> F ≡ₚ ready_after (O ++ R).
Proof.
  intros HL [HF HFs]. apply NoDup_Permutation; [done|by apply list.NoDup_filter|].
  intros p. rewrite HFs. unfold ready_after. rewrite list_elem_of_filter. naive_solver.
Qed.

(** The reference: rescan the remaining members after every layer. *)
Fixpoint layered (fuel : nat) (O : list model) : list model :=
  match fuel with
  | 0%nat => O
  | S fuel =>
    match sorted_by (node_key g) (ready_after O) with
    | [] => O
    | R => layered fuel (O ++ R)
    end
  end.

Record settled (O : list model) (w : list (model * Z)) : Prop := {
  s_nodup : NoDup O;
  s_sub p : p ∈ O -> p ∈ members;
  s_exact p : p ∈ members -> cnt O p = 0%nat <-> p ∈ O;
  s_order : children_first O;
  s_waiting : waiting_ok O w;
}.

Lemma kahn_loop_ok fuel R w O :
  layer_inv O R -> waiting_ok O w -> children_first O ->
  (length members <= fuel + length O)%nat ->
  exists w' O', kahn_loop set_iter g fuel pbc_of R w O = Ok (w', O') /\ settled O' w' /\
    (key_inj (node_key g) members -> R = sorted_by (node_key g) (ready_after O) ->
     O' = layered fuel O).
Proof.
  revert R w O. induction fuel as [|fuel IH]; intros R w O HL Hw HO Hfuel.
  all: destruct R as [|m R].
  1, 3: exists w, O; split; [done|]; split;
    [split; [..|done|done]; intros; destruct HL as [H1 H2 H3];
     rewrite app_nil_r in *; naive_solver|].
  - done.
  - intros _ E. simpl. by rewrite <- E.
  - exfalso. pose proof (l_nodup _ _ HL) as Hn.
    assert (Hlen : (length (O ++ m :: R) <= length members)%nat)
      by (apply submseteq_length, NoDup_submseteq; [done|apply (l_sub _ _ HL)]).
    rewrite length_app in Hlen. simpl in *. lia.
  - cbn [kahn_loop].
    destruct (settle_layer_ok O (m :: R) [] (m :: R) w [] HL eq_refl)
      as (w' & F & E & Hw' & HF).
    { by rewrite app_nil_r. }
    { split; [constructor|]. intros p. rewrite app_nil_r. split; [set_solver|].
      intros (Hp & Hc & Hn). by apply (l_ready _ _ HL) in Hc. }
    rewrite app_nil_r in E. rewrite E. cbn [res_bind].
    rewrite sorted_nodes_ok by (intros p Hp; by apply HF in Hp as [? _]). cbn [res_bind].
    destruct (IH (sorted_by (node_key g) F) w' (O ++ m :: R)) as (w2 & O2 & E2 & HS & Hdet).
    { eapply layer_next; [done|done|apply sorted_by_perm]. }
    { done. }
    { by apply children_first_layer. }
    { rewrite length_app. simpl. lia. }
    exists w2, O2. split; [done|]. split; [done|]. intros Hinj ER.
    simpl. rewrite <- ER. apply Hdet; [done|]. apply sorted_by_det.
    + intros x y Hx Hy. apply Hinj; [by apply HF in Hx as [? _]|by apply HF in Hy as [? _]].
    + by apply collected_ready.
Qed.
End order.
