(* ===== verification/PrivacyOrderClaims.v ===== *)
(** * The cycle report: [_cycles] on the residue, and the claims on ordering

    [_cycles] splits the residue into the connected components of the foreign
    keys inside it.  In a graph whose two edge indexes mirror each other, as
    [build_graph] leaves them, the components partition the residue. *)

From Stdlib Require Import Sorted.
From stdpp Require Import base list sets relations strings numbers.
From Stdlib Require Import ZArith Lia.
From S2P Require Import Prelude PyCollections PrivacyGraph PrivacyOrderFacts.
#[local] Open Scope Z_scope.

(** The inbound and the outbound index hold the same foreign keys. *)
Definition mirrored (g : Graph) : Prop :=
  forall e c p, (e, c) ∈ inbound_of g p <-> (e, p) ∈ outbound_of g c.

Section component.
Context (g : Graph) (S0 : list model) (Hmirror : mirrored g) (Hnd : NoDup S0).

Definition adj (x y : model) : Prop := y ∈ neighbours g S0 x.

Lemma adj_iff x y :
  adj x y <-> y ∈ S0 /\ (y ∈ map snd (inbound_of g x) \/ y ∈ map snd (outbound_of g x)).
Proof.
  unfold adj, neighbours. rewrite elem_of_app, !list_elem_of_filter. naive_solver.
Qed.

Lemma snd_elem (l : list (Edge * model)) y : y ∈ map snd l <-> exists e, (e, y) ∈ l.
Proof.
  rewrite list_elem_of_fmap. split.
  - intros ([e y'] & -> & H). eauto.
  - intros [e H]. exists (e, y). eauto.
Qed.

Lemma adj_sym x y : x ∈ S0 -> adj x y -> adj y x.
Proof.
  rewrite !adj_iff, !snd_elem. intros Hx (Hy & [[e H]|[e H]]); split; try done.
  - right. exists e. by apply Hmirror.
  - left. exists e. by apply Hmirror.
Qed.

Definition degree (l : list model) : nat := sum_list (map (fun x => length (neighbours g S0 x)) l).

Definition outside (component : list model) : list model :=
  base.filter (fun x => x ∉ component) S0.

Lemma degree_perm l k : l ≡ₚ k -> degree l = degree k.
Proof. unfold degree. induction 1; simpl; lia. Qed.

Lemma degree_step component m :
  m ∈ S0 -> m ∉ component ->
  degree (outside component) =
    (length (neighbours g S0 m) + degree (outside (component ++ [m])))%nat.
Proof.
  intros Hm Hc. change (degree (outside component) = degree (m :: outside (component ++ [m]))).
  apply degree_perm. unfold outside.
  apply NoDup_Permutation; [by apply list.NoDup_filter| |].
  - constructor; [|by apply list.NoDup_filter]. rewrite list_elem_of_filter. set_solver.
  - intros x. rewrite elem_of_cons, !list_elem_of_filter.
    destruct (decide (x = m)); set_solver.
Qed.

Record dfs_inv (start : model) (stack component : list model) : Prop := {
  d_nodup : NoDup component;
  d_sub x : x ∈ component ++ stack -> x ∈ S0 /\ rtc adj start x;
  d_start : start ∈ component ++ stack;
  d_closed x y : x ∈ component -> adj x y -> y ∈ component ++ stack;
}.

(** A component: everything connected to [start], once. *)
Definition component_of (start : model) (component : list model) : Prop :=
  NoDup component /\ forall x, x ∈ component <-> rtc adj start x.

Lemma dfs_done start component :
  dfs_inv start [] component -> component_of start component.
Proof.
  intros [H1 H2 H3 H4]. rewrite app_nil_r in *. split; [done|]. intros x. split.
  - intros Hx. by apply H2.
  - intros Hr. clear H2. revert H3. induction Hr as [|x y z Hxy _ IH]; [done|]. intros Hx.
    apply IH. by apply (H4 x y).
Qed.

Lemma dfs_skip start m stack component :
  m ∈ component -> dfs_inv start (m :: stack) component -> dfs_inv start stack component.
Proof.
  intros Hm [H1 H2 H3 H4]. split; [done| | |].
  - intros x Hx. apply H2. set_solver.
  - set_solver.
  - intros x y Hx Hxy. specialize (H4 x y Hx Hxy). set_solver.
Qed.

Lemma dfs_expand start m stack component :
  m ∉ component -> dfs_inv start (m :: stack) component ->
  dfs_inv start (rev (neighbours g S0 m) ++ stack) (component ++ [m]).
Proof.
  intros Hm [H1 H2 H3 H4].
  assert (Hrev : forall y, y ∈ rev (neighbours g S0 m) <-> adj m y)
    by (intros y; unfold adj; rewrite !list_elem_of_In; symmetry; apply in_rev).
  destruct (H2 m ltac:(set_solver)) as [HmS Hmr]. split.
  - apply list.NoDup_app. split; [done|]. split; [set_solver|apply list.NoDup_singleton].
  - intros x. rewrite !elem_of_app, Hrev, list_elem_of_singleton.
    intros [[Hx| ->]|[Hx|Hx]]; [apply H2; set_solver|done| |apply H2; set_solver].
    split; [by apply adj_iff in Hx as [? _]|]. eapply rtc_r; [exact Hmr|exact Hx].
  - set_solver.
  - intros x y. rewrite !elem_of_app, Hrev, list_elem_of_singleton. intros [Hx| ->] Hxy.
    + specialize (H4 x y Hx Hxy). set_solver.
    + auto.
Qed.

Lemma component_loop_ok fuel start stack component :
  dfs_inv start stack component ->
  (length stack + degree (outside component) <= fuel)%nat ->
  exists out, component_loop g S0 fuel stack component = Ok out /\ component_of start out.
Proof.
  revert stack component. induction fuel as [|fuel IH]; intros [|m stack] component Hinv Hfuel;
    simpl in *; try lia; try (exists component; split; [done|by apply dfs_done]).
  case_decide as Hm.
  - apply IH; [by eapply dfs_skip|lia].
  - apply IH; [by apply dfs_expand|].
    destruct (d_sub _ _ _ Hinv m) as [HmS _]; [set_solver|].
    rewrite (degree_step component m HmS Hm) in Hfuel.
    rewrite length_app, length_rev. lia.
Qed.

Lemma degree_concat l : degree l = length (concat (map (neighbours g S0) l)).
Proof. unfold degree. induction l; simpl; [done|]. rewrite length_app. lia. Qed.

Lemma component_ok start :
  start ∈ S0 ->
  exists out, component_loop g S0 (component_fuel g S0) [start] [] = Ok out /\
    component_of start out.
Proof.
  intros Hs. apply component_loop_ok.
  - split; [constructor| |set_solver|set_solver]. intros x. simpl.
    rewrite list_elem_of_singleton. intros ->. split; [done|apply rtc_refl].
  - unfold component_fuel, outside. rewrite <- degree_concat. simpl.
    rewrite (degree_perm _ S0); [lia|]. apply NoDup_Permutation; [by apply list.NoDup_filter|done|].
    intros x. rewrite list_elem_of_filter. set_solver.
Qed.

Lemma rtc_adj_sub x y : x ∈ S0 -> rtc adj x y -> y ∈ S0.
Proof.
  intros Hx Hr. induction Hr as [|x y z Hxy _ IH]; [done|].
  apply IH. by apply adj_iff in Hxy as [? _].
Qed.

Lemma rtc_adj_sym x y : x ∈ S0 -> rtc adj x y -> rtc adj y x.
Proof.
  intros Hx Hr. induction Hr as [|x y z Hxy Hyz IH]; [apply rtc_refl|].
  assert (Hy : y ∈ S0) by (by apply adj_iff in Hxy as [? _]).
  eapply rtc_r; [by apply IH|]. by apply adj_sym.
Qed.

(** ** All components *)

Context (Hnodes : forall m, m ∈ S0 -> m ∈ dkeys (nodes g)).

(** [components] after the starts whose members are [seen]. *)
Record cycles_inv (seen : list model) (components : list (list model)) : Prop := {
  c_nodup : NoDup seen;
  c_sub x : x ∈ seen -> x ∈ S0;
  c_concat : concat components ≡ₚ seen;
  c_comp comp : comp ∈ components -> exists start, start ∈ S0 /\ component_of start comp;
  c_closed x y : x ∈ seen -> adj x y -> y ∈ seen;
}.

Lemma component_perm start l k : l ≡ₚ k -> component_of start l -> component_of start k.
Proof. intros E [H1 H2]. split; [by rewrite <- E|]. intros x. by rewrite <- E. Qed.

Lemma cycles_step seen components start out :
  cycles_inv seen components -> start ∈ S0 -> start ∉ seen -> component_of start out ->
  cycles_inv (seen ++ out) (components ++ [sorted_by (node_key g) out]).
Proof.
  intros [H1 H2 H3 H4 H5] Hs Hn Hout. pose proof Hout as [Ho1 Ho2]. split.
  - apply list.NoDup_app. split; [done|]. split; [|done]. intros x Hx Hx'.
    apply Ho2 in Hx'. apply rtc_adj_sym in Hx'; [|done]. apply Hn.
    clear -Hx Hx' H5. induction Hx' as [|x y z Hxy _ IH]; eauto.
  - intros x Hx. apply elem_of_app in Hx as [Hx|Hx]; [by apply H2|].
    apply Ho2 in Hx. by eapply rtc_adj_sub.
  - rewrite concat_app. simpl. by rewrite app_nil_r, H3, sorted_by_perm.
  - intros comp. rewrite elem_of_app, list_elem_of_singleton. intros [Hc| ->]; [by apply H4|].
    exists start. split; [done|]. eapply component_perm; [|done]. by rewrite sorted_by_perm.
  - intros x y. rewrite !elem_of_app. intros [Hx|Hx] Hxy; [left; by eapply H5|right].
    apply Ho2. apply Ho2 in Hx. by eapply rtc_r.
Qed.

Lemma cycles_loop_ok starts seen components :
  cycles_inv seen components -> (forall x, x ∈ starts -> x ∈ S0) ->
  exists out seen', cycles_loop g S0 starts seen components = Ok out /\ cycles_inv seen' out /\
    (forall x, x ∈ seen \/ x ∈ starts -> x ∈ seen').
Proof.
  revert seen components. induction starts as [|start starts IH]; intros seen components Hinv Hs.
  { exists components, seen. split; [done|]. split; [done|]. set_solver. }
  cbn [cycles_loop]. case_decide as Hseen.
  - destruct (IH seen components Hinv ltac:(set_solver)) as (out & seen' & E & H1 & H2).
    exists out, seen'. split; [done|]. split; [done|]. set_solver.
  - assert (Hst : start ∈ S0) by set_solver.
    destruct (component_ok start Hst) as (comp & -> & Hcomp). cbn [res_bind].
    rewrite (sorted_nodes_ok g S0 Hnodes).
    2: { intros x Hx. apply Hcomp in Hx. by eapply rtc_adj_sub. }
    cbn [res_bind].
    destruct (IH _ _ (cycles_step _ _ _ _ Hinv Hst Hseen Hcomp) ltac:(set_solver))
      as (out & seen' & E & H1 & H2).
    exists out, seen'. split; [done|]. split; [done|]. intros x Hx. apply H2.
    rewrite elem_of_app. destruct Hx as [Hx|Hx]; [by do 2 left|].
    apply elem_of_cons in Hx as [->|Hx]; [left; right; apply Hcomp, rtc_refl|by right].
Qed.

Lemma cycles_ok set_iter :
  (forall s, set_iter s ≡ₚ s) ->
  exists out, _cycles set_iter g S0 = Ok out /\ concat out ≡ₚ S0 /\
    forall comp, comp ∈ out -> exists start, start ∈ S0 /\ component_of start comp.
Proof.
  intros Hiter. unfold _cycles. rewrite (sorted_nodes_ok g S0 Hnodes) by (intros m; by rewrite Hiter).
  cbn [res_bind]. destruct (cycles_loop_ok (sorted_by (node_key g) (set_iter S0)) [] [])
    as (out & seen & E & [H1 H2 H3 H4 H5] & Hall).
  - split; [constructor|set_solver|done|set_solver|set_solver].
  - intros x. by rewrite sorted_by_perm, Hiter.
  - exists out. split; [done|]. split; [|done]. rewrite H3.
    apply NoDup_Permutation; [done|done|]. intros x. split; [apply H2|]. intros Hx.
    apply Hall. right. by rewrite sorted_by_perm, Hiter.
Qed.
End component.

(** Only membership in the residue matters, not the order it is listed in. *)
Section residue_order.
Context (g : Graph) (S0 S1 : list model) (Hperm : S0 ≡ₚ S1).

Lemma neighbours_perm m : neighbours g S0 m = neighbours g S1 m.
Proof.
  unfold neighbours. f_equal; apply filter_ext_elem; intros x _; by rewrite Hperm.
Qed.

Lemma component_fuel_perm : component_fuel g S0 = component_fuel g S1.
Proof.
  unfold component_fuel. f_equal.
  rewrite (map_ext _ _ (fun m => neighbours_perm m)).
  rewrite <- !(degree_concat g S1). by apply degree_perm.
Qed.

Lemma component_loop_perm fuel stack component :
  component_loop g S0 fuel stack component = component_loop g S1 fuel stack component.
Proof.
  revert stack component. induction fuel as [|fuel IH]; intros [|m stack] component; try done.
  simpl. rewrite neighbours_perm. case_decide; apply IH.
Qed.

Lemma cycles_loop_perm starts seen components :
  cycles_loop g S0 starts seen components = cycles_loop g S1 starts seen components.
Proof.
  revert seen components. induction starts as [|s starts IH]; intros seen components; [done|].
  cbn [cycles_loop]. case_decide; [apply IH|].
  rewrite component_fuel_perm, component_loop_perm.
  destruct (component_loop _ _ _ _ _) as [comp|]; [|done]. cbn [res_bind].
  destruct (sorted_nodes g comp); [|done]. apply IH.
Qed.

Lemma cycles_perm it0 it1 :
  (forall s, it0 s ≡ₚ s) -> (forall s, it1 s ≡ₚ s) -> key_inj (node_key g) S0 ->
  _cycles it0 g S0 = _cycles it1 g S1.
Proof.
  intros H0 H1 Hinj. unfold _cycles, sorted_nodes.
  assert (Hp : it0 S0 ≡ₚ it1 S1) by (by rewrite H0, H1).
  rewrite (sorted_by_det (node_key g) (it0 S0) (it1 S1)).
  2: { intros x y. rewrite !H0. apply Hinj. }
  2: { done. }
  replace (forallb (dmem (nodes g)) (it0 S0)) with (forallb (dmem (nodes g)) (it1 S1)).
  - destruct (forallb _ _); [|done]. cbn [res_bind]. apply cycles_loop_perm.
  - apply eq_true_iff_eq. rewrite !forallb_forall. split; intros H x Hx; apply H;
      apply list_elem_of_In; apply list_elem_of_In in Hx; [by rewrite <- Hp|by rewrite Hp].
Qed.
End residue_order.

(** ** The whole operation *)

Section whole.
Context (set_iter : list model -> list model) (Hiter : forall s, set_iter s ≡ₚ s).
Context (g : Graph) (members : list model).
Context (Hmem : NoDup members) (Hnodes : forall m, m ∈ members -> m ∈ dkeys (nodes g)).

Definition residue_of (w : list (model * Z)) : list model :=
  map fst (base.filter (fun p => snd p <> 0%Z) w).

Lemma residue_elem O w p :
  settled set_iter g members O w -> p ∈ residue_of w <-> p ∈ members /\ p ∉ O.
Proof.
  intros HS. destruct (s_waiting _ _ _ _ _ HS) as [Hk Hw].
  assert (Hkd : NoDup (dkeys w)) by (rewrite Hk, Hiter; done).
  unfold residue_of. rewrite list_elem_of_fmap. split.
  - intros ([q n] & -> & Hin). apply list_elem_of_filter in Hin as [Hn Hin]. simpl in *.
    assert (Hq : q ∈ members).
    { rewrite <- (Hiter members), <- Hk. apply list_elem_of_fmap. by exists (q, n). }
    split; [done|]. intros Ho. apply (dget_nodup _ _ _ Hkd) in Hin.
    rewrite (Hw q Hq) in Hin. apply (s_exact _ _ _ _ _ HS) in Ho; [|done].
    injection Hin as <-. lia.
  - intros [Hp Ho]. exists (p, Z.of_nat (cnt g members O p)). split; [done|].
    apply list_elem_of_filter. split; [|by apply dget_elem, Hw]. simpl. intros E.
    apply Ho, (s_exact _ _ _ _ _ HS); [done|lia].
Qed.

Lemma residue_nodup O w : settled set_iter g members O w -> NoDup (residue_of w).
Proof.
  intros HS. destruct (s_waiting _ _ _ _ _ HS) as [Hk _].
  assert (Hkd : NoDup (dkeys w)) by (rewrite Hk, Hiter; done).
  unfold residue_of. clear -Hkd. induction w as [|[q n] w IH]; simpl; [constructor|].
  apply list.NoDup_cons in Hkd as [Hq Hkd]. rewrite filter_cons.
  case_decide; [|by apply IH]. simpl. constructor; [|by apply IH].
  intros Hin. apply Hq. apply list_elem_of_fmap in Hin as (x & -> & Hx).
  apply list_elem_of_filter in Hx as [_ Hx]. apply list_elem_of_fmap. by exists x.
Qed.

Lemma initial_layer :
  exists R, sorted_nodes g (base.filter (fun m => dget (waiting_of set_iter g members) m = Some 0%Z)
                              (set_iter members)) = Ok R /\
    layer_inv g members [] R /\
    (key_inj (node_key g) members ->
     R = sorted_by (node_key g) (ready_after g members [])).
Proof.
  assert (Hwk : waiting_ok set_iter g members [] (waiting_of set_iter g members))
    by (by apply waiting_initial).
  pose proof (proj2 Hwk) as Hw. set (F := base.filter (fun m => dget (waiting_of set_iter g members) m = Some 0%Z)
              (set_iter members)).
  assert (HF : F ≡ₚ ready_after g members []).
  { apply NoDup_Permutation; [apply list.NoDup_filter; by rewrite Hiter|by apply list.NoDup_filter|].
    intros p. unfold F, ready_after. rewrite !list_elem_of_filter, Hiter. split.
    - intros [E Hp]. rewrite (Hw p Hp) in E. injection E as E. split; [|done].
      split; [set_solver|lia].
    - intros [[_ E] Hp]. rewrite (Hw p Hp), E. done. }
  assert (Hsub : forall p, p ∈ F -> p ∈ members)
    by (intros p; rewrite HF; unfold ready_after; rewrite list_elem_of_filter; naive_solver).
  exists (sorted_by (node_key g) F). split; [by apply (sorted_nodes_ok g members)|].
  split; [split|].
  - simpl. rewrite sorted_by_perm, HF. by apply list.NoDup_filter.
  - intros p. simpl. rewrite sorted_by_perm. apply Hsub.
  - intros p Hp. simpl. rewrite sorted_by_perm, HF. unfold ready_after.
    rewrite list_elem_of_filter. set_solver.
  - intros Hinj. apply sorted_by_det; [|done]. intros x y Hx Hy. apply Hinj; by apply Hsub.
Qed.

Lemma order_ok :
  exists O w, settled set_iter g members O w /\
    order_children_first set_iter g members =
      (let! cycles := _cycles set_iter g (residue_of w) in Ok (O, cycles)) /\
    (key_inj (node_key g) members -> O = layered g members (length members) []).
Proof.
  destruct initial_layer as (R & ER & HL & HR).
  destruct (kahn_loop_ok set_iter Hiter g members Hmem Hnodes (length members) R
    (waiting_of set_iter g members) []) as (w & O & E & HS & Hdet).
  - done.
  - by apply waiting_initial.
  - intros p c. set_solver.
  - lia.
  - exists O, w. split; [done|]. split; [|auto].
    unfold order_children_first. fold (waiting_of set_iter g members).
    rewrite ER. cbn [res_bind]. fold (pbc_of set_iter g members). rewrite E. done.
Qed.

Lemma residue_supported O w p :
  settled set_iter g members O w -> p ∈ residue_of w ->
  exists c, c ∈ residue_of w /\ depends g members p c.
Proof.
  intros HS Hp. rewrite (residue_elem O w) in Hp by done. destruct Hp as [Hp Ho].
  destruct (decide (cnt g members O p = 0%nat)) as [E|E].
  { by apply (s_exact _ _ _ _ _ HS) in E. }
  unfold cnt in E. destruct (base.filter _ _) as [|c l] eqn:Ef; [done|].
  assert (Hc : c ∈ base.filter (fun c => c ∉ O) (kids g members p)) by (rewrite Ef; set_solver).
  apply list_elem_of_filter in Hc as [Hc1 Hc2]. apply kids_elem in Hc2.
  exists c. split; [|done]. rewrite (residue_elem O w) by done. split; [apply Hc2|done].
Qed.
End whole.

(** ** [build_graph]: the two edge indexes agree

    Compiling a registry never misses a key, its nodes are the compiled models,
    and the inbound and outbound indexes hold exactly the foreign keys whose
    target is compiled. *)

Definition nodes_of (specs : list ModelSpec) : list (model * Node) :=
  foldl (fun d spec => dset d (model_type spec) (node_of_spec spec)) [] specs.

Lemma nodes_fold_keys specs d m :
  m ∈ dkeys (foldl (fun d spec => dset d (model_type spec) (node_of_spec spec)) d specs) <->
  m ∈ dkeys d \/ m ∈ map model_type specs.
Proof.
  revert d. induction specs as [|s specs IH]; intros d; simpl; [set_solver|].
  rewrite IH, dset_keys. case_decide; set_solver.
Qed.

Lemma nodes_of_keys specs m : m ∈ dkeys (nodes_of specs) <-> m ∈ map model_type specs.
Proof. unfold nodes_of. rewrite nodes_fold_keys. set_solver. Qed.

Lemma nodes_fold_nodup specs d :
  NoDup (dkeys d) ->
  NoDup (dkeys (foldl (fun d spec => dset d (model_type spec) (node_of_spec spec)) d specs)).
Proof. revert d. induction specs as [|s specs IH]; intros d Hd; simpl; auto using dset_nodup. Qed.

Lemma nodes_of_nodup specs : NoDup (dkeys (nodes_of specs)).
Proof. apply nodes_fold_nodup. constructor. Qed.

Lemma dpush_elem {V} (d : list (model * list V)) k (x y : V) j :
  y ∈ default [] (dget (dpush d k x) j) <-> y ∈ default [] (dget d j) \/ (j = k /\ y = x).
Proof.
  unfold dpush. rewrite dget_dset. case_decide as E; simpl; [subst|].
  - rewrite elem_of_app, list_elem_of_singleton. naive_solver.
  - naive_solver.
Qed.

(** The edge a column of [child] contributes, if its target is compiled. *)
Definition column_edge (nds : list (model * Node)) (child : model) (column : ColumnSpec)
    (e : Edge) (target : model) : Prop :=
  exists ref cn pn, reference column = Some ref /\ ref_model_type ref = target /\
    dget nds child = Some cn /\ dget nds target = Some pn /\
    e = mkEdge (qualified cn) (database_name column) (qualified pn) (ref_column ref)
          (ref_on_delete ref) (ref_deferrable ref).

Record edges_of (g g' : Graph) (new : Edge -> model -> model -> Prop) : Prop := {
  eo_nodes : nodes g' = nodes g;
  eo_out e c p : (e, p) ∈ outbound_of g' c <-> (e, p) ∈ outbound_of g c \/ new e c p;
  eo_in e c p : (e, c) ∈ inbound_of g' p <-> (e, c) ∈ inbound_of g p \/ new e c p;
}.

Lemma edges_of_ext g g' new new' :
  edges_of g g' new -> (forall e c p, new e c p <-> new' e c p) -> edges_of g g' new'.
Proof. intros [H1 H2 H3] E. split; [done| |]; intros e c p; rewrite <- E; auto. Qed.

Lemma edges_of_trans g g1 g2 n1 n2 :
  edges_of g g1 n1 -> edges_of g1 g2 n2 ->
  edges_of g g2 (fun e c p => n1 e c p \/ n2 e c p).
Proof.
  intros [A1 A2 A3] [B1 B2 B3]. split; [congruence| |]; intros e c p.
  - rewrite B2, A2. naive_solver.
  - rewrite B3, A3. naive_solver.
Qed.

Lemma column_edges_ok nds child column g :
  nodes g = nds -> child ∈ dkeys nds ->
  exists g', column_edges nds child column g = Ok g' /\
    edges_of g g' (fun e c p => c = child /\ column_edge nds child column e p).
Proof.
  intros Hn Hc. unfold column_edges.
  destruct (reference column) as [ref|] eqn:Er.
  2: { exists g. split; [done|]. split; [done| |]; intros e c p; split; eauto;
       intros [?|(_ & ? & ? & ? & ? & _)]; congruence. }
  destruct (dget nds (ref_model_type ref)) as [pn|] eqn:Ep.
  2: { exists g. split; [done|]. split; [done| |]; intros e c p; split; eauto;
       intros [?|(_ & ? & ? & ? & ? & <- & _ & ? & _)]; congruence. }
  apply dget_keys in Hc as [cn Ec]. rewrite Ec. eexists. split; [done|].
  assert (Hnew : forall e p, column_edge nds child column e p <->
    p = ref_model_type ref /\ e = mkEdge (qualified cn) (database_name column) (qualified pn)
      (ref_column ref) (ref_on_delete ref) (ref_deferrable ref)).
  { intros e p. unfold column_edge. split.
    - intros (ref' & cn' & pn' & H1 & <- & H2 & H3 & ->). by simplify_eq.
    - intros [-> ->]. by exists ref, cn, pn. }
  split; [by simpl| |]; intros e c p; rewrite Hnew; unfold outbound_of, inbound_of; simpl;
    rewrite dpush_elem; naive_solver.
Qed.

Lemma columns_edges_ok nds child columns g :
  nodes g = nds -> child ∈ dkeys nds ->
  exists g', columns_edges nds child columns g = Ok g' /\
    edges_of g g' (fun e c p =>
      c = child /\ exists column, column ∈ columns /\ column_edge nds child column e p).
Proof.
  revert g. induction columns as [|col columns IH]; intros g Hn Hc; simpl.
  { exists g. split; [done|]. split; [done| |]; set_solver. }
  destruct (column_edges_ok nds child col g Hn Hc) as (g1 & -> & E1). cbn [res_bind].
  destruct (IH g1) as (g2 & -> & E2); [by rewrite (eo_nodes _ _ _ E1)|done|].
  exists g2. split; [done|]. eapply edges_of_ext; [by eapply edges_of_trans|].
  intros e c p. cbn beta. setoid_rewrite elem_of_cons. naive_solver.
Qed.

(** The foreign keys a registry compiles. *)
Definition declared (specs : list ModelSpec) (nds : list (model * Node))
    (e : Edge) (c p : model) : Prop :=
  exists spec column, spec ∈ specs /\ model_type spec = c /\ column ∈ sp_columns spec /\
    column_edge nds c column e p.

Lemma specs_edges_ok nds specs g :
  nodes g = nds -> (forall spec, spec ∈ specs -> model_type spec ∈ dkeys nds) ->
  exists g', specs_edges nds specs g = Ok g' /\ edges_of g g' (declared specs nds).
Proof.
  revert g. induction specs as [|spec specs IH]; intros g Hn Hs; simpl.
  { exists g. split; [done|]. unfold declared. split; [done| |]; set_solver. }
  destruct (columns_edges_ok nds (model_type spec) (sp_columns spec) g Hn) as (g1 & -> & E1).
  { apply Hs. set_solver. }
  cbn [res_bind].
  destruct (IH g1) as (g2 & -> & E2); [by rewrite (eo_nodes _ _ _ E1)|set_solver|].
  exists g2. split; [done|]. eapply edges_of_ext; [by eapply edges_of_trans|].
  intros e c p. unfold declared. setoid_rewrite elem_of_cons. naive_solver.
Qed.

Lemma build_graph_ok specs :
  specs <> [] ->
  exists g, build_graph specs = Ok g /\ nodes g = nodes_of specs /\
    (forall e c p, (e, p) ∈ outbound_of g c <-> declared specs (nodes_of specs) e c p) /\
    (forall e c p, (e, c) ∈ inbound_of g p <-> declared specs (nodes_of specs) e c p).
Proof.
  intros Hne. destruct specs as [|s specs]; [done|].
  destruct (specs_edges_ok (nodes_of (s :: specs)) (s :: specs)
    (mkGraph (nodes_of (s :: specs)) [] [])) as (g & E & [H1 H2 H3]); [done| |].
  { intros spec Hin. apply nodes_of_keys, list_elem_of_fmap. eauto. }
  exists g. split; [exact E|]. split; [done|]. split; intros e c p.
  - rewrite H2. unfold outbound_of. simpl. set_solver.
  - rewrite H3. unfold inbound_of. simpl. set_solver.
Qed.

Lemma declared_nodes specs e c p :
  declared specs (nodes_of specs) e c p ->
  c ∈ dkeys (nodes_of specs) /\ p ∈ dkeys (nodes_of specs).
Proof.
  intros (spec & col & _ & _ & _ & ref & cn & pn & _ & _ & H1 & H2 & _).
  split; apply dget_keys; eauto.
Qed.

Lemma build_graph_mirrored specs g : build_graph specs = Ok g -> mirrored g.
Proof.
  intros E. destruct (decide (specs = [])) as [->|Hne]; [done|].
  destruct (build_graph_ok specs Hne) as (g' & E' & _ & H1 & H2). rewrite E in E'.
  injection E' as <-. intros e c p. by rewrite H1, H2.
Qed.

(** [build_graph] compiles every non-empty registry without a key error,
    and loses no foreign key: the inbound and the outbound index each hold
    exactly the edges of the columns whose target is compiled, with the
    qualified names of both tables and the referential action of the column;
    only the empty registry is refused. *)
Theorem build_graph_faithful specs :
  (specs = [] /\ build_graph specs = Err ValueError) \/
  (specs <> [] /\ exists g, build_graph specs = Ok g /\
    dkeys (nodes g) ≡ₚ remove_dups (map model_type specs) /\
    forall e c p,
      ((e, p) ∈ outbound_of g c <-> declared specs (nodes g) e c p) /\
      ((e, c) ∈ inbound_of g p <-> declared specs (nodes g) e c p)).
Proof.
  destruct (decide (specs = [])) as [->|Hne]; [by left|right]. split; [done|].
  destruct (build_graph_ok specs Hne) as (g & E & Hn & H1 & H2). exists g.
  split; [done|]. rewrite Hn. split; [|done].
  apply NoDup_Permutation; [apply nodes_of_nodup|apply NoDup_remove_dups|].
  intros m. by rewrite nodes_of_keys, elem_of_remove_dups.
Qed.

(** ** What [order_children_first] promises the planner

    The claims of the ordering, proved from the invariants of the walk, with a
    compiled schema on which they are instantiated: comments on photos of
    users, and a loop between teams and leads with a badge table the leads
    reference. *)

(** *** A sample schema *)

Definition fk (name : pystr) (target : model) (action : pystr) : ColumnSpec :=
  mkColumn name true (Some (mkRef target (bs "id") action false)).
Definition id_column : ColumnSpec := mkColumn (bs "id") false None.
Definition spec_of (m : model) (name table : pystr) (fks : list ColumnSpec) : ModelSpec :=
  mkSpec m name (bs "public") table [id_column] (id_column :: fks).

Definition sample_specs : list ModelSpec := [
  spec_of 1 (bs "User") (bs "users") [];
  spec_of 2 (bs "Photo") (bs "photos") [fk (bs "owner_id") 1 (bs "c")];
  spec_of 3 (bs "Comment") (bs "comments") [fk (bs "photo_id") 2 (bs "a"); fk (bs "by") 1 (bs "n")];
  spec_of 4 (bs "Team") (bs "teams") [fk (bs "lead_id") 5 (bs "a")];
  spec_of 5 (bs "Lead") (bs "leads") [fk (bs "team_id") 4 (bs "a"); fk (bs "badge_id") 6 (bs "a")];
  spec_of 6 (bs "Badge") (bs "badges") [fk (bs "user_id") 1 (bs "a")]
].

Definition graph_of (specs : list ModelSpec) : Graph :=
  match build_graph specs with Ok g => g | Err _ => mkGraph [] [] [] end.

Definition sample_graph : Graph := graph_of sample_specs.
Definition sample_members : list model := [1; 2; 3; 4; 5; 6].

Lemma sample_mirrored : mirrored sample_graph.
Proof. apply (build_graph_mirrored sample_specs). vm_compute. reflexivity. Qed.

Definition all_elem (P : model -> bool) (l : list model) (H : forallb P l = true) m :
  m ∈ l -> P m = true := forallb_elem P l m H.

Lemma sample_nodes m : m ∈ sample_members -> m ∈ dkeys (nodes sample_graph).
Proof.
  intros H. apply dmem_spec. revert m H. apply all_elem. vm_compute. reflexivity.
Qed.

Lemma sample_nodup : NoDup sample_members.
Proof. apply (bool_decide_unpack (NoDup sample_members)). vm_compute. exact I. Qed.

(** Distinct keys, decided. *)
Lemma key_inj_dec {A K} `{EqDecision A, PyOrd K} (key : A -> K) l :
  forallb (fun x => forallb (fun y =>
    match pycmp (key x) (key y) with Eq => bool_decide (x = y) | _ => true end) l) l = true ->
  key_inj key l.
Proof.
  intros Hall x y Hx Hy E. pose proof (forallb_elem _ _ _ Hall Hx) as H1.
  pose proof (forallb_elem _ _ _ H1 Hy) as H2. cbn beta in H2.
  rewrite (proj2 (pycmp_eq _ _) E) in H2. by apply bool_decide_eq_true in H2.
Qed.

Lemma sample_keys : key_inj (node_key sample_graph) sample_members.
Proof. apply key_inj_dec. vm_compute. reflexivity. Qed.

(** *** Positions *)

Lemma split_unique {A} (x : A) l1 l2 k1 k2 :
  NoDup (l1 ++ x :: l2) -> l1 ++ x :: l2 = k1 ++ x :: k2 -> l1 = k1.
Proof.
  revert k1. induction l1 as [|a l1 IH]; intros [|b k1]; simpl; intros Hn E.
  - done.
  - injection E as E1 E2. subst. apply list.NoDup_cons in Hn as [Hn _]. set_solver.
  - injection E as E1 E2. subst. apply list.NoDup_cons in Hn as [Hn _]. set_solver.
  - injection E as E1 E. subst. apply list.NoDup_cons in Hn as [_ Hn]. f_equal. by apply (IH k1).
Qed.

(** A set in which every element has a child in the set is not ordered. *)
Lemma supported_not_ordered g members O (S : list model) :
  NoDup O -> children_first g members O ->
  (forall p, p ∈ S -> exists c, c ∈ S /\ depends g members p c) ->
  forall p, p ∈ S -> p ∉ O.
Proof.
  intros Hn HO HS. assert (Hind : forall n l1 p l2, (length l1 < n)%nat ->
    O = l1 ++ p :: l2 -> p ∈ S -> False).
  { induction n as [|n IH]; intros l1 p l2 Hl E Hp; [lia|].
    destruct (HS p Hp) as (c & Hc & Hd).
    destruct (HO p c) as (k1 & k2 & E' & Hck); [rewrite E; set_solver|done|].
    assert (l1 = k1) as -> by (eapply split_unique; [by rewrite <- E|by rewrite <- E]).
    apply list_elem_of_split in Hck as (a & b & ->). rewrite length_app in Hl. simpl in Hl.
    apply (IH a c (b ++ p :: k2)); [lia| |done]. rewrite E', <- app_assoc. done. }
  intros p Hp Ho. apply list_elem_of_split in Ho as (l1 & l2 & E).
  apply (Hind (Datatypes.S (length l1)) l1 p l2); [lia|exact E|exact Hp].
Qed.

(** *** The reference does not depend on how the members are listed *)

Section reference_order.
Context (g : Graph) (members members' : list model) (Hp : members ≡ₚ members').
Context (Hn : NoDup members).

Lemma depends_perm p c : depends g members p c <-> depends g members' p c.
Proof. unfold depends. by rewrite Hp. Qed.

Lemma cnt_perm O p : cnt g members O p = cnt g members' O p.
Proof.
  unfold cnt. apply Permutation_length. apply NoDup_Permutation.
  - apply list.NoDup_filter, list.NoDup_filter, Hn.
  - apply list.NoDup_filter, list.NoDup_filter. by rewrite <- Hp.
  - intros c. by rewrite !list_elem_of_filter, !kids_elem, depends_perm.
Qed.

Lemma ready_after_perm O : ready_after g members O ≡ₚ ready_after g members' O.
Proof.
  unfold ready_after. apply NoDup_Permutation.
  - apply list.NoDup_filter, Hn.
  - apply list.NoDup_filter. by rewrite <- Hp.
  - intros c. by rewrite !list_elem_of_filter, cnt_perm, Hp.
Qed.

Lemma layered_perm fuel O :
  key_inj (node_key g) members -> layered g members fuel O = layered g members' fuel O.
Proof.
  intros Hinj. revert O. induction fuel as [|fuel IH]; intros O; [done|]. simpl.
  rewrite (sorted_by_det (node_key g) (ready_after g members O) (ready_after g members' O)).
  - destruct (sorted_by _ _); [done|]. apply IH.
  - intros x y Hx Hy. apply Hinj; unfold ready_after in *;
      [apply list_elem_of_filter in Hx|apply list_elem_of_filter in Hy]; naive_solver.
  - apply ready_after_perm.
Qed.
End reference_order.

(** What an ordering of [members] is. *)
Record order_spec (g : Graph) (members ordered : list model) (cycles : list (list model))
    : Prop := {
  os_perm : ordered ++ concat cycles ≡ₚ members;
  os_first : children_first g members ordered;
}.

Lemma order_sound set_iter g members :
  (forall s, set_iter s ≡ₚ s) -> mirrored g -> NoDup members ->
  (forall m, m ∈ members -> m ∈ dkeys (nodes g)) ->
  exists ordered cycles,
    order_children_first set_iter g members = Ok (ordered, cycles) /\
    order_spec g members ordered cycles.
Proof.
  intros Hiter Hmir Hn Hno.
  destruct (order_ok set_iter Hiter g members Hn Hno) as (O & w & HS & -> & _).
  destruct (cycles_ok g (residue_of w) Hmir) with (set_iter := set_iter)
    as (cycles & -> & Hc & _); [by eapply residue_nodup| |done|].
  { intros m Hm. apply (residue_elem set_iter Hiter g members Hn O) in Hm as [Hm _]; auto. }
  exists O, cycles. split; [done|]. split; [|exact (s_order _ _ _ _ _ HS)].
  rewrite Hc. apply NoDup_Permutation; [|done|].
  - apply list.NoDup_app. split; [apply (s_nodup _ _ _ _ _ HS)|].
    split; [|by eapply residue_nodup]. intros p Hp Hr.
    by apply (residue_elem set_iter Hiter g members Hn O w p HS) in Hr as [_ ?].
  - intros p. rewrite elem_of_app, (residue_elem set_iter Hiter g members Hn O w p HS).
    destruct (decide (p ∈ O)) as [Hp|Hp].
    + pose proof (s_sub _ _ _ _ _ HS p Hp). naive_solver.
    + naive_solver.
Qed.

(** *** The claims *)

(** C34. Deletion order is safe and nothing is lost.  For every iteration order
    of the sets, [order_children_first] returns; the ordered models and the
    members of the reported components together are exactly the members asked
    for, each once; and a model in the order is preceded by every other member
    that holds a foreign key to it. *)
Theorem order_children_first_safe set_iter g members :
  (forall s, set_iter s ≡ₚ s) -> mirrored g -> NoDup members ->
  (forall m, m ∈ members -> m ∈ dkeys (nodes g)) ->
  exists ordered cycles,
    order_children_first set_iter g members = Ok (ordered, cycles) /\
    ordered ++ concat cycles ≡ₚ members /\
    forall p c, p ∈ ordered -> depends g members p c -> before c p ordered.
Proof.
  intros H1 H2 H3 H4. destruct (order_sound set_iter g members H1 H2 H3 H4) as (O & cs & E & [Hp Hf]).
  by exists O, cs.
Qed.

Lemma order_children_first_safe_witness :
  exists ordered cycles,
    order_children_first (@rev model) sample_graph sample_members = Ok (ordered, cycles) /\
    ordered ++ concat cycles ≡ₚ sample_members /\
    forall p c, p ∈ ordered -> depends sample_graph sample_members p c -> before c p ordered.
Proof.
  apply (order_children_first_safe (@rev model) sample_graph sample_members).
  - intros s. symmetry. apply Permutation_rev.
  - exact sample_mirrored.
  - exact sample_nodup.
  - exact sample_nodes.
Defined.

(** The plan is reproducible, and the indexed walk computes what the
    layer-by-layer rescan computes.  When no two members share a qualified
    table name, any two runs over the same set of members, whatever order
    either interpreter visits its sets in, give the same order and the same
    components, and the order is the reference [layered] one. *)
Theorem order_children_first_deterministic it0 it1 g members members' :
  (forall s, it0 s ≡ₚ s) -> (forall s, it1 s ≡ₚ s) -> NoDup members -> members ≡ₚ members' ->
  (forall m, m ∈ members -> m ∈ dkeys (nodes g)) -> key_inj (node_key g) members -> mirrored g ->
  exists cycles,
    order_children_first it0 g members =
      Ok (layered g members (length members) [], cycles) /\
    order_children_first it1 g members' =
      Ok (layered g members (length members) [], cycles).
Proof.
  intros H0 H1 Hn Hp Hno Hinj Hmir.
  assert (Hn' : NoDup members') by (by rewrite <- Hp).
  assert (Hno' : forall m, m ∈ members' -> m ∈ dkeys (nodes g)) by (intros m; rewrite <- Hp; auto).
  assert (Hinj' : key_inj (node_key g) members')
    by (intros x y Hx Hy; rewrite <- Hp in Hx, Hy; auto).
  destruct (order_ok it0 H0 g members Hn Hno) as (O & w & HS & -> & HO).
  destruct (order_ok it1 H1 g members' Hn' Hno') as (O' & w' & HS' & -> & HO').
  specialize (HO Hinj). specialize (HO' Hinj').
  rewrite <- (layered_perm g members members') in HO' by done.
  rewrite <- (Permutation_length Hp) in HO'. rewrite <- HO. assert (O' = O) as -> by congruence.
  assert (Hr : residue_of w ≡ₚ residue_of w').
  { apply NoDup_Permutation; [exact (residue_nodup it0 H0 g members Hn O w HS)
      |exact (residue_nodup it1 H1 g members' Hn' O w' HS')|]. intros p.
    rewrite (residue_elem it0 H0 g members Hn O w p HS).
    by rewrite (residue_elem it1 H1 g members' Hn' O w' p HS'), Hp. }
  assert (Hsub : forall p, p ∈ residue_of w -> p ∈ members)
    by (intros p Hpr; by apply (residue_elem it0 H0 g members Hn O w p HS) in Hpr as [? _]).
  destruct (cycles_ok g (residue_of w) Hmir) with (set_iter := it0)
    as (cycles & E & _); [exact (residue_nodup it0 H0 g members Hn O w HS)|by auto|done|].
  exists cycles. rewrite <- (cycles_perm g _ _ Hr it0 it1), E; [done|done|done|].
  intros x y Hx Hy. apply Hinj; auto.
Qed.

Lemma order_children_first_deterministic_witness :
  exists cycles,
    order_children_first id sample_graph sample_members =
      Ok (layered sample_graph sample_members 6 [], cycles) /\
    order_children_first (@rev model) sample_graph [6; 4; 2; 1; 3; 5] =
      Ok (layered sample_graph sample_members 6 [], cycles).
Proof.
  apply (order_children_first_deterministic id (@rev model) sample_graph sample_members).
  - reflexivity.
  - intros s. symmetry. apply Permutation_rev.
  - exact sample_nodup.
  - apply (bool_decide_unpack (sample_members ≡ₚ [6; 4; 2; 1; 3; 5])). vm_compute. exact I.
  - exact sample_nodes.
  - exact sample_keys.
  - exact sample_mirrored.
Defined.

(** The residue is exact.  A model is left out of the order exactly when
    it belongs to a set of members each of which is referenced by another
    member of the set, as the members of a loop are; the reported components
    are such a set, each has at least two models, and each is everything that
    foreign keys inside the residue connect to one of its models. *)
Theorem order_children_first_residue set_iter g members ordered cycles :
  (forall s, set_iter s ≡ₚ s) -> mirrored g -> NoDup members ->
  (forall m, m ∈ members -> m ∈ dkeys (nodes g)) ->
  order_children_first set_iter g members = Ok (ordered, cycles) ->
  (forall p, p ∈ concat cycles -> exists c, c ∈ concat cycles /\ depends g members p c) /\
  (forall (S : list model) p, (forall q, q ∈ S -> exists c, c ∈ S /\ depends g members q c) ->
               p ∈ S -> p ∉ ordered) /\
  (forall comp, comp ∈ cycles -> (2 <= length comp)%nat /\
     exists start, forall x, x ∈ comp <-> rtc (adj g (concat cycles)) start x).
Proof.
  intros Hiter Hmir Hn Hno E.
  destruct (order_ok set_iter Hiter g members Hn Hno) as (O & w & HS & E' & _).
  destruct (cycles_ok g (residue_of w) Hmir) with (set_iter := set_iter)
    as (cycles' & Ec & Hc & Hcomp); [by eapply residue_nodup| |done|].
  { intros m Hm. apply (residue_elem set_iter Hiter g members Hn O) in Hm as [Hm _]; auto. }
  rewrite E', Ec in E. injection E as -> ->.
  assert (Hsup : forall p, p ∈ concat cycles ->
    exists c, c ∈ concat cycles /\ depends g members p c).
  { intros p Hp. setoid_rewrite Hc. rewrite Hc in Hp. by eapply residue_supported. }
  split; [exact Hsup|]. split.
  - intros S p HSup. apply (supported_not_ordered g members ordered S);
      [apply (s_nodup _ _ _ _ _ HS)|apply (s_order _ _ _ _ _ HS)|done].
  - intros comp Hin. destruct (Hcomp comp Hin) as (start & Hst & Hnd & Hx).
    assert (Hadj : forall x y, adj g (residue_of w) x y <-> adj g (concat cycles) x y)
      by (intros x y; by rewrite !adj_iff, Hc).
    split.
    + assert (Hs : start ∈ comp) by apply Hx, rtc_refl.
      destruct (Hsup start) as (c & Hcc & Hd); [by rewrite Hc|].
      assert (Hcin : c ∈ comp).
      { apply Hx, rtc_once, adj_iff. split; [by rewrite <- Hc|]. left.
        destruct Hd as (_ & _ & _ & Ho). apply snd_elem in Ho as [e Ho].
        apply snd_elem. exists e. by apply Hmir. }
      destruct Hd as (_ & _ & Hne & _). destruct comp as [|a [|b comp]]; simpl; [set_solver| |lia].
      apply list_elem_of_singleton in Hs, Hcin. congruence.
    + exists start. intros x. rewrite Hx. split; intros Hr.
      * eapply rtc_subrel; [|exact Hr]. intros; by apply Hadj.
      * eapply rtc_subrel; [|exact Hr]. intros; by apply Hadj.
Qed.

Lemma order_children_first_residue_witness :
  let cycles := [[6; 5; 4; 1]] in
  (forall p, p ∈ concat cycles ->
     exists c, c ∈ concat cycles /\ depends sample_graph sample_members p c) /\
  (forall (S : list model) p, (forall q, q ∈ S -> exists c, c ∈ S /\ depends sample_graph sample_members q c) ->
               p ∈ S -> p ∉ [3; 2]) /\
  (forall comp, comp ∈ cycles -> (2 <= length comp)%nat /\
     exists start, forall x, x ∈ comp <-> rtc (adj sample_graph (concat cycles)) start x).
Proof.
  apply (order_children_first_residue id sample_graph sample_members [3; 2] [[6; 5; 4; 1]]).
  - reflexivity.
  - exact sample_mirrored.
  - exact sample_nodup.
  - exact sample_nodes.
  - vm_compute. reflexivity.
Defined.
