(* ===== verification/PrivacyRegistry.v ===== *)
(** * Declarations: [_privacy/registry.py] and [_privacy/declare.py]

    The registry is explicit state; each declaration returns the registry it
    leaves or the refusal it raises (what a refused call had already changed is
    not tracked: a declaration error stops the application at import). [column_map] stands for the class
    attribute [__wreath_column_map__] of a model, empty for an unmapped class;
    an attribute a column object lacks is its [getattr] default. *)

From stdpp Require Import base list sets strings numbers.
From Stdlib Require Import ZArith Lia.
From S2P Require Import Prelude PyCollections PrivacyGraph.
#[local] Open Scope Z_scope.

(** ** Strings *)

(** [str.isspace] on one code point. *)
Definition is_space (c : Z) : bool :=
  ((9 <=? c) && (c <=? 13)) || ((28 <=? c) && (c <=? 32)) || (c =? 0x85) || (c =? 0xA0) ||
  (c =? 0x1680) || ((0x2000 <=? c) && (c <=? 0x200A)) || (c =? 0x2028) || (c =? 0x2029) ||
  (c =? 0x202F) || (c =? 0x205F) || (c =? 0x3000).

Fixpoint lstrip (s : pystr) : pystr :=
  match s with
  | c :: s' => if is_space c then lstrip s' else s
  | [] => []
  end.

Definition strip (s : pystr) : pystr := rev (lstrip (rev (lstrip s))).

(** [str.lower] as far as a comparison with an ASCII word can tell: the code
    points whose lower case is an ASCII letter are [A-Z] and the Kelvin sign. *)
Definition lower_char (c : Z) : Z :=
  if (65 <=? c) && (c <=? 90) then c + 32 else if c =? 0x212A then 107 else c.
Definition lower (s : pystr) : pystr := map lower_char s.

Fixpoint is_prefix (p s : pystr) : bool :=
  match p, s with
  | [], _ => true
  | a :: p, b :: s => (a =? b) && is_prefix p s
  | _ :: _, [] => false
  end.

(** [sub in s]. *)
Fixpoint is_infix (sub s : pystr) : bool :=
  is_prefix sub s || match s with [] => false | _ :: s => is_infix sub s end.

(** ** Vocabulary of [_privacy/model.py] *)

Definition ERASE_NULL : pystr := bs "null".
Definition ERASE_REDACT : pystr := bs "redact".
Definition ERASE_RETAIN : pystr := bs "retain".
Definition _ERASE_VALUES : list pystr := [ERASE_NULL; ERASE_REDACT; ERASE_RETAIN].

(** The object given to [Pseudonymise]: one whose [.reason] is a string, or
    anything else, with its [str()]. *)
Inductive reason_value : Type :=
| Declared (reason : pystr)
| Undeclared (shown : pystr).

Record Pseudonymise : Type := mkPseudonymise { p_reason : reason_value }.

Definition pseudonymise_text (p : Pseudonymise) : pystr :=
  match p_reason p with Declared s => s | Undeclared s => s end.

(** What a caller may pass as a disposition, and what is stored. *)
Inductive disposition : Type :=
| DStr (s : pystr)
| DPseudonymise (p : Pseudonymise)
| DOther.

(** What a caller may pass as [exempt=]: an object is given by its [.reason]
    when that is a string. *)
Inductive exempt_value : Type :=
| ExNone
| ExStr (s : pystr)
| ExObject (reason : option pystr).

#[global] Instance reason_value_eq_dec : EqDecision reason_value.
Proof. solve_decision. Defined.
#[global] Instance Pseudonymise_eq_dec : EqDecision Pseudonymise.
Proof. solve_decision. Defined.
#[global] Instance disposition_eq_dec : EqDecision disposition.
Proof. solve_decision. Defined.
#[global] Instance exempt_value_eq_dec : EqDecision exempt_value.
Proof. solve_decision. Defined.

Inductive fault : Type :=
| SecondSubject | UnknownColumn | PseudonymNeedsReason | NotADisposition | NotErasure
| UnknownDisposition | NullPrimaryKey | NullNotNullable | RedactNotText
| ExemptNeedsReason | ExemptAndDelete | RetentionNotPositive | RetentionNotIndexed
| TwoSubjects | TwoPersonal | Unresolved | MarkerNotMapped | MetadataFuel.

Definition _PSEUDONYM_SPELLINGS : list pystr :=
  [bs "hash"; bs "hashed"; bs "sha256"; bs "mask"; bs "tokenize"; bs "tokenise";
   bs "anonymise"; bs "anonymize"; bs "pseudonymise"; bs "pseudonymize"].

(** ** The registry *)

Record Classification : Type := mkClassification {
  cl_model : model;
  cl_subject : option pystr;
  cl_personal : list (pystr * disposition);
  cl_delete : bool;
  cl_exempt : option pystr;
}.

(** A number passed as [after=]: [PyOtherNumber] is a [bool] or no number. *)
Inductive pyfloat : Type := Finite (mantissa exponent : Z) | PosInf | NegInf | NaN.
Inductive pynum : Type := PyInt (n : Z) | PyFloat (f : pyfloat) | PyOtherNumber.

Record Retention : Type := mkRetention {
  rt_model : model;
  rt_after : pynum;
  rt_on : pystr;
  rt_reason : pystr;
}.

Record PrivacyRegistry : Type := mkRegistry {
  subject_model : option model;
  subject_key : pystr;
  subject_delete : bool;
  classifications : list (model * Classification);
  retentions : list (model * Retention);
}.

Definition empty_registry : PrivacyRegistry := mkRegistry None [] false [] [].

(** The attributes of a column object that the checks read. *)
Record ColumnAttrs : Type := mkAttrs {
  at_type_name : pystr;
  at_nullable : bool;
  at_primary_key : bool;
  at_indexed : bool;
}.

(** [any(token in name for token in (...))]. *)
Definition textual_name (name : pystr) : bool :=
  existsb (fun token => is_infix token name) [bs "text"; bs "char"; bs "citext"; bs "json"].

(** [not (after <= 0)] for a number. *)
Definition after_positive (a : pynum) : bool :=
  match a with
  | PyInt n => 0 <? n
  | PyFloat (Finite m _) => 0 <? m
  | PyFloat PosInf => true
  | PyFloat NegInf => false
  | PyFloat NaN => true
  | PyOtherNumber => false
  end.

Section registry.
Context (column_map : model -> list (pystr * ColumnAttrs)).

Definition _column (m : model) (name : pystr) : option ColumnAttrs := dget (column_map m) name.

Definition _require_column (m : model) (column : pystr) : res fault unit :=
  match column_map m with
  | [] => Ok tt
  | mapping => if dmem mapping column then Ok tt else Err UnknownColumn
  end.

Definition _require_textual (m : model) (column : pystr) : res fault unit :=
  let name := lower (match _column m column with Some a => at_type_name a | None => [] end) in
  if decide (name = []) then Ok tt
  else if textual_name name then Ok tt
  else Err RedactNotText.

Definition _require_nullable (m : model) (column : pystr) : res fault unit :=
  let item := _column m column in
  if match item with Some a => at_primary_key a | None => false end then Err NullPrimaryKey
  else if negb (match item with Some a => at_nullable a | None => true end)
  then Err NullNotNullable
  else Ok tt.

Definition _check_disposition (m : model) (column : pystr) (d : disposition)
    : res fault disposition :=
  match d with
  | DPseudonymise p =>
    match p_reason p with
    | Declared _ => Ok d
    | Undeclared _ => Err PseudonymNeedsReason
    end
  | DOther => Err NotADisposition
  | DStr value =>
    let lowered := lower (strip value) in
    if decide (lowered ∈ _PSEUDONYM_SPELLINGS) then Err NotErasure
    else if decide (lowered ∉ _ERASE_VALUES) then Err UnknownDisposition
    else
      let! _ := (if decide (lowered = ERASE_NULL) then _require_nullable m column else Ok tt) in
      let! _ := (if decide (lowered = ERASE_REDACT) then _require_textual m column else Ok tt) in
      Ok (DStr lowered)
  end.

Definition _check_exemption (exempt : exempt_value) : res fault (option pystr) :=
  match exempt with
  | ExNone => Ok None
  | ExStr s | ExObject (Some s) =>
    if decide (strip s = []) then Err ExemptNeedsReason else Ok (Some s)
  | ExObject None => Err ExemptNeedsReason
  end.

(** [PrivacyRegistry.subject]. *)
Definition subject (reg : PrivacyRegistry) (m : model) (key : pystr) (delete : bool)
    : res fault PrivacyRegistry :=
  if decide (subject_model reg <> None /\ subject_model reg <> Some m) then Err SecondSubject
  else
    let! _ := _require_column m key in
    Ok (mkRegistry (Some m) key delete (classifications reg) (retentions reg)).

(** The loop of [classify] over the declared columns. *)
Fixpoint check_columns (m : model) (columns checked : list (pystr * disposition))
    : res fault (list (pystr * disposition)) :=
  match columns with
  | [] => Ok checked
  | (column, d) :: columns =>
    let! _ := _require_column m column in
    let! d := _check_disposition m column d in
    check_columns m columns (dset checked column d)
  end.

(** [PrivacyRegistry.classify]. *)
Definition classify (reg : PrivacyRegistry) (m : model) (subj : option pystr)
    (personal : list (pystr * disposition)) (delete : bool) (exempt : exempt_value)
    : res fault PrivacyRegistry :=
  let! _ := (match subj with Some s => _require_column m s | None => Ok tt end) in
  let! checked := check_columns m personal [] in
  let! reason := _check_exemption exempt in
  if decide (reason <> None /\ checked <> [] /\ delete = true) then Err ExemptAndDelete
  else
    Ok (mkRegistry (subject_model reg) (subject_key reg) (subject_delete reg)
          (dset (classifications reg) m (mkClassification m subj checked delete reason))
          (retentions reg)).

(** [PrivacyRegistry.retain]; the stored window is the number before its
    conversion to [float]. *)
Definition retain (reg : PrivacyRegistry) (m : model) (after : pynum) (on reason : pystr)
    : res fault PrivacyRegistry :=
  if negb (after_positive after) then Err RetentionNotPositive
  else
    let! _ := _require_column m on in
    if match _column m on with
       | Some a => negb (at_indexed a) && negb (at_primary_key a)
       | None => false
       end
    then Err RetentionNotIndexed
    else
      Ok (mkRegistry (subject_model reg) (subject_key reg) (subject_delete reg)
            (classifications reg)
            (dset (retentions reg) m (mkRetention m after on reason))).

(** [personal_names], as the list of additions to the set. *)
Definition personal_names (reg : PrivacyRegistry) : list pystr :=
  remove_dups
    (concat (map (fun '(_, item) =>
       dkeys (cl_personal item) ++
       match cl_subject item with Some (c :: s) => [c :: s] | _ => [] end)
       (classifications reg)) ++
     match subject_model reg, subject_key reg with
     | Some _, c :: s => [c :: s]
     | _, _ => []
     end).

(** ** [declare.py] *)

(** An [Annotated] extra: the two markers, or something else. *)
Inductive extra : Type :=
| Subject (root delete : bool)
| Personal (erase : disposition)
| OtherExtra.

(** A type expression: [Annotated[origin, *metadata]], or any other with its
    [typing.get_args]. *)
Inductive hint : Type :=
| HAnnotated (metadata : list extra) (origin : hint)
| HOther (args : list hint).

Fixpoint hint_size (h : hint) : nat :=
  match h with
  | HAnnotated _ o => S (hint_size o)
  | HOther args => S ((fix sizes l := match l with [] => 0 | h :: l => hint_size h + sizes l end)%nat args)
  end.

(** The [while stack] of [_metadata]; the stack is read from its end. *)
Fixpoint metadata_loop (fuel : nat) (stack : list hint) (found : list extra)
    : res fault (list extra) :=
  match stack with
  | [] => Ok found
  | h :: stack =>
    match fuel with
    | O => Err MetadataFuel
    | S fuel =>
      match h with
      | HAnnotated ((_ :: _) as extras) origin =>
        metadata_loop fuel (origin :: stack) (found ++ extras)
      | HAnnotated [] origin => metadata_loop fuel (origin :: stack) found
      | HOther args => metadata_loop fuel (rev args ++ stack) found
      end
    end
  end.

Definition _metadata (h : hint) : res fault (list extra) := metadata_loop (hint_size h) [h] [].

(** The facet [classified(...)] attaches. *)
Record Classified : Type := mkClassified { f_delete : bool; f_exempt : exempt_value }.

(** What reflection finds on a class: its resolved hints in order, or a name
    that cannot be resolved, and its privacy facet. *)
Record class_info : Type := mkClass {
  ci_hints : option (list (pystr * hint));
  ci_facet : option Classified;
}.

Definition is_marker (e : extra) : bool :=
  match e with OtherExtra => false | _ => true end.

Fixpoint markers_loop (m : model) (hints : list (pystr * hint)) (found : list (pystr * extra))
    : res fault (list (pystr * extra)) :=
  match hints with
  | [] => Ok found
  | (name, h) :: hints =>
    let! extras := _metadata h in
    match base.filter (fun e => is_marker e = true) extras with
    | [] => markers_loop m hints found
    | markers =>
      if dmem (column_map m) name
      then markers_loop m hints (found ++ map (fun e => (name, e)) markers)
      else Err MarkerNotMapped
    end
  end.

Definition _markers (m : model) (info : class_info) : res fault (list (pystr * extra)) :=
  match ci_hints info with
  | None => Err Unresolved
  | Some hints => markers_loop m hints []
  end.

(** The loop of [declare_model]: the subject marker with its column, and the
    personal columns. *)
Fixpoint collect_markers (markers : list (pystr * extra))
    (subj : option (pystr * (bool * bool))) (personal : list (pystr * disposition))
    : res fault (option (pystr * (bool * bool)) * list (pystr * disposition)) :=
  match markers with
  | [] => Ok (subj, personal)
  | (name, Subject root delete) :: markers =>
    match subj with
    | Some _ => Err TwoSubjects
    | None => collect_markers markers (Some (name, (root, delete))) personal
    end
  | (name, Personal erase) :: markers =>
    if dmem personal name then Err TwoPersonal
    else collect_markers markers subj (dset personal name erase)
  | (_, OtherExtra) :: markers => collect_markers markers subj personal
  end.

Definition declare_model (reg : PrivacyRegistry) (m : model) (info : class_info)
    : res fault (PrivacyRegistry * bool) :=
  let! markers := _markers m info in
  if decide (markers = [] /\ ci_facet info = None) then Ok (reg, false)
  else
    let! (subj, personal) := collect_markers markers None [] in
    let delete := match ci_facet info with Some f => f_delete f | None => false end in
    let exempt := match ci_facet info with Some f => f_exempt f | None => ExNone end in
    match subj with
    | Some (column, (true, sdelete)) =>
      let! reg := subject reg m column sdelete in
      if decide (personal = [] /\ delete = false /\ exempt = ExNone) then Ok (reg, true)
      else
        let! reg := classify reg m None personal delete exempt in
        Ok (reg, true)
    | Some (column, (false, sdelete)) =>
      let! reg := classify reg m (Some column) personal (delete || sdelete) exempt in
      Ok (reg, true)
    | None =>
      let! reg := classify reg m None personal delete exempt in
      Ok (reg, true)
    end.

Fixpoint declare_registry (reg : PrivacyRegistry) (specs : list (model * class_info))
    (found : Z) : res fault (PrivacyRegistry * Z) :=
  match specs with
  | [] => Ok (reg, found)
  | (m, info) :: specs =>
    let! (reg, declared) := declare_model reg m info in
    declare_registry reg specs (found + if declared then 1 else 0)
  end.
End registry.
