(* ===== verification/PrivacyPlanner.v ===== *)
(** * The erasure planner: [_privacy/planner.py] and the plan of [model.py]

    The whole of [build_plan] with its findings and notes, and the export plan
    derived from it.  [class_name] is the [__name__] of a class that the ORM
    registry does not compile.  The digest of a plan (JSON and BLAKE2b) is not
    modelled. *)

From Stdlib Require DecimalString.
From stdpp Require Import base list sets strings numbers.
From Stdlib Require Import ZArith Lia.
From S2P Require Import Prelude PyCollections PrivacyGraph PrivacyRegistry.
#[local] Open Scope Z_scope.

(** ** The plan *)

Inductive Disposal : Type := DELETE | ANONYMISE | RETAIN | CASCADE.

Definition disposal_value (d : Disposal) : pystr :=
  match d with
  | DELETE => bs "delete"
  | ANONYMISE => bs "anonymise"
  | RETAIN => bs "retain"
  | CASCADE => bs "cascade"
  end.

#[global] Instance Disposal_eq_dec : EqDecision Disposal.
Proof. solve_decision. Defined.

Record ColumnAction : Type := mkColumnAction {
  ca_column : pystr;
  ca_erase : pystr;
  ca_pseudonym_reason : option pystr;
  ca_note : pystr;
}.

Definition irreversible (c : ColumnAction) : bool :=
  bool_decide (ca_erase c = ERASE_NULL \/ ca_erase c = ERASE_REDACT).

Record TableAction : Type := mkTableAction {
  ta_model : pystr;
  ta_schema : pystr;
  ta_table : pystr;
  ta_disposal : pystr;
  ta_reach : Reach;
  ta_columns : list ColumnAction;
  ta_match_column : pystr;
  ta_reason : pystr;
  ta_order : Z;
}.

Record Retained : Type := mkRetained {
  re_model : pystr;
  re_schema : pystr;
  re_table : pystr;
  re_reason : pystr;
  re_reach : Reach;
}.

Record Unreachable : Type := mkUnreachable {
  un_model : pystr;
  un_schema : pystr;
  un_table : pystr;
  un_columns : list pystr;
  un_reason : pystr;
}.

Record OrphanRisk : Type := mkOrphan { or_edge : Edge; or_detail : pystr }.
Record SurvivingReference : Type := mkSurviving { sv_edge : Edge; sv_detail : pystr }.

Record CycleFinding : Type := mkCycle {
  cy_tables : list pystr;
  cy_deferrable : bool;
  cy_detail : pystr;
}.

Record ErasurePlan : Type := mkPlan {
  pl_subject_model : pystr;
  pl_subject_column : pystr;
  pl_subject_id : pystr;
  pl_tables : list TableAction;
  pl_retained : list Retained;
  pl_unreachable : list Unreachable;
  pl_orphan_risks : list OrphanRisk;
  pl_cycles : list CycleFinding;
  pl_surviving : list SurvivingReference;
  pl_notes : list pystr;
}.

Definition nonempty {A} (l : list A) : bool := match l with [] => false | _ => true end.

Definition blocked (p : ErasurePlan) : bool :=
  nonempty (pl_unreachable p) || nonempty (pl_surviving p) ||
  existsb (fun c => negb (cy_deferrable c)) (pl_cycles p).

Record ExportPlan : Type := mkExport {
  ex_subject_model : pystr;
  ex_subject_column : pystr;
  ex_subject_id : pystr;
  ex_tables : list TableAction;
  ex_withheld : list Retained;
  ex_unreachable : list Unreachable;
}.

(** ** The planner *)

(** [on_delete] codes. *)
Definition _ORPHANING : list pystr := [bs "n"; bs "d"].
Definition _BLOCKING : list pystr := [bs "a"; bs "r"].

Definition str_of_nat (n : nat) : pystr := bs (DecimalString.NilZero.string_of_uint (Nat.to_uint n)).

Definition node_at (g : Graph) (m : model) : res perr Node :=
  match dget (nodes g) m with Some n => Ok n | None => Err KeyError end.

(** [[f(x) for x in l]] with a fallible [f]. *)
Fixpoint traverse {A B} (f : A -> res perr B) (l : list A) : res perr (list B) :=
  match l with
  | [] => Ok []
  | x :: l => let! y := f x in let! ys := traverse f l in Ok (y :: ys)
  end.

Definition item_of : Type := option Classification.

Definition _column_actions (item : item_of) : list ColumnAction :=
  match item with
  | None => []
  | Some item =>
    map (fun column =>
      match dget (cl_personal item) column with
      | Some (DPseudonymise p) =>
        mkColumnAction column (bs "pseudonymise") (Some (pseudonymise_text p))
          (bs "still personal data: the subject remains distinguishable")
      | Some (DStr s) => mkColumnAction column s None []
      | _ => mkColumnAction column [] None []
      end) (sorted_by id (dkeys (cl_personal item)))
  end.

Definition _root_deleted (reg : PrivacyRegistry) : bool := subject_delete reg.

Definition last_edge (r : Reach) : option Edge := list.last (path r).

Definition _disposal (m : model) (item : item_of) (reach : Reach) (reg : PrivacyRegistry)
    (root : model) : Disposal :=
  if decide (m = root) then if subject_delete reg then DELETE else ANONYMISE
  else if match item with Some i => cl_delete i | None => false end then DELETE
  else if match last_edge reach with
          | Some e => bool_decide (on_delete e = bs "c") && _root_deleted reg
          | None => false
          end then CASCADE
  else ANONYMISE.

Definition _match_column (reach : Reach) (reg : PrivacyRegistry) (root m : model) : pystr :=
  if decide (m = root) then subject_key reg
  else match dget (classifications reg) m with
       | Some (mkClassification _ (Some (c :: s)) _ _ _) => c :: s
       | _ => match last_edge reach with Some e => from_column e | None => [] end
       end.

Definition _reason (d : Disposal) (item : item_of) (reach : Reach) : pystr :=
  match d with
  | CASCADE => bs "removed by the parent's ON DELETE CASCADE"
  | DELETE => bs "the row exists only as the subject's data"
  | _ =>
    match item with
    | Some (mkClassification _ _ [] _ _) => bs "reached, with no personal columns declared"
    | _ => bs "reached " ++ reach_explain reach
    end
  end.

(** The loop of [build_plan] over the reachable models: the retained tables
    and the actionable ones. *)
Fixpoint split_reachable (g : Graph) (reg : PrivacyRegistry) (root : model)
    (reachable : list (model * Reach)) (retained : list Retained)
    (actionable : list (model * (Reach * item_of)))
    : res perr (list Retained * list (model * (Reach * item_of))) :=
  match reachable with
  | [] => Ok (retained, actionable)
  | (m, reach) :: reachable =>
    match dget (classifications reg) m with
    | None =>
      split_reachable g reg root reachable retained
        (if decide (m = root) then dset actionable m (reach, None) else actionable)
    | Some item =>
      match cl_exempt item with
      | Some reason =>
        let! node := node_at g m in
        split_reachable g reg root reachable
          (retained ++ [mkRetained (n_label node) (n_schema node) (n_table node) reason reach])
          actionable
      | None => split_reachable g reg root reachable retained (dset actionable m (reach, Some item))
      end
    end
  end.

(** [enumerate(l, start)]. *)
Fixpoint enumerate {A} (start : Z) (l : list A) : list (Z * A) :=
  match l with
  | [] => []
  | x :: l => (start, x) :: enumerate (start + 1) l
  end.

Definition table_action (g : Graph) (reg : PrivacyRegistry)
    (actionable : list (model * (Reach * item_of))) (root : model) (entry : Z * model)
    : res perr TableAction :=
  let '(index, m) := entry in
  match dget actionable m with
  | None => Err KeyError
  | Some (reach, item) =>
    let! node := node_at g m in
    let disposal := _disposal m item reach reg root in
    Ok (mkTableAction (n_label node) (n_schema node) (n_table node) (disposal_value disposal)
          reach (_column_actions item) (_match_column reach reg root m)
          (_reason disposal item reach) index)
  end.

(** The (schema, table) pairs of the rows a plan removes. *)
Definition removed_tables (tables : list TableAction) : list (pystr * pystr) :=
  map (fun a => (ta_schema a, ta_table a))
    (base.filter (fun a => ta_disposal a = disposal_value DELETE \/
                           ta_disposal a = disposal_value CASCADE) tables).

Definition orphan_detail (e : Edge) : pystr :=
  bs "deleting " ++ to_table e ++ bs " sets " ++ from_table e ++ bs "." ++ from_column e ++
  bs " to " ++ (if decide (on_delete e = bs "n") then bs "NULL" else bs "its default") ++
  bs "; the child row survives holding the subject's data and can never be found again. This plan orders the child first".

Definition orphans_of (g : Graph) (deleting : list (pystr * pystr)) (m : model)
    : res perr (list OrphanRisk) :=
  let! found := traverse (fun '(edge, parent) =>
    if decide (on_delete edge ∉ _ORPHANING) then Ok []
    else
      let! node := node_at g parent in
      if decide ((n_schema node, n_table node) ∉ deleting) then Ok []
      else Ok [mkOrphan edge (orphan_detail edge)]) (outbound_of g m) in
  Ok (concat found).

Definition _orphan_risks (g : Graph) (actionable : list (model * (Reach * item_of)))
    (tables : list TableAction) : res perr (list OrphanRisk) :=
  let! models := sorted_nodes g (dkeys actionable) in
  let! found := traverse (orphans_of g (removed_tables tables)) models in
  Ok (concat found).

Definition surviving_detail (e : Edge) : pystr :=
  from_table e ++ bs " rows survive this erasure and still reference " ++ to_table e ++
  bs ", whose rows it deletes. The foreign key is ON DELETE NO ACTION or RESTRICT, so the database refuses the delete and the erasure stops half-way. Delete these rows too, make the edge ON DELETE CASCADE or SET NULL, or stop deleting the parent".

Definition survivors_of (g : Graph) (removed : list (pystr * pystr)) (m : model)
    : res perr (list SurvivingReference) :=
  let! node := node_at g m in
  if decide ((n_schema node, n_table node) ∈ removed) then Ok []
  else
    let! found := traverse (fun '(edge, parent) =>
      let! pnode := node_at g parent in
      if decide ((n_schema pnode, n_table pnode) ∉ removed) then Ok []
      else if decide (on_delete edge ∉ _BLOCKING) then Ok []
      else Ok [mkSurviving edge (surviving_detail edge)]) (outbound_of g m) in
    Ok (concat found).

Definition _surviving_references (g : Graph) (tables : list TableAction)
    : res perr (list SurvivingReference) :=
  let! models := sorted_nodes g (dkeys (nodes g)) in
  let! found := traverse (survivors_of g (removed_tables tables)) models in
  Ok (concat found).

Definition cycle_edges (g : Graph) (group : list model) : list Edge :=
  concat (map (fun m =>
    map fst (base.filter (fun p => snd p ∈ group) (outbound_of g m))) group).

Definition _cycle_findings (g : Graph) (groups : list (list model))
    : res perr (list CycleFinding) :=
  traverse (fun group =>
    let edges := cycle_edges g group in
    let defer := nonempty edges && forallb deferrable edges in
    let! nds := traverse (node_at g) group in
    Ok (mkCycle (map qualified nds) defer
      (if defer
       then bs "every foreign key in the loop is DEFERRABLE, so one transaction can carry the deletes"
       else bs "no ordering of plain deletes exists; make one of the foreign keys DEFERRABLE, or null an edge before deleting")))
    groups.

Definition NOT_COMPILED : pystr :=
  bs "not compiled into this ORM registry, so the plan cannot see its table or its foreign keys".
Definition NO_PATH : pystr :=
  bs "no foreign-key path from the subject reaches this table. Declare subject= on the column that identifies the subject, add the missing foreign key, or record that these rows are not the subject's".

(** [_notes]. *)
Definition note_if (b : bool) (text : pystr) : list pystr := if b then [text] else [].

Definition pseudonymised (tables : list TableAction) : list pystr :=
  concat (map (fun a =>
    map (fun c => ta_table a ++ bs "." ++ ca_column c)
      (base.filter (fun c => ca_erase c = bs "pseudonymise") (ta_columns a))) tables).

Definition _notes (tables : list TableAction) (retained : list Retained)
    (unreachable : list Unreachable) (cycles : list CycleFinding) (orphans : list OrphanRisk)
    (surviving : list SurvivingReference) : list pystr :=
  [bs "Backups are out of scope. This plan covers live tables only; a restore from a backup taken before the erasure reinstates the data, which is why the erasure record is retained so a restore can replay it."] ++
  note_if (nonempty (pseudonymised tables))
    (bs "Pseudonymised, not erased: " ++ str_join (bs ", ") (pseudonymised tables) ++
     bs ". These remain personal data and the subject is still distinguishable in them.") ++
  note_if (nonempty retained)
    (str_of_nat (length retained) ++
     bs " table(s) retain the subject's data under a written exemption; each reason is printed above.") ++
  note_if (nonempty unreachable)
    (bs "BLOCKED: " ++ str_of_nat (length unreachable) ++
     bs " classified table(s) hold personal data this traversal cannot reach. Erasure refuses to run until each is resolved.") ++
  note_if (existsb (fun c => negb (cy_deferrable c)) cycles)
    (bs "BLOCKED: a foreign-key cycle admits no ordering of plain deletes.") ++
  note_if (nonempty surviving)
    (bs "BLOCKED: " ++ str_of_nat (length surviving) ++
     bs " foreign key(s) point at rows this plan deletes from rows it keeps. The database would refuse the delete and the erasure would stop half-way.") ++
  note_if (nonempty orphans)
    (str_of_nat (length orphans) ++
     bs " edge(s) would orphan personal data if the parent went first; the plan orders the child before the parent.").

Section planner.
Context (set_iter : list model -> list model) (class_name : model -> pystr).

Definition _table_actions (g : Graph) (reg : PrivacyRegistry)
    (actionable : list (model * (Reach * item_of))) (ordered : list model) (root : model)
    : res perr (list TableAction) :=
  let! rest := sorted_nodes g
    (set_iter (base.filter (fun m => m ∉ ordered) (dkeys actionable))) in
  traverse (table_action g reg actionable root) (enumerate 0 (ordered ++ rest)).

Definition unreachable_item (g : Graph) (reachable : list (model * Reach))
    (entry : model * Classification) : list Unreachable :=
  let '(m, item) := entry in
  if dmem reachable m || negb (nonempty (cl_personal item)) then []
  else
    let columns := sorted_by id (dkeys (cl_personal item)) in
    match dget (nodes g) m with
    | None => [mkUnreachable (class_name m) [] [] columns NOT_COMPILED]
    | Some node => [mkUnreachable (n_label node) (n_schema node) (n_table node) columns NO_PATH]
    end.

Definition _unreachable (g : Graph) (reg : PrivacyRegistry) (reachable : list (model * Reach))
    : list Unreachable :=
  sorted_by (fun u => [un_schema u; un_table u; un_model u])
    (concat (map (unreachable_item g reachable) (classifications reg))).

Definition build_plan (reg : PrivacyRegistry) (specs : list ModelSpec) (subject_id : pystr)
    : res perr ErasurePlan :=
  match subject_model reg with
  | None => Err ValueError
  | Some root =>
    let! g := build_graph specs in
    match dget (nodes g) root with
    | None => Err ValueError
    | Some root_node =>
      let! reachable := reachable_from g root in
      let! (retained, actionable) := split_reachable g reg root reachable [] [] in
      let! (ordered, groups) := order_children_first set_iter g (dkeys actionable) in
      let! tables := _table_actions g reg actionable ordered root in
      let! cycles := _cycle_findings g groups in
      let! orphans := _orphan_risks g actionable tables in
      let! surviving := _surviving_references g tables in
      let unreachable := _unreachable g reg reachable in
      Ok (mkPlan (n_label root_node) (subject_key reg) subject_id tables retained unreachable
            orphans cycles surviving
            (_notes tables retained unreachable cycles orphans surviving))
    end
  end.

Definition build_export_plan (reg : PrivacyRegistry) (specs : list ModelSpec)
    (subject_id : pystr) : res perr ExportPlan :=
  let! plan := build_plan reg specs subject_id in
  Ok (mkExport (pl_subject_model plan) (pl_subject_column plan) (pl_subject_id plan)
        (pl_tables plan) (pl_retained plan) (pl_unreachable plan)).
End planner.
