(* ===== verification/PrivacyPlanFacts.v ===== *)
(** * What an erasure plan guarantees

    The stages of [build_plan] never miss a key on the graph [build_graph]
    compiles, so a plan comes out whenever a compiled subject is declared; the
    findings are exact; and no declared personal column is silently left out. *)

From stdpp Require Import base sets strings numbers relations list gmap.
From Stdlib Require Import ZArith Lia.
From S2P Require Import Prelude PyCollections PrivacyGraph PrivacyOrderFacts PrivacyOrderClaims PrivacyRegistry PrivacyPlanner.
#[local] Open Scope Z_scope.

(** ** Traversal *)

Lemma traverse_ok {A B} (f : A -> res perr B) l :
  (forall x, x ∈ l -> exists y, f x = Ok y) ->
  exists ys, traverse f l = Ok ys /\ Forall2 (fun x y => f x = Ok y) l ys.
Proof.
  induction l as [|x l IH]; intros H; simpl; [by exists []|].
  destruct (H x) as [y Ey]; [set_solver|]. rewrite Ey. cbn [res_bind].
  destruct IH as (ys & -> & Hys); [set_solver|]. exists (y :: ys). split; [done|].
  by constructor.
Qed.

Lemma traverse_Forall2 {A B} (f : A -> res perr B) l ys :
  traverse f l = Ok ys -> Forall2 (fun x y => f x = Ok y) l ys.
Proof.
  revert ys. induction l as [|x l IH]; intros ys; simpl; [by intros [= <-]|].
  destruct (f x) as [y|] eqn:Ey; [|done]. cbn [res_bind].
  destruct (traverse f l) as [ys'|]; [|done]. intros [= <-]. constructor; auto.
Qed.

(** [concat] of a traversal, by element. *)
Lemma traverse_concat {A B} (f : A -> res perr (list B)) l yss b :
  traverse f l = Ok yss -> b ∈ concat yss <-> exists x ys, x ∈ l /\ f x = Ok ys /\ b ∈ ys.
Proof.
  intros H. apply traverse_Forall2 in H. induction H as [|x ys l yss Hx _ IH]; simpl.
  - set_solver.
  - rewrite elem_of_app, IH. setoid_rewrite elem_of_cons. split.
    + intros [Hb|(x' & ys' & Hx' & E & Hb)]; [by exists x, ys; auto|].
      exists x', ys'. auto.
    + intros (x' & ys' & [->|Hx'] & E & Hb); [left; congruence|]. right. eauto.
Qed.

(** Reduce totality of a traversal to its elements. *)
Ltac traverse_total :=
  match goal with
  | |- context [traverse ?f ?l] =>
    let ys := fresh "ys" in
    destruct (traverse_ok f l) as (ys & -> & _); [|cbn [res_bind]; by eauto]
  end.

(** ** Graphs whose edges join compiled models *)

Record graph_ok (g : Graph) : Prop := {
  go_mirror : mirrored g;
  go_nodup : NoDup (dkeys (nodes g));
  go_out e c p : (e, p) ∈ outbound_of g c -> c ∈ dkeys (nodes g) /\ p ∈ dkeys (nodes g);
}.

Lemma build_graph_graph_ok specs g : build_graph specs = Ok g -> graph_ok g.
Proof.
  intros E. destruct (decide (specs = [])) as [->|Hne]; [done|].
  destruct (build_graph_ok specs Hne) as (g' & E' & Hn & H1 & H2). rewrite E in E'.
  injection E' as <-. split.
  - by eapply build_graph_mirrored.
  - rewrite Hn. apply nodes_of_nodup.
  - intros e c p Hin. rewrite Hn. apply (declared_nodes specs e), H1, Hin.
Qed.

Section stages.
Context (g : Graph) (Hg : graph_ok g).

Lemma node_at_ok m : m ∈ dkeys (nodes g) -> exists n, node_at g m = Ok n.
Proof. intros Hm. apply dget_keys in Hm as [n E]. unfold node_at. rewrite E. eauto. Qed.

Lemma sorted_nodes_total l :
  (forall m, m ∈ l -> m ∈ dkeys (nodes g)) -> sorted_nodes g l = Ok (sorted_by (node_key g) l).
Proof. intros Hl. by apply (sorted_nodes_ok g l). Qed.

Lemma walk_nodes root p m : root ∈ dkeys (nodes g) -> walk g root p m -> m ∈ dkeys (nodes g).
Proof.
  intros Hr Hw. destruct Hw as [|p m e c _ Hin]; [done|].
  apply (go_mirror g Hg) in Hin. by apply (go_out g Hg) in Hin as [? _].
Qed.

Lemma reachable_nodes root found m :
  root ∈ dkeys (nodes g) -> reachable_from g root = Ok found -> m ∈ dkeys found ->
  m ∈ dkeys (nodes g).
Proof.
  intros Hr E Hm. destruct (reachable_from_ok g root) as (found' & E' & Hsp).
  rewrite E in E'. injection E' as <-. apply dget_keys in Hm as [r Hm].
  eapply walk_nodes; [done|]. by eapply sp_walk.
Qed.

(** *** The split of the reachable models *)

Section split.
Context (reg : PrivacyRegistry) (root : model).

(** What one reachable model adds to either list. *)
Definition act_entry (e : model * Reach) : option (model * (Reach * item_of)) :=
  let '(m, reach) := e in
  match dget (classifications reg) m with
  | None => if decide (m = root) then Some (m, (reach, None)) else None
  | Some item =>
    match cl_exempt item with None => Some (m, (reach, Some item)) | Some _ => None end
  end.

Definition retained_entry (e : model * Reach) : option Retained :=
  let '(m, reach) := e in
  match dget (classifications reg) m, dget (nodes g) m with
  | Some item, Some node =>
    match cl_exempt item with
    | Some reason =>
      Some (mkRetained (n_label node) (n_schema node) (n_table node) reason reach)
    | None => None
    end
  | _, _ => None
  end.

Lemma split_reachable_eq reachable retained act :
  NoDup (dkeys act ++ dkeys reachable) ->
  (forall m, m ∈ dkeys reachable -> m ∈ dkeys (nodes g)) ->
  split_reachable g reg root reachable retained act =
    Ok (retained ++ omap retained_entry reachable, act ++ omap act_entry reachable).
Proof.
  revert retained act. induction reachable as [|[m reach] l IH]; intros retained act Hnd Hno.
  { simpl. by rewrite !app_nil_r. }
  cbn [dkeys map fst] in Hnd, Hno. change (map fst l) with (dkeys l) in *.
  assert (Hf : m ∉ dkeys act).
  { apply NoDup_app in Hnd as (_ & H1 & _). intros Hm. apply (H1 m Hm). set_solver. }
  assert (Hdrop : NoDup (dkeys act ++ dkeys l)).
  { rewrite <- Permutation_middle in Hnd. by apply NoDup_cons in Hnd as [_ ?]. }
  assert (Hset : forall v, NoDup (dkeys (act ++ [(m, v)]) ++ dkeys l)).
  { intros v. rewrite dkeys_app, <- app_assoc. done. }
  destruct (dget (nodes g) m) as [node|] eqn:En.
  2: { apply dget_none_keys in En. set_solver. }
  cbn [split_reachable omap list_omap retained_entry act_entry]. rewrite En.
  unfold node_at. rewrite En.
  destruct (dget (classifications reg) m) as [item|]; [destruct (cl_exempt item)|case_decide];
    cbn [res_bind]; rewrite ?dset_fresh by done; rewrite IH, <- ?app_assoc by (done || set_solver || apply Hset); done.
Qed.

Lemma act_entry_key e x : act_entry e = Some x -> fst x = fst e.
Proof.
  destruct e as [m reach]. simpl. repeat case_match; intros [= <-]; done.
Qed.

Lemma omap_keys l : NoDup (dkeys l) -> NoDup (dkeys (omap act_entry l)).
Proof.
  induction l as [|e l IH]; simpl; intros Hn; [constructor|].
  apply NoDup_cons in Hn as [He Hn]. destruct (act_entry e) as [x|] eqn:E; [|by apply IH].
  simpl. apply NoDup_cons. split; [|by apply IH]. intros Hin. apply He.
  apply list_elem_of_fmap in Hin as (y & Ey & Hy).
  apply list_elem_of_omap in Hy as (e' & He' & Ee').
  apply act_entry_key in E, Ee'. apply list_elem_of_fmap. exists e'. split; [congruence|done].
Qed.
End split.

(** *** The other stages are total *)

Lemma orphans_total actionable tables :
  (forall m, m ∈ dkeys actionable -> m ∈ dkeys (nodes g)) ->
  exists out, _orphan_risks g actionable tables = Ok out.
Proof.
  intros Hno. unfold _orphan_risks. rewrite sorted_nodes_total by done. cbn [res_bind].
  traverse_total.
  intros m _. unfold orphans_of.
  traverse_total.
  intros [e p] Hin. case_decide; [eauto|].
  destruct (node_at_ok p) as [n ->]; [by apply (go_out g Hg) in Hin as [_ ?]|].
  cbn [res_bind]. case_decide; eauto.
Qed.

Lemma survivors_total removed m :
  m ∈ dkeys (nodes g) -> exists out, survivors_of g removed m = Ok out.
Proof.
  intros Hm. unfold survivors_of. destruct (node_at_ok m Hm) as [n ->]. cbn [res_bind].
  case_decide; [eauto|]. traverse_total.
  intros [e p] Hin. destruct (node_at_ok p) as [n' ->]; [by apply (go_out g Hg) in Hin as [_ ?]|].
  cbn [res_bind]. repeat case_decide; eauto.
Qed.

Lemma surviving_total tables : exists out, _surviving_references g tables = Ok out.
Proof.
  unfold _surviving_references. rewrite sorted_nodes_total by done. cbn [res_bind].
  traverse_total.
  intros m. rewrite sorted_by_perm. apply survivors_total.
Qed.

Lemma cycle_findings_total groups :
  (forall m, m ∈ concat groups -> m ∈ dkeys (nodes g)) ->
  exists out, _cycle_findings g groups = Ok out.
Proof.
  intros Hno. unfold _cycle_findings. traverse_total.
  intros group Hin. traverse_total.
  intros m Hm. apply node_at_ok, Hno. apply list_elem_of_In, in_concat.
  exists group. by split; apply list_elem_of_In.
Qed.

Lemma enumerate_snd {A} (l : list A) k : map snd (enumerate k l) = l.
Proof. revert k. induction l; intros; simpl; by f_equal. Qed.

Lemma table_actions_total set_iter reg actionable ordered root :
  (forall s, set_iter s ≡ₚ s) ->
  (forall m, m ∈ ordered -> m ∈ dkeys actionable) ->
  (forall m, m ∈ dkeys actionable -> m ∈ dkeys (nodes g)) ->
  let rest := sorted_by (node_key g)
    (set_iter (base.filter (fun m => m ∉ ordered) (dkeys actionable))) in
  exists tables, _table_actions set_iter g reg actionable ordered root = Ok tables /\
    Forall2 (fun x a => table_action g reg actionable root x = Ok a)
      (enumerate 0 (ordered ++ rest)) tables.
Proof.
  intros Hiter Hord Hno rest.
  assert (Hrest : forall m, m ∈ rest -> m ∈ dkeys actionable)
    by (intros m; unfold rest; rewrite sorted_by_perm, Hiter, list_elem_of_filter; naive_solver).
  unfold _table_actions. rewrite sorted_nodes_total.
  2: { intros m. rewrite Hiter, list_elem_of_filter. naive_solver. }
  cbn [res_bind]. apply traverse_ok. intros [i m] Hin.
  assert (Hm : m ∈ dkeys actionable).
  { assert (Hm : m ∈ map snd (enumerate 0 (ordered ++ rest)))
      by (apply list_elem_of_fmap; by exists (i, m)).
    rewrite enumerate_snd, elem_of_app in Hm. naive_solver. }
  unfold table_action. apply dget_keys in Hm as Hs. destruct Hs as [[reach item] ->].
  destruct (node_at_ok m) as [n ->]; [by apply Hno|]. cbn [res_bind]. eauto.
Qed.
End stages.

(** ** The shape of a plan *)

Section shape.
Context (set_iter : list model -> list model) (Hiter : forall s, set_iter s ≡ₚ s).
Context (class_name : model -> pystr) (reg : PrivacyRegistry) (specs : list ModelSpec).

(** The intermediate results behind a plan. *)
Record stages (plan : ErasurePlan) : Type := {
  st_root : model;
  st_graph : Graph;
  st_reach : list (model * Reach);
  st_ordered : list model;
  st_groups : list (list model);
  st_subject : subject_model reg = Some st_root;
  st_build : build_graph specs = Ok st_graph;
  st_reachable : reachable_from st_graph st_root = Ok st_reach;
  st_compiled : st_root ∈ dkeys (nodes st_graph);
  st_order : order_spec st_graph (dkeys (omap (act_entry reg st_root) st_reach))
               st_ordered st_groups;
  st_tables :
    let act := omap (act_entry reg st_root) st_reach in
    Forall2 (fun x a => table_action st_graph reg act st_root x = Ok a)
      (enumerate 0 (st_ordered ++ sorted_by (node_key st_graph)
         (set_iter (base.filter (fun m => m ∉ st_ordered) (dkeys act)))))
      (pl_tables plan);
  st_retained : pl_retained plan = omap (retained_entry st_graph reg) st_reach;
  st_unreachable : pl_unreachable plan = _unreachable class_name st_graph reg st_reach;
  st_cycles : _cycle_findings st_graph st_groups = Ok (pl_cycles plan);
  st_orphans :
    _orphan_risks st_graph (omap (act_entry reg st_root) st_reach) (pl_tables plan) =
      Ok (pl_orphan_risks plan);
  st_surviving : _surviving_references st_graph (pl_tables plan) = Ok (pl_surviving plan);
}.

Lemma build_plan_stages root g subject_id :
  subject_model reg = Some root -> build_graph specs = Ok g -> root ∈ dkeys (nodes g) ->
  exists plan, build_plan set_iter class_name reg specs subject_id = Ok plan /\
    inhabited (stages plan).
Proof.
  intros Hs Eg Hroot. pose proof (build_graph_graph_ok _ _ Eg) as Hg.
  destruct (reachable_from_ok g root) as (found & Er & Hsp).
  assert (Hno : forall m, m ∈ dkeys found -> m ∈ dkeys (nodes g))
    by (intros m; by apply (reachable_nodes g Hg root found)).
  pose proof (sp_nodup _ _ _ Hsp) as Hnd.
  pose proof (split_reachable_eq g Hg reg root found [] [] Hnd Hno) as Esp. simpl in Esp.
  set (act := omap (act_entry reg root) found) in *.
  assert (Hact : forall m, m ∈ dkeys act -> m ∈ dkeys found).
  { intros m Hm. apply list_elem_of_fmap in Hm as (x & -> & Hx).
    apply list_elem_of_omap in Hx as (e & He & Ee). apply act_entry_key in Ee. rewrite Ee.
    apply list_elem_of_fmap. eauto. }
  destruct (order_sound set_iter g (dkeys act) Hiter (go_mirror g Hg)) as (ord & cyc & Eo & Ho).
  { by apply omap_keys. }
  { eauto. }
  assert (Hmem : forall m, m ∈ ord ++ concat cyc -> m ∈ dkeys act)
    by (intros m; by rewrite (os_perm _ _ _ _ Ho)).
  destruct (table_actions_total g set_iter reg act ord root Hiter) as (tables & Et & Hts).
  { intros m Hm. apply Hmem. set_solver. }
  { eauto. }
  destruct (cycle_findings_total g cyc) as [cycles Ec].
  { intros m Hm. apply Hno, Hact, Hmem. set_solver. }
  destruct (orphans_total g Hg act tables) as [orphans Eor]; [eauto|].
  destruct (surviving_total g Hg tables) as [surv Esv].
  pose proof Hroot as Hr2. apply dget_keys in Hr2 as [rn Ern].
  eexists. split.
  - unfold build_plan. rewrite Hs, Eg. cbn [res_bind]. rewrite Ern, Er. cbn [res_bind].
    rewrite Esp. cbn [res_bind]. rewrite Eo. cbn [res_bind]. rewrite Et. cbn [res_bind].
    rewrite Ec. cbn [res_bind]. rewrite Eor. cbn [res_bind]. rewrite Esv. reflexivity.
  - constructor. by eapply (Build_stages _ root g found ord cyc).
Qed.

Lemma build_plan_inv subject_id plan :
  build_plan set_iter class_name reg specs subject_id = Ok plan -> inhabited (stages plan).
Proof.
  intros E. pose proof E as E0. unfold build_plan in E.
  destruct (subject_model reg) as [root|] eqn:Hs; [|done].
  destruct (build_graph specs) as [g|] eqn:Eg; [|done]. cbn [res_bind] in E.
  destruct (dget (nodes g) root) as [rn|] eqn:Ern; [|done].
  destruct (build_plan_stages root g subject_id) as (plan' & E' & Hst); [done|done| |].
  - apply dget_keys. eauto.
  - congruence.
Qed.
End shape.

Arguments st_root {_ _ _ _ _} _.
Arguments st_graph {_ _ _ _ _} _.
Arguments st_reach {_ _ _ _ _} _.
Arguments st_ordered {_ _ _ _ _} _.
Arguments st_groups {_ _ _ _ _} _.
Arguments st_subject {_ _ _ _ _} _.
Arguments st_build {_ _ _ _ _} _.
Arguments st_reachable {_ _ _ _ _} _.
Arguments st_compiled {_ _ _ _ _} _.
Arguments st_order {_ _ _ _ _} _.
Arguments st_tables {_ _ _ _ _} _.
Arguments st_retained {_ _ _ _ _} _.
Arguments st_unreachable {_ _ _ _ _} _.
Arguments st_cycles {_ _ _ _ _} _.
Arguments st_orphans {_ _ _ _ _} _.
Arguments st_surviving {_ _ _ _ _} _.

(** The dictionary of actionable models behind a plan. *)
Definition st_actionable {set_iter class_name reg specs plan}
    (st : stages set_iter class_name reg specs plan) : list (model * (Reach * item_of)) :=
  omap (act_entry reg (st_root st)) (st_reach st).

(** The models of a plan in the order of its table actions. *)
Definition st_placed {set_iter class_name reg specs plan}
    (st : stages set_iter class_name reg specs plan) : list model :=
  st_ordered st ++ sorted_by (node_key (st_graph st))
    (set_iter (base.filter (fun m => m ∉ st_ordered st) (dkeys (st_actionable st)))).

Section stage_facts.
Context {set_iter : list model -> list model} {class_name : model -> pystr}.
Context {reg : PrivacyRegistry} {specs : list ModelSpec} {plan : ErasurePlan}.
Context (st : stages set_iter class_name reg specs plan).
Context (Hiter : forall s, set_iter s ≡ₚ s).

Lemma st_ok : graph_ok (st_graph st).
Proof. eapply build_graph_graph_ok, (st_build st). Qed.

Lemma st_reach_nodup : NoDup (dkeys (st_reach st)).
Proof.
  destruct (reachable_from_ok (st_graph st) (st_root st)) as (f & Ef & Hsp).
  rewrite (st_reachable st) in Ef. injection Ef as ->. apply (sp_nodup _ _ _ Hsp).
Qed.

Lemma st_reach_node m reach :
  dget (st_reach st) m = Some reach -> is_Some (dget (nodes (st_graph st)) m).
Proof.
  intros E. apply dget_keys. eapply (reachable_nodes _ st_ok (st_root st)).
  - apply (st_compiled st).
  - apply (st_reachable st).
  - apply dget_keys. eauto.
Qed.

Lemma st_actionable_nodup : NoDup (dkeys (st_actionable st)).
Proof. apply omap_keys, st_reach_nodup. Qed.

Lemma st_placed_elem m : m ∈ dkeys (st_actionable st) <-> m ∈ st_placed st.
Proof.
  unfold st_placed. rewrite elem_of_app, sorted_by_perm, Hiter, list_elem_of_filter.
  destruct (decide (m ∈ st_ordered st)) as [Ho|Ho]; [|naive_solver].
  split; [by left|]. intros _. fold (st_actionable st) in *.
  pose proof (os_perm _ _ _ _ (st_order st)) as Hp. fold (st_actionable st) in Hp.
  rewrite <- Hp. set_solver.
Qed.

Lemma st_table_actions :
  Forall2 (fun x a => table_action (st_graph st) reg (st_actionable st) (st_root st) x = Ok a)
    (enumerate 0 (st_placed st)) (pl_tables plan).
Proof. exact (st_tables st). Qed.
End stage_facts.
