(* ===== verification/PrivacyPlanClaims.v ===== *)
(** * Claims on the erasure plan

    Totality with its exact refusals, that no declared personal column is left
    out silently, the order of the table actions, the exactness of the
    findings that block a plan, and a plan that reports a cascade no database
    performs. *)

From stdpp Require Import base sets strings numbers relations list gmap.
From Stdlib Require Import ZArith Lia.
From S2P Require Import Prelude PyCollections PrivacyGraph PrivacyOrderFacts PrivacyOrderClaims PrivacyRegistry PrivacyPlanner PrivacyPlanFacts.
#[local] Open Scope Z_scope.

(** ** A sample registry *)

Definition no_columns (m : model) : list (pystr * ColumnAttrs) := [].

Definition ok_or {E A} (d : A) (c : res E A) : A := match c with Ok a => a | Err _ => d end.

(** Users are the subject; photos and comments are classified; a ledger is
    exempt; a table of notes is reached by nothing. *)
Definition sample_registry : PrivacyRegistry :=
  ok_or empty_registry (
    let! reg := subject no_columns empty_registry 1 (bs "id") true in
    let! reg := classify no_columns reg 2 (Some (bs "owner_id")) [(bs "gps", DStr (bs "NULL"))]
                  true ExNone in
    let! reg := classify no_columns reg 3 None [(bs "body", DStr (bs "redact"))] true ExNone in
    let! reg := classify no_columns reg 6 None [(bs "label", DStr (bs "retain"))] false
                  (ExStr (bs "tax law")) in
    classify no_columns reg 9 None [(bs "text", DStr (bs "redact"))] false ExNone).

Definition any_name (m : model) : pystr := bs "Model".

Definition sample_plan : ErasurePlan :=
  ok_or (mkPlan [] [] [] [] [] [] [] [] [] [])
    (build_plan id any_name sample_registry sample_specs (bs "42")).

(** ** Totality *)

(** [build_plan] never fails on its own data.  It raises [ValueError]
    when no subject is declared or the subject is not among the compiled
    models, and otherwise returns a plan: no key error and no unfinished walk,
    whatever is classified and however the interpreter visits its sets. *)
Theorem build_plan_total set_iter class_name reg specs subject_id :
  (forall s, set_iter s ≡ₚ s) ->
  match subject_model reg with
  | Some root =>
    if decide (root ∈ map model_type specs)
    then exists plan, build_plan set_iter class_name reg specs subject_id = Ok plan
    else build_plan set_iter class_name reg specs subject_id = Err ValueError
  | None => build_plan set_iter class_name reg specs subject_id = Err ValueError
  end.
Proof.
  intros Hiter. destruct (subject_model reg) as [root|] eqn:Hs; [|unfold build_plan; by rewrite Hs].
  destruct (decide (specs = [])) as [->|Hne].
  { rewrite decide_False by set_solver. unfold build_plan. by rewrite Hs. }
  destruct (build_graph_ok specs Hne) as (g & Eg & Hn & _). case_decide as Hr.
  - destruct (build_plan_stages set_iter Hiter class_name reg specs root g subject_id Hs Eg)
      as (plan & E & _); [by rewrite Hn, nodes_of_keys|eauto].
  - unfold build_plan. rewrite Hs, Eg. cbn [res_bind].
    destruct (dget (nodes g) root) eqn:En; [|done]. exfalso. apply Hr.
    rewrite <- nodes_of_keys, <- Hn. apply dget_keys. eauto.
Qed.

Lemma build_plan_total_witness :
  exists plan, build_plan (@rev model) any_name sample_registry sample_specs (bs "42") = Ok plan.
Proof.
  apply (build_plan_total (@rev model) any_name sample_registry sample_specs (bs "42")).
  intros s. symmetry. apply Permutation_rev.
Defined.

(** ** Nothing is omitted silently *)

(** How a classified model with personal columns shows up in a plan. *)
Definition accounted (g : Graph) (plan : ErasurePlan) (name : pystr) (m : model)
    (item : Classification) : Prop :=
  (exists node a, dget (nodes g) m = Some node /\ a ∈ pl_tables plan /\
     ta_schema a = n_schema node /\ ta_table a = n_table node /\
     map ca_column (ta_columns a) ≡ₚ dkeys (cl_personal item)) \/
  (exists node r, dget (nodes g) m = Some node /\ r ∈ pl_retained plan /\
     re_schema r = n_schema node /\ re_table r = n_table node /\
     cl_exempt item = Some (re_reason r)) \/
  (exists u, u ∈ pl_unreachable plan /\
     un_model u = (match dget (nodes g) m with Some node => n_label node | None => name end) /\
     un_columns u ≡ₚ dkeys (cl_personal item)).

Lemma table_action_of g reg act root m reach item node i :
  dget act m = Some (reach, item) -> dget (nodes g) m = Some node ->
  exists a, table_action g reg act root (i, m) = Ok a /\
    ta_schema a = n_schema node /\ ta_table a = n_table node /\
    ta_columns a = _column_actions item /\ ta_order a = i /\ ta_model a = n_label node /\
    ta_reach a = reach.
Proof.
  intros E1 E2. unfold table_action, node_at. rewrite E1, E2. cbn [res_bind]. eauto 10.
Qed.

Lemma column_actions_columns item :
  map ca_column (_column_actions (Some item)) ≡ₚ dkeys (cl_personal item).
Proof.
  simpl. rewrite map_map. transitivity (map id (sorted_by id (dkeys (cl_personal item)))).
  - apply Permutation_refl'. apply map_ext. intros c. by repeat case_match.
  - by rewrite map_id, sorted_by_perm.
Qed.

Lemma enumerate_elem {A} (l : list A) k x : x ∈ l -> exists i, (i, x) ∈ enumerate k l.
Proof.
  revert k. induction l as [|y l IH]; intros k; simpl; [set_solver|].
  rewrite elem_of_cons. intros [->|Hx]; [exists k; set_solver|].
  destruct (IH (k + 1) Hx) as [i Hi]. exists i. set_solver.
Qed.

Section accounting.
Context {set_iter : list model -> list model} {class_name : model -> pystr}.
Context {reg : PrivacyRegistry} {specs : list ModelSpec} {plan : ErasurePlan}.
Context (st : stages set_iter class_name reg specs plan).
Context (Hiter : forall s, set_iter s ≡ₚ s).

(** Every actionable model has a table action. *)
Lemma placed_action m :
  m ∈ dkeys (st_actionable st) ->
  exists i a, a ∈ pl_tables plan /\
    table_action (st_graph st) reg (st_actionable st) (st_root st) (i, m) = Ok a.
Proof.
  intros Hm. pose proof (st_table_actions st) as HT.
  destruct (enumerate_elem (st_placed st) 0 m) as [i Hi]; [by apply st_placed_elem|].
  apply list_elem_of_lookup in Hi as [k Hk].
  destruct (Forall2_lookup_l _ _ _ _ _ HT Hk) as (a & Ha & Ea).
  exists i, a. split; [by eapply list_elem_of_lookup_2|done].
Qed.

Lemma accounted_exempt m item reach reason :
  dget (classifications reg) m = Some item -> cl_exempt item = Some reason ->
  dget (st_reach st) m = Some reach -> accounted (st_graph st) plan (class_name m) m item.
Proof.
  intros Em Ex Er. destruct (st_reach_node st _ _ Er) as [node En]. right. left.
  exists node, (mkRetained (n_label node) (n_schema node) (n_table node) reason reach).
  split; [done|]. split; [|done]. rewrite (st_retained st). apply list_elem_of_omap.
  exists (m, reach). split; [by apply dget_elem|]. unfold retained_entry. by rewrite Em, En, Ex.
Qed.

Lemma accounted_action m item reach :
  dget (classifications reg) m = Some item -> cl_exempt item = None ->
  dget (st_reach st) m = Some reach -> accounted (st_graph st) plan (class_name m) m item.
Proof.
  intros Em Ex Er. destruct (st_reach_node st _ _ Er) as [node En]. left. exists node.
  assert (Hact : (m, (reach, Some item)) ∈ st_actionable st).
  { apply list_elem_of_omap. exists (m, reach). split; [by apply dget_elem|].
    unfold act_entry. by rewrite Em, Ex. }
  destruct (placed_action m) as (i & a & Ha & Ea).
  { apply list_elem_of_fmap. by exists (m, (reach, Some item)). }
  destruct (table_action_of (st_graph st) reg (st_actionable st) (st_root st) m reach
    (Some item) node i) as (a' & Ea' & H1 & H2 & H3 & _);
    [by apply dget_nodup; [apply st_actionable_nodup|]|done|].
  rewrite Ea in Ea'. injection Ea' as <-. exists a. rewrite H3. do 4 (split; [done|]).
  apply column_actions_columns.
Qed.

Lemma accounted_unreachable m item :
  dget (classifications reg) m = Some item -> cl_personal item <> [] ->
  dget (st_reach st) m = None -> accounted (st_graph st) plan (class_name m) m item.
Proof.
  intros Em Hp Er. right. right.
  assert (Hu : exists u, u ∈ unreachable_item class_name (st_graph st) (st_reach st) (m, item) /\
    un_model u = (match dget (nodes (st_graph st)) m with
                  | Some node => n_label node | None => class_name m end) /\
    un_columns u ≡ₚ dkeys (cl_personal item)).
  { unfold unreachable_item, dmem. rewrite Er. cbn [orb].
    destruct (cl_personal item) as [|x l] eqn:El; [done|]. cbn [nonempty negb].
    destruct (dget (nodes _) m) as [node|]; eexists; (split; [by apply list_elem_of_singleton|]);
      (split; [done|]); apply sorted_by_perm. }
  destruct Hu as (u & Hu & H1 & H2). exists u. split; [|done].
  rewrite (st_unreachable st). unfold _unreachable. rewrite sorted_by_perm.
  apply list_elem_of_In, in_concat. eexists. split; [|by apply list_elem_of_In].
  apply list_elem_of_In, list_elem_of_fmap. exists (m, item). split; [done|].
  by apply dget_elem.
Qed.
End accounting.

(** C35. No declared personal data is left out silently.  In a plan that was
    built, every classified model with a personal column is either given a
    table action that lists exactly its personal columns, or listed as
    retained with its written exemption, or reported as unreachable with
    exactly its personal columns, and a plan that reports an unreachable table
    is blocked. *)
Theorem plan_accounts set_iter class_name reg specs subject_id plan g m item :
  (forall s, set_iter s ≡ₚ s) ->
  build_plan set_iter class_name reg specs subject_id = Ok plan ->
  build_graph specs = Ok g ->
  dget (classifications reg) m = Some item -> cl_personal item <> [] ->
  accounted g plan (class_name m) m item /\
  (pl_unreachable plan <> [] -> blocked plan = true).
Proof.
  intros Hiter E Eg Em Hp. split.
  2: { intros Hu. unfold blocked. by destruct (pl_unreachable plan). }
  destruct (build_plan_inv set_iter Hiter class_name reg specs subject_id plan E) as [st].
  assert (st_graph st = g) as <- by (pose proof (st_build st); congruence).
  destruct (dget (st_reach st) m) as [reach|] eqn:Er; [|by apply accounted_unreachable].
  destruct (cl_exempt item) as [reason|] eqn:Ex.
  - by eapply accounted_exempt.
  - by eapply accounted_action.
Qed.

Lemma plan_accounts_witness :
  accounted sample_graph sample_plan (bs "Model") 9
    (mkClassification 9 None [(bs "text", DStr (bs "redact"))] false None) /\
  (pl_unreachable sample_plan <> [] -> blocked sample_plan = true).
Proof.
  apply (plan_accounts id any_name sample_registry sample_specs (bs "42") sample_plan
    sample_graph 9).
  - reflexivity.
  - vm_compute. reflexivity.
  - vm_compute. reflexivity.
  - vm_compute. reflexivity.
  - discriminate.
Defined.

(** ** The order of the table actions *)

Lemma enumerate_fst {A} (l : list A) k :
  map fst (enumerate k l) = map (fun i => k + Z.of_nat i) (seq 0 (length l)).
Proof.
  revert k. induction l as [|x l IH]; intros k; [done|]. simpl. f_equal; [lia|].
  rewrite IH, <- seq_shift, map_map. apply map_ext. intros i. lia.
Qed.

Section ordering.
Context {set_iter : list model -> list model} {class_name : model -> pystr}.
Context {reg : PrivacyRegistry} {specs : list ModelSpec} {plan : ErasurePlan}.
Context (st : stages set_iter class_name reg specs plan).
Context (Hiter : forall s, set_iter s ≡ₚ s).

Lemma placed_nodup : NoDup (st_placed st).
Proof.
  pose proof (os_perm _ _ _ _ (st_order st)) as Hp. fold (st_actionable st) in Hp.
  assert (Hn : NoDup (st_ordered st ++ concat (st_groups st)))
    by (rewrite Hp; apply st_actionable_nodup).
  apply NoDup_app in Hn as (Hn & _). unfold st_placed. apply NoDup_app.
  split; [done|]. split.
  - intros m Hm. rewrite sorted_by_perm, Hiter, list_elem_of_filter. naive_solver.
  - rewrite sorted_by_perm, Hiter. apply NoDup_filter, st_actionable_nodup.
Qed.

(** The action of each placed model carries its table and its position. *)
Lemma placed_actions_match :
  Forall2 (fun x a => ta_order a = fst x /\ exists node,
      dget (nodes (st_graph st)) (snd x) = Some node /\
      ta_schema a = n_schema node /\ ta_table a = n_table node)
    (enumerate 0 (st_placed st)) (pl_tables plan).
Proof.
  eapply Forall2_impl; [exact (st_table_actions st)|]. intros [i m] a E. simpl.
  unfold table_action in E. destruct (dget (st_actionable st) m) as [[reach item]|]; [|done].
  unfold node_at in E. destruct (dget (nodes (st_graph st)) m) as [node|]; [|done].
  injection E as <-. simpl. eauto.
Qed.

Lemma grouped_reported m :
  m ∈ concat (st_groups st) ->
  node_key (st_graph st) m ∈ concat (map cy_tables (pl_cycles plan)).
Proof.
  intros Hm. apply list_elem_of_In, in_concat in Hm as (group & Hg & Hm).
  apply list_elem_of_In in Hg, Hm.
  pose proof (traverse_Forall2 _ _ _ (st_cycles st)) as HF.
  apply list_elem_of_lookup in Hg as [k Hk].
  destruct (Forall2_lookup_l _ _ _ _ _ HF Hk) as (cy & Hcy & E). cbn beta in E.
  destruct (traverse (node_at (st_graph st)) group) as [nds|] eqn:En; [|done].
  apply traverse_Forall2 in En. apply list_elem_of_lookup in Hm as [j Hj].
  destruct (Forall2_lookup_l _ _ _ _ _ En Hj) as (node & Hnode & Enode).
  injection E as <-. apply list_elem_of_In, in_concat. exists (map qualified nds). split.
  - apply list_elem_of_In, list_elem_of_fmap. eexists. split; [|by eapply list_elem_of_lookup_2].
    done.
  - apply list_elem_of_In. unfold node_key. unfold node_at in Enode.
    destruct (dget (nodes (st_graph st)) m) as [n|]; [|done]. injection Enode as ->.
    apply list_elem_of_fmap. exists node. split; [done|]. by eapply list_elem_of_lookup_2.
Qed.

Lemma placed_children_first c p :
  depends (st_graph st) (st_placed st) p c ->
  before c p (st_placed st) \/
  node_key (st_graph st) p ∈ concat (map cy_tables (pl_cycles plan)).
Proof.
  intros (Hc & Hp & Hne & Ho). rewrite <- st_placed_elem in Hc, Hp by done.
  destruct (decide (p ∈ st_ordered st)) as [Hin|Hout].
  - left. pose proof (os_first _ _ _ _ (st_order st)) as Hf. fold (st_actionable st) in Hf.
    destruct (Hf p c Hin) as (l1 & l2 & E & Hl); [by split_and!|].
    unfold st_placed. rewrite E, <- app_assoc. by eexists l1, _.
  - right. apply grouped_reported.
    pose proof (os_perm _ _ _ _ (st_order st)) as HP. fold (st_actionable st) in HP.
    rewrite <- HP in Hp. set_solver.
Qed.
End ordering.

(** The table actions run children first.  The actions are numbered from
    zero, one per model in scope; and whenever one model in scope references
    another, the action of the referencing model comes before the action of
    the referenced one, unless the referenced table is named in a reported
    cycle. *)
Theorem plan_order set_iter class_name reg specs subject_id plan g :
  (forall s, set_iter s ≡ₚ s) ->
  build_plan set_iter class_name reg specs subject_id = Ok plan -> build_graph specs = Ok g ->
  exists placed, NoDup placed /\
    map ta_order (pl_tables plan) = map Z.of_nat (seq 0 (length placed)) /\
    Forall2 (fun m a => exists node, dget (nodes g) m = Some node /\
        ta_schema a = n_schema node /\ ta_table a = n_table node) placed (pl_tables plan) /\
    forall c p, depends g placed p c ->
      before c p placed \/ node_key g p ∈ concat (map cy_tables (pl_cycles plan)).
Proof.
  intros Hiter E Eg.
  destruct (build_plan_inv set_iter Hiter class_name reg specs subject_id plan E) as [st].
  assert (st_graph st = g) as <- by (pose proof (st_build st); congruence).
  exists (st_placed st). split; [by apply placed_nodup|].
  pose proof (placed_actions_match st) as HM. split; [|split].
  - rewrite <- (map_ext (fun i => 0 + Z.of_nat i) Z.of_nat) by lia.
    rewrite <- enumerate_fst. symmetry. clear -HM.
    induction HM as [|x a l k [Ho _] _ IH]; simpl; [done|]. by rewrite IH, Ho.
  - rewrite <- (enumerate_snd (st_placed st) 0) at 1. apply Forall2_fmap_l.
    eapply Forall2_impl; [exact HM|]. by intros x a [_ H].
  - intros c p. by apply placed_children_first.
Qed.

Lemma plan_order_witness :
  exists placed, NoDup placed /\
    map ta_order (pl_tables sample_plan) = map Z.of_nat (seq 0 (length placed)) /\
    Forall2 (fun m a => exists node, dget (nodes sample_graph) m = Some node /\
        ta_schema a = n_schema node /\ ta_table a = n_table node) placed (pl_tables sample_plan) /\
    forall c p, depends sample_graph placed p c ->
      before c p placed \/ node_key sample_graph p ∈ concat (map cy_tables (pl_cycles sample_plan)).
Proof.
  apply (plan_order id any_name sample_registry sample_specs (bs "42")).
  - reflexivity.
  - vm_compute. reflexivity.
  - vm_compute. reflexivity.
Defined.

(** ** Surviving references *)

(** The table of [m] is among [removed]. *)
Definition table_in (g : Graph) (removed : list (pystr * pystr)) (m : model) : Prop :=
  exists node, dget (nodes g) m = Some node /\ (n_schema node, n_table node) ∈ removed.

Lemma survivors_of_elem g removed m out s :
  survivors_of g removed m = Ok out ->
  s ∈ out <-> ~ table_in g removed m /\ exists p, (sv_edge s, p) ∈ outbound_of g m /\
    on_delete (sv_edge s) ∈ _BLOCKING /\ table_in g removed p /\
    sv_detail s = surviving_detail (sv_edge s).
Proof.
  unfold survivors_of, node_at, table_in. intros E.
  destruct (dget (nodes g) m) as [n|]; [|done]. cbn [res_bind] in E. case_decide as Hr.
  { injection E as <-. split; [set_solver|]. intros [Hn _]. destruct Hn. eauto. }
  destruct (traverse _ _) as [yss|] eqn:Et; [|done]. injection E as <-.
  rewrite (traverse_concat _ _ _ s Et). split.
  - intros ([e p] & ys & Hin & Ey & Hs).
    split; [intros (n' & [= <-] & ?); by apply Hr|].
    destruct (dget (nodes g) p) as [pn|] eqn:Ep; [|done]. cbn [res_bind] in Ey.
    case_decide as H1; [injection Ey as <-; set_solver|].
    case_decide as H2; [injection Ey as <-; set_solver|]. injection Ey as <-.
    apply list_elem_of_singleton in Hs as ->. cbn [sv_edge sv_detail]. exists p. rewrite Ep.
    split; [done|]. split; [exact H2|]. split; [|done].
    exists pn. split; [done|]. exact H1.
  - intros [_ (p & Hin & Hb & (pn & Ep & Hp) & Hd)].
    exists (sv_edge s, p), [s]. split; [done|]. split; [|by apply list_elem_of_singleton].
    rewrite Ep. cbn [res_bind]. rewrite !decide_False by (intros H; by apply H).
    destruct s as [e d]. simpl in *. by rewrite Hd.
Qed.

(** The surviving references of a plan are exact: a foreign key is
    reported exactly when it is NO ACTION or RESTRICT, it leads to a table the
    plan removes rows of, and it comes from a table the plan does not remove
    rows of, over every compiled table, classified or not.  So in a plan that
    is not blocked no such foreign key remains. *)
Theorem plan_surviving_exact set_iter class_name reg specs subject_id plan g :
  (forall s, set_iter s ≡ₚ s) ->
  build_plan set_iter class_name reg specs subject_id = Ok plan -> build_graph specs = Ok g ->
  let removed := removed_tables (pl_tables plan) in
  let refuses e c p := (e, p) ∈ outbound_of g c /\ on_delete e ∈ _BLOCKING /\
    table_in g removed p /\ ~ table_in g removed c in
  (forall e, e ∈ map sv_edge (pl_surviving plan) <-> exists c p, refuses e c p) /\
  (blocked plan = false -> forall e c p, ~ refuses e c p).
Proof.
  intros Hiter E Eg removed refuses.
  destruct (build_plan_inv set_iter Hiter class_name reg specs subject_id plan E) as [st].
  assert (Eq : st_graph st = g) by (pose proof (st_build st); congruence).
  pose proof (build_graph_graph_ok _ _ Eg) as Hg.
  pose proof (st_surviving st) as Es. unfold _surviving_references in Es. rewrite Eq in Es.
  rewrite sorted_nodes_total in Es by (done || exact Hg). cbn [res_bind] in Es.
  destruct (traverse _ _) as [yss|] eqn:Et; [|done]. injection Es as Es.
  assert (Hex : forall e, e ∈ map sv_edge (pl_surviving plan) <-> exists c p, refuses e c p).
  { intros e. rewrite <- Es, list_elem_of_fmap. split.
    - intros (s & -> & Hs). apply (traverse_concat _ _ _ s Et) in Hs as (c & ys & _ & Ey & Hs).
      apply (survivors_of_elem _ _ _ _ _ Ey) in Hs as (Hn & p & H1 & H2 & H3 & _).
      exists c, p. by split_and!.
    - intros (c & p & H1 & H2 & H3 & H4). exists (mkSurviving e (surviving_detail e)).
      split; [done|]. apply (traverse_concat _ _ _ _ Et).
      destruct (go_out g Hg e c p H1) as [Hc _].
      destruct (survivors_total g Hg removed c Hc) as [ys Ey]. exists c, ys.
      split; [by rewrite sorted_by_perm|]. split; [done|].
      apply (survivors_of_elem _ _ _ _ _ Ey). split; [done|]. exists p. by split_and!. }
  split; [exact Hex|]. intros Hb e c p Hr. unfold blocked in Hb.
  assert (Hin : e ∈ map sv_edge (pl_surviving plan)) by (apply Hex; eauto).
  destruct (pl_surviving plan); [set_solver|]. by rewrite orb_true_r in Hb.
Qed.

Lemma plan_surviving_exact_witness :
  let removed := removed_tables (pl_tables sample_plan) in
  let refuses e c p := (e, p) ∈ outbound_of sample_graph c /\ on_delete e ∈ _BLOCKING /\
    table_in sample_graph removed p /\ ~ table_in sample_graph removed c in
  (forall e, e ∈ map sv_edge (pl_surviving sample_plan) <-> exists c p, refuses e c p) /\
  (blocked sample_plan = false -> forall e c p, ~ refuses e c p).
Proof.
  apply (plan_surviving_exact id any_name sample_registry sample_specs (bs "42")).
  - reflexivity.
  - vm_compute. reflexivity.
  - vm_compute. reflexivity.
Defined.

(** ** A cascade nobody performs *)

Definition cascade_specs : list ModelSpec := [
  spec_of 1 (bs "User") (bs "users") [];
  spec_of 2 (bs "Photo") (bs "photos") [fk (bs "owner_id") 1 (bs "n")];
  spec_of 3 (bs "Comment") (bs "comments") [fk (bs "photo_id") 2 (bs "c")]
].

Definition cascade_registry : PrivacyRegistry :=
  ok_or empty_registry (
    let! reg := subject no_columns empty_registry 1 (bs "id") true in
    let! reg := classify no_columns reg 2 None [(bs "gps", DStr (bs "null"))] false ExNone in
    classify no_columns reg 3 None [(bs "body", DStr (bs "redact"))] false ExNone).

(** A plan can promise a cascade that no parent delete triggers.  With the
    subject deleted, photos that keep their rows (ON DELETE SET NULL, columns
    emptied) and comments that cascade from photos, the plan is not blocked,
    empties the photos in place and lists the comments, with their personal
    column, as removed by the parent's cascade, although the only foreign key
    of the comments leads to the photos, whose rows stay. *)
Theorem cascade_from_surviving_parent :
  exists plan c p,
    build_plan id any_name cascade_registry cascade_specs (bs "42") = Ok plan /\
    blocked plan = false /\ c ∈ pl_tables plan /\ p ∈ pl_tables plan /\
    ta_table c = bs "comments" /\ ta_disposal c = disposal_value CASCADE /\
    map ca_column (ta_columns c) = [bs "body"] /\
    ta_table p = bs "photos" /\ ta_disposal p = disposal_value ANONYMISE /\
    map (to_table ∘ fst) (outbound_of (graph_of cascade_specs) 3) = [bs "public.photos"].
Proof.
  eexists. do 2 eexists. split; [vm_compute; reflexivity|]. cbn [pl_tables].
  split; [vm_compute; reflexivity|].
  split; [apply list_elem_of_here|].
  split; [apply list_elem_of_further, list_elem_of_here|].
  do 5 (split; [vm_compute; reflexivity|]). vm_compute. reflexivity.
Qed.
