(* ===== verification/PrivacyRegistryFacts.v ===== *)
(** * Declarations: what a registry can hold

    [registry_ok] is the invariant of [PrivacyRegistry]; every declaration that
    is accepted preserves it, and the annotation surface stores what the
    explicit call stores. *)

From stdpp Require Import base sets strings numbers list gmap.
From Stdlib Require Import ZArith Lia.
From S2P Require Import Prelude PyCollections PrivacyGraph PrivacyRegistry.
#[local] Open Scope Z_scope.

Section registry.
Context (column_map : model -> list (pystr * ColumnAttrs)).

(** The column exists, as far as the class says which columns it has. *)
Definition has_column (m : model) (c : pystr) : Prop :=
  column_map m = [] \/ is_Some (_column column_map m c).

(** The column can be set to NULL, or holds text. *)
Definition can_null (m : model) (c : pystr) : Prop :=
  forall a, _column column_map m c = Some a -> at_primary_key a = false /\ at_nullable a = true.
Definition can_redact (m : model) (c : pystr) : Prop :=
  forall a, _column column_map m c = Some a ->
    lower (at_type_name a) = [] \/ textual_name (lower (at_type_name a)) = true.

(** A disposition the erasure can carry out and that does not claim more than
    it does. *)
Definition disposition_ok (m : model) (c : pystr) (d : disposition) : Prop :=
  match d with
  | DStr s => (s = ERASE_NULL /\ can_null m c) \/ (s = ERASE_REDACT /\ can_redact m c) \/
              s = ERASE_RETAIN
  | DPseudonymise p => exists reason, p_reason p = Declared reason
  | DOther => False
  end.

Record classification_ok (m : model) (item : Classification) : Prop := {
  co_model : cl_model item = m;
  co_columns c d : (c, d) ∈ cl_personal item -> has_column m c /\ disposition_ok m c d;
  co_nodup : NoDup (dkeys (cl_personal item));
  co_subject c : cl_subject item = Some c -> has_column m c;
  co_exempt reason : cl_exempt item = Some reason -> strip reason <> [];
  co_conflict : cl_exempt item <> None -> cl_personal item <> [] -> cl_delete item = false;
}.

Record registry_ok (reg : PrivacyRegistry) : Prop := {
  ro_subject m : subject_model reg = Some m -> has_column m (subject_key reg);
  ro_nodup : NoDup (dkeys (classifications reg));
  ro_items m item : (m, item) ∈ classifications reg -> classification_ok m item;
}.

(** ** The checks *)

Lemma require_column_ok m c : _require_column column_map m c = Ok tt -> has_column m c.
Proof.
  unfold _require_column, has_column, _column. destruct (column_map m) as [|x l] eqn:E; [by left|].
  destruct (dmem (x :: l) c) eqn:Em; [|done]. intros _. right. by apply dget_keys, dmem_spec.
Qed.

Lemma require_nullable_ok m c : _require_nullable column_map m c = Ok tt -> can_null m c.
Proof.
  unfold _require_nullable, can_null. intros H a E. rewrite E in H.
  destruct (at_primary_key a); [done|]. by destruct (at_nullable a).
Qed.

Lemma require_textual_ok m c : _require_textual column_map m c = Ok tt -> can_redact m c.
Proof.
  unfold _require_textual, can_redact. intros H a E. rewrite E in H.
  case_decide; [by left|]. right. by destruct (textual_name _).
Qed.

Lemma check_disposition_ok m c d d' :
  _check_disposition column_map m c d = Ok d' -> disposition_ok m c d'.
Proof.
  unfold _check_disposition. destruct d as [s|p|]; [|by destruct (p_reason p) eqn:E;
    intros [= <-]; simpl; eauto|done].
  case_decide; [done|]. case_decide as Hv; [done|].
  destruct (decide (lower (strip s) = ERASE_NULL)) as [En|En].
  - destruct (_require_nullable _ _ _) as [[]|] eqn:E; [|done]. cbn [res_bind].
    rewrite decide_False by (rewrite En; discriminate). cbn [res_bind]. intros [= <-].
    left. split; [done|]. by apply require_nullable_ok.
  - cbn [res_bind]. destruct (decide (lower (strip s) = ERASE_REDACT)) as [Er|Er].
    + destruct (_require_textual _ _ _) as [[]|] eqn:E; [|done]. intros [= <-].
      right. left. split; [done|]. by apply require_textual_ok.
    + intros [= <-]. right. right. unfold _ERASE_VALUES in Hv. set_solver.
Qed.

Lemma check_columns_ok m columns checked out :
  check_columns column_map m columns checked = Ok out ->
  NoDup (dkeys checked) ->
  (forall c d, (c, d) ∈ checked -> has_column m c /\ disposition_ok m c d) ->
  NoDup (dkeys out) /\
  (forall c d, (c, d) ∈ out -> has_column m c /\ disposition_ok m c d).
Proof.
  revert checked. induction columns as [|[c d] columns IH]; intros checked H Hn Hc; simpl in H.
  { by injection H as <-. }
  destruct (_require_column column_map m c) as [[]|] eqn:E1; [|done]. cbn [res_bind] in H.
  destruct (_check_disposition column_map m c d) as [d'|] eqn:E2; [|done]. cbn [res_bind] in H.
  apply require_column_ok in E1. apply check_disposition_ok in E2.
  apply (IH _ H); [by apply dset_nodup|]. intros c' d0 Hin.
  pose proof (dset_nodup checked c d' Hn) as Hn'. apply (dget_nodup _ _ _ Hn') in Hin.
  rewrite dget_dset in Hin. case_decide; [injection Hin as <-; by subst|].
  by apply Hc, dget_elem.
Qed.

Lemma check_exemption_ok ex reason :
  _check_exemption ex = Ok (Some reason) -> strip reason <> [].
Proof. destruct ex as [|s|[s|]]; simpl; try done; case_decide; by intros [= <-]. Qed.

(** ** The operations *)

Lemma registry_ok_empty : registry_ok empty_registry.
Proof. split; [done|constructor|set_solver]. Qed.

Lemma subject_preserves reg m key del reg' :
  registry_ok reg -> subject column_map reg m key del = Ok reg' -> registry_ok reg'.
Proof.
  intros [H1 H2 H3]. unfold subject. case_decide; [done|].
  destruct (_require_column _ _ _) as [[]|] eqn:E; [|done]. intros [= <-].
  split; [|done|done]. simpl. intros m' [= <-]. by apply require_column_ok.
Qed.

Lemma classify_stores reg m subj personal del ex reg' :
  classify column_map reg m subj personal del ex = Ok reg' ->
  exists item, classification_ok m item /\ cl_subject item = subj /\ cl_delete item = del /\
    reg' = mkRegistry (subject_model reg) (subject_key reg) (subject_delete reg)
             (dset (classifications reg) m item) (retentions reg).
Proof.
  unfold classify. destruct (match subj with Some s => _ | None => _ end) as [[]|] eqn:E1; [|done].
  cbn [res_bind]. destruct (check_columns _ _ _ _) as [checked|] eqn:E2; [|done]. cbn [res_bind].
  destruct (_check_exemption ex) as [reason|] eqn:E3; [|done]. cbn [res_bind].
  case_decide as Hc; [done|]. intros [= <-]. exists (mkClassification m subj checked del reason). split; [|done].
  apply check_columns_ok in E2 as [Hn Hcols]; [|constructor|set_solver].
  split; simpl; [done|done|done| | |].
  - intros c ->. by apply require_column_ok.
  - intros r ->. by eapply check_exemption_ok.
  - intros Hr Hp. destruct del; [|done]. by destruct Hc.
Qed.

Lemma classify_preserves reg m subj personal del ex reg' :
  registry_ok reg -> classify column_map reg m subj personal del ex = Ok reg' ->
  registry_ok reg'.
Proof.
  intros [H1 H2 H3] E. apply classify_stores in E as (item & Hi & _ & _ & ->).
  pose proof (dset_nodup (classifications reg) m item H2) as Hn. split; [done|done|]. simpl.
  intros m' item' Hin. apply (dget_nodup _ _ _ Hn) in Hin. rewrite dget_dset in Hin.
  case_decide; [injection Hin as <-; by subst|]. by apply H3, dget_elem.
Qed.

Lemma retain_preserves reg m after on reason reg' :
  registry_ok reg -> retain column_map reg m after on reason = Ok reg' -> registry_ok reg'.
Proof.
  intros [H1 H2 H3]. unfold retain. destruct (negb _); [done|].
  destruct (_require_column _ _ _) as [[]|]; [|done]. cbn [res_bind].
  destruct (match _column _ _ _ with Some _ => _ | None => _ end); [done|].
  intros [= <-]. by split.
Qed.

Lemma declare_model_preserves reg m info reg' b :
  registry_ok reg -> declare_model column_map reg m info = Ok (reg', b) -> registry_ok reg'.
Proof.
  intros Hr. unfold declare_model. destruct (_markers _ _ _) as [markers|]; [|done].
  cbn [res_bind]. case_decide; [by intros [= <- <-]|].
  destruct (collect_markers _ _ _) as [[subj personal]|]; [|done]. cbn [res_bind].
  destruct subj as [[column [[] sdelete]]|].
  - destruct (subject _ _ _ _ _) as [reg1|] eqn:E; [|done]. cbn [res_bind].
    apply (subject_preserves _ _ _ _ _ Hr) in E. case_decide; [by intros [= <- <-]|].
    destruct (classify _ _ _ _ _ _ _) as [reg2|] eqn:E2; [|done]. intros [= <- <-].
    by eapply classify_preserves.
  - destruct (classify _ _ _ _ _ _ _) as [reg2|] eqn:E2; [|done]. intros [= <- <-].
    by eapply classify_preserves.
  - destruct (classify _ _ _ _ _ _ _) as [reg2|] eqn:E2; [|done]. intros [= <- <-].
    by eapply classify_preserves.
Qed.

Lemma declare_registry_preserves reg specs n reg' n' :
  registry_ok reg -> declare_registry column_map reg specs n = Ok (reg', n') ->
  registry_ok reg'.
Proof.
  revert reg n. induction specs as [|[m info] specs IH]; intros reg n Hr; simpl.
  { by intros [= <- <-]. }
  destruct (declare_model _ _ _ _) as [[reg1 b]|] eqn:E; [|done]. cbn [res_bind].
  apply IH. by eapply declare_model_preserves.
Qed.

(** One accepted declaration, by any of the surfaces. *)
Inductive declares : PrivacyRegistry -> PrivacyRegistry -> Prop :=
| by_subject reg m key del reg' :
    subject column_map reg m key del = Ok reg' -> declares reg reg'
| by_classify reg m subj personal del ex reg' :
    classify column_map reg m subj personal del ex = Ok reg' -> declares reg reg'
| by_retain reg m after on reason reg' :
    retain column_map reg m after on reason = Ok reg' -> declares reg reg'
| by_annotation reg specs n reg' n' :
    declare_registry column_map reg specs n = Ok (reg', n') -> declares reg reg'.

Lemma declares_preserves reg reg' : registry_ok reg -> declares reg reg' -> registry_ok reg'.
Proof.
  destruct 2; eauto using subject_preserves, classify_preserves, retain_preserves,
    declare_registry_preserves.
Qed.
End registry.

(** The registry invariant.  However declarations are sequenced, through
    [subject], [classify], [retain] or the annotations, a registry grown from
    the empty one holds only dispositions the erasure can carry out: NULL only
    on a nullable column that is not the primary key, REDACT only on a column
    of text, RETAIN, or a pseudonymisation with a written reason; every named
    column exists on its model, every exemption has a reason that is not
    blank, and no model is both deleted and exempt while it has personal
    columns. *)
Theorem registry_invariant column_map reg :
  rtc (declares column_map) empty_registry reg -> registry_ok column_map reg.
Proof.
  intros Hr. pose proof (registry_ok_empty column_map) as H0. revert H0.
  induction Hr as [|x y z Hxy _ IH]; [done|]. intros Hx. apply IH. by eapply declares_preserves.
Qed.

Definition sample_columns (m : model) : list (pystr * ColumnAttrs) :=
  [(bs "id", mkAttrs (bs "uuid") false true true);
   (bs "email", mkAttrs (bs "VARCHAR") false false false)].

Lemma registry_invariant_witness :
  registry_ok sample_columns
    (mkRegistry (Some 1) (bs "id") true
       [(1, mkClassification 1 None [(bs "email", DStr (bs "redact"))] false None)] []).
Proof.
  apply registry_invariant.
  eapply rtc_l; [apply (by_subject _ _ 1 (bs "id") true); vm_compute; reflexivity|].
  eapply rtc_once, (by_classify _ _ 1 None [(bs "email", DStr (bs " Redact "))] false ExNone).
  vm_compute. reflexivity.
Defined.

(** Refusals of a disposition, by cause.  A word that sounds like erasure
    and is not (a hash, a mask, a token, whatever its case and the space around
    it) is refused as such; any other unknown word is refused as unknown; NULL
    on a primary key, NULL on a NOT NULL column and REDACT on a column that is
    not text are refused; what remains is accepted and normalised. *)
Theorem check_disposition_cases column_map m c s :
  let w := lower (strip s) in
  let column := _column column_map m c in
  _check_disposition column_map m c (DStr s) =
    if decide (w ∈ _PSEUDONYM_SPELLINGS) then Err NotErasure
    else if decide (w = ERASE_NULL) then
      match column with
      | Some (mkAttrs _ nullable pk _) =>
        if pk then Err NullPrimaryKey else if nullable then Ok (DStr ERASE_NULL)
        else Err NullNotNullable
      | None => Ok (DStr ERASE_NULL)
      end
    else if decide (w = ERASE_REDACT) then
      match column with
      | Some (mkAttrs ((_ :: _) as ty) _ _ _) =>
        if textual_name (lower ty) then Ok (DStr ERASE_REDACT) else Err RedactNotText
      | _ => Ok (DStr ERASE_REDACT)
      end
    else if decide (w = ERASE_RETAIN) then Ok (DStr ERASE_RETAIN)
    else Err UnknownDisposition.
Proof.
  intros w column. unfold _check_disposition. fold w. case_decide as H1; [done|].
  unfold _require_nullable, _require_textual. fold column.
  destruct (decide (w = ERASE_NULL)) as [->|Hn].
  { rewrite decide_False by (intros H; apply H; unfold _ERASE_VALUES; set_solver).
    rewrite decide_False by discriminate. destruct column as [[ty [] [] ix]|]; done. }
  destruct (decide (w = ERASE_REDACT)) as [->|Hr].
  { rewrite decide_False by (intros H; apply H; unfold _ERASE_VALUES; set_solver).
    cbn [res_bind]. destruct column as [[[|t ty] nl pk ix]|]; simpl; [done| |done].
    by destruct (textual_name _). }
  destruct (decide (w = ERASE_RETAIN)) as [->|Ht].
  { rewrite decide_False by (intros H; apply H; unfold _ERASE_VALUES; set_solver). done. }
  rewrite decide_True; [done|]. unfold _ERASE_VALUES. set_solver.
Qed.

(** ** The annotation surface *)

(** The two declaration surfaces agree.  A model whose markers name one
    ordinary subject column and personal columns on distinct columns is
    declared exactly as the explicit [classify] call with those arguments
    declares it, whatever that call returns; a marker may delete the rows. *)
Theorem annotations_agree column_map reg m info subj sdel personal :
  _markers column_map m info =
    Ok ((subj, Subject false sdel) :: map (fun '(c, d) => (c, Personal d)) personal) ->
  NoDup (dkeys personal) ->
  let delete := match ci_facet info with Some f => f_delete f | None => false end in
  let exempt := match ci_facet info with Some f => f_exempt f | None => ExNone end in
  declare_model column_map reg m info =
    let! reg := classify column_map reg m (Some subj) personal (delete || sdel) exempt in
    Ok (reg, true).
Proof.
  intros Em Hn delete exempt. unfold declare_model. rewrite Em. cbn [res_bind].
  rewrite decide_False by (intros [? _]; done). cbn [collect_markers].
  assert (Hc : forall l acc, NoDup (dkeys (acc ++ l)) ->
    collect_markers (map (fun '(c, d) => (c, Personal d)) l) (Some (subj, (false, sdel))) acc =
      Ok (Some (subj, (false, sdel)), acc ++ l)).
  { induction l as [|[c d] l IH]; intros acc Hnd; simpl; [by rewrite app_nil_r|].
    assert (Hf : c ∉ dkeys acc).
    { unfold dkeys in *. rewrite map_app in Hnd. apply NoDup_app in Hnd as (_ & H & _).
      intros Hin. apply (H c Hin). simpl. set_solver. }
    replace (dmem acc c) with false by (symmetry; apply not_true_iff_false; by rewrite dmem_spec).
    rewrite dset_fresh by done. rewrite (IH (acc ++ [(c, d)])); by rewrite <- app_assoc. }
  rewrite (Hc personal []) by done. cbn [res_bind app].
  by destruct (classify _ _ _ _ _ _ _).
Qed.

Definition annotated_info : class_info :=
  mkClass (Some [(bs "id", HOther [HAnnotated [Subject false true] (HOther [])]);
                 (bs "email", HAnnotated [OtherExtra; Personal (DStr (bs "redact"))] (HOther []))])
    None.

Lemma annotations_agree_witness :
  declare_model sample_columns empty_registry 1 annotated_info =
    let! reg := classify sample_columns empty_registry 1 (Some (bs "id"))
                  [(bs "email", DStr (bs "redact"))] true ExNone in
    Ok (reg, true).
Proof.
  apply (annotations_agree sample_columns empty_registry 1 annotated_info (bs "id") true
    [(bs "email", DStr (bs "redact"))]).
  - vm_compute. reflexivity.
  - apply NoDup_singleton.
Defined.
