(* ===== verification/PyText.v ===== *)
(** * Decimal text and character classes

    [str] of an integer, as the list of its code points, and what reading the
    digits back gives; then the classes of characters [str] methods test. *)

From Stdlib Require DecimalString DecimalPos DecimalFacts.
From stdpp Require Import base sets strings numbers list gmap.
From Stdlib Require Import ZArith Lia.
From S2P Require Import Prelude PyCollections.
#[local] Open Scope Z_scope.

(** [str(n)]. *)
Definition str_of_Z (n : Z) : pystr :=
  bs (DecimalString.NilZero.string_of_int (Z.to_int n)).

Definition is_ascii_digit (c : Z) : bool := (48 <=? c) && (c <=? 57).

(** The number a list of ASCII digits spells, after [acc]. *)
Fixpoint digits_value (acc : Z) (ds : pystr) : Z :=
  match ds with
  | [] => acc
  | d :: ds => digits_value (acc * 10 + (d - 48)) ds
  end.

Abbreviation uint_text u := (bs (DecimalString.NilEmpty.string_of_uint u)).

Lemma uint_text_digits u : forallb is_ascii_digit (uint_text u) = true.
Proof. induction u as [|u IH|u IH|u IH|u IH|u IH|u IH|u IH|u IH|u IH|u IH]; cbn; done. Qed.

Lemma uint_text_acc u p :
  digits_value (Z.pos p) (uint_text u) = Z.pos (Pos.of_uint_acc u p).
Proof.
  revert p. induction u as [|u IH|u IH|u IH|u IH|u IH|u IH|u IH|u IH|u IH|u IH]; intros p;
    [done|cbn -[Z.add Z.mul Z.sub Pos.mul Pos.add]; rewrite <- IH; f_equal; lia..].
Qed.

Lemma uint_text_value u : digits_value 0 (uint_text u) = Z.of_N (Pos.of_uint u).
Proof.
  induction u as [|u IH|u IH|u IH|u IH|u IH|u IH|u IH|u IH|u IH|u IH];
    [done|exact IH|cbn -[Pos.of_uint_acc]; apply uint_text_acc..].
Qed.

Lemma to_uint_head p u : Pos.to_uint p <> Decimal.D0 u.
Proof.
  intros E. pose proof (DecimalPos.Unsigned.to_of (Pos.to_uint p)) as H.
  rewrite DecimalPos.Unsigned.of_to in H. cbn [N.to_uint] in H.
  rewrite E in H. rewrite DecimalFacts.unorm_D0 in H.
  pose proof (DecimalFacts.nb_digits_unorm u) as Hn. rewrite <- H in Hn. simpl in Hn.
  destruct u; [by apply (DecimalPos.Unsigned.to_uint_nonzero p)|specialize (Hn ltac:(done)); lia..].
Qed.

Lemma digits_value_grows acc ds :
  forallb is_ascii_digit ds = true -> 0 <= acc -> acc * 10 ^ zlen ds <= digits_value acc ds.
Proof.
  revert acc. induction ds as [|d ds IH]; intros acc Hd Ha; [unfold zlen; simpl; lia|].
  cbn [forallb] in Hd. apply andb_prop in Hd as [H1 H2]. unfold is_ascii_digit in H1.
  cbn [digits_value]. rewrite zlen_cons, Z.pow_add_r by (pose proof (zlen_nonneg ds); lia).
  etransitivity; [|apply IH; [done|lia]].
  assert (0 <= 10 ^ zlen ds) by (apply Z.pow_nonneg; lia). nia.
Qed.

(** The digits of a number: its value, no leading zero, and their count. *)
Lemma str_of_Z_digits n :
  0 <= n ->
  exists d ds, str_of_Z n = d :: ds /\ forallb is_ascii_digit (d :: ds) = true /\
    digits_value 0 (d :: ds) = n /\ (d = 48 -> ds = []) /\ (0 < n -> 10 ^ zlen ds <= n).
Proof.
  intros Hn. destruct n as [|p|p]; [|unfold str_of_Z; cbn [Z.to_int]|lia].
  { exists 48, []. repeat split; try done; lia. }
  pose proof (uint_text_digits (Pos.to_uint p)) as Hd.
  pose proof (uint_text_value (Pos.to_uint p)) as Hv. rewrite DecimalPos.Unsigned.of_to in Hv.
  pose proof (to_uint_head p) as H0. pose proof (DecimalPos.Unsigned.to_uint_nonnil p) as Hnil.
  assert (Hhead : forall d ds, uint_text (Pos.to_uint p) = d :: ds -> d <> 48).
  { intros d ds. destruct (Pos.to_uint p) eqn:E; cbn; intros [= <- <-]; try lia.
    intros _. by apply (H0 u). }
  assert (Htext : DecimalString.NilZero.string_of_int (Decimal.Pos (Pos.to_uint p)) =
    DecimalString.NilEmpty.string_of_uint (Pos.to_uint p)) by (by destruct (Pos.to_uint p)).
  rewrite Htext. destruct (uint_text (Pos.to_uint p)) as [|d ds] eqn:E.
  { by destruct (Pos.to_uint p). }
  specialize (Hhead d ds eq_refl). exists d, ds. repeat split; [done..|].
  intros _. cbn [digits_value] in Hv. rewrite Z.mul_0_l, Z.add_0_l in Hv.
  cbn [forallb] in Hd. apply andb_prop in Hd as [Hd1 Hd2]. unfold is_ascii_digit in Hd1.
  pose proof (digits_value_grows (d - 48) ds Hd2) as Hg.
  assert (0 <= 10 ^ zlen ds) by (apply Z.pow_nonneg; lia). simpl in Hv. nia.
Qed.

(** ** Framing *)

Lemma str_of_Z_inj m n : 0 <= m -> 0 <= n -> str_of_Z m = str_of_Z n -> m = n.
Proof.
  intros Hm Hn E. destruct (str_of_Z_digits m Hm) as (d & ds & E1 & _ & V1 & _).
  destruct (str_of_Z_digits n Hn) as (d' & ds' & E2 & _ & V2 & _). congruence.
Qed.

Lemma digits_of n : 0 <= n -> forallb is_ascii_digit (str_of_Z n) = true.
Proof. intros Hn. by destruct (str_of_Z_digits n Hn) as (d & ds & -> & H & _). Qed.

Lemma str_of_Z_neg p : str_of_Z (Z.neg p) = 45 :: str_of_Z (Z.pos p).
Proof. reflexivity. Qed.

Lemma str_of_Z_injective m n : str_of_Z m = str_of_Z n -> m = n.
Proof.
  assert (forall p n, 0 <= n -> str_of_Z (Z.neg p) <> str_of_Z n) as Hneg.
  { intros p k Hk. rewrite str_of_Z_neg. destruct (str_of_Z_digits k Hk) as (d & ds & -> & Hd & _).
    intros [= <- _]. done. }
  destruct (decide (0 <= m)), (decide (0 <= n)).
  - by apply str_of_Z_inj.
  - destruct n; try lia. intros E. symmetry in E. by apply Hneg in E.
  - destruct m; try lia. intros E. by apply Hneg in E.
  - destruct m as [| |p], n as [| |q]; try lia. rewrite !str_of_Z_neg. intros [= E]. apply str_of_Z_inj in E; lia.
Qed.

(** The text of an integer has no colon. *)
Lemma str_of_Z_no_colon n : 58 ∉ str_of_Z n.
Proof.
  assert (forall n, 0 <= n -> 58 ∉ str_of_Z n) as Hp.
  { intros k Hk Hin. pose proof (digits_of k Hk) as Hd. rewrite forallb_forall in Hd.
    apply list_elem_of_In, Hd in Hin. done. }
  destruct n as [|p|p]; [by apply Hp|by apply Hp|]. rewrite str_of_Z_neg. intros [?|Hin]%elem_of_cons; [done|].
  by apply (Hp (Z.pos p)).
Qed.

(** Digits before a colon. *)
Lemma digits_colon a b r s : forallb is_ascii_digit a = true -> forallb is_ascii_digit b = true ->
  a ++ 58 :: r = b ++ 58 :: s -> a = b /\ r = s.
Proof.
  revert b. induction a as [|x a IH]; intros [|y b]; cbn [app forallb]; [by intros _ _ [= ->]|..].
  - intros _ [Hy _]%andb_true_iff [= <- _]. done.
  - intros [Hx _]%andb_true_iff _ [= -> _]. done.
  - intros [_ Ha]%andb_true_iff [_ Hb]%andb_true_iff [= -> E]. by destruct (IH b Ha Hb E) as [-> ->].
Qed.

(** Texts, each after its length and a colon. *)
Fixpoint framed (parts : list pystr) : pystr :=
  match parts with [] => [] | b :: parts => str_of_Z (zlen b) ++ 58 :: b ++ framed parts end.

(** A framed list of known length ends where it ends. *)
Lemma framed_prefix a : forall b r s, length a = length b -> framed a ++ r = framed b ++ s -> a = b /\ r = s.
Proof.
  induction a as [|x a IH]; intros [|y b] r s; [done..|]. cbn [length framed]. intros [= Hl].
  rewrite <- !app_assoc. cbn [app]. intros E. apply digits_colon in E as [E1 E2]; [|apply digits_of, zlen_nonneg..].
  apply str_of_Z_inj in E1; [|apply zlen_nonneg..]. rewrite <- !app_assoc in E2.
  apply app_inj_1 in E2 as [-> E2]; [|unfold zlen in E1; lia]. by destruct (IH b r s Hl E2) as [-> ->].
Qed.

(** ** Character classes

    The tables of the Unicode database behind [str.isdigit], [str.isalpha],
    [str.isalnum], [str.isspace], [str.isidentifier] and [int], as an
    interface.  [UnicodeLaws] states what the documentation of Python says of
    the ASCII range; [ascii_data] is an instance that knows only that range. *)

Class UnicodeData : Type := {
  isdigit : Z -> bool;
  isalpha : Z -> bool;
  isalnum : Z -> bool;
  isspace : Z -> bool;
  (** The value of a character of category Nd, which [int] reads. *)
  decimal : Z -> option Z;
  isidentifier : pystr -> bool }.

Definition ascii_letter (c : Z) : bool :=
  ((65 <=? c) && (c <=? 90)) || ((97 <=? c) && (c <=? 122)).

Definition ascii_blank (c : Z) : bool := ((9 <=? c) && (c <=? 13)) || ((28 <=? c) && (c <=? 32)).

Definition ascii_identifier (s : pystr) : bool :=
  match s with
  | [] => false
  | c :: s =>
    (ascii_letter c || (c =? 95)) &&
    forallb (fun c => ascii_letter c || is_ascii_digit c || (c =? 95)) s
  end.

Definition is_ascii (c : Z) : bool := (0 <=? c) && (c <? 128).

Class UnicodeLaws (U : UnicodeData) : Prop := {
  isdigit_ascii : forall c, is_ascii c = true -> isdigit c = is_ascii_digit c;
  isalpha_ascii : forall c, is_ascii c = true -> isalpha c = ascii_letter c;
  isalnum_ascii : forall c, is_ascii c = true -> isalnum c = ascii_letter c || is_ascii_digit c;
  isspace_ascii : forall c, is_ascii c = true -> isspace c = ascii_blank c;
  decimal_ascii : forall c, is_ascii_digit c = true -> decimal c = Some (c - 48);
  decimal_range : forall c d, decimal c = Some d -> 0 <= d <= 9;
  isidentifier_ascii : forall s, forallb is_ascii s = true -> isidentifier s = ascii_identifier s }.

#[export] Instance ascii_data : UnicodeData := {
  isdigit := is_ascii_digit;
  isalpha := ascii_letter;
  isalnum c := ascii_letter c || is_ascii_digit c;
  isspace := ascii_blank;
  decimal c := if is_ascii_digit c then Some (c - 48) else None;
  isidentifier := ascii_identifier }.

#[export] Instance ascii_laws : UnicodeLaws ascii_data.
Proof.
  constructor; cbn; try done.
  - intros c ->. done.
  - intros c d. unfold is_ascii_digit. destruct ((48 <=? c) && (c <=? 57)) eqn:E; [|done].
    intros [= <-]. lia.
Qed.

Section text.
Context {U : UnicodeData}.

(** [str.strip()]. *)
Fixpoint lstrip_text (s : pystr) : pystr :=
  match s with
  | c :: s' => if isspace c then lstrip_text s' else s
  | [] => []
  end.

Definition strip_text (s : pystr) : pystr := rev (lstrip_text (rev (lstrip_text s))).

(** [int(s)] of a text of digits: [None] is the [ValueError] for a character
    that is a digit but not a decimal, or for more than 4300 digits. *)
Fixpoint decimals_value (acc : Z) (s : pystr) : option Z :=
  match s with
  | [] => Some acc
  | c :: s =>
    match decimal c with Some d => decimals_value (acc * 10 + d) s | None => None end
  end.

Definition int_of_digits (s : pystr) : option Z :=
  if 4300 <? zlen s then None else decimals_value 0 s.

Lemma decimals_value_ge `{!UnicodeLaws U} acc s n :
  0 <= acc -> decimals_value acc s = Some n -> 0 <= n.
Proof.
  revert acc. induction s as [|c s IH]; intros acc Ha; cbn.
  - by intros [= <-].
  - destruct (decimal c) as [d|] eqn:E; [|done]. apply decimal_range in E.
    apply IH. lia.
Qed.

Lemma int_of_digits_ge `{!UnicodeLaws U} s n : int_of_digits s = Some n -> 0 <= n.
Proof. unfold int_of_digits. destruct (_ <? _); [done|]. by apply decimals_value_ge. Qed.

End text.

(** [s.startswith(prefix)]. *)
Fixpoint startswith (prefix s : pystr) : bool :=
  match prefix, s with
  | [], _ => true
  | a :: prefix, b :: s => (a =? b) && startswith prefix s
  | _ :: _, [] => false
  end.

(** The longest prefix of characters that satisfy [f], and the rest. *)
Fixpoint span_text (f : Z -> bool) (s : pystr) : pystr * pystr :=
  match s with
  | c :: s' => if f c then let '(a, b) := span_text f s' in (c :: a, b) else ([], s)
  | [] => ([], [])
  end.

(** [needle in l] for a list or set of texts. *)
Definition text_in (s : pystr) (l : list pystr) : bool := bool_decide (s ∈ l).

Lemma startswith_spec prefix s : startswith prefix s = true <-> exists k, s = prefix ++ k.
Proof.
  revert s. induction prefix as [|a p IH]; intros s; cbn.
  - split; [eauto|done].
  - destruct s as [|b s]; [split; [done|by intros [k [=]]]|].
    rewrite andb_true_iff, IH, Z.eqb_eq. split.
    + intros [-> [k ->]]. by exists k.
    + intros [k [= -> ->]]. eauto.
Qed.

Lemma span_text_app f s a b : span_text f s = (a, b) -> s = a ++ b.
Proof.
  revert a b. induction s as [|c s IH]; intros a b; cbn; [by intros [= <- <-]|].
  destruct (f c); [|by intros [= <- <-]].
  destruct (span_text f s) as [x y]. intros [= <- <-]. cbn. f_equal. by apply IH.
Qed.

Lemma span_text_all f s a b : span_text f s = (a, b) -> forallb f a = true.
Proof.
  revert a b. induction s as [|c s IH]; intros a b; cbn; [by intros [= <- <-]|].
  destruct (f c) eqn:E; [|by intros [= <- <-]].
  destruct (span_text f s) as [x y]. intros [= <- <-]. cbn. rewrite E. by eapply IH.
Qed.

(** A run of [f] characters followed by one that is not (or the end). *)
Lemma span_text_exact f a b :
  forallb f a = true -> match b with c :: _ => f c = false | [] => True end ->
  span_text f (a ++ b) = (a, b).
Proof.
  induction a as [|c a IH]; cbn.
  - intros _. destruct b as [|c b]; [done|]. cbn. by intros ->.
  - intros [-> Ha]%andb_prop Hb. by rewrite IH.
Qed.
