(* ===== verification/PrivacyExecute.v ===== *)
(** * Running an erasure: [_privacy/execute.py] and [_privacy/record.py]

    A reviewed plan becomes one pass per table, each with the statement text it
    will run; a finished erasure is recorded once.  The class attributes read
    from a model, the digest of a plan and the refusals of
    [wreath.passes.ChunkedPass] are parameters.  A transaction that raises
    leaves the database as it was. *)

From stdpp Require Import base sets strings numbers list gmap.
From Stdlib Require Import ZArith Lia.
From S2P Require Import Prelude PyCollections PyText.
From S2P Require Import PrivacyGraph PrivacyRegistry PrivacyPlanner.
#[local] Open Scope Z_scope.

Inductive exec_error : Type :=
| PlanMoved
| ErasureBlocked
| ErasureIncomplete
| PassDeclarationError
| ExecValueError
| ExecKeyError
| ExecIndexError
| ExecFuel.

Definition of_perr (e : perr) : exec_error :=
  match e with ValueError => ExecValueError | KeyError => ExecKeyError | OutOfFuel => ExecFuel end.

Definition lift {A} (c : res perr A) : res exec_error A :=
  match c with Ok a => Ok a | Err e => Err (of_perr e) end.

(** ** Identifiers: [_pgname.validate_identifier] *)

(** The bytes of a code point in UTF-8. *)
Definition utf8_length (c : Z) : Z :=
  if c <? 0x80 then 1 else if c <? 0x800 then 2 else if c <? 0x10000 then 3 else 4.

Definition identifier_char (c : Z) : bool :=
  ((48 <=? c) && (c <=? 57)) || ((65 <=? c) && (c <=? 90)) || ((97 <=? c) && (c <=? 122)) ||
  (c =? 95) || (c =? 36).

Definition validate_identifier (v : pystr) : res exec_error pystr :=
  if bool_decide (v = []) || (foldr Z.add 0 (map utf8_length v) >? 63) then Err ExecValueError
  else if forallb identifier_char v then Ok v else Err ExecValueError.

Definition _identifier (name : pystr) : res exec_error pystr :=
  let! name := validate_identifier name in Ok ([34] ++ name ++ [34]).

(** ** Passes *)

Record Sql : Type := mkSql { sql_text : pystr; sql_values : list pystr }.

Inductive work : Type :=
| Purge (where_ : Sql)
| Rewrite (set_ : list (pystr * pystr)) (where_ : Sql).

(** The arguments of a pass that depend on the plan; its frontier (the ceiling at
    launch) and its pace are the same for all. *)
Record ChunkedPass : Type := mkPass {
  cp_name : pystr;
  cp_over : model;
  cp_key : list pystr;
  cp_limit : Z;
  cp_within : pystr;
  cp_work : work;
  cp_schema : pystr;
  cp_workload : pystr;
}.

(** What [passes._resolve_source] reads of a model class. *)
Record source_attrs : Type := mkSource {
  wreath_table : pystr;
  wreath_schema_name : option pystr;
  wreath_schema_fixed : bool;
}.

(** The table as it is written in a statement; a class that maps no table is
    refused. *)
Definition _resolve_source (a : source_attrs) : res exec_error pystr :=
  match wreath_table a with
  | [] => Err PassDeclarationError
  | table =>
    match wreath_schema_fixed a, wreath_schema_name a with
    | true, Some (c :: name) => Ok ([34] ++ (c :: name) ++ [34; 46; 34] ++ table ++ [34])
    | _, _ => Ok ([34] ++ table ++ [34])
    end
  end.

(** ** Predicates *)

Record _Predicate : Type := mkPredicate { p_text : pystr; p_values : list pystr }.

Definition REDACTED : pystr := bs "[erased]".

Section execute.
Context (source_of : model -> source_attrs).

(** [_table_sql]: the first model of the graph with this qualified name. *)
Fixpoint table_sql_loop (qname : pystr) (nodes : list (model * Node)) : res exec_error pystr :=
  match nodes with
  | [] => Err ExecValueError
  | (m, node) :: nodes =>
    if bool_decide (qualified node = qname) then _resolve_source (source_of m)
    else table_sql_loop qname nodes
  end.

Definition _table_sql (qname : pystr) (g : Graph) : res exec_error pystr :=
  table_sql_loop qname (nodes g).

Fixpoint _select_keys (edges : list Edge) (index : nat) (subject_column : pystr) (g : Graph)
    : res exec_error pystr :=
  match edges !! index with
  | None => Err ExecIndexError
  | Some edge =>
    let! parent_table := _table_sql (to_table edge) g in
    let! referenced := _identifier (to_column edge) in
    match index with
    | O =>
      let! column := _identifier subject_column in
      Ok (bs "SELECT " ++ referenced ++ bs " FROM " ++ parent_table ++ bs " WHERE " ++ column ++
          bs " = ?")
    | S i =>
      match edges !! i with
      | None => Err ExecIndexError
      | Some above =>
        let! column := _identifier (from_column above) in
        let! inner := _select_keys edges i subject_column g in
        Ok (bs "SELECT " ++ referenced ++ bs " FROM " ++ parent_table ++ bs " WHERE " ++ column ++
            bs " IN (" ++ inner ++ bs ")")
      end
    end
  end.

(** [_declares_subject]: the first classified model of this table decides. *)
Fixpoint declares_loop (action : TableAction) (g : Graph)
    (items : list (model * Classification)) : bool :=
  match items with
  | [] => false
  | (m, item) :: items =>
    match dget (nodes g) m with
    | None => declares_loop action g items
    | Some node =>
      if bool_decide (n_schema node = ta_schema action /\ n_table node = ta_table action)
      then match cl_subject item with Some (_ :: _) => true | _ => false end
      else declares_loop action g items
    end
  end.

Definition _declares_subject (action : TableAction) (reg : PrivacyRegistry) (g : Graph) : bool :=
  declares_loop action g (classifications reg).

Definition predicate_for (action : TableAction) (g : Graph) (reg : PrivacyRegistry)
    (subject_id : pystr) : res exec_error _Predicate :=
  let edges := path (ta_reach action) in
  match list.last edges with
  | None =>
    let! column := _identifier (ta_match_column action) in
    Ok (mkPredicate (column ++ bs " = ?") [subject_id])
  | Some last_edge =>
    if _declares_subject action reg g then
      let! column := _identifier (ta_match_column action) in
      Ok (mkPredicate (column ++ bs " = ?") [subject_id])
    else
      let! inner := _select_keys edges (length edges - 1) (subject_key reg) g in
      let! column := _identifier (from_column last_edge) in
      Ok (mkPredicate (column ++ bs " IN (" ++ inner ++ bs ")") [subject_id])
  end.

(** ** Anonymising *)

Definition quoted_marker : pystr := [39] ++ REDACTED ++ [39].

Fixpoint anonymise_loop (columns : list ColumnAction) (assignments : list (pystr * pystr))
    (guards : list pystr) : res exec_error (list (pystr * pystr) * list pystr) :=
  match columns with
  | [] => Ok (assignments, guards)
  | column :: columns =>
    let! name := _identifier (ca_column column) in
    if bool_decide (ca_erase column = ERASE_NULL) then
      anonymise_loop columns (dset assignments (ca_column column) (bs "NULL"))
        (guards ++ [name ++ bs " IS NOT NULL"])
    else if bool_decide (ca_erase column = ERASE_REDACT) then
      anonymise_loop columns (dset assignments (ca_column column) quoted_marker)
        (guards ++ [name ++ bs " IS DISTINCT FROM " ++ quoted_marker])
    else anonymise_loop columns assignments guards
  end.

Definition _anonymise (action : TableAction) : res exec_error (list (pystr * pystr) * pystr) :=
  let! (assignments, guards) := anonymise_loop (ta_columns action) [] [] in
  Ok (assignments, str_join (bs " OR ") guards).

(** ** Passes of a plan *)

Context (primary_key : model -> list pystr).
(** The declaration checks of [wreath.passes]. *)
Context (pass_accepted : ChunkedPass -> bool).

Definition pass_name (table subject_id : pystr) : pystr :=
  bs "privacy_erase_" ++ table ++ bs "_" ++ subject_id.

Record options : Type := mkOptions {
  o_limit : Z;
  o_within : pystr;
  o_schema : pystr;
  o_workload : pystr;
}.

Definition declare_pass (p : ChunkedPass) : res exec_error (option ChunkedPass) :=
  if pass_accepted p then Ok (Some p) else Err PassDeclarationError.

Definition _pass_for (action : TableAction) (m : option model) (g : Graph)
    (reg : PrivacyRegistry) (subject_id : pystr) (o : options)
    : res exec_error (option ChunkedPass) :=
  if bool_decide (ta_disposal action = disposal_value CASCADE \/
                  ta_disposal action = disposal_value RETAIN) then Ok None
  else
    match m with
    | None => Err ErasureBlocked
    | Some m =>
      let! where_ := predicate_for action g reg subject_id in
      let! w :=
        (if bool_decide (ta_disposal action = disposal_value DELETE) then
           Ok (Some (Purge (mkSql (p_text where_) (p_values where_))))
         else
           let! (assignments, guard) := _anonymise action in
           match assignments with
           | [] => Ok None
           | _ =>
             let text := bs "(" ++ p_text where_ ++ bs ") AND (" ++ guard ++ bs ")" in
             Ok (Some (Rewrite assignments (mkSql text (p_values where_))))
           end) in
      match w with
      | None => Ok None
      | Some w =>
        declare_pass (mkPass (pass_name (ta_table action) subject_id) m (primary_key m)
          (o_limit o) (o_within o) w (o_schema o) (o_workload o))
      end
    end.

(** The record's table is determined by the schema. *)
Record PreparedErasure : Type := mkPrepared {
  pe_plan : ErasurePlan;
  pe_steps : list (TableAction * option ChunkedPass);
  pe_schema : pystr;
  pe_workload : pystr;
}.

Definition passes (p : PreparedErasure) : list ChunkedPass := omap snd (pe_steps p).

(** [by_table]. *)
Definition by_table (g : Graph) : list ((pystr * pystr) * model) :=
  foldl (fun d '(m, node) => dset d (n_schema node, n_table node) m) [] (nodes g).

Fixpoint steps_of (tables : list TableAction) (g : Graph) (reg : PrivacyRegistry)
    (subject_id : pystr) (o : options)
    : res exec_error (list (TableAction * option ChunkedPass)) :=
  match tables with
  | [] => Ok []
  | action :: tables =>
    let m := dget (by_table g) (ta_schema action, ta_table action) in
    let! step := _pass_for action m g reg subject_id o in
    let! steps := steps_of tables g reg subject_id o in
    Ok ((action, step) :: steps)
  end.

Context (digest_of : ErasurePlan -> pystr).
(** The checks of the record's [Log] declaration. *)
Context (log_accepted : pystr -> bool).

Definition prepare (reg : PrivacyRegistry) (specs : list ModelSpec) (subject_id : pystr)
    (plan : ErasurePlan) (digest : option pystr) (o : options)
    : res exec_error PreparedErasure :=
  if match digest with Some d => bool_decide (d <> digest_of plan) | None => false end
  then Err PlanMoved
  else if blocked plan then Err ErasureBlocked
  else
    let! g := lift (build_graph specs) in
    let! steps := steps_of (pl_tables plan) g reg subject_id o in
    if log_accepted (o_schema o)
    then Ok (mkPrepared plan steps (o_schema o) (o_workload o))
    else Err ExecValueError.

(** ** Recording *)

Record ledger_row : Type := mkLedger { lr_name : pystr; lr_phase : pystr; lr_rows_done : Z }.

Record erasure_row : Type := mkErasure {
  er_subject : pystr;
  er_subject_model : pystr;
  er_subject_column : pystr;
  er_plan_digest : pystr;
  er_tables_touched : Z;
  er_rows_affected : Z;
}.

Record database : Type := mkDatabase { ledger : list ledger_row; erasures : list erasure_row }.

Definition _ledger_rows (db : database) (schema : pystr) (names : list pystr)
    : res exec_error (list (pystr * ledger_row)) :=
  match names with
  | [] => Ok []
  | _ =>
    let! _ := validate_identifier schema in
    Ok (foldl (fun d r => dset d (lr_name r) r) []
          (filter (fun r => lr_name r ∈ names) (ledger db)))
  end.

Definition finished (rows : list (pystr * ledger_row)) (name : pystr) : bool :=
  match dget rows name with Some r => bool_decide (lr_phase r = bs "done") | None => false end.

Definition unfinished (rows : list (pystr * ledger_row)) (names : list pystr) : list pystr :=
  filter (fun name => finished rows name = false) names.

Definition _require_complete (rows : list (pystr * ledger_row)) (names : list pystr)
    : res exec_error unit :=
  match unfinished rows names with [] => Ok tt | _ => Err ErasureIncomplete end.

(** [ErasureRecord.write] in the transaction. *)
Definition write_record (db : database) (plan : ErasurePlan) (tables_touched rows_affected : Z)
    : bool * database :=
  if existsb (fun r => bool_decide (er_subject r = pl_subject_id plan /\
                                    er_plan_digest r = digest_of plan)) (erasures db)
  then (false, db)
  else
    (true,
     mkDatabase (ledger db)
       (erasures db ++
        [mkErasure (pl_subject_id plan) (pl_subject_model plan) (pl_subject_column plan)
           (digest_of plan) tables_touched rows_affected])).

Definition record_erasure (prepared : PreparedErasure) (db : database)
    : res exec_error bool * database :=
  let names := map cp_name (passes prepared) in
  let outcome :=
    let! rows := _ledger_rows db (pe_schema prepared) names in
    let! _ := _require_complete rows names in
    Ok (write_record db (pe_plan prepared) (zlen names)
          (foldr Z.add 0 (map (lr_rows_done ∘ snd) rows))) in
  match outcome with
  | Ok (written, db') => (Ok written, db')
  | Err e => (Err e, db)
  end.
End execute.
