(* ===== verification/PrivacyExecuteClaims.v ===== *)
(** * Running an erasure: the statements and the record

    A small relational reading of the generated conditions, and the lemmas
    behind the claims of [PrivacyExecuteClaims]. *)

From stdpp Require Import base sets strings numbers list gmap.
From Stdlib Require Import ZArith Lia.
From S2P Require Import Prelude PyCollections PrivacyGraph PrivacyRegistry PrivacyPlanner PyText.
From S2P Require Import PrivacyExecute.
#[local] Open Scope Z_scope.

(** ** Conditions *)

(** [column = ?] and [column IN (SELECT selected FROM table WHERE inner)]. *)
Inductive sql_cond : Type :=
| CEq (column : pystr)
| CIn (column selected table : pystr) (inner : sql_cond).

Definition quote (name : pystr) : pystr := [34] ++ name ++ [34].

Fixpoint render (c : sql_cond) : pystr :=
  match c with
  | CEq column => quote column ++ bs " = ?"
  | CIn column selected table inner =>
    quote column ++ bs " IN (" ++
    (bs "SELECT " ++ quote selected ++ bs " FROM " ++ table ++ bs " WHERE " ++ render inner) ++
    bs ")"
  end.

(** A row gives each column a value or NULL; a database gives each table its
    rows. *)
Definition row : Type := pystr -> option pystr.

Fixpoint holds (tables : pystr -> list row) (subject : pystr) (c : sql_cond) (r : row) : bool :=
  match c with
  | CEq column => bool_decide (r column = Some subject)
  | CIn column selected table inner =>
    match r column with
    | None => false
    | Some x =>
      existsb (fun p => bool_decide (p selected = Some x) && holds tables subject inner p)
        (tables table)
    end
  end.

(** Every column named in the condition is a plain identifier. *)
Fixpoint plain (c : sql_cond) : bool :=
  match c with
  | CEq column => forallb identifier_char column
  | CIn column selected _ inner =>
    forallb identifier_char column && forallb identifier_char selected && plain inner
  end.

(** What a model class has to be for its table to be written plainly: mapped
    classes have such table names ([orm/model.py], [validate_identifier]); the name
    of a schema reference is the declaration's own. *)
Definition plain_source (a : source_attrs) : bool :=
  forallb identifier_char (wreath_table a) &&
  match wreath_schema_fixed a, wreath_schema_name a with
  | true, Some name => forallb identifier_char name
  | _, _ => true
  end.

(** A quoted identifier, or two with a dot between. *)
Definition plain_table (text : pystr) : Prop :=
  exists name, forallb identifier_char name = true /\
    (text = quote name \/
     exists schema, forallb identifier_char schema = true /\ text = quote schema ++ [46] ++ quote name).

Fixpoint plain_tables (c : sql_cond) : Prop :=
  match c with
  | CEq _ => True
  | CIn _ _ table inner => plain_table table /\ plain_tables inner
  end.

Lemma resolve_source_plain a text : plain_source a = true -> _resolve_source a = Ok text -> plain_table text.
Proof.
  unfold plain_source, _resolve_source. intros [Ht Hs]%andb_prop. destruct (wreath_table a) as [|t ts] eqn:E; [done|].
  intros H. exists (t :: ts). split; [done|].
  destruct (wreath_schema_fixed a); [|left; by injection H as <-].
  destruct (wreath_schema_name a) as [[|n name]|]; [left; by injection H as <-| |left; by injection H as <-].
  right. exists (n :: name). split; [done|]. injection H as <-. unfold quote. by rewrite <- !app_assoc.
Qed.

Lemma identifier_ok name text :
  _identifier name = Ok text -> text = quote name /\ forallb identifier_char name = true.
Proof.
  unfold _identifier, validate_identifier. destruct (_ || _); [done|].
  destruct (forallb identifier_char name) eqn:E; [|done]. by intros [= <-].
Qed.

Section linked.
Context (source_of : model -> source_attrs).

(** The text a table is read under. *)
Definition table_text (g : Graph) (qname : pystr) : pystr :=
  match _table_sql source_of qname g with Ok t => t | Err _ => [] end.

Definition plain_sources (g : Graph) : Prop :=
  forall m node, (m, node) ∈ nodes g -> plain_source (source_of m) = true.

Lemma table_sql_plain g qname text :
  plain_sources g -> _table_sql source_of qname g = Ok text -> plain_table text.
Proof.
  unfold plain_sources, _table_sql. induction (nodes g) as [|[m node] l IH]; [done|]. cbn [table_sql_loop]. intros Hp.
  case_bool_decide.
  - apply resolve_source_plain. apply (Hp m node). by left.
  - apply IH. intros m' node' Hin. apply (Hp m' node'). by right.
Qed.

(** A row belongs to the subject through a chain of foreign keys, given from
    the row's own key outward; the last parent is a row of the subject. *)
Inductive linked (g : Graph) (tables : pystr -> list row) (key subject : pystr)
    : list Edge -> row -> Prop :=
| linked_subject r : r key = Some subject -> linked g tables key subject [] r
| linked_edge e es r parent x :
    r (from_column e) = Some x -> parent ∈ tables (table_text g (to_table e)) ->
    parent (to_column e) = Some x -> linked g tables key subject es parent ->
    linked g tables key subject (e :: es) r.

(** One more foreign key around a condition. *)
Lemma holds_linked g tables key subject e es inner r :
  (forall r, holds tables subject inner r = true <-> linked g tables key subject es r) ->
  holds tables subject (CIn (from_column e) (to_column e) (table_text g (to_table e)) inner) r = true <->
  linked g tables key subject (e :: es) r.
Proof.
  intros Hlink. cbn [holds]. destruct (r (from_column e)) as [x|] eqn:Ex.
  - rewrite existsb_exists. split.
    + intros (p & Hp1 & Hp2). apply andb_prop in Hp2 as [H1 H2].
      apply bool_decide_eq_true in H1. econstructor; [done| |done|by apply Hlink].
      by apply list_elem_of_In.
    + intros Hl. inversion Hl as [|? ? ? parent y Hy Hin Hto Hl']; subst.
      exists parent. split; [by apply list_elem_of_In|].
      rewrite (proj2 (Hlink parent) Hl'), andb_true_r. apply bool_decide_eq_true. congruence.
  - split; [done|]. intros Hl. inversion Hl; congruence.
Qed.

(** The condition built for the first [S i] edges of a path. *)
Lemma select_keys_cond g key edges i e text :
  edges !! i = Some e -> _select_keys source_of edges i key g = Ok text ->
  exists inner,
    text = bs "SELECT " ++ quote (to_column e) ++ bs " FROM " ++ table_text g (to_table e) ++
           bs " WHERE " ++ render inner /\
    forallb identifier_char (to_column e) = true /\ plain inner = true /\
    (plain_sources g -> plain_table (table_text g (to_table e)) /\ plain_tables inner) /\
    forall tables subject r,
      holds tables subject inner r = true <-> linked g tables key subject (rev (take i edges)) r.
Proof.
  revert e text. induction i as [|i IH]; intros e text He; cbn [_select_keys]; rewrite He.
  all: assert (Ht : forall t, _table_sql source_of (to_table e) g = Ok t -> table_text g (to_table e) = t)
    by (intros t Ht; unfold table_text; by rewrite Ht).
  all: destruct (_table_sql source_of (to_table e) g) as [pt|] eqn:Et; [|done].
  all: rewrite (Ht pt eq_refl); clear Ht; cbn [res_bind].
  all: pose proof (fun Hps => table_sql_plain g _ _ Hps Et) as Hplain.
  all: destruct (_identifier (to_column e)) as [rt|] eqn:Er; [|done].
  all: apply identifier_ok in Er as [-> Hr]; cbn [res_bind].
  - destruct (_identifier key) as [kt|] eqn:Ek; [|done]. apply identifier_ok in Ek as [-> Hk].
    intros [= <-]. exists (CEq key). do 4 (split; [done || (intros Hps; split; [by apply Hplain|done])|]). split.
    + cbn [holds]. intros Hb. apply bool_decide_eq_true in Hb. by constructor.
    + intros Hl. cbn [holds]. apply bool_decide_eq_true. by inversion Hl.
  - destruct (lookup_lt_is_Some_2 edges i) as [above Ha].
    { apply lookup_lt_Some in He. lia. }
    rewrite Ha. destruct (_identifier (from_column above)) as [ct|] eqn:Ec; [|done].
    apply identifier_ok in Ec as [-> Hc]. cbn [res_bind].
    destruct (_select_keys source_of edges i key g) as [inner|] eqn:Ei; [|done].
    destruct (IH above inner Ha eq_refl) as (c & -> & Hsel & Hp & Hts & Hlink).
    intros [= <-].
    exists (CIn (from_column above) (to_column above) (table_text g (to_table above)) c).
    split; [done|]. split; [done|]. split; [cbn [plain]; by rewrite Hc, Hsel, Hp|].
    split; [intros Hps; split; [by apply Hplain|by apply Hts]|].
    intros tables subject r. rewrite (take_S_r _ _ _ Ha), rev_app_distr.
    by apply holds_linked.
Qed.
End linked.

(** ** Anonymising *)

(** Columns set to NULL ([true]) or to the marker ([false]). *)
Definition erased_columns (columns : list ColumnAction) : list (pystr * bool) :=
  omap (fun c =>
    if bool_decide (ca_erase c = ERASE_NULL) then Some (ca_column c, true)
    else if bool_decide (ca_erase c = ERASE_REDACT) then Some (ca_column c, false)
    else None) columns.

Definition assignment_text (null : bool) : pystr := if null then bs "NULL" else quoted_marker.

Definition guard_text (c : pystr * bool) : pystr :=
  quote (fst c) ++
  (if snd c : bool then bs " IS NOT NULL" else bs " IS DISTINCT FROM " ++ quoted_marker).

(** What the assignments do to a row, and when the guard selects one. *)
Definition erased_value (null : bool) : option pystr := if null then None else Some REDACTED.

Definition assign (cols : list (pystr * bool)) (r : row) : row :=
  fun c => match dget cols c with Some null => erased_value null | None => r c end.

Definition guard (cols : list (pystr * bool)) (r : row) : bool :=
  existsb (fun '(c, null) => bool_decide (r c <> erased_value null)) cols.

Lemma anonymise_loop_spec columns assignments guards out gs :
  anonymise_loop columns assignments guards = Ok (out, gs) ->
  out = foldl (fun d '(c, null) => dset d c (assignment_text null)) assignments
          (erased_columns columns) /\
  gs = guards ++ map guard_text (erased_columns columns).
Proof.
  revert assignments guards. induction columns as [|c columns IH]; intros asg grd; cbn [anonymise_loop].
  - intros [= <- <-]. by rewrite app_nil_r.
  - destruct (_identifier (ca_column c)) as [name|] eqn:En; [|done].
    apply identifier_ok in En as [-> _]. cbn [res_bind]. unfold erased_columns. cbn [omap list_omap].
    case_bool_decide as H1; [|case_bool_decide as H2].
    + intros E. apply IH in E as [-> ->]. cbn [foldl map]. by rewrite <- app_assoc.
    + intros E. apply IH in E as [-> ->]. cbn [foldl map]. by rewrite <- app_assoc.
    + apply IH.
Qed.

Lemma assignments_nodup (cols : list (pystr * bool)) (d : list (pystr * pystr)) :
  NoDup (dkeys cols) -> (forall c, c ∈ dkeys cols -> c ∉ dkeys d) ->
  foldl (fun d '(c, null) => dset d c (assignment_text null)) d cols =
  d ++ map (fun '(c, null) => (c, assignment_text null)) cols.
Proof.
  revert d. induction cols as [|[c null] cols IH]; intros d Hn Hd; [by rewrite app_nil_r|].
  cbn in Hn. apply NoDup_cons in Hn as [Hc Hn]. cbn [foldl map].
  rewrite dset_fresh by (apply Hd; set_solver). rewrite IH; [by rewrite <- app_assoc|done|].
  intros c' Hc'. unfold dkeys. rewrite map_app. cbn. intros Hin. apply elem_of_app in Hin as [Hin|Hin].
  - revert Hin. apply Hd. set_solver.
  - apply list_elem_of_singleton in Hin as ->. done.
Qed.

Lemma guard_assigned cols r : NoDup (dkeys cols) -> guard cols (assign cols r) = false.
Proof.
  intros Hn. apply not_true_is_false. intros Hg. unfold guard in Hg.
  apply existsb_exists in Hg as ([c null] & Hin & Hb). apply bool_decide_eq_true in Hb.
  apply Hb. unfold assign. rewrite (dget_nodup cols c null); [done..|by apply list_elem_of_In].
Qed.

Lemma unguarded_assigned cols r : guard cols r = false -> forall c, assign cols r c = r c.
Proof.
  intros Hg c. unfold assign. destruct (dget cols c) as [null|] eqn:E; [|done].
  apply dget_elem in E. destruct (decide (r c = erased_value null)) as [->|Hne]; [done|].
  exfalso. assert (guard cols r = true); [|congruence]. apply existsb_exists.
  exists (c, null). split; [by apply list_elem_of_In|]. by apply bool_decide_eq_true.
Qed.

(** ** The record *)

Lemma ledger_rows_elem ls (d : list (pystr * ledger_row)) name r :
  dget (foldl (fun d r => dset d (lr_name r) r) d ls) name = Some r ->
  (r ∈ ls /\ lr_name r = name) \/ dget d name = Some r.
Proof.
  revert d. induction ls as [|l ls IH]; intros d; cbn [foldl]; [by right|].
  intros H. apply IH in H as [[Hin Hn]|H]; [left; set_solver|].
  rewrite dget_dset in H. case_decide as Hd; [|by right]. injection H as <-. left. set_solver.
Qed.

Lemma require_complete_done db schema names rows :
  _ledger_rows db schema names = Ok rows -> _require_complete rows names = Ok tt ->
  forall name, name ∈ names ->
  exists r, r ∈ ledger db /\ lr_name r = name /\ lr_phase r = bs "done".
Proof.
  intros Hr Hc name Hin. unfold _require_complete in Hc.
  destruct (unfinished rows names) eqn:Eu; [|done].
  assert (Hf : finished rows name = true).
  { destruct (finished rows name) eqn:Ef; [done|]. assert (name ∈ unfinished rows names) as Hx.
    { by apply list_elem_of_filter. }
    rewrite Eu in Hx. set_solver. }
  unfold finished in Hf. destruct (dget rows name) as [r|] eqn:Er; [|done].
  apply bool_decide_eq_true in Hf. exists r. unfold _ledger_rows in Hr.
  destruct names as [|n0 names]; [set_solver|]. destruct (validate_identifier schema); [|done].
  injection Hr as <-. apply ledger_rows_elem in Er as [[Hl Hn]|Er]; [|done].
  apply list_elem_of_filter in Hl as [_ Hl]. done.
Qed.

Lemma ledger_rows_some ls (d : list (pystr * ledger_row)) r :
  r ∈ ls -> is_Some (dget (foldl (fun d r => dset d (lr_name r) r) d ls) (lr_name r)).
Proof.
  assert (Hkeep : forall ls d name, is_Some (dget d name) ->
    is_Some (dget (foldl (fun d r => dset d (lr_name r) r) d ls) name)).
  { clear. intros ls. induction ls as [|l ls IH]; intros d name H; [done|]. cbn [foldl].
    apply IH. rewrite dget_dset. by case_decide. }
  revert d. induction ls as [|l ls IH]; intros d; [set_solver|].
  rewrite elem_of_cons. cbn [foldl]. intros [->|Hr]; [|by apply IH].
  apply Hkeep. rewrite dget_dset. by rewrite decide_True by done.
Qed.

Lemma require_incomplete db schema names rows e :
  _ledger_rows db schema names = Ok rows -> _require_complete rows names = Err e ->
  e = ErasureIncomplete /\
  exists name, name ∈ names /\
    forall r, r ∈ ledger db -> lr_name r = name ->
    exists r', r' ∈ ledger db /\ lr_name r' = name /\ lr_phase r' <> bs "done".
Proof.
  intros Hr Hc. unfold _require_complete in Hc.
  destruct (unfinished rows names) as [|name rest] eqn:Eu; [done|]. injection Hc as <-.
  split; [done|]. exists name. assert (Hin : name ∈ unfinished rows names) by (rewrite Eu; set_solver).
  apply list_elem_of_filter in Hin as [Hf Hin]. split; [done|]. intros r Hl Hn.
  unfold _ledger_rows in Hr. destruct names as [|n0 names]; [set_solver|].
  destruct (validate_identifier schema); [|done]. injection Hr as <-. unfold finished in Hf.
  destruct (ledger_rows_some (filter (fun r => lr_name r ∈ n0 :: names) (ledger db)) [] r) as [r' Er'].
  { apply list_elem_of_filter. by rewrite Hn. }
  rewrite Hn in Er'. rewrite Er' in Hf. apply bool_decide_eq_false in Hf.
  apply ledger_rows_elem in Er' as [[Hl' Hn']|]; [|done]. apply list_elem_of_filter in Hl' as [_ Hl'].
  by exists r'.
Qed.

(** ** Claims on running an erasure

    What the generated statements select, what a prepared erasure contains,
    and when an erasure is recorded. *)

(** *** A sample erasure *)

Definition id_column : ColumnSpec := mkColumn (bs "id") false None.
Definition foreign (name : pystr) (target : model) : ColumnSpec :=
  mkColumn name false (Some (mkRef target (bs "id") (bs "a") false)).

(** Comments reference photos, photos reference users. *)
Definition exec_specs : list ModelSpec := [
  mkSpec 1 (bs "User") (bs "app") (bs "users") [id_column] [id_column];
  mkSpec 2 (bs "Photo") (bs "app") (bs "photos") [id_column] [id_column; foreign (bs "owner_id") 1];
  mkSpec 3 (bs "Comment") (bs "app") (bs "comments") [id_column]
    [id_column; foreign (bs "photo_id") 2]
].

Definition exec_registry : PrivacyRegistry :=
  mkRegistry (Some 1) (bs "id") true
    [(2, mkClassification 2 None [(bs "gps", DStr ERASE_NULL)] true None);
     (3, mkClassification 3 None [(bs "author", DStr ERASE_NULL); (bs "body", DStr ERASE_REDACT)]
           true None)] [].

Definition exec_plan : ErasurePlan :=
  Eval vm_compute in
  match build_plan id (fun _ => []) exec_registry exec_specs (bs "7") with
  | Ok plan => plan
  | Err _ => mkPlan [] [] [] [] [] [] [] [] [] []
  end.

Definition exec_graph : Graph :=
  Eval vm_compute in match build_graph exec_specs with Ok g => g | Err _ => mkGraph [] [] [] end.

Definition exec_source (m : model) : source_attrs :=
  mkSource (if m =? 1 then bs "users" else if m =? 2 then bs "photos" else bs "comments")
    (Some (bs "app")) true.

Definition comment_action : TableAction :=
  Eval vm_compute in
  match pl_tables exec_plan with a :: _ => a | [] => mkTableAction [] [] [] [] (mkReach []) [] [] [] 0 end.

Definition exec_options : options := mkOptions 500 (bs "2s") (bs "wreath") (bs "write").
Definition exec_digest (plan : ErasurePlan) : pystr := pl_subject_id plan.

Definition exec_prepared : PreparedErasure :=
  Eval vm_compute in
  match prepare exec_source (fun _ => [bs "id"]) (fun _ => true) exec_digest (fun _ => true)
          exec_registry exec_specs (bs "7") exec_plan (Some (bs "7")) exec_options with
  | Ok p => p
  | Err _ => mkPrepared exec_plan [] [] []
  end.

(** *** Statements *)

(** C39. The condition generated for a table is well formed, its columns are plain
    identifiers, its tables are too where the models' names are (the table names of
    mapped classes are checked, the name of a schema reference is not), and the
    subject is its one bound value.  It selects exactly the rows whose match column
    holds the subject when the printed path is empty or the table declares the
    subject, which sets the path aside, and otherwise the rows linked to a row of
    the subject by the foreign keys of the printed path. *)
Theorem predicate_selects_subject source_of action g reg subject p :
  predicate_for source_of action g reg subject = Ok p ->
  p_values p = [subject] /\
  exists c, p_text p = render c /\ plain c = true /\ (plain_sources source_of g -> plain_tables c) /\
    forall tables r,
      holds tables subject c r = true <->
      if bool_decide (path (ta_reach action) = []) || _declares_subject action reg g
      then r (ta_match_column action) = Some subject
      else linked source_of g tables (subject_key reg) subject (rev (path (ta_reach action))) r.
Proof.
  unfold predicate_for. set (edges := path (ta_reach action)).
  assert (Hdirect : forall column, _identifier (ta_match_column action) = Ok column ->
    exists c, column ++ bs " = ?" = render c /\ plain c = true /\ (plain_sources source_of g -> plain_tables c) /\ forall tables r,
      holds tables subject c r = true <-> r (ta_match_column action) = Some subject).
  { intros column E. apply identifier_ok in E as [-> Hi]. exists (CEq (ta_match_column action)).
    split; [done|]. split; [done|]. split; [done|]. intros tables r. apply bool_decide_eq_true. }
  destruct (list.last edges) as [e|] eqn:El.
  2: { apply last_None in El. rewrite El. destruct (_identifier _) as [column|] eqn:E; [|done].
       intros [= <-]. split; [done|]. destruct (Hdirect column eq_refl) as (c & Hc). by exists c. }
  assert (Hne : edges <> []) by (intros E; by rewrite E in El). rewrite bool_decide_false by done.
  cbn [orb]. destruct (_declares_subject action reg g).
  { destruct (_identifier (ta_match_column action)) as [column|] eqn:E; [|done].
    intros [= <-]. split; [done|]. destruct (Hdirect column eq_refl) as (c & Hc). by exists c. }
  destruct (_select_keys source_of edges (length edges - 1) (subject_key reg) g) as [inner|] eqn:Ei; [|done].
  destruct (_identifier (from_column e)) as [column|] eqn:Ec; [|done].
  intros [= <-]. split; [done|].
  assert (He : edges !! (length edges - 1)%nat = Some e).
  { rewrite last_lookup in El. by replace (length edges - 1)%nat with (pred (length edges)) by lia. }
  destruct (select_keys_cond source_of g (subject_key reg) edges _ e inner He Ei)
    as (c & -> & Hsel & Hp & Hts & Hlink).
  apply identifier_ok in Ec as [-> Hc].
  exists (CIn (from_column e) (to_column e) (table_text source_of g (to_table e)) c).
  split; [done|]. split; [cbn [plain]; by rewrite Hc, Hsel, Hp|]. split; [exact Hts|]. intros tables r.
  assert (Hrev : rev edges = e :: rev (take (length edges - 1) edges)).
  { rewrite <- (take_drop (length edges - 1) edges) at 1.
    rewrite rev_app_distr, (drop_S _ _ _ He).
    rewrite drop_ge by (destruct edges; simpl in *; [done|lia]). done. }
  rewrite Hrev. apply holds_linked. intros r'. apply Hlink.
Qed.

(** The comments table: two subqueries around the subject. *)
Lemma predicate_selects_subject_witness :
  exists p, predicate_for exec_source comment_action exec_graph exec_registry (bs "7") = Ok p /\
  p_values p = [bs "7"] /\
  exists c, p_text p = render c /\ plain c = true /\ plain_tables c /\
    forall tables r,
      holds tables (bs "7") c r = true <->
      linked exec_source exec_graph tables (bs "id") (bs "7") (rev (path (ta_reach comment_action))) r.
Proof.
  destruct (predicate_selects_subject exec_source comment_action exec_graph exec_registry (bs "7") _ eq_refl)
    as [Hv (c & Ht & Hc & Hts & Hsel)].
  eexists. split; [reflexivity|]. split; [exact Hv|]. exists c. split; [exact Ht|]. split; [exact Hc|].
  split; [|exact Hsel]. apply Hts. intros m node Hin. vm_compute in Hin.
  unfold plain_source, exec_source. cbn [wreath_table wreath_schema_fixed wreath_schema_name].
  destruct (m =? 1); [reflexivity|]. destruct (m =? 2); reflexivity.
Defined.

(** *** The table text *)

(** A model declared with [SchemaRef] of kind fixed may carry any schema name, and it is
    written as it is. *)
Example schema_reference_unchecked :
  table_text (fun _ => mkSource (bs "users") (Some [97; 34; 59]) true) exec_graph (bs "app.users") =
  [34; 97; 34; 59; 34; 46] ++ quote (bs "users").
Proof. vm_compute. reflexivity. Qed.

(** A model declared with its schema as a string is read under its table name alone. *)
Example string_schema_dropped :
  table_text (fun _ => mkSource (bs "users") None false) exec_graph (bs "app.users") = quote (bs "users").
Proof. vm_compute. reflexivity. Qed.

(** *** Preparing *)

(** What a plan's action becomes. *)
Definition step_ok (source_of : model -> source_attrs) (g : Graph) (reg : PrivacyRegistry)
    (subject : pystr) (action : TableAction) (step : option ChunkedPass) : Prop :=
  if bool_decide (ta_disposal action = disposal_value CASCADE \/
                  ta_disposal action = disposal_value RETAIN) then step = None
  else
    exists where_, predicate_for source_of action g reg subject = Ok where_ /\
    if bool_decide (ta_disposal action = disposal_value DELETE) then
      exists p, step = Some p /\ cp_work p = Purge (mkSql (p_text where_) [subject]) /\
        cp_name p = pass_name (ta_table action) subject
    else
      match step with
      | None => erased_columns (ta_columns action) = []
      | Some p =>
        exists set_ guard, _anonymise action = Ok (set_, guard) /\
        erased_columns (ta_columns action) <> [] /\
        cp_work p = Rewrite set_
          (mkSql (bs "(" ++ p_text where_ ++ bs ") AND (" ++ guard ++ bs ")") [subject]) /\
        cp_name p = pass_name (ta_table action) subject
      end.

Lemma predicate_values source_of action g reg subject p :
  predicate_for source_of action g reg subject = Ok p -> p_values p = [subject].
Proof.
  unfold predicate_for. intros H. destruct (list.last _); [destruct (_declares_subject _ _ _)|];
    repeat (apply res_bind_Ok in H as (? & _ & H)); by injection H as <-.
Qed.

Lemma assignments_empty cols (d : list (pystr * pystr)) :
  foldl (fun d '(c, null) => dset d c (assignment_text null)) d cols = [] -> cols = [].
Proof.
  destruct cols as [|[c n] cols]; [done|]. cbn [foldl]. intros H. exfalso.
  assert (Hd : dset d c (assignment_text n) <> []).
  { destruct d as [|[k v] d]; cbn; [done|]. by case_decide. }
  revert Hd H. generalize (dset d c (assignment_text n)). clear. intros d.
  revert d. induction cols as [|[c n] cols IH]; intros d Hd; cbn [foldl]; [done|].
  apply IH. destruct d as [|[k v] d]; [done|]. cbn. by case_decide.
Qed.

Lemma pass_for_step source_of primary_key accepted action m g reg subject o step :
  _pass_for source_of primary_key accepted action m g reg subject o = Ok step ->
  step_ok source_of g reg subject action step.
Proof.
  unfold _pass_for, step_ok. case_bool_decide as Hc; [by intros [= <-]|].
  destruct m as [m|]; [|done].
  destruct (predicate_for source_of action g reg subject) as [w|] eqn:Ew; [|done].
  cbn [res_bind]. intros H. exists w. split; [done|].
  pose proof (predicate_values _ _ _ _ _ _ Ew) as Hv.
  case_bool_decide as Hd.
  - cbn [res_bind] in H. unfold declare_pass in H. destruct (accepted _); [|done].
    injection H as <-. eexists. split; [done|]. cbn. by rewrite Hv.
  - destruct (_anonymise action) as [[set_ guard]|] eqn:Ea; [|done]. cbn [res_bind] in H.
    pose proof Ea as Ea'. unfold _anonymise in Ea'. apply res_bind_Ok in Ea' as ([out gs] & El & E).
    injection E as -> _. apply anonymise_loop_spec in El as [Hout _].
    destruct set_ as [|s set_]; cbn [res_bind] in H.
    + injection H as <-. by eapply assignments_empty.
    + unfold declare_pass in H. destruct (accepted _); [|done]. injection H as <-.
      exists (s :: set_), guard. split; [done|]. split; [|cbn; by rewrite Hv].
      intros E. rewrite E in Hout. done.
Qed.

Lemma steps_of_ok source_of primary_key accepted tables g reg subject o steps :
  steps_of source_of primary_key accepted tables g reg subject o = Ok steps ->
  Forall2 (fun action step => fst step = action /\
    step_ok source_of g reg subject action (snd step)) tables steps.
Proof.
  revert steps. induction tables as [|a tables IH]; intros steps; cbn [steps_of].
  - intros [= <-]. constructor.
  - intros H. apply res_bind_Ok in H as (step & Hs & H). apply res_bind_Ok in H as (rest & Hr & H).
    injection H as <-. constructor; [|by apply IH]. split; [done|]. by eapply pass_for_step.
Qed.

(** [prepare] refuses a plan whose digest is not the reviewed one before
    anything else, then a blocked plan; what it prepares has one step per table
    action, in the plan's order: nothing for a cascade or a retained table, a
    purge of the subject's rows for a delete, and otherwise a rewrite of the
    subject's rows that empties the columns declared null or redact, with no
    step when there is none. *)
Theorem prepare_faithful source_of primary_key accepted digest_of log_ok reg specs subject plan
    digest o :
  let reviewed := match digest with Some d => bool_decide (d = digest_of plan) | None => true end in
  let result :=
    prepare source_of primary_key accepted digest_of log_ok reg specs subject plan digest o in
  (reviewed = false -> result = Err PlanMoved) /\
  (reviewed = true -> blocked plan = true -> result = Err ErasureBlocked) /\
  (forall prepared, result = Ok prepared ->
    reviewed = true /\ blocked plan = false /\ pe_plan prepared = plan /\
    exists g, build_graph specs = Ok g /\
      Forall2 (fun action step => fst step = action /\
        step_ok source_of g reg subject action (snd step)) (pl_tables plan) (pe_steps prepared)).
Proof.
  cbv zeta. unfold prepare. set (reviewed := match digest with Some d => _ | None => true end).
  assert (Hmoved : match digest with Some d => bool_decide (d <> digest_of plan) | None => false end =
                   negb reviewed).
  { unfold reviewed. destruct digest as [d|]; [|done].
    destruct (decide (d = digest_of plan)) as [->|H];
      [by rewrite bool_decide_false, bool_decide_true by tauto
      |by rewrite bool_decide_true, bool_decide_false by done]. }
  rewrite Hmoved. destruct reviewed; cbn [negb]; [|done].
  split; [done|]. split; [by intros _ ->|]. destruct (blocked plan); [done|]. intros prepared H.
  apply res_bind_Ok in H as (g & Hg & H). apply res_bind_Ok in H as (steps & Hs & H).
  destruct (log_ok _); [|done]. injection H as <-. repeat split; try done.
  exists g. split; [|by eapply steps_of_ok].
  destruct (build_graph specs); [by injection Hg as ->|done].
Qed.

Lemma prepare_faithful_witness :
  prepare exec_source (fun _ => [bs "id"]) (fun _ => true) exec_digest (fun _ => true)
    exec_registry exec_specs (bs "7") exec_plan (Some (bs "8")) exec_options = Err PlanMoved /\
  blocked exec_plan = false /\ length (pe_steps exec_prepared) = 3%nat.
Proof.
  pose proof (prepare_faithful exec_source (fun _ => [bs "id"]) (fun _ => true) exec_digest
    (fun _ => true) exec_registry exec_specs (bs "7") exec_plan) as H.
  split; [exact (proj1 (H (Some (bs "8")) exec_options) eq_refl)|].
  destruct (proj2 (proj2 (H (Some (bs "7")) exec_options)) exec_prepared) as (_ & Hb & _ & g & _ & Hf);
    [vm_compute; reflexivity|].
  split; [exact Hb|]. symmetry. exact (Forall2_length _ _ _ Hf).
Defined.

(** *** Anonymising *)

(** The rewrite of an anonymised table can be run again: its assignments
    and its guard name the same columns, a rewritten row no longer satisfies
    the guard, and a row the guard leaves out already has every value the
    assignments would write. *)
Theorem anonymise_idempotent action set_ guard_sql :
  _anonymise action = Ok (set_, guard_sql) -> NoDup (map ca_column (ta_columns action)) ->
  let cols := erased_columns (ta_columns action) in
  set_ = map (fun '(c, null) => (c, assignment_text null)) cols /\
  guard_sql = str_join (bs " OR ") (map guard_text cols) /\
  forall r, guard cols (assign cols r) = false /\
    (guard cols r = false -> forall c, assign cols r c = r c).
Proof.
  intros Ha Hn cols. unfold _anonymise in Ha. apply res_bind_Ok in Ha as ([out gs] & El & E).
  injection E as <- <-. apply anonymise_loop_spec in El as [-> ->].
  assert (Hc : NoDup (dkeys cols)).
  { unfold cols. clear cols. induction (ta_columns action) as [|a l IH]; [constructor|].
    cbn in Hn. apply NoDup_cons in Hn as [Hnot Hn]. unfold erased_columns. cbn [omap list_omap].
    assert (Hsub : forall c, c ∈ dkeys (erased_columns l) -> c ∈ map ca_column l).
    { intros c H. apply list_elem_of_fmap in H as ([c' b] & -> & H).
      apply list_elem_of_omap in H as (x & Hx & Hs). apply list_elem_of_fmap. exists x.
      split; [|done]. repeat case_bool_decide; by simplify_eq. }
    case_bool_decide; [|case_bool_decide]; [|..|by apply IH];
      (cbn; apply NoDup_cons; split; [intros H'; by apply Hnot, Hsub|by apply IH]). }
  split; [rewrite assignments_nodup; [done|done|set_solver]|]. split; [done|]. intros r.
  split; [by apply guard_assigned|]. by apply unguarded_assigned.
Qed.

(** The comments of the sample, were they emptied instead of removed. *)
Definition full_row : row := fun _ => Some (bs "x").

Lemma anonymise_idempotent_witness :
  guard (erased_columns (ta_columns comment_action)) full_row = true /\
  guard (erased_columns (ta_columns comment_action))
    (assign (erased_columns (ta_columns comment_action)) full_row) = false.
Proof.
  split; [vm_compute; reflexivity|].
  destruct (anonymise_idempotent comment_action
    [(bs "author", bs "NULL"); (bs "body", quoted_marker)]
    (str_join (bs " OR ") (map guard_text (erased_columns (ta_columns comment_action)))))
    as (_ & _ & H).
  - vm_compute. reflexivity.
  - apply (bool_decide_unpack (NoDup (map ca_column (ta_columns comment_action)))).
    vm_compute. exact I.
  - apply H.
Defined.

(** *** Recording *)

Definition recorded (digest_of : ErasurePlan -> pystr) (plan : ErasurePlan) (db : database) : Prop :=
  (pl_subject_id plan, digest_of plan) ∈
    map (fun r => (er_subject r, er_plan_digest r)) (erasures db).

Lemma recorded_spec digest_of plan db :
  existsb (fun r => bool_decide (er_subject r = pl_subject_id plan /\
                                 er_plan_digest r = digest_of plan)) (erasures db) = true <->
  recorded digest_of plan db.
Proof.
  unfold recorded. rewrite existsb_exists, list_elem_of_fmap. split.
  - intros (r & Hr & Hb). apply bool_decide_eq_true in Hb as [H1 H2]. exists r.
    split; [by rewrite H1, H2|by apply list_elem_of_In].
  - intros (r & E & Hr). injection E as E1 E2. exists r. split; [by apply list_elem_of_In|].
    by apply bool_decide_eq_true.
Qed.

(** [write_record] by cases. *)
Lemma write_record_cases digest_of db plan n k :
  (recorded digest_of plan db /\ write_record digest_of db plan n k = (false, db)) \/
  (~ recorded digest_of plan db /\
   write_record digest_of db plan n k =
     (true, mkDatabase (ledger db) (erasures db ++
        [mkErasure (pl_subject_id plan) (pl_subject_model plan) (pl_subject_column plan)
           (digest_of plan) n k]))).
Proof.
  unfold write_record. destruct (existsb _ _) eqn:E.
  - left. by apply recorded_spec in E.
  - right. split; [|done]. intros H. apply recorded_spec in H. congruence.
Qed.

(** C40. An erasure is recorded only when the ledger says it finished: a row is
    written only if each of its passes has a finished ledger row and the same
    plan was not recorded for the subject before, the row carries the subject,
    the plan's digest and the number of passes, and nothing else changes; a
    second call writes nothing; an error writes nothing, and with a
    usable schema name it means that some pass has no ledger row or one that is
    not finished. *)
Theorem record_only_when_finished digest_of prepared db :
  let names := map cp_name (passes prepared) in
  let plan := pe_plan prepared in
  match record_erasure digest_of prepared db with
  | (Ok true, db') =>
    (forall name, name ∈ names ->
       exists r, r ∈ ledger db /\ lr_name r = name /\ lr_phase r = bs "done") /\
    ~ recorded digest_of plan db /\ ledger db' = ledger db /\
    exists n, erasures db' = erasures db ++
      [mkErasure (pl_subject_id plan) (pl_subject_model plan) (pl_subject_column plan)
         (digest_of plan) (zlen names) n]
  | (Ok false, db') => db' = db /\ recorded digest_of plan db
  | (Err e, db') =>
    db' = db /\
    (is_ok (validate_identifier (pe_schema prepared)) = true ->
     e = ErasureIncomplete /\
     exists name, name ∈ names /\
       forall r, r ∈ ledger db -> lr_name r = name ->
       exists r', r' ∈ ledger db /\ lr_name r' = name /\ lr_phase r' <> bs "done")
  end.
Proof.
  cbv zeta. unfold record_erasure. set (names := map cp_name (passes prepared)).
  destruct (_ledger_rows db (pe_schema prepared) names) as [rows|e] eqn:Er; cbn [res_bind].
  2: { split; [done|]. unfold _ledger_rows in Er. destruct names; [done|].
       by destruct (validate_identifier _). }
  destruct (_require_complete rows names) as [[]|e] eqn:Ec; cbn [res_bind].
  2: { split; [done|]. intros _. by apply (require_incomplete db (pe_schema prepared) names rows). }
  destruct (write_record_cases digest_of db (pe_plan prepared) (zlen names)
    (foldr Z.add 0 (map (lr_rows_done ∘ snd) rows))) as [[Hr ->]|[Hr ->]]; [done|].
  split; [by apply (require_complete_done db (pe_schema prepared) names rows)|].
  split; [done|]. split; [done|]. by eexists.
Qed.

(** The ledger moves, or an erasure is recorded. *)
Inductive erasure_step (digest_of : ErasurePlan -> pystr) : database -> database -> Prop :=
| step_walk db rows : erasure_step digest_of db (mkDatabase rows (erasures db))
| step_record prepared db :
    erasure_step digest_of db (snd (record_erasure digest_of prepared db)).

Definition record_keys (db : database) : list (pystr * pystr) :=
  map (fun r => (er_subject r, er_plan_digest r)) (erasures db).

Lemma record_step digest_of db db' :
  erasure_step digest_of db db' -> NoDup (record_keys db) ->
  NoDup (record_keys db') /\ exists rest, erasures db' = erasures db ++ rest.
Proof.
  intros Hs Hn. destruct Hs as [db rows|p db].
  - split; [done|]. exists []. by rewrite app_nil_r.
  - unfold record_erasure.
    destruct (_ledger_rows db (pe_schema p) _) as [rows|e]; cbn [res_bind snd];
      [|split; [done|exists []; by rewrite app_nil_r]].
    destruct (_require_complete rows _) as [[]|e]; cbn [res_bind snd];
      [|split; [done|exists []; by rewrite app_nil_r]].
    destruct (write_record_cases digest_of db (pe_plan p) (zlen (map cp_name (passes p)))
      (foldr Z.add 0 (map (lr_rows_done ∘ snd) rows))) as [[Hr ->]|[Hr ->]]; cbn [snd].
    + split; [done|]. exists []. by rewrite app_nil_r.
    + split; [|by eexists]. unfold record_keys. cbn [erasures]. rewrite map_app.
      apply NoDup_app. split; [done|]. split; [|apply NoDup_singleton].
      intros k Hk Hin. apply list_elem_of_singleton in Hin as ->. by apply Hr.
Qed.

(** An erasure is recorded at most once: however the walks move the ledger
    and however often erasures are recorded in between, the records keep
    distinct subjects and plan digests, and no record is lost. *)
Theorem recorded_once digest_of db db' :
  rtc (erasure_step digest_of) db db' -> NoDup (record_keys db) ->
  NoDup (record_keys db') /\ exists rest, erasures db' = erasures db ++ rest.
Proof.
  intros Hs. induction Hs as [db|db db1 db2 H1 _ IH]; intros Hn.
  - split; [done|]. exists []. by rewrite app_nil_r.
  - destruct (record_step digest_of db db1 H1 Hn) as [Hn1 [r1 E1]].
    destruct (IH Hn1) as [Hn2 [r2 E2]]. split; [done|]. exists (r1 ++ r2).
    by rewrite E2, E1, app_assoc.
Qed.

Definition finished_rows : list ledger_row :=
  map (fun p => mkLedger (cp_name p) (bs "done") 4) (passes exec_prepared).

Lemma recorded_once_witness :
  let run db := snd (record_erasure exec_digest exec_prepared db) in
  length (erasures (run (run (mkDatabase finished_rows [])))) = 1%nat /\
  NoDup (record_keys (run (run (mkDatabase finished_rows [])))).
Proof.
  intros run. split; [vm_compute; reflexivity|].
  apply (recorded_once exec_digest (mkDatabase [] [])).
  - eapply rtc_l; [apply (step_walk _ (mkDatabase [] []) finished_rows)|].
    eapply rtc_l; [apply (step_record _ exec_prepared)|].
    eapply rtc_l; [apply (step_record _ exec_prepared)|]. apply rtc_refl.
  - apply NoDup_nil_2.
Defined.

(** The names of passes collide: the pass of one table and subject has the
    name of the pass of another table and subject when an underscore can be
    read either way, and the record trusts the name.  An erasure whose only
    pass shares its name with a pass already finished for a different subject
    is recorded, with that pass's row count, though none of its statements
    ran. *)
Theorem pass_names_collide digest_of plan action p table s subject rows_done :
  cp_name p = pass_name (table ++ bs "_" ++ s) subject ->
  let prepared := mkPrepared plan [(action, Some p)] (bs "wreath") (bs "write") in
  let db := mkDatabase [mkLedger (pass_name table (s ++ bs "_" ++ subject)) (bs "done") rows_done] [] in
  record_erasure digest_of prepared db =
    (Ok true, mkDatabase (ledger db)
      [mkErasure (pl_subject_id plan) (pl_subject_model plan) (pl_subject_column plan)
         (digest_of plan) 1 rows_done]).
Proof.
  intros Hp prepared db.
  assert (Hn : pass_name table (s ++ bs "_" ++ subject) = cp_name p).
  { rewrite Hp. unfold pass_name. by rewrite <- !app_assoc. }
  unfold record_erasure, passes, prepared, db. cbn [pe_steps omap list_omap snd map pe_schema pe_plan].
  unfold _ledger_rows. change (validate_identifier (bs "wreath")) with (@Ok exec_error _ (bs "wreath")).
  cbn [res_bind ledger]. rewrite Hn. rewrite filter_cons, decide_True, filter_nil by set_solver.
  cbn [foldl dset]. unfold _require_complete, unfinished. rewrite filter_cons, filter_nil.
  assert (Hf : finished [(cp_name p, mkLedger (cp_name p) (bs "done") rows_done)] (cp_name p) = true).
  { unfold finished. cbn. by rewrite decide_True by done. }
  cbn [lr_name]. rewrite Hf. rewrite decide_False by done. cbn [res_bind].
  unfold write_record. cbn. by rewrite Z.add_0_r.
Qed.

Lemma pass_names_collide_witness :
  pass_name (bs "a_b") (bs "c") = pass_name (bs "a") (bs "b_c") /\
  fst (record_erasure exec_digest
    (mkPrepared exec_plan
       [(comment_action,
         Some (mkPass (pass_name (bs "a_b") (bs "c")) 1 [] 500 (bs "2s")
                 (Purge (mkSql [] [])) (bs "wreath") (bs "write")))] (bs "wreath") (bs "write"))
    (mkDatabase [mkLedger (pass_name (bs "a") (bs "b_c")) (bs "done") 4] [])) = Ok true.
Proof.
  split; [vm_compute; reflexivity|].
  exact (f_equal fst (pass_names_collide exec_digest exec_plan comment_action
    (mkPass (pass_name (bs "a_b") (bs "c")) 1 [] 500 (bs "2s") (Purge (mkSql [] []))
       (bs "wreath") (bs "write")) (bs "a") (bs "b") (bs "c") 4 eq_refl)).
Defined.
