(* ===== verification/StructuredFields.v ===== *)
(** * Structured field values: [_structured_fields.py], [cache_control.py]

    The RFC 9651 serializer, the Boolean item reader and the cache-control
    policies that render through them.  Field values are lists of bytes.  The
    checks that only tell Python types apart are left to the types here; the
    native dictionary parser behind [parse_dictionary] is a parameter. *)

From stdpp Require Import base sets strings numbers list gmap.
From Stdlib Require Import ZArith Lia.
From S2P Require Import Prelude PyCollections PyText.
#[local] Open Scope Z_scope.

Inductive sf_error : Type := SfValueError | StructuredFieldError.

Definition within (lo c hi : Z) : bool := (lo <=? c) && (c <=? hi).

Definition is_lower (c : Z) : bool := within 97 c 122.
Definition is_alpha (c : Z) : bool := is_lower c || within 65 c 90.

(** ** Names *)

Definition key_first (c : Z) : bool := is_lower c || (c =? 42).
Definition key_rest (c : Z) : bool := key_first c || is_ascii_digit c || bool_decide (c ∈ bs "_.-").

(** [_KEY.fullmatch(name)]. *)
Definition _KEY (name : pystr) : bool :=
  match name with c :: rest => key_first c && forallb key_rest rest | [] => false end.

Definition token_first (c : Z) : bool := is_alpha c || (c =? 42).
Definition token_rest (c : Z) : bool :=
  token_first c || is_ascii_digit c || bool_decide (c ∈ bs "!#$%&'+-.^_`|~:/").

(** [_TOKEN.fullmatch(value)]. *)
Definition _TOKEN (value : pystr) : bool :=
  match value with c :: rest => token_first c && forallb token_rest rest | [] => false end.

Definition _INTEGER_LIMIT : Z := 999999999999999.

(** ** Items *)

Inductive BareItem : Type :=
| BToken (value : pystr)
| BStr (value : pystr)
| BBytes (value : list Z)
| BInt (value : Z)
| BBool (value : bool)
| BDate (value : Z)
| BDisplay (value : pystr).

(** [Token(value)], [Date(value)] and [DisplayString(value)]. *)
Definition Token (value : pystr) : res sf_error BareItem :=
  if _TOKEN value then Ok (BToken value) else Err SfValueError.

Definition in_integer_limit (n : Z) : bool := (- _INTEGER_LIMIT <=? n) && (n <=? _INTEGER_LIMIT).

Definition Date (value : Z) : res sf_error BareItem :=
  if in_integer_limit value then Ok (BDate value) else Err SfValueError.

(** [value.encode("utf-8")] succeeds. *)
Definition encodable (value : pystr) : bool := forallb (fun c => negb (within 0xD800 c 0xDFFF)) value.

Definition DisplayString (value : pystr) : res sf_error BareItem :=
  if encodable value then Ok (BDisplay value) else Err SfValueError.

Record Item : Type := mkItem { i_value : BareItem; parameters : list (pystr * BareItem) }.

(** ** UTF-8 and base64 *)

Definition utf8_char (c : Z) : list Z :=
  if c <? 0x80 then [c]
  else if c <? 0x800 then [0xC0 + c / 64; 0x80 + c mod 64]
  else if c <? 0x10000 then [0xE0 + c / 4096; 0x80 + c / 64 mod 64; 0x80 + c mod 64]
  else [0xF0 + c / 262144; 0x80 + c / 4096 mod 64; 0x80 + c / 64 mod 64; 0x80 + c mod 64].

Definition b64_char (n : Z) : Z :=
  if n <? 26 then 65 + n else if n <? 52 then 71 + n else if n <? 62 then n - 4
  else if n =? 62 then 43 else 47.

Fixpoint b64encode (l : list Z) : list Z :=
  match l with
  | a :: b :: c :: l =>
    [b64_char (a / 4); b64_char (a mod 4 * 16 + b / 16); b64_char (b mod 16 * 4 + c / 64);
     b64_char (c mod 64)] ++ b64encode l
  | [a; b] => [b64_char (a / 4); b64_char (a mod 4 * 16 + b / 16); b64_char (b mod 16 * 4); 61]
  | [a] => [b64_char (a / 4); b64_char (a mod 4 * 16); 61; 61]
  | [] => []
  end.

(** ** Serializing *)

Definition string_char (c : Z) : list Z :=
  if c =? 92 then [92; 92] else if c =? 34 then [92; 34] else [c].

Definition _serialize_string (value : pystr) : res sf_error (list Z) :=
  if forallb (fun c => within 0x20 c 0x7E) value
  then Ok ([34] ++ concat (map string_char value) ++ [34])
  else Err SfValueError.

Definition hex_char (n : Z) : Z := if n <? 10 then 48 + n else 87 + n.

Definition display_byte (b : Z) : list Z :=
  if within 0x20 b 0x21 || within 0x23 b 0x24 || within 0x26 b 0x7E then [b]
  else [37; hex_char (b / 16); hex_char (b mod 16)].

Definition _serialize_display_string (value : pystr) : list Z :=
  [37; 34] ++ concat (map display_byte (concat (map utf8_char value))) ++ [34].

Definition _serialize_bare (value : BareItem) : res sf_error (list Z) :=
  match value with
  | BDate n => Ok ([64] ++ str_of_Z n)
  | BDisplay s => Ok (_serialize_display_string s)
  | BToken s => Ok s
  | BStr s => _serialize_string s
  | BBool b => Ok (if b then bs "?1" else bs "?0")
  | BBytes l => Ok ([58] ++ b64encode l ++ [58])
  | BInt n => if in_integer_limit n then Ok (str_of_Z n) else Err SfValueError
  end.

(** [value is True]. *)
Definition is_true (value : BareItem) : bool := match value with BBool b => b | _ => false end.

(** The optional ["=" value] after a name. *)
Definition serialize_value (value : BareItem) : res sf_error (list Z) :=
  if is_true value then Ok []
  else let! text := _serialize_bare value in Ok ([61] ++ text).

Fixpoint _serialize_parameters (ps : list (pystr * BareItem)) : res sf_error (list Z) :=
  match ps with
  | [] => Ok []
  | (name, value) :: ps =>
    if negb (_KEY name) then Err SfValueError
    else
      let! text := serialize_value value in
      let! rest := _serialize_parameters ps in
      Ok ([59] ++ name ++ text ++ rest)
  end.

Definition serialize_item (item : Item) : res sf_error (list Z) :=
  let! value := _serialize_bare (i_value item) in
  let! ps := _serialize_parameters (parameters item) in
  Ok (value ++ ps).

(** [sep.join(parts)]. *)
Fixpoint bytes_join (sep : list Z) (parts : list (list Z)) : list Z :=
  match parts with
  | [] => []
  | [p] => p
  | p :: parts => p ++ sep ++ bytes_join sep parts
  end.

Definition serialize_member (member : pystr * Item) : res sf_error (list Z) :=
  let '(name, item) := member in
  if negb (_KEY name) then Err SfValueError
  else
    let! text := serialize_value (i_value item) in
    let! ps := _serialize_parameters (parameters item) in
    Ok (name ++ text ++ ps).

Fixpoint map_res {A B} (f : A -> res sf_error B) (l : list A) : res sf_error (list B) :=
  match l with
  | [] => Ok []
  | x :: l => let! y := f x in let! ys := map_res f l in Ok (y :: ys)
  end.

Definition serialize_dictionary (members : list (pystr * Item)) : res sf_error (list Z) :=
  match members with
  | [] => Err SfValueError
  | _ => let! parts := map_res serialize_member members in Ok (bytes_join (bs ", ") parts)
  end.

Definition serialize_list (items : list Item) : res sf_error (list Z) :=
  let! parts := map_res serialize_item items in Ok (bytes_join (bs ", ") parts).

Definition parse_dictionary
    (signature_parse_dictionary : pystr -> Z -> Z ->
       res sf_error (list (pystr * (BareItem * list (pystr * BareItem)))))
    (text : pystr) (max_bytes max_members : Z) : res sf_error (list (pystr * Item)) :=
  if max_bytes <? 1 then Err SfValueError
  else if max_members <? 1 then Err SfValueError
  else
    let! parsed := signature_parse_dictionary text max_bytes max_members in
    Ok (map (fun '(name, (item, ps)) => (name, mkItem item ps)) parsed).

(** ** Regular expressions, by derivatives *)

Inductive regex : Type :=
| RVoid
| REps
| RChar (f : Z -> bool)
| RSeq (a b : regex)
| RAlt (a b : regex)
| RStar (a : regex).

Fixpoint nullable (r : regex) : bool :=
  match r with
  | RVoid | RChar _ => false
  | REps | RStar _ => true
  | RSeq a b => nullable a && nullable b
  | RAlt a b => nullable a || nullable b
  end.

Definition rseq (a b : regex) : regex :=
  match a, b with RVoid, _ | _, RVoid => RVoid | REps, _ => b | _, _ => RSeq a b end.
Definition ralt (a b : regex) : regex :=
  match a, b with RVoid, _ => b | _, RVoid => a | _, _ => RAlt a b end.

Fixpoint deriv (c : Z) (r : regex) : regex :=
  match r with
  | RVoid | REps => RVoid
  | RChar f => if f c then REps else RVoid
  | RSeq a b => if nullable a then ralt (rseq (deriv c a) b) (deriv c b) else rseq (deriv c a) b
  | RAlt a b => ralt (deriv c a) (deriv c b)
  | RStar a => rseq (deriv c a) (RStar a)
  end.

Fixpoint fullmatch (r : regex) (s : list Z) : bool :=
  match s with [] => nullable r | c :: s => fullmatch (deriv c r) s end.

Definition rchar (c : Z) : regex := RChar (Z.eqb c).
Definition ropt (r : regex) : regex := RAlt REps r.
Fixpoint rtext (s : list Z) : regex :=
  match s with [] => REps | c :: s => RSeq (rchar c) (rtext s) end.
(** [r{n}] and [r{1,n}]. *)
Fixpoint rtimes (n : nat) (r : regex) : regex :=
  match n with O => REps | S n => RSeq r (rtimes n r) end.
Fixpoint rupto (n : nat) (r : regex) : regex :=
  match n with O => REps | S n => ropt (RSeq r (rupto n r)) end.
Definition rsome (n : nat) (r : regex) : regex := RSeq r (rupto (n - 1) r).

Definition rdigit : regex := RChar is_ascii_digit.
Definition _PARAMETER_KEY : regex := RSeq (RChar key_first) (RStar (RChar key_rest)).
Definition rb64 : regex :=
  RChar (fun c => is_alpha c || is_ascii_digit c || (c =? 43) || (c =? 47)).
Definition _BASE64 : regex :=
  RSeq (RStar (rtimes 4 rb64))
    (ropt (RAlt (RSeq (rtimes 2 rb64) (ropt (rtext (bs "=="))))
                (RSeq (rtimes 3 rb64) (ropt (rtext (bs "=")))))).

Definition _PARAMETER_VALUE : regex :=
  RAlt (RSeq (rchar 63) (RChar (fun c => within 48 c 49)))
 (RAlt (RSeq (ropt (rchar 45))
         (RAlt (RSeq (rsome 12 rdigit) (RSeq (rchar 46) (rsome 3 rdigit))) (rsome 15 rdigit)))
 (RAlt (RSeq (rchar 64) (RSeq (ropt (rchar 45)) (rsome 15 rdigit)))
 (RAlt (RSeq (RChar token_first) (RStar (RChar token_rest)))
 (RAlt (RSeq (rchar 58) (RSeq _BASE64 (rchar 58)))
 (RAlt (RSeq (rchar 34)
         (RSeq (RStar (RAlt (RChar (fun c => within 0x20 c 0x21 || within 0x23 c 0x5b || within 0x5d c 0x7e))
                            (RSeq (rchar 92) (RChar (fun c => (c =? 34) || (c =? 92))))))
               (rchar 34)))
       (RSeq (rtext [37; 34])
         (RSeq (RStar (RAlt (RSeq (rchar 37) (rtimes 2 (RChar (fun c => is_ascii_digit c || within 97 c 102))))
                            (RChar (fun c => within 0x20 c 0x21 || within 0x23 c 0x24 || within 0x26 c 0x7e))))
               (rchar 34)))))))).

Definition _BOOLEAN_ITEM : regex :=
  RSeq (rchar 63) (RSeq (RChar (fun c => within 48 c 49))
    (RStar (RSeq (rchar 59) (RSeq (RStar (rchar 32))
      (RSeq _PARAMETER_KEY (ropt (RSeq (rchar 61) _PARAMETER_VALUE))))))).

(** ** The Boolean item reader *)

Definition hex_digit_value (c : Z) : option Z :=
  if is_ascii_digit c then Some (c - 48)
  else if within 97 c 102 then Some (c - 87)
  else if within 65 c 70 then Some (c - 55)
  else None.

Definition is_byte_space (c : Z) : bool := within 9 c 13 || (c =? 32).

(** [int(text, 16)] of at most two bytes, appended to a [bytearray]. *)
Definition append_hex (text : list Z) : option Z :=
  match text with
  | [a] => hex_digit_value a
  | [a; b] =>
    match hex_digit_value a, hex_digit_value b with
    | Some x, Some y => Some (x * 16 + y)
    | Some x, None => if is_byte_space b then Some x else None
    | None, Some y =>
      if is_byte_space a || (a =? 43) || ((a =? 45) && (y =? 0)) then Some y else None
    | None, None => None
    end
  | _ => None
  end.

(** [decoded.decode("utf-8")] succeeds. *)
Definition continuation (b : Z) : bool := within 0x80 b 0xBF.

Fixpoint utf8_valid (l : list Z) : bool :=
  match l with
  | [] => true
  | a :: l1 =>
    if a <? 0x80 then utf8_valid l1
    else if within 0xC2 a 0xDF then
      match l1 with b :: l2 => continuation b && utf8_valid l2 | _ => false end
    else if within 0xE0 a 0xEF then
      match l1 with
      | b :: c :: l3 =>
        within (if a =? 0xE0 then 0xA0 else 0x80) b (if a =? 0xED then 0x9F else 0xBF) &&
        continuation c && utf8_valid l3
      | _ => false
      end
    else if within 0xF0 a 0xF4 then
      match l1 with
      | b :: c :: d :: l4 =>
        within (if a =? 0xF0 then 0x90 else 0x80) b (if a =? 0xF4 then 0x8F else 0xBF) &&
        continuation c && continuation d && utf8_valid l4
      | _ => false
      end
    else false
  end.

(** The [while] over one display string. *)
Fixpoint percent_decode (encoded decoded : list Z) : res sf_error (list Z) :=
  match encoded with
  | [] => Ok decoded
  | c :: rest =>
    if c =? 0x25 then
      match rest with
      | a :: b :: rest' =>
        match append_hex [a; b] with
        | Some n => percent_decode rest' (decoded ++ [n])
        | None => Err SfValueError
        end
      | _ =>
        match append_hex rest with
        | Some n => Ok (decoded ++ [n])
        | None => Err SfValueError
        end
      end
    else percent_decode rest (decoded ++ [c])
  end.

(** The text up to the next quote. *)
Fixpoint to_quote (s : list Z) : option (list Z * list Z) :=
  match s with
  | [] => None
  | c :: s =>
    if c =? 34 then Some ([], s)
    else match to_quote s with Some (a, b) => Some (c :: a, b) | None => None end
  end.

(** [_DISPLAY_PARAMETER.finditer(value)], leftmost first. *)
Fixpoint display_parameters (fuel : nat) (s : list Z) : list (list Z) :=
  match fuel with
  | O => []
  | S fuel =>
    match s with
    | [] => []
    | c :: rest =>
      match c =? 61, rest with
      | true, 37 :: 34 :: body =>
        match to_quote body with
        | Some (text, after) => text :: display_parameters fuel after
        | None => display_parameters fuel rest
        end
      | _, _ => display_parameters fuel rest
      end
    end
  end.

Fixpoint valid_displays (l : list (list Z)) : res sf_error bool :=
  match l with
  | [] => Ok true
  | encoded :: l =>
    let! decoded := percent_decode encoded [] in
    if utf8_valid decoded then valid_displays l else Ok false
  end.

Definition _valid_display_parameters (value : list Z) : res sf_error bool :=
  valid_displays (display_parameters (length value) value).

(** [encoded.strip(b" ")]. *)
Fixpoint lstrip_spaces (s : list Z) : list Z :=
  match s with c :: s' => if c =? 32 then lstrip_spaces s' else s | [] => [] end.
Definition strip_spaces (s : list Z) : list Z := rev (lstrip_spaces (rev (lstrip_spaces s))).

Definition parse_boolean_item (encoded : list Z) : res sf_error (option bool) :=
  let text := strip_spaces encoded in
  if fullmatch _BOOLEAN_ITEM text then
    let! valid := _valid_display_parameters encoded in
    Ok (if valid : bool then Some (bool_decide (text !! 1%nat = Some 49)) else None)
  else Ok None.

(** A [str] is encoded to ASCII first. *)
Definition parse_boolean_text (value : pystr) : res sf_error (option bool) :=
  if forallb (fun c => c <? 128) value then parse_boolean_item value else Ok None.
