(* ===== verification/CacheControl.v ===== *)
(** * Cache-control policies: [cache_control.py]

    A policy is checked and rendered once, when it is built: as a
    [Cache-Control] value and as an RFC 9213 targeted field. *)

From stdpp Require Import base sets strings numbers list gmap.
From Stdlib Require Import ZArith Lia.
From S2P Require Import Prelude PyCollections PyText StructuredFields.
#[local] Open Scope Z_scope.

Record CacheControl : Type := mkCacheControl {
  public : bool;
  private : bool;
  no_store : bool;
  no_cache : bool;
  no_transform : bool;
  must_revalidate : bool;
  proxy_revalidate : bool;
  immutable : bool;
  max_age : option Z;
  shared_max_age : option Z;
  stale_while_revalidate : option Z;
  stale_if_error : option Z;
}.

(** The directives in the order both renderings list them. *)
Definition flag_directives (p : CacheControl) : list (bool * pystr) :=
  [(public p, bs "public"); (private p, bs "private"); (no_store p, bs "no-store");
   (no_cache p, bs "no-cache"); (no_transform p, bs "no-transform");
   (must_revalidate p, bs "must-revalidate"); (proxy_revalidate p, bs "proxy-revalidate");
   (immutable p, bs "immutable")].

Definition value_directives (p : CacheControl) : list (option Z * pystr) :=
  [(max_age p, bs "max-age"); (shared_max_age p, bs "s-maxage");
   (stale_while_revalidate p, bs "stale-while-revalidate"); (stale_if_error p, bs "stale-if-error")].

Definition _render_header (p : CacheControl) : list Z :=
  bytes_join (bs ", ")
    (omap (fun '(enabled, name) => if enabled : bool then Some name else None) (flag_directives p) ++
     omap (fun '(v, name) => match v with Some n => Some (name ++ bs "=" ++ str_of_Z n) | None => None end)
       (value_directives p)).

Definition flag_item (enabled : bool) : option Item :=
  if enabled then Some (mkItem (BBool true) []) else None.
Definition value_item (v : option Z) : option Item :=
  match v with Some n => Some (mkItem (BInt n) []) | None => None end.

Definition targeted_directives (p : CacheControl) : list (pystr * Item) :=
  let d := foldl (fun d '(enabled, name) =>
             match flag_item enabled with Some i => dset d name i | None => d end)
             [] (flag_directives p) in
  foldl (fun d '(v, name) =>
    match value_item v with Some i => dset d name i | None => d end) d (value_directives p).

Definition _render_targeted_header (p : CacheControl) : res sf_error (list Z) :=
  match targeted_directives p with
  | [] => Ok []
  | directives => serialize_dictionary directives
  end.

Definition negative (v : option Z) : bool := match v with Some n => n <? 0 | None => false end.

(** [__post_init__]: the two header values of an accepted policy. *)
Definition post_init (p : CacheControl) : res sf_error (list Z * list Z) :=
  if public p && private p then Err SfValueError
  else if existsb negative (map fst (value_directives p)) then Err SfValueError
  else if immutable p && match max_age p with Some n => n <=? 0 | None => true end
  then Err SfValueError
  else
    let! targeted := _render_targeted_header p in
    Ok (_render_header p, targeted).

Definition lower_byte (c : Z) : Z := if within 65 c 90 then c + 32 else c.

Definition _set_cdn_cache_control (headers : list (list Z * list Z)) (targeted : list Z)
    : res sf_error (list (list Z * list Z)) :=
  match targeted with
  | [] => Err SfValueError
  | _ =>
    Ok (filter (fun h => map lower_byte (fst h) <> bs "cdn-cache-control") headers ++
        [(bs "cdn-cache-control", targeted)])
  end.

Definition PRIVATE_NO_STORE : CacheControl :=
  mkCacheControl false true true false false false false false None None None None.

(** ** Rendering *)

(** The directives that are present, as dictionary members. *)
Definition members {A} (item : A -> option Item) (l : list (A * pystr)) : list (pystr * Item) :=
  omap (fun '(v, name) => (fun i => (name, i)) <$> item v) l.

Lemma members_keys {A} (item : A -> option Item) l name :
  name ∈ dkeys (members item l) -> name ∈ map snd l.
Proof.
  intros H. apply list_elem_of_fmap in H as ([n i] & -> & H).
  apply list_elem_of_omap in H as ([v n'] & Hin & E). apply list_elem_of_fmap. exists (v, n').
  split; [|done]. cbn in *. destruct (item v); [|done]. by injection E as <- <-.
Qed.

Lemma dset_members {A} (item : A -> option Item) (l : list (A * pystr)) d :
  NoDup (map snd l) -> (forall name, name ∈ map snd l -> name ∉ dkeys d) ->
  foldl (fun d '(v, name) => match item v with Some i => dset d name i | None => d end) d l =
  d ++ members item l.
Proof.
  revert d. induction l as [|[v name] l IH]; intros d Hn Hd; [by rewrite app_nil_r|].
  cbn in Hn. apply NoDup_cons in Hn as [Hnot Hn]. unfold members. cbn [foldl omap list_omap].
  destruct (item v) as [i|]; cbn [fmap option_fmap option_map].
  - rewrite dset_fresh by (apply Hd; set_solver). rewrite IH; [by rewrite <- app_assoc|done|].
    intros n Hin. unfold dkeys. rewrite map_app. cbn. rewrite elem_of_app, list_elem_of_singleton.
    intros [H| ->]; [revert H; apply Hd; set_solver|done].
  - apply IH; [done|]. intros n Hin. apply Hd. set_solver.
Qed.

Lemma targeted_members p :
  targeted_directives p =
    members flag_item (flag_directives p) ++ members value_item (value_directives p).
Proof.
  unfold targeted_directives. rewrite (dset_members flag_item); [|by apply (bool_decide_unpack _)|set_solver].
  apply dset_members; [by apply (bool_decide_unpack _)|].
  intros name Hv Hf. apply members_keys in Hf. revert name Hv Hf.
  cbn. set_solver.
Qed.
