(* ===== verification/StructuredClaims.v ===== *)
(** * Claims on structured field values and cache-control policies

    No serialized value can leave the printable ASCII range, whatever the
    application puts into it; and the two renderings of a cache policy agree. *)

From stdpp Require Import base sets strings numbers list gmap.
From Stdlib Require Import ZArith Lia.
From S2P Require Import Prelude PyCollections PyText StructuredFields CacheControl.
#[local] Open Scope Z_scope.

(** ** Printable bytes *)

Definition printable_byte (c : Z) : bool := within 0x20 c 0x7E.
Definition printable (l : list Z) : Prop := Forall (fun c => printable_byte c = true) l.

Lemma printable_app l k : printable l -> printable k -> printable (l ++ k).
Proof. intros. by apply Forall_app. Qed.

Lemma printable_concat {A} (f : A -> list Z) l :
  (forall x, x ∈ l -> printable (f x)) -> printable (concat (map f l)).
Proof.
  induction l as [|x l IH]; intros H; [constructor|]. cbn. apply printable_app; [apply H; set_solver|].
  apply IH. intros y Hy. apply H. set_solver.
Qed.

Lemma printable_join sep parts :
  printable sep -> Forall printable parts -> printable (bytes_join sep parts).
Proof.
  intros Hs Hp. induction Hp as [|p parts H1 Hp IH]; [constructor|]. cbn [bytes_join].
  destruct parts; [done|]. auto using printable_app.
Qed.

Lemma printable_forallb f l :
  (forall c, f c = true -> printable_byte c = true) -> forallb f l = true -> printable l.
Proof.
  intros Hf Hl. apply Forall_forall. intros c Hc. apply Hf. by eapply forallb_elem.
Qed.


(** [f] only accepts printable characters. *)
Ltac class_printable :=
  unfold printable_byte, token_rest, token_first, key_rest, key_first, is_alpha, is_lower,
    is_ascii_digit, within in *;
  rewrite ?orb_true_iff, ?andb_true_iff, ?Z.leb_le, ?Z.eqb_eq, ?bool_decide_eq_true in *.

Lemma one_of_printable c s : printable (bs s) -> c ∈ bs s -> printable_byte c = true.
Proof. intros H Hc. unfold printable in H. rewrite Forall_forall in H. by apply H. Qed.

Lemma token_rest_printable c : token_rest c = true -> printable_byte c = true.
Proof.
  intros H. destruct (decide (c ∈ bs "!#$%&'+-.^_`|~:/")) as [Hin|Hin].
  - eapply one_of_printable; [|exact Hin]. repeat constructor.
  - unfold token_rest in H. rewrite bool_decide_false in H by done. rewrite orb_false_r in H.
    class_printable. lia.
Qed.

Lemma key_rest_printable c : key_rest c = true -> printable_byte c = true.
Proof.
  intros H. destruct (decide (c ∈ bs "_.-")) as [Hin|Hin].
  - eapply one_of_printable; [|exact Hin]. repeat constructor.
  - unfold key_rest in H. rewrite bool_decide_false in H by done. rewrite orb_false_r in H.
    class_printable. lia.
Qed.

Lemma key_printable name : _KEY name = true -> printable name.
Proof.
  destruct name as [|c rest]; [done|]. cbn. intros H. apply andb_prop in H as [H1 H2].
  constructor; [apply key_rest_printable; unfold key_rest; by rewrite H1|].
  by apply (printable_forallb key_rest); [apply key_rest_printable|].
Qed.

Lemma token_printable s : _TOKEN s = true -> printable s.
Proof.
  destruct s as [|c rest]; [done|]. cbn. intros H. apply andb_prop in H as [H1 H2].
  constructor; [apply token_rest_printable; unfold token_rest; by rewrite H1|].
  by apply (printable_forallb token_rest); [apply token_rest_printable|].
Qed.

Lemma str_of_Z_printable n : printable (str_of_Z n).
Proof.
  assert (Hd : forall u, printable (uint_text u)).
  { intros u. apply (printable_forallb is_ascii_digit); [|apply uint_text_digits].
    intros c. unfold is_ascii_digit, printable_byte, within. lia. }
  assert (Hz : forall u, printable (bs (DecimalString.NilZero.string_of_uint u))).
  { intros u. destruct u; try apply Hd. repeat constructor. }
  unfold str_of_Z. destruct (Z.to_int n) as [u|u]; cbn [DecimalString.NilZero.string_of_int]; [apply Hz|].
  cbn [bs]. constructor; [done|apply Hz].
Qed.

Lemma b64_char_printable n : 0 <= n < 64 -> printable_byte (b64_char n) = true.
Proof.
  intros Hn. unfold b64_char, printable_byte, within. repeat case_match; lia.
Qed.

Ltac b64_bytes :=
  repeat apply ListDef.Forall_cons; try apply ListDef.Forall_nil; try reflexivity;
  apply b64_char_printable; Z.to_euclidean_division_equations; lia.

Lemma b64encode_printable l : Forall byte_ok l -> printable (b64encode l).
Proof.
  remember (length l) as n eqn:En. revert l En. induction (lt_wf n) as [n _ IH]. intros l -> Hl.
  destruct l as [|a [|b [|c l]]]; cbn [b64encode]; [constructor|..].
  all: repeat match goal with H : Forall byte_ok (_ :: _) |- _ => apply Forall_cons_iff in H as [? H] end.
  all: unfold byte_ok in *; unfold printable.
  - b64_bytes.
  - b64_bytes.
  - apply printable_app; [b64_bytes|]. eapply IH; [|reflexivity|done]. cbn. lia.
Qed.

Lemma utf8_char_bytes c : 0 <= c <= 0x10FFFF -> Forall byte_ok (utf8_char c).
Proof.
  intros Hc. unfold utf8_char, byte_ok.
  repeat case_match; repeat constructor; Z.to_euclidean_division_equations; lia.
Qed.

Lemma display_byte_printable b : byte_ok b -> printable (display_byte b).
Proof.
  unfold byte_ok. intros Hb. unfold display_byte.
  destruct (within 32 b 33 || within 35 b 36 || within 38 b 126) eqn:E.
  - constructor; [|constructor]. unfold printable_byte, within in *. lia.
  - repeat constructor; unfold printable_byte, within, hex_char; case_match;
      Z.to_euclidean_division_equations; lia.
Qed.

Lemma string_printable s out : _serialize_string s = Ok out -> printable out.
Proof.
  unfold _serialize_string. destruct (forallb _ s) eqn:E; [|done]. intros [= <-].
  constructor; [done|]. apply printable_app; [|by repeat constructor].
  apply printable_concat. intros c Hc. pose proof (forallb_elem _ _ _ E Hc) as H. cbv beta in H.
  unfold string_char. repeat case_match; repeat constructor. exact H.
Qed.

(** What the constructors establish, and the ranges of characters and bytes. *)
Definition valid_bare (v : BareItem) : Prop :=
  match v with
  | BToken s => _TOKEN s = true
  | BBytes l => Forall byte_ok l
  | BDisplay s => Forall (fun c => 0 <= c <= 0x10FFFF) s
  | _ => True
  end.

Definition valid_item (i : Item) : Prop :=
  valid_bare (i_value i) /\ Forall (valid_bare ∘ snd) (parameters i).

Lemma bare_printable v out : valid_bare v -> _serialize_bare v = Ok out -> printable out.
Proof.
  destruct v as [s|s|l|n|b|n|s]; cbn [valid_bare _serialize_bare]; intros Hv.
  - intros [= <-]. by apply token_printable.
  - apply string_printable.
  - intros [= <-]. constructor; [done|].
    apply printable_app; [by apply b64encode_printable|by repeat constructor].
  - destruct (in_integer_limit n); [|done]. intros [= <-]. apply str_of_Z_printable.
  - intros [= <-]. destruct b; by repeat constructor.
  - intros [= <-]. constructor; [done|apply str_of_Z_printable].
  - intros [= <-]. unfold _serialize_display_string. apply printable_app; [by repeat constructor|].
    apply printable_app; [|by repeat constructor]. apply printable_concat. intros b Hb.
    apply display_byte_printable. apply list_elem_of_In, in_concat in Hb as (k & Hk & Hb).
    apply in_map_iff in Hk as (c & <- & Hc). rewrite Forall_forall in Hv.
    pose proof (utf8_char_bytes c (Hv c ltac:(by apply list_elem_of_In))) as H.
    rewrite Forall_forall in H. apply H. by apply list_elem_of_In.
Qed.

Lemma value_printable v out : valid_bare v -> serialize_value v = Ok out -> printable out.
Proof.
  intros Hv. unfold serialize_value. destruct (is_true v); [intros [= <-]; constructor|].
  intros H. apply res_bind_Ok in H as (t & Ht & [= <-]). constructor; [done|].
  by eapply bare_printable.
Qed.

Lemma parameters_printable ps out :
  Forall (valid_bare ∘ snd) ps -> _serialize_parameters ps = Ok out -> printable out.
Proof.
  intros Hp. revert out. induction Hp as [|[name v] ps Hv _ IH]; intros out; cbn [_serialize_parameters].
  - intros [= <-]. constructor.
  - destruct (_KEY name) eqn:Ek; [|done]. cbn [negb]. intros H.
    apply res_bind_Ok in H as (t & Ht & H). apply res_bind_Ok in H as (r & Hr & [= <-]).
    constructor; [done|]. apply printable_app; [by apply key_printable|].
    apply printable_app; [by eapply value_printable|by apply IH].
Qed.

Lemma item_printable i out : valid_item i -> serialize_item i = Ok out -> printable out.
Proof.
  intros [Hv Hp] H. apply res_bind_Ok in H as (t & Ht & H). apply res_bind_Ok in H as (r & Hr & [= <-]).
  apply printable_app; [by eapply bare_printable|by eapply parameters_printable].
Qed.

Lemma member_printable m out : valid_item (snd m) -> serialize_member m = Ok out -> printable out.
Proof.
  destruct m as [name i]. intros [Hv Hp]. unfold serialize_member.
  destruct (_KEY name) eqn:Ek; [|done]. cbn [negb]. intros H.
  apply res_bind_Ok in H as (t & Ht & H). apply res_bind_Ok in H as (r & Hr & [= <-]).
  apply printable_app; [by apply key_printable|].
  apply printable_app; [by eapply value_printable|by eapply parameters_printable].
Qed.

Lemma map_res_printable {A} (f : A -> res sf_error (list Z)) (Q : A -> Prop) l parts :
  (forall x out, Q x -> f x = Ok out -> printable out) -> Forall Q l ->
  map_res f l = Ok parts -> Forall printable parts.
Proof.
  intros Hf Hl. revert parts. induction Hl as [|x l Hx _ IH]; intros parts; cbn [map_res].
  - intros [= <-]. constructor.
  - intros H. apply res_bind_Ok in H as (y & Hy & H). apply res_bind_Ok in H as (ys & Hys & [= <-]).
    constructor; [by eapply Hf|by apply IH].
Qed.

(** A serialized field value is printable ASCII: whatever strings, tokens,
    byte strings, numbers, dates, display strings and parameters an application
    puts into a list or a dictionary, the value that is produced has no control
    byte, so it cannot end a header line, and no byte above 0x7E. *)
Theorem serialized_fields_printable items members :
  Forall valid_item items -> Forall (valid_item ∘ snd) members ->
  (forall out, serialize_list items = Ok out -> printable out) /\
  (forall out, serialize_dictionary members = Ok out -> printable out).
Proof.
  intros Hi Hm. split; intros out H.
  - apply res_bind_Ok in H as (parts & Hp & [= <-]). apply printable_join; [by repeat constructor|].
    eapply map_res_printable; [|exact Hi|exact Hp]. apply item_printable.
  - unfold serialize_dictionary in H. destruct members as [|m ms]; [done|].
    apply res_bind_Ok in H as (parts & Hp & [= <-]). apply printable_join; [by repeat constructor|].
    eapply map_res_printable; [|exact Hm|exact Hp]. intros x out. apply member_printable.
Qed.

Definition sample_item : Item :=
  mkItem (BToken (bs "gzip")) [(bs "q", BInt 5); (bs "t", BDisplay [0x263A; 10]); (bs "b", BBytes [0; 255])].

Lemma serialized_fields_printable_witness :
  exists out, serialize_list [sample_item; mkItem (BStr (bs "a")) []] = Ok out /\ printable out.
Proof.
  eexists. split; [vm_compute; reflexivity|].
  destruct (serialized_fields_printable [sample_item; mkItem (BStr (bs "a")) []] []) as [H _].
  - repeat constructor; cbn; lia.
  - constructor.
  - apply H. vm_compute. reflexivity.
Defined.

(** ** Cache policies *)

Lemma flag_names_keys p : forallb _KEY (map snd (flag_directives p)) = true.
Proof. reflexivity. Qed.

Lemma value_names_keys p : forallb _KEY (map snd (value_directives p)) = true.
Proof. reflexivity. Qed.

Lemma map_res_app {A B} (f : A -> res sf_error B) l k :
  map_res f (l ++ k) = (let! a := map_res f l in let! b := map_res f k in Ok (a ++ b)).
Proof.
  induction l as [|x l IH]; cbn [map_res app res_bind]; [by destruct (map_res f k)|].
  destruct (f x) as [y|]; [|done]. cbn [res_bind]. rewrite IH.
  destruct (map_res f l); [|done]. cbn [res_bind]. by destruct (map_res f k).
Qed.

Lemma flags_serialized (l : list (bool * pystr)) :
  forallb _KEY (map snd l) = true ->
  map_res serialize_member (members flag_item l) =
    Ok (omap (fun '(enabled, name) => if enabled : bool then Some name else None) l).
Proof.
  induction l as [|[b name] l IH]; [done|]. cbn [map forallb snd]. intros H.
  apply andb_prop in H as [H1 H2]. unfold members. cbn [omap list_omap]. destruct b; cbn [flag_item fmap option_fmap option_map].
  - cbn [map_res serialize_member]. rewrite H1. cbn [negb i_value parameters].
    change (serialize_value (BBool true)) with (@Ok sf_error (list Z) []). cbn [res_bind _serialize_parameters].
    fold (members flag_item l). rewrite IH by done. cbn [res_bind]. by rewrite !app_nil_r.
  - by apply IH.
Qed.

(** A value directive that a structured integer can carry. *)
Definition carried (v : option Z) : bool :=
  match v with Some n => in_integer_limit n | None => true end.

Lemma values_serialized (l : list (option Z * pystr)) :
  forallb _KEY (map snd l) = true ->
  map_res serialize_member (members value_item l) =
    if forallb carried (map fst l) then
      Ok (omap (fun '(v, name) =>
        match v with Some n => Some (name ++ bs "=" ++ str_of_Z n) | None => None end) l)
    else Err SfValueError.
Proof.
  induction l as [|[v name] l IH]; [done|]. cbn [map forallb snd fst]. intros H.
  apply andb_prop in H as [H1 H2]. unfold members. cbn [omap list_omap].
  destruct v as [n|]; cbn [value_item fmap option_fmap option_map carried andb]; [|by apply IH].
  cbn [map_res serialize_member]. rewrite H1. cbn [negb i_value parameters].
  unfold serialize_value. cbn [is_true _serialize_bare]. destruct (in_integer_limit n); [|done].
  cbn [res_bind _serialize_parameters andb]. fold (members value_item l). rewrite IH by done.
  destruct (forallb carried (map fst l)); [|done]. cbn [res_bind]. by rewrite !app_nil_r.
Qed.

Lemma targeted_header_cases p :
  _render_targeted_header p =
    if forallb carried (map fst (value_directives p)) then Ok (_render_header p)
    else Err SfValueError.
Proof.
  unfold _render_targeted_header. rewrite targeted_members.
  assert (Hs : map_res serialize_member
      (members flag_item (flag_directives p) ++ members value_item (value_directives p)) =
    if forallb carried (map fst (value_directives p)) then
      Ok (omap (fun '(enabled, name) => if enabled : bool then Some name else None) (flag_directives p) ++
          omap (fun '(v, name) =>
            match v with Some n => Some (name ++ bs "=" ++ str_of_Z n) | None => None end)
            (value_directives p))
    else Err SfValueError).
  { rewrite map_res_app, flags_serialized, values_serialized by reflexivity. cbn [res_bind].
    by destruct (forallb carried _). }
  unfold serialize_dictionary, _render_header.
  match type of Hs with _ = (if _ then Ok ?x else _) => set (parts := x) in *; clearbody parts end.
  destruct (members flag_item (flag_directives p) ++ members value_item (value_directives p))
    as [|m ms].
  - cbn [map_res] in Hs. destruct (forallb carried _); [|done]. by injection Hs as <-.
  - rewrite Hs. by destruct (forallb carried _).
Qed.

(** The policies that can be built. *)
Definition accepted (p : CacheControl) : bool :=
  negb (public p && private p) &&
  forallb (fun v => match v with Some n => within 0 n _INTEGER_LIMIT | None => true end)
    (map fst (value_directives p)) &&
  (negb (immutable p) || match max_age p with Some n => 0 <? n | None => false end).

(** A cache policy is built exactly when it is not both public and private,
    its ages are between zero and the largest structured integer, and it is
    immutable only with a positive age; and the targeted field of a policy that
    is built, serialized as an RFC 9651 dictionary, is its [Cache-Control]
    value byte for byte. *)
Theorem cache_policy_headers p :
  post_init p =
    if accepted p then Ok (_render_header p, _render_header p) else Err SfValueError.
Proof.
  unfold post_init, accepted. rewrite targeted_header_cases.
  destruct (public p && private p); [done|]. cbn [negb andb].
  assert (Hv : forall l, existsb negative l = false ->
    forallb (fun v => match v with Some n => within 0 n _INTEGER_LIMIT | None => true end) l =
    forallb carried l).
  { intros l. induction l as [|[n|] l IH]; cbn; [done| |exact IH]. intros H.
    apply orb_false_iff in H as [H1 H2]. rewrite (IH H2). f_equal. unfold within, in_integer_limit. unfold _INTEGER_LIMIT. lia. }
  assert (Hneg : forall l, existsb negative l = true ->
    forallb (fun v => match v with Some n => within 0 n _INTEGER_LIMIT | None => true end) l = false).
  { intros l. induction l as [|[n|] l IH]; cbn; [done| |exact IH]. intros H.
    apply orb_true_iff in H as [H1|H2]; [|rewrite (IH H2); apply andb_false_r].
    unfold within. by replace (0 <=? n) with false by lia. }
  destruct (existsb negative _) eqn:En; [by rewrite Hneg|]. rewrite Hv by done.
  destruct (immutable p); cbn [negb andb orb]; [|by destruct (forallb carried _)].
  destruct (max_age p) as [n|]; cbn [andb].
  2: { by rewrite andb_false_r. }
  replace (n <=? 0) with (negb (0 <? n)) by lia.
  destruct (0 <? n); cbn [negb]; [|by rewrite andb_false_r].
  rewrite andb_true_r. by destruct (forallb carried _).
Qed.
