(* ===== verification/JsonPath.v ===== *)
(** * JSONPath: data, evaluator and normalized paths

    The evaluator of [src/wreath/jsonpath.py] ([_children] to
    [_find_reference]), the compiled-program translation, and the printer of
    normalized paths.  A JSON value is what a strict decoder builds: floats are
    finite dyadic numbers, an object is the list of its members in order with
    distinct names.  The visit counter is the state of a small monad; the
    regular-expression engine behind [match] and [search] is a parameter. *)

From stdpp Require Import base sets strings numbers list gmap.
From Stdlib Require Import ZArith Lia.
From S2P Require Import Prelude PyCollections PyText.
#[local] Open Scope Z_scope.

(** ** JSON values *)

Inductive json : Type :=
| JNull
| JBool (b : bool)
| JInt (n : Z)
| JFloat (mantissa exponent : Z)
| JStr (s : pystr)
| JList (l : list json)
| JObj (members : list (pystr * json)).

(** Numbers as fractions [n / 2^k]: an exact common form of [int] and [float]. *)
Definition number_of (v : json) : option (Z * Z) :=
  match v with
  | JInt n => Some (n, 0)
  | JFloat m e => if 0 <=? e then Some (Z.shiftl m e, 0) else Some (m, - e)
  | _ => None
  end.

Definition fraction_cmp (a b : Z * Z) : comparison :=
  Z.compare (Z.shiftl (fst a) (snd b)) (Z.shiftl (fst b) (snd a)).

(** A [bool] takes part in Python's [==] as the integer it is. *)
Definition py_number (v : json) : option (Z * Z) :=
  match v with
  | JBool b => Some ((if b then 1 else 0), 0)
  | _ => number_of v
  end.

(** Python's [==] on decoded JSON. *)
Fixpoint py_eq (a b : json) {struct a} : bool :=
  match a, b with
  | JNull, JNull => true
  | JStr s, JStr t => bool_decide (s = t)
  | JList l, JList k =>
    (fix eqs (l k : list json) : bool :=
       match l, k with
       | [], [] => true
       | x :: l, y :: k => py_eq x y && eqs l k
       | _, _ => false
       end) l k
  | JObj l, JObj k =>
    (zlen l =? zlen k) &&
    (fix eqs (l : list (pystr * json)) : bool :=
       match l with
       | [] => true
       | (name, x) :: l =>
         match dget k name with Some y => py_eq x y | None => false end && eqs l
       end) l
  | _, _ =>
    match py_number a, py_number b with
    | Some x, Some y => match fraction_cmp x y with Eq => true | _ => false end
    | _, _ => false
    end
  end.

(** [bool(v)]. *)
Definition py_bool (v : json) : bool :=
  match v with
  | JNull => false
  | JBool b => b
  | JInt n => negb (n =? 0)
  | JFloat m _ => negb (m =? 0)
  | JStr s => bool_decide (s <> [])
  | JList l => match l with [] => false | _ => true end
  | JObj l => match l with [] => false | _ => true end
  end.

(** ** The compiled expression *)

Inductive token : Type := TName (name : pystr) | TIndex (index : Z).

Record _Node : Type := mkNode { value : json; tokens : list token }.

Inductive operator : Type := OpEq | OpNe | OpLe | OpGe | OpLt | OpGt.
Inductive function : Type := FLength | FCount | FValue | FMatch | FSearch.

Inductive expr : Type :=
| _Literal (v : json)
| _Query (root : bool) (segments : list segment) (singular : bool)
| _Function (name : function) (arguments : list expr)
| _Compare (lhs : expr) (op : operator) (rhs : expr)
| _Not (e : expr)
| _Logical (lhs : expr) (both : bool) (rhs : expr)
with selector : Type :=
| _Name (name : pystr)
| _Index (index : Z)
| _Slice (start stop step : option Z)
| _Wildcard
| _Filter (e : expr)
with segment : Type :=
| _Segment (descendant : bool) (selectors : list selector).

(** ** The compiled program *)

(** The nested tuples handed to the native evaluator. *)
Inductive program : Type :=
| PInt (n : Z)
| PNone
| PBool (b : bool)
| PStr (s : pystr)
| PValue (v : json)
| PTuple (l : list program).

Definition function_code (f : function) : Z :=
  match f with FLength => 0 | FCount => 1 | FValue => 2 | FMatch => 3 | FSearch => 4 end.

Definition operator_code (o : operator) : Z :=
  match o with OpEq => 0 | OpNe => 1 | OpLe => 2 | OpGe => 3 | OpLt => 4 | OpGt => 5 end.

Definition optional_int (o : option Z) : program :=
  match o with Some n => PInt n | None => PNone end.

Fixpoint _native_expression (e : expr) : program :=
  match e with
  | _Literal v => PTuple [PInt 0; PValue v]
  | _Query root segments singular =>
    PTuple [PInt 1; PBool root; PTuple (map _native_segment segments); PBool singular]
  | _Function name arguments =>
    PTuple [PInt 2; PInt (function_code name); PTuple (map _native_expression arguments)]
  | _Compare lhs op rhs =>
    PTuple [PInt 3; PInt (operator_code op); _native_expression lhs; _native_expression rhs]
  | _Not e => PTuple [PInt 4; _native_expression e]
  | _Logical lhs both rhs =>
    PTuple [PInt 5; PBool both; _native_expression lhs; _native_expression rhs]
  end
with _native_selector (s : selector) : program :=
  match s with
  | _Name name => PTuple [PInt 0; PStr name]
  | _Index i => PTuple [PInt 1; PInt i]
  | _Slice start stop step =>
    PTuple [PInt 2; optional_int start; optional_int stop; optional_int step]
  | _Wildcard => PTuple [PInt 3]
  | _Filter e => PTuple [PInt 4; _native_expression e]
  end
with _native_segment (seg : segment) : program :=
  match seg with
  | _Segment descendant selectors =>
    PTuple [PBool descendant; PTuple (map _native_selector selectors)]
  end.

Definition _native_segments (segments : list segment) : program :=
  PTuple (map _native_segment segments).

(** ** The visit budget *)

Inductive jperr : Type :=
| VisitLimit
| AttributeError
| EvalIndexError
| OutOfFuel.

Definition M (A : Type) : Type := Z -> res jperr (A * Z).

Definition mret {A} (a : A) : M A := fun b => Ok (a, b).
Definition mfail {A} (e : jperr) : M A := fun _ => Err e.
Definition mbind {A B} (c : M A) (k : A -> M B) : M B :=
  fun b => match c b with Ok (a, b') => k a b' | Err e => Err e end.
Notation "'do!' x <- c ; k" := (mbind c (fun x => k))
  (at level 200, x pattern, c at level 100, k at level 200) : wreath_scope.

(** The closure [visit] of [_find_reference]. *)
Definition visit : M unit :=
  fun remaining => if remaining - 1 <? 0 then Err VisitLimit else Ok (tt, remaining - 1).

Fixpoint visits {A} (l : list A) : M unit :=
  match l with
  | [] => mret tt
  | _ :: l => do! _ <- visit ; visits l
  end.

(** [for x in l: found.extend(f(x))]. *)
Fixpoint collect {A B} (f : A -> M (list B)) (l : list A) (found : list B) : M (list B) :=
  match l with
  | [] => mret found
  | x :: l => do! ys <- f x ; collect f l (found ++ ys)
  end.

(** ** Nodes *)

Fixpoint index_nodes (parent : list token) (i : Z) (l : list json) : list _Node :=
  match l with
  | [] => []
  | v :: l => mkNode v (parent ++ [TIndex i]) :: index_nodes parent (i + 1) l
  end.

Definition _children (node : _Node) : list _Node :=
  match value node with
  | JObj l => map (fun '(name, v) => mkNode v (tokens node ++ [TName name])) l
  | JList l => index_nodes (tokens node) 0 l
  | _ => []
  end.

Fixpoint json_size (v : json) : nat :=
  match v with
  | JList l => S ((fix sizes l := match l with [] => 0 | v :: l => json_size v + sizes l end)%nat l)
  | JObj l =>
    S ((fix sizes l := match l with [] => 0 | (_, v) :: l => json_size v + sizes l end)%nat l)
  | _ => 1%nat
  end.

(** [while pending]: the stack is read from its end. *)
Fixpoint descendants_loop (fuel : nat) (pending found : list _Node) : M (list _Node) :=
  match pending with
  | [] => mret found
  | current :: pending =>
    match fuel with
    | O => mfail OutOfFuel
    | S fuel =>
      let children := _children current in
      do! _ <- visits children ;
      descendants_loop fuel (children ++ pending) (found ++ [current])
    end
  end.

Definition _descendants (node : _Node) : M (list _Node) :=
  descendants_loop (json_size (value node)) [node] [].

(** ** Slices *)

(** [slice(start, stop, step).indices(n)] for a non-zero step. *)
Definition clip (lo hi i : Z) : Z := if i <? lo then lo else if i >? hi then hi else i.

Definition slice_bound (n lo hi : Z) (i : Z) : Z :=
  let i := if i <? 0 then i + n else i in clip lo hi i.

Definition slice_indices (start stop step : option Z) (n : Z) : Z * Z * Z :=
  let step := default 1 step in
  let lo := if step <? 0 then -1 else 0 in
  let hi := if step <? 0 then n - 1 else n in
  let first := match start with
               | None => if step <? 0 then hi else lo
               | Some i => slice_bound n lo hi i
               end in
  let last := match stop with
              | None => if step <? 0 then lo else hi
              | Some i => slice_bound n lo hi i
              end in
  (first, last, step).

(** [range(start, stop, step)]. *)
Definition range_length (start stop step : Z) : Z :=
  if 0 <? step then if start <? stop then (stop - start - 1) / step + 1 else 0
  else if stop <? start then (start - stop - 1) / (- step) + 1 else 0.

Definition py_range (start stop step : Z) : list Z :=
  map (fun i => start + Z.of_nat i * step) (seq 0 (Z.to_nat (range_length start stop step))).

(** ** Operands *)

(** What [_operand] returns: a value, [_NOTHING], or a node list. *)
Inductive operand : Type :=
| OVal (v : json)
| ONothing
| ONodes (l : list _Node).

Definition operand_bool (o : operand) : bool :=
  match o with
  | OVal v => py_bool v
  | ONothing => true
  | ONodes l => match l with [] => false | _ => true end
  end.

Definition is_number (v : json) : bool :=
  match v with JInt _ | JFloat _ _ => true | _ => false end.

(** [type(left) is type(right)] for values that are not numbers. *)
Definition same_type (a b : json) : bool :=
  match a, b with
  | JNull, JNull | JBool _, JBool _ | JStr _, JStr _ | JList _, JList _ | JObj _, JObj _ => true
  | _, _ => false
  end.

Definition _equal (left right : operand) : bool :=
  match left, right with
  | ONothing, ONothing => true
  | OVal a, OVal b =>
    if is_number a then is_number b && py_eq a b else same_type a b && py_eq a b
  | _, _ => false
  end.

Definition str_ltb (s t : pystr) : bool := match pycmp s t with Lt => true | _ => false end.

(** [orderable and left < right]. *)
Definition less_than (left right : operand) : bool :=
  match left, right with
  | OVal (JStr s), OVal (JStr t) => str_ltb s t
  | OVal a, OVal b =>
    match number_of a, number_of b with
    | Some x, Some y => match fraction_cmp x y with Lt => true | _ => false end
    | _, _ => false
    end
  | _, _ => false
  end.

Definition compare_operands (left : operand) (op : operator) (right : operand) : bool :=
  match op with
  | OpEq => _equal left right
  | OpNe => negb (_equal left right)
  | OpLt => less_than left right
  | OpLe => less_than left right || _equal left right
  | OpGt => less_than right left
  | OpGe => less_than right left || _equal left right
  end.

Definition length_of (o : operand) : operand :=
  match o with
  | OVal (JStr s) => OVal (JInt (zlen s))
  | OVal (JList l) => OVal (JInt (zlen l))
  | OVal (JObj l) => OVal (JInt (zlen l))
  | ONodes l => OVal (JInt (zlen l))
  | _ => ONothing
  end.

(** [nodes[0].value if len(nodes) == 1 else _NOTHING]. *)
Definition single_value (nodes : list _Node) : operand :=
  match nodes with [n] => OVal (value n) | _ => ONothing end.

(** ** The evaluator *)

Section evaluator.
Context (iregexp_fullmatch iregexp_search : pystr -> pystr -> bool).

(** [match] and [search] on evaluated arguments: value, then pattern. *)
Definition regexp_call (name : function) (arguments : list operand) : operand :=
  match arguments with
  | [OVal (JStr v); OVal (JStr pattern)] =>
    OVal (JBool (match name with
                 | FMatch => iregexp_fullmatch pattern v
                 | _ => iregexp_search pattern v
                 end))
  | _ => OVal (JBool false)
  end.

Definition call_function (name : function) (arguments : list operand) : M operand :=
  match name with
  | FLength => match arguments with o :: _ => mret (length_of o) | [] => mfail EvalIndexError end
  | _ => mret (regexp_call name arguments)
  end.

Definition query_function (name : function) (nodes : list _Node) : operand :=
  match name with FCount => OVal (JInt (zlen nodes)) | _ => single_value nodes end.

(** The selectors that do not evaluate an expression. *)
Definition select_name (name : pystr) (node : _Node) : M (list _Node) :=
  match value node with
  | JObj l =>
    match dget l name with
    | Some v => do! _ <- visit ; mret [mkNode v (tokens node ++ [TName name])]
    | None => mret []
    end
  | _ => mret []
  end.

Definition select_index (i : Z) (node : _Node) : M (list _Node) :=
  match value node with
  | JList l =>
    let index := if 0 <=? i then i else zlen l + i in
    if (0 <=? index) && (index <? zlen l) then
      match pyget l index with
      | Some v => do! _ <- visit ; mret [mkNode v (tokens node ++ [TIndex index])]
      | None => mfail EvalIndexError
      end
    else mret []
  | _ => mret []
  end.

Definition select_slice (start stop step : option Z) (node : _Node) : M (list _Node) :=
  match value node with
  | JList l =>
    if decide (step = Some 0) then mret []
    else
      let '(first, last, step) := slice_indices start stop step (zlen l) in
      collect (fun index =>
        do! _ <- visit ;
        match pyget l index with
        | Some v => mret [mkNode v (tokens node ++ [TIndex index])]
        | None => mfail EvalIndexError
        end) (py_range first last step) []
  | _ => mret []
  end.

Definition select_wildcard (node : _Node) : M (list _Node) :=
  let selected := _children node in
  do! _ <- visits selected ; mret selected.

(** The filter selector over an evaluated test. *)
Definition select_filter (test : _Node -> M bool) (node : _Node) : M (list _Node) :=
  collect (fun child =>
    do! _ <- visit ;
    do! keep <- test child ;
    mret (if keep : bool then [child] else [])) (_children node) [].

(** The sources of a segment. *)
Definition segment_sources (descendant : bool) (current : list _Node) : M (list _Node) :=
  if descendant then collect _descendants current [] else mret current.

(** The loops over the selectors of a segment, the segments of a query and the
    arguments of a function. *)
Definition select_all (select : selector -> M (list _Node))
    : list selector -> list _Node -> M (list _Node) :=
  fix selects (l : list selector) (found : list _Node) : M (list _Node) :=
    match l with
    | [] => mret found
    | s :: l => do! ys <- select s ; selects l (found ++ ys)
    end.

Definition run_all (run : segment -> list _Node -> M (list _Node))
    : list segment -> list _Node -> M (list _Node) :=
  fix runs (l : list segment) (nodes : list _Node) : M (list _Node) :=
    match l with
    | [] => mret nodes
    | seg :: l => do! selected <- run seg nodes ; runs l selected
    end.

Definition operand_all (operand_of : expr -> M operand) : list expr -> M (list operand) :=
  fix operands (l : list expr) : M (list operand) :=
    match l with
    | [] => mret []
    | a :: l => do! v <- operand_of a ; do! vs <- operands l ; mret (v :: vs)
    end.

(** [_select], the body of [_run], and [_operand] with [_evaluate].  The last
    two call each other on one expression, so they are one recursive function
    that returns both computations. *)
Fixpoint _select (s : selector) (node root : _Node) {struct s} : M (list _Node) :=
  match s with
  | _Name name => select_name name node
  | _Index i => select_index i node
  | _Slice start stop step => select_slice start stop step node
  | _Wildcard => select_wildcard node
  | _Filter e => select_filter (fun child => snd (eval_expr e root child)) node
  end
with run_segment (seg : segment) (current : list _Node) (root : _Node) {struct seg}
    : M (list _Node) :=
  match seg with
  | _Segment descendant selectors =>
    do! sources <- segment_sources descendant current ;
    collect (fun source => select_all (fun s => _select s source root) selectors []) sources []
  end
with eval_expr (e : expr) (root current : _Node) {struct e} : M operand * M bool :=
  match e with
  | _Literal v => (mret (OVal v), mret (py_bool v))
  | _Query is_root segments singular =>
    let run := run_all (fun seg nodes => run_segment seg nodes root) segments
                 [if is_root : bool then root else current] in
    (do! nodes <- run ; mret (if singular : bool then single_value nodes else ONodes nodes),
     do! nodes <- run ; mret (match nodes with [] => false | _ => true end))
  | _Function name arguments =>
    let call :=
      match name with
      | FCount | FValue =>
        match arguments with
        | _Query is_root segments _ :: _ =>
          do! nodes <- run_all (fun seg nodes => run_segment seg nodes root) segments
                         [if is_root : bool then root else current] ;
          mret (query_function name nodes)
        | [] => mfail EvalIndexError
        | _ => mfail AttributeError
        end
      | _ =>
        do! vs <- operand_all (fun a => fst (eval_expr a root current)) arguments ;
        call_function name vs
      end in
    (call, do! o <- call ; mret (operand_bool o))
  | _Compare lhs op rhs =>
    let test :=
      do! a <- fst (eval_expr lhs root current) ;
      do! b <- fst (eval_expr rhs root current) ;
      mret (compare_operands a op b) in
    (do! v <- test ; mret (OVal (JBool v)), test)
  | _Not e =>
    let test := do! v <- snd (eval_expr e root current) ; mret (negb v) in
    (do! v <- test ; mret (OVal (JBool v)), test)
  | _Logical lhs both rhs =>
    let test :=
      do! v <- snd (eval_expr lhs root current) ;
      if Bool.eqb v both then snd (eval_expr rhs root current) else mret v in
    (do! v <- test ; mret (OVal (JBool v)), test)
  end.

Definition _operand (e : expr) (root current : _Node) : M operand := fst (eval_expr e root current).
Definition _evaluate (e : expr) (root current : _Node) : M bool := snd (eval_expr e root current).

Definition _run (segments : list segment) (nodes : list _Node) (root : _Node)
    : M (list _Node) :=
  run_all (fun seg nodes => run_segment seg nodes root) segments nodes.

(** ** [JSONPath] *)

Record JSONPath : Type := mkJSONPath {
  source : pystr;
  _segments : list segment;
  _program : program;
  max_visits : Z;
}.

(** [_find_reference], before the paths are printed. *)
Definition find_nodes (p : JSONPath) (v : json) : res jperr (list _Node) :=
  let root := mkNode v [] in
  let! (nodes, _) := _run (_segments p) [root] root (max_visits p) in Ok nodes.
End evaluator.

(** ** Normalized paths *)

Definition hex_digit (n : Z) : Z := if n <? 10 then 48 + n else 87 + n.

(** One character of a normalized member name. *)
Definition escape_char (c : Z) : pystr :=
  if c =? 8 then bs "\b"
  else if c =? 9 then bs "\t"
  else if c =? 10 then bs "\n"
  else if c =? 12 then bs "\f"
  else if c =? 13 then bs "\r"
  else if c =? 39 then bs "\'"
  else if c =? 92 then bs "\\"
  else if c <? 0x20 then bs "\u00" ++ [hex_digit (c / 16); hex_digit (c mod 16)]
  else [c].

Definition normalized_token (t : token) : pystr :=
  match t with
  | TIndex i => bs "[" ++ str_of_Z i ++ bs "]"
  | TName s => bs "['" ++ concat (map escape_char s) ++ bs "']"
  end.

Definition _normalized (ts : list token) : pystr := bs "$" ++ concat (map normalized_token ts).

Record JSONPathMatch : Type := mkMatch { m_value : json; m_path : pystr }.

Definition _find_reference (fullmatch search : pystr -> pystr -> bool) (p : JSONPath) (v : json)
    : res jperr (list JSONPathMatch) :=
  let! nodes := find_nodes fullmatch search p v in
  Ok (map (fun n => mkMatch (value n) (_normalized (tokens n))) nodes).

(** [find]: the native evaluator runs the compiled program. *)
Definition find (native_find : program -> json -> Z -> res jperr (list _Node)) (p : JSONPath)
    (v : json) : res jperr (list JSONPathMatch) :=
  let! nodes := native_find (_program p) v (max_visits p) in
  Ok (map (fun n => mkMatch (value n) (_normalized (tokens n))) nodes).
