(* ===== verification/JsonPathParser.v ===== *)
(** * JSONPath: the parser

    [_Parser] of [src/wreath/jsonpath.py].  The position is the unread rest of
    the source.  The mutually recursive methods take fuel, of which [parse] gives
    enough for any source, and the interpreter's [stack], of which each call of one
    of them takes a frame and a loop none; where none is left it is Python's
    [RecursionError].  [json_loads] (the native JSON decoder) and the Unicode digit
    tables behind [str.isdigit] and [int] are parameters. *)

From stdpp Require Import base sets strings numbers list gmap.
From Stdlib Require Import ZArith Lia.
From S2P Require Import Prelude PyCollections PyText JsonPath.
#[local] Open Scope Z_scope.

Inductive parse_error : Type :=
| JSONPathError
| ValueError
| IndexError
| RecursionError
| ParseFuel.

(** What [_json_loads] does with a text. *)
Inductive loaded : Type :=
| Loaded (v : json)
| LoadedNonFinite
| LoadError.

Definition P (A : Type) : Type := res parse_error (A * pystr).

(** ** Characters *)

(** [self.source.startswith(text, self.index)]. *)
Fixpoint peek (text s : pystr) : bool :=
  match text, s with
  | [], _ => true
  | a :: text, b :: s => (a =? b) && peek text s
  | _ :: _, [] => false
  end.

(** [self.take(text)]: the rest after [text], if it is next. *)
Definition take_text (text s : pystr) : option pystr :=
  if peek text s then Some (drop (length text) s) else None.

Definition is_blank (c : Z) : bool := (c =? 32) || (c =? 9) || (c =? 10) || (c =? 13).

Fixpoint whitespace (s : pystr) : pystr :=
  match s with
  | c :: s' => if is_blank c then whitespace s' else s
  | [] => []
  end.

Definition between (a c b : Z) : bool := (a <=? c) && (c <=? b).

Definition name_first (c : Z) : bool :=
  (c =? 95) || between 65 c 90 || between 97 c 122 || between 0x80 c 0xD7FF ||
  between 0xE000 c 0x10FFFF.

Definition name_char (c : Z) : bool := name_first c || between 48 c 57.

(** The longest prefix of characters that satisfy [f], and the rest. *)
Fixpoint span (f : Z -> bool) (s : pystr) : pystr * pystr :=
  match s with
  | c :: s' => if f c then let '(a, b) := span f s' in (c :: a, b) else ([], s)
  | [] => ([], [])
  end.

Definition dot_selectors (s : pystr) : P (list selector) :=
  match take_text (bs "*") s with
  | Some s => Ok ([_Wildcard], s)
  | None =>
    match s with
    | c :: s' =>
      if name_first c then let '(rest, s') := span name_char s' in Ok ([_Name (c :: rest)], s')
      else Err JSONPathError
    | [] => Err JSONPathError
    end
  end.

(** ** Strings *)

Definition is_hex (c : Z) : bool := between 48 c 57 || between 97 c 102 || between 65 c 70.

Definition hex_value (c : Z) : Z :=
  if between 48 c 57 then c - 48 else if between 97 c 102 then c - 87 else c - 55.

(** Four hexadecimal digits, with the number they spell. *)
Definition take_hex4 (s : pystr) : option (pystr * Z * pystr) :=
  match s with
  | a :: b :: c :: d :: s =>
    if is_hex a && is_hex b && is_hex c && is_hex d
    then Some ([a; b; c; d],
               ((hex_value a * 16 + hex_value b) * 16 + hex_value c) * 16 + hex_value d, s)
    else None
  | _ => None
  end.

Definition unicode_escape (s : pystr) : P pystr :=
  match take_hex4 s with
  | None => Err JSONPathError
  | Some (digits, codepoint, s) =>
    let encoded := bs "\u" ++ digits in
    if between 0xD800 codepoint 0xDBFF then
      match take_text (bs "\u") s with
      | None => Err JSONPathError
      | Some s =>
        match take_hex4 s with
        | None => Err JSONPathError
        | Some (low_digits, low, s) =>
          if between 0xDC00 low 0xDFFF then Ok (encoded ++ bs "\u" ++ low_digits, s)
          else Err JSONPathError
        end
      end
    else if between 0xDC00 codepoint 0xDFFF then Err JSONPathError
    else Ok (encoded, s)
  end.

(** The loop of [string]: the characters of the JSON text collected so far.
    Leaving the loop at a final backslash skips the [else] of the [while]. *)
Fixpoint string_loop (fuel : nat) (quote : Z) (s encoded : pystr) : P pystr :=
  match fuel with
  | O => Err ParseFuel
  | S fuel =>
    match s with
    | [] => Err JSONPathError
    | c :: s =>
      if c =? quote then Ok (encoded, s)
      else if (c <? 0x20) || between 0xD800 c 0xDFFF then Err JSONPathError
      else if negb (c =? 92) then
        string_loop fuel quote s (encoded ++ (if c =? 34 then [92; 34] else [c]))
      else
        match s with
        | [] => Ok (encoded, [])
        | escape :: s =>
          if escape =? quote then
            string_loop fuel quote s (encoded ++ (if quote =? 39 then [39] else [92; 34]))
          else if bool_decide (escape ∈ bs "bfnrt/\") then
            string_loop fuel quote s (encoded ++ [92; escape])
          else if escape =? 117 then
            let! (text, s) := unicode_escape s in string_loop fuel quote s (encoded ++ text)
          else Err JSONPathError
        end
    end
  end.

(** ** Static conditions *)

Definition value_operand (e : expr) : bool :=
  match e with
  | _Literal _ => true
  | _Query _ _ singular => singular
  | _Function (FLength | FCount | FValue) _ => true
  | _ => false
  end.

Definition is_query (e : expr) : bool := match e with _Query _ _ _ => true | _ => false end.

Definition is_test (e : expr) : bool :=
  match e with
  | _Query _ _ _ => true
  | _Function (FMatch | FSearch) _ => true
  | _ => false
  end.

Definition singular_segment (seg : segment) : bool :=
  match seg with
  | _Segment false [_Name _] | _Segment false [_Index _] => true
  | _ => false
  end.

Definition arity (f : function) : nat :=
  match f with FLength | FCount | FValue => 1 | FMatch | FSearch => 2 end%nat.

Definition function_named (name : pystr) : option function :=
  if decide (name = bs "length") then Some FLength
  else if decide (name = bs "count") then Some FCount
  else if decide (name = bs "value") then Some FValue
  else if decide (name = bs "match") then Some FMatch
  else if decide (name = bs "search") then Some FSearch
  else None.

(** The checks at the end of [function]. *)
Definition check_function (f : function) (arguments : list expr) : res parse_error expr :=
  if negb (length arguments =? arity f)%nat then Err JSONPathError
  else
    match f with
    | FLength | FMatch | FSearch =>
      if forallb value_operand arguments then Ok (_Function f arguments) else Err JSONPathError
    | FCount | FValue =>
      match arguments with
      | a :: _ => if is_query a then Ok (_Function f arguments) else Err JSONPathError
      | [] => Err JSONPathError
      end
    end.

(** [next(candidate for candidate in (...) if self.take(candidate))]. *)
Definition take_operator (s : pystr) : option (operator * pystr) :=
  match take_text (bs "==") s with Some s => Some (OpEq, s) | None =>
  match take_text (bs "!=") s with Some s => Some (OpNe, s) | None =>
  match take_text (bs "<=") s with Some s => Some (OpLe, s) | None =>
  match take_text (bs ">=") s with Some s => Some (OpGe, s) | None =>
  match take_text (bs "<") s with Some s => Some (OpLt, s) | None =>
  match take_text (bs ">") s with Some s => Some (OpGt, s) | None => None
  end end end end end end.

(** The end of a query inside a filter. *)
Definition filter_stop (s : pystr) : res parse_error bool :=
  if peek (bs "&&") s || peek (bs "||") s || peek (bs "==") s || peek (bs "!=") s ||
     peek (bs "<=") s || peek (bs ">=") s then Ok true
  else match s with
       | [] => Err IndexError
       | c :: _ => Ok (bool_decide (c ∈ bs "<>)!,"))
       end.

Definition is_word_char (c : Z) : bool := between 97 c 122 || between 48 c 57 || (c =? 95).

(** ** Numbers *)

(** The regular expression of [number]: a sign, an integer part with no leading
    zero, and optional fraction and exponent parts of ASCII digits. *)
Definition scan_fraction (s : pystr) : pystr * pystr :=
  match s with
  | c :: s' =>
    if c =? 46 then
      match span is_ascii_digit s' with
      | ([], _) => ([], s)
      | (ds, rest) => (c :: ds, rest)
      end
    else ([], s)
  | [] => ([], s)
  end.

Definition scan_exponent (s : pystr) : pystr * pystr :=
  match s with
  | e :: s' =>
    if (e =? 101) || (e =? 69) then
      let '(sign, s'') := match s' with
        | c :: t => if (c =? 43) || (c =? 45) then ([c], t) else ([], s')
        | [] => ([], s')
        end in
      match span is_ascii_digit s'' with
      | ([], _) => ([], s)
      | (ds, rest) => (e :: sign ++ ds, rest)
      end
    else ([], s)
  | [] => ([], s)
  end.

Definition scan_number (s : pystr) : option (pystr * pystr) :=
  let '(sign, s1) := match take_text (bs "-") s with
                     | Some t => (bs "-", t)
                     | None => ([], s)
                     end in
  match s1 with
  | c :: t =>
    if is_ascii_digit c then
      let '(ds, s2) := if c =? 48 then ([48], t) else span is_ascii_digit s1 in
      let '(frac, s3) := scan_fraction s2 in
      let '(exp, s4) := scan_exponent s3 in
      Some (sign ++ ds ++ frac ++ exp, s4)
    else None
  | [] => None
  end.

Definition _IJSON_MAX : Z := 2 ^ 53 - 1.

Section parser.
Context (json_loads : pystr -> loaded).
Context (isdigit : Z -> bool) (decimal : Z -> option Z).

(** [string]: the quote is the next character. *)
Definition string (s : pystr) : P pystr :=
  match s with
  | [] => Err IndexError
  | quote :: s =>
    let! (encoded, s) := string_loop (S (length s)) quote s [] in
    match json_loads ([34] ++ encoded ++ [34]) with
    | Loaded (JStr v) => Ok (v, s)
    | _ => Err JSONPathError
    end
  end.

(** [int(digits)]: [None] is [ValueError]. *)
Fixpoint decimals (acc : Z) (s : pystr) : option Z :=
  match s with
  | [] => Some acc
  | c :: s => match decimal c with Some d => decimals (acc * 10 + d) s | None => None end
  end.

Definition py_int_digits (digits : pystr) : option Z :=
  if (4300 <? zlen digits) then None else decimals 0 digits.

(** [integer(optional=True)]. *)
Definition integer (s : pystr) : P (option Z) :=
  let '(negative, s') := match take_text (bs "-") s with Some s' => (true, s') | None => (false, s) end in
  match span isdigit s' with
  | ([], _) => Ok (None, s)
  | (d :: ds, rest) =>
    if (d =? 48) && (negative || bool_decide (ds <> [])) then Err JSONPathError
    else
      match py_int_digits (d :: ds) with
      | None => Err ValueError
      | Some n =>
        if n >? _IJSON_MAX then Err JSONPathError
        else Ok (Some (if negative : bool then - n else n), rest)
      end
  end.

Definition index_or_slice (s : pystr) : P selector :=
  let! (start, s) := integer s in
  let s := whitespace s in
  match take_text (bs ":") s with
  | None => match start with Some i => Ok (_Index i, s) | None => Err JSONPathError end
  | Some s =>
    let! (stop, s) := integer (whitespace s) in
    let s := whitespace s in
    match take_text (bs ":") s with
    | None => Ok (_Slice start stop None, s)
    | Some s =>
      let! (step, s) := integer (whitespace s) in
      Ok (_Slice start stop step, s)
    end
  end.

Definition number (s : pystr) : P json :=
  match scan_number s with
  | None => Err JSONPathError
  | Some (text, rest) =>
    match json_loads text with
    | Loaded (JInt n) => Ok (JInt n, rest)
    | Loaded (JFloat m e) => Ok (JFloat m e, rest)
    | Loaded _ | LoadedNonFinite => Err JSONPathError
    | LoadError => Err ValueError
    end
  end.

(** The literal words of [operand]. *)
Definition take_word (s : pystr) : option (json * pystr) :=
  match take_text (bs "true") s with Some s => Some (JBool true, s) | None =>
  match take_text (bs "false") s with Some s => Some (JBool false, s) | None =>
  match take_text (bs "null") s with Some s => Some (JNull, s) | None => None
  end end end.

Definition starts_number (s : pystr) : bool :=
  match s with c :: _ => isdigit c || (c =? 45) | [] => false end.

Fixpoint segments (fuel stack : nat) (in_filter : bool) (s : pystr) (acc : list segment) {struct fuel}
    : P (list segment) :=
  match fuel, stack with
  | O, _ => Err ParseFuel
  | _, O => Err RecursionError
  | S fuel, S below =>
    match s with
    | [] => Ok (acc, [])
    | _ =>
      let s' := whitespace s in
      let! stop := (if in_filter then filter_stop s' else Ok false) in
      if stop : bool then Ok (acc, s')
      else
        match take_text (bs "..") s' with
        | Some s1 =>
          let! (sels, s2) :=
            (match below with
             | O => Err RecursionError
             | S below => if peek (bs "[") s1 then bracket_selectors fuel below s1 else dot_selectors s1
             end) in
          segments fuel stack in_filter s2 (acc ++ [_Segment true sels])
        | None =>
          match take_text (bs ".") s' with
          | Some s1 =>
            let! (sels, s2) := dot_selectors s1 in
            segments fuel stack in_filter s2 (acc ++ [_Segment false sels])
          | None =>
            if peek (bs "[") s' then
              let! (sels, s2) := bracket_selectors fuel below s' in
              segments fuel stack in_filter s2 (acc ++ [_Segment false sels])
            else Ok (acc, s)
          end
        end
    end
  end
with bracket_selectors (fuel stack : nat) (s : pystr) {struct fuel} : P (list selector) :=
  match fuel, stack with
  | O, _ => Err ParseFuel
  | _, O => Err RecursionError
  | S fuel, S stack =>
    match take_text (bs "[") s with
    | None => Err JSONPathError
    | Some s => bracket_loop fuel stack s []
    end
  end
with bracket_loop (fuel stack : nat) (s : pystr) (acc : list selector) {struct fuel}
    : P (list selector) :=
  match fuel with
  | O => Err ParseFuel
  | S fuel =>
    let! (sel, s) := selector_of fuel stack (whitespace s) in
    let s := whitespace s in
    match take_text (bs "]") s with
    | Some s => Ok (acc ++ [sel], s)
    | None =>
      match take_text (bs ",") s with
      | Some s => bracket_loop fuel stack s (acc ++ [sel])
      | None => Err JSONPathError
      end
    end
  end
with selector_of (fuel stack : nat) (s : pystr) {struct fuel} : P selector :=
  match fuel, stack with
  | O, _ => Err ParseFuel
  | _, O => Err RecursionError
  | S fuel, S stack =>
    match take_text (bs "*") s with
    | Some s => Ok (_Wildcard, s)
    | None =>
      match take_text (bs "?") s with
      | Some s => let! (e, s) := logical_or fuel stack s in Ok (_Filter e, s)
      | None =>
        if peek [39] s || peek [34] s
        then let! (name, s) := string s in Ok (_Name name, s)
        else index_or_slice s
      end
    end
  end
with logical_or (fuel stack : nat) (s : pystr) {struct fuel} : P expr :=
  match fuel, stack with
  | O, _ => Err ParseFuel
  | _, O => Err RecursionError
  | S fuel, S stack => let! (e, s) := logical_and fuel stack s in or_loop fuel stack e s
  end
with or_loop (fuel stack : nat) (e : expr) (s : pystr) {struct fuel} : P expr :=
  match fuel with
  | O => Err ParseFuel
  | S fuel =>
    let s := whitespace s in
    match take_text (bs "||") s with
    | None => Ok (e, s)
    | Some s =>
      let! (e', s) := logical_and fuel stack (whitespace s) in
      or_loop fuel stack (_Logical e false e') s
    end
  end
with logical_and (fuel stack : nat) (s : pystr) {struct fuel} : P expr :=
  match fuel, stack with
  | O, _ => Err ParseFuel
  | _, O => Err RecursionError
  | S fuel, S stack => let! (e, s) := logical_unary fuel stack s in and_loop fuel stack e s
  end
with and_loop (fuel stack : nat) (e : expr) (s : pystr) {struct fuel} : P expr :=
  match fuel with
  | O => Err ParseFuel
  | S fuel =>
    let s := whitespace s in
    match take_text (bs "&&") s with
    | None => Ok (e, s)
    | Some s =>
      let! (e', s) := logical_unary fuel stack (whitespace s) in
      and_loop fuel stack (_Logical e true e') s
    end
  end
with logical_unary (fuel stack : nat) (s : pystr) {struct fuel} : P expr :=
  match fuel, stack with
  | O, _ => Err ParseFuel
  | _, O => Err RecursionError
  | S fuel, S stack =>
    let s := whitespace s in
    let '(negated, s) := match take_text (bs "!") s with
                         | Some s => (true, whitespace s)
                         | None => (false, s)
                         end in
    match take_text (bs "(") s with
    | Some s =>
      let! (e, s) := logical_or fuel stack s in
      match take_text (bs ")") (whitespace s) with
      | None => Err JSONPathError
      | Some s => Ok (if negated : bool then _Not e else e, s)
      end
    | None =>
      let! (lhs, s) := operand_of fuel stack s in
      let s := whitespace s in
      match take_operator s with
      | None =>
        if is_test lhs then Ok (if negated : bool then _Not lhs else lhs, s)
        else Err JSONPathError
      | Some (op, s) =>
        if negated : bool then Err JSONPathError
        else
          let! (rhs, s) := operand_of fuel stack (whitespace s) in
          if value_operand lhs && value_operand rhs then Ok (_Compare lhs op rhs, s)
          else Err JSONPathError
      end
    end
  end
with operand_of (fuel stack : nat) (s : pystr) {struct fuel} : P expr :=
  match fuel, stack with
  | O, _ => Err ParseFuel
  | _, O => Err RecursionError
  | S fuel, S stack =>
    let s := whitespace s in
    if peek (bs "$") s || peek (bs "@") s then query fuel stack s
    else if peek [39] s || peek [34] s then
      let! (v, s) := string s in Ok (_Literal (JStr v), s)
    else
      match take_word s with
      | Some (v, s) => Ok (_Literal v, s)
      | None =>
        if starts_number s then let! (v, s) := number s in Ok (_Literal v, s)
        else
          let '(name, rest) := span is_word_char s in
          match name, take_text (bs "(") rest with
          | _ :: _, Some rest => function_of fuel stack name rest
          | _, _ => Err JSONPathError
          end
      end
  end
with query (fuel stack : nat) (s : pystr) {struct fuel} : P expr :=
  match fuel, stack with
  | O, _ => Err ParseFuel
  | _, O => Err RecursionError
  | S fuel, S stack =>
    match s with
    | c :: s =>
      if (c =? 36) || (c =? 64) then
        let! (segs, s) := segments fuel stack true s [] in
        Ok (_Query (c =? 36) segs (forallb singular_segment segs), s)
      else Err JSONPathError
    | [] => Err JSONPathError
    end
  end
with function_of (fuel stack : nat) (name : pystr) (s : pystr) {struct fuel} : P expr :=
  match fuel, stack with
  | O, _ => Err ParseFuel
  | _, O => Err RecursionError
  | S fuel, S stack =>
    match function_named name with
    | None => Err JSONPathError
    | Some f =>
      let s := whitespace s in
      let! (arguments, s) :=
        (match take_text (bs ")") s with
         | Some s => Ok ([], s)
         | None => argument_loop fuel stack s []
         end) in
      let! e := check_function f arguments in
      Ok (e, s)
    end
  end
with argument_loop (fuel stack : nat) (s : pystr) (acc : list expr) {struct fuel} : P (list expr) :=
  match fuel with
  | O => Err ParseFuel
  | S fuel =>
    let! (a, s) := operand_of fuel stack s in
    let s := whitespace s in
    match take_text (bs ")") s with
    | Some s => Ok (acc ++ [a], s)
    | None =>
      match take_text (bs ",") s with
      | Some s => argument_loop fuel stack (whitespace s) (acc ++ [a])
      | None => Err JSONPathError
      end
    end
  end.

(** Every call reads a character or descends one of at most eight levels. *)
Definition parse_fuel (s : pystr) : nat := (8 * length s + 8)%nat.

(** [_Parser(source).parse()]. *)
Definition parse (stack : nat) (src : pystr) : res parse_error (list segment) :=
  if bool_decide (src = []) || (zlen src >? 16 * 1024) then Err JSONPathError
  else
    match take_text (bs "$") src with
    | None => Err JSONPathError
    | Some s =>
      let! (segs, rest) := segments (parse_fuel s) stack false s [] in
      match rest with [] => Ok segs | _ => Err JSONPathError end
    end.

Definition compile_jsonpath (stack : nat) (src : pystr) (visits : Z) : res parse_error JSONPath :=
  if visits <=? 0 then Err ValueError
  else let! segs := parse stack src in Ok (mkJSONPath src segs (_native_segments segs) visits).

(** [jsonpath] on a source string ([inl]) or a compiled expression ([inr]). *)
Definition jsonpath (stack : nat) (native_find : program -> json -> Z -> res jperr (list _Node))
    (src : pystr + JSONPath) (v : json) : res (parse_error + jperr) (list json) :=
  let! compiled :=
    (match src with
     | inr p => Ok p
     | inl text =>
       match compile_jsonpath stack text 1000000 with Ok p => Ok p | Err e => Err (inl e) end
     end) in
  match find native_find compiled v with
  | Ok matches => Ok (map m_value matches)
  | Err e => Err (inr e)
  end.
End parser.
