(* ===== verification/JsonPathEvalFacts.v ===== *)
(** * JSONPath: the evaluator

    Well-typed expressions, the induction principle of the syntax, and the
    facts the claims rest on: every evaluation is metered (the budget decides
    only whether an answer is given, never which), and every node an
    evaluation returns is found in the document under its own tokens. *)

From stdpp Require Import base sets strings numbers list gmap.
From Stdlib Require Import ZArith Lia.
From S2P Require Import Prelude PyCollections JsonPath JsonPathParser.
#[local] Open Scope Z_scope.

(** ** Induction on the syntax *)

Section syntax_ind.
Context (Pe : expr -> Prop) (Ps : selector -> Prop) (Pg : segment -> Prop).
Context (Hlit : forall v, Pe (_Literal v))
  (Hquery : forall r segs sg, Forall Pg segs -> Pe (_Query r segs sg))
  (Hfun : forall f args, Forall Pe args -> Pe (_Function f args))
  (Hcmp : forall l o r, Pe l -> Pe r -> Pe (_Compare l o r))
  (Hnot : forall e, Pe e -> Pe (_Not e))
  (Hlog : forall l b r, Pe l -> Pe r -> Pe (_Logical l b r))
  (Hname : forall n, Ps (_Name n)) (Hindex : forall i, Ps (_Index i))
  (Hslice : forall a b c, Ps (_Slice a b c)) (Hwild : Ps _Wildcard)
  (Hfilter : forall e, Pe e -> Ps (_Filter e))
  (Hseg : forall d sels, Forall Ps sels -> Pg (_Segment d sels)).

Fixpoint expr_mut (e : expr) : Pe e :=
  match e with
  | _Literal v => Hlit v
  | _Query r segs sg =>
    Hquery r segs sg ((fix go l : Forall Pg l :=
      match l with [] => ListDef.Forall_nil _ | g :: l => ListDef.Forall_cons _ _ _ (segment_mut g) (go l) end) segs)
  | _Function f args =>
    Hfun f args ((fix go l : Forall Pe l :=
      match l with [] => ListDef.Forall_nil _ | a :: l => ListDef.Forall_cons _ _ _ (expr_mut a) (go l) end) args)
  | _Compare l o r => Hcmp l o r (expr_mut l) (expr_mut r)
  | _Not e => Hnot e (expr_mut e)
  | _Logical l b r => Hlog l b r (expr_mut l) (expr_mut r)
  end
with selector_mut (s : selector) : Ps s :=
  match s with
  | _Name n => Hname n
  | _Index i => Hindex i
  | _Slice a b c => Hslice a b c
  | _Wildcard => Hwild
  | _Filter e => Hfilter e (expr_mut e)
  end
with segment_mut (g : segment) : Pg g :=
  match g with
  | _Segment d sels =>
    Hseg d sels ((fix go l : Forall Ps l :=
      match l with [] => ListDef.Forall_nil _ | s :: l => ListDef.Forall_cons _ _ _ (selector_mut s) (go l) end) sels)
  end.

Lemma syntax_mut : (forall e, Pe e) /\ (forall s, Ps s) /\ (forall g, Pg g).
Proof. exact (conj expr_mut (conj selector_mut segment_mut)). Qed.
End syntax_ind.

(** ** Well-typed expressions *)

(** What a filter may test. *)
Definition testable (e : expr) : bool :=
  match e with
  | _Compare _ _ _ | _Not _ | _Logical _ _ _ => true
  | _ => is_test e
  end.

Fixpoint wf_expr (e : expr) : bool :=
  match e with
  | _Literal _ => true
  | _Query _ segs singular =>
    forallb wf_segment segs && Bool.eqb singular (forallb singular_segment segs)
  | _Function f args => forallb wf_expr args && is_ok (check_function f args)
  | _Compare l _ r => wf_expr l && wf_expr r && value_operand l && value_operand r
  | _Not e => wf_expr e && testable e
  | _Logical l _ r => wf_expr l && wf_expr r && testable l && testable r
  end
with wf_selector (s : selector) : bool :=
  match s with _Filter e => wf_expr e && testable e | _ => true end
with wf_segment (g : segment) : bool :=
  match g with _Segment _ sels => forallb wf_selector sels end.

(** ** Metered computations *)

(** The result [a] costs [n] visits: with that budget or more it is returned
    and the rest of the budget kept; with less the limit is raised. *)
Definition costs {A} (c : M A) (a : A) (n : Z) : Prop :=
  0 <= n /\ forall b, 0 <= b -> c b = if n <=? b then Ok (a, b - n) else Err VisitLimit.

Definition metered {A} (c : M A) (Q : A -> Prop) : Prop := exists a n, costs c a n /\ Q a.

Lemma costs_ret {A} (a : A) : costs (mret a) a 0.
Proof.
  split; [lia|]. intros b Hb. unfold mret. replace (0 <=? b) with true by lia.
  by rewrite Z.sub_0_r.
Qed.

Lemma costs_visit : costs visit tt 1.
Proof.
  split; [lia|]. intros b Hb. unfold visit.
  destruct (1 <=? b) eqn:E; [replace (b - 1 <? 0) with false by lia|replace (b - 1 <? 0) with true by lia]; done.
Qed.

Lemma costs_bind {A B} (c : M A) (k : A -> M B) a b n m :
  costs c a n -> costs (k a) b m -> costs (mbind c k) b (n + m).
Proof.
  intros [Hn Hc] [Hm Hk]. split; [lia|]. intros x Hx. unfold mbind. rewrite Hc by done.
  destruct (n <=? x) eqn:E.
  - rewrite Hk by lia. destruct (m <=? x - n) eqn:E';
      [replace (n + m <=? x) with true by lia; do 2 f_equal; lia
      |replace (n + m <=? x) with false by lia; done].
  - by replace (n + m <=? x) with false by lia.
Qed.

Lemma metered_ret {A} (a : A) (Q : A -> Prop) : Q a -> metered (mret a) Q.
Proof. intros. exists a, 0. split; [apply costs_ret|done]. Qed.

Lemma metered_visit (Q : unit -> Prop) : Q tt -> metered visit Q.
Proof. intros. exists tt, 1. split; [apply costs_visit|done]. Qed.

Lemma metered_bind {A B} (c : M A) (k : A -> M B) (Q : A -> Prop) (R : B -> Prop) :
  metered c Q -> (forall a, Q a -> metered (k a) R) -> metered (mbind c k) R.
Proof.
  intros (a & n & Hc & Ha) Hk. destruct (Hk a Ha) as (b & m & Hb & HR).
  exists b, (n + m). split; [by eapply costs_bind|done].
Qed.

Lemma metered_weaken {A} (c : M A) (Q R : A -> Prop) :
  metered c Q -> (forall a, Q a -> R a) -> metered c R.
Proof. intros (a & n & Hc & Ha) H. exists a, n. auto. Qed.

Lemma costs_visits {A} (l : list A) : costs (visits l) tt (zlen l).
Proof.
  induction l as [|x l IH]; [apply costs_ret|]. rewrite zlen_cons.
  apply (costs_bind visit _ tt tt); [apply costs_visit|exact IH].
Qed.

Lemma metered_collect {A B} (f : A -> M (list B)) (Q : B -> Prop) l found :
  Forall Q found -> (forall x, x ∈ l -> metered (f x) (Forall Q)) ->
  metered (collect f l found) (Forall Q).
Proof.
  revert found. induction l as [|x l IH]; intros found Hf Hl; [by apply metered_ret|].
  cbn [collect]. eapply metered_bind; [apply Hl; set_solver|]. intros ys Hys.
  apply IH; [by apply Forall_app|]. intros y Hy. apply Hl. set_solver.
Qed.

(** ** Nodes of a document *)

(** Follow the tokens of a path into a document. *)
Definition step_token (t : token) (v : json) : option json :=
  match t, v with
  | TName s, JObj l => dget l s
  | TIndex i, JList l => if 0 <=? i then l !! Z.to_nat i else None
  | _, _ => None
  end.

Fixpoint locate (ts : list token) (v : json) : option json :=
  match ts with
  | [] => Some v
  | t :: ts => match step_token t v with Some w => locate ts w | None => None end
  end.

Lemma locate_app ts t v w : locate ts v = Some w -> locate (ts ++ [t]) v = step_token t w.
Proof.
  revert v. induction ts as [|t' ts IH]; intros v; simpl.
  - intros [= ->]. by destruct (step_token t w).
  - destruct (step_token t' v); [apply IH|done].
Qed.

(** Member names are distinct, everywhere in the value. *)
Fixpoint distinct (v : json) : Prop :=
  match v with
  | JList l => (fix all l := match l with [] => True | v :: l => distinct v /\ all l end) l
  | JObj l =>
    NoDup (dkeys l) /\
    (fix all l := match l with [] => True | (_, v) :: l => distinct v /\ all l end) l
  | _ => True
  end.

Section nodes.
Context (doc : json).

(** A node of [doc]: its value is what its tokens lead to. *)
Definition node_of (n : _Node) : Prop :=
  locate (tokens n) doc = Some (value n) /\ distinct (value n).

Lemma distinct_list l v : distinct (JList l) -> v ∈ l -> distinct v.
Proof.
  simpl. induction l as [|w l IH]; [set_solver|]. intros [Hw Hl].
  rewrite elem_of_cons. intros [->|Hv]; auto.
Qed.

Lemma distinct_obj l name v : distinct (JObj l) -> (name, v) ∈ l -> distinct v.
Proof.
  simpl. intros [_ H]. induction l as [|[n w] l IH]; [set_solver|]. destruct H as [Hw Hl].
  rewrite elem_of_cons. intros [[= -> ->]|Hv]; auto.
Qed.

Lemma node_step n t v :
  node_of n -> step_token t (value n) = Some v -> node_of (mkNode v (tokens n ++ [t])).
Proof.
  intros [Hl Hd] Hs. split; [cbn [tokens value]; by rewrite (locate_app _ _ _ _ Hl)|]. simpl.
  destruct t as [s|i], (value n) as [| | | | |l|l]; try done.
  - apply dget_elem in Hs. by eapply distinct_obj.
  - simpl in Hs. destruct (0 <=? i); [|done]. apply list_elem_of_lookup_2 in Hs.
    by eapply distinct_list.
Qed.

Lemma index_nodes_elem ts i l n :
  n ∈ index_nodes ts i l <->
  exists k v, l !! k = Some v /\ n = mkNode v (ts ++ [TIndex (i + Z.of_nat k)]).
Proof.
  revert i. induction l as [|v l IH]; intros i; simpl; [set_solver|].
  rewrite elem_of_cons, IH. split.
  - intros [->|(k & w & Hk & ->)]; [exists 0%nat, v; by rewrite Z.add_0_r|].
    exists (S k), w. split; [done|]. do 4 f_equal. lia.
  - intros ([|k] & w & Hk & ->); [injection Hk as ->; left; by rewrite Z.add_0_r|].
    right. exists k, w. split; [done|]. do 4 f_equal. lia.
Qed.

Lemma children_nodes n : node_of n -> Forall node_of (_children n).
Proof.
  intros Hn. apply Forall_forall. intros c Hc. unfold _children in Hc.
  pose proof Hn as [_ Hd]. destruct (value n) as [| | | | |l|l] eqn:E; try set_solver.
  - apply index_nodes_elem in Hc as (k & v & Hk & ->). apply node_step; [done|]. rewrite E.
    cbn [step_token]. rewrite Z.add_0_l. rewrite (proj2 (Z.leb_le 0 (Z.of_nat k)) (Nat2Z.is_nonneg k)). by rewrite Nat2Z.id.
  - apply list_elem_of_fmap in Hc as ([s v] & -> & Hin). apply node_step; [done|]. rewrite E.
    simpl. apply dget_nodup; [|done]. apply Hd.
Qed.

(** ** Descendants *)

Definition pending_size (l : list _Node) : nat := sum_list (map (json_size ∘ value) l).

Lemma json_size_children n : json_size (value n) = S (pending_size (_children n)).
Proof.
  destruct n as [v ts]. unfold _children, pending_size. simpl.
  destruct v as [| | | | |l|l]; try done; cbn [json_size]; f_equal.
  - generalize 0. induction l as [|v l IH]; intros i; simpl; [done|]. by rewrite (IH (i + 1)).
  - induction l as [|[s v] l IH]; simpl; [done|]. by rewrite IH.
Qed.

Lemma pending_size_app l k : pending_size (l ++ k) = (pending_size l + pending_size k)%nat.
Proof. unfold pending_size. rewrite map_app, sum_list_with_app. done. Qed.

(** The reference: the nodes of a value, parents before children, in order. *)
Fixpoint preorder (v : json) (ts : list token) : list _Node :=
  mkNode v ts ::
  match v with
  | JList l =>
    (fix go (i : Z) (l : list json) : list _Node :=
       match l with [] => [] | v :: l => preorder v (ts ++ [TIndex i]) ++ go (i + 1) l end) 0 l
  | JObj l =>
    (fix go (l : list (pystr * json)) : list _Node :=
       match l with [] => [] | (s, v) :: l => preorder v (ts ++ [TName s]) ++ go l end) l
  | _ => []
  end.

Definition preorder_of (n : _Node) : list _Node := preorder (value n) (tokens n).

Lemma preorder_children n : preorder_of n = n :: concat (map preorder_of (_children n)).
Proof.
  destruct n as [v ts]. unfold preorder_of, _children. simpl.
  destruct v as [| | | | |l|l]; try done; simpl; f_equal.
  - generalize 0. induction l as [|v l IH]; intros i; simpl; [done|]. by rewrite IH.
  - induction l as [|[s v] l IH]; simpl; [done|]. by rewrite IH.
Qed.

Lemma json_size_pos v : (1 <= json_size v)%nat.
Proof. destruct v; simpl; lia. Qed.

Lemma pending_size_length l : (length l <= pending_size l)%nat.
Proof.
  unfold pending_size. induction l as [|n l IH]; simpl; [lia|].
  pose proof (json_size_pos (value n)). lia.
Qed.

Lemma descendants_loop_costs fuel pending found :
  (pending_size pending <= fuel)%nat ->
  costs (descendants_loop fuel pending found) (found ++ concat (map preorder_of pending))
    (Z.of_nat (pending_size pending) - zlen pending).
Proof.
  revert pending found. induction fuel as [|fuel IH]; intros [|n pending] found Hf.
  1, 3: simpl; rewrite app_nil_r; apply costs_ret.
  { pose proof (json_size_pos (value n)). unfold pending_size in Hf. simpl in Hf. lia. }
  cbn [descendants_loop].
  assert (Hsz : pending_size (n :: pending) =
    S (pending_size (_children n ++ pending))).
  { rewrite pending_size_app. unfold pending_size at 1. simpl. by rewrite json_size_children. }
  rewrite Hsz in *. replace (found ++ concat (map preorder_of (n :: pending)))
    with ((found ++ [n]) ++ concat (map preorder_of (_children n ++ pending))).
  - replace (Z.of_nat (S _) - zlen (n :: pending)) with (zlen (_children n) +
      (Z.of_nat (pending_size (_children n ++ pending)) - zlen (_children n ++ pending)))
      by (rewrite zlen_cons, zlen_app; lia).
    apply (costs_bind (visits (_children n)) _ tt); [apply costs_visits|]. apply IH. lia.
  - simpl. rewrite preorder_children, map_app, concat_app, <- !app_assoc. done.
Qed.

Lemma descendants_costs n :
  costs (_descendants n) (preorder_of n) (Z.of_nat (json_size (value n)) - 1).
Proof.
  pose proof (descendants_loop_costs (json_size (value n)) [n] []) as H.
  unfold pending_size in H. simpl in H. rewrite Nat.add_0_r, app_nil_r in H. apply H. lia.
Qed.

Lemma preorder_nodes v ts : node_of (mkNode v ts) -> Forall node_of (preorder v ts).
Proof.
  intros Hn. remember (json_size v) as k eqn:Ek. revert v ts Ek Hn.
  induction (lt_wf k) as [k _ IH]. intros v ts -> Hn.
  change (preorder v ts) with (preorder_of (mkNode v ts)). rewrite preorder_children.
  constructor; [done|]. apply Forall_concat, Forall_map, Forall_forall. intros c Hc.
  pose proof (children_nodes _ Hn) as Hch. rewrite Forall_forall in Hch.
  apply (IH (json_size (value c))); [|done|by destruct c; apply Hch].
  pose proof (json_size_children (mkNode v ts)) as E. cbn [value] in E. rewrite E.
  apply list_elem_of_split in Hc as (l1 & l2 & ->). rewrite pending_size_app.
  unfold pending_size. simpl. lia.
Qed.

Lemma descendants_nodes n : node_of n -> metered (_descendants n) (Forall node_of).
Proof.
  intros Hn. eexists _, _. split; [apply descendants_costs|].
  apply preorder_nodes. by destruct n.
Qed.

(** ** Selectors *)

Lemma visits_then {A B} (l : list A) (c : M B) Q : metered c Q -> metered (do! _ <- visits l ; c) Q.
Proof.
  intros Hc. eapply metered_bind with (Q := fun _ => True); [|done].
  exists tt, (zlen l). split; [apply costs_visits|done].
Qed.

Lemma visit_then {B} (c : M B) Q : metered c Q -> metered (do! _ <- visit ; c) Q.
Proof. intros Hc. eapply metered_bind; [by apply (metered_visit (fun _ => True))|done]. Qed.

Lemma select_name_metered s n : node_of n -> metered (select_name s n) (Forall node_of).
Proof.
  intros Hn. unfold select_name. destruct (value n) as [| | | | |l|l] eqn:E;
    try by apply metered_ret.
  destruct (dget l s) as [v|] eqn:Ev; [|by apply metered_ret].
  apply visit_then, metered_ret. constructor; [|done]. apply node_step; [done|]. by rewrite E.
Qed.

Lemma step_index n l i v :
  node_of n -> value n = JList l -> 0 <= i -> pyget l i = Some v ->
  node_of (mkNode v (tokens n ++ [TIndex i])).
Proof.
  intros Hn E Hi Hv. apply node_step; [done|]. rewrite E. simpl.
  rewrite pyget_nonneg in Hv by done. by replace (0 <=? i) with true by lia.
Qed.

Lemma pyget_some {A} (l : list A) i : 0 <= i < zlen l -> is_Some (pyget l i).
Proof.
  intros Hi. rewrite pyget_nonneg by lia. apply lookup_lt_is_Some. unfold zlen in Hi. lia.
Qed.

Lemma select_index_metered i n : node_of n -> metered (select_index i n) (Forall node_of).
Proof.
  intros Hn. unfold select_index. destruct (value n) as [| | | | |l|l] eqn:E;
    try by apply metered_ret.
  set (k := if 0 <=? i then i else zlen l + i).
  destruct ((0 <=? k) && (k <? zlen l)) eqn:Ek; [|by apply metered_ret].
  destruct (pyget_some l k) as [v Hv]; [lia|]. rewrite Hv.
  apply visit_then, metered_ret. constructor; [|done]. eapply step_index; [done..|lia|done].
Qed.

Lemma clip_bounds lo hi i : lo <= hi -> lo <= clip lo hi i <= hi.
Proof. unfold clip. intros. repeat case_match; lia. Qed.

Lemma slice_bounds start stop step n :
  0 <= n -> step <> Some 0 ->
  let '(first, last, st) := slice_indices start stop step n in
  st <> 0 /\
  (if st <? 0 then -1 <= first <= n - 1 /\ -1 <= last <= n - 1
   else 0 <= first <= n /\ 0 <= last <= n).
Proof.
  intros Hn Hs. unfold slice_indices. set (st := default 1 step).
  assert (Hst : st <> 0) by (unfold st; destruct step; simpl; congruence).
  split; [done|]. unfold slice_bound.
  destruct (st <? 0); destruct start, stop; split; try lia; apply clip_bounds; lia.
Qed.

Lemma range_bounds first last step n i :
  step <> 0 -> i ∈ py_range first last step ->
  (if step <? 0 then -1 <= first <= n - 1 /\ -1 <= last <= n - 1
   else 0 <= first <= n /\ 0 <= last <= n) -> 0 <= i < n.
Proof.
  intros Hs Hi Hb. unfold py_range in Hi. apply list_elem_of_fmap in Hi as (k & -> & Hk).
  apply elem_of_seq in Hk. unfold range_length in Hk.
  destruct (step <? 0) eqn:Es.
  - replace (0 <? step) with false in Hk by lia. destruct (last <? first) eqn:E; [|simpl in Hk; lia].
    assert (Z.of_nat k <= (first - last - 1) / - step) by lia.
    pose proof (Z.mul_div_le (first - last - 1) (- step) ltac:(lia)). nia.
  - replace (0 <? step) with true in Hk by lia. destruct (first <? last) eqn:E; [|simpl in Hk; lia].
    assert (Z.of_nat k <= (last - first - 1) / step) by lia.
    pose proof (Z.mul_div_le (last - first - 1) step ltac:(lia)). nia.
Qed.

Lemma select_slice_metered a b c n : node_of n -> metered (select_slice a b c n) (Forall node_of).
Proof.
  intros Hn. unfold select_slice. destruct (value n) as [| | | | |l|l] eqn:E;
    try by apply metered_ret.
  case_decide as Hc; [by apply metered_ret|].
  pose proof (slice_bounds a b c (zlen l) (zlen_nonneg l) Hc) as Hb.
  destruct (slice_indices a b c (zlen l)) as [[first last] st]. destruct Hb as [Hst Hb].
  apply metered_collect; [done|]. intros i Hi.
  pose proof (range_bounds first last st (zlen l) i Hst Hi Hb) as Hr.
  destruct (pyget_some l i Hr) as [v Hv]. rewrite Hv.
  apply visit_then, metered_ret. constructor; [|done]. eapply step_index; [done..|lia|done].
Qed.

Lemma select_wildcard_metered n : node_of n -> metered (select_wildcard n) (Forall node_of).
Proof. intros Hn. unfold select_wildcard. apply visits_then, metered_ret. by apply children_nodes. Qed.

Lemma select_filter_metered test n :
  node_of n -> (forall c, node_of c -> metered (test c) (fun _ => True)) ->
  metered (select_filter test n) (Forall node_of).
Proof.
  intros Hn Ht. unfold select_filter. apply metered_collect; [done|]. intros c Hc.
  pose proof (children_nodes _ Hn) as Hch. rewrite Forall_forall in Hch.
  apply visit_then. eapply metered_bind; [apply Ht; by apply Hch|]. intros [] _;
    apply metered_ret; [constructor; [by apply Hch|done]|done].
Qed.

Lemma segment_sources_metered d l :
  Forall node_of l -> metered (segment_sources d l) (Forall node_of).
Proof.
  intros Hl. unfold segment_sources. destruct d; [|by apply metered_ret].
  apply metered_collect; [done|]. intros n Hn. rewrite Forall_forall in Hl.
  by apply descendants_nodes, Hl.
Qed.

(** ** Expressions *)

Context (fullmatch search : pystr -> pystr -> bool).

#[local] Abbreviation eval := (eval_expr fullmatch search).

Definition expr_metered (e : expr) : Prop :=
  wf_expr e = true -> forall root cur, node_of root -> node_of cur ->
  metered (fst (eval e root cur)) (fun _ => True) /\
  metered (snd (eval e root cur)) (fun _ => True) /\
  match e with
  | _Query is_root segs _ =>
    metered (run_all (fun seg nodes => run_segment fullmatch search seg nodes root) segs
               [if is_root : bool then root else cur]) (Forall node_of)
  | _ => True
  end.

Definition selector_metered (s : selector) : Prop :=
  wf_selector s = true -> forall n root, node_of n -> node_of root ->
  metered (_select fullmatch search s n root) (Forall node_of).

Definition segment_metered (g : segment) : Prop :=
  wf_segment g = true -> forall l root, Forall node_of l -> node_of root ->
  metered (run_segment fullmatch search g l root) (Forall node_of).

Lemma run_all_metered segs l root :
  Forall segment_metered segs -> forallb wf_segment segs = true ->
  Forall node_of l -> node_of root ->
  metered (run_all (fun seg nodes => run_segment fullmatch search seg nodes root) segs l)
    (Forall node_of).
Proof.
  intros Hs. revert l. induction Hs as [|g segs Hg _ IH]; intros l Hwf Hl Hr.
  - by apply metered_ret.
  - cbn in Hwf. apply andb_prop in Hwf as [H1 H2]. cbn [run_all].
    eapply metered_bind; [by apply Hg|]. intros ys Hys. by apply IH.
Qed.

Lemma then_ret {A B} (c : M A) (f : A -> B) Q :
  metered c Q -> metered (do! a <- c ; mret (f a)) (fun _ => True).
Proof. intros Hc. eapply metered_bind; [done|]. intros a _. by apply metered_ret. Qed.

Lemma operand_all_metered args root cur :
  Forall expr_metered args -> forallb wf_expr args = true -> node_of root -> node_of cur ->
  metered (operand_all (fun a => fst (eval a root cur)) args)
    (fun vs => length vs = length args).
Proof.
  intros Ha. induction Ha as [|a args Ha _ IH]; intros Hwf Hr Hc; [by apply metered_ret|].
  cbn in Hwf. apply andb_prop in Hwf as [H1 H2]. cbn [operand_all].
  eapply metered_bind; [by apply Ha|]. intros v _.
  eapply metered_bind; [by apply IH|]. intros vs Hvs. apply metered_ret. simpl. by rewrite Hvs.
Qed.

Lemma call_function_metered f vs :
  vs <> [] -> metered (call_function fullmatch search f vs) (fun _ => True).
Proof. intros Hv. destruct f, vs; try done; by apply metered_ret. Qed.

Lemma query_metered r segs sg : Forall segment_metered segs -> expr_metered (_Query r segs sg).
Proof.
  intros Hs Hwf root cur Hr Hc. cbn [wf_expr] in Hwf. apply andb_prop in Hwf as [Hwf _].
  assert (Hrun : metered (run_all (fun seg nodes => run_segment fullmatch search seg nodes root)
    segs [if r : bool then root else cur]) (Forall node_of)).
  { apply run_all_metered; [done..| |done]. constructor; [by destruct r|done]. }
  split; [|split]; [by eapply then_ret..|done].
Qed.

Lemma function_metered f args : Forall expr_metered args -> expr_metered (_Function f args).
Proof.
  intros Hargs Hwf root cur Hr Hc. cbn [wf_expr] in Hwf. apply andb_prop in Hwf as [Hwf Hck].
  assert (Hcall : metered (fst (eval (_Function f args) root cur)) (fun _ => True)).
  { cbn [eval_expr fst]. destruct f.
    1, 4, 5: eapply metered_bind; [by apply operand_all_metered|]; intros vs Hvs;
      apply call_function_metered; intros ->; by destruct args.
    all: destruct args as [|[] args]; try (by destruct args); try done.
    all: apply Forall_cons_iff in Hargs as [Hq _]; cbn [forallb] in Hwf;
      apply andb_prop in Hwf as [Hwf _]; destruct (Hq Hwf root cur Hr Hc) as (_ & _ & H);
      by eapply then_ret. }
  split; [exact Hcall|]. split; [|done]. by eapply (then_ret _ operand_bool).
Qed.

Lemma test_metered (test : M bool) :
  metered test (fun _ => True) ->
  metered (do! v <- test ; mret (OVal (JBool v))) (fun _ => True) /\
  metered test (fun _ => True) /\ True.
Proof. intros H. split; [by eapply then_ret|done]. Qed.

Lemma segment_step_metered d sels :
  Forall selector_metered sels -> segment_metered (_Segment d sels).
Proof.
  intros Hs Hwf l root Hl Hr. cbn [run_segment]. cbn [wf_segment] in Hwf.
  eapply metered_bind; [by apply segment_sources_metered|]. intros sources Hsrc.
  apply metered_collect; [done|]. intros n Hn. rewrite Forall_forall in Hsrc.
  specialize (Hsrc n Hn). assert (Hgo : forall found, Forall node_of found ->
    metered (select_all (fun s => _select fullmatch search s n root) sels found) (Forall node_of)).
  { induction Hs as [|s sels Hs _ IH]; intros found Hf; [by apply metered_ret|].
    cbn in Hwf. apply andb_prop in Hwf as [H1 H2]. cbn [select_all].
    eapply metered_bind; [by apply Hs|]. intros ys Hys. apply IH; [done|]. by apply Forall_app. }
  by apply Hgo.
Qed.

Lemma all_metered :
  (forall e, expr_metered e) /\ (forall s, selector_metered s) /\ (forall g, segment_metered g).
Proof.
  apply syntax_mut.
  - intros v _ root cur _ _. split; [by apply metered_ret|]. split; [by apply metered_ret|done].
  - apply query_metered.
  - apply function_metered.
  - intros l o r Hl Hr Hwf root cur Hn Hc. cbn [wf_expr] in Hwf. rewrite !andb_true_iff in Hwf.
    destruct Hwf as [[[Wl Wr] _] _]. apply test_metered.
    eapply metered_bind; [by apply Hl|]. intros a _.
    eapply metered_bind; [by apply Hr|]. intros b _. by apply metered_ret.
  - intros e He Hwf root cur Hn Hc. cbn [wf_expr] in Hwf. apply andb_prop in Hwf as [We _].
    apply test_metered. eapply then_ret. by apply He.
  - intros l b r Hl Hr Hwf root cur Hn Hc. cbn [wf_expr] in Hwf. rewrite !andb_true_iff in Hwf.
    destruct Hwf as [[[Wl Wr] _] _]. apply test_metered.
    eapply metered_bind; [by apply Hl|]. intros v _.
    destruct (Bool.eqb v b); [by apply Hr|by apply metered_ret].
  - intros s _ n root Hn _. by apply select_name_metered.
  - intros i _ n root Hn _. by apply select_index_metered.
  - intros a b c _ n root Hn _. by apply select_slice_metered.
  - intros _ n root Hn _. by apply select_wildcard_metered.
  - intros e He Hwf n root Hn Hr. cbn [wf_selector] in Hwf. apply andb_prop in Hwf as [We _].
    apply select_filter_metered; [done|]. intros c Hc. by apply He.
  - apply segment_step_metered.
Qed.

Lemma run_metered segs l root :
  forallb wf_segment segs = true -> Forall node_of l -> node_of root ->
  metered (_run fullmatch search segs l root) (Forall node_of).
Proof.
  intros Hwf Hl Hr. apply run_all_metered; [|done..]. apply Forall_forall.
  intros g _. apply all_metered.
Qed.
End nodes.
