(* ===== verification/JsonPathParserFacts.v ===== *)
(** * JSONPath: the parser ends, and accepts only well-typed expressions

    One induction over the mutually recursive methods: with eight units of
    fuel per unread character and one per level, a method ends, leaves no more
    input than it was given, and returns a well-typed expression; with as deep a
    stack it does not run out of that either. *)

From stdpp Require Import base sets strings numbers list gmap.
From Stdlib Require Import ZArith Lia.
From S2P Require Import Prelude PyCollections PyText JsonPath JsonPathParser JsonPathEvalFacts.
#[local] Open Scope Z_scope.

(** The method ended: with a value that satisfies [Q] and at most [lim]
    characters left, or with an error; no [RecursionError] where the stack is
    [Deep]. *)
Definition ended (Deep : Prop) (e : parse_error) : Prop :=
  match e with ParseFuel => False | RecursionError => ~ Deep | _ => True end.

Definition good (Deep : Prop) {A} (lim : nat) (Q : A -> Prop) (c : P A) : Prop :=
  match c with
  | Ok (a, s) => (length s <= lim)%nat /\ Q a
  | Err e => ended Deep e
  end.

Lemma good_ok {Deep} {A} lim (Q : A -> Prop) a s : (length s <= lim)%nat -> Q a -> good Deep lim Q (Ok (a, s)).
Proof. by split. Qed.

Lemma good_error {Deep} {A} lim (Q : A -> Prop) : good Deep lim Q (Err JSONPathError).
Proof. done. Qed.

Lemma good_bind {Deep} {A B} lim lim' (Q : A -> Prop) (R : B -> Prop) (c : P A) (k : A * pystr -> P B) :
  good Deep lim Q c ->
  (forall a s, (length s <= lim)%nat -> Q a -> good Deep lim' R (k (a, s))) ->
  good Deep lim' R (res_bind c k).
Proof. destruct c as [[a s]|e]; simpl; [|done]. intros [H1 H2] Hk. auto. Qed.

Lemma good_weaken {Deep} {A} lim lim' (Q R : A -> Prop) (c : P A) :
  good Deep lim Q c -> (lim <= lim')%nat -> (forall a, Q a -> R a) -> good Deep lim' R c.
Proof. destruct c as [[a s]|e]; simpl; [|done]. intros [H1 H2] Hl HQ. split; [lia|auto]. Qed.

(** ** Input consumed by the scanners *)

Lemma whitespace_length s : (length (whitespace s) <= length s)%nat.
Proof. induction s as [|c s IH]; simpl; [done|]. destruct (is_blank c); simpl; lia. Qed.

Lemma take_text_length text s s' :
  take_text text s = Some s' -> (length s = length text + length s')%nat.
Proof.
  unfold take_text. destruct (peek text s) eqn:E; [|done]. intros [= <-].
  rewrite length_drop. assert (length text <= length s)%nat; [|lia].
  revert s E. induction text as [|a text IH]; intros [|b s]; simpl; try lia; try done.
  destruct (a =? b); [|done]. intros E. apply IH in E. lia.
Qed.

Lemma span_length f s : let '(a, b) := span f s in (length s = length a + length b)%nat.
Proof.
  induction s as [|c s IH]; simpl; [done|]. destruct (f c); [|done].
  destruct (span f s) as [a b]. simpl. lia.
Qed.

Lemma take_operator_length s op s' : take_operator s = Some (op, s') -> (length s' < length s)%nat.
Proof.
  unfold take_operator. repeat (destruct (take_text _ s) as [s1|] eqn:E;
    [intros [= <- <-]; apply take_text_length in E; simpl in E; lia|clear E]). done.
Qed.

Lemma take_word_length s v s' : take_word s = Some (v, s') -> (length s' <= length s)%nat.
Proof.
  unfold take_word. repeat (destruct (take_text _ s) as [s1|] eqn:E;
    [intros [= <- <-]; apply take_text_length in E; simpl in E; lia|clear E]). done.
Qed.

Lemma dot_selectors_good {Deep} s :
  good Deep (length s) (fun sels => forallb wf_selector sels = true) (dot_selectors s).
Proof.
  unfold dot_selectors. destruct (take_text _ s) as [s'|] eqn:E.
  { apply take_text_length in E. apply good_ok; [lia|done]. }
  destruct s as [|c s]; [done|]. destruct (name_first c); [|done].
  pose proof (span_length name_char s) as H. destruct (span name_char s) as [a b].
  apply good_ok; [simpl; lia|done].
Qed.

Lemma take_hex4_length s d n s' : take_hex4 s = Some (d, n, s') -> (length s' < length s)%nat.
Proof.
  unfold take_hex4. destruct s as [|a [|b [|c [|e s]]]]; try done.
  destruct (_ && _); [|done]. intros [= <- <- <-]. simpl. lia.
Qed.

Lemma unicode_escape_good {Deep} s : good Deep (length s) (fun _ => True) (unicode_escape s).
Proof.
  unfold unicode_escape. destruct (take_hex4 s) as [[[d n] s1]|] eqn:E1; [|done].
  apply take_hex4_length in E1. destruct (between _ _ _).
  - destruct (take_text _ s1) as [s2|] eqn:E2; [|done]. apply take_text_length in E2.
    destruct (take_hex4 s2) as [[[d' n'] s3]|] eqn:E3; [|done]. apply take_hex4_length in E3.
    destruct (between _ _ _); [|done]. apply good_ok; [lia|done].
  - destruct (between _ _ _); [done|]. apply good_ok; [lia|done].
Qed.

Lemma string_loop_good {Deep} fuel q s acc :
  (length s < fuel)%nat -> good Deep (length s) (fun _ => True) (string_loop fuel q s acc).
Proof.
  revert s acc. induction fuel as [|fuel IH]; intros s acc Hf; [lia|]. simpl.
  destruct s as [|c s]; [done|]. simpl in Hf.
  destruct (c =? q); [apply good_ok; simpl; lia|].
  destruct (_ || _); [done|]. destruct (negb _).
  { eapply good_weaken; [apply IH; lia|simpl; lia|done]. }
  destruct s as [|e s]; [apply good_ok; simpl; lia|]. simpl in Hf.
  destruct (e =? q); [eapply good_weaken; [apply IH; lia|simpl; lia|done]|].
  destruct (bool_decide _); [eapply good_weaken; [apply IH; lia|simpl; lia|done]|].
  destruct (e =? 117); [|done]. eapply good_bind; [apply unicode_escape_good|].
  intros t s' Hs' _. eapply good_weaken; [apply IH; lia|simpl; lia|done].
Qed.

Section parser.
Context (json_loads : pystr -> loaded) (isdigit : Z -> bool) (decimal : Z -> option Z).

Lemma string_good {Deep} s : good Deep (length s) (fun _ => True) (string json_loads s).
Proof.
  unfold string. destruct s as [|q s]; [done|].
  eapply good_bind; [apply string_loop_good; lia|]. intros e s' Hs' _.
  destruct (json_loads _) as [[]| |]; try done. apply good_ok; [simpl; lia|done].
Qed.

(** [integer] after its sign. *)
Definition integer_body (s : pystr) (negative : bool) (s' : pystr) : P (option Z) :=
  match span isdigit s' with
  | ([], _) => Ok (None, s)
  | (d :: ds, rest) =>
    if (d =? 48) && (negative || bool_decide (ds <> [])) then Err JSONPathError
    else
      match py_int_digits decimal (d :: ds) with
      | None => Err ValueError
      | Some n =>
        if n >? _IJSON_MAX then Err JSONPathError
        else Ok (Some (if negative : bool then - n else n), rest)
      end
  end.

Lemma integer_body_eq s :
  integer isdigit decimal s =
    match take_text (bs "-") s with
    | Some s' => integer_body s true s'
    | None => integer_body s false s
    end.
Proof. unfold integer. by destruct (take_text _ s). Qed.

Lemma integer_body_good {Deep} s neg s' :
  (length s' <= length s)%nat -> good Deep (length s) (fun _ => True) (integer_body s neg s').
Proof.
  intros Hs'. unfold integer_body. pose proof (span_length isdigit s') as H.
  destruct (span isdigit s') as [[|d ds] rest]; [by apply good_ok|].
  destruct (_ && _); [done|]. destruct (py_int_digits _ _); [|done].
  destruct (_ >? _); [done|]. apply good_ok; [lia|done].
Qed.

Lemma integer_good {Deep} s : good Deep (length s) (fun _ => True) (integer isdigit decimal s).
Proof.
  rewrite integer_body_eq. destruct (take_text _ s) as [s'|] eqn:E; [|by apply integer_body_good].
  apply take_text_length in E. apply integer_body_good. lia.
Qed.

Lemma index_or_slice_good {Deep} s :
  good Deep (length s) (fun sel => wf_selector sel = true) (index_or_slice isdigit decimal s).
Proof.
  unfold index_or_slice. eapply good_bind; [apply integer_good|]. intros start s1 H1 _.
  pose proof (whitespace_length s1) as W1.
  destruct (take_text (bs ":") _) as [s2|] eqn:E2.
  2: { destruct start; [|done]. apply good_ok; [lia|done]. }
  apply take_text_length in E2. pose proof (whitespace_length s2) as W2.
  eapply good_bind; [apply integer_good|]. intros stop s3 H3 _.
  pose proof (whitespace_length s3) as W3.
  destruct (take_text (bs ":") _) as [s4|] eqn:E4; [|apply good_ok; [lia|done]].
  apply take_text_length in E4. pose proof (whitespace_length s4) as W4.
  eapply good_bind; [apply integer_good|]. intros step s5 H5 _. apply good_ok; [lia|done].
Qed.

Lemma scan_fraction_length s : (length (snd (scan_fraction s)) <= length s)%nat.
Proof.
  unfold scan_fraction. destruct s as [|c s]; [done|]. destruct (c =? 46); [|done].
  pose proof (span_length is_ascii_digit s) as H. destruct (span _ s) as [[|d ds] rest];
    simpl in *; lia.
Qed.

Lemma scan_exponent_length s : (length (snd (scan_exponent s)) <= length s)%nat.
Proof.
  unfold scan_exponent. destruct s as [|c s]; [done|]. destruct (_ || _); [|done].
  assert (Hsg : forall sign s', (length s' <= length s)%nat ->
    (length (snd match span is_ascii_digit s' with
                 | ([], _) => ([], c :: s)
                 | (ds, rest) => (c :: sign ++ ds, rest)
                 end) <= length (c :: s))%nat).
  { intros sign s' Hs'. pose proof (span_length is_ascii_digit s') as H.
    destruct (span _ s') as [[|d ds] rest]; simpl in *; lia. }
  destruct s as [|e s]; [by apply Hsg|].
  destruct (_ || _); [apply Hsg; simpl; lia|by apply Hsg].
Qed.

Lemma scan_number_length s t rest : scan_number s = Some (t, rest) -> (length rest <= length s)%nat.
Proof.
  unfold scan_number.
  assert (Hbody : forall sign s1, (length s1 <= length s)%nat ->
    match s1 with
    | c :: t =>
      if is_ascii_digit c then
        let '(ds, s2) := if c =? 48 then ([48], t) else span is_ascii_digit s1 in
        let '(frac, s3) := scan_fraction s2 in
        let '(exp, s4) := scan_exponent s3 in
        Some (sign ++ ds ++ frac ++ exp, s4)
      else None
    | [] => None
    end = Some (t, rest) -> (length rest <= length s)%nat).
  { intros sign [|c s1] Hs1; [done|]. destruct (is_ascii_digit c); [|done].
    assert (Hfe : forall ds s2, (length s2 <= length s)%nat ->
      (let '(frac, s3) := scan_fraction s2 in
       let '(exp, s4) := scan_exponent s3 in
       Some (sign ++ ds ++ frac ++ exp, s4)) = Some (t, rest) -> (length rest <= length s)%nat).
    { intros ds s2 H2. pose proof (scan_fraction_length s2) as H3.
      destruct (scan_fraction s2) as [fr s3]. simpl in H3. pose proof (scan_exponent_length s3) as H4.
      destruct (scan_exponent s3) as [ex s4]. simpl in H4. intros [= <- <-]. lia. }
    destruct (c =? 48); [apply Hfe; simpl in *; lia|].
    pose proof (span_length is_ascii_digit (c :: s1)) as H. destruct (span _ _) as [ds s2].
    apply Hfe. lia. }
  destruct (take_text (bs "-") s) as [s1|] eqn:E; [|by apply Hbody].
  apply take_text_length in E. apply Hbody. lia.
Qed.

Lemma number_good {Deep} s : good Deep (length s) (fun _ => True) (number json_loads s).
Proof.
  unfold number. destruct (scan_number s) as [[t rest]|] eqn:E; [|done].
  apply scan_number_length in E. destruct (json_loads t) as [[]| |]; try done; by apply good_ok.
Qed.

(** ** The methods *)

Abbreviation segments' := (segments json_loads isdigit decimal).
Abbreviation bracket_selectors' := (bracket_selectors json_loads isdigit decimal).
Abbreviation bracket_loop' := (bracket_loop json_loads isdigit decimal).
Abbreviation selector_of' := (selector_of json_loads isdigit decimal).
Abbreviation logical_or' := (logical_or json_loads isdigit decimal).
Abbreviation or_loop' := (or_loop json_loads isdigit decimal).
Abbreviation logical_and' := (logical_and json_loads isdigit decimal).
Abbreviation and_loop' := (and_loop json_loads isdigit decimal).
Abbreviation logical_unary' := (logical_unary json_loads isdigit decimal).
Abbreviation operand_of' := (operand_of json_loads isdigit decimal).
Abbreviation query' := (query json_loads isdigit decimal).
Abbreviation function_of' := (function_of json_loads isdigit decimal).
Abbreviation argument_loop' := (argument_loop json_loads isdigit decimal).

Definition wf_test (e : expr) : Prop := wf_expr e = true /\ testable e = true.
Definition wf_all (segs : list segment) : Prop := forallb wf_segment segs = true.
Definition wf_sels (sels : list selector) : Prop := forallb wf_selector sels = true.
Definition wf_args (args : list expr) : Prop := forallb wf_expr args = true.

(** Fuel, or stack, for a method of a given level on [s]. *)
Definition enough (level : nat) (s : pystr) (fuel : nat) : Prop :=
  (8 * length s + level <= fuel)%nat.

Definition room (Deep : Prop) (level : nat) (s : pystr) (fuel stack : nat) : Prop :=
  enough level s fuel /\ (Deep -> enough level s stack).

Record parser_ok (Deep : Prop) (fuel : nat) : Prop := {
  pk_segments stack inf s acc : room Deep 2 s fuel stack -> wf_all acc ->
    good Deep (length s) wf_all (segments' fuel stack inf s acc);
  pk_bracket stack s : room Deep 1 s fuel stack -> good Deep (length s - 1) wf_sels (bracket_selectors' fuel stack s);
  pk_bracket_loop stack s acc : room Deep 2 s fuel stack -> wf_sels acc ->
    good Deep (length s) wf_sels (bracket_loop' fuel stack s acc);
  pk_selector stack s : room Deep 1 s fuel stack ->
    good Deep (length s) (fun sel => wf_selector sel = true) (selector_of' fuel stack s);
  pk_or stack s : room Deep 7 s fuel stack -> good Deep (length s) wf_test (logical_or' fuel stack s);
  pk_or_loop stack e s : room Deep 6 s fuel stack -> wf_test e -> good Deep (length s) wf_test (or_loop' fuel stack e s);
  pk_and stack s : room Deep 5 s fuel stack -> good Deep (length s) wf_test (logical_and' fuel stack s);
  pk_and_loop stack e s : room Deep 4 s fuel stack -> wf_test e -> good Deep (length s) wf_test (and_loop' fuel stack e s);
  pk_unary stack s : room Deep 3 s fuel stack -> good Deep (length s) wf_test (logical_unary' fuel stack s);
  pk_operand stack s : room Deep 2 s fuel stack ->
    good Deep (length s) (fun e => wf_expr e = true) (operand_of' fuel stack s);
  pk_query stack s : room Deep 1 s fuel stack -> good Deep (length s) (fun e => wf_expr e = true) (query' fuel stack s);
  pk_function stack name s : room Deep 4 s fuel stack ->
    good Deep (length s) (fun e => wf_expr e = true) (function_of' fuel stack name s);
  pk_arguments stack s acc : room Deep 3 s fuel stack -> wf_args acc ->
    good Deep (length s) wf_args (argument_loop' fuel stack s acc);
}.

(** A call to another method, at a smaller measure. *)
Ltac fuel_ok :=
  unfold room, enough in *;
  match goal with
  | H : _ /\ (_ -> (_ <= _)%nat) |- _ => destruct H as [? H]
  end;
  split; [simpl in *; lia|];
  let HD := fresh in intros HD;
  repeat match goal with H : _ -> (_ <= _)%nat |- _ => specialize (H HD) end; simpl in *; lia.

(** A method takes a frame. *)
Ltac frame stack Hf :=
  destruct stack as [|stack];
  [let HD := fresh in intros HD; destruct Hf as [_ Hf]; specialize (Hf HD); unfold enough in Hf; simpl in Hf; lia|].
Ltac call H := eapply good_weaken; [eapply H; [fuel_ok|..]|simpl in *; lia|done].

Section step.
Context (Deep : Prop) (fuel : nat) (IH : parser_ok Deep fuel).

Lemma or_step stack s : room Deep 7 s (S fuel) stack -> good Deep (length s) wf_test (logical_or' (S fuel) stack s).
Proof.
  intros Hf. cbn [logical_or]. frame stack Hf. eapply good_bind; [apply (pk_and _ _ IH stack); fuel_ok|].
  intros e s1 H1 He. by call (pk_or_loop _ _ IH stack e s1).
Qed.

Lemma and_step stack s : room Deep 5 s (S fuel) stack -> good Deep (length s) wf_test (logical_and' (S fuel) stack s).
Proof.
  intros Hf. cbn [logical_and]. frame stack Hf. eapply good_bind; [apply (pk_unary _ _ IH stack); fuel_ok|].
  intros e s1 H1 He. by call (pk_and_loop _ _ IH stack e s1).
Qed.

Lemma wf_logical l b r : wf_test l -> wf_test r -> wf_test (_Logical l b r).
Proof. intros [H1 H2] [H3 H4]. split; [|done]. cbn [wf_expr]. by rewrite H1, H2, H3, H4. Qed.

Lemma or_loop_step stack e s :
  room Deep 6 s (S fuel) stack -> wf_test e -> good Deep (length s) wf_test (or_loop' (S fuel) stack e s).
Proof.
  intros Hf He. cbn [or_loop]. pose proof (whitespace_length s) as W.
  destruct (take_text (bs "||") _) as [s1|] eqn:E1; [|by apply good_ok].
  apply take_text_length in E1. simpl in E1. pose proof (whitespace_length s1) as W1.
  eapply good_bind; [apply (pk_and _ _ IH stack); fuel_ok|].
  intros e' s2 H2 He'. call (pk_or_loop _ _ IH stack (_Logical e false e') s2). by apply wf_logical.
Qed.

Lemma and_loop_step stack e s :
  room Deep 4 s (S fuel) stack -> wf_test e -> good Deep (length s) wf_test (and_loop' (S fuel) stack e s).
Proof.
  intros Hf He. cbn [and_loop]. pose proof (whitespace_length s) as W.
  destruct (take_text (bs "&&") _) as [s1|] eqn:E1; [|by apply good_ok].
  apply take_text_length in E1. simpl in E1. pose proof (whitespace_length s1) as W1.
  eapply good_bind; [apply (pk_unary _ _ IH stack); fuel_ok|].
  intros e' s2 H2 He'. call (pk_and_loop _ _ IH stack (_Logical e true e') s2). by apply wf_logical.
Qed.

Lemma wf_negated (negated : bool) e : wf_test e -> wf_test (if negated then _Not e else e).
Proof.
  intros [H1 H2]. destruct negated; [|done]. split; [|done]. cbn [wf_expr]. by rewrite H1, H2.
Qed.

Lemma is_test_testable e : is_test e = true -> testable e = true.
Proof. by destruct e. Qed.

(** [logical_unary] after the optional negation. *)
Definition unary_body (stack : nat) (negated : bool) (s : pystr) : P expr :=
  match take_text (bs "(") s with
  | Some s =>
    let! (e, s) := logical_or' fuel stack s in
    match take_text (bs ")") (whitespace s) with
    | None => Err JSONPathError
    | Some s => Ok (if negated : bool then _Not e else e, s)
    end
  | None =>
    let! (lhs, s) := operand_of' fuel stack s in
    let s := whitespace s in
    match take_operator s with
    | None =>
      if is_test lhs then Ok (if negated : bool then _Not lhs else lhs, s)
      else Err JSONPathError
    | Some (op, s) =>
      if negated : bool then Err JSONPathError
      else
        let! (rhs, s) := operand_of' fuel stack (whitespace s) in
        if value_operand lhs && value_operand rhs then Ok (_Compare lhs op rhs, s)
        else Err JSONPathError
    end
  end.

Lemma unary_body_eq stack s :
  logical_unary' (S fuel) (S stack) s =
    match take_text (bs "!") (whitespace s) with
    | Some s => unary_body stack true (whitespace s)
    | None => unary_body stack false (whitespace s)
    end.
Proof. cbn [logical_unary]. by destruct (take_text (bs "!") (whitespace s)). Qed.

Lemma unary_body_good stack (negated : bool) s lim :
  room Deep 2 s fuel stack -> (length s <= lim)%nat -> good Deep lim wf_test (unary_body stack negated s).
Proof.
  intros Hf Hlim. unfold unary_body. destruct (take_text (bs "(") s) as [s1|] eqn:E1.
  - apply take_text_length in E1. simpl in E1.
    eapply good_bind; [apply (pk_or _ _ IH stack); fuel_ok|]. intros e s2 H2 He.
    pose proof (whitespace_length s2) as W2.
    destruct (take_text (bs ")") _) as [s3|] eqn:E3; [|done].
    apply take_text_length in E3. apply good_ok; [simpl in *; lia|by apply wf_negated].
  - eapply good_bind; [apply (pk_operand _ _ IH stack); fuel_ok|]. intros lhs s2 H2 Hl.
    pose proof (whitespace_length s2) as W2. cbv zeta.
    destruct (take_operator (whitespace s2)) as [[op s3]|] eqn:Eo.
    + apply take_operator_length in Eo. destruct negated; [done|].
      pose proof (whitespace_length s3) as W3.
      eapply good_bind; [apply (pk_operand _ _ IH stack); fuel_ok|]. intros rhs s4 H4 Hr.
      destruct (value_operand lhs && value_operand rhs) eqn:Ev; [|done].
      apply andb_prop in Ev as [V1 V2]. apply good_ok; [lia|].
      split; [|done]. cbn [wf_expr]. by rewrite Hl, Hr, V1, V2.
    + destruct (is_test lhs) eqn:Et; [|done]. apply good_ok; [lia|].
      apply wf_negated. split; [done|by apply is_test_testable].
Qed.

Lemma unary_step stack s : room Deep 3 s (S fuel) stack -> good Deep (length s) wf_test (logical_unary' (S fuel) stack s).
Proof.
  intros Hf. frame stack Hf. rewrite unary_body_eq. pose proof (whitespace_length s) as W.
  destruct (take_text (bs "!") (whitespace s)) as [s1|] eqn:E1.
  - apply take_text_length in E1. simpl in E1. pose proof (whitespace_length s1) as W1.
    apply unary_body_good; [fuel_ok|lia].
  - apply unary_body_good; [fuel_ok|lia].
Qed.

Lemma operand_step stack s :
  room Deep 2 s (S fuel) stack -> good Deep (length s) (fun e => wf_expr e = true) (operand_of' (S fuel) stack s).
Proof.
  intros Hf. cbn [operand_of]. frame stack Hf. pose proof (whitespace_length s) as W. cbv zeta.
  set (s1 := whitespace s) in *. destruct (_ || _); [call (pk_query _ _ IH stack s1)|].
  destruct (_ || _).
  { eapply good_bind; [apply string_good|]. intros v s2 H2 _. apply good_ok; [lia|done]. }
  destruct (take_word s1) as [[v s2]|] eqn:Ew.
  { apply take_word_length in Ew. apply good_ok; [lia|done]. }
  destruct (starts_number _ s1).
  { eapply good_bind; [apply number_good|]. intros v s2 H2 _. apply good_ok; [lia|done]. }
  pose proof (span_length is_word_char s1) as Hsp. destruct (span is_word_char s1) as [[|c name] rest];
    [done|]. destruct (take_text (bs "(") rest) as [s2|] eqn:E; [|done].
  apply take_text_length in E. call (pk_function _ _ IH stack (c :: name) s2).
Qed.

Lemma query_step stack s :
  room Deep 1 s (S fuel) stack -> good Deep (length s) (fun e => wf_expr e = true) (query' (S fuel) stack s).
Proof.
  intros Hf. cbn [query]. frame stack Hf. destruct s as [|c s]; [done|]. destruct (_ || _); [|done].
  eapply good_bind; [apply (pk_segments _ _ IH stack); [fuel_ok|done]|]. intros segs s1 H1 Hs.
  apply good_ok; [simpl; lia|]. cbn [wf_expr]. rewrite Hs. simpl. apply eqb_reflx.
Qed.

Lemma check_function_wf f args e : check_function f args = Ok e -> wf_args args -> wf_expr e = true.
Proof.
  intros E Ha. assert (e = _Function f args) as ->.
  { unfold check_function in E. destruct (negb _); [done|]. destruct f; repeat case_match; congruence. }
  cbn [wf_expr]. rewrite Ha, E. done.
Qed.

Lemma function_step stack name s :
  room Deep 4 s (S fuel) stack ->
  good Deep (length s) (fun e => wf_expr e = true) (function_of' (S fuel) stack name s).
Proof.
  intros Hf. cbn [function_of]. frame stack Hf. destruct (function_named name) as [f|]; [|done].
  pose proof (whitespace_length s) as W. cbv zeta.
  eapply good_bind with (lim := length s) (Q := wf_args).
  - destruct (take_text (bs ")") _) as [s1|] eqn:E.
    + apply take_text_length in E. apply good_ok; [simpl in *; lia|done].
    + by call (pk_arguments _ _ IH stack (whitespace s) []).
  - intros args s1 H1 Ha. destruct (check_function f args) as [e|err] eqn:E; cbn [res_bind].
    + apply good_ok; [lia|]. by eapply check_function_wf.
    + assert (err = JSONPathError) as ->; [|done]. unfold check_function in E. destruct (negb _); [congruence|].
      destruct f; repeat case_match; congruence.
Qed.

Lemma wf_args_snoc acc a : wf_args acc -> wf_expr a = true -> wf_args (acc ++ [a]).
Proof. intros H1 H2. unfold wf_args in *. rewrite forallb_app, H1. simpl. by rewrite H2. Qed.

Lemma arguments_step stack s acc :
  room Deep 3 s (S fuel) stack -> wf_args acc -> good Deep (length s) wf_args (argument_loop' (S fuel) stack s acc).
Proof.
  intros Hf Ha. cbn [argument_loop].
  eapply good_bind; [apply (pk_operand _ _ IH stack); fuel_ok|]. intros a s1 H1 Wa.
  pose proof (whitespace_length s1) as W. cbv zeta.
  destruct (take_text (bs ")") _) as [s2|] eqn:E2.
  { apply take_text_length in E2. apply good_ok; [simpl in *; lia|by apply wf_args_snoc]. }
  destruct (take_text (bs ",") _) as [s3|] eqn:E3; [|done].
  apply take_text_length in E3. simpl in E3. pose proof (whitespace_length s3) as W3.
  call (pk_arguments _ _ IH stack (whitespace s3) (acc ++ [a])). by apply wf_args_snoc.
Qed.

Lemma selector_step stack s :
  room Deep 1 s (S fuel) stack ->
  good Deep (length s) (fun sel => wf_selector sel = true) (selector_of' (S fuel) stack s).
Proof.
  intros Hf. cbn [selector_of]. frame stack Hf.
  destruct (take_text (bs "*") s) as [s1|] eqn:E1.
  { apply take_text_length in E1. apply good_ok; [lia|done]. }
  destruct (take_text (bs "?") s) as [s2|] eqn:E2.
  { apply take_text_length in E2. simpl in E2.
    eapply good_bind; [apply (pk_or _ _ IH stack); fuel_ok|]. intros e s3 H3 [We Te].
    apply good_ok; [lia|]. cbn [wf_selector]. by rewrite We, Te. }
  destruct (_ || _); [|apply index_or_slice_good].
  eapply good_bind; [apply string_good|]. intros name s3 H3 _. apply good_ok; [lia|done].
Qed.

Lemma wf_sels_snoc acc a : wf_sels acc -> wf_selector a = true -> wf_sels (acc ++ [a]).
Proof. intros H1 H2. unfold wf_sels in *. rewrite forallb_app, H1. simpl. by rewrite H2. Qed.

Lemma bracket_loop_step stack s acc :
  room Deep 2 s (S fuel) stack -> wf_sels acc -> good Deep (length s) wf_sels (bracket_loop' (S fuel) stack s acc).
Proof.
  intros Hf Ha. cbn [bracket_loop]. pose proof (whitespace_length s) as W.
  eapply good_bind; [apply (pk_selector _ _ IH stack); fuel_ok|]. intros sel s1 H1 Ws.
  pose proof (whitespace_length s1) as W1. cbv zeta.
  destruct (take_text (bs "]") _) as [s2|] eqn:E2.
  { apply take_text_length in E2. apply good_ok; [simpl in *; lia|by apply wf_sels_snoc]. }
  destruct (take_text (bs ",") _) as [s3|] eqn:E3; [|done].
  apply take_text_length in E3. simpl in E3.
  call (pk_bracket_loop _ _ IH stack s3 (acc ++ [sel])). by apply wf_sels_snoc.
Qed.

Lemma bracket_step stack s :
  room Deep 1 s (S fuel) stack -> good Deep (length s - 1) wf_sels (bracket_selectors' (S fuel) stack s).
Proof.
  intros Hf. cbn [bracket_selectors]. frame stack Hf. destruct (take_text (bs "[") s) as [s1|] eqn:E; [|done].
  apply take_text_length in E. simpl in E. by call (pk_bracket_loop _ _ IH stack s1 []).
Qed.

(** A segment, then the rest of them. *)
Lemma segment_then stack inf d (n : nat) (s : pystr) acc (c : P (list selector)) lim :
  good Deep n wf_sels c -> (n < length s)%nat -> room Deep 2 s (S fuel) stack ->
  (length s <= lim)%nat -> wf_all acc ->
  good Deep lim wf_all
    (let! (sels, s2) := c in segments' fuel stack inf s2 (acc ++ [_Segment d sels])).
Proof.
  intros Hc Hlt Hf Hlim Ha. eapply good_bind; [exact Hc|]. intros sels s2 H2 Hs.
  call (pk_segments _ _ IH stack inf s2 (acc ++ [_Segment d sels])).
  unfold wf_all in *. rewrite forallb_app, Ha. cbn [forallb wf_segment]. by rewrite Hs.
Qed.
Lemma segments_step stack inf s acc :
  room Deep 2 s (S fuel) stack -> wf_all acc -> good Deep (length s) wf_all (segments' (S fuel) stack inf s acc).
Proof.
  intros Hf Ha. cbn [segments]. frame stack Hf. destruct s as [|c0 s0]; [by apply good_ok|].
  set (s := c0 :: s0) in *. pose proof (whitespace_length s) as W. cbv zeta.
  set (s' := whitespace s) in *.
  destruct (if inf then filter_stop s' else Ok false) as [stop|e] eqn:Es; cbn [res_bind].
  2: { destruct inf; [|done]. unfold filter_stop in Es. destruct (_ || _); [done|].
       destruct s'; [by injection Es as <-|done]. }
  destruct stop; [by apply good_ok|].
  destruct (take_text (bs "..") s') as [s1|] eqn:E1.
  { apply take_text_length in E1. simpl in E1. eapply segment_then with (s := s) (n := length s1); [|lia|done|lia|done].
    frame stack Hf. destruct (peek (bs "[") s1); [|apply dot_selectors_good].
    eapply good_weaken; [apply (pk_bracket _ _ IH stack); fuel_ok|lia|done]. }
  destruct (take_text (bs ".") s') as [s1|] eqn:E2.
  { apply take_text_length in E2. simpl in E2. eapply segment_then with (s := s) (n := length s1); [|lia|done|lia|done].
    apply dot_selectors_good. }
  destruct (peek (bs "[") s') eqn:E3; [|by apply good_ok].
  assert (0 < length s')%nat by (destruct s'; [done|simpl; lia]).
  eapply segment_then with (s := s) (n := (length s' - 1)%nat); [|lia|done|lia|done].
  apply (pk_bracket _ _ IH stack). fuel_ok.
Qed.
End step.

Lemma parser_ok_all Deep fuel : parser_ok Deep fuel.
Proof.
  induction fuel as [|fuel IH]; [split; unfold room, enough; intros; lia|].
  split; auto using or_step, or_loop_step, and_step, and_loop_step, unary_step, operand_step,
    query_step, function_step, arguments_step, selector_step, bracket_loop_step, bracket_step,
    segments_step.
Qed.

Lemma parse_good Deep stack src :
  (Deep -> (8 * length src + 2 <= stack)%nat) ->
  match parse json_loads isdigit decimal stack src with
  | Ok segs => wf_all segs
  | Err e => ended Deep e
  end.
Proof.
  intros Hs. unfold parse. destruct (_ || _); [done|]. destruct (take_text (bs "$") src) as [s|] eqn:E; [|done].
  apply take_text_length in E. simpl in E.
  pose proof (pk_segments _ _ (parser_ok_all Deep (parse_fuel s)) stack false s []) as H.
  assert (room Deep 2 s (parse_fuel s) stack) as Hr.
  { split; [unfold enough, parse_fuel; lia|]. intros HD. specialize (Hs HD). unfold enough. lia. }
  specialize (H Hr eq_refl). destruct (segments' _ _ _ _ _) as [[segs [|]]|e]; simpl; try done. by destruct H.
Qed.

(** What a parsed expression does on a document: one answer, one cost, and
    nodes of the document. *)
Lemma parsed_run stack fullmatch search src segs doc :
  parse json_loads isdigit decimal stack src = Ok segs -> distinct doc ->
  exists nodes cost,
    costs (_run fullmatch search segs [mkNode doc []] (mkNode doc [])) nodes cost /\
    Forall (fun n => locate (tokens n) doc = Some (value n)) nodes.
Proof.
  intros Hp Hd. pose proof (parse_good False stack src ltac:(done)) as Hwf. rewrite Hp in Hwf.
  assert (Hr : node_of doc (mkNode doc [])) by (split; done).
  destruct (run_metered doc fullmatch search segs [mkNode doc []] (mkNode doc []) Hwf)
    as (nodes & cost & Hc & Hn); [by repeat constructor|done|].
  exists nodes, cost. split; [done|]. eapply Forall_impl; [exact Hn|]. by intros n [Hl _].
Qed.

(** An error in the first query of a filter is the error of the expression. *)
Lemma query_error_propagates fuel stack s e :
  segments' fuel stack true s [] = Err e -> segments' (9 + fuel) (8 + stack) false (bs "[?@" ++ s) [] = Err e.
Proof.
  intros E.
  assert (Hquery : forall f n, segments' f n true s [] = Err e -> query' (S f) (S n) (64 :: s) = Err e).
  { intros f n H. change (query' (S f) (S n) (64 :: s)) with
      (let! (segs, r) := segments' f n true s [] in
       Ok (_Query false segs (forallb singular_segment segs), r)). by rewrite H. }
  assert (Hoperand : forall f n, query' f n (64 :: s) = Err e -> operand_of' (S f) (S n) (64 :: s) = Err e)
    by (intros f n H; exact H).
  assert (Hunary : forall f n, operand_of' f n (64 :: s) = Err e -> logical_unary' (S f) (S n) (64 :: s) = Err e).
  { intros f n H. rewrite unary_body_eq. change (unary_body f n false (64 :: s) = Err e).
    unfold unary_body. change (take_text (bs "(") (64 :: s)) with (@None pystr).
    cbv iota. by rewrite H. }
  assert (Hor : forall f n, logical_unary' f n (64 :: s) = Err e ->
    logical_or' (S (S f)) (S (S n)) (64 :: s) = Err e).
  { intros f n H. change (logical_or' (S (S f)) (S (S n)) (64 :: s)) with
      (let! (l, r) := (let! (l, r) := logical_unary' f n (64 :: s) in and_loop' f n l r) in
       or_loop' (S f) (S n) l r). by rewrite H. }
  assert (Hloop : forall f n, logical_or' f n (64 :: s) = Err e ->
    bracket_loop' (S (S f)) (S n) (63 :: 64 :: s) [] = Err e).
  { intros f n H.
    assert (Hsel : selector_of' (S f) (S n) (63 :: 64 :: s) = Err e).
    { change (selector_of' (S f) (S n) (63 :: 64 :: s)) with
        (let! (l, r) := logical_or' f n (64 :: s) in Ok (_Filter l, r)). by rewrite H. }
    revert Hsel. generalize (S f), (S n). intros g m H'.
    change (bracket_loop' (S g) m (63 :: 64 :: s) []) with
      (let! (sel, s) := selector_of' g m (63 :: 64 :: s) in
       match take_text (bs "]") (whitespace s) with
       | Some s => Ok ([] ++ [sel], s)
       | None =>
         match take_text (bs ",") (whitespace s) with
         | Some s => bracket_loop' g m s ([] ++ [sel])
         | None => Err JSONPathError
         end
       end). by rewrite H'. }
  assert (Hsegs : forall f n, bracket_loop' f n (63 :: 64 :: s) [] = Err e ->
    segments' (S (S f)) (S (S n)) false (91 :: 63 :: 64 :: s) [] = Err e).
  { intros f n H. change (segments' (S (S f)) (S (S n)) false (91 :: 63 :: 64 :: s) []) with
      (let! (sels, r) := bracket_loop' f n (63 :: 64 :: s) [] in
       segments' (S f) (S (S n)) false r ([] ++ [_Segment false sels])). by rewrite H. }
  exact (Hsegs _ _ (Hloop _ _ (Hor _ _ (Hunary _ _ (Hoperand _ _ (Hquery _ _ E)))))).
Qed.
End parser.

(** ** JSONPath: normalized paths are read back

    What the parser does with the text [_normalized] prints, given that the
    JSON decoder reads strings as RFC 8259 says and that ASCII digits are
    digits. *)

(** *** JSON string texts *)

Definition simple_escape (e : Z) : option Z :=
  if e =? 98 then Some 8 else if e =? 102 then Some 12 else if e =? 110 then Some 10
  else if e =? 114 then Some 13 else if e =? 116 then Some 9
  else if (e =? 34) || (e =? 92) || (e =? 47) then Some e else None.

(** The text between the quotes, decoded; surrogate escapes and control
    characters are left out. *)
Fixpoint decode_body (s : pystr) : option pystr :=
  match s with
  | [] => Some []
  | c :: s =>
    if c =? 92 then
      match s with
      | [] => None
      | e :: s =>
        if e =? 117 then
          match s with
          | h1 :: h2 :: h3 :: h4 :: s =>
            if is_hex h1 && is_hex h2 && is_hex h3 && is_hex h4 then
              let n := ((hex_value h1 * 16 + hex_value h2) * 16 + hex_value h3) * 16 + hex_value h4 in
              if between 0xD800 n 0xDFFF then None else (cons n) <$> decode_body s
            else None
          | _ => None
          end
        else match simple_escape e with
             | Some n => (cons n) <$> decode_body s
             | None => None
             end
      end
    else if (c =? 34) || (c <? 0x20) || between 0xD800 c 0xDFFF || (c >? 0x10FFFF) then None
    else (cons c) <$> decode_body s
  end.

(** A Unicode scalar value. *)
Definition scalar (c : Z) : bool := between 0 c 0x10FFFF && negb (between 0xD800 c 0xDFFF).

(** The JSON spelling the parser collects for a character of a name. *)
Definition json_escape (c : Z) : pystr :=
  if c =? 39 then [39] else if c =? 34 then [92; 34] else escape_char c.

Lemma control_cases (Q : Z -> Prop) c :
  0 <= c < 32 -> Forall Q (map Z.of_nat (seq 0 32)) -> Q c.
Proof.
  intros Hc HQ. rewrite Forall_forall in HQ. apply HQ. apply list_elem_of_fmap.
  exists (Z.to_nat c). split; [lia|]. apply elem_of_seq. lia.
Qed.

Ltac control c := pattern c; apply (control_cases _ c); [lia|];
  cbn [seq map]; repeat apply ListDef.Forall_cons; [..|apply ListDef.Forall_nil]; cbv beta.

Lemma escape_char_plain c : 32 <= c -> c <> 39 -> c <> 92 -> escape_char c = [c].
Proof.
  intros. unfold escape_char.
  repeat match goal with |- context [c =? ?k] => rewrite (proj2 (Z.eqb_neq c k)) by lia end.
  by replace (c <? 0x20) with false by lia.
Qed.

Lemma string_loop_char fuel c s acc :
  scalar c = true ->
  string_loop (S fuel) 39 (escape_char c ++ s) acc = string_loop fuel 39 s (acc ++ json_escape c).
Proof.
  intros Hc. unfold scalar, between in Hc.
  destruct (decide (c < 32)) as [Hlt|Hge].
  { control c; reflexivity. }
  destruct (decide (c = 39)) as [->|H39]; [done|]. destruct (decide (c = 92)) as [->|H92]; [done|].
  unfold json_escape. rewrite escape_char_plain by lia. cbn [string_loop app].
  rewrite (proj2 (Z.eqb_neq c 39)), (proj2 (Z.eqb_neq c 92)) by done. unfold between.
  replace ((c <? 32) || (55296 <=? c) && (c <=? 57343)) with false by lia. cbn [negb].
  by destruct (c =? 34).
Qed.

Lemma decode_body_char c s :
  scalar c = true -> decode_body (json_escape c ++ s) = (cons c) <$> decode_body s.
Proof.
  intros Hc. unfold scalar, between in Hc.
  destruct (decide (c < 32)) as [Hlt|Hge]; [control c; reflexivity|].
  destruct (decide (c = 39)) as [->|H39]; [done|].
  destruct (decide (c = 92)) as [->|H92]; [done|].
  destruct (decide (c = 34)) as [->|H34]; [done|].
  unfold json_escape. rewrite escape_char_plain by lia.
  rewrite (proj2 (Z.eqb_neq c 39)), (proj2 (Z.eqb_neq c 34)) by done.
  cbn [decode_body app]. rewrite (proj2 (Z.eqb_neq c 92)), (proj2 (Z.eqb_neq c 34)) by done.
  unfold between. by replace (false || (c <? 32) || _ || _) with false by lia.
Qed.

Lemma string_loop_name fuel name s acc :
  forallb scalar name = true -> (length name < fuel)%nat ->
  string_loop fuel 39 (concat (map escape_char name) ++ 39 :: s) acc =
    Ok (acc ++ concat (map json_escape name), s).
Proof.
  revert fuel acc. induction name as [|c name IH]; intros fuel acc Hn Hf;
    (destruct fuel as [|fuel]; [simpl in Hf; lia|]).
  - simpl. by rewrite app_nil_r.
  - cbn [forallb] in Hn. apply andb_prop in Hn as [Hc Hn]. cbn [map concat].
    rewrite <- app_assoc, string_loop_char by done. rewrite IH; [|done|simpl in Hf; lia].
    by rewrite <- app_assoc.
Qed.

Lemma decode_body_name name :
  forallb scalar name = true -> decode_body (concat (map json_escape name)) = Some name.
Proof.
  induction name as [|c name IH]; [done|]. cbn [forallb map concat]. intros H.
  apply andb_prop in H as [Hc Hn]. rewrite decode_body_char by done. by rewrite IH.
Qed.

Lemma escape_char_nonempty c : (1 <= length (escape_char c))%nat.
Proof. unfold escape_char. repeat (case_match; [simpl; lia|]). simpl. lia. Qed.

Lemma escaped_length name : (length name <= length (concat (map escape_char name)))%nat.
Proof.
  induction name as [|c name IH]; [done|]. simpl. rewrite length_app.
  pose proof (escape_char_nonempty c). lia.
Qed.

(** Tokens a normalized path can spell. *)
Definition printable (t : token) : bool :=
  match t with
  | TName name => forallb scalar name
  | TIndex i => (0 <=? i) && (i <=? _IJSON_MAX)
  end.

(** The segment a token is read back as. *)
Definition child_segment (t : token) : segment :=
  _Segment false [match t with TName name => _Name name | TIndex i => _Index i end].

(** What is relied on of the JSON decoder and of Unicode digits. *)
Record decoders_ok (json_loads : pystr -> loaded) (isdigit : Z -> bool)
    (decimal : Z -> option Z) : Prop := {
  loads_string body v :
    decode_body body = Some v -> json_loads ([34] ++ body ++ [34]) = Loaded (JStr v);
  isdigit_ascii c : c < 128 -> isdigit c = is_ascii_digit c;
  decimal_ascii c : is_ascii_digit c = true -> decimal c = Some (c - 48);
}.

Section roundtrip.
Context (json_loads : pystr -> loaded) (isdigit : Z -> bool) (decimal : Z -> option Z).
Context (H : decoders_ok json_loads isdigit decimal).

Lemma string_name name s :
  forallb scalar name = true ->
  string json_loads (39 :: concat (map escape_char name) ++ 39 :: s) = Ok (name, s).
Proof.
  intros Hn. unfold string. rewrite string_loop_name; [|done|].
  2: { rewrite length_app. pose proof (escaped_length name). simpl. lia. }
  cbn [res_bind]. rewrite app_nil_l. by rewrite (loads_string _ _ _ H _ name (decode_body_name _ Hn)).
Qed.

Lemma span_digits ds s :
  forallb is_ascii_digit ds = true -> span isdigit (ds ++ 93 :: s) = (ds, 93 :: s).
Proof.
  induction ds as [|d ds IH]; intros Hd.
  - simpl. by rewrite (isdigit_ascii _ _ _ H) by lia.
  - cbn [forallb] in Hd. apply andb_prop in Hd as [H1 H2]. cbn [app span].
    rewrite (isdigit_ascii _ _ _ H) by (unfold is_ascii_digit in H1; lia). rewrite H1.
    by rewrite IH.
Qed.

Lemma decimals_digits acc ds :
  forallb is_ascii_digit ds = true -> decimals decimal acc ds = Some (digits_value acc ds).
Proof.
  revert acc. induction ds as [|d ds IH]; intros acc Hd; [done|].
  cbn [forallb] in Hd. apply andb_prop in Hd as [H1 H2]. cbn [decimals digits_value].
  rewrite (decimal_ascii _ _ _ H) by done. by apply IH.
Qed.

Lemma integer_index i s :
  0 <= i <= _IJSON_MAX ->
  integer isdigit decimal (str_of_Z i ++ 93 :: s) = Ok (Some i, 93 :: s).
Proof.
  intros Hi. destruct (str_of_Z_digits i) as (d & ds & -> & Hd & Hv & H0 & Hlen); [lia|].
  assert (E : take_text (bs "-") ((d :: ds) ++ 93 :: s) = None).
  { cbn [forallb] in Hd. apply andb_prop in Hd as [H1 _]. unfold is_ascii_digit in H1.
    unfold take_text. simpl. destruct d as [|p|p]; try done; by repeat (destruct p; try done; try lia). }
  unfold integer. rewrite E. rewrite span_digits by done. cbn [orb].
  replace ((d =? 48) && bool_decide (ds <> [])) with false.
  2: { destruct (d =? 48) eqn:E48; [|done]. rewrite H0 by lia. done. }
  unfold py_int_digits. replace (4300 <? zlen (d :: ds)) with false.
  2: { rewrite zlen_cons. destruct (decide (i = 0)) as [->|Hnz].
       - assert (d = 48 \/ d <> 48) as [->|Hd0] by lia; [by rewrite H0|].
         cbn [digits_value] in Hv. cbn [forallb] in Hd. apply andb_prop in Hd as [H1 H2].
         unfold is_ascii_digit in H1. pose proof (digits_value_grows (0 * 10 + (d - 48)) ds H2).
         assert (0 < 10 ^ zlen ds) by (apply Z.pow_pos_nonneg; [lia|apply zlen_nonneg]). nia.
       - specialize (Hlen ltac:(lia)). unfold _IJSON_MAX in Hi.
         destruct (decide (zlen ds <= 16)); [lia|].
         assert (10 ^ 16 <= 10 ^ zlen ds) by (apply Z.pow_le_mono_r; lia). lia. }
  rewrite decimals_digits by done. rewrite Hv. by replace (i >? _IJSON_MAX) with false by lia.
Qed.

Lemma whitespace_bracket s : whitespace (93 :: s) = 93 :: s.
Proof. done. Qed.

Lemma selector_index fuel stack i s :
  0 <= i <= _IJSON_MAX ->
  selector_of json_loads isdigit decimal (S fuel) (S stack) (str_of_Z i ++ 93 :: s) = Ok (_Index i, 93 :: s).
Proof.
  intros Hi. pose proof (integer_index i s Hi) as E.
  destruct (str_of_Z_digits i) as (d & ds & Es & Hd & _); [lia|].
  cbn [forallb] in Hd. apply andb_prop in Hd as [Hd _]. unfold is_ascii_digit in Hd.
  assert (Hne : forall c, (c <? 48) || (57 <? c) = true -> take_text [c] (str_of_Z i ++ 93 :: s) = None).
  { intros c Hc. rewrite Es. unfold take_text. cbn [peek app]. by replace (c =? d) with false by lia. }
  assert (Hpk : forall c, (c <? 48) || (57 <? c) = true -> peek [c] (str_of_Z i ++ 93 :: s) = false).
  { intros c Hc. rewrite Es. cbn [peek app]. by replace (c =? d) with false by lia. }
  cbn [selector_of]. change (bs "*") with [42]. change (bs "?") with [63].
  rewrite !Hne, !Hpk by done. cbn [orb]. unfold index_or_slice. rewrite E. done.
Qed.

(** The loop of [bracket_selectors] when its first selector is followed by the
    closing bracket. *)
Lemma bracket_single fuel stack s sel r :
  selector_of json_loads isdigit decimal fuel stack (whitespace s) = Ok (sel, 93 :: r) ->
  bracket_loop json_loads isdigit decimal (S fuel) stack s [] = Ok ([sel], r).
Proof.
  intros E. change (bracket_loop json_loads isdigit decimal (S fuel) stack s []) with
    (let! (sel, s) := selector_of json_loads isdigit decimal fuel stack (whitespace s) in
     match take_text (bs "]") (whitespace s) with
     | Some s => Ok ([] ++ [sel], s)
     | None =>
       match take_text (bs ",") (whitespace s) with
       | Some s => bracket_loop json_loads isdigit decimal fuel stack s ([] ++ [sel])
       | None => Err JSONPathError
       end
     end). by rewrite E.
Qed.

Lemma bracket_open fuel stack s :
  bracket_selectors json_loads isdigit decimal (S fuel) (S stack) (91 :: s) =
    bracket_loop json_loads isdigit decimal fuel stack s [].
Proof. reflexivity. Qed.

Lemma selector_name fuel stack name s :
  forallb scalar name = true ->
  selector_of json_loads isdigit decimal (S fuel) (S stack)
    (39 :: concat (map escape_char name) ++ 39 :: s) = Ok (_Name name, s).
Proof.
  intros Hn. change (selector_of json_loads isdigit decimal (S fuel) (S stack) (39 :: ?x)) with
    (let! (v, s) := string json_loads (39 :: x) in Ok (_Name v, s)). by rewrite string_name.
Qed.

Lemma whitespace_digits i s : 0 <= i -> whitespace (str_of_Z i ++ s) = str_of_Z i ++ s.
Proof.
  intros Hi. destruct (str_of_Z_digits i) as (d & ds & -> & Hd & _); [lia|].
  cbn [forallb] in Hd. apply andb_prop in Hd as [Hd _]. unfold is_ascii_digit in Hd.
  cbn [app whitespace]. unfold is_blank.
  by replace ((d =? 32) || (d =? 9) || (d =? 10) || (d =? 13)) with false by lia.
Qed.

Lemma bracket_token fuel stack t s :
  printable t = true -> (3 <= fuel)%nat -> (2 <= stack)%nat ->
  exists sel, bracket_selectors json_loads isdigit decimal fuel stack (normalized_token t ++ s) =
    Ok ([sel], s) /\ child_segment t = _Segment false [sel].
Proof.
  intros Hp Hf Hs. destruct fuel as [|[|[|fuel]]], stack as [|[|stack]]; try lia. unfold normalized_token.
  destruct t as [name|i]; cbn [printable] in Hp.
  - exists (_Name name). split; [|done].
    change (bs "['") with [91; 39]. change (bs "']") with [39; 93].
    rewrite <- !app_assoc. change ([91; 39] ++ ?x) with (91 :: 39 :: x). rewrite bracket_open.
    apply bracket_single. by apply (selector_name fuel stack name (93 :: s)).
  - exists (_Index i). split; [|done].
    change (bs "[") with [91]. change (bs "]") with [93].
    rewrite <- !app_assoc. change ([91] ++ ?x) with (91 :: x). rewrite bracket_open.
    apply bracket_single. rewrite whitespace_digits by lia. apply selector_index. lia.
Qed.

Lemma token_head t s : exists r, normalized_token t ++ s = 91 :: r.
Proof. destruct t; eexists; reflexivity. Qed.

Lemma segments_bracket fuel stack r acc :
  segments json_loads isdigit decimal (S fuel) (S stack) false (91 :: r) acc =
    (let! (sels, s) := bracket_selectors json_loads isdigit decimal fuel stack (91 :: r) in
     segments json_loads isdigit decimal fuel (S stack) false s (acc ++ [_Segment false sels])).
Proof. reflexivity. Qed.

Lemma segments_tokens fuel stack ts acc :
  forallb printable ts = true -> (length ts + 4 <= fuel)%nat -> (3 <= stack)%nat ->
  segments json_loads isdigit decimal fuel stack false (concat (map normalized_token ts)) acc =
    Ok (acc ++ map child_segment ts, []).
Proof.
  revert fuel acc. induction ts as [|t ts IH]; intros fuel acc Hp Hf Hs;
    (destruct fuel as [|fuel]; [simpl in Hf; lia|]); (destruct stack as [|stack]; [lia|]).
  - simpl. by rewrite app_nil_r.
  - cbn [forallb] in Hp. apply andb_prop in Hp as [Ht Hp]. cbn [map concat].
    destruct (bracket_token fuel stack t (concat (map normalized_token ts)) Ht) as (sel & Eb & Ec);
      [simpl in Hf; lia|lia|].
    destruct (token_head t (concat (map normalized_token ts))) as [r Er].
    rewrite Er in *. rewrite segments_bracket, Eb. cbn [res_bind].
    rewrite IH; [|done|simpl in Hf; lia|lia]. by rewrite <- app_assoc, Ec.
Qed.

Lemma tokens_length ts : (length ts <= length (concat (map normalized_token ts)))%nat.
Proof.
  induction ts as [|t ts IH]; [done|]. cbn [map concat]. rewrite length_app. simpl.
  destruct (token_head t []) as [r Er]. rewrite app_nil_r in Er. rewrite Er. simpl. lia.
Qed.

(** A normalized path of at most 16384 characters is read back as one child
    segment per token. *)
Lemma parse_normalized stack ts :
  (3 <= stack)%nat -> forallb printable ts = true -> zlen (_normalized ts) <= 16 * 1024 ->
  parse json_loads isdigit decimal stack (_normalized ts) = Ok (map child_segment ts).
Proof.
  intros Hs Hp Hl. unfold parse. replace (zlen (_normalized ts) >? 16 * 1024) with false by lia.
  rewrite bool_decide_false by done. cbn [orb]. unfold _normalized.
  change (take_text (bs "$") (bs "$" ++ concat (map normalized_token ts)))
    with (Some (concat (map normalized_token ts))). cbv iota.
  rewrite segments_tokens; [done|done| |done]. unfold parse_fuel. pose proof (tokens_length ts). lia.
Qed.
End roundtrip.

(** *** The path leads to the node *)

Section evaluate.
Context (fullmatch search : pystr -> pystr -> bool) (doc : json).

Lemma child_segment_costs t v w ts root :
  step_token t v = Some w ->
  costs (run_segment fullmatch search (child_segment t) [mkNode v ts] root)
    [mkNode w (ts ++ [t])] 1.
Proof.
  intros Hs. cbn [child_segment run_segment segment_sources].
  apply (costs_bind (mret [mkNode v ts]) _ [mkNode v ts] _ 0 1); [apply costs_ret|].
  cbn [collect]. apply (costs_bind _ _ [mkNode w (ts ++ [t])] _ 1 0); [|apply costs_ret].
  cbn [select_all]. apply (costs_bind _ _ [mkNode w (ts ++ [t])] _ 1 0); [|apply costs_ret].
  destruct t as [name|i], v as [| | | | |l|l]; try done; simpl in Hs.
  - cbn [_select select_name value]. unfold select_name. cbn [value]. rewrite Hs.
    apply (costs_bind visit _ tt _ 1 0); [apply costs_visit|apply costs_ret].
  - destruct (0 <=? i) eqn:Ei; [|done]. apply lookup_lt_Some in Hs as Hlt.
    unfold _select, select_index. cbn [value tokens]. rewrite Ei.
    replace (i <? zlen l) with true by (unfold zlen; lia). rewrite Ei. cbn [andb].
    rewrite pyget_nonneg, Hs by lia.
    apply (costs_bind visit _ tt _ 1 0); [apply costs_visit|apply costs_ret].
Qed.

Lemma run_tokens_costs ts v w pre root :
  locate ts v = Some w ->
  costs (_run fullmatch search (map child_segment ts) [mkNode v pre] root)
    [mkNode w (pre ++ ts)] (zlen ts).
Proof.
  revert v pre. induction ts as [|t ts IH]; intros v pre Hl.
  - injection Hl as ->. rewrite app_nil_r. apply costs_ret.
  - cbn [locate] in Hl. destruct (step_token t v) as [u|] eqn:Es; [|done].
    rewrite zlen_cons. unfold _run. cbn [map run_all].
    eapply costs_bind; [by apply child_segment_costs|].
    replace (pre ++ t :: ts) with ((pre ++ [t]) ++ ts) by (by rewrite <- app_assoc).
    by apply IH.
Qed.
End evaluate.
