(* ===== verification/JsonPathRegexp.v ===== *)
(** * JSONPath: I-Regexp patterns

    The translator [_IRegexp] of [src/wreath/jsonpath.py] from RFC 9485
    patterns to the syntax of Python's [re], and the functions behind [match]
    and [search].  The position is the unread rest of the pattern.  The Unicode
    category table and the [re] engine are parameters. *)

From stdpp Require Import base sets strings numbers list gmap.
From Stdlib Require Import ZArith Lia Sorted.
From S2P Require Import Prelude PyCollections PyText JsonPath JsonPathParser JsonPathEvalFacts.
From S2P Require Import JsonPathParserFacts.
#[local] Open Scope Z_scope.

Inductive regexp_error : Type := _IRegexpError | RegexpFuel.

Definition R (A : Type) : Type := res regexp_error (A * pystr).

Definition _IREGEXP_PROPERTIES : list pystr :=
  map bs ["L"; "Ll"; "Lm"; "Lo"; "Lt"; "Lu"; "M"; "Mc"; "Me"; "Mn"; "N"; "Nd"; "Nl"; "No";
          "P"; "Pc"; "Pd"; "Pe"; "Pf"; "Pi"; "Po"; "Ps"; "Z"; "Zl"; "Zp"; "Zs";
          "S"; "Sc"; "Sk"; "Sm"; "So"; "C"; "Cc"; "Cf"; "Cn"; "Co"]%string.

Definition _IREGEXP_ESCAPES : list Z := bs "()*+-.?[\]^nrt{}".

(** [re.escape] of a character. *)
Definition re_special (c : Z) : bool :=
  bool_decide (c ∈ bs "()[]{}?*+-|^$\.&~# ") || between 9 c 13.

Definition re_escape (c : Z) : pystr := if re_special c then [92; c] else [c].

(** [char in "|)"] and the other tests on the next character. *)
Definition next_in (chars s : pystr) : bool :=
  match s with c :: _ => bool_decide (c ∈ chars) | [] => false end.

(** [while self.index < self.length and ... != "}"]. *)
Definition not_brace (c : Z) : bool := negb (c =? 125).

Definition plain_char (c : Z) : bool :=
  (c <=? 0x27) || (c =? 44) || (c =? 45) || between 47 c 62 || between 64 c 90 ||
  between 94 c 122 || between 0x7E c 0xD7FF || between 0xE000 c 0x10FFFF.

Section regexp.
Context (_unicode_category : Z -> pystr).
(** [self.value]. *)
Context (value : pystr).

Definition belongs (name : pystr) (c : Z) : bool :=
  if zlen name =? 2 then bool_decide (_unicode_category c = name)
  else peek name (_unicode_category c).

(** The first of [l] that is not in [value]. *)
Fixpoint first_absent (l : list Z) : list Z :=
  match l with
  | [] => []
  | c :: l => if bool_decide (c ∈ value) then first_absent l else [c]
  end.

Definition property_set (name : pystr) (complement : bool) : list Z :=
  let matched := remove_dups (filter (fun c => belongs name c <> complement) value) in
  match matched with
  | [] => first_absent (map Z.of_nat (seq 0 128))
  | _ => matched
  end.

Definition property_chars (name : pystr) (complement : bool) : res regexp_error pystr :=
  if existsb (fun c => between 0xD800 c 0xDFFF) value then Err _IRegexpError
  else Ok (concat (map re_escape (sorted_by id (property_set name complement)))).

Definition escape (in_class : bool) (s : pystr) : R pystr :=
  match s with
  | [] => Err _IRegexpError
  | e :: s =>
    if (e =? 112) || (e =? 80) then
      match take_text (bs "{") s with
      | None => Err _IRegexpError
      | Some s =>
        let '(name, s) := span not_brace s in
        match take_text (bs "}") s with
        | Some s' =>
          if bool_decide (name ∈ _IREGEXP_PROPERTIES) then
            let! chars := property_chars name (e =? 80) in
            Ok (if in_class : bool then chars else bs "[" ++ chars ++ bs "]", s')
          else Err _IRegexpError
        | None => Err _IRegexpError
        end
      end
    else if bool_decide (e ∈ _IREGEXP_ESCAPES) then Ok ([92; e], s)
    else Err _IRegexpError
  end.

Definition class_atom (s : pystr) : R (pystr * bool) :=
  match take_text [92] s with
  | Some s1 =>
    let! (escaped, s2) := escape true s1 in
    Ok ((escaped, next_in (bs "pP") s1), s2)
  | None =>
    match s with
    | [] => Err _IRegexpError
    | c :: s =>
      if bool_decide (c ∈ bs "-[]\") || between 0xD800 c 0xDFFF then Err _IRegexpError
      else Ok ((re_escape c, false), s)
    end
  end.

(** The loop of [character_class]: what is translated, and whether there is a
    member. *)
Fixpoint class_loop (fuel : nat) (translated : pystr) (members : bool) (s : pystr) : R pystr :=
  match fuel with
  | O => Err RegexpFuel
  | S fuel =>
    if bool_decide (s = []) || next_in (bs "]") s then
      match take_text (bs "]") s with
      | Some s => if members then Ok (translated ++ bs "]", s) else Err _IRegexpError
      | None => Err _IRegexpError
      end
    else
      let! (first, s) := class_atom s in
      let '(first, property_escape) := first in
      match (if property_escape : bool then None else take_text (bs "-") s) with
      | Some s =>
        if bool_decide (s = []) || next_in (bs "]") s then
          class_loop fuel (translated ++ first ++ bs "\-") true s
        else
          let! (second, s) := class_atom s in
          let '(second, second_property) := second in
          if second_property : bool then Err _IRegexpError
          else class_loop fuel (translated ++ first ++ bs "-" ++ second) true s
      | None => class_loop fuel (translated ++ first) true s
      end
  end.

Definition character_class (s : pystr) : R pystr :=
  let '(translated, s) := match take_text (bs "^") s with
                          | Some s => (bs "[^", s)
                          | None => (bs "[", s)
                          end in
  match take_text (bs "-") s with
  | Some s => class_loop (S (length s)) (translated ++ bs "\-") true s
  | None => class_loop (S (length s)) translated false s
  end.

(** [piece] after its atom. *)
Definition quantifier (atom s : pystr) : R pystr :=
  match s with
  | [] => Ok (atom, s)
  | c :: s1 =>
    if bool_decide (c ∈ bs "*+?") then Ok (atom ++ [c], s1)
    else if negb (c =? 123) then Ok (atom, s)
    else
      match span is_ascii_digit s1 with
      | ([], _) => Err _IRegexpError
      | (low, s2) =>
        let '(rest, s3) :=
          match take_text (bs ",") s2 with
          | Some s2 => let '(high, s3) := span is_ascii_digit s2 in (bs "," ++ high, s3)
          | None => ([], s2)
          end in
        match take_text (bs "}") s3 with
        | Some s4 => Ok (atom ++ bs "{" ++ low ++ rest ++ bs "}", s4)
        | None => Err _IRegexpError
        end
      end
  end.

Fixpoint regexp (fuel : nat) (s : pystr) {struct fuel} : R pystr :=
  match fuel with
  | O => Err RegexpFuel
  | S fuel => let! (first, s) := branch fuel [] s in branches fuel first s
  end
with branches (fuel : nat) (joined s : pystr) {struct fuel} : R pystr :=
  match fuel with
  | O => Err RegexpFuel
  | S fuel =>
    match take_text (bs "|") s with
    | None => Ok (joined, s)
    | Some s =>
      let! (next, s) := branch fuel [] s in branches fuel (joined ++ bs "|" ++ next) s
    end
  end
with branch (fuel : nat) (pieces s : pystr) {struct fuel} : R pystr :=
  match fuel with
  | O => Err RegexpFuel
  | S fuel =>
    if bool_decide (s = []) || next_in (bs "|)") s then Ok (pieces, s)
    else
      let! (a, s) := atom fuel s in
      let! (p, s) := quantifier a s in
      branch fuel (pieces ++ p) s
  end
with atom (fuel : nat) (s : pystr) {struct fuel} : R pystr :=
  match fuel with
  | O => Err RegexpFuel
  | S fuel =>
    match s with
    | [] => Err _IRegexpError
    | c :: s1 =>
      if c =? 40 then
        let! (expression, s2) := regexp fuel s1 in
        match take_text (bs ")") s2 with
        | Some s3 => Ok (bs "(?:" ++ expression ++ bs ")", s3)
        | None => Err _IRegexpError
        end
      else if c =? 46 then Ok (bs "[^\n\r]", s1)
      else if c =? 91 then character_class s1
      else if c =? 92 then escape false s1
      else if plain_char c then
        Ok (if bool_decide (c ∈ bs "^$") then [c] else re_escape c, s1)
      else Err _IRegexpError
    end
  end.

Definition parse_regexp (source : pystr) : res regexp_error pystr :=
  let! (translated, rest) := regexp (4 * length source + 4) source in
  match rest with [] => Ok translated | _ => Err _IRegexpError end.
End regexp.

(** [_iregexp_fullmatch] and [_iregexp_search] over [re.fullmatch] and
    [re.search]; [None] is an exception the caller handles ([re.PatternError]
    or [OverflowError]). *)
Definition iregexp_call (re_call : pystr -> pystr -> option bool) (category : Z -> pystr)
    (pattern value : pystr) : bool :=
  match parse_regexp category value pattern with
  | Ok translated => default false (re_call translated value)
  | Err _ => false
  end.

(** ** JSONPath: facts about the I-Regexp translator

    The translator ends within four units of fuel per character, and the class
    it builds for a Unicode property is exact on the value it is built for. *)

(** The method ended, leaving at most [lim] characters. *)
Definition ends {A} (lim : nat) (c : R A) : Prop :=
  match c with
  | Ok (_, s) => (length s <= lim)%nat
  | Err e => e <> RegexpFuel
  end.

Lemma ends_bind {A B} lim lim' (c : R A) (k : A * pystr -> R B) :
  ends lim c -> (forall a s, (length s <= lim)%nat -> ends lim' (k (a, s))) ->
  ends lim' (res_bind c k).
Proof. destruct c as [[a s]|e]; simpl; auto. Qed.

Lemma ends_weaken {A} lim lim' (c : R A) : ends lim c -> (lim <= lim')%nat -> ends lim' c.
Proof. destruct c as [[a s]|e]; simpl; [lia|done]. Qed.

Section facts.
Context (category : Z -> pystr) (value : pystr).

Lemma property_chars_error name compl e :
  property_chars category value name compl = Err e -> e <> RegexpFuel.
Proof. unfold property_chars. destruct (existsb _ _); [|done]. by intros [= <-]. Qed.

Lemma escape_ends b s : ends (length s - 1) (escape category value b s).
Proof.
  unfold escape. destruct s as [|e s]; [done|].
  destruct (_ || _).
  - destruct (take_text (bs "{") s) as [s1|] eqn:E1; [|done]. apply take_text_length in E1.
    pose proof (span_length not_brace s1) as Hs. destruct (span not_brace s1) as [name s2].
    destruct (take_text (bs "}") s2) as [s3|] eqn:E2; [|done]. apply take_text_length in E2.
    destruct (bool_decide _); [|done].
    destruct (property_chars _ _ _ _) as [cs|err] eqn:E; [|by apply property_chars_error in E].
    simpl in *. lia.
  - destruct (bool_decide _); [simpl; lia|done].
Qed.

Lemma class_atom_ends s : ends (length s - 1) (class_atom category value s).
Proof.
  unfold class_atom. destruct (take_text [92] s) as [s1|] eqn:E.
  - apply take_text_length in E. simpl in E. eapply ends_bind; [apply escape_ends|].
    intros a s2 H2. simpl. lia.
  - destruct s as [|c s]; [done|]. destruct (_ || _); [done|]. simpl. lia.
Qed.

Lemma class_loop_ends fuel tr m s :
  (length s < fuel)%nat -> ends (length s) (class_loop category value fuel tr m s).
Proof.
  revert tr m s. induction fuel as [|fuel IH]; intros tr m s Hf; [lia|]. cbn [class_loop].
  destruct (_ || _) eqn:E.
  - destruct (take_text (bs "]") s) as [s1|] eqn:E1; [|done]. apply take_text_length in E1.
    destruct m; [simpl in *; lia|done].
  - assert (0 < length s)%nat by (destruct s; [done|simpl; lia]).
    eapply ends_bind; [apply class_atom_ends|]. intros [first pe] s1 H1.
    assert (Hnone : ends (length s) (class_loop category value fuel (tr ++ first) true s1)).
    { eapply ends_weaken; [apply IH; lia|lia]. }
    destruct pe; [exact Hnone|].
    destruct (take_text (bs "-") s1) as [s2|] eqn:E2; [|exact Hnone].
    apply take_text_length in E2. simpl in E2.
    match goal with |- ends _ (if ?b then _ else _) => destruct b end;
      [eapply ends_weaken; [apply IH; lia|lia]|].
    eapply ends_bind; [apply class_atom_ends|]. intros [second pe2] s3 H3.
    destruct pe2; [done|]. eapply ends_weaken; [apply IH; lia|lia].
Qed.

Lemma character_class_ends s : ends (length s) (character_class category value s).
Proof.
  unfold character_class.
  assert (Hgo : forall tr s1, (length s1 <= length s)%nat ->
    ends (length s) (match take_text (bs "-") s1 with
     | Some s => class_loop category value (S (length s)) (tr ++ bs "\-") true s
     | None => class_loop category value (S (length s1)) tr false s1
     end)).
  { intros tr s1 H1. destruct (take_text (bs "-") s1) as [s2|] eqn:E.
    - apply take_text_length in E. eapply ends_weaken; [apply class_loop_ends; lia|lia].
    - eapply ends_weaken; [apply class_loop_ends; lia|lia]. }
  destruct (take_text (bs "^") s) as [s1|] eqn:E; [|by apply Hgo].
  apply take_text_length in E. apply Hgo. lia.
Qed.

Lemma quantifier_ends a s : ends (length s) (quantifier a s).
Proof.
  unfold quantifier. destruct s as [|c s1]; [simpl; lia|].
  destruct (bool_decide _); [simpl; lia|]. destruct (negb _); [simpl; lia|].
  pose proof (span_length is_ascii_digit s1) as H1.
  destruct (span is_ascii_digit s1) as [[|d low] s2]; [done|].
  assert (Hgo : forall rest s3, (length s3 <= length s2)%nat ->
    ends (length (c :: s1)) (match take_text (bs "}") s3 with
      | Some s4 => Ok (a ++ bs "{" ++ (d :: low) ++ rest ++ bs "}", s4)
      | None => Err _IRegexpError
      end)).
  { intros rest s3 H3. destruct (take_text (bs "}") s3) as [s4|] eqn:E; [|done].
    apply take_text_length in E. simpl in *. lia. }
  destruct (take_text (bs ",") s2) as [s3|] eqn:E; [|by apply Hgo].
  apply take_text_length in E. pose proof (span_length is_ascii_digit s3) as H3.
  destruct (span is_ascii_digit s3) as [high s4]. apply Hgo. lia.
Qed.

Record translator_ok (fuel : nat) : Prop := {
  tk_regexp s : (4 * length s + 3 <= fuel)%nat -> ends (length s) (regexp category value fuel s);
  tk_branches acc s : (4 * length s + 2 <= fuel)%nat ->
    ends (length s) (branches category value fuel acc s);
  tk_branch acc s : (4 * length s + 2 <= fuel)%nat ->
    ends (length s) (branch category value fuel acc s);
  tk_atom s : (4 * length s + 1 <= fuel)%nat ->
    ends (length s - 1) (atom category value fuel s);
}.

Lemma translator_step fuel : translator_ok fuel -> translator_ok (S fuel).
Proof.
  intros IH. split.
  - intros s Hf. cbn [regexp]. eapply ends_bind; [apply (tk_branch _ IH); lia|].
    intros a s1 H1. eapply ends_weaken; [apply (tk_branches _ IH); lia|lia].
  - intros acc s Hf. cbn [branches]. destruct (take_text (bs "|") s) as [s1|] eqn:E; [|simpl; lia].
    apply take_text_length in E. simpl in E.
    eapply ends_bind; [apply (tk_branch _ IH); lia|].
    intros a s2 H2. eapply ends_weaken; [apply (tk_branches _ IH); lia|lia].
  - intros acc s Hf. cbn [branch]. destruct (_ || _) eqn:E; [simpl; lia|].
    assert (0 < length s)%nat by (destruct s; [done|simpl; lia]).
    eapply ends_bind; [apply (tk_atom _ IH); lia|]. intros a s1 H1.
    eapply ends_bind; [apply quantifier_ends|]. intros q s2 H2.
    eapply ends_weaken; [apply (tk_branch _ IH); lia|lia].
  - intros s Hf. cbn [atom]. destruct s as [|c s1]; [done|]. simpl in Hf.
    destruct (c =? 40).
    { eapply ends_bind; [apply (tk_regexp _ IH); lia|]. intros a s2 H2.
      destruct (take_text (bs ")") s2) as [s3|] eqn:E; [|done]. apply take_text_length in E.
      simpl in *. lia. }
    destruct (c =? 46); [simpl; lia|].
    destruct (c =? 91); [eapply ends_weaken; [apply character_class_ends|simpl; lia]|].
    destruct (c =? 92); [eapply ends_weaken; [apply escape_ends|simpl; lia]|].
    destruct (plain_char c); [simpl; lia|done].
Qed.

Lemma translator_ok_all fuel : translator_ok fuel.
Proof.
  induction fuel as [|fuel IH]; [split; intros; lia|by apply translator_step].
Qed.

Lemma parse_regexp_ends pattern : parse_regexp category value pattern <> Err RegexpFuel.
Proof.
  unfold parse_regexp. pose proof (tk_regexp _ (translator_ok_all (4 * length pattern + 4)) pattern) as H.
  specialize (H ltac:(lia)). destruct (regexp _ _ _ _) as [[t [|c r]]|e]; simpl in *; congruence.
Qed.

(** *** Properties *)

Lemma first_absent_elem l c : c ∈ first_absent value l -> c ∈ l /\ c ∉ value.
Proof.
  induction l as [|x l IH]; simpl; [set_solver|]. case_bool_decide; set_solver.
Qed.

Lemma property_set_elem name compl c :
  c ∈ value -> c ∈ property_set category value name compl <-> belongs category name c <> compl.
Proof.
  intros Hc. unfold property_set.
  assert (Hm : c ∈ remove_dups (filter (fun c => belongs category name c <> compl) value) <->
    belongs category name c <> compl).
  { rewrite elem_of_remove_dups, list_elem_of_filter. tauto. }
  destruct (remove_dups _) as [|x l]; [|exact Hm]. split.
  - intros H. by apply first_absent_elem in H as [_ H].
  - intros H. apply Hm in H. set_solver.
Qed.
End facts.
