(* ===== verification/JsonPathClaims.v ===== *)
(** * JSONPath: array slices and comparisons

    The positions RFC 9535 (section 2.3.4.2.2) gives an array slice, as a
    filter over the positions of the array, and that Python's
    [range] over [slice(...).indices(n)] enumerates exactly these.  Then the order of values. *)

From Stdlib Require Import Sorting.
From stdpp Require Import base sets strings numbers sorting list gmap.
From Stdlib Require Import ZArith Lia.
From S2P Require Import Prelude PyCollections PyText JsonPath JsonPathParser JsonPathEvalFacts.
From S2P Require Import JsonPathParserFacts JsonPathRegexp.
#[local] Open Scope Z_scope.

Definition rfc_normalize (i n : Z) : Z := if 0 <=? i then i else n + i.
Definition rfc_clamp (lo hi i : Z) : Z := Z.min (Z.max i lo) hi.

Definition positions (n : Z) : list Z := map Z.of_nat (seq 0 (Z.to_nat n)).

Definition positions_down (n : Z) : list Z :=
  map (fun k => n - 1 - Z.of_nat k) (seq 0 (Z.to_nat n)).

(** The positions a slice selects, in the order it selects them. *)
Definition rfc_slice (start stop step : option Z) (n : Z) : list Z :=
  let step := default 1 step in
  if step =? 0 then []
  else if 0 <? step then
    let lower := rfc_clamp 0 n (rfc_normalize (default 0 start) n) in
    let upper := rfc_clamp 0 n (rfc_normalize (default n stop) n) in
    filter (fun i => lower <= i < upper /\ (i - lower) mod step = 0) (positions n)
  else
    let upper := rfc_clamp (-1) (n - 1) (rfc_normalize (default (n - 1) start) n) in
    let lower := rfc_clamp (-1) (n - 1) (rfc_normalize (default (- n - 1) stop) n) in
    filter (fun i => lower < i <= upper /\ (upper - i) mod (- step) = 0) (positions_down n).

Lemma positions_elem n i : i ∈ positions n <-> 0 <= i < n.
Proof.
  unfold positions. rewrite list_elem_of_fmap. setoid_rewrite elem_of_seq. split.
  - intros (k & -> & Hk). lia.
  - intros Hi. exists (Z.to_nat i). lia.
Qed.

Lemma positions_down_elem n i : i ∈ positions_down n <-> 0 <= i < n.
Proof.
  unfold positions_down. rewrite list_elem_of_fmap. setoid_rewrite elem_of_seq. split.
  - intros (k & -> & Hk). lia.
  - intros Hi. exists (Z.to_nat (n - 1 - i)). lia.
Qed.

Lemma range_elem first last step i :
  step <> 0 ->
  i ∈ py_range first last step <->
  if 0 <? step then first <= i < last /\ (i - first) mod step = 0
  else last < i <= first /\ (first - i) mod (- step) = 0.
Proof.
  intros Hs. unfold py_range. rewrite list_elem_of_fmap. setoid_rewrite elem_of_seq.
  unfold range_length. destruct (0 <? step) eqn:E.
  - split.
    + intros (k & -> & Hk). destruct (first <? last) eqn:El; [|simpl in Hk; lia].
      pose proof (Z.mul_div_le (last - first - 1) step ltac:(lia)).
      split; [nia|]. replace (first + _ - first) with (Z.of_nat k * step) by lia.
      apply Z.mod_mul. lia.
    + intros [Hb Hm]. replace (first <? last) with true by lia.
      apply Z.mod_divide in Hm as [q Hq]; [|lia]. exists (Z.to_nat q).
      assert (0 <= q) by nia. split; [lia|].
      assert (q <= (last - first - 1) / step) by (apply Z.div_le_lower_bound; nia). lia.
  - split.
    + intros (k & -> & Hk). destruct (last <? first) eqn:El; [|simpl in Hk; lia].
      pose proof (Z.mul_div_le (first - last - 1) (- step) ltac:(lia)).
      split; [nia|]. replace (first - _) with (Z.of_nat k * - step) by lia.
      apply Z.mod_mul. lia.
    + intros [Hb Hm]. replace (last <? first) with true by lia.
      apply Z.mod_divide in Hm as [q Hq]; [|lia]. exists (Z.to_nat q).
      assert (0 <= q) by nia. split; [lia|].
      assert (q <= (first - last - 1) / - step) by (apply Z.div_le_lower_bound; nia). lia.
Qed.

(** Lists sorted by a strict order are equal when they have the same elements. *)
Lemma strict_sorted_ext (R : Z -> Z -> Prop) l k :
  Irreflexive R -> Transitive R -> StronglySorted R l -> StronglySorted R k ->
  (forall x, x ∈ l <-> x ∈ k) -> l = k.
Proof.
  intros HI HT Hl. revert k. induction Hl as [|x l Hl IH Hx]; intros k Hk Hlk.
  - destruct k as [|y k]; [done|]. specialize (Hlk y). set_solver.
  - destruct Hk as [|y k Hk Hy]; [specialize (Hlk x); set_solver|].
    rewrite Forall_forall in Hx, Hy.
    assert (x = y) as <-.
    { pose proof (proj1 (Hlk x)) as H1. pose proof (proj2 (Hlk y)) as H2.
      rewrite !elem_of_cons in H1, H2. destruct H1 as [|H1]; [by left|done|].
      destruct H2 as [|H2]; [by left|done|]. exfalso. apply (HI x). etrans; [apply Hx, H2|by apply Hy]. }
    f_equal. apply IH; [done|]. intros z. specialize (Hlk z). rewrite !elem_of_cons in Hlk.
    split; intros Hz.
    + destruct (proj1 Hlk) as [->|]; [by right| |done]. exfalso. by apply (HI x), Hx.
    + destruct (proj2 Hlk) as [->|]; [by right| |done]. exfalso. by apply (HI x), Hy.
Qed.

Lemma seq_map_sorted (R : Z -> Z -> Prop) (f : nat -> Z) a n :
  (forall i j, (i < j)%nat -> R (f i) (f j)) -> StronglySorted R (map f (seq a n)).
Proof.
  intros Hf. revert a. induction n as [|n IH]; intros a; simpl; constructor; [apply IH|].
  apply Forall_map, Forall_forall. intros j Hj. apply elem_of_seq in Hj. apply Hf. lia.
Qed.

Lemma filter_sorted (R : Z -> Z -> Prop) (Q : Z -> Prop) `{!forall x, Decision (Q x)} l :
  StronglySorted R l -> StronglySorted R (filter Q l).
Proof.
  intros Hl. induction Hl as [|x l Hl IH Hx]; [constructor|]. rewrite filter_cons.
  case_decide; [|done]. constructor; [done|]. rewrite Forall_forall in *.
  intros y Hy. apply list_elem_of_filter in Hy as [_ Hy]. auto.
Qed.

Lemma range_sorted first last step :
  step <> 0 ->
  StronglySorted (if 0 <? step then Z.lt else Z.gt) (py_range first last step).
Proof. intros Hs. apply seq_map_sorted. intros i j Hij. destruct (0 <? step) eqn:E; nia. Qed.

Lemma slice_indices_clamped start stop step n :
  0 <= n ->
  slice_indices start stop step n =
    let st := default 1 step in
    if st <? 0 then
      (rfc_clamp (-1) (n - 1) (rfc_normalize (default (n - 1) start) n),
       rfc_clamp (-1) (n - 1) (rfc_normalize (default (- n - 1) stop) n), st)
    else
      (rfc_clamp 0 n (rfc_normalize (default 0 start) n),
       rfc_clamp 0 n (rfc_normalize (default n stop) n), st).
Proof.
  intros Hn. unfold slice_indices, slice_bound, clip, rfc_clamp, rfc_normalize.
  destruct (default 1 step <? 0); destruct start, stop; unfold default, from_option, id; f_equal; try f_equal;
    repeat case_match; lia.
Qed.

(** The indices of a slice are the positions of the RFC, in its order. *)
Lemma slice_range_rfc start stop step n :
  0 <= n -> step <> Some 0 ->
  (let '(first, last, st) := slice_indices start stop step n in py_range first last st) =
  rfc_slice start stop step n.
Proof.
  intros Hn Hs. rewrite slice_indices_clamped by done. cbv zeta. unfold rfc_slice.
  set (st := default 1 step). assert (Hst : st <> 0) by (unfold st; destruct step; simpl; congruence).
  replace (st =? 0) with false by lia.
  destruct (st <? 0) eqn:E.
  - replace (0 <? st) with false by lia. apply (strict_sorted_ext Z.gt).
    + intros x. unfold complement. lia.
    + intros x y z. lia.
    + pose proof (range_sorted (rfc_clamp (-1) (n - 1) (rfc_normalize (default (n - 1) start) n))
        (rfc_clamp (-1) (n - 1) (rfc_normalize (default (- n - 1) stop) n)) st Hst) as H.
      by replace (0 <? st) with false in H by lia.
    + apply filter_sorted, seq_map_sorted. lia.
    + intros i. rewrite range_elem, list_elem_of_filter, positions_down_elem by done.
      replace (0 <? st) with false by lia. unfold rfc_clamp. lia.
  - replace (0 <? st) with true by lia. apply (strict_sorted_ext Z.lt).
    + intros x. unfold complement. lia.
    + intros x y z. lia.
    + pose proof (range_sorted (rfc_clamp 0 n (rfc_normalize (default 0 start) n))
        (rfc_clamp 0 n (rfc_normalize (default n stop) n)) st Hst) as H.
      by replace (0 <? st) with true in H by lia.
    + apply filter_sorted, seq_map_sorted. lia.
    + intros i. rewrite range_elem, list_elem_of_filter, positions_elem by done.
      replace (0 <? st) with true by lia. unfold rfc_clamp. lia.
Qed.

Lemma rfc_slice_bounds start stop step n i : i ∈ rfc_slice start stop step n -> 0 <= i < n.
Proof.
  unfold rfc_slice. destruct (_ =? 0); [set_solver|].
  destruct (0 <? _); rewrite list_elem_of_filter;
    [rewrite positions_elem|rewrite positions_down_elem]; tauto.
Qed.

(** The nodes at some positions of an array, one visit each. *)
Lemma collect_positions l ts (idx : list Z) found :
  Forall (fun i => 0 <= i < zlen l) idx ->
  exists nodes, costs (collect (fun i =>
      do! _ <- visit ;
      match pyget l i with
      | Some v => mret [mkNode v (ts ++ [TIndex i])]
      | None => mfail EvalIndexError
      end) idx found) (found ++ nodes) (zlen idx) /\
    Forall2 (fun i node => tokens node = ts ++ [TIndex i] /\ l !! Z.to_nat i = Some (value node))
      idx nodes.
Proof.
  intros His. revert found. induction His as [|i idx Hi _ IH]; intros found.
  - exists []. rewrite app_nil_r. split; [apply costs_ret|constructor].
  - destruct (pyget_some l i Hi) as [v Hv]. destruct (IH (found ++ [mkNode v (ts ++ [TIndex i])]))
      as (nodes & Hc & Hn). exists (mkNode v (ts ++ [TIndex i]) :: nodes).
    rewrite zlen_cons. split.
    + cbn [collect]. rewrite Hv. eapply costs_bind with (n := 1 + 0).
      * eapply costs_bind; [apply costs_visit|apply costs_ret].
      * by rewrite <- app_assoc in Hc.
    + constructor; [|done]. split; [done|]. by rewrite pyget_nonneg in Hv by lia.
Qed.

(** ** JSONPath: comparisons and the compiled program

    The order of numbers and strings in filters, and that the tuples handed to
    the native evaluator determine the expression. *)

(** *** Numbers *)

Lemma number_of_exponent v n k : number_of v = Some (n, k) -> 0 <= k.
Proof.
  destruct v; simpl; try done; [intros [= <- <-]; lia|].
  destruct (0 <=? _) eqn:E; intros [= <- <-]; lia.
Qed.

Lemma fraction_cmp_mul n k m j :
  0 <= k -> 0 <= j -> fraction_cmp (n, k) (m, j) = Z.compare (n * 2 ^ j) (m * 2 ^ k).
Proof. intros. unfold fraction_cmp. simpl. by rewrite !Z.shiftl_mul_pow2. Qed.

Lemma fraction_cmp_flip a b : fraction_cmp b a = CompOpp (fraction_cmp a b).
Proof. unfold fraction_cmp. apply Z.compare_antisym. Qed.

Lemma fraction_lt_trans n k m j p i :
  0 <= k -> 0 <= j -> 0 <= i ->
  fraction_cmp (n, k) (m, j) = Lt -> fraction_cmp (m, j) (p, i) = Lt ->
  fraction_cmp (n, k) (p, i) = Lt.
Proof.
  intros Hk Hj Hi. rewrite !fraction_cmp_mul, !Z.compare_lt_iff by done. intros H1 H2.
  assert (0 < 2 ^ k) by (apply Z.pow_pos_nonneg; lia).
  assert (0 < 2 ^ j) by (apply Z.pow_pos_nonneg; lia).
  assert (0 < 2 ^ i) by (apply Z.pow_pos_nonneg; lia).
  apply (Z.mul_lt_mono_pos_r (2 ^ j)); [done|].
  assert (n * 2 ^ j * 2 ^ i < m * 2 ^ k * 2 ^ i) by (apply Z.mul_lt_mono_pos_r; done).
  assert (m * 2 ^ i * 2 ^ k < p * 2 ^ j * 2 ^ k) by (apply Z.mul_lt_mono_pos_r; done).
  nia.
Qed.

(** *** Operands that can be ordered *)

(** Two numbers, or two strings. *)
Definition orderable (a b : json) : bool :=
  match a, b with
  | JStr _, JStr _ => true
  | _, _ => is_number a && is_number b
  end.

(** The comparison both operands agree on. *)
Definition number_order (x y : option (Z * Z)) : comparison :=
  match x, y with
  | Some x, Some y => fraction_cmp x y
  | _, _ => Eq
  end.

Definition order (a b : json) : comparison :=
  match a, b with
  | JStr s, JStr t => pycmp s t
  | _, _ => number_order (number_of a) (number_of b)
  end.

Lemma number_order_flip x y : number_order y x = CompOpp (number_order x y).
Proof. destruct x, y; try done. apply fraction_cmp_flip. Qed.

Lemma order_flip a b : order b a = CompOpp (order a b).
Proof. destruct a, b; first [apply pycmp_flip|apply number_order_flip]. Qed.

Lemma number_of_some v : is_number v = true -> exists n k, number_of v = Some (n, k) /\ 0 <= k.
Proof.
  intros Hv. destruct (number_of v) as [[n k]|] eqn:E.
  - exists n, k. split; [done|]. by eapply number_of_exponent.
  - destruct v; try done. simpl in E. by destruct (0 <=? _).
Qed.

Lemma orderable_cases a b :
  orderable a b = true ->
  (exists s t, a = JStr s /\ b = JStr t) \/ (is_number a = true /\ is_number b = true).
Proof. destruct a, b; simpl; try done; eauto. Qed.

Lemma order_number a b : is_number a = true -> order a b = number_order (number_of a) (number_of b).
Proof. by destruct a, b. Qed.

Lemma less_than_number a b :
  is_number a = true ->
  less_than (OVal a) (OVal b) =
    match number_of a, number_of b with
    | Some x, Some y => match fraction_cmp x y with Lt => true | _ => false end
    | _, _ => false
    end.
Proof. by destruct a. Qed.

Lemma py_eq_number a b :
  is_number a = true -> is_number b = true ->
  py_eq a b =
    match number_of a, number_of b with
    | Some x, Some y => match fraction_cmp x y with Eq => true | _ => false end
    | _, _ => false
    end.
Proof. by destruct a, b. Qed.

Lemma less_than_order a b :
  orderable a b = true ->
  less_than (OVal a) (OVal b) = match order a b with Lt => true | _ => false end.
Proof.
  intros [(s & t & -> & ->)|[Ha Hb]]%orderable_cases; [done|].
  rewrite less_than_number, order_number by done.
  destruct (number_of_some a Ha) as (n & k & -> & _), (number_of_some b Hb) as (m & j & -> & _). done.
Qed.

Lemma equal_order a b :
  orderable a b = true ->
  _equal (OVal a) (OVal b) = match order a b with Eq => true | _ => false end.
Proof.
  intros [(s & t & -> & ->)|[Ha Hb]]%orderable_cases.
  - cbn [_equal is_number same_type andb py_eq order]. case_bool_decide as E.
    + by rewrite (proj2 (pycmp_eq s t)) by done.
    + destruct (pycmp s t) eqn:Ec; [by apply pycmp_eq in Ec|done..].
  - cbn [_equal]. rewrite Ha, Hb. cbn [andb]. rewrite py_eq_number, order_number by done.
    destruct (number_of_some a Ha) as (n & k & -> & _), (number_of_some b Hb) as (m & j & -> & _). done.
Qed.

Lemma orderable_trans a b c :
  orderable a b = true -> orderable b c = true -> orderable a c = true.
Proof. by destruct a, b, c. Qed.

Lemma order_lt_trans a b c :
  orderable a b = true -> orderable b c = true -> order a b = Lt -> order b c = Lt ->
  order a c = Lt.
Proof.
  intros [(s & t & -> & ->)|[Ha Hb]]%orderable_cases.
  - intros [(s' & u & [= <-] & ->)|[Hb _]]%orderable_cases; [|done]. apply pycmp_lt_trans.
  - intros [(s' & u & -> & ->)|[_ Hc]]%orderable_cases; [done|].
    rewrite !order_number by done.
    destruct (number_of_some a Ha) as (n & k & -> & Hk), (number_of_some b Hb) as (m & j & -> & Hj),
      (number_of_some c Hc) as (p & i & -> & Hi). by apply fraction_lt_trans.
Qed.

(** *** The compiled program *)

Lemma map_inj_forall {A B} (f : A -> B) l k :
  Forall (fun x => forall y, f x = f y -> x = y) l -> map f l = map f k -> l = k.
Proof.
  intros Hl. revert k. induction Hl as [|x l Hx _ IH]; intros [|y k]; try done.
  cbn [map]. intros [= E1 E2]. f_equal; auto.
Qed.

Lemma function_code_inj f g : function_code f = function_code g -> f = g.
Proof. by destruct f, g. Qed.

Lemma operator_code_inj f g : operator_code f = operator_code g -> f = g.
Proof. by destruct f, g. Qed.

Lemma optional_int_inj a b : optional_int a = optional_int b -> a = b.
Proof. destruct a, b; simpl; congruence. Qed.

Lemma native_inj :
  (forall e e', _native_expression e = _native_expression e' -> e = e') /\
  (forall s s', _native_selector s = _native_selector s' -> s = s') /\
  (forall g g', _native_segment g = _native_segment g' -> g = g').
Proof.
  apply syntax_mut.
  - intros v [] E; cbn in E; congruence.
  - intros r segs sg IH [] E; cbn [_native_expression] in E; try discriminate E.
    injection E as -> E ->. f_equal. by eapply map_inj_forall.
  - intros f args IH [] E; cbn [_native_expression] in E; try discriminate E.
    injection E as Ef E. apply function_code_inj in Ef as ->. f_equal. by eapply map_inj_forall.
  - intros l o r IHl IHr [] E; cbn [_native_expression] in E; try discriminate E.
    injection E as Eo E1 E2. apply operator_code_inj in Eo as ->. f_equal; auto.
  - intros e IH [] E; cbn [_native_expression] in E; try discriminate E.
    injection E as E. f_equal. auto.
  - intros l b r IHl IHr [] E; cbn [_native_expression] in E; try discriminate E.
    injection E as -> E1 E2. f_equal; auto.
  - intros n [] E; cbn in E; congruence.
  - intros i [] E; cbn in E; congruence.
  - intros a b c [] E; cbn [_native_selector] in E; try discriminate E.
    injection E as Ea Eb Ec. by apply optional_int_inj in Ea as ->, Eb as ->, Ec as ->.
  - intros [] E; cbn in E; congruence.
  - intros e IH [] E; cbn [_native_selector] in E; try discriminate E.
    injection E as E. f_equal. auto.
  - intros d sels IH [d' sels'] E. cbn [_native_segment] in E. injection E as -> E.
    f_equal. by eapply map_inj_forall.
Qed.

(** ** JSONPath: what the compiler and the evaluator promise

    The claims about [src/wreath/jsonpath.py], each with a witness. *)

(** *** Concrete inputs *)

(** A decoder of string texts. *)
Definition sample_loads (text : pystr) : loaded :=
  match text with
  | 34 :: rest =>
    match rev rest with
    | 34 :: body =>
      match decode_body (rev body) with Some v => Loaded (JStr v) | None => LoadError end
    | _ => LoadError
    end
  | _ => LoadError
  end.

Definition sample_decimal (c : Z) : option Z :=
  if is_ascii_digit c then Some (c - 48) else None.

Lemma sample_decoders_ok : decoders_ok sample_loads is_ascii_digit sample_decimal.
Proof.
  split.
  - intros body v Hb. unfold sample_loads. cbn [app]. rewrite rev_app_distr. cbn [rev app].
    by rewrite rev_involutive, Hb.
  - done.
  - intros c Hc. unfold sample_decimal. by rewrite Hc.
Defined.

Abbreviation sample_parse := (parse sample_loads is_ascii_digit sample_decimal 100).

(** No pattern is used in the sample queries. *)
Definition no_match (pattern v : pystr) : bool := false.

(** [{"a": [{"b": "x"}, {"b": "y"}, {"c": [1, 2]}]}] *)
Definition sample_doc : json :=
  JObj [(bs "a", JList [JObj [(bs "b", JStr (bs "x"))]; JObj [(bs "b", JStr (bs "y"))];
                        JObj [(bs "c", JList [JInt 1; JInt 2])]])].

Definition sample_source : pystr := bs "$.a[?@.b == 'x' || count(@.c[*]) > length('a')]".

Definition sample_segments : list segment :=
  Eval vm_compute in match sample_parse sample_source with Ok segs => segs | Err _ => [] end.

Lemma sample_distinct : distinct sample_doc.
Proof.
  simpl. repeat split; repeat (apply NoDup_cons; split); try apply NoDup_nil; set_solver.
Defined.

(** *** The claims *)


(** Parentheses nested four hundred deep, in eight hundred characters, outrun a
    thousand frames: the parser answers [RecursionError], not its own error. *)
Example nesting_outruns_stack :
  map (fun n => match parse sample_loads is_ascii_digit sample_decimal 1000
                        (bs "$[?" ++ repeat 40 n ++ bs "@" ++ repeat 41 n ++ bs "]") with
                | Ok _ => None | Err e => Some e end) [300; 400]%nat =
  [None; Some RecursionError].
Proof. vm_compute. reflexivity. Qed.

(** How deep an expression nests to the left, as [_native_expression] descends it. *)
Fixpoint left_depth (e : expr) : nat :=
  match e with _Logical l _ _ => S (left_depth l) | _ => 1 end.

(** A flat chain of alternatives is parsed within fifteen frames into an expression as deep
    as the chain is long, which is then compiled by recursion. *)
Example chain_nests_left :
  match parse sample_loads is_ascii_digit sample_decimal 15
          (bs "$[?@" ++ concat (repeat (bs "||@") 1500) ++ bs "]") with
  | Ok [_Segment false [_Filter e]] => left_depth e
  | _ => 0%nat
  end = 1501%nat.
Proof. vm_compute. reflexivity. Qed.

(** The visit budget is only a gate: a parsed expression on a document has
    one answer and one cost, and every budget that covers the cost gives that
    answer, every smaller one the limit error; and each node of the answer is
    found in the document by following its tokens. *)
Theorem visit_budget_gate json_loads isdigit decimal stack fullmatch search src segs doc :
  parse json_loads isdigit decimal stack src = Ok segs -> distinct doc ->
  exists nodes cost, 0 <= cost /\
    Forall (fun n => locate (tokens n) doc = Some (value n)) nodes /\
    forall budget, 0 < budget ->
      find_nodes fullmatch search (mkJSONPath src segs (_native_segments segs) budget) doc =
        if cost <=? budget then Ok nodes else Err VisitLimit.
Proof.
  intros Hp Hd.
  destruct (parsed_run _ _ _ _ fullmatch search src segs doc Hp Hd) as (nodes & cost & [Hc0 Hc] & Hn).
  exists nodes, cost. split; [done|]. split; [done|]. intros b Hb. unfold find_nodes.
  cbn [_segments max_visits]. rewrite Hc by lia. by destruct (cost <=? b).
Qed.

Lemma visit_budget_gate_witness :
  exists nodes cost, 0 <= cost /\
    Forall (fun n => locate (tokens n) sample_doc = Some (value n)) nodes /\
    forall budget, 0 < budget ->
      find_nodes no_match no_match
        (mkJSONPath sample_source sample_segments (_native_segments sample_segments) budget)
        sample_doc = if cost <=? budget then Ok nodes else Err VisitLimit.
Proof.
  apply (visit_budget_gate sample_loads is_ascii_digit sample_decimal 100);
    [vm_compute; reflexivity|exact sample_distinct].
Defined.

(** [_descendants] returns the node and everything below it, parents
    before their children and in document order, for one visit per node below
    it; with a smaller budget it raises the limit error. *)
Theorem descendants_preorder n budget :
  0 <= budget ->
  _descendants n budget =
    if Z.of_nat (json_size (value n)) - 1 <=? budget
    then Ok (preorder_of n, budget - (Z.of_nat (json_size (value n)) - 1))
    else Err VisitLimit.
Proof. apply (proj2 (descendants_costs n)). Qed.

Lemma descendants_preorder_witness :
  _descendants (mkNode sample_doc []) 9 = Ok (preorder_of (mkNode sample_doc []), 0).
Proof. exact (descendants_preorder (mkNode sample_doc []) 9 ltac:(lia)). Defined.

(** A slice selector applied to an array selects the elements at the
    positions RFC 9535 gives, in its order, with one visit for each; a zero
    step or a value that is not an array selects nothing. *)
Theorem slice_rfc9535 start stop step node :
  match value node with
  | JList l =>
    exists nodes,
      costs (select_slice start stop step node) nodes (zlen (rfc_slice start stop step (zlen l))) /\
      Forall2 (fun i n => tokens n = tokens node ++ [TIndex i] /\ l !! Z.to_nat i = Some (value n))
        (rfc_slice start stop step (zlen l)) nodes
  | _ => select_slice start stop step node = mret []
  end.
Proof.
  unfold select_slice. destruct (value node) as [| | | | |l|l]; try done.
  case_decide as Hs.
  - subst step. exists []. split; [apply costs_ret|constructor].
  - pose proof (slice_range_rfc start stop step (zlen l) (zlen_nonneg l) Hs) as E.
    destruct (slice_indices start stop step (zlen l)) as [[first last] st]. rewrite E.
    apply (collect_positions l (tokens node) (rfc_slice start stop step (zlen l)) []).
    apply Forall_forall. intros i Hi. by eapply rfc_slice_bounds.
Qed.

(** Normalized paths are exact: take any node an evaluation of a parsed
    expression returns; if its names are Unicode scalar values and its path is
    within the parser's limits, compiling the printed path succeeds and
    evaluating it on the same document returns that match and no other. *)
Theorem normalized_path_exact json_loads isdigit decimal stack fullmatch search src segs budget doc nodes n :
  decoders_ok json_loads isdigit decimal -> (3 <= stack)%nat ->
  parse json_loads isdigit decimal stack src = Ok segs -> distinct doc -> 0 < budget ->
  find_nodes fullmatch search (mkJSONPath src segs (_native_segments segs) budget) doc = Ok nodes ->
  n ∈ nodes -> forallb printable (tokens n) = true ->
  zlen (_normalized (tokens n)) <= 16 * 1024 ->
  exists p, compile_jsonpath json_loads isdigit decimal stack (_normalized (tokens n)) 1000000 = Ok p /\
    _find_reference fullmatch search p doc = Ok [mkMatch (value n) (_normalized (tokens n))].
Proof.
  intros Hdec Hs Hp Hd Hb Hfind Hin Hpr Hlen.
  assert (Hloc : locate (tokens n) doc = Some (value n)).
  { destruct (parsed_run _ _ _ _ fullmatch search src segs doc Hp Hd)
      as (nodes' & cost & [_ Hc] & Hn).
    unfold find_nodes in Hfind. cbn [_segments max_visits] in Hfind. rewrite Hc in Hfind by lia.
    destruct (cost <=? budget); [|done]. injection Hfind as <-.
    rewrite Forall_forall in Hn. by apply Hn. }
  unfold compile_jsonpath. rewrite (parse_normalized _ _ _ Hdec) by done. cbn [res_bind Z.leb].
  eexists. split; [reflexivity|]. unfold _find_reference, find_nodes. cbn [_segments max_visits].
  destruct (run_tokens_costs fullmatch search (tokens n) doc (value n) [] (mkNode doc []) Hloc)
    as [_ Hrun]. rewrite Hrun by lia.
  assert (zlen (tokens n) <= 1000000).
  { pose proof (tokens_length (tokens n)). unfold _normalized in Hlen. rewrite zlen_app in Hlen.
    unfold zlen in *. simpl in Hlen. lia. }
  by replace (zlen (tokens n) <=? 1000000) with true by lia.
Qed.

Lemma normalized_path_exact_witness :
  exists p, compile_jsonpath sample_loads is_ascii_digit sample_decimal 100
      (bs "$['a'][2]") 1000000 = Ok p /\
    _find_reference no_match no_match p sample_doc =
      Ok [mkMatch (JObj [(bs "c", JList [JInt 1; JInt 2])]) (bs "$['a'][2]")].
Proof.
  apply (normalized_path_exact sample_loads is_ascii_digit sample_decimal 100 no_match no_match
    sample_source sample_segments 1000 sample_doc
    [mkNode (JObj [(bs "b", JStr (bs "x"))]) [TName (bs "a"); TIndex 0];
     mkNode (JObj [(bs "c", JList [JInt 1; JInt 2])]) [TName (bs "a"); TIndex 2]]
    (mkNode (JObj [(bs "c", JList [JInt 1; JInt 2])]) [TName (bs "a"); TIndex 2])).
  - exact sample_decoders_ok.
  - lia.
  - vm_compute; reflexivity.
  - exact sample_distinct.
  - lia.
  - vm_compute; reflexivity.
  - apply elem_of_cons; right; apply elem_of_cons; left; reflexivity.
  - reflexivity.
  - vm_compute; discriminate.
Defined.

(** The tuples handed to the native evaluator determine the expression:
    two lists of segments with the same program are equal. *)
Theorem native_program_injective segs segs' :
  _native_segments segs = _native_segments segs' -> segs = segs'.
Proof.
  intros [= E]. eapply map_inj_forall; [|exact E]. apply Forall_forall. intros g _.
  apply native_inj.
Qed.

Lemma native_program_injective_witness :
  match sample_parse sample_source with Ok segs => segs = sample_segments | Err _ => False end.
Proof.
  vm_compute. apply native_program_injective. vm_compute. reflexivity.
Defined.

(** On two numbers or two strings the comparison operators of a filter
    form a strict total order: exactly one of [<], [==] and [>] holds, [<=] and
    [>=] are [<] or [==] and [>] or [==], [!=] is the opposite of [==], and [<]
    is transitive. *)
Theorem comparisons_total_order a b c :
  orderable a b = true -> orderable b c = true ->
  let cmp x op y := compare_operands (OVal x) op (OVal y) in
  (cmp a OpLt b, cmp a OpEq b, cmp a OpGt b) ∈
    [(true, false, false); (false, true, false); (false, false, true)] /\
  cmp a OpLe b = cmp a OpLt b || cmp a OpEq b /\
  cmp a OpGe b = cmp b OpLe a /\
  cmp a OpNe b = negb (cmp a OpEq b) /\
  (cmp a OpLt b = true -> cmp b OpLt c = true -> cmp a OpLt c = true).
Proof.
  intros Hab Hbc. cbn [compare_operands].
  assert (Hba : orderable b a = true) by (destruct a, b; done).
  pose proof (orderable_trans a b c Hab Hbc) as Hac.
  rewrite !equal_order, !less_than_order by done. rewrite (order_flip a b).
  split; [destruct (order a b); set_solver|]. split; [done|].
  split; [by destruct (order a b)|]. split; [by destruct (order a b)|].
  intros H1 H2. rewrite (order_lt_trans a b c); [done..| |];
    [by destruct (order a b)|by destruct (order b c)].
Qed.

Lemma comparisons_total_order_witness :
  compare_operands (OVal (JInt 1)) OpLt (OVal (JFloat 3 (-1))) = true /\
  (compare_operands (OVal (JInt 1)) OpLt (OVal (JInt 2)) = true).
Proof.
  split; [reflexivity|].
  pose proof (comparisons_total_order (JInt 1) (JFloat 3 (-1)) (JInt 2) eq_refl eq_refl) as H.
  exact (proj2 (proj2 (proj2 (proj2 H))) eq_refl eq_refl).
Defined.

(** The translation of an I-Regexp pattern ends on every pattern, with a
    pattern of [re] or with the error that makes [match] and [search] false. *)
Theorem iregexp_total category v pattern :
  (exists translated, parse_regexp category v pattern = Ok translated) \/
  parse_regexp category v pattern = Err _IRegexpError.
Proof.
  pose proof (parse_regexp_ends category v pattern) as H.
  destruct (parse_regexp category v pattern) as [t|[]]; [left; by exists t|by right|done].
Qed.

(** The class built for a Unicode property is exact on the text it is
    built for: the escaped characters are in code point order, and a character
    of the text is among them exactly when its category has the property (or
    lacks it, for the complement). *)
Theorem property_class_exact category v name complement chars :
  property_chars category v name complement = Ok chars ->
  exists set, chars = concat (map re_escape set) /\ StronglySorted Z.le set /\
    forall c, c ∈ v -> (c ∈ set <-> belongs category name c <> complement).
Proof.
  unfold property_chars. destruct (existsb _ v); [done|]. intros [= <-].
  exists (sorted_by id (property_set category v name complement)).
  split; [done|]. split.
  - induction (sorted_by_sorted id (property_set category v name complement)) as [|x l _ IH Hx];
      constructor; [done|]. eapply Forall_impl; [exact Hx|]. intros y H.
    unfold key_le, pyleb in H. cbn in H. destruct (Z.compare_spec x y); [lia..|done].
  - intros c Hc. rewrite <- property_set_elem by done. by rewrite sorted_by_perm.
Qed.

(** Letters and everything else. *)
Definition sample_category (c : Z) : pystr :=
  if between 65 c 90 then bs "Lu" else if between 97 c 122 then bs "Ll" else bs "Zs".

Lemma property_class_exact_witness :
  exists set, bs "AB" = concat (map re_escape set) /\ StronglySorted Z.le set /\
    forall c, c ∈ bs "Ba A" -> (c ∈ set <-> belongs sample_category (bs "Lu") c <> false).
Proof. apply property_class_exact. vm_compute. reflexivity. Defined.

(** Blanks at the end of an unfinished filter query are not reported as a
    JSONPath error: reading past the end raises [IndexError]. *)
Theorem trailing_blank_index_error json_loads isdigit decimal stack blanks :
  (9 <= stack)%nat -> forallb is_blank blanks = true -> blanks <> [] -> zlen blanks <= 16000 ->
  parse json_loads isdigit decimal stack (bs "$[?@" ++ blanks) = Err IndexError.
Proof.
  intros Hs Hb Hn Hl. unfold parse.
  replace (zlen (bs "$[?@" ++ blanks) >? 16 * 1024) with false
    by (rewrite zlen_app; change (zlen (bs "$[?@")) with 4; lia).
  rewrite bool_decide_false by done. cbn [orb].
  change (take_text (bs "$") (bs "$[?@" ++ blanks)) with (Some (bs "[?@" ++ blanks)). cbv iota.
  replace (parse_fuel (bs "[?@" ++ blanks)) with (9 + S (8 * length blanks + 22))%nat
    by (unfold parse_fuel; rewrite length_app; simpl; lia).
  replace stack with (8 + S (stack - 9))%nat by lia.
  rewrite (query_error_propagates _ _ _ _ _ _ IndexError); [done|].
  assert (Hw : whitespace blanks = []).
  { clear Hn Hl. induction blanks as [|c w IH]; [done|]. cbn [forallb] in Hb.
    apply andb_prop in Hb as [Hc Hb]. cbn [whitespace]. rewrite Hc. auto. }
  destruct blanks as [|c w]; [done|]. generalize (8 * length (c :: w) + 22)%nat. intros f.
  cbn [segments]. by rewrite Hw.
Qed.

Lemma trailing_blank_index_error_witness :
  parse sample_loads is_ascii_digit sample_decimal 100 (bs "$[?@ ") = Err IndexError.
Proof.
  apply (trailing_blank_index_error sample_loads is_ascii_digit sample_decimal 100 (bs " "));
    [lia|reflexivity|discriminate|vm_compute; discriminate].
Defined.
