(* ===== verification/CedarSyntax.v ===== *)
(** * Cedar: the compiled program

    The tuples that [_auth/cedar_engine.py] compiles a policy set into, as an
    inductive type per operation code, and their encoding as the Python
    objects the static walks of that file traverse. *)

From stdpp Require Import base sets strings numbers list gmap.
From Stdlib Require Import ZArith Lia.
From S2P Require Import Prelude PyCollections.
#[local] Open Scope Z_scope.

(** ** Names and numbers the source declares *)

Definition _I64_MIN : Z := - 2 ^ 63.
Definition _I64_MAX : Z := 2 ^ 63 - 1.
Definition i64 (z : Z) : bool := (_I64_MIN <=? z) && (z <=? _I64_MAX).

(** The indices of [_VARS]. *)
Inductive var : Type := Principal | Action | Resource | ContextVar.

Definition _VARS (v : var) : Z :=
  match v with Principal => 0 | Action => 1 | Resource => 2 | ContextVar => 3 end.

Inductive arith : Type := Plus | Minus | Times.

Definition _ARITH_OPS (o : arith) : Z :=
  match o with Plus => 0 | Minus => 1 | Times => 2 end.

Inductive cmp : Type := CmpLt | CmpLe | CmpGt | CmpGe.

Definition _CMP_OPS (o : cmp) : Z :=
  match o with CmpLt => 0 | CmpLe => 1 | CmpGt => 2 | CmpGe => 3 end.

Inductive method : Type := contains | containsAll | containsAny | isEmpty.

Definition _METHOD_IDS (m : method) : Z :=
  match m with contains => 0 | containsAll => 1 | containsAny => 2 | isEmpty => 3 end.

#[global] Instance var_eq_dec : EqDecision var.
Proof. solve_decision. Defined.
#[global] Instance arith_eq_dec : EqDecision arith.
Proof. solve_decision. Defined.
#[global] Instance cmp_eq_dec : EqDecision cmp.
Proof. solve_decision. Defined.
#[global] Instance method_eq_dec : EqDecision method.
Proof. solve_decision. Defined.

(** ** Expressions *)

(** An entity reference, the pair [(type, id)]. *)
Definition uid : Type := pystr * pystr.

(** What the parser puts behind [_OP_CONST]. *)
Inductive const : Type :=
| CBool (b : bool)
| CInt (z : Z)
| CStr (s : pystr)
| CUid (u : uid).

#[global] Instance const_eq_dec : EqDecision const.
Proof. solve_decision. Defined.

(** One constructor per operation code, in the order of the codes. *)
Inductive expr : Type :=
| OP_CONST (c : const)
| OP_VAR (v : var)
| OP_AND (l r : expr)
| OP_OR (l r : expr)
| OP_NOT (e : expr)
| OP_ARITH (o : arith) (l r : expr)
| OP_CMP (o : cmp) (l r : expr)
| OP_EQ (l r : expr)
| OP_NE (l r : expr)
| OP_IN (l r : expr)
| OP_HAS (e : expr) (name : pystr)
| OP_LIKE (e : expr) (segments : list pystr)
| OP_IS (e : expr) (type : pystr) (ancestor : option expr)
| OP_IF (c t f : expr)
| OP_SET (items : list expr)
| OP_RECORD (entries : list (pystr * expr))
| OP_GETATTR (e : expr) (name : pystr)
| OP_METHOD (m : method) (e : expr) (argument : option expr).

(** Scope constraints; [frozenset] is a list whose order carries nothing. *)
Inductive scope : Type :=
| SCOPE_ANY
| SCOPE_EQ (u : uid)
| SCOPE_IN (u : uid)
| SCOPE_IN_SET (us : list uid)
| SCOPE_IS (type : pystr) (ancestor : option uid).

Record policy : Type := mk_policy {
  forbid : bool;
  policy_id : pystr;
  principal_scope : scope;
  action_scope : scope;
  resource_scope : scope;
  conditions : list (bool * expr) }.

(** Induction over the nested lists and optional operands. *)
Section expr_induction.
Context (Q : expr -> Prop).
Context (Hconst : forall c, Q (OP_CONST c)) (Hvar : forall v, Q (OP_VAR v)).
Context (Hand : forall l r, Q l -> Q r -> Q (OP_AND l r)).
Context (Hor : forall l r, Q l -> Q r -> Q (OP_OR l r)).
Context (Hnot : forall e, Q e -> Q (OP_NOT e)).
Context (Harith : forall o l r, Q l -> Q r -> Q (OP_ARITH o l r)).
Context (Hcmp : forall o l r, Q l -> Q r -> Q (OP_CMP o l r)).
Context (Heq : forall l r, Q l -> Q r -> Q (OP_EQ l r)).
Context (Hne : forall l r, Q l -> Q r -> Q (OP_NE l r)).
Context (Hin : forall l r, Q l -> Q r -> Q (OP_IN l r)).
Context (Hhas : forall e n, Q e -> Q (OP_HAS e n)).
Context (Hlike : forall e ss, Q e -> Q (OP_LIKE e ss)).
Context (His : forall e ty a, Q e -> (forall x, a = Some x -> Q x) -> Q (OP_IS e ty a)).
Context (Hif : forall c t f, Q c -> Q t -> Q f -> Q (OP_IF c t f)).
Context (Hset : forall l, Forall Q l -> Q (OP_SET l)).
Context (Hrecord : forall l, Forall (fun kv => Q (kv.2)) l -> Q (OP_RECORD l)).
Context (Hget : forall e n, Q e -> Q (OP_GETATTR e n)).
Context (Hmethod : forall m e a, Q e -> (forall x, a = Some x -> Q x) -> Q (OP_METHOD m e a)).

Fixpoint expr_ind_nested (e : expr) : Q e :=
  let opt a : forall x, a = Some x -> Q x :=
    match a with
    | Some y => fun x H => eq_rect y Q (expr_ind_nested y) x (f_equal (default y) H)
    | None => fun x H => False_ind _ (eq_ind None (fun o => match o with None => True | Some _ => False end) I _ H)
    end in
  match e with
  | OP_CONST c => Hconst c
  | OP_VAR v => Hvar v
  | OP_AND l r => Hand l r (expr_ind_nested l) (expr_ind_nested r)
  | OP_OR l r => Hor l r (expr_ind_nested l) (expr_ind_nested r)
  | OP_NOT e => Hnot e (expr_ind_nested e)
  | OP_ARITH o l r => Harith o l r (expr_ind_nested l) (expr_ind_nested r)
  | OP_CMP o l r => Hcmp o l r (expr_ind_nested l) (expr_ind_nested r)
  | OP_EQ l r => Heq l r (expr_ind_nested l) (expr_ind_nested r)
  | OP_NE l r => Hne l r (expr_ind_nested l) (expr_ind_nested r)
  | OP_IN l r => Hin l r (expr_ind_nested l) (expr_ind_nested r)
  | OP_HAS e n => Hhas e n (expr_ind_nested e)
  | OP_LIKE e ss => Hlike e ss (expr_ind_nested e)
  | OP_IS e ty a => His e ty a (expr_ind_nested e) (opt a)
  | OP_IF c t f => Hif c t f (expr_ind_nested c) (expr_ind_nested t) (expr_ind_nested f)
  | OP_SET l =>
    Hset l ((fix go l : Forall Q l :=
      match l with
      | [] => ListDef.Forall_nil _
      | x :: l => ListDef.Forall_cons _ x l (expr_ind_nested x) (go l)
      end) l)
  | OP_RECORD l =>
    Hrecord l ((fix go l : Forall (fun kv => Q (kv.2)) l :=
      match l with
      | [] => ListDef.Forall_nil _
      | (k, x) :: l => ListDef.Forall_cons _ (k, x) l (expr_ind_nested x) (go l)
      end) l)
  | OP_GETATTR e n => Hget e n (expr_ind_nested e)
  | OP_METHOD m e a => Hmethod m e a (expr_ind_nested e) (opt a)
  end.
End expr_induction.

(** The immediate operands, in the order the tuple holds them. *)
Definition operands (e : expr) : list expr :=
  let opt a := match a with Some x => [x] | None => [] end in
  match e with
  | OP_CONST _ | OP_VAR _ => []
  | OP_AND a b | OP_OR a b | OP_EQ a b | OP_NE a b | OP_IN a b
  | OP_ARITH _ a b | OP_CMP _ a b => [a; b]
  | OP_NOT a | OP_HAS a _ | OP_LIKE a _ | OP_GETATTR a _ => [a]
  | OP_IS a _ b | OP_METHOD _ a b => a :: opt b
  | OP_IF a b c => [a; b; c]
  | OP_SET items => items
  | OP_RECORD entries => map snd entries
  end.

Lemma expr_operand_ind (Q : expr -> Prop) :
  (forall e, (forall x, x ∈ operands e -> Q x) -> Q e) -> forall e, Q e.
Proof.
  intros H. induction e using expr_ind_nested; apply H; cbn [operands]; intros y Hy;
    repeat (apply elem_of_cons in Hy as [->|Hy]; [done|]); try by apply elem_of_nil in Hy.
  - destruct a; [|by apply elem_of_nil in Hy]. apply list_elem_of_singleton in Hy as ->. eauto.
  - rewrite Forall_forall in H0. eauto.
  - apply list_elem_of_fmap in Hy as (kv & -> & Hkv). rewrite Forall_forall in H0. eauto.
  - destruct a; [|by apply elem_of_nil in Hy]. apply list_elem_of_singleton in Hy as ->. eauto.
Qed.

(** ** The tuples themselves *)

(** Python objects that occur in a compiled policy. *)
Inductive pyobj : Type :=
| PyNone
| PyBool (b : bool)
| PyInt (z : Z)
| PyStr (s : pystr)
| PyTuple (l : list pyobj)
| PyFrozenset (l : list pyobj).

Definition py_uid (u : uid) : pyobj := PyTuple [PyStr (u.1); PyStr (u.2)].

Definition py_const (c : const) : pyobj :=
  match c with
  | CBool b => PyBool b
  | CInt z => PyInt z
  | CStr s => PyStr s
  | CUid u => py_uid u
  end.

Definition py_var (v : var) : pyobj := PyTuple [PyInt 1; PyInt (_VARS v)].

(** The tuple each expression is compiled into. *)
Fixpoint py_expr (e : expr) : pyobj :=
  let opt a := match a with Some x => py_expr x | None => PyNone end in
  match e with
  | OP_CONST c => PyTuple [PyInt 0; py_const c]
  | OP_VAR v => py_var v
  | OP_AND l r => PyTuple [PyInt 2; py_expr l; py_expr r]
  | OP_OR l r => PyTuple [PyInt 3; py_expr l; py_expr r]
  | OP_NOT e => PyTuple [PyInt 4; py_expr e]
  | OP_ARITH o l r => PyTuple [PyInt 5; PyInt (_ARITH_OPS o); py_expr l; py_expr r]
  | OP_CMP o l r => PyTuple [PyInt 6; PyInt (_CMP_OPS o); py_expr l; py_expr r]
  | OP_EQ l r => PyTuple [PyInt 7; py_expr l; py_expr r]
  | OP_NE l r => PyTuple [PyInt 8; py_expr l; py_expr r]
  | OP_IN l r => PyTuple [PyInt 9; py_expr l; py_expr r]
  | OP_HAS e n => PyTuple [PyInt 10; py_expr e; PyStr n]
  | OP_LIKE e ss => PyTuple [PyInt 11; py_expr e; PyTuple (map PyStr ss)]
  | OP_IS e ty a => PyTuple [PyInt 12; py_expr e; PyStr ty; opt a]
  | OP_IF c t f => PyTuple [PyInt 13; py_expr c; py_expr t; py_expr f]
  | OP_SET l => PyTuple [PyInt 14; PyTuple (map py_expr l)]
  | OP_RECORD l =>
    PyTuple [PyInt 15; PyTuple (map (fun kv => PyTuple [PyStr (kv.1); py_expr (kv.2)]) l)]
  | OP_GETATTR e n => PyTuple [PyInt 16; py_expr e; PyStr n]
  | OP_METHOD m e a => PyTuple [PyInt 17; PyInt (_METHOD_IDS m); py_expr e; opt a]
  end.

Definition py_scope (s : scope) : pyobj :=
  match s with
  | SCOPE_ANY => PyTuple [PyInt 0]
  | SCOPE_EQ u => PyTuple [PyInt 1; py_uid u]
  | SCOPE_IN u => PyTuple [PyInt 2; py_uid u]
  | SCOPE_IN_SET us => PyTuple [PyInt 3; PyFrozenset (map py_uid us)]
  | SCOPE_IS ty a =>
    PyTuple [PyInt 4; PyStr ty; match a with Some u => py_uid u | None => PyNone end]
  end.

Definition py_condition (c : bool * expr) : pyobj :=
  PyTuple [PyInt (if c.1 : bool then 1 else 0); py_expr (c.2)].

Definition py_policy (p : policy) : pyobj :=
  PyTuple [PyInt (if forbid p then 1 else 0); PyStr (policy_id p);
           py_scope (principal_scope p); py_scope (action_scope p);
           py_scope (resource_scope p); PyTuple (map py_condition (conditions p))].
