(* ===== verification/CedarLexer.v ===== *)
(** * Cedar: the tokenizer

    [_tokenize], [_lex_string], [_unescape_star] and [_pattern_segments] of
    [_auth/cedar_engine.py].  A position is the unread rest of the source; the
    index is the length of the source less the length of the rest. *)

From stdpp Require Import base sets strings numbers list gmap.
From Stdlib Require Import ZArith Lia.
From S2P Require Import Prelude PyCollections PyText CedarSyntax.
#[local] Open Scope Z_scope.

(** ** Errors *)

(** The message of a [CedarParseError], as what it reports. *)
Inductive message : Type :=
| UnexpectedCharacter (c : Z)
| UnterminatedUnicodeEscape
| InvalidUnicodeEscape
| UnknownStringEscape (c : Z)
| UnterminatedString
| Expected (wanted found : pystr)
| ExpectedPermitOrForbid
| IsNotAllowed (name : pystr)
| DoesNotFitI64
| ExpectedAttributeOrMethod
| UnknownMethod (name : pystr)
| MethodArguments (name : pystr) (expected : Z)
| ExpectedAttributeName
| UnexpectedKeyword (name : pystr)
| UnsupportedExtension (name : pystr)
| UnknownIdentifier (name : pystr)
| UnexpectedToken (text : pystr)
| ExpectedRecordKey
| DuplicateRecordKey (key : pystr)
| EmptyPolicySet
| SourceNotText
| SourceTooLong
| NestingTooDeep
| NotAnEntityReference
| SchemaError
| ProtectedAction.

(** [ValueError] is the one [int] raises; [RecursionError] is reached when the
    calls nest deeper than the interpreter allows. *)
Inductive parse_error : Type :=
| CedarParseError (m : message) (at_ : option (Z * Z))
| ValueError
| RecursionError.

(** ** Tokens *)

Inductive kind : Type :=
| KIdent
| KKeyword
| KInt
| KString
| KEof
| KPunct (text : pystr).

#[global] Instance kind_eq_dec : EqDecision kind.
Proof. solve_decision. Defined.

Record token : Type := _Token {
  tkind : kind;
  tvalue : pystr;
  tline : Z;
  tcolumn : Z }.

#[global] Instance token_eq_dec : EqDecision token.
Proof. solve_decision. Defined.

Definition _KEYWORDS : list pystr :=
  map bs ["permit"; "forbid"; "when"; "unless"; "principal"; "action"; "resource"; "context";
          "true"; "false"; "if"; "then"; "else"; "in"; "like"; "has"; "is"]%string.

Definition _PUNCTUATION : list pystr :=
  map bs ["::"; "||"; "&&"; "=="; "!="; "<="; ">="; "("; ")"; "["; "]"; "{"; "}"; ","; ";";
          ":"; "."; "@"; "!"; "<"; ">"; "+"; "-"; "*"]%string.

(** ** Strings *)

Definition quote : Z := 34.
Definition backslash : Z := 92.
Definition star : Z := 42.
Definition newline : Z := 10.

Definition _ESCAPES (c : Z) : option pystr :=
  if c =? 110 then Some [10]
  else if c =? 114 then Some [13]
  else if c =? 116 then Some [9]
  else if c =? 48 then Some [0]
  else if c =? quote then Some [quote]
  else if c =? 39 then Some [39]
  else if c =? backslash then Some [backslash]
  else if c =? star then Some [backslash; star]
  else None.

Definition is_hex_digit (c : Z) : bool :=
  is_ascii_digit c || ((97 <=? c) && (c <=? 102)) || ((65 <=? c) && (c <=? 70)).

Definition hex_digit_value (c : Z) : Z :=
  if is_ascii_digit c then c - 48 else if 97 <=? c then c - 87 else c - 55.

(** [int(digits, 16)]. *)
Definition hex_number (digits : pystr) : Z :=
  fold_left (fun acc c => acc * 16 + hex_digit_value c) digits 0.

(** [source.find(c)] from the start of [s]: what precedes [c] and what follows it. *)
Fixpoint find_char (c : Z) (s : pystr) : option (pystr * pystr) :=
  match s with
  | [] => None
  | x :: s =>
    if x =? c then Some ([], s)
    else match find_char c s with Some (a, b) => Some (x :: a, b) | None => None end
  end.

(** The escape whose letter [u] and brace have been read. *)
Definition unicode_escape (s : pystr) (at_ : Z * Z) : res parse_error (Z * pystr) :=
  match find_char 125 s with
  | None => Err (CedarParseError UnterminatedUnicodeEscape (Some at_))
  | Some (digits, rest) =>
    if negb ((1 <=? zlen digits) && (zlen digits <=? 6)) || negb (forallb is_hex_digit digits)
    then Err (CedarParseError InvalidUnicodeEscape (Some at_))
    else
      let scalar := hex_number digits in
      if (0x10FFFF <? scalar) || ((0xD800 <=? scalar) && (scalar <=? 0xDFFF))
      then Err (CedarParseError InvalidUnicodeEscape (Some at_))
      else Ok (scalar, rest)
  end.

(** The loop of [_lex_string] after the opening quote: the parts and the rest. *)
Fixpoint lex_string_loop (fuel : nat) (s : pystr) (at_ : Z * Z) : res parse_error (pystr * pystr) :=
  match fuel with
  | O => Err RecursionError
  | S fuel =>
    match s with
    | [] => Err (CedarParseError UnterminatedString (Some at_))
    | char :: s =>
      if char =? quote then Ok ([], s)
      else if char =? newline then Err (CedarParseError UnterminatedString (Some at_))
      else if char =? backslash then
        match s with
        | [] => Err (CedarParseError UnterminatedString (Some at_))
        | escape :: s =>
          if (escape =? 117) && startswith [123] s then
            let! (scalar, s) := unicode_escape (drop 1 s) at_ in
            let! (parts, rest) := lex_string_loop fuel s at_ in
            Ok (scalar :: parts, rest)
          else
            match _ESCAPES escape with
            | None => Err (CedarParseError (UnknownStringEscape escape) (Some at_))
            | Some decoded =>
              let! (parts, rest) := lex_string_loop fuel s at_ in
              Ok (decoded ++ parts, rest)
            end
        end
      else
        let! (parts, rest) := lex_string_loop fuel s at_ in
        Ok (char :: parts, rest)
    end
  end.

(** [_lex_string]: [s] starts at the opening quote. *)
Definition _lex_string (s : pystr) (at_ : Z * Z) : res parse_error (pystr * pystr) :=
  lex_string_loop (length s) (drop 1 s) at_.

Fixpoint _unescape_star (text : pystr) : pystr :=
  match text with
  | [] => []
  | a :: rest =>
    match rest with
    | b :: rest' =>
      if (a =? backslash) && (b =? star) then star :: _unescape_star rest'
      else a :: _unescape_star rest
    | [] => [a]
    end
  end.

(** The loop of [_pattern_segments], with [current] the segment read so far. *)
Fixpoint pattern_loop (current pattern : pystr) : list pystr :=
  match pattern with
  | [] => [current]
  | a :: rest =>
    match rest with
    | b :: rest' =>
      if (a =? backslash) && (b =? star) then pattern_loop (current ++ [star]) rest'
      else if a =? star then current :: pattern_loop [] rest
      else pattern_loop (current ++ [a]) rest
    | [] => if a =? star then [current; []] else [current ++ [a]]
    end
  end.

Definition _pattern_segments (pattern : pystr) : list pystr := pattern_loop [] pattern.

(** ** Tokens of a source *)

Section tokenizer.
Context {U : UnicodeData}.

(** The first punctuation the rest starts with. *)
Fixpoint find_punctuation (l : list pystr) (s : pystr) : option pystr :=
  match l with
  | [] => None
  | p :: l => if startswith p s then Some p else find_punctuation l s
  end.

Definition word_kind (word : pystr) : kind :=
  if text_in word _KEYWORDS then KKeyword else KIdent.

Definition word_char (c : Z) : bool := isalnum c || (c =? 95).

Fixpoint tokenize_loop (length_ : Z) (fuel : nat) (s : pystr) (line line_start : Z) :
    res parse_error (list token) :=
  match fuel with
  | O => Err RecursionError
  | S fuel =>
    match s with
    | [] => Ok [_Token KEof [] line (length_ - line_start + 1)]
    | char :: rest =>
      let index := length_ - zlen s in
      if (char =? 32) || (char =? 9) || (char =? 13) then
        tokenize_loop length_ fuel rest line line_start
      else if char =? newline then
        tokenize_loop length_ fuel rest (line + 1) (index + 1)
      else
        let column := index - line_start + 1 in
        if startswith (bs "//") s then
          tokenize_loop length_ fuel
            (match find_char newline s with Some (_, after) => newline :: after | None => [] end)
            line line_start
        else if char =? quote then
          let! (value, rest) := _lex_string s (line, column) in
          let! tokens := tokenize_loop length_ fuel rest line line_start in
          Ok (_Token KString value line column :: tokens)
        else if isdigit char then
          let '(more, rest) := span_text isdigit rest in
          let! tokens := tokenize_loop length_ fuel rest line line_start in
          Ok (_Token KInt (char :: more) line column :: tokens)
        else if isalpha char || (char =? 95) then
          let '(more, rest) := span_text word_char rest in
          let! tokens := tokenize_loop length_ fuel rest line line_start in
          Ok (_Token (word_kind (char :: more)) (char :: more) line column :: tokens)
        else
          match find_punctuation _PUNCTUATION s with
          | Some p =>
            let! tokens := tokenize_loop length_ fuel (drop (length p) s) line line_start in
            Ok (_Token (KPunct p) p line column :: tokens)
          | None => Err (CedarParseError (UnexpectedCharacter char) (Some (line, column)))
          end
    end
  end.

Definition _tokenize (source : pystr) : res parse_error (list token) :=
  tokenize_loop (zlen source) (S (length source)) source 1 0.

End tokenizer.
