(* ===== verification/CedarParser.v ===== *)
(** * Cedar: the parser

    [_Parser] of [_auth/cedar_engine.py].  The state is the list of tokens
    from [_index] on.  The methods that call each other take the depth of
    calls still allowed; reaching zero is the [RecursionError] of the
    interpreter.  A [while] loop takes a bound of its own, one more than the
    tokens that are left, since every round reads a token. *)

From stdpp Require Import base sets strings numbers list gmap.
From Stdlib Require Import ZArith Lia.
From S2P Require Import Prelude PyCollections PyText CedarSyntax CedarLexer.
#[local] Open Scope Z_scope.

(** ** Reading tokens *)

Definition P (A : Type) : Type := res parse_error (A * list token).

Definition no_token : token := _Token KEof [] 0 0.

Definition _peek (ts : list token) : token :=
  match ts with t :: _ => t | [] => no_token end.

(** [_peek(1)]: the index is clamped to the last token. *)
Definition _peek1 (ts : list token) : token :=
  match ts with _ :: t :: _ => t | [t] => t | [] => no_token end.

Definition _advance (ts : list token) : list token :=
  match ts with
  | t :: rest => if bool_decide (tkind t = KEof) then ts else rest
  | [] => []
  end.

Definition is_kind (k : kind) (t : token) : bool := bool_decide (tkind t = k).
Definition is_punct (p : String.string) : token -> bool := is_kind (KPunct (bs p)).
Definition is_keyword (w : String.string) (t : token) : bool :=
  is_kind KKeyword t && bool_decide (tvalue t = bs w).

(** [_match]: the token and the rest when the next token fits. *)
Definition _match (f : token -> bool) (ts : list token) : option (list token) :=
  if f (_peek ts) then Some (_advance ts) else None.

Definition kind_text (k : kind) : pystr :=
  match k with
  | KIdent => bs "ident"
  | KKeyword => bs "keyword"
  | KInt => bs "int"
  | KString => bs "string"
  | KEof => bs "eof"
  | KPunct p => p
  end.

Definition position (ts : list token) : option (Z * Z) :=
  Some (tline (_peek ts), tcolumn (_peek ts)).

Definition _fail {A} (m : message) (ts : list token) : P A :=
  Err (CedarParseError m (position ts)).

Definition found_text (t : token) : pystr :=
  match tvalue t with [] => kind_text (tkind t) | v => v end.

(** [_expect(kind)] and [_expect(kind, value)]: the token's text. *)
Definition expect_if (f : token -> bool) (wanted : pystr) (ts : list token) : P pystr :=
  match _match f ts with
  | Some rest => Ok (tvalue (_peek ts), rest)
  | None => _fail (Expected wanted (found_text (_peek ts))) ts
  end.

Definition _expect (k : kind) : list token -> P pystr := expect_if (is_kind k) (kind_text k).
Definition expect_punct (p : String.string) : list token -> P pystr := _expect (KPunct (bs p)).
Definition expect_keyword (w : String.string) : list token -> P pystr :=
  expect_if (is_keyword w) (bs w).

(** ** Loops *)

(** [while self._match(...)]: a list of further items. *)
Fixpoint more_items {A} (n : nat) (sep : token -> bool) (item : list token -> P A)
    (ts : list token) : P (list A) :=
  match n with
  | O => Err RecursionError
  | S n =>
    match _match sep ts with
    | Some ts =>
      let! (x, ts) := item ts in
      let! (xs, ts) := more_items n sep item ts in
      Ok (x :: xs, ts)
    | None => Ok ([], ts)
    end
  end.

(** A comma-separated list that is empty when [close] comes first. *)
Definition comma_list {A} (close : token -> bool) (item : list token -> P A)
    (ts : list token) : P (list A) :=
  if close (_peek ts) then Ok ([], ts)
  else
    let! (x, ts) := item ts in
    let! (xs, ts) := more_items (S (length ts)) (is_punct ",") item ts in
    Ok (x :: xs, ts).

(** A left-associative chain of binary operators. *)
Fixpoint chain (n : nat) (op : token -> option (expr -> expr -> expr))
    (operand : list token -> P expr) (lhs : expr) (ts : list token) : P expr :=
  match n with
  | O => Err RecursionError
  | S n =>
    match op (_peek ts) with
    | Some f =>
      let! (rhs, ts) := operand (_advance ts) in
      chain n op operand (f lhs rhs) ts
    | None => Ok (lhs, ts)
    end
  end.

Definition punct_op (p : String.string) (f : expr -> expr -> expr) (t : token) :
    option (expr -> expr -> expr) :=
  if is_punct p t then Some f else None.

Definition additive_op (t : token) : option (expr -> expr -> expr) :=
  if is_punct "+" t then Some (OP_ARITH Plus)
  else if is_punct "-" t then Some (OP_ARITH Minus) else None.

Definition cmp_op (t : token) : option cmp :=
  if is_punct "<" t then Some CmpLt
  else if is_punct "<=" t then Some CmpLe
  else if is_punct ">" t then Some CmpGt
  else if is_punct ">=" t then Some CmpGe else None.

Definition method_of (name : pystr) : option method :=
  if bool_decide (name = bs "contains") then Some contains
  else if bool_decide (name = bs "containsAll") then Some containsAll
  else if bool_decide (name = bs "containsAny") then Some containsAny
  else if bool_decide (name = bs "isEmpty") then Some isEmpty else None.

Definition _EXTENSIONS : list pystr :=
  map bs ["ip"; "decimal"; "datetime"; "duration"; "offset"]%string.

Definition var_of (name : pystr) : option var :=
  if bool_decide (name = bs "principal") then Some Principal
  else if bool_decide (name = bs "action") then Some Action
  else if bool_decide (name = bs "resource") then Some Resource
  else if bool_decide (name = bs "context") then Some ContextVar else None.

(** ** Names *)

Fixpoint type_path_loop (n : nat) (ts : list token) : P (list pystr) :=
  match n with
  | O => Err RecursionError
  | S n =>
    if is_punct "::" (_peek ts) && is_kind KIdent (_peek1 ts) then
      let! (s, ts) := _expect KIdent (_advance ts) in
      let! (segments, ts) := type_path_loop n ts in
      Ok (s :: segments, ts)
    else Ok ([], ts)
  end.

(** ["::".join(segments)]. *)
Fixpoint join_path (segments : list pystr) : pystr :=
  match segments with
  | [] => []
  | [s] => s
  | s :: segments => s ++ bs "::" ++ join_path segments
  end.

Definition _type_path (ts : list token) : P pystr :=
  let! (s, ts) := _expect KIdent ts in
  let! (segments, ts) := type_path_loop (S (length ts)) ts in
  Ok (join_path (s :: segments), ts).

(** [_entity_uid] and [_uid_tuple]. *)
Definition _entity_uid (ts : list token) : P uid :=
  let! (entity_type, ts) := _type_path ts in
  let! (_, ts) := expect_punct "::" ts in
  let! (id, ts) := _expect KString ts in
  Ok ((entity_type, _unescape_star id), ts).

Definition _attribute_name (ts : list token) : P pystr :=
  let t := _peek ts in
  if is_kind KIdent t then Ok (tvalue t, _advance ts)
  else if is_kind KString t then Ok (_unescape_star (tvalue t), _advance ts)
  else _fail ExpectedAttributeName ts.

(** ** Expressions *)

Section parser.
Context {U : UnicodeData}.

(** The key of a record entry; [keys] are those read before. *)
Definition record_key (keys : list pystr) (ts : list token) : P pystr :=
  let t := _peek ts in
  if negb (is_kind KIdent t || is_kind KString t || is_kind KKeyword t)
  then _fail ExpectedRecordKey ts
  else
    let ts := _advance ts in
    let key := if is_kind KString t then _unescape_star (tvalue t) else tvalue t in
    if text_in key keys then _fail (DuplicateRecordKey key) ts
    else
      let! (_, ts) := expect_punct ":" ts in
      Ok (key, ts).

(** [_record_entry] for the entries after the first, threading [keys]. *)
Fixpoint more_entries (n : nat) (expression : list token -> P expr) (keys : list pystr)
    (ts : list token) : P (list (pystr * expr)) :=
  match n with
  | O => Err RecursionError
  | S n =>
    match _match (is_punct ",") ts with
    | Some ts =>
      let! (key, ts) := record_key keys ts in
      let! (e, ts) := expression ts in
      let! (entries, ts) := more_entries n expression (key :: keys) ts in
      Ok ((key, e) :: entries, ts)
    | None => Ok ([], ts)
    end
  end.

Definition record_entries (expression : list token -> P expr) (ts : list token) :
    P (list (pystr * expr)) :=
  if is_punct "}" (_peek ts) then Ok ([], ts)
  else
    let! (key, ts) := record_key [] ts in
    let! (e, ts) := expression ts in
    let! (entries, ts) := more_entries (S (length ts)) expression [key] ts in
    Ok ((key, e) :: entries, ts).

(** The call of a method whose name has been read; [(] is next. *)
Definition method_call (expression : list token -> P expr) (name : pystr) (e : expr)
    (ts : list token) : P expr :=
  match method_of name with
  | None => _fail (UnknownMethod name) ts
  | Some m =>
    let ts := _advance ts in
    let! (arguments, ts) := comma_list (is_punct ")") expression ts in
    let! (_, ts) := expect_punct ")" ts in
    let expected := if bool_decide (m = isEmpty) then 0 else 1 in
    if negb (zlen arguments =? expected) then _fail (MethodArguments name expected) ts
    else Ok (OP_METHOD m e (head arguments), ts)
  end.

(** The loop of [_member]. *)
Fixpoint member_loop (n : nat) (expression : list token -> P expr) (e : expr)
    (ts : list token) : P expr :=
  match n with
  | O => Err RecursionError
  | S n =>
    match _match (is_punct ".") ts with
    | Some ts =>
      let name_token := _peek ts in
      if negb (is_kind KIdent name_token || is_kind KKeyword name_token)
      then _fail ExpectedAttributeOrMethod ts
      else
        let ts := _advance ts in
        let name := tvalue name_token in
        if is_punct "(" (_peek ts) then
          let! (e, ts) := method_call expression name e ts in
          member_loop n expression e ts
        else member_loop n expression (OP_GETATTR e name) ts
    | None =>
      if is_punct "[" (_peek ts) && is_kind KString (_peek1 ts) then
        let! (attribute, ts) := _expect KString (_advance ts) in
        let! (_, ts) := expect_punct "]" ts in
        member_loop n expression (OP_GETATTR e (_unescape_star attribute)) ts
      else Ok (e, ts)
    end
  end.

(** [_primary], given the parser of a nested expression. *)
Definition primary_with (expression : list token -> P expr) (ts : list token) : P expr :=
  let t := _peek ts in
  match tkind t with
  | KInt =>
    match int_of_digits (tvalue t) with
    | None => Err ValueError
    | Some value =>
      if _I64_MAX <? value then Err (CedarParseError DoesNotFitI64 (Some (tline t, tcolumn t)))
      else Ok (OP_CONST (CInt value), _advance ts)
    end
  | KString => Ok (OP_CONST (CStr (_unescape_star (tvalue t))), _advance ts)
  | KKeyword =>
    if bool_decide (tvalue t = bs "true") then Ok (OP_CONST (CBool true), _advance ts)
    else if bool_decide (tvalue t = bs "false") then Ok (OP_CONST (CBool false), _advance ts)
    else
      match var_of (tvalue t) with
      | Some v => Ok (OP_VAR v, _advance ts)
      | None => _fail (UnexpectedKeyword (tvalue t)) ts
      end
  | KIdent =>
    if text_in (tvalue t) _EXTENSIONS && is_punct "(" (_peek1 ts)
    then _fail (UnsupportedExtension (tvalue t)) ts
    else if is_punct "::" (_peek1 ts) then
      let! (u, ts) := _entity_uid ts in Ok (OP_CONST (CUid u), ts)
    else _fail (UnknownIdentifier (tvalue t)) ts
  | _ =>
    if is_punct "(" t then
      let! (e, ts) := expression (_advance ts) in
      let! (_, ts) := expect_punct ")" ts in
      Ok (e, ts)
    else if is_punct "[" t then
      let! (items, ts) := comma_list (is_punct "]") expression (_advance ts) in
      let! (_, ts) := expect_punct "]" ts in
      Ok (OP_SET items, ts)
    else if is_punct "{" t then
      let! (entries, ts) := record_entries expression (_advance ts) in
      let! (_, ts) := expect_punct "}" ts in
      Ok (OP_RECORD entries, ts)
    else _fail (UnexpectedToken (found_text t)) ts
  end.

(** What [_unary] makes of the operand of a minus sign. *)
Definition negate (operand : expr) (ts : list token) : P expr :=
  match operand with
  | OP_CONST (CInt z) =>
    if - z <? _I64_MIN then _fail DoesNotFitI64 ts else Ok (OP_CONST (CInt (- z)), ts)
  | _ => Ok (OP_ARITH Minus (OP_CONST (CInt 0)) operand, ts)
  end.

(** [_relation], given the parser of its operands. *)
Definition relation_with (additive : list token -> P expr) (ts : list token) : P expr :=
  let! (lhs, ts) := additive ts in
  let t := _peek ts in
  if is_punct "==" t then
    let! (rhs, ts) := additive (_advance ts) in Ok (OP_EQ lhs rhs, ts)
  else if is_punct "!=" t then
    let! (rhs, ts) := additive (_advance ts) in Ok (OP_NE lhs rhs, ts)
  else
    match cmp_op t with
    | Some o => let! (rhs, ts) := additive (_advance ts) in Ok (OP_CMP o lhs rhs, ts)
    | None =>
      if is_keyword "in" t then
        let! (rhs, ts) := additive (_advance ts) in Ok (OP_IN lhs rhs, ts)
      else if is_keyword "has" t then
        let! (name, ts) := _attribute_name (_advance ts) in Ok (OP_HAS lhs name, ts)
      else if is_keyword "like" t then
        let! (pattern, ts) := _expect KString (_advance ts) in
        Ok (OP_LIKE lhs (_pattern_segments pattern), ts)
      else if is_keyword "is" t then
        let! (entity_type, ts) := _type_path (_advance ts) in
        match _match (is_keyword "in") ts with
        | Some ts => let! (a, ts) := additive ts in Ok (OP_IS lhs entity_type (Some a), ts)
        | None => Ok (OP_IS lhs entity_type None, ts)
        end
      else Ok (lhs, ts)
    end.

Fixpoint _expression (depth : nat) (ts : list token) : P expr :=
  match depth with
  | O => Err RecursionError
  | S depth =>
    if is_keyword "if" (_peek ts) then
      let! (condition, ts) := _expression depth (_advance ts) in
      let! (_, ts) := expect_keyword "then" ts in
      let! (then_, ts) := _expression depth ts in
      let! (_, ts) := expect_keyword "else" ts in
      let! (else_, ts) := _expression depth ts in
      Ok (OP_IF condition then_ else_, ts)
    else _or depth ts
  end
with _or (depth : nat) (ts : list token) : P expr :=
  match depth with
  | O => Err RecursionError
  | S depth =>
    let! (lhs, ts) := _and depth ts in
    chain (S (length ts)) (punct_op "||" OP_OR) (_and depth) lhs ts
  end
with _and (depth : nat) (ts : list token) : P expr :=
  match depth with
  | O => Err RecursionError
  | S depth =>
    let! (lhs, ts) := _relation depth ts in
    chain (S (length ts)) (punct_op "&&" OP_AND) (_relation depth) lhs ts
  end
with _relation (depth : nat) (ts : list token) : P expr :=
  match depth with
  | O => Err RecursionError
  | S depth => relation_with (_additive depth) ts
  end
with _additive (depth : nat) (ts : list token) : P expr :=
  match depth with
  | O => Err RecursionError
  | S depth =>
    let! (lhs, ts) := _multiplicative depth ts in
    chain (S (length ts)) additive_op (_multiplicative depth) lhs ts
  end
with _multiplicative (depth : nat) (ts : list token) : P expr :=
  match depth with
  | O => Err RecursionError
  | S depth =>
    let! (lhs, ts) := _unary depth ts in
    chain (S (length ts)) (punct_op "*" (OP_ARITH Times)) (_unary depth) lhs ts
  end
with _unary (depth : nat) (ts : list token) : P expr :=
  match depth with
  | O => Err RecursionError
  | S depth =>
    if is_punct "!" (_peek ts) then
      let! (e, ts) := _unary depth (_advance ts) in Ok (OP_NOT e, ts)
    else if is_punct "-" (_peek ts) then
      let! (e, ts) := _unary depth (_advance ts) in negate e ts
    else _member depth ts
  end
with _member (depth : nat) (ts : list token) : P expr :=
  match depth with
  | O => Err RecursionError
  | S depth =>
    let! (e, ts) := _primary depth ts in
    member_loop (S (length ts)) (_expression depth) e ts
  end
with _primary (depth : nat) (ts : list token) : P expr :=
  match depth with
  | O => Err RecursionError
  | S depth => primary_with (_expression depth) ts
  end.

(** ** Policies *)

Definition _scope (name : String.string) (allow_is : bool) (ts : list token) : P scope :=
  let! (_, ts) := expect_keyword name ts in
  match _match (is_punct "==") ts with
  | Some ts => let! (u, ts) := _entity_uid ts in Ok (SCOPE_EQ u, ts)
  | None =>
    match _match (is_keyword "in") ts with
    | Some ts =>
      match (if bool_decide (bs name = bs "action") then _match (is_punct "[") ts else None) with
      | Some ts =>
        let! (u, ts) := _entity_uid ts in
        let! (us, ts) := more_items (S (length ts)) (is_punct ",") _entity_uid ts in
        let! (_, ts) := expect_punct "]" ts in
        Ok (SCOPE_IN_SET (u :: us), ts)
      | None => let! (u, ts) := _entity_uid ts in Ok (SCOPE_IN u, ts)
      end
    | None =>
      if is_keyword "is" (_peek ts) then
        if negb allow_is then _fail (IsNotAllowed (bs name)) ts
        else
          let! (entity_type, ts) := _type_path (_advance ts) in
          match _match (is_keyword "in") ts with
          | Some ts => let! (u, ts) := _entity_uid ts in Ok (SCOPE_IS entity_type (Some u), ts)
          | None => Ok (SCOPE_IS entity_type None, ts)
          end
      else Ok (SCOPE_ANY, ts)
    end
  end.

(** One [@name("value")]. *)
Definition annotation (ts : list token) : P (pystr * pystr) :=
  let! (name, ts) := _expect KIdent ts in
  let! (_, ts) := expect_punct "(" ts in
  let! (value, ts) := _expect KString ts in
  let! (_, ts) := expect_punct ")" ts in
  Ok ((name, _unescape_star value), ts).

Fixpoint condition_loop (n : nat) (depth : nat) (ts : list token) : P (list (bool * expr)) :=
  match n with
  | O => Err RecursionError
  | S n =>
    let t := _peek ts in
    if is_keyword "when" t || is_keyword "unless" t then
      let! (_, ts) := expect_punct "{" (_advance ts) in
      let! (e, ts) := _expression depth ts in
      let! (_, ts) := expect_punct "}" ts in
      let! (rest, ts) := condition_loop n depth ts in
      Ok ((bool_decide (tvalue t = bs "unless"), e) :: rest, ts)
    else Ok ([], ts)
  end.

(** [annotations.get("id", f"policy{index}")]: a repeated annotation replaces
    the earlier one. *)
Definition annotated_id (annotations : list (pystr * pystr)) (index : Z) : pystr :=
  default (bs "policy" ++ str_of_Z index)
    (dget (fold_left (fun d kv => dset d (kv.1) (kv.2)) annotations []) (bs "id")).

Definition _policy (depth : nat) (index : Z) (ts : list token) : P policy :=
  match depth with
  | O => Err RecursionError
  | S depth =>
    let! (annotations, ts) := more_items (S (length ts)) (is_punct "@") annotation ts in
    let effect := _peek ts in
    if negb (is_keyword "permit" effect || is_keyword "forbid" effect)
    then _fail ExpectedPermitOrForbid ts
    else
      let! (_, ts) := expect_punct "(" (_advance ts) in
      let! (principal, ts) := _scope "principal" true ts in
      let! (_, ts) := expect_punct "," ts in
      let! (action, ts) := _scope "action" false ts in
      let! (_, ts) := expect_punct "," ts in
      let! (resource, ts) := _scope "resource" true ts in
      let! (_, ts) := expect_punct ")" ts in
      let! (conditions, ts) := condition_loop (S (length ts)) depth ts in
      let! (_, ts) := expect_punct ";" ts in
      Ok (mk_policy (bool_decide (tvalue effect = bs "forbid"))
            (annotated_id annotations index) principal action resource conditions, ts)
  end.

Fixpoint policies_loop (n : nat) (depth : nat) (index : Z) (ts : list token) :
    res parse_error (list policy) :=
  match n with
  | O => Err RecursionError
  | S n =>
    if is_kind KEof (_peek ts) then Ok []
    else
      let! (p, ts) := _policy depth index ts in
      let! ps := policies_loop n depth (index + 1) ts in
      Ok (p :: ps)
  end.

Definition policies (depth : nat) (ts : list token) : res parse_error (list policy) :=
  let! ps := policies_loop (S (length ts)) depth 0 ts in
  match ps with
  | [] => Err (CedarParseError EmptyPolicySet None)
  | _ => Ok ps
  end.

End parser.
