(* ===== verification/CedarEval.v ===== *)
(** * Cedar: the evaluator

    The interpreter of compiled policies in [_native/cedar.c]: values,
    structural equality, membership in the entity hierarchy, [like], the
    operations of an expression, scopes, and the two authorization loops.  An
    evaluation error belongs to one policy ([Failed]); [Raised] is a Python
    exception, which only an integer outside 64 bits can cause. *)

From stdpp Require Import base sets strings numbers list gmap.
From Stdlib Require Import ZArith Lia.
From S2P Require Import Prelude PyCollections PyText CedarSyntax.
#[local] Open Scope Z_scope.

Definition CEDAR_MAX_DEPTH : Z := 200.

(** ** Values *)

(** A set is a duplicate-free [list], or the [frozenset] of a context that
    needed no conversion. *)
Inductive set_rep : Type := AsList | AsFrozenset.

Inductive value : Type :=
| VBool (b : bool)
| VInt (z : Z)
| VStr (s : pystr)
| VUid (u : uid)
| VSet (rep : set_rep) (items : list value)
| VRecord (fields : list (pystr * value)).

Definition value_of_const (c : const) : value :=
  match c with
  | CBool b => VBool b
  | CInt z => VInt z
  | CStr s => VStr s
  | CUid u => VUid u
  end.

Inductive value_type : Type := TBool | TLong | TString | TEntity | TSet | TRecord.

Definition cedar_type_name (v : value) : value_type :=
  match v with
  | VBool _ => TBool
  | VInt _ => TLong
  | VStr _ => TString
  | VUid _ => TEntity
  | VSet _ _ => TSet
  | VRecord _ => TRecord
  end.

(** What an evaluation error reports. *)
Inductive eval_error : Type :=
| ValueTooDeep
| ExpressionTooDeep
| RequiresBool (operation : pystr) (got : value_type)
| RequiresLong (operation : pystr) (got : value_type)
| Overflowed
| InRequiresEntity (got : value_type)
| InRequiresEntities (got : value_type)
| InRequiresEntityMembers (got : value_type)
| HasRequiresRecord (got : value_type)
| LikeRequiresString (got : value_type)
| IsRequiresEntity (got : value_type)
| SetMethodRequiresSet (got : value_type)
| RequiresSetArgument
| EntityHasNoAttributes (u : uid)
| EntityHasNoAttribute (u : uid) (name : pystr)
| RecordHasNoAttribute (name : pystr)
| AttributeRequiresRecord (got : value_type)
| ConditionNotBool (got : value_type).

Inductive stop : Type :=
| Failed (e : eval_error)
| Raised.

Definition E (A : Type) : Type := res stop A.
Definition cedar_fail {A} (e : eval_error) : E A := Err (Failed e).

(** ** Identity of a value *)

(** The hashable key of [cedar_dedupe_key]; [Kl] and [Kr] hold frozensets. *)
Inductive dedupe_key : Type :=
| Kb (b : bool)
| Ki (z : Z)
| Ks (s : pystr)
| Kt (u : uid)
| Kl (members : list dedupe_key)
| Kr (members : list (pystr * dedupe_key)).

Fixpoint cedar_dedupe_key (v : value) : dedupe_key :=
  match v with
  | VBool b => Kb b
  | VInt z => Ki z
  | VStr s => Ks s
  | VUid u => Kt u
  | VSet _ l => Kl (map cedar_dedupe_key l)
  | VRecord d => Kr (map (fun kv => (kv.1, cedar_dedupe_key (kv.2))) d)
  end.

(** Python's equality of two keys; frozensets are equal when each member of
    one equals a member of the other. *)
Fixpoint key_eqb (a b : dedupe_key) : bool :=
  match a, b with
  | Kb x, Kb y => Bool.eqb x y
  | Ki x, Ki y => x =? y
  | Ks x, Ks y => bool_decide (x = y)
  | Kt x, Kt y => bool_decide (x = y)
  | Kl l, Kl k =>
    forallb (fun x => existsb (key_eqb x) k) l &&
    forallb (fun y => existsb (fun x => key_eqb x y) l) k
  | Kr l, Kr k =>
    forallb (fun x => existsb (fun y => bool_decide (x.1 = y.1) && key_eqb (x.2) (y.2)) k) l &&
    forallb (fun y => existsb (fun x => bool_decide (x.1 = y.1) && key_eqb (x.2) (y.2)) l) k
  | _, _ => false
  end.

Fixpoint cedar_eq (a b : value) (depth : Z) {struct a} : E bool :=
  if CEDAR_MAX_DEPTH <? depth then cedar_fail ValueTooDeep
  else
    match a, b with
    | VBool x, VBool y => Ok (Bool.eqb x y)
    | VInt x, VInt y => Ok (x =? y)
    | VStr x, VStr y => Ok (bool_decide (x = y))
    | VUid x, VUid y => Ok (bool_decide (x = y))
    | VSet _ _, VSet _ _ => Ok (key_eqb (cedar_dedupe_key a) (cedar_dedupe_key b))
    | VRecord d, VRecord d' =>
      if negb (zlen d =? zlen d') then Ok false
      else
        (fix go d : E bool :=
           match d with
           | [] => Ok true
           | (k, v) :: d =>
             match dget d' k with
             | None => Ok false
             | Some w =>
               let! equal := cedar_eq v w (depth + 1) in
               if equal : bool then go d else Ok false
             end
           end) d
    | _, _ => Ok false
    end.

Fixpoint cedar_set_contains (items : list value) (v : value) (depth : Z) : E bool :=
  match items with
  | [] => Ok false
  | item :: items =>
    let! equal := cedar_eq v item depth in
    if equal : bool then Ok true else cedar_set_contains items v depth
  end.

(** ** The entity hierarchy *)

(** [uid -> (attrs, parents)]. *)
Definition store : Type := list (uid * (list (pystr * value) * list uid)).

(** The loop of [cedar_ancestor_matches]: [frontier] from [cursor] on. *)
Fixpoint ancestor_loop (fuel : nat) (st : store) (matches : uid -> bool)
    (frontier seen : list uid) : option bool :=
  match fuel with
  | O => None
  | S fuel =>
    match frontier with
    | [] => Some false
    | parent :: frontier =>
      if matches parent then Some true
      else if bool_decide (parent ∈ seen) then ancestor_loop fuel st matches frontier seen
      else
        ancestor_loop fuel st matches
          (frontier ++ match dget st parent with Some entry => entry.2 | None => [] end)
          (parent :: seen)
    end
  end.

Definition edge_count (st : store) : nat := list_sum (map (fun e => length (e.2.2)) st).

(** One round per parent pushed: those of the start and, once for each entity
    seen, its own. *)
Definition cedar_ancestor_matches (st : store) (u : uid) (matches : uid -> bool) : bool :=
  match dget st u with
  | None => false
  | Some (_, parents) =>
    default false (ancestor_loop (S (length parents + edge_count st)) st matches parents [])
  end.

(** The candidates on the right of [in], in order: an error for the first that
    is no entity, [true] for the first that is the entity itself. *)
Fixpoint in_candidates (u : uid) (l : list value) : E (option (list uid)) :=
  match l with
  | [] => Ok (Some [])
  | VUid c :: l =>
    if bool_decide (c = u) then Ok None
    else
      let! rest := in_candidates u l in
      Ok (match rest with Some cs => Some (c :: cs) | None => None end)
  | v :: _ => cedar_fail (InRequiresEntityMembers (cedar_type_name v))
  end.

Definition cedar_in (st : store) (lhs rhs : value) : E bool :=
  match lhs with
  | VUid u =>
    match rhs with
    | VUid c =>
      if bool_decide (c = u) then Ok true
      else Ok (cedar_ancestor_matches st u (fun p => bool_decide (c = p)))
    | VSet AsList l =>
      let! targets := in_candidates u l in
      match targets with
      | None => Ok true
      | Some cs => Ok (cedar_ancestor_matches st u (fun p => bool_decide (p ∈ cs)))
      end
    | _ => cedar_fail (InRequiresEntities (cedar_type_name rhs))
    end
  | _ => cedar_fail (InRequiresEntity (cedar_type_name lhs))
  end.

(** ** Patterns *)

(** [PyUnicode_Find(value, segment, start, limit)] on the text from [start] to
    [limit]: what follows the first occurrence. *)
Fixpoint find_text (segment s : pystr) : option pystr :=
  if startswith segment s then Some (drop (length segment) s)
  else match s with [] => None | _ :: s => find_text segment s end.

(** The middle segments, in order, in the text between head and tail. *)
Fixpoint like_middle (segments : list pystr) (s : pystr) : bool :=
  match segments with
  | [] => true
  | [] :: segments => like_middle segments s
  | segment :: segments =>
    match find_text segment s with
    | None => false
    | Some rest => like_middle segments rest
    end
  end.

(** [PyUnicode_Tailmatch] at the end of the value. *)
Definition endswith (suffix s : pystr) : bool :=
  (length suffix <=? length s)%nat && bool_decide (drop (length s - length suffix) s = suffix).

Definition cedar_like (v : pystr) (segments : list pystr) : bool :=
  match segments with
  | [] => false
  | [segment] => bool_decide (v = segment)
  | head :: rest =>
    let tail := List.last rest [] in
    let middle := removelast rest in
    startswith head v && endswith tail v &&
    (length head <=? length v - length tail)%nat &&
    like_middle middle
      (take (length v - length tail - length head) (drop (length head) v))
  end.

(** ** Expressions *)

Record request : Type := mk_request {
  r_principal : uid;
  r_action : uid;
  r_resource : uid;
  r_context : list (pystr * value);
  r_store : store }.

Definition var_value (r : request) (v : var) : value :=
  match v with
  | Principal => VUid (r_principal r)
  | Action => VUid (r_action r)
  | Resource => VUid (r_resource r)
  | ContextVar => VRecord (r_context r)
  end.

Definition cedar_eval_getattr (st : store) (operand : value) (name : pystr) : E value :=
  match operand with
  | VUid u =>
    match dget st u with
    | None => cedar_fail (EntityHasNoAttributes u)
    | Some (attrs, _) =>
      match dget attrs name with
      | None => cedar_fail (EntityHasNoAttribute u name)
      | Some v => Ok v
      end
    end
  | VRecord d =>
    match dget d name with
    | None => cedar_fail (RecordHasNoAttribute name)
    | Some v => Ok v
    end
  | _ => cedar_fail (AttributeRequiresRecord (cedar_type_name operand))
  end.

Definition cedar_has (st : store) (operand : value) (name : pystr) : E bool :=
  match operand with
  | VUid u => Ok (match dget st u with Some (attrs, _) => dmem attrs name | None => false end)
  | VRecord d => Ok (dmem d name)
  | _ => cedar_fail (HasRequiresRecord (cedar_type_name operand))
  end.

Definition as_bool (operation : String.string) (v : value) : E bool :=
  match v with
  | VBool b => Ok b
  | _ => cedar_fail (RequiresBool (bs operation) (cedar_type_name v))
  end.

(** [PyLong_AsLongLong] raises outside 64 bits. *)
Definition as_i64 (operation : String.string) (v : value) : E Z :=
  match v with
  | VInt z => if i64 z then Ok z else Err Raised
  | _ => cedar_fail (RequiresLong (bs operation) (cedar_type_name v))
  end.

Definition cedar_arith (o : arith) (x y : Z) : E value :=
  let z := match o with Plus => x + y | Minus => x - y | Times => x * y end in
  if i64 z then Ok (VInt z) else cedar_fail Overflowed.

Definition cedar_compare (o : cmp) (x y : Z) : bool :=
  match o with CmpLt => x <? y | CmpLe => x <=? y | CmpGt => y <? x | CmpGe => y <=? x end.

(** The loop over the argument of [containsAll] and [containsAny]; [all] is
    the outcome that keeps it going. *)
Fixpoint contains_loop (all : bool) (items argument : list value) (depth : Z) : E bool :=
  match argument with
  | [] => Ok all
  | v :: argument =>
    let! outcome := cedar_set_contains items v depth in
    if Bool.eqb outcome all then contains_loop all items argument depth else Ok outcome
  end.

(** The method of a set, its argument evaluated by [argument]. *)
Definition set_method (m : method) (operand : value) (argument : E value) (depth : Z) : E value :=
  match operand with
  | VSet _ items =>
    match m with
    | isEmpty => Ok (VBool (zlen items =? 0))
    | contains =>
      let! v := argument in
      let! found := cedar_set_contains items v depth in Ok (VBool found)
    | containsAll | containsAny =>
      let! v := argument in
      match v with
      | VSet _ k =>
        let! outcome := contains_loop (bool_decide (m = containsAll)) items k depth in
        Ok (VBool outcome)
      | _ => cedar_fail RequiresSetArgument
      end
    end
  | _ => cedar_fail (SetMethodRequiresSet (cedar_type_name operand))
  end.

(** Adding an evaluated item to a set being built: [seen] are the keys. *)
Definition dedupe_step (v : value) (seen : list dedupe_key) (items : list value) :
    list dedupe_key * list value :=
  let key := cedar_dedupe_key v in
  if existsb (key_eqb key) seen then (seen, items) else (key :: seen, items ++ [v]).

Section eval_node.
Context (r : request).

Fixpoint cedar_eval (e : expr) (depth : Z) {struct e} : E value :=
  if CEDAR_MAX_DEPTH <? depth then cedar_fail ExpressionTooDeep
  else
    let eval_bool operation e := let! v := cedar_eval e (depth + 1) in as_bool operation v in
    let eval_i64 operation e := let! v := cedar_eval e (depth + 1) in as_i64 operation v in
    match e with
    | OP_CONST c => Ok (value_of_const c)
    | OP_VAR v => Ok (var_value r v)
    | OP_AND a b =>
      let! x := eval_bool "&&"%string a in
      if x : bool then let! y := eval_bool "&&"%string b in Ok (VBool y) else Ok (VBool false)
    | OP_OR a b =>
      let! x := eval_bool "||"%string a in
      if x : bool then Ok (VBool true) else let! y := eval_bool "||"%string b in Ok (VBool y)
    | OP_NOT a => let! x := eval_bool "!"%string a in Ok (VBool (negb x))
    | OP_ARITH o a b =>
      let! x := eval_i64 "arithmetic"%string a in
      let! y := eval_i64 "arithmetic"%string b in
      cedar_arith o x y
    | OP_CMP o a b =>
      let! x := eval_i64 "comparison"%string a in
      let! y := eval_i64 "comparison"%string b in
      Ok (VBool (cedar_compare o x y))
    | OP_EQ a b =>
      let! x := cedar_eval a (depth + 1) in
      let! y := cedar_eval b (depth + 1) in
      let! equal := cedar_eq x y 0 in Ok (VBool equal)
    | OP_NE a b =>
      let! x := cedar_eval a (depth + 1) in
      let! y := cedar_eval b (depth + 1) in
      let! equal := cedar_eq x y 0 in Ok (VBool (negb equal))
    | OP_IN a b =>
      let! x := cedar_eval a (depth + 1) in
      let! y := cedar_eval b (depth + 1) in
      let! inside := cedar_in (r_store r) x y in Ok (VBool inside)
    | OP_HAS a name =>
      let! x := cedar_eval a (depth + 1) in
      let! present := cedar_has (r_store r) x name in Ok (VBool present)
    | OP_LIKE a segments =>
      let! x := cedar_eval a (depth + 1) in
      match x with
      | VStr s => Ok (VBool (cedar_like s segments))
      | _ => cedar_fail (LikeRequiresString (cedar_type_name x))
      end
    | OP_IS a type ancestor =>
      let! x := cedar_eval a (depth + 1) in
      match x with
      | VUid u =>
        if negb (bool_decide (u.1 = type)) then Ok (VBool false)
        else
          match ancestor with
          | None => Ok (VBool true)
          | Some b =>
            let! y := cedar_eval b (depth + 1) in
            let! inside := cedar_in (r_store r) x y in Ok (VBool inside)
          end
      | _ => cedar_fail (IsRequiresEntity (cedar_type_name x))
      end
    | OP_IF c t f =>
      let! x := eval_bool "if"%string c in
      if x : bool then cedar_eval t (depth + 1) else cedar_eval f (depth + 1)
    | OP_SET items =>
      (fix go items seen acc : E value :=
         match items with
         | [] => Ok (VSet AsList acc)
         | item :: items =>
           let! v := cedar_eval item (depth + 1) in
           let '(seen, acc) := dedupe_step v seen acc in
           go items seen acc
         end) items [] []
    | OP_RECORD entries =>
      (fix go entries acc : E value :=
         match entries with
         | [] => Ok (VRecord acc)
         | (name, item) :: entries =>
           let! v := cedar_eval item (depth + 1) in
           go entries (dset acc name v)
         end) entries []
    | OP_GETATTR a name =>
      let! x := cedar_eval a (depth + 1) in
      cedar_eval_getattr (r_store r) x name
    | OP_METHOD m a argument =>
      let! x := cedar_eval a (depth + 1) in
      set_method m x
        (match argument with Some b => cedar_eval b (depth + 1) | None => Err Raised end) depth
    end.

(** ** Policies *)

Definition cedar_scope_matches (s : scope) (u : uid) : bool :=
  match s with
  | SCOPE_ANY => true
  | SCOPE_EQ t => bool_decide (u = t)
  | SCOPE_IN t =>
    bool_decide (u = t) || cedar_ancestor_matches (r_store r) u (fun p => bool_decide (t = p))
  | SCOPE_IN_SET ts =>
    bool_decide (u ∈ ts) || cedar_ancestor_matches (r_store r) u (fun p => bool_decide (p ∈ ts))
  | SCOPE_IS ty ancestor =>
    bool_decide (u.1 = ty) &&
    match ancestor with
    | None => true
    | Some t =>
      bool_decide (u = t) || cedar_ancestor_matches (r_store r) u (fun p => bool_decide (t = p))
    end
  end.

Fixpoint plan_policy_conditions (cs : list (bool * expr)) : E bool :=
  match cs with
  | [] => Ok true
  | (unless, e) :: cs =>
    let! v := cedar_eval e 0 in
    match v with
    | VBool truth => if Bool.eqb unless truth then Ok false else plan_policy_conditions cs
    | _ => cedar_fail (ConditionNotBool (cedar_type_name v))
    end
  end.

(** Action first, then principal, then resource, then the conditions. *)
Definition plan_policy_satisfied (p : policy) : E bool :=
  if negb (cedar_scope_matches (action_scope p) (r_action r)) then Ok false
  else if negb (cedar_scope_matches (principal_scope p) (r_principal r)) then Ok false
  else if negb (cedar_scope_matches (resource_scope p) (r_resource r)) then Ok false
  else plan_policy_conditions (conditions p).

End eval_node.

(** ** The plan *)

(** [cedar_expr_compile] accepts an expression whose nodes are at most
    [CEDAR_MAX_DEPTH] deep; the argument of [isEmpty] is not looked at. *)
Fixpoint expr_compiles (e : expr) (depth : Z) : bool :=
  (depth <=? CEDAR_MAX_DEPTH) &&
  let sub e := expr_compiles e (depth + 1) in
  let opt a := match a with Some x => expr_compiles x (depth + 1) | None => true end in
  match e with
  | OP_CONST _ | OP_VAR _ => true
  | OP_AND a b | OP_OR a b | OP_EQ a b | OP_NE a b | OP_IN a b
  | OP_ARITH _ a b | OP_CMP _ a b => sub a && sub b
  | OP_NOT a | OP_HAS a _ | OP_LIKE a _ | OP_GETATTR a _ => sub a
  | OP_IS a _ b => sub a && opt b
  | OP_IF c t f => sub c && sub t && sub f
  | OP_SET items => forallb sub items
  | OP_RECORD entries => forallb (fun kv => sub (kv.2)) entries
  | OP_METHOD isEmpty a _ => sub a
  | OP_METHOD _ a b => sub a && match b with Some x => expr_compiles x (depth + 1) | None => false end
  end.

Record plan : Type := mk_plan {
  all : list policy;
  forbids : list policy;
  permits : list policy }.

(** [cedar_compile_plan]: [None] is the [ValueError] for an expression that is
    nested too deeply. *)
Definition cedar_compile_plan (ps : list policy) : option plan :=
  if forallb (fun p => forallb (fun c => expr_compiles (c.2) 0) (conditions p)) ps then
    Some (mk_plan ps (List.filter forbid ps) (List.filter (fun p => negb (forbid p)) ps))
  else None.

(** ** Decisions *)

Inductive diagnostic : Type :=
| Matched (effect : bool) (id : pystr)
| Skipped (effect : bool) (id : pystr) (e : eval_error).

Inductive reason : Type := NoPermit | CedarPermit | ExplicitForbid.

#[global] Instance reason_eq_dec : EqDecision reason.
Proof. solve_decision. Defined.

(** The loop of [cedar_authorize_plan_diagnostic] over [plan->all]. *)
Fixpoint diagnostic_loop (r : request) (ps : list policy) (permitted forbidden : bool)
    (diagnostics : list diagnostic) : E (bool * bool * list diagnostic) :=
  match ps with
  | [] => Ok (permitted, forbidden, diagnostics)
  | p :: ps =>
    match plan_policy_satisfied r p with
    | Err Raised => Err Raised
    | Err (Failed e) =>
      diagnostic_loop r ps permitted forbidden (diagnostics ++ [Skipped (forbid p) (policy_id p) e])
    | Ok false => diagnostic_loop r ps permitted forbidden diagnostics
    | Ok true =>
      diagnostic_loop r ps (if forbid p then permitted else true)
        (if forbid p then true else forbidden)
        (diagnostics ++ [Matched (forbid p) (policy_id p)])
    end
  end.

Record decision : Type := AuthorizationDecision {
  allowed : bool;
  decision_reason : reason;
  diagnostics : list diagnostic }.

Definition authorize_plan_diagnostic (pl : plan) (r : request) : E decision :=
  let! (permitted, forbidden, ds) := diagnostic_loop r (all pl) false false [] in
  Ok (AuthorizationDecision (negb (forbidden || negb permitted))
        (if forbidden : bool then ExplicitForbid else if permitted : bool then CedarPermit else NoPermit) ds).

(** The first policy of a list that is satisfied, skipping those that fail. *)
Fixpoint first_satisfied (r : request) (ps : list policy) : E bool :=
  match ps with
  | [] => Ok false
  | p :: ps =>
    match plan_policy_satisfied r p with
    | Err Raised => Err Raised
    | Err (Failed _) | Ok false => first_satisfied r ps
    | Ok true => Ok true
    end
  end.

Definition authorize_plan_one (pl : plan) (r : request) : E (bool * reason) :=
  let! f := first_satisfied r (forbids pl) in
  if f : bool then Ok (false, ExplicitForbid)
  else
    let! p := first_satisfied r (permits pl) in
    if p : bool then Ok (true, CedarPermit) else Ok (false, NoPermit).

(** [cedar_plan_denial]: [None] when the request is allowed. *)
Definition plan_denial (pl : plan) (r : request) : E (option reason) :=
  let! (a, why) := authorize_plan_one pl r in
  Ok (if a : bool then None else Some why).

Definition with_resource (r : request) (u : uid) : request :=
  mk_request (r_principal r) (r_action r) u (r_context r) (r_store r).

(** The two batch loops. *)
Fixpoint is_authorized_many {A} (one : request -> E A) (ok : A -> bool) (r : request)
    (resources : list uid) (stop_on_denied : bool) : E (list A) :=
  match resources with
  | [] => Ok []
  | u :: resources =>
    let! d := one (with_resource r u) in
    if stop_on_denied && negb (ok d) then Ok [d]
    else
      let! ds := is_authorized_many one ok r resources stop_on_denied in
      Ok (d :: ds)
  end.
