(* ===== verification/CedarEvalFacts.v ===== *)
(** * Cedar: facts about evaluation

    Equations of the evaluator on sets and records, the range of the integers
    it computes, and that it raises no Python exception on a well-formed
    program. *)

From stdpp Require Import base sets strings numbers list gmap relations.
From Stdlib Require Import ZArith Lia.
From S2P Require Import Prelude PyCollections PyText CedarSyntax CedarLexer CedarEval.
#[local] Open Scope Z_scope.

(** ** Induction over values *)

Section value_induction.
Context (Q : value -> Prop).
Context (Hb : forall b, Q (VBool b)) (Hi : forall z, Q (VInt z)) (Hs : forall s, Q (VStr s)).
Context (Hu : forall u, Q (VUid u)).
Context (Hset : forall rep l, Forall Q l -> Q (VSet rep l)).
Context (Hrec : forall d, Forall (fun kv => Q (kv.2)) d -> Q (VRecord d)).

Fixpoint value_ind_nested (v : value) : Q v :=
  match v with
  | VBool b => Hb b
  | VInt z => Hi z
  | VStr s => Hs s
  | VUid u => Hu u
  | VSet rep l =>
    Hset rep l ((fix go l : Forall Q l :=
      match l with
      | [] => ListDef.Forall_nil _
      | x :: l => ListDef.Forall_cons _ x l (value_ind_nested x) (go l)
      end) l)
  | VRecord d =>
    Hrec d ((fix go d : Forall (fun kv => Q (kv.2)) d :=
      match d with
      | [] => ListDef.Forall_nil _
      | (k, x) :: d => ListDef.Forall_cons _ (k, x) d (value_ind_nested x) (go d)
      end) d)
  end.
End value_induction.

(** ** The loops inside the evaluator, named *)

Section loops.
Context (r : request) (depth : Z).

Fixpoint eval_items (items : list expr) (seen : list dedupe_key) (acc : list value) : E value :=
  match items with
  | [] => Ok (VSet AsList acc)
  | item :: items =>
    let! v := cedar_eval r item (depth + 1) in
    let '(seen, acc) := dedupe_step v seen acc in
    eval_items items seen acc
  end.

Fixpoint eval_entries (entries : list (pystr * expr)) (acc : list (pystr * value)) : E value :=
  match entries with
  | [] => Ok (VRecord acc)
  | (name, item) :: entries =>
    let! v := cedar_eval r item (depth + 1) in
    eval_entries entries (dset acc name v)
  end.

Lemma cedar_eval_set items :
  cedar_eval r (OP_SET items) depth =
  if CEDAR_MAX_DEPTH <? depth then cedar_fail ExpressionTooDeep else eval_items items [] [].
Proof.
  cbn [cedar_eval]. destruct (CEDAR_MAX_DEPTH <? depth); [done|].
  generalize (@nil dedupe_key), (@nil value).
  induction items as [|x items IH]; intros seen acc; [done|]. cbn [eval_items].
  destruct (cedar_eval r x (depth + 1)) as [v|]; cbn [res_bind]; [|done].
  destruct (dedupe_step v seen acc). apply IH.
Qed.

Lemma cedar_eval_record entries :
  cedar_eval r (OP_RECORD entries) depth =
  if CEDAR_MAX_DEPTH <? depth then cedar_fail ExpressionTooDeep else eval_entries entries [].
Proof.
  cbn [cedar_eval]. destruct (CEDAR_MAX_DEPTH <? depth); [done|].
  generalize (@nil (pystr * value)).
  induction entries as [|[k x] entries IH]; intros acc; [done|]. cbn [eval_entries].
  destruct (cedar_eval r x (depth + 1)); cbn [res_bind]; [|done]. apply IH.
Qed.
End loops.

(** ** 64-bit integers *)

Fixpoint value_i64 (v : value) : bool :=
  match v with
  | VInt z => i64 z
  | VSet _ l => forallb value_i64 l
  | VRecord d => forallb (fun kv => value_i64 (kv.2)) d
  | _ => true
  end.

Definition fields_i64 (d : list (pystr * value)) : bool := forallb (fun kv => value_i64 (kv.2)) d.

Definition request_i64 (r : request) : bool :=
  fields_i64 (r_context r) && forallb (fun e => fields_i64 (e.2.1)) (r_store r).

(** The literals a policy can write: the least 64-bit integer is not one. *)
Definition literal_range (z : Z) : bool := (- _I64_MAX <=? z) && (z <=? _I64_MAX).

Lemma literal_range_i64 z : literal_range z = true -> i64 z = true.
Proof. unfold literal_range, i64, _I64_MIN, _I64_MAX. lia. Qed.

(** Constants fit, a method has the argument it takes, a pattern has a segment,
    and the keys of a record are distinct. *)
Fixpoint expr_ok (e : expr) : bool :=
  match e with
  | OP_CONST (CInt z) => literal_range z
  | OP_CONST _ | OP_VAR _ => true
  | OP_AND a b | OP_OR a b | OP_EQ a b | OP_NE a b | OP_IN a b
  | OP_ARITH _ a b | OP_CMP _ a b => expr_ok a && expr_ok b
  | OP_NOT a | OP_HAS a _ | OP_GETATTR a _ => expr_ok a
  | OP_LIKE a segments => expr_ok a && negb (bool_decide (segments = []))
  | OP_IS a _ b => expr_ok a && match b with Some x => expr_ok x | None => true end
  | OP_IF c t f => expr_ok c && expr_ok t && expr_ok f
  | OP_SET items => forallb expr_ok items
  | OP_RECORD entries =>
    forallb (fun kv => expr_ok (kv.2)) entries && bool_decide (NoDup (map fst entries))
  | OP_METHOD isEmpty a b => expr_ok a && match b with Some _ => false | None => true end
  | OP_METHOD _ a b => expr_ok a && match b with Some x => expr_ok x | None => false end
  end.

Definition policy_ok (p : policy) : bool := forallb (fun c => expr_ok (c.2)) (conditions p).

Lemma dget_fields_i64 d k v : fields_i64 d = true -> dget d k = Some v -> value_i64 v = true.
Proof.
  intros H G. apply dget_elem in G.
  exact (forallb_elem (fun kv => value_i64 (kv.2)) d (k, v) H G).
Qed.

Lemma dset_fields_i64 d k v :
  fields_i64 d = true -> value_i64 v = true -> fields_i64 (dset d k v) = true.
Proof.
  unfold fields_i64. intros Hd Hv. induction d as [|[j w] d IH]; cbn [dset forallb snd];
    [rewrite Hv; done|].
  cbn [forallb snd] in Hd. apply andb_prop in Hd as [H1 H2].
  destruct (decide (j = k)); cbn [forallb snd]; [by rewrite Hv, H2|]. by rewrite H1, IH.
Qed.

Lemma store_attrs_i64 (st : store) u attrs ps :
  forallb (fun e => fields_i64 (e.2.1)) st = true -> dget st u = Some (attrs, ps) ->
  fields_i64 attrs = true.
Proof.
  intros H G. apply dget_elem in G.
  exact (forallb_elem (fun e : uid * (list (pystr * value) * list uid) => fields_i64 (e.2.1))
           st (u, (attrs, ps)) H G).
Qed.

(** Neither an exception nor an integer outside the range. *)
Definition tame (c : E value) : Prop :=
  match c with
  | Ok v => value_i64 v = true
  | Err (Failed _) => True
  | Err Raised => False
  end.

Definition no_raise {A} (c : E A) : Prop := c <> Err Raised.

Lemma tame_bind {A} (c : E A) (k : A -> E value) :
  no_raise c -> (forall a, c = Ok a -> tame (k a)) -> tame (res_bind c k).
Proof.
  unfold no_raise. destruct c as [a|[e|]]; cbn; [intros _ H; by apply H|done|done].
Qed.

Lemma tame_no_raise c : tame c -> no_raise c.
Proof. unfold no_raise. destruct c as [v|[e|]]; cbn; done. Qed.

Lemma tame_value c v : tame c -> c = Ok v -> value_i64 v = true.
Proof. by intros H ->. Qed.

Lemma no_raise_bind {A B} (c : E A) (k : A -> E B) :
  no_raise c -> (forall a, c = Ok a -> no_raise (k a)) -> no_raise (res_bind c k).
Proof. unfold no_raise. destruct c as [a|[e|]]; cbn; [intros _ H; by apply H|done|done]. Qed.

Lemma no_raise_ok {A} (a : A) : no_raise (Ok a).
Proof. done. Qed.

Lemma no_raise_fail {A} e : no_raise (cedar_fail (A:=A) e).
Proof. done. Qed.

Create HintDb cedar.
#[export] Hint Resolve no_raise_ok no_raise_fail tame_no_raise : cedar.

Lemma cedar_eq_no_raise a b depth : no_raise (cedar_eq a b depth).
Proof.
  revert b depth. induction a using value_ind_nested; intros c depth; cbn [cedar_eq];
    destruct (CEDAR_MAX_DEPTH <? depth); auto with cedar; destruct c; auto with cedar.
  destruct (negb (zlen d =? zlen fields)); auto with cedar.
  induction d as [|[k v] d IHd]; [done|]. inversion H as [|? ? Hv Hd]; subst.
  destruct (dget fields k); auto with cedar.
  apply no_raise_bind; [apply Hv|]. intros [] _; auto with cedar.
Qed.

Lemma set_contains_no_raise items v depth : no_raise (cedar_set_contains items v depth).
Proof.
  induction items as [|x items IH]; cbn; [done|].
  apply no_raise_bind; [apply cedar_eq_no_raise|]. intros [] _; auto with cedar.
Qed.

Lemma contains_loop_no_raise all items k depth : no_raise (contains_loop all items k depth).
Proof.
  induction k as [|x k IH]; cbn; [done|].
  apply no_raise_bind; [apply set_contains_no_raise|]. intros o _. by destruct (Bool.eqb o all).
Qed.

Lemma in_candidates_no_raise u l : no_raise (in_candidates u l).
Proof.
  induction l as [|[] l IH]; try done; cbn.
  case_bool_decide; [done|]. by apply no_raise_bind.
Qed.

Lemma cedar_in_no_raise st x y : no_raise (cedar_in st x y).
Proof.
  destruct x as [| | |u| |]; try done. destruct y as [| | |c|[] l|]; try done; cbn.
  - by case_bool_decide.
  - apply no_raise_bind; [apply in_candidates_no_raise|by intros [] _].
Qed.

Lemma as_bool_no_raise op v : no_raise (as_bool op v).
Proof. by destruct v. Qed.

Lemma as_i64_no_raise op v : value_i64 v = true -> no_raise (as_i64 op v).
Proof. destruct v; cbn; auto with cedar. by intros ->. Qed.

Lemma cedar_arith_tame o x y : tame (cedar_arith o x y).
Proof. unfold cedar_arith. destruct (i64 _) eqn:H; cbn; [exact H|done]. Qed.

Lemma value_of_const_i64 c : expr_ok (OP_CONST c) = true -> value_i64 (value_of_const c) = true.
Proof. destruct c; cbn; try done. apply literal_range_i64. Qed.

Lemma getattr_tame st v name :
  forallb (fun e => fields_i64 (e.2.1)) st = true -> value_i64 v = true ->
  tame (cedar_eval_getattr st v name).
Proof.
  intros Hst Hv. destruct v as [| | |u| |d]; cbn; try done.
  - destruct (dget st u) as [[attrs ps]|] eqn:E; [|done].
    destruct (dget attrs name) eqn:E'; [|done]. cbn.
    eapply dget_fields_i64; [|exact E']. by eapply store_attrs_i64.
  - destruct (dget d name) eqn:E; [|done]. by eapply dget_fields_i64.
Qed.

Lemma set_method_tame m x arg depth :
  (m <> isEmpty -> tame arg) -> tame (set_method m x arg depth).
Proof.
  intros Ha. unfold set_method. destruct x; try done.
  destruct m; cbn; try done; (apply tame_bind; [by apply tame_no_raise, Ha|]); intros v _.
  - apply tame_bind; [apply set_contains_no_raise|done].
  - destruct v; try done. apply tame_bind; [apply contains_loop_no_raise|done].
  - destruct v; try done. apply tame_bind; [apply contains_loop_no_raise|done].
Qed.


Lemma eval_items_tame r depth items seen acc :
  (forall e, e ∈ items -> tame (cedar_eval r e (depth + 1))) ->
  forallb value_i64 acc = true -> tame (eval_items r depth items seen acc).
Proof.
  revert seen acc. induction items as [|x items IH]; intros seen acc Hi Hacc; cbn [eval_items]; [done|].
  apply tame_bind; [apply tame_no_raise, Hi; set_solver|]. intros v Hv.
  destruct (dedupe_step v seen acc) as [seen' acc'] eqn:E. apply IH; [set_solver|].
  unfold dedupe_step in E. destruct (existsb _ _); injection E as <- <-; [done|].
  rewrite forallb_app, Hacc. cbn. rewrite (tame_value _ v (Hi x ltac:(set_solver)) Hv). done.
Qed.

Lemma eval_entries_tame r depth entries acc :
  (forall k e, (k, e) ∈ entries -> tame (cedar_eval r e (depth + 1))) ->
  fields_i64 acc = true -> tame (eval_entries r depth entries acc).
Proof.
  revert acc. induction entries as [|[k x] entries IH]; intros acc Hi Hacc; cbn [eval_entries]; [done|].
  apply tame_bind; [apply tame_no_raise, (Hi k); set_solver|]. intros v Hv.
  apply IH; [set_solver|]. apply dset_fields_i64; [done|].
  apply (tame_value _ v (Hi k x ltac:(set_solver)) Hv).
Qed.

(** Operands that behave, read as a Boolean or as an integer. *)
Lemma eval_as_bool c op k : tame c -> (forall b, tame (k b)) ->
  tame (let! x := (let! v := c in as_bool op v) in k x).
Proof.
  intros Hc Hk. apply tame_bind; [|auto].
  apply no_raise_bind; [by apply tame_no_raise|]. intros; apply as_bool_no_raise.
Qed.

Lemma eval_as_i64 c op k : tame c -> (forall z, tame (k z)) ->
  tame (let! x := (let! v := c in as_i64 op v) in k x).
Proof.
  intros Hc Hk. apply tame_bind; [|auto].
  apply no_raise_bind; [by apply tame_no_raise|]. intros v Hv. apply as_i64_no_raise.
  by eapply tame_value.
Qed.

Lemma eval_then c k : tame c -> (forall v, value_i64 v = true -> tame (k v)) ->
  tame (let! x := c in k x).
Proof.
  intros Hc Hk. apply tame_bind; [by apply tame_no_raise|]. intros v Hv.
  apply Hk. by eapply tame_value.
Qed.

Lemma bool_result_tame {A} (c : E A) f : no_raise c -> tame (let! x := c in Ok (VBool (f x))).
Proof. intros Hc. by apply tame_bind. Qed.

Lemma tame_vbool b : tame (Ok (VBool b)).
Proof. done. Qed.

Lemma cedar_has_no_raise st v name : no_raise (cedar_has st v name).
Proof. by destruct v. Qed.

#[export] Hint Resolve cedar_eq_no_raise cedar_in_no_raise cedar_has_no_raise cedar_arith_tame
  bool_result_tame tame_vbool value_of_const_i64 getattr_tame : cedar.

(** Every step of the evaluator, by induction on the expression. *)
Lemma cedar_eval_tame r e depth :
  request_i64 r = true -> expr_ok e = true -> tame (cedar_eval r e depth).
Proof.
  unfold request_i64. intros [Hc Hst]%andb_prop. revert depth.
  induction e using expr_ind_nested; intros depth He;
    rewrite ?cedar_eval_set, ?cedar_eval_record; cbn [cedar_eval];
    destruct (CEDAR_MAX_DEPTH <? depth); try done; cbn [expr_ok] in He;
    repeat match goal with H : _ && _ = true |- _ => apply andb_prop in H as [? ?] end;
    try solve [apply eval_as_bool; [auto|]; intros []; try apply eval_as_bool; auto with cedar
              |apply eval_as_i64; [auto|]; intros ?; apply eval_as_i64; auto with cedar
              |apply eval_then; [auto|]; intros x Hx; try apply eval_then; auto with cedar].
  - by apply value_of_const_i64.
  - by destruct v.
  - apply eval_then; [auto|]. by intros [].
  - apply eval_then; [auto|]. intros [] Hx; try done.
    destruct (negb _); [done|]. destruct a as [b|]; [|done].
    apply eval_then; [auto|]. auto with cedar.
  - apply eval_items_tame; [|done]. intros x Hx. rewrite Forall_forall in H. apply H; [done|].
    by eapply forallb_elem.
  - apply eval_entries_tame; [|done]. intros k x Hx. rewrite Forall_forall in H.
    apply (H (k, x)); [done|]. by apply (forallb_elem (fun kv => expr_ok (kv.2)) l (k, x)).
  - destruct m; apply andb_prop in He as [He Ha]; (apply eval_then; [by apply IHe|]);
      intros x Hx; apply set_method_tame; intros Hm; try done; (destruct a as [b|]; [auto|done]).
Qed.

Lemma conditions_no_raise r cs :
  request_i64 r = true -> forallb (fun c => expr_ok (c.2)) cs = true ->
  no_raise (plan_policy_conditions r cs).
Proof.
  intros Hr. induction cs as [|[u e] cs IH]; cbn; [done|]. intros [He Hcs]%andb_prop.
  apply no_raise_bind; [by apply tame_no_raise, cedar_eval_tame|].
  intros [] _; try done. destruct (Bool.eqb u b); [done|]. by apply IH.
Qed.

Lemma policy_no_raise r p :
  request_i64 r = true -> policy_ok p = true -> no_raise (plan_policy_satisfied r p).
Proof.
  intros Hr Hp. unfold plan_policy_satisfied.
  repeat (case_match; [done|]). by apply conditions_no_raise.
Qed.

(** ** The depth of an expression that compiles *)

Lemma expr_compiles_depth e depth : expr_compiles e depth = true -> depth <= CEDAR_MAX_DEPTH.
Proof. destruct e; cbn [expr_compiles]; intros [? _]%andb_prop; lia. Qed.

(** ** Cedar: [in] and [like]

    The entity hierarchy: [cedar_ancestor_matches] walks the parents breadth first.  It ends on any
    store, cyclic ones included, and finds exactly the entities reachable by
    one or more parent links.  Then patterns. *)

(** A parent named by the entry of [u]. *)
Definition parent_of (st : store) (u p : uid) : Prop :=
  exists attrs ps, dget st u = Some (attrs, ps) /\ p ∈ ps.

Definition parents (st : store) (u : uid) : list uid :=
  match dget st u with Some entry => entry.2 | None => [] end.

Lemma parents_spec st u p : p ∈ parents st u <-> parent_of st u p.
Proof.
  unfold parents, parent_of. destruct (dget st u) as [[attrs ps]|] eqn:E; cbn.
  - split; [by eauto|]. by intros (a & q & [= <- <-] & ?).
  - split; [by intros ?%elem_of_nil|]. by intros (a & q & ? & ?).
Qed.

Lemma parents_store st st' u : dget st u = dget st' u -> parents st u = parents st' u.
Proof. unfold parents. by intros ->. Qed.

(** *** Enough fuel *)

Definition parent_edges (st : store) : list (uid * list uid) := map (fun e => (e.1, e.2.2)) st.

Lemma parent_edges_count st :
  unseen_edges (parent_edges st) [] = edge_count st.
Proof. rewrite unseen_edges_nil. unfold parent_edges, edge_count. by rewrite map_map. Qed.

Lemma parent_edges_get st u : default [] (dget (parent_edges st) u) = parents st u.
Proof. unfold parents. induction st as [|[v [d ps]] st IH]; [done|]. cbn. by case_decide. Qed.

Lemma ancestor_loop_total fuel st f frontier seen :
  (length frontier + unseen_edges (parent_edges st) seen < fuel)%nat ->
  is_Some (ancestor_loop fuel st f frontier seen).
Proof.
  revert frontier seen. induction fuel as [|fuel IH]; intros frontier seen Hf; [lia|].
  cbn -[bool_decide]. destruct frontier as [|p frontier]; [by eexists|]. cbn in Hf.
  destruct (f p); [by eexists|]. case_bool_decide as Hs; [apply IH; lia|].
  apply IH. fold (parents st p). pose proof (unseen_edges_add (parent_edges st) seen p Hs) as Hadd.
  rewrite parent_edges_get in Hadd.
  rewrite length_app. lia.
Qed.

(** *** What the walk finds *)

Lemma ancestor_loop_true fuel st f frontier seen :
  ancestor_loop fuel st f frontier seen = Some true ->
  exists x p, x ∈ frontier /\ rtc (parent_of st) x p /\ f p = true.
Proof.
  revert frontier seen. induction fuel as [|fuel IH]; intros frontier seen; [done|].
  cbn -[bool_decide]. destruct frontier as [|q frontier]; [done|].
  destruct (f q) eqn:E; [intros _; exists q, q; split_and!; [set_solver|done|done]|].
  case_bool_decide.
  - intros (x & p & ? & ?)%IH. exists x, p. set_solver.
  - intros (x & p & Hx & Hr & Hf)%IH. fold (parents st q) in Hx.
    apply elem_of_app in Hx as [Hx|Hx]; [exists x, p; set_solver|].
    exists q, p. split_and!; [set_solver| |done]. eapply rtc_l; [|done]. by apply parents_spec.
Qed.

(** A set closed under a relation holds what is reachable from it. *)
Lemma closed_rtc {A} (R : relation A) (S : list A) x p :
  (forall y, y ∈ S -> forall q, R y q -> q ∈ S) -> rtc R x p -> x ∈ S -> p ∈ S.
Proof. intros HS. induction 1; eauto. Qed.

Lemma ancestor_loop_false fuel st f frontier seen :
  ancestor_loop fuel st f frontier seen = Some false ->
  (forall s, s ∈ seen -> f s = false) ->
  (forall s, s ∈ seen -> forall p, parent_of st s p -> p ∈ frontier ++ seen) ->
  forall x p, x ∈ frontier ++ seen -> rtc (parent_of st) x p -> f p = false.
Proof.
  revert frontier seen. induction fuel as [|fuel IH]; intros frontier seen; [done|].
  cbn -[bool_decide]. destruct frontier as [|q frontier].
  - intros _ Hf Hc x p Hx Hr. apply Hf. eapply (closed_rtc (parent_of st)); [|exact Hr|exact Hx]. apply Hc.
  - destruct (f q) eqn:E; [done|]. case_bool_decide as Hs.
    + intros H Hf Hc x p Hx Hr. apply (IH _ _ H Hf) with (x := x); [|set_solver|exact Hr].
      intros s ? p' ?. specialize (Hc s ltac:(done) p' ltac:(done)). set_solver.
    + fold (parents st q). intros H Hf Hc x p Hx Hr. apply (IH _ _ H) with (x := x); [| |set_solver|exact Hr].
      * intros s [->|?]%elem_of_cons; auto.
      * intros s [->|Hin]%elem_of_cons p' Hp; [apply parents_spec in Hp; set_solver|].
        specialize (Hc s Hin p' Hp). set_solver.
Qed.

Lemma tc_first {A} (R : relation A) x p : tc R x p -> exists y, R x y /\ rtc R y p.
Proof. induction 1; eauto using rtc_refl, tc_rtc. Qed.

Lemma ancestor_matches_spec st u f :
  cedar_ancestor_matches st u f = true <-> exists p, tc (parent_of st) u p /\ f p = true.
Proof.
  unfold cedar_ancestor_matches. destruct (dget st u) as [[attrs ps]|] eqn:E.
  - destruct (ancestor_loop_total (S (length ps + edge_count st)) st f ps []) as [b Hb].
    { rewrite parent_edges_count. lia. }
    rewrite Hb. cbn. split.
    + intros ->. apply ancestor_loop_true in Hb as (x & p & Hx & Hr & Hf).
      exists p. split; [|done]. eapply tc_rtc_r; [|exact Hr]. apply tc_once. by exists attrs, ps.
    + intros (p & Hp & Hf). destruct b; [done|].
      apply tc_first in Hp as (x & (a & q & Hd & Hx) & Hr). simplify_eq.
      rewrite (ancestor_loop_false _ _ _ _ _ Hb) with (x := x) in Hf; [done|set_solver..|done].
  - split; [done|]. intros (p & Hp & _). apply tc_first in Hp as (x & (a & q & ? & ?) & _).
    simplify_eq.
Qed.

(** *** Cedar: patterns

    [_pattern_segments] at startup and [cedar_like] at a request, against the
    meaning of a pattern: a star matches any text, every other character (and
    an escaped star) matches itself. *)

(** *** The meaning of a pattern *)

Inductive atom : Type := Lit (c : Z) | Any.

(** The characters of a pattern as the lexer leaves it. *)
Fixpoint pattern_atoms (p : pystr) : list atom :=
  match p with
  | [] => []
  | a :: rest =>
    match rest with
    | b :: rest' =>
      if (a =? backslash) && (b =? star) then Lit star :: pattern_atoms rest'
      else (if a =? star then Any else Lit a) :: pattern_atoms rest
    | [] => [if a =? star then Any else Lit a]
    end
  end.

Inductive wild : list atom -> pystr -> Prop :=
| wild_nil : wild [] []
| wild_lit c p v : wild p v -> wild (Lit c :: p) (c :: v)
| wild_any p x v : wild p v -> wild (Any :: p) (x ++ v).

Lemma wild_lits s p v : wild (map Lit s ++ p) v <-> exists k, v = s ++ k /\ wild p k.
Proof.
  revert v. induction s as [|c s IH]; intros v; cbn.
  - split; [eauto|]. by intros (k & -> & ?).
  - split.
    + inversion 1; subst. apply IH in H3 as (k & -> & ?). by exists k.
    + intros (k & -> & ?). apply wild_lit, IH. eauto.
Qed.

Lemma wild_any_iff p v : wild (Any :: p) v <-> exists x k, v = x ++ k /\ wild p k.
Proof.
  split; [inversion 1; subst; eauto|]. intros (x & k & -> & ?). by apply wild_any.
Qed.

(** *** Segments *)

Fixpoint segment_atoms (segments : list pystr) : list atom :=
  match segments with
  | [] => []
  | [s] => map Lit s
  | s :: segments => map Lit s ++ Any :: segment_atoms segments
  end.

Lemma segment_atoms_cons s segments :
  segments <> [] -> segment_atoms (s :: segments) = map Lit s ++ Any :: segment_atoms segments.
Proof. by destruct segments. Qed.

Lemma pattern_loop_cons current a b p :
  pattern_loop current (a :: b :: p) =
  if (a =? backslash) && (b =? star) then pattern_loop (current ++ [star]) p
  else if a =? star then current :: pattern_loop [] (b :: p)
  else pattern_loop (current ++ [a]) (b :: p).
Proof. done. Qed.

Lemma pattern_atoms_cons a b p :
  pattern_atoms (a :: b :: p) =
  if (a =? backslash) && (b =? star) then Lit star :: pattern_atoms p
  else (if a =? star then Any else Lit a) :: pattern_atoms (b :: p).
Proof. done. Qed.

Lemma pattern_loop_ne current p : pattern_loop current p <> [].
Proof.
  revert current. induction p as [p IH] using (induction_ltof1 _ (@length Z)); intros current.
  destruct p as [|a [|b p]]; [done|cbn; by case_match|]. rewrite pattern_loop_cons.
  case_match; [apply IH; unfold ltof; cbn; lia|].
  case_match; [done|apply IH; unfold ltof; cbn; lia].
Qed.

Lemma pattern_loop_atoms current p :
  segment_atoms (pattern_loop current p) = map Lit current ++ pattern_atoms p.
Proof.
  revert current. induction p as [p IH] using (induction_ltof1 _ (@length Z)); intros current.
  destruct p as [|a [|b p]].
  - cbn. by rewrite app_nil_r.
  - cbn. case_match; cbn; [done|by rewrite map_app].
  - rewrite pattern_loop_cons, pattern_atoms_cons. case_match; [rewrite IH by (unfold ltof; cbn; lia); by rewrite map_app, <- app_assoc|].
    case_match.
    + rewrite segment_atoms_cons by apply pattern_loop_ne.
      rewrite IH by (unfold ltof; cbn; lia). done.
    + rewrite IH by (unfold ltof; cbn; lia). by rewrite map_app, <- app_assoc.
Qed.

(** *** The middle segments *)

(** The segments occur in order, apart from each other. *)
Fixpoint in_order (segments : list pystr) (m : pystr) : Prop :=
  match segments with
  | [] => True
  | s :: segments => exists x k, m = x ++ s ++ k /\ in_order segments k
  end.

Lemma in_order_more segments y m : in_order segments m -> in_order segments (y ++ m).
Proof.
  destruct segments as [|s segments]; [done|]. intros (x & k & -> & H).
  exists (y ++ x), k. by rewrite <- app_assoc.
Qed.

Lemma find_text_some s m rest : find_text s m = Some rest -> exists x, m = x ++ s ++ rest.
Proof.
  induction m as [|c m IH]; cbn.
  - destruct (startswith s []) eqn:E; [|done]. apply startswith_spec in E as [k Hk].
    destruct s; [|done]. intros [= <-]. by exists [].
  - destruct (startswith s (c :: m)) eqn:E.
    + apply startswith_spec in E as [k Hk]. rewrite Hk, drop_app_length.
      intros [= <-]. by exists [].
    + intros [x ->]%IH. by exists (c :: x).
Qed.

(** The first occurrence leaves the longest rest. *)
Lemma find_text_first s m x k :
  m = x ++ s ++ k -> exists y, find_text s m = Some (y ++ k).
Proof.
  revert m. induction x as [|c x IH]; intros m ->.
  - assert (startswith s (s ++ k) = true) as E by (apply startswith_spec; eauto).
    exists []. destruct s as [|a s]; [by destruct k|]. cbn [app find_text] in *.
    rewrite E. cbn. by rewrite drop_app_length.
  - destruct (startswith s ((c :: x) ++ s ++ k)) eqn:E.
    + exists (take (length (c :: x)) (drop (length s) ((c :: x) ++ s ++ k))).
      cbn [app find_text] in *. rewrite E. f_equal.
      apply startswith_spec in E as [j Hj]. rewrite Hj, drop_app_length.
      rewrite <- (take_drop (length (c :: x)) j) at 1. f_equal.
      assert (length (c :: x ++ s ++ k) = length (s ++ j)) as HL by (f_equal; done).
      rewrite !length_cons, !length_app in HL.
      assert (s ++ j = (s ++ take (S (length x)) j) ++ drop (S (length x)) j) as Hs
        by (by rewrite <- app_assoc, take_drop).
      rewrite Hs in Hj. replace (c :: x ++ s ++ k) with ((c :: x ++ s) ++ k) in Hj
        by (cbn; by rewrite <- app_assoc).
      apply app_inj_2 in Hj; [by destruct Hj|]. rewrite length_drop. lia.
    + destruct (IH (x ++ s ++ k) eq_refl) as [y Hy]. exists y.
      cbn [app find_text] in *. by rewrite E.
Qed.

Lemma like_middle_spec segments m : like_middle segments m = true <-> in_order segments m.
Proof.
  revert m. induction segments as [|s segments IH]; intros m; cbn; [done|].
  destruct s as [|c s].
  - rewrite IH. split.
    + intros H. by exists [], m.
    + intros (x & k & -> & H). by apply in_order_more.
  - remember (c :: s) as s'. split.
    + destruct (find_text s' m) as [rest|] eqn:E; [|done]. intros H%IH.
      apply find_text_some in E as [x ->]. by exists x, rest.
    + intros (x & k & Hm & H). destruct (find_text_first s' m x k Hm) as [y ->].
      apply IH. by apply in_order_more.
Qed.

(** *** Head and tail *)

Lemma wild_middle mid tail v :
  wild (Any :: segment_atoms (mid ++ [tail])) v <-> exists m, v = m ++ tail /\ in_order mid m.
Proof.
  revert v. induction mid as [|s mid IH]; intros v; cbn [app in_order].
  - cbn. rewrite wild_any_iff. setoid_rewrite <- (app_nil_r (map Lit tail)) at 1.
    setoid_rewrite wild_lits. split.
    + intros (x & k & -> & j & -> & H). inversion H; subst. rewrite app_nil_r. eauto.
    + intros (m & -> & _). exists m, tail. split; [done|]. exists []. rewrite app_nil_r.
      split; [done|constructor].
  - rewrite segment_atoms_cons by (by destruct mid). rewrite wild_any_iff.
    setoid_rewrite wild_lits. setoid_rewrite IH. split.
    + intros (x & k & -> & j & -> & m & -> & H). exists (x ++ s ++ m).
      rewrite <- !app_assoc. eauto 6.
    + intros (m & -> & x & k & -> & H). exists x, (s ++ k ++ tail).
      rewrite <- !app_assoc. eauto 8.
Qed.

Lemma endswith_spec suffix s : endswith suffix s = true <-> exists k, s = k ++ suffix.
Proof.
  unfold endswith. rewrite andb_true_iff, Nat.leb_le, bool_decide_eq_true. split.
  - intros [Hl Hd]. exists (take (length s - length suffix) s).
    rewrite <- Hd at 2. by rewrite take_drop.
  - intros [k ->]. rewrite length_app. split; [lia|].
    replace (length k + length suffix - length suffix)%nat with (length k) by lia.
    apply drop_app_length.
Qed.

Lemma cedar_like_wild v segments :
  segments <> [] -> cedar_like v segments = true <-> wild (segment_atoms segments) v.
Proof.
  intros Hne. destruct segments as [|h rest]; [done|]. destruct rest as [|r0 rest0] eqn:Hr.
  - cbn. rewrite bool_decide_eq_true. rewrite <- (app_nil_r (map Lit h)), wild_lits. split.
    + intros ->. exists []. rewrite app_nil_r. split; [done|constructor].
    + intros (k & -> & H). inversion H. by rewrite app_nil_r.
  - rewrite segment_atoms_cons by done. rewrite <- Hr in *.
    assert (rest <> []) as Hn by (by subst). clear Hr r0 rest0.
    destruct (exists_last Hn) as (mid & tail & ->).
    rewrite wild_lits. setoid_rewrite wild_middle.
    assert (cedar_like v (h :: mid ++ [tail]) = startswith h v && endswith tail v &&
      (length h <=? length v - length tail)%nat &&
      like_middle mid (take (length v - length tail - length h) (drop (length h) v))) as ->.
    { pose proof (List.last_last mid tail []) as HL. pose proof (removelast_last mid tail) as HR.
      unfold cedar_like. destruct (mid ++ [tail]) as [|x l]; [done|]. by rewrite HL, HR. }
    rewrite !andb_true_iff, startswith_spec, endswith_spec, Nat.leb_le, like_middle_spec. split.
    + intros [[[[k ->] [j Hj]] Hle] Hm]. exists k. split; [done|]. rewrite drop_app_length in Hm.
      rewrite length_app in Hle, Hm.
      assert (k = take (length k - length tail) k ++ tail) as Hk.
      { rewrite <- (take_drop (length k - length tail) k) at 1. f_equal.
        rewrite <- (take_drop (length k - length tail) k), app_assoc in Hj.
        assert (length (h ++ k) = length (j ++ tail)) as HL
          by (f_equal; by rewrite <- Hj, <- app_assoc, take_drop).
        rewrite !length_app in HL.
        apply app_inj_2 in Hj; [by destruct Hj|]. rewrite length_drop. lia. }
      exists (take (length k - length tail) k). split; [exact Hk|].
      by replace (length h + length k - length tail - length h)%nat
        with (length k - length tail)%nat in Hm by lia.
    + intros (k & -> & m & -> & Hm). rewrite drop_app_length, !length_app.
      split; [split; [split|]|].
      * eauto.
      * exists (h ++ m). by rewrite <- app_assoc.
      * lia.
      * replace (length h + (length m + length tail) - length tail - length h)%nat
          with (length m) by lia. by rewrite take_app_length.
Qed.

Lemma cedar_like_pattern v p :
  cedar_like v (_pattern_segments p) = true <-> wild (pattern_atoms p) v.
Proof.
  unfold _pattern_segments. rewrite cedar_like_wild by apply pattern_loop_ne.
  by rewrite pattern_loop_atoms.
Qed.
