(* ===== verification/CedarAnalysis.v ===== *)
(** * Cedar: the static walks

    [_reads_context], [_context_attributes], [_needs_principal_entity] and
    [_referenced_members] of [_auth/cedar_engine.py].  They traverse the
    compiled tuples with an explicit stack; the list below has the top of the
    stack first.  The fuel is the number of objects on the stack, counted
    through the tuples. *)

From stdpp Require Import base sets strings numbers list gmap.
From Stdlib Require Import ZArith Lia.
From S2P Require Import Prelude PyCollections PyText CedarSyntax.
#[local] Open Scope Z_scope.

(** ** Python equality and size *)

(** [==] on the objects of a program; [True == 1]. *)
Fixpoint py_eqb (a b : pyobj) : bool :=
  let int_of b := match b with PyBool true => Some 1 | PyBool false => Some 0 | PyInt z => Some z | _ => None end in
  match a, b with
  | PyNone, PyNone => true
  | PyStr x, PyStr y => bool_decide (x = y)
  | PyTuple l, PyTuple k =>
    (fix go l k :=
       match l, k with
       | [], [] => true
       | x :: l, y :: k => py_eqb x y && go l k
       | _, _ => false
       end) l k
  | PyFrozenset l, PyFrozenset k =>
    forallb (fun x => existsb (py_eqb x) k) l && forallb (fun y => existsb (fun x => py_eqb x y) l) k
  | PyBool _, _ | PyInt _, _ =>
    match int_of a, int_of b with Some x, Some y => x =? y | _, _ => false end
  | _, _ => false
  end.

Fixpoint py_size (o : pyobj) : nat :=
  match o with
  | PyTuple l => S (list_sum (map py_size l))
  | _ => 1%nat
  end.

Definition stack_size (stack : list pyobj) : nat := list_sum (map py_size stack).

(** [list(policies)]: the last object is popped first. *)
Definition initial_stack (objects : list pyobj) : list pyobj := rev objects.

(** ** The walks *)

Definition _context_attribute (name : pystr) : pyobj :=
  PyTuple [PyInt 16; py_var ContextVar; PyStr name].

Definition in_tuple (target : pyobj) (l : list pyobj) : bool := existsb (fun x => py_eqb x target) l.

Fixpoint reads_context_loop (fuel : nat) (target : pyobj) (stack : list pyobj) : option bool :=
  match fuel with
  | O => None
  | S fuel =>
    match stack with
    | [] => Some false
    | PyTuple l :: stack =>
      if in_tuple target l then Some true
      else reads_context_loop fuel target (rev l ++ stack)
    | _ :: stack => reads_context_loop fuel target stack
    end
  end.

Definition _reads_context (objects : list pyobj) (attribute : pystr) : bool :=
  default false
    (reads_context_loop (S (stack_size objects)) (_context_attribute attribute)
       (initial_stack objects)).

Fixpoint context_attributes_loop (fuel : nat) (found stack : list pyobj) : option (list pyobj) :=
  match fuel with
  | O => None
  | S fuel =>
    match stack with
    | [] => Some found
    | PyTuple l :: stack =>
      let found :=
        match l with
        | [_; base; name] => if py_eqb base (py_var ContextVar) then name :: found else found
        | _ => found
        end in
      context_attributes_loop fuel found (rev l ++ stack)
    | _ :: stack => context_attributes_loop fuel found stack
    end
  end.

(** The members of the set, in the order they are found; a member need not be
    a text. *)
Definition _context_attributes (objects : list pyobj) : list pyobj :=
  default [] (context_attributes_loop (S (stack_size objects)) [] (initial_stack objects)).

Fixpoint _contains_principal (node : pyobj) : bool :=
  py_eqb node (py_var Principal) ||
  match node with
  | PyTuple l => existsb _contains_principal l
  | _ => false
  end.

(** The test of [_needs_principal_entity] on one tuple. *)
Definition reads_entity (l : list pyobj) : bool :=
  match l with
  | PyInt op :: base :: _ =>
    ((op =? 9) || (op =? 10) || (op =? 12) || (op =? 16)) && _contains_principal base
  | _ => false
  end.

Fixpoint needs_principal_loop (fuel : nat) (stack : list pyobj) : option bool :=
  match fuel with
  | O => None
  | S fuel =>
    match stack with
    | [] => Some false
    | PyTuple l :: stack =>
      if reads_entity l then Some true else needs_principal_loop fuel (rev l ++ stack)
    | _ :: stack => needs_principal_loop fuel stack
    end
  end.

Definition needs_principal_policy (p : policy) : bool :=
  match principal_scope p with
  | SCOPE_ANY | SCOPE_EQ _ =>
    let stack := map py_condition (conditions p) in
    default false (needs_principal_loop (S (stack_size stack)) (initial_stack stack))
  | _ => true
  end.

Definition _needs_principal_entity (ps : list policy) : bool := existsb needs_principal_policy ps.

Fixpoint _literal_names (node : pyobj) : list pystr :=
  match node with
  | PyTuple (PyInt op :: rest) =>
    match rest with
    | [PyStr s] => if op =? 0 then [s] else []
    | PyTuple items :: _ => if op =? 14 then flat_map _literal_names items else []
    | _ => []
    end
  | _ => []
  end.

(** The names of one tuple that reads the attribute, unless it makes the list
    incomplete. *)
Definition member_names (target : pyobj) (l : list pyobj) : option (list pystr) :=
  match l with
  | [PyInt op; PyInt m; base; argument] =>
    if (op =? 17) && ((m =? 0) || (m =? 1) || (m =? 2)) && py_eqb base target then
      match _literal_names argument with [] => None | names => Some names end
    else None
  | _ => None
  end.

(** [Some None] is the answer [None], resolve every member. *)
Fixpoint referenced_members_loop (fuel : nat) (target : pyobj) (found : list pystr)
    (stack : list pyobj) : option (option (list pystr)) :=
  match fuel with
  | O => None
  | S fuel =>
    match stack with
    | [] => Some (Some found)
    | PyTuple l :: stack =>
      if in_tuple target l then
        match member_names target l with
        | Some names => referenced_members_loop fuel target (names ++ found) (rev l ++ stack)
        | None => Some None
        end
      else referenced_members_loop fuel target found (rev l ++ stack)
    | _ :: stack => referenced_members_loop fuel target found stack
    end
  end.

Definition _referenced_members (objects : list pyobj) (attribute : pystr) : option (list pystr) :=
  default None
    (referenced_members_loop (S (stack_size objects)) (_context_attribute attribute) []
       (initial_stack objects)).

(** ** Cedar: what the static walks see

    Each walk visits every tuple of the program, so its answer covers every
    expression inside; and the definitions on expressions that say what a
    policy reads. *)

(** *** Every tuple is visited *)

(** Some tuple inside the object, the object included, satisfies [f]. *)
Fixpoint exists_tuple (f : list pyobj -> bool) (o : pyobj) : bool :=
  match o with
  | PyTuple l => f l || existsb (exists_tuple f) l
  | _ => false
  end.

Lemma existsb_rev {A} (f : A -> bool) l : existsb f (rev l) = existsb f l.
Proof.
  induction l as [|x l IH]; [done|]. cbn. rewrite existsb_app, IH. cbn.
  rewrite orb_false_r. apply orb_comm.
Qed.

Lemma list_sum_rev l : list_sum (rev l) = list_sum l.
Proof.
  induction l as [|x l IH]; [done|]. cbn [rev]. rewrite list_sum_app, IH.
  change (list_sum (x :: l)) with (x + list_sum l)%nat. cbn. lia.
Qed.

Lemma stack_size_rev l stack : stack_size (rev l ++ stack) = (stack_size l + stack_size stack)%nat.
Proof. unfold stack_size. by rewrite map_app, list_sum_app, map_rev, list_sum_rev. Qed.

Lemma stack_size_cons o stack : stack_size (o :: stack) = (py_size o + stack_size stack)%nat.
Proof. done. Qed.

Lemma py_size_tuple l : py_size (PyTuple l) = S (stack_size l).
Proof. done. Qed.

Lemma initial_stack_size l : stack_size (initial_stack l) = stack_size l.
Proof. unfold initial_stack, stack_size. by rewrite map_rev, list_sum_rev. Qed.

(** The walk with the test [f], as the source writes it twice. *)
Fixpoint any_loop (f : list pyobj -> bool) (fuel : nat) (stack : list pyobj) : option bool :=
  match fuel with
  | O => None
  | S fuel =>
    match stack with
    | [] => Some false
    | PyTuple l :: stack => if f l then Some true else any_loop f fuel (rev l ++ stack)
    | _ :: stack => any_loop f fuel stack
    end
  end.

Lemma any_loop_spec f fuel stack :
  (stack_size stack < fuel)%nat -> any_loop f fuel stack = Some (existsb (exists_tuple f) stack).
Proof.
  revert stack. induction fuel as [|fuel IH]; intros stack Hs; [lia|].
  destruct stack as [|o stack]; [done|]. rewrite stack_size_cons in Hs.
  destruct o as [|b|z|s|l|l]; cbn [any_loop existsb exists_tuple orb];
    try (apply IH; cbn in Hs; lia).
  destruct (f l); [done|]. cbn [orb].
  rewrite IH by (rewrite stack_size_rev; rewrite py_size_tuple in Hs; lia).
  by rewrite existsb_app, existsb_rev.
Qed.

Lemma any_loop_start f objects :
  any_loop f (S (stack_size objects)) (initial_stack objects) =
  Some (existsb (exists_tuple f) objects).
Proof.
  rewrite any_loop_spec by (rewrite initial_stack_size; lia).
  unfold initial_stack. by rewrite existsb_rev.
Qed.

Lemma reads_context_any fuel target stack :
  reads_context_loop fuel target stack = any_loop (in_tuple target) fuel stack.
Proof.
  revert stack. induction fuel as [|fuel IH]; intros stack; [done|].
  destruct stack as [|[] stack]; cbn; try done. by case_match.
Qed.

Lemma needs_principal_any fuel stack :
  needs_principal_loop fuel stack = any_loop reads_entity fuel stack.
Proof.
  revert stack. induction fuel as [|fuel IH]; intros stack; [done|].
  destruct stack as [|[] stack]; cbn [needs_principal_loop any_loop]; try done. by case_match.
Qed.

Lemma reads_context_spec objects attribute :
  _reads_context objects attribute =
  existsb (exists_tuple (in_tuple (_context_attribute attribute))) objects.
Proof. unfold _reads_context. by rewrite reads_context_any, any_loop_start. Qed.

Lemma needs_principal_spec p :
  needs_principal_policy p = false ->
  existsb (exists_tuple reads_entity) (map py_condition (conditions p)) = false.
Proof.
  unfold needs_principal_policy.
  destruct (principal_scope p); try done; by rewrite needs_principal_any, any_loop_start.
Qed.

(** A tuple that reads the attribute [name] of the context. *)
Definition names_attribute (name : pyobj) (l : list pyobj) : bool :=
  match l with
  | [_; base; n] => py_eqb base (py_var ContextVar) && py_eqb n name
  | _ => false
  end.

Lemma context_attributes_found fuel found stack :
  (stack_size stack < fuel)%nat ->
  exists result, context_attributes_loop fuel found stack = Some result /\
    (forall x, x ∈ found -> x ∈ result) /\
    (forall n, existsb (exists_tuple (names_attribute (PyStr n))) stack = true ->
       PyStr n ∈ result).
Proof.
  revert found stack. induction fuel as [|fuel IH]; intros found stack Hs; [lia|].
  destruct stack as [|o stack]; [exists found; split_and!; done|].
  rewrite stack_size_cons in Hs.
  destruct o as [|b|z|s|l|l]; cbn [context_attributes_loop existsb exists_tuple orb];
    try (apply IH; cbn in Hs; lia).
  set (found' := match l with [_; base; name] => _ | _ => _ end).
  destruct (IH found' (rev l ++ stack)) as (result & Hr & Hf & Hn).
  { rewrite stack_size_rev. rewrite py_size_tuple in Hs. lia. }
  exists result. split_and!; [done|..].
  - intros x Hx. apply Hf. subst found'. repeat case_match; set_solver.
  - intros n Hx. apply orb_true_iff in Hx as [Hx|Hx].
    + apply orb_true_iff in Hx as [Hx|Hx].
      * apply Hf. subst found'. unfold names_attribute in Hx.
        destruct l as [|x1 [|x2 [|x3 [|]]]]; try done. apply andb_prop in Hx as [-> Hx].
        destruct x3 as [|[]|z|s|k|k]; try done. cbn in Hx. apply bool_decide_eq_true in Hx as ->. set_solver.
      * apply Hn. rewrite existsb_app, existsb_rev. by rewrite Hx.
    + apply Hn. rewrite existsb_app, Hx. apply orb_true_r.
Qed.

Lemma context_attributes_spec objects n :
  existsb (exists_tuple (names_attribute (PyStr n))) objects = true ->
  PyStr n ∈ _context_attributes objects.
Proof.
  intros H. unfold _context_attributes.
  destruct (context_attributes_found (S (stack_size objects)) [] (initial_stack objects))
    as (result & -> & _ & Hn).
  { rewrite initial_stack_size. lia. }
  apply Hn. unfold initial_stack. by rewrite existsb_rev.
Qed.

(** Every tuple that reads the attribute names its members, and they are
    among the answer. *)
Definition names_members (target : pyobj) (answer : list pystr) (l : list pyobj) : bool :=
  negb (in_tuple target l) ||
  match member_names target l with
  | Some names => forallb (fun n => bool_decide (n ∈ answer)) names
  | None => false
  end.

Fixpoint all_tuples (f : list pyobj -> bool) (o : pyobj) : bool :=
  match o with
  | PyTuple l => f l && forallb (all_tuples f) l
  | _ => true
  end.

Lemma forallb_map {A B} (f : B -> bool) (g : A -> B) l :
  forallb f (map g l) = forallb (fun x => f (g x)) l.
Proof. induction l as [|x l IH]; [done|]. cbn. by rewrite IH. Qed.

Lemma referenced_members_found fuel target found stack answer :
  (stack_size stack < fuel)%nat ->
  referenced_members_loop fuel target found stack = Some (Some answer) ->
  (forall n, n ∈ found -> n ∈ answer) /\
  forallb (all_tuples (names_members target answer)) stack = true.
Proof.
  revert found stack. induction fuel as [|fuel IH]; intros found stack Hs; [lia|].
  destruct stack as [|o stack]; [by intros [= <-]|].
  rewrite stack_size_cons in Hs.
  destruct o as [|b|z|s|l|l]; cbn [referenced_members_loop forallb all_tuples andb];
    try (apply IH; cbn in Hs; lia).
  assert (stack_size (rev l ++ stack) < fuel)%nat as Hlt.
  { rewrite stack_size_rev. rewrite py_size_tuple in Hs. lia. }
  unfold names_members at 1. destruct (in_tuple target l) eqn:Ht; cbn [negb orb].
  - destruct (member_names target l) as [names|]; [|done].
    intros H. apply IH in H as [H1 H2]; [|done].
    rewrite forallb_app, forallb_rev in H2. apply andb_prop in H2 as [-> ->]. split; [set_solver|].
    rewrite !andb_true_r. apply forallb_forall. intros n Hn. apply bool_decide_eq_true.
    apply list_elem_of_In in Hn. set_solver.
  - intros H. apply IH in H as [H1 H2]; [|done].
    rewrite forallb_app, forallb_rev in H2. by apply andb_prop in H2 as [-> ->].
Qed.

Lemma referenced_members_spec objects attribute answer :
  _referenced_members objects attribute = Some answer ->
  forallb (all_tuples (names_members (_context_attribute attribute) answer)) objects = true.
Proof.
  unfold _referenced_members.
  destruct (referenced_members_loop _ _ _ _) as [o|] eqn:E; [|done]. cbn. intros ->.
  apply referenced_members_found in E as [_ E]; [|rewrite initial_stack_size; lia].
  unfold initial_stack in E. by rewrite forallb_rev in E.
Qed.

(** *** Expressions *)

(** Some expression inside [e], [e] included, satisfies [f]. *)
Fixpoint exists_expr (f : expr -> bool) (e : expr) : bool :=
  f e ||
  match e with
  | OP_CONST _ | OP_VAR _ => false
  | OP_AND a b | OP_OR a b | OP_EQ a b | OP_NE a b | OP_IN a b
  | OP_ARITH _ a b | OP_CMP _ a b => exists_expr f a || exists_expr f b
  | OP_NOT a | OP_HAS a _ | OP_LIKE a _ | OP_GETATTR a _ => exists_expr f a
  | OP_IS a _ b | OP_METHOD _ a b =>
    exists_expr f a || match b with Some x => exists_expr f x | None => false end
  | OP_IF a b c => exists_expr f a || exists_expr f b || exists_expr f c
  | OP_SET items => existsb (exists_expr f) items
  | OP_RECORD entries => existsb (fun kv => exists_expr f (kv.2)) entries
  end.

Lemma exists_expr_operands f e :
  exists_expr f e = f e || existsb (exists_expr f) (operands e).
Proof.
  destruct e as [| | | | | | | | | | | |e ty a| | |l| |m e a]; cbn [exists_expr operands existsb]; try done;
    rewrite ?orb_false_r, ?orb_assoc; try done.
  - by destruct a; cbn; rewrite ?orb_false_r.
  - f_equal. induction l as [|kv l IH]; [done|]. cbn. by rewrite IH.
  - by destruct a; cbn; rewrite ?orb_false_r.
Qed.

Lemma exists_expr_operand f e x :
  x ∈ operands e -> exists_expr f e = false -> exists_expr f x = false.
Proof.
  intros Hx. rewrite exists_expr_operands. intros [_ H]%orb_false_iff.
  destruct (exists_expr f x) eqn:E; [|done]. rewrite <- H. symmetry. apply existsb_exists.
  exists x. split; [by apply list_elem_of_In|done].
Qed.

Lemma exists_expr_here f e : exists_expr f e = false -> f e = false.
Proof. rewrite exists_expr_operands. by intros [? _]%orb_false_iff. Qed.

Definition expr_tuple (e : expr) : list pyobj := match py_expr e with PyTuple l => l | _ => [] end.

Lemma py_expr_tuple e : py_expr e = PyTuple (expr_tuple e).
Proof. by destruct e. Qed.

Lemma exists_tuple_expr g e :
  exists_tuple g (py_expr e) = g (expr_tuple e) || existsb (exists_tuple g) (expr_tuple e).
Proof. by rewrite py_expr_tuple. Qed.

Lemma existsb_impl {A B} (f : A -> bool) (g : B -> bool) (h : A -> B) l :
  Forall (fun x => f x = true -> g (h x) = true) l ->
  existsb f l = true -> existsb g (map h l) = true.
Proof.
  induction 1 as [|x l Hx _ IH]; [done|]. cbn. rewrite !orb_true_iff. intuition.
Qed.

(** A test on expressions that a test on tuples covers. *)
Lemma exists_expr_encode (f : expr -> bool) (g : list pyobj -> bool) e :
  (forall e, f e = true -> g (expr_tuple e) = true) ->
  exists_expr f e = true -> exists_tuple g (py_expr e) = true.
Proof.
  intros Hfg. induction e using expr_ind_nested; cbn [exists_expr]; rewrite exists_tuple_expr;
    rewrite !orb_true_iff; (intros [Hf|Hsub]; [left; by apply Hfg|right]);
    try done; cbn [expr_tuple py_expr existsb]; rewrite !orb_true_iff in *; try tauto.
  - destruct Hsub as [?|Hsub]; [tauto|]. destruct a as [b|]; [|done]. specialize (H b eq_refl). tauto.
  - right. left. cbn [exists_tuple]. apply orb_true_iff. right.
    eapply existsb_impl; [|exact Hsub]. done.
  - right. left. cbn [exists_tuple]. apply orb_true_iff. right.
    eapply existsb_impl; [|exact Hsub]. eapply Forall_impl; [exact H|].
    intros [k x] Hx Hk. cbn in *. rewrite Hx by done. by rewrite orb_true_r.
  - destruct Hsub as [?|Hsub]; [tauto|]. destruct a as [b|]; [|done]. specialize (H b eq_refl). tauto.
Qed.

(** The conditions of a policy. *)
Definition exists_in_policy (f : expr -> bool) (p : policy) : bool :=
  existsb (fun c => exists_expr f (c.2)) (conditions p).

Lemma exists_in_conditions (f : expr -> bool) (g : list pyobj -> bool) cs :
  (forall e, f e = true -> g (expr_tuple e) = true) ->
  existsb (fun c => exists_expr f (c.2)) cs = true ->
  existsb (exists_tuple g) (map py_condition cs) = true.
Proof.
  intros Hfg. apply existsb_impl. apply Forall_forall. intros [u e] _ H. cbn.
  rewrite (exists_expr_encode f g e Hfg H). by rewrite !orb_true_r.
Qed.

Lemma exists_in_policies (f : expr -> bool) (g : list pyobj -> bool) ps p :
  (forall e, f e = true -> g (expr_tuple e) = true) ->
  p ∈ ps -> exists_in_policy f p = true ->
  existsb (exists_tuple g) (map py_policy ps) = true.
Proof.
  intros Hfg Hp H. apply existsb_exists. exists (py_policy p).
  split; [apply in_map, list_elem_of_In, Hp|].
  unfold py_policy. cbn [exists_tuple existsb].
  rewrite (exists_in_conditions f g (conditions p) Hfg H). by rewrite !orb_true_r.
Qed.

(** *** What a policy reads *)

Definition is_var (v : var) (e : expr) : bool :=
  match e with OP_VAR w => bool_decide (v = w) | _ => false end.

Definition mentions (v : var) : expr -> bool := exists_expr (is_var v).

(** [context.<name>] and [context has <name>]. *)
Definition gets_context (name : pystr) (e : expr) : bool :=
  match e with OP_GETATTR (OP_VAR ContextVar) n => bool_decide (n = name) | _ => false end.

Definition has_context (name : pystr) (e : expr) : bool :=
  match e with OP_HAS (OP_VAR ContextVar) n => bool_decide (n = name) | _ => false end.

(** An operand that is the whole context, other than of those two. *)
Definition uses_context (e : expr) : bool :=
  match e with
  | OP_GETATTR _ _ | OP_HAS _ _ => false
  | _ => existsb (is_var ContextVar) (operands e)
  end.

(** The context is read only attribute by attribute. *)
Definition context_direct (e : expr) : bool :=
  negb (is_var ContextVar e) && negb (exists_expr uses_context e).

Definition policy_context_direct (p : policy) : bool :=
  forallb (fun c => context_direct (c.2)) (conditions p).

(** An operation that can look into the store, on an operand that mentions the
    principal. *)
Definition reads_principal (e : expr) : bool :=
  match e with
  | OP_IN a _ | OP_HAS a _ | OP_IS a _ _ | OP_GETATTR a _ => mentions Principal a
  | _ => false
  end.

Lemma gets_context_encode n e :
  gets_context n e = true -> names_attribute (PyStr n) (expr_tuple e) = true.
Proof. destruct e as [| | | | | | | | | | | | | | | |[]|]; try done. by destruct v. Qed.

Lemma has_context_encode n e :
  has_context n e = true -> names_attribute (PyStr n) (expr_tuple e) = true.
Proof. destruct e as [| | | | | | | | | |[]| | | | | | |]; try done. by destruct v. Qed.

(** The object behind a test, or a tuple that holds such an object. *)
Lemma exists_tuple_child (h : pyobj -> bool) o :
  exists_tuple (fun l => h (PyTuple l)) o = true ->
  h o = true \/ exists_tuple (existsb h) o = true.
Proof.
  revert o. fix IH 1. intros [| | | |l|]; try done. cbn [exists_tuple].
  intros [H|H]%orb_true_iff; [by left|]. right. apply orb_true_iff.
  induction l as [|x l IHl]; [done|]. cbn in *. apply orb_true_iff in H as [H|H].
  - apply IH in H as [H|H]; rewrite H; [by left|]. right. done.
  - apply IHl in H as [H|H]; rewrite H, ?orb_true_r; auto.
Qed.

(** [context.<name>] is found by [_reads_context]. *)
Lemma gets_context_read ps p n :
  p ∈ ps -> exists_in_policy (gets_context n) p = true ->
  _reads_context (map py_policy ps) n = true.
Proof.
  intros Hp H. rewrite reads_context_spec. apply existsb_exists. exists (py_policy p).
  split; [apply in_map, list_elem_of_In, Hp|].
  unfold exists_in_policy in H. apply existsb_exists in H as ([u e] & Hc & H). cbn [snd] in H.
  assert (exists_tuple (in_tuple (_context_attribute n)) (py_condition (u, e)) = true) as Hx.
  { apply (exists_expr_encode _ (fun l => py_eqb (PyTuple l) (_context_attribute n))) in H.
    - apply (exists_tuple_child (fun x => py_eqb x (_context_attribute n))) in H.
      unfold py_condition. cbn [exists_tuple fst snd]. destruct H as [H|H]; apply orb_true_iff.
      + left. unfold in_tuple. cbn [existsb]. rewrite H. by rewrite !orb_true_r.
      + right. change (exists_tuple (in_tuple (_context_attribute n)) (py_expr e) = true) in H.
        cbn [existsb]. rewrite H. by rewrite !orb_true_r.
    - intros [| | | | | | | | | | | | | | | |[]|] Hg; try done. destruct v; try done.
      cbn in *. by rewrite Hg. }
  unfold py_policy. cbn [exists_tuple existsb].
  assert (existsb (exists_tuple (in_tuple (_context_attribute n))) (map py_condition (conditions p)) = true) as Hy.
  { apply existsb_exists. exists (py_condition (u, e)). split; [by apply in_map|done]. }
  rewrite Hy. by rewrite !orb_true_r.
Qed.

Lemma contains_principal_expr e : mentions Principal e = true -> _contains_principal (py_expr e) = true.
Proof.
  intros H. assert (exists_tuple (fun l => py_eqb (PyTuple l) (py_var Principal)) (py_expr e) = true) as Hx.
  { revert H. apply exists_expr_encode. intros [] ?; try done. cbn in *. by destruct v. }
  revert Hx. generalize (py_expr e). fix IH 1. intros [| | | |l|]; try done. cbn [exists_tuple].
  intros Hx. cbn [_contains_principal]. apply orb_true_iff in Hx as [->|Hx]; [done|].
  apply orb_true_iff. right. induction l as [|x l IHl]; [done|]. cbn in *.
  apply orb_true_iff in Hx as [Hx|Hx]; [by rewrite (IH x Hx)|]. rewrite IHl by done. apply orb_true_r.
Qed.

Lemma reads_principal_encode e : reads_principal e = true -> reads_entity (expr_tuple e) = true.
Proof.
  destruct e; try done; cbn [reads_principal expr_tuple py_expr reads_entity];
    intros H%contains_principal_expr; by rewrite H.
Qed.
