(* ===== verification/CedarNoninterference.v ===== *)
(** * Cedar: decisions that cannot depend on a fact

    Two requests that agree on what a policy reads give the same evaluation:
    attributes of the context, members of a context set that policies name
    literally, and the entry of the principal in the store. *)

From stdpp Require Import base sets strings numbers list gmap relations.
From Stdlib Require Import ZArith Lia.
From S2P Require Import Prelude PyCollections PyText CedarSyntax CedarEval CedarEvalFacts.
From S2P Require Import CedarAnalysis.
#[local] Open Scope Z_scope.

(** ** Equal operands give equal results *)

Lemma eval_items_ext r1 r2 depth items :
  (forall x, x ∈ items -> forall d, cedar_eval r1 x d = cedar_eval r2 x d) ->
  forall seen acc, eval_items r1 depth items seen acc = eval_items r2 depth items seen acc.
Proof.
  induction items as [|x items IH]; intros H seen acc; cbn [eval_items]; [done|].
  rewrite (H x) by set_solver. destruct (cedar_eval r2 x (depth + 1)); [|done]. cbn [res_bind].
  destruct (dedupe_step _ _ _). apply IH. set_solver.
Qed.

Lemma eval_entries_ext r1 r2 depth entries :
  (forall x, x ∈ map snd entries -> forall d, cedar_eval r1 x d = cedar_eval r2 x d) ->
  forall acc, eval_entries r1 depth entries acc = eval_entries r2 depth entries acc.
Proof.
  induction entries as [|[k x] entries IH]; intros H acc; cbn [eval_entries]; [done|].
  rewrite (H x) by set_solver. destruct (cedar_eval r2 x (depth + 1)); [|done]. cbn [res_bind].
  apply IH. set_solver.
Qed.

(** The store matters to four operations only. *)
Definition reads_store (e : expr) : bool :=
  match e with OP_IN _ _ | OP_HAS _ _ | OP_IS _ _ (Some _) | OP_GETATTR _ _ => true | _ => false end.

Lemma eval_operands_ext r1 r2 e depth :
  (forall x, x ∈ operands e -> forall d, cedar_eval r1 x d = cedar_eval r2 x d) ->
  (reads_store e = true -> r_store r1 = r_store r2) ->
  (forall v, e = OP_VAR v -> var_value r1 v = var_value r2 v) ->
  cedar_eval r1 e depth = cedar_eval r2 e depth.
Proof.
  intros Ho Hs Hv.
  destruct e as [| | | | | | | | | | | |e ty a| | | | |m e a];
    rewrite ?cedar_eval_set, ?cedar_eval_record; cbn [cedar_eval]; cbn [operands] in Ho;
    destruct (CEDAR_MAX_DEPTH <? depth); try done;
    repeat match goal with
    | |- context [cedar_eval r1 ?x _] => rewrite (Ho x) by set_solver
    end; try (by rewrite Hs); try done.
  - by rewrite Hv.
  - destruct a as [b|]; [|done]. rewrite Hs, (Ho b) by set_solver. done.
  - by apply eval_items_ext.
  - by apply eval_entries_ext.
  - destruct a as [b|]; [|done]. by rewrite (Ho b) by set_solver.
Qed.

(** Requests that differ in the context only. *)
Definition same_but_context (r1 r2 : request) : Prop :=
  r_principal r1 = r_principal r2 /\ r_action r1 = r_action r2 /\
  r_resource r1 = r_resource r2 /\ r_store r1 = r_store r2.

(** A condition on expressions, closed under operands, that leaves only
    expressions on which the two contexts give the same value. *)
Lemma eval_context_ext r1 r2 (ok : expr -> Prop) e :
  same_but_context r1 r2 ->
  (forall e, ok e ->
     (forall d, cedar_eval r1 e d = cedar_eval r2 e d) \/
     (e <> OP_VAR ContextVar /\ forall x, x ∈ operands e -> ok x)) ->
  ok e -> forall depth, cedar_eval r1 e depth = cedar_eval r2 e depth.
Proof.
  intros (Hp & Ha & Hr & Hst) Hok. induction e as [e IH] using expr_operand_ind. intros He depth.
  destruct (Hok e He) as [H|[Hne Hops]]; [by apply H|].
  apply eval_operands_ext; [|by intros _|].
  - intros x Hx. apply IH; auto.
  - intros v ->. destruct v; cbn; congruence.
Qed.

(** ** Attributes of the context *)

Definition touches (n : pystr) (e : expr) : bool := gets_context n e || has_context n e.

Definition agree_on (c1 c2 : list (pystr * value)) (e : expr) : Prop :=
  forall n, exists_expr (touches n) e = true -> dget c1 n = dget c2 n.

Lemma agree_on_operand c1 c2 e x : x ∈ operands e -> agree_on c1 c2 e -> agree_on c1 c2 x.
Proof.
  intros Hx H n Hn. apply H. destruct (exists_expr (touches n) e) eqn:E; [done|].
  by rewrite (exists_expr_operand _ _ _ Hx E) in Hn.
Qed.

Lemma agree_on_here c1 c2 e n : touches n e = true -> agree_on c1 c2 e -> dget c1 n = dget c2 n.
Proof. intros Ht H. apply H. rewrite exists_expr_operands. by rewrite Ht. Qed.

Lemma uses_context_operand e x :
  uses_context e = false -> (forall a n, e <> OP_GETATTR a n /\ e <> OP_HAS a n) ->
  x ∈ operands e -> is_var ContextVar x = false.
Proof.
  intros Hu Hne Hx. destruct (is_var ContextVar x) eqn:E; [|done]. exfalso.
  assert (existsb (is_var ContextVar) (operands e) = true) as Hex.
  { apply existsb_exists. exists x. split; [by apply list_elem_of_In|done]. }
  unfold uses_context in Hu. destruct e; try (by rewrite Hex in Hu); by destruct (Hne e name).
Qed.

Definition direct_read (e : expr) : bool :=
  match e with OP_GETATTR a _ | OP_HAS a _ => is_var ContextVar a | _ => false end.

Lemma is_var_false e v : is_var v e = false -> e <> OP_VAR v.
Proof. intros H ->. cbn in H. by rewrite bool_decide_true in H. Qed.

Lemma eval_context_agree r1 r2 e depth :
  same_but_context r1 r2 -> context_direct e = true ->
  agree_on (r_context r1) (r_context r2) e ->
  cedar_eval r1 e depth = cedar_eval r2 e depth.
Proof.
  intros Hsame Hd Ha. revert depth.
  apply (eval_context_ext r1 r2
    (fun e => context_direct e = true /\ agree_on (r_context r1) (r_context r2) e)); [done| |done].
  clear e Hd Ha. intros e [Hd Ha]. unfold context_direct in *.
  apply andb_prop in Hd as [Hv Hu]. apply negb_true_iff in Hv, Hu.
  destruct (direct_read e) eqn:Hr.
  - left. intros d.
    destruct e as [| | | | | | | | | |a n| | | | | |a n|]; try done;
      (destruct a as [|[]| | | | | | | | | | | | | | | |]; try done);
      cbn [cedar_eval]; destruct (CEDAR_MAX_DEPTH <? d); try done;
      destruct (CEDAR_MAX_DEPTH <? d + 1); try done;
      cbn [res_bind var_value cedar_eval_getattr cedar_has]; unfold dmem;
      (rewrite (fun H => agree_on_here _ _ _ n H Ha); [done|]; unfold touches; cbn;
       by rewrite bool_decide_true).
  - right. split; [by apply is_var_false|]. intros x Hx. split; [|by eapply agree_on_operand].
    rewrite (exists_expr_operand _ _ _ Hx Hu). rewrite andb_true_r. apply negb_true_iff.
    apply exists_expr_here in Hu. destruct e; cbn [operands] in Hx;
      try (by apply (uses_context_operand _ x Hu));
      by apply list_elem_of_singleton in Hx as ->.
Qed.

(** The conditions of a policy, then the policy. *)
Lemma conditions_ext r1 r2 cs :
  (forall u e, (u, e) ∈ cs -> forall d, cedar_eval r1 e d = cedar_eval r2 e d) ->
  plan_policy_conditions r1 cs = plan_policy_conditions r2 cs.
Proof.
  induction cs as [|[u e] cs IH]; intros H; cbn; [done|]. rewrite (H u e) by set_solver.
  destruct (cedar_eval r2 e 0) as [v|]; [|done]. cbn. destruct v; try done.
  rewrite IH; [done|]. set_solver.
Qed.

Lemma policy_ext_context r1 r2 p :
  same_but_context r1 r2 ->
  (forall u e, (u, e) ∈ conditions p -> forall d, cedar_eval r1 e d = cedar_eval r2 e d) ->
  plan_policy_satisfied r1 p = plan_policy_satisfied r2 p.
Proof.
  intros (Hp & Ha & Hr & Hs) H. unfold plan_policy_satisfied, cedar_scope_matches.
  rewrite Hp, Ha, Hr, Hs. by rewrite (conditions_ext r1 r2).
Qed.

(** ** Members of a set in the context *)

Definition is_text (e : expr) : bool := match e with OP_CONST (CStr _) => true | _ => false end.

(** The argument of a naming method is written out in full. *)
Definition literal_argument (m : method) (argument : option expr) : bool :=
  match m, argument with
  | contains, Some e => is_text e
  | (containsAll | containsAny), Some (OP_SET items) => forallb is_text items
  | _, _ => false
  end.

(** A naming method on [context.<a>] whose argument is computed in part. *)
Definition computed_member (a : pystr) (e : expr) : bool :=
  match e with
  | OP_METHOD m base argument => gets_context a base && negb (literal_argument m argument)
  | _ => false
  end.

Definition value_text (v : value) : bool := match v with VStr _ => true | _ => false end.

(** Two contexts that differ in the members of the set [a], not in those of [names]. *)
Definition same_members (a : pystr) (names : list pystr) (c1 c2 : list (pystr * value)) : Prop :=
  (forall n, n <> a -> dget c1 n = dget c2 n) /\
  exists rep1 l1 rep2 l2,
    dget c1 a = Some (VSet rep1 l1) /\ dget c2 a = Some (VSet rep2 l2) /\
    forallb value_text l1 = true /\ forallb value_text l2 = true /\
    forall n, n ∈ names -> VStr n ∈ l1 <-> VStr n ∈ l2.

Lemma set_contains_text l n depth :
  forallb value_text l = true -> depth <= CEDAR_MAX_DEPTH ->
  exists b, cedar_set_contains l (VStr n) depth = Ok b /\ (b = true <-> VStr n ∈ l).
Proof.
  intros Hl Hd. induction l as [|x l IH]; cbn.
  - exists false. split; [done|]. split; [done|]. by intros ?%elem_of_nil.
  - cbn in Hl. apply andb_prop in Hl as [Hx Hl]. destruct x; try done.
    replace (CEDAR_MAX_DEPTH <? depth) with false by lia. cbn.
    case_bool_decide as E.
    + exists true. subst. split; [done|]. set_solver.
    + destruct (IH Hl) as (b & -> & Hb). exists b. split; [done|]. rewrite Hb. set_solver.
Qed.

Section members.
Context (names : list pystr) (l1 l2 : list value) (depth : Z).
Context (H1 : forallb value_text l1 = true) (H2 : forallb value_text l2 = true).
Context (Hn : forall n, n ∈ names -> VStr n ∈ l1 <-> VStr n ∈ l2).
Context (Hd : depth <= CEDAR_MAX_DEPTH).

Lemma set_contains_same n :
  n ∈ names -> cedar_set_contains l1 (VStr n) depth = cedar_set_contains l2 (VStr n) depth.
Proof.
  intros Hin. destruct (set_contains_text l1 n depth H1 Hd) as (b1 & -> & Hb1).
  destruct (set_contains_text l2 n depth H2 Hd) as (b2 & -> & Hb2).
  f_equal. apply eq_true_iff_eq. rewrite Hb1, Hb2. by apply Hn.
Qed.

Definition named (v : value) : Prop := exists n, n ∈ names /\ v = VStr n.

Lemma contains_loop_same all k :
  Forall named k -> contains_loop all l1 k depth = contains_loop all l2 k depth.
Proof.
  induction 1 as [|v k (n & Hin & ->) _ IH]; cbn [contains_loop]; [done|].
  rewrite (set_contains_same n Hin). destruct (cedar_set_contains l2 (VStr n) depth); [|done].
  cbn. by rewrite IH.
Qed.

Lemma eval_items_named r items seen acc v :
  (forall x, x ∈ items -> exists n, x = OP_CONST (CStr n) /\ n ∈ names) ->
  Forall named acc -> eval_items r depth items seen acc = Ok v ->
  exists k, v = VSet AsList k /\ Forall named k.
Proof using Type.
  clear H1 H2 Hn Hd l1 l2.
  revert seen acc. induction items as [|x items IH]; intros seen acc Hi Hacc; cbn [eval_items].
  - intros [= <-]. eauto.
  - destruct (Hi x) as (n & -> & Hin); [set_solver|]. cbn [cedar_eval].
    destruct (CEDAR_MAX_DEPTH <? depth + 1); [done|]. cbn [res_bind value_of_const].
    unfold dedupe_step. destruct (existsb _ _); (apply IH; [set_solver|]); [done|].
    apply Forall_app. split; [done|]. constructor; [by exists n|done].
Qed.
End members.

(** The walk's answer for one expression. *)
Lemma all_tuples_expr g e :
  all_tuples g (py_expr e) = g (expr_tuple e) && forallb (all_tuples g) (expr_tuple e).
Proof. by rewrite py_expr_tuple. Qed.

Lemma all_tuples_operand g e x :
  x ∈ operands e -> all_tuples g (py_expr e) = true -> all_tuples g (py_expr x) = true.
Proof.
  intros Hx. rewrite all_tuples_expr. intros [_ H]%andb_prop.
  destruct e as [| | | | | | | | | | | |e ty a| | | | |m e a]; cbn [operands] in Hx;
    cbn [expr_tuple py_expr forallb all_tuples] in H;
    repeat match goal with H : _ && _ = true |- _ => apply andb_prop in H as [? H] end;
    repeat (apply elem_of_cons in Hx as [->|Hx]; [done|]); try by apply elem_of_nil in Hx.
  - destruct a; set_solver.
  - match goal with H : forallb _ (map _ _) = true |- _ => rename H into Hl end.
    rewrite forallb_map in Hl. by eapply forallb_elem in Hl.
  - match goal with H : forallb _ (map _ _) = true |- _ => rename H into Hl end.
    apply list_elem_of_fmap in Hx as ([k y] & -> & Hy). rewrite forallb_map in Hl.
    apply (forallb_elem _ _ _ Hl) in Hy. cbn in Hy.
    repeat match goal with H : _ && _ = true |- _ => apply andb_prop in H as [? H] end. done.
  - destruct a; set_solver.
Qed.

(** An operand that is [context.<a>] makes its tuple one that reads it. *)
Lemma gets_context_obj a x :
  gets_context a x = true -> py_eqb (py_expr x) (_context_attribute a) = true.
Proof.
  destruct x as [| | | | | | | | | | | | | | | |[]|]; try done. destruct v; try done.
  cbn. by intros ->.
Qed.

Lemma operand_in_tuple a e x :
  x ∈ operands e -> gets_context a x = true ->
  (forall l, e <> OP_SET l) -> (forall l, e <> OP_RECORD l) ->
  in_tuple (_context_attribute a) (expr_tuple e) = true.
Proof.
  intros Hx Hg%gets_context_obj Hns Hnr. unfold in_tuple. apply existsb_exists.
  exists (py_expr x). split; [|done]. apply list_elem_of_In.
  destruct e as [| | | | | | | | | | | |e ty b| | | | |m e b]; cbn [operands] in Hx;
    cbn [expr_tuple py_expr]; try congruence; try set_solver; destruct b; set_solver.
Qed.

Lemma nested_in_tuple a e x answer :
  x ∈ operands e -> gets_context a x = true -> (exists l, e = OP_SET l) \/ (exists l, e = OP_RECORD l) ->
  all_tuples (names_members (_context_attribute a) answer) (py_expr e) = false.
Proof.
  intros Hx Hg%gets_context_obj [[l ->]|[l ->]]; cbn [operands] in Hx.
  - apply not_true_iff_false. intros H. cbn [py_expr all_tuples forallb] in H.
    apply andb_prop in H as [_ H]. apply andb_prop in H as [_ H]. apply andb_prop in H as [H _].
    apply andb_prop in H as [H _]. unfold names_members in H.
    assert (in_tuple (_context_attribute a) (map py_expr l) = true) as Ht.
    { apply existsb_exists. exists (py_expr x). split; [apply in_map, list_elem_of_In, Hx|done]. }
    rewrite Ht in H. cbn [negb orb] in H. unfold member_names in H.
    destruct l as [|e1 l]; [done|]. cbn [map] in H. by rewrite (py_expr_tuple e1) in H.
  - apply list_elem_of_fmap in Hx as ([k y] & -> & Hy). cbn [snd] in Hg.
    apply not_true_iff_false. intros H. cbn [py_expr all_tuples forallb] in H.
    apply andb_prop in H as [_ H]. apply andb_prop in H as [_ H]. apply andb_prop in H as [H _].
    apply andb_prop in H as [_ H]. rewrite forallb_map in H. apply (forallb_elem _ _ _ H) in Hy. cbn [fst snd] in Hy.
    cbn [all_tuples] in Hy. apply andb_prop in Hy as [Hy _]. unfold names_members, in_tuple in Hy.
    cbn [existsb] in Hy. rewrite Hg in Hy. rewrite orb_true_r in Hy. done.
Qed.

(** The names the walk collects for a call written out in full. *)
Lemma literal_names_text n : _literal_names (py_expr (OP_CONST (CStr n))) = [n].
Proof. done. Qed.

Lemma literal_names_items items x n :
  x ∈ items -> x = OP_CONST (CStr n) -> n ∈ _literal_names (py_expr (OP_SET items)).
Proof.
  intros Hx ->. cbn. apply list_elem_of_In, in_flat_map.
  exists (py_expr (OP_CONST (CStr n))). split; [|by left].
  apply in_map, list_elem_of_In, Hx.
Qed.

Lemma names_members_method a answer m base argument :
  gets_context a base = true -> literal_argument m (Some argument) = true ->
  names_members (_context_attribute a) answer (expr_tuple (OP_METHOD m base (Some argument))) = true ->
  (forall n, n ∈ _literal_names (py_expr argument) -> n ∈ answer).
Proof.
  intros Hg Hlit H n Hn. unfold names_members in H.
  rewrite (operand_in_tuple a _ base) in H; [|cbn; set_solver|done|done|done]. cbn [negb orb] in H.
  cbn [expr_tuple py_expr member_names] in H. rewrite (gets_context_obj a base Hg) in H.
  assert ((17 =? 17) && ((_METHOD_IDS m =? 0) || (_METHOD_IDS m =? 1) || (_METHOD_IDS m =? 2)) = true)
    as Hm by (by destruct m).
  rewrite Hm in H. cbn [andb] in H. destruct (_literal_names (py_expr argument)) as [|s l] eqn:El; [done|].
  apply (forallb_elem _ _ _ H) in Hn. by apply bool_decide_eq_true in Hn.
Qed.

Lemma is_text_inv e : is_text e = true -> exists n, e = OP_CONST (CStr n).
Proof. destruct e as [[]| | | | | | | | | | | | | | | | |]; try done. eauto. Qed.

Lemma eval_gets_context r a base d :
  gets_context a base = true ->
  cedar_eval r base d =
  if CEDAR_MAX_DEPTH <? d then cedar_fail ExpressionTooDeep
  else if CEDAR_MAX_DEPTH <? d + 1 then cedar_fail ExpressionTooDeep
  else cedar_eval_getattr (r_store r) (VRecord (r_context r)) a.
Proof.
  destruct base as [| | | | | | | | | | | | | | | |[]|]; try done. destruct v; try done.
  cbn [gets_context]. rewrite bool_decide_eq_true. intros ->. cbn [cedar_eval].
  destruct (CEDAR_MAX_DEPTH <? d); [done|]. by destruct (CEDAR_MAX_DEPTH <? d + 1).
Qed.

(** The argument of [containsAll] and [containsAny]. *)
Lemma named_argument_same (answer : list pystr) all l1 l2 depth r items :
  forallb value_text l1 = true -> forallb value_text l2 = true ->
  (forall n, n ∈ answer -> VStr n ∈ l1 <-> VStr n ∈ l2) -> depth <= CEDAR_MAX_DEPTH ->
  forallb is_text items = true ->
  (forall n, n ∈ _literal_names (py_expr (OP_SET items)) -> n ∈ answer) ->
  (let! v := cedar_eval r (OP_SET items) (depth + 1) in
   match v with
   | VSet _ k => let! outcome := contains_loop all l1 k depth in Ok (VBool outcome)
   | _ => cedar_fail RequiresSetArgument
   end) =
  (let! v := cedar_eval r (OP_SET items) (depth + 1) in
   match v with
   | VSet _ k => let! outcome := contains_loop all l2 k depth in Ok (VBool outcome)
   | _ => cedar_fail RequiresSetArgument
   end).
Proof.
  intros T1 T2 Hsame Hd Hlit Hnames. rewrite cedar_eval_set.
  destruct (CEDAR_MAX_DEPTH <? depth + 1); [done|].
  destruct (eval_items r (depth + 1) items [] []) as [v|] eqn:Ev; [|done]. cbn [res_bind].
  apply (eval_items_named answer) in Ev as (k & -> & Hk).
  - by rewrite (contains_loop_same answer l1 l2 depth T1 T2 Hsame Hd all k Hk).
  - intros x Hx. pose proof (forallb_elem _ _ _ Hlit Hx) as [n Hn]%is_text_inv. exists n.
    split; [done|]. apply Hnames. by eapply literal_names_items.
  - done.
Qed.

(** One naming call on the set, in the two requests. *)
Lemma eval_named_call r1 r2 a (answer : list pystr) m base argument depth :
  same_members a answer (r_context r1) (r_context r2) ->
  gets_context a base = true -> literal_argument m (Some argument) = true ->
  (forall n, n ∈ _literal_names (py_expr argument) -> n ∈ answer) ->
  (forall d, cedar_eval r1 argument d = cedar_eval r2 argument d) ->
  cedar_eval r1 (OP_METHOD m base (Some argument)) depth =
  cedar_eval r2 (OP_METHOD m base (Some argument)) depth.
Proof.
  intros (_ & rep1 & l1 & rep2 & l2 & G1 & G2 & T1 & T2 & Hsame) Hg Hlit Hnames Harg.
  cbn [cedar_eval]. destruct (CEDAR_MAX_DEPTH <? depth) eqn:Hd; [done|].
  apply Z.ltb_ge in Hd. rewrite !(eval_gets_context _ a base _ Hg).
  destruct (CEDAR_MAX_DEPTH <? depth + 1); [done|]. destruct (CEDAR_MAX_DEPTH <? depth + 1 + 1); [done|].
  cbn [cedar_eval_getattr]. rewrite G1, G2. cbn [res_bind]. unfold set_method. rewrite Harg.
  destruct m; [..|done].
  - apply is_text_inv in Hlit as [n ->]. cbn [cedar_eval].
    destruct (CEDAR_MAX_DEPTH <? depth + 1); [done|]. cbn [res_bind value_of_const].
    by rewrite (set_contains_same answer l1 l2 depth T1 T2 Hsame Hd n)
      by (apply Hnames; rewrite literal_names_text; set_solver).
  - cbn in Hlit. destruct argument; try done. by apply (named_argument_same answer _ l1 l2).
  - cbn in Hlit. destruct argument; try done. by apply (named_argument_same answer _ l1 l2).
Qed.

Lemma py_expr_gets_context a x :
  py_eqb (py_expr x) (_context_attribute a) = true -> gets_context a x = true.
Proof.
  destruct x as [c|[]| | | |o|o| | | | | |e ty b| | | |e n|m e b]; try done; cbn;
    try (by rewrite ?andb_false_r); try (by destruct o); try (by destruct b); try (by destruct m).
  rewrite andb_true_r. intros [He Hn]%andb_prop.
  destruct e as [c|[]| | | |o|o| | | | | |e ty b| | | |e n'|m e b]; try done.
  all: try (cbn in He; by destruct o). all: try (cbn in He; by destruct b).
Qed.

(** What is required of an expression for its members to be named. *)
Definition members_named (a : pystr) (answer : list pystr) (e : expr) : Prop :=
  context_direct e = true /\ exists_expr (computed_member a) e = false /\
  gets_context a e = false /\
  all_tuples (names_members (_context_attribute a) answer) (py_expr e) = true.

Lemma context_direct_operand e x :
  context_direct e = true -> x ∈ operands e -> is_var ContextVar x = false -> context_direct x = true.
Proof.
  unfold context_direct. intros [_ H]%andb_prop Hx ->. cbn.
  apply negb_true_iff in H. by rewrite (exists_expr_operand _ _ _ Hx H).
Qed.

Lemma context_direct_var e x :
  context_direct e = true -> direct_read e = false -> x ∈ operands e -> is_var ContextVar x = false.
Proof.
  unfold context_direct. intros [_ H]%andb_prop Hr Hx. apply negb_true_iff, exists_expr_here in H.
  destruct e; cbn [operands] in Hx; try (by apply (uses_context_operand _ x H));
    by apply list_elem_of_singleton in Hx as ->.
Qed.

Lemma member_names_inv target e names :
  member_names target (expr_tuple e) = Some names ->
  exists m base argument, e = OP_METHOD m base argument /\ py_eqb (py_expr base) target = true.
Proof.
  intros H. destruct e as [c| | | | | | | | | | | | | | | | |m e b]; try done;
    cbn [expr_tuple py_expr member_names] in H;
    try (match type of H with context [match py_expr ?x with _ => _ end] =>
           rewrite (py_expr_tuple x) in H end); try done; [by destruct c|].
  destruct (_ && py_eqb (py_expr e) target) eqn:Hm in H; [|done]. apply andb_prop in Hm as [_ Hm]. eauto.
Qed.

(** The only place for [context.<a>] is the base of a naming call. *)
Lemma named_operand a answer e x :
  members_named a answer e -> x ∈ operands e -> gets_context a x = true ->
  exists m argument, e = OP_METHOD m x (Some argument) /\ literal_argument m (Some argument) = true.
Proof.
  intros (Hd & Hc & Hg & Ht) Hx Hgx.
  destruct (match e with OP_SET _ | OP_RECORD _ => true | _ => false end) eqn:Hs.
  { rewrite (nested_in_tuple a e x answer Hx Hgx) in Ht; [done|]. destruct e; try done; eauto. }
  pose proof Ht as Ht'. rewrite all_tuples_expr in Ht'. apply andb_prop in Ht' as [Hn _].
  unfold names_members in Hn.
  rewrite (operand_in_tuple a e x Hx Hgx) in Hn by (by intros l ->).
  cbn [negb orb] in Hn. apply exists_expr_here in Hc.
  destruct (member_names (_context_attribute a) (expr_tuple e)) as [names|] eqn:Hm; [|done].
  apply member_names_inv in Hm as (m & base & b & -> & He%py_expr_gets_context).
  cbn [computed_member] in Hc. rewrite He in Hc. cbn [andb] in Hc. apply negb_false_iff in Hc.
  destruct b as [arg|]; [|by destruct m]. exists m, arg. split; [|done]. f_equal.
  cbn [operands] in Hx. apply elem_of_cons in Hx as [->|Hx]; [done|].
  apply list_elem_of_singleton in Hx as ->. exfalso.
  destruct m, arg as [[]| | | | | | | | | | | | | | | | |]; done.
Qed.

Lemma members_named_operand a answer e x :
  members_named a answer e -> direct_read e = false -> x ∈ operands e ->
  gets_context a x = false -> members_named a answer x.
Proof.
  intros (Hd & Hc & _ & Ht) Hr Hx Hg. split_and!; [|by eapply exists_expr_operand|done|by eapply all_tuples_operand].
  eapply context_direct_operand; [done..|]. by eapply context_direct_var.
Qed.

(** A literal argument does not depend on the request. *)
Lemma literal_argument_eval r1 r2 m argument d :
  literal_argument m (Some argument) = true -> cedar_eval r1 argument d = cedar_eval r2 argument d.
Proof.
  intros H. assert (forall x, x ∈ operands argument -> is_text x = true) as Ho.
  { destruct m, argument as [[]| | | | | | | | | | | | | | | | |]; cbn in *; try done;
      intros x Hx; try (by apply elem_of_nil in Hx); by eapply forallb_elem in Hx. }
  apply eval_operands_ext.
  - intros x [n ->]%Ho%is_text_inv d'. done.
  - destruct m, argument as [[]| | | | | | | | | | | | | | | | |]; done.
  - intros v ->. by destruct m.
Qed.

Lemma eval_direct_members r1 r2 a answer e d :
  same_members a answer (r_context r1) (r_context r2) -> gets_context a e = false ->
  direct_read e = true -> cedar_eval r1 e d = cedar_eval r2 e d.
Proof.
  intros (Ho & rep1 & l1 & rep2 & l2 & G1 & G2 & _) Hg Hr.
  destruct e as [| | | | | | | | | |b n| | | | | |b n|]; try done;
    (destruct b as [|[]| | | | | | | | | | | | | | | |]; try done);
    cbn [cedar_eval]; destruct (CEDAR_MAX_DEPTH <? d); try done;
    destruct (CEDAR_MAX_DEPTH <? d + 1); try done;
    cbn [res_bind var_value cedar_eval_getattr cedar_has]; unfold dmem.
  - destruct (decide (n = a)) as [->|Hn]; [by rewrite G1, G2|by rewrite Ho].
  - rewrite Ho; [done|]. cbn in Hg. by apply bool_decide_eq_false in Hg.
Qed.

Lemma eval_members_agree r1 r2 a answer e depth :
  same_but_context r1 r2 -> same_members a answer (r_context r1) (r_context r2) ->
  members_named a answer e -> cedar_eval r1 e depth = cedar_eval r2 e depth.
Proof.
  intros Hsame Hm He. revert depth.
  apply (eval_context_ext r1 r2 (members_named a answer)); [done| |done].
  clear e He. intros e He. destruct (direct_read e) eqn:Hr.
  - left. intros d. destruct He as (_ & _ & Hg & _). by eapply eval_direct_members.
  - destruct (existsb (gets_context a) (operands e)) eqn:Hg.
    + left. apply existsb_exists in Hg as (x & Hx%list_elem_of_In & Hgx).
      destruct (named_operand a answer e x He Hx Hgx) as (m & arg & -> & Hlit).
      intros d. apply (eval_named_call r1 r2 a answer); [done..| |].
      * destruct He as (_ & _ & _ & Ht). rewrite all_tuples_expr in Ht. apply andb_prop in Ht as [Ht _].
        by eapply names_members_method.
      * intros d'. by eapply literal_argument_eval.
    + right. split; [by destruct He as (Hd & _); apply andb_prop in Hd as [Hd%negb_true_iff _]; apply is_var_false|].
      intros x Hx. eapply members_named_operand; [done..|].
      destruct (gets_context a x) eqn:E; [|done]. rewrite <- Hg. symmetry. apply existsb_exists.
      exists x. split; [by apply list_elem_of_In|done].
Qed.
