(* ===== verification/CedarSchema.v ===== *)
(** * Cedar: schemas

    [_auth/cedar_schema.py]: the scanner of the schema text, its types, the
    action hierarchy, and the validation of a compiled policy against the
    contexts of its actions.  The regular expressions of the source are
    written out as the scan they describe; where one can match in two ways the
    longest first part is tried first.  The codec [unicode_escape] is a
    parameter. *)

From stdpp Require Import base sets strings numbers list gmap.
From Stdlib Require Import ZArith Lia.
From S2P Require Import Prelude PyCollections PyText CedarSyntax CedarLexer CedarAnalysis.
#[local] Open Scope Z_scope.

(** ** Types *)

Inductive stype : Type :=
| TName (name : pystr)
| _Record (fields : list (pystr * stype))
| _Set (item : stype).

Record schema_action : Type := _Action {
  sa_parents : list pystr;
  sa_context : option stype }.

(** Which [ValueError] the source raises. *)
Inductive schema_error : Type :=
| EmptySchema
| SchemaTooLong
| UnclosedComment
| MissingSemicolon
| TypeTooDeep
| InvalidField
| NotEncodable
| ReferenceTooDeep
| NamespaceUnsupported
| EntityNotRecord (name : pystr)
| UnsupportedDeclaration
| UnknownParent (name parent : pystr)
| UnknownAction (name : pystr)
| NotAnAction (type : pystr)
| NoContext (name : pystr)
| UnknownAttribute (name : pystr)
| AttributeNotText.

Definition R (A : Type) : Type := res schema_error A.

Definition _MAX_SCHEMA_BYTES : Z := 2 ^ 20.
Definition _MAX_TYPE_DEPTH : nat := 64.

(** ** Scanning *)

(** A quoted text from its opening quote on: the text with both quotes, as far
    as it goes, and the rest. *)
Fixpoint take_quoted (s : pystr) : pystr * pystr :=
  match s with
  | [] => ([], [])
  | c :: s' =>
    if c =? backslash then
      match s' with
      | d :: s'' => let '(a, b) := take_quoted s'' in (c :: d :: a, b)
      | [] => ([c], [])
      end
    else if c =? quote then ([c], s')
    else let '(a, b) := take_quoted s' in (c :: a, b)
  end.

(** What follows the end of a block comment. *)
Fixpoint after_block (s : pystr) : option pystr :=
  match s with
  | [] => None
  | c :: s' => if startswith [42; 47] s then Some (drop 2 s) else after_block s'
  end.

Fixpoint without_comments_loop (fuel : nat) (s : pystr) : R pystr :=
  match fuel with
  | O => Err UnclosedComment
  | S fuel =>
    match s with
    | [] => Ok []
    | c :: s' =>
      if c =? quote then
        let '(text, rest) := take_quoted s' in
        let! out := without_comments_loop fuel rest in Ok (c :: text ++ out)
      else if startswith [47; 47] s then
        match find_char newline (drop 2 s) with
        | None => Ok [32]
        | Some (_, rest) => let! out := without_comments_loop fuel rest in Ok (32 :: newline :: out)
        end
      else if startswith [47; 42] s then
        match after_block (drop 2 s) with
        | None => Err UnclosedComment
        | Some rest => let! out := without_comments_loop fuel rest in Ok (32 :: out)
        end
      else let! out := without_comments_loop fuel s' in Ok (c :: out)
    end
  end.

Definition _without_comments (source : pystr) : R pystr :=
  without_comments_loop (S (length source)) source.

Definition opens (c : Z) : bool := (c =? 123) || (c =? 91) || (c =? 60).
Definition closes (c : Z) : bool := (c =? 125) || (c =? 93) || (c =? 62).

(** The state of the two splitters: inside quotes, after a backslash, depth. *)
Record split_state : Type := mk_split { quoted : bool; escaped : bool; depth : Z }.

(** One character: the next state, and whether it is a separator at depth 0. *)
Definition split_step (separator : Z) (st : split_state) (c : Z) : split_state * bool :=
  if quoted st then
    if escaped st then (mk_split true false (depth st), false)
    else if c =? backslash then (mk_split true true (depth st), false)
    else if c =? quote then (mk_split false false (depth st), false)
    else (st, false)
  else if c =? quote then (mk_split true (escaped st) (depth st), false)
  else if opens c then (mk_split false (escaped st) (depth st + 1), false)
  else if closes c then (mk_split false (escaped st) (depth st - 1), false)
  else (st, (c =? separator) && (depth st =? 0)).

(** The pieces between separators, with what follows the last one. *)
Fixpoint split_loop (separator : Z) (st : split_state) (current s : pystr) : list pystr * pystr :=
  match s with
  | [] => ([], current)
  | c :: s =>
    let '(st, cut) := split_step separator st c in
    if cut : bool then
      let '(pieces, last) := split_loop separator st [] s in (current :: pieces, last)
    else split_loop separator st (current ++ [c]) s
  end.

Definition split_top (separator : Z) (s : pystr) : list pystr * pystr :=
  split_loop separator (mk_split false false 0) [] s.

Section schema.
Context {U : UnicodeData}.
Context (unicode_escape : pystr -> option pystr).

Definition _statements (source : pystr) : R (list pystr) :=
  let '(pieces, tail) := split_top 59 source in
  match strip_text tail with
  | [] => Ok (List.filter (fun s => negb (bool_decide (s = []))) (map strip_text pieces))
  | _ => Err MissingSemicolon
  end.

(** A part before a comma is kept even when it is empty. *)
Definition _parts (source : pystr) : list pystr :=
  let '(pieces, tail) := split_top 44 source in
  map strip_text pieces ++ match strip_text tail with [] => [] | part => [part] end.

(** The character class [\w]. *)
Definition is_word (c : Z) : bool := isalnum c || (c =? 95).
Definition name_start (c : Z) : bool := ascii_letter c || (c =? 95).

(** A quoted text after its opening quote: the inside as written, with the
    escapes in it. *)
Fixpoint closed_quoted (s : pystr) : option (pystr * pystr) :=
  match s with
  | [] => None
  | c :: s' =>
    if c =? backslash then
      match s' with
      | d :: s'' => match closed_quoted s'' with Some (a, b) => Some (c :: d :: a, b) | None => None end
      | [] => None
      end
    else if c =? quote then Some ([], s')
    else match closed_quoted s' with Some (a, b) => Some (c :: a, b) | None => None end
  end.

(** An optional question mark, a colon, and the text of the type. *)
Definition field_type_text (s : pystr) : option pystr :=
  let s := lstrip_text s in
  let s := match s with c :: r => if c =? 63 then lstrip_text r else s | [] => s end in
  match s with
  | c :: r => if c =? 58 then match lstrip_text r with [] => None | t => Some t end else None
  | [] => None
  end.

(** The name of a declared field and the text of its type. *)
Definition field_match (declaration : pystr) : R (pystr * pystr) :=
  match declaration with
  | [] => Err InvalidField
  | c :: s =>
    if c =? quote then
      match closed_quoted s with
      | Some (d :: inside, rest) =>
        match field_type_text rest with
        | Some t =>
          match unicode_escape (d :: inside) with
          | Some name => Ok (name, t)
          | None => Err NotEncodable
          end
        | None => Err InvalidField
        end
      | _ => Err InvalidField
      end
    else if name_start c then
      let '(more, rest) := span_text is_word s in
      match field_type_text rest with Some t => Ok (c :: more, t) | None => Err InvalidField end
    else Err InvalidField
  end.

Definition ends_with (c : Z) (s : pystr) : bool :=
  match rev s with x :: _ => x =? c | [] => false end.

Fixpoint fold_fields (type : pystr -> R stype) (ds : list pystr) (fields : list (pystr * stype)) :
    R (list (pystr * stype)) :=
  match ds with
  | [] => Ok fields
  | d :: ds =>
    let! (name, text) := field_match d in
    let! t := type text in
    fold_fields type ds (dset fields name t)
  end.

(** [_type], with the nesting still allowed. *)
Fixpoint _type (levels : nat) (source : pystr) (aliases : list (pystr * stype)) : R stype :=
  match levels with
  | O => Err TypeTooDeep
  | S levels =>
    let source := strip_text source in
    if startswith [123] source && ends_with 125 source then
      let! fields := fold_fields (fun t => _type levels t aliases) (_parts (removelast (drop 1 source))) [] in
      Ok (_Record fields)
    else if startswith (bs "Set<") source && ends_with 62 source then
      let! item := _type levels (removelast (drop 4 source)) aliases in Ok (_Set item)
    else Ok (default (TName source) (dget aliases source))
  end.

Definition type_of (source : pystr) (aliases : list (pystr * stype)) : R stype :=
  _type (S _MAX_TYPE_DEPTH) source aliases.

(** [_resolve], with the references still allowed. *)
Fixpoint _resolve (levels : nat) (aliases entities : list (pystr * stype)) (seen : list pystr)
    (t : stype) : R stype :=
  match levels with
  | O => Err ReferenceTooDeep
  | S levels =>
    match t with
    | TName name =>
      if text_in name seen then Ok t
      else
        match dget aliases name with
        | Some target => _resolve levels aliases entities (name :: seen) target
        | None =>
          match dget entities name with
          | Some target => _resolve levels aliases entities (name :: seen) target
          | None => Ok t
          end
        end
    | _Record fields =>
      let! fields :=
        (fix go fs :=
           match fs with
           | [] => Ok []
           | (name, item) :: fs =>
             let! item := _resolve levels aliases entities seen item in
             let! fs := go fs in Ok ((name, item) :: fs)
           end) fields in
      Ok (_Record fields)
    | _Set item => let! item := _resolve levels aliases entities seen item in Ok (_Set item)
    end
  end.

Definition resolve (aliases entities : list (pystr * stype)) (t : stype) : R stype :=
  _resolve (S _MAX_TYPE_DEPTH) aliases entities [] t.

Fixpoint resolve_all (aliases entities d : list (pystr * stype)) : R (list (pystr * stype)) :=
  match d with
  | [] => Ok []
  | (name, t) :: d =>
    let! t := resolve aliases entities t in
    let! d := resolve_all aliases entities d in Ok ((name, t) :: d)
  end.

(** ** Declarations *)

(** A word and at least one space. *)
Definition keyword_then_space (word : String.string) (s : pystr) : option pystr :=
  if startswith (bs word) s then
    match drop (length (bs word)) s with
    | c :: r => if isspace c then Some (lstrip_text r) else None
    | [] => None
    end
  else None.

Definition path_char (c : Z) : bool := is_word c || (c =? 58).

(** An equals sign and what it introduces. *)
Definition equals_text (s : pystr) : option pystr :=
  match s with
  | c :: r => if c =? 61 then match lstrip_text r with [] => None | t => Some t end else None
  | [] => None
  end.

Definition type_declaration (statement : pystr) : option (pystr * pystr) :=
  match keyword_then_space "type" statement with
  | Some (c :: s) =>
    if name_start c then
      let '(more, rest) := span_text path_char s in
      match equals_text (lstrip_text rest) with Some t => Some (c :: more, t) | None => None end
    else None
  | _ => None
  end.

(** The word [in] and a bracketed list: the text in the brackets and the rest. *)
Definition in_clause (s : pystr) : option (pystr * pystr) :=
  if startswith (bs "in") s then
    match lstrip_text (drop 2 s) with
    | c :: r => if c =? 91 then find_char 93 r else None
    | [] => None
    end
  else None.

(** What follows the name of an entity: the text of its record, if any. *)
Definition entity_rest (s : pystr) : option (option pystr) :=
  let s := lstrip_text s in
  let s := match in_clause s with Some (_, rest) => lstrip_text rest | None => s end in
  match s with
  | [] => Some None
  | _ => match equals_text s with Some t => Some (Some t) | None => None end
  end.

(** The longest name first. *)
Fixpoint entity_name (k : nat) (s : pystr) : option (pystr * option pystr) :=
  match entity_rest (drop k s) with
  | Some t => Some (take k s, t)
  | None => match k with O => None | S O => None | S k => entity_name k s end
  end.

Definition entity_declaration (statement : pystr) : option (pystr * option pystr) :=
  match keyword_then_space "entity" statement with
  | Some (c :: s) =>
    if name_start c then entity_name (S (length (fst (span_text path_char s)))) (c :: s) else None
  | _ => None
  end.

Definition action_declaration (statement : pystr) : option (pystr * pystr) :=
  match keyword_then_space "action" statement with
  | Some (c :: s) => if c =? quote then closed_quoted s else None
  | _ => None
  end.

(** [re.findall] of quoted texts. *)
Fixpoint quoted_texts (fuel : nat) (s : pystr) : list pystr :=
  match fuel with
  | O => []
  | S fuel =>
    match s with
    | [] => []
    | c :: s' =>
      if c =? quote then
        match closed_quoted s' with
        | Some (inside, rest) => inside :: quoted_texts fuel rest
        | None => quoted_texts fuel s'
        end
      else quoted_texts fuel s'
    end
  end.

Definition action_parent_names (body : pystr) : list pystr :=
  match in_clause (lstrip_text body) with
  | Some (inside, _) => quoted_texts (S (length inside)) inside
  | None => []
  end.

Definition rstrip_text (s : pystr) : pystr := rev (lstrip_text (rev s)).

(** The search for [appliesTo] and the braces that end the declaration. *)
Fixpoint applies_to (s : pystr) : option pystr :=
  let here :=
    if startswith (bs "appliesTo") s then
      match lstrip_text (drop 9 s) with
      | c :: r =>
        if (c =? 123) && ends_with 125 (rstrip_text r) then Some (removelast (rstrip_text r)) else None
      | [] => None
      end
    else None in
  match here with
  | Some body => Some body
  | None => match s with [] => None | _ :: s => applies_to s end
  end.

(** The last [context] entry of an [appliesTo] body. *)
Fixpoint context_entry (entries : list pystr) (aliases entities : list (pystr * stype))
    (context : option stype) : R (option stype) :=
  match entries with
  | [] => Ok context
  | entry :: entries =>
    match find_char 58 entry with
    | Some (key, text) =>
      if bool_decide (strip_text key = bs "context") then
        let! t := type_of text aliases in
        let! t := resolve aliases entities t in
        context_entry entries aliases entities (Some t)
      else context_entry entries aliases entities context
    | None => context_entry entries aliases entities context
    end
  end.

Fixpoint compile_actions (pending : list (pystr * pystr)) (aliases entities : list (pystr * stype))
    (actions : list (pystr * schema_action)) : R (list (pystr * schema_action)) :=
  match pending with
  | [] => Ok actions
  | (name, body) :: pending =>
    let! context :=
      match applies_to body with
      | Some inside => context_entry (_parts inside) aliases entities None
      | None => Ok None
      end in
    compile_actions pending aliases entities
      (dset actions name (_Action (action_parent_names body) context))
  end.

(** The declarations read so far. *)
Record declarations : Type := mk_declarations {
  d_aliases : list (pystr * stype);
  d_entities : list (pystr * stype);
  d_pending : list (pystr * pystr) }.

Definition declare (d : declarations) (statement : pystr) : R declarations :=
  if startswith (bs "namespace ") statement then Err NamespaceUnsupported
  else
    match type_declaration statement with
    | Some (name, text) =>
      let! t := type_of text (d_aliases d) in
      Ok (mk_declarations (dset (d_aliases d) name t) (d_entities d) (d_pending d))
    | None =>
      match entity_declaration statement with
      | Some (name, text) =>
        let! t := type_of (default (bs "{}") text) (d_aliases d) in
        match t with
        | _Record _ => Ok (mk_declarations (d_aliases d) (dset (d_entities d) name t) (d_pending d))
        | _ => Err (EntityNotRecord name)
        end
      | None =>
        match action_declaration statement with
        | Some (name, body) =>
          Ok (mk_declarations (d_aliases d) (d_entities d) (d_pending d ++ [(name, body)]))
        | None => Err UnsupportedDeclaration
        end
      end
    end.

Fixpoint declare_all (d : declarations) (statements : list pystr) : R declarations :=
  match statements with
  | [] => Ok d
  | s :: statements => let! d := declare d s in declare_all d statements
  end.

Record CedarSchema : Type := mk_schema {
  s_source : pystr;
  s_aliases : list (pystr * stype);
  s_entities : list (pystr * stype);
  s_actions : list (pystr * schema_action);
  s_children : list (pystr * list pystr) }.

(** The first action that names a parent nobody declares. *)
Fixpoint unknown_parent (known : list pystr) (actions : list (pystr * schema_action)) :
    option (pystr * pystr) :=
  match actions with
  | [] => None
  | (name, a) :: actions =>
    match List.find (fun parent => negb (text_in parent known)) (sa_parents a) with
    | Some parent => Some (name, parent)
    | None => unknown_parent known actions
    end
  end.

(** [children[parent].append(child)]. *)
Definition add_child (children : list (pystr * list pystr)) (parent child : pystr) :
    list (pystr * list pystr) :=
  dset children parent (default [] (dget children parent) ++ [child]).

Definition children_of (actions : list (pystr * schema_action)) : list (pystr * list pystr) :=
  fold_left (fun cs kv => fold_left (fun cs parent => add_child cs parent (kv.1)) (sa_parents (kv.2)) cs)
    actions (map (fun kv => (kv.1, [])) actions).

(** The length of the text in UTF-8. *)
Definition utf8_length (s : pystr) : Z :=
  fold_right (fun c n => (if c <? 0x80 then 1 else if c <? 0x800 then 2 else if c <? 0x10000 then 3 else 4) + n) 0 s.

Definition schema_init (source : pystr) : R CedarSchema :=
  match strip_text source with
  | [] => Err EmptySchema
  | _ =>
    if _MAX_SCHEMA_BYTES <? utf8_length source then Err SchemaTooLong
    else
      let! text := _without_comments source in
      let! statements := _statements text in
      let! d := declare_all (mk_declarations [] [] []) statements in
      let! aliases := resolve_all (d_aliases d) (d_entities d) (d_aliases d) in
      let! entities := resolve_all aliases (d_entities d) (d_entities d) in
      let! actions := compile_actions (d_pending d) aliases entities [] in
      match unknown_parent (dkeys actions) actions with
      | Some (name, parent) => Err (UnknownParent name parent)
      | None => Ok (mk_schema source aliases entities actions (children_of actions))
      end
  end.
End schema.

(** ** The action hierarchy *)

Definition schema_actions (s : CedarSchema) : list pystr := dkeys (s_actions s).

Definition action_parents (s : CedarSchema) (name : pystr) : list pystr :=
  match dget (s_actions s) name with Some a => sa_parents a | None => [] end.

Definition schema_children (s : CedarSchema) (name : pystr) : list pystr :=
  default [] (dget (s_children s) name).

(** The loop of [descendants]; the top of the stack is first. *)
Fixpoint descendants_loop (fuel : nat) (s : CedarSchema) (found stack : list pystr) : option (list pystr) :=
  match fuel with
  | O => None
  | S fuel =>
    match stack with
    | [] => Some found
    | current :: stack =>
      if text_in current found then descendants_loop fuel s found stack
      else descendants_loop fuel s (current :: found) (rev (schema_children s current) ++ stack)
    end
  end.

Definition child_count (s : CedarSchema) : nat := list_sum (map (fun kv => length (kv.2)) (s_children s)).

Definition descendants (s : CedarSchema) (name : pystr) : list pystr :=
  default [] (descendants_loop (2 + child_count s) s [] [name]).

(** [contexts(actions)]: a grouping action contributes nothing of its own. *)
Definition contexts (s : CedarSchema) (actions : list pystr) : list (option stype) :=
  omap (fun kv =>
    if negb (text_in (kv.1) actions) then None
    else
      match sa_context (kv.2), schema_children s (kv.1) with
      | None, _ :: _ => None
      | c, _ => Some c
      end) (s_actions s).

Definition require_action (s : CedarSchema) (name : pystr) : R unit :=
  if text_in name (schema_actions s) then Ok tt else Err (UnknownAction name).

(** ** Validation of a compiled expression *)

(** [_field_type]: the empty tuple when a type is no record or lacks the field. *)
Fixpoint fields_of (types : list (option stype)) (name : pystr) : option (list (option stype)) :=
  match types with
  | [] => Some []
  | Some (_Record fields) :: types =>
    match dget fields name, fields_of types name with
    | Some t, Some ts => Some (Some t :: ts)
    | _, _ => None
    end
  | _ :: _ => None
  end.

Definition _field_type (types : list (option stype)) (name : pystr) : list (option stype) :=
  default [] (fields_of types name).

Fixpoint _expression_types (node : pyobj) (contexts : list (option stype)) : list (option stype) :=
  if py_eqb node (py_var ContextVar) then contexts
  else
    match node with
    | PyTuple [PyInt op; base; PyStr name] =>
      if op =? 16 then _field_type (_expression_types base contexts) name else []
    | _ => []
    end.

(** The check of one tuple. *)
Definition validate_node (l : list pyobj) (contexts : list (option stype)) : R unit :=
  match l with
  | [PyInt op; base; name] =>
    if (op =? 10) || (op =? 16) then
      match name with
      | PyStr name =>
        let base_types := _expression_types base contexts in
        match base_types with
        | [] => if py_eqb base (py_var ContextVar) then Err (NoContext name) else Ok tt
        | _ =>
          match _field_type base_types name with [] => Err (UnknownAttribute name) | _ => Ok tt end
        end
      | _ => Err AttributeNotText
      end
    else Ok tt
  | _ => Ok tt
  end.

Fixpoint validate_context_expression (node : pyobj) (contexts : list (option stype)) : R unit :=
  match node with
  | PyTuple l =>
    let! _ := validate_node l contexts in
    (fix go l :=
       match l with
       | [] => Ok tt
       | part :: l => let! _ := validate_context_expression part contexts in go l
       end) l
  | _ => Ok tt
  end.
