(* ===== verification/CedarEngine.v ===== *)
(** * Cedar: the policy set

    [EntityUid], [CedarEntity] and [CedarPolicies] of [_auth/cedar_engine.py]:
    conversion of Python values, the entity store and its layers, the checks
    of construction, and the queries.  [depth] is the nesting of calls the
    interpreter allows the parser. *)

From stdpp Require Import base sets strings numbers list gmap.
From Stdlib Require Import ZArith Lia.
From S2P Require Import Prelude PyCollections PyText CedarSyntax CedarLexer CedarParser.
From S2P Require Import CedarEval CedarAnalysis CedarSchema.
#[local] Open Scope Z_scope.

(** ** Python values *)

(** What a caller can put into a context or an attribute; a key of a mapping
    is a text or something else. *)
Inductive pyvalue : Type :=
| PvBool (b : bool)
| PvInt (z : Z)
| PvStr (s : pystr)
| PvUid (u : uid)
| PvMapping (items : list (option pystr * pyvalue))
| PvSequence (items : list pyvalue)
| PvSet (items : list pyvalue)
| PvFrozenset (items : list pyvalue)
| PvOther.

(** [cedar_convert_value]: [None] is the [TypeError].  A list or tuple loses
    its duplicates; the members of a set are converted one by one. *)
Fixpoint cedar_to_value (v : pyvalue) : option value :=
  match v with
  | PvBool b => Some (VBool b)
  | PvInt z => if i64 z then Some (VInt z) else None
  | PvStr s => Some (VStr s)
  | PvUid u => Some (VUid u)
  | PvMapping items =>
    (fix go items acc :=
       match items with
       | [] => Some (VRecord acc)
       | (Some key, item) :: items =>
         match cedar_to_value item with
         | Some w => go items (dset acc key w)
         | None => None
         end
       | (None, _) :: _ => None
       end) items []
  | PvSequence items =>
    (fix go items seen acc :=
       match items with
       | [] => Some (VSet AsList acc)
       | item :: items =>
         match cedar_to_value item with
         | Some w => let '(seen, acc) := dedupe_step w seen acc in go items seen acc
         | None => None
         end
       end) items [] []
  | PvSet items | PvFrozenset items =>
    (fix go items acc :=
       match items with
       | [] => Some (VSet AsList acc)
       | item :: items =>
         match cedar_to_value item with
         | Some w => go items (acc ++ [w])
         | None => None
         end
       end) items []
  | PvOther => None
  end.

(** [cedar_prepared_value]: the value read in place, or [None] when it needs a
    conversion.  Only the context itself may be a mapping. *)
Fixpoint prepared_value (v : pyvalue) (depth : Z) {struct v} : option value :=
  if CEDAR_MAX_DEPTH <? depth then None
  else
    match v with
    | PvBool b => Some (VBool b)
    | PvStr s => Some (VStr s)
    | PvInt z => if i64 z then Some (VInt z) else None
    | PvMapping items =>
      if depth =? 0 then
        (fix go items acc :=
           match items with
           | [] => Some (VRecord acc)
           | (Some key, item) :: items =>
             match prepared_value item (depth + 1) with
             | Some w => go items (dset acc key w)
             | None => None
             end
           | (None, _) :: _ => None
           end) items []
      else None
    | PvFrozenset items =>
      (fix go items acc :=
         match items with
         | [] => Some (VSet AsFrozenset acc)
         | item :: items =>
           match prepared_value item (depth + 1) with
           | Some w => go items (acc ++ [w])
           | None => None
           end
         end) items []
    | _ => None
    end.

(** ** Entity references *)

(** [text.replace(c, "\\" + c)] for the two characters that are escaped. *)
Definition escape_id (id : pystr) : pystr :=
  flat_map (fun c => if c =? quote then [backslash; quote] else [c])
    (flat_map (fun c => if c =? backslash then [backslash; backslash] else [c]) id).

Definition uid_str (u : uid) : pystr :=
  u.1 ++ bs "::" ++ [quote] ++ escape_id (u.2) ++ [quote].

(** [text.split("::")]. *)
Fixpoint split_path (fuel : nat) (current s : pystr) : list pystr :=
  match fuel with
  | O => [current]
  | S fuel =>
    match s with
    | [] => [current]
    | c :: s' =>
      if startswith (bs "::") s then current :: split_path fuel [] (drop 2 s)
      else split_path fuel (current ++ [c]) s'
    end
  end.

(** [text.rpartition("::")]: the head and the tail around the last separator. *)
Fixpoint rpartition (fuel : nat) (current s : pystr) (found : option (pystr * pystr)) :
    option (pystr * pystr) :=
  match fuel with
  | O => found
  | S fuel =>
    match s with
    | [] => found
    | c :: s' =>
      rpartition fuel (current ++ [c]) s'
        (if startswith (bs "::") s then Some (current, drop 2 s) else found)
    end
  end.

Section engine.
Context {U : UnicodeData}.

(** The bare form [Type::id]. *)
Definition parse_bare (text : pystr) : res parse_error uid :=
  let '(head, tail) := default ([], text) (rpartition (length text) [] text None) in
  let valid_type := forallb isidentifier (split_path (length head) [] head) in
  let unmatched_leading_quote := startswith [quote] tail && negb (bool_decide (quote ∈ drop 1 tail)) in
  let invalid_id :=
    bool_decide (tail = []) ||
    existsb (fun c => isspace c || (c =? backslash) || (c <? 32)) tail ||
    (bool_decide (quote ∈ tail) && negb unmatched_leading_quote) in
  if negb valid_type || invalid_id then Err (CedarParseError NotAnEntityReference None)
  else Ok (head, tail).

(** [EntityUid.parse]: Cedar syntax first. *)
Definition uid_parse (text : pystr) : res parse_error uid :=
  let quoted :=
    let! ts := _tokenize text in
    let! (u, ts) := _entity_uid ts in
    let! _ := _expect KEof ts in
    Ok u in
  match quoted with
  | Ok u => Ok u
  | Err (CedarParseError _ _) => parse_bare text
  | Err e => Err e
  end.

(** [_as_uid_tuple] on the two types it accepts. *)
Inductive entity_ref : Type :=
| RefUid (u : uid)
| RefText (text : pystr).

Definition _as_uid_tuple (r : entity_ref) : res parse_error uid :=
  match r with
  | RefUid u => Ok u
  | RefText text => uid_parse text
  end.

(** ** Entities and stores *)

Record CedarEntity : Type := mk_entity {
  e_uid : uid;
  e_attrs : list (option pystr * pyvalue);
  e_parents : list uid }.

Inductive engine_error : Type :=
| ParseFailed (e : parse_error)
| ConversionError
| OverrideError (us : list uid)
| PlanError
| EvaluationRaised.

Definition G (A : Type) : Type := res engine_error A.

Definition lift_parse {A} (c : res parse_error A) : G A :=
  match c with Ok a => Ok a | Err e => Err (ParseFailed e) end.

Definition lift_eval {A} (c : E A) : G A :=
  match c with Ok a => Ok a | Err _ => Err EvaluationRaised end.

Definition to_record (items : list (option pystr * pyvalue)) : G (list (pystr * value)) :=
  match cedar_to_value (PvMapping items) with
  | Some (VRecord d) => Ok d
  | _ => Err ConversionError
  end.

(** [_entity_maps]: a later entity replaces an earlier one with its uid. *)
Fixpoint _entity_maps (entities : list CedarEntity)
    (attrs : list (uid * list (pystr * value))) (parents : list (uid * list uid)) :
    G (list (uid * list (pystr * value)) * list (uid * list uid)) :=
  match entities with
  | [] => Ok (attrs, parents)
  | e :: entities =>
    let! d := to_record (e_attrs e) in
    _entity_maps entities (dset attrs (e_uid e) d) (dset parents (e_uid e) (e_parents e))
  end.

Definition store_entry (parents : list (uid * list uid)) (kv : uid * list (pystr * value)) :
    uid * (list (pystr * value) * list uid) :=
  (kv.1, (kv.2, default [] (dget parents (kv.1)))).

Definition _build_store (entities : list CedarEntity) : G store :=
  let! (attrs, parents) := _entity_maps entities [] [] in
  Ok (map (store_entry parents) attrs).

Definition _layer_store (base : store) (entities : list CedarEntity) (protected : list uid) : G store :=
  let! (attrs, parents) := _entity_maps entities [] [] in
  match List.filter (fun u => bool_decide (u ∈ protected)) (dkeys attrs) with
  | [] => Ok (fold_left (fun st kv => dset st (kv.1) ((store_entry parents kv).2)) attrs base)
  | collisions => Err (OverrideError collisions)
  end.

(** ** Construction *)

Record CedarPolicies : Type := mk_policies {
  cp_source : pystr;
  cp_policies : list policy;
  cp_schema : option CedarSchema;
  cp_plan : plan;
  context_default : list pyobj;
  context_by_action : list (uid * list pyobj);
  principal_default : bool;
  principal_by_action : list (uid * bool);
  cp_entities : list CedarEntity;
  cp_protected : list uid;
  cp_store : store }.

Definition _MAX_POLICY_SOURCE_CHARACTERS : Z := 1048576.

Definition action_type : pystr := bs "Action".

(** The actions a scope of a policy names. *)
Fixpoint scope_actions (schema : CedarSchema) (us : list uid) : R (list pystr) :=
  match us with
  | [] => Ok []
  | u :: us =>
    if negb (bool_decide (u.1 = action_type)) then Err (NotAnAction (u.1))
    else
      let! _ := require_action schema (u.2) in
      let! names := scope_actions schema us in Ok (u.2 :: names)
  end.

Definition policy_actions (schema : CedarSchema) (p : policy) : R (list pystr) :=
  match action_scope p with
  | SCOPE_EQ u => scope_actions schema [u]
  | SCOPE_IN u =>
    let! _ := scope_actions schema [u] in Ok (descendants schema (u.2))
  | SCOPE_IN_SET us => scope_actions schema us
  | _ => Ok (schema_actions schema)
  end.

Fixpoint validate_conditions (cs : list (bool * expr)) (types : list (option stype)) : R unit :=
  match cs with
  | [] => Ok tt
  | c :: cs =>
    let! _ := validate_context_expression (py_expr (c.2)) types in
    validate_conditions cs types
  end.

Fixpoint validate_policies (schema : CedarSchema) (ps : list policy) : R unit :=
  match ps with
  | [] => Ok tt
  | p :: ps =>
    let! names := policy_actions schema p in
    let! _ := validate_conditions (conditions p) (contexts schema names) in
    validate_policies schema ps
  end.

Definition action_entity (schema : CedarSchema) (name : pystr) : CedarEntity :=
  mk_entity (action_type, name) [] (map (pair action_type) (action_parents schema name)).

Definition _validate_schema (schema : CedarSchema) (ps : list policy) : R (list CedarEntity) :=
  let! _ := validate_policies schema ps in
  Ok (map (action_entity schema) (schema_actions schema)).

(** [exact.setdefault(uid, []).append(policy)]. *)
Definition exact_policies (ps : list policy) : list (uid * list policy) :=
  fold_left (fun d p =>
    match action_scope p with
    | SCOPE_EQ u => dset d u (default [] (dget d u) ++ [p])
    | _ => d
    end) ps [].

Definition general_policies (ps : list policy) : list policy :=
  List.filter (fun p => match action_scope p with SCOPE_EQ _ => false | _ => true end) ps.

Definition policies_init (depth : nat) (source : pystr) (entities : list CedarEntity)
    (schema : option CedarSchema) : G CedarPolicies :=
  let fail m := Err (ParseFailed (CedarParseError m None)) in
  if _MAX_POLICY_SOURCE_CHARACTERS <? zlen source then fail SourceTooLong
  else if bool_decide (strip_text source = []) then fail SourceNotText
  else
    let parsed := let! ts := _tokenize source in policies depth ts in
    match parsed with
    | Err RecursionError => fail NestingTooDeep
    | Err e => Err (ParseFailed e)
    | Ok ps =>
      let checked := match schema with Some s => _validate_schema s ps | None => Ok [] end in
      match checked with
      | Err _ => fail SchemaError
      | Ok schema_entities =>
        match cedar_compile_plan ps with
        | None => Err PlanError
        | Some plan =>
          let general := general_policies ps in
          let exact := exact_policies ps in
          let default_attributes := _context_attributes (map py_policy general) in
          let default_principal := _needs_principal_entity general in
          let overridden e :=
            match schema with
            | Some s => bool_decide ((e_uid e).1 = action_type) && text_in ((e_uid e).2) (schema_actions s)
            | None => false
            end in
          if existsb overridden entities then fail ProtectedAction
          else
            let! st := _build_store (entities ++ schema_entities) in
            Ok (mk_policies source ps schema plan default_attributes
                  (map (fun kv => (kv.1, default_attributes ++ _context_attributes (map py_policy (kv.2)))) exact)
                  default_principal
                  (map (fun kv => (kv.1, default_principal || _needs_principal_entity (kv.2))) exact)
                  (entities ++ schema_entities) (map e_uid schema_entities) st)
        end
      end
    end.

(** ** Queries *)

Definition reads_context (cp : CedarPolicies) (attribute : pystr) : bool :=
  _reads_context (map py_policy (cp_policies cp)) attribute.

(** [referenced_flags], [referenced_regions] and the others, by attribute. *)
Definition referenced (cp : CedarPolicies) (attribute : pystr) : option (list pystr) :=
  _referenced_members (map py_policy (cp_policies cp)) attribute.

Definition context_attributes_for_action (cp : CedarPolicies) (action : uid) : list pyobj :=
  default (context_default cp) (dget (context_by_action cp) action).

Definition principal_entity_for_action (cp : CedarPolicies) (action : uid) : bool :=
  default (principal_default cp) (dget (principal_by_action cp) action).

(** The arguments of a query; no entities is [None] or an empty tuple. *)
Record query : Type := mk_query {
  q_principal : entity_ref;
  q_action : entity_ref;
  q_resource : entity_ref;
  q_context : list (option pystr * pyvalue);
  q_entities : list CedarEntity }.

Definition request_store (cp : CedarPolicies) (entities : list CedarEntity) : G store :=
  match entities with
  | [] => Ok (cp_store cp)
  | _ => _layer_store (cp_store cp) entities (cp_protected cp)
  end.

Definition prepare (cp : CedarPolicies) (q : query) : G request :=
  let! st := request_store cp (q_entities q) in
  let! principal := lift_parse (_as_uid_tuple (q_principal q)) in
  let! action := lift_parse (_as_uid_tuple (q_action q)) in
  let! resource := lift_parse (_as_uid_tuple (q_resource q)) in
  let! context := to_record (q_context q) in
  Ok (mk_request principal action resource context st).

Definition is_authorized (cp : CedarPolicies) (q : query) : G decision :=
  let! r := prepare cp q in
  lift_eval (authorize_plan_diagnostic (cp_plan cp) r).

Definition _route_denial (cp : CedarPolicies) (q : query) : G (option reason) :=
  let! r := prepare cp q in
  lift_eval (plan_denial (cp_plan cp) r).

(** [_route_denial_prepared]: the context in place when it can be. *)
Definition _route_denial_prepared (cp : CedarPolicies) (principal action resource : uid)
    (context : list (option pystr * pyvalue)) (entities : list CedarEntity) : G (option reason) :=
  let! st := request_store cp entities in
  match prepared_value (PvMapping context) 0 with
  | Some (VRecord d) => lift_eval (plan_denial (cp_plan cp) (mk_request principal action resource d st))
  | _ =>
    let! d := to_record context in
    lift_eval (plan_denial (cp_plan cp) (mk_request principal action resource d st))
  end.

Fixpoint as_uids (rs : list entity_ref) : res parse_error (list uid) :=
  match rs with
  | [] => Ok []
  | r :: rs =>
    let! u := _as_uid_tuple r in
    let! us := as_uids rs in Ok (u :: us)
  end.

Definition _is_authorized_many (cp : CedarPolicies) (q : query) (resources : list entity_ref)
    (stop_on_denied : bool) : G (list decision) :=
  let! st := request_store cp (q_entities q) in
  let! principal := lift_parse (_as_uid_tuple (q_principal q)) in
  let! action := lift_parse (_as_uid_tuple (q_action q)) in
  let! context := to_record (q_context q) in
  let! us := lift_parse (as_uids resources) in
  lift_eval (is_authorized_many (authorize_plan_diagnostic (cp_plan cp)) allowed
    (mk_request principal action principal context st) us stop_on_denied).

Definition _is_authorized_many_native (cp : CedarPolicies) (q : query) (resources : list entity_ref)
    (stop_on_denied : bool) : G (list (bool * reason)) :=
  let! st := request_store cp (q_entities q) in
  let! principal := lift_parse (_as_uid_tuple (q_principal q)) in
  let! action := lift_parse (_as_uid_tuple (q_action q)) in
  let! us := lift_parse (as_uids resources) in
  let! context := to_record (q_context q) in
  lift_eval (is_authorized_many (authorize_plan_one (cp_plan cp)) fst
    (mk_request principal action principal context st) us stop_on_denied).

End engine.
