(* ===== verification/CedarParserFacts.v ===== *)
(** * Cedar: facts about the tokenizer

    It ends on every text with at most one token per character, and it reads
    back the text of an entity reference. *)

From stdpp Require Import base sets strings numbers list gmap.
From Stdlib Require Import ZArith Lia.
From S2P Require Import Prelude PyCollections PyText CedarSyntax CedarLexer CedarParser CedarEval.
From S2P Require Import CedarEvalFacts CedarEngine.
#[local] Open Scope Z_scope.

(** ** The tokenizer ends *)

Lemma find_char_split c s a b : find_char c s = Some (a, b) -> s = a ++ c :: b /\ c ∉ a.
Proof.
  revert a b. induction s as [|x s IH]; intros a b; [done|]. cbn.
  destruct (Z.eqb_spec x c) as [->|Hx]; [intros [= <- <-]; split; [done|set_solver]|].
  destruct (find_char c s) as [[a' b']|]; [|done]. intros [= <- <-].
  destruct (IH a' b' eq_refl) as [-> ?]. split; [done|set_solver].
Qed.

Lemma unicode_escape_total s at_ : unicode_escape s at_ <> Err RecursionError.
Proof. unfold unicode_escape. destruct (find_char _ _) as [[? ?]|]; repeat case_match; done. Qed.

Lemma unicode_escape_shorter s at_ z rest :
  unicode_escape s at_ = Ok (z, rest) -> (length rest < length s)%nat.
Proof.
  unfold unicode_escape. destruct (find_char _ _) as [[a b]|] eqn:E; [|done].
  apply find_char_split in E as [-> _]. repeat case_match; try done. intros [= _ <-].
  rewrite length_app. cbn. lia.
Qed.

Lemma lex_string_total fuel s at_ :
  (length s < fuel)%nat ->
  match lex_string_loop fuel s at_ with
  | Ok (_, rest) => (length rest < length s)%nat
  | Err e => e <> RecursionError
  end.
Proof.
  revert s. induction fuel as [|fuel IH]; intros s Hf; [lia|]. cbn [lex_string_loop].
  destruct s as [|c s]; [done|]. cbn [length] in *.
  destruct (c =? quote); [lia|]. destruct (c =? newline); [done|]. destruct (c =? backslash).
  - destruct s as [|e s]; [done|]. cbn [length] in *. destruct ((e =? 117) && startswith [123] s).
    + pose proof (unicode_escape_total (drop 1 s) at_) as Hu.
      destruct (unicode_escape (drop 1 s) at_) as [[z rest]|err] eqn:Eu; cbn; [|congruence].
      apply unicode_escape_shorter in Eu. rewrite length_drop in Eu.
      specialize (IH rest). destruct (lex_string_loop fuel rest at_) as [[parts r]|err]; cbn; [|apply IH]; lia.
    + destruct (_ESCAPES e); [|done]. specialize (IH s).
      destruct (lex_string_loop fuel s at_) as [[parts r]|err]; cbn; [|apply IH]; lia.
  - specialize (IH s). destruct (lex_string_loop fuel s at_) as [[parts r]|err]; cbn; [|apply IH]; lia.
Qed.

Section tokenizer.
Context {U : UnicodeData}.

Lemma span_text_shorter f s a b : span_text f s = (a, b) -> (length b <= length s)%nat.
Proof. intros ->%span_text_app. rewrite length_app. lia. Qed.

Lemma find_punctuation_spec s p :
  find_punctuation _PUNCTUATION s = Some p -> startswith p s = true /\ (0 < length p)%nat.
Proof.
  assert (Forall (fun p => (0 < length p)%nat) _PUNCTUATION) as Hl by (repeat constructor; cbn; lia).
  induction Hl as [|q l Hq _ IH]; [done|]. cbn [find_punctuation].
  destruct (startswith q s) eqn:E; [intros [= <-]; done|apply IH].
Qed.

(** What a run of the tokenizer yields on [n] characters. *)
Definition tokens_fine (n : nat) (c : res parse_error (list token)) : Prop :=
  match c with
  | Ok ts => (length ts <= S n)%nat
  | Err e => e <> RecursionError
  end.

Lemma tokens_fine_cons n m t c :
  tokens_fine m c -> (m < n)%nat -> tokens_fine n (let! ts := c in Ok (t :: ts)).
Proof. destruct c; cbn; [lia|done]. Qed.

Lemma tokenize_loop_fine L fuel s line start :
  (length s < fuel)%nat -> tokens_fine (length s) (tokenize_loop L fuel s line start).
Proof.
  revert s line start. induction fuel as [|fuel IH]; intros s line start Hf; [lia|].
  cbn [tokenize_loop]. destruct s as [|c s]; [cbn; lia|]. cbn [length] in *.
  assert (forall m r, (length r <= m)%nat -> (m < S (length s))%nat -> forall l st,
    tokens_fine (length s) (tokenize_loop L fuel r l st)) as Hsub.
  { intros m r Hr Hm l st. specialize (IH r l st ltac:(lia)).
    destruct (tokenize_loop L fuel r l st); cbn in *; [lia|done]. }
  assert (forall m c, tokens_fine m c -> (m <= length s)%nat -> tokens_fine (S (length s)) c) as Hweak.
  { intros m c' H Hm. destruct c'; cbn in *; [lia|done]. }
  do 2 (case_match; [eapply Hweak; [apply (Hsub (length s)); lia|lia]|]).
  case_match.
  { destruct (find_char newline (c :: s)) as [[a b]|] eqn:E.
    - pose proof E as E'. apply find_char_split in E as [E Ha].
      assert (length (c :: s) = length (a ++ newline :: b)) as HL by (by rewrite E).
      rewrite length_app in HL. cbn in HL. destruct a as [|x a].
      + exfalso. injection E as -> _. cbn in *. congruence.
      + eapply Hweak; [eapply (Hsub (length s))|]; cbn in *; lia.
    - eapply Hweak; [eapply (Hsub 0%nat)|]; cbn; lia. }
  case_match.
  { unfold _lex_string. cbn [length drop].
    pose proof (lex_string_total (S (length s)) s (line, L - zlen (c :: s) - start + 1)) as Hl.
    destruct (lex_string_loop _ _ _) as [[v r]|e]; cbn [res_bind]; [|by apply Hl; lia].
    apply tokens_fine_cons with (length r); [apply IH; lia|lia]. }
  case_match.
  { destruct (span_text isdigit s) as [more r] eqn:E. apply span_text_shorter in E.
    apply tokens_fine_cons with (length r); [apply IH; lia|lia]. }
  case_match.
  { destruct (span_text word_char s) as [more r] eqn:E. apply span_text_shorter in E.
    apply tokens_fine_cons with (length r); [apply IH; lia|lia]. }
  destruct (find_punctuation _PUNCTUATION (c :: s)) as [p|] eqn:E; [|done].
  apply find_punctuation_spec in E as [_ E].
  assert (length (drop (length p) (c :: s)) <= length s)%nat by (rewrite length_drop; cbn; lia).
  apply tokens_fine_cons with (length (drop (length p) (c :: s))); [apply IH; lia|lia].
Qed.

Lemma tokenize_fine source : tokens_fine (length source) (_tokenize source).
Proof. apply tokenize_loop_fine. lia. Qed.

(** ** Reading an entity reference back *)

(** An ASCII identifier that is no keyword. *)
Definition plain_ident (s : pystr) : bool := ascii_identifier s && negb (text_in s _KEYWORDS).

Definition shape (ts : list token) : list (kind * pystr) := map (fun t => (tkind t, tvalue t)) ts.

Definition colons : kind * pystr := (KPunct (bs "::"), bs "::").

(** The tokens of [A::B::"id"]. *)
Fixpoint path_shape (segments : list pystr) (id : pystr) : list (kind * pystr) :=
  match segments with
  | [] => [(KString, id); (KEof, [])]
  | s :: segments => (KIdent, s) :: colons :: path_shape segments id
  end.

Lemma ascii_identifier_cons c s :
  ascii_identifier (c :: s) = true ->
  (ascii_letter c || (c =? 95) = true) /\
  forallb (fun c => ascii_letter c || is_ascii_digit c || (c =? 95)) s = true.
Proof. cbn. by intros [? ?]%andb_prop. Qed.

Context `{!UnicodeLaws U}.

Lemma word_char_ascii c :
  is_ascii c = true -> word_char c = ascii_letter c || is_ascii_digit c || (c =? 95).
Proof. intros H. unfold word_char. by rewrite isalnum_ascii. Qed.

Lemma identifier_ascii c :
  ascii_letter c || is_ascii_digit c || (c =? 95) = true -> is_ascii c = true.
Proof. unfold ascii_letter, is_ascii_digit, is_ascii. lia. Qed.

Lemma word_chars_ascii s :
  forallb (fun c => ascii_letter c || is_ascii_digit c || (c =? 95)) s = true ->
  forallb word_char s = true.
Proof.
  induction s as [|c s IH]; [done|]. cbn. intros [H1 H2]%andb_prop.
  rewrite word_char_ascii by (by apply identifier_ascii). rewrite H1. by apply IH.
Qed.

Lemma tokenize_ident L fuel s rest line start :
  plain_ident s = true -> match rest with c :: _ => word_char c = false | [] => True end ->
  exists column, tokenize_loop L (S fuel) (s ++ rest) line start =
    (let! ts := tokenize_loop L fuel rest line start in Ok (_Token KIdent s line column :: ts)).
Proof.
  intros [Hi Hk]%andb_prop Hrest. destruct s as [|c s]; [done|].
  apply ascii_identifier_cons in Hi as [Hc Hs]. apply negb_true_iff in Hk.
  assert (is_ascii c = true) as Ha by (unfold ascii_letter, is_ascii in *; lia).
  eexists. cbn [app tokenize_loop].
  replace ((c =? 32) || (c =? 9) || (c =? 13)) with false by (unfold ascii_letter in Hc; lia).
  replace (c =? newline) with false by (unfold ascii_letter, newline in *; lia).
  replace (startswith (bs "//") (c :: s ++ rest)) with false
    by (change (bs "//") with [47; 47]; cbn [startswith]; by destruct (Z.eqb_spec 47 c) as [<-|]).
  replace (c =? quote) with false by (unfold ascii_letter, quote in *; lia).
  rewrite isdigit_ascii by done.
  replace (is_ascii_digit c) with false by (unfold ascii_letter, is_ascii_digit in *; lia).
  rewrite isalpha_ascii by done. rewrite Hc.
  rewrite (span_text_exact word_char s rest (word_chars_ascii s Hs) Hrest).
  unfold word_kind. rewrite Hk. done.
Qed.

Lemma word_char_colon : word_char 58 = false.
Proof. by rewrite word_char_ascii. Qed.

Lemma tokenize_colons L fuel rest line start :
  exists column, tokenize_loop L (S fuel) (58 :: 58 :: rest) line start =
    (let! ts := tokenize_loop L fuel rest line start in
     Ok (_Token (KPunct (bs "::")) (bs "::") line column :: ts)).
Proof.
  eexists. cbn [tokenize_loop]. rewrite isdigit_ascii, isalpha_ascii by done. cbn. done.
Qed.

Lemma escape_id_cons c id :
  escape_id (c :: id) =
  (if c =? backslash then [backslash; backslash]
   else if c =? quote then [backslash; quote] else [c]) ++ escape_id id.
Proof.
  unfold escape_id. cbn [flat_map]. rewrite flat_map_app. f_equal.
  destruct (Z.eqb_spec c backslash) as [->|]; [done|]. cbn. by rewrite app_nil_r.
Qed.

Lemma lex_escaped id rest fuel at_ :
  newline ∉ id -> (length (escape_id id) < fuel)%nat ->
  lex_string_loop fuel (escape_id id ++ quote :: rest) at_ = Ok (id, rest).
Proof.
  revert fuel. induction id as [|c id IH]; intros fuel Hn Hf.
  - destruct fuel; [cbn in Hf; lia|]. done.
  - rewrite escape_id_cons in *. rewrite length_app in Hf.
    destruct fuel as [|fuel]; [lia|].
    destruct (Z.eqb_spec c backslash) as [->|Hb]; [|destruct (Z.eqb_spec c quote) as [->|Hq]].
    + cbn in Hf. cbn -[escape_id lex_string_loop]. cbn [lex_string_loop]. cbn -[lex_string_loop escape_id].
      rewrite IH; [done|set_solver|lia].
    + cbn in Hf. cbn -[escape_id lex_string_loop]. cbn [lex_string_loop]. cbn -[lex_string_loop escape_id].
      rewrite IH; [done|set_solver|lia].
    + cbn in Hf. cbn -[escape_id lex_string_loop]. cbn [lex_string_loop].
      replace (c =? quote) with false by lia.
      assert (c <> newline) by set_solver. replace (c =? newline) with false by lia.
      replace (c =? backslash) with false by lia. rewrite IH; [done|set_solver|lia].
Qed.

Lemma tokenize_string L fuel id rest line start :
  newline ∉ id ->
  exists column, tokenize_loop L (S fuel) (quote :: escape_id id ++ quote :: rest) line start =
    (let! ts := tokenize_loop L fuel rest line start in Ok (_Token KString id line column :: ts)).
Proof.
  intros Hn. set (text := escape_id id ++ quote :: rest).
  assert (forall at_, _lex_string (quote :: text) at_ = Ok (id, rest)) as Hl.
  { intros at_. unfold _lex_string. apply lex_escaped; [done|]. subst text.
    rewrite length_cons, length_app. cbn. lia. }
  clearbody text. eexists. cbn [tokenize_loop].
  change ((quote =? 32) || (quote =? 9) || (quote =? 13)) with false.
  change (quote =? newline) with false. change (startswith (bs "//") (quote :: text)) with false.
  change (quote =? quote) with true. cbv iota. rewrite Hl. done.
Qed.

Lemma tokenize_path L fuel segments id line start :
  Forall (fun s => plain_ident s = true) segments -> newline ∉ id ->
  (length (flat_map (fun s => s ++ bs "::") segments) + 2 < fuel)%nat ->
  exists ts,
    tokenize_loop L fuel
      (flat_map (fun s => s ++ bs "::") segments ++ quote :: escape_id id ++ [quote]) line start = Ok ts /\
    shape ts = path_shape segments id.
Proof.
  intros Hs Hn. revert fuel. induction Hs as [|s segments Hs _ IH]; intros fuel Hf.
  - cbn [flat_map app]. destruct fuel as [|[|fuel]]; [cbn in Hf; lia..|].
    destruct (tokenize_string L (S fuel) id [] line start Hn) as [column ->].
    cbn. eexists. split; [done|]. done.
  - cbn [flat_map] in *. rewrite !length_app in Hf.
    assert (0 < length s)%nat by (destruct s; [done|cbn; lia]). change (length (bs "::")) with 2%nat in Hf.
    destruct fuel as [|[|fuel]]; [lia..|]. rewrite <- !app_assoc.
    destruct (tokenize_ident L (S fuel) s (bs "::" ++ flat_map (fun s => s ++ bs "::") segments ++
      quote :: escape_id id ++ [quote]) line start Hs) as [column ->]; [cbn; apply word_char_colon|].
    change (bs "::" ++ ?x) with (58 :: 58 :: x).
    destruct (tokenize_colons L fuel (flat_map (fun s => s ++ bs "::") segments ++
      quote :: escape_id id ++ [quote]) line start) as [column' ->].
    destruct (IH fuel) as (ts & -> & Hts); [lia|]. cbn [res_bind]. eexists. split; [done|].
    unfold shape in *. cbn. by rewrite Hts.
Qed.

(** The parser on those tokens. *)
Lemma shape_cons ts k v l :
  shape ts = (k, v) :: l -> exists t ts', ts = t :: ts' /\ tkind t = k /\ tvalue t = v /\ shape ts' = l.
Proof. destruct ts as [|t ts]; [done|]. cbn. intros [= <- <- <-]. eauto 6. Qed.

Lemma expect_next k t ts :
  tkind t = k -> k <> KEof -> _expect k (t :: ts) = Ok (tvalue t, ts).
Proof.
  intros Hk Hne. unfold _expect, expect_if, _match, is_kind. cbn.
  rewrite bool_decide_true by done. rewrite bool_decide_false by congruence. done.
Qed.

Lemma type_path_loop_shape segments k ts id :
  shape ts = colons :: path_shape segments id -> (length segments < k)%nat ->
  exists ts', type_path_loop k ts = Ok (segments, ts') /\
    shape ts' = [colons; (KString, id); (KEof, [])].
Proof.
  revert k ts. induction segments as [|s segments IH]; intros k ts Hts Hk; (destruct k as [|k]; [lia|]).
  - exists ts. split; [|done]. apply shape_cons in Hts as (t & ts1 & -> & Ht & _ & Hts).
    apply shape_cons in Hts as (t2 & ts2 & -> & Ht2 & _ & _). cbn [type_path_loop _peek _peek1].
    unfold is_punct, is_kind. rewrite Ht, Ht2. done.
  - apply shape_cons in Hts as (t & ts1 & -> & Ht & _ & Hts). cbn [path_shape] in Hts.
    apply shape_cons in Hts as (t2 & ts2 & -> & Ht2 & Hv2 & Hts). cbn [type_path_loop _peek _peek1].
    unfold is_punct, is_kind. rewrite Ht, Ht2. rewrite !bool_decide_true by done. cbn [andb _advance].
    rewrite bool_decide_false by congruence. rewrite expect_next by done. cbn [res_bind].
    destruct (IH k ts2 Hts) as (ts' & -> & Hts'); [cbn in Hk; lia|]. cbn. rewrite Hv2. eauto.
Qed.

Lemma entity_uid_shape s segments id ts :
  shape ts = path_shape (s :: segments) id ->
  exists ts', _entity_uid ts = Ok ((join_path (s :: segments), _unescape_star id), ts') /\
    shape ts' = [(KEof, [])].
Proof.
  intros Hts. cbn [path_shape] in Hts. apply shape_cons in Hts as (t & ts1 & -> & Ht & Hv & Hts).
  unfold _entity_uid, _type_path. rewrite expect_next by done. cbn [res_bind]. rewrite Hv.
  assert (length ts1 = length (shape ts1)) as Hlen by (unfold shape; by rewrite length_map).
  destruct (type_path_loop_shape segments (S (length ts1)) ts1 id Hts) as (ts2 & -> & Hts2).
  { rewrite Hlen, Hts. cbn. clear. induction segments as [|x l IH]; cbn; lia. }
  cbn [res_bind]. apply shape_cons in Hts2 as (t3 & ts3 & -> & Ht3 & _ & Hts3).
  apply shape_cons in Hts3 as (t4 & ts4 & -> & Ht4 & Hv4 & Hts4).
  unfold expect_punct. rewrite expect_next by done. cbn [res_bind]. rewrite expect_next by done.
  cbn [res_bind]. rewrite Hv4. eauto.
Qed.

Lemma join_path_flat s segments :
  join_path (s :: segments) ++ bs "::" = flat_map (fun s => s ++ bs "::") (s :: segments).
Proof.
  revert s. induction segments as [|x segments IH]; intros s; [cbn; by rewrite app_nil_r|].
  change (join_path (s :: x :: segments)) with (s ++ bs "::" ++ join_path (x :: segments)).
  rewrite <- !app_assoc, IH. cbn. by rewrite <- !app_assoc.
Qed.

(** What [EntityUid.parse] makes of the text of an entity reference. *)
Lemma uid_parse_str s segments id :
  Forall (fun s => plain_ident s = true) (s :: segments) -> newline ∉ id ->
  uid_parse (uid_str (join_path (s :: segments), id)) =
  Ok (join_path (s :: segments), _unescape_star id).
Proof.
  intros Hs Hn. unfold uid_parse, uid_str, _tokenize. cbn [fst snd].
  rewrite app_assoc, join_path_flat. set (text := _ ++ _).
  destruct (tokenize_path (zlen text) (S (length text)) (s :: segments) id 1 0 Hs Hn) as (ts & Hts & Hshape).
  { subst text. rewrite !length_app. cbn. lia. }
  assert (tokenize_loop (zlen text) (S (length text)) text 1 0 = Ok ts) as -> by exact Hts.
  cbn [res_bind]. destruct (entity_uid_shape _ _ _ _ Hshape) as (ts' & -> & Hts').
  cbn [res_bind]. apply shape_cons in Hts' as (t & ts2 & -> & Ht & _ & _).
  unfold _expect, expect_if, _match, is_kind. cbn [_peek]. rewrite Ht. done.
Qed.
End tokenizer.

(** ** Cedar: what the parser returns

    One induction over the parser: the tokens shrink, the program is
    well-formed, and a [RecursionError] means that the nesting of calls was
    limited to less than nine per token. *)

(** A result that satisfies [Q] and leaves at most [n] tokens; [B] holds when
    the depth is exhausted. *)
Definition fine {A} (B : Prop) (n : nat) (Q : A -> Prop) (c : P A) : Prop :=
  match c with
  | Ok (a, ts) => (length ts <= n)%nat /\ Q a
  | Err RecursionError => B
  | Err _ => True
  end.

Lemma fine_bind {A C} B n m (Q : A -> Prop) (Q' : C -> Prop) (c : P A) (k : A * list token -> P C) :
  fine B m Q c -> (forall a ts, (length ts <= m)%nat -> Q a -> fine B n Q' (k (a, ts))) ->
  fine B n Q' (res_bind c k).
Proof.
  destruct c as [[a ts]|[| |]]; cbn; [|done..]. intros [H1 H2] Hk. by apply Hk.
Qed.

Lemma fine_ok {A} B n (Q : A -> Prop) a ts : (length ts <= n)%nat -> Q a -> fine B n Q (Ok (a, ts)).
Proof. done. Qed.

Lemma fine_fail {A} B n (Q : A -> Prop) m ts : fine B n Q (_fail m ts).
Proof. done. Qed.

Lemma fine_weaken {A} (B B' : Prop) n m (Q Q' : A -> Prop) c :
  fine B n Q c -> (B -> B') -> (n <= m)%nat -> (forall a, Q a -> Q' a) -> fine B' m Q' c.
Proof.
  destruct c as [[a ts]|[| |]]; cbn; auto. intros [H1 H2] _ ? HQ. split; [lia|auto].
Qed.

(** *** Reading one token *)

Lemma advance_le ts : (length (_advance ts) <= length ts)%nat.
Proof. destruct ts as [|t ts]; cbn; [lia|]. case_bool_decide; cbn; lia. Qed.

(** Any test that fails on the end of the input. *)
Definition not_eof (f : token -> bool) : Prop := forall t, f t = true -> tkind t <> KEof.

Lemma advance_lt f ts :
  not_eof f -> f (_peek ts) = true -> (S (length (_advance ts)) <= length ts)%nat.
Proof.
  intros Hf H. apply Hf in H. destruct ts as [|t ts]; [done|]. cbn in *.
  rewrite bool_decide_false by done. lia.
Qed.

Lemma is_kind_not_eof k : k <> KEof -> not_eof (is_kind k).
Proof. intros Hk t H%bool_decide_eq_true. congruence. Qed.

Lemma is_punct_not_eof p : not_eof (is_punct p).
Proof. by apply is_kind_not_eof. Qed.

Lemma is_punct_false p t : tkind t = KEof -> is_punct p t = false.
Proof. intros H. apply bool_decide_eq_false. by rewrite H. Qed.

Lemma is_keyword_not_eof w : not_eof (is_keyword w).
Proof. intros t [H _]%andb_prop. by apply (is_kind_not_eof KKeyword). Qed.

#[export] Hint Resolve is_punct_not_eof is_keyword_not_eof fine_fail : cedar.

Lemma match_lt f ts rest : not_eof f -> _match f ts = Some rest -> (S (length rest) <= length ts)%nat.
Proof.
  unfold _match. intros Hf. destruct (f (_peek ts)) eqn:E; [|done]. intros [= <-].
  by eapply advance_lt.
Qed.

Lemma expect_fine B n f w ts : (length ts <= n)%nat -> fine B n (fun _ => True) (expect_if f w ts).
Proof.
  intros Hn. unfold expect_if, _match. destruct (f (_peek ts)); [|done].
  pose proof (advance_le ts). split; [lia|done].
Qed.

Lemma expect_kind_fine B n k ts : (length ts <= n)%nat -> fine B n (fun _ => True) (_expect k ts).
Proof. apply expect_fine. Qed.

Lemma expect_punct_fine B n p ts : (length ts <= n)%nat -> fine B n (fun _ => True) (expect_punct p ts).
Proof. apply expect_fine. Qed.

Lemma expect_keyword_fine B n w ts : (length ts <= n)%nat -> fine B n (fun _ => True) (expect_keyword w ts).
Proof. apply expect_fine. Qed.

#[export] Hint Resolve expect_kind_fine expect_punct_fine expect_keyword_fine : cedar.

(** *** Loops *)

Lemma more_items_fine {A} B n k sep (item : list token -> P A) (Q : A -> Prop) ts :
  not_eof sep -> (length ts <= n)%nat -> (length ts < k)%nat ->
  (forall ts, (S (length ts) <= n)%nat -> fine B (length ts) Q (item ts)) ->
  fine B n (Forall Q) (more_items k sep item ts).
Proof.
  intros Hsep Hn Hk Hitem. revert ts Hn Hk. induction k as [|k IH]; intros ts Hn Hk; [lia|].
  cbn [more_items]. destruct (_match sep ts) as [ts'|] eqn:E; [|by apply fine_ok].
  apply match_lt in E; [|done]. eapply fine_bind; [apply Hitem; lia|]. intros a ts1 H1 Ha.
  eapply fine_bind; [apply IH; lia|]. intros l ts2 H2 Hl. apply fine_ok; [lia|]. by constructor.
Qed.

Lemma comma_list_fine {A} B n close (item : list token -> P A) (Q : A -> Prop) ts :
  (length ts <= n)%nat ->
  (forall ts, (length ts <= n)%nat -> fine B (length ts) Q (item ts)) ->
  fine B n (Forall Q) (comma_list close item ts).
Proof.
  intros Hn Hitem. unfold comma_list. destruct (close (_peek ts)); [by apply fine_ok|].
  eapply fine_bind; [apply Hitem; lia|]. intros a ts1 H1 Ha.
  eapply fine_bind; [apply (more_items_fine _ n _ _ _ Q); auto with cedar; try lia; intros; apply Hitem; lia|].
  intros l ts2 H2 Hl. apply fine_ok; [lia|]. by constructor.
Qed.

Abbreviation expr_fine B n c := (fine B n (fun e => expr_ok e = true) c).

Lemma chain_fine B n k op operand lhs ts :
  (forall t f, op t = Some f -> tkind t <> KEof /\
     forall a b, expr_ok a = true -> expr_ok b = true -> expr_ok (f a b) = true) ->
  (forall ts, (S (length ts) <= n)%nat -> expr_fine B (length ts) (operand ts)) ->
  (length ts <= n)%nat -> (length ts < k)%nat -> expr_ok lhs = true ->
  expr_fine B n (chain k op operand lhs ts).
Proof.
  intros Hop Hoperand. revert lhs ts. induction k as [|k IH]; intros lhs ts Hn Hk Hl; [lia|].
  cbn [chain]. destruct (op (_peek ts)) as [f|] eqn:E; [|by apply fine_ok].
  destruct (Hop _ _ E) as [Hne Hf].
  assert (S (length (_advance ts)) <= length ts)%nat as Hlt.
  { destruct ts as [|t ts]; [done|]. cbn in *. rewrite bool_decide_false by done. lia. }
  eapply fine_bind; [apply Hoperand; lia|]. intros e ts1 H1 He. apply IH; auto; lia.
Qed.

Lemma punct_op_ok p g t f :
  (forall a b, expr_ok a = true -> expr_ok b = true -> expr_ok (g a b) = true) ->
  punct_op p g t = Some f ->
  tkind t <> KEof /\ forall a b, expr_ok a = true -> expr_ok b = true -> expr_ok (f a b) = true.
Proof.
  unfold punct_op. destruct (is_punct p t) eqn:E; [|done]. intros Hg [= <-].
  split; [by apply is_punct_not_eof in E|done].
Qed.

Lemma additive_op_ok t f :
  additive_op t = Some f ->
  tkind t <> KEof /\ forall a b, expr_ok a = true -> expr_ok b = true -> expr_ok (f a b) = true.
Proof.
  unfold additive_op. destruct (is_punct "+" t) eqn:E; [|destruct (is_punct "-" t) eqn:E'; [|done]];
    intros [= <-]; (split; [by eapply is_punct_not_eof|]); intros a b H1 H2; cbn; by rewrite H1, H2.
Qed.

(** *** Names *)

Lemma type_path_loop_fine B n k ts :
  (length ts <= n)%nat -> (length ts < k)%nat -> fine B n (fun _ => True) (type_path_loop k ts).
Proof.
  revert ts. induction k as [|k IH]; intros ts Hn Hk; [lia|]. cbn [type_path_loop].
  destruct (is_punct "::" (_peek ts) && is_kind KIdent (_peek1 ts)) eqn:E; [|by apply fine_ok].
  apply andb_prop in E as [E _]. apply advance_lt in E; [|auto with cedar].
  eapply fine_bind; [apply (expect_kind_fine _ (length (_advance ts))); lia|]. intros s ts1 H1 _.
  eapply fine_bind; [apply IH; lia|]. intros l ts2 H2 _. by apply fine_ok.
Qed.

Lemma type_path_fine B n ts : (length ts <= n)%nat -> fine B n (fun _ => True) (_type_path ts).
Proof.
  intros Hn. unfold _type_path. eapply fine_bind; [by apply expect_kind_fine|]. intros s ts1 H1 _.
  eapply fine_bind; [apply (type_path_loop_fine _ n); lia|]. intros l ts2 H2 _. by apply fine_ok.
Qed.

Lemma entity_uid_fine B n ts : (length ts <= n)%nat -> fine B n (fun _ => True) (_entity_uid ts).
Proof.
  intros Hn. unfold _entity_uid. eapply fine_bind; [by apply type_path_fine|]. intros s ts1 H1 _.
  eapply fine_bind; [by apply expect_punct_fine|]. intros ? ts2 H2 _.
  eapply fine_bind; [by apply expect_kind_fine|]. intros ? ts3 H3 _. by apply fine_ok.
Qed.

Lemma attribute_name_fine B n ts : (length ts <= n)%nat -> fine B n (fun _ => True) (_attribute_name ts).
Proof.
  intros Hn. unfold _attribute_name. pose proof (advance_le ts).
  repeat case_match; cbn; try done; (split; [lia|done]).
Qed.

#[export] Hint Resolve type_path_fine entity_uid_fine attribute_name_fine : cedar.

(** *** Expressions *)

Section parser.
Context {U : UnicodeData} `{!UnicodeLaws U}.

Lemma record_key_fine B n keys ts :
  (length ts <= n)%nat -> fine B n (fun k => k ∉ keys) (record_key keys ts).
Proof.
  intros Hn. unfold record_key. pose proof (advance_le ts). case_match; [done|].
  destruct (text_in _ keys) eqn:E; [done|]. apply bool_decide_eq_false in E.
  eapply fine_bind; [apply (expect_punct_fine _ n); lia|]. intros ? ts1 H1 _. by apply fine_ok.
Qed.

Definition entries_ok (keys : list pystr) (entries : list (pystr * expr)) : Prop :=
  forallb (fun kv => expr_ok (kv.2)) entries = true /\ NoDup (map fst entries) /\
  forall k, k ∈ keys -> k ∉ map fst entries.

Lemma more_entries_fine B n k expression keys ts :
  (forall ts, (length ts <= n)%nat -> expr_fine B (length ts) (expression ts)) ->
  (length ts <= n)%nat -> (length ts < k)%nat ->
  fine B n (entries_ok keys) (more_entries k expression keys ts).
Proof.
  intros Hexp. revert keys ts. induction k as [|k IH]; intros keys ts Hn Hk; [lia|].
  cbn [more_entries]. destruct (_match (is_punct ",") ts) as [ts'|] eqn:E.
  - apply match_lt in E; [|auto with cedar].
    eapply fine_bind; [apply (record_key_fine _ (length ts')); lia|]. intros key ts1 H1 Hkey.
    eapply fine_bind; [apply Hexp; lia|]. intros e ts2 H2 He.
    eapply fine_bind; [apply (IH (key :: keys)); lia|]. intros l ts3 H3 (Hl & Hd & Hf).
    apply fine_ok; [done|]. split_and!; cbn.
    + by rewrite He.
    + constructor; [apply Hf; set_solver|done].
    + intros j Hj. specialize (Hf j). set_solver.
  - apply fine_ok; [done|]. split_and!; cbn; [done|constructor|set_solver].
Qed.

Lemma record_entries_fine B n expression ts :
  (forall ts, (length ts <= n)%nat -> expr_fine B (length ts) (expression ts)) ->
  (length ts <= n)%nat -> fine B n (entries_ok []) (record_entries expression ts).
Proof.
  intros Hexp Hn. unfold record_entries. case_match.
  - apply fine_ok; [done|]. split_and!; cbn; [done|constructor|set_solver].
  - eapply fine_bind; [apply (record_key_fine _ (length ts)); lia|]. intros key ts1 H1 Hkey.
    eapply fine_bind; [apply Hexp; lia|]. intros e ts2 H2 He.
    eapply fine_bind; [apply (more_entries_fine _ n _ _ [key]); auto; lia|].
    intros l ts3 H3 (Hl & Hd & Hf). apply fine_ok; [done|]. split_and!; cbn.
    + by rewrite He.
    + constructor; [apply Hf; set_solver|done].
    + set_solver.
Qed.

Lemma method_call_fine B n expression name e ts :
  (forall ts, (S (length ts) <= n)%nat -> expr_fine B (length ts) (expression ts)) ->
  is_punct "(" (_peek ts) = true -> (length ts <= n)%nat -> expr_ok e = true ->
  expr_fine B n (method_call expression name e ts).
Proof.
  intros Hexp Hp Hn He. unfold method_call. destruct (method_of name) as [m|]; [|done].
  apply advance_lt in Hp; [|auto with cedar].
  eapply fine_bind.
  { apply (comma_list_fine _ (length (_advance ts)) _ _ (fun e => expr_ok e = true)); [lia|].
    intros ts1 H1. apply Hexp. lia. }
  intros args ts1 H1 Hargs.
  eapply fine_bind; [apply (expect_punct_fine _ n); lia|]. intros ? ts2 H2 _.
  destruct (negb _) eqn:E; [done|]. apply negb_false_iff, Z.eqb_eq in E.
  apply fine_ok; [done|]. destruct args as [|x [|y args]].
  - destruct m; try done. cbn. by rewrite He.
  - inversion Hargs as [|? ? Hx]; subst. destruct m; try done; cbn; by rewrite He, Hx.
  - exfalso. rewrite !zlen_cons in E. pose proof (zlen_nonneg args). case_bool_decide; lia.
Qed.

Lemma member_loop_fine B n k expression e ts :
  (forall ts, (S (length ts) <= n)%nat -> expr_fine B (length ts) (expression ts)) ->
  (length ts <= n)%nat -> (length ts < k)%nat -> expr_ok e = true ->
  expr_fine B n (member_loop k expression e ts).
Proof.
  intros Hexp. revert e ts. induction k as [|k IH]; intros e ts Hn Hk He; [lia|].
  cbn [member_loop]. destruct (_match (is_punct ".") ts) as [ts'|] eqn:E.
  - apply match_lt in E; [|auto with cedar]. case_match; [done|]. pose proof (advance_le ts') as Ha.
    destruct (is_punct "(" (_peek (_advance ts'))) eqn:Ep; [|apply IH; [lia|lia|done]].
    eapply fine_bind; [apply (method_call_fine _ (length (_advance ts'))); auto; intros; apply Hexp; lia|].
    intros e' ts1 H1 He'. apply IH; [lia|lia|done].
  - destruct (is_punct "[" (_peek ts) && _) eqn:Ep; [|by apply fine_ok].
    apply andb_prop in Ep as [Ep _]. apply advance_lt in Ep; [|auto with cedar].
    eapply fine_bind; [apply (expect_kind_fine _ (length (_advance ts))); lia|]. intros a ts1 H1 _.
    eapply fine_bind; [apply (expect_punct_fine _ (length (_advance ts))); lia|]. intros ? ts2 H2 _.
    apply IH; [lia|lia|done].
Qed.

Lemma primary_fine B n expression ts :
  (forall ts, (S (length ts) <= n)%nat -> expr_fine B (length ts) (expression ts)) ->
  (length ts <= n)%nat -> expr_fine B n (primary_with expression ts).
Proof.
  intros Hexp Hn. unfold primary_with. pose proof (advance_le ts).
  assert (forall p, is_punct p (_peek ts) = true -> (S (length (_advance ts)) <= length ts)%nat) as Hlt.
  { intros p Hp. eapply advance_lt; [|exact Hp]. auto with cedar. }
  destruct (tkind (_peek ts)) eqn:Ek.
  - case_match; [done|]. case_match; [|done].
    eapply fine_bind; [by apply entity_uid_fine|]. intros u ts1 Hu _. by apply fine_ok.
  - repeat case_match; try done; (apply fine_ok; [lia|done]).
  - destruct (int_of_digits _) as [z|] eqn:Ez; [|done]. apply int_of_digits_ge in Ez.
    destruct (_I64_MAX <? z) eqn:El; [done|]. apply fine_ok; [lia|]. cbn. unfold literal_range, _I64_MAX in *. lia.
  - apply fine_ok; [lia|done].
  - by rewrite !is_punct_false by congruence.
  - destruct (is_punct "(" (_peek ts)) eqn:E1; [|destruct (is_punct "[" (_peek ts)) eqn:E2;
      [|destruct (is_punct "{" (_peek ts)) eqn:E3; [|done]]].
    + apply Hlt in E1. eapply fine_bind; [apply Hexp; lia|]. intros e ts1 H1 He.
      eapply fine_bind; [apply (expect_punct_fine _ n); lia|]. intros ? ts2 H2 _. by apply fine_ok.
    + apply Hlt in E2. eapply fine_bind.
      { apply (comma_list_fine _ (length (_advance ts)) _ _ (fun e => expr_ok e = true)); [lia|].
        intros; apply Hexp; lia. }
      intros l ts1 H1 Hl.
      eapply fine_bind; [apply (expect_punct_fine _ n); lia|]. intros ? ts2 H2 _.
      apply fine_ok; [done|]. cbn. apply forallb_forall. intros x Hx. rewrite Forall_forall in Hl.
      by apply Hl, list_elem_of_In.
    + apply Hlt in E3. eapply fine_bind.
      { apply (record_entries_fine _ (length (_advance ts))); [|lia]. intros; apply Hexp; lia. }
      intros l ts1 H1 (Hl & Hd & _).
      eapply fine_bind; [apply (expect_punct_fine _ n); lia|]. intros ? ts2 H2 _.
      apply fine_ok; [done|]. cbn. rewrite Hl. by apply bool_decide_eq_true.
Qed.

Lemma negate_fine B n e ts : (length ts <= n)%nat -> expr_ok e = true -> expr_fine B n (negate e ts).
Proof.
  intros Hn He. unfold negate. destruct e as [c| | | | | | | | | | | | | | | | |];
    try (apply fine_ok; [done|]; cbn; exact He).
  destruct c as [|z| |]; try (apply fine_ok; [done|]; cbn; exact He).
  destruct (- z <? _I64_MIN) eqn:El; [done|]. apply fine_ok; [done|].
  cbn in *. unfold literal_range, _I64_MIN, _I64_MAX in *. lia.
Qed.

Lemma cmp_op_not_eof t o : cmp_op t = Some o -> tkind t <> KEof.
Proof. unfold cmp_op. repeat case_match; try done; intros _; by eapply is_punct_not_eof. Qed.

Lemma pattern_segments_ne p : _pattern_segments p <> [].
Proof.
  unfold _pattern_segments. generalize (@nil Z) as current.
  induction p as [p IH] using (induction_ltof1 _ (@length Z)); intros current.
  destruct p as [|a [|b p]]; [done|cbn; by case_match|].
  change (pattern_loop current (a :: b :: p)) with
    (if (a =? backslash) && (b =? star) then pattern_loop (current ++ [star]) p
     else if a =? star then current :: pattern_loop [] (b :: p)
     else pattern_loop (current ++ [a]) (b :: p)).
  case_match; [apply IH; unfold ltof; cbn; lia|].
  case_match; [done|apply IH; unfold ltof; cbn; lia].
Qed.

Lemma relation_fine B n additive ts :
  (forall ts, (length ts <= n)%nat -> expr_fine B (length ts) (additive ts)) ->
  (length ts <= n)%nat -> expr_fine B n (relation_with additive ts).
Proof.
  intros Hadd Hn. unfold relation_with. eapply fine_bind; [by apply Hadd|]. intros lhs ts1 H1 Hl.
  pose proof (advance_le ts1) as Ha.
  assert (forall f, (forall a b, expr_ok a = true -> expr_ok b = true -> expr_ok (f a b) = true) ->
    expr_fine B n (let! (rhs, ts) := additive (_advance ts1) in Ok (f lhs rhs, ts))) as Hbin.
  { intros f Hf. eapply fine_bind; [apply Hadd; lia|]. intros rhs ts2 Hts2 Hr.
    apply fine_ok; [lia|auto]. }
  case_match; [apply Hbin; cbn; intros; by apply andb_true_intro|].
  case_match; [apply Hbin; cbn; intros; by apply andb_true_intro|].
  destruct (cmp_op (_peek ts1)) as [o|]; [apply (Hbin (OP_CMP o)); cbn; intros; by apply andb_true_intro|].
  case_match; [apply Hbin; cbn; intros; by apply andb_true_intro|].
  case_match.
  { eapply fine_bind; [apply (attribute_name_fine _ n); lia|]. intros name ts2 Hts2 _. by apply fine_ok. }
  case_match.
  { eapply fine_bind; [apply (expect_kind_fine _ n); lia|]. intros pat ts2 Hts2 _. apply fine_ok; [done|].
    cbn. rewrite Hl. cbn. apply negb_true_iff, bool_decide_eq_false, pattern_segments_ne. }
  case_match; [|apply fine_ok; [lia|done]].
  eapply fine_bind; [apply (type_path_fine _ n); lia|]. intros ty ts2 Hts2 _.
  destruct (_match (is_keyword "in") ts2) as [ts3|] eqn:E.
  - apply match_lt in E; [|auto with cedar]. eapply fine_bind; [apply Hadd; lia|].
    intros a ts4 Hts4 Hx. apply fine_ok; [lia|]. cbn. by rewrite Hl, Hx.
  - apply fine_ok; [lia|]. cbn. by rewrite Hl.
Qed.

(** The bound on the depth that each method can need on [n] tokens. *)
Definition method_fine (offset depth : nat) (method : nat -> list token -> P expr) : Prop :=
  forall n ts, (length ts <= n)%nat -> expr_fine (depth < 9 * n + offset)%nat n (method depth ts).

Record methods_fine (depth : nat) : Prop := {
  f_expression : method_fine 9 depth _expression;
  f_or : method_fine 8 depth _or;
  f_and : method_fine 7 depth _and;
  f_relation : method_fine 6 depth _relation;
  f_additive : method_fine 5 depth _additive;
  f_multiplicative : method_fine 4 depth _multiplicative;
  f_unary : method_fine 3 depth _unary;
  f_member : method_fine 2 depth _member;
  f_primary : method_fine 1 depth _primary }.

(** A method one level down, on no more tokens or on fewer. *)
Lemma method_here offset depth method (B : Prop) n m ts :
  method_fine offset depth method -> (length ts <= m)%nat -> (m <= n)%nat ->
  ((depth < 9 * m + offset)%nat -> B) -> expr_fine B n (method depth ts).
Proof. intros H Hm Hn HB. eapply fine_weaken; [by apply (H m)|exact HB|done|done]. Qed.

Lemma chain_of offset depth (operand : nat -> list token -> P expr) op n ts :
  method_fine offset depth operand ->
  (forall t f, op t = Some f -> tkind t <> KEof /\
     forall a b, expr_ok a = true -> expr_ok b = true -> expr_ok (f a b) = true) ->
  (length ts <= n)%nat ->
  expr_fine (S depth < 9 * n + S offset)%nat n
    (let! (lhs, ts) := operand depth ts in chain (S (length ts)) op (operand depth) lhs ts).
Proof.
  intros Hm Hop Hn. eapply fine_bind; [eapply (method_here _ _ _ _ n n); [done|done|done|lia]|].
  intros lhs ts1 H1 Hl. apply chain_fine; [done| |lia|lia|done].
  intros ts2 H2. eapply (method_here _ _ _ _ _ (length ts2)); [done|done|done|lia].
Qed.

Lemma parser_fine depth : methods_fine depth.
Proof.
  induction depth as [|depth IH]; [split; intros n ts Hn; cbn; lia|]. destruct IH. split; intros n ts Hn.
  - change (_expression (S depth) ts) with
      (if is_keyword "if" (_peek ts) then
         let! (condition, ts) := _expression depth (_advance ts) in
         let! (_, ts) := expect_keyword "then" ts in
         let! (then_, ts) := _expression depth ts in
         let! (_, ts) := expect_keyword "else" ts in
         let! (else_, ts) := _expression depth ts in
         Ok (OP_IF condition then_ else_, ts)
       else _or depth ts).
    destruct (is_keyword "if" (_peek ts)) eqn:E.
    + apply advance_lt in E; [|auto with cedar]. set (m := (n - 1)%nat).
      assert (forall ts, (length ts <= m)%nat ->
        expr_fine (S depth < 9 * n + 9)%nat m (_expression depth ts)) as Hsub.
      { intros ts' H'. eapply (method_here _ _ _ _ m m); [done|done|done|lia]. }
      eapply fine_bind; [apply Hsub; lia|]. intros c ts1 H1 Hc.
      eapply fine_bind; [by apply (expect_keyword_fine _ m)|]. intros ? ts2 H2 _.
      eapply fine_bind; [by apply Hsub|]. intros t ts3 H3 Ht.
      eapply fine_bind; [by apply (expect_keyword_fine _ m)|]. intros ? ts4 H4 _.
      eapply fine_bind; [by apply Hsub|]. intros f ts5 H5 Hf.
      apply fine_ok; [lia|]. cbn. by rewrite Hc, Ht, Hf.
    + eapply (method_here _ _ _ _ n n); [exact f_or0|done|done|lia].
  - apply (chain_of 7); [done| |done]. intros t f. apply punct_op_ok.
    cbn; intros; by apply andb_true_intro.
  - apply (chain_of 6); [done| |done]. intros t f. apply punct_op_ok.
    cbn; intros; by apply andb_true_intro.
  - apply (relation_fine _ n); [|done]. intros ts' H'.
    eapply (method_here _ _ _ _ _ (length ts')); [done|done|done|lia].
  - apply (chain_of 4); [done| |done]. apply additive_op_ok.
  - apply (chain_of 3); [done| |done]. intros t f. apply punct_op_ok.
    cbn; intros; by apply andb_true_intro.
  - change (_unary (S depth) ts) with
      (if is_punct "!" (_peek ts) then
         let! (e, ts) := _unary depth (_advance ts) in Ok (OP_NOT e, ts)
       else if is_punct "-" (_peek ts) then
         let! (e, ts) := _unary depth (_advance ts) in negate e ts
       else _member depth ts).
    destruct (is_punct "!" (_peek ts)) eqn:E; [|destruct (is_punct "-" (_peek ts)) eqn:E'].
    + apply advance_lt in E; [|auto with cedar].
      eapply fine_bind; [eapply (method_here _ _ _ _ n (n - 1)); [done|lia|lia|lia]|].
      intros e ts1 H1 He. by apply fine_ok.
    + apply advance_lt in E'; [|auto with cedar].
      eapply fine_bind; [eapply (method_here _ _ _ _ n (n - 1)); [done|lia|lia|lia]|].
      intros e ts1 H1 He. by apply negate_fine.
    + eapply (method_here _ _ _ _ n n); [exact f_member0|done|done|lia].
  - change (_member (S depth) ts) with
      (let! (e, ts) := _primary depth ts in member_loop (S (length ts)) (_expression depth) e ts).
    eapply fine_bind; [eapply (method_here _ _ _ _ n n); [exact f_primary0|done|done|lia]|].
    intros e ts1 H1 He. apply member_loop_fine; [|lia|lia|done]. intros ts' H'.
    eapply (method_here _ _ _ _ _ (length ts')); [done|done|done|lia].
  - apply primary_fine; [|done]. intros ts' H'.
    eapply (method_here _ _ _ _ _ (length ts')); [done|done|done|lia].
Qed.

(** *** Policies *)

Lemma scope_fine B n name allow_is ts :
  (length ts <= n)%nat -> fine B n (fun _ => True) (_scope name allow_is ts).
Proof.
  intros Hn. unfold _scope. eapply fine_bind; [by apply expect_keyword_fine|]. intros ? ts1 Hts1 _.
  assert (forall (f : uid -> scope) ts, (length ts <= n)%nat ->
    fine B n (fun _ => True) (let! (u, ts) := _entity_uid ts in Ok (f u, ts))) as Hu.
  { intros f ts' H'. eapply fine_bind; [by apply entity_uid_fine|]. intros u ts2 Hts2 _. by apply fine_ok. }
  destruct (_match (is_punct "==") ts1) as [ts2|] eqn:E1.
  { apply match_lt in E1; [|auto with cedar]. apply Hu. lia. }
  destruct (_match (is_keyword "in") ts1) as [ts2|] eqn:E2.
  { apply match_lt in E2; [|auto with cedar].
    destruct (if bool_decide _ then _match (is_punct "[") ts2 else None) as [ts3|] eqn:E3.
    - destruct (bool_decide _); [|done]. apply match_lt in E3; [|auto with cedar].
      eapply fine_bind; [apply (entity_uid_fine _ n); lia|]. intros u ts4 Hts4 _.
      eapply fine_bind; [apply (more_items_fine _ n _ _ _ (fun _ => True)); auto with cedar; lia|].
      intros us ts5 Hts5 _. eapply fine_bind; [by apply expect_punct_fine|]. intros ? ts6 Hts6 _.
      by apply fine_ok.
    - apply Hu. lia. }
  case_match; [|by apply fine_ok]. case_match; [done|]. pose proof (advance_le ts1).
  eapply fine_bind; [apply (type_path_fine _ n); lia|]. intros ty ts2 Hts2 _.
  destruct (_match (is_keyword "in") ts2) as [ts3|] eqn:E3; [|by apply fine_ok].
  apply match_lt in E3; [|auto with cedar]. apply Hu. lia.
Qed.

Lemma annotation_fine B n ts : (length ts <= n)%nat -> fine B n (fun _ => True) (annotation ts).
Proof.
  intros Hn. unfold annotation. eapply fine_bind; [by apply expect_kind_fine|]. intros ? ts1 Hts1 _.
  eapply fine_bind; [by apply expect_punct_fine|]. intros ? ts2 Hts2 _.
  eapply fine_bind; [by apply expect_kind_fine|]. intros ? ts3 Hts3 _.
  eapply fine_bind; [by apply expect_punct_fine|]. intros ? ts4 Hts4 _. by apply fine_ok.
Qed.

Definition conditions_ok (cs : list (bool * expr)) : Prop := forallb (fun c => expr_ok (c.2)) cs = true.

Lemma condition_loop_fine depth n k ts :
  (length ts <= n)%nat -> (length ts < k)%nat ->
  fine (depth < 9 * n + 9)%nat n conditions_ok (condition_loop k depth ts).
Proof.
  revert ts. induction k as [|k IH]; intros ts Hn Hk; [lia|]. cbn [condition_loop].
  destruct (is_keyword "when" (_peek ts) || is_keyword "unless" (_peek ts)) eqn:E; [|by apply fine_ok].
  assert (S (length (_advance ts)) <= length ts)%nat as Ha.
  { apply orb_prop in E as [E|E]; (eapply advance_lt; [|exact E]); auto with cedar. }
  eapply fine_bind; [apply (expect_punct_fine _ (length (_advance ts))); lia|]. intros ? ts1 Hts1 _.
  eapply fine_bind.
  { eapply (method_here _ _ _ _ (length (_advance ts)) (length ts1));
      [apply (f_expression _ (parser_fine depth))|done|done|lia]. }
  intros e ts2 Hts2 He.
  eapply fine_bind; [apply (expect_punct_fine _ (length (_advance ts))); lia|]. intros ? ts3 Hts3 _.
  eapply fine_bind; [apply IH; lia|]. intros rest ts4 Hts4 Hr. apply fine_ok; [done|].
  unfold conditions_ok. cbn. by rewrite He, Hr.
Qed.

Lemma policy_fine depth n index ts :
  (length ts <= n)%nat ->
  fine (depth < 9 * n + 10)%nat (n - 1) (fun p => policy_ok p = true) (_policy depth index ts).
Proof.
  intros Hn. destruct depth as [|depth]; [cbn; lia|]. cbn [_policy].
  eapply fine_bind; [apply (more_items_fine _ n _ _ _ (fun _ => True)); auto with cedar; try lia|].
  { intros. by apply annotation_fine. }
  intros annotations ts1 Hts1 _.
  destruct (negb _) eqn:E; [done|]. apply negb_false_iff in E.
  assert (S (length (_advance ts1)) <= length ts1)%nat as Ha.
  { apply orb_prop in E as [E|E]; (eapply advance_lt; [|exact E]); auto with cedar. }
  eapply fine_bind; [apply (expect_punct_fine _ (n - 1)); lia|]. intros ? ts2 Hts2 _.
  eapply fine_bind; [by apply scope_fine|]. intros pr ts3 Hts3 _.
  eapply fine_bind; [by apply expect_punct_fine|]. intros ? ts4 Hts4 _.
  eapply fine_bind; [by apply scope_fine|]. intros ac ts5 Hts5 _.
  eapply fine_bind; [by apply expect_punct_fine|]. intros ? ts6 Hts6 _.
  eapply fine_bind; [by apply scope_fine|]. intros re ts7 Hts7 _.
  eapply fine_bind; [by apply expect_punct_fine|]. intros ? ts8 Hts8 _.
  eapply fine_bind.
  { eapply fine_weaken; [apply (condition_loop_fine depth (n - 1)); lia| |done|done]. lia. }
  intros cs ts9 Hts9 Hcs. eapply fine_bind; [by apply expect_punct_fine|]. intros ? ts10 Hts10 _.
  by apply fine_ok.
Qed.

(** The whole program: well-formed, and never out of depth with ten levels per
    token. *)
Definition program_fine (B : Prop) (c : res parse_error (list policy)) : Prop :=
  match c with
  | Ok ps => forallb policy_ok ps = true
  | Err RecursionError => B
  | Err _ => True
  end.

Lemma policies_loop_fine depth n k index ts :
  (length ts <= n)%nat -> (length ts < k)%nat ->
  program_fine (depth < 9 * n + 10)%nat (policies_loop k depth index ts).
Proof.
  revert index ts. induction k as [|k IH]; intros index ts Hn Hk; [lia|]. cbn [policies_loop].
  destruct (is_kind KEof (_peek ts)) eqn:E; [done|].
  destruct ts as [|t ts0] eqn:Ets; [done|]. rewrite <- Ets in *.
  pose proof (policy_fine depth (length ts) index ts (le_n _)) as Hp.
  destruct (_policy depth index ts) as [[p ts1]|[| |]]; cbn in *; try done; [|lia].
  destruct Hp as [H1 Hpol].
  assert (length ts = S (length ts0)) as Hlen by (by rewrite Ets).
  assert (length ts1 <= n)%nat as Hn1 by lia. assert (length ts1 < k)%nat as Hk1 by lia.
  specialize (IH (index + 1) ts1 Hn1 Hk1).
  destruct (policies_loop k depth (index + 1) ts1) as [ps|[| |]]; cbn in *; try done. by apply andb_true_intro.
Qed.

Lemma policies_fine depth ts :
  program_fine (depth < 9 * length ts + 10)%nat (policies depth ts).
Proof.
  unfold policies. pose proof (policies_loop_fine depth (length ts) (S (length ts)) 0 ts) as H.
  destruct (policies_loop _ _ _ _) as [[|p ps]|[| |]]; cbn in *; try done; apply H; lia.
Qed.
End parser.
