(* ===== verification/CedarDecisions.v ===== *)
(** * Cedar: decisions

    The two authorization loops against the algorithm they implement: a policy
    is satisfied, not satisfied, or skipped because it fails; a satisfied
    forbid denies, otherwise a satisfied permit allows. *)

From stdpp Require Import base sets strings numbers list gmap.
From Stdlib Require Import ZArith Lia.
From S2P Require Import Prelude PyCollections PyText CedarSyntax CedarLexer CedarParser.
From S2P Require Import CedarEval CedarEvalFacts CedarAnalysis CedarSchema CedarEngine.
#[local] Open Scope Z_scope.

(** ** The algorithm *)

Definition satisfied (r : request) (p : policy) : bool :=
  match plan_policy_satisfied r p with Ok true => true | _ => false end.

Definition raises (r : request) (p : policy) : bool :=
  match plan_policy_satisfied r p with Err Raised => true | _ => false end.

Definition diagnose (r : request) (p : policy) : option diagnostic :=
  match plan_policy_satisfied r p with
  | Ok true => Some (Matched (forbid p) (policy_id p))
  | Err (Failed e) => Some (Skipped (forbid p) (policy_id p) e)
  | _ => None
  end.

Definition cedar_decision (r : request) (ps : list policy) : decision :=
  let forbidden := existsb (fun p => forbid p && satisfied r p) ps in
  let permitted := existsb (fun p => negb (forbid p) && satisfied r p) ps in
  AuthorizationDecision (permitted && negb forbidden)
    (if forbidden then ExplicitForbid else if permitted then CedarPermit else NoPermit)
    (omap (diagnose r) ps).

Lemma diagnostic_loop_spec r ps permitted forbidden ds :
  existsb (raises r) ps = false ->
  diagnostic_loop r ps permitted forbidden ds =
  Ok (permitted || existsb (fun p => negb (forbid p) && satisfied r p) ps,
      forbidden || existsb (fun p => forbid p && satisfied r p) ps,
      ds ++ omap (diagnose r) ps).
Proof.
  revert permitted forbidden ds. induction ps as [|p ps IH]; intros pm fb ds Hr; cbn.
  - by rewrite !orb_false_r, app_nil_r.
  - cbn in Hr. apply orb_false_iff in Hr as [Hp Hr]. unfold raises in Hp.
    unfold satisfied at 1 3, diagnose at 1.
    destruct (plan_policy_satisfied r p) as [[]|[e|]]; try done; rewrite (IH _ _ _ Hr).
    + destruct (forbid p), pm, fb; cbn; by rewrite <- ?app_assoc.
    + by rewrite !andb_false_r.
    + rewrite !andb_false_r, <- app_assoc. done.
Qed.

Lemma diagnostic_loop_raises r ps permitted forbidden ds :
  existsb (raises r) ps = true -> diagnostic_loop r ps permitted forbidden ds = Err Raised.
Proof.
  revert permitted forbidden ds. induction ps as [|p ps IH]; intros pm fb ds Hr; [done|]. cbn in *.
  unfold raises in Hr at 1. destruct (plan_policy_satisfied r p) as [[]|[e|]]; auto.
Qed.

Lemma authorize_plan_diagnostic_spec pl r :
  existsb (raises r) (all pl) = false ->
  authorize_plan_diagnostic pl r = Ok (cedar_decision r (all pl)).
Proof.
  intros Hr. unfold authorize_plan_diagnostic. rewrite (diagnostic_loop_spec _ _ _ _ _ Hr).
  cbn. unfold cedar_decision.
  destruct (existsb (fun p => forbid p && satisfied r p) (all pl)),
    (existsb (fun p => negb (forbid p) && satisfied r p) (all pl)); done.
Qed.

Lemma first_satisfied_spec r ps :
  existsb (raises r) ps = false -> first_satisfied r ps = Ok (existsb (satisfied r) ps).
Proof.
  induction ps as [|p ps IH]; [done|]. cbn. intros [Hp Hr]%orb_false_iff.
  unfold raises in Hp. unfold satisfied at 1.
  destruct (plan_policy_satisfied r p) as [[]|[e|]]; try done; by apply IH.
Qed.

Lemma existsb_filter {A} (f g : A -> bool) l :
  existsb f (List.filter g l) = existsb (fun x => g x && f x) l.
Proof. induction l as [|x l IH]; [done|]. cbn. destruct (g x); cbn; by rewrite IH. Qed.

Lemma existsb_sub {A} (f g : A -> bool) l :
  existsb f l = false -> existsb f (List.filter g l) = false.
Proof.
  intros H. rewrite existsb_filter. induction l as [|x l IH]; [done|]. cbn in *.
  apply orb_false_iff in H as [-> H]. rewrite andb_false_r. by apply IH.
Qed.

Lemma compile_plan_parts ps pl :
  cedar_compile_plan ps = Some pl ->
  all pl = ps /\ forbids pl = List.filter forbid ps /\
  permits pl = List.filter (fun p => negb (forbid p)) ps.
Proof. unfold cedar_compile_plan. destruct (forallb _ ps); [|done]. by intros [= <-]. Qed.

Lemma authorize_plan_one_spec ps pl r :
  cedar_compile_plan ps = Some pl -> existsb (raises r) ps = false ->
  authorize_plan_one pl r =
  Ok (allowed (cedar_decision r ps), decision_reason (cedar_decision r ps)).
Proof.
  intros Hpl Hr. destruct (compile_plan_parts _ _ Hpl) as (_ & Hf & Hp).
  unfold authorize_plan_one. rewrite Hf, Hp.
  rewrite !first_satisfied_spec by (by apply existsb_sub). cbn. rewrite !existsb_filter.
  destruct (existsb (fun x => forbid x && satisfied r x) ps) eqn:E1;
    destruct (existsb (fun x => negb (forbid x) && satisfied r x) ps) eqn:E2; cbn; by rewrite ?E1, ?E2.
Qed.

Lemma policies_no_raise r ps :
  request_i64 r = true -> forallb policy_ok ps = true -> existsb (raises r) ps = false.
Proof.
  intros Hr. induction ps as [|p ps IH]; [done|]. cbn. intros [Hp Hps]%andb_prop.
  rewrite IH by done. rewrite orb_false_r. unfold raises.
  pose proof (policy_no_raise r p Hr Hp) as H. unfold no_raise in H.
  by destruct (plan_policy_satisfied r p) as [[]|[]].
Qed.

(** Decisions depend on the policies through their evaluation only. *)
Lemma cedar_decision_ext r1 r2 ps :
  (forall p, p ∈ ps -> plan_policy_satisfied r1 p = plan_policy_satisfied r2 p) ->
  cedar_decision r1 ps = cedar_decision r2 ps.
Proof.
  intros H. unfold cedar_decision.
  assert (forall f : policy -> bool, existsb (fun p => f p && satisfied r1 p) ps =
                   existsb (fun p => f p && satisfied r2 p) ps) as Hs.
  { intros f. induction ps as [|p ps IH]; [done|]. cbn.
    rewrite IH by set_solver. unfold satisfied at 1 3. rewrite H by set_solver. done. }
  rewrite (Hs forbid), (Hs (fun p => negb (forbid p))). f_equal. clear Hs.
  induction ps as [|p ps IH]; [done|]. cbn. rewrite IH by set_solver.
  unfold diagnose at 1 3. rewrite H by set_solver. done.
Qed.

Lemma diagnostic_ext r1 r2 pl :
  (forall p, p ∈ all pl -> plan_policy_satisfied r1 p = plan_policy_satisfied r2 p) ->
  authorize_plan_diagnostic pl r1 = authorize_plan_diagnostic pl r2.
Proof.
  intros H. unfold authorize_plan_diagnostic. f_equal.
  generalize (@nil diagnostic) as ds. generalize false at 1 3 as pm. generalize false as fb.
  induction (all pl) as [|p ps IH]; intros fb pm ds; [done|]. cbn.
  rewrite H by set_solver. destruct (plan_policy_satisfied r2 p) as [[]|[]]; try apply IH; set_solver.
Qed.

(** ** Conversion keeps to 64 bits *)

Section pyvalue_induction.
Context (Q : pyvalue -> Prop).
Context (Hb : forall b, Q (PvBool b)) (Hi : forall z, Q (PvInt z)) (Hs : forall s, Q (PvStr s)).
Context (Hu : forall u, Q (PvUid u)) (Ho : Q PvOther).
Context (Hm : forall l, Forall (fun kv => Q (kv.2)) l -> Q (PvMapping l)).
Context (Hq : forall l, Forall Q l -> Q (PvSequence l)).
Context (Hset : forall l, Forall Q l -> Q (PvSet l)).
Context (Hf : forall l, Forall Q l -> Q (PvFrozenset l)).

Fixpoint pyvalue_ind_nested (v : pyvalue) : Q v :=
  let list_ind := fix go l : Forall Q l :=
    match l with
    | [] => ListDef.Forall_nil _
    | x :: l => ListDef.Forall_cons _ x l (pyvalue_ind_nested x) (go l)
    end in
  match v with
  | PvBool b => Hb b
  | PvInt z => Hi z
  | PvStr s => Hs s
  | PvUid u => Hu u
  | PvMapping l =>
    Hm l ((fix go l : Forall (fun kv => Q (kv.2)) l :=
      match l with
      | [] => ListDef.Forall_nil _
      | (k, x) :: l => ListDef.Forall_cons _ (k, x) l (pyvalue_ind_nested x) (go l)
      end) l)
  | PvSequence l => Hq l (list_ind l)
  | PvSet l => Hset l (list_ind l)
  | PvFrozenset l => Hf l (list_ind l)
  | PvOther => Ho
  end.
End pyvalue_induction.

Lemma to_value_i64 v w : cedar_to_value v = Some w -> value_i64 w = true.
Proof.
  revert w. induction v as [| | | | |l IH|l IH|l IH|l IH] using pyvalue_ind_nested; intros w;
    cbn [cedar_to_value]; try (by intros [= <-]).
  - destruct (i64 z) eqn:E; [|done]. by intros [= <-].
  - assert (forallb (fun kv => value_i64 (kv.2)) (@nil (pystr * value)) = true) as Hacc by done.
    revert Hacc. generalize (@nil (pystr * value)) as acc.
    induction IH as [|[[k|] x] l Hx _ IHl]; intros acc Hacc; [by intros [= <-]| |done].
    cbn in Hx. destruct (cedar_to_value x) as [w'|]; [|done]. apply IHl.
    apply dset_fields_i64; [done|]. by apply Hx.
  - match goal with |- ?go l [] [] = _ -> _ =>
      enough (forall seen acc, forallb value_i64 acc = true -> go l seen acc = Some w -> value_i64 w = true)
        as Hgo by (by apply Hgo) end.
    induction IH as [|x l Hx _ IHl]; intros seen acc Hacc; [by intros [= <-]|].
    destruct (cedar_to_value x) as [w'|]; [|done].
    destruct (dedupe_step w' seen acc) as [seen' acc'] eqn:Ed. apply IHl.
    unfold dedupe_step in Ed. destruct (existsb _ _); injection Ed as <- <-; [done|].
    rewrite forallb_app, Hacc. cbn. by rewrite Hx.
  - match goal with |- ?go l [] = _ -> _ =>
      enough (forall acc, forallb value_i64 acc = true -> go l acc = Some w -> value_i64 w = true)
        as Hgo by (by apply Hgo) end.
    induction IH as [|x l Hx _ IHl]; intros acc Hacc; [by intros [= <-]|].
    destruct (cedar_to_value x) as [w'|]; [|done]. apply IHl.
    rewrite forallb_app, Hacc. cbn. by rewrite Hx.
  - match goal with |- ?go l [] = _ -> _ =>
      enough (forall acc, forallb value_i64 acc = true -> go l acc = Some w -> value_i64 w = true)
        as Hgo by (by apply Hgo) end.
    induction IH as [|x l Hx _ IHl]; intros acc Hacc; [by intros [= <-]|].
    destruct (cedar_to_value x) as [w'|]; [|done]. apply IHl.
    rewrite forallb_app, Hacc. cbn. by rewrite Hx.
Qed.

Lemma to_record_i64 items d : to_record items = Ok d -> fields_i64 d = true.
Proof.
  unfold to_record. destruct (cedar_to_value _) as [[]|] eqn:E; try done. intros [= <-].
  by apply to_value_i64 in E.
Qed.

(** ** Stores *)

Definition store_i64 (st : store) : bool := forallb (fun e => fields_i64 (e.2.1)) st.
Definition attrs_i64 (attrs : list (uid * list (pystr * value))) : bool :=
  forallb (fun e => fields_i64 (e.2)) attrs.

Lemma dset_forallb {K V} `{EqDecision K} (f : V -> bool) (d : list (K * V)) k v :
  forallb (fun e => f (e.2)) d = true -> f v = true ->
  forallb (fun e => f (e.2)) (dset d k v) = true.
Proof.
  intros Hd Hv. induction d as [|[j w] d IH]; cbn [dset forallb snd]; [by rewrite Hv|].
  cbn [forallb snd] in Hd. apply andb_prop in Hd as [H1 H2].
  destruct (decide (j = k)); cbn [forallb snd]; [by rewrite Hv, H2|]. by rewrite H1, IH.
Qed.

Lemma entity_maps_i64 entities attrs parents attrs' parents' :
  _entity_maps entities attrs parents = Ok (attrs', parents') ->
  attrs_i64 attrs = true -> attrs_i64 attrs' = true.
Proof.
  revert attrs parents. induction entities as [|e entities IH]; intros attrs parents; cbn.
  - by intros [= <- <-].
  - destruct (to_record (e_attrs e)) as [d|] eqn:E; [|done]. cbn. intros H Ha.
    apply IH in H; [done|]. apply dset_forallb; [done|]. by eapply to_record_i64.
Qed.

Lemma build_store_i64 entities st : _build_store entities = Ok st -> store_i64 st = true.
Proof.
  unfold _build_store. destruct (_entity_maps entities [] []) as [[attrs parents]|] eqn:E; [|done].
  cbn. intros [= <-]. apply entity_maps_i64 in E; [|done]. unfold store_i64, attrs_i64 in *.
  induction attrs as [|a attrs IH]; [done|]. cbn in *. apply andb_prop in E as [Ea E].
  apply andb_true_intro. split; [exact Ea|by apply IH].
Qed.

Lemma layer_store_i64 base entities protected st :
  store_i64 base = true -> _layer_store base entities protected = Ok st -> store_i64 st = true.
Proof.
  intros Hb. unfold _layer_store.
  destruct (_entity_maps entities [] []) as [[attrs parents]|] eqn:E; [|done]. cbn.
  apply entity_maps_i64 in E; [|done]. destruct (List.filter _ _); [|done]. intros [= <-].
  revert base Hb. unfold attrs_i64 in E. induction attrs as [|a attrs IH]; intros base Hb; [done|].
  cbn in *. apply andb_prop in E as [Ea E]. apply IH; [done|].
  apply (dset_forallb (fun e : list (pystr * value) * list uid => fields_i64 (e.1))); [done|exact Ea].
Qed.

(** ** Satisfied policies *)

Lemma satisfied_exists r (f : policy -> bool) ps :
  existsb (fun p => f p && satisfied r p) ps = true <->
  exists p, p ∈ ps /\ f p = true /\ plan_policy_satisfied r p = Ok true.
Proof.
  rewrite existsb_exists. setoid_rewrite andb_true_iff. setoid_rewrite <- list_elem_of_In.
  assert (forall p, satisfied r p = true <-> plan_policy_satisfied r p = Ok true) as Hs.
  { intros p. unfold satisfied. by destruct (plan_policy_satisfied r p) as [[]|]. }
  by setoid_rewrite Hs.
Qed.
