(* ===== verification/CedarComposition.v ===== *)
(** * Cedar: leaving out the principal's entity

    When [_needs_principal_entity] is false and nothing else of the request
    refers to the principal, its entry in the store does not matter. *)

From stdpp Require Import base sets strings numbers list gmap relations.
From Stdlib Require Import ZArith Lia.
From S2P Require Import Prelude PyCollections PyText CedarSyntax CedarEval CedarEvalFacts.
From S2P Require Import CedarAnalysis CedarNoninterference.
#[local] Open Scope Z_scope.

(** A value that does not contain the entity [p]. *)
Fixpoint value_without (p : uid) (v : value) : bool :=
  match v with
  | VUid u => negb (bool_decide (u = p))
  | VSet _ l => forallb (value_without p) l
  | VRecord d => forallb (fun kv => value_without p (kv.2)) d
  | _ => true
  end.

Definition fields_without (p : uid) (d : list (pystr * value)) : bool :=
  forallb (fun kv => value_without p (kv.2)) d.

(** No other entity refers to [p], as a parent or in an attribute. *)
Definition store_without (p : uid) (st : store) : Prop :=
  forall u attrs ps, u <> p -> dget st u = Some (attrs, ps) ->
    fields_without p attrs = true /\ p ∉ ps.

Lemma store_without_entries p (st : store) :
  forallb (fun e => bool_decide (e.1 = p) ||
    (fields_without p (e.2.1) && negb (bool_decide (p ∈ e.2.2)))) st = true ->
  store_without p st.
Proof.
  intros H u attrs ps Hu Hd%dget_elem. pose proof (forallb_elem _ _ _ H Hd) as He. cbn -[bool_decide] in He.
  rewrite bool_decide_false in He by done. apply andb_prop in He as [He Hp].
  by apply negb_true_iff, bool_decide_eq_false in Hp.
Qed.

Definition names_uid (p : uid) (e : expr) : bool :=
  match e with OP_CONST (CUid u) => bool_decide (u = p) | _ => false end.

(** Requests whose stores differ in the entry of the principal only. *)
Record same_but_principal (r1 r2 : request) : Prop := {
  sp_principal : r_principal r1 = r_principal r2;
  sp_action : r_action r1 = r_action r2;
  sp_resource : r_resource r1 = r_resource r2;
  sp_context : r_context r1 = r_context r2;
  sp_store : forall u, u <> r_principal r1 -> dget (r_store r1) u = dget (r_store r2) u }.

(** Nothing of the request but its principal refers to the principal. *)
Record refers_once (r : request) : Prop := {
  ro_action : r_action r <> r_principal r;
  ro_resource : r_resource r <> r_principal r;
  ro_context : fields_without (r_principal r) (r_context r) = true;
  ro_store : store_without (r_principal r) (r_store r) }.

Section principal.
Context (r1 r2 : request) (Hsame : same_but_principal r1 r2) (Honce : refers_once r1).
Let p := r_principal r1.

Lemma tc_without u q :
  tc (parent_of (r_store r1)) u q -> u <> p -> tc (parent_of (r_store r2)) u q.
Proof.
  assert (forall u q, u <> p -> parent_of (r_store r1) u q -> parent_of (r_store r2) u q /\ q <> p) as Hstep.
  { intros v w Hv (attrs & ps & Hd & Hw). destruct (ro_store _ Honce v attrs ps Hv Hd) as [_ Hp].
    split; [|by intros ->]. exists attrs, ps. by rewrite <- (sp_store _ _ Hsame). }
  induction 1 as [u q Hq|u w q Hw _ IH]; intros Hu.
  - apply tc_once. by apply Hstep.
  - destruct (Hstep u w Hu Hw) as [H1 H2]. eapply tc_l; [exact H1|]. by apply IH.
Qed.

Lemma tc_without_back u q :
  tc (parent_of (r_store r2)) u q -> u <> p -> tc (parent_of (r_store r1)) u q.
Proof.
  assert (forall u q, u <> p -> parent_of (r_store r2) u q -> parent_of (r_store r1) u q /\ q <> p) as Hstep.
  { intros v w Hv (attrs & ps & Hd & Hw). rewrite <- (sp_store _ _ Hsame) in Hd by done.
    destruct (ro_store _ Honce v attrs ps Hv Hd) as [_ Hp].
    split; [|by intros ->]. by exists attrs, ps. }
  induction 1 as [u q Hq|u w q Hw _ IH]; intros Hu.
  - apply tc_once. by apply Hstep.
  - destruct (Hstep u w Hu Hw) as [H1 H2]. eapply tc_l; [exact H1|]. by apply IH.
Qed.

Lemma ancestor_without u f :
  u <> p -> cedar_ancestor_matches (r_store r1) u f = cedar_ancestor_matches (r_store r2) u f.
Proof.
  intros Hu. apply eq_true_iff_eq. rewrite !ancestor_matches_spec.
  split; intros (q & Hq & Hf); exists q; eauto using tc_without, tc_without_back.
Qed.

Lemma in_without x y :
  value_without p x = true -> cedar_in (r_store r1) x y = cedar_in (r_store r2) x y.
Proof.
  intros Hx. destruct x as [| | |u| |]; try done. cbn in Hx.
  apply negb_true_iff, bool_decide_eq_false in Hx. unfold cedar_in.
  destruct y as [| | |c|[] l|]; try done.
  - by rewrite (ancestor_without u _ Hx).
  - destruct (in_candidates u l) as [[cs|]|]; try done. cbn. by rewrite (ancestor_without u _ Hx).
Qed.

Lemma getattr_without x n :
  value_without p x = true ->
  cedar_eval_getattr (r_store r1) x n = cedar_eval_getattr (r_store r2) x n.
Proof.
  intros Hx. destruct x as [| | |u| |]; try done. cbn in *.
  apply negb_true_iff, bool_decide_eq_false in Hx. by rewrite (sp_store _ _ Hsame).
Qed.

Lemma has_without x n :
  value_without p x = true -> cedar_has (r_store r1) x n = cedar_has (r_store r2) x n.
Proof.
  intros Hx. destruct x as [| | |u| |]; try done. cbn in *.
  apply negb_true_iff, bool_decide_eq_false in Hx. by rewrite (sp_store _ _ Hsame).
Qed.

Lemma dget_without d n v : fields_without p d = true -> dget d n = Some v -> value_without p v = true.
Proof.
  intros H G. apply dget_elem in G.
  exact (forallb_elem (fun kv => value_without p (kv.2)) d (n, v) H G).
Qed.

Lemma getattr_result x n v :
  value_without p x = true -> cedar_eval_getattr (r_store r1) x n = Ok v -> value_without p v = true.
Proof.
  intros Hx. destruct x as [| | |u| |d]; try done; cbn in *.
  - apply negb_true_iff, bool_decide_eq_false in Hx.
    destruct (dget (r_store r1) u) as [[attrs ps]|] eqn:E; [|done].
    destruct (dget attrs n) eqn:E'; [|done]. intros [= <-].
    destruct (ro_store _ Honce u attrs ps Hx E) as [Ha _]. by eapply dget_without.
  - destruct (dget d n) eqn:E; [|done]. intros [= <-]. by eapply dget_without.
Qed.

Lemma dset_without d n v :
  fields_without p d = true -> value_without p v = true -> fields_without p (dset d n v) = true.
Proof.
  unfold fields_without. intros Hd Hv. induction d as [|[j w] d IH]; cbn [dset forallb snd];
    [rewrite Hv; done|].
  cbn [forallb snd] in Hd. apply andb_prop in Hd as [H1 H2].
  destruct (decide (j = n)); cbn [forallb snd]; [by rewrite Hv, H2|]. by rewrite H1, IH.
Qed.

Lemma items_without depth items seen acc v :
  (forall x, x ∈ items -> forall d w, cedar_eval r1 x d = Ok w -> value_without p w = true) ->
  forallb (value_without p) acc = true ->
  eval_items r1 depth items seen acc = Ok v -> value_without p v = true.
Proof.
  revert seen acc. induction items as [|x items IH]; intros seen acc Hi Hacc; cbn [eval_items].
  - by intros [= <-].
  - destruct (cedar_eval r1 x (depth + 1)) as [w|] eqn:E; [|done]. cbn [res_bind].
    destruct (dedupe_step w seen acc) as [seen' acc'] eqn:Ed. apply IH; [set_solver|].
    unfold dedupe_step in Ed. destruct (existsb _ _); injection Ed as <- <-; [done|].
    rewrite forallb_app, Hacc. cbn. rewrite (Hi x) with (w := w) (d := depth + 1); [done|set_solver|done].
Qed.

Lemma entries_without depth entries acc v :
  (forall x, x ∈ map snd entries -> forall d w, cedar_eval r1 x d = Ok w -> value_without p w = true) ->
  fields_without p acc = true ->
  eval_entries r1 depth entries acc = Ok v -> value_without p v = true.
Proof.
  revert acc. induction entries as [|[k x] entries IH]; intros acc Hi Hacc; cbn [eval_entries].
  - by intros [= <-].
  - destruct (cedar_eval r1 x (depth + 1)) as [w|] eqn:E; [|done]. cbn [res_bind].
    apply IH; [set_solver|]. apply dset_without; [done|].
    apply (Hi x) with (d := depth + 1); [set_solver|done].
Qed.

(** Values of expressions that do not mention the principal. *)
Lemma set_method_bool m x arg depth v : set_method m x arg depth = Ok v -> exists b, v = VBool b.
Proof.
  unfold set_method. destruct x; try done. destruct m; try (intros [= <-]; eauto);
    destruct arg as [w|]; try done; cbn;
    try (destruct w; try done);
    match goal with |- res_bind ?c _ = _ -> _ => destruct c; try done end;
    cbn; intros [= <-]; eauto.
Qed.

Lemma var_without v : mentions Principal (OP_VAR v) = false -> value_without p (var_value r1 v) = true.
Proof.
  intros H. apply exists_expr_here in H. destruct v; cbn; try done.
  - apply negb_true_iff, bool_decide_eq_false, (ro_action _ Honce).
  - apply negb_true_iff, bool_decide_eq_false, (ro_resource _ Honce).
  - apply (ro_context _ Honce).
Qed.

Lemma eval_without e :
  mentions Principal e = false -> exists_expr (names_uid p) e = false ->
  forall d v, cedar_eval r1 e d = Ok v -> value_without p v = true.
Proof.
  induction e as [e IH] using expr_operand_ind. intros Hm Hn.
  assert (forall x, x ∈ operands e -> forall d w, cedar_eval r1 x d = Ok w -> value_without p w = true) as Ho.
  { intros x Hx. apply IH; [done|..]; by eapply exists_expr_operand. }
  clear IH. intros d v.
  destruct e as [c|w|a b|a b|a|o a b|o a b|a b|a b|a b|a n|a ss|a ty b|c t f|l|l|a n|m a b];
    rewrite ?cedar_eval_set, ?cedar_eval_record; cbn [cedar_eval];
    (destruct (CEDAR_MAX_DEPTH <? d); [done|]); cbn [operands] in Ho.
  all: try (intros H; repeat (res_inv || case_match); simplify_eq; done).
  - intros [= <-]. apply exists_expr_here in Hn. destruct c; cbn in *; try done. by rewrite Hn.
  - intros [= <-]. by apply var_without.
  - intros H. res_inv. unfold cedar_arith in *. by case_match; simplify_eq.
  - intros H. apply res_bind_Ok in H as (x & _ & H). destruct x; eapply Ho; eauto; set_solver.
  - intros H. eapply items_without; [exact Ho| |exact H]; done.
  - intros H. eapply entries_without; [exact Ho| |exact H]; done.
  - intros H. res_inv. eapply getattr_result; [|done]. eapply Ho; eauto; set_solver.
  - intros H. res_inv. match goal with H : set_method _ _ _ _ = Ok _ |- _ =>
      by apply set_method_bool in H as [? ->] end.
Qed.

(** The two stores give the same evaluation. *)
Lemma eval_principal_agree e :
  exists_expr reads_principal e = false -> exists_expr (names_uid p) e = false ->
  forall d, cedar_eval r1 e d = cedar_eval r2 e d.
Proof.
  induction e as [e IH] using expr_operand_ind. intros Hr Hn d.
  assert (forall x, x ∈ operands e -> forall d, cedar_eval r1 x d = cedar_eval r2 x d) as Ho.
  { intros x Hx. apply IH; [done|..]; by eapply exists_expr_operand. }
  assert (forall x, x ∈ operands e -> exists_expr (names_uid p) x = false) as Hu
    by (intros x Hx; by eapply exists_expr_operand).
  apply exists_expr_here in Hr. clear IH.
  destruct (reads_store e) eqn:Hs.
  - destruct e as [| | | | | | | | |a b|a n| |a ty [b|]| | | |a n|]; try done;
      cbn [reads_principal operands] in *; cbn [cedar_eval]; (destruct (CEDAR_MAX_DEPTH <? d); [done|]);
      rewrite <- !Ho by set_solver;
      (destruct (cedar_eval r1 a (d + 1)) as [x|] eqn:Ea; [|done]); cbn [res_bind];
      pose proof (eval_without a Hr (Hu a ltac:(set_solver)) (d + 1) x Ea) as Hx.
    + destruct (cedar_eval r1 b (d + 1)); [|done]. cbn [res_bind]. by rewrite in_without.
    + by rewrite has_without.
    + destruct x; try done. destruct (negb _); [done|].
      destruct (cedar_eval r1 b (d + 1)); [|done]. cbn [res_bind]. by rewrite in_without.
    + by apply getattr_without.
  - apply eval_operands_ext; [done|by rewrite Hs|]. intros v ->. destruct Hsame. destruct v; cbn; congruence.
Qed.

Lemma policy_principal_agree q :
  needs_principal_policy q = false -> exists_in_policy (names_uid p) q = false ->
  plan_policy_satisfied r1 q = plan_policy_satisfied r2 q.
Proof.
  intros Hneed Hn. unfold plan_policy_satisfied.
  assert (plan_policy_conditions r1 (conditions q) = plan_policy_conditions r2 (conditions q)) as ->.
  { apply conditions_ext. intros u e He. apply eval_principal_agree.
    - destruct (exists_expr reads_principal e) eqn:E; [|done].
      rewrite <- (needs_principal_spec q Hneed).
      symmetry. apply (exists_in_conditions reads_principal); [apply reads_principal_encode|].
      apply existsb_exists. exists (u, e). split; [by apply list_elem_of_In|done].
    - destruct (exists_expr (names_uid p) e) eqn:E; [|done]. rewrite <- Hn. symmetry.
      apply existsb_exists. exists (u, e). split; [by apply list_elem_of_In|done]. }
  assert (forall s u, u <> p -> cedar_scope_matches r1 s u = cedar_scope_matches r2 s u) as Hscope.
  { intros s u Hu. destruct s as [|t|t|ts|ty [t|]]; cbn [cedar_scope_matches]; try done;
      by rewrite (ancestor_without u _ Hu). }
  pose proof (ro_action _ Honce) as Ha. pose proof (ro_resource _ Honce) as Hr.
  rewrite (Hscope _ (r_action r1) Ha), (Hscope _ (r_resource r1) Hr).
  rewrite <- (sp_action _ _ Hsame), <- (sp_resource _ _ Hsame), <- (sp_principal _ _ Hsame).
  unfold needs_principal_policy in Hneed. by destruct (principal_scope q).
Qed.
End principal.

(** ** Cedar: composed principals and context facts

    [_auth/principal.py] (limits and narrowings), the resolvers of
    [_auth/cedar.py] that bound a provider's answer by the limits of the
    caller, and [SetFact] of [_auth/facts.py].  A frozenset of names is a list
    whose order carries nothing.  Times are integers; providers are what they
    answer for the request at hand. *)

Definition names : Type := list pystr.

(** [a & b]. *)
Definition meet (a b : names) : names := List.filter (fun n => bool_decide (n ∈ b)) a.

Lemma elem_of_meet n a b : n ∈ meet a b <-> n ∈ a /\ n ∈ b.
Proof.
  unfold meet. rewrite !list_elem_of_In, filter_In, bool_decide_eq_true, list_elem_of_In. done.
Qed.

(** *** Limits *)

Definition _intersect (a b : option names) : option names :=
  match a, b with
  | None, _ => b
  | _, None => a
  | Some a, Some b => Some (meet a b)
  end.

Record Limits : Type := mk_limits {
  l_organizations : option names;
  l_org_roles : option names;
  l_entitlements : option names;
  l_active : option pystr;
  l_plan : option pystr }.

Definition NO_LIMITS : Limits := mk_limits None None None None None.

Definition last_writer {A} (a b : option A) : option A := match b with Some _ => b | None => a end.

Definition merge (a b : Limits) : Limits :=
  mk_limits (_intersect (l_organizations a) (l_organizations b))
    (_intersect (l_org_roles a) (l_org_roles b))
    (_intersect (l_entitlements a) (l_entitlements b))
    (last_writer (l_active a) (l_active b)) (last_writer (l_plan a) (l_plan b)).

(** [bound(attribute, resolved)], given the limit of that attribute. *)
Definition bound (limit : option names) (resolved : names) : names :=
  match limit with None => resolved | Some l => meet resolved l end.

Definition member_of (organization : pystr) (role : option pystr) : Limits :=
  mk_limits (Some [organization])
    (match role with Some r => Some [organization ++ [58] ++ r] | None => None end)
    None (Some organization) None.

Definition on_plan (name : pystr) : Limits := mk_limits None None None None (Some name).

Definition with_entitlements (ns : names) : Limits := mk_limits None None (Some ns) None None.

(** *** Narrowings *)

Record Narrowing : Type := mk_narrowing {
  n_actor : pystr;
  n_scope : option names;
  n_expires_at : option Z;
  n_on_behalf_of : pystr;
  n_depth : Z }.

Definition expired (n : Narrowing) (now : Z) : bool :=
  match n_expires_at n with Some t => t <=? now | None => false end.

Definition permits_action (n : Narrowing) (action : pystr) : bool :=
  match n_scope n with None => true | Some s => bool_decide (action ∈ s) end.

Definition narrowing_then (a b : Narrowing) : Narrowing :=
  mk_narrowing (n_actor b) (_intersect (n_scope a) (n_scope b))
    (match n_expires_at a, n_expires_at b with
     | None, e => e
     | e, None => e
     | Some x, Some y => Some (Z.min x y)
     end)
    (match n_on_behalf_of a with [] => n_on_behalf_of b | s => s end) (n_depth a + 1).

Record Principal : Type := mk_principal {
  p_id : pystr;
  p_limits : Limits;
  p_narrowing : option Narrowing }.

(** [principal | facet]. *)
Definition compose (p : Principal) (facet : Limits) : Principal :=
  mk_principal (p_id p) (merge (p_limits p) facet) (p_narrowing p).

(** [narrow]: [None] is the [ValueError]. *)
Definition narrow (p : Principal) (actor : pystr) (scope : option names) (ttl : option Z) (now : Z) :
    option Principal :=
  if bool_decide (actor = []) then None
  else if (match ttl with Some t => t <=? 0 | None => false end) then None
  else
    let fresh := mk_narrowing actor scope (match ttl with Some t => Some (now + t) | None => None end)
                   (p_id p) 1 in
    Some (mk_principal (p_id p) (p_limits p)
            (Some (match p_narrowing p with Some n => narrowing_then n fresh | None => fresh end))).

(** *** Resolvers *)

Record Membership : Type := mk_membership { m_organization : pystr; m_roles : names }.

Definition qualified_roles (m : Membership) : names :=
  map (fun role => m_organization m ++ [58] ++ role) (m_roles m).

(** The session's choice, then the limit's. *)
Definition active_organization (session : option pystr) (l : Limits) : option pystr :=
  match session with
  | Some (c :: s) => Some (c :: s)
  | _ => l_active l
  end.

Definition _resolve_organizations (l : Limits) (memberships : list Membership) : names :=
  bound (l_organizations l) (map m_organization memberships).

Definition _resolve_org_roles (l : Limits) (session : option pystr) (memberships : list Membership) : names :=
  let active := active_organization session l in
  bound (l_org_roles l)
    (flat_map (fun m => qualified_roles m ++
       if bool_decide (Some (m_organization m) = active) then m_roles m else []) memberships).

(** What an entitlement provider resolves: the plan and what it includes. *)
Definition _bound_entitlement_resolution (plan : option pystr) (held : names) (l : Limits) : names :=
  match l_plan l with
  | Some claimed =>
    if negb (bool_decide (plan = Some claimed)) then [] else bound (l_entitlements l) held
  | None => bound (l_entitlements l) held
  end.

(** A provider of flags: which names it holds, and which are on. *)
Definition _resolve_flags (all : option names) (on : pystr -> bool) (vocabulary : option names) : names :=
  match vocabulary with
  | None => match all with Some l => List.filter on l | None => [] end
  | Some l => List.filter on l
  end.

(** *** Context facts *)

(** [SetFact]: [None] for a provider that is switched off. *)
Record SetFact : Type := mk_fact {
  attribute : pystr;
  provider : option (option names -> names);
  vocabulary : option names }.

Definition for_request (f : SetFact) : names :=
  match provider f with
  | None => []
  | Some resolve =>
    match vocabulary f with
    | Some [] => []
    | v => resolve v
    end
  end.

(** *** Composition never grants *)

Lemma bound_subset limit resolved n : n ∈ bound limit resolved -> n ∈ resolved.
Proof. destruct limit; [|done]. by intros [? _]%elem_of_meet. Qed.

Lemma bound_intersect a b resolved n :
  n ∈ bound (_intersect a b) resolved <-> n ∈ bound a (bound b resolved).
Proof. destruct a, b; unfold bound, _intersect; rewrite ?elem_of_meet; naive_solver. Qed.

Lemma bound_intersect_l a b resolved n :
  n ∈ bound (_intersect a b) resolved -> n ∈ bound a resolved.
Proof. destruct a, b; unfold bound, _intersect; rewrite ?elem_of_meet; naive_solver. Qed.

Lemma permits_then a b action :
  permits_action (narrowing_then a b) action = permits_action a action && permits_action b action.
Proof.
  unfold permits_action. cbn. destruct (n_scope a) as [s|], (n_scope b) as [t|]; cbn; try done.
  - apply eq_true_iff_eq. rewrite andb_true_iff, !bool_decide_eq_true. apply elem_of_meet.
  - by rewrite andb_true_r.
Qed.

Lemma expired_then a b now :
  expired (narrowing_then a b) now = expired a now || expired b now.
Proof.
  unfold expired. cbn. destruct (n_expires_at a) as [x|], (n_expires_at b) as [y|]; cbn; try done.
  - apply eq_true_iff_eq. rewrite orb_true_iff, !Z.leb_le. lia.
  - by rewrite orb_false_r.
Qed.

Lemma narrowing_then_assoc a b c :
  (forall x, permits_action (narrowing_then (narrowing_then a b) c) x =
             permits_action (narrowing_then a (narrowing_then b c)) x) /\
  (forall t, expired (narrowing_then (narrowing_then a b) c) t =
             expired (narrowing_then a (narrowing_then b c)) t) /\
  n_actor (narrowing_then (narrowing_then a b) c) = n_actor c.
Proof.
  split_and!; [intros x; rewrite !permits_then; by rewrite andb_assoc|
               intros t; rewrite !expired_then; by rewrite orb_assoc|done].
Qed.
