(* ===== verification/CedarAuthorizer.v ===== *)
(** * Cedar: the authorizer

    [CedarAuthorizer] of [_auth/cedar.py] with its default mappers over the
    built-in engine: the query it builds, with what the policies do not read
    left out, and the two passes of a delegated request. *)

From stdpp Require Import base sets strings numbers list gmap.
From Stdlib Require Import ZArith Lia.
From S2P Require Import Prelude PyCollections PyText CedarSyntax CedarLexer CedarParser.
From S2P Require Import CedarEval CedarAnalysis CedarSchema CedarEngine CedarComposition.
#[local] Open Scope Z_scope.

(** ** Requests *)

Record Identity : Type := mk_identity {
  i_type : pystr;
  i_id : pystr;
  i_namespace : pystr;
  i_roles : list pystr;
  i_attributes : list (option pystr * pyvalue);
  i_narrowing : option Narrowing }.

(** A value qualified by the namespace of its issuer, if it has one. *)
Definition qualified_identity_value (namespace value : pystr) : pystr :=
  match namespace with
  | [] => value
  | _ => str_of_Z (zlen namespace) ++ [58] ++ namespace ++ value
  end.

Definition _identity_id (i : Identity) : pystr := qualified_identity_value (i_namespace i) (i_id i).

(** [authority_roles], sorted where it is used. *)
Definition authority_roles (i : Identity) : list pystr :=
  map (qualified_identity_value (i_namespace i)) (i_roles i).

Record Request : Type := mk_http_request {
  rq_method : pystr;
  rq_path : pystr;
  rq_client_class : pystr;
  rq_second_factor_age : option Z;
  rq_time : Z;
  rq_identity : option Identity }.

Record CedarAuthorizer : Type := mk_authorizer {
  a_engine : CedarPolicies;
  a_facts : list SetFact;
  a_delegation_visible : bool;
  a_reads_now : bool }.

(** The constructor's reading of the engine. *)
Definition authorizer_init (engine : CedarPolicies) (facts : list SetFact) : CedarAuthorizer :=
  mk_authorizer engine facts
    (reads_context engine (bs "delegated") || reads_context engine (bs "actor") ||
     reads_context engine (bs "delegation_depth"))
    (reads_context engine (bs "now")).

Inductive auth_error : Type :=
| RedefinesPrincipal (u : uid)
| RedefinesAction (u : uid)
| EngineFailed (e : engine_error).

(** ** Mappers *)

Definition _default_principal (i : Identity) : uid := (i_type i, _identity_id i).

Definition _default_action (action : pystr) : uid := (bs "Action", action).

Definition _default_entities (i : Identity) : list CedarEntity :=
  [mk_entity (_default_principal i) (i_attributes i)
     (map (pair (bs "Role")) (sorted_by id (authority_roles i)))].

(** [_with_entities]: the newest definition wins by uid. *)
Definition _with_entities (entities additions : list CedarEntity) (protected protected_action : uid) :
    res auth_error (list CedarEntity) :=
  match List.find (fun e => bool_decide (e_uid e = protected) || bool_decide (e_uid e = protected_action))
          additions with
  | Some e =>
    if bool_decide (e_uid e = protected) then Err (RedefinesPrincipal protected)
    else Err (RedefinesAction protected_action)
  | None =>
    let replaced := map e_uid additions in
    Ok (List.filter (fun e => negb (bool_decide (e_uid e ∈ replaced))) entities ++ additions)
  end.

Definition in_needed (name : pystr) (needed : list pyobj) : bool := existsb (py_eqb (PyStr name)) needed.

(** The default context, with the keys that are needed. *)
Definition context_keys (a : CedarAuthorizer) (rq : Request) (needed : list pyobj) :
    list (option pystr * pyvalue) :=
  let key name v := if in_needed (bs name) needed then [(Some (bs name), v)] else [] in
  key "method"%string (PvStr (rq_method rq)) ++
  key "path"%string (PvStr (rq_path rq)) ++
  key "client_class"%string (PvStr (rq_client_class rq)) ++
  match rq_second_factor_age rq with Some age => key "second_factor_age"%string (PvInt age) | None => [] end ++
  key "now"%string (PvInt (rq_time rq)) ++
  flat_map (fun f => if in_needed (attribute f) needed
                     then [(Some (attribute f), PvFrozenset (map PvStr (for_request f)))] else [])
    (a_facts a) ++
  [(Some (bs "delegated"), PvBool false)].

(** [_query_base] with no compiled route. *)
Definition _query_base (a : CedarAuthorizer) (rq : Request) (i : Identity) (action : pystr) :
    uid * uid * list CedarEntity * list (option pystr * pyvalue) :=
  let action := _default_action action in
  (_default_principal i, action,
   (if principal_entity_for_action (a_engine a) action then _default_entities i else []),
   context_keys a rq (context_attributes_for_action (a_engine a) action)).

(** ** Two passes *)

Inductive auth_reason : Type :=
| Anonymous
| DelegationExpired
| OutOfScope
| Engine (why : reason).

Definition set_key (name : String.string) (v : pyvalue) (items : list (option pystr * pyvalue)) :
    list (option pystr * pyvalue) :=
  dset items (Some (bs name)) v.

Definition delegated_context (n : Narrowing) (context : list (option pystr * pyvalue)) :
    list (option pystr * pyvalue) :=
  set_key "delegation_depth" (PvInt (n_depth n))
    (set_key "actor" (PvStr (n_actor n)) (set_key "delegated" (PvBool true) context)).

Section authorize.
Context {U : UnicodeData}.

Definition _evaluate (a : CedarAuthorizer) (principal action : uid) (resource : entity_ref)
    (context : list (option pystr * pyvalue)) (entities : list CedarEntity) : res auth_error decision :=
  match is_authorized (a_engine a)
          (mk_query (RefUid principal) (RefUid action) resource context entities) with
  | Ok d => Ok d
  | Err e => Err (EngineFailed e)
  end.

(** The resource of a requirement, once its callable was called: a reference,
    or an entity that is added to those of the request. *)
Inductive raw_resource : Type :=
| ResourceRef (r : entity_ref)
| ResourceEntity (e : CedarEntity).

Definition resource_ref (r : raw_resource) : entity_ref :=
  match r with ResourceRef r => r | ResourceEntity e => RefUid (e_uid e) end.

Definition resource_additions (r : raw_resource) : list CedarEntity :=
  match r with ResourceRef _ => [] | ResourceEntity e => [e] end.

(** The query of [authorize]; [additions] is what [resource_entities] returns
    for the resource. *)
Definition prepared_query (a : CedarAuthorizer) (rq : Request) (i : Identity) (action : pystr)
    (resource : raw_resource) (additions : list CedarEntity) :
    res auth_error (uid * uid * list CedarEntity * list (option pystr * pyvalue)) :=
  let '(principal, action_uid, entities, context) := _query_base a rq i action in
  let! entities := _with_entities entities (resource_additions resource) principal action_uid in
  let! entities := _with_entities entities additions principal action_uid in
  Ok (principal, action_uid, entities, context).

Definition authorize (a : CedarAuthorizer) (rq : Request) (action : pystr) (resource : raw_resource)
    (additions : list CedarEntity) : res auth_error (bool * auth_reason) :=
  match rq_identity rq with
  | None => Ok (false, Anonymous)
  | Some i =>
    match i_narrowing i with
    | Some n =>
      if expired n (rq_time rq) then Ok (false, DelegationExpired)
      else if negb (permits_action n action) then Ok (false, OutOfScope)
      else
        let! (principal, action_uid, entities, context) := prepared_query a rq i action resource additions in
        let! d := _evaluate a principal action_uid (resource_ref resource) context entities in
        if negb (allowed d) || negb (a_delegation_visible a)
        then Ok (allowed d, Engine (decision_reason d))
        else
          let! d := _evaluate a principal action_uid (resource_ref resource) (delegated_context n context)
                      entities in
          Ok (allowed d, Engine (decision_reason d))
    | None =>
      let! (principal, action_uid, entities, context) := prepared_query a rq i action resource additions in
      let! d := _evaluate a principal action_uid (resource_ref resource) context entities in
      Ok (allowed d, Engine (decision_reason d))
    end
  end.
End authorize.

(** The same request made by the delegating principal itself. *)
Definition direct_identity (i : Identity) : Identity :=
  mk_identity (i_type i) (i_id i) (i_namespace i) (i_roles i) (i_attributes i) None.

Definition without_narrowing (rq : Request) : Request :=
  mk_http_request (rq_method rq) (rq_path rq) (rq_client_class rq) (rq_second_factor_age rq) (rq_time rq)
    (match rq_identity rq with Some i => Some (direct_identity i) | None => None end).
