(* ===== verification/CedarQueryFacts.v ===== *)
(** * Cedar: what construction establishes

    The facts every query can rely on once [CedarPolicies] was built: the plan
    is that of the policies, the parsed policies are well formed, the store
    keeps to 64 bits, and the attribute and principal tables cover each policy
    that can apply to an action. *)

From stdpp Require Import base sets strings numbers list gmap.
From Stdlib Require Import ZArith Lia.
From S2P Require Import Prelude PyCollections PyText CedarSyntax CedarLexer CedarParser CedarEval.
From S2P Require Import CedarEvalFacts CedarAnalysis CedarNoninterference CedarSchema CedarEngine.
From S2P Require Import CedarParserFacts CedarDecisions CedarComposition CedarAuthorizer.
#[local] Open Scope Z_scope.

Section built.
Context {U : UnicodeData} `{!UnicodeLaws U}.

(** ** The tables by action *)

Definition policies_for (action : uid) (ps : list policy) : list policy :=
  List.filter (fun p => match action_scope p with SCOPE_EQ u => bool_decide (u = action) | _ => false end) ps.

Lemma policies_for_snoc action ps p :
  policies_for action (ps ++ [p]) = policies_for action ps ++ policies_for action [p].
Proof. unfold policies_for. by rewrite List.filter_app. Qed.

Lemma exact_policies_get ps action :
  dget (exact_policies ps) action =
  match policies_for action ps with [] => None | l => Some l end.
Proof.
  unfold exact_policies. induction ps as [|p ps IH] using rev_ind; [done|].
  rewrite fold_left_app. cbn [fold_left]. rewrite policies_for_snoc.
  destruct (action_scope p) as [|u|u|us|ty o] eqn:Ep;
    try (rewrite IH; cbn; rewrite Ep, app_nil_r; done).
  rewrite dget_dset. cbn [policies_for List.filter]. rewrite Ep. case_decide as Hu.
  - subst u. rewrite IH, bool_decide_true by done. by destruct (policies_for action ps).
  - rewrite IH, bool_decide_false, app_nil_r by done. done.
Qed.

Lemma dget_map_snd {K V W} `{EqDecision K} (f : V -> W) (d : list (K * V)) k :
  dget (map (fun kv => (kv.1, f (kv.2))) d) k = f <$> dget d k.
Proof. induction d as [|[j v] d IH]; cbn; [done|]. by case_decide. Qed.

(** A policy of another action is one whose scope is a different [==]. *)
Definition applies (action : uid) (p : policy) : bool :=
  match action_scope p with SCOPE_EQ u => bool_decide (u = action) | _ => true end.

Lemma applies_split action ps p :
  p ∈ ps -> applies action p = true -> p ∈ general_policies ps \/ p ∈ policies_for action ps.
Proof.
  unfold applies, general_policies, policies_for. rewrite !list_elem_of_In, !filter_In.
  intros Hp Ha. destruct (action_scope p); auto.
Qed.

Lemma not_applies_unsatisfied r p :
  applies (r_action r) p = false -> plan_policy_satisfied r p = Ok false.
Proof.
  unfold applies, plan_policy_satisfied. destruct (action_scope p); try done.
  intros H%bool_decide_eq_false. cbn. by rewrite bool_decide_false.
Qed.

(** ** Construction *)

Record built (cp : CedarPolicies) : Prop := {
  b_plan : cedar_compile_plan (cp_policies cp) = Some (cp_plan cp);
  b_policies : forallb policy_ok (cp_policies cp) = true;
  b_store : store_i64 (cp_store cp) = true;
  b_context_default :
    context_default cp = _context_attributes (map py_policy (general_policies (cp_policies cp)));
  b_context_by_action :
    context_by_action cp = map (fun kv => (kv.1, context_default cp ++ _context_attributes (map py_policy (kv.2))))
                             (exact_policies (cp_policies cp));
  b_principal_default :
    principal_default cp = _needs_principal_entity (general_policies (cp_policies cp));
  b_principal_by_action :
    principal_by_action cp = map (fun kv => (kv.1, principal_default cp || _needs_principal_entity (kv.2)))
                               (exact_policies (cp_policies cp)) }.

Lemma policies_init_built depth source entities schema cp :
  policies_init depth source entities schema = Ok cp -> built cp.
Proof.
  unfold policies_init. do 2 (case_match; [done|]).
  destruct (_tokenize source) as [ts|[| |]]; [|done..]. cbn [res_bind].
  pose proof (policies_fine depth ts) as Hf.
  destruct (policies depth ts) as [ps|[| |]]; [|done..]. cbn in Hf.
  destruct (match schema with Some s => _validate_schema s ps | None => Ok [] end) as [ses|]; [|done].
  destruct (cedar_compile_plan ps) as [pl|] eqn:Hpl; [|done].
  destruct (existsb _ entities); [done|].
  destruct (_build_store _) as [st|] eqn:Hst; [|done]. cbn [res_bind]. intros [= <-].
  split; cbn; try done. by apply build_store_i64 in Hst.
Qed.

Context (cp : CedarPolicies) (Hcp : built cp).

Lemma all_plan : all (cp_plan cp) = cp_policies cp.
Proof. by destruct (compile_plan_parts _ _ (b_plan _ Hcp)). Qed.

Lemma context_attributes_found_for action n p :
  p ∈ cp_policies cp -> applies action p = true -> exists_in_policy (touches n) p = true ->
  PyStr n ∈ context_attributes_for_action cp action.
Proof.
  intros Hp Ha Ht.
  assert (forall ps, p ∈ ps -> PyStr n ∈ _context_attributes (map py_policy ps)) as Hc.
  { intros ps Hin. apply context_attributes_spec.
    apply (exists_in_policies (touches n) _ ps p); [|done|done]. intros e. unfold touches.
    rewrite orb_true_iff. intros [H|H]; [by apply gets_context_encode|by apply has_context_encode]. }
  unfold context_attributes_for_action.
  rewrite (b_context_by_action _ Hcp), (dget_map_snd (fun l => context_default cp ++ _context_attributes (map py_policy l))),
    exact_policies_get.
  destruct (applies_split action _ p Hp Ha) as [Hg|He].
  - assert (PyStr n ∈ context_default cp) as Hd by (rewrite (b_context_default _ Hcp); by apply Hc).
    destruct (policies_for _ _); cbn; [done|]. apply elem_of_app. by left.
  - specialize (Hc _ He). destruct (policies_for _ _) as [|x l]; [by apply elem_of_nil in He|].
    cbn [fmap option_fmap option_map default]. apply elem_of_app. by right.
Qed.

Lemma needs_principal_for action p :
  p ∈ cp_policies cp -> applies action p = true -> principal_entity_for_action cp action = false ->
  needs_principal_policy p = false.
Proof.
  intros Hp Ha.
  assert (forall ps, p ∈ ps -> _needs_principal_entity ps = false -> needs_principal_policy p = false) as Hc.
  { intros ps Hin H. destruct (needs_principal_policy p) eqn:E; [|done]. rewrite <- H.
    symmetry. apply existsb_exists. exists p. split; [by apply list_elem_of_In|done]. }
  unfold principal_entity_for_action.
  rewrite (b_principal_by_action _ Hcp), (dget_map_snd (fun l => principal_default cp || _needs_principal_entity l)),
    exact_policies_get.
  destruct (applies_split action _ p Hp Ha) as [Hg|He].
  - assert (principal_default cp = false -> needs_principal_policy p = false) as Hd
      by (rewrite (b_principal_default _ Hcp); by apply Hc).
    destruct (policies_for _ _); cbn; [done|]. intros [? _]%orb_false_iff. auto.
  - specialize (Hc _ He). destruct (policies_for _ _) as [|x l]; [by apply elem_of_nil in He|].
    cbn [fmap option_fmap option_map default]. intros [_ ?]%orb_false_iff. auto.
Qed.

(** ** Queries *)

Lemma request_store_i64 entities st :
  request_store cp entities = Ok st -> store_i64 st = true.
Proof.
  unfold request_store. destruct entities as [|e l]; [intros [= <-]; apply (b_store _ Hcp)|].
  apply layer_store_i64, (b_store _ Hcp).
Qed.

Lemma prepare_i64 q r : prepare cp q = Ok r -> request_i64 r = true.
Proof.
  unfold prepare. destruct (request_store cp (q_entities q)) as [st|] eqn:Hst; [|done]. cbn [res_bind].
  destruct (lift_parse _); [|done]. cbn [res_bind]. destruct (lift_parse _); [|done]. cbn [res_bind].
  destruct (lift_parse _); [|done]. cbn [res_bind].
  destruct (to_record (q_context q)) as [d|] eqn:Hd; [|done]. cbn [res_bind]. intros [= <-].
  unfold request_i64. cbn. apply andb_true_intro. split; [by eapply to_record_i64|].
  exact (request_store_i64 _ _ Hst).
Qed.

Lemma plan_decides r :
  request_i64 r = true -> authorize_plan_diagnostic (cp_plan cp) r = Ok (cedar_decision r (cp_policies cp)).
Proof.
  intros Hr. rewrite <- all_plan. apply authorize_plan_diagnostic_spec.
  rewrite all_plan. by apply policies_no_raise, (b_policies _ Hcp).
Qed.

Lemma plan_decides_one r :
  request_i64 r = true ->
  authorize_plan_one (cp_plan cp) r =
  Ok (allowed (cedar_decision r (cp_policies cp)), decision_reason (cedar_decision r (cp_policies cp))).
Proof.
  intros Hr. apply authorize_plan_one_spec; [apply (b_plan _ Hcp)|].
  by apply policies_no_raise, (b_policies _ Hcp).
Qed.

(** The result of a query, read off its request. *)
Lemma is_authorized_spec q :
  is_authorized cp q =
  (let! r := prepare cp q in Ok (cedar_decision r (cp_policies cp))).
Proof.
  unfold is_authorized. destruct (prepare cp q) as [r|] eqn:E; [|done]. cbn [res_bind].
  by rewrite plan_decides by (by eapply prepare_i64).
Qed.

Lemma route_denial_spec q :
  _route_denial cp q =
  (let! d := is_authorized cp q in Ok (if allowed d then None else Some (decision_reason d))).
Proof.
  rewrite is_authorized_spec. unfold _route_denial.
  destruct (prepare cp q) as [r|] eqn:E; [|done]. cbn [res_bind].
  unfold plan_denial. by rewrite plan_decides_one by (by eapply prepare_i64).
Qed.

(** The decisions for one resource after the other, up to and with the first
    denial when asked to stop there. *)
Fixpoint decisions_until {A} (ok : A -> bool) (stop : bool) (ds : list A) : list A :=
  match ds with
  | [] => []
  | d :: ds => if stop && negb (ok d) then [d] else d :: decisions_until ok stop ds
  end.

Lemma is_authorized_many_spec {A} (one : request -> E A) (answer : request -> A) ok r us stop :
  (forall u, one (with_resource r u) = Ok (answer (with_resource r u))) ->
  is_authorized_many one ok r us stop =
  Ok (decisions_until ok stop (map (fun u => answer (with_resource r u)) us)).
Proof.
  intros H. induction us as [|u us IH]; cbn; [done|]. rewrite H. cbn [res_bind].
  case_match; [done|]. by rewrite IH.
Qed.

Lemma with_resource_i64 r u : request_i64 (with_resource r u) = request_i64 r.
Proof. done. Qed.

(** ** Batches *)

(** The query about another resource. *)
Definition with_query_resource (q : query) (u : uid) : query :=
  mk_query (q_principal q) (q_action q) (RefUid u) (q_context q) (q_entities q).

Lemma prepare_resource q r u :
  prepare cp q = Ok r -> prepare cp (with_query_resource q u) = Ok (with_resource r u).
Proof using Type.
  unfold prepare, with_query_resource. cbn.
  destruct (request_store cp (q_entities q)); [|done]. cbn [res_bind].
  destruct (lift_parse (_as_uid_tuple (q_principal q))); [|done]. cbn [res_bind].
  destruct (lift_parse (_as_uid_tuple (q_action q))); [|done]. cbn [res_bind].
  destruct (lift_parse (_as_uid_tuple (q_resource q))); [|done]. cbn [res_bind].
  destruct (to_record (q_context q)); [|done]. cbn [res_bind]. by intros [= <-].
Qed.

Lemma as_uids_map us : as_uids (map RefUid us) = Ok us.
Proof using Type. induction us as [|u us IH]; cbn; [done|]. by rewrite IH. Qed.

Lemma many_request q r us {A} (one : request -> E A) ok stop :
  prepare cp q = Ok r ->
  exists st d p a,
    request_store cp (q_entities q) = Ok st /\ to_record (q_context q) = Ok d /\
    lift_parse (_as_uid_tuple (q_principal q)) = Ok p /\ lift_parse (_as_uid_tuple (q_action q)) = Ok a /\
    is_authorized_many one ok (mk_request p a p d st) us stop = is_authorized_many one ok r us stop.
Proof using Type.
  unfold prepare. destruct (request_store cp (q_entities q)) as [st|]; [|done]. cbn [res_bind].
  destruct (lift_parse (_as_uid_tuple (q_principal q))) as [p|]; [|done]. cbn [res_bind].
  destruct (lift_parse (_as_uid_tuple (q_action q))) as [a|]; [|done]. cbn [res_bind].
  destruct (lift_parse (_as_uid_tuple (q_resource q))); [|done]. cbn [res_bind].
  destruct (to_record (q_context q)) as [d|]; [|done]. cbn [res_bind]. intros [= <-].
  exists st, d, p, a. split_and!; try done.
  induction us as [|u us IH]; cbn [is_authorized_many]; [done|]. by rewrite IH.
Qed.

Lemma is_authorized_many_decides q r us stop :
  prepare cp q = Ok r ->
  _is_authorized_many cp q (map RefUid us) stop =
  Ok (decisions_until allowed stop (map (fun u => cedar_decision (with_resource r u) (cp_policies cp)) us)).
Proof.
  intros Hr. unfold _is_authorized_many.
  destruct (many_request q r us (authorize_plan_diagnostic (cp_plan cp)) allowed stop Hr)
    as (st & d & p & a & -> & -> & -> & -> & Hm).
  rewrite as_uids_map. cbn [res_bind lift_parse]. rewrite Hm.
  rewrite (is_authorized_many_spec _ (fun r => cedar_decision r (cp_policies cp))); [done|].
  intros u. apply plan_decides. rewrite with_resource_i64. by apply (prepare_i64 q).
Qed.

Lemma decisions_until_map {A B} (f : A -> B) ok okf stop ds :
  (forall d, okf (f d) = ok d) ->
  decisions_until okf stop (map f ds) = map f (decisions_until ok stop ds).
Proof using Type.
  intros H. induction ds as [|d ds IH]; cbn; [done|]. rewrite H. case_match; cbn; [done|]. by rewrite IH.
Qed.

Lemma is_authorized_many_native_decides q r us stop :
  prepare cp q = Ok r ->
  _is_authorized_many_native cp q (map RefUid us) stop =
  Ok (map (fun d => (allowed d, decision_reason d))
        (decisions_until allowed stop (map (fun u => cedar_decision (with_resource r u) (cp_policies cp)) us))).
Proof.
  intros Hr. unfold _is_authorized_many_native.
  destruct (many_request q r us (authorize_plan_one (cp_plan cp)) fst stop Hr)
    as (st & d & p & a & -> & -> & -> & -> & Hm).
  rewrite as_uids_map. cbn [res_bind lift_parse]. rewrite Hm.
  rewrite (is_authorized_many_spec _ (fun r => (allowed (cedar_decision r (cp_policies cp)),
                                               decision_reason (cedar_decision r (cp_policies cp))))).
  - cbn [lift_eval]. f_equal. rewrite <- (decisions_until_map _ _ fst) by done. by rewrite map_map.
  - intros u. apply plan_decides_one. rewrite with_resource_i64. by apply (prepare_i64 q).
Qed.
End built.

Lemma Forall2_map_same {A B} (P : A -> B -> Prop) (f : A -> B) l :
  (forall x, P x (f x)) -> Forall2 P l (map f l).
Proof. intros H. induction l; constructor; auto. Qed.

(** ** Cedar: what a query may leave out

    The answers of the policy analysis, read at the level of queries: keys of
    the context, members of a set in it, and the entity of the principal. *)

(** *** Conversion of a mapping, item by item *)

Fixpoint convert_items (items : list (option pystr * pyvalue)) (acc : list (pystr * value)) :
    option (list (pystr * value)) :=
  match items with
  | [] => Some acc
  | (Some key, item) :: items =>
    match cedar_to_value item with
    | Some w => convert_items items (dset acc key w)
    | None => None
    end
  | (None, _) :: _ => None
  end.

Lemma to_record_items items :
  to_record items = match convert_items items [] with Some d => Ok d | None => Err ConversionError end.
Proof.
  unfold to_record. cbn [cedar_to_value]. generalize (@nil (pystr * value)).
  induction items as [|[[k|] v] items IH]; intros acc; cbn; [done| |done].
  destruct (cedar_to_value v); [apply IH|done].
Qed.

Lemma to_record_inv items d : to_record items = Ok d -> convert_items items [] = Some d.
Proof. rewrite to_record_items. destruct (convert_items _ _); [by intros [= <-]|done]. Qed.

(** The items whose keys are in [keep]. *)
Definition only_keys (keep : pystr -> bool) (items : list (option pystr * pyvalue)) :
    list (option pystr * pyvalue) :=
  List.filter (fun kv => match kv.1 with Some k => keep k | None => true end) items.

Lemma convert_only keep items acc acc' d :
  convert_items items acc = Some d -> (forall n, keep n = true -> dget acc' n = dget acc n) ->
  exists d', convert_items (only_keys keep items) acc' = Some d' /\
    forall n, keep n = true -> dget d' n = dget d n.
Proof.
  revert acc acc'. induction items as [|[[k|] v] items IH]; intros acc acc'; [|cbn|done].
  - intros [= <-] H. by exists acc'.
  - destruct (cedar_to_value v) as [w|] eqn:Ev; [|done]. intros Hd H.
    destruct (keep k) eqn:Ek; cbn; [rewrite Ev|]; apply (IH _ _ Hd); intros n Hn;
      rewrite ?dget_dset; [case_decide; auto|].
    case_decide; [congruence|auto].
Qed.

Lemma to_record_only keep items d :
  to_record items = Ok d ->
  exists d', to_record (only_keys keep items) = Ok d' /\ forall n, keep n = true -> dget d' n = dget d n.
Proof.
  intros H%to_record_inv. destruct (convert_only keep _ _ [] _ H) as (d' & Hd' & Hk); [done|].
  exists d'. rewrite to_record_items, Hd'. done.
Qed.

(** Items read the same on keys where the accumulators agree. *)
Lemma convert_agree (P : pystr -> Prop) items a1 a2 d :
  (forall n, P n -> dget a2 n = dget a1 n) -> convert_items items a1 = Some d ->
  exists d', convert_items items a2 = Some d' /\ forall n, P n -> dget d' n = dget d n.
Proof.
  revert a1 a2. induction items as [|[[j|] x] items IH]; intros a1 a2 Ha; cbn.
  - intros [= <-]. eauto.
  - destruct (cedar_to_value x) as [y|]; [|done].
    apply IH. intros n Hn. rewrite !dget_dset. case_decide; auto.
  - done.
Qed.

(** Writing a key changes that key only. *)
Lemma convert_dset items acc k v w d :
  convert_items items acc = Some d -> cedar_to_value v = Some w ->
  exists d', convert_items (dset items (Some k) v) acc = Some d' /\
    forall n, n <> k -> dget d' n = dget d n.
Proof.
  intros Hd Hv. revert acc d Hd. induction items as [|[[j|] x] items IH]; intros acc d; cbn.
  - intros [= <-]. rewrite Hv. eexists. split; [done|].
    intros n Hn. rewrite dget_dset. by rewrite decide_False.
  - destruct (cedar_to_value x) as [y|] eqn:Ex; [|done]. intros Hd. case_decide as Hj.
    + injection Hj as ->. cbn. rewrite Hv. apply (convert_agree _ _ (dset acc k y)); [|done].
      intros n Hn. rewrite !dget_dset. by rewrite !decide_False.
    + cbn. rewrite Ex. by apply IH.
  - done.
Qed.

Lemma to_record_dset items k v w d :
  to_record items = Ok d -> cedar_to_value v = Some w ->
  exists d', to_record (dset items (Some k) v) = Ok d' /\ forall n, n <> k -> dget d' n = dget d n.
Proof.
  intros H%to_record_inv Hv. destruct (convert_dset _ _ k v w d H Hv) as (d' & Hd' & Hk).
  exists d'. rewrite to_record_items, Hd'. done.
Qed.

(** *** Requests *)

(** A query with another context. *)
Definition with_context (q : query) (context : list (option pystr * pyvalue)) : query :=
  mk_query (q_principal q) (q_action q) (q_resource q) context (q_entities q).

(** A query with other entities. *)
Definition with_entities (q : query) (entities : list CedarEntity) : query :=
  mk_query (q_principal q) (q_action q) (q_resource q) (q_context q) entities.

Definition with_record (r : request) (d : list (pystr * value)) : request :=
  mk_request (r_principal r) (r_action r) (r_resource r) d (r_store r).

Definition with_store (r : request) (st : store) : request :=
  mk_request (r_principal r) (r_action r) (r_resource r) (r_context r) st.

(** The set [a] of names at the end of a context. *)
Definition with_fact (q : query) (a : pystr) (l : list pystr) : query :=
  with_context q (q_context q ++ [(Some a, PvFrozenset (map PvStr l))]).

Lemma convert_app xs ys acc :
  convert_items (xs ++ ys) acc =
  match convert_items xs acc with Some d => convert_items ys d | None => None end.
Proof.
  revert acc. induction xs as [|[[k|] v] xs IH]; intros acc; cbn; [done| |done].
  destruct (cedar_to_value v); [apply IH|done].
Qed.

Lemma to_value_names l : cedar_to_value (PvFrozenset (map PvStr l)) = Some (VSet AsList (map VStr l)).
Proof.
  cbn [cedar_to_value]. match goal with |- ?go _ [] = _ =>
    enough (forall acc, go (map PvStr l) acc = Some (VSet AsList (acc ++ map VStr l))) as H by apply H end.
  induction l as [|n l IH]; intros acc; cbn; [by rewrite app_nil_r|].
  rewrite (IH (acc ++ [VStr n])). by rewrite <- app_assoc.
Qed.

Lemma to_record_fact items a l :
  to_record (items ++ [(Some a, PvFrozenset (map PvStr l))]) =
  (let! d := to_record items in Ok (dset d a (VSet AsList (map VStr l)))).
Proof.
  rewrite !to_record_items, convert_app. destruct (convert_items items []) as [d|]; [|done].
  cbn [convert_items]. by rewrite to_value_names.
Qed.

Lemma value_text_names l : forallb value_text (map VStr l) = true.
Proof. induction l; done. Qed.

Lemma elem_of_names n l : VStr n ∈ map VStr l <-> n ∈ l.
Proof.
  rewrite (list_elem_of_fmap VStr). split; [by intros (m & [= ->] & ?)|]. intros ?. by exists n.
Qed.

Lemma same_members_fact d a (answer l1 l2 : list pystr) :
  (forall n, n ∈ answer -> n ∈ l1 <-> n ∈ l2) ->
  same_members a answer (dset d a (VSet AsList (map VStr l1))) (dset d a (VSet AsList (map VStr l2))).
Proof.
  intros H. split.
  - intros n Hn. rewrite !dget_dset. by rewrite !decide_False.
  - exists AsList, (map VStr l1), AsList, (map VStr l2). rewrite !dget_dset, !decide_True by done.
    split_and!; try done; try apply value_text_names. intros n Hn. rewrite !elem_of_names. auto.
Qed.

(** The conditions read the set [a] only to look for names written in full. *)
Definition policy_members_literal (a : pystr) (p : policy) : bool :=
  forallb (fun c => context_direct (c.2) && negb (exists_expr (computed_member a) (c.2)) &&
                    negb (gets_context a (c.2))) (conditions p).

(** *** Layers *)

Lemma entity_maps_cons_agree es attrs parents attrs2 parents2 u a p :
  _entity_maps es attrs parents = Ok (a, p) ->
  exists a2 p2, _entity_maps es attrs2 parents2 = Ok (a2, p2) /\
    (dget attrs u = dget attrs2 u -> dget parents u = dget parents2 u ->
     dget a u = dget a2 u /\ dget p u = dget p2 u).
Proof.
  revert attrs parents attrs2 parents2. induction es as [|e es IH]; intros attrs parents attrs2 parents2; cbn.
  - intros [= <- <-]. eauto.
  - destruct (to_record (e_attrs e)) as [d|]; [|done]. cbn [res_bind]. intros H.
    destruct (IH _ _ (dset attrs2 (e_uid e) d) (dset parents2 (e_uid e) (e_parents e)) H) as (a2 & p2 & H2 & Hag).
    exists a2, p2. split; [done|]. intros Ha Hp. apply Hag; rewrite !dget_dset; by case_decide.
Qed.

Lemma entity_maps_nodup es attrs parents a p :
  _entity_maps es attrs parents = Ok (a, p) -> NoDup (dkeys attrs) -> NoDup (dkeys a).
Proof.
  revert attrs parents. induction es as [|e es IH]; intros attrs parents; cbn; [by intros [= <- <-]|].
  destruct (to_record (e_attrs e)); [|done]. cbn [res_bind]. intros H Hn.
  apply (IH _ _ H). by apply dset_nodup.
Qed.

Lemma layered_get parents attrs base u :
  NoDup (dkeys attrs) ->
  dget (fold_left (fun (st : store) kv => dset st (kv.1) ((store_entry parents kv).2)) attrs base) u =
  match dget attrs u with
  | Some d => Some (d, default [] (dget parents u))
  | None => dget base u
  end.
Proof.
  revert base. induction attrs as [|[k d] attrs IH]; intros base Hn; [done|]. cbn in Hn |- *.
  apply NoDup_cons in Hn as [Hk Hn]. rewrite IH by done. case_decide as E.
  - subst k. apply dget_none_keys in Hk. rewrite Hk, dget_dset. by rewrite decide_True.
  - destruct (dget attrs u); [done|]. rewrite dget_dset. by rewrite decide_False.
Qed.

Lemma maps_cons_other e es a p u :
  _entity_maps (e :: es) [] [] = Ok (a, p) -> u <> e_uid e ->
  exists a2 p2, _entity_maps es [] [] = Ok (a2, p2) /\ dget a u = dget a2 u /\ dget p u = dget p2 u.
Proof.
  cbn. destruct (to_record (e_attrs e)) as [d|]; [|done]. cbn [res_bind]. intros H Hu.
  destruct (entity_maps_cons_agree _ _ _ [] [] u _ _ H) as (a2 & p2 & H2 & Hag).
  exists a2, p2. split; [done|]. apply Hag; cbn; by rewrite decide_False.
Qed.

Lemma layer_store_get base es protected st :
  _layer_store base es protected = Ok st ->
  exists a p, _entity_maps es [] [] = Ok (a, p) /\ Forall (fun u => u ∉ protected) (dkeys a) /\
    forall u, dget st u = match dget a u with Some d => Some (d, default [] (dget p u)) | None => dget base u end.
Proof.
  unfold _layer_store. destruct (_entity_maps es [] []) as [[a p]|] eqn:E; [|done]. cbn [res_bind].
  destruct (List.filter _ _) eqn:Ef; [|done]. intros [= <-]. exists a, p. split; [done|]. split.
  - apply Forall_forall. intros u Hu Hp.
    assert (u ∈ List.filter (fun u => bool_decide (u ∈ protected)) (dkeys a)) as Hin.
    { apply list_elem_of_In, filter_In. split; [by apply list_elem_of_In|by apply bool_decide_eq_true]. }
    rewrite Ef in Hin. by apply elem_of_nil in Hin.
  - intros u. apply layered_get. apply (entity_maps_nodup _ _ _ _ _ E). constructor.
Qed.

Lemma layer_store_ok base es protected a p :
  _entity_maps es [] [] = Ok (a, p) -> Forall (fun u => u ∉ protected) (dkeys a) ->
  exists st, _layer_store base es protected = Ok st.
Proof.
  unfold _layer_store. intros -> H. cbn [res_bind].
  assert (List.filter (fun u => bool_decide (u ∈ protected)) (dkeys a) = []) as ->; [|by eexists].
  induction H as [|u l Hu _ IH]; [done|]. cbn. by rewrite bool_decide_false.
Qed.

Lemma entity_maps_grow es attrs parents a p u :
  _entity_maps es attrs parents = Ok (a, p) -> u ∈ dkeys attrs -> u ∈ dkeys a.
Proof.
  revert attrs parents. induction es as [|e es IH]; intros attrs parents; cbn; [by intros [= <- <-]|].
  destruct (to_record (e_attrs e)); [|done]. cbn [res_bind]. intros H Hu.
  apply (IH _ _ H). rewrite dset_keys. case_decide; set_solver.
Qed.

Lemma maps_cons_keys e es a p a2 p2 u :
  _entity_maps (e :: es) [] [] = Ok (a, p) -> _entity_maps es [] [] = Ok (a2, p2) ->
  u ∈ dkeys a2 -> u ∈ dkeys a.
Proof.
  intros H H2 Hu. destruct (decide (u = e_uid e)) as [->|Hne].
  - cbn in H. destruct (to_record (e_attrs e)); [|done]. apply (entity_maps_grow _ _ _ _ _ _ H).
    cbn. set_solver.
  - destruct (maps_cons_other _ _ _ _ u H Hne) as (a3 & p3 & H3 & Ha & _).
    rewrite H2 in H3. injection H3 as <- <-. apply dget_keys. rewrite Ha. by apply dget_keys.
Qed.

Section queries.
Context {U : UnicodeData} `{!UnicodeLaws U}.
Context (cp : CedarPolicies) (Hcp : built cp).

Lemma prepare_parts q r :
  prepare cp q = Ok r ->
  request_store cp (q_entities q) = Ok (r_store r) /\ to_record (q_context q) = Ok (r_context r) /\
  lift_parse (_as_uid_tuple (q_principal q)) = Ok (r_principal r) /\
  lift_parse (_as_uid_tuple (q_action q)) = Ok (r_action r) /\
  lift_parse (_as_uid_tuple (q_resource q)) = Ok (r_resource r).
Proof using Type.
  unfold prepare. destruct (request_store cp (q_entities q)); [|done]. cbn [res_bind].
  do 3 (destruct (lift_parse _); [|done]; cbn [res_bind]).
  destruct (to_record _); [|done]. cbn [res_bind]. by intros [= <-].
Qed.

Lemma prepare_context q r items d :
  prepare cp q = Ok r -> to_record items = Ok d ->
  prepare cp (with_context q items) = Ok (with_record r d).
Proof using Type.
  intros (Hs & _ & Hp & Ha & Hr)%prepare_parts Hd. unfold prepare, with_context. cbn.
  by rewrite Hs, Hp, Ha, Hr, Hd.
Qed.

Lemma prepare_entities q r entities st :
  prepare cp q = Ok r -> request_store cp entities = Ok st ->
  prepare cp (with_entities q entities) = Ok (with_store r st).
Proof using Type.
  intros (_ & Hd & Hp & Ha & Hr)%prepare_parts Hs. unfold prepare, with_entities. cbn.
  by rewrite Hs, Hp, Ha, Hr, Hd.
Qed.

(** Policies decide alike when those that can apply evaluate alike. *)
Lemma decision_applicable r1 r2 :
  r_action r1 = r_action r2 ->
  (forall p, p ∈ cp_policies cp -> applies (r_action r1) p = true ->
     plan_policy_satisfied r1 p = plan_policy_satisfied r2 p) ->
  cedar_decision r1 (cp_policies cp) = cedar_decision r2 (cp_policies cp).
Proof using Type.
  intros Ha H. apply cedar_decision_ext. intros p Hp.
  destruct (applies (r_action r1) p) eqn:E; [by apply H|].
  rewrite !not_applies_unsatisfied; [done|by rewrite <- Ha|done].
Qed.

Lemma in_needed_elem n needed : PyStr n ∈ needed -> in_needed n needed = true.
Proof using Type.
  intros H. apply existsb_exists. exists (PyStr n). split; [by apply list_elem_of_In|].
  cbn. by rewrite bool_decide_true.
Qed.

Lemma same_but_context_record r d : same_but_context r (with_record r d).
Proof using Type. done. Qed.

Lemma decision_context r d :
  forallb policy_context_direct (cp_policies cp) = true ->
  (forall n, in_needed n (context_attributes_for_action cp (r_action r)) = true ->
     dget d n = dget (r_context r) n) ->
  cedar_decision (with_record r d) (cp_policies cp) = cedar_decision r (cp_policies cp).
Proof.
  intros Hdirect Hd. symmetry. apply decision_applicable; [done|]. intros p Hp Ha.
  apply policy_ext_context; [apply same_but_context_record|]. intros u e Hc depth.
  apply eval_context_agree; [apply same_but_context_record| |].
  - pose proof (forallb_elem _ _ _ Hdirect Hp) as Hpd.
    exact (forallb_elem (fun c => context_direct (c.2)) _ (u, e) Hpd Hc).
  - intros n Hn. cbn. symmetry. apply Hd, in_needed_elem.
    apply (context_attributes_found_for cp Hcp _ n p); [done|done|].
    apply existsb_exists. exists (u, e). split; [by apply list_elem_of_In|done].
Qed.

Lemma query_context_only q r :
  forallb policy_context_direct (cp_policies cp) = true -> prepare cp q = Ok r ->
  let keep n := in_needed n (context_attributes_for_action cp (r_action r)) in
  is_authorized cp (with_context q (only_keys keep (q_context q))) = is_authorized cp q.
Proof.
  intros Hdirect Hr keep. destruct (prepare_parts _ _ Hr) as (_ & Hd & _).
  destruct (to_record_only keep _ _ Hd) as (d' & Hd' & Hk).
  rewrite !(is_authorized_spec cp Hcp), Hr, (prepare_context _ _ _ _ Hr Hd'). cbn [res_bind].
  f_equal. by apply decision_context.
Qed.

Lemma decision_members r1 r2 a answer :
  referenced cp a = Some answer -> forallb (policy_members_literal a) (cp_policies cp) = true ->
  same_but_context r1 r2 -> same_members a answer (r_context r1) (r_context r2) ->
  cedar_decision r1 (cp_policies cp) = cedar_decision r2 (cp_policies cp).
Proof using Type.
  intros Href%referenced_members_spec Hlit Hsame Hm. apply cedar_decision_ext. intros p Hp.
  apply policy_ext_context; [done|]. intros u e Hc depth.
  apply (eval_members_agree _ _ a answer); [done|done|].
  pose proof (forallb_elem _ _ _ Hlit Hp) as Hl.
  pose proof (forallb_elem _ _ (u, e) Hl Hc) as He. cbn in He.
  apply andb_prop in He as [[Hd Hcm]%andb_prop Hg]. apply negb_true_iff in Hcm, Hg.
  split_and!; [done|done|done|].
  pose proof (forallb_elem _ _ (py_policy p) Href) as Hpol.
  specialize (Hpol ltac:(apply list_elem_of_fmap; by exists p)).
  unfold py_policy in Hpol. cbn [all_tuples forallb] in Hpol. rewrite !andb_true_iff in Hpol.
  destruct Hpol as (_ & _ & _ & _ & _ & _ & [_ Hcs] & _).
  pose proof (forallb_elem _ _ (py_condition (u, e)) Hcs) as Hcond.
  specialize (Hcond ltac:(apply list_elem_of_fmap; by exists (u, e))).
  cbn in Hcond. rewrite !andb_true_iff in Hcond. tauto.
Qed.

Lemma query_members q r a (answer l1 l2 : list pystr) :
  referenced cp a = Some answer -> forallb (policy_members_literal a) (cp_policies cp) = true ->
  prepare cp q = Ok r -> (forall n, n ∈ answer -> n ∈ l1 <-> n ∈ l2) ->
  is_authorized cp (with_fact q a l1) = is_authorized cp (with_fact q a l2).
Proof.
  intros Href Hlit Hr Hn. destruct (prepare_parts _ _ Hr) as (_ & Hd & _).
  rewrite !(is_authorized_spec cp Hcp). unfold with_fact.
  assert (forall l, prepare cp (with_context q (q_context q ++ [(Some a, PvFrozenset (map PvStr l))])) =
    Ok (with_record r (dset (r_context r) a (VSet AsList (map VStr l))))) as Hp.
  { intros l. apply prepare_context; [done|]. by rewrite to_record_fact, Hd. }
  rewrite !Hp. cbn [res_bind]. f_equal.
  apply (decision_members _ _ a answer); [done|done|done|]. by apply same_members_fact.
Qed.

(** *** The entity of the principal *)

Lemma store_without_entity e rest st :
  request_store cp (e :: rest) = Ok st ->
  exists st', request_store cp rest = Ok st' /\ forall u, u <> e_uid e -> dget st u = dget st' u.
Proof using Type.
  intros H. cbn [request_store] in H.
  destruct (layer_store_get _ _ _ _ H) as (a & p & Hm & Hprot & Hget).
  destruct (_entity_maps rest [] []) as [[a2 p2]|x] eqn:Hm2; cycle 1.
  { exfalso. cbn in Hm. destruct (to_record (e_attrs e)) as [d|]; [|done]. cbn [res_bind] in Hm.
    destruct (entity_maps_cons_agree _ _ _ [] [] (e_uid e) _ _ Hm) as (? & ? & ? & _). congruence. }
  assert (forall u, u <> e_uid e -> dget a u = dget a2 u /\ dget p u = dget p2 u) as Hag.
  { intros u Hu. destruct (maps_cons_other _ _ _ _ u Hm Hu) as (a3 & p3 & H3 & ?). congruence. }
  destruct rest as [|e' rest].
  { injection Hm2 as <- <-. exists (cp_store cp). split; [done|]. intros u Hu.
    rewrite Hget. destruct (Hag u Hu) as [-> _]. done. }
  destruct (layer_store_ok (cp_store cp) (e' :: rest) (cp_protected cp) a2 p2 Hm2) as [st' Hst'].
  { apply Forall_forall. intros u Hu. rewrite Forall_forall in Hprot. apply Hprot.
    by apply (maps_cons_keys _ _ _ _ _ _ u Hm Hm2). }
  exists st'. split; [done|]. intros u Hu.
  destruct (layer_store_get _ _ _ _ Hst') as (a3 & p3 & H3 & _ & Hget').
  rewrite Hm2 in H3. injection H3 as <- <-. rewrite Hget, Hget'. by destruct (Hag u Hu) as [-> ->].
Qed.

Lemma query_without_principal q r e rest :
  prepare cp (with_entities q (e :: rest)) = Ok r -> e_uid e = r_principal r ->
  principal_entity_for_action cp (r_action r) = false -> refers_once r ->
  forallb (fun p => negb (exists_in_policy (names_uid (r_principal r)) p)) (cp_policies cp) = true ->
  is_authorized cp (with_entities q rest) = is_authorized cp (with_entities q (e :: rest)).
Proof.
  intros Hr He Hneed Honce Hnames. pose proof (prepare_parts _ _ Hr) as (Hs & _).
  destruct (store_without_entity _ _ _ Hs) as (st & Hst & Hget).
  pose proof (prepare_entities _ _ _ _ Hr Hst) as Hr'.
  change (with_entities (with_entities q (e :: rest)) rest) with (with_entities q rest) in Hr'.
  rewrite !(is_authorized_spec cp Hcp), Hr, Hr'. cbn [res_bind]. f_equal. symmetry.
  apply decision_applicable; [done|]. intros p Hp Ha.
  apply policy_principal_agree; [|done|by apply (needs_principal_for cp Hcp (r_action r))|].
  - split; try done. intros u Hu. apply Hget. by rewrite He.
  - apply negb_true_iff. exact (forallb_elem _ _ p Hnames Hp).
Qed.
End queries.

(** ** Cedar: delegated requests

    The two passes of [CedarAuthorizer.authorize]: what the second one adds,
    and when leaving it out makes no difference. *)

(** The keys the second pass sets. *)
Definition delegation_keys : list pystr := [bs "delegated"; bs "actor"; bs "delegation_depth"].

Lemma delegated_context_record n items d :
  to_record items = Ok d -> i64 (n_depth n) = true ->
  exists d', to_record (delegated_context n items) = Ok d' /\
    forall k, k ∉ delegation_keys -> dget d' k = dget d k.
Proof.
  intros Hd Hi. unfold delegated_context, set_key, delegation_keys.
  destruct (to_record_dset items (bs "delegated") (PvBool true) _ d Hd eq_refl) as (d1 & H1 & K1).
  destruct (to_record_dset _ (bs "actor") (PvStr (n_actor n)) _ d1 H1 eq_refl) as (d2 & H2 & K2).
  destruct (to_record_dset _ (bs "delegation_depth") (PvInt (n_depth n)) (VInt (n_depth n)) d2 H2) as (d3 & H3 & K3).
  { cbn. by rewrite Hi. }
  exists d3. split; [done|]. intros k Hk. rewrite K3, K2, K1 by set_solver. done.
Qed.

(** No policy asks whether the context has one of the keys. *)
Definition policy_no_has (p : policy) : bool :=
  forallb (fun k => negb (exists_in_policy (has_context k) p)) delegation_keys.

Section passes.
Context {U : UnicodeData} `{!UnicodeLaws U}.

(** The second pass of a request the first one allows, without the shortcut. *)
Definition both_passes (a : CedarAuthorizer) (n : Narrowing) (principal action : uid)
    (resource : entity_ref) (context : list (option pystr * pyvalue)) (entities : list CedarEntity) :
    res auth_error decision :=
  let! d := _evaluate a principal action resource context entities in
  if negb (allowed d) then Ok d
  else _evaluate a principal action resource (delegated_context n context) entities.

(** [authorize] without the shortcut. *)
Definition authorize_both (a : CedarAuthorizer) (rq : Request) (action : pystr) (resource : raw_resource)
    (additions : list CedarEntity) : res auth_error (bool * auth_reason) :=
  match rq_identity rq with
  | None => Ok (false, Anonymous)
  | Some i =>
    match i_narrowing i with
    | Some n =>
      if expired n (rq_time rq) then Ok (false, DelegationExpired)
      else if negb (permits_action n action) then Ok (false, OutOfScope)
      else
        let! (principal, action_uid, entities, context) := prepared_query a rq i action resource additions in
        let! d := both_passes a n principal action_uid (resource_ref resource) context entities in
        Ok (allowed d, Engine (decision_reason d))
    | None => authorize a rq action resource additions
    end
  end.

Lemma touches_delegation cp (Hcp : built cp) p k :
  p ∈ cp_policies cp -> k ∈ delegation_keys -> policy_no_has p = true ->
  a_delegation_visible (authorizer_init cp []) = false ->
  exists_in_policy (touches k) p = false.
Proof using Type.
  intros Hp Hk Hno Hvis. destruct (exists_in_policy (touches k) p) eqn:E; [|done].
  assert (exists_in_policy (has_context k) p = false) as Hh.
  { apply negb_true_iff. exact (forallb_elem _ _ k Hno Hk). }
  assert (exists_in_policy (gets_context k) p = true) as Hg.
  { unfold exists_in_policy in *. apply existsb_exists in E as (c & Hc & E). apply existsb_exists.
    exists c. split; [done|].
    assert (exists_expr (has_context k) (c.2) = false) as Hhc.
    { destruct (exists_expr (has_context k) (c.2)) eqn:Ex; [|done]. rewrite <- Hh. symmetry.
      apply existsb_exists. by exists c. }
    revert E Hhc. unfold touches. generalize (c.2). clear. intros e.
    induction e as [e IH] using expr_operand_ind. rewrite !exists_expr_operands.
    rewrite orb_false_iff, !orb_true_iff. intros [[H|H]|H] [H1 H2]; [by left|congruence|right].
    apply existsb_exists in H as (x & Hx & H). apply existsb_exists. exists x. split; [done|].
    apply list_elem_of_In in Hx. apply IH; [done|done|].
    destruct (exists_expr (has_context k) x) eqn:Ex; [|done]. rewrite <- H2. symmetry.
    apply existsb_exists. exists x. split; [by apply list_elem_of_In|done]. }
  exfalso. pose proof (gets_context_read _ _ _ Hp Hg) as Hread.
  change (_reads_context (map py_policy (cp_policies cp)) k) with (reads_context cp k) in Hread.
  unfold authorizer_init in Hvis. cbn [a_delegation_visible] in Hvis.
  apply orb_false_iff in Hvis as [[H1 H2]%orb_false_iff H3]. unfold delegation_keys in Hk.
  rewrite !elem_of_cons in Hk. destruct Hk as [->|[->|[->|[]%elem_of_nil]]]; congruence.
Qed.

Lemma second_pass_same a cp facts n principal action resource context entities d :
  built cp -> a = authorizer_init cp facts -> a_delegation_visible a = false ->
  forallb policy_context_direct (cp_policies cp) = true ->
  forallb policy_no_has (cp_policies cp) = true -> i64 (n_depth n) = true ->
  _evaluate a principal action resource context entities = Ok d ->
  _evaluate a principal action resource (delegated_context n context) entities = Ok d.
Proof.
  intros Hcp -> Hvis Hdirect Hno Hi. unfold _evaluate. cbn [a_engine authorizer_init].
  rewrite !(is_authorized_spec cp Hcp). set (q := mk_query _ _ _ context _).
  destruct (prepare cp q) as [r|] eqn:Hr; [|done]. cbn [res_bind]. intros [= <-].
  destruct (prepare_parts _ _ _ Hr) as (_ & Hd & _).
  destruct (delegated_context_record n _ _ Hd Hi) as (d' & Hd' & Hk).
  pose proof (prepare_context _ _ _ _ _ Hr Hd') as Hr'. 
  change (with_context q (delegated_context n (q_context q))) with
    (mk_query (RefUid principal) (RefUid action) resource (delegated_context n context) entities) in Hr'.
  rewrite Hr'. cbn [res_bind]. f_equal. symmetry. apply cedar_decision_ext. intros p Hp.
  apply policy_ext_context; [done|]. intros u e Hc depth. apply eval_context_agree; [done| |].
  - pose proof (forallb_elem _ _ _ Hdirect Hp) as Hpd.
    exact (forallb_elem (fun c => context_direct (c.2)) _ (u, e) Hpd Hc).
  - intros k Ht. cbn. symmetry. apply Hk. intros Hin.
    pose proof (touches_delegation cp Hcp p k Hp Hin (forallb_elem _ _ p Hno Hp) Hvis) as Hf.
    unfold exists_in_policy in Hf.
    assert (existsb (fun c => exists_expr (touches k) (c.2)) (conditions p) = true) as Hx; [|congruence].
    apply existsb_exists. exists (u, e). split; [by apply list_elem_of_In|done].
Qed.

Lemma authorize_both_spec a cp facts rq action resource additions :
  built cp -> a = authorizer_init cp facts ->
  forallb policy_context_direct (cp_policies cp) = true ->
  forallb policy_no_has (cp_policies cp) = true ->
  (forall i n, rq_identity rq = Some i -> i_narrowing i = Some n -> i64 (n_depth n) = true) ->
  authorize a rq action resource additions = authorize_both a rq action resource additions.
Proof.
  intros Hcp Ha Hdirect Hno Hi. unfold authorize_both.
  destruct (rq_identity rq) as [i|] eqn:Ei; [|unfold authorize; by rewrite Ei].
  destruct (i_narrowing i) as [n|] eqn:En; [|done]. specialize (Hi i n eq_refl En).
  unfold authorize. rewrite Ei, En.
  destruct (expired _ _); [done|]. destruct (negb (permits_action _ _)); [done|].
  destruct (prepared_query a rq i action resource additions) as [[[[p act] es] ctx]|]; [|done]. cbn [res_bind].
  unfold both_passes. destruct (_evaluate a p act (resource_ref resource) ctx es) as [d|] eqn:Ed; [|done].
  cbn [res_bind]. destruct (negb (allowed d)) eqn:Eal; [done|]. cbn [orb].
  destruct (negb (a_delegation_visible a)) eqn:Ev; [|done]. apply negb_true_iff in Ev.
  rewrite (second_pass_same a cp facts n _ _ _ _ _ d Hcp Ha Ev Hdirect Hno Hi Ed). done.
Qed.

(** *** A delegate has no more than the principal that delegates *)

Lemma prepared_without a rq i action resource additions :
  prepared_query a (without_narrowing rq) (direct_identity i) action resource additions =
  prepared_query a rq i action resource additions.
Proof using Type. done. Qed.

Lemma authorize_without a rq action resource additions why :
  authorize a rq action resource additions = Ok (true, why) ->
  exists why', authorize a (without_narrowing rq) action resource additions = Ok (true, why').
Proof using Type.
  unfold authorize. destruct (rq_identity rq) as [i|] eqn:Ei; [|done].
  change (rq_identity (without_narrowing rq)) with
    (match rq_identity rq with Some i => Some (direct_identity i) | None => None end).
  rewrite Ei. cbn [i_narrowing direct_identity]. rewrite prepared_without.
  destruct (i_narrowing i) as [n|].
  - destruct (expired _ _); [done|]. destruct (negb (permits_action _ _)); [done|].
    destruct (prepared_query a rq i action resource additions) as [[[[p act] es] ctx]|]; [|done]. cbn [res_bind].
    destruct (_evaluate a p act (resource_ref resource) ctx es) as [d|]; [|done]. cbn [res_bind].
    destruct (allowed d) eqn:Ed; [intros _; by eexists|].
    cbn [negb orb]. done.
  - intros H. by exists why.
Qed.

Lemma authorize_in_scope a rq action resource additions why i n :
  authorize a rq action resource additions = Ok (true, why) ->
  rq_identity rq = Some i -> i_narrowing i = Some n ->
  expired n (rq_time rq) = false /\ permits_action n action = true.
Proof using Type.
  unfold authorize. intros H Hi Hn. rewrite Hi, Hn in H.
  destruct (expired _ _); [done|]. by destruct (permits_action _ _).
Qed.
End passes.

(** *** Namespaces *)

(** Two identities of namespaces are told apart by their qualified ids. *)
Lemma qualified_identity_injective ns1 ns2 v1 v2 :
  ns1 <> [] -> ns2 <> [] ->
  qualified_identity_value ns1 v1 = qualified_identity_value ns2 v2 -> ns1 = ns2 /\ v1 = v2.
Proof.
  assert (forall ns v, ns <> [] -> qualified_identity_value ns v = framed [ns] ++ v) as E.
  { intros [|c ns] v Hn; [done|]. cbn [qualified_identity_value framed]. rewrite app_nil_r, <- app_assoc. done. }
  intros H1 H2. rewrite !E by done. intros [[= ->] ->]%framed_prefix; done.
Qed.
