(* ===== verification/CedarExamples.v ===== *)
(** * Cedar: what schema validation establishes

    The descendants of an action are the actions that reach it through their
    parents, and an attribute path that validation accepts can be read in every
    context that has the declared type. *)

From stdpp Require Import base sets strings numbers list gmap relations.
From Stdlib Require Import ZArith Lia.
From S2P Require Import Prelude PyCollections PyText CedarSyntax CedarLexer CedarParser CedarEval.
From S2P Require Import CedarEvalFacts CedarAnalysis CedarNoninterference CedarSchema CedarEngine.
From S2P Require Import CedarComposition CedarAuthorizer CedarQueryFacts.
#[local] Open Scope Z_scope.

(** ** Descendants *)

Definition child_of (s : CedarSchema) (name child : pystr) : Prop := child ∈ schema_children s name.

Lemma descendants_loop_total fuel s found stack :
  (length stack + unseen_edges (s_children s) found < fuel)%nat ->
  is_Some (descendants_loop fuel s found stack).
Proof.
  revert found stack. induction fuel as [|fuel IH]; intros found stack Hf; [lia|].
  cbn [descendants_loop]. destruct stack as [|x stack]; [by eexists|]. cbn [length] in Hf.
  destruct (text_in x found) eqn:E; [apply IH; lia|]. apply IH.
  assert (x ∉ found) as Hx by (by apply bool_decide_eq_false in E).
  pose proof (unseen_edges_add (s_children s) found x Hx) as Hadd.
  fold (schema_children s x) in Hadd. rewrite length_app, length_rev. lia.
Qed.

Lemma descendants_loop_spec fuel s found stack result :
  descendants_loop fuel s found stack = Some result ->
  (forall x, x ∈ found -> forall y, child_of s x y -> y ∈ stack ++ found) ->
  (forall x, x ∈ result -> exists y, y ∈ stack ++ found /\ rtc (child_of s) y x) /\
  (forall x y, x ∈ stack ++ found -> rtc (child_of s) x y -> y ∈ result).
Proof.
  revert found stack. induction fuel as [|fuel IH]; intros found stack; [done|].
  cbn [descendants_loop]. destruct stack as [|z stack].
  - intros [= <-] Hc. cbn. split; [intros x Hx; by exists x|].
    intros x y Hx Hr. by apply (closed_rtc (child_of s) found x y).
  - destruct (text_in z found) eqn:E; intros H Hc.
    + apply bool_decide_eq_true in E. destruct (IH _ _ H) as [H1 H2].
      { intros x Hx y Hy. specialize (Hc x Hx y Hy). set_solver. }
      split; [intros x Hx; destruct (H1 x Hx) as (y & Hy & ?); exists y; set_solver|].
      intros x y Hx. apply H2. set_solver.
    + destruct (IH _ _ H) as [H1 H2].
      { intros x Hx y Hy. rewrite elem_of_cons in Hx. destruct Hx as [->|Hx].
        - apply elem_of_app. left. apply elem_of_app. left. apply list_elem_of_In.
          rewrite <- in_rev. by apply list_elem_of_In.
        - specialize (Hc x Hx y Hy). set_solver. }
      split; [|intros x y Hx; apply H2; set_solver].
      intros x Hx. destruct (H1 x Hx) as (y & Hy & Hr).
      apply elem_of_app in Hy as [Hy|Hy]; [apply elem_of_app in Hy as [Hy|Hy]|].
      * exists z. split; [set_solver|]. eapply rtc_l; [|exact Hr].
        unfold child_of. apply list_elem_of_In, in_rev. by apply list_elem_of_In.
      * exists y. set_solver.
      * apply elem_of_cons in Hy as [->|Hy]; [exists z|exists y]; set_solver.
Qed.

Lemma descendants_spec s name x : x ∈ descendants s name <-> rtc (child_of s) name x.
Proof.
  unfold descendants. destruct (descendants_loop_total (2 + child_count s) s [] [name]) as [l Hl].
  { rewrite unseen_edges_nil. unfold child_count. cbn. lia. }
  rewrite Hl. cbn [default]. destruct (descendants_loop_spec _ _ _ _ _ Hl) as [H1 H2]; [set_solver|].
  split.
  - intros Hx. destruct (H1 x Hx) as (y & Hy & Hr). rewrite app_nil_r in Hy.
    by apply list_elem_of_singleton in Hy as ->.
  - intros Hr. apply (H2 name); [set_solver|done].
Qed.

(** ** Contexts of a type *)

Definition attributes_of (st : store) (v : value) : option (list (pystr * value)) :=
  match v with
  | VRecord d => Some d
  | VUid u => match dget st u with Some (attrs, _) => Some attrs | None => None end
  | _ => None
  end.

(** Each declared attribute that is there has a value of its type; it may be
    missing, as one declared optional may, unless the value is [complete]. *)
Fixpoint conforms (complete : bool) (st : store) (t : stype) (v : value) : bool :=
  match t with
  | _Record fields =>
    match attributes_of st v with
    | Some d =>
      forallb (fun f : pystr * stype =>
        match dget d (f.1) with Some w => conforms complete st (f.2) w | None => negb complete end) fields
    | None => false
    end
  | _ => true
  end.

(** The failure to find the attribute [n]. *)
Definition absent (n : pystr) (e : stop) : Prop :=
  e = Failed (RecordHasNoAttribute n) \/ exists u, e = Failed (EntityHasNoAttribute u n).

(** [context], [context.a], [context.a.b] and so on. *)
Fixpoint context_path (e : expr) : bool :=
  match e with
  | OP_VAR ContextVar => true
  | OP_GETATTR base _ => context_path base
  | _ => false
  end.

Fixpoint path_length (e : expr) : Z :=
  match e with OP_GETATTR base _ => path_length base + 1 | _ => 0 end.

Fixpoint path_names (e : expr) : list pystr :=
  match e with OP_GETATTR base n => path_names base ++ [n] | _ => [] end.

Definition occurs_in : expr -> expr -> Prop := fun x e => rtc (fun e x => x ∈ operands e) e x.

Definition node_valid (contexts : list (option stype)) (l : list pyobj) : bool :=
  match validate_node l contexts with Ok _ => true | Err _ => false end.

Lemma validate_all_tuples contexts o :
  validate_context_expression o contexts = Ok tt -> all_tuples (node_valid contexts) o = true.
Proof.
  revert o. fix IH 1. intros [| | | |l|]; try done. cbn [validate_context_expression all_tuples].
  unfold node_valid at 1. destruct (validate_node l contexts) as [[]|]; [|done]. cbn [res_bind andb].
  induction l as [|x l IHl]; [done|]. intros H. cbn [forallb].
  destruct (validate_context_expression x contexts) as [[]|] eqn:E; [|done]. cbn [res_bind] in H.
  rewrite (IH x E). cbn. by apply IHl.
Qed.

Lemma all_tuples_occurs g e x :
  occurs_in x e -> all_tuples g (py_expr e) = true -> all_tuples g (py_expr x) = true.
Proof. induction 1 as [|e y x Hy _ IH]; [done|]. intros H. by eapply IH, all_tuples_operand. Qed.

Lemma expression_types_get contexts base n :
  _expression_types (py_expr (OP_GETATTR base n)) contexts =
  _field_type (_expression_types (py_expr base) contexts) n.
Proof. cbn [py_expr _expression_types]. destruct (py_eqb _ _) eqn:E; [done|]. done. Qed.

Lemma field_type_elem types n t :
  _field_type types n <> [] -> Some t ∈ types ->
  exists fields u, t = _Record fields /\ dget fields n = Some u /\ Some u ∈ _field_type types n.
Proof.
  unfold _field_type. destruct (fields_of types n) as [ts|] eqn:E; [|done]. intros _. cbn [default].
  revert ts E. induction types as [|[[|fields|]|] types IH]; intros ts; cbn; try done.
  - intros _ H. by apply elem_of_nil in H.
  - destruct (dget fields n) as [u|] eqn:Ed; [|done].
    destruct (fields_of types n) as [us|]; [|done]. intros [= <-] [[= ->]|H]%elem_of_cons.
    + exists fields, u. split_and!; [done|done|set_solver].
    + destruct (IH us eq_refl H) as (fs & w & -> & ? & ?). exists fs, w. set_solver.
Qed.

Lemma conforms_field complete st fields v n t :
  conforms complete st (_Record fields) v = true -> dget fields n = Some t ->
  match cedar_eval_getattr st v n with
  | Ok w => conforms complete st t w = true
  | Err e => complete = false /\ absent n e
  end.
Proof.
  cbn [conforms]. destruct (attributes_of st v) as [d|] eqn:Ea; [|done]. intros H Hn.
  apply dget_elem in Hn. pose proof (forallb_elem _ _ _ H Hn) as Hf. cbn [fst snd] in Hf.
  destruct v as [| | |u| |d']; try done; cbn in Ea |- *.
  - destruct (dget st u) as [[attrs ps]|]; [|done]. injection Ea as ->.
    destruct (dget d n) as [w|]; [done|]. split; [by destruct complete|]. right. by exists u.
  - injection Ea as ->. destruct (dget d n) as [w|]; [done|]. split; [by destruct complete|by left].
Qed.

Section paths.
Context (complete : bool) (r : request) (contexts : list (option stype)) (t : stype).
Context (Ht : Some t ∈ contexts) (Hc : conforms complete (r_store r) t (VRecord (r_context r)) = true).

(** What reading a validated path gives: a value of one of the types the path
    can have, or the failure to find an attribute of an incomplete value. *)
Definition path_read (x : expr) (o : E value) : Prop :=
  match o with
  | Ok v => exists u, Some u ∈ _expression_types (py_expr x) contexts /\ conforms complete (r_store r) u v = true
  | Err e => complete = false /\ exists n, n ∈ path_names x /\ absent n e
  end.

Lemma path_value x depth :
  context_path x = true -> all_tuples (node_valid contexts) (py_expr x) = true ->
  depth + path_length x <= CEDAR_MAX_DEPTH -> path_read x (cedar_eval r x depth).
Proof.
  revert depth. induction x as [|w| | | | | | | | | | | | | | |base n IH|] using expr_ind_nested;
    intros depth Hp Hv Hd; try done.
  - destruct w; try done. cbn [path_length] in Hd. cbn. destruct (Z.ltb_spec CEDAR_MAX_DEPTH depth); [lia|].
    by exists t.
  - cbn [context_path path_length] in Hp, Hd.
    assert (0 <= path_length base) by (clear; induction base using expr_ind_nested; cbn; lia).
    specialize (IH (depth + 1) Hp (all_tuples_operand _ (OP_GETATTR base n) base ltac:(set_solver) Hv) ltac:(lia)).
    cbn [cedar_eval]. destruct (Z.ltb_spec CEDAR_MAX_DEPTH depth); [lia|].
    destruct (cedar_eval r base (depth + 1)) as [v|e]; cbn [res_bind].
    2: { destruct IH as (? & m & Hm & He). split; [done|]. exists m. cbn [path_names]. set_solver. }
    destruct IH as (u & Hu & Hcv).
    assert (_field_type (_expression_types (py_expr base) contexts) n <> []) as Hne.
    { rewrite all_tuples_expr in Hv. apply andb_prop in Hv as [Hv _].
      unfold node_valid in Hv. cbn in Hv.
      destruct (_expression_types (py_expr base) contexts) as [|t0 ts]; [by apply elem_of_nil in Hu|].
      by destruct (_field_type (t0 :: ts) n). }
    destruct (field_type_elem _ _ _ Hne Hu) as (fields & w & -> & Hf & Hw).
    pose proof (conforms_field _ _ _ _ _ _ Hcv Hf) as Hget. unfold path_read.
    destruct (cedar_eval_getattr (r_store r) v n) as [y|e].
    + exists w. by rewrite expression_types_get.
    + destruct Hget. split; [done|]. exists n. cbn [path_names]. set_solver.
Qed.

Lemma validated_path e x depth :
  validate_context_expression (py_expr e) contexts = Ok tt -> occurs_in x e -> context_path x = true ->
  depth + path_length x <= CEDAR_MAX_DEPTH -> path_read x (cedar_eval r x depth).
Proof.
  intros Hv%validate_all_tuples Hx Hp Hd. exact (path_value x depth Hp (all_tuples_occurs _ _ _ Hx Hv) Hd).
Qed.
End paths.

(** ** Validated policies *)

Lemma validate_conditions_elem cs types c :
  validate_conditions cs types = Ok tt -> c ∈ cs ->
  validate_context_expression (py_expr (c.2)) types = Ok tt.
Proof.
  induction cs as [|d cs IH]; cbn; [set_solver|].
  destruct (validate_context_expression (py_expr (d.2)) types) as [[]|] eqn:E; [|done]. cbn [res_bind].
  intros H [->|Hc]%elem_of_cons; auto.
Qed.

Lemma validate_policies_elem s ps p :
  validate_policies s ps = Ok tt -> p ∈ ps ->
  exists names, policy_actions s p = Ok names /\
    validate_conditions (conditions p) (contexts s names) = Ok tt.
Proof.
  induction ps as [|q ps IH]; cbn; [set_solver|].
  destruct (policy_actions s q) as [names|] eqn:E; [|done]. cbn [res_bind].
  destruct (validate_conditions (conditions q) (contexts s names)) as [[]|] eqn:Ev; [|done]. cbn [res_bind].
  intros H [->|Hp]%elem_of_cons; eauto.
Qed.

(** The declared context of an action is among those of its policies. *)
Lemma contexts_elem s names name a t :
  (name, a) ∈ s_actions s -> name ∈ names -> sa_context a = Some t -> Some t ∈ contexts s names.
Proof.
  intros Ha Hn Ht. unfold contexts. apply list_elem_of_omap. exists (name, a). split; [done|].
  cbn. unfold text_in. rewrite bool_decide_true by done. cbn. rewrite Ht. done.
Qed.

Lemma policies_init_validated `{UnicodeData} depth source entities s cp :
  policies_init depth source entities (Some s) = Ok cp ->
  cp_schema cp = Some s /\ validate_policies s (cp_policies cp) = Ok tt.
Proof.
  unfold policies_init. do 2 (case_match; [done|]).
  destruct (_tokenize source) as [ts|[| |]]; [|done..]. cbn [res_bind].
  destruct (policies depth ts) as [ps|[| |]]; [|done..].
  unfold _validate_schema. destruct (validate_policies s ps) as [[]|] eqn:Hv; [|done]. cbn [res_bind].
  destruct (cedar_compile_plan ps); [|done]. destruct (existsb _ entities); [done|].
  destruct (_build_store _); [|done]. cbn [res_bind]. by intros [= <-].
Qed.

(** ** Cedar: concrete policy sets

    Policy texts parsed and evaluated, for the witnesses, and the concrete
    inputs on which the code does something other than its documentation says.
    In a text a backtick stands for a double quote. *)

#[export] Existing Instance ascii_data.
#[export] Existing Instance ascii_laws.

Definition quoted_text (s : String.string) : pystr := map (fun c => if c =? 96 then quote else c) (bs s).

Definition no_policies : CedarPolicies := mk_policies [] [] None (mk_plan [] [] []) [] [] false [] [] [] [].

Definition or_none (c : G CedarPolicies) : CedarPolicies :=
  match c with Ok cp => cp | Err _ => no_policies end.

Definition engine_of (source : pystr) : CedarPolicies := or_none (policies_init 3000 source [] None).

Definition user (name : String.string) : uid := (bs "User", bs name).
Definition action_named (name : String.string) : uid := (bs "Action", bs name).
Definition document (name : String.string) : uid := (bs "Doc", bs name).

(** A reader's policy, a policy for administrators and a forbid. *)
Definition sample_source : pystr := quoted_text
  "permit(principal, action == Action::`read`, resource) when { context.method == `GET` };
   permit(principal in Role::`admin`, action, resource) when { context.now - 1 < 9 };
   forbid(principal, action, resource) when { resource.locked };".

Definition sample : CedarPolicies := engine_of sample_source.

Definition sample_query (who what method : String.string) : query :=
  mk_query (RefUid (user who)) (RefUid (action_named what)) (RefUid (document "1"))
    [(Some (bs "method"), PvStr (bs method)); (Some (bs "now"), PvInt 3); (Some (bs "path"), PvStr [47])]
    [mk_entity (user "ada") [] [(bs "Role", bs "admin")];
     mk_entity (document "1") [(Some (bs "locked"), PvBool false)] [];
     mk_entity (document "2") [(Some (bs "locked"), PvBool true)] []].

(** A delegated request of [ada]'s agent. *)
Definition agent_narrowing : Narrowing := mk_narrowing (bs "bot") None None (bs "ada") 1.

Definition agent_request : Request :=
  mk_http_request (bs "GET") (bs "/") (bs "agent") None 0
    (Some (mk_identity (bs "User") (bs "ada") [] [bs "admin"] [] (Some agent_narrowing))).

Definition authorizer_of (source : pystr) : CedarAuthorizer := authorizer_init (engine_of source) [].

(** *** Where the analysis looks at less than the evaluator *)

(** A forbid that asks whether there is an actor: the second pass is left out,
    and the delegate is allowed what that forbid denies. *)
Definition has_actor_source : pystr := quoted_text
  "permit(principal, action, resource); forbid(principal, action, resource) when { context has actor };".

Example has_actor_skipped :
  authorize (authorizer_of has_actor_source) agent_request (bs "read") (ResourceRef (RefUid (document "1"))) [] =
    Ok (true, Engine CedarPermit) /\
  is_authorized (engine_of has_actor_source)
    (mk_query (RefUid (user "ada")) (RefUid (action_named "read")) (RefUid (document "1"))
       (delegated_context agent_narrowing []) []) =
    Ok (AuthorizationDecision false ExplicitForbid
          [Matched false (bs "policy0"); Matched true (bs "policy1")]).
Proof. split; vm_compute; reflexivity. Qed.

(** A condition on the whole context needs keys the analysis does not name. *)
Definition whole_context_source : pystr := quoted_text
  "permit(principal, action, resource); forbid(principal, action, resource) when { {method: `GET`} == context };".

Definition method_query : query :=
  mk_query (RefUid (user "ada")) (RefUid (action_named "read")) (RefUid (document "1"))
    [(Some (bs "method"), PvStr (bs "GET"))] [].

Definition allows (g : G decision) : option bool :=
  match g with Ok d => Some (allowed d) | Err _ => None end.

Example whole_context_omitted :
  let cp := engine_of whole_context_source in
  let keep n := in_needed n (context_attributes_for_action cp (action_named "read")) in
  allows (is_authorized cp method_query) = Some false /\
  allows (is_authorized cp (with_context method_query (only_keys keep (q_context method_query)))) = Some true.
Proof. split; vm_compute; reflexivity. Qed.

(** A member that is computed is left out of a list said to be complete. *)
Example computed_member_omitted :
  referenced (engine_of (quoted_text
    "permit(principal, action, resource) when { context.flags.containsAll([`a`, resource.flag]) };"))
    (bs "flags") = Some [bs "a"].
Proof. vm_compute. reflexivity. Qed.

(** The principal's attributes, reached through the resource. *)
Definition owner_source : pystr := quoted_text
  "permit(principal, action, resource) when { resource.owner.verified };".

Definition owner_entity : CedarEntity := mk_entity (user "ada") [(Some (bs "verified"), PvBool true)] [].

Definition owner_query : query :=
  mk_query (RefUid (user "ada")) (RefUid (action_named "read")) (RefUid (document "1")) []
    [mk_entity (document "1") [(Some (bs "owner"), PvUid (user "ada"))] []].

Example owner_entity_omitted :
  let cp := engine_of owner_source in
  principal_entity_for_action cp (action_named "read") = false /\
  allows (is_authorized cp owner_query) = Some false /\
  allows (is_authorized cp (with_entities owner_query (owner_entity :: q_entities owner_query))) = Some true.
Proof. split_and!; vm_compute; reflexivity. Qed.

(** *** Text *)

(** The text of a reference whose id has a backslash before a star reads back
    as another reference. *)
Example backslash_star_lost :
  uid_parse (uid_str (bs "Doc", [97; 92; 42; 98])) = Ok (bs "Doc", [97; 42; 98]).
Proof. vm_compute. reflexivity. Qed.

(** The least 64-bit integer cannot be written. *)
Example least_integer_rejected :
  policies_init 3000 (bs "permit(principal, action, resource) when { -9223372036854775808 < 0 };") [] None =
  Err (ParseFailed (CedarParseError DoesNotFitI64 (Some (1, 45)))).
Proof. vm_compute. reflexivity. Qed.

(** *** Schemas *)

Definition ascii_escape (s : pystr) : option pystr := Some s.

Definition sample_schema_source : pystr := quoted_text
  "entity User = { name: String };
   action `all` appliesTo { principal: [User], resource: [User], context: { client: { id: String, quota: Long } } };
   action `read` in [`all`] appliesTo { principal: [User], resource: [User], context: { client: { id: String, quota: Long } } };
   action `sweep` in [`all`] appliesTo { principal: [User], resource: [User], context: { quota?: Long } };".

Definition no_schema : CedarSchema := mk_schema [] [] [] [] [].

Definition sample_schema : CedarSchema :=
  match schema_init ascii_escape sample_schema_source with Ok s => s | Err _ => no_schema end.

(** A group's own context is all a policy for its set is checked against, so a
    policy over a group in a set is accepted for members that lack the
    attribute. *)
Example group_in_set_unchecked :
  let text set := quoted_text "permit(principal, action in " ++ set ++
    quoted_text ", resource) when { context.client.quota < 9 };" in
  let ok set := match policies_init 3000 (text set) [] (Some sample_schema) with Ok _ => true | Err _ => false end in
  ok (quoted_text "[Action::`all`]") = true /\ ok (quoted_text "Action::`all`") = false.
Proof. split; vm_compute; reflexivity. Qed.

(** An attribute declared optional is read without asking for it. *)
Example optional_attribute_read :
  let cp := or_none (policies_init 3000
    (quoted_text "forbid(principal, action == Action::`sweep`, resource) when { context.quota < 9 };")
    [] (Some sample_schema)) in
  is_authorized cp (mk_query (RefUid (user "ada")) (RefUid (action_named "sweep")) (RefUid (document "1")) [] []) =
  Ok (AuthorizationDecision false NoPermit [Skipped true (bs "policy0") (RecordHasNoAttribute (bs "quota"))]).
Proof. vm_compute. reflexivity. Qed.

(** *** Composition *)

(** A later plan replaces an earlier one, so composing can grant. *)
Example plan_replaced :
  _bound_entitlement_resolution (Some (bs "pro")) [bs "export"] (on_plan (bs "free")) = [] /\
  _bound_entitlement_resolution (Some (bs "pro")) [bs "export"]
    (merge (on_plan (bs "free")) (on_plan (bs "pro"))) = [bs "export"].
Proof. split; vm_compute; reflexivity. Qed.

(** *** Identities *)

(** An identity without a namespace can have the qualified id of one with. *)
Example namespace_collision :
  _identity_id (mk_identity (bs "User") (bs "3:idpx") [] [] [] None) =
  _identity_id (mk_identity (bs "User") (bs "x") (bs "idp") [] [] None).
Proof. vm_compute. reflexivity. Qed.
