(* ===== verification/CedarClaims.v ===== *)
(** * Cedar: decisions and evaluation

    The claims about the parser, the evaluator and the decisions of a policy
    set, each with a concrete instance. *)

From stdpp Require Import base sets strings numbers list gmap relations.
From Stdlib Require Import ZArith Lia.
From S2P Require Import Prelude PyCollections PyText CedarSyntax CedarLexer CedarParser CedarEval.
From S2P Require Import CedarEvalFacts CedarAnalysis CedarNoninterference CedarComposition CedarSchema.
From S2P Require Import CedarEngine CedarParserFacts CedarDecisions CedarAuthorizer.
From S2P Require Import CedarQueryFacts CedarExamples.
#[local] Open Scope Z_scope.

(** ** Decisions *)

(** C1. [is_authorized] implements Cedar's decision rule.  On a policy set that
    was built and a query that converts, it returns a decision, never an
    exception: the request is allowed exactly when some permit is satisfied and
    no forbid is; the reason names which of the three cases it was; and the
    diagnostics list, in policy order, the satisfied policies and those skipped
    because their evaluation failed. *)
Theorem authorization_decides `{!UnicodeLaws U} depth source entities schema cp q r :
  policies_init depth source entities schema = Ok cp -> prepare cp q = Ok r ->
  exists d, is_authorized cp q = Ok d /\
    (allowed d = true <->
      (exists p, p ∈ cp_policies cp /\ forbid p = false /\ plan_policy_satisfied r p = Ok true) /\
      (forall p, p ∈ cp_policies cp -> forbid p = true -> plan_policy_satisfied r p <> Ok true)) /\
    (decision_reason d = ExplicitForbid <->
      exists p, p ∈ cp_policies cp /\ forbid p = true /\ plan_policy_satisfied r p = Ok true) /\
    (decision_reason d = CedarPermit <-> allowed d = true) /\
    diagnostics d = omap (diagnose r) (cp_policies cp).
Proof.
  intros Hcp%policies_init_built Hr. rewrite (is_authorized_spec cp Hcp), Hr. cbn [res_bind].
  eexists. split; [done|]. unfold cedar_decision. cbn [allowed decision_reason diagnostics].
  pose proof (satisfied_exists r forbid (cp_policies cp)) as Hf.
  pose proof (satisfied_exists r (fun p => negb (forbid p)) (cp_policies cp)) as Hp.
  setoid_rewrite negb_true_iff in Hp. rewrite <- Hf.
  assert ((forall p, p ∈ cp_policies cp -> forbid p = true -> plan_policy_satisfied r p <> Ok true) <->
    existsb (fun p => forbid p && satisfied r p) (cp_policies cp) = false) as ->.
  { rewrite <- not_true_iff_false, Hf. naive_solver. }
  rewrite <- Hp.
  destruct (existsb (fun p => forbid p && satisfied r p) (cp_policies cp)),
    (existsb (fun p => negb (forbid p) && satisfied r p) (cp_policies cp)); cbn; naive_solver.
Qed.

Lemma authorization_decides_witness :
  exists d, is_authorized sample (sample_query "ada" "write" "PUT") = Ok d /\ allowed d = true.
Proof.
  destruct (authorization_decides 3000 sample_source [] None sample (sample_query "ada" "write" "PUT")
    (match prepare sample (sample_query "ada" "write" "PUT") with Ok r => r
     | Err _ => mk_request (user "ada") (user "ada") (user "ada") [] [] end)) as (d & Hd & Ha & _);
    [vm_compute; reflexivity|vm_compute; reflexivity|].
  exists d. split; [exact Hd|]. assert (is_authorized sample (sample_query "ada" "write" "PUT") =
    Ok (AuthorizationDecision true CedarPermit [Matched false (bs "policy1")])) as He by (vm_compute; reflexivity).
  rewrite He in Hd. injection Hd as <-. reflexivity.
Defined.

(** A route's denial is the full decision: [_route_denial], which looks at
    forbids first, stops at the first satisfied policy and keeps no
    diagnostics, denies exactly what [is_authorized] denies, for the same
    reason, and fails exactly when it fails. *)
Theorem route_denial_agrees `{!UnicodeLaws U} depth source entities schema cp q :
  policies_init depth source entities schema = Ok cp ->
  _route_denial cp q =
  (let! d := is_authorized cp q in Ok (if allowed d then None else Some (decision_reason d))).
Proof. intros Hcp%policies_init_built. by apply route_denial_spec. Qed.

Lemma route_denial_agrees_witness :
  _route_denial sample (sample_query "bob" "write" "PUT") = Ok (Some NoPermit).
Proof.
  rewrite (route_denial_agrees 3000 sample_source [] None); [vm_compute; reflexivity|vm_compute; reflexivity].
Defined.

(** Batches: the decisions of [_is_authorized_many], and the pairs of its
    native counterpart, are those of one query per resource in their order,
    cut after the first denial when asked to stop there. *)
Theorem batch_agrees `{!UnicodeLaws U} depth source entities schema cp q r us stop :
  policies_init depth source entities schema = Ok cp -> prepare cp q = Ok r ->
  exists ds,
    Forall2 (fun u d => is_authorized cp (with_query_resource q u) = Ok d) us ds /\
    _is_authorized_many cp q (map RefUid us) stop = Ok (decisions_until allowed stop ds) /\
    _is_authorized_many_native cp q (map RefUid us) stop =
      Ok (map (fun d => (allowed d, decision_reason d)) (decisions_until allowed stop ds)).
Proof.
  intros Hcp%policies_init_built Hr.
  exists (map (fun u => cedar_decision (with_resource r u) (cp_policies cp)) us).
  split; [|split].
  - apply Forall2_map_same. intros u. rewrite (is_authorized_spec cp Hcp).
    by rewrite (prepare_resource cp q r u Hr).
  - by apply is_authorized_many_decides.
  - by apply is_authorized_many_native_decides.
Qed.

Lemma batch_agrees_witness :
  exists ds, _is_authorized_many sample (sample_query "ada" "write" "PUT")
               (map RefUid [document "1"; document "2"; document "1"]) true = Ok ds /\
    map allowed ds = [true; false].
Proof.
  destruct (batch_agrees 3000 sample_source [] None sample (sample_query "ada" "write" "PUT")
    (match prepare sample (sample_query "ada" "write" "PUT") with Ok r => r
     | Err _ => mk_request (user "ada") (user "ada") (user "ada") [] [] end)
    [document "1"; document "2"; document "1"] true) as (ds & _ & Hd & _);
    [vm_compute; reflexivity|vm_compute; reflexivity|].
  exists (decisions_until allowed true ds). split; [exact Hd|].
  destruct (_is_authorized_many sample (sample_query "ada" "write" "PUT")
    (map RefUid [document "1"; document "2"; document "1"]) true) as [l|] eqn:E; [|discriminate].
  injection Hd as <-. vm_compute in E. injection E as <-. reflexivity.
Defined.

(** ** Evaluation *)

(** C5. Evaluation stays in 64 bits and never raises: for every condition of a
    policy set that was built and every query that converts, the result is a
    value all of whose integers fit a signed 64-bit word, at any depth, or one
    of Cedar's evaluation errors; the internal failures of the evaluator (an
    integer that does not fit, a method without its argument) do not occur. *)
Theorem evaluation_bounded `{!UnicodeLaws U} depth source entities schema cp q r p u e level :
  policies_init depth source entities schema = Ok cp -> prepare cp q = Ok r ->
  p ∈ cp_policies cp -> (u, e) ∈ conditions p ->
  match cedar_eval r e level with
  | Ok v => value_i64 v = true
  | Err (Failed _) => True
  | Err Raised => False
  end.
Proof.
  intros Hcp%policies_init_built Hr Hp Hc. apply cedar_eval_tame.
  - by apply (prepare_i64 cp Hcp q).
  - pose proof (forallb_elem _ _ p (b_policies _ Hcp) Hp) as Hok.
    exact (forallb_elem _ _ (u, e) Hok Hc).
Qed.

(** A sum past the largest integer is one of Cedar's errors. *)
Definition overflow_source : pystr :=
  bs "permit(principal, action, resource) when { context.now + 9223372036854775807 > 0 };".

Definition now_query : query :=
  mk_query (RefUid (user "ada")) (RefUid (action_named "read")) (RefUid (document "1"))
    [(Some (bs "now"), PvInt 1)] [].

Lemma evaluation_bounded_witness :
  match cedar_eval (mk_request (user "ada") (action_named "read") (document "1") [(bs "now", VInt 1)] [])
          (OP_CMP CmpGt (OP_ARITH Plus (OP_GETATTR (OP_VAR ContextVar) (bs "now")) (OP_CONST (CInt 9223372036854775807)))
             (OP_CONST (CInt 0))) 0 with
  | Ok v => value_i64 v = true
  | Err (Failed _) => True
  | Err Raised => False
  end.
Proof.
  apply (evaluation_bounded 3000 overflow_source [] None (engine_of overflow_source) now_query _
    (match cp_policies (engine_of overflow_source) with p :: _ => p
     | [] => mk_policy false [] SCOPE_ANY SCOPE_ANY SCOPE_ANY [] end) false).
  - vm_compute. reflexivity.
  - vm_compute. reflexivity.
  - vm_compute. left.
  - vm_compute. left.
Defined.

(** [in] is reachability: an entity is in another exactly when they are the
    same or a chain of parents of the store leads from the one to the other,
    whether or not the hierarchy has cycles and whether or not an entity on the
    way is missing from the store. *)
Theorem in_hierarchy (st : store) u a :
  exists b, cedar_in st (VUid u) (VUid a) = Ok b /\ (b = true <-> rtc (parent_of st) u a).
Proof.
  cbn. case_bool_decide as Ha; [subst a; exists true; split; [done|]; split; [intros _; apply rtc_refl|done]|].
  eexists. split; [done|]. rewrite ancestor_matches_spec. setoid_rewrite bool_decide_eq_true. split.
  - intros (p & Hp & <-). by apply tc_rtc.
  - intros [->|(y & Hy & Hr)]%rtc_inv; [done|]. exists a. split; [|done]. by eapply tc_rtc_r; [apply tc_once|].
Qed.

(** [like] matches wildcards: a text matches the compiled segments of a
    pattern exactly when it is the pattern with each star replaced by some
    text, an escaped star standing for itself. *)
Theorem like_wildcards v p :
  cedar_like v (_pattern_segments p) = true <-> wild (pattern_atoms p) v.
Proof. apply cedar_like_pattern. Qed.

(** ** Parsing *)

(** The parser ends on every source: whatever the text, the scanner and
    the parser, given nine nested calls per character and nineteen more, return
    a policy list or a parse error, and never run out of nesting. *)
Theorem parsing_terminates `{!UnicodeLaws U} depth source :
  (9 * length source + 19 <= depth)%nat ->
  (let! ts := _tokenize source in policies depth ts) <> Err RecursionError.
Proof.
  intros Hd. pose proof (tokenize_fine source) as Ht.
  destruct (_tokenize source) as [ts|e]; [|by intros [= ->]]. cbn [res_bind tokens_fine] in *.
  pose proof (policies_fine depth ts) as Hp.
  destruct (policies depth ts) as [|[| |]]; try done. cbn in Hp. lia.
Qed.

Lemma parsing_terminates_witness :
  (let! ts := _tokenize sample_source in policies 3000 ts) <> Err RecursionError.
Proof. apply parsing_terminates. vm_compute. lia. Defined.

(** Parsed programs are well formed: every policy the parser returns, on
    any tokens and at any nesting, has integer literals of at most 63 bits,
    methods with the argument they take, patterns with at least one segment,
    and records without a repeated key. *)
Theorem parsed_wellformed `{!UnicodeLaws U} depth ts ps :
  policies depth ts = Ok ps -> Forall (fun p => policy_ok p = true) ps.
Proof.
  intros H. pose proof (policies_fine depth ts) as Hf. rewrite H in Hf. cbn in Hf.
  apply Forall_forall. intros p Hp. exact (forallb_elem _ _ p Hf Hp).
Qed.

Lemma parsed_wellformed_witness :
  Forall (fun p => policy_ok p = true)
    (match (let! ts := _tokenize sample_source in policies 3000 ts) with Ok ps => ps | Err _ => [] end).
Proof.
  apply (parsed_wellformed 3000 (match _tokenize sample_source with Ok ts => ts | Err _ => [] end)).
  vm_compute. reflexivity.
Defined.

(** References round trip: the text of an entity reference, its type a
    path of identifiers, reads back as that reference, whatever quotes and
    backslashes the id has, provided it has no newline and nothing the reading
    of a star's escape would drop (a backslash right before a star). *)
Theorem uid_roundtrip `{!UnicodeLaws U} (s : pystr) (segments : list pystr) (id : pystr) :
  Forall (fun s => plain_ident s = true) (s :: segments) -> newline ∉ id -> _unescape_star id = id ->
  uid_parse (uid_str (join_path (s :: segments), id)) = Ok (join_path (s :: segments), id).
Proof. intros Hs Hn Hid. by rewrite uid_parse_str, Hid. Qed.

Lemma uid_roundtrip_witness :
  uid_parse (uid_str (join_path [bs "App"; bs "User"], [97; 34; 92; 98])) =
    Ok (join_path [bs "App"; bs "User"], [97; 34; 92; 98]).
Proof.
  apply (uid_roundtrip (bs "App") [bs "User"]).
  - constructor; [vm_compute; reflexivity|constructor; [vm_compute; reflexivity|constructor]].
  - intros H. vm_compute in H. repeat (inversion H as [|? ? ? Hin]; subst; clear H; rename Hin into H).
  - vm_compute. reflexivity.
Defined.

(** ** Cedar: what a request may leave out

    The claims about the policy analysis, schemas, delegation and composed
    principals, each with a concrete instance. *)

Definition request_of (cp : CedarPolicies) (q : query) : request :=
  match prepare cp q with Ok r => r | Err _ => mk_request (user "ada") (user "ada") (user "ada") [] [] end.

(** *** Keys of the context *)

(** C7. Keys nobody reads can be left out of the context: when the policies
    read the context only attribute by attribute, a query keeps its result when
    its context is cut down to the keys [context_attributes_for_action] lists
    for its action.  A policy that uses the context as a whole is where it does
    not: [whole_context_omitted]. *)
Theorem context_keys_suffice `{!UnicodeLaws U} depth source entities schema cp q r :
  policies_init depth source entities schema = Ok cp -> prepare cp q = Ok r ->
  forallb policy_context_direct (cp_policies cp) = true ->
  let keep n := in_needed n (context_attributes_for_action cp (r_action r)) in
  is_authorized cp (with_context q (only_keys keep (q_context q))) = is_authorized cp q.
Proof. intros Hcp%policies_init_built Hr Hd. by apply query_context_only. Qed.

Lemma context_keys_suffice_witness :
  let q := sample_query "bob" "read" "GET" in
  let keep n := in_needed n (context_attributes_for_action sample (r_action (request_of sample q))) in
  map fst (only_keys keep (q_context q)) = [Some (bs "method"); Some (bs "now")] /\
  is_authorized sample (with_context q (only_keys keep (q_context q))) = is_authorized sample q.
Proof.
  split; [vm_compute; reflexivity|].
  apply (context_keys_suffice 3000 sample_source [] None); vm_compute; reflexivity.
Defined.

(** Members nobody names can be left out of a set: when the conditions look
    only for names written in full in the set [context.a], two contexts whose
    sets hold the same of the names [_referenced_members] lists give the same
    result. *)
Theorem members_suffice `{!UnicodeLaws U} depth source entities schema cp q r a
    (answer l1 l2 : list pystr) :
  policies_init depth source entities schema = Ok cp -> prepare cp q = Ok r ->
  referenced cp a = Some answer -> forallb (policy_members_literal a) (cp_policies cp) = true ->
  (forall n, n ∈ answer -> n ∈ l1 <-> n ∈ l2) ->
  is_authorized cp (with_fact q a l1) = is_authorized cp (with_fact q a l2).
Proof. intros Hcp%policies_init_built Hr Ha Hl Hn. by apply (query_members cp Hcp q r a answer). Qed.

Definition flags_source : pystr := quoted_text
  "permit(principal, action, resource) when { context.flags.contains(`beta`) };
   forbid(principal, action, resource) when { context.flags.containsAny([`off`, `paused`]) };".

Definition flags_query : query :=
  mk_query (RefUid (user "ada")) (RefUid (action_named "read")) (RefUid (document "1")) [] [].

Lemma members_suffice_witness :
  is_authorized (engine_of flags_source) (with_fact flags_query (bs "flags") [bs "beta"; bs "dark"; bs "new"]) =
  is_authorized (engine_of flags_source) (with_fact flags_query (bs "flags") [bs "beta"]).
Proof.
  apply (members_suffice 3000 flags_source [] None _ _ (request_of (engine_of flags_source) flags_query) _
    [bs "beta"; bs "off"; bs "paused"]); try (vm_compute; reflexivity).
  intros n Hn. rewrite !elem_of_cons. rewrite !elem_of_cons in Hn.
  destruct Hn as [->|[->|[->|[]%elem_of_nil]]]; split; intros [H|H]; try (vm_compute in H; discriminate); auto;
    try (destruct H as [H|[H|[]%elem_of_nil]]; vm_compute in H; discriminate); by apply elem_of_nil in H.
Defined.

(** *** The entity of the principal *)

(** The principal's entity can be left out: when
    [principal_entity_for_action] says an action does not need it, and neither
    the rest of the request nor a policy constant refers to the principal, the
    query keeps its result without that entity. *)
Theorem principal_entity_omitted `{!UnicodeLaws U} depth source entities schema cp q r e rest :
  policies_init depth source entities schema = Ok cp ->
  prepare cp (with_entities q (e :: rest)) = Ok r -> e_uid e = r_principal r ->
  principal_entity_for_action cp (r_action r) = false -> refers_once r ->
  forallb (fun p => negb (exists_in_policy (names_uid (r_principal r)) p)) (cp_policies cp) = true ->
  is_authorized cp (with_entities q rest) = is_authorized cp (with_entities q (e :: rest)).
Proof. intros Hcp%policies_init_built Hr He Hn Ho Hp. by apply (query_without_principal cp Hcp q r). Qed.

Definition owner_equal_source : pystr := quoted_text
  "permit(principal, action, resource) when { resource.public && context.method == `GET` };".

Definition public_entity : CedarEntity := mk_entity (document "1") [(Some (bs "public"), PvBool true)] [].

Definition public_query : query :=
  mk_query (RefUid (user "ada")) (RefUid (action_named "read")) (RefUid (document "1"))
    [(Some (bs "method"), PvStr (bs "GET"))] [].

Lemma principal_entity_omitted_witness :
  is_authorized (engine_of owner_equal_source) (with_entities public_query [public_entity]) =
  is_authorized (engine_of owner_equal_source) (with_entities public_query [owner_entity; public_entity]).
Proof.
  apply (principal_entity_omitted 3000 owner_equal_source [] None _ _
    (request_of (engine_of owner_equal_source) (with_entities public_query [owner_entity; public_entity])));
    try (vm_compute; reflexivity).
  split; try (vm_compute; reflexivity); try (vm_compute; discriminate).
  apply store_without_entries. vm_compute. reflexivity.
Defined.

(** *** Delegation *)

(** A delegate never has more than the principal that delegates: when
    [authorize] allows a delegated request, the delegation has not expired, its
    scope has the action, and the same request without the delegation is
    allowed, whatever the policies say about delegated requests. *)
Theorem delegate_within `{U : UnicodeData} a rq action resource additions why i n :
  authorize a rq action resource additions = Ok (true, why) ->
  rq_identity rq = Some i -> i_narrowing i = Some n ->
  expired n (rq_time rq) = false /\ permits_action n action = true /\
  exists why', authorize a (without_narrowing rq) action resource additions = Ok (true, why').
Proof.
  intros Hauth Hi Hn. destruct (authorize_in_scope _ _ _ _ _ _ _ _ Hauth Hi Hn) as [He Hs].
  split_and!; [done|done|]. by apply (authorize_without _ _ _ _ _ why).
Qed.

Lemma delegate_within_witness :
  exists why', authorize (authorizer_of sample_source) (without_narrowing agent_request) (bs "write")
    (ResourceEntity (mk_entity (document "1") [(Some (bs "locked"), PvBool false)] [])) [] = Ok (true, why').
Proof.
  refine (proj2 (proj2 (delegate_within (authorizer_of sample_source) agent_request (bs "write")
    (ResourceEntity (mk_entity (document "1") [(Some (bs "locked"), PvBool false)] [])) []
    (Engine CedarPermit) (mk_identity (bs "User") (bs "ada") [] [bs "admin"] [] (Some agent_narrowing))
    agent_narrowing _ _ _))); vm_compute; reflexivity.
Defined.

(** C6. Leaving out the second pass makes no difference: when the policies read
    the context only attribute by attribute and do not ask whether it has one
    of the delegation keys, [authorize], which skips the second evaluation when
    no policy reads one of those keys, gives the result of always running it, for
    delegations of a depth within 64 bits.  A policy that asks [context has actor]
    is where it does not: [has_actor_skipped]. *)
Theorem shortcut_exact `{!UnicodeLaws U} depth source entities schema cp facts rq action resource additions :
  policies_init depth source entities schema = Ok cp ->
  forallb policy_context_direct (cp_policies cp) = true ->
  forallb policy_no_has (cp_policies cp) = true ->
  (forall i n, rq_identity rq = Some i -> i_narrowing i = Some n -> i64 (n_depth n) = true) ->
  let a := authorizer_init cp facts in
  authorize a rq action resource additions = authorize_both a rq action resource additions.
Proof. intros Hcp%policies_init_built Hd Hno Hi a. by apply (authorize_both_spec a cp facts). Qed.

Lemma shortcut_exact_witness :
  let a := authorizer_init sample [] in
  authorize a agent_request (bs "write") (ResourceEntity public_entity) [] =
  authorize_both a agent_request (bs "write") (ResourceEntity public_entity) [].
Proof.
  refine (shortcut_exact 3000 sample_source [] None sample [] agent_request (bs "write")
    (ResourceEntity public_entity) [] _ _ _ _); [vm_compute; reflexivity..|].
  intros i n Hi Hn. injection Hi as <-. injection Hn as <-. reflexivity.
Defined.

(** *** Composed principals *)

(** Narrowing and facets only reduce.  A principal narrowed again permits
    an action, at a time, only where both the old narrowing and the new scope
    and lifetime do, and goes one delegation deeper.  A facet composed in
    leaves the principal no organization it did not have; no role it did not
    have, when the facet names no active organization; and no entitlement it
    did not have, when the facet names no plan. *)
Theorem composition_reduces p p' actor scope ttl now n facet :
  narrow p actor scope ttl now = Some p' -> p_narrowing p = Some n ->
  (exists n', p_narrowing p' = Some n' /\
    (forall action, permits_action n' action = permits_action n action &&
       match scope with Some s => bool_decide (action ∈ s) | None => true end) /\
    (forall t, expired n' t = expired n t ||
       match ttl with Some d => now + d <=? t | None => false end) /\
    n_depth n' = n_depth n + 1 /\ n_actor n' = actor) /\
  (forall memberships, _resolve_organizations (p_limits (compose p' facet)) memberships ⊆
     _resolve_organizations (p_limits p) memberships) /\
  (l_active facet = None -> forall session memberships,
     _resolve_org_roles (p_limits (compose p' facet)) session memberships ⊆
     _resolve_org_roles (p_limits p) session memberships) /\
  (l_plan facet = None -> forall plan held,
     _bound_entitlement_resolution plan held (p_limits (compose p' facet)) ⊆
     _bound_entitlement_resolution plan held (p_limits p)).
Proof.
  unfold narrow. case_bool_decide; [done|].
  destruct (match ttl with Some t => t <=? 0 | None => false end); [done|].
  intros [= <-] Hn. rewrite Hn. split; [|split_and!].
  - eexists. split; [done|]. split; [|split; [|done]].
    + intros action. rewrite permits_then. done.
    + intros t. rewrite expired_then. f_equal. unfold expired. cbn. by destruct ttl.
  - intros ms x. apply bound_intersect_l.
  - intros Ha session ms x. unfold _resolve_org_roles, active_organization. cbn. rewrite Ha. cbn.
    apply bound_intersect_l.
  - intros Hplan plan held x. unfold _bound_entitlement_resolution. cbn. rewrite Hplan. cbn.
    destruct (l_plan (p_limits p)); [case_match; [done|]|]; apply bound_intersect_l.
Qed.

Definition narrowed_principal : CedarComposition.Principal :=
  CedarComposition.mk_principal (bs "ada") (mk_limits (Some [bs "acme"]) None None None None) (Some agent_narrowing).

Definition narrowed_again : CedarComposition.Principal :=
  match narrow narrowed_principal (bs "tool") (Some [bs "read"]) (Some 60) 0 with
  | Some p => p
  | None => narrowed_principal
  end.

Lemma composition_reduces_witness :
  _resolve_organizations (p_limits (compose narrowed_again (member_of (bs "acme") None)))
    [mk_membership (bs "acme") []; mk_membership (bs "beta") []] ⊆
  _resolve_organizations (p_limits narrowed_principal)
    [mk_membership (bs "acme") []; mk_membership (bs "beta") []].
Proof.
  refine (proj1 (proj2 (composition_reduces narrowed_principal narrowed_again (bs "tool") (Some [bs "read"])
    (Some 60) 0 agent_narrowing (member_of (bs "acme") None) _ _)) _); reflexivity.
Defined.

(** *** Schemas *)










(** The descendants of an action, which a policy over [action in G] is
    checked against, are the actions that reach it through the children the
    schema records, the action itself among them, and the search ends on every
    schema, cycles included. *)
Theorem descendants_reachable s name x : x ∈ descendants s name <-> rtc (child_of s) name x.
Proof. apply descendants_spec. Qed.
