(* ===== verification/KvTable.v ===== *)
(** * The key/value table: [_native/kv.c], [kv.py]

    Open addressing with a byte of control per slot, scanned in groups of 32; a
    recency list threaded through the slots; lazy expiry.  Loops over memory
    take fuel, and running out is [Stuck].  A link of -1 is [None], a deadline
    of [HUGE_VAL] is [None]. *)

From stdpp Require Import base sets strings numbers list gmap.
From Stdlib Require Import ZArith Lia.
From S2P Require Import Prelude PyCollections.
#[local] Open Scope Z_scope.

(** ** Control bytes, hashes, times *)

Definition WREATH_CTRL_GROUP : nat := 32.
Definition WREATH_CTRL_EMPTY : Z := 128.
Definition WREATH_CTRL_DELETED : Z := 254.

Definition wrap64 (z : Z) : Z := z mod 2 ^ 64.

Definition kv_mix (hash : Z) : Z :=
  let value := wrap64 hash in
  let value := Z.lxor value (Z.shiftr value 30) in
  let value := wrap64 (value * 0xbf58476d1ce4e5b9) in
  let value := Z.lxor value (Z.shiftr value 27) in
  let value := wrap64 (value * 0x94d049bb133111eb) in
  Z.lxor value (Z.shiftr value 31).

Definition kv_tag (mixed : Z) : Z := Z.shiftr mixed 57.

(** A deadline. *)
Abbreviation time := (option Z).

(** [now >= deadline]. *)
Definition past (now : Z) (deadline : time) : bool :=
  match deadline with Some d => d <=? now | None => false end.

Definition earlier (a b : time) : time :=
  match a, b with
  | Some x, Some y => Some (Z.min x y)
  | Some x, None | None, Some x => Some x
  | None, None => None
  end.

Definition WREATH_KV_FITS (occupied slots : Z) : bool := (occupied + 1) * 8 <=? slots * 7.

(** [result <<= 1] while it is too small. *)
Fixpoint doubled (fuel : nat) (result value : Z) : Z :=
  match fuel with
  | O => result
  | S fuel => if (result <? value) && (result <? 2 ^ 63 - 1) then doubled fuel (2 * result) value else result
  end.

Definition kv_next_power_of_two (value : Z) : Z := doubled 64 (Z.of_nat WREATH_CTRL_GROUP) value.

Inductive kv_error : Type := BadMaxEntries | BadMaxBytes | BadTtl | BadCost | Stuck.

Section kv.
Context {K V : Type} `{EqDecision K} (hash : K -> Z).

(** ** The table *)

Record slot : Type := mk_slot {
  s_held : option (K * V);
  s_hash : Z;
  s_deadline : time;
  s_cost : Z;
  s_prev : option nat;
  s_next : option nat }.

Record kv : Type := mk_kv {
  ctrl : list Z;
  slots : list slot;
  used : Z;
  tombstones : Z;
  max_slots : Z;
  max_entries : Z;
  lru_head : option nat;
  lru_tail : option nat;
  ttl : time;
  next_expiry : time;
  bytes : Z;
  max_bytes : Z;
  evicted : option (list (K * V));
  hits : Z;
  misses : Z;
  evictions : Z;
  expirations : Z }.

Definition slot_count (t : kv) : Z := zlen (ctrl t).

(** A slot as [PyMem_Calloc] leaves it. *)
Definition zero_slot : slot := mk_slot None 0 (Some 0) 0 (Some 0%nat) (Some 0%nat).

Definition kv_init (entries : Z) (lifetime : option Z) (byte_limit : Z) (track : bool) : res kv_error kv :=
  if entries <? 1 then Err BadMaxEntries
  else if byte_limit <? 0 then Err BadMaxBytes
  else if match lifetime with Some s => s <=? 0 | None => false end then Err BadTtl
  else Ok (mk_kv [] [] 0 0 (kv_next_power_of_two ((entries * 8 + 6) / 7)) entries None None lifetime None 0 byte_limit
    (if track then Some [] else None) 0 0 0 0).

(** Assignments. *)
Definition set_slots (f : list slot -> list slot) (t : kv) : kv :=
  mk_kv (ctrl t) (f (slots t)) (used t) (tombstones t) (max_slots t) (max_entries t) (lru_head t) (lru_tail t) (ttl t)
    (next_expiry t) (bytes t) (max_bytes t) (evicted t) (hits t) (misses t) (evictions t) (expirations t).
Definition set_list (head tail : option nat) (t : kv) : kv :=
  mk_kv (ctrl t) (slots t) (used t) (tombstones t) (max_slots t) (max_entries t) head tail (ttl t)
    (next_expiry t) (bytes t) (max_bytes t) (evicted t) (hits t) (misses t) (evictions t) (expirations t).
Definition set_counts (u d b : Z) (t : kv) : kv :=
  mk_kv (ctrl t) (slots t) u d (max_slots t) (max_entries t) (lru_head t) (lru_tail t) (ttl t)
    (next_expiry t) b (max_bytes t) (evicted t) (hits t) (misses t) (evictions t) (expirations t).
Definition set_ctrl (c : list Z) (t : kv) : kv :=
  mk_kv c (slots t) (used t) (tombstones t) (max_slots t) (max_entries t) (lru_head t) (lru_tail t) (ttl t)
    (next_expiry t) (bytes t) (max_bytes t) (evicted t) (hits t) (misses t) (evictions t) (expirations t).
Definition set_expiry (e : time) (t : kv) : kv :=
  mk_kv (ctrl t) (slots t) (used t) (tombstones t) (max_slots t) (max_entries t) (lru_head t) (lru_tail t) (ttl t)
    e (bytes t) (max_bytes t) (evicted t) (hits t) (misses t) (evictions t) (expirations t).
Definition set_evicted (e : option (list (K * V))) (t : kv) : kv :=
  mk_kv (ctrl t) (slots t) (used t) (tombstones t) (max_slots t) (max_entries t) (lru_head t) (lru_tail t) (ttl t)
    (next_expiry t) (bytes t) (max_bytes t) e (hits t) (misses t) (evictions t) (expirations t).
Definition count_read (hit : bool) (t : kv) : kv :=
  mk_kv (ctrl t) (slots t) (used t) (tombstones t) (max_slots t) (max_entries t) (lru_head t) (lru_tail t) (ttl t)
    (next_expiry t) (bytes t) (max_bytes t) (evicted t) (if hit then hits t + 1 else hits t)
    (if hit then misses t else misses t + 1) (evictions t) (expirations t).
Definition count_evictions (n : Z) (t : kv) : kv :=
  mk_kv (ctrl t) (slots t) (used t) (tombstones t) (max_slots t) (max_entries t) (lru_head t) (lru_tail t) (ttl t)
    (next_expiry t) (bytes t) (max_bytes t) (evicted t) (hits t) (misses t) (evictions t + n) (expirations t).
Definition count_expirations (n : Z) (t : kv) : kv :=
  mk_kv (ctrl t) (slots t) (used t) (tombstones t) (max_slots t) (max_entries t) (lru_head t) (lru_tail t) (ttl t)
    (next_expiry t) (bytes t) (max_bytes t) (evicted t) (hits t) (misses t) (evictions t) (expirations t + n).

Definition update (i : nat) (f : slot -> slot) (t : kv) : kv := set_slots (alter f i) t.

Definition link_prev (p : option nat) (s : slot) : slot :=
  mk_slot (s_held s) (s_hash s) (s_deadline s) (s_cost s) p (s_next s).
Definition link_next (n : option nat) (s : slot) : slot :=
  mk_slot (s_held s) (s_hash s) (s_deadline s) (s_cost s) (s_prev s) n.
Definition with_value (v : V) (s : slot) : slot :=
  mk_slot (match s_held s with Some (k, _) => Some (k, v) | None => None end) (s_hash s) (s_deadline s) (s_cost s)
    (s_prev s) (s_next s).
Definition with_deadline (d : time) (s : slot) : slot :=
  mk_slot (s_held s) (s_hash s) d (s_cost s) (s_prev s) (s_next s).
Definition with_cost (n : Z) (s : slot) : slot :=
  mk_slot (s_held s) (s_hash s) (s_deadline s) n (s_prev s) (s_next s).

(** ** The recency list *)

Definition kv_lru_unlink (index : nat) (t : kv) : kv :=
  match slots t !! index with
  | None => t
  | Some slot =>
    let t := match s_prev slot with
             | Some p => update p (link_next (s_next slot)) t
             | None => set_list (s_next slot) (lru_tail t) t
             end in
    let t := match s_next slot with
             | Some n => update n (link_prev (s_prev slot)) t
             | None => set_list (lru_head t) (s_prev slot) t
             end in
    update index (fun s => link_next None (link_prev None s)) t
  end.

Definition kv_lru_push_front (index : nat) (t : kv) : kv :=
  let t := update index (fun s => link_next (lru_head t) (link_prev None s)) t in
  let t := match lru_head t with Some h => update h (link_prev (Some index)) t | None => t end in
  set_list (Some index) (match lru_tail t with None => Some index | Some l => Some l end) t.

Definition kv_lru_touch (index : nat) (t : kv) : kv :=
  if bool_decide (lru_head t = Some index) then t else kv_lru_push_front index (kv_lru_unlink index t).

(** ** Probing *)

Definition group_of (t : kv) (mixed : Z) : nat :=
  Z.to_nat (Z.land (Z.land mixed (slot_count t - 1)) (Z.lnot (Z.of_nat WREATH_CTRL_GROUP - 1))).

Definition next_group (count : Z) (group : nat) : nat :=
  Z.to_nat (Z.land (Z.of_nat (group + WREATH_CTRL_GROUP)) (count - 1)).

(** The first lane with the tag whose slot holds the key. *)
Definition lane_holds (t : kv) (k : K) (h tag : Z) (i : nat) : bool :=
  match ctrl t !! i, slots t !! i with
  | Some c, Some s =>
    (c =? tag) && (s_hash s =? h) && match s_held s with Some (k', _) => bool_decide (k' = k) | None => false end
  | _, _ => false
  end.

Definition lane_free (c : list Z) (i : nat) : bool :=
  match c !! i with Some b => 128 <=? b | None => false end.

Definition lane_empty (c : list Z) (i : nat) : bool :=
  match c !! i with Some b => b =? WREATH_CTRL_EMPTY | None => false end.

Definition lanes (group : nat) : list nat := seq group WREATH_CTRL_GROUP.

Inductive probed : Type := At (index : nat) | Absent (insert_at : nat).

Fixpoint probe_loop (fuel : nat) (t : kv) (k : K) (h tag : Z) (group : nat) (candidate : option nat) :
    res kv_error probed :=
  match fuel with
  | O => Err Stuck
  | S fuel =>
    match List.find (lane_holds t k h tag) (lanes group) with
    | Some i => Ok (At i)
    | None =>
      let candidate :=
        match candidate with Some c => Some c | None => List.find (lane_free (ctrl t)) (lanes group) end in
      if existsb (lane_empty (ctrl t)) (lanes group) then Ok (Absent (default 0%nat candidate))
      else probe_loop fuel t k h tag (next_group (slot_count t) group) candidate
    end
  end.

Definition group_count (count : Z) : nat := Z.to_nat (count / Z.of_nat WREATH_CTRL_GROUP).

Definition kv_probe (t : kv) (k : K) : res kv_error probed :=
  if slot_count t =? 0 then Ok (Absent 0)
  else
    let mixed := kv_mix (hash k) in
    probe_loop (group_count (slot_count t)) t k (hash k) (kv_tag mixed) (group_of t mixed) None.

(** ** Rebuilding *)

(** [kv_place]: the first free lane on the path. *)
Fixpoint kv_place (fuel : nat) (c : list Z) (group : nat) : res kv_error nat :=
  match fuel with
  | O => Err Stuck
  | S fuel =>
    match List.find (lane_free c) (lanes group) with
    | Some i => Ok i
    | None => kv_place fuel c (next_group (zlen c) group)
    end
  end.

(** A live entry moves to its place in the new table, behind the last one. *)
Definition move_entry (s : slot) (n : kv) : res kv_error kv :=
  let mixed := kv_mix (s_hash s) in
  let! i := kv_place (group_count (slot_count n)) (ctrl n) (group_of n mixed) in
  let n := set_ctrl (<[i := kv_tag mixed]> (ctrl n)) n in
  let n := update i (fun _ => mk_slot (s_held s) (s_hash s) (s_deadline s) (s_cost s) (lru_tail n) None) n in
  let n := match lru_tail n with Some l => update l (link_next (Some i)) n | None => set_list (Some i) None n end in
  Ok (set_expiry (earlier (s_deadline s) (next_expiry n))
    (set_counts (used n + 1) 0 (bytes n + s_cost s) (set_list (lru_head n) (Some i) n))).

Fixpoint rebuild_loop (fuel : nat) (old : list slot) (now : Z) (cursor : option nat) (n : kv) (gone : Z) :
    res kv_error (kv * Z) :=
  match cursor with
  | None => Ok (n, gone)
  | Some i =>
    match fuel, old !! i with
    | S fuel, Some s =>
      if past now (s_deadline s) then rebuild_loop fuel old now (s_next s) n (gone + 1)
      else let! n := move_entry s n in rebuild_loop fuel old now (s_next s) n gone
    | _, _ => Err Stuck
    end
  end.

(** An empty table of [target] slots with the settings and counters of [t]. *)
Definition blank (target : Z) (t : kv) : kv :=
  mk_kv (repeat WREATH_CTRL_EMPTY (Z.to_nat target)) (repeat zero_slot (Z.to_nat target)) 0 0 (max_slots t)
    (max_entries t) None None (ttl t) None 0 (max_bytes t) (evicted t) (hits t) (misses t) (evictions t) (expirations t).

Definition kv_rebuild (target now : Z) (t : kv) : res kv_error (kv * Z) :=
  if target =? 0 then Ok (t, 0)
  else rebuild_loop (S (length (slots t))) (slots t) now (lru_head t) (blank target t) 0.

(** ** Releasing and evicting *)

Definition kv_release (i : nat) (t : kv) : kv :=
  let cost := match slots t !! i with Some s => s_cost s | None => 0 end in
  let t := kv_lru_unlink i t in
  let t := update i (fun s => mk_slot None 0 (Some 0) 0 (s_prev s) (s_next s)) t in
  set_counts (used t - 1) (tombstones t + 1) (bytes t - cost) (set_ctrl (<[i := WREATH_CTRL_DELETED]> (ctrl t)) t).

Definition kv_evict_tail (t : kv) : kv :=
  match lru_tail t with
  | None => t
  | Some i =>
    let t := match evicted t, slots t !! i with
             | Some log, Some s => set_evicted (Some (log ++ match s_held s with Some p => [p] | None => [] end)) t
             | _, _ => t
             end in
    count_evictions 1 (kv_release i t)
  end.

(** [while condition: kv_evict_tail]. *)
Fixpoint evict_while (fuel : nat) (condition : kv -> bool) (t : kv) : kv :=
  match fuel with
  | O => t
  | S fuel =>
    match lru_tail t with
    | None => t
    | Some _ => if condition t then evict_while fuel condition (kv_evict_tail t) else t
    end
  end.

Definition over_budget (t : kv) : bool :=
  (max_entries t <? used t) || (negb (max_bytes t =? 0) && (max_bytes t <? bytes t)).

Definition kv_enforce_budget (t : kv) : kv := evict_while (S (length (slots t))) over_budget t.

Definition crowded (t : kv) : bool :=
  (max_entries t <=? used t) || negb (WREATH_KV_FITS (used t + tombstones t) (slot_count t)).

(** The size to rebuild at. *)
Fixpoint grown (fuel : nat) (u target limit : Z) : Z :=
  match fuel with
  | O => target
  | S fuel => if negb (WREATH_KV_FITS u target) && (target <? limit) then grown fuel u (2 * target) limit else target
  end.

Definition rebuild_target (t : kv) : Z :=
  grown 64 (used t) (if slot_count t =? 0 then Z.of_nat WREATH_CTRL_GROUP else slot_count t) (max_slots t).

Definition kv_ensure_room (now : Z) (t : kv) : res kv_error kv :=
  let rebuild :=
    let! (t, expired) := kv_rebuild (rebuild_target t) now t in
    Ok (evict_while (S (length (slots t))) crowded (count_expirations expired t)) in
  if WREATH_KV_FITS (used t + tombstones t) (slot_count t) then
    if used t <? max_entries t then Ok t
    else if negb (past now (next_expiry t)) then Ok (kv_evict_tail t)
    else rebuild
  else rebuild.

(** ** Operations *)

(** The slot of a live entry; an expired one is dropped. *)
Definition kv_lookup_live (k : K) (now : Z) (t : kv) : res kv_error (option nat * kv) :=
  let! p := kv_probe t k in
  match p with
  | Absent _ => Ok (None, t)
  | At i =>
    match slots t !! i with
    | None => Err Stuck
    | Some s => if past now (s_deadline s) then Ok (None, count_expirations 1 (kv_release i t)) else Ok (Some i, t)
    end
  end.

Definition value_at (i : nat) (t : kv) : option V :=
  match slots t !! i with Some s => match s_held s with Some (_, v) => Some v | None => None end | None => None end.

Definition kv_set_deadline (i : nat) (d : time) (t : kv) : kv :=
  set_expiry (earlier d (next_expiry t)) (update i (with_deadline d) t).

Definition kv_resolve_deadline (lifetime : option Z) (now : Z) (t : kv) : res kv_error time :=
  match lifetime with
  | None => Ok (match ttl t with Some s => Some (now + s) | None => None end)
  | Some s => if s <=? 0 then Err BadTtl else Ok (Some (now + s))
  end.

Definition kv_get (k : K) (now : Z) (t : kv) : res kv_error (option V * kv) :=
  let! (found, t) := kv_lookup_live k now t in
  match found with
  | None => Ok (None, count_read false t)
  | Some i => let t := kv_lru_touch i (count_read true t) in Ok (value_at i t, t)
  end.

Definition kv_peek (k : K) (now : Z) (t : kv) : res kv_error (option V) :=
  let! p := kv_probe t k in
  match p with
  | Absent _ => Ok None
  | At i =>
    match slots t !! i with
    | None => Err Stuck
    | Some s => Ok (if past now (s_deadline s) then None else value_at i t)
    end
  end.

Definition kv_held (k : K) (t : kv) : res kv_error (option V) :=
  let! p := kv_probe t k in
  match p with Absent _ => Ok None | At i => Ok (value_at i t) end.

(** Filling a free slot. *)
Definition kv_insert (i : nat) (k : K) (v : V) (d : time) (cost : Z) (t : kv) : kv :=
  let t := set_counts (used t)
    (if bool_decide (ctrl t !! i = Some WREATH_CTRL_DELETED) then tombstones t - 1 else tombstones t) (bytes t) t in
  let t := set_ctrl (<[i := kv_tag (kv_mix (hash k))]> (ctrl t)) t in
  let t := update i (fun s => mk_slot (Some (k, v)) (hash k) (s_deadline s) cost None None) t in
  let t := kv_set_deadline i d t in
  kv_lru_push_front i (set_counts (used t + 1) (tombstones t) (bytes t + cost) t).

(** Replacing a value in place. *)
Definition kv_replace (i : nat) (v : V) (d : time) (cost : Z) (t : kv) : kv :=
  let old := match slots t !! i with Some s => s_cost s | None => 0 end in
  let t := kv_set_deadline i d (update i (with_value v) t) in
  let t := set_counts (used t) (tombstones t) (bytes t - old + cost) (update i (with_cost cost) t) in
  kv_lru_touch i t.

Definition kv_set (k : K) (v : V) (lifetime : option Z) (now : Z) (keep_deadline : bool) (cost : Z) (t : kv) :
    res kv_error kv :=
  if cost <? 0 then Err BadCost
  else
    let! deadline := kv_resolve_deadline lifetime now t in
    let! p := kv_probe t k in
    match p with
    | At i =>
      match slots t !! i with
      | None => Err Stuck
      | Some s =>
        let expired := past now (s_deadline s) in
        let deadline := if negb expired && keep_deadline then s_deadline s else deadline in
        let t := if expired then count_expirations 1 t else t in
        Ok (kv_enforce_budget (kv_replace i v deadline cost t))
      end
    | Absent _ =>
      let! t := kv_ensure_room now t in
      let! p := kv_probe t k in
      match p with
      | At i => Ok (kv_enforce_budget (kv_replace i v deadline cost t))
      | Absent i => Ok (kv_enforce_budget (kv_insert i k v deadline cost t))
      end
    end.

Definition kv_claim (k : K) (v : V) (lifetime : option Z) (now : Z) (t : kv) : res kv_error (bool * kv) :=
  let! deadline := kv_resolve_deadline lifetime now t in
  let! (found, t) := kv_lookup_live k now t in
  match found with
  | Some _ => Ok (false, t)
  | None =>
    let! t := kv_ensure_room now t in
    let! p := kv_probe t k in
    match p with
    | At i => Ok (true, kv_lru_touch i (kv_set_deadline i deadline (update i (with_value v) t)))
    | Absent i => Ok (true, kv_insert i k v deadline 0 t)
    end
  end.

Definition kv_delete (k : K) (now : Z) (t : kv) : res kv_error (bool * kv) :=
  let! (found, t) := kv_lookup_live k now t in
  match found with None => Ok (false, t) | Some i => Ok (true, kv_release i t) end.

Definition kv_pop (k : K) (now : Z) (t : kv) : res kv_error (option V * kv) :=
  let! (found, t) := kv_lookup_live k now t in
  match found with
  | None => Ok (None, count_read false t)
  | Some i => let t := count_read true t in Ok (value_at i t, kv_release i t)
  end.

Definition kv_touch (k : K) (lifetime : option Z) (now : Z) (t : kv) : res kv_error (bool * kv) :=
  let! deadline := kv_resolve_deadline lifetime now t in
  let! (found, t) := kv_lookup_live k now t in
  match found with
  | None => Ok (false, t)
  | Some i => Ok (true, kv_lru_touch i (kv_set_deadline i deadline t))
  end.

Definition kv_purge (now : Z) (t : kv) : res kv_error (Z * kv) :=
  let! (t, expired) := kv_rebuild (slot_count t) now t in
  Ok (expired, count_expirations expired t).

Definition kv_take_evicted (t : kv) : list (K * V) * kv :=
  match evicted t with None => ([], t) | Some log => (log, set_evicted (Some []) t) end.

Definition kv_clear (t : kv) : Z * kv :=
  let n := if negb (used t =? 0) || negb (tombstones t =? 0)
           then set_ctrl (map (fun _ => WREATH_CTRL_EMPTY) (ctrl t))
                  (set_slots (map (fun s => mk_slot None (s_hash s) (s_deadline s) (s_cost s) None None)) t)
           else t in
  (used t, set_evicted (match evicted t with Some _ => Some [] | None => None end)
    (set_expiry None (set_list None None (set_counts 0 0 0 n)))).

(** The list from a slot on. *)
Fixpoint walk (fuel : nat) (all : list slot) (cursor : option nat) : res kv_error (list slot) :=
  match cursor with
  | None => Ok []
  | Some i =>
    match fuel, all !! i with
    | S fuel, Some s => let! l := walk fuel all (s_next s) in Ok (s :: l)
    | _, _ => Err Stuck
    end
  end.

(** Live entries, most recently used first. *)
Definition kv_items (now : Z) (t : kv) : res kv_error (list (K * V)) :=
  let! l := walk (S (length (slots t))) (slots t) (lru_head t) in
  Ok (omap s_held (List.filter (fun s => negb (past now (s_deadline s))) l)).

Definition kv_count_at (now : Z) (t : kv) : res kv_error Z :=
  if negb (past now (next_expiry t)) then Ok (used t)
  else
    let! l := walk (S (length (slots t))) (slots t) (lru_head t) in
    Ok (zlen (List.filter (fun s => negb (past now (s_deadline s))) l)).

Definition kv_contains (k : K) (now : Z) (t : kv) : res kv_error (bool * kv) :=
  let! (found, t) := kv_lookup_live k now t in
  Ok (match found with Some _ => true | None => false end, t).

End kv.

(** ** What the key/value table promises

    The specification of [_native/kv.c] is a list of entries, most recently
    used first, with the log of evicted pairs and the counters.  Whether a
    write drops the expired entries on the way is left open, except at
    capacity, where it must. *)

Section spec.
Context {K V : Type} `{EqDecision K}.

Record entry : Type := mk_entry { e_key : K; e_value : V; e_deadline : time; e_cost : Z }.

Definition weight (E : list entry) : Z := fold_right (fun e n => e_cost e + n) 0 E.

Record lru : Type := mk_lru {
  entries : list entry;
  log : option (list (K * V));
  n_hits : Z;
  n_misses : Z;
  n_evictions : Z;
  n_expirations : Z }.

(** [l_roomy] is whether a table at capacity has room to spare: see
    [lru_room]. *)
Record limits : Type := mk_limits { l_entries : Z; l_bytes : Z; l_ttl : time; l_roomy : bool }.

(** *** Lists of entries *)

Definition is_key (k : K) (e : entry) : bool := bool_decide (e_key e = k).
Definition find_key (k : K) (E : list entry) : option entry := List.find (is_key k) E.
Definition without (k : K) (E : list entry) : list entry := List.filter (fun e => negb (is_key k e)) E.
Definition alive (now : Z) (e : entry) : bool := negb (past now (e_deadline e)).
Definition live (now : Z) (E : list entry) : list entry := List.filter (alive now) E.

Definition with_entries (E : list entry) (X : lru) : lru :=
  mk_lru E (log X) (n_hits X) (n_misses X) (n_evictions X) (n_expirations X).
Definition expire (n : Z) (X : lru) : lru :=
  mk_lru (entries X) (log X) (n_hits X) (n_misses X) (n_evictions X) (n_expirations X + n).
Definition reading (hit : bool) (X : lru) : lru :=
  mk_lru (entries X) (log X) (if hit then n_hits X + 1 else n_hits X) (if hit then n_misses X else n_misses X + 1)
    (n_evictions X) (n_expirations X).
Definition with_log (l : option (list (K * V))) (X : lru) : lru :=
  mk_lru (entries X) l (n_hits X) (n_misses X) (n_evictions X) (n_expirations X).

(** The entry of a key, new or changed, becomes the most recent one. *)
Definition to_front (e : entry) (X : lru) : lru := with_entries (e :: without (e_key e) (entries X)) X.

(** *** Making room *)

Definition lru_evict (X : lru) : lru :=
  match last (entries X) with
  | None => X
  | Some e =>
    mk_lru (removelast (entries X)) (match log X with Some l => Some (l ++ [(e_key e, e_value e)]) | None => None end)
      (n_hits X) (n_misses X) (n_evictions X + 1) (n_expirations X)
  end.

Definition over (M : limits) (X : lru) : bool :=
  (l_entries M <? zlen (entries X)) || (negb (l_bytes M =? 0) && (l_bytes M <? weight (entries X))).

Fixpoint lru_evict_while (n : nat) (P : lru -> bool) (X : lru) : lru :=
  match n with
  | O => X
  | S n => if P X then lru_evict_while n P (lru_evict X) else X
  end.

Definition lru_trim (M : limits) (X : lru) : lru := lru_evict_while (length (entries X)) (over M) X.

Definition lru_clear_out (X : lru) : lru := lru_evict_while (length (entries X)) (fun _ => true) X.

Definition lru_purge (now : Z) (X : lru) : lru :=
  expire (zlen (entries X) - zlen (live now (entries X))) (with_entries (live now (entries X)) X).

Definition lru_room (M : limits) (purges : bool) (now : Z) (X : lru) : lru :=
  let full := l_entries M <=? zlen (entries X) in
  let X := if purges || (full && negb (forallb (alive now) (entries X))) then lru_purge now X else X in
  if zlen (entries X) <? l_entries M then X else if l_roomy M then lru_evict X else lru_clear_out X.

(** *** Operations *)

Inductive op : Type :=
| Get (k : K) (now : Z)
| Peek (k : K) (now : Z)
| Held (k : K)
| Put (k : K) (v : V) (lifetime : option Z) (now : Z) (keep_deadline : bool) (cost : Z)
| Claim (k : K) (v : V) (lifetime : option Z) (now : Z)
| Delete (k : K) (now : Z)
| Pop (k : K) (now : Z)
| Touch (k : K) (lifetime : option Z) (now : Z)
| Purge (now : Z)
| TakeEvicted
| Clear
| Items (now : Z)
| CountAt (now : Z)
| Contains (k : K) (now : Z).

Inductive out : Type :=
| Value (v : option V)
| Flag (b : bool)
| Count (n : Z)
| Pairs (l : list (K * V))
| Done
| Raised (e : kv_error).

Definition deadline_for (M : limits) (lifetime : option Z) (now : Z) : res kv_error time :=
  match lifetime with
  | None => Ok (match l_ttl M with Some s => Some (now + s) | None => None end)
  | Some s => if s <=? 0 then Err BadTtl else Ok (Some (now + s))
  end.

(** The live entry of a key; an expired one is dropped. *)
Definition lru_live (k : K) (now : Z) (X : lru) : option entry * lru :=
  match find_key k (entries X) with
  | None => (None, X)
  | Some e => if past now (e_deadline e) then (None, expire 1 (with_entries (without k (entries X)) X)) else (Some e, X)
  end.

Definition lru_set (M : limits) (purges : bool) (k : K) (v : V) (d : time) (now : Z) (keep : bool) (cost : Z) (X : lru) : lru :=
  match find_key k (entries X) with
  | Some e =>
    let expired := past now (e_deadline e) in
    let X := if expired then expire 1 X else X in
    lru_trim M (to_front (mk_entry k v (if negb expired && keep then e_deadline e else d) cost) X)
  | None => lru_trim M (to_front (mk_entry k v d cost) (lru_room M purges now X))
  end.

(** One operation: its result and the state after it; an error changes
    nothing. *)
Definition lru_step (M : limits) (purges : bool) (o : op) (X : lru) : out * lru :=
  match o with
  | Get k now =>
    match lru_live k now X with
    | (None, X) => (Value None, reading false X)
    | (Some e, X) => (Value (Some (e_value e)), to_front e (reading true X))
    end
  | Peek k now =>
    (Value (match find_key k (entries X) with
            | Some e => if past now (e_deadline e) then None else Some (e_value e) | None => None end), X)
  | Held k => (Value (e_value <$> find_key k (entries X)), X)
  | Put k v lifetime now keep cost =>
    if cost <? 0 then (Raised BadCost, X)
    else match deadline_for M lifetime now with
         | Err e => (Raised e, X)
         | Ok d => (Done, lru_set M purges k v d now keep cost X)
         end
  | Claim k v lifetime now =>
    match deadline_for M lifetime now with
    | Err e => (Raised e, X)
    | Ok d =>
      match lru_live k now X with
      | (Some _, X) => (Flag false, X)
      | (None, X) => (Flag true, to_front (mk_entry k v d 0) (lru_room M purges now X))
      end
    end
  | Delete k now =>
    match lru_live k now X with
    | (None, X) => (Flag false, X)
    | (Some _, X) => (Flag true, with_entries (without k (entries X)) X)
    end
  | Pop k now =>
    match lru_live k now X with
    | (None, X) => (Value None, reading false X)
    | (Some e, X) => (Value (Some (e_value e)), with_entries (without k (entries X)) (reading true X))
    end
  | Touch k lifetime now =>
    match deadline_for M lifetime now with
    | Err e => (Raised e, X)
    | Ok d =>
      match lru_live k now X with
      | (None, X) => (Flag false, X)
      | (Some e, X) => (Flag true, to_front (mk_entry k (e_value e) d (e_cost e)) X)
      end
    end
  | Purge now => (Count (zlen (entries X) - zlen (live now (entries X))), lru_purge now X)
  | TakeEvicted =>
    match log X with None => (Pairs [], X) | Some l => (Pairs l, with_log (Some []) X) end
  | Clear =>
    (Count (zlen (entries X)), with_log (match log X with Some _ => Some [] | None => None end) (with_entries [] X))
  | Items now => (Pairs (map (fun e => (e_key e, e_value e)) (live now (entries X))), X)
  | CountAt now => (Count (zlen (live now (entries X))), X)
  | Contains k now =>
    match lru_live k now X with (found, X) => (Flag (match found with Some _ => true | None => false end), X) end
  end.

(** A sequence of operations, with what each one's purge was. *)
Fixpoint lru_run (M : limits) (choices : list bool) (ops : list op) (X : lru) : list out * lru :=
  match ops with
  | [] => ([], X)
  | o :: ops =>
    let '(r, X) := lru_step M (default false (head choices)) o X in
    let '(rs, X) := lru_run M (tail choices) ops X in (r :: rs, X)
  end.

Definition lru_empty (track : bool) : lru := mk_lru [] (if track then Some [] else None) 0 0 0 0.

End spec.

(** *** The operations of the table, as one step *)

Section table.
Context {K V : Type} `{EqDecision K} (hash : K -> Z).
Abbreviation kv := (kv (K := K) (V := V)).

(** An error leaves the table as it is. *)
Definition answer {A} (t : kv) (f : A -> out (K := K) (V := V)) (r : res kv_error (A * kv)) : out (K := K) (V := V) * kv :=
  match r with Ok (a, t') => (f a, t') | Err e => (Raised e, t) end.

Definition read {A} (t : kv) (f : A -> out (K := K) (V := V)) (r : res kv_error A) : out (K := K) (V := V) * kv :=
  match r with Ok a => (f a, t) | Err e => (Raised e, t) end.

Definition kv_step (o : op (K := K) (V := V)) (t : kv) : out (K := K) (V := V) * kv :=
  match o with
  | Get k now => answer t Value (kv_get hash k now t)
  | Peek k now => read t Value (kv_peek hash k now t)
  | Held k => read t Value (kv_held hash k t)
  | Put k v lifetime now keep cost => match kv_set hash k v lifetime now keep cost t with Ok t' => (Done, t') | Err e => (Raised e, t) end
  | Claim k v lifetime now => answer t Flag (kv_claim hash k v lifetime now t)
  | Delete k now => answer t Flag (kv_delete hash k now t)
  | Pop k now => answer t Value (kv_pop hash k now t)
  | Touch k lifetime now => answer t Flag (kv_touch hash k lifetime now t)
  | Purge now => answer t Count (kv_purge now t)
  | TakeEvicted => let '(l, t) := kv_take_evicted t in (Pairs l, t)
  | Clear => let '(n, t) := kv_clear t in (Count n, t)
  | Items now => read t Pairs (kv_items now t)
  | CountAt now => read t Count (kv_count_at now t)
  | Contains k now => answer t Flag (kv_contains hash k now t)
  end.

Fixpoint kv_run (ops : list (op (K := K) (V := V))) (t : kv) : list (out (K := K) (V := V)) * kv :=
  match ops with
  | [] => ([], t)
  | o :: ops => let '(r, t) := kv_step o t in let '(rs, t) := kv_run ops t in (r :: rs, t)
  end.

Definition limits_of (t : kv) : limits :=
  mk_limits (max_entries t) (max_bytes t) (ttl t) (negb (7 * max_slots t =? 8 * max_entries t)).

End table.
