(* ===== verification/KvRefine.v ===== *)
(** * The probe order of the key/value table

    Every key has a cyclic path of groups.  A full slot lies on its key's path
    with no empty lane before its group, so the probe, which stops at an empty
    lane, finds a key exactly when it is held, and ends when a lane is empty. *)

From stdpp Require Import base sets strings numbers list gmap.
From Stdlib Require Import ZArith Lia.
From S2P Require Import Prelude PyCollections KvTable.
#[local] Open Scope Z_scope.

(** ** Bits *)

Lemma lxor_bound n a b : 0 <= n -> 0 <= a < 2 ^ n -> 0 <= b < 2 ^ n -> 0 <= Z.lxor a b < 2 ^ n.
Proof.
  intros Hn [Ha Ha'] [Hb Hb']. split; [by apply Z.lxor_nonneg|].
  destruct (Z.eq_dec (Z.lxor a b) 0) as [->|Hne]; [lia|].
  apply Z.log2_lt_cancel. rewrite Z.log2_pow2 by done.
  pose proof (Z.log2_lxor a b Ha Hb) as Hl.
  assert (forall x, 0 <= x < 2 ^ n -> 0 < n -> Z.log2 x < n) as Hx.
  { intros x Hx Hpos. destruct (Z.eq_dec x 0) as [->|]; [by cbn|]. apply Z.log2_lt_pow2; lia. }
  destruct (Z.eq_dec n 0) as [->|]; [|specialize (Hx a) as H1; specialize (Hx b) as H2; lia].
  assert (a = 0 /\ b = 0) as [-> ->] by (cbn in *; lia). done.
Qed.

Lemma shiftr_bound n k a : 0 <= k <= n -> 0 <= a < 2 ^ n -> 0 <= Z.shiftr a k < 2 ^ (n - k).
Proof.
  intros Hk Ha. rewrite Z.shiftr_div_pow2 by lia. split; [apply Z.div_pos; lia|].
  apply Z.div_lt_upper_bound; [lia|]. rewrite <- Z.pow_add_r by lia. replace (k + (n - k)) with n by lia. lia.
Qed.

Lemma wrap64_bound z : 0 <= wrap64 z < 2 ^ 64.
Proof. unfold wrap64. apply Z.mod_pos_bound. done. Qed.

Lemma mix_bound h : 0 <= kv_mix h < 2 ^ 64.
Proof.
  assert (forall v k, 0 <= k <= 64 -> 0 <= v < 2 ^ 64 -> 0 <= Z.lxor v (Z.shiftr v k) < 2 ^ 64) as Hx.
  { intros v k Hk Hv. apply lxor_bound; [done..|]. pose proof (shiftr_bound 64 k v Hk Hv).
    pose proof (Z.pow_le_mono_r 2 (64 - k) 64 ltac:(lia) ltac:(lia)). lia. }
  unfold kv_mix. apply Hx; [lia|apply wrap64_bound].
Qed.

(** A tag is never a control value of a free lane. *)
Lemma tag_bound h : 0 <= kv_tag (kv_mix h) < 128.
Proof. exact (shiftr_bound 64 57 _ ltac:(lia) (mix_bound h)). Qed.

(** ** Sizes and groups *)

Definition sized (n : Z) : Prop := exists p, 5 <= p /\ n = 2 ^ p.

Lemma sized_groups n : sized n -> exists m, 0 < m /\ n = 32 * m.
Proof.
  intros (p & Hp & ->). exists (2 ^ (p - 5)). split; [apply Z.pow_pos_nonneg; lia|].
  replace 32 with (2 ^ 5) by done. rewrite <- Z.pow_add_r by lia. f_equal. lia.
Qed.

Lemma land_mask n z : sized n -> Z.land z (n - 1) = z mod n.
Proof.
  intros (p & Hp & ->). replace (2 ^ p - 1) with (Z.ones p) by (rewrite Z.ones_equiv; lia).
  apply Z.land_ones. lia.
Qed.

Lemma land_group z : 0 <= z -> Z.land z (Z.lnot (32 - 1)) = 32 * (z / 32).
Proof.
  intros Hz. replace (32 - 1) with (Z.ones 5) by done. rewrite <- Z.ldiff_land, Z.ldiff_ones_r by lia.
  rewrite Z.shiftl_mul_pow2, Z.shiftr_div_pow2 by lia. change (2 ^ 5) with 32. lia.
Qed.

(** The [j]-th group on the path of a hash. *)
Definition start (n h : Z) : Z := kv_mix h mod n / 32.
Definition path (n h : Z) (j : nat) : nat := Z.to_nat (32 * ((start n h + Z.of_nat j) mod (n / 32))).

Section path.
Variable n : Z.
Hypothesis Hn : sized n.

Lemma groups_pos : 0 < n / 32 /\ n = 32 * (n / 32).
Proof. destruct (sized_groups n Hn) as (m & Hm & ->). rewrite Z.mul_comm, Z.div_mul by lia. lia. Qed.

Lemma start_bound h : 0 <= start n h < n / 32.
Proof.
  destruct groups_pos as [Hp E]. unfold start. pose proof (Z.mod_pos_bound (kv_mix h) n ltac:(lia)).
  split; [apply Z.div_pos; lia|]. apply Z.div_lt_upper_bound; lia.
Qed.

Lemma path_group h j : exists q, 0 <= q < n / 32 /\ path n h j = Z.to_nat (32 * q) /\
  q = (start n h + Z.of_nat j) mod (n / 32).
Proof.
  destruct groups_pos as [Hp _]. eexists. split; [|split; [reflexivity|reflexivity]]. by apply Z.mod_pos_bound.
Qed.

Lemma next_group_path h j : next_group n (path n h j) = path n h (S j).
Proof.
  destruct groups_pos as [Hp E]. unfold next_group. rewrite land_mask by done. unfold path, WREATH_CTRL_GROUP.
  f_equal. rewrite Nat2Z.inj_add, Z2Nat.id.
  2: { pose proof (Z.mod_pos_bound (start n h + Z.of_nat j) (n / 32) Hp). lia. }
  change (Z.of_nat 32) with 32. set (m := n / 32) in *. set (a := start n h).
  replace (32 * ((a + Z.of_nat j) mod m) + 32) with (32 * ((a + Z.of_nat j) mod m + 1)) by lia.
  rewrite E at 1. fold m. rewrite Z.mul_mod_distr_l by lia. f_equal.
  rewrite Z.add_mod_idemp_l by lia. f_equal. lia.
Qed.

(** Every slot lies in a group of the first round of any path. *)
Lemma path_covers h i : (i < Z.to_nat n)%nat -> exists j, (j < Z.to_nat (n / 32))%nat /\ i ∈ lanes (path n h j).
Proof.
  intros Hi. destruct groups_pos as [Hp E]. set (m := n / 32) in *.
  exists (Z.to_nat ((Z.of_nat i / 32 - start n h) mod m)).
  pose proof (Z.mod_pos_bound (Z.of_nat i / 32 - start n h) m Hp) as Hb. split; [lia|].
  unfold path. fold m. rewrite Z2Nat.id by lia.
  assert ((start n h + (Z.of_nat i / 32 - start n h) mod m) mod m = Z.of_nat i / 32) as ->.
  { rewrite Z.add_mod_idemp_r by lia. replace (start n h + (Z.of_nat i / 32 - start n h)) with (Z.of_nat i / 32) by lia.
    apply Z.mod_small. split; [apply Z.div_pos; lia|]. apply Z.div_lt_upper_bound; lia. }
  unfold lanes, WREATH_CTRL_GROUP. rewrite elem_of_seq. pose proof (Z.mul_div_le (Z.of_nat i) 32 ltac:(lia)).
  pose proof (Z.mod_pos_bound (Z.of_nat i) 32 ltac:(lia)). pose proof (Z.div_mod (Z.of_nat i) 32 ltac:(lia)). lia.
Qed.

Lemma path_lanes h j i : i ∈ lanes (path n h j) -> (i < Z.to_nat n)%nat.
Proof.
  destruct groups_pos as [Hp E]. destruct (path_group h j) as (q & Hq & -> & _).
  unfold lanes, WREATH_CTRL_GROUP. rewrite elem_of_seq. lia.
Qed.

(** A slot is in one group. *)
Lemma lanes_group h j i : i ∈ lanes (path n h j) -> path n h j = Z.to_nat (32 * (Z.of_nat i / 32)).
Proof.
  destruct (path_group h j) as (q & Hq & -> & _). unfold lanes, WREATH_CTRL_GROUP. rewrite elem_of_seq. intros Hi.
  do 2 f_equal. apply (Z.div_unique _ _ _ (Z.of_nat i - 32 * q)); lia.
Qed.

Lemma first_group h : Z.to_nat (Z.land (Z.land (kv_mix h) (n - 1)) (Z.lnot (32 - 1))) = path n h 0.
Proof.
  destruct groups_pos as [Hp E]. rewrite land_mask by done. pose proof (mix_bound h) as Hm.
  pose proof (Z.mod_pos_bound (kv_mix h) n ltac:(lia)). rewrite land_group by lia. unfold path.
  rewrite Z.add_0_r, (Z.mod_small (start n h)); [done|]. apply start_bound.
Qed.

End path.

(** ** Lanes *)

Definition full (c : list Z) (i : nat) : Prop := exists b, c !! i = Some b /\ b < 128.

(** Control bytes are tags, [EMPTY] or [DELETED]. *)
Definition control (b : Z) : Prop := 0 <= b < 128 \/ b = WREATH_CTRL_EMPTY \/ b = WREATH_CTRL_DELETED.

Definition no_empty (c : list Z) (group : nat) : Prop := forall i, i ∈ lanes group -> lane_empty c i = false.

(** No empty lane on the path before the group of the slot. *)
Definition clear_before (c : list Z) (h : Z) (i : nat) : Prop :=
  forall j, (forall j', (j' <= j)%nat -> i ∉ lanes (path (zlen c) h j')) -> no_empty c (path (zlen c) h j).

Lemma lane_empty_insert c i b j :
  b <> WREATH_CTRL_EMPTY -> lane_empty c j = false -> lane_empty (<[i := b]> c) j = false.
Proof.
  intros Hb. unfold lane_empty. destruct (decide (i = j)) as [->|Hne]; [|by rewrite list_lookup_insert_ne].
  destruct (decide (j < length c)%nat) as [Hl|Hl].
  - rewrite list_lookup_insert_eq by done. intros _. by apply Z.eqb_neq.
  - by rewrite list_insert_ge by lia.
Qed.

(** Filling or deleting a lane clears no path of its groups. *)
Lemma clear_before_insert c i b h j :
  b <> WREATH_CTRL_EMPTY -> clear_before c h j -> clear_before (<[i := b]> c) h j.
Proof.
  intros Hb Hc k Hk l Hl. unfold zlen in *. rewrite length_insert in *. apply lane_empty_insert; [done|].
  by apply (Hc k Hk).
Qed.

Lemma existsb_false {A} (f : A -> bool) l : existsb f l = false -> forall x, x ∈ l -> f x = false.
Proof.
  intros H x Hx. destruct (f x) eqn:E; [|done]. rewrite <- H. symmetry. apply existsb_exists.
  exists x. by rewrite <- list_elem_of_In.
Qed.

Section kv.
Context {K V : Type} `{EqDecision K} (hash : K -> Z).
Abbreviation slot := (slot (K := K) (V := V)).
Abbreviation kv := (kv (K := K) (V := V)).

(** What a slot holds, without its links. *)
Definition content (s : slot) : option (K * V) * Z * time * Z := (s_held s, s_hash s, s_deadline s, s_cost s).

Definition keyed (sl : list slot) (i : nat) (k : K) : Prop := exists s v, sl !! i = Some s /\ s_held s = Some (k, v).

Record indexed (c : list Z) (sl : list slot) : Prop := {
  idx_length : length sl = length c;
  idx_bytes : forall i b, c !! i = Some b -> control b;
  idx_full : forall i b s, c !! i = Some b -> b < 128 -> sl !! i = Some s ->
    exists k v, s_held s = Some (k, v) /\ s_hash s = hash k /\ b = kv_tag (kv_mix (hash k)) /\
      clear_before c (hash k) i;
  idx_unique : forall i j k, full c i -> full c j -> keyed sl i k -> keyed sl j k -> i = j }.

Lemma indexed_content c sl sl' : map content sl' = map content sl -> indexed c sl -> indexed c sl'.
Proof.
  intros E [Hl Hb Hf Hu].
  assert (forall i s, sl' !! i = Some s -> exists s', sl !! i = Some s' /\ content s' = content s) as Hs.
  { intros i s Hi. assert (content <$> sl' !! i = content <$> sl !! i) as Hc
      by (rewrite <- !list_lookup_fmap; exact (f_equal (fun l => l !! i) E)).
    rewrite Hi in Hc. destruct (sl !! i) as [s'|]; [|done]. exists s'. split; [done|]. change (Some (content s) = Some (content s')) in Hc. congruence. }
  assert (forall i k, keyed sl' i k -> keyed sl i k) as Hk.
  { intros i k (s & v & Hi & Hh). destruct (Hs i s Hi) as (s' & Hi' & Hc). exists s', v. split; [done|].
    unfold content in Hc. congruence. }
  split; [|done| |intros i j k ? ? ?%Hk ?%Hk; by eapply Hu].
  - apply (f_equal length) in E. rewrite !length_map in E. congruence.
  - intros i b s Hi Hlt Hsl. destruct (Hs i s Hsl) as (s' & Hi' & Hc).
    destruct (Hf i b s' Hi Hlt Hi') as (k & v & H1 & H2 & H3 & H4). exists k, v. unfold content in Hc.
    injection Hc as Ec1 Ec2 _ _. split_and!; [by rewrite <- Ec1|by rewrite <- Ec2|done|done].
Qed.

(** ** Probing *)

Section probe.
Variables (t : kv) (k : K).
Hypothesis Hsized : sized (slot_count t).
Hypothesis Hindex : indexed (ctrl t) (slots t).
Hypothesis Hroom : exists i, lane_empty (ctrl t) i = true.

Abbreviation h := (hash k).
Abbreviation tag := (kv_tag (kv_mix h)).
Abbreviation n := (slot_count t).

(** Nothing found in the groups before the [j]-th. *)
Definition searched (j : nat) (candidate : option nat) : Prop :=
  (forall j' i, (j' < j)%nat -> i ∈ lanes (path n h j') -> lane_empty (ctrl t) i = false /\
    lane_holds t k h tag i = false) /\
  (forall i, candidate = Some i -> lane_free (ctrl t) i = true /\ clear_before (ctrl t) h i).

Lemma lane_holds_spec i : lane_holds t k h tag i = true <-> full (ctrl t) i /\ keyed (slots t) i k.
Proof.
  unfold lane_holds, full, keyed. split.
  - destruct (ctrl t !! i) as [b|] eqn:Eb; [|done]. destruct (slots t !! i) as [s|] eqn:Es; [|done].
    rewrite !andb_true_iff, !Z.eqb_eq. intros [[-> Hs] Hk]. pose proof (tag_bound h).
    split; [exists tag; split; [done|lia]|]. destruct (s_held s) as [[k' v]|] eqn:Eh; [|done].
    apply bool_decide_eq_true in Hk as ->. by exists s, v.
  - intros [(b & Hb & Hlt) (s & v & Hs & Hh)]. rewrite Hb, Hs, Hh.
    destruct (idx_full _ _ Hindex i b s Hb Hlt Hs) as (k' & v' & Hh' & Hsh & -> & _).
    rewrite Hh in Hh'. injection Hh' as <- <-. rewrite Hsh, !Z.eqb_refl, bool_decide_eq_true_2; done.
Qed.

(** The first free lane found is one an entry may take. *)
Lemma candidate_clear j i :
  (forall j' l, (j' < j)%nat -> l ∈ lanes (path n h j') -> lane_empty (ctrl t) l = false) ->
  i ∈ lanes (path n h j) -> clear_before (ctrl t) h i.
Proof.
  intros Hj Hi j' Hnot l Hl. apply (Hj j' l); [|done]. destruct (decide (j' < j)%nat) as [|Hge]; [done|].
  exfalso. apply (Hnot j); [lia|done].
Qed.

Lemma probe_loop_spec fuel j candidate :
  (fuel + j = group_count n)%nat -> searched j candidate ->
  (candidate = None -> forall j' i, (j' < j)%nat -> i ∈ lanes (path n h j') -> lane_free (ctrl t) i = false) ->
  (forall i, full (ctrl t) i -> keyed (slots t) i k -> probe_loop fuel t k h tag (path n h j) candidate = Ok (At i)) /\
  ((forall i, full (ctrl t) i -> ~ keyed (slots t) i k) -> exists i,
    probe_loop fuel t k h tag (path n h j) candidate = Ok (Absent i) /\ lane_free (ctrl t) i = true /\
    clear_before (ctrl t) h i).
Proof.
  revert j candidate. induction fuel as [|fuel IH]; intros j candidate Hf [Hs Hc] Hnone.
  { exfalso. destruct Hroom as [e He].
    assert (e < Z.to_nat n)%nat as Hlt.
    { unfold lane_empty in He. destruct (ctrl t !! e) eqn:E; [|done]. apply lookup_lt_Some in E.
      unfold slot_count, zlen. lia. }
    destruct (path_covers n Hsized h e Hlt) as (j' & Hj' & Hl).
    destruct (Hs j' e) as [He' _]; [unfold group_count, WREATH_CTRL_GROUP in Hf; lia|done|congruence]. }
  cbn [probe_loop]. destruct (List.find (lane_holds t k h tag) (lanes (path n h j))) as [i|] eqn:Efind.
  { apply List.find_some in Efind as [Hin Hi]. apply lane_holds_spec in Hi as [Hi1 Hi2]. split.
    - intros i' Hf' Hk'. by rewrite (idx_unique _ _ Hindex i i' k).
    - intros Hno. by destruct (Hno i Hi1). }
  assert (forall i, i ∈ lanes (path n h j) -> lane_holds t k h tag i = false) as Hhere.
  { intros i Hi. by apply (List.find_none _ _ Efind), list_elem_of_In. }
  set (candidate' := match candidate with Some c => Some c | None => List.find (lane_free (ctrl t)) (lanes (path n h j)) end).
  assert (forall i, candidate' = Some i -> lane_free (ctrl t) i = true /\ clear_before (ctrl t) h i) as Hc'.
  { intros i. unfold candidate'. destruct candidate as [c|]; [apply Hc|]. intros [Hin Hi]%List.find_some.
    split; [done|]. apply (candidate_clear j); [intros; by apply (Hs j')|by apply list_elem_of_In]. }
  destruct (existsb (lane_empty (ctrl t)) (lanes (path n h j))) eqn:Eempty.
  - apply existsb_exists in Eempty as (e & Hin & He). apply list_elem_of_In in Hin. split.
    + intros i Hi Hk. exfalso. pose proof (proj2 (lane_holds_spec i) (conj Hi Hk)) as Hholds.
      destruct Hi as (b & Hb & Hlt), Hk as (s & v & Hsl & Hh).
      destruct (idx_full _ _ Hindex i b s Hb Hlt Hsl) as (k' & v' & Hh' & _ & _ & Hclear).
      rewrite Hh in Hh'. injection Hh' as <- <-. specialize (Hclear j).
      assert (lane_empty (ctrl t) e = false) as He'; [|congruence]. apply Hclear; [|done].
      intros j' Hj' Hin'. destruct (decide (j' = j)) as [->|Hne]; [by rewrite Hhere in Hholds|].
      destruct (Hs j' i) as [_ Hf']; [lia|done|congruence].
    + intros _. destruct candidate' as [c|] eqn:Ec.
      * exists c. cbn [default]. split; [done|]. by apply Hc'.
      * exfalso. unfold candidate' in Ec. destruct candidate as [c|]; [done|].
        pose proof (List.find_none _ _ Ec e (proj1 (list_elem_of_In _ _) Hin)) as Hfree.
        unfold lane_empty in He. unfold lane_free in Hfree. destruct (ctrl t !! e) as [b|]; [|done].
        apply Z.eqb_eq in He as ->. done.
  - rewrite next_group_path by done. apply IH; [lia| |].
    + split; [|done]. intros j' i Hj' Hi. destruct (decide (j' = j)) as [->|Hne]; [|apply (Hs j'); [lia|done]].
      split; [by apply (existsb_false _ _ Eempty)|by apply Hhere].
    + unfold candidate'. destruct candidate as [c|]; [done|]. intros Ec j' i Hj' Hi.
      destruct (decide (j' = j)) as [->|Hne]; [|apply (Hnone eq_refl j'); [lia|done]].
      by apply (List.find_none _ _ Ec), list_elem_of_In.
Qed.

Lemma searched_none : searched 0 None.
Proof. split; [intros; lia|done]. Qed.

Lemma group_of_path : group_of t (kv_mix h) = path n h 0.
Proof. unfold group_of. by apply first_group. Qed.

(** The probe finds the key exactly when a full slot holds it, and otherwise a
    free lane where it may be put. *)
Lemma kv_probe_found i : full (ctrl t) i -> keyed (slots t) i k -> kv_probe hash t k = Ok (At i).
Proof.
  intros Hi Hk. unfold kv_probe. destruct (Z.eqb_spec n 0) as [E|_].
  { destruct (groups_pos n Hsized) as [Hp E']. lia. }
  rewrite group_of_path. by apply (probe_loop_spec _ 0 None (Nat.add_0_r _) searched_none); [intros; lia|..].
Qed.

Lemma kv_probe_absent :
  (forall i, full (ctrl t) i -> ~ keyed (slots t) i k) ->
  exists i, kv_probe hash t k = Ok (Absent i) /\ lane_free (ctrl t) i = true /\ clear_before (ctrl t) h i.
Proof.
  intros Hno. unfold kv_probe. destruct (Z.eqb_spec n 0) as [E|_].
  { destruct (groups_pos n Hsized) as [Hp E']. lia. }
  rewrite group_of_path. by apply (probe_loop_spec _ 0 None (Nat.add_0_r _) searched_none); [intros; lia|].
Qed.

End probe.

(** ** Places in a new table *)

Lemma kv_place_loop c h fuel j :
  sized (zlen c) -> (exists i, lane_free c i = true) -> (fuel + j = group_count (zlen c))%nat ->
  (forall j' i, (j' < j)%nat -> i ∈ lanes (path (zlen c) h j') -> lane_free c i = false) ->
  exists i, kv_place fuel c (path (zlen c) h j) = Ok i /\ lane_free c i = true /\ clear_before c h i.
Proof.
  intros Hn [e He]. revert j. induction fuel as [|fuel IH]; intros j Hf Hj.
  { exfalso. assert (e < Z.to_nat (zlen c))%nat as Hlt.
    { unfold lane_free in He. destruct (c !! e) eqn:E; [|done]. apply lookup_lt_Some in E. unfold zlen. lia. }
    destruct (path_covers _ Hn h e Hlt) as (j' & Hj' & Hl).
    rewrite (Hj j' e) in He; [done| |done]. unfold group_count, WREATH_CTRL_GROUP in Hf. lia. }
  cbn [kv_place]. destruct (List.find (lane_free c) (lanes (path (zlen c) h j))) as [i|] eqn:Efind.
  - apply List.find_some in Efind as [Hin Hi]. apply list_elem_of_In in Hin. exists i. split_and!; [done|done|].
    intros j' Hnot l Hl. destruct (decide (j' < j)%nat) as [Hlt|Hge]; [|by destruct (Hnot j ltac:(lia))].
    pose proof (Hj j' l Hlt Hl) as Hfree. unfold lane_free in Hfree. unfold lane_empty.
    destruct (c !! l) as [b|]; [|done]. apply Z.leb_gt in Hfree. apply Z.eqb_neq. unfold WREATH_CTRL_EMPTY. lia.
  - rewrite next_group_path by done. apply IH; [lia|]. intros j' i Hj' Hi.
    destruct (decide (j' = j)) as [->|Hne]; [|apply (Hj j'); [lia|done]].
    by apply (List.find_none _ _ Efind), list_elem_of_In.
Qed.

(** ** Writing one slot *)

(** What may stand in a slot under a control byte. *)
Definition fits_slot (c : list Z) (sl : list slot) (i : nat) (b : Z) (s : slot) : Prop :=
  b = WREATH_CTRL_DELETED \/
  exists k v, s_held s = Some (k, v) /\ s_hash s = hash k /\ b = kv_tag (kv_mix (hash k)) /\
    clear_before c (hash k) i /\ (forall j, j <> i -> full c j -> ~ keyed sl j k).

Lemma full_insert c i b j : full (<[i := b]> c) j <->
  (j = i /\ (i < length c)%nat /\ b < 128) \/ (j <> i /\ full c j).
Proof.
  unfold full. destruct (decide (j = i)) as [->|Hne].
  - destruct (decide (i < length c)%nat) as [Hl|Hl].
    + rewrite list_lookup_insert_eq by done. naive_solver.
    + rewrite list_insert_ge by lia. split; [|naive_solver]. intros (x & Hx & _). apply lookup_lt_Some in Hx. lia.
  - rewrite list_lookup_insert_ne by done. naive_solver.
Qed.

Lemma keyed_insert sl i s j k : (i < length sl)%nat -> keyed (<[i := s]> sl) j k <->
  (j = i /\ exists v, s_held s = Some (k, v)) \/ (j <> i /\ keyed sl j k).
Proof.
  intros Hl. unfold keyed. destruct (decide (j = i)) as [->|Hne].
  - rewrite list_lookup_insert_eq by done. naive_solver.
  - rewrite list_lookup_insert_ne by done. naive_solver.
Qed.

Lemma indexed_write c sl i b s :
  indexed c sl -> (i < length c)%nat -> fits_slot c sl i b s -> indexed (<[i := b]> c) (<[i := s]> sl).
Proof.
  intros [Hl Hb Hf Hu] Hi Hs.
  assert (b <> WREATH_CTRL_EMPTY) as Hne.
  { destruct Hs as [->|(k & v & _ & _ & -> & _)]; [done|]. pose proof (tag_bound (hash k)). unfold WREATH_CTRL_EMPTY. lia. }
  assert (control b) as Hcb.
  { destruct Hs as [->|(k & v & _ & _ & -> & _)]; [by right; right|left; apply tag_bound]. }
  split.
  - by rewrite !length_insert.
  - intros j x. destruct (decide (j = i)) as [->|Hji].
    + rewrite list_lookup_insert_eq by done. by intros [= <-].
    + rewrite list_lookup_insert_ne by done. apply Hb.
  - intros j x s' Hx Hlt Hs'. destruct (decide (j = i)) as [->|Hji].
    + rewrite list_lookup_insert_eq in Hx by done. rewrite list_lookup_insert_eq in Hs' by lia.
      injection Hx as <-. injection Hs' as <-. destruct Hs as [->|(k & v & H1 & H2 & H3 & H4 & _)]; [done|].
      exists k, v. split_and!; [done..|]. by apply clear_before_insert.
    + rewrite list_lookup_insert_ne in Hx by done. rewrite list_lookup_insert_ne in Hs' by done. destruct (Hf j x s' Hx Hlt Hs') as (k & v & H1 & H2 & H3 & H4).
      exists k, v. split_and!; [done..|]. by apply clear_before_insert.
  - intros j1 j2 k H1 H2 K1 K2. rewrite !full_insert in H1, H2. rewrite !keyed_insert in K1, K2 by lia.
    destruct Hs as [->|(k' & v' & Hh & _ & _ & _ & Hno)]; unfold WREATH_CTRL_DELETED in *.
    + destruct H1 as [(_ & _ & ?)|[N1 H1]]; [lia|]. destruct H2 as [(_ & _ & ?)|[N2 H2]]; [lia|].
      destruct K1 as [[? _]|[_ K1]]; [done|]. destruct K2 as [[? _]|[_ K2]]; [done|]. by eapply Hu.
    + destruct K1 as [[-> [v1 E1]]|[N1 K1]], K2 as [[-> [v2 E2]]|[N2 K2]]; [done| | |].
      * destruct H2 as [(? & _)|[_ H2]]; [done|]. destruct (Hno j2 N2 H2). congruence.
      * destruct H1 as [(? & _)|[_ H1]]; [done|]. destruct (Hno j1 N1 H1). congruence.
      * destruct H1 as [(? & _)|[_ H1]]; [done|]. destruct H2 as [(? & _)|[_ H2]]; [done|]. by eapply Hu.
Qed.

End kv.

(** ** Counting control bytes *)

Definition tally (p : Z -> bool) (c : list Z) : Z := zlen (List.filter p c).

Lemma tally_insert p c i old b : c !! i = Some old ->
  tally p (<[i := b]> c) = tally p c - Z.b2z (p old) + Z.b2z (p b).
Proof.
  unfold tally. revert i. induction c as [|x c IH]; intros i Hi; [done|]. destruct i as [|i].
  - injection Hi as ->. cbn [insert list_insert List.filter]. destruct (p old), (p b); cbn [Z.b2z]; rewrite ?zlen_cons; lia.
  - change (<[S i := b]> (x :: c)) with (x :: <[i := b]> c). cbn [List.filter]. specialize (IH i Hi).
    destruct (p x); rewrite ?zlen_cons; lia.
Qed.

Lemma tally_le p c : 0 <= tally p c <= zlen c.
Proof.
  unfold tally, zlen. pose proof (List.filter_length_le p c). lia.
Qed.

Lemma tally_zero p c i b : tally p c = 0 -> c !! i = Some b -> p b = false.
Proof.
  unfold tally. revert i. induction c as [|x c IH]; intros i Hz Hi; [done|]. cbn [List.filter] in Hz.
  destruct (p x) eqn:E; [rewrite zlen_cons in Hz; pose proof (zlen_nonneg (List.filter p c)); lia|].
  destruct i as [|i]; [by injection Hi as <-|by apply (IH i)].
Qed.

Definition is_full (b : Z) : bool := b <? 128.
Definition is_deleted (b : Z) : bool := b =? WREATH_CTRL_DELETED.

(** Fewer full and deleted lanes than lanes: one is empty. *)
Lemma empty_lane c : (forall i b, c !! i = Some b -> control b) ->
  tally is_full c + tally is_deleted c < zlen c -> exists i, lane_empty c i = true.
Proof.
  unfold lane_empty. induction c as [|b c IH]; intros Hc Hlt; [done|].
  destruct (Hc 0%nat b eq_refl) as [Hb|[->| ->]].
  2: { by exists 0%nat. }
  all: destruct IH as [i Hi]; [intros j x; apply (Hc (S j))| |by exists (S i)];
    unfold tally, is_full, is_deleted, WREATH_CTRL_DELETED in *; cbn [List.filter] in Hlt.
  - rewrite (proj2 (Z.ltb_lt b 128)), (proj2 (Z.eqb_neq b 254)), !zlen_cons in Hlt by lia. lia.
  - cbn in Hlt. rewrite !zlen_cons in Hlt. lia.
Qed.

Lemma empty_free c i : lane_empty c i = true -> lane_free c i = true.
Proof. unfold lane_empty, lane_free. destruct (c !! i) as [b|]; [|done]. by intros ->%Z.eqb_eq. Qed.

(** ** The key/value table against its specification

    The specification is a list of entries, most recently used first.  The
    table represents such a list: its recency links thread exactly the full
    slots, its index finds each, its counters are those of the list. *)

#[export] Instance zlen_perm {A} : Proper ((≡ₚ) ==> eq) (@zlen A).
Proof. intros l k E. unfold zlen. by rewrite E. Qed.

(** *** Lists threaded through slots *)

Section links.
Context {K V : Type} `{EqDecision K}.
Abbreviation slot := (slot (K := K) (V := V)).
Abbreviation kv := (kv (K := K) (V := V)).

Record linked (sl : list slot) (hd tl : option nat) (L : list nat) : Prop := {
  linked_nodup : NoDup L;
  linked_head : hd = head L;
  linked_tail : tl = last L;
  linked_at : forall l1 i l2, L = l1 ++ i :: l2 ->
    exists s, sl !! i = Some s /\ s_prev s = last l1 /\ s_next s = head l2 }.

(** The slots but for their links, and everything else, are kept. *)
Definition relinked (t t' : kv) : Prop :=
  exists sl hd tl, t' = set_list hd tl (set_slots (fun _ => sl) t) /\ map content sl = map content (slots t).

Lemma relinked_refl t : relinked t t.
Proof. exists (slots t), (lru_head t), (lru_tail t). by destruct t. Qed.

Lemma relinked_trans t1 t2 t3 : relinked t1 t2 -> relinked t2 t3 -> relinked t1 t3.
Proof. intros (sl & h & l & -> & E) (sl' & h' & l' & -> & E'). exists sl', h', l'. split; [done|]. by rewrite E'. Qed.

Lemma relinked_list (t : kv) h l : relinked t (set_list h l t).
Proof. by exists (slots t), h, l. Qed.

Lemma map_content_alter (f : slot -> slot) i sl :
  (forall s, content (f s) = content s) -> map content (alter f i sl) = map content sl.
Proof.
  intros Hf. apply list_eq. intros j. rewrite <- !list_lookup_fmap || idtac.
  change (map content (alter f i sl)) with (content <$> alter f i sl). change (map content sl) with (content <$> sl).
  rewrite !list_lookup_fmap. destruct (decide (j = i)) as [->|Hne].
  - rewrite list_lookup_alter_eq. destruct (sl !! i); cbn; [|done]. by rewrite Hf.
  - by rewrite list_lookup_alter_ne.
Qed.

Lemma relinked_update (t : kv) i f : (forall s, content (f s) = content s) -> relinked t (update i f t).
Proof. intros Hf. exists (alter f i (slots t)), (lru_head t), (lru_tail t). split; [by destruct t|by apply map_content_alter]. Qed.

(** A slot after its links were changed in place. *)
Lemma lookup_update (t : kv) i f j :
  slots (update i f t) !! j = if decide (j = i) then f <$> slots t !! j else slots t !! j.
Proof.
  unfold update, set_slots. cbn [slots]. case_decide; [subst; apply list_lookup_alter_eq|by apply list_lookup_alter_ne].
Qed.

Lemma slots_set_list h l (t : kv) : slots (set_list h l t) = slots t.
Proof. done. Qed.

Lemma linked_in sl hd tl L i : linked sl hd tl L -> i ∈ L -> exists s, sl !! i = Some s.
Proof. intros H (l1 & l2 & E)%list_elem_of_split. destruct (linked_at _ _ _ _ H l1 i l2 E) as (s & Hs & _). by exists s. Qed.

(** Taking a slot out of the list. *)
Lemma unlink_linked t l1 i l2 :
  linked (slots t) (lru_head t) (lru_tail t) (l1 ++ i :: l2) ->
  let t' := kv_lru_unlink i t in
  linked (slots t') (lru_head t') (lru_tail t') (l1 ++ l2) /\ relinked t t'.
Proof.
  intros H t'. pose proof (linked_nodup _ _ _ _ H) as Hnd.
  destruct (linked_at _ _ _ _ H l1 i l2 eq_refl) as (s & Hs & Hp & Hn).
  unfold t', kv_lru_unlink. rewrite Hs, Hp, Hn.
  set (t1 := match last l1 with Some p => update p (link_next (head l2)) t | None => set_list (head l2) (lru_tail t) t end).
  set (t2 := match head l2 with Some n => update n (link_prev (last l1)) t1 | None => set_list (lru_head t1) (last l1) t1 end).
  assert (relinked t t1) as R1 by (unfold t1; destruct (last l1); [by apply relinked_update|apply relinked_list]).
  assert (relinked t1 t2) as R2 by (unfold t2; destruct (head l2); [by apply relinked_update|apply relinked_list]).
  split; [|eapply relinked_trans; [exact R1|]; eapply relinked_trans; [exact R2|by apply relinked_update]].
  apply NoDup_app in Hnd as (N1 & N12 & N2). apply NoDup_cons in N2 as [Ni N2].
  assert (NoDup (l1 ++ l2)) as Hnd'.
  { apply NoDup_app. split_and!; [done| |done]. intros x Hx Hx'. apply (N12 x Hx). by right. }
  assert (i ∉ l1) as Ni1 by (intros Hi; apply (N12 i Hi); by left).
  (* the slots afterwards *)
  assert (forall j, j <> i -> slots (update i (fun s => link_next None (link_prev None s)) t2) !! j =
    (if decide (head l2 = Some j) then link_prev (last l1) else id) <$>
      ((if decide (last l1 = Some j) then link_next (head l2) else id) <$> slots t !! j)) as Hsl.
  { intros j Hj. rewrite lookup_update, decide_False by done.
    assert (slots t1 !! j = (if decide (last l1 = Some j) then link_next (head l2) else id) <$> slots t !! j) as E1.
    { unfold t1. destruct (last l1) as [p|]; [|rewrite slots_set_list, decide_False by done; by destruct (slots t !! j)].
      rewrite lookup_update. repeat case_decide; try congruence; by destruct (slots t !! j). }
    rewrite <- E1. unfold t2. destruct (head l2) as [n|]; [|rewrite slots_set_list, decide_False by done; by destruct (slots t1 !! j)].
    rewrite lookup_update. repeat case_decide; try congruence; by destruct (slots t1 !! j). }
  split; [done| | |].
  - change (lru_head t2 = head (l1 ++ l2)). assert (lru_head t2 = lru_head t1) as -> by (unfold t2; by destruct (head l2)).
    unfold t1. destruct l1 as [|x l1 _] using rev_ind; [done|]. rewrite last_snoc.
    change (lru_head t = head ((l1 ++ [x]) ++ l2)). rewrite (linked_head _ _ _ _ H). by destruct l1.
  - change (lru_tail t2 = last (l1 ++ l2)). unfold t2. destruct l2 as [|n l2]; [by rewrite app_nil_r|].
    change (lru_tail t1 = last (l1 ++ n :: l2)). assert (lru_tail t1 = lru_tail t) as -> by (unfold t1; by destruct (last l1)).
    rewrite (linked_tail _ _ _ _ H), !last_app. rewrite last_cons_cons. destruct (last (n :: l2)) eqn:E; [done|].
    by apply last_None in E.
  - intros m1 x m2 E.
    assert (x <> i) as Hxi.
    { intros ->. assert (i ∈ l1 ++ l2) as Hi by (rewrite E; set_solver). set_solver. }
    rewrite (Hsl x Hxi).
    assert (forall k, l2 = k ++ x :: m2 -> m1 = l1 ++ k -> exists s', (if decide (head l2 = Some x) then link_prev (last l1) else id) <$>
      ((if decide (last l1 = Some x) then link_next (head l2) else id) <$> slots t !! x) = Some s' /\
      s_prev s' = last m1 /\ s_next s' = head m2) as Hright.
    { intros k E2 ->. destruct (linked_at _ _ _ _ H (l1 ++ i :: k) x m2) as (s0 & Hs0 & Hp0 & Hn0).
      { by rewrite E2, <- app_assoc. }
      assert (last l1 <> Some x) as Hlast.
      { intros Hl%last_Some_elem_of. apply (N12 x Hl). right. rewrite E2. set_solver. }
      rewrite Hs0, (decide_False (P := last l1 = Some x)) by done. cbn [fmap option_fmap option_map id].
      destruct k as [|y k].
      - cbn [app] in E2. subst l2. rewrite decide_True by done. eexists. split; [done|]. by rewrite app_nil_r.
      - subst l2. rewrite decide_False.
        + eexists. split; [done|]. split; [|done]. change (s_prev s0 = last (l1 ++ y :: k)).
          rewrite Hp0, !last_app, last_cons_cons. destruct (last (y :: k)) eqn:El; [done|by apply last_None in El].
        + cbn. intros [= ->]. apply NoDup_cons in N2 as [Hy _]. set_solver. }
    destruct (app_eq_inv _ _ _ _ E) as [(k & E1 & E2)|(k & E1 & E2)]; [|by apply (Hright k)].
    destruct k as [|y k]; [apply (Hright []); [exact (eq_sym E2)|by rewrite app_nil_r in E1 |- *; rewrite E1]|].
    injection E2 as <- ->. clear Hright. destruct (linked_at _ _ _ _ H m1 x (k ++ i :: l2)) as (s0 & Hs0 & Hp0 & Hn0).
    { by rewrite E1, <- app_assoc. }
    assert (head l2 <> Some x) as Hhead.
    { intros Hl%head_Some_elem_of. apply (N12 x); [rewrite E1; set_solver|by right]. }
    rewrite Hs0, (decide_False (P := head l2 = Some x)) by done. destruct k as [|y k].
    + rewrite decide_True by (by rewrite E1, last_snoc). eexists. split; [done|]. done.
    + rewrite decide_False; [by eexists|]. rewrite E1. intros Hl. rewrite last_app, last_cons_cons in Hl.
      rewrite E1 in N1. apply NoDup_app in N1 as (_ & _ & N1). apply NoDup_cons in N1 as [Hx _]. apply Hx.
      destruct (last (y :: k)) eqn:El; [|by apply last_None in El]. injection Hl as ->. by apply last_Some_elem_of in El.
Qed.

(** Putting a slot in front. *)
Lemma push_front_linked t i s L :
  linked (slots t) (lru_head t) (lru_tail t) L -> i ∉ L -> slots t !! i = Some s ->
  let t' := kv_lru_push_front i t in
  linked (slots t') (lru_head t') (lru_tail t') (i :: L) /\ relinked t t'.
Proof.
  intros H Hi Hs t'. unfold t', kv_lru_push_front.
  set (t1 := update i (fun s => link_next (lru_head t) (link_prev None s)) t).
  set (t2 := match lru_head t1 with Some h => update h (link_prev (Some i)) t1 | None => t1 end).
  change (match lru_head t with Some h => update h (link_prev (Some i)) t1 | None => t1 end) with t2.
  assert (relinked t t1) as R1 by by apply relinked_update.
  assert (relinked t1 t2) as R2 by (unfold t2; destruct (lru_head t1); [by apply relinked_update|apply relinked_refl]).
  split; [|eapply relinked_trans; [exact R1|]; eapply relinked_trans; [exact R2|apply relinked_list]].
  pose proof (linked_head _ _ _ _ H) as Hh. pose proof (linked_tail _ _ _ _ H) as Ht.
  assert (lru_tail t2 = last L) as Ht2 by (unfold t2; destruct (lru_head t1); exact Ht).
  assert (forall j, j <> i -> slots t2 !! j = (if decide (head L = Some j) then link_prev (Some i) else id) <$> slots t !! j) as Hsl.
  { intros j Hj. assert (slots t1 !! j = slots t !! j) as E1 by (unfold t1; by rewrite lookup_update, decide_False).
    unfold t2. change (lru_head t1) with (lru_head t). rewrite Hh, <- E1.
    destruct (head L) as [h|]; [|rewrite decide_False by done; by destruct (slots t1 !! j)].
    rewrite lookup_update. repeat case_decide; try congruence; by destruct (slots t1 !! j). }
  split; [apply NoDup_cons; split; [done|apply H]|done| |].
  - cbn [set_list lru_tail]. rewrite Ht2. destruct L as [|x L]; [done|]. rewrite last_cons_cons.
    destruct (last (x :: L)) eqn:E; [done|by apply last_None in E].
  - intros l1 x l2 E. change (slots (set_list (Some i) _ t2)) with (slots t2). destruct l1 as [|y l1]; injection E as <- E.
    + subst l2. exists (link_next (lru_head t) (link_prev None s)). split; [|split; [done|exact Hh]].
      assert (slots t1 !! i = Some (link_next (lru_head t) (link_prev None s))) as E1.
      { unfold t1. by rewrite lookup_update, decide_True, Hs. }
      rewrite <- E1. unfold t2. change (lru_head t1) with (lru_head t). rewrite Hh. destruct (head L) as [h|] eqn:El; [|done].
      rewrite lookup_update, decide_False; [done|]. intros ->. apply Hi. by apply head_Some_elem_of in El.
    + destruct (linked_at _ _ _ _ H l1 x l2 E) as (s0 & Hs0 & Hp0 & Hn0).
      rewrite Hsl by (intros ->; apply Hi; rewrite E; set_solver). rewrite Hs0. destruct l1 as [|z l1].
      * rewrite decide_True by by rewrite E. by eexists.
      * rewrite decide_False; [eexists; split; [done|]; split; [|done]|].
        -- rewrite last_cons_cons. exact Hp0.
        -- rewrite E. cbn. intros [= ->]. pose proof (linked_nodup _ _ _ _ H) as Hnd. rewrite E in Hnd.
           apply NoDup_cons in Hnd as [Hx _]. set_solver.
Qed.

(** Putting a slot behind the last one. *)
Lemma push_back_linked (sl : list slot) hd tl L i s :
  linked sl hd tl L -> i ∉ L -> sl !! i = Some s -> s_prev s = last L -> s_next s = None ->
  linked (match last L with Some l => alter (link_next (Some i)) l sl | None => sl end)
    (match last L with Some _ => hd | None => Some i end) (Some i) (L ++ [i]).
Proof.
  intros H Hi Hs Hp Hn. pose proof (linked_nodup _ _ _ _ H) as Hnd. split.
  - apply NoDup_app. split_and!; [done| |apply NoDup_singleton]. intros x Hx ->%list_elem_of_singleton. done.
  - destruct L as [|x L]; [done|]. rewrite (linked_head _ _ _ _ H). destruct (last (x :: L)) eqn:E; [done|].
    by apply last_None in E.
  - by rewrite last_snoc.
  - intros l1 x l2 E. destruct l2 as [|y l2 _] using rev_ind.
    + apply app_inj_tail in E as [-> <-]. exists s. split; [|done].
      destruct (last l1) as [l|] eqn:El; [|done]. rewrite list_lookup_alter_ne; [done|]. intros ->.
      by apply Hi, last_Some_elem_of.
    + rewrite app_comm_cons, app_assoc in E. apply app_inj_tail in E as [EL <-].
      destruct (linked_at _ _ _ _ H l1 x l2 EL) as (s0 & Hs0 & Hp0 & Hn0).
      assert (exists l, last L = Some l) as [l Hl].
      { destruct (last L) eqn:El; [by eexists|]. apply last_None in El. subst L. by destruct l1. }
      rewrite Hl. destruct (decide (x = l)) as [->|Hne].
      * exists (link_next (Some i) s0). rewrite list_lookup_alter_eq, Hs0. split_and!; [done|exact Hp0|].
        destruct l2 as [|z l2]; [done|]. exfalso. rewrite EL in Hnd, Hl.
        replace (l1 ++ l :: z :: l2) with ((l1 ++ [l]) ++ z :: l2) in Hnd, Hl by by rewrite <- app_assoc.
        rewrite last_app in Hl. destruct (last (z :: l2)) as [w|] eqn:Ew; [|by apply last_None in Ew].
        injection Hl as ->. apply last_Some_elem_of in Ew. apply NoDup_app in Hnd as (_ & N & _). apply (N l); [set_solver|done].
      * exists s0. rewrite list_lookup_alter_ne by done. split_and!; [done..|]. rewrite Hn0. destruct l2 as [|z l2]; [|done].
        exfalso. apply Hne. rewrite EL, last_snoc in Hl. by injection Hl.
Qed.

Lemma relinked_lookup t t' i s : relinked t t' -> slots t !! i = Some s ->
  exists s', slots t' !! i = Some s' /\ content s' = content s.
Proof.
  intros (sl & h & l & -> & E) Hs. assert (content <$> sl !! i = content <$> slots t !! i) as Hc
    by (rewrite <- !list_lookup_fmap; exact (f_equal (fun l => l !! i) E)).
  rewrite Hs in Hc. destruct (sl !! i) as [s'|] eqn:Es; [|done]. exists s'. split; [done|].
  change (Some (content s') = Some (content s)) in Hc. congruence.
Qed.

Lemma touch_linked t l1 i l2 :
  linked (slots t) (lru_head t) (lru_tail t) (l1 ++ i :: l2) ->
  let t' := kv_lru_touch i t in
  linked (slots t') (lru_head t') (lru_tail t') (i :: l1 ++ l2) /\ relinked t t'.
Proof.
  intros H t'. unfold t', kv_lru_touch. destruct (bool_decide_reflect (lru_head t = Some i)) as [Hi|Hi].
  - split; [|apply relinked_refl]. rewrite (linked_head _ _ _ _ H) in Hi. pose proof (linked_nodup _ _ _ _ H) as Hnd.
    destruct l1 as [|x l1]; [done|]. injection Hi as ->. apply NoDup_cons in Hnd as [Hx _]. set_solver.
  - destruct (unlink_linked t l1 i l2 H) as [H1 R1]. cbn zeta in H1, R1.
    destruct (linked_at _ _ _ _ H l1 i l2 eq_refl) as (s & Hs & _).
    destruct (relinked_lookup _ _ _ _ R1 Hs) as (s' & Hs' & _).
    destruct (push_front_linked (kv_lru_unlink i t) i s' (l1 ++ l2) H1) as [H2 R2]; [|done|].
    + pose proof (linked_nodup _ _ _ _ H) as Hnd. apply NoDup_app in Hnd as (_ & N12 & N2).
      apply NoDup_cons in N2 as [Ni _]. intros [Hi1|Hi2]%elem_of_app; [apply (N12 i Hi1); by left|done].
    + split; [exact H2|]. by eapply relinked_trans.
Qed.

End links.

(** *** What a table represents *)

(** Whenever [d] is past, so is [a]. *)
Definition no_later (a d : time) : Prop := forall now, past now d = true -> past now a = true.

Lemma earlier_left a b : no_later (earlier a b) a.
Proof.
  intros now. unfold earlier, past. destruct a as [x|], b as [y|]; try done. rewrite !Z.leb_le. lia.
Qed.

Lemma earlier_right a b : no_later (earlier a b) b.
Proof.
  intros now. unfold earlier, past. destruct a as [x|], b as [y|]; try done. rewrite !Z.leb_le. lia.
Qed.

Lemma no_later_trans a b d : no_later a b -> no_later b d -> no_later a d.
Proof. intros H1 H2 now H. by apply H1, H2. Qed.

Section repr.
Context {K V : Type} `{EqDecision K} (hash : K -> Z).
Abbreviation slot := (slot (K := K) (V := V)).
Abbreviation kv := (kv (K := K) (V := V)).

Abbreviation entry := (entry (K := K) (V := V)).

Definition content_of (e : entry) : option (K * V) * Z * time * Z :=
  (Some (e_key e, e_value e), hash (e_key e), e_deadline e, e_cost e).

Definition holds_entry (t : kv) (i : nat) (e : entry) : Prop := content <$> slots t !! i = Some (content_of e).

Lemma holds_content t i e s : holds_entry t i e -> slots t !! i = Some s -> content s = content_of e.
Proof. unfold holds_entry. intros H Hs. rewrite Hs in H. change (Some (content s) = Some (content_of e)) in H. congruence. Qed.

Record repr (t : kv) (L : list nat) (E : list entry) : Prop := {
  r_linked : linked (slots t) (lru_head t) (lru_tail t) L;
  r_entries : Forall2 (holds_entry t) L E;
  r_full : forall i, full (ctrl t) i <-> i ∈ L;
  r_index : indexed hash (ctrl t) (slots t);
  r_keys : NoDup (map e_key E);
  r_used : used t = zlen E;
  r_tally : tally is_full (ctrl t) = zlen E;
  r_tombstones : tombstones t = tally is_deleted (ctrl t);
  r_bytes : bytes t = weight E;
  r_costs : Forall (fun e => 0 <= e_cost e) E;
  r_expiry : Forall (fun e => no_later (next_expiry t) (e_deadline e)) E;
  r_sized : slot_count t = 0 \/
    (sized (slot_count t) /\ used t + tombstones t < slot_count t /\ slot_count t <= max_slots t);
  r_limits : 1 <= max_entries t /\ sized (max_slots t) /\ max_slots t <= 2 ^ 63 /\ max_entries t * 8 <= 7 * max_slots t }.

Lemma weight_app (E1 E2 : list entry) : weight (E1 ++ E2) = weight E1 + weight E2.
Proof. unfold weight. induction E1 as [|e E1 IH]; cbn; [done|]. rewrite IH. lia. Qed.

#[export] Instance weight_perm : Proper ((≡ₚ) ==> eq) (weight (K := K) (V := V)).
Proof. unfold weight. intros E E'. induction 1; cbn; lia. Qed.

Lemma holds_relinked t t' i e : relinked t t' -> holds_entry t i e -> holds_entry t' i e.
Proof.
  intros R. unfold holds_entry. destruct (slots t !! i) as [s|] eqn:Hs; [|done].
  destruct (relinked_lookup t t' i s R Hs) as (s' & -> & E). cbn. by rewrite E.
Qed.

(** Only the recency order changes. *)
Lemma repr_relinked t t' L E L' E' :
  repr t L E -> relinked t t' -> linked (slots t') (lru_head t') (lru_tail t') L' ->
  Forall2 (holds_entry t) L' E' -> L' ≡ₚ L -> E' ≡ₚ E -> repr t' L' E'.
Proof.
  intros H R Hl H2 HpL HpE. assert (forall i e, holds_entry t i e -> holds_entry t' i e) as Hh
    by (intros; by eapply holds_relinked).
  destruct R as (sl & h & tl & -> & Ec). destruct H. split; cbn [set_list set_slots ctrl slots used tombstones bytes
    max_slots max_entries next_expiry] in *; try done.
  - by eapply Forall2_impl.
  - intros i. rewrite r_full0. by rewrite HpL.
  - by eapply indexed_content.
  - by rewrite HpE.
  - by rewrite HpE.
  - by rewrite HpE.
  - by rewrite HpE.
  - by rewrite HpE.
  - by rewrite HpE.
Qed.

(** Where an entry stands in both lists. *)
Lemma repr_split t L E1 e E2 : repr t L (E1 ++ e :: E2) -> exists l1 i l2, L = l1 ++ i :: l2 /\
  Forall2 (holds_entry t) l1 E1 /\ holds_entry t i e /\ Forall2 (holds_entry t) l2 E2.
Proof.
  intros H. pose proof (r_entries _ _ _ H) as H2. apply Forall2_app_inv_r in H2 as (l1 & l2' & H1 & H2 & ->).
  apply Forall2_cons_inv_r in H2 as (i & l2 & Hi & H2 & ->). by exists l1, i, l2.
Qed.

Lemma repr_touch t l1 i l2 E1 e E2 :
  repr t (l1 ++ i :: l2) (E1 ++ e :: E2) -> Forall2 (holds_entry t) l1 E1 -> holds_entry t i e ->
  Forall2 (holds_entry t) l2 E2 -> repr (kv_lru_touch i t) (i :: l1 ++ l2) (e :: E1 ++ E2).
Proof.
  intros H H1 Hi H2. destruct (touch_linked t l1 i l2 (r_linked _ _ _ H)) as [Hl R].
  eapply repr_relinked; [exact H|exact R|exact Hl| | |].
  - constructor; [done|]. by apply Forall2_app.
  - by rewrite Permutation_middle.
  - by rewrite Permutation_middle.
Qed.

Lemma linked_alter (sl : list slot) hd tl L i f : linked sl hd tl L -> i ∉ L -> linked (alter f i sl) hd tl L.
Proof.
  intros [N Hh Ht Ha] Hi. split; [done..|]. intros l1 j l2 E. destruct (Ha l1 j l2 E) as (s & Hs & Hp & Hn).
  exists s. split; [|done]. rewrite list_lookup_alter_ne; [done|]. intros ->. apply Hi. rewrite E. set_solver.
Qed.

Lemma Forall2_lookup_elem {A B} (R : A -> B -> Prop) l k x : Forall2 R l k -> x ∈ l -> exists y, y ∈ k /\ R x y.
Proof.
  induction 1 as [|a b l k Hab _ IH]; [by intros ?%elem_of_nil|]. intros [->|Hx]%elem_of_cons.
  - exists b. split; [by left|done].
  - destruct (IH Hx) as (y & Hy & ?). exists y. split; [by right|done].
Qed.

Lemma alter_insert (sl : list slot) i f s : sl !! i = Some s -> alter f i sl = <[i := f s]> sl.
Proof.
  intros Hs. apply list_eq. intros j. destruct (decide (j = i)) as [->|Hne].
  - rewrite list_lookup_alter_eq, Hs, list_lookup_insert_eq by by eapply lookup_lt_Some. done.
  - by rewrite list_lookup_alter_ne, list_lookup_insert_ne.
Qed.

Lemma alter_alter (sl : list slot) i f g : alter f i (alter g i sl) = alter (fun s => f (g s)) i sl.
Proof.
  apply list_eq. intros j. destruct (decide (j = i)) as [->|Hne].
  - rewrite !list_lookup_alter_eq. by destruct (sl !! i).
  - by rewrite !list_lookup_alter_ne.
Qed.

Lemma holds_alter (t t' : kv) i f j e : slots t' = alter f i (slots t) -> j <> i -> holds_entry t j e -> holds_entry t' j e.
Proof. unfold holds_entry. intros -> Hne. by rewrite list_lookup_alter_ne. Qed.

Lemma Forall2_holds_alter (t t' : kv) i f l E : slots t' = alter f i (slots t) -> i ∉ l ->
  Forall2 (holds_entry t) l E -> Forall2 (holds_entry t') l E.
Proof.
  intros Hs Hi H. induction H as [|j e l E Hj _ IH]; constructor.
  - eapply holds_alter; [exact Hs| |exact Hj]. intros ->. apply Hi. by left.
  - apply IH. intros Hl. apply Hi. by right.
Qed.

Lemma Forall2_holds_eq (t t' : kv) l E :
  (forall j, j ∈ l -> content <$> slots t' !! j = content <$> slots t !! j) ->
  Forall2 (holds_entry t) l E -> Forall2 (holds_entry t') l E.
Proof.
  intros Hj H. induction H as [|j e l E Hh _ IH]; constructor.
  - unfold holds_entry. rewrite Hj by by left. exact Hh.
  - apply IH. intros x Hx. apply Hj. by right.
Qed.

Lemma repr_lt t L E i : repr t L E -> i ∈ L -> exists b s, ctrl t !! i = Some b /\ b < 128 /\ slots t !! i = Some s /\
  (i < length (ctrl t))%nat.
Proof.
  intros H Hi. destruct (proj2 (r_full _ _ _ H i) Hi) as (b & Hb & Hlt). pose proof (lookup_lt_Some _ _ _ Hb) as Hl.
  destruct (lookup_lt_is_Some_2 (slots t) i) as [s Hs]; [by rewrite (idx_length _ _ _ (r_index _ _ _ H))|].
  by exists b, s.
Qed.

Lemma ctrl_relinked (t t' : kv) : relinked t t' -> ctrl t' = ctrl t.
Proof. by intros (sl & h & l & -> & _). Qed.

Lemma slot_count_relinked (t t' : kv) : relinked t t' -> slot_count t' = slot_count t.
Proof. intros R. unfold slot_count. by rewrite (ctrl_relinked _ _ R). Qed.

Lemma NoDup_middle_notin {A} (l1 l2 : list A) x : NoDup (l1 ++ x :: l2) -> x ∉ l1 ++ l2 /\ NoDup (l1 ++ l2).
Proof. rewrite <- Permutation_middle. by intros [? ?]%NoDup_cons. Qed.

(** Releasing a slot takes its entry out. *)
Lemma repr_release t l1 i l2 E1 e E2 :
  repr t (l1 ++ i :: l2) (E1 ++ e :: E2) -> Forall2 (holds_entry t) l1 E1 -> holds_entry t i e ->
  Forall2 (holds_entry t) l2 E2 -> repr (kv_release i t) (l1 ++ l2) (E1 ++ E2).
Proof.
  intros H H1 Hi H2. destruct (unlink_linked t l1 i l2 (r_linked _ _ _ H)) as [Hl R]. cbn zeta in Hl, R.
  destruct (NoDup_middle_notin l1 l2 i (linked_nodup _ _ _ _ (r_linked _ _ _ H))) as [Ni Nd].
  destruct (repr_lt t _ _ i H ltac:(set_solver)) as (b & s & Hb & Hlt & Hs & Hlen).
  assert (s_cost s = e_cost e) as Hcost.
  { unfold holds_entry in Hi. rewrite Hs in Hi. cbn in Hi. unfold content, content_of in Hi. congruence. }
  unfold kv_release. rewrite Hs, Hcost. set (t1 := kv_lru_unlink i t) in *.
  set (f := fun s : slot => mk_slot None 0 (Some 0) 0 (s_prev s) (s_next s)).
  destruct (relinked_lookup t t1 i s R Hs) as (s1 & Hs1 & _).
  pose proof (ctrl_relinked _ _ R) as Ec.
  assert (Forall2 (holds_entry t1) (l1 ++ l2) (E1 ++ E2)) as HF.
  { apply Forall2_app; (eapply Forall2_impl; [eassumption|]; intros; by eapply holds_relinked). }
  pose proof (Permutation_middle E1 E2 e) as Hperm.
  pose proof (r_keys _ _ _ H) as Hk. pose proof (r_used _ _ _ H) as Hu. pose proof (r_tally _ _ _ H) as Htal.
  pose proof (r_tombstones _ _ _ H) as Htomb. pose proof (r_bytes _ _ _ H) as Hby.
  pose proof (r_costs _ _ _ H) as Hco. pose proof (r_expiry _ _ _ H) as Hex.
  rewrite <- Hperm in Hk, Hu, Htal, Hby, Hco, Hex. cbn [map] in Hk. apply NoDup_cons in Hk as [_ Hk].
  apply Forall_cons in Hco as [_ Hco]. apply Forall_cons in Hex as [_ Hex]. rewrite zlen_cons in Hu, Htal.
  change (weight (e :: E1 ++ E2)) with (e_cost e + weight (E1 ++ E2)) in Hby.
  assert (is_full b = true) as Hfb by by apply Z.ltb_lt.
  assert (is_deleted b = false) as Hdb by (apply Z.eqb_neq; unfold WREATH_CTRL_DELETED; lia).
  destruct R as (sl & hd & tl & Et1 & Ect).
  split; cbn [set_ctrl set_counts update set_slots ctrl slots used tombstones bytes lru_head lru_tail next_expiry max_slots max_entries].
  - by apply linked_alter.
  - by apply (Forall2_holds_alter t1 _ i f).
  - intros j. rewrite Ec, full_insert, (r_full _ _ _ H j). unfold WREATH_CTRL_DELETED. set_unfold. split.
    + intros [(_ & _ & ?)|[Hj Hin]]; [lia|]. naive_solver.
    + intros Hin. right. split; [|naive_solver]. intros ->. tauto.
  - rewrite (alter_insert _ _ _ s1 Hs1), Ec. apply indexed_write; [|done|by left].
    apply (indexed_content _ _ (slots t)); [by rewrite Et1|apply H].
  - done.
  - rewrite Et1. cbn [used set_list set_slots]. lia.
  - rewrite Ec, (tally_insert _ _ _ b) by done. rewrite Hfb. cbn. lia.
  - rewrite Ec, (tally_insert _ _ _ b) by done. rewrite Hdb, Et1. cbn [tombstones set_list set_slots]. cbn. lia.
  - rewrite Et1. cbn [bytes set_list set_slots]. lia.
  - done.
  - by rewrite Et1.
  - unfold slot_count, zlen. cbn [ctrl set_counts set_ctrl update set_slots]. rewrite length_insert, Ec, Et1. cbn [used tombstones max_slots set_list set_slots].
    destruct (r_sized _ _ _ H) as [?|(? & ? & ?)]; [by left|right; split_and!; [done|unfold slot_count, zlen in *; lia|done]].
  - rewrite Et1. apply H.
Qed.

(** A free lane's slot is not in the list. *)
Lemma free_slot t L E i : repr t L E -> lane_free (ctrl t) i = true ->
  i ∉ L /\ exists s, slots t !! i = Some s /\ (i < length (slots t))%nat.
Proof.
  intros H Hfree. unfold lane_free in Hfree. destruct (ctrl t !! i) as [b|] eqn:Hb; [|done]. apply Z.leb_le in Hfree.
  pose proof (lookup_lt_Some _ _ _ Hb) as Hlen. rewrite <- (idx_length _ _ _ (r_index _ _ _ H)) in Hlen. split.
  - rewrite <- (r_full _ _ _ H). intros (x & Hx & ?). rewrite Hb in Hx. injection Hx as <-. lia.
  - destruct (lookup_lt_is_Some_2 (slots t) i Hlen) as [s Hs]. by exists s.
Qed.

(** A free slot has been filled. *)
Lemma repr_filled t L E t' L' E' i s (e : entry) :
  repr t L E -> e_key e ∉ map e_key E -> lane_free (ctrl t) i = true -> clear_before (ctrl t) (hash (e_key e)) i ->
  sized (slot_count t) -> slot_count t <= max_slots t -> used t + tombstones t + 1 < slot_count t -> 0 <= e_cost e ->
  content s = content_of e ->
  ctrl t' = <[i := kv_tag (kv_mix (hash (e_key e)))]> (ctrl t) ->
  map content (slots t') = map content (<[i := s]> (slots t)) ->
  linked (slots t') (lru_head t') (lru_tail t') L' -> Forall2 (holds_entry t') L' E' -> L' ≡ₚ i :: L -> E' ≡ₚ e :: E ->
  used t' = used t + 1 ->
  tombstones t' = (if bool_decide (ctrl t !! i = Some WREATH_CTRL_DELETED) then tombstones t - 1 else tombstones t) ->
  bytes t' = bytes t + e_cost e -> next_expiry t' = earlier (e_deadline e) (next_expiry t) ->
  max_slots t' = max_slots t -> max_entries t' = max_entries t -> repr t' L' E'.
Proof.
  intros H Hk Hfree Hclear Hsz Hmax Hroom Hcost Hcs Hc5 Hsl Hl HF HpL HpE Hu5 Ht5 Hby5 Hx5 Hms5 Hme5.
  set (h := hash (e_key e)) in *. unfold lane_free in Hfree.
  destruct (ctrl t !! i) as [b|] eqn:Hb; [|done]. apply Z.leb_le in Hfree.
  pose proof (lookup_lt_Some _ _ _ Hb) as Hlen.
  assert (i ∉ L) as Hi. { rewrite <- (r_full _ _ _ H). intros (x & Hx & ?). rewrite Hb in Hx. injection Hx as <-. lia. }
  pose proof (tag_bound h) as Htag.
  assert (is_full b = false) as Hfb by (apply Z.ltb_ge; lia).
  assert (is_full (kv_tag (kv_mix h)) = true) as Hft by (apply Z.ltb_lt; lia).
  assert (is_deleted (kv_tag (kv_mix h)) = false) as Hdt by (apply Z.eqb_neq; unfold WREATH_CTRL_DELETED; lia).
  assert (tombstones t' = tally is_deleted (<[i := kv_tag (kv_mix h)]> (ctrl t))) as Htomb.
  { rewrite (tally_insert _ _ _ b) by done. rewrite Hdt, <- (r_tombstones _ _ _ H), Ht5. unfold is_deleted. cbn [Z.b2z].
    destruct (Z.eqb_spec b WREATH_CTRL_DELETED) as [->|Hne].
    - rewrite bool_decide_eq_true_2 by done. cbn. lia.
    - rewrite bool_decide_eq_false_2 by congruence. cbn. lia. }
  split; try done; rewrite ?HpE.
  - intros j. rewrite Hc5, full_insert, (r_full _ _ _ H j), HpL, elem_of_cons.
    split; [intros [(-> & _)|[_ Hj]]; [by left|by right]|].
    intros [->|Hj]; [left; split_and!; [done|done|lia]|]. right. split; [|done]. by intros ->.
  - apply (indexed_content _ _ (<[i := s]> (slots t))); [done|]. rewrite Hc5. apply indexed_write; [apply H|done|].
    right. exists (e_key e), (e_value e). unfold content, content_of in Hcs. split_and!; [congruence|congruence|done..|].
    intros j Hj Hfull (s' & v' & Hs' & Hh').
    pose proof (proj1 (r_full _ _ _ H j) Hfull) as Hin.
    destruct (Forall2_lookup_elem _ _ _ _ (r_entries _ _ _ H) Hin) as (e' & He & Hje).
    pose proof (holds_content _ _ _ _ Hje Hs') as Hc. unfold content, content_of in Hc. apply Hk.
    apply list_elem_of_fmap. exists e'. split; [|done]. congruence.
  - cbn [map]. apply NoDup_cons. split; [done|apply H].
  - rewrite Hu5, zlen_cons, (r_used _ _ _ H). lia.
  - rewrite Hc5, (tally_insert _ _ _ b), Hfb, Hft, (r_tally _ _ _ H), zlen_cons by done. cbn. lia.
  - rewrite Hc5. exact Htomb.
  - rewrite Hby5, (r_bytes _ _ _ H). change (weight (e :: E)) with (e_cost e + weight E). lia.
  - apply Forall_cons. split; [done|exact (r_costs _ _ _ H)].
  - rewrite Hx5. apply Forall_cons. split; [apply earlier_left|].
    eapply Forall_impl; [exact (r_expiry _ _ _ H)|]. cbn. intros y Hy. by eapply no_later_trans; [apply earlier_right|].
  - right. unfold slot_count, zlen in *. rewrite Hc5, length_insert. split_and!; [done| |by rewrite Hms5].
    rewrite Hu5, Ht5. case_bool_decide; lia.
  - rewrite Hms5, Hme5. apply H.
Qed.

(** Filling a free slot puts an entry in front. *)
Lemma repr_insert t L E i k v d cost :
  repr t L E -> k ∉ map e_key E -> lane_free (ctrl t) i = true -> clear_before (ctrl t) (hash k) i ->
  sized (slot_count t) -> slot_count t <= max_slots t -> used t + tombstones t + 1 < slot_count t -> 0 <= cost ->
  repr (kv_insert hash i k v d cost t) (i :: L) (mk_entry k v d cost :: E).
Proof.
  intros H Hk Hfree Hclear Hsz Hmax Hroom Hcost.
  destruct (free_slot t L E i H Hfree) as (Hi & s & Hs & Hlen).
  unfold kv_insert. set (t6 := kv_lru_push_front i _). set (t5 := set_counts _ _ _ _) in t6.
  set (s5 := mk_slot (Some (k, v)) (hash k) d cost None None).
  assert (slots t5 = <[i := s5]> (slots t)) as Hs5.
  { change (slots t5) with (alter (with_deadline d)
      i (alter (fun s : slot => mk_slot (Some (k, v)) (hash k) (s_deadline s) cost None None) i (slots t))).
    by rewrite alter_alter, (alter_insert _ _ _ s) by done. }
  destruct (push_front_linked t5 i s5 L) as [Hl6 R].
  { rewrite Hs5, <- (alter_insert (slots t) i (fun _ => s5) s Hs). by apply linked_alter; [apply H|]. }
  { done. }
  { rewrite Hs5. by apply list_lookup_insert_eq. }
  assert (Forall2 (holds_entry t5) L E) as HF5.
  { apply (Forall2_holds_alter t _ i (fun _ => s5)); [|done|apply H]. by rewrite Hs5, (alter_insert (slots t) i _ s Hs). }
  change (kv_lru_push_front i t5) with t6 in Hl6, R.
  eapply (repr_filled t L E t6 _ _ i s5 (mk_entry k v d cost)); try done;
    destruct R as (sl & hd & tl & -> & Ec); try done; cbn [slots set_list set_slots].
  - by rewrite Ec, Hs5.
  - constructor.
    + unfold holds_entry. cbn [slots set_list set_slots].
      assert (content <$> sl !! i = content <$> slots t5 !! i) as -> by (rewrite <- !list_lookup_fmap; exact (f_equal (fun l => l !! i) Ec)).
      by rewrite Hs5, list_lookup_insert_eq.
    + eapply Forall2_impl; [exact HF5|]. intros j e. apply holds_relinked. by exists sl, hd, tl.
Qed.

Lemma linked_rewrite (sl : list slot) hd tl L i f :
  (forall s, s_prev (f s) = s_prev s /\ s_next (f s) = s_next s) -> linked sl hd tl L -> linked (alter f i sl) hd tl L.
Proof.
  intros Hf [N Hh Ht Ha]. split; [done..|]. intros l1 j l2 E. destruct (Ha l1 j l2 E) as (s & Hs & Hp & Hn).
  destruct (decide (j = i)) as [->|Hne].
  - exists (f s). rewrite list_lookup_alter_eq, Hs. destruct (Hf s) as [-> ->]. done.
  - exists s. by rewrite list_lookup_alter_ne.
Qed.

(** An entry changed in place, its key kept. *)
Lemma repr_rewrite t l1 i l2 E1 e E2 f e' x :
  repr t (l1 ++ i :: l2) (E1 ++ e :: E2) -> Forall2 (holds_entry t) l1 E1 -> holds_entry t i e ->
  Forall2 (holds_entry t) l2 E2 -> (forall s, s_prev (f s) = s_prev s /\ s_next (f s) = s_next s) ->
  (forall s, content s = content_of e -> content (f s) = content_of e') -> e_key e' = e_key e -> 0 <= e_cost e' ->
  no_later x (next_expiry t) -> no_later x (e_deadline e') ->
  let t' := set_expiry x (set_counts (used t) (tombstones t) (bytes t - e_cost e + e_cost e') (update i f t)) in
  repr t' (l1 ++ i :: l2) (E1 ++ e' :: E2) /\ Forall2 (holds_entry t') l1 E1 /\ holds_entry t' i e' /\
    Forall2 (holds_entry t') l2 E2.
Proof.
  intros H H1 Hi H2 Hf Hc Hk Hcost Hx Hx' t'.
  destruct (NoDup_middle_notin l1 l2 i (linked_nodup _ _ _ _ (r_linked _ _ _ H))) as [Ni Nd].
  destruct (repr_lt t _ _ i H ltac:(set_solver)) as (b & s & Hb & Hlt & Hs & Hlen).
  assert (content s = content_of e) as Hcs by by apply (holds_content t i).
  assert (Forall2 (holds_entry t') l1 E1) as H1' by (apply (Forall2_holds_alter t t' i f); [done|set_solver|done]).
  assert (Forall2 (holds_entry t') l2 E2) as H2' by (apply (Forall2_holds_alter t t' i f); [done|set_solver|done]).
  assert (holds_entry t' i e') as Hi'.
  { unfold holds_entry. change (slots t') with (alter f i (slots t)). rewrite list_lookup_alter_eq, Hs. cbn.
    by rewrite Hc. }
  split; [|done]. assert (map e_key (E1 ++ e' :: E2) = map e_key (E1 ++ e :: E2)) as Ekeys by (rewrite !map_app; cbn; by rewrite Hk).
  assert (zlen (E1 ++ e' :: E2) = zlen (E1 ++ e :: E2)) as Elen by (unfold zlen; by rewrite !length_app).
  assert (content (f s) = content_of e') as Hcf by by apply Hc.
  split; cbn [t' set_counts update set_slots set_expiry ctrl slots used tombstones bytes lru_head lru_tail next_expiry max_slots max_entries].
  - apply linked_rewrite; [done|apply H].
  - apply Forall2_app; [done|]. by constructor.
  - apply H.
  - rewrite (alter_insert _ _ _ s Hs), <- (list_insert_id (ctrl t) i b Hb). apply indexed_write; [apply H|done|].
    destruct (idx_full _ _ _ (r_index _ _ _ H) i b s Hb Hlt Hs) as (k & v & G1 & G2 & G3 & G4).
    right. exists k, (e_value e'). unfold content, content_of in Hcf, Hcs. rewrite G1 in Hcs.
    assert (k = e_key e) as -> by congruence. rewrite <- Hk in *. split_and!; [congruence|congruence|done|done|].
    intros j Hj Hfull Hkj. apply Hj. eapply (idx_unique _ _ _ (r_index _ _ _ H)); [done|by exists b|done|].
    exists s, v. split; [done|]. by rewrite G1.
  - rewrite Ekeys. apply H.
  - rewrite Elen. apply H.
  - rewrite Elen. apply H.
  - apply H.
  - rewrite (r_bytes _ _ _ H), !weight_app. cbn. lia.
  - pose proof (r_costs _ _ _ H) as Hco. apply Forall_app in Hco as [? [_ ?]%Forall_cons]. apply Forall_app.
    split; [done|]. by apply Forall_cons.
  - pose proof (r_expiry _ _ _ H) as Hex. apply Forall_app in Hex as [Hx1 [_ Hx2]%Forall_cons].
    apply Forall_app. split; [|apply Forall_cons; split; [done|]];
      (eapply Forall_impl; [eassumption|]; intros y Hy; exact (no_later_trans _ _ _ Hx Hy)).
  - apply H.
  - apply H.
Qed.

(** Replacing a value moves its entry to the front. *)
Lemma repr_replace t l1 i l2 E1 e E2 v d cost :
  repr t (l1 ++ i :: l2) (E1 ++ e :: E2) -> Forall2 (holds_entry t) l1 E1 -> holds_entry t i e ->
  Forall2 (holds_entry t) l2 E2 -> 0 <= cost ->
  repr (kv_replace i v d cost t) (i :: l1 ++ l2) (mk_entry (e_key e) v d cost :: E1 ++ E2).
Proof.
  intros H H1 Hi H2 Hcost. destruct (repr_lt t _ _ i H ltac:(set_solver)) as (b & s & Hb & Hlt & Hs & Hlen).
  assert (content s = content_of e) as Hcs by by apply (holds_content t i).
  destruct (repr_rewrite t l1 i l2 E1 e E2 (fun s => with_cost cost (with_deadline d (with_value v s)))
    (mk_entry (e_key e) v d cost) (earlier d (next_expiry t))) as (H' & H1' & Hi' & H2'); [done..| | | | | |].
  - intros s'. unfold content, content_of. destruct s' as [held ? ? ? ? ?]. cbn. by intros [= -> -> -> ->].
  - done.
  - done.
  - apply earlier_right.
  - apply earlier_left.
  - pose proof (repr_touch _ _ _ _ _ _ _ H' H1' Hi' H2') as Hr.
    assert (s_cost s = e_cost e) as Hc by (unfold content, content_of in Hcs; congruence).
    unfold kv_replace. rewrite Hs, Hc. unfold kv_set_deadline, update, set_slots, set_counts, set_expiry in *.
    cbn [ctrl slots used tombstones max_slots max_entries lru_head lru_tail ttl next_expiry bytes max_bytes evicted hits misses evictions expirations] in *.
    rewrite !alter_alter. exact Hr.
Qed.

(** A new deadline, with the entry moved to the front. *)
Lemma repr_retime t l1 i l2 E1 e E2 d :
  repr t (l1 ++ i :: l2) (E1 ++ e :: E2) -> Forall2 (holds_entry t) l1 E1 -> holds_entry t i e ->
  Forall2 (holds_entry t) l2 E2 ->
  repr (kv_lru_touch i (kv_set_deadline i d t)) (i :: l1 ++ l2) (mk_entry (e_key e) (e_value e) d (e_cost e) :: E1 ++ E2).
Proof.
  intros H H1 Hi H2.
  destruct (repr_rewrite t l1 i l2 E1 e E2 (with_deadline d) (mk_entry (e_key e) (e_value e) d (e_cost e))
    (earlier d (next_expiry t))) as (H' & H1' & Hi' & H2'); [done..| | | | | |].
  - intros s'. unfold content, content_of. destruct s'. cbn. by intros [= -> -> -> ->].
  - done.
  - cbn. pose proof (r_costs _ _ _ H) as Hco. apply Forall_app in Hco as [_ [Hco _]%Forall_cons]. done.
  - apply earlier_right.
  - apply earlier_left.
  - pose proof (repr_touch _ _ _ _ _ _ _ H' H1' Hi' H2') as Hr.
    cbn [e_cost] in Hr. replace (bytes t - e_cost e + e_cost e) with (bytes t) in Hr by lia. exact Hr.
Qed.

End repr.
