(* ===== verification/KvSteps.v ===== *)
(** * Finding, evicting and rebuilding

    The probe against the entry of a key, the eviction loop, the rebuilt table
    (live entries in their order, no tombstone), and the room a write needs. *)

From stdpp Require Import base sets strings numbers list gmap.
From Stdlib Require Import ZArith Lia.
From S2P Require Import Prelude PyCollections KvTable KvRefine.
#[local] Open Scope Z_scope.

Section room.
Context {K V : Type} `{EqDecision K} (hash : K -> Z).
Abbreviation slot := (slot (K := K) (V := V)).
Abbreviation kv := (kv (K := K) (V := V)).
Abbreviation entry := (entry (K := K) (V := V)).
Abbreviation lru := (lru (K := K) (V := V)).

(** ** What no operation on slots changes *)

Definition fixed (t : kv) : Z * Z * time * Z := (max_slots t, max_entries t, ttl t, max_bytes t).
Definition stats (t : kv) : option (list (K * V)) * Z * Z * Z * Z :=
  (evicted t, hits t, misses t, evictions t, expirations t).
Definition framed (t t' : kv) : Prop := fixed t' = fixed t /\ stats t' = stats t.

Lemma stats_inv t a b c d e : stats t = (a, b, c, d, e) ->
  evicted t = a /\ hits t = b /\ misses t = c /\ evictions t = d /\ expirations t = e.
Proof. unfold stats. intros H. split_and!; congruence. Qed.

Lemma framed_trans t1 t2 t3 : framed t1 t2 -> framed t2 t3 -> framed t1 t3.
Proof. intros [A B] [C D]. split; congruence. Qed.

Lemma framed_unlink i t : framed t (kv_lru_unlink i t).
Proof. unfold kv_lru_unlink. destruct (slots t !! i) as [[? ? ? ? [?|] [?|]]|]; done. Qed.

Lemma framed_push_front i t : framed t (kv_lru_push_front i t).
Proof. unfold kv_lru_push_front, update, set_slots. cbn. by destruct (lru_head t). Qed.

Lemma framed_touch i t : framed t (kv_lru_touch i t).
Proof.
  unfold kv_lru_touch. case_bool_decide; [done|]. eapply framed_trans; [apply framed_unlink|apply framed_push_front].
Qed.

Lemma framed_release i t : framed t (kv_release i t).
Proof. exact (framed_unlink i t). Qed.

Lemma framed_replace i v d cost t : framed t (kv_replace i v d cost t).
Proof. unfold kv_replace. eapply framed_trans; [|apply framed_touch]. done. Qed.

Lemma framed_insert i k v d cost t : framed t (kv_insert hash i k v d cost t).
Proof. unfold kv_insert. eapply framed_trans; [|apply framed_push_front]. done. Qed.

Definition stats_of (X : lru) : option (list (K * V)) * Z * Z * Z * Z :=
  (log X, n_hits X, n_misses X, n_evictions X, n_expirations X).

(** The table represents a state of the specification. *)
Definition represents (t : kv) (X : lru) : Prop := (exists L, repr hash t L (entries X)) /\ stats t = stats_of X.

(** ** Entries by key *)

Lemma without_app (k : K) (E1 E2 : list entry) : without k (E1 ++ E2) = without k E1 ++ without k E2.
Proof. apply List.filter_app. Qed.

Lemma without_absent (k : K) (E : list entry) : k ∉ map e_key E -> without k E = E.
Proof.
  unfold without. induction E as [|e E IH]; [done|]. cbn [map List.filter]. intros [Hk Hin]%not_elem_of_cons.
  unfold is_key at 1. rewrite bool_decide_eq_false_2 by done. cbn [negb]. by rewrite IH.
Qed.

Lemma find_key_split k (E : list entry) e : NoDup (map e_key E) -> find_key k E = Some e ->
  exists E1 E2, E = E1 ++ e :: E2 /\ e_key e = k /\ without k E = E1 ++ E2.
Proof.
  unfold find_key. induction E as [|x E IH]; cbn [map List.find]; [done|]. intros [Hx Hn]%NoDup_cons.
  destruct (is_key k x) eqn:Ek.
  - intros [= ->]. unfold is_key in Ek. apply bool_decide_eq_true in Ek as <-. exists [], E. split_and!; [done..|].
    unfold without. cbn [List.filter]. unfold is_key at 1. rewrite bool_decide_eq_true_2 by done.
    cbn [negb]. by apply without_absent.
  - intros Hf. destruct (IH Hn Hf) as (E1 & E2 & -> & Hk & Hw). exists (x :: E1), E2. split_and!; [done..|].
    unfold without in *. cbn [List.filter app]. rewrite Ek. cbn [negb]. by rewrite Hw.
Qed.

Lemma find_key_none k (E : list entry) : find_key k E = None -> k ∉ map e_key E.
Proof.
  intros Hf Hin. apply list_elem_of_fmap in Hin as (e & -> & He).
  pose proof (List.find_none _ _ Hf e (proj1 (list_elem_of_In _ _) He)) as Hk. unfold is_key in Hk.
  by rewrite bool_decide_eq_true_2 in Hk.
Qed.

(** ** The probe *)

Lemma repr_empty_lane (t : kv) L E : repr hash t L E -> slot_count t <> 0 ->
  sized (slot_count t) /\ exists i, lane_empty (ctrl t) i = true.
Proof.
  intros H Hne. destruct (r_sized _ _ _ _ H) as [?|(Hs & Hlt & _)]; [done|]. split; [done|].
  apply empty_lane; [apply (idx_bytes _ _ _ (r_index _ _ _ _ H))|].
  rewrite (r_tally _ _ _ _ H), <- (r_used _ _ _ _ H), <- (r_tombstones _ _ _ _ H). exact Hlt.
Qed.

(** Where the probe lands. *)
Inductive located (t : kv) (L : list nat) (E : list entry) (k : K) : option entry -> res kv_error probed -> Prop :=
| located_at l1 i l2 E1 e E2 : L = l1 ++ i :: l2 -> E = E1 ++ e :: E2 -> Forall2 (holds_entry hash t) l1 E1 ->
    holds_entry hash t i e -> Forall2 (holds_entry hash t) l2 E2 -> e_key e = k -> without k E = E1 ++ E2 ->
    located t L E k (Some e) (Ok (At i))
| located_absent i : k ∉ map e_key E ->
    (slot_count t <> 0 -> lane_free (ctrl t) i = true /\ clear_before (ctrl t) (hash k) i) ->
    located t L E k None (Ok (Absent i)).

Lemma repr_probe (t : kv) L E k : repr hash t L E -> located t L E k (find_key k E) (kv_probe hash t k).
Proof.
  intros H. destruct (find_key k E) as [e|] eqn:Ef.
  - destruct (find_key_split k E e (r_keys _ _ _ _ H) Ef) as (E1 & E2 & -> & Hk & Hw).
    destruct (repr_split _ _ _ _ _ _ H) as (l1 & i & l2 & -> & H1 & Hi & H2).
    destruct (repr_lt _ t _ _ i H ltac:(set_solver)) as (b & s & Hb & Hlt & Hs & Hlen).
    destruct (repr_empty_lane _ _ _ H) as [Hsz Hroom].
    { intros E. apply lookup_lt_Some in Hb. unfold slot_count, zlen in E. lia. }
    rewrite (kv_probe_found hash t k Hsz (r_index _ _ _ _ H) Hroom i).
    + by eapply located_at.
    + by exists b.
    + pose proof (holds_content _ _ _ _ _ Hi Hs) as Hc. exists s, (e_value e). split; [done|].
      unfold content, content_of in Hc. congruence.
  - apply find_key_none in Ef. destruct (Z.eq_dec (slot_count t) 0) as [E0|Hne].
    + unfold kv_probe. rewrite E0. cbn. by apply located_absent.
    + destruct (repr_empty_lane _ _ _ H Hne) as [Hsz Hroom].
      destruct (kv_probe_absent hash t k Hsz (r_index _ _ _ _ H) Hroom) as (i & -> & Hfree & Hclear);
        [|by apply located_absent].
      intros i Hfull (s & v & Hs & Hh). apply Ef.
      destruct (Forall2_lookup_elem _ _ _ _ (r_entries _ _ _ _ H) (proj1 (r_full _ _ _ _ H i) Hfull)) as (e & He & Hie).
      pose proof (holds_content _ _ _ _ _ Hie Hs) as Hc. apply list_elem_of_fmap. exists e. split; [|done].
      unfold content, content_of in Hc. congruence.
Qed.

(** ** Rebuilding *)

Lemma full_count (t : kv) L E : repr hash t L E -> zlen E <= slot_count t.
Proof. intros H. rewrite <- (r_tally _ _ _ _ H). unfold slot_count. pose proof (tally_le is_full (ctrl t)). lia. Qed.

(** An entry moves behind those already moved. *)
Lemma repr_move (n : kv) L E (s : slot) e :
  repr hash n L E -> tombstones n = 0 -> sized (slot_count n) -> slot_count n <= max_slots n ->
  zlen E + 1 < slot_count n -> content s = content_of hash e -> e_key e ∉ map e_key E -> 0 <= e_cost e ->
  exists n' i, move_entry s n = Ok n' /\ repr hash n' (L ++ [i]) (E ++ [e]) /\ tombstones n' = 0 /\
    slot_count n' = slot_count n /\ framed n n'.
Proof.
  intros H Ht Hsz Hmax Hlt Hcs Hk Hcost. pose proof (r_used _ _ _ _ H) as Hu. pose proof (zlen_nonneg E) as Hpos.
  assert (s_hash s = hash (e_key e) /\ s_cost s = e_cost e /\ s_deadline s = e_deadline e /\
    s_held s = Some (e_key e, e_value e)) as (Hh & Hc & Hd & Hheld) by (unfold content, content_of in Hcs; split_and!; congruence).
  destruct (kv_place_loop (ctrl n) (hash (e_key e)) (group_count (slot_count n)) 0) as (i & Hplace & Hfree & Hclear).
  { done. }
  { destruct (repr_empty_lane n L E H) as [_ [i Hi]]; [lia|]. exists i. by apply empty_free. }
  { apply Nat.add_0_r. }
  { intros; lia. }
  unfold move_entry. rewrite Hh. unfold group_of, slot_count. rewrite first_group by done.
  unfold slot_count in Hplace. rewrite Hplace. cbn [res_bind].
  destruct (free_slot _ n L E i H Hfree) as (Hi & s0 & Hs0 & Hlen).
  set (s1 := mk_slot (s_held s) (hash (e_key e)) (s_deadline s) (s_cost s) (lru_tail n) None).
  assert (linked (<[i := s1]> (slots n)) (lru_head n) (lru_tail n) L) as Hl.
  { rewrite <- (alter_insert (slots n) i (fun _ => s1) s0 Hs0). by apply linked_alter; [apply H|]. }
  apply (push_back_linked _ _ _ _ i s1) in Hl; [|done|by apply list_lookup_insert_eq|exact (linked_tail _ _ _ _ (r_linked _ _ _ _ H))|done].
  rewrite <- (linked_tail _ _ _ _ (r_linked _ _ _ _ H)) in Hl.
  eexists _, i. split; [done|]. split.
  - eapply (repr_filled hash n L E _ _ _ i s1 e); try done.
    + lia.
    + unfold content, content_of. cbn. by rewrite Hheld, Hc, Hd.
    + cbn. by destruct (lru_tail n).
    + cbn. destruct (lru_tail n) as [l|]; cbn; rewrite (alter_insert _ _ _ s0 Hs0); [by apply map_content_alter|done].
    + cbn. destruct (lru_tail n) as [l|]; cbn; rewrite (alter_insert (slots n) i _ s0 Hs0); exact Hl.
    + set (n' := set_expiry _ _).
      assert (map content (slots n') = map content (<[i := s1]> (slots n))) as Ec.
      { cbn. destruct (lru_tail n) as [l|]; cbn; rewrite (alter_insert _ _ _ s0 Hs0); [by apply map_content_alter|done]. }
      assert (forall j, content <$> slots n' !! j = content <$> <[i := s1]> (slots n) !! j) as Hj.
      { intros j. rewrite <- !list_lookup_fmap. exact (f_equal (fun l => l !! j) Ec). }
      apply Forall2_app; [|constructor; [|done]].
      * eapply (Forall2_holds_eq hash n n'); [|apply H]. intros j Hin. rewrite Hj, list_lookup_insert_ne; [done|by intros ->].
      * unfold holds_entry. rewrite Hj, list_lookup_insert_eq by done. unfold content, content_of. cbn. by rewrite Hheld, Hc, Hd.
    + by rewrite Permutation_app_comm.
    + by rewrite Permutation_app_comm.
    + cbn. by destruct (lru_tail n).
    + cbn. rewrite Ht. case_bool_decide as Hdel; [|done]. exfalso.
      rewrite (r_tombstones _ _ _ _ H) in Ht. by pose proof (tally_zero _ _ _ _ Ht Hdel).
    + cbn. rewrite Hc. by destruct (lru_tail n).
    + cbn. rewrite Hd. by destruct (lru_tail n).
    + cbn. by destruct (lru_tail n).
    + cbn. by destruct (lru_tail n).
  - split_and!; [done| |cbn; by destruct (lru_tail n)].
    unfold slot_count, zlen. cbn. destruct (lru_tail n); cbn; by rewrite length_insert.
Qed.

Lemma live_cons now (e : entry) E : live now (e :: E) = (if past now (e_deadline e) then [] else [e]) ++ live now E.
Proof. unfold live. cbn [List.filter]. unfold alive at 1. by destruct (past now (e_deadline e)). Qed.

Lemma rebuild_loop_repr (t : kv) L E now :
  repr hash t L E -> forall l2 e2 l1 fuel (n : kv) Ln En gone, L = l1 ++ l2 -> Forall2 (holds_entry hash t) l2 e2 ->
  (length l2 < fuel)%nat -> repr hash n Ln En -> tombstones n = 0 -> sized (slot_count n) -> slot_count n <= max_slots n ->
  zlen En + zlen (live now e2) < slot_count n -> NoDup (map e_key (En ++ e2)) -> Forall (fun e => 0 <= e_cost e) e2 ->
  exists n' L', rebuild_loop fuel (slots t) now (head l2) n gone = Ok (n', gone + (zlen e2 - zlen (live now e2))) /\
    repr hash n' L' (En ++ live now e2) /\ tombstones n' = 0 /\ slot_count n' = slot_count n /\ framed n n'.
Proof.
  intros H. induction l2 as [|i l2 IH]; intros e2 l1 fuel n Ln En gone HL H2 Hf Hn Ht Hsz Hmax Hlt Hk Hc.
  { apply Forall2_nil_inv_l in H2 as ->. exists n, Ln. destruct fuel; cbn; rewrite ?app_nil_r, ?Z.add_0_r; done. }
  apply Forall2_cons_inv_l in H2 as (e & e2' & Hi & H2 & ->). destruct fuel as [|fuel]; [cbn in Hf; lia|].
  destruct (linked_at _ _ _ _ (r_linked _ _ _ _ H) l1 i l2 HL) as (s & Hs & _ & Hnext).
  pose proof (holds_content _ _ _ _ _ Hi Hs) as Hcs. apply Forall_cons in Hc as [Hc0 Hc].
  assert (s_deadline s = e_deadline e) as Hd by (unfold content, content_of in Hcs; congruence).
  cbn [rebuild_loop head]. rewrite Hs, Hd, Hnext. rewrite live_cons in *. destruct (past now (e_deadline e)) eqn:Ep.
  - cbn [app] in *. destruct (IH e2' (l1 ++ [i]) fuel n Ln En (gone + 1)) as (n' & L' & -> & Hr & Ht' & Hsc & Hfr); try done.
    + by rewrite HL, <- app_assoc.
    + cbn in Hf. lia.
    + rewrite map_app in *. cbn [map] in Hk. rewrite <- Permutation_middle in Hk. by apply NoDup_cons in Hk as [_ Hk].
    + exists n', L'. split_and!; try done. rewrite zlen_cons. do 2 f_equal. lia.
  - cbn [app] in Hlt. rewrite zlen_cons in Hlt. pose proof (zlen_nonneg (live now e2')) as Hpos.
    assert (e_key e ∉ map e_key En) as Hke.
    { rewrite map_app in Hk. cbn [map] in Hk. rewrite <- Permutation_middle in Hk. apply NoDup_cons in Hk as [Hk _].
      intros Hin. apply Hk, elem_of_app. by left. }
    destruct (repr_move n Ln En s e Hn Ht Hsz Hmax) as (n1 & j & -> & Hn1 & Ht1 & Hsc1 & Hf1); [lia|done..|].
    cbn [res_bind].
    destruct (IH e2' (l1 ++ [i]) fuel n1 (Ln ++ [j]) (En ++ [e]) gone) as (n' & L' & -> & Hr & Ht' & Hsc & Hfr); try done.
    + by rewrite HL, <- app_assoc.
    + cbn in Hf. lia.
    + by rewrite Hsc1.
    + rewrite Hsc1. destruct Hf1 as [Hf1 _]. unfold fixed in Hf1. assert (max_slots n1 = max_slots n) as -> by congruence. done.
    + rewrite Hsc1, zlen_app. change (zlen [e]) with 1. lia.
    + by rewrite <- app_assoc.
    + exists n', L'. rewrite <- app_assoc in Hr. split_and!; [|done|done|congruence|by eapply framed_trans].
      cbn [app]. rewrite !zlen_cons. do 2 f_equal. lia.
Qed.

Lemma repeat_lookup {A} (x y : A) n i : repeat x n !! i = Some y -> y = x.
Proof. intros H. apply list_elem_of_lookup_2, list_elem_of_In, repeat_spec in H. done. Qed.

Lemma tally_repeat p b n : p b = false -> tally p (repeat b n) = 0.
Proof. intros Hb. unfold tally. induction n as [|n IH]; [done|]. cbn [repeat List.filter]. by rewrite Hb. Qed.

(** A table none of whose lanes is full. *)
Lemma repr_vacant (t : kv) :
  (forall i b, ctrl t !! i = Some b -> b = WREATH_CTRL_EMPTY) -> length (slots t) = length (ctrl t) ->
  lru_head t = None -> lru_tail t = None -> used t = 0 -> tombstones t = 0 -> bytes t = 0 ->
  (slot_count t = 0 \/ sized (slot_count t) /\ slot_count t <= max_slots t) ->
  1 <= max_entries t /\ sized (max_slots t) /\ max_slots t <= 2 ^ 63 /\ max_entries t * 8 <= 7 * max_slots t ->
  repr hash t [] [].
Proof.
  intros He Hl Hh Ht Hu Hd Hb Hs Hlim.
  assert (forall i, ~ full (ctrl t) i) as Hno.
  { intros i (b & Hi & Hlt). apply He in Hi as ->. by unfold WREATH_CTRL_EMPTY in Hlt. }
  assert (forall p, p WREATH_CTRL_EMPTY = false -> tally p (ctrl t) = 0) as Htal.
  { intros p Hp. clear -He Hp. unfold tally. induction (ctrl t) as [|b c IH]; [done|]. cbn [List.filter].
    rewrite (He 0%nat b eq_refl), Hp. apply IH. intros i. exact (He (S i)). }
  split; try done.
  - split; [constructor|done|done|]. intros l1 i l2 E. by destruct l1.
  - intros i. split; [intros Hf; by destruct (Hno i)|by intros ?%elem_of_nil].
  - split; [done| | |intros i j k Hf; by destruct (Hno i)].
    + intros i b Hi. apply He in Hi as ->. right. by left.
    + intros i b s Hi Hlt. destruct (Hno i). by exists b.
  - constructor.
  - by rewrite Htal.
  - by rewrite Hd, Htal.
  - destruct Hs as [?|[Hs Hm]]; [by left|right]. split_and!; [done| |done]. rewrite Hu, Hd. destruct (groups_pos _ Hs). lia.
Qed.

Lemma repr_blank (t : kv) L E target : repr hash t L E -> sized target -> target <= max_slots t ->
  repr hash (blank target t) [] [] /\ slot_count (blank target t) = target.
Proof.
  intros H Hs Hm. destruct (groups_pos _ Hs) as [Hp Eq].
  assert (slot_count (blank target t) = target) as Hc by (unfold slot_count, zlen, blank; cbn; rewrite repeat_length; lia).
  split; [|done]. apply repr_vacant; try done.
  - intros i b. apply repeat_lookup.
  - cbn. by rewrite !repeat_length.
  - right. by rewrite Hc.
  - apply H.
Qed.

(** The rebuilt table holds the live entries, in their order. *)
Lemma repr_rebuild (t : kv) L E target now :
  repr hash t L E -> sized target -> target <= max_slots t -> zlen (live now E) < target ->
  exists n' L', kv_rebuild target now t = Ok (n', zlen E - zlen (live now E)) /\ repr hash n' L' (live now E) /\
    tombstones n' = 0 /\ slot_count n' = target /\ framed t n'.
Proof.
  intros H Hs Hm Hlt. destruct (repr_blank t L E target H Hs Hm) as [Hb Hc]. destruct (groups_pos _ Hs) as [Hp Eq].
  unfold kv_rebuild. destruct (Z.eqb_spec target 0) as [?|_]; [lia|].
  rewrite (linked_head _ _ _ _ (r_linked _ _ _ _ H)).
  destruct (rebuild_loop_repr t L E now H L E [] (Datatypes.S (length (slots t))) (blank target t) [] [] 0)
    as (n' & L' & -> & Hr & Ht & Hsc & Hf); try done.
  - apply H.
  - pose proof (Forall2_length _ _ _ (r_entries _ _ _ _ H)) as Hlen. pose proof (full_count t L E H) as Hfc.
    pose proof (idx_length _ _ _ (r_index _ _ _ _ H)). unfold slot_count, zlen in Hfc. lia.
  - by rewrite Hc.
  - by rewrite Hc.
  - rewrite Hc, zlen_nil. lia.
  - cbn [app]. apply H.
  - apply H.
  - exists n', L'. rewrite Z.add_0_l. split_and!; [done..|congruence|done].
Qed.

(** ** Evicting *)

Definition core (t : kv) :=
  (ctrl t, slots t, used t, tombstones t, max_slots t, max_entries t, lru_head t, lru_tail t, next_expiry t, bytes t).

(** Nothing represented is in the log or the counters. *)
Lemma repr_core (t t' : kv) L E : core t' = core t -> repr hash t L E -> repr hash t' L E.
Proof.
  unfold core. intros [= Ec Es Eu Ed Em Ee Eh El Ex Eb] H. destruct H as [H1 H2 H3 H4 H5 H6 H7 H8 H9 H10 H11 H12 H13].
  split; unfold slot_count in *; rewrite ?Ec, ?Es, ?Eu, ?Ed, ?Em, ?Ee, ?Eh, ?El, ?Ex, ?Eb; try done.
  eapply Forall2_impl; [exact H2|]. unfold holds_entry. intros i e. by rewrite Es.
Qed.

Definition occupied (t : kv) : Z := used t + tombstones t.

(** What eviction keeps. *)
Definition settled (t t' : kv) : Prop := fixed t' = fixed t /\ slot_count t' = slot_count t /\ occupied t' = occupied t.

Lemma settled_trans t1 t2 t3 : settled t1 t2 -> settled t2 t3 -> settled t1 t3.
Proof. intros (A & B & C) (D & E & F). split_and!; congruence. Qed.

Lemma settled_release (t : kv) i : settled t (kv_release i t).
Proof.
  split; [apply framed_release|]. unfold kv_release, slot_count, occupied, kv_lru_unlink, update, zlen.
  destruct (slots t !! i) as [[? ? ? ? [?|] [?|]]|]; cbn; rewrite length_insert; split; (done || lia).
Qed.

Lemma represents_tail (t : kv) X : represents t X ->
  match last (entries X) with None => lru_tail t = None | Some e => exists i, lru_tail t = Some i end.
Proof.
  intros [[L H] _]. pose proof (linked_tail _ _ _ _ (r_linked _ _ _ _ H)) as Ht.
  pose proof (Forall2_length _ _ _ (r_entries _ _ _ _ H)) as Hlen.
  destruct (last (entries X)) as [e|] eqn:El.
  - destruct (last L) as [i|] eqn:EL; [by exists i|]. apply last_None in EL. subst L. destruct (entries X); [done|].
    discriminate.
  - apply last_None in El. rewrite El in Hlen. by destruct L.
Qed.

Lemma represents_evict (t : kv) X : represents t X -> represents (kv_evict_tail t) (lru_evict X) /\ settled t (kv_evict_tail t).
Proof.
  intros HX. pose proof (represents_tail t X HX) as Htail. destruct HX as [[L H] Hst].
  unfold kv_evict_tail, lru_evict. destruct (last (entries X)) as [e|] eqn:El.
  2: { rewrite Htail. split; [split; [by exists L|done]|by repeat split]. }
  destruct Htail as [i Hi]. rewrite Hi. apply last_Some in El as [E HE]. rewrite HE in *.
  destruct (repr_split _ _ _ _ _ _ H) as (l1 & i' & l2 & -> & H1 & Hh & H2).
  apply Forall2_nil_inv_r in H2 as ->.
  assert (i' = i) as ->. { rewrite (linked_tail _ _ _ _ (r_linked _ _ _ _ H)), last_snoc in Hi. by injection Hi. }
  destruct (repr_lt _ t _ _ i H ltac:(set_solver)) as (b & s & _ & _ & Hs & _).
  pose proof (holds_content _ _ _ _ _ Hh Hs) as Hc.
  assert (s_held s = Some (e_key e, e_value e)) as Hheld by (unfold content, content_of in Hc; congruence).
  rewrite removelast_last, Hs, Hheld.
  set (t1 := match evicted t with Some l => set_evicted (Some (l ++ [(e_key e, e_value e)])) t | None => t end).
  assert (match evicted t, Some s with Some l, Some s => set_evicted (Some (l ++ [(e_key e, e_value e)])) t | _, _ => t end = t1) as Et1.
  { unfold t1. by destruct (evicted t). }
  assert (core t1 = core t) as Ecore by (unfold t1; by destruct (evicted t)).
  assert (repr hash (kv_release i t1) l1 E) as Hr.
  { pose proof (repr_release hash t1 l1 i [] E e []) as Hrel. rewrite !app_nil_r in Hrel.
    assert (slots t1 = slots t) as Es by (unfold core in Ecore; congruence).
    apply Hrel; [by eapply repr_core| | |done].
    - eapply Forall2_impl; [exact H1|]. unfold holds_entry. intros j y. by rewrite Es.
    - unfold holds_entry. by rewrite Es. }
  split.
  - split; [exists l1; by eapply repr_core; [|exact Hr]|].
    destruct (framed_release i t1) as [_ (F1 & F2 & F3 & F4 & F5)%stats_inv].
    apply stats_inv in Hst as (G1 & G2 & G3 & G4 & G5).
    change ((evicted (kv_release i t1), hits (kv_release i t1), misses (kv_release i t1), evictions (kv_release i t1) + 1,
      expirations (kv_release i t1)) = (match log X with Some l => Some (l ++ [(e_key e, e_value e)]) | None => None end,
      n_hits X, n_misses X, n_evictions X + 1, n_expirations X)).
    rewrite F1, F2, F3, F4, F5, <- G1, <- G2, <- G3, <- G4, <- G5. unfold t1. by destruct (evicted t) eqn:Eev; cbn; rewrite ?Eev.
  - assert (settled t t1) as Hs1 by (unfold t1; by destruct (evicted t)).
    exact (settled_trans _ _ _ Hs1 (settled_release t1 i)).
Qed.

Lemma length_removelast {A} (l : list A) : length (removelast l) = pred (length l).
Proof. by rewrite removelast_firstn_len, length_take, Nat.min_l by lia. Qed.

Lemma entries_evict (X : lru) : entries (lru_evict X) = removelast (entries X).
Proof. unfold lru_evict. destruct (last (entries X)) eqn:E; [done|]. by apply last_None in E as ->. Qed.

Lemma evict_while_represents cond P n : forall fuel (t : kv) (X : lru),
  represents t X -> n = length (entries X) -> (n < fuel)%nat ->
  (forall t' X', represents t' X' -> settled t t' -> cond t' = P X') ->
  represents (evict_while fuel cond t) (lru_evict_while n P X) /\ settled t (evict_while fuel cond t).
Proof.
  induction n as [|n IH]; intros fuel t X HX Hn Hf Hcond; destruct fuel as [|fuel]; try lia;
    pose proof (represents_tail t X HX) as Htail; cbn [evict_while lru_evict_while].
  - destruct (entries X); [|done]. cbn in Htail. rewrite Htail. done.
  - destruct (last (entries X)) as [e|] eqn:El; [|apply last_None in El; by rewrite El in Hn].
    destruct Htail as [i ->]. rewrite (Hcond t X HX) by done. destruct (P X); [|done].
    destruct (represents_evict t X HX) as [HX' Hs].
    destruct (IH fuel (kv_evict_tail t) (lru_evict X) HX') as [H1 H2].
    + rewrite entries_evict, length_removelast, <- Hn. done.
    + lia.
    + intros t' X' H' Hs'. apply Hcond; [done|by eapply settled_trans].
    + split; [done|by eapply settled_trans].
Qed.

Lemma evict_while_stop cond fuel (t : kv) : cond t = false -> evict_while fuel cond t = t.
Proof. intros Hc. destruct fuel as [|fuel]; [done|]. cbn. rewrite Hc. by destruct (lru_tail t). Qed.

Lemma represents_fuel (t : kv) X : represents t X -> (length (entries X) < Datatypes.S (length (slots t)))%nat.
Proof.
  intros [[L H] _]. pose proof (full_count t L _ H) as Hfc. pose proof (idx_length _ _ _ (r_index _ _ _ _ H)).
  unfold slot_count, zlen in Hfc. lia.
Qed.

Lemma limits_fixed (t t' : kv) : fixed t' = fixed t -> limits_of t' = limits_of t.
Proof. unfold fixed, limits_of. intros [= -> -> -> ->]. done. Qed.

Lemma represents_used (t : kv) X : represents t X -> used t = zlen (entries X) /\ bytes t = weight (entries X).
Proof. intros [[L H] _]. by destruct H. Qed.

(** The budget is enforced. *)
Lemma represents_trim (t : kv) X : represents t X ->
  represents (kv_enforce_budget t) (lru_trim (limits_of t) X) /\ settled t (kv_enforce_budget t).
Proof.
  intros HX. apply evict_while_represents; [done|done|by apply represents_fuel|].
  intros t' X' HX' (Hf & _). destruct (represents_used _ _ HX') as [Hu Hb]. unfold over_budget, over. rewrite Hu, Hb.
  unfold fixed in Hf. cbn [l_entries l_bytes limits_of]. by replace (max_entries t') with (max_entries t) by congruence;
    replace (max_bytes t') with (max_bytes t) by congruence.
Qed.

(** ** Room for one more *)

Lemma sized_double n m : sized n -> sized m -> n < m -> sized (2 * n) /\ 2 * n <= m.
Proof.
  intros (p & Hp & ->) (q & Hq & ->) Hlt. apply Z.pow_lt_mono_r_iff in Hlt; [|lia..].
  rewrite <- Z.pow_succ_r by lia. split; [exists (Z.succ p); split; [lia|done]|]. apply Z.pow_le_mono_r; lia.
Qed.

Lemma sized_min n : sized n -> 32 <= n.
Proof. intros (p & Hp & ->). change 32 with (2 ^ 5). apply Z.pow_le_mono_r; lia. Qed.

Lemma grown_spec u limit : sized limit -> limit <= 2 ^ 63 -> forall fuel target, sized target -> target <= limit ->
  2 ^ 63 <= target * 2 ^ Z.of_nat fuel ->
  let T := grown fuel u target limit in sized T /\ T <= limit /\ (WREATH_KV_FITS u T = true \/ T = limit).
Proof.
  intros Hl Hmax. induction fuel as [|fuel IH]; intros target Ht Hle Hf; cbn [grown].
  - split_and!; [done..|]. right. cbn in Hf. lia.
  - destruct (WREATH_KV_FITS u target) eqn:Ef; cbn [negb andb]; [by split_and!; [..|left]|].
    destruct (Z.ltb_spec target limit) as [Hlt|Hge]; [|split_and!; [done..|right; lia]].
    destruct (sized_double target limit Ht Hl Hlt) as [Hd Hd']. apply IH; [done..|].
    rewrite Nat2Z.inj_succ, Z.pow_succ_r in Hf by lia. lia.
Qed.

Lemma live_length now (E : list entry) : zlen (live now E) <= zlen E.
Proof. unfold live, zlen. pose proof (List.filter_length_le (alive now) E). lia. Qed.

Lemma all_alive now (E : list entry) : forallb (alive now) E = true -> live now E = E.
Proof.
  unfold live. induction E as [|e E IH]; [done|]. cbn [forallb List.filter]. intros [He HE]%andb_true_iff.
  rewrite He. by rewrite IH.
Qed.

(** At capacity there is room to spare unless the sizes are in the ratio 7/8. *)
Lemma room_to_spare m e : sized m -> e * 8 <= 7 * m -> (e + 1) * 8 <= 7 * m \/ 7 * m = 8 * e.
Proof. intros Hs He. destruct (sized_groups m Hs) as (g & _ & ->). lia. Qed.

(** What the table gives a write that needs a lane. *)
Definition ready (t : kv) : Prop :=
  sized (slot_count t) /\ slot_count t <= max_slots t /\ occupied t + 1 < slot_count t.

Lemma fits_ready (t : kv) L E : repr hash t L E -> WREATH_KV_FITS (occupied t) (slot_count t) = true -> ready t.
Proof.
  unfold WREATH_KV_FITS, ready, occupied. intros H Hf%Z.leb_le. pose proof (r_used _ _ _ _ H) as Hu.
  pose proof (zlen_nonneg E). pose proof (r_tombstones _ _ _ _ H). pose proof (tally_le is_deleted (ctrl t)).
  destruct (r_sized _ _ _ _ H) as [?|(? & _ & ?)]; [lia|]. split_and!; [done..|lia].
Qed.

(** A rebuild: the live entries, then the eviction the capacity asks for. *)
Section rebuilt.
Variables (t : kv) (X : lru) (now : Z).
Hypothesis HX : represents t X.
Hypothesis Hcap : zlen (entries X) <= max_entries t.

Abbreviation T := (rebuild_target t).

Lemma represents_limits : 1 <= max_entries t /\ sized (max_slots t) /\ max_slots t <= 2 ^ 63 /\
  max_entries t * 8 <= 7 * max_slots t.
Proof. destruct HX as [[L H] _]. apply H. Qed.

Lemma rebuild_target_spec : sized T /\ T <= max_slots t /\
  (WREATH_KV_FITS (zlen (entries X)) T = true \/ T = max_slots t).
Proof.
  destruct represents_limits as (_ & Hs & Hm & _). destruct (represents_used _ _ HX) as [<- _].
  destruct HX as [[L H] _]. unfold rebuild_target.
  assert (sized (if slot_count t =? 0 then Z.of_nat WREATH_CTRL_GROUP else slot_count t) /\
    (if slot_count t =? 0 then Z.of_nat WREATH_CTRL_GROUP else slot_count t) <= max_slots t) as [Ha Hb].
  { destruct (Z.eqb_spec (slot_count t) 0) as [?|?].
    - split; [exists 5; split; [lia|done]|]. pose proof (sized_min _ Hs). unfold WREATH_CTRL_GROUP. lia.
    - destruct (r_sized _ _ _ _ H) as [?|(? & _ & ?)]; done. }
  apply (grown_spec (used t) (max_slots t) Hs Hm 64); [done..|]. pose proof (sized_min _ Ha).
  change (2 ^ Z.of_nat 64) with (2 * 2 ^ 63). lia.
Qed.

Lemma rebuilt_represents : exists t1, kv_rebuild T now t = Ok (t1, zlen (entries X) - zlen (live now (entries X))) /\
  let t2 := count_expirations (zlen (entries X) - zlen (live now (entries X))) t1 in
  represents t2 (lru_purge now X) /\ fixed t2 = fixed t /\ slot_count t2 = T /\ occupied t2 = zlen (live now (entries X)).
Proof.
  destruct rebuild_target_spec as (Hs & Hm & Hor). destruct represents_limits as (H1 & Hsm & Hmm & H8).
  pose proof (live_length now (entries X)) as Hlive. pose proof (sized_min _ Hs) as Hmin.
  destruct HX as [[L H] Hst].
  destruct (repr_rebuild t L (entries X) T now H Hs Hm) as (t1 & L' & E1 & Hr & Ht & Hsc & Hfr & Hst1).
  { destruct Hor as [Hf| ->]; [unfold WREATH_KV_FITS in Hf; apply Z.leb_le in Hf; lia|]. pose proof (sized_min _ Hsm). lia. }
  exists t1. split; [done|]. cbn zeta. split_and!; [|done|done|].
  - split; [exists L'; exact (repr_core t1 (count_expirations _ t1) L' _ eq_refl Hr)|].
    rewrite Hst in Hst1. apply stats_inv in Hst1 as (F1 & F2 & F3 & F4 & F5).
    unfold stats, stats_of. cbn. by rewrite F1, F2, F3, F4, F5.
  - unfold occupied. cbn. rewrite Ht, (r_used _ _ _ _ Hr). lia.
Qed.

Lemma rebuilt_room : exists t1, (let! (t1, expired) := kv_rebuild T now t in
    Ok (evict_while (Datatypes.S (length (slots t1))) crowded (count_expirations expired t1))) = Ok t1 /\
  represents t1 (lru_room (limits_of t) true now X) /\ fixed t1 = fixed t /\ ready t1.
Proof.
  destruct rebuild_target_spec as (Hs & Hm & Hor). destruct represents_limits as (H1 & Hsm & Hmm & H8).
  destruct rebuilt_represents as (t0 & -> & HX2 & Hf2 & Hsc2 & Hocc2). cbn [res_bind]. cbn zeta in *.
  set (gone := zlen (entries X) - zlen (live now (entries X))) in *.
  set (t2 := count_expirations gone t0) in *. change (slots t0) with (slots t2).
  eexists. split; [done|]. unfold lru_room. cbn [orb limits_of l_entries l_roomy].
  change (entries (lru_purge now X)) with (live now (entries X)). set (u := zlen (live now (entries X))) in *.
  pose proof (live_length now (entries X)) as Hlive. fold u in Hlive.
  destruct (represents_used _ _ HX2) as [Hu2 _]. change (entries (lru_purge now X)) with (live now (entries X)) in Hu2. fold u in Hu2.
  assert (max_entries t2 = max_entries t /\ max_slots t2 = max_slots t) as [Eme Ems] by (unfold fixed in Hf2; split; congruence).
  assert (forall t', settled t2 t' -> fixed t' = fixed t /\ max_slots t' = max_slots t) as Hset.
  { intros t' (A & _ & _). unfold fixed in *. split; congruence. }
  destruct (Z.ltb_spec u (max_entries t)) as [Hlt|Hge].
  - assert (WREATH_KV_FITS u T = true) as Hfits.
    { destruct Hor as [Hf| ->]; unfold WREATH_KV_FITS in *; apply Z.leb_le; [apply Z.leb_le in Hf|]; lia. }
    assert (crowded t2 = false) as Hc.
    { unfold crowded. fold (occupied t2). rewrite Hu2, Eme, Hocc2, Hsc2, Hfits. cbn. rewrite orb_false_r. by apply Z.leb_gt. }
    rewrite evict_while_stop by done. split_and!; [done..|]. destruct HX2 as [[L2 H2] _].
    apply (fits_ready t2 L2 _ H2). by rewrite Hocc2, Hsc2.
  - assert (u = max_entries t) as Hu by lia. destruct (room_to_spare _ _ Hsm H8) as [Hroomy|Htight].
    + rewrite (proj2 (Z.eqb_neq _ _)) by lia. cbn [negb].
      assert (WREATH_KV_FITS (max_entries t) T = true) as Hfits.
      { destruct Hor as [Hf| ->]; unfold WREATH_KV_FITS in *; apply Z.leb_le; [apply Z.leb_le in Hf|]; lia. }
      destruct (represents_evict t2 _ HX2) as [HX3 Hs3].
      assert (evict_while (Datatypes.S (length (slots t2))) crowded t2 = kv_evict_tail t2) as ->.
      { cbn [evict_while]. pose proof (represents_tail _ _ HX2) as Htail.
        change (entries (lru_purge now X)) with (live now (entries X)) in Htail.
        destruct (last (live now (entries X))) eqn:El.
        2: { apply last_None in El. unfold u in Hu. rewrite El, zlen_nil in Hu. lia. }
        destruct Htail as [i ->]. unfold crowded at 1. rewrite Hu2, Eme, (proj2 (Z.leb_le _ _)) by lia. cbn [orb].
        apply evict_while_stop. destruct (represents_used _ _ HX3) as [Hu3 _]. destruct Hs3 as (A & B & C).
        unfold crowded. fold (occupied (kv_evict_tail t2)). rewrite Hu3, C, B, Hocc2, Hsc2, Hu, Hfits.
        rewrite entries_evict. cbn [negb]. rewrite orb_false_r. apply Z.leb_gt. unfold zlen. rewrite length_removelast.
        change (entries (lru_purge now X)) with (live now (entries X)). unfold fixed in A. unfold u, zlen in Hu.
        replace (max_entries (kv_evict_tail t2)) with (max_entries t) by congruence. lia. }
      destruct (Hset _ Hs3) as [Hf3 Hm3]. split_and!; [done..|]. destruct HX3 as [[L3 H3] _].
      destruct Hs3 as (A & B & C). apply (fits_ready _ L3 _ H3). by rewrite B, C, Hocc2, Hsc2, Hu.
    + rewrite (proj2 (Z.eqb_eq _ _)) by lia. cbn [negb].
      assert (T = max_slots t) as HT.
      { destruct Hor as [Hf|?]; [|done]. unfold WREATH_KV_FITS in Hf. apply Z.leb_le in Hf. lia. }
      destruct (evict_while_represents crowded (fun _ => true) _ (Datatypes.S (length (slots t2))) t2 _ HX2 eq_refl)
        as [HX3 Hs3]; [by apply represents_fuel| |].
      * intros t' X' _ (A & B & C). unfold crowded. fold (occupied t'). rewrite B, C, Hocc2, Hsc2, Hu, HT.
        unfold WREATH_KV_FITS. rewrite (proj2 (Z.leb_gt (_ * 8) _)) by lia. by rewrite orb_true_r.
      * destruct (Hset _ Hs3) as [Hf3 Hm3]. split_and!; [done|done|].
        destruct Hs3 as (A & B & C). unfold ready. rewrite B, C, Hm3, Hocc2, Hsc2, Hu, HT.
        pose proof (sized_min _ Hsm). split_and!; [done|lia|lia].
Qed.

End rebuilt.

(** Making room is what the specification says, for one of its choices. *)
Lemma ensure_room_represents (t : kv) X now : represents t X -> zlen (entries X) <= max_entries t ->
  exists b t', kv_ensure_room now t = Ok t' /\ represents t' (lru_room (limits_of t) b now X) /\ fixed t' = fixed t /\
    ready t'.
Proof.
  intros HX Hcap. destruct (represents_limits t X HX) as (H1 & Hsm & Hmm & H8).
  destruct (rebuilt_room t X now HX Hcap) as (t1 & Hreb & HX1 & Hf1 & Hr1).
  destruct (represents_used _ _ HX) as [Hu _]. unfold kv_ensure_room. fold (occupied t).
  destruct (WREATH_KV_FITS (occupied t) (slot_count t)) eqn:Hfits; [|by exists true, t1].
  assert (ready t) as Hr by (destruct HX as [[L H] _]; by eapply fits_ready).
  destruct (Z.ltb_spec (used t) (max_entries t)) as [Hlt|Hge].
  - exists false, t. split_and!; try done. unfold lru_room. cbn [orb limits_of l_entries].
    rewrite (proj2 (Z.leb_gt _ _)) by lia. cbn [andb]. by rewrite (proj2 (Z.ltb_lt _ _)) by lia.
  - destruct (past now (next_expiry t)) eqn:Ep; cbn [negb]; [by exists true, t1|].
    assert (forallb (alive now) (entries X) = true) as Hall.
    { destruct HX as [[L H] _]. apply forallb_forall. intros e He%list_elem_of_In.
      pose proof (proj1 (Forall_forall _ _) (r_expiry _ _ _ _ H) e He now) as Hx. unfold alive.
      destruct (past now (e_deadline e)); [|done]. by rewrite Hx in Ep. }
    destruct (represents_evict t X HX) as [HX' (A & B & C)]. exists false, (kv_evict_tail t). split_and!; [done| |done|].
    + unfold lru_room. cbn [orb limits_of l_entries l_roomy]. rewrite Hall. cbn [negb]. rewrite andb_false_r.
      rewrite (proj2 (Z.ltb_ge _ _)) by lia. rewrite (proj2 (Z.eqb_neq _ _)); [done|].
      unfold WREATH_KV_FITS in Hfits. apply Z.leb_le in Hfits. destruct Hr as (_ & Hle & _).
      destruct HX as [[L H] _]. pose proof (r_tombstones _ _ _ _ H). pose proof (tally_le is_deleted (ctrl t)).
      unfold occupied in Hfits. lia.
    + unfold ready. rewrite B, C. unfold fixed in A. by replace (max_slots (kv_evict_tail t)) with (max_slots t) by congruence.
Qed.

End room.

(** ** Every operation of the key/value table refines its specification

    One lemma per operation of [kv.c], then the step and the runs. *)

Section steps.
Context {K V : Type} `{EqDecision K} (hash : K -> Z).
Abbreviation kv := (kv (K := K) (V := V)).
Abbreviation entry := (entry (K := K) (V := V)).
Abbreviation lru := (lru (K := K) (V := V)).
Abbreviation represents := (represents hash).

(** Where a held entry is. *)
Inductive placed (t : kv) (E : list entry) (i : nat) (e : entry) : Prop :=
  placed_intro l1 l2 E1 E2 : repr hash t (l1 ++ i :: l2) E -> E = E1 ++ e :: E2 ->
    Forall2 (holds_entry hash t) l1 E1 -> holds_entry hash t i e -> Forall2 (holds_entry hash t) l2 E2 ->
    without (e_key e) E = E1 ++ E2 -> placed t E i e.

Lemma placed_core (t t' : kv) E i e : core t' = core t -> placed t E i e -> placed t' E i e.
Proof.
  intros Hc [l1 l2 E1 E2 H HE H1 Hi H2 Hw].
  assert (forall j y, holds_entry hash t j y -> holds_entry hash t' j y) as Hh.
  { intros j y. unfold holds_entry. by replace (slots t') with (slots t) by (unfold core in Hc; congruence). }
  econstructor; [by eapply repr_core|exact HE| | | |exact Hw]; [|by apply Hh|]; (eapply Forall2_impl; [eassumption|done]).
Qed.

Lemma placed_slot (t : kv) E i e : placed t E i e ->
  exists s, slots t !! i = Some s /\ s_deadline s = e_deadline e /\ s_cost s = e_cost e /\ value_at i t = Some (e_value e).
Proof.
  intros [l1 l2 E1 E2 H _ _ Hi _ _]. destruct (repr_lt _ t _ _ i H ltac:(set_solver)) as (b & s & _ & _ & Hs & _).
  pose proof (holds_content _ _ _ _ _ Hi Hs) as Hc. unfold content, content_of in Hc. exists s. unfold value_at. rewrite Hs.
  replace (s_held s) with (Some (e_key e, e_value e)) by congruence. split_and!; congruence.
Qed.

Lemma represents_repr (t : kv) X L : stats t = stats_of X -> repr hash t L (entries X) -> represents t X.
Proof. intros Hst H. split; [by exists L|done]. Qed.

Lemma placed_touch (t : kv) E i e : placed t E i e ->
  (exists L, repr hash (kv_lru_touch i t) L (e :: without (e_key e) E)) /\
  value_at i (kv_lru_touch i t) = Some (e_value e).
Proof.
  intros [l1 l2 E1 E2 H -> H1 Hi H2 Hw]. rewrite Hw. pose proof (repr_touch _ _ _ _ _ _ _ _ H H1 Hi H2) as Hr.
  split; [by eexists|]. pose proof (r_entries _ _ _ _ Hr) as HF. apply Forall2_cons in HF as [Hi' _].
  unfold holds_entry, value_at in *. destruct (slots (kv_lru_touch i t) !! i) as [s|]; [|done].
  change (Some (content s) = Some (content_of hash e)) in Hi'. unfold content, content_of in Hi'.
  by replace (s_held s) with (Some (e_key e, e_value e)) by congruence.
Qed.

Lemma placed_release (t : kv) E i e : placed t E i e -> exists L, repr hash (kv_release i t) L (without (e_key e) E).
Proof. intros [l1 l2 E1 E2 H -> H1 Hi H2 Hw]. rewrite Hw. eexists. by eapply repr_release. Qed.

Lemma placed_replace (t : kv) E i e v d cost : placed t E i e -> 0 <= cost ->
  exists L, repr hash (kv_replace i v d cost t) L (mk_entry (e_key e) v d cost :: without (e_key e) E).
Proof. intros [l1 l2 E1 E2 H -> H1 Hi H2 Hw] Hc. rewrite Hw. eexists. by eapply repr_replace. Qed.

Lemma placed_retime (t : kv) E i e d : placed t E i e ->
  exists L, repr hash (kv_lru_touch i (kv_set_deadline i d t)) L
    (mk_entry (e_key e) (e_value e) d (e_cost e) :: without (e_key e) E).
Proof. intros [l1 l2 E1 E2 H -> H1 Hi H2 Hw]. rewrite Hw. eexists. by eapply repr_retime. Qed.

(** Where the probe lands, with the entry placed. *)
Lemma probe_cases (t : kv) L E k : repr hash t L E ->
  match find_key k E with
  | Some e => exists i, kv_probe hash t k = Ok (At i) /\ placed t E i e /\ e_key e = k
  | None => exists i, kv_probe hash t k = Ok (Absent i) /\ k ∉ map e_key E /\
      (slot_count t <> 0 -> lane_free (ctrl t) i = true /\ clear_before (ctrl t) (hash k) i)
  end.
Proof.
  intros H. destruct (repr_probe hash t L E k H) as [l1 i l2 E1 e E2 EL EE H1 Hi H2 Hk Hw|i Hk Hfree].
  - exists i. split_and!; [done| |done]. subst L. econstructor; [done|done|done|done|done|]. by rewrite Hk.
  - by exists i.
Qed.

Lemma without_not_in k (E : list entry) : k ∉ map e_key (without k E).
Proof.
  intros (e & -> & He)%list_elem_of_fmap. apply list_elem_of_In, List.filter_In in He as [_ He].
  unfold is_key in He. by rewrite bool_decide_eq_true_2 in He.
Qed.

(** The live entry of a key. *)
Lemma lookup_live_cases (t : kv) X k now : represents t X ->
  match lru_live k now X with
  | (Some e, X') => X' = X /\ exists i, kv_lookup_live hash k now t = Ok (Some i, t) /\ placed t (entries X) i e /\ e_key e = k
  | (None, X') => exists t', kv_lookup_live hash k now t = Ok (None, t') /\ represents t' X' /\ fixed t' = fixed t /\
      k ∉ map e_key (entries X')
  end.
Proof.
  intros [[L H] Hst]. pose proof (probe_cases t L (entries X) k H) as Hp. unfold lru_live, kv_lookup_live.
  destruct (find_key k (entries X)) as [e|].
  - destruct Hp as (i & -> & Hpl & Hk). cbn [res_bind]. destruct (placed_slot _ _ _ _ Hpl) as (s & Hs & Hd & _).
    rewrite Hs, Hd. destruct (past now (e_deadline e)); [|by split; [|exists i]].
    destruct (placed_release _ _ _ _ Hpl) as [L' Hr]. destruct (framed_release i t) as [Hf Hst'].
    eexists. split; [done|]. split_and!; [|exact Hf|apply without_not_in].
    split; [exists L'; rewrite <- Hk; by eapply repr_core; [|exact Hr]|].
    rewrite Hst in Hst'. apply stats_inv in Hst' as (F1 & F2 & F3 & F4 & F5).
    unfold stats, stats_of. cbn -[kv_release]. by rewrite F1, F2, F3, F4, F5.
  - destruct Hp as (i & -> & Hk & _). cbn [res_bind]. exists t. split_and!; [done| |done|done]. by split; [exists L|].
Qed.

(** A count of the reads changes nothing else. *)
Lemma represents_reading (t : kv) X hit : represents t X -> represents (count_read hit t) (reading hit X).
Proof.
  intros [[L H] Hst]. apply stats_inv in Hst as (F1 & F2 & F3 & F4 & F5).
  split; [exists L; exact (repr_core hash t (count_read hit t) L _ eq_refl H)|].
  unfold stats, stats_of. cbn. by rewrite F1, F2, F3, F4, F5.
Qed.

Lemma represents_expire (t : kv) X n : represents t X -> represents (count_expirations n t) (expire n X).
Proof.
  intros [[L H] Hst]. apply stats_inv in Hst as (F1 & F2 & F3 & F4 & F5).
  split; [exists L; exact (repr_core hash t (count_expirations n t) L _ eq_refl H)|].
  unfold stats, stats_of. cbn. by rewrite F1, F2, F3, F4, F5.
Qed.

(** A table whose entries changed and whose log and counters did not. *)
Lemma represents_entries (t t' : kv) X L E : represents t X -> stats t' = stats t -> repr hash t' L E ->
  represents t' (with_entries E X).
Proof. intros [_ Hst] Hst' H. split; [by exists L|]. by rewrite Hst', Hst. Qed.

(** What a step promises. *)
Definition refines {A} (t : kv) (got : A * kv) (want : A * lru) : Prop :=
  fst got = fst want /\ represents (snd got) (snd want) /\ fixed (snd got) = fixed t.

Lemma get_refines (t : kv) X b k now : represents t X ->
  refines t (kv_step hash (Get k now) t) (lru_step (limits_of t) b (Get k now) X).
Proof.
  intros HX. pose proof (lookup_live_cases t X k now HX) as Hl. cbn [kv_step lru_step]. unfold kv_get.
  destruct (lru_live k now X) as [[e|] X'].
  - destruct Hl as (-> & i & -> & Hpl & _). cbn [res_bind answer].
    assert (placed (count_read true t) (entries X) i e) as Hpl' by exact (placed_core t (count_read true t) _ _ _ eq_refl Hpl).
    destruct (placed_touch _ _ _ _ Hpl') as [[L Hr] Hv]. rewrite Hv.
    destruct (framed_touch i (count_read true t)) as [Hf Hst]. split_and!; [done| |exact Hf].
    exact (represents_entries _ _ _ _ _ (represents_reading t X true HX) Hst Hr).
  - destruct Hl as (t' & -> & HX' & Hf & _). cbn [res_bind answer]. split_and!; [done| |exact Hf].
    by apply represents_reading.
Qed.

Lemma peek_refines (t : kv) X b k now : represents t X ->
  refines t (kv_step hash (Peek k now) t) (lru_step (limits_of t) b (Peek k now) X).
Proof.
  intros HX. pose proof HX as [[L H] _]. pose proof (probe_cases t L (entries X) k H) as Hp. cbn [kv_step lru_step]. unfold kv_peek.
  destruct (find_key k (entries X)) as [e|].
  - destruct Hp as (i & -> & Hpl & _). cbn [res_bind]. destruct (placed_slot _ _ _ _ Hpl) as (s & Hs & Hd & _ & Hv).
    rewrite Hs, Hd, Hv. by destruct (past now (e_deadline e)).
  - destruct Hp as (i & -> & _). done.
Qed.

Lemma held_refines (t : kv) X b k : represents t X ->
  refines t (kv_step hash (Held k) t) (lru_step (limits_of t) b (Held k) X).
Proof.
  intros HX. pose proof HX as [[L H] _]. pose proof (probe_cases t L (entries X) k H) as Hp. cbn [kv_step lru_step]. unfold kv_held.
  destruct (find_key k (entries X)) as [e|].
  - destruct Hp as (i & -> & Hpl & _). cbn [res_bind]. destruct (placed_slot _ _ _ _ Hpl) as (s & _ & _ & _ & Hv).
    by rewrite Hv.
  - destruct Hp as (i & -> & _). done.
Qed.

Lemma delete_refines (t : kv) X b k now : represents t X ->
  refines t (kv_step hash (Delete k now) t) (lru_step (limits_of t) b (Delete k now) X).
Proof.
  intros HX. pose proof (lookup_live_cases t X k now HX) as Hl. cbn [kv_step lru_step]. unfold kv_delete.
  destruct (lru_live k now X) as [[e|] X'].
  - destruct Hl as (-> & i & -> & Hpl & <-). cbn [res_bind answer]. destruct (placed_release _ _ _ _ Hpl) as [L Hr].
    destruct (framed_release i t) as [Hf Hst]. split_and!; [done| |exact Hf]. by eapply represents_entries.
  - destruct Hl as (t' & -> & HX' & Hf & _). by cbn [res_bind answer].
Qed.

Lemma pop_refines (t : kv) X b k now : represents t X ->
  refines t (kv_step hash (Pop k now) t) (lru_step (limits_of t) b (Pop k now) X).
Proof.
  intros HX. pose proof (lookup_live_cases t X k now HX) as Hl. cbn [kv_step lru_step]. unfold kv_pop.
  destruct (lru_live k now X) as [[e|] X'].
  - destruct Hl as (-> & i & -> & Hpl & <-). cbn [res_bind answer].
    assert (placed (count_read true t) (entries X) i e) as Hpl' by exact (placed_core t (count_read true t) _ _ _ eq_refl Hpl).
    destruct (placed_slot _ _ _ _ Hpl') as (s & _ & _ & _ & Hv). rewrite Hv. destruct (placed_release _ _ _ _ Hpl') as [L Hr].
    destruct (framed_release i (count_read true t)) as [Hf Hst]. split_and!; [done| |exact Hf].
    exact (represents_entries _ _ _ _ _ (represents_reading t X true HX) Hst Hr).
  - destruct Hl as (t' & -> & HX' & Hf & _). cbn [res_bind answer]. split_and!; [done| |exact Hf].
    by apply represents_reading.
Qed.

Lemma contains_refines (t : kv) X b k now : represents t X ->
  refines t (kv_step hash (Contains k now) t) (lru_step (limits_of t) b (Contains k now) X).
Proof.
  intros HX. pose proof (lookup_live_cases t X k now HX) as Hl. cbn [kv_step lru_step]. unfold kv_contains.
  destruct (lru_live k now X) as [[e|] X'].
  - destruct Hl as (-> & i & -> & _). by cbn [res_bind answer].
  - destruct Hl as (t' & -> & HX' & Hf & _). by cbn [res_bind answer].
Qed.

(** *** Writes *)

Lemma removelast_subset {A} (l : list A) x : x ∈ removelast l -> x ∈ l.
Proof.
  destruct l as [|y l _] using rev_ind; [done|]. rewrite removelast_last. set_solver.
Qed.

Lemma evict_while_subset n P (X : lru) e : e ∈ entries (lru_evict_while n P X) -> e ∈ entries X.
Proof.
  revert X. induction n as [|n IH]; intros X; cbn [lru_evict_while]; [done|]. destruct (P X); [|done].
  intros He%IH. rewrite entries_evict in He. by apply removelast_subset.
Qed.

Lemma live_subset now (E : list entry) e : e ∈ live now E -> e ∈ E.
Proof. unfold live. rewrite !list_elem_of_In. by intros [? _]%List.filter_In. Qed.

Lemma room_subset M b now (X : lru) e : e ∈ entries (lru_room M b now X) -> e ∈ entries X.
Proof.
  unfold lru_room. set (X' := if _ || _ then lru_purge now X else X).
  assert (e ∈ entries X' -> e ∈ entries X) as Hs by (unfold X'; destruct (_ || _); [apply live_subset|done]).
  destruct (_ <? _); [done|]. destruct (l_roomy M).
  - rewrite entries_evict. intros ?%removelast_subset. by apply Hs.
  - intros ?%evict_while_subset. by apply Hs.
Qed.

Lemma room_absent M b now (X : lru) k : k ∉ map e_key (entries X) -> k ∉ map e_key (entries (lru_room M b now X)).
Proof.
  intros Hk (e & -> & He)%list_elem_of_fmap. apply Hk, list_elem_of_fmap. exists e. split; [done|]. by eapply room_subset.
Qed.

Lemma find_key_absent k (E : list entry) : k ∉ map e_key E -> find_key k E = None.
Proof.
  intros Hk. destruct (find_key k E) as [e|] eqn:Ef; [|done]. exfalso. apply Hk. unfold find_key in Ef.
  apply List.find_some in Ef as [Hin He]. unfold is_key in He. apply bool_decide_eq_true in He as <-.
  apply list_elem_of_fmap. exists e. split; [done|by apply list_elem_of_In].
Qed.

(** A new key in a table made ready for it. *)
Lemma insert_represents (t : kv) X k v d cost : represents t X -> ready t -> k ∉ map e_key (entries X) -> 0 <= cost ->
  exists i, kv_probe hash t k = Ok (Absent i) /\
    represents (kv_insert hash i k v d cost t) (to_front (mk_entry k v d cost) X) /\
    fixed (kv_insert hash i k v d cost t) = fixed t.
Proof.
  intros HX (Hs & Hm & Hr) Hk Hc. pose proof HX as [[L H] _]. pose proof (probe_cases t L (entries X) k H) as Hp.
  rewrite (find_key_absent k _ Hk) in Hp. destruct Hp as (i & Hp & _ & Hfree). exists i. split; [done|].
  pose proof (sized_min _ Hs). destruct Hfree as [Hfree Hclear]; [lia|].
  destruct (framed_insert hash i k v d cost t) as [Hf Hst]. split; [|done].
  eapply represents_entries; [done|done|]. cbn [e_key]. rewrite without_absent by done. by apply repr_insert.
Qed.

(** A new key, room made first. *)
Lemma room_insert (t : kv) X k v d cost now : represents t X -> zlen (entries X) <= max_entries t ->
  k ∉ map e_key (entries X) -> 0 <= cost ->
  exists b t1 i, kv_ensure_room now t = Ok t1 /\ kv_probe hash t1 k = Ok (Absent i) /\
    represents (kv_insert hash i k v d cost t1) (to_front (mk_entry k v d cost) (lru_room (limits_of t) b now X)) /\
    fixed (kv_insert hash i k v d cost t1) = fixed t.
Proof.
  intros HX Hcap Hk Hc. destruct (ensure_room_represents hash t X now HX Hcap) as (b & t1 & Hroom & HX1 & Hf1 & Hr).
  destruct (insert_represents t1 _ k v d cost HX1 Hr) as (i & Hp & Hins & Hfi); [by apply room_absent|done|].
  exists b, t1, i. split_and!; [done..|congruence].
Qed.

Lemma trim_refines (t t1 : kv) X : represents t1 X -> fixed t1 = fixed t ->
  refines t (Done (K := K) (V := V), kv_enforce_budget t1) (Done, lru_trim (limits_of t) X).
Proof.
  intros HX Hf. destruct (represents_trim hash t1 X HX) as [HX' (Hf' & _)]. rewrite (limits_fixed t t1 Hf) in HX'.
  split_and!; [done|done|]. cbn [snd]. congruence.
Qed.

Lemma resolve_deadline_spec (t : kv) lifetime now : kv_resolve_deadline lifetime now t = deadline_for (limits_of t) lifetime now.
Proof. done. Qed.

Lemma put_refines (t : kv) X k v lifetime now keep cost : represents t X -> zlen (entries X) <= max_entries t ->
  exists b, refines t (kv_step hash (Put k v lifetime now keep cost) t)
    (lru_step (limits_of t) b (Put k v lifetime now keep cost) X).
Proof.
  intros HX Hcap. cbn [kv_step lru_step]. unfold kv_set.
  destruct (Z.ltb_spec cost 0) as [Hneg|Hc]; [by exists false|]. rewrite resolve_deadline_spec.
  destruct (deadline_for (limits_of t) lifetime now) as [d|err]; [|by exists false]. cbn [res_bind].
  pose proof HX as [[L H] Hst]. pose proof (probe_cases t L (entries X) k H) as Hp. unfold lru_set.
  destruct (find_key k (entries X)) as [e|].
  - destruct Hp as (i & -> & Hpl & <-). cbn [res_bind]. destruct (placed_slot _ _ _ _ Hpl) as (s & Hs & Hd & _).
    rewrite Hs, Hd. exists false. set (expired := past now (e_deadline e)).
    set (d' := if negb expired && keep then e_deadline e else d).
    set (t0 := if expired then count_expirations 1 t else t). set (X0 := if expired then expire 1 X else X).
    assert (represents t0 X0) as HX0 by (unfold t0, X0; destruct expired; [by apply represents_expire|done]).
    assert (core t0 = core t /\ fixed t0 = fixed t) as [Hc0 Hf0] by (unfold t0; by destruct expired).
    destruct (placed_replace t0 _ _ _ v d' cost (placed_core t t0 _ _ _ Hc0 Hpl) Hc) as [L' Hr].
    destruct (framed_replace i v d' cost t0) as [Hf1 Hst1]. apply trim_refines; [|congruence].
    assert (entries X0 = entries X) as EX by (unfold X0; by destruct expired).
    unfold to_front. cbn [e_key]. rewrite EX. by eapply represents_entries.
  - destruct Hp as (i0 & -> & Hk & _). cbn [res_bind].
    destruct (room_insert t X k v d cost now HX Hcap Hk Hc) as (b & t1 & i & -> & Hp1 & Hins & Hfi). cbn [res_bind].
    rewrite Hp1. cbn [res_bind]. exists b. by apply trim_refines.
Qed.

Lemma claim_refines (t : kv) X k v lifetime now : represents t X -> zlen (entries X) <= max_entries t ->
  exists b, refines t (kv_step hash (Claim k v lifetime now) t) (lru_step (limits_of t) b (Claim k v lifetime now) X).
Proof.
  intros HX Hcap. pose proof (lookup_live_cases t X k now HX) as Hl. cbn [kv_step lru_step]. unfold kv_claim.
  rewrite resolve_deadline_spec. destruct (deadline_for (limits_of t) lifetime now) as [d|err]; [|by exists false].
  assert (zlen (entries (snd (lru_live k now X))) <= zlen (entries X)) as Hlen.
  { unfold lru_live. destruct (find_key k (entries X)) as [e|]; [|done]. destruct (past now (e_deadline e)); [|done].
    cbn. unfold without, zlen. pose proof (List.filter_length_le (fun e => negb (is_key k e)) (entries X)). lia. }
  cbn [res_bind]. destruct (lru_live k now X) as [[e|] X'].
  - destruct Hl as (-> & i & -> & _). cbn [res_bind answer]. by exists false.
  - destruct Hl as (t' & -> & HX' & Hf & Hk). cbn [res_bind snd] in *.
    destruct (room_insert t' X' k v d 0 now HX') as (b & t1 & i & -> & Hp1 & Hins & Hfi); [|done|done|].
    { unfold fixed in Hf. replace (max_entries t') with (max_entries t) by congruence. lia. }
    cbn [res_bind]. rewrite Hp1. cbn [res_bind answer]. exists b. rewrite (limits_fixed t t' Hf) in Hins.
    split_and!; [done|done|]. cbn [snd]. congruence.
Qed.

Lemma touch_refines (t : kv) X b k lifetime now : represents t X ->
  refines t (kv_step hash (Touch k lifetime now) t) (lru_step (limits_of t) b (Touch k lifetime now) X).
Proof.
  intros HX. pose proof (lookup_live_cases t X k now HX) as Hl. cbn [kv_step lru_step]. unfold kv_touch.
  rewrite resolve_deadline_spec. destruct (deadline_for (limits_of t) lifetime now) as [d|err]; [|done].
  cbn [res_bind]. destruct (lru_live k now X) as [[e|] X'].
  - destruct Hl as (-> & i & -> & Hpl & <-). cbn [res_bind answer]. destruct (placed_retime _ _ _ _ d Hpl) as [L Hr].
    destruct (framed_touch i (kv_set_deadline i d t)) as [Hf Hst]. split_and!; [done| |exact Hf].
    by eapply represents_entries.
  - destruct Hl as (t' & -> & HX' & Hf & _). by cbn [res_bind answer].
Qed.

(** *** Whole-table operations *)

Lemma empty_entries (t : kv) L E : repr hash t L E -> slot_count t = 0 -> E = [].
Proof.
  intros H H0. pose proof (full_count hash t L E H). pose proof (zlen_nonneg E). destruct E as [|e E]; [done|].
  rewrite zlen_cons in *. pose proof (zlen_nonneg E). lia.
Qed.

Lemma purge_refines (t : kv) X b now : represents t X ->
  refines t (kv_step hash (Purge now) t) (lru_step (limits_of t) b (Purge now) X).
Proof.
  intros HX. pose proof HX as [[L H] Hst]. cbn [kv_step lru_step]. unfold kv_purge.
  pose proof (live_length now (entries X)) as Hlive. pose proof (r_used _ _ _ _ H) as Hu.
  pose proof (r_tombstones _ _ _ _ H) as Ht. pose proof (tally_le is_deleted (ctrl t)) as Htl.
  destruct (r_sized _ _ _ _ H) as [H0|(Hs & Hlt & Hm)].
  - unfold kv_rebuild. rewrite H0. cbn [Z.eqb res_bind answer]. pose proof (empty_entries t L _ H H0) as HE.
    split_and!; cbn [fst snd]; [by rewrite HE| |done]. unfold lru_purge. rewrite HE. cbn.
    apply (represents_expire t (with_entries [] X) 0). eapply represents_entries; [done|done|]. by rewrite <- HE.
  - destruct (repr_rebuild hash t L (entries X) (slot_count t) now H Hs Hm) as (t1 & L' & -> & Hr & _ & _ & Hf & Hst1); [lia|].
    cbn [res_bind answer]. split_and!; cbn [fst snd]; [done| |exact Hf]. apply represents_expire.
    by eapply represents_entries.
Qed.

Lemma take_evicted_refines (t : kv) X b : represents t X ->
  refines t (kv_step hash TakeEvicted t) (lru_step (limits_of t) b TakeEvicted X).
Proof.
  intros [[L H] Hst]. pose proof Hst as (F1 & F2 & F3 & F4 & F5)%stats_inv. cbn [kv_step lru_step]. unfold kv_take_evicted.
  rewrite F1. destruct (log X) as [l|]; [|by split_and!; [|split; [exists L|]|]].
  split_and!; [done| |done]. split; [exists L; exact (repr_core hash t (set_evicted (Some []) t) L _ eq_refl H)|].
  unfold stats, stats_of. cbn. by rewrite F2, F3, F4, F5.
Qed.

Lemma control_empty (t : kv) L E i b : repr hash t L E -> used t = 0 -> tombstones t = 0 -> ctrl t !! i = Some b ->
  b = WREATH_CTRL_EMPTY.
Proof.
  intros H Hu Hd Hb. destruct (idx_bytes _ _ _ (r_index _ _ _ _ H) i b Hb) as [Hr|[?| ->]]; [|done|].
  - pose proof (r_tally _ _ _ _ H) as Ht. rewrite <- (r_used _ _ _ _ H), Hu in Ht.
    pose proof (tally_zero _ _ _ _ Ht Hb) as Hf. apply Z.ltb_ge in Hf. lia.
  - rewrite (r_tombstones _ _ _ _ H) in Hd. by pose proof (tally_zero _ _ _ _ Hd Hb).
Qed.

Lemma clear_refines (t : kv) X b : represents t X ->
  refines t (kv_step hash Clear t) (lru_step (limits_of t) b Clear X).
Proof.
  intros [[L H] Hst]. apply stats_inv in Hst as (F1 & F2 & F3 & F4 & F5). cbn [kv_step lru_step]. unfold kv_clear.
  split_and!; cbn [fst snd]; [by rewrite (r_used _ _ _ _ H)| |by destruct (_ || _)].
  set (n := if _ || _ then _ else t).
  assert (ctrl n = map (fun _ => WREATH_CTRL_EMPTY) (ctrl t) \/ ctrl n = ctrl t /\ used t = 0 /\ tombstones t = 0) as Hctrl.
  { unfold n. destruct (Z.eqb_spec (used t) 0), (Z.eqb_spec (tombstones t) 0); cbn; tauto. }
  assert (length (slots n) = length (slots t)) as Hsl by (unfold n; destruct (_ || _); cbn; rewrite ?length_map; done).
  assert (length (ctrl n) = length (ctrl t)) as Hcl by (destruct Hctrl as [->|[-> _]]; by rewrite ?length_map).
  assert (fixed n = fixed t /\ stats n = stats t) as [Hf Hs] by (unfold n; by destruct (_ || _)).
  split.
  - exists []. change (entries _) with (@nil entry). apply repr_vacant; try done; cbn.
    + intros i c. destruct Hctrl as [->|(-> & Hu & Hd)].
      * change (map ?f ?l) with (f <$> l). rewrite list_lookup_fmap. destruct (ctrl t !! i); [|done]. by intros [= <-].
      * by apply (control_empty t L (entries X)).
    + rewrite Hsl, Hcl. apply H.
    + unfold slot_count, zlen. cbn. rewrite Hcl. destruct (r_sized _ _ _ _ H) as [?|(? & _ & Hm)]; [by left|right].
      unfold fixed in Hf. split; [done|]. unfold slot_count, zlen in Hm. replace (max_slots n) with (max_slots t) by congruence. done.
    + unfold fixed in Hf. replace (max_slots n) with (max_slots t) by congruence.
      replace (max_entries n) with (max_entries t) by congruence. apply H.
  - pose proof Hs as (G1 & G2 & G3 & G4 & G5)%stats_inv. unfold stats, stats_of. cbn.
    rewrite G2, G3, G4, G5, F1, F2, F3, F4, F5. done.
Qed.

(** Following the recency links gives the entries in order. *)
Lemma walk_entries (t : kv) L E : repr hash t L E -> forall l2 e2 l1 fuel, L = l1 ++ l2 ->
  Forall2 (holds_entry hash t) l2 e2 -> (length l2 < fuel)%nat ->
  exists ss, walk fuel (slots t) (head l2) = Ok ss /\ map content ss = map (content_of hash) e2.
Proof.
  intros H. induction l2 as [|i l2 IH]; intros e2 l1 fuel HL H2 Hf.
  - apply Forall2_nil_inv_l in H2 as ->. exists []. by destruct fuel.
  - apply Forall2_cons_inv_l in H2 as (e & e2' & Hi & H2 & ->). destruct fuel as [|fuel]; [cbn in Hf; lia|].
    destruct (linked_at _ _ _ _ (r_linked _ _ _ _ H) l1 i l2 HL) as (s & Hs & _ & Hnext).
    pose proof (holds_content _ _ _ _ _ Hi Hs) as Hcs. cbn [walk head]. rewrite Hs, Hnext.
    destruct (IH e2' (l1 ++ [i]) fuel) as (ss & -> & Hss); [by rewrite HL, <- app_assoc|done|cbn in Hf; lia|].
    exists (s :: ss). split; [done|]. cbn. by rewrite Hcs, Hss.
Qed.

Lemma repr_walk (t : kv) L E : repr hash t L E -> exists ss,
  walk (Datatypes.S (length (slots t))) (slots t) (lru_head t) = Ok ss /\ map content ss = map (content_of hash) E.
Proof.
  intros H. rewrite (linked_head _ _ _ _ (r_linked _ _ _ _ H)). eapply (walk_entries t L E H L E []); [done|apply H|].
  pose proof (Forall2_length _ _ _ (r_entries _ _ _ _ H)). pose proof (full_count hash t L E H) as Hfc.
  pose proof (idx_length _ _ _ (r_index _ _ _ _ H)). unfold slot_count, zlen in Hfc. lia.
Qed.

Lemma walk_live now ss (E : list entry) : map content ss = map (content_of hash) E ->
  omap s_held (List.filter (fun s => negb (past now (s_deadline s))) ss) = map (fun e => (e_key e, e_value e)) (live now E) /\
  zlen (List.filter (fun s => negb (past now (s_deadline s))) ss) = zlen (live now E).
Proof.
  revert E. induction ss as [|s ss IH]; intros [|e E]; cbn [map]; try done. intros [= Hh _ Hd _ Hss].
  destruct (IH E Hss) as [H1 H2]. rewrite live_cons. cbn [List.filter]. rewrite Hd.
  destruct (past now (e_deadline e)); cbn [negb app]; [done|]. cbn [map]. rewrite !zlen_cons, H2.
  change (omap s_held (?x :: ?l)) with (match s_held x with Some y => y :: omap s_held l | None => omap s_held l end).
  by rewrite Hh, H1.
Qed.

(** The slots walked are the entries. *)
Lemma walked ss (E : list entry) : map content ss = map (content_of hash) E ->
  zlen ss = zlen E /\ fold_right (fun s b => s_cost s + b) 0 ss = weight E /\
  map (fun s => fst <$> s_held s) ss = map (fun e => Some (e_key e)) E.
Proof.
  revert E. induction ss as [|s ss IH]; intros [|e E]; cbn [map]; try done. intros [= Hh _ _ Hc Hss].
  destruct (IH E Hss) as (H1 & H2 & H3). rewrite !zlen_cons. cbn [fold_right]. change (weight (e :: E)) with (e_cost e + weight E).
  rewrite Hh, Hc, H1, H2, H3. done.
Qed.

Lemma items_represents (t : kv) X now : represents t X ->
  kv_items now t = Ok (map (fun e => (e_key e, e_value e)) (live now (entries X))).
Proof.
  intros [[L H] _]. unfold kv_items. destruct (repr_walk t L (entries X) H) as (ss & -> & Hss).
  destruct (walk_live now ss _ Hss) as [Hi _]. cbn [res_bind]. by rewrite Hi.
Qed.

Lemma items_refines (t : kv) X b now : represents t X ->
  refines t (kv_step hash (Items now) t) (lru_step (limits_of t) b (Items now) X).
Proof. intros HX. cbn [kv_step lru_step]. by rewrite (items_represents t X now HX). Qed.

Lemma count_at_refines (t : kv) X b now : represents t X ->
  refines t (kv_step hash (CountAt now) t) (lru_step (limits_of t) b (CountAt now) X).
Proof.
  intros HX. pose proof HX as [[L H] _]. cbn [kv_step lru_step]. unfold kv_count_at.
  destruct (past now (next_expiry t)) eqn:Ep; cbn [negb].
  - destruct (repr_walk t L (entries X) H) as (ss & -> & Hss). destruct (walk_live now ss _ Hss) as [_ Hn].
    cbn [res_bind read]. split_and!; [|done|done]. cbn [fst]. by rewrite Hn.
  - cbn [read]. split_and!; [|done|done]. cbn [fst]. rewrite (r_used _ _ _ _ H). do 2 f_equal. symmetry. apply all_alive.
    apply forallb_forall. intros e He%list_elem_of_In.
    pose proof (proj1 (Forall_forall _ _) (r_expiry _ _ _ _ H) e He now) as Hx. unfold alive.
    destruct (past now (e_deadline e)); [|done]. by rewrite Hx in Ep.
Qed.

(** *** One step, and runs *)

Lemma kv_step_represents (t : kv) X o : represents t X -> zlen (entries X) <= max_entries t ->
  exists b, refines t (kv_step hash o t) (lru_step (limits_of t) b o X).
Proof.
  intros HX Hcap. destruct o; [exists false; by apply get_refines|exists false; by apply peek_refines
    |exists false; by apply held_refines|by apply put_refines|by apply claim_refines|exists false; by apply delete_refines
    |exists false; by apply pop_refines|exists false; by apply touch_refines|exists false; by apply purge_refines
    |exists false; by apply take_evicted_refines|exists false; by apply clear_refines|exists false; by apply items_refines
    |exists false; by apply count_at_refines|exists false; by apply contains_refines].
Qed.

End steps.
