(* ===== verification/KvClaims.v ===== *)
(** * The key/value table: its properties

    For a table made by [kv_init] and any sequence of operations on it: the
    results are those of the specification, the limits hold, a pair put is a
    pair got, and what a write at capacity evicts. *)

From stdpp Require Import base sets strings numbers list gmap.
From Stdlib Require Import ZArith Lia.
From S2P Require Import Prelude PyCollections KvTable KvRefine KvSteps.
#[local] Open Scope Z_scope.

Section limits.
Context {K V : Type} `{EqDecision K} (hash : K -> Z).
Abbreviation kv := (kv (K := K) (V := V)).
Abbreviation entry := (entry (K := K) (V := V)).
Abbreviation lru := (lru (K := K) (V := V)).
Abbreviation represents := (represents hash).

(** ** A fresh table *)

Lemma doubled_spec value : value <= 2 ^ 62 -> forall fuel r, sized r -> r <= 2 ^ 63 ->
  2 ^ 62 <= r * 2 ^ Z.of_nat fuel -> let T := doubled fuel r value in sized T /\ value <= T /\ T <= 2 ^ 63.
Proof.
  intros Hv. induction fuel as [|fuel IH]; intros r Hr Hle Hf; cbn [doubled].
  - split_and!; [done|cbn in Hf; lia|done].
  - destruct (Z.ltb_spec r value) as [Hlt|Hge]; cbn [andb]; [|split_and!; [done|lia|done]].
    rewrite (proj2 (Z.ltb_lt _ _)) by lia.
    destruct (sized_double r (2 ^ 63) Hr) as [Hd Hd']; [exists 63; split; [lia|done]|lia|].
    apply IH; [done..|]. rewrite Nat2Z.inj_succ, Z.pow_succ_r in Hf by lia. lia.
Qed.

Lemma next_power_spec value : value <= 2 ^ 62 ->
  sized (kv_next_power_of_two value) /\ value <= kv_next_power_of_two value /\ kv_next_power_of_two value <= 2 ^ 63.
Proof.
  intros Hv. apply doubled_spec; [done|exists 5; split; [lia|done]|by vm_compute|by vm_compute].
Qed.

Lemma init_represents n lifetime budget track (t : kv) : kv_init n lifetime budget track = Ok t -> n <= 2 ^ 59 ->
  represents t (lru_empty track) /\ max_entries t = n /\ 1 <= n /\ max_bytes t = budget /\ 0 <= budget /\ ttl t = lifetime /\
    (forall s, lifetime = Some s -> 0 < s) /\ max_slots t = kv_next_power_of_two ((n * 8 + 6) / 7).
Proof.
  unfold kv_init. destruct (Z.ltb_spec n 1) as [|Hn]; [done|]. destruct (Z.ltb_spec budget 0) as [|Hb]; [done|].
  destruct (match lifetime with Some s => s <=? 0 | None => false end) eqn:El; [done|]. intros [= <-] Hle.
  cbn [max_entries max_bytes max_slots ttl]. split_and!; try done.
  - split; [|done]. exists []. change (entries (lru_empty track)) with (@nil entry).
    apply repr_vacant; try done; [by left|]. cbn [max_entries max_slots].
    destruct (next_power_spec ((n * 8 + 6) / 7)) as (H1 & H2 & H3).
    { apply Z.div_le_upper_bound; lia. }
    split_and!; [done..|]. pose proof (Z.div_mod (n * 8 + 6) 7 ltac:(lia)). pose proof (Z.mod_pos_bound (n * 8 + 6) 7 ltac:(lia)).
    lia.
  - intros s ->. apply Z.leb_gt in El. lia.
Qed.

(** ** The limits, kept by the specification *)

Definition paid (E : list entry) : Prop := Forall (fun e => 0 <= e_cost e) E.

(** Fewer and lighter. *)
Definition lighter (E' E : list entry) : Prop := zlen E' <= zlen E /\ weight E' <= weight E.

Lemma weight_cons (e : entry) E : weight (e :: E) = e_cost e + weight E.
Proof. done. Qed.

Lemma weight_nonneg (E : list entry) : paid E -> 0 <= weight E.
Proof. induction 1 as [|e E He HE IH]; [done|]. rewrite weight_cons. cbn beta in He. lia. Qed.

Lemma lighter_filter p (E : list entry) : paid E -> lighter (List.filter p E) E.
Proof.
  induction 1 as [|e E He HE [I1 I2]]; [by split|]. unfold lighter. cbn [List.filter].
  cbn beta in He. destruct (p e); rewrite ?zlen_cons, ?weight_cons; split; lia.
Qed.

Lemma lighter_removelast (E : list entry) : paid E -> lighter (removelast E) E.
Proof.
  intros HE. destruct E as [|e E _] using rev_ind; [by split|]. rewrite removelast_last. unfold lighter.
  rewrite zlen_app, weight_app. apply Forall_app in HE as [_ [He _]%Forall_cons]. change (zlen [e]) with 1. cbn. lia.
Qed.

Lemma lighter_front k (E : list entry) e e' : paid E -> find_key k E = Some e -> e_cost e' = e_cost e ->
  lighter (e' :: without k E) E.
Proof.
  unfold find_key, lighter. intros HE Hf Hc. rewrite zlen_cons, weight_cons, Hc.
  induction HE as [|x E Hx HE IH]; cbn [List.find] in Hf; [done|]. unfold without in *. cbn [List.filter].
  destruct (is_key k x) eqn:Ek; cbn [negb].
  - injection Hf as ->. destruct (lighter_filter (fun e => negb (is_key k e)) E HE) as [H1 H2].
    rewrite zlen_cons, weight_cons. lia.
  - destruct (IH Hf) as [H1 H2]. rewrite !zlen_cons, !weight_cons. lia.
Qed.

(** What the limits allow. *)
Definition within (M : limits) (E : list entry) : Prop :=
  zlen E <= l_entries M /\ (l_bytes M = 0 \/ weight E <= l_bytes M).

Lemma within_lighter M E E' : lighter E' E -> within M E -> within M E'.
Proof. intros [H1 H2] [H3 H4]. split; lia. Qed.

Lemma over_within M (X : lru) : over M X = false -> within M (entries X).
Proof.
  unfold over, within. intros [H1 H2]%orb_false_iff. apply Z.ltb_ge in H1. split; [done|].
  apply andb_false_iff in H2 as [H2|H2]; [left; by apply negb_false_iff, Z.eqb_eq in H2|right; by apply Z.ltb_ge in H2].
Qed.

Lemma evict_while_within M n : 0 <= l_entries M -> 0 <= l_bytes M -> forall X : lru, n = length (entries X) ->
  within M (entries (lru_evict_while n (over M) X)).
Proof.
  intros HM HB. induction n as [|n IH]; intros X Hn; cbn [lru_evict_while].
  - destruct (entries X); [|done]. split; [by rewrite zlen_nil|]. right. done.
  - destruct (over M X) eqn:Eo; [|by apply over_within]. apply IH. by rewrite entries_evict, length_removelast, <- Hn.
Qed.

Lemma evict_while_lighter n P (X : lru) : paid (entries X) -> lighter (entries (lru_evict_while n P X)) (entries X).
Proof.
  revert X. induction n as [|n IH]; intros X HX; cbn [lru_evict_while]; [by split|]. destruct (P X); [|by split].
  pose proof (lighter_removelast _ HX) as [H1 H2]. destruct (IH (lru_evict X)) as [H3 H4].
  - rewrite entries_evict. apply Forall_forall. intros e He%removelast_subset. by apply (proj1 (Forall_forall _ _) HX).
  - rewrite entries_evict in *. split; lia.
Qed.

Lemma cleared_out n (X : lru) : n = length (entries X) -> entries (lru_evict_while n (fun _ => true) X) = [].
Proof.
  revert X. induction n as [|n IH]; intros X Hn; cbn [lru_evict_while]; [by destruct (entries X)|].
  apply IH. by rewrite entries_evict, length_removelast, <- Hn.
Qed.

(** There is room for one more, and nothing was added. *)
Lemma room_within M b now (X : lru) : 1 <= l_entries M -> paid (entries X) -> zlen (entries X) <= l_entries M ->
  let X' := lru_room M b now X in zlen (entries X') < l_entries M /\ lighter (entries X') (entries X).
Proof.
  intros HM HX Hcap. unfold lru_room. set (X1 := if _ || _ then lru_purge now X else X).
  assert (lighter (entries X1) (entries X) /\ paid (entries X1)) as [[L1 L2] Hp].
  { unfold X1. destruct (_ || _); [|by split; [split|]]. split; [by apply lighter_filter|].
    apply Forall_forall. intros e He%live_subset. by apply (proj1 (Forall_forall _ _) HX). }
  destruct (Z.ltb_spec (zlen (entries X1)) (l_entries M)) as [|Hge]; [done|]. destruct (l_roomy M).
  - rewrite entries_evict. pose proof (lighter_removelast _ Hp) as [H1 H2]. unfold lighter, zlen in *.
    rewrite length_removelast in *. split; lia.
  - unfold lru_clear_out. destruct (evict_while_lighter (length (entries X1)) (fun _ => true) X1 Hp) as [H1 H2].
    rewrite cleared_out in * by done. split; [rewrite zlen_nil; lia|]. split; lia.
Qed.

(** The live entry of a key, and what is left when there is none. *)
Lemma lru_live_lighter k now (X : lru) : paid (entries X) ->
  match lru_live k now X with
  | (Some e, X') => X' = X /\ find_key k (entries X) = Some e
  | (None, X') => lighter (entries X') (entries X) /\ paid (entries X')
  end.
Proof.
  intros HX. unfold lru_live. destruct (find_key k (entries X)) as [e|]; [|by split; [split|]].
  destruct (past now (e_deadline e)); [|done]. split; [by apply lighter_filter|].
  apply Forall_forall. intros x [Hx _]%list_elem_of_In%List.filter_In. apply (proj1 (Forall_forall _ _) HX).
  by apply list_elem_of_In.
Qed.

Lemma find_key_key k (E : list entry) e : find_key k E = Some e -> e_key e = k.
Proof. intros [_ H]%List.find_some. unfold is_key in H. by apply bool_decide_eq_true in H. Qed.

Lemma lru_step_within M b o (X : lru) : 1 <= l_entries M -> 0 <= l_bytes M -> paid (entries X) ->
  within M (entries X) -> within M (entries (snd (lru_step M b o X))).
Proof.
  intros HM HB HX Hw.
  assert (forall Y : lru, within M (entries (lru_trim M Y))) as Htrim.
  { intros Y. apply evict_while_within; [lia|done|done]. }
  assert (forall p, within M (List.filter p (entries X))) as Hfilter.
  { intros p. eapply within_lighter; [by apply lighter_filter|done]. }
  assert (forall k e e', find_key k (entries X) = Some e -> e_key e' = k -> e_cost e' = e_cost e ->
    within M (entries (to_front e' X))) as Hfront.
  { intros k e e' Hf <- Hc. eapply within_lighter; [by eapply lighter_front|done]. }
  destruct o as [k now|k now|k|k v lf now keep cost|k v lf now|k now|k now|k lf now|now| | |now|now|k now]; cbn [lru_step].
  all: try (pose proof (lru_live_lighter k now X HX) as Hl).
  - destruct (lru_live k now X) as [[e|] X'].
    + destruct Hl as [-> Hf]. exact (Hfront k e e Hf (find_key_key _ _ _ Hf) eq_refl).
    + destruct Hl as [Hl _]. by eapply within_lighter.
  - done.
  - done.
  - destruct (cost <? 0); [done|]. destruct (deadline_for M lf now) as [d|]; [|done]. cbn [snd]. unfold lru_set.
    destruct (find_key k (entries X)); apply Htrim.
  - destruct (deadline_for M lf now) as [d|]; [|done]. destruct (lru_live k now X) as [[e|] X'].
    + destruct Hl as [-> _]. done.
    + destruct Hl as [[L1 L2] Hp]. destruct Hw as [W1 W2].
      destruct (room_within M b now X' HM Hp) as [R1 [R2 R3]]; [lia|].
      cbn [snd to_front with_entries entries e_key]. unfold within. rewrite zlen_cons, weight_cons. cbn [e_cost].
      destruct (lighter_filter (fun e => negb (is_key k e)) (entries (lru_room M b now X'))) as [F1 F2].
      { apply Forall_forall. intros e He%room_subset. by apply (proj1 (Forall_forall _ _) Hp). }
      unfold without. split; lia.
  - destruct (lru_live k now X) as [[e|] X']; [destruct Hl as [-> _]; apply Hfilter|destruct Hl as [Hl _]; by eapply within_lighter].
  - destruct (lru_live k now X) as [[e|] X']; [destruct Hl as [-> _]; apply Hfilter|destruct Hl as [Hl _]; by eapply within_lighter].
  - destruct (deadline_for M lf now) as [d|]; [|done]. destruct (lru_live k now X) as [[e|] X'].
    + destruct Hl as [-> Hf]. exact (Hfront k e (mk_entry k (e_value e) d (e_cost e)) Hf eq_refl eq_refl).
    + destruct Hl as [Hl _]. by eapply within_lighter.
  - apply Hfilter.
  - by destruct (log X).
  - split; [cbn; rewrite zlen_nil; lia|by right].
  - done.
  - done.
  - destruct (lru_live k now X) as [[e|] X']; [by destruct Hl as [-> _]|destruct Hl as [Hl _]; by eapply within_lighter].
Qed.

(** ** Runs *)

Lemma kv_step_within (t : kv) X o : represents t X -> 1 <= max_entries t -> 0 <= max_bytes t ->
  within (limits_of t) (entries X) -> exists b,
  refines hash t (kv_step hash o t) (lru_step (limits_of t) b o X) /\
  within (limits_of t) (entries (snd (lru_step (limits_of t) b o X))).
Proof.
  intros HX HM HB Hw. destruct (kv_step_represents hash t X o HX (proj1 Hw)) as [b Hb]. exists b. split; [done|].
  apply lru_step_within; [done|done| |done]. destruct HX as [[L H] _]. exact (r_costs _ _ _ _ H).
Qed.

Lemma kv_run_represents ops : forall (t : kv) X, represents t X -> 1 <= max_entries t -> 0 <= max_bytes t ->
  within (limits_of t) (entries X) -> exists choices, length choices = length ops /\
  refines hash t (kv_run hash ops t) (lru_run (limits_of t) choices ops X) /\
  within (limits_of t) (entries (snd (lru_run (limits_of t) choices ops X))).
Proof.
  induction ops as [|o ops IH]; intros t X HX HM HB Hw; [by exists []|].
  destruct (kv_step_within t X o HX HM HB Hw) as (b & (Hr & HX' & Hf) & Hw').
  cbn [kv_run lru_run]. destruct (kv_step hash o t) as [r t'] eqn:Es.
  destruct (lru_step (limits_of t) b o X) as [r' X'] eqn:El. cbn [fst snd] in *. subst r'.
  pose proof (limits_fixed t t' Hf) as Elim.
  assert (max_entries t' = max_entries t /\ max_bytes t' = max_bytes t) as [Eme Emb] by (unfold fixed in Hf; split; congruence).
  destruct (IH t' X' HX') as (choices & Hlen & (Hrs & HX2 & Hf2) & Hw2); [by rewrite Eme|by rewrite Emb|by rewrite Elim|].
  exists (b :: choices). cbn [lru_run]. change (default false (head (b :: choices))) with b. cbn [tail]. rewrite El.
  rewrite Elim in Hrs, HX2, Hw2.
  destruct (kv_run hash ops t') as [rs t2]. destruct (lru_run (limits_of t) choices ops X') as [rs' X2]. cbn [fst snd] in *.
  subst rs'. split_and!; [by cbn; rewrite Hlen| |done]. split_and!; [done|done|]. cbn [snd]. congruence.
Qed.

(** A table some operations have been applied to. *)
Definition reached (n : Z) (lifetime : option Z) (budget : Z) (track : bool) (ops : list (op (K := K) (V := V))) (t : kv) : Prop :=
  n <= 2 ^ 59 /\ exists t0, kv_init n lifetime budget track = Ok t0 /\ snd (kv_run hash ops t0) = t.

Lemma reached_represents n lifetime budget track ops (t : kv) : reached n lifetime budget track ops t ->
  exists X, represents t X /\ within (limits_of t) (entries X) /\ max_entries t = n /\ max_bytes t = budget /\
    ttl t = lifetime /\ 1 <= n /\ 0 <= budget /\ (forall s, lifetime = Some s -> 0 < s) /\
    max_slots t = kv_next_power_of_two ((n * 8 + 6) / 7).
Proof.
  intros (Hn & t0 & Hinit & <-).
  destruct (init_represents n lifetime budget track t0 Hinit Hn) as (HX & E1 & H1 & E2 & H2 & E3 & Hpos & E4).
  destruct (kv_run_represents ops t0 (lru_empty track) HX) as (choices & _ & (_ & HX' & Hf) & Hw); [lia|lia| |].
  { split; cbn; rewrite ?zlen_nil; lia. }
  exists (snd (lru_run (limits_of t0) choices ops (lru_empty track))). rewrite (limits_fixed _ _ Hf).
  assert (max_entries (snd (kv_run hash ops t0)) = max_entries t0 /\ max_bytes (snd (kv_run hash ops t0)) = max_bytes t0 /\
    ttl (snd (kv_run hash ops t0)) = ttl t0 /\ max_slots (snd (kv_run hash ops t0)) = max_slots t0) as (-> & -> & -> & ->) by (unfold fixed in Hf; split_and!; congruence).
  by split_and!.
Qed.

(** ** Puts *)

Lemma evict_while_front P n e E : forall X : lru, (forall Y : lru, entries Y = [e] -> P Y = false) -> entries X = e :: E ->
  exists E', entries (lru_evict_while n P X) = e :: E'.
Proof.
  revert E. induction n as [|n IH]; intros E X HP HX; cbn [lru_evict_while]; [by exists E|].
  destruct (P X) eqn:Ep; [|by exists E]. destruct E as [|e' E _] using rev_ind; [by rewrite HP in Ep|].
  apply (IH E); [done|]. rewrite entries_evict, HX. change (e :: E ++ [e']) with ((e :: E) ++ [e']). apply removelast_last.
Qed.

(** A written entry is the first one, if the budget can hold it. *)
Lemma set_front M b k v d now keep cost (X : lru) : 1 <= l_entries M -> l_bytes M = 0 \/ cost <= l_bytes M ->
  exists e E, entries (lru_set M b k v d now keep cost X) = e :: E /\ e_key e = k /\ e_value e = v /\
    (keep = false -> e_deadline e = d).
Proof.
  intros HM HB. unfold lru_set, lru_trim.
  assert (forall (e : entry) (Y : lru), e_cost e = cost -> entries Y = [e] -> over M Y = false) as Hover.
  { intros e Y He EY. unfold over. rewrite EY, weight_cons, He. change (zlen [e]) with 1. cbn [weight fold_right].
    apply orb_false_iff. split; [apply Z.ltb_ge; lia|]. apply andb_false_iff. destruct HB as [->|HB]; [by left|right].
    apply Z.ltb_ge. lia. }
  destruct (find_key k (entries X)) as [e|].
  - set (e' := mk_entry k v _ cost). set (X0 := if past _ _ then expire 1 X else X).
    destruct (evict_while_front (over M) (length (entries (to_front e' X0))) e' _ (to_front e' X0)
      (fun Y => Hover e' Y eq_refl) eq_refl) as [E' HE]. exists e', E'. split_and!; [exact HE|done|done|].
    intros ->. cbn. by rewrite andb_false_r.
  - set (e' := mk_entry k v d cost).
    destruct (evict_while_front (over M) (length (entries (to_front e' (lru_room M b now X)))) e' _ (to_front e' (lru_room M b now X)) (fun Y => Hover e' Y eq_refl) eq_refl)
      as [E' HE]. exists e', E'. by split_and!.
Qed.

(** A write of a new key when nothing has expired. *)
Lemma set_new M b k v d now keep cost (X : lru) : 1 <= l_entries M -> l_bytes M = 0 ->
  zlen (entries X) <= l_entries M -> forallb (alive now) (entries X) = true -> k ∉ map e_key (entries X) ->
  entries (lru_set M b k v d now keep cost X) = mk_entry k v d cost ::
    (if l_roomy M then take (Z.to_nat (l_entries M - 1)) (entries X)
     else if zlen (entries X) <? l_entries M then entries X else []).
Proof.
  intros HM HB Hcap Hall Hk. unfold lru_set. rewrite find_key_absent by done.
  set (X1 := lru_room M b now X).
  assert (entries X1 = (if l_roomy M then take (Z.to_nat (l_entries M - 1)) (entries X)
    else if zlen (entries X) <? l_entries M then entries X else [])) as HX1.
  { unfold X1, lru_room. rewrite Hall. cbn [negb]. rewrite andb_false_r, orb_false_r.
    set (X0 := if b then lru_purge now X else X).
    assert (entries X0 = entries X) as EX0 by (unfold X0; destruct b; [by apply all_alive|done]). rewrite EX0.
    destruct (Z.ltb_spec (zlen (entries X)) (l_entries M)) as [Hlt|Hge].
    - destruct (l_roomy M); [|done]. rewrite take_ge; [done|]. unfold zlen in *. lia.
    - destruct (l_roomy M).
      + rewrite entries_evict, EX0, removelast_firstn_len. f_equal. unfold zlen in *. lia.
      + by apply cleared_out. }
  assert (k ∉ map e_key (entries X1)) as Hk1 by by apply room_absent.
  assert (entries (to_front (mk_entry k v d cost) X1) = mk_entry k v d cost :: entries X1) as Hfront.
  { cbn. by rewrite without_absent. }
  assert (over M (to_front (mk_entry k v d cost) X1) = false) as Hover.
  { unfold over. rewrite Hfront, HB, zlen_cons. cbn [Z.eqb negb andb]. rewrite orb_false_r. apply Z.ltb_ge. rewrite HX1.
    destruct (l_roomy M); [unfold zlen; rewrite length_take; lia|]. destruct (Z.ltb_spec (zlen (entries X)) (l_entries M)); [lia|].
    rewrite zlen_nil. lia. }
  unfold lru_trim. rewrite Hfront. cbn [length lru_evict_while]. rewrite Hover, Hfront. by rewrite HX1.
Qed.

(** ** Sizes without room to spare *)

Lemma doubled_least value : forall fuel r, r < 2 * value \/ r = 32 -> doubled fuel r value < 2 * value \/ doubled fuel r value = 32.
Proof.
  induction fuel as [|fuel IH]; intros r Hr; cbn [doubled]; [done|].
  destruct (Z.ltb_spec r value) as [Hlt|]; cbn [andb]; [|done]. destruct (_ <? _); [|done]. apply IH. lia.
Qed.

Lemma tight_sizes j : (j <= 54)%nat ->
  let n := 28 * 2 ^ Z.of_nat j in n <= 2 ^ 59 /\ 7 * kv_next_power_of_two ((n * 8 + 6) / 7) = 8 * n.
Proof.
  intros Hj n. assert (2 ^ Z.of_nat j <= 2 ^ 54) as Hle by (apply Z.pow_le_mono_r; lia).
  assert (0 < 2 ^ Z.of_nat j) as Hpos by (apply Z.pow_pos_nonneg; lia). split; [lia|].
  assert ((n * 8 + 6) / 7 = 2 ^ (5 + Z.of_nat j)) as Ev.
  { rewrite Z.pow_add_r by lia. symmetry. apply (Z.div_unique _ _ _ 6); [lia|]. unfold n. change (2 ^ 5) with 32. lia. }
  rewrite Ev. assert (2 ^ (5 + Z.of_nat j) <= 2 ^ 62) as H62 by (apply Z.pow_le_mono_r; lia).
  destruct (next_power_spec _ H62) as ((p & Hp & Ep) & Hge & _).
  assert (kv_next_power_of_two (2 ^ (5 + Z.of_nat j)) < 2 * 2 ^ (5 + Z.of_nat j)) as Hlt.
  { destruct (doubled_least (2 ^ (5 + Z.of_nat j)) 64 32) as [?|E]; [by right|done|].
    unfold kv_next_power_of_two. change (Z.of_nat WREATH_CTRL_GROUP) with 32. rewrite E, Z.pow_add_r by lia. change (2 ^ 5) with 32. lia. }
  assert (p = 5 + Z.of_nat j) as ->.
  { rewrite Ep in Hge, Hlt. rewrite <- Z.pow_succ_r in Hlt by lia. apply Z.pow_lt_mono_r_iff in Hlt; [|lia..].
    apply Z.pow_le_mono_r_iff in Hge; lia. }
  rewrite Ep, Z.pow_add_r by lia. unfold n. change (2 ^ 5) with 32. lia.
Qed.

Lemma live_all now (E : list entry) : zlen (live now E) = zlen E -> forallb (alive now) E = true.
Proof.
  induction E as [|e E IH]; [done|]. rewrite live_cons. cbn [forallb]. pose proof (live_length now E) as Hl.
  unfold alive at 1. destruct (past now (e_deadline e)); cbn [app negb andb]; rewrite !zlen_cons; intros H; [lia|].
  apply IH. lia.
Qed.

(** A new key put at a time when nothing has expired. *)
Lemma put_new (t : kv) X k v lifetime now d cost l : represents t X -> within (limits_of t) (entries X) ->
  1 <= max_entries t -> max_bytes t = 0 -> 0 <= cost ->
  kv_items now t = Ok l -> zlen l = used t -> k ∉ map fst l ->
  kv_resolve_deadline lifetime now t = Ok d -> past now d = false ->
  exists t', kv_set hash k v lifetime now false cost t = Ok t' /\
    kv_items now t' = Ok ((k, v) :: (if l_roomy (limits_of t) then take (Z.to_nat (max_entries t - 1)) l
      else if used t <? max_entries t then l else [])).
Proof.
  intros HX Hw HM HB Hc Hl Hlen Hk Hd Hpast. rewrite (items_represents hash t X now HX) in Hl. injection Hl as <-.
  destruct (represents_used hash t X HX) as [Hu _]. rewrite Hu in Hlen |- *.
  assert (forallb (alive now) (entries X) = true) as Hall.
  { apply live_all. rewrite <- Hlen. unfold zlen. by rewrite length_map. }
  rewrite (all_alive now _ Hall) in *. rewrite map_map in Hk. change (map (fun e => _) _) with (map e_key (entries X)) in Hk.
  destruct (put_refines hash t X k v lifetime now false cost HX (proj1 Hw)) as (b & Hr & HX' & _).
  cbn [kv_step lru_step] in *. rewrite (proj2 (Z.ltb_ge cost 0) Hc) in *. change (deadline_for (limits_of t) lifetime now) with (kv_resolve_deadline lifetime now t) in *. rewrite Hd in *.
  destruct (kv_set hash k v lifetime now false cost t) as [t'|]; [|done]. exists t'. split; [done|]. cbn [snd] in HX'.
  rewrite (items_represents hash t' _ now HX'), (set_new (limits_of t) _ _ _ _ _ _ _ X HM HB (proj1 Hw) Hall Hk), live_cons. cbn [e_deadline]. rewrite Hpast.
  cbn [app map e_key e_value l_entries limits_of]. do 2 f_equal.
  assert (forall n, live now (take n (entries X)) = take n (entries X)) as Htake.
  { intros n. apply all_alive. apply forallb_forall. intros e He%list_elem_of_In. apply (proj1 (forallb_forall _ _) Hall), list_elem_of_In.
    rewrite <- (take_drop n (entries X)). apply elem_of_app. by left. }
  destruct (l_roomy (limits_of t)); [by rewrite Htake, firstn_map|]. destruct (_ <? _); [by rewrite all_alive|done].
Qed.

(** ** Properties *)

(** C20. For every table [kv_init] makes and every sequence of gets, peeks,
    sets, claims, deletes, pops, touches, purges, clears and reads of its log,
    items and count, the answers of the hash table with its control bytes,
    recency links and lazy expiry are exactly those of a list of entries in
    order of use, errors included, for some choice at each write of whether it
    dropped the expired entries; no probe, rebuild or walk fails to end. *)
Theorem kv_runs_as_lru n lifetime budget track (t : kv) (ops : list (op (K := K) (V := V))) :
  kv_init n lifetime budget track = Ok t -> n <= 2 ^ 59 ->
  exists choices, length choices = length ops /\
    fst (kv_run hash ops t) = fst (lru_run (limits_of t) choices ops (lru_empty track)).
Proof.
  intros Hinit Hn. destruct (init_represents n lifetime budget track t Hinit Hn) as (HX & E1 & H1 & E2 & H2 & _).
  destruct (kv_run_represents ops t (lru_empty track) HX) as (choices & Hlen & (Hr & _) & _); [lia|lia| |by exists choices].
  split; cbn; rewrite ?zlen_nil; lia.
Qed.

(** C21. Whatever was done to a table, it holds at most [max_entries] entries,
    and with a byte budget their costs sum to no more than it; its counters of
    entries and bytes are exact: the recency list can be walked from its head
    and holds as many slots and as many bytes as they say, no key twice. *)
Theorem kv_stays_within_limits n lifetime budget track ops (t : kv) :
  reached n lifetime budget track ops t ->
  used t <= n /\ (budget = 0 \/ bytes t <= budget) /\
  exists ss, walk (Datatypes.S (length (slots t))) (slots t) (lru_head t) = Ok ss /\ zlen ss = used t /\
    fold_right (fun s b => s_cost s + b) 0 ss = bytes t /\ NoDup (map (fun s => fst <$> s_held s) ss).
Proof.
  intros (X & HX & [W1 W2] & <- & <- & _)%reached_represents. destruct (represents_used hash t X HX) as [-> ->].
  split; [done|split; [done|]]. destruct HX as [[L H] _]. destruct (repr_walk hash t L (entries X) H) as (ss & Hw & Hss).
  exists ss. split; [done|]. destruct (walked hash ss (entries X) Hss) as (-> & -> & ->). split_and!; [done..|].
  rewrite <- map_map. apply (NoDup_fmap_2 Some), H.
Qed.

(** A value put under a key is what a get of that key returns, as long as
    its deadline has not passed and the byte budget can hold its cost: whatever
    the table went through before, and whatever the write had to expire, evict
    or rebuild to make room. *)
Theorem kv_get_after_set n lifetime budget track ops (t : kv) k v life now d cost now' :
  reached n lifetime budget track ops t ->
  0 <= cost -> budget = 0 \/ cost <= budget ->
  kv_resolve_deadline life now t = Ok d -> past now' d = false ->
  exists t' t'', kv_set hash k v life now false cost t = Ok t' /\ kv_get hash k now' t' = Ok (Some v, t'').
Proof.
  intros (X & HX & Hw & <- & <- & _ & HM & HB & _)%reached_represents Hc Hbudget Hd Hpast.
  destruct (put_refines hash t X k v life now false cost HX (proj1 Hw)) as (b & Hr & HX' & Hf).
  cbn [kv_step lru_step] in *. rewrite (proj2 (Z.ltb_ge cost 0) Hc) in *.
  change (deadline_for (limits_of t) life now) with (kv_resolve_deadline life now t) in *. rewrite Hd in *.
  destruct (kv_set hash k v life now false cost t) as [t'|]; [|by cbn in Hr]. exists t'. cbn [snd] in HX'.
  destruct (set_front (limits_of t) b k v d now false cost X HM Hbudget) as (e & E & HE & Hk & Hv & Hde).
  destruct (get_refines hash t' _ false k now' HX') as (Hg & _). cbn [kv_step lru_step] in Hg. unfold lru_live in Hg.
  rewrite HE in Hg. unfold find_key in Hg. cbn [List.find] in Hg. unfold is_key in Hg.
  rewrite bool_decide_eq_true_2, (Hde eq_refl), Hpast in Hg by done.
  destruct (kv_get hash k now' t') as [[r t'']|]; [|by cbn in Hg]. exists t''. split; [done|]. cbn in Hg. congruence.
Qed.

(** In a table whose capacity leaves room to spare, putting a new key when
    nothing has expired makes it the most recent entry and evicts nothing but,
    at capacity, the least recently used one: all others stay, in their
    order. *)
Theorem kv_set_evicts_oldest n lifetime track ops (t : kv) k v life now d cost l :
  reached n lifetime 0 track ops t -> 7 * max_slots t <> 8 * n -> 0 <= cost ->
  kv_items now t = Ok l -> zlen l = used t -> k ∉ map fst l ->
  kv_resolve_deadline life now t = Ok d -> past now d = false ->
  exists t', kv_set hash k v life now false cost t = Ok t' /\ kv_items now t' = Ok ((k, v) :: take (Z.to_nat (n - 1)) l).
Proof.
  intros (X & HX & Hw & <- & HB & _ & HM & _)%reached_represents Hroom Hc Hl Hlen Hk Hd Hp.
  destruct (put_new t X k v life now d cost l HX Hw HM HB Hc Hl Hlen Hk Hd Hp) as (t' & Hset & Hi).
  exists t'. split; [done|]. cbn [limits_of l_roomy] in Hi. by rewrite (proj2 (Z.eqb_neq _ _)) in Hi by done.
Qed.

(** C22. A table of 28, 56, 112, ... entries has no lane to spare when it is
    full, and each eviction leaves a tombstone, so the loop that makes room
    never finds any: a new key put at capacity throws out every entry. *)
Theorem kv_tight_table_forgets (j : nat) lifetime track ops (t : kv) k v life now d cost l :
  (j <= 54)%nat -> reached (28 * 2 ^ Z.of_nat j) lifetime 0 track ops t -> used t = 28 * 2 ^ Z.of_nat j -> 0 <= cost ->
  kv_items now t = Ok l -> zlen l = used t -> k ∉ map fst l ->
  kv_resolve_deadline life now t = Ok d -> past now d = false ->
  exists t', kv_set hash k v life now false cost t = Ok t' /\ kv_items now t' = Ok [(k, v)].
Proof.
  intros Hj (X & HX & Hw & Eme & HB & _ & HM & _ & _ & Hms)%reached_represents Hu Hc Hl Hlen Hk Hd Hp.
  destruct (put_new t X k v life now d cost l HX Hw ltac:(lia) HB Hc Hl Hlen Hk Hd Hp) as (t' & Hset & Hi).
  exists t'. split; [done|]. rewrite Hu, Eme, Z.ltb_irrefl in Hi. destruct (tight_sizes j Hj) as [_ Ht].
  cbn [limits_of l_roomy] in Hi. by rewrite Hms, Eme, (proj2 (Z.eqb_eq _ _) Ht) in Hi.
Qed.

End limits.

(** ** Witnesses *)


Definition fresh (n : Z) (lifetime : option Z) (budget : Z) (track : bool) : kv (K := Z) (V := Z) :=
  mk_kv [] [] 0 0 (kv_next_power_of_two ((n * 8 + 6) / 7)) n None None lifetime None 0 budget
    (if track then Some [] else None) 0 0 0 0.

Definition puts (n : nat) : list (op (K := Z) (V := Z)) :=
  map (fun k => Put (Z.of_nat k) 7 None 0 false 1) (seq 0 n).

Definition filled (m : Z) (budget : Z) (n : nat) : kv (K := Z) (V := Z) :=
  snd (kv_run (fun k => k) (puts n) (fresh m (Some 5) budget true)).

Definition held_at (now : Z) (t : kv (K := Z) (V := Z)) : list (Z * Z) :=
  match kv_items now t with Ok l => l | Err _ => [] end.


Lemma kv_runs_as_lru_witness : exists choices, length choices = length (puts 4 ++ [TakeEvicted]) /\
  fst (kv_run (fun k => k) (puts 4 ++ [TakeEvicted]) (fresh 2 (Some 5) 0 true)) =
  fst (lru_run (limits_of (fresh 2 (Some 5) 0 true)) choices (puts 4 ++ [TakeEvicted]) (lru_empty true)).
Proof. apply (kv_runs_as_lru (fun k => k) 2 (Some 5) 0 true); [reflexivity|done]. Defined.

Lemma kv_stays_within_limits_witness : used (filled 9 3 12) <= 9 /\ (3 = 0 \/ bytes (filled 9 3 12) <= 3) /\
  exists ss, walk (Datatypes.S (length (slots (filled 9 3 12)))) (slots (filled 9 3 12)) (lru_head (filled 9 3 12)) = Ok ss /\
    zlen ss = used (filled 9 3 12) /\ fold_right (fun s b => s_cost s + b) 0 ss = bytes (filled 9 3 12) /\
    NoDup (map (fun s => fst <$> s_held s) ss).
Proof.
  apply (kv_stays_within_limits (fun k => k) 9 (Some 5) 3 true (puts 12)).
  split; [done|]. exists (fresh 9 (Some 5) 3 true). split; [by vm_compute|unfold filled; reflexivity].
Defined.

Lemma kv_get_after_set_witness : exists t' t'',
  kv_set (fun k => k) 40 8 (Some 3) 1 false 2 (filled 9 3 12) = Ok t' /\ kv_get (fun k => k) 40 3 t' = Ok (Some 8, t'').
Proof.
  apply (kv_get_after_set (fun k => k) 9 (Some 5) 3 true (puts 12) _ 40 8 (Some 3) 1 (Some 4) 2 3);
    [|done|by right|reflexivity|reflexivity].
  split; [done|]. exists (fresh 9 (Some 5) 3 true). split; [by vm_compute|unfold filled; reflexivity].
Defined.

Lemma kv_set_evicts_oldest_witness : exists t',
  kv_set (fun k => k) 40 8 None 1 false 2 (filled 29 0 29) = Ok t' /\
  kv_items 1 t' = Ok ((40, 8) :: take (Z.to_nat (29 - 1)) (held_at 1 (filled 29 0 29))).
Proof.
  apply (kv_set_evicts_oldest (fun k => k) 29 (Some 5) true (puts 29) _ 40 8 None 1 (Some 6) 2);
    [|by vm_compute|done|by vm_compute|by vm_compute| |by vm_compute|done].
  - split; [done|]. exists (fresh 29 (Some 5) 0 true). split; [by vm_compute|unfold filled; reflexivity].
  - by apply (bool_decide_unpack (40 ∉ map fst (held_at 1 (filled 29 0 29)))); vm_compute.
Defined.

Lemma kv_tight_table_forgets_witness : exists t',
  kv_set (fun k => k) 40 8 None 1 false 2 (filled 28 0 28) = Ok t' /\ kv_items 1 t' = Ok [(40, 8)].
Proof.
  apply (kv_tight_table_forgets (fun k => k) 0 (Some 5) true (puts 28) _ 40 8 None 1 (Some 6) 2 (held_at 1 (filled 28 0 28)));
    [lia| |by vm_compute|done|by vm_compute|by vm_compute| |by vm_compute|done].
  - split; [done|]. exists (fresh 28 (Some 5) 0 true). split; [by vm_compute|unfold filled; reflexivity].
  - by apply (bool_decide_unpack (40 ∉ map fst (held_at 1 (filled 28 0 28)))); vm_compute.
Defined.
