(* ===== verification/CapabilityMap.v ===== *)
(** * Expiring, optionally single-use capabilities: [_capability_map.py]

    [CapabilityMap] over the key/value table it is built on.  The table is the
    class [Table]: what [kv.py] offers it and, in [TableLaws], what that promises;
    [CapabilityClaims] discharges the laws for [KvTable].  The clock is a sequence
    of readings; the table's own reading, in [delete], is the next one. *)

From stdpp Require Import base sets strings numbers list gmap.
From Stdlib Require Import ZArith Lia.
From S2P Require Import Prelude PyCollections KvTable.
#[local] Open Scope Z_scope.

(** ** The table's interface *)

Class Table (K V T : Type) : Type := {
  tbl_max : T -> Z;
  tbl_ttl : T -> time;
  tbl_peek : K -> Z -> T -> res kv_error (option V);
  tbl_held : K -> T -> res kv_error (option V);
  tbl_count : Z -> T -> res kv_error Z;
  tbl_set : K -> V -> option Z -> Z -> bool -> T -> res kv_error T;
  tbl_delete : K -> Z -> T -> res kv_error (bool * T) }.

Definition fresh_at (now : Z) (e : time) : bool := negb (past now e).

(** The deadline a write asks for. *)
Definition deadline_of (ttl : time) (lifetime : option Z) (now : Z) : res kv_error time :=
  match lifetime with
  | None => Ok (match ttl with Some s => Some (now + s) | None => None end)
  | Some s => if s <=? 0 then Err BadTtl else Ok (Some (now + s))
  end.

(** What the table holds is a map from keys to values and deadlines. *)
Class TableLaws (K V T : Type) `{Countable K} `{Table K V T} : Type := {
  holds : T -> gmap K (V * time) -> Prop;
  holds_max : forall t m, holds t m -> Z.of_nat (size m) <= tbl_max t;
  peek_law : forall t m k now, holds t m ->
    tbl_peek k now t = Ok (match m !! k with Some (v, d) => if past now d then None else Some v | None => None end);
  held_law : forall t m k, holds t m -> tbl_held k t = Ok (fst <$> m !! k);
  count_law : forall t m now, holds t m ->
    tbl_count now t = Ok (Z.of_nat (size (filter (fun x => past now (snd (snd x)) = false) m)));
  set_law : forall t m k v lifetime now keep d, holds t m ->
    (k ∈ dom m \/ Z.of_nat (size m) < tbl_max t /\ map_Forall (fun _ x => past now (snd x) = false) m) ->
    deadline_of (tbl_ttl t) lifetime now = Ok d ->
    exists t', tbl_set k v lifetime now keep t = Ok t' /\ tbl_max t' = tbl_max t /\ tbl_ttl t' = tbl_ttl t /\
      holds t' (<[k := (v, match m !! k with
                           | Some (_, d0) => if fresh_at now d0 && keep then d0 else d | None => d end)]> m);
  set_refused : forall t m k v lifetime now keep e, holds t m ->
    deadline_of (tbl_ttl t) lifetime now = Err e -> tbl_set k v lifetime now keep t = Err e;
  delete_law : forall t m k now, holds t m ->
    exists b t', tbl_delete k now t = Ok (b, t') /\ tbl_max t' = tbl_max t /\ tbl_ttl t' = tbl_ttl t /\
      holds t' (delete k m) }.

(** ** The map *)

Inductive Overflow : Type := evict | earliest | refuse.

#[export] Instance Overflow_eq : EqDecision Overflow.
Proof. solve_decision. Defined.

Section capability.
Context {K V T : Type} `{Countable K} `{Table K V T}.

(** [_clock] is called [_reads] times so far. *)
Record CapabilityMap : Type := mk_cap {
  _table : T;
  _clock : nat -> Z;
  _reads : nat;
  _last_now : Z;
  _ttl : time;
  _deadlines : gmap K Z;
  _heap : list (Z * Z * K);
  _keys : gset K;
  _sequence : Z;
  overflow : Overflow;
  _expire_at_deadline : bool }.

Definition with_table (t : T) (c : CapabilityMap) : CapabilityMap :=
  mk_cap t (_clock c) (_reads c) (_last_now c) (_ttl c) (_deadlines c) (_heap c) (_keys c) (_sequence c) (overflow c)
    (_expire_at_deadline c).
Definition with_deadlines (f : gmap K Z -> gmap K Z) (c : CapabilityMap) : CapabilityMap :=
  mk_cap (_table c) (_clock c) (_reads c) (_last_now c) (_ttl c) (f (_deadlines c)) (_heap c) (_keys c) (_sequence c)
    (overflow c) (_expire_at_deadline c).
Definition with_heap (h : list (Z * Z * K)) (c : CapabilityMap) : CapabilityMap :=
  mk_cap (_table c) (_clock c) (_reads c) (_last_now c) (_ttl c) (_deadlines c) h (_keys c) (_sequence c) (overflow c)
    (_expire_at_deadline c).
Definition with_keys (f : gset K -> gset K) (c : CapabilityMap) : CapabilityMap :=
  mk_cap (_table c) (_clock c) (_reads c) (_last_now c) (_ttl c) (_deadlines c) (_heap c) (f (_keys c)) (_sequence c)
    (overflow c) (_expire_at_deadline c).
Definition with_sequence (n : Z) (c : CapabilityMap) : CapabilityMap :=
  mk_cap (_table c) (_clock c) (_reads c) (_last_now c) (_ttl c) (_deadlines c) (_heap c) (_keys c) n (overflow c)
    (_expire_at_deadline c).

(** [clock()]. *)
Definition read_clock (c : CapabilityMap) : Z * CapabilityMap :=
  (_clock c (_reads c),
   mk_cap (_table c) (_clock c) (S (_reads c)) (_last_now c) (_ttl c) (_deadlines c) (_heap c) (_keys c) (_sequence c)
     (overflow c) (_expire_at_deadline c)).

(** [__init__], given the table [KV(...)] made. *)
Definition init (table : res kv_error T) (clock : nat -> Z) (ttl : time) (o : Overflow) (expire_at_deadline : bool) :
    res kv_error CapabilityMap :=
  let! t := table in
  Ok (mk_cap t clock 1 (clock 0%nat) ttl ∅ [] ∅ 0 o expire_at_deadline).

Definition _now (now : option Z) (c : CapabilityMap) : Z * CapabilityMap :=
  let '(current, c) := match now with None => read_clock c | Some n => (n, c) end in
  (current, mk_cap (_table c) (_clock c) (_reads c) current (_ttl c) (_deadlines c) (_heap c) (_keys c) (_sequence c)
              (overflow c) (_expire_at_deadline c)).

(** [self._table.delete(key)]: the table reads the clock itself. *)
Definition table_delete (k : K) (c : CapabilityMap) : res kv_error CapabilityMap :=
  let '(now, c) := read_clock c in
  let! (_, t) := tbl_delete k now (_table c) in
  Ok (with_table t c).

(** [heapq]: the smallest (deadline, sequence) is first. *)
Fixpoint heappush (x : Z * Z * K) (h : list (Z * Z * K)) : list (Z * Z * K) :=
  match h with
  | [] => [x]
  | y :: h =>
    if (fst (fst y) <? fst (fst x)) || ((fst (fst y) =? fst (fst x)) && (snd (fst y) <? snd (fst x)))
    then y :: heappush x h else x :: y :: h
  end.

Definition past_deadline (now deadline : Z) (c : CapabilityMap) : bool :=
  if _expire_at_deadline c then deadline <=? now else deadline <? now.

Fixpoint purge_loop (h : list (Z * Z * K)) (now : Z) (expired : list V) (c : CapabilityMap) :
    res kv_error (list V * CapabilityMap) :=
  match h with
  | [] => Ok (expired, with_heap [] c)
  | (deadline, _, key) :: h' =>
    if negb (past_deadline now deadline c) then Ok (expired, with_heap h c)
    else if bool_decide (_deadlines c !! key <> Some deadline) then purge_loop h' now expired c
    else
      let c := with_deadlines (delete key) c in
      let! value := tbl_held key (_table c) in
      let! c := table_delete key c in
      let c := with_keys (fun s => s ∖ {[key]}) c in
      purge_loop h' now (expired ++ match value with Some v => [v] | None => [] end) c
  end.

Definition _purge_expired (now : Z) (c : CapabilityMap) : res kv_error (list V * CapabilityMap) :=
  purge_loop (_heap c) now [] c.

Fixpoint evict_loop (h : list (Z * Z * K)) (now : Z) (c : CapabilityMap) : res kv_error CapabilityMap :=
  match h with
  | [] => Ok (with_heap [] c)
  | (deadline, _, key) :: h' =>
    if bool_decide (_deadlines c !! key <> Some deadline) then evict_loop h' now c
    else
      let c := with_deadlines (delete key) c in
      let! value := tbl_peek key now (_table c) in
      match value with
      | None => evict_loop h' now c
      | Some _ =>
        let! c := table_delete key c in
        Ok (with_heap h' (with_keys (fun s => s ∖ {[key]}) c))
      end
  end.

Definition _evict_earliest (now : Z) (c : CapabilityMap) : res kv_error CapabilityMap := evict_loop (_heap c) now c.

Definition purge_if_refusing (now : Z) (c : CapabilityMap) : res kv_error CapabilityMap :=
  match overflow c with
  | refuse => let! (_, c) := _purge_expired now c in Ok c
  | _ => Ok c
  end.

(** Whether the key is taken: by the set of keys, or by the table. *)
Definition taken (key : K) (now : Z) (c : CapabilityMap) : res kv_error bool :=
  match overflow c with
  | refuse => Ok (bool_decide (key ∈ _keys c))
  | _ => let! value := tbl_peek key now (_table c) in Ok (match value with Some _ => true | None => false end)
  end.

Definition _len (c : CapabilityMap) : res kv_error (Z * CapabilityMap) :=
  match overflow c with
  | refuse => let! (_, c) := _purge_expired (_last_now c) c in Ok (Z.of_nat (size (_keys c)), c)
  | _ => let! n := tbl_count (_last_now c) (_table c) in Ok (n, c)
  end.

Definition peek (key : K) (now : option Z) (c : CapabilityMap) : res kv_error (option V * CapabilityMap) :=
  let '(current, c) := _now now c in
  let! c := purge_if_refusing current c in
  let! value := tbl_peek key current (_table c) in
  Ok (value, c).

Definition _contains (key : K) (c : CapabilityMap) : res kv_error (bool * CapabilityMap) :=
  let! (value, c) := peek key (Some (_last_now c)) c in
  Ok (match value with Some _ => true | None => false end, c).

Definition held (key : K) (c : CapabilityMap) : res kv_error (option V) := tbl_held key (_table c).

(** What [_put] does before the write; [false] when there is no room. *)
Definition make_room (current : Z) (new : bool) (c : CapabilityMap) : res kv_error (bool * CapabilityMap) :=
  if new then
    match overflow c with
    | refuse => Ok (negb (tbl_max (_table c) <=? Z.of_nat (size (_keys c))), c)
    | earliest =>
      let! n := tbl_count current (_table c) in
      if tbl_max (_table c) <=? n then let! c := _evict_earliest current c in Ok (true, c) else Ok (true, c)
    | evict => Ok (true, c)
    end
  else Ok (true, c).

(** What [_put] notes of the deadline after the write. *)
Definition track (key : K) (ttl : option Z) (current : Z) (keep_deadline new : bool) (c : CapabilityMap) : CapabilityMap :=
  let refusing := bool_decide (overflow c = refuse) in
  let lifetime := match ttl with None => _ttl c | Some s => Some s end in
  let track_deadline := refusing || (new && bool_decide (overflow c = earliest)) in
  match lifetime with
  | Some s =>
    if track_deadline && (new || negb keep_deadline) then
      let c := with_sequence (_sequence c + 1) c in
      let c := with_deadlines (insert key (current + s)) c in
      with_heap (heappush (current + s, _sequence c, key) (_heap c)) c
    else if refusing && negb keep_deadline then with_deadlines (delete key) c
    else c
  | None => if refusing && negb keep_deadline then with_deadlines (delete key) c else c
  end.

Definition _put (key : K) (value : V) (ttl : option Z) (current : Z) (keep_deadline new : bool) (c : CapabilityMap) :
    res kv_error (bool * CapabilityMap) :=
  let! (room, c) := make_room current new c in
  if negb room then Ok (false, c)
  else
    let! t := tbl_set key value ttl current keep_deadline (_table c) in
    let c := with_table t c in
    let c := if new && bool_decide (overflow c = refuse) then with_keys (fun s => {[key]} ∪ s) c else c in
    Ok (true, track key ttl current keep_deadline new c).

Definition put (key : K) (value : V) (ttl now : option Z) (keep_deadline : bool) (c : CapabilityMap) :
    res kv_error (bool * CapabilityMap) :=
  let '(current, c) := _now now c in
  let! c := purge_if_refusing current c in
  let! present := taken key current c in
  _put key value ttl current keep_deadline (negb present) c.

Definition claim (key : K) (value : V) (ttl now : option Z) (c : CapabilityMap) : res kv_error (bool * CapabilityMap) :=
  let '(current, c) := _now now c in
  let! c := purge_if_refusing current c in
  let! present := taken key current c in
  if present : bool then Ok (false, c) else _put key value ttl current false true c.

Definition complete (key : K) (value : V) (now : option Z) (c : CapabilityMap) : res kv_error (bool * CapabilityMap) :=
  let '(current, c) := _now now c in
  let! found := tbl_peek key current (_table c) in
  match found with
  | None => Ok (false, c)
  | Some _ => let! t := tbl_set key value None current true (_table c) in Ok (true, with_table t c)
  end.

Definition forget (key : K) (c : CapabilityMap) : res kv_error CapabilityMap :=
  let! c := table_delete key c in
  Ok (with_keys (fun s => s ∖ {[key]}) (with_deadlines (delete key) c)).

Definition consume (key : K) (predicate : option (V -> bool)) (now : option Z) (c : CapabilityMap) :
    res kv_error (option V * CapabilityMap) :=
  let! (value, c) := peek key now c in
  match value with
  | None => Ok (None, c)
  | Some v =>
    if match predicate with Some p => negb (p v) | None => false end then Ok (None, c)
    else let! c := forget key c in Ok (Some v, c)
  end.

Definition discard (key : K) (c : CapabilityMap) : res kv_error CapabilityMap := forget key c.

Definition sweep (now : option Z) (c : CapabilityMap) : res kv_error (list V * CapabilityMap) :=
  let '(current, c) := _now now c in _purge_expired current c.

Fixpoint deadline_loop (h : list (Z * Z * K)) (c : CapabilityMap) : time * CapabilityMap :=
  match h with
  | [] => (None, with_heap [] c)
  | (deadline, _, key) :: h' =>
    if bool_decide (_deadlines c !! key = Some deadline) then (Some deadline, with_heap h c) else deadline_loop h' c
  end.

Definition next_deadline (c : CapabilityMap) : time * CapabilityMap := deadline_loop (_heap c) c.

End capability.
