(* ===== verification/CapabilityClaims.v ===== *)
(** * Capabilities that refuse when full

    With [overflow = refuse] a [CapabilityMap] is a map of live capabilities:
    every operation first drops what has expired, and is then the operation on
    the map ([sound] and one lemma per operation). *)

From Stdlib Require Import Sorted.
From stdpp Require Import base sets strings numbers list gmap fin_maps.
From Stdlib Require Import ZArith Lia.
From S2P Require Import Prelude PyCollections KvTable KvRefine KvSteps KvClaims CapabilityMap.
#[local] Open Scope Z_scope.

Section facts.
Context {K V T : Type} `{Countable K} `{!Table K V T} `{!TableLaws K V T}.
Abbreviation cap := (CapabilityMap (K := K) (T := T)).
Abbreviation entries := (gmap K (V * time)).

(** ** Live entries *)

Definition is_live (now : Z) (x : K * (V * time)) : Prop := past now (snd (snd x)) = false.

#[export] Instance is_live_dec now x : Decision (is_live now x).
Proof. unfold is_live. apply _. Defined.

Definition live (now : Z) (m : entries) : entries := filter (is_live now) m.
Definition dead (now : Z) (m : entries) : entries := filter (fun x => ~ is_live now x) m.

Lemma live_lookup now (m : entries) k :
  live now m !! k = match m !! k with Some x => if past now (snd x) then None else Some x | None => None end.
Proof.
  unfold live. rewrite map_lookup_filter. destruct (m !! k) as [x|]; [|done]. cbn. unfold is_live. cbn.
  case_guard as Hg; destruct (past now (snd x)) eqn:E; cbn; congruence.
Qed.

Lemma live_same now (m : entries) : (forall k x, m !! k = Some x -> past now (snd x) = false) -> live now m = m.
Proof. intros Hm. apply map_eq. intros k. rewrite live_lookup. destruct (m !! k) as [x|] eqn:E; [|done]. by rewrite (Hm k x E). Qed.

Lemma live_delete now (m : entries) k x : m !! k = Some x -> past now (snd x) = true -> live now (delete k m) = live now m.
Proof.
  intros Hk Hp. apply map_eq. intros j. rewrite !live_lookup. destruct (decide (j = k)) as [->|Hne].
  - by rewrite lookup_delete_eq, Hk, Hp.
  - by rewrite lookup_delete_ne.
Qed.

Lemma live_fresh now (m : entries) k x : live now m !! k = Some x -> past now (snd x) = false.
Proof. rewrite live_lookup. destruct (m !! k) as [y|]; [|done]. destruct (past now (snd y)) eqn:E; [done|]. by intros [= <-]. Qed.

Lemma dead_none now (m : entries) : live now m = m -> dead now m = ∅.
Proof.
  intros Hl. apply map_eq. intros k. rewrite lookup_empty. apply map_lookup_filter_None. right.
  intros x Hk Hn. apply Hn. unfold is_live. cbn. apply (live_fresh now m k). by rewrite Hl.
Qed.

Lemma dead_delete now (m : entries) k x : m !! k = Some x -> past now (snd x) = true ->
  map_to_list (dead now m) ≡ₚ (k, x) :: map_to_list (dead now (delete k m)).
Proof.
  intros Hk Hp. assert (dead now m = <[k := x]> (dead now (delete k m))) as ->.
  { apply map_eq. intros j. destruct (decide (j = k)) as [->|Hne].
    - rewrite lookup_insert_eq. apply map_lookup_filter_Some. split; [done|]. unfold is_live. cbn. congruence.
    - rewrite lookup_insert_ne by done. unfold dead. rewrite !map_lookup_filter. by rewrite lookup_delete_ne. }
  apply map_to_list_insert. apply map_lookup_filter_None. left. by apply lookup_delete_eq.
Qed.

(** ** The invariant *)

Definition earlier_first (x y : Z * Z * K) : Prop := fst (fst x) <= fst (fst y).

Record sound_over (c : cap) (h : list (Z * Z * K)) (m : entries) : Prop := {
  s_refuse : overflow c = refuse;
  s_expire : _expire_at_deadline c = true;
  s_holds : holds (_table c) m;
  s_ttl : tbl_ttl (_table c) = _ttl c;
  s_keys : _keys c = dom m;
  s_deadlines : forall k, _deadlines c !! k = match m !! k with Some (_, d) => d | None => None end;
  s_heap : forall k d, _deadlines c !! k = Some d -> exists s, (d, s, k) ∈ h;
  s_sorted : StronglySorted earlier_first h }.

Definition sound (c : cap) (m : entries) : Prop := sound_over c (_heap c) m.

(** What an operation keeps. *)
Definition settings (c : cap) : (nat -> Z) * time * Z := (_clock c, _ttl c, tbl_max (_table c)).

(** ** Dropping what has expired *)

Lemma all_live (c : cap) h m now : sound_over c h m -> (forall x, x ∈ h -> now < fst (fst x)) -> live now m = m.
Proof.
  intros S Hh. apply live_same. intros k [v d] Hk. cbn. destruct d as [d|]; [|done]. cbn. apply Z.leb_gt.
  assert (_deadlines c !! k = Some d) as Hd by (by rewrite (s_deadlines _ _ _ S), Hk).
  destruct (s_heap _ _ _ S k d Hd) as [s Hs]. exact (Hh _ Hs).
Qed.

Lemma sound_heap (c : cap) h m : sound_over c h m -> sound (with_heap h c) m.
Proof. intros []. by split. Qed.

Lemma purge_loop_sound now : forall h (c : cap) m acc, sound_over c h m ->
  exists l c', purge_loop h now acc c = Ok (acc ++ l, c') /\ sound c' (live now m) /\ settings c' = settings c /\
    _last_now c' = _last_now c /\ l ≡ₚ map fst (map snd (map_to_list (dead now m))).
Proof.
  induction h as [|[[d s] k] h IH]; intros c m acc S; cbn [purge_loop].
  - exists [], (with_heap [] c). rewrite app_nil_r. pose proof (all_live c [] m now S ltac:(intros x Hx; by apply elem_of_nil in Hx)) as Hl.
    rewrite Hl. split_and!; [done|by apply sound_heap|done|done|]. rewrite dead_none by done. by rewrite map_to_list_empty.
  - unfold past_deadline. rewrite (s_expire _ _ _ S). destruct (Z.leb_spec d now) as [Hpast|Hnot]; cbn [negb].
    2: { exists [], (with_heap ((d, s, k) :: h) c). rewrite app_nil_r.
      assert (live now m = m) as Hl.
      { apply (all_live c _ m now S). intros x Hx. pose proof (s_sorted _ _ _ S) as Hs.
        apply StronglySorted_inv in Hs as [_ Hs]. apply elem_of_cons in Hx as [->|Hx]; [done|].
        pose proof (proj1 (Forall_forall _ _) Hs x Hx) as He. unfold earlier_first in He. cbn in He. lia. }
      rewrite Hl. split_and!; [done|by apply sound_heap|done|done|]. rewrite dead_none by done. by rewrite map_to_list_empty. }
    case_bool_decide as Hstale.
    + apply IH. destruct S as [S1 S2 S3 S4 S5 S6 S7 S8]. split; try done; [|by apply StronglySorted_inv in S8 as [? _]].
      intros k0 d0 Hd. destruct (S7 k0 d0 Hd) as [s0 Hin]. exists s0. apply elem_of_cons in Hin as [E|Hin]; [|done].
      injection E as -> -> ->. done.
    + apply bool_decide_eq_false, dec_stable in Hstale || idtac.
      assert (_deadlines c !! k = Some d) as Hd by (destruct (decide (_deadlines c !! k = Some d)); [done|by exfalso]).
      pose proof (s_deadlines _ _ _ S k) as Hm. rewrite Hd in Hm. destruct (m !! k) as [[v d']|] eqn:Hk; [|done].
      cbn in Hm. subst d'. cbn [with_deadlines _table].
      rewrite (held_law _ _ k (s_holds _ _ _ S)), Hk. cbn [res_bind]. unfold table_delete.
      destruct (delete_law (_table c) m k (_clock c (_reads c)) (s_holds _ _ _ S)) as (b & t' & Hdel & Hmax & Httl & Hh).
      cbn [read_clock with_deadlines _clock _reads _table]. rewrite Hdel. cbn [res_bind].
      set (c2 := with_keys _ _).
      destruct (IH c2 (delete k m) (acc ++ [v])) as (l & c' & Hp & S' & Hset & Hln & Hperm).
      * destruct S as [S1 S2 S3 S4 S5 S6 S7 S8]. split; try done.
        -- cbn. by rewrite Httl.
        -- cbn. rewrite S5, dom_delete_L. done.
        -- cbn. intros j. destruct (decide (j = k)) as [->|Hne].
           ++ by rewrite !lookup_delete_eq.
           ++ by rewrite !lookup_delete_ne.
        -- cbn. intros j d0 Hj. apply lookup_delete_Some in Hj as [Hne Hj]. destruct (S7 j d0 Hj) as [s0 Hin].
           exists s0. apply elem_of_cons in Hin as [E|Hin]; [|done]. injection E as -> -> ->. done.
        -- by apply StronglySorted_inv in S8 as [? _].
      * exists (v :: l), c'. cbn [option_map fmap option_fmap fst] in *. rewrite Hp, <- app_assoc.
        assert (past now (Some d) = true) as Hpd by by apply Z.leb_le.
        split_and!; [done| | |done|].
        -- by rewrite <- (live_delete now m k (v, Some d)).
        -- rewrite Hset. unfold settings. cbn. by rewrite Hmax.
        -- rewrite (dead_delete now m k (v, Some d)) by done. cbn. by rewrite Hperm.
Qed.

(** ** The time of an operation *)

Definition time_of (now : option Z) (c : cap) : Z := fst (_now now c).

Lemma sound_now (c : cap) m now : sound c m -> sound (snd (_now now c)) m.
Proof. intros []. by destruct now; split. Qed.

Lemma settings_now (c : cap) now : settings (snd (_now now c)) = settings c.
Proof. by destruct now. Qed.

(** What every operation starts with. *)
Lemma prepare (c : cap) m now : sound c m -> exists c', purge_if_refusing (time_of now c) (snd (_now now c)) = Ok c' /\
  sound c' (live (time_of now c) m) /\ settings c' = settings c /\ _last_now c' = time_of now c.
Proof.
  intros S%(sound_now c m now). unfold purge_if_refusing, _purge_expired. rewrite (s_refuse _ _ _ S).
  destruct (purge_loop_sound (time_of now c) _ _ m [] S) as (l & c' & -> & S' & Hset & Hln & _).
  exists c'. split_and!; [done|done|by rewrite Hset, settings_now|]. rewrite Hln. by destruct now.
Qed.

Lemma taken_sound (c : cap) m k now : sound c m -> taken k now c = Ok (bool_decide (k ∈ dom m)).
Proof. intros S. unfold taken. by rewrite (s_refuse _ _ _ S), (s_keys _ _ _ S). Qed.

(** ** Writing *)

Lemma heappush_elem x y h : y ∈ heappush (K := K) x h <-> y = x \/ y ∈ h.
Proof.
  induction h as [|z h IH]; cbn [heappush]; [set_solver|]. destruct (_ || _); [|set_solver].
  rewrite elem_of_cons, IH. set_solver.
Qed.

Lemma heappush_sorted x h : StronglySorted earlier_first h -> StronglySorted earlier_first (heappush (K := K) x h).
Proof.
  induction 1 as [|y h Hs IH Hy]; cbn [heappush]; [repeat constructor|].
  destruct (_ || _) eqn:E.
  - constructor; [done|]. apply Forall_forall. intros z [->|Hz]%heappush_elem; [|by apply (proj1 (Forall_forall _ _) Hy)].
    unfold earlier_first. apply orb_true_iff in E as [E|[E _]%andb_true_iff]; [apply Z.ltb_lt in E|apply Z.eqb_eq in E]; lia.
  - apply orb_false_iff in E as [E _]. apply Z.ltb_ge in E. constructor; [by constructor|].
    constructor; [exact E|]. eapply Forall_impl; [exact Hy|]. unfold earlier_first. intros z Hz. cbn in *. lia.
Qed.

(** What [_put] writes. *)
Definition written (keep : bool) (d : time) (m : entries) (k : K) : time :=
  match m !! k with Some (_, d0) => if keep then d0 else d | None => d end.

Lemma track_sound (c : cap) m k v lifetime now keep d :
  sound c m -> deadline_of (_ttl c) lifetime now = Ok d ->
  forall t', holds t' (<[k := (v, written keep d m k)]> m) -> tbl_ttl t' = _ttl c ->
  let new := negb (bool_decide (k ∈ dom m)) in
  let c1 := with_table t' c in
  let c2 := if new && bool_decide (overflow c1 = refuse) then with_keys (fun s => {[k]} ∪ s) c1 else c1 in
  sound (track k lifetime now keep new c2) (<[k := (v, written keep d m k)]> m).
Proof.
  intros [S1 S2 S3 S4 S5 S6 S7 S8] Hd t' Hh Httl new c1 c2.
  assert (_keys c2 = {[k]} ∪ dom m) as Hkeys.
  { unfold c2, new, c1. cbn. rewrite S1, (bool_decide_eq_true_2 (refuse = refuse)) by done.
    destruct (bool_decide_reflect (k ∈ dom m)); cbn; rewrite S5; set_solver. }
  assert (overflow c2 = refuse /\ _expire_at_deadline c2 = true /\ _table c2 = t' /\ _ttl c2 = _ttl c /\
    _deadlines c2 = _deadlines c /\ _heap c2 = _heap c) as (C1 & C2 & C3 & C4 & C5 & C6)
    by (unfold c2, c1; by destruct (_ && _)).
  assert (forall f h n, (forall j, f (_deadlines c) !! j = match (<[k := (v, written keep d m k)]> m) !! j with
      Some (_, d) => d | None => None end) -> (forall x, x ∈ _heap c -> x ∈ h) ->
      (forall d', f (_deadlines c) !! k = Some d' -> exists s, (d', s, k) ∈ h) ->
      StronglySorted earlier_first h ->
      sound (with_heap h (with_deadlines f (with_sequence n c2))) (<[k := (v, written keep d m k)]> m)) as Hmake.
  { intros f h n Hf Hin Hk Hsort. split; cbn; rewrite ?C1, ?C2, ?C3, ?C4, ?C5; try done.
    - rewrite Hkeys. by rewrite dom_insert_L.
    - intros j d' Hj. destruct (decide (j = k)) as [->|Hne]; [by apply Hk|].
      pose proof (Hf j) as E. rewrite Hj, lookup_insert_ne in E by done. rewrite <- S6 in E.
      destruct (S7 j d' (eq_sym E)) as [s Hs]. exists s. by apply Hin. }
  assert (forall j, j <> k -> match (<[k := (v, written keep d m k)]> m) !! j with Some (_, d) => d | None => None end =
    _deadlines c !! j) as Hother by (intros j Hj; by rewrite lookup_insert_ne, S6).
  assert (bool_decide (overflow c2 = refuse) = true) as HR by (rewrite C1; by apply bool_decide_eq_true_2).
  assert (with_heap (_heap c2) (with_deadlines id (with_sequence (_sequence c2) c2)) = c2) as Hid by by destruct c2.
  unfold track. rewrite HR. cbn [orb andb]. rewrite C4.
  set (lf := match lifetime with Some s => Some s | None => _ttl c end).
  assert (d = match lf with Some s => Some (now + s) | None => None end) as Ed.
  { unfold lf. unfold deadline_of in Hd. destruct lifetime as [s|]; [destruct (s <=? 0); [done|]|]; by injection Hd as <-. }
  assert (m !! k = None /\ new = true \/ exists x, m !! k = Some x /\ new = false) as Hnew.
  { unfold new. destruct (bool_decide_reflect (k ∈ dom m)) as [Hk|Hk]; [right|left].
    - apply elem_of_dom in Hk as [x Hx]. by exists x.
    - by apply not_elem_of_dom in Hk. }
  (* the deadline is noted *)
  assert (forall s, d = Some (now + s) -> new || negb keep = true -> sound (with_heap (heappush (now + s, _sequence c2 + 1, k) (_heap c2))
    (with_deadlines (insert k (now + s)) (with_sequence (_sequence c2 + 1) c2))) (<[k := (v, written keep d m k)]> m)) as Hnoted.
  { intros s Es Hw. assert (written keep d m k = d) as Ew.
    { unfold written. destruct Hnew as [[-> _]|([v0 d0] & -> & En)]; [done|]. rewrite En in Hw. by destruct keep. }
    apply Hmake.
    - intros j. destruct (decide (j = k)) as [->|Hne]; [by rewrite !lookup_insert_eq, Ew|]. by rewrite lookup_insert_ne, Hother.
    - intros x Hx. apply heappush_elem. right. by rewrite C6.
    - intros d'. rewrite lookup_insert_eq. intros [= <-]. exists (_sequence c2 + 1). apply heappush_elem. by left.
    - apply heappush_sorted. by rewrite C6. }
  (* nothing to note *)
  assert (written keep d m k = match m !! k with Some (_, d) => d | None => None end ->
    sound c2 (<[k := (v, written keep d m k)]> m)) as Hkept.
  { intros Ew. rewrite <- Hid. apply Hmake; rewrite ?C6; [|done|exact (S7 k)|done].
    intros j. cbn. destruct (decide (j = k)) as [->|Hne]; [by rewrite lookup_insert_eq, S6, Ew|by rewrite Hother]. }
  destruct lf as [s|]; [destruct (new || negb keep) eqn:Ew; [by apply Hnoted|]|].
  - apply orb_false_iff in Ew as [En Ek]. apply negb_false_iff in Ek as ->. cbn [negb]. apply Hkept.
    unfold written. destruct Hnew as [[_ ?]|([v0 d0] & -> & _)]; [congruence|done].
  - destruct keep; cbn [negb].
    + apply Hkept. unfold written. by destruct (m !! k) as [[v0 d0]|].
    + assert (written false d m k = None) as Ew by (unfold written; destruct (m !! k) as [[v0 d0]|]; done).
      replace (with_deadlines (delete k) c2) with
        (with_heap (_heap c2) (with_deadlines (delete k) (with_sequence (_sequence c2) c2))) by by destruct c2.
      apply Hmake; rewrite ?C6; [|done| |done].
      * intros j. destruct (decide (j = k)) as [->|Hne]; [by rewrite lookup_delete_eq, lookup_insert_eq, Ew|].
        by rewrite lookup_delete_ne, Hother.
      * intros d'. by rewrite lookup_delete_eq.
Qed.

(** [_put], the key new or not, in a map where nothing has expired. *)
Lemma put_sound (c : cap) m k v lifetime now keep d : sound c m -> live now m = m ->
  deadline_of (_ttl c) lifetime now = Ok d -> exists c',
  _put k v lifetime now keep (negb (bool_decide (k ∈ dom m))) c =
    Ok (bool_decide (k ∈ dom m) || (Z.of_nat (size m) <? tbl_max (_table c)), c') /\
  sound c' (if bool_decide (k ∈ dom m) || (Z.of_nat (size m) <? tbl_max (_table c))
            then <[k := (v, written keep d m k)]> m else m) /\ settings c' = settings c /\ _last_now c' = _last_now c.
Proof.
  intros S Hlive Hd. unfold _put, make_room. rewrite (s_refuse _ _ _ S), (s_keys _ _ _ S), size_dom.
  set (max := tbl_max (_table c)). set (n := Z.of_nat (size m)).
  assert ((if negb (bool_decide (k ∈ dom m)) then Ok (negb (max <=? n), c) else Ok (true, c)) =
    Ok (E := kv_error) (bool_decide (k ∈ dom m) || (n <? max), c)) as ->.
  { destruct (bool_decide (k ∈ dom m)); cbn [negb orb]; [done|]. by rewrite Z.ltb_antisym. }
  cbn [res_bind]. destruct (bool_decide (k ∈ dom m) || (n <? max)) eqn:Eroom; cbn [negb]; [|by exists c].
  destruct (set_law (_table c) m k v lifetime now keep d (s_holds _ _ _ S)) as (t' & Hset & Hmax & Httl & Hh).
  { apply orb_true_iff in Eroom as [E|E]; [left; by apply bool_decide_eq_true in E|right].
    split; [by apply Z.ltb_lt in E|]. intros j x Hj. apply (live_fresh now m j). by rewrite Hlive. }
  { by rewrite (s_ttl _ _ _ S). }
  rewrite Hset. cbn [res_bind].
  assert (match m !! k with Some (_, d0) => if fresh_at now d0 && keep then d0 else d | None => d end = written keep d m k) as Ew.
  { unfold written. destruct (m !! k) as [[v0 d0]|] eqn:Hk; [|done]. assert (past now d0 = false) as Hp.
    { apply (live_fresh now m k (v0, d0)). by rewrite Hlive. } unfold fresh_at. by rewrite Hp. }
  rewrite Ew in Hh. rewrite (s_ttl _ _ _ S) in Httl.
  pose proof (track_sound c m k v lifetime now keep d S Hd t' Hh Httl) as Htrack. cbn zeta in Htrack.
  eexists. split; [done|]. split; [exact Htrack|]. set (new := negb _). clear Htrack. cbn [with_table overflow].
  rewrite (s_refuse _ _ _ S). unfold settings, track.
  destruct (new && bool_decide (refuse = refuse)), (match lifetime with Some s => Some s | None => _ end); cbn;
    repeat (destruct (_ && _)); cbn; rewrite ?Hmax; done.
Qed.

(** ** One operation *)

Inductive cap_op : Type :=
| CPeek (k : K) (now : option Z)
| CContains (k : K)
| CHeld (k : K)
| CPut (k : K) (v : V) (ttl now : option Z) (keep_deadline : bool)
| CClaim (k : K) (v : V) (ttl now : option Z)
| CComplete (k : K) (v : V) (now : option Z)
| CConsume (k : K) (predicate : option (V -> bool)) (now : option Z)
| CDiscard (k : K)
| CSweep (now : option Z)
| CLen.

Inductive cap_out : Type :=
| OValue (v : option V)
| OFlag (b : bool)
| OValues (l : list V)
| OCount (n : Z)
| ODone.

Definition out_of {A} (f : A -> cap_out) (r : res kv_error (A * cap)) : res kv_error (cap_out * cap) :=
  let! (a, c) := r in Ok (f a, c).

Definition cap_step (o : cap_op) (c : cap) : res kv_error (cap_out * cap) :=
  match o with
  | CPeek k now => out_of OValue (peek k now c)
  | CContains k => out_of OFlag (_contains (V := V) k c)
  | CHeld k => let! v := held k c in Ok (OValue v, c)
  | CPut k v ttl now keep => out_of OFlag (put k v ttl now keep c)
  | CClaim k v ttl now => out_of OFlag (claim k v ttl now c)
  | CComplete k v now => out_of OFlag (complete k v now c)
  | CConsume k p now => out_of OValue (consume k p now c)
  | CDiscard k => let! c := discard (V := V) k c in Ok (ODone, c)
  | CSweep now => out_of OValues (sweep now c)
  | CLen => out_of OCount (_len (V := V) c)
  end.

(** When it happens. *)
Definition op_time (o : cap_op) (c : cap) : Z :=
  match o with
  | CPeek _ now | CPut _ _ _ now _ | CClaim _ _ _ now | CComplete _ _ now | CConsume _ _ now | CSweep now => time_of now c
  | CContains _ | CHeld _ | CDiscard _ | CLen => _last_now c
  end.

(** ** The map of live capabilities *)

Definition spec_put (max : Z) (ttl : time) (k : K) (v : V) (lifetime : option Z) (t : Z) (keep : bool) (m : entries) :
    res kv_error (bool * entries) :=
  let m := live t m in
  if bool_decide (k ∈ dom m) || (Z.of_nat (size m) <? max)
  then let! d := deadline_of ttl lifetime t in Ok (true, <[k := (v, written keep d m k)]> m)
  else Ok (false, m).

Definition spec_step (max : Z) (ttl : time) (o : cap_op) (t : Z) (m : entries) : res kv_error (cap_out * entries) :=
  match o with
  | CPeek k _ => Ok (OValue (fst <$> live t m !! k), live t m)
  | CContains k => Ok (OFlag (bool_decide (k ∈ dom (live t m))), live t m)
  | CHeld k => Ok (OValue (fst <$> m !! k), m)
  | CPut k v lifetime _ keep => let! (b, m) := spec_put max ttl k v lifetime t keep m in Ok (OFlag b, m)
  | CClaim k v lifetime _ =>
    if bool_decide (k ∈ dom (live t m)) then Ok (OFlag false, live t m)
    else let! (b, m) := spec_put max ttl k v lifetime t false m in Ok (OFlag b, m)
  | CComplete k v _ =>
    match live t m !! k with
    | None => Ok (OFlag false, m)
    | Some (_, d) => Ok (OFlag true, <[k := (v, d)]> m)
    end
  | CConsume k p _ =>
    match live t m !! k with
    | None => Ok (OValue None, live t m)
    | Some (v, _) =>
      if match p with Some p => negb (p v) | None => false end then Ok (OValue None, live t m)
      else Ok (OValue (Some v), delete k (live t m))
    end
  | CDiscard k => Ok (ODone, delete k m)
  | CSweep _ => Ok (OValues (map fst (map snd (map_to_list (dead t m)))), live t m)
  | CLen => Ok (OCount (Z.of_nat (size (live t m))), live t m)
  end.

(** The values a sweep returns come in the order of their deadlines. *)
Definition same_out (a b : cap_out) : Prop :=
  match a, b with OValues l, OValues l' => l ≡ₚ l' | _, _ => a = b end.

Definition refines (c : cap) (want : res kv_error (cap_out * entries)) (got : res kv_error (cap_out * cap)) : Prop :=
  match want with
  | Err e => got = Err e
  | Ok (r, m') => exists r' c', got = Ok (r', c') /\ same_out r' r /\ sound c' m' /\ settings c' = settings c
  end.

Lemma live_live t (m : entries) : live t (live t m) = live t m.
Proof. apply live_same. intros k x Hk. by eapply live_fresh. Qed.

Lemma peek_prepared (c : cap) m k t : sound c m -> live t m = m ->
  tbl_peek k t (_table c) = Ok (fst <$> m !! k).
Proof.
  intros S Hl. rewrite (peek_law _ _ k t (s_holds _ _ _ S)). destruct (m !! k) as [[v d]|] eqn:Hk; [|done].
  assert (past t d = false) as -> by (apply (live_fresh t m k (v, d)); by rewrite Hl). done.
Qed.

Lemma forget_sound (c : cap) m k : sound c m ->
  exists c', forget (V := V) k c = Ok c' /\ sound c' (delete k m) /\ settings c' = settings c.
Proof.
  intros [S1 S2 S3 S4 S5 S6 S7 S8]. unfold forget, table_delete. cbn [read_clock].
  destruct (delete_law (_table c) m k (_clock c (_reads c)) S3) as (b & t' & Hdel & Hmax & Httl & Hh).
  cbn [_table]. rewrite Hdel. cbn [res_bind]. eexists. split; [done|]. split; [|unfold settings; cbn; by rewrite Hmax].
  split; cbn; try done.
  - by rewrite Httl.
  - by rewrite S5, dom_delete_L.
  - intros j. destruct (decide (j = k)) as [->|Hne]; [by rewrite !lookup_delete_eq|by rewrite !lookup_delete_ne].
  - intros j d Hj. apply lookup_delete_Some in Hj as [Hne Hj]. by apply S7.
Qed.

Lemma settings_inv (c c' : cap) : settings c' = settings c ->
  tbl_max (_table c') = tbl_max (_table c) /\ _ttl c' = _ttl c.
Proof. unfold settings. intros E. split; congruence. Qed.

(** [_put] against the map. *)
Lemma put_inner_refines (c : cap) m k v lifetime t keep : sound c m -> live t m = m ->
  match spec_put (tbl_max (_table c)) (_ttl c) k v lifetime t keep m with
  | Err e => _put k v lifetime t keep (negb (bool_decide (k ∈ dom m))) c = Err e
  | Ok (b, m') => exists c', _put k v lifetime t keep (negb (bool_decide (k ∈ dom m))) c = Ok (b, c') /\
      sound c' m' /\ settings c' = settings c
  end.
Proof.
  intros S Hl. unfold spec_put. rewrite Hl.
  destruct (deadline_of (_ttl c) lifetime t) as [d|e] eqn:Hd.
  - destruct (put_sound c m k v lifetime t keep d S Hl Hd) as (c' & Hp & S' & Hs & _).
    destruct (bool_decide (k ∈ dom m) || (Z.of_nat (size m) <? tbl_max (_table c))); cbn [res_bind]; by exists c'.
  - unfold _put, make_room. rewrite (s_refuse _ _ _ S), (s_keys _ _ _ S), size_dom.
    set (max := tbl_max (_table c)). set (n := Z.of_nat (size m)).
    assert ((if negb (bool_decide (k ∈ dom m)) then Ok (negb (max <=? n), c) else Ok (true, c)) =
      Ok (E := kv_error) (bool_decide (k ∈ dom m) || (n <? max), c)) as ->.
    { destruct (bool_decide (k ∈ dom m)); cbn [negb orb]; [done|]. by rewrite Z.ltb_antisym. }
    cbn [res_bind]. destruct (bool_decide (k ∈ dom m) || (n <? max)); cbn [negb res_bind]; [|by exists c].
    rewrite <- (s_ttl _ _ _ S) in Hd. by rewrite (set_refused _ m k v lifetime t keep e (s_holds _ _ _ S) Hd).
Qed.

Lemma cap_put_refines (c : cap) m k v lifetime now keep : sound c m ->
  let t := time_of now c in
  match spec_put (tbl_max (_table c)) (_ttl c) k v lifetime t keep m with
  | Err e => put k v lifetime now keep c = Err e
  | Ok (b, m') => exists c', put k v lifetime now keep c = Ok (b, c') /\ sound c' m' /\ settings c' = settings c
  end.
Proof.
  intros S t. destruct (prepare c m now S) as (c1 & Hp & S1 & Hs & _). destruct (settings_inv _ _ Hs) as [Emax Ettl].
  unfold put. rewrite (surjective_pairing (_now now c)). fold (time_of now c). rewrite Hp. cbn [res_bind].
  rewrite (taken_sound _ _ _ _ S1). cbn [res_bind].
  pose proof (put_inner_refines c1 _ k v lifetime t keep S1 (live_live t m)) as Hput. rewrite Emax, Ettl in Hput.
  replace (spec_put (tbl_max (_table c)) (_ttl c) k v lifetime t keep m) with
    (spec_put (tbl_max (_table c)) (_ttl c) k v lifetime t keep (live t m)) by (unfold spec_put; by rewrite live_live).
  destruct (spec_put _ _ _ _ _ _ _ _) as [[b m']|e]; [|done].
  destruct Hput as (c' & Hput & S' & Hs'). exists c'. split_and!; [done|done|congruence].
Qed.

Lemma cap_claim_refines (c : cap) m k v lifetime now : sound c m ->
  refines c (spec_step (tbl_max (_table c)) (_ttl c) (CClaim k v lifetime now) (time_of now c) m)
    (cap_step (CClaim k v lifetime now) c).
Proof.
  intros S. destruct (prepare c m now S) as (c1 & Hp & S1 & Hs & _). destruct (settings_inv _ _ Hs) as [Emax Ettl].
  cbn [spec_step cap_step]. unfold claim, out_of. rewrite (surjective_pairing (_now now c)). fold (time_of now c).
  rewrite Hp. cbn [res_bind]. rewrite (taken_sound _ _ _ _ S1). cbn [res_bind]. set (t := time_of now c) in *.
  pose proof (put_inner_refines c1 _ k v lifetime t false S1 (live_live t m)) as Hput. rewrite Emax, Ettl in Hput.
  destruct (bool_decide (k ∈ dom (live t m))); [by exists (OFlag false), c1|]. cbn [negb] in Hput.
  replace (spec_put (tbl_max (_table c)) (_ttl c) k v lifetime t false m) with
    (spec_put (tbl_max (_table c)) (_ttl c) k v lifetime t false (live t m)) by (unfold spec_put; by rewrite live_live).
  destruct (spec_put _ _ _ _ _ _ _ _) as [[b m']|e]; [|cbn [refines res_bind]; by rewrite Hput].
  destruct Hput as (c' & Hput & S' & Hs'). rewrite Hput. exists (OFlag b), c'. split_and!; [done|done|done|congruence].
Qed.

Lemma cap_peek_refines (c : cap) m k now : sound c m -> exists c',
  peek (V := V) k now c = Ok (fst <$> live (time_of now c) m !! k, c') /\ sound c' (live (time_of now c) m) /\ settings c' = settings c.
Proof.
  intros S. destruct (prepare c m now S) as (c1 & Hp & S1 & Hs & _). unfold peek.
  rewrite (surjective_pairing (_now now c)). fold (time_of now c). rewrite Hp. cbn [res_bind].
  rewrite (peek_prepared c1 _ k _ S1 (live_live _ _)). cbn [res_bind]. by exists c1.
Qed.

Lemma complete_refines (c : cap) m k v now : sound c m ->
  refines c (spec_step (tbl_max (_table c)) (_ttl c) (CComplete k v now) (time_of now c) m)
    (cap_step (CComplete k v now) c).
Proof.
  intros S. pose proof (sound_now c m now S) as S1. pose proof (settings_now c now) as Hs.
  cbn [spec_step cap_step]. unfold complete, out_of. rewrite (surjective_pairing (_now now c)). fold (time_of now c).
  set (c1 := snd (_now now c)) in *. set (t := time_of now c).
  rewrite (peek_law _ _ k t (s_holds _ _ _ S1)), live_lookup. cbn [res_bind].
  destruct (m !! k) as [[v0 d0]|] eqn:Hk; cbn [snd]; [|by exists (OFlag false), c1].
  destruct (past t d0) eqn:Hp; [by exists (OFlag false), c1|].
  destruct (set_law (_table c1) m k v None t true (match tbl_ttl (_table c1) with Some s => Some (t + s) | None => None end)
    (s_holds _ _ _ S1)) as (t' & Hset & Hmax & Httl & Hh); [left; apply elem_of_dom; by rewrite Hk|done|].
  rewrite Hset. cbn [res_bind]. rewrite Hk in Hh. unfold fresh_at in Hh. rewrite Hp in Hh. cbn [negb andb] in Hh.
  exists (OFlag true), (with_table t' c1). split_and!; [done|done| |].
  - destruct S1 as [A1 A2 A3 A4 A5 A6 A7 A8]. split; cbn; try done.
    + by rewrite Httl.
    + rewrite A5, dom_insert_lookup_L; [done|]. by exists (v0, d0).
    + intros j. rewrite A6. destruct (decide (j = k)) as [->|Hne]; [by rewrite lookup_insert_eq, Hk|by rewrite lookup_insert_ne].
  - rewrite <- Hs. unfold settings. cbn. by rewrite Hmax.
Qed.

Lemma consume_refines (c : cap) m k p now : sound c m ->
  refines c (spec_step (tbl_max (_table c)) (_ttl c) (CConsume k p now) (time_of now c) m) (cap_step (CConsume k p now) c).
Proof.
  intros S. destruct (cap_peek_refines c m k now S) as (c1 & Hp & S1 & Hs). cbn [spec_step cap_step]. unfold consume, out_of.
  rewrite Hp. cbn [res_bind]. destruct (live (time_of now c) m !! k) as [[v d]|]; cbn [fmap option_fmap option_map fst];
    [|by exists (OValue None), c1].
  destruct (match p with Some p => negb (p v) | None => false end); [by exists (OValue None), c1|].
  destruct (forget_sound c1 _ k S1) as (c2 & Hf & S2 & Hs2). rewrite Hf. exists (OValue (Some v)), c2.
  split_and!; [done|done|done|congruence].
Qed.

Lemma cap_purge_refines (c : cap) m t : sound c m -> exists l c', _purge_expired (V := V) t c = Ok (l, c') /\
  sound c' (live t m) /\ settings c' = settings c /\ l ≡ₚ map fst (map snd (map_to_list (dead t m))).
Proof.
  intros S. unfold _purge_expired. destruct (purge_loop_sound t _ c m [] S) as (l & c' & Hp & S' & Hs & _ & Hl).
  by exists l, c'.
Qed.

(** Every operation is the operation on the map. *)
Lemma step_refines (c : cap) m o : sound c m ->
  refines c (spec_step (tbl_max (_table c)) (_ttl c) o (op_time o c) m) (cap_step o c).
Proof.
  intros S. destruct o as [k now|k|k|k v lf now keep|k v lf now|k v now|k p now|k|now|]; cbn [op_time];
    [| | | |by apply cap_claim_refines|by apply complete_refines|by apply consume_refines| | |]; cbn [spec_step cap_step].
  - destruct (cap_peek_refines c m k now S) as (c1 & Hp & S1 & Hs). unfold out_of. rewrite Hp. by eexists _, c1.
  - destruct (cap_peek_refines c m k (Some (_last_now c)) S) as (c1 & Hp & S1 & Hs). unfold out_of, _contains. rewrite Hp.
    change (time_of (Some (_last_now c)) c) with (_last_now c) in *. cbn [res_bind]. eexists _, c1. split_and!; [done| |done|done].
    cbn. destruct (live (_last_now c) m !! k) as [x|] eqn:Hk; cbn.
    + rewrite bool_decide_eq_true_2; [done|]. apply elem_of_dom. by exists x.
    + rewrite bool_decide_eq_false_2; [done|]. by apply not_elem_of_dom.
  - unfold held. rewrite (held_law _ _ k (s_holds _ _ _ S)). cbn [res_bind]. by eexists _, c.
  - pose proof (cap_put_refines c m k v lf now keep S) as Hput. cbn zeta in Hput. unfold out_of.
    destruct (spec_put _ _ _ _ _ _ _ _) as [[b m']|e]; [|cbn [refines res_bind]; by rewrite Hput].
    destruct Hput as (c' & -> & S' & Hs'). by exists (OFlag b), c'.
  - unfold discard. destruct (forget_sound c m k S) as (c1 & -> & S1 & Hs). by exists ODone, c1.
  - unfold out_of, sweep. rewrite (surjective_pairing (_now now c)). fold (time_of now c).
    destruct (cap_purge_refines (snd (_now now c)) m (time_of now c) (sound_now c m now S)) as (l & c1 & -> & S1 & Hs & Hl).
    exists (OValues l), c1. split_and!; [done|done|done|]. by rewrite Hs, settings_now.
  - unfold out_of, _len. rewrite (s_refuse _ _ _ S).
    destruct (cap_purge_refines c m (_last_now c) S) as (l & c1 & -> & S1 & Hs & Hl). cbn [res_bind].
    rewrite (s_keys _ _ _ S1), size_dom. by eexists _, c1.
Qed.

(** ** Readings of the clock *)

(** What an operation that happens at [t] leaves of the clock. *)
Definition ticked (t : Z) (c c' : cap) : Prop := _last_now c' = t /\ (_reads c <= _reads c')%nat.

Lemma ticked_trans t (a b c : cap) : ticked t a b -> _last_now b = t -> ticked t b c -> ticked t a c.
Proof. unfold ticked. intros [??] ? [??]. split; [done|lia]. Qed.

Lemma ticked_delete k (c c' : cap) : table_delete (V := V) k c = Ok c' -> ticked (_last_now c) c c'.
Proof.
  unfold table_delete. cbn [read_clock _table]. destruct (tbl_delete _ _ _) as [[b t]|]; cbn; [|done]. intros [= <-]. split; cbn; [done|lia].
Qed.

Lemma ticked_purge now h : forall acc (c : cap) l c', purge_loop h now acc c = Ok (l, c') -> ticked (_last_now c) c c'.
Proof.
  induction h as [|[[d s] k] h IH]; intros acc c l c'; cbn [purge_loop]; [intros [= _ <-]; split; cbn; [done|lia]|].
  destruct (negb _); [intros [= _ <-]; split; cbn; [done|lia]|]. case_bool_decide; [by apply IH|].
  destruct (tbl_held _ _) as [v|]; [|done]. cbn [res_bind]. destruct (table_delete k _) as [c1|] eqn:Hd; [|done]. cbn [res_bind].
  intros Hp%IH. pose proof (ticked_delete _ _ _ Hd) as [H1 H2]. cbn in *. destruct Hp as [H3 H4]. split; cbn in *; [congruence|lia].
Qed.

Lemma ticked_evict now h : forall (c : cap) c', evict_loop (V := V) h now c = Ok c' -> ticked (_last_now c) c c'.
Proof.
  induction h as [|[[d s] k] h IH]; intros c c'; cbn [evict_loop]; [intros [= <-]; split; cbn; [done|lia]|].
  case_bool_decide; [by apply IH|]. destruct (tbl_peek _ _ _) as [[v|]|]; cbn [res_bind]; [|by intros ?%IH|done].
  destruct (table_delete k _) as [c1|] eqn:Hd; [|done]. intros [= <-]. pose proof (ticked_delete _ _ _ Hd) as [H1 H2]. by split.
Qed.

Lemma ticked_refusing now (c c' : cap) : purge_if_refusing (V := V) now c = Ok c' -> ticked (_last_now c) c c'.
Proof.
  unfold purge_if_refusing, _purge_expired. destruct (overflow c); try (intros [= <-]; by split).
  destruct (purge_loop _ _ _ _) as [[l c1]|] eqn:Hp; [|done]. intros [= <-]. by eapply ticked_purge.
Qed.

Lemma ticked_now now (c : cap) : ticked (time_of now c) c (snd (_now now c)).
Proof. unfold time_of. destruct now; split; cbn; try done; lia. Qed.

Lemma ticked_peek k now (c c' : cap) v : peek (V := V) k now c = Ok (v, c') -> ticked (time_of now c) c c'.
Proof.
  unfold peek. rewrite (surjective_pairing (_now now c)). pose proof (ticked_now now c) as Ht. fold (time_of now c).
  destruct (purge_if_refusing _ _) as [c1|] eqn:Hp; [|done]. cbn [res_bind]. apply ticked_refusing in Hp.
  destruct (tbl_peek _ _ _); [|done]. intros [= _ <-]. destruct Ht as [H1 H2]. rewrite H1 in Hp. by eapply ticked_trans.
Qed.

Lemma ticked_forget k (c c' : cap) : forget (V := V) k c = Ok c' -> ticked (_last_now c) c c'.
Proof. unfold forget. destruct (table_delete k c) as [c1|] eqn:Hd; [|done]. intros [= <-]. by apply ticked_delete in Hd as [??]. Qed.

Lemma ticked_put k v lf t keep new (c c' : cap) b : _put k v lf t keep new c = Ok (b, c') -> ticked (_last_now c) c c'.
Proof.
  unfold _put. destruct (make_room t new c) as [[room c1]|] eqn:Hr; [|done]. cbn [res_bind].
  assert (ticked (_last_now c) c c1) as H1.
  { unfold make_room in Hr. destruct new; [|by injection Hr as <- <-]. destruct (overflow c).
    - by injection Hr as <- <-.
    - destruct (tbl_count _ _) as [n|]; [|done]. cbn [res_bind] in Hr. destruct (_ <=? n); [|by injection Hr as <- <-].
      unfold _evict_earliest in Hr. destruct (evict_loop _ _ _) as [c2|] eqn:He; [|done]. injection Hr as <- <-. by eapply ticked_evict.
    - by injection Hr as <- <-. }
  destruct room; cbn [negb]; [|by intros [= <- <-]]. destruct (tbl_set _ _ _ _ _ _) as [t'|]; [|done]. cbn [res_bind].
  intros [= <- <-]. destruct H1 as [H1 H2]. unfold ticked, track.
  destruct (new && bool_decide (overflow (with_table t' c1) = refuse)), (match lf with Some s => Some s | None => _ end); cbn;
    repeat (destruct (_ && _)); cbn; done.
Qed.

Lemma ticked_step o (c c' : cap) r : cap_step o c = Ok (r, c') -> ticked (op_time o c) c c'.
Proof.
  destruct o as [k now|k|k|k v lf now keep|k v lf now|k v now|k p now|k|now|]; cbn [cap_step op_time]; unfold out_of.
  - destruct (peek k now c) as [[v c1]|] eqn:Hp; [|done]. intros [= _ <-]. by eapply ticked_peek.
  - unfold _contains. destruct (peek k _ c) as [[v c1]|] eqn:Hp; [|done]. intros [= _ <-]. by eapply ticked_peek in Hp.
  - destruct (held k c); [|done]. intros [= _ <-]. by split.
  - unfold put. rewrite (surjective_pairing (_now now c)). pose proof (ticked_now now c) as Ht. fold (time_of now c).
    destruct (purge_if_refusing _ _) as [c1|] eqn:Hp; [|done]. cbn [res_bind]. apply ticked_refusing in Hp.
    destruct (taken _ _ _) as [b|]; [|done]. cbn [res_bind]. destruct (_put _ _ _ _ _ _ _) as [[b' c2]|] eqn:Hq; [|done].
    apply ticked_put in Hq. intros [= _ <-]. destruct Ht as [H1 H2], Hp as [H3 H4], Hq as [H5 H6]. split; [congruence|lia].
  - unfold claim. rewrite (surjective_pairing (_now now c)). pose proof (ticked_now now c) as Ht. fold (time_of now c).
    destruct (purge_if_refusing _ _) as [c1|] eqn:Hp; [|done]. cbn [res_bind]. apply ticked_refusing in Hp.
    destruct (taken _ _ _) as [[]|]; [| |done]; cbn [res_bind].
    + intros [= _ <-]. destruct Ht as [H1 H2], Hp as [H3 H4]. split; [congruence|lia].
    + destruct (_put _ _ _ _ _ _ _) as [[b' c2]|] eqn:Hq; [|done].
      apply ticked_put in Hq. intros [= _ <-]. destruct Ht as [H1 H2], Hp as [H3 H4], Hq as [H5 H6]. split; [congruence|lia].
  - unfold complete. rewrite (surjective_pairing (_now now c)). pose proof (ticked_now now c) as Ht. fold (time_of now c).
    destruct (tbl_peek _ _ _) as [[v0|]|]; [| |done]; cbn [res_bind]; [|by intros [= _ <-]].
    destruct (tbl_set _ _ _ _ _ _); [|done]. by intros [= _ <-].
  - unfold consume. destruct (peek k now c) as [[[v|] c1]|] eqn:Hp; [| |done]; cbn [res_bind]; apply ticked_peek in Hp;
      [|by intros [= _ <-]].
    destruct (match p with Some p => negb (p v) | None => false end); [by intros [= _ <-]|].
    destruct (forget k c1) as [c2|] eqn:Hf; [|done]. intros [= _ <-]. apply ticked_forget in Hf.
    destruct Hp as [H3 H4], Hf as [H5 H6]. split; [congruence|lia].
  - unfold discard. destruct (forget k c) as [c2|] eqn:Hf; [|done]. intros [= _ <-]. by apply ticked_forget in Hf.
  - unfold sweep. rewrite (surjective_pairing (_now now c)). pose proof (ticked_now now c) as Ht. fold (time_of now c).
    unfold _purge_expired. destruct (purge_loop _ _ _ _) as [[l c1]|] eqn:Hp; [|done]. intros [= _ <-]. apply ticked_purge in Hp.
    destruct Ht as [H1 H2], Hp as [H3 H4]. split; [congruence|lia].
  - unfold _len. destruct (overflow c).
    + destruct (tbl_count _ _); [|done]. by intros [= _ <-].
    + destruct (tbl_count _ _); [|done]. by intros [= _ <-].
    + unfold _purge_expired. destruct (purge_loop _ _ _ _) as [[l c1]|] eqn:Hp; [|done]. intros [= _ <-]. by apply ticked_purge in Hp.
Qed.

(** ** Runs *)

(** The [now] an operation is given; [None] for those that use the last one. *)
Definition op_now (o : cap_op) : option (option Z) :=
  match o with
  | CPeek _ now | CPut _ _ _ now _ | CClaim _ _ _ now | CComplete _ _ now | CConsume _ _ now | CSweep now => Some now
  | CContains _ | CHeld _ | CDiscard _ | CLen => None
  end.

(** After [i] readings of the clock, the last noted time being [last], an
    operation may happen at [t] and leave [j] readings. *)
Definition timed (clock : nat -> Z) (o : cap_op) (i : nat) (last t : Z) (j : nat) : Prop :=
  match op_now o with
  | None => t = last /\ (i <= j)%nat
  | Some (Some n) => t = n /\ (i <= j)%nat
  | Some None => t = clock i /\ (i < j)%nat
  end.

Definition cap_reads (c : cap) : nat * Z := (_reads c, _last_now c).

Lemma step_timed o (c c' : cap) r : cap_step o c = Ok (r, c') ->
  timed (_clock c) o (_reads c) (_last_now c) (op_time o c) (_reads c') /\ _last_now c' = op_time o c.
Proof.
  intros Hs. pose proof (ticked_step o c c' r Hs) as [Hl Hr]. split; [|done].
  destruct o as [k now|k|k|k v lf now keep|k v lf now|k v now|k p now|k|now|]; cbn [op_time] in *; unfold timed; cbn [op_now];
    try (by split); destruct now as [n|]; try (by split); (split; [done|]).
  - change (cap_step (CPeek k (Some (_clock c (_reads c)))) (snd (read_clock c)) = Ok (r, c')) in Hs. by apply ticked_step in Hs as [_ ?].
  - change (cap_step (CPut k v lf (Some (_clock c (_reads c))) keep) (snd (read_clock c)) = Ok (r, c')) in Hs. by apply ticked_step in Hs as [_ ?].
  - change (cap_step (CClaim k v lf (Some (_clock c (_reads c)))) (snd (read_clock c)) = Ok (r, c')) in Hs. by apply ticked_step in Hs as [_ ?].
  - change (cap_step (CComplete k v (Some (_clock c (_reads c)))) (snd (read_clock c)) = Ok (r, c')) in Hs. by apply ticked_step in Hs as [_ ?].
  - change (cap_step (CConsume k p (Some (_clock c (_reads c)))) (snd (read_clock c)) = Ok (r, c')) in Hs. by apply ticked_step in Hs as [_ ?].
  - change (cap_step (CSweep (Some (_clock c (_reads c)))) (snd (read_clock c)) = Ok (r, c')) in Hs. by apply ticked_step in Hs as [_ ?].
Qed.

(** A run, with the time of each operation; it ends at the first error. *)
Fixpoint cap_run (ops : list cap_op) (c : cap) : list (Z * cap_out) * res kv_error cap :=
  match ops with
  | [] => ([], Ok c)
  | o :: ops =>
    match cap_step o c with
    | Err e => ([], Err e)
    | Ok (r, c') => let '(l, end_) := cap_run ops c' in ((op_time o c, r) :: l, end_)
    end
  end.

Definition error_of {A} (r : res kv_error A) : option kv_error := match r with Ok _ => None | Err e => Some e end.

(** What the map of live capabilities answers. *)
Inductive map_run (max : Z) (ttl : time) (clock : nat -> Z) :
    nat -> Z -> entries -> list cap_op -> list (Z * cap_out) -> option kv_error -> Prop :=
| map_end i last m : map_run max ttl clock i last m [] [] None
| map_step i last m o ops t j r r' m' l e :
    timed clock o i last t j -> spec_step max ttl o t m = Ok (r, m') -> same_out r' r ->
    map_run max ttl clock j t m' ops l e -> map_run max ttl clock i last m (o :: ops) ((t, r') :: l) e
| map_error i last m o ops t e :
    spec_step max ttl o t m = Err e -> map_run max ttl clock i last m (o :: ops) [] (Some e).

Lemma run_refines ops : forall (c : cap) m, sound c m ->
  map_run (tbl_max (_table c)) (_ttl c) (_clock c) (_reads c) (_last_now c) m ops
    (fst (cap_run ops c)) (error_of (snd (cap_run ops c))).
Proof.
  induction ops as [|o ops IH]; intros c m S; cbn [cap_run]; [constructor|].
  pose proof (step_refines c m o S) as Hr. unfold refines in Hr.
  destruct (spec_step _ _ o (op_time o c) m) as [[r m']|e] eqn:Hs; [|rewrite Hr; by econstructor].
  destruct Hr as (r' & c' & Hc & Ho & S' & Hset). rewrite Hc. destruct (step_timed o c c' r' Hc) as [Ht Hl].
  specialize (IH c' m' S'). destruct (cap_run ops c') as [l end_]. cbn [fst snd] in *.
  destruct (settings_inv _ _ Hset) as [E1 E2]. assert (_clock c' = _clock c) as E3 by (unfold settings in Hset; congruence).
  rewrite E1, E2, E3, Hl in IH. by econstructor.
Qed.

Lemma run_sound ops : forall (c : cap) m l c', sound c m -> cap_run ops c = (l, Ok c') ->
  (exists m', sound c' m') /\ settings c' = settings c.
Proof.
  induction ops as [|o ops IH]; intros c m l c' S; cbn [cap_run]; [intros [= _ <-]; split; [by exists m|done]|].
  pose proof (step_refines c m o S) as Hr. unfold refines in Hr.
  destruct (spec_step _ _ o (op_time o c) m) as [[r m']|e] eqn:Hs; [|by rewrite Hr].
  destruct Hr as (r' & c1 & -> & _ & S' & Hset). destruct (cap_run ops c1) as [l1 end_] eqn:Hc. intros [= _ ->].
  destruct (IH c1 m' l1 c' S' Hc) as [? Hs']. split; [done|congruence].
Qed.

(** ** A claim is held *)

(** Operations that do not write or remove [k], [complete] apart. *)
Definition leaves (k : K) (o : cap_op) : Prop :=
  match o with
  | CPut j _ _ _ _ | CConsume j _ _ | CDiscard j => j <> k
  | _ => True
  end.

#[export] Instance leaves_dec k o : Decision (leaves k o).
Proof. destruct o; cbn; apply _. Defined.

Definition holds_until (k : K) (d : time) (m : entries) : Prop := exists v, m !! k = Some (v, d).

Lemma live_holds k d t (m : entries) : holds_until k d m -> past t d = false -> holds_until k d (live t m).
Proof. intros [v Hv] Hp. exists v. rewrite live_lookup, Hv. cbn. by rewrite Hp. Qed.

Lemma insert_holds k d j x (m : entries) : j <> k -> holds_until k d m -> holds_until k d (<[j := x]> m).
Proof. intros Hj [v Hv]. exists v. by rewrite lookup_insert_ne. Qed.

Lemma spec_put_holds max ttl j v lf t keep k d (m : entries) b m' : j <> k -> past t d = false -> holds_until k d m ->
  spec_put max ttl j v lf t keep m = Ok (b, m') -> holds_until k d m'.
Proof.
  intros Hj Hp Hk. unfold spec_put. destruct (_ || _); [|intros [= _ <-]; by apply live_holds].
  destruct (deadline_of _ _ _); [|done]. intros [= _ <-]. by apply insert_holds, live_holds.
Qed.

Lemma spec_step_holds max ttl o t k d (m : entries) r m' : leaves k o -> past t d = false -> holds_until k d m ->
  spec_step max ttl o t m = Ok (r, m') -> holds_until k d m'.
Proof.
  intros Ho Hp Hk. destruct o as [j now|j|j|j v lf now keep|j v lf now|j v now|j p now|j|now|]; cbn [spec_step leaves] in *.
  - intros [= _ <-]. by apply live_holds.
  - intros [= _ <-]. by apply live_holds.
  - by intros [= _ <-].
  - destruct (spec_put _ _ _ _ _ _ _ _) as [[b m1]|] eqn:Hs; [|done]. intros [= _ <-]. by eapply spec_put_holds.
  - case_bool_decide as Hd; [intros [= _ <-]; by apply live_holds|].
    assert (j <> k) as Hj. { intros ->. apply Hd. destruct (live_holds k d t m Hk Hp) as [v0 Hv]. apply elem_of_dom. by rewrite Hv. }
    destruct (spec_put _ _ _ _ _ _ _ _) as [[b m1]|] eqn:Hs; [|done]. intros [= _ <-]. by eapply spec_put_holds.
  - destruct (live t m !! j) as [[v0 d0]|] eqn:Hj; [|by intros [= _ <-]]. intros [= _ <-].
    destruct (decide (j = k)) as [->|Hne]; [|by apply insert_holds]. exists v. rewrite lookup_insert_eq.
    destruct (live_holds k d t m Hk Hp) as [v1 Hv]. congruence.
  - destruct (live t m !! j) as [[v0 d0]|] eqn:Hj; [|intros [= _ <-]; by apply live_holds].
    destruct (match p with Some p => _ | None => false end); intros [= _ <-]; [by apply live_holds|].
    destruct (live_holds k d t m Hk Hp) as [v1 Hv]. exists v1. by rewrite lookup_delete_ne.
  - intros [= _ <-]. destruct Hk as [v Hv]. exists v. by rewrite lookup_delete_ne.
  - intros [= _ <-]. by apply live_holds.
  - intros [= _ <-]. by apply live_holds.
Qed.

Lemma run_holds k d ops : forall (c : cap) m l c', sound c m -> holds_until k d m -> Forall (leaves k) ops ->
  cap_run ops c = (l, Ok c') -> Forall (fun x => past (fst x) d = false) l ->
  exists m', sound c' m' /\ holds_until k d m' /\ settings c' = settings c.
Proof.
  induction ops as [|o ops IH]; intros c m l c' S Hk Ho; cbn [cap_run]; [intros [= _ <-]; by exists m|].
  apply Forall_cons in Ho as [Ho Hops]. pose proof (step_refines c m o S) as Hr. unfold refines in Hr.
  destruct (spec_step _ _ o (op_time o c) m) as [[r m']|e] eqn:Hs; [|by rewrite Hr].
  destruct Hr as (r' & c1 & -> & _ & S' & Hset). destruct (cap_run ops c1) as [l1 end_] eqn:Hc. intros [= <- ->].
  intros [Hp Hl]%Forall_cons. cbn [fst] in Hp.
  destruct (IH c1 m' l1 c' S' ltac:(by eapply spec_step_holds) Hops Hc Hl) as (m2 & ? & ? & ?).
  exists m2. split_and!; [done|done|congruence].
Qed.

(** A claim that was granted. *)
Lemma claimed_holds (c : cap) m k v lf now c' : sound c m -> claim k v lf now c = Ok (true, c') ->
  exists m' d, sound c' m' /\ settings c' = settings c /\ deadline_of (_ttl c) lf (time_of now c) = Ok d /\ holds_until k d m'.
Proof.
  intros S Hc. pose proof (cap_claim_refines c m k v lf now S) as Hr. cbn [spec_step cap_step] in Hr. rewrite Hc in Hr.
  unfold out_of in Hr. cbn [res_bind] in Hr. case_bool_decide as Hd.
  { destruct Hr as (r' & c1 & [= <- <-] & Ho & _). by cbn in Ho. }
  unfold spec_put in Hr. destruct (_ || _) eqn:Eroom.
  - destruct (deadline_of _ _ _) as [d|e] eqn:Hdl; cbn [res_bind refines] in Hr; [|discriminate].
    destruct Hr as (r' & c1 & [= <- <-] & Ho & S' & Hs). eexists _, d. split_and!; [exact S'|done|done|].
    exists v. rewrite lookup_insert_eq. unfold written. by rewrite (proj1 (not_elem_of_dom _ _) Hd).
  - cbn [res_bind refines] in Hr. destruct Hr as (r' & c1 & [= <- <-] & Ho & _). by cbn in Ho.
Qed.

(** A key that is held cannot be claimed. *)
Lemma held_refuses (c : cap) m k d v lf now : sound c m -> holds_until k d m -> past (time_of now c) d = false ->
  exists c', claim k v lf now c = Ok (false, c') /\ settings c' = settings c.
Proof.
  intros S Hk Hp. pose proof (cap_claim_refines c m k v lf now S) as Hr. cbn [spec_step cap_step] in Hr.
  destruct (live_holds k d _ m Hk Hp) as [v0 Hv]. rewrite bool_decide_eq_true_2 in Hr by (apply elem_of_dom; by rewrite Hv).
  destruct Hr as (r' & c1 & Hc & Ho & S' & Hs). unfold out_of in Hc. destruct (claim k v lf now c) as [[b c2]|]; [|done].
  injection Hc as <- <-. cbn in Ho. injection Ho as ->. by exists c2.
Qed.

End facts.

(** ** Capabilities over the key/value table: their properties

    [KvTable] satisfies [TableLaws], so what holds of a [CapabilityMap] that
    refuses when full holds of the one the program makes. *)

(** *** The key/value table as a [Table] *)

Section table.
Context {K V : Type} `{Countable K} (hash : K -> Z).
Abbreviation kv := (kv (K := K) (V := V)).
Abbreviation entry := (entry (K := K) (V := V)).

#[export] Instance kv_table : Table K V kv := {
  tbl_max := max_entries;
  tbl_ttl := ttl;
  tbl_peek := kv_peek hash;
  tbl_held := kv_held hash;
  tbl_count := kv_count_at;
  tbl_set := fun k v lifetime now keep t => kv_set hash k v lifetime now keep 0 t;
  tbl_delete := kv_delete hash }.

(** A list of entries as a map. *)
Definition pair_of (e : entry) : K * (V * time) := (e_key e, (e_value e, e_deadline e)).
Definition map_of (E : list entry) : gmap K (V * time) := list_to_map (map pair_of E).

Lemma keys_pairs (E : list entry) : map fst (map pair_of E) = map e_key E.
Proof. rewrite map_map. done. Qed.

Lemma map_of_cons e (E : list entry) : map_of (e :: E) = <[e_key e := (e_value e, e_deadline e)]> (map_of E).
Proof. done. Qed.

Lemma map_of_find (E : list entry) k : NoDup (map e_key E) ->
  map_of E !! k = (fun e => (e_value e, e_deadline e)) <$> find_key k E.
Proof.
  unfold find_key. induction E as [|e E IH]; [done|]. cbn [map List.find]. intros [Hk Hn]%NoDup_cons. rewrite map_of_cons.
  unfold is_key at 1. case_bool_decide as Ek; [subst; by rewrite lookup_insert_eq|]. rewrite lookup_insert_ne by done. by apply IH.
Qed.

Lemma map_of_without (E : list entry) k : map_of (without k E) = delete k (map_of E).
Proof.
  unfold without. induction E as [|e E IH]; [symmetry; apply delete_empty|]. cbn [List.filter].
  unfold is_key at 1. case_bool_decide as Ek; cbn [negb]; rewrite !map_of_cons, IH.
  - subst k. symmetry. apply delete_insert_eq.
  - by rewrite delete_insert_ne.
Qed.

Lemma map_of_size (E : list entry) : NoDup (map e_key E) -> Z.of_nat (size (map_of E)) = zlen E.
Proof.
  unfold zlen. induction E as [|e E IH]; [done|]. cbn [map]. intros [Hk Hn]%NoDup_cons. rewrite map_of_cons, map_size_insert_None.
  - cbn [length]. specialize (IH Hn). lia.
  - rewrite map_of_find by done. rewrite find_key_absent by done. done.
Qed.

Lemma live_entries_map now (E : list entry) : NoDup (map e_key E) ->
  map_of (KvTable.live now E) = filter (fun x => past now (snd (snd x)) = false) (map_of E).
Proof.
  induction E as [|e E IH]; [done|]. cbn [map]. intros [Hk Hn]%NoDup_cons. rewrite live_cons, map_of_cons.
  assert (map_of E !! e_key e = None) as Hnone by (rewrite map_of_find by done; by rewrite find_key_absent).
  destruct (past now (e_deadline e)) eqn:Ep; cbn [app].
  - rewrite IH by done. rewrite map_filter_insert_False by (cbn; congruence). by rewrite delete_id.
  - rewrite map_of_cons, IH by done. by rewrite map_filter_insert_True.
Qed.

Lemma live_keys now (E : list entry) : NoDup (map e_key E) -> NoDup (map e_key (KvTable.live now E)).
Proof.
  intros Hn. unfold KvTable.live. induction E as [|e E IH]; [done|]. cbn [map] in Hn. apply NoDup_cons in Hn as [Hk Hn].
  cbn [List.filter]. destruct (alive now e); [|by apply IH]. cbn [map]. apply NoDup_cons. split; [|by apply IH].
  intros (x & Hx & Hin)%list_elem_of_fmap. apply Hk, list_elem_of_fmap. exists x. split; [done|].
  by apply list_elem_of_In, List.filter_In in Hin as [Hin%list_elem_of_In _].
Qed.

Lemma find_key_middle (A B : list entry) e : NoDup (map e_key (A ++ e :: B)) -> find_key (e_key e) (A ++ e :: B) = Some e.
Proof.
  unfold find_key. induction A as [|a A IH]; cbn [app List.find map].
  - intros _. unfold is_key. by rewrite bool_decide_eq_true_2.
  - intros [Ha Hn]%NoDup_cons. unfold is_key at 1. rewrite bool_decide_eq_false_2; [by apply IH|].
    intros E. apply Ha. rewrite E, map_app. apply elem_of_app. right. by left.
Qed.

(** The table holds a map. *)
Definition kv_holds (t : kv) (m : gmap K (V * time)) : Prop :=
  exists X, represents hash t X /\ within (limits_of t) (entries X) /\ 1 <= max_entries t /\ max_bytes t = 0 /\ m = map_of (entries X).

Lemma represents_keys (t : kv) X : represents hash t X -> NoDup (map e_key (entries X)).
Proof. intros [[L R] _]. apply R. Qed.

Lemma fixed_inv (t t' : kv) : fixed t' = fixed t ->
  max_entries t' = max_entries t /\ ttl t' = ttl t /\ max_bytes t' = max_bytes t /\ limits_of t' = limits_of t.
Proof. intros E. split_and!; [..|by apply limits_fixed]; unfold fixed in E; congruence. Qed.

(** A step that is another entry list. *)
Lemma holds_after (t t' : kv) X E : 1 <= max_entries t -> max_bytes t = 0 -> fixed t' = fixed t ->
  represents hash t' X -> entries X = E -> within (limits_of t) E -> kv_holds t' (map_of E).
Proof.
  intros HM HB Hf HX <- Hw. destruct (fixed_inv t t' Hf) as (E1 & E2 & E3 & E4). exists X.
  rewrite E1, E3, E4. done.
Qed.

Lemma set_present M b k v d now keep (X : lru (K := K) (V := V)) e : zlen (entries X) <= l_entries M -> l_bytes M = 0 ->
  NoDup (map e_key (entries X)) -> find_key k (entries X) = Some e ->
  entries (lru_set M b k v d now keep 0 X) =
    mk_entry k v (if negb (past now (e_deadline e)) && keep then e_deadline e else d) 0 :: without k (entries X).
Proof.
  intros HM HB Hn Hf. unfold lru_set. rewrite Hf. set (X0 := if past _ _ then expire 1 X else X).
  assert (entries X0 = entries X) as EX by (unfold X0; by destruct (past _ _)).
  destruct (find_key_split k _ e Hn Hf) as (E1 & E2 & HE & _ & Hw).
  set (e' := mk_entry _ _ _ _). assert (over M (to_front e' X0) = false) as Hover.
  { unfold over. cbn [to_front with_entries entries]. rewrite HB, EX. cbn [e' e_key Z.eqb negb andb]. rewrite orb_false_r.
    apply Z.ltb_ge. rewrite Hw, zlen_cons. rewrite HE in HM. rewrite zlen_app in *. rewrite zlen_cons in HM. lia. }
  unfold lru_trim. cbn [to_front with_entries entries length lru_evict_while]. fold (to_front e' X0). rewrite Hover.
  cbn [to_front with_entries entries]. by rewrite EX.
Qed.

#[export] Program Instance kv_table_laws : TableLaws K V kv := { holds := kv_holds }.
Next Obligation.
  intros t m (X & HX & [Hw _] & _ & _ & ->). rewrite map_of_size by by eapply represents_keys. exact Hw.
Qed.
Next Obligation.
  intros t m k now (X & HX & _ & _ & _ & ->). destruct (KvSteps.peek_refines hash t X false k now HX) as [Hp _].
  cbn [kv_step lru_step] in Hp. cbn [tbl_peek kv_table]. rewrite map_of_find by by eapply represents_keys.
  destruct (kv_peek hash k now t) as [v|]; cbn in Hp; [|done]. injection Hp as ->.
  destruct (find_key k (entries X)); done.
Qed.
Next Obligation.
  intros t m k (X & HX & _ & _ & _ & ->). destruct (KvSteps.held_refines hash t X false k HX) as [Hp _].
  cbn [kv_step lru_step] in Hp. cbn [tbl_held kv_table]. rewrite map_of_find by by eapply represents_keys.
  destruct (kv_held hash k t) as [v|]; cbn in Hp; [|done]. injection Hp as ->.
  destruct (find_key k (entries X)); done.
Qed.
Next Obligation.
  intros t m now (X & HX & _ & _ & _ & ->). destruct (KvSteps.count_at_refines hash t X false now HX) as [Hp _].
  cbn [kv_step lru_step] in Hp. cbn [tbl_count kv_table]. rewrite <- live_entries_map, map_of_size.
  - destruct (kv_count_at now t) as [v|]; cbn in Hp; [|done]. by injection Hp as ->.
  - apply live_keys. by eapply represents_keys.
  - by eapply represents_keys.
Qed.
Next Obligation.
  intros t m k v lifetime now keep d (X & HX & Hw & HM & HB & ->) Hroom Hd. pose proof (represents_keys t X HX) as Hn.
  destruct (KvSteps.put_refines hash t X k v lifetime now keep 0 HX (proj1 Hw)) as (b & Hr & HX' & Hf).
  cbn [kv_step lru_step Z.ltb Z.compare] in *. change (deadline_for (limits_of t) lifetime now) with (deadline_of (ttl t) lifetime now) in *.
  cbn [tbl_ttl tbl_max tbl_set kv_table] in *. rewrite Hd in *.
  destruct (kv_set hash k v lifetime now keep 0 t) as [t'|]; [|by cbn in Hr]. cbn [snd] in HX', Hf.
  destruct (fixed_inv t t' Hf) as (E1 & E2 & E3 & E4). exists t'. split_and!; [done|done|done|].
  rewrite map_of_find by done. destruct (find_key k (entries X)) as [e|] eqn:Ef; cbn [fmap option_fmap option_map].
  - pose proof (set_present (limits_of t) b k v d now keep X e (proj1 Hw) HB Hn Ef) as HE.
    set (e' := mk_entry _ _ _ _) in HE. replace (<[k := _]> (map_of (entries X))) with (map_of (e' :: without k (entries X))).
    + eapply holds_after; [done|done|done|exact HX'|exact HE|].
      split; [|by left]. destruct (find_key_split k _ e Hn Ef) as (A & B & HA & _ & ->). pose proof (proj1 Hw) as Hz.
      rewrite HA in Hz. rewrite zlen_cons, zlen_app in *. rewrite zlen_cons in Hz. lia.
    + rewrite map_of_cons, map_of_without. cbn [e' e_key e_value e_deadline]. unfold fresh_at. apply insert_delete_eq.
  - destruct Hroom as [Hk|[Hsize Hall]].
    { apply elem_of_dom in Hk as [x Hx]. rewrite map_of_find, Ef in Hx by done. done. }
    assert (k ∉ map e_key (entries X)) as Hk by by apply find_key_none.
    rewrite map_of_size in Hsize by done.
    assert (forallb (alive now) (entries X) = true) as Halive.
    { apply forallb_forall. intros e He%list_elem_of_In. unfold alive.
      assert (map_of (entries X) !! e_key e = Some (e_value e, e_deadline e)) as Hl.
      { rewrite map_of_find by done. destruct (find_key (e_key e) (entries X)) as [e0|] eqn:E0.
        - apply list_elem_of_split in He as (A & B & HA). rewrite HA in Hn, E0. by rewrite (find_key_middle A B e) in E0 by done; injection E0 as <-.
        - apply find_key_none in E0. exfalso. apply E0, list_elem_of_fmap. by exists e. }
      pose proof (map_Forall_lookup_1 _ _ _ _ Hall Hl) as Hp. cbn in Hp. by rewrite Hp. }
    pose proof (set_new (limits_of t) b k v d now keep 0 X HM HB (proj1 Hw) Halive Hk) as HE.
    assert ((if l_roomy (limits_of t) then take (Z.to_nat (l_entries (limits_of t) - 1)) (entries X)
      else if zlen (entries X) <? l_entries (limits_of t) then entries X else []) = entries X) as Hkeep.
    { cbn [l_entries limits_of]. rewrite (proj2 (Z.ltb_lt _ _)) by exact Hsize. destruct (l_roomy _); [|done].
      apply take_ge. unfold zlen in Hsize. lia. }
    rewrite Hkeep in HE. eapply (holds_after t t' _ (mk_entry k v d 0 :: entries X)); [done|done|done|exact HX'|exact HE|].
    split; [rewrite zlen_cons; cbn [l_entries limits_of]; lia|by left].
Qed.
Next Obligation.
  intros t m k v lifetime now keep e (X & HX & _) Hd. cbn [tbl_set kv_table tbl_ttl] in *. unfold kv_set. cbn [Z.ltb Z.compare].
  rewrite resolve_deadline_spec. change (deadline_for (limits_of t) lifetime now) with (deadline_of (ttl t) lifetime now).
  by rewrite Hd.
Qed.
Next Obligation.
  intros t m k now (X & HX & Hw & HM & HB & ->). pose proof (represents_keys t X HX) as Hn.
  destruct (KvSteps.delete_refines hash t X false k now HX) as (Hr & HX' & Hf). cbn [kv_step lru_step] in *.
  cbn [tbl_delete tbl_max tbl_ttl kv_table]. destruct (kv_delete hash k now t) as [[b t']|]; cbn [answer fst snd] in *.
  - destruct (fixed_inv t t' Hf) as (E1 & E2 & E3 & E4). exists b, t'. split_and!; [done..|]. rewrite <- map_of_without.
    assert (entries (snd (lru_step (limits_of t) false (Delete k now) X)) = without k (entries X)) as HE.
    { cbn [lru_step]. unfold lru_live. destruct (find_key k (entries X)) as [e|] eqn:Ef.
      - by destruct (past now (e_deadline e)).
      - cbn. symmetry. apply without_absent. by apply find_key_none. }
    eapply holds_after; [done|done|done|exact HX'|exact HE|].
    destruct HX as [[L R] _]. eapply within_lighter; [apply lighter_filter, (r_costs _ _ _ _ R)|done].
  - exfalso. destruct (lru_live k now X) as [[e0|] X0]; done.
Qed.

End table.

(** *** The maps the program makes *)

Section capabilities.
Context {K V : Type} `{Countable K} (hash : K -> Z).
Abbreviation kv := (kv (K := K) (V := V)).
Abbreviation caps := (CapabilityMap (K := K) (T := kv)).
#[local] Instance the_table : Table K V kv | 0 := kv_table hash.
#[local] Instance the_table_laws : TableLaws K V kv | 0 := kv_table_laws hash.

(** [CapabilityMap(max_entries=n, ttl=lifetime, clock=clock, overflow="refuse")]. *)
Definition refusing (n : Z) (lifetime : time) (clock : nat -> Z) : res kv_error caps :=
  init (kv_init n lifetime 0 false) clock lifetime refuse true.

Lemma refusing_sound n lifetime clock (c : caps) : refusing n lifetime clock = Ok c -> n <= 2 ^ 59 ->
  sound c ∅ /\ settings c = (clock, lifetime, n) /\
  _reads c = 1%nat /\ _last_now c = clock 0%nat.
Proof.
  unfold refusing, init. destruct (kv_init n lifetime 0 false) as [t|] eqn:Hi; [|done]. intros [= <-] Hn.
  destruct (init_represents hash n lifetime 0 false t Hi Hn) as (HX & E1 & H1 & E2 & _ & E3 & _).
  split_and!; [|unfold settings; cbn; by rewrite E1|done|done]. split; cbn; try done.
  - exists (lru_empty false). rewrite E1. split_and!; [done| |done|done|done]. split; cbn; rewrite ?zlen_nil; [lia|by left].
  - constructor.
Qed.

(** C23. Whatever is done to a capability map that refuses when full, claims,
    puts, completions, consumptions, discards, sweeps and reads, each at the
    time it is given or the next reading of the clock: the answers are those of
    a map from the capabilities that are still alive to their values and
    deadlines, which refuses a new key when it has [max_entries] and never drops
    one before its deadline; the only error is that of a lifetime below or at
    zero. *)
Theorem cap_runs_as_map n lifetime clock (c : caps) (ops : list (cap_op (K := K) (V := V))) :
  refusing n lifetime clock = Ok c -> n <= 2 ^ 59 ->
  map_run n lifetime clock 1 (clock 0%nat) ∅ ops (fst (cap_run ops c)) (error_of (snd (cap_run ops c))).
Proof.
  intros Hi Hn. destruct (refusing_sound n lifetime clock c Hi Hn) as (S & Hs & Hr & Hl).
  pose proof (run_refines ops c ∅ S) as H1. unfold settings in Hs. injection Hs as E1 E2 E3.
  change (tbl_max (_table c) = n) in E3. by rewrite E1, E2, E3, Hr, Hl in H1.
Qed.

(** C24. A granted claim is the only one until its deadline: however many keys
    are claimed, written, completed, consumed or discarded after it, a second
    claim of the key is refused, as long as nobody puts, consumes or discards
    that key and no operation happens at or after the deadline. *)
Theorem cap_claim_single_use n lifetime clock (c0 c1 c2 c3 : caps) (before ops : list (cap_op (K := K) (V := V)))
    log0 log k v lf now d v' lf' now' :
  refusing n lifetime clock = Ok c0 -> n <= 2 ^ 59 -> cap_run before c0 = (log0, Ok c1) ->
  claim k v lf now c1 = Ok (true, c2) -> deadline_of lifetime lf (time_of now c1) = Ok d ->
  cap_run ops c2 = (log, Ok c3) -> Forall (leaves k) ops -> Forall (fun x => past (fst x) d = false) log ->
  past (time_of now' c3) d = false ->
  exists c4, claim k v' lf' now' c3 = Ok (false, c4).
Proof.
  intros Hi Hn H0 Hclaim Hd Hrun Ho Hl Hp. destruct (refusing_sound n lifetime clock c0 Hi Hn) as (S0 & Hs & _).
  destruct (run_sound before c0 ∅ log0 c1 S0 H0) as [[m1 S1] Hs1].
  destruct (claimed_holds c1 m1 k v lf now c2 S1 Hclaim) as (m2 & d' & S2 & Hs2 & Hd' & Hk).
  assert (_ttl c1 = lifetime) as Ettl by (unfold settings in *; congruence). rewrite Ettl, Hd in Hd'. injection Hd' as <-.
  destruct (run_holds k d ops c2 m2 log c3 S2 Hk Ho Hrun Hl) as (m3 & S3 & Hk3 & _).
  destruct (held_refuses c3 m3 k d v' lf' now' S3 Hk3 Hp) as (c4 & Hc & _). by exists c4.
Qed.

End capabilities.

(** *** Witnesses *)

Definition second (i : nat) : Z := Z.of_nat i.

(** Two capabilities, a third refused, one completed and consumed. *)
Definition sample_ops : list (cap_op (K := Z) (V := Z)) :=
  [CClaim 1 10 None None; CClaim 2 20 (Some 50) None; CClaim 3 30 None None; CComplete 1 11 None; CLen;
   CConsume 1 None None; CConsume 1 None None; CSweep (Some 60)].

Lemma cap_runs_as_map_witness :
  exists c : CapabilityMap (K := Z) (T := kv (K := Z) (V := Z)), refusing 2 (Some 100) second = Ok c /\
    map snd (fst (cap_run (Table0 := kv_table (fun k => k)) sample_ops c)) =
      [OFlag true; OFlag true; OFlag false; OFlag true; OCount 2; OValue (Some 11); OValue None; OValues [20]] /\
    map_run 2 (Some 100) second 1 0 ∅ sample_ops (fst (cap_run (Table0 := kv_table (fun k => k)) sample_ops c))
      (error_of (snd (cap_run (Table0 := kv_table (fun k => k)) sample_ops c))).
Proof.
  eexists. split; [reflexivity|]. split; [vm_compute; reflexivity|].
  apply (cap_runs_as_map (fun k => k) 2 (Some 100) second _ sample_ops); [reflexivity|lia].
Defined.

Lemma cap_claim_single_use_witness :
  exists (c0 c1 c2 c3 : CapabilityMap (K := Z) (T := kv (K := Z) (V := Z))) log,
    refusing 2 (Some 100) second = Ok c0 /\ cap_run (Table0 := kv_table (fun k => k)) [CClaim 5 0 None None] c0 = (log, Ok c1) /\
    claim (H0 := kv_table (fun k => k)) 7 1 (Some 50) None c1 = Ok (true, c2) /\
    snd (cap_run (Table0 := kv_table (fun k => k)) [CClaim 8 2 None None; CDiscard 5; CClaim 9 3 None None; CComplete 7 4 None] c2) = Ok c3 /\
    exists c4, claim (H0 := kv_table (fun k => k)) 7 1 None None c3 = Ok (false, c4).
Proof.
  eexists _, _, _, _, _. split; [reflexivity|]. split; [vm_compute; reflexivity|]. split; [vm_compute; reflexivity|].
  split; [vm_compute; reflexivity|].
  eapply (cap_claim_single_use (fun k => k) 2 (Some 100) second _ _ _ _ [CClaim 5 0 None None]
    [CClaim 8 2 None None; CDiscard 5; CClaim 9 3 None None; CComplete 7 4 None] _ _ 7 1 (Some 50) None (Some 52) 1 None None).
  - reflexivity.
  - lia.
  - vm_compute. reflexivity.
  - vm_compute. reflexivity.
  - vm_compute. reflexivity.
  - vm_compute. reflexivity.
  - repeat constructor; cbn; lia.
  - repeat constructor.
  - vm_compute. reflexivity.
Defined.
