(* ===== verification/CapabilityStores.v ===== *)
(** * Stores of single-use capabilities

    The domain stores kept in a [CapabilityMap] that refuses when full: counters
    of failed logins ([users.py]), signature nonces ([signatures.py]), assertion
    ids ([saml.py]), action tokens ([tokens.py]), chat actions ([chat/_core.py]),
    pending SAML logins ([sso.py]), webhook deliveries ([webhooks.py]) and
    approvals ([_agents/approvals.py]).  Times are integers. *)

From stdpp Require Import base sets strings numbers list gmap.
From Stdlib Require Import ZArith Lia.
From S2P Require Import Prelude PyCollections PyText KvTable CapabilityMap CapabilityClaims.
#[local] Open Scope Z_scope.

(** ** Failed logins: [LoginLimiter] *)

Section limiter.
Context {T : Type} `{Table pystr (Z * Z) T}.

(** An entry is the count of failures and the time of the first. *)
Record LoginLimiter : Type := mk_limiter {
  _max : Z;
  _window : Z;
  _saturated_until : Z;
  _attempts : CapabilityMap (K := pystr) (T := T) }.

Definition with_attempts (c : CapabilityMap (K := pystr) (T := T)) (l : LoginLimiter) : LoginLimiter :=
  mk_limiter (_max l) (_window l) (_saturated_until l) c.
Definition saturate (until : Z) (l : LoginLimiter) : LoginLimiter :=
  mk_limiter (_max l) (_window l) (Z.max (_saturated_until l) until) (_attempts l).

(** [__init__], its capability map made by [CapabilityMap(...)]. *)
Definition limiter_init (max_attempts window : Z) (attempts : res kv_error (CapabilityMap (K := pystr) (T := T))) :
    res kv_error LoginLimiter :=
  if max_attempts <? 1 then Err BadMaxEntries
  else if window <=? 0 then Err BadTtl
  else let! c := attempts in Ok (mk_limiter max_attempts window 0 c).

Definition allow (identifier : pystr) (l : LoginLimiter) : res kv_error (bool * LoginLimiter) :=
  let! (entry, c) := peek identifier None (_attempts l) in
  let '(now, c) := read_clock c in
  match entry with
  | None => Ok (_saturated_until l <=? now, with_attempts c l)
  | Some (count, first) =>
    if _window l <=? now - first then let! c := discard identifier c in Ok (true, with_attempts c l)
    else Ok (count <? _max l, with_attempts c l)
  end.

Definition record_failure (identifier : pystr) (l : LoginLimiter) : res kv_error LoginLimiter :=
  let! (entry, c) := peek identifier None (_attempts l) in
  let '(now, c) := read_clock c in
  match entry with
  | Some (count, first) =>
    if _window l <=? now - first then
      let! (kept, c) := put identifier (1, now) None None false c in
      Ok (if kept : bool then with_attempts c l else saturate (now + _window l) (with_attempts c l))
    else
      let! (_, c) := put identifier (count + 1, first) None None true c in
      Ok (with_attempts c l)
  | None =>
    let! (kept, c) := put identifier (1, now) None None false c in
    Ok (if kept : bool then with_attempts c l else saturate (now + _window l) (with_attempts c l))
  end.

Definition record_success (identifier : pystr) (l : LoginLimiter) : res kv_error LoginLimiter :=
  let! c := discard identifier (_attempts l) in Ok (with_attempts c l).
End limiter.

(** ** Spent identifiers *)

Section spent.
Context {T : Type} `{Table pystr unit T}.
Abbreviation table := (CapabilityMap (K := pystr) (T := T)).

(** [NonceLedger] of [signatures.py]. *)
Record NonceLedger : Type := mk_nonces { n_table : table; refusals : Z; replays : Z }.

Definition seen (nonce : pystr) (now : option Z) (l : NonceLedger) : res kv_error (bool * NonceLedger) :=
  let! (entry, c) := peek nonce now (n_table l) in
  Ok (match entry with
      | None => (false, mk_nonces c (refusals l) (replays l))
      | Some _ => (true, mk_nonces c (refusals l) (replays l + 1))
      end).

Definition nonce_claim (nonce : pystr) (now : option Z) (l : NonceLedger) : res kv_error (bool * NonceLedger) :=
  let! (entry, c) := peek nonce now (n_table l) in
  match entry with
  | Some _ => Ok (false, mk_nonces c (refusals l) (replays l + 1))
  | None =>
    let! (won, c) := claim nonce tt None now c in
    Ok (if won : bool then (true, mk_nonces c (refusals l) (replays l)) else (false, mk_nonces c (refusals l + 1) (replays l)))
  end.

(** [MemoryReplayLedger.claim] of [saml.py]; [None] is [ReplayLedgerCapacityError]. *)
Definition replay_claim (key : pystr) (c : table) : res kv_error (option bool * table) :=
  let! (won, c) := claim key tt None None c in
  if won : bool then Ok (Some true, c)
  else
    let! (entry, c) := peek key None c in
    Ok (match entry with None => None | Some _ => Some false end, c).

(** [MemoryTokenLedger] of [tokens.py]. *)
Definition token_register (token_id : pystr) (ttl now : Z) (c : table) : res kv_error (bool * table) :=
  claim token_id tt (Some ttl) (Some now) c.

Definition token_consume (token_id : pystr) (now : Z) (c : table) : res kv_error (bool * table) :=
  let! (value, c) := consume token_id None (Some now) c in
  Ok (match value with Some _ => true | None => false end, c).
End spent.

(** ** Chat actions: [InMemoryChatActionStore] *)

Record _IssuedAction : Type := mk_action {
  custom_id : pystr; workflow : pystr; decision : pystr; a_tenant : pystr; actor : pystr }.

Section chat.
Context {T : Type} `{Table pystr _IssuedAction T}.

(** [issue], the token given; [None] is the store at its capacity. *)
Definition chat_issue (token workflow decision tenant actor : pystr) (c : CapabilityMap (K := pystr) (T := T)) :
    res kv_error (option _IssuedAction * CapabilityMap (K := pystr) (T := T)) :=
  let action := mk_action token workflow decision tenant actor in
  let! (kept, c) := put (custom_id action) action None None false c in
  Ok (if kept : bool then Some action else None, c).

Definition chat_claim (custom_id tenant actor_ : pystr) (c : CapabilityMap (K := pystr) (T := T)) :
    res kv_error (option _IssuedAction * CapabilityMap (K := pystr) (T := T)) :=
  consume custom_id (Some (fun a => bool_decide (a_tenant a = tenant) && bool_decide (actor a = actor_))) None c.
End chat.

(** ** Webhook deliveries: [LocalReplayStore] *)

Section webhooks.
Context {T : Type} `{Table (pystr * pystr) pystr T}.

(** The store and its own last time; the clock is the map's. *)
Definition delivery_claim (source event_id : pystr) (now : option Z) (s : Z * CapabilityMap (K := pystr * pystr) (T := T)) :
    res kv_error (bool * (Z * CapabilityMap (K := pystr * pystr) (T := T))) :=
  let '(current, c) := match now with None => read_clock (snd s) | Some n => (n, snd s) end in
  let! (won, c) := claim (source, event_id) (bs "claimed") None (Some current) c in
  Ok (won, (current, c)).

Definition delivery_complete (source event_id outcome : pystr) (s : Z * CapabilityMap (K := pystr * pystr) (T := T)) :
    res kv_error (Z * CapabilityMap (K := pystr * pystr) (T := T)) :=
  let! (_, c) := complete (source, event_id) outcome (Some (fst s)) (snd s) in Ok (fst s, c).
End webhooks.

(** ** Pending SAML logins: [PendingLoginStore] *)

Record PendingLogin : Type := mk_login {
  request_id : pystr; relay_state : pystr; organization : pystr; l_issued_at : Z; session_id : pystr; redirect_url : pystr }.

Inductive SsoRefusal : Type :=
| pending_capacity | unsolicited | invalid_time | expired_request | state_session_mismatch | SsoMapFailed (e : kv_error)
(** The [TypeError] of [hmac.compare_digest] for a text that is not ASCII. *)
| SsoTypeError.

(** [hmac.compare_digest] of texts. *)
Definition compare_digest (a b : pystr) : res SsoRefusal bool :=
  if forallb is_ascii a && forallb is_ascii b then Ok (bool_decide (a = b)) else Err SsoTypeError.

Section sso.
Context {T : Type} `{Table pystr PendingLogin T}.

Record PendingLoginStore : Type := mk_logins {
  _by_id : CapabilityMap (K := pystr) (T := T); s_ttl : Z; _max_entries : Z; _next_sweep : time }.

Definition with_logins (c : CapabilityMap (K := pystr) (T := T)) (s : PendingLoginStore) : PendingLoginStore :=
  mk_logins c (s_ttl s) (_max_entries s) (_next_sweep s).

(** [self._next_sweep = self._by_id.next_deadline]. *)
Definition plan_sweep (c : CapabilityMap (K := pystr) (T := T)) (s : PendingLoginStore) : PendingLoginStore :=
  let '(next, c) := next_deadline c in mk_logins c (s_ttl s) (_max_entries s) next.

Definition _sweep (now : Z) (s : PendingLoginStore) : res kv_error PendingLoginStore :=
  if match _next_sweep s with Some d => now <? d | None => true end then Ok s
  else let! (_, c) := sweep (Some now) (_by_id s) in Ok (plan_sweep c s).

(** [put]: [false] is the refusal [pending-capacity]. *)
Definition login_put (pending : PendingLogin) (s : PendingLoginStore) : res kv_error (bool * PendingLoginStore) :=
  let! s := _sweep (l_issued_at pending) s in
  let! (n, c) := _len (V := PendingLogin) (_by_id s) in
  if _max_entries s <=? n then Ok (false, with_logins c s)
  else
    let! (kept, c) := put (request_id pending) pending None (Some (l_issued_at pending)) false c in
    Ok (if kept : bool then (true, plan_sweep c s) else (false, with_logins c s)).

Definition spend (id relay session : pystr) (now : option Z) (s : PendingLoginStore) :
    res SsoRefusal PendingLogin * PendingLoginStore :=
  let '(moment, c) := match now with None => read_clock (_by_id s) | Some n => (n, _by_id s) end in
  let s := with_logins c s in
  match held id c with
  | Err e => (Err (SsoMapFailed e), s)
  | Ok None => (Err unsolicited, s)
  | Ok (Some pending) =>
    if moment <? l_issued_at pending then (Err invalid_time, s)
    else
      match discard (V := PendingLogin) id c with
      | Err e => (Err (SsoMapFailed e), s)
      | Ok c =>
        let s := with_logins c s in
        if s_ttl s <=? moment - l_issued_at pending then (Err expired_request, s)
        else if bool_decide (relay = []) || bool_decide (session = []) then (Err state_session_mismatch, s)
        else
          (let! relay_matches := compare_digest (relay_state pending) relay in
           let! session_matches := compare_digest (session_id pending) session in
           if relay_matches && session_matches then Ok pending else Err state_session_mismatch, s)
      end
  end.

Definition organization_for (id : pystr) (s : PendingLoginStore) : res SsoRefusal pystr :=
  match held id (_by_id s) with
  | Err e => Err (SsoMapFailed e)
  | Ok None => Err unsolicited
  | Ok (Some pending) => Ok (organization pending)
  end.
End sso.

(** ** Approvals: [InMemoryApprovalStore] *)

Inductive approval_state : Type := pending | denied | used.

#[export] Instance approval_state_eq : EqDecision approval_state.
Proof. solve_decision. Defined.

Record ApprovalRequest : Type := mk_approval {
  approval_id : pystr;
  ap_tenant : pystr;
  principal_id : pystr;
  ap_action : pystr;
  resource : option pystr;
  issued_at : Z;
  expires_at : Z;
  require_fresh_auth : bool;
  ap_state : approval_state }.

Definition with_state (s : approval_state) (r : ApprovalRequest) : ApprovalRequest :=
  mk_approval (approval_id r) (ap_tenant r) (principal_id r) (ap_action r) (resource r) (issued_at r) (expires_at r)
    (require_fresh_auth r) s.

Record ApprovalGrant : Type := mk_grant {
  g_id : pystr; g_tenant : pystr; g_principal : pystr; g_action : pystr; g_resource : option pystr; approved_at : Z }.

Inductive approval_error : Type :=
| BadField | NotPositiveTtl | IssuedInFuture | AlreadyExpired | DuplicateApproval | AtCapacity
| ApprovalExpired | ApprovalMismatch | ApprovalDenied | MapFailed (e : kv_error).

(** [_bounded_text]: at most so many bytes of UTF-8, valid and without NUL. *)
Definition utf8_length (c : Z) : Z := if c <? 0x80 then 1 else if c <? 0x800 then 2 else if c <? 0x10000 then 3 else 4.
Definition valid_char (c : Z) : bool := (0 <? c) && ((c <? 0xD800) || ((0xDFFF <? c) && (c <? 0x110000))).
Definition _bounded_text (maximum : Z) (optional : bool) (value : pystr) : bool :=
  match value with
  | [] => optional
  | _ => (zlen value <=? maximum) && forallb valid_char value && (foldr Z.add 0 (map utf8_length value) <=? maximum)
  end.

Definition _validate_binding (id tenant principal : pystr) : bool :=
  _bounded_text 512 false id && _bounded_text 512 false tenant && _bounded_text 1024 false principal.

Definition _validate_issue (id tenant principal action : pystr) (resource : option pystr) : bool :=
  _validate_binding id tenant principal && _bounded_text 512 false action &&
  match resource with Some r => _bounded_text 16384 true r | None => true end.

Section approvals.
Context {T : Type} `{Table (pystr * pystr) ApprovalRequest T}.
Abbreviation records := (CapabilityMap (K := pystr * pystr) (T := T)).

(** An exception leaves the store as the operations before it did. *)
Definition _key (id tenant : pystr) : pystr * pystr := (tenant, id).

Definition issue (id tenant principal action : pystr) (resource : option pystr) (ttl : Z) (fresh_auth : bool)
    (issued : option Z) (c : records) : res approval_error ApprovalRequest * records :=
  if negb (_validate_issue id tenant principal action resource) then (Err BadField, c)
  else if ttl <=? 0 then (Err NotPositiveTtl, c)
  else
    let '(now, c) := read_clock c in
    let issued := default now issued in
    if now <? issued then (Err IssuedInFuture, c)
    else
      let expires := issued + ttl in
      if expires <=? now then (Err AlreadyExpired, c)
      else
        let request := mk_approval id tenant principal action resource issued expires fresh_auth pending in
        match claim (_key id tenant) request (Some (expires - now)) (Some now) c with
        | Err e => (Err (MapFailed e), c)
        | Ok (true, c) => (Ok request, c)
        | Ok (false, c) =>
          match peek (_key id tenant) (Some now) c with
          | Err e => (Err (MapFailed e), c)
          | Ok (Some _, c) => (Err DuplicateApproval, c)
          | Ok (None, c) => (Err AtCapacity, c)
          end
        end.

Definition _bound (id tenant principal : pystr) (c : records) : res approval_error ApprovalRequest * records :=
  if negb (_validate_binding id tenant principal) then (Err BadField, c)
  else
    let '(now, c) := read_clock c in
    match peek (_key id tenant) (Some now) c with
    | Err e => (Err (MapFailed e), c)
    | Ok (None, c) => (Err ApprovalExpired, c)
    | Ok (Some request, c) =>
      if expires_at request <=? now then
        match discard (V := ApprovalRequest) (_key id tenant) c with
        | Err e => (Err (MapFailed e), c)
        | Ok c => (Err ApprovalExpired, c)
        end
      else if bool_decide (ap_tenant request <> tenant) then (Err ApprovalMismatch, c)
      else if bool_decide (principal_id request <> principal) then (Err ApprovalMismatch, c)
      else (Ok request, c)
    end.

(** The checks of [claim] on the request it found. *)
Definition claim_refusal (request : ApprovalRequest) (authenticated_at : option Z) (now : Z) : option approval_error :=
  match ap_state request with
  | denied => Some ApprovalDenied
  | used => Some ApprovalMismatch
  | pending =>
    if require_fresh_auth request then
      match authenticated_at with
      | None => Some ApprovalMismatch
      | Some t => if (now <? t) || (t <? issued_at request) then Some ApprovalMismatch else None
      end
    else None
  end.

Definition approval_claim (id tenant principal : pystr) (authenticated_at : option Z) (c : records) :
    res approval_error ApprovalGrant * records :=
  match _bound id tenant principal c with
  | (Err e, c) => (Err e, c)
  | (Ok request, c) =>
    let '(now, c) := read_clock c in
    match claim_refusal request authenticated_at now with
    | Some e => (Err e, c)
    | None =>
      match complete (_key id tenant) (with_state used request) (Some now) c with
      | Err e => (Err (MapFailed e), c)
      | Ok (false, c) => (Err ApprovalExpired, c)
      | Ok (true, c) => (Ok (mk_grant id tenant principal (ap_action request) (resource request) now), c)
      end
    end
  end.

Definition deny (id tenant principal : pystr) (c : records) : res approval_error unit * records :=
  match _bound id tenant principal c with
  | (Err e, c) => (Err e, c)
  | (Ok request, c) =>
    match ap_state request with
    | used => (Err ApprovalMismatch, c)
    | denied => (Err ApprovalDenied, c)
    | pending =>
      let '(now, c) := read_clock c in
      match complete (_key id tenant) (with_state denied request) (Some now) c with
      | Err e => (Err (MapFailed e), c)
      | Ok (false, c) => (Err ApprovalExpired, c)
      | Ok (true, c) => (Ok tt, c)
      end
    end
  end.
End approvals.

(** ** Stores of single-use capabilities: their properties

    A failed login counts until its window ends, and an approval is granted at
    most once; both over any table that keeps [TableLaws]. *)

(** *** Steps of a map and its clock *)

Section clocked.
Context {K V T : Type} `{Countable K} `{!Table K V T} `{!TableLaws K V T}.
Abbreviation cap := (CapabilityMap (K := K) (T := T)).
Abbreviation entries := (gmap K (V * time)).

Definition next_reading (c : cap) : Z := _clock c (_reads c).

(** Later on the same clock, with the same settings. *)
Definition later (c c' : cap) : Prop := settings c' = settings c /\ (_reads c <= _reads c')%nat.

Definition rising (c : cap) : Prop := forall i j, (i <= j)%nat -> _clock c i <= _clock c j.

Lemma later_trans a b c : later a b -> later b c -> later a c.
Proof. intros [E1 L1] [E2 L2]. split; [congruence|lia]. Qed.

Lemma later_next c c' : rising c -> later c c' -> next_reading c <= next_reading c'.
Proof.
  intros Hr [E L]. unfold next_reading. assert (_clock c' = _clock c) as -> by (unfold settings in E; congruence). by apply Hr.
Qed.

Lemma later_rising c c' : later c c' -> rising c -> rising c'.
Proof. intros [E _]. unfold rising. assert (_clock c' = _clock c) as -> by (unfold settings in E; congruence). done. Qed.

Lemma later_ttl c c' : later c c' -> _ttl c' = _ttl c.
Proof. intros [E _]. unfold settings in E. congruence. Qed.

(** A reading of the clock. *)
Lemma read_later (c : cap) (m : entries) : sound c m ->
  sound (snd (read_clock c)) m /\ later c (snd (read_clock c)) /\ fst (read_clock c) = next_reading c.
Proof. intros []. split_and!; [by split|split; cbn; [done|lia]|done]. Qed.

Lemma peek_later (c : cap) (m : entries) (k : K) (now : option Z) : sound c m -> let t := time_of now c in exists c',
  peek (V := V) k now c = Ok (fst <$> live t m !! k, c') /\ sound c' (live t m) /\ later c c'.
Proof.
  intros S t. destruct (cap_peek_refines c m k now S) as (c' & Hp & S' & E). exists c'. split_and!; [done|done|].
  split; [done|]. by apply ticked_peek in Hp as [_ ?].
Qed.

Lemma discard_later (c : cap) (m : entries) (k : K) : sound c m ->
  exists c', discard (V := V) k c = Ok c' /\ sound c' (delete k m) /\ later c c'.
Proof.
  intros S. destruct (forget_sound c m k S) as (c' & Hf & S' & E). exists c'. unfold discard. split_and!; [done|done|].
  split; [done|]. by apply ticked_forget in Hf as [_ ?].
Qed.

Lemma put_later (c : cap) (m : entries) (k : K) (v : V) (now : option Z) keep s : sound c m -> _ttl c = Some s ->
  let t := time_of now c in let m' := live t m in
  exists b c', put k v None now keep c = Ok (b, c') /\ later c c' /\
    sound c' (if b : bool then <[k := (v, written keep (Some (t + s)) m' k)]> m' else m') /\
    (k ∈ dom m' -> b = true).
Proof.
  intros S Hs t m'. pose proof (cap_put_refines c m k v None now keep S) as Hr. cbn zeta in Hr. unfold spec_put, deadline_of in Hr.
  rewrite Hs in Hr. cbn [res_bind] in Hr. fold t in Hr. fold m' in Hr.
  destruct (bool_decide (k ∈ dom m') || (Z.of_nat (size m') <? tbl_max (_table c))) eqn:Eroom.
  - destruct Hr as (c' & Hp & S' & E). exists true, c'. split_and!; [done| |done|done]. split; [done|].
    assert (cap_step (CPut k v None now keep) c = Ok (OFlag true, c')) as Hc by (cbn [cap_step]; unfold out_of; by rewrite Hp).
    by apply ticked_step in Hc as [_ ?].
  - destruct Hr as (c' & Hp & S' & E). exists false, c'. split_and!; [done| |done|].
    + split; [done|]. assert (cap_step (CPut k v None now keep) c = Ok (OFlag false, c')) as Hc by
        (cbn [cap_step]; unfold out_of; by rewrite Hp). by apply ticked_step in Hc as [_ ?].
    + intros Hk. apply orb_false_iff in Eroom as [Eroom _]. by apply bool_decide_eq_false in Eroom.
Qed.

Lemma live_some t (m : entries) k v d : m !! k = Some (v, Some d) -> t < d -> live t m !! k = Some (v, Some d).
Proof. intros Hk Ht. rewrite live_lookup, Hk. cbn. by rewrite (proj2 (Z.leb_gt d t)). Qed.

Lemma live_sub t (m : entries) k x : live t m !! k = Some x -> m !! k = Some x.
Proof. rewrite live_lookup. destruct (m !! k) as [y|]; [|done]. destruct (past t (snd y)); [done|]. by intros [= <-]. Qed.

End clocked.

(** *** Failed logins *)

Section limiter.
Context {T : Type} `{!Table pystr (Z * Z) T} `{!TableLaws pystr (Z * Z) T}.
Abbreviation limiter := (LoginLimiter (T := T)).
Abbreviation counts := (gmap pystr (Z * Z * time)).

Inductive limiter_op : Type := Allow (id : pystr) | Failure (id : pystr) | Success (id : pystr).

Definition limiter_step (o : limiter_op) (l : limiter) : res kv_error (option bool * limiter) :=
  match o with
  | Allow id => let! (b, l) := allow id l in Ok (Some b, l)
  | Failure id => let! l := record_failure id l in Ok (None, l)
  | Success id => let! l := record_success id l in Ok (None, l)
  end.

Fixpoint limiter_run (ops : list limiter_op) (l : limiter) : res kv_error limiter :=
  match ops with
  | [] => Ok l
  | o :: ops => let! (_, l) := limiter_step o l in limiter_run ops l
  end.

Record counted (l : limiter) (m : counts) : Prop := {
  c_sound : sound (_attempts l) m;
  c_rising : rising (_attempts l);
  c_ttl : _ttl (_attempts l) = Some (_window l);
  c_window : 0 < _window l;
  c_entries : forall id n first d0, m !! id = Some (n, first, d0) ->
    exists d, d0 = Some d /\ first + _window l <= d /\ first <= next_reading (_attempts l) }.

(** The entry an operation leaves of an open window. *)
Definition bump (o : limiter_op) (id : pystr) (n : Z) : Z :=
  match o with Failure j => if decide (j = id) then n + 1 else n | _ => n end.

(** A step keeps every window that is open at its end. *)
Definition keeps_windows (o : limiter_op) (l l' : limiter) (m m' : counts) : Prop :=
  forall id n first d, o <> Success id -> m !! id = Some (n, first, d) ->
    next_reading (_attempts l') < first + _window l -> m' !! id = Some (bump o id n, first, d).

Lemma open_live (l : limiter) (m : counts) id n first d t : counted l m -> m !! id = Some (n, first, d) ->
  t < first + _window l -> live t m !! id = Some (n, first, d).
Proof.
  intros C Hm Ht. destruct (c_entries l m C id n first d Hm) as (d' & -> & Hd & _). apply live_some; [done|lia].
Qed.

(** The settings of the limiter, and its map later on. *)
Definition limiter_later (l l' : limiter) : Prop :=
  _max l' = _max l /\ _window l' = _window l /\ later (_attempts l) (_attempts l').

Lemma counted_after (l l' : limiter) (m m' : counts) : counted l m -> limiter_later l l' -> sound (_attempts l') m' ->
  (forall id n first d0, m' !! id = Some (n, first, d0) -> m !! id = Some (n, first, d0) \/
    exists d, d0 = Some d /\ first + _window l <= d /\ first <= next_reading (_attempts l')) -> counted l' m'.
Proof.
  intros [C1 C2 C3 C4 C5] (Em & Ew & Hl) S Hm. split; [done|by eapply later_rising| |by rewrite Ew|].
  - by rewrite Ew, (later_ttl _ _ Hl).
  - intros id n first d0 Hid. rewrite Ew. destruct (Hm id n first d0 Hid) as [Hold|Hnew]; [|done].
    destruct (C5 _ _ _ _ Hold) as (d & -> & H1 & H2). exists d. split_and!; [done|done|].
    pose proof (later_next _ _ C2 Hl). lia.
Qed.

Lemma allow_counts (id0 : pystr) (l : limiter) (m : counts) : counted l m ->
  exists b l' m', allow id0 l = Ok (b, l') /\ counted l' m' /\ limiter_later l l' /\ keeps_windows (Allow id0) l l' m m' /\
    (forall n first d, m !! id0 = Some (n, first, d) -> next_reading (_attempts l') < first + _window l -> b = (n <? _max l)).
Proof.
  intros C. pose proof C as [C1 C2 C3 C4 C5]. unfold allow.
  destruct (peek_later (_attempts l) m id0 None C1) as (c1 & Hp & S1 & L1). cbn zeta in *.
  change (time_of None (_attempts l)) with (next_reading (_attempts l)) in *. set (t1 := next_reading (_attempts l)) in *.
  destruct (read_later c1 _ S1) as (S2 & L2 & E2). rewrite Hp. cbn [res_bind].
  rewrite (surjective_pairing (read_clock c1)), E2. set (c2 := snd (read_clock c1)) in *. clearbody c2.
  assert (later (_attempts l) c2) as L by by eapply later_trans.
  assert (forall c, later c2 c -> t1 <= next_reading c /\ next_reading c1 <= next_reading c) as Htimes.
  { intros c Hc. split; [apply later_next; [done|by eapply later_trans]|].
    apply later_next; [by eapply later_rising|by eapply later_trans]. }
  assert (forall (id : pystr) n first d t, m !! id = Some (n, first, d) -> t1 <= t -> t < first + _window l ->
    live t1 m !! id = Some (n, first, d)) as Hlive by (intros; eapply open_live; [done|done|lia]).
  destruct (live t1 m !! id0) as [[[n0 f0] d0]|] eqn:Hid; cbn [fmap option_fmap option_map fst].
  - destruct (Z.leb_spec (_window l) (next_reading c1 - f0)) as [Hout|Hin].
    + destruct (discard_later c2 _ id0 S2) as (c3 & -> & S3 & L3). cbn [res_bind]. destruct (Htimes c3 L3) as [T1 T2].
      eexists true, (with_attempts c3 l), _. assert (limiter_later l (with_attempts c3 l)) as HL
        by (split_and!; [done|done|by eapply later_trans]). split_and!; [done| |done| |].
      * apply (counted_after l _ m (delete id0 (live t1 m))); [done|done|exact S3|].
        intros id n first d [_ Hd%live_sub]%lookup_delete_Some. by left.
      * intros id n first d _ Hm Ht. cbn in Ht. rewrite lookup_delete_ne; [apply (Hlive _ _ _ _ t1); [done|lia|lia]|].
        intros <-. rewrite (live_sub _ _ _ _ Hid) in Hm. injection Hm as <- <- <-. lia.
      * intros n first d Hm Ht. cbn in Ht. rewrite (live_sub _ _ _ _ Hid) in Hm. injection Hm as <- <- <-. lia.
    + destruct (Htimes c2 ltac:(done)) as [T1 T2]. eexists _, (with_attempts c2 l), _. assert (limiter_later l (with_attempts c2 l)) as HL
        by done. split_and!; [done| |done| |].
      * apply (counted_after l _ m (live t1 m)); [done|done|exact S2|]. intros id n first d Hd%live_sub. by left.
      * intros id n first d _ Hm Ht. cbn in Ht. apply (Hlive _ _ _ _ t1); [done|lia|lia].
      * intros n first d Hm Ht. rewrite (live_sub _ _ _ _ Hid) in Hm. by injection Hm as <- <- <-.
  - destruct (Htimes c2 ltac:(done)) as [T1 T2]. eexists _, (with_attempts c2 l), _. assert (limiter_later l (with_attempts c2 l)) as HL
      by done. split_and!; [done| |done| |].
    + apply (counted_after l _ m (live t1 m)); [done|done|exact S2|]. intros id n first d Hd%live_sub. by left.
    + intros id n first d _ Hm Ht. cbn in Ht. apply (Hlive _ _ _ _ t1); [done|lia|lia].
    + intros n first d Hm Ht. cbn in Ht. rewrite (Hlive _ _ _ _ t1 Hm) in Hid by lia. done.
Qed.

(** A new window, or none when the map is full. *)
Lemma new_window (id0 : pystr) (l l0 : limiter) (m : counts) t1 c2 now : counted l m -> t1 = next_reading (_attempts l) ->
  sound c2 (live t1 m) -> later (_attempts l) c2 -> now <= next_reading c2 -> next_reading (_attempts l) <= now ->
  (forall n first d, m !! id0 = Some (n, first, d) -> first + _window l <= now) ->
  exists b c3, put id0 (1, now) None None false c2 = Ok (b, c3) /\
    forall l', limiter_later l l' -> _attempts l' = c3 ->
      exists m', counted l' m' /\ keeps_windows (Failure id0) l l' m m'.
Proof.
  intros C -> S2 L2 Hnow Hnow' Hold. pose proof C as [C1 C2 C3 C4 C5].
  destruct (put_later c2 _ id0 (1, now) None false (_window l) S2 ltac:(by rewrite (later_ttl _ _ L2))) as (b & c3 & Hput & L3 & S3 & _).
  cbn zeta in *. change (time_of None c2) with (next_reading c2) in *.
  exists b, c3. split; [done|]. intros l' HL El. rewrite <- El in S3, L3.
  assert (rising c2) as R2 by by eapply later_rising. pose proof (later_next _ _ R2 L3) as T3.
  pose proof (later_next _ _ C2 L2) as T2. eexists. split; [apply (counted_after l l' m _ C HL S3)|].
  - intros id n first d0 Hid. destruct b; [apply lookup_insert_Some in Hid as [[<- [= <- <- <-]]|[_ Hid]]|].
    + right. rewrite live_live || idtac. unfold written. exists (next_reading c2 + _window l).
      destruct (live (next_reading c2) (live (next_reading (_attempts l)) m) !! id0) as [[x dx]|]; split_and!; [done|lia|lia|done|lia|lia].
    + left. by apply live_sub, live_sub in Hid.
    + left. by apply live_sub, live_sub in Hid.
  - intros id n first d _ Hm Ht. assert (id <> id0) as Hne.
    { intros ->. specialize (Hold _ _ _ Hm). lia. }
    assert (live (next_reading c2) (live (next_reading (_attempts l)) m) !! id = Some (n, first, d)) as Hl.
    { destruct (C5 _ _ _ _ Hm) as (d' & -> & Hd & _). apply live_some; [apply live_some; [done|lia]|lia]. }
    cbn [bump]. rewrite decide_False by done. destruct b; [by rewrite lookup_insert_ne|done].
Qed.

Lemma failure_counts (id0 : pystr) (l : limiter) (m : counts) : counted l m ->
  exists l' m', record_failure id0 l = Ok l' /\ counted l' m' /\ limiter_later l l' /\ keeps_windows (Failure id0) l l' m m'.
Proof.
  intros C. pose proof C as [C1 C2 C3 C4 C5]. unfold record_failure.
  destruct (peek_later (_attempts l) m id0 None C1) as (c1 & Hp & S1 & L1). cbn zeta in *.
  change (time_of None (_attempts l)) with (next_reading (_attempts l)) in *.
  destruct (read_later c1 _ S1) as (S2 & L2 & E2). rewrite Hp. cbn [res_bind].
  rewrite (surjective_pairing (read_clock c1)), E2. set (c2 := snd (read_clock c1)) in *. clearbody c2.
  assert (later (_attempts l) c2) as L by by eapply later_trans.
  assert (rising c1) as R1 by by eapply later_rising.
  pose proof (later_next _ _ R1 L2) as T2. pose proof (later_next _ _ C2 L1) as T1.
  assert ((forall n first d, m !! id0 = Some (n, first, d) -> first + _window l <= next_reading c1) ->
    exists l' m', (let! (kept, c) := put id0 (1, next_reading c1) None None false c2 in
      Ok (if kept : bool then with_attempts c l else saturate (next_reading c1 + _window l) (with_attempts c l))) = Ok l' /\
      counted l' m' /\ limiter_later l l' /\ keeps_windows (Failure id0) l l' m m') as Hnew.
  { intros Hold. destruct (new_window id0 l l m _ c2 (next_reading c1) C eq_refl S2 L T2 T1 Hold) as (b & c3 & Hput & Hl').
    assert (later (_attempts l) c3) as L3.
    { destruct (put_later c2 _ id0 (1, next_reading c1) None false (_window l) S2 ltac:(by rewrite (later_ttl _ _ L)))
        as (b' & c3' & Hput' & L3 & _). rewrite Hput in Hput'. injection Hput' as <- <-. by eapply later_trans. }
    rewrite Hput. cbn [res_bind]. eexists. destruct (Hl' (if b then with_attempts c3 l else
      saturate (next_reading c1 + _window l) (with_attempts c3 l))) as (m' & ? & ?).
    - by destruct b.
    - by destruct b.
    - exists m'. split_and!; [done|done|by destruct b|done]. }
  destruct (live (next_reading (_attempts l)) m !! id0) as [[[n0 f0] d0]|] eqn:Hid; cbn [fmap option_fmap option_map fst].
  - destruct (Z.leb_spec (_window l) (next_reading c1 - f0)) as [Hout|Hin].
    { apply Hnew. intros n first d Hm. rewrite (live_sub _ _ _ _ Hid) in Hm. injection Hm as <- <- <-. lia. }
    clear Hnew. pose proof (live_sub _ _ _ _ Hid) as Hm0. destruct (C5 _ _ _ _ Hm0) as (d & -> & Hd & Hf).
    destruct (put_later c2 _ id0 (n0 + 1, f0) None true (_window l) S2 ltac:(by rewrite (later_ttl _ _ L))) as (b & c3 & Hput & L3 & S3 & Hb).
    cbn zeta in *. change (time_of None c2) with (next_reading c2) in *. rewrite Hput. cbn [res_bind].
    assert (rising c2) as R2 by by eapply later_rising. pose proof (later_next _ _ R2 L3) as T3.
    assert (limiter_later l (with_attempts c3 l)) as HL by (split_and!; [done|done|by eapply later_trans]).
    eexists _, _. split; [done|]. split; [apply (counted_after l _ m _ C HL S3)|split; [done|]].
    + intros id n first dx Hx. destruct b; [apply lookup_insert_Some in Hx as [[<- [= <- <- <-]]|[_ Hx]]|].
      * unfold written. right. cbn [with_attempts _attempts].
        destruct (live (next_reading c2) (live (next_reading (_attempts l)) m) !! id0) as [[x dx]|] eqn:Hx.
        -- apply live_sub, live_sub in Hx. rewrite Hm0 in Hx. injection Hx as <- <-. exists d. split_and!; [done|lia|lia].
        -- exists (next_reading c2 + _window l). split_and!; [done|lia|lia].
      * left. by apply live_sub, live_sub in Hx.
      * left. by apply live_sub, live_sub in Hx.
    + intros id n first dx _ Hm Ht. cbn [with_attempts _attempts] in Ht.
      assert (live (next_reading c2) (live (next_reading (_attempts l)) m) !! id = Some (n, first, dx)) as Hl.
      { destruct (C5 _ _ _ _ Hm) as (d' & -> & Hd' & _). apply live_some; [apply live_some; [done|lia]|lia]. }
      cbn [bump]. destruct (decide (id0 = id)) as [<-|Hne].
      * rewrite Hb by (apply elem_of_dom; by rewrite Hl). rewrite lookup_insert_eq. unfold written. rewrite Hl.
        rewrite Hm0 in Hm. by injection Hm as <- <- <-.
      * destruct b; [by rewrite lookup_insert_ne|done].
  - destruct (m !! id0) as [[[n0 f0] d0]|] eqn:Hm0; [|apply Hnew; intros n first d Hm; by rewrite Hm0 in Hm || done].
    apply Hnew. intros n first d [= <- <- <-]. destruct (decide (f0 + _window l <= next_reading c1)) as [Hle|Hgt]; [done|exfalso].
    rewrite (open_live l m id0 n0 f0 d0 _ C Hm0) in Hid by lia. done.
Qed.

Lemma success_counts (id0 : pystr) (l : limiter) (m : counts) : counted l m ->
  exists l' m', record_success id0 l = Ok l' /\ counted l' m' /\ limiter_later l l' /\ keeps_windows (Success id0) l l' m m'.
Proof.
  intros C. pose proof C as [C1 C2 C3 C4 C5]. unfold record_success.
  destruct (discard_later (_attempts l) m id0 C1) as (c1 & -> & S1 & L1). cbn [res_bind].
  assert (limiter_later l (with_attempts c1 l)) as HL by done. eexists _, _. split_and!; [done| |done|].
  - apply (counted_after l _ m _ C HL S1). intros id n first d [_ Hd]%lookup_delete_Some. by left.
  - intros id n first d Hne Hm _. cbn [bump]. rewrite lookup_delete_ne; [done|]. intros <-. by apply Hne.
Qed.

Lemma limiter_counts_step (o : limiter_op) (l : limiter) (m : counts) : counted l m ->
  exists r l' m', limiter_step o l = Ok (r, l') /\ counted l' m' /\ limiter_later l l' /\ keeps_windows o l l' m m'.
Proof.
  intros C. destruct o as [id|id|id]; cbn [limiter_step].
  - destruct (allow_counts id l m C) as (b & l' & m' & -> & ? & ? & ? & _). by exists (Some b), l', m'.
  - destruct (failure_counts id l m C) as (l' & m' & -> & ? & ? & ?). by exists None, l', m'.
  - destruct (success_counts id l m C) as (l' & m' & -> & ? & ? & ?). by exists None, l', m'.
Qed.

(** The failures of an identifier. *)
Definition failures (id : pystr) (ops : list limiter_op) : Z :=
  foldr (fun o n => bump o id n) 0 ops.

Lemma bump_add o id n : bump o id n = n + bump o id 0.
Proof. destruct o as [j|j|j]; cbn [bump]; try lia. case_decide; lia. Qed.

Lemma limiter_counts_run (ops : list limiter_op) : forall (l : limiter) (m : counts), counted l m ->
  exists l' m', limiter_run ops l = Ok l' /\ counted l' m' /\ limiter_later l l' /\
    forall id n first d, Success id ∉ ops -> m !! id = Some (n, first, d) ->
      next_reading (_attempts l') < first + _window l -> m' !! id = Some (n + failures id ops, first, d).
Proof.
  induction ops as [|o ops IH]; intros l m C; cbn [limiter_run].
  - exists l, m. split_and!; [done|done|done|]. intros id n first d _ Hm _. cbn. by rewrite Z.add_0_r.
  - destruct (limiter_counts_step o l m C) as (r & l1 & m1 & -> & C1 & (E1 & E2 & L1) & H1). cbn [res_bind].
    destruct (IH l1 m1 C1) as (l' & m' & -> & C' & (E3 & E4 & L2) & H2). exists l', m'. split_and!; [done|done| |].
    + split_and!; [congruence|congruence|by eapply later_trans].
    + intros id n first d Ho Hm Ht. apply not_elem_of_cons in Ho as [Ho Hops].
      pose proof (later_next _ _ (c_rising _ _ C1) L2) as T2.
      assert (m1 !! id = Some (bump o id n, first, d)) as Hm1 by (apply H1; [congruence|done|lia]).
      rewrite (H2 id _ _ _ Hops Hm1) by (rewrite E2; lia). cbn [failures foldr]. rewrite (bump_add o id n), (bump_add o id (foldr _ _ _)).
      f_equal. f_equal. f_equal. unfold failures. lia.
Qed.

End limiter.

(** *** Approvals *)

Section approvals.
Context {T : Type} `{!Table (pystr * pystr) ApprovalRequest T} `{!TableLaws (pystr * pystr) ApprovalRequest T}.
Abbreviation store := (CapabilityMap (K := pystr * pystr) (T := T)).
Abbreviation held_approvals := (gmap (pystr * pystr) (ApprovalRequest * time)).

Inductive approval_op : Type :=
| Issue (id tenant principal action : pystr) (resource : option pystr) (ttl : Z) (fresh_auth : bool) (issued : option Z)
| Claim (id tenant principal : pystr) (authenticated_at : option Z)
| Deny (id tenant principal : pystr).

Inductive approval_out : Type :=
| Issued (r : ApprovalRequest)
| Granted (authenticated_at : option Z) (g : ApprovalGrant)
| DeniedTo (id tenant principal : pystr)
| Refused (e : approval_error).

Definition approval_step (o : approval_op) (c : store) : approval_out * store :=
  match o with
  | Issue id tenant principal action resource ttl fresh_auth issued =>
    let '(r, c) := issue id tenant principal action resource ttl fresh_auth issued c in
    (match r with Ok r => Issued r | Err e => Refused e end, c)
  | Claim id tenant principal auth =>
    let '(r, c) := approval_claim id tenant principal auth c in
    (match r with Ok g => Granted auth g | Err e => Refused e end, c)
  | Deny id tenant principal =>
    let '(r, c) := deny id tenant principal c in
    (match r with Ok _ => DeniedTo id tenant principal | Err e => Refused e end, c)
  end.

Fixpoint approval_run (ops : list approval_op) (c : store) : list approval_out * store :=
  match ops with
  | [] => ([], c)
  | o :: ops =>
    let '(out, c) := approval_step o c in
    let '(outs, c) := approval_run ops c in (out :: outs, c)
  end.

(** What a log promises of the approvals that are open: issued, and since then
    neither granted nor denied. *)
Definition approved (auth : option Z) (r : ApprovalRequest) (g : ApprovalGrant) : Prop :=
  g = mk_grant (approval_id r) (ap_tenant r) (principal_id r) (ap_action r) (resource r) (approved_at g) /\
  approved_at g < expires_at r /\
  (require_fresh_auth r = true -> exists t, auth = Some t /\ issued_at r <= t <= approved_at g).

Fixpoint conforms (open : gmap (pystr * pystr) ApprovalRequest) (log : list approval_out) : Prop :=
  match log with
  | [] => True
  | Issued r :: log => conforms (<[(ap_tenant r, approval_id r) := r]> open) log
  | Granted auth g :: log =>
    exists r, open !! (g_tenant g, g_id g) = Some r /\ approved auth r g /\ conforms (delete (g_tenant g, g_id g) open) log
  | DeniedTo id tenant principal :: log =>
    exists r, open !! (tenant, id) = Some r /\ principal_id r = principal /\ conforms (delete (tenant, id) open) log
  | Refused e :: log => (forall x, e <> MapFailed x) /\ conforms open log
  end.

(** The records, and which of them are open. *)
Record recorded (c : store) (m : held_approvals) (open : gmap (pystr * pystr) ApprovalRequest) : Prop := {
  a_sound : sound c m;
  a_keys : forall k r d, m !! k = Some (r, d) -> k = (ap_tenant r, approval_id r) /\ d = Some (expires_at r);
  a_open : forall k r d, m !! k = Some (r, d) -> ap_state r = pending -> open !! k = Some r }.

Lemma recorded_less (c c' : store) (m m' : held_approvals) (open : gmap (pystr * pystr) ApprovalRequest) : recorded c m open -> sound c' m' ->
  (forall k x, m' !! k = Some x -> m !! k = Some x) -> recorded c' m' open.
Proof. intros [A1 A2 A3] S Hsub. split; [done|intros k r d Hk%Hsub; by eapply A2|intros k r d Hk%Hsub; by eapply A3]. Qed.

Lemma recorded_read (c : store) (m : held_approvals) (open : gmap (pystr * pystr) ApprovalRequest) : recorded c m open -> recorded (snd (read_clock c)) m open.
Proof. intros A. eapply recorded_less; [exact A| |done]. by apply read_later, A. Qed.

Lemma complete_marks (c : store) (m : held_approvals) (open : gmap (pystr * pystr) ApprovalRequest) (k : pystr * pystr) (r : ApprovalRequest) (s : approval_state) (now : Z) :
  recorded c m open -> m !! k = Some (r, Some (expires_at r)) -> s <> pending ->
  exists b c', complete k (with_state s r) (Some now) c = Ok (b, c') /\
    (b = true -> now < expires_at r /\ recorded c' (<[k := (with_state s r, Some (expires_at r))]> m) (delete k open)) /\
    (b = false -> recorded c' m open).
Proof.
  intros A Hk Hs. pose proof A as [A1 A2 A3]. pose proof (complete_refines c m k (with_state s r) (Some now) A1) as Hr.
  cbn [spec_step cap_step] in Hr. change (time_of (Some now) c) with now in Hr. rewrite live_lookup, Hk in Hr. cbn [snd past] in Hr.
  unfold out_of in Hr. destruct (Z.leb_spec (expires_at r) now) as [Hle|Hlt].
  - destruct Hr as (o & c' & Hc & Ho & S' & _). destruct (complete k (with_state s r) (Some now) c) as [[b c1]|]; [|done].
    injection Hc as <- <-. injection Ho as ->. exists false, c1. split_and!; [done|done|]. intros _.
    by eapply recorded_less.
  - destruct Hr as (o & c' & Hc & Ho & S' & _). destruct (complete k (with_state s r) (Some now) c) as [[b c1]|]; [|done].
    injection Hc as <- <-. injection Ho as ->. exists true, c1. split_and!; [done| |done]. intros _. split; [done|]. split; [done|..].
    + intros j r' d [[<- [= <- <-]]|[_ Hj]]%lookup_insert_Some; [|by eapply A2]. cbn. by destruct (A2 _ _ _ Hk) as [-> _].
    + intros j r' d [[<- [= <- <-]]|[Hne Hj]]%lookup_insert_Some Hp; [done|].
      rewrite lookup_delete_ne by done. by eapply A3.
Qed.

(** [_bound]: the request it returns is held under the key. *)
Lemma bound_recorded (id tenant principal : pystr) (c : store) (m : held_approvals) (open : gmap (pystr * pystr) ApprovalRequest) : recorded c m open ->
  exists m', recorded (snd (_bound id tenant principal c)) m' open /\
    match fst (_bound id tenant principal c) with
    | Ok r => m' !! (tenant, id) = Some (r, Some (expires_at r)) /\ ap_tenant r = tenant /\ approval_id r = id /\ principal_id r = principal
    | Err e => forall x, e <> MapFailed x
    end.
Proof.
  intros A. unfold _bound. destruct (negb _); [by exists m|].
  pose proof (recorded_read c m open A) as A0. rewrite (surjective_pairing (read_clock c)).
  set (now := fst (read_clock c)). set (c0 := snd (read_clock c)) in *.
  destruct (peek_later c0 m (_key id tenant) (Some now) (a_sound _ _ _ A0)) as (c1 & Hp & S1 & _). cbn zeta in *.
  change (time_of (Some now) c0) with now in *. rewrite Hp.
  assert (recorded c1 (live now m) open) as A1 by (eapply recorded_less; [exact A0|exact S1|intros k x; apply live_sub]).
  destruct (live now m !! _key id tenant) as [[r d]|] eqn:Hk; cbn [fmap option_fmap option_map fst]; [|by exists (live now m)].
  destruct (expires_at r <=? now).
  { destruct (discard_later c1 _ (_key id tenant) S1) as (c2 & -> & S2 & _). exists (delete (_key id tenant) (live now m)).
    split; [|done]. eapply recorded_less; [exact A1|exact S2|]. by intros k x [_ ?]%lookup_delete_Some. }
  destruct (a_keys _ _ _ A1 _ _ _ Hk) as [Ek ->]. unfold _key in Ek. injection Ek as Et Ei.
  case_bool_decide; [by exists (live now m)|]. case_bool_decide as Hpr; [by exists (live now m)|].
  exists (live now m). split; [done|]. split_and!; [exact Hk|done|done|]. exact Hpr.
Qed.

Lemma issue_recorded (id tenant principal action : pystr) (resource : option pystr) (ttl : Z) (fresh_auth : bool)
    (issued : option Z) (c : store) (m : held_approvals) (open : gmap (pystr * pystr) ApprovalRequest) :
  recorded c m open -> exists m', match fst (issue id tenant principal action resource ttl fresh_auth issued c) with
    | Ok r => recorded (snd (issue id tenant principal action resource ttl fresh_auth issued c)) m' (<[(ap_tenant r, approval_id r) := r]> open)
    | Err e => recorded (snd (issue id tenant principal action resource ttl fresh_auth issued c)) m' open /\ forall x, e <> MapFailed x
    end.
Proof.
  intros A. unfold issue. destruct (negb _); [by exists m|]. destruct (ttl <=? 0); [by exists m|].
  pose proof (recorded_read c m open A) as A0. rewrite (surjective_pairing (read_clock c)).
  set (now := fst (read_clock c)). set (c0 := snd (read_clock c)) in *. clearbody c0. set (t := default now issued).
  destruct (now <? t); [by exists m|]. destruct (Z.leb_spec (t + ttl) now) as [|Hexp]; [by exists m|].
  set (request := mk_approval _ _ _ _ _ _ _ _ _).
  pose proof (cap_claim_refines c0 m (_key id tenant) request (Some (t + ttl - now)) (Some now) (a_sound _ _ _ A0)) as Hr.
  cbn [spec_step cap_step] in Hr. change (time_of (Some now) c0) with now in Hr. unfold out_of in Hr.
  assert (forall c1, sound c1 (live now m) -> recorded c1 (live now m) open) as Hless
    by (intros c1 S1; eapply recorded_less; [exact A0|exact S1|intros k x; apply live_sub]).
  assert (forall c1, sound c1 (live now m) -> exists m', let r := match peek (_key id tenant) (Some now) c1 with
      | Err e => (Err (MapFailed e), c1)
      | Ok (Some _, c) => (Err DuplicateApproval, c)
      | Ok (None, c) => (Err (A := ApprovalRequest) AtCapacity, c)
      end in match fst r with Ok r0 => recorded (snd r) m' (<[(ap_tenant r0, approval_id r0) := r0]> open)
             | Err e => recorded (snd r) m' open /\ forall x, e <> MapFailed x end) as Hrefused.
  { intros c1 S1. destruct (peek_later c1 _ (_key id tenant) (Some now) S1) as (c2 & Hp & S2 & _). cbn zeta in *.
    change (time_of (Some now) c1) with now in *. rewrite live_live in Hp, S2. exists (live now m). rewrite Hp.
    destruct (live now m !! _key id tenant) as [[r d]|]; cbn; (split; [by apply Hless|done]). }
  case_bool_decide as Hin.
  { destruct Hr as (o & c1 & Hc & Ho & S1 & _). destruct (claim _ _ _ _ c0) as [[b c1']|]; [|done].
    injection Hc as <- <-. injection Ho as ->. by apply Hrefused. }
  unfold spec_put, deadline_of in Hr. rewrite (proj2 (Z.leb_gt _ 0)) in Hr by lia. cbn [res_bind] in Hr.
  destruct (_ || _); destruct Hr as (o & c1 & Hc & Ho & S1 & _); (destruct (claim _ _ _ _ c0) as [[b c1']|]; [|done]);
    injection Hc as <- <-; injection Ho as ->; [|by apply Hrefused].
  eexists. cbn [fst snd]. unfold written in S1. rewrite (proj1 (not_elem_of_dom _ _) Hin) in S1.
  replace (now + (t + ttl - now)) with (t + ttl) in S1 by lia. pose proof (Hless) as Hl. destruct A0 as [B1 B2 B3]. split; [exact S1|..].
  - intros k r d [[<- [= <- <-]]|[_ Hk%live_sub]]%lookup_insert_Some; [done|by eapply B2].
  - intros k r d [[<- [= <- <-]]|[Hne Hk%live_sub]]%lookup_insert_Some Hp; [by rewrite lookup_insert_eq|].
    rewrite lookup_insert_ne by done. by eapply B3.
Qed.

Lemma approval_step_conforms (o : approval_op) (c : store) (m : held_approvals) (open : gmap (pystr * pystr) ApprovalRequest) (log : list approval_out) : recorded c m open ->
  (forall m' open', recorded (snd (approval_step o c)) m' open' -> conforms open' log) ->
  conforms open (fst (approval_step o c) :: log).
Proof.
  intros A Hlog. destruct o as [id tenant principal action resource ttl fresh_auth issued|id tenant principal auth|id tenant principal];
    cbn [approval_step] in *.
  - destruct (issue_recorded id tenant principal action resource ttl fresh_auth issued c m open A) as (m' & Hm).
    destruct (issue _ _ _ _ _ _ _ _ c) as [[r|e] c1]; cbn [fst snd conforms] in *; [by eapply Hlog|].
    destruct Hm as [? ?]. split; [done|by eapply Hlog].
  - unfold approval_claim in *. destruct (bound_recorded id tenant principal c m open A) as (m1 & A1 & Hb).
    destruct (_bound id tenant principal c) as [[r|e] c1]; cbn [fst snd] in *; [|split; [done|by eapply Hlog]].
    destruct Hb as (Hk & Et & Ei & Ep). pose proof (recorded_read c1 m1 open A1) as A2.
    rewrite (surjective_pairing (read_clock c1)) in *. set (now := fst (read_clock c1)) in *. set (c2 := snd (read_clock c1)) in *.
    clearbody now c2. destruct (claim_refusal r auth now) as [e|] eqn:Hc; cbn [fst snd conforms] in *.
    { split; [|by eapply Hlog]. unfold claim_refusal in Hc. by repeat case_match; simplify_eq. }
    destruct (complete_marks c2 m1 open (_key id tenant) r used now A2 Hk ltac:(done)) as (b & c3 & Hcm & Ht & Hf).
    rewrite Hcm in *. destruct b; cbn [fst snd conforms] in *; [|split; [done|eapply Hlog, Hf; done]].
    destruct (Ht eq_refl) as [Hlt A3]. unfold claim_refusal in Hc. destruct (ap_state r) eqn:Es; [|done..].
    exists r. split; [by eapply (a_open _ _ _ A2)|]. split; [|by eapply Hlog].
    split; [cbn; congruence|]. split; [done|]. intros Hfresh. rewrite Hfresh in Hc. destruct auth as [t|]; [|done].
    destruct (Z.ltb_spec now t), (Z.ltb_spec t (issued_at r)); try done. exists t. split; [done|]. cbn. lia.
  - unfold deny in *. destruct (bound_recorded id tenant principal c m open A) as (m1 & A1 & Hb).
    destruct (_bound id tenant principal c) as [[r|e] c1]; cbn [fst snd] in *; [|split; [done|by eapply Hlog]].
    destruct Hb as (Hk & Et & Ei & Ep). destruct (ap_state r) eqn:Es; [|split; [done|by eapply Hlog]..].
    pose proof (recorded_read c1 m1 open A1) as A2. rewrite (surjective_pairing (read_clock c1)) in *.
    set (now := fst (read_clock c1)) in *. set (c2 := snd (read_clock c1)) in *. clearbody now c2.
    destruct (complete_marks c2 m1 open (_key id tenant) r denied now A2 Hk ltac:(done)) as (b & c3 & Hcm & Ht & Hf).
    rewrite Hcm in *. destruct b; cbn [fst snd conforms] in *; [|split; [done|eapply Hlog, Hf; done]].
    destruct (Ht eq_refl) as [Hlt A3]. exists r. split_and!; [by eapply (a_open _ _ _ A2)|done|by eapply Hlog].
Qed.

Lemma approval_run_conforms (ops : list approval_op) : forall (c : store) (m : held_approvals) (open : gmap (pystr * pystr) ApprovalRequest), recorded c m open ->
  conforms open (fst (approval_run ops c)).
Proof.
  induction ops as [|o ops IH]; intros c m open A; cbn [approval_run]; [done|].
  destruct (approval_step o c) as [out c1] eqn:Hs. destruct (approval_run ops c1) as [outs c2] eqn:Hr. cbn [fst].
  replace out with (fst (approval_step o c)) by by rewrite Hs. apply (approval_step_conforms o c m open outs A).
  intros m' open' A'. rewrite Hs in A'. cbn [snd] in A'. specialize (IH c1 m' open' A'). by rewrite Hr in IH.
Qed.

End approvals.

(** *** Properties *)

(** A [LoginLimiter] over a real table counts every failure: once an
    identifier has a window open with [n] failures, then whatever is asked and
    reported of it and of others, with no success of its own, [allow] answers
    until the window ends whether [n] and the failures since are below
    [max_attempts]; no other identifier and no lack of room changes the count,
    and no operation fails. *)
Theorem limiter_counts_failures (hash : pystr -> Z) attempts window tracked clock before ops id n first
    (l0 l1 : LoginLimiter (T := kv (K := pystr) (V := Z * Z))) :
  limiter_init attempts window (refusing tracked (Some window) clock) = Ok l0 -> tracked <= 2 ^ 59 ->
  (forall i j, (i <= j)%nat -> clock i <= clock j) ->
  limiter_run (Table0 := kv_table hash) before l0 = Ok l1 ->
  held (H0 := kv_table hash) id (_attempts l1) = Ok (Some (n, first)) -> Success id ∉ ops ->
  exists l2 l3 b, limiter_run (Table0 := kv_table hash) ops l1 = Ok l2 /\
    allow (H := kv_table hash) id l2 = Ok (b, l3) /\
    (next_reading (_attempts l3) < first + window -> b = (n + failures id ops <? attempts)).
Proof.
  set (tb := kv_table hash). pose (tl := kv_table_laws hash : TableLaws pystr (Z * Z) (kv (K := pystr) (V := Z * Z))).
  intros Hi Hn Hclock Hbefore Hheld Hops. unfold limiter_init in Hi.
  destruct (attempts <? 1); [done|]. destruct (Z.leb_spec window 0) as [|Hw]; [done|].
  destruct (refusing tracked (Some window) clock) as [c|] eqn:Hc; [|done]. injection Hi as <-.
  destruct (refusing_sound hash tracked (Some window) clock c Hc Hn) as (S & Hs & _).
  assert (counted (mk_limiter attempts window 0 c) ∅) as C0.
  { unfold settings in Hs. injection Hs as E1 E2 _. split; cbn; [done|by unfold rising; rewrite E1|by rewrite E2|done|done]. }
  destruct (limiter_counts_run before _ ∅ C0) as (l1' & m1 & Hrun & C1 & (E1 & E2 & _) & _).
  rewrite Hbefore in Hrun. injection Hrun as <-. cbn [_max _window] in E1, E2.
  destruct (limiter_counts_run ops l1 m1 C1) as (l2 & m2 & Hrun2 & C2 & (E3 & E4 & _) & Hk).
  destruct (allow_counts id l2 m2 C2) as (b & l3 & m3 & Hallow & _ & (E5 & E6 & L3) & _ & Hb).
  exists l2, l3, b. split_and!; [done|done|]. intros Ht.
  unfold held in Hheld. rewrite (held_law _ _ id (c_sound _ _ C1).(s_holds _ _ _)) in Hheld.
  destruct (m1 !! id) as [[[n' f'] d]|] eqn:Hm1; [|done]. injection Hheld as -> ->.
  pose proof (later_next _ _ (c_rising _ _ C2) L3) as T.
  rewrite (Hb (n + failures id ops) first d); [by rewrite E3, E1|apply Hk; [done|done|rewrite E2; lia]|rewrite E4, E2; lia].
Qed.

(** C26. An approval is granted at most once: in every run of an
    [InMemoryApprovalStore] a grant is of a request that was issued under that
    tenant and id and since then neither granted nor denied, to its principal,
    for its action and resource, before it expired and, where it demands it, with
    an authentication between its issue and the grant; the only refusals are the
    documented ones. *)
Theorem approvals_granted_once (hash : pystr * pystr -> Z) n clock (c : CapabilityMap (T := kv (V := ApprovalRequest))) ops :
  refusing n None clock = Ok c -> n <= 2 ^ 59 ->
  conforms ∅ (fst (approval_run (Table0 := kv_table hash) ops c)).
Proof.
  intros Hc Hn. pose (tb := kv_table hash : Table (pystr * pystr) ApprovalRequest kv).
  pose (tl := kv_table_laws hash : TableLaws (pystr * pystr) ApprovalRequest kv).
  destruct (refusing_sound hash n None clock c Hc Hn) as (S & _).
  apply (approval_run_conforms (TableLaws0 := tl) ops c ∅ ∅). by split.
Qed.

(** *** Witnesses *)

Definition text_hash (s : pystr) : Z := foldr Z.add 0 s.
Definition pair_hash (p : pystr * pystr) : Z := text_hash (fst p) + text_hash (snd p).

Lemma limiter_counts_failures_witness : exists l0 l1 : LoginLimiter (T := kv (K := pystr) (V := Z * Z)),
  limiter_init 3 100 (refusing 2 (Some 100) second) = Ok l0 /\
  limiter_run (Table0 := kv_table text_hash) [Failure (bs "eve")] l0 = Ok l1 /\
  exists l2 l3 b, limiter_run (Table0 := kv_table text_hash)
      [Failure (bs "bob"); Failure (bs "eve"); Failure (bs "joe"); Failure (bs "eve")] l1 = Ok l2 /\
    allow (H := kv_table text_hash) (bs "eve") l2 = Ok (b, l3) /\
    (next_reading (_attempts l3) < 2 + 100 -> b = (1 + 2 <? 3)).
Proof.
  eexists _, _. split; [reflexivity|]. split; [vm_compute; reflexivity|].
  eapply (limiter_counts_failures text_hash 3 100 2 second [Failure (bs "eve")]
    [Failure (bs "bob"); Failure (bs "eve"); Failure (bs "joe"); Failure (bs "eve")] (bs "eve") 1 2).
  - reflexivity.
  - lia.
  - unfold second. lia.
  - vm_compute. reflexivity.
  - vm_compute. reflexivity.
  - intros Hin. repeat (apply elem_of_cons in Hin as [E|Hin]; [done|]). by apply elem_of_nil in Hin.
Defined.

(** Issued, granted, refused the second time; another denied. *)
Definition approval_ops : list approval_op :=
  [Issue (bs "1") (bs "acme") (bs "ann") (bs "refund") None 50 false None; Claim (bs "1") (bs "acme") (bs "bob") None;
   Claim (bs "1") (bs "acme") (bs "ann") None; Claim (bs "1") (bs "acme") (bs "ann") None;
   Issue (bs "2") (bs "acme") (bs "ann") (bs "close") (Some (bs "7")) 50 true None; Deny (bs "2") (bs "acme") (bs "ann");
   Claim (bs "2") (bs "acme") (bs "ann") (Some 9)].

Definition out_code (o : approval_out) : Z :=
  match o with
  | Issued _ => 1 | Granted _ _ => 2 | DeniedTo _ _ _ => 3
  | Refused ApprovalMismatch => 4 | Refused ApprovalDenied => 5 | Refused _ => 6
  end.

Lemma approvals_granted_once_witness : exists c : CapabilityMap (T := kv (V := ApprovalRequest)),
  refusing 8 None second = Ok c /\
  map out_code (fst (approval_run (Table0 := kv_table pair_hash) approval_ops c)) = [1; 4; 2; 4; 1; 3; 5] /\
  conforms ∅ (fst (approval_run (Table0 := kv_table pair_hash) approval_ops c)).
Proof.
  eexists. split; [reflexivity|]. split; [vm_compute; reflexivity|].
  apply (approvals_granted_once pair_hash 8 second); [reflexivity|lia].
Defined.

(** A RelayState that is not ASCII spends the login and ends in a [TypeError]
    instead of a refusal. *)
Definition one_login : PendingLogin := mk_login (bs "_1") (bs "relay") (bs "acme") 1 (bs "session") [].

Lemma relay_state_not_ascii : exists c : CapabilityMap (K := pystr) (T := kv (V := PendingLogin)),
  refusing 4 (Some 600) second = Ok c /\
  match login_put (H := kv_table text_hash) one_login (mk_logins c 600 4 None) with
  | Ok (true, s) =>
    let '(r, s) := spend (H := kv_table text_hash) (bs "_1") [233] (bs "session") (Some 2) s in
    r = Err SsoTypeError /\ fst (spend (H := kv_table text_hash) (bs "_1") (bs "relay") (bs "session") (Some 3) s) = Err unsolicited
  | _ => False
  end.
Proof. eexists. split; [reflexivity|]. vm_compute. done. Qed.
