(* ===== verification/Idempotency.v ===== *)
(** * Replay-safe requests: [policy/idempotency.py]

    The policy around a handler ([action], [after]) over the interface
    [IdempotencyStore], and its two stores: in memory, over [CapabilityMap], and
    in a table, whose statements are the interface [Rows].  BLAKE2s and the native
    header check are arguments. *)

From stdpp Require Import base sets strings numbers list gmap.
From Stdlib Require Import ZArith Lia.
From S2P Require Import Prelude PyCollections PyText StructuredFields CacheControl.
From S2P Require Import KvTable CapabilityMap.
#[local] Open Scope Z_scope.

Abbreviation bytes := (list Z).
Abbreviation header_list := (list (bytes * bytes)).

Definition _UNCACHEABLE_BODY : list pystr :=
  [bs "StreamingResponse"; bs "FileResponse"; bs "SSEResponse"; bs "PreparedResponse"].
Definition _RETRYABLE_STATUSES : list Z := [401; 403; 408; 409; 423; 425; 429; 449].
Definition _UNREPLAYABLE_HEADERS : list bytes := [bs "set-cookie"; bs "set-cookie2"].

(** What leaves the policy as an exception: a [ValueError] of a key, which
    [action] answers with 400; a failure of the table; a response that cannot be
    built or has no body. *)
Inductive idem_error : Type :=
| DuplicateKey | CommaInKey | DuplicateHost | Unencodable
| TableFailed (e : kv_error) | BadResponse | NoBody.

(** ** The store key *)

(** [str.encode('utf-8')]. *)
Definition scalar (c : Z) : bool := within 0 c 0xD7FF || within 0xE000 c 0x10FFFF.
Definition encode (s : pystr) : res idem_error bytes :=
  if forallb scalar s then Ok (concat (map utf8_char s)) else Err Unencodable.

Fixpoint _idempotency_scope (parts : list pystr) : res idem_error pystr :=
  match parts with
  | [] => Ok []
  | part :: parts =>
    let! b := encode part in
    let! rest := _idempotency_scope parts in
    Ok (str_of_Z (zlen b) ++ bs ":" ++ part ++ rest)
  end.

Definition qualified_identity_value (namespace value : pystr) : pystr :=
  match namespace with [] => value | _ => str_of_Z (zlen namespace) ++ bs ":" ++ namespace ++ value end.

Record Identity : Type := mk_identity { id_type : pystr; id_namespace : pystr; id_id : pystr }.

(** What the policy reads of a request; header values are bytes, texts are code
    points, and the Latin-1 decoding of bytes keeps them as they are. *)
Record Request : Type := mk_request {
  method : pystr;
  headers : header_list;
  raw_path : option bytes;
  path : pystr;
  query_string : bytes;
  scheme : pystr;
  server : option (pystr * option Z);
  identity : option Identity;
  tenant : option pystr }.

(** [_single_header] of [request.py]. *)
Fixpoint single_header_loop (name : bytes) (l : header_list) (found : option bytes) : res idem_error (option bytes) :=
  match l with
  | [] => Ok found
  | (candidate, value) :: l =>
    if bool_decide (candidate <> name) then single_header_loop name l found
    else match found with Some _ => Err DuplicateHost | None => single_header_loop name l (Some value) end
  end.

Definition _request_path (r : Request) : pystr := match raw_path r with Some b => b | None => path r end.

Definition _request_authority (r : Request) : res idem_error pystr :=
  let! authority := single_header_loop (bs "host") (headers r) None in
  match authority, server r with
  | Some a, _ => Ok a
  | None, None => Ok []
  | None, Some (host, None) => Ok host
  | None, Some (host, Some port) => Ok (host ++ bs ":" ++ str_of_Z port)
  end.

Section key.
(** [hashlib.blake2s(..., digest_size=16).hexdigest()]. *)
Context (blake2s : bytes -> pystr).

Definition _idempotency_request_scope (method path principal_type principal_id tenant query : pystr) (body : bytes)
    (scheme authority : pystr) : res idem_error pystr :=
  _idempotency_scope [method; scheme; authority; path; principal_type; principal_id; tenant; query; blake2s body].

Definition dedup_key (scope key : pystr) : res idem_error pystr :=
  let! s := encode scope in let! k := encode key in Ok (blake2s (s ++ [0] ++ k)).

(** [_header_value]. *)
Fixpoint key_header_loop (target : bytes) (l : header_list) (found : option bytes) : res idem_error (option bytes) :=
  match l with
  | [] => Ok found
  | (name, value) :: l =>
    if bool_decide (map lower_byte name <> target) then key_header_loop target l found
    else match found with Some _ => Err DuplicateKey | None => key_header_loop target l (Some value) end
  end.

Definition _header_value (header : pystr) (r : Request) : res idem_error (option pystr) :=
  if forallb (fun c => c <? 256) header then
    let! decoded := key_header_loop header (headers r) None in
    match decoded with
    | Some d => if bool_decide (44 ∈ d) then Err CommaInKey else Ok (Some d)
    | None => Ok None
    end
  else Err Unencodable.

(** [_key], the header's value at hand. *)
Definition _key (methods : list pystr) (r : Request) (body : bytes) (value : pystr) : res idem_error (option pystr) :=
  if negb (text_in (method r) methods) then Ok None
  else match value, identity r with
  | [], _ | _, None => Ok None
  | _, Some i =>
    let! authority := _request_authority r in
    let! scope := _idempotency_request_scope (method r) (_request_path r) (id_type i)
      (qualified_identity_value (id_namespace i) (id_id i)) (default [] (tenant r)) (query_string r) body
      (scheme r) authority in
    let! key := dedup_key scope value in
    Ok (Some key)
  end.
End key.

(** ** Responses *)

Record Response : Type := mk_response {
  status : Z;
  r_headers : header_list;
  r_body : option bytes;
  type_name : pystr }.

Definition add_header (name value : bytes) (r : Response) : Response :=
  mk_response (status r) (r_headers r ++ [(name, value)]) (r_body r) (type_name r).

Definition Replay : Type := Z * header_list * bytes.

Definition _replayable_headers (l : header_list) : header_list :=
  filter (fun '(name, value) => map lower_byte name ∉ _UNREPLAYABLE_HEADERS /\ 0 ∉ name /\ 0 ∉ value) l.

Definition bodyless (s : Z) : bool := within 100 s 199 || (s =? 204) || (s =? 205) || (s =? 304).

Section responses.
(** [validate_response_headers]: whether there is a content type, and the
    content length; [None] when it raises. *)
Context (validate_headers : header_list -> option (bool * option bytes)).

(** [Response(body, status=..., headers=...)]. *)
Definition new_response (content : bytes) (s : Z) (l : header_list) : res idem_error Response :=
  if negb (within 100 s 599) then Err BadResponse
  else
    let kept := if bodyless s then [] else content in
    match validate_headers l with
    | None => Err BadResponse
    | Some (has_type, supplied) =>
      let l := if has_type : bool then l else l ++ [(bs "content-type", bs "application/octet-stream")] in
      match supplied with
      | Some n =>
        if within 100 s 199 || (s =? 204) then Err BadResponse
        else if negb (s =? 304) && bool_decide (n <> str_of_Z (zlen kept)) then Err BadResponse
        else Ok (mk_response s l (Some kept) (bs "Response"))
      | None =>
        let l := if bodyless s then l else l ++ [(bs "content-length", str_of_Z (zlen content))] in
        Ok (mk_response s l (Some kept) (bs "Response"))
      end
    end.
End responses.

(** ** The policy *)

Inductive verdict : Type := fresh | in_flight | done | full.

Class IdempotencyStore (St : Type) : Type := {
  reserve : pystr -> St -> res idem_error (verdict * option Replay * St);
  store : pystr -> Replay -> St -> res idem_error St;
  release : pystr -> St -> res idem_error St }.

Record Policy (St : Type) : Type := mk_policy {
  _store : St;
  _methods : list pystr;
  _header : pystr;
  _max_body_bytes : Z;
  conflicts : Z;
  ignored : Z }.
Arguments mk_policy {St}.
Arguments _store {St}.
Arguments _methods {St}.
Arguments _header {St}.
Arguments _max_body_bytes {St}.
Arguments conflicts {St}.
Arguments ignored {St}.

(** [request.state] after [action]: the entries this policy writes. *)
Record State : Type := mk_state { idempotency_ignored : bool; idempotency_key : option pystr }.

Section policy.
Context {St : Type} `{IdempotencyStore St} (blake2s : bytes -> pystr)
  (validate_headers : header_list -> option (bool * option bytes))
  (** The JSON of the [ProblemDetail] of a status and a detail. *)
  (problem_json : Z -> pystr -> bytes).

(** [ProblemResponse(status=..., detail=...)]. *)
Definition problem (s : Z) (detail : pystr) : Response :=
  let content := problem_json s detail in
  mk_response s [(bs "content-type", bs "application/problem+json"); (bs "content-length", str_of_Z (zlen content))]
    (Some content) (bs "ProblemResponse").

(** [__init__], the texts of the methods and of the header in their cases. *)
Definition policy_init (s : St) (methods : list pystr) (header : pystr) (max_body_bytes : Z) : res idem_error (Policy St) :=
  if max_body_bytes <? 0 then Err BadResponse else Ok (mk_policy s methods header max_body_bytes 0 0).

Definition with_store (s : St) (p : Policy St) : Policy St :=
  mk_policy s (_methods p) (_header p) (_max_body_bytes p) (conflicts p) (ignored p).
Definition count_ignored (p : Policy St) : Policy St :=
  mk_policy (_store p) (_methods p) (_header p) (_max_body_bytes p) (conflicts p) (ignored p + 1).
Definition count_conflict (p : Policy St) : Policy St :=
  mk_policy (_store p) (_methods p) (_header p) (_max_body_bytes p) (conflicts p + 1) (ignored p).

(** [str(error)] of a refused key. *)
Definition error_text (e : idem_error) : pystr :=
  match e with
  | DuplicateKey => bs "Idempotency-Key must occur exactly once"
  | CommaInKey => bs "Idempotency-Key must not contain a comma"
  | DuplicateHost => bs "Host must occur at most once"
  | _ => []
  end.

Definition unavailable : Response :=
  add_header (bs "retry-after") (bs "1") (problem 503 (bs "idempotency capacity is temporarily unavailable")).
Definition conflict : Response :=
  add_header (bs "retry-after") (bs "1")
    (problem 409 (bs "a request with this Idempotency-Key is still in progress")).

Definition no_state : State := mk_state false None.

(** The part of [action] before the store is asked: an answer, or the header's
    value and the key of the request. *)
Definition request_key (p : Policy St) (r : Request) (body : bytes) :
    res idem_error (Response + option pystr * option pystr) :=
  match (let! value := _header_value (_header p) r in
         match value with
         | None => Ok (None, None)
         | Some v => let! k := _key blake2s (_methods p) r [] v in Ok (Some v, k)
         end) with
  | Err e => Ok (inl (problem 400 (error_text e)))
  | Ok (Some v, Some _) => let! k := _key blake2s (_methods p) r body v in Ok (inr (Some v, k))
  | Ok (v, _) => Ok (inr (v, None))
  end.

(** [action]: the answer, or none to let the handler run. *)
Definition action (p : Policy St) (r : Request) (body : bytes) : res idem_error (option Response * State * Policy St) :=
  let! asked := request_key p r body in
  match asked with
  | inl answer => Ok (Some answer, no_state, p)
  | inr (value, None) =>
    if text_in (method r) (_methods p) && bool_decide (default [] value <> [])
    then Ok (None, mk_state true None, count_ignored p)
    else Ok (None, no_state, p)
  | inr (_, Some key) =>
    let! (verdict, entry, s) := reserve key (_store p) in
    let p := with_store s p in
    match verdict, entry with
    | full, _ => Ok (Some unavailable, no_state, p)
    | in_flight, _ => Ok (Some conflict, no_state, count_conflict p)
    | done, Some (st, l, content) =>
      let! replay := new_response validate_headers content st l in
      Ok (Some (add_header (bs "idempotency-replayed") (bs "true") replay), no_state, p)
    | _, _ => Ok (None, mk_state false (Some key), p)
    end
  end.

(** Whether the response is given back to the key instead of kept. *)
Definition retryable (p : Policy St) (resp : Response) : bool :=
  (500 <=? status resp) || bool_decide (status resp ∈ _RETRYABLE_STATUSES) ||
  bool_decide (type_name resp ∈ _UNCACHEABLE_BODY) || (_max_body_bytes p <? zlen (default [] (r_body resp))).

Definition after (p : Policy St) (s : State) (resp : Response) : res idem_error (Response * Policy St) :=
  if idempotency_ignored s then Ok (add_header (bs "idempotency-ignored") (bs "unauthenticated") resp, p)
  else match idempotency_key s with
  | None => Ok (resp, p)
  | Some key =>
    if retryable p resp then let! st := release key (_store p) in Ok (resp, with_store st p)
    else match r_body resp with
    | None => Err NoBody
    | Some content =>
      let! st := store key (status resp, _replayable_headers (r_headers resp), content) (_store p) in
      Ok (resp, with_store st p)
    end
  end.

(** [release] of the policy, for an operator. *)
Definition policy_release (key : pystr) (p : Policy St) : res idem_error (Policy St) :=
  let! s := release key (_store p) in Ok (with_store s p).
End policy.

(** ** [MemoryIdempotencyStore] *)

(** A failure of the table leaves the store as it is. *)
Definition of_table {A} (r : res kv_error A) : res idem_error A :=
  match r with Ok a => Ok a | Err e => Err (TableFailed e) end.

Section memory.
(** The value of a key is a replay, or [None] for [CLAIMED]. *)
Context {T : Type} `{Table pystr (option Replay) T}.
Abbreviation MemoryIdempotencyStore := (CapabilityMap (K := pystr) (T := T)).

Definition memory_reserve (key : pystr) (s : MemoryIdempotencyStore) :
    res idem_error (verdict * option Replay * MemoryIdempotencyStore) :=
  of_table (
    let! (won, s) := claim key None None None s in
    if won : bool then Ok (fresh, None, s)
    else
      let! (entry, s) := peek key None s in
      Ok (match entry with
          | None => (full, None)
          | Some None => (in_flight, None)
          | Some (Some replay) => (done, Some replay)
          end, s)).

Definition memory_store (key : pystr) (replay : Replay) (s : MemoryIdempotencyStore) : res idem_error MemoryIdempotencyStore :=
  of_table (let! (_, s) := complete key (Some replay) None s in Ok s).

Definition memory_release (key : pystr) (s : MemoryIdempotencyStore) : res idem_error MemoryIdempotencyStore :=
  of_table (discard (V := option Replay) key s).

#[export] Instance memory_idempotency : IdempotencyStore MemoryIdempotencyStore := {
  reserve := memory_reserve;
  store := memory_store;
  release := memory_release }.
End memory.

(** ** [PostgresIdempotencyStore] *)

(** A row of its table: status, headers as text pairs, body; all null after a
    claim. *)
Record row : Type := mk_row { row_status : option Z; row_headers : option header_list; row_body : option bytes }.

(** Its statements, each atomic, at a reading of the database's clock. *)
Class Rows (D : Type) : Type := {
  claim_row : pystr -> Z -> D -> bool * D;
  read_row : pystr -> D -> option row;
  upsert_row : pystr -> Z -> Z -> header_list -> bytes -> D -> D;
  delete_row : pystr -> D -> D }.

(** Between the claim and the read of [reserve] other workers run: it is a
    statement and, when that refuses, another. *)
Inductive postgres_reserve : Type :=
| Reserved (v : verdict) (r : option Replay)
| Reading (key : pystr).

Section postgres.
Context {D : Type} `{Rows D}.

Definition postgres_claim (key : pystr) (now : Z) (d : D) : postgres_reserve * D :=
  let '(won, d) := claim_row key now d in
  (if won : bool then Reserved fresh None else Reading key, d).

Definition postgres_read (key : pystr) (d : D) : postgres_reserve :=
  match read_row key d with
  | None => Reserved fresh None
  | Some r =>
    match row_status r with
    | None => Reserved in_flight None
    | Some s => Reserved done (Some (s, default [] (row_headers r), default [] (row_body r)))
    end
  end.

Definition postgres_store (key : pystr) (now : Z) (replay : Replay) (d : D) : D :=
  let '(s, l, content) := replay in upsert_row key now s l content d.

Definition postgres_release (key : pystr) (d : D) : D := delete_row key d.
End postgres.
