(* ===== verification/IdempotencyClaims.v ===== *)
(** * Replay-safe requests: what holds of them

    What a store key determines: UTF-8 is a prefix code, and a length in front
    of each part tells where it ends.  Requests in flight over the in-memory
    store, and the claims on handlers, replays and keys. *)

From stdpp Require Import base sets strings numbers list gmap.
From Stdlib Require Import ZArith Lia.
From S2P Require Import Prelude PyCollections PyText StructuredFields CacheControl KvTable.
From S2P Require Import CapabilityMap CapabilityClaims Idempotency.
#[local] Open Scope Z_scope.

(** ** UTF-8 *)

Lemma scalar_range c : scalar c = true -> 0 <= c <= 0x10FFFF.
Proof. unfold scalar, within. rewrite orb_true_iff, !andb_true_iff, !Z.leb_le. lia. Qed.

Lemma utf8_char_prefix c d r s : 0 <= c <= 0x10FFFF -> 0 <= d <= 0x10FFFF ->
  utf8_char c ++ r = utf8_char d ++ s -> c = d /\ r = s.
Proof.
  intros Hc Hd. unfold utf8_char.
  destruct (Z.ltb_spec c 0x80), (Z.ltb_spec d 0x80); cbn [app];
    try (destruct (Z.ltb_spec c 0x800)); try (destruct (Z.ltb_spec d 0x800)); cbn [app];
    try (destruct (Z.ltb_spec c 0x10000)); try (destruct (Z.ltb_spec d 0x10000)); cbn [app]; intros E; simplify_eq;
    (split; [|done]) || exfalso; Z.div_mod_to_equations; lia.
Qed.

Lemma encode_inv s b : encode s = Ok b -> forallb scalar s = true /\ b = concat (map utf8_char s).
Proof. unfold encode. destruct (forallb scalar s); [|done]. by intros [= <-]. Qed.

Lemma utf8_injective s : forall t, forallb scalar s = true -> forallb scalar t = true ->
  concat (map utf8_char s) = concat (map utf8_char t) -> s = t.
Proof.
  induction s as [|c s IH]; intros [|d t]; cbn [forallb map concat]; [done|..].
  - intros _ _ E. symmetry in E. apply app_nil in E as [E _]. unfold utf8_char in E. by repeat case_match.
  - intros _ _ E. apply app_nil in E as [E _]. unfold utf8_char in E. by repeat case_match.
  - intros [Hc Hs]%andb_true_iff [Hd Ht]%andb_true_iff E. apply scalar_range in Hc, Hd.
    destruct (utf8_char_prefix c d _ _ Hc Hd E) as [-> E']. f_equal. by apply IH.
Qed.

Lemma encode_injective s t b : encode s = Ok b -> encode t = Ok b -> s = t.
Proof. intros [Hs ->]%encode_inv [Ht E]%encode_inv. by apply utf8_injective. Qed.

Lemma encode_app s t : encode (s ++ t) = (let! a := encode s in let! b := encode t in Ok (a ++ b)).
Proof.
  unfold encode. rewrite forallb_app. destruct (forallb scalar s), (forallb scalar t); cbn [andb res_bind]; try done.
  by rewrite map_app, concat_app.
Qed.

Lemma encode_digits s : forallb is_ascii_digit s = true -> encode s = Ok s.
Proof.
  intros Hs. unfold encode. assert (forallb scalar s = true /\ concat (map utf8_char s) = s) as [-> ->]; [|done].
  induction s as [|c s IH]; [done|]. cbn [forallb] in Hs. apply andb_true_iff in Hs as [Hc Hs]. destruct (IH Hs) as [H1 H2].
  cbn [forallb map concat]. rewrite H1, H2. unfold is_ascii_digit in Hc. apply andb_true_iff in Hc as [H3%Z.leb_le H4%Z.leb_le].
  unfold scalar, within, utf8_char. rewrite (proj2 (Z.leb_le 0 c)), (proj2 (Z.leb_le c _)) by lia.
  by rewrite (proj2 (Z.ltb_lt c _)) by lia.
Qed.

(** ** Scopes *)

Lemma scope_framed parts s : _idempotency_scope parts = Ok s ->
  exists bytes_of, Forall2 (fun p b => encode p = Ok b) parts bytes_of /\ encode s = Ok (framed bytes_of).
Proof.
  revert s. induction parts as [|p parts IH]; intros s; cbn [_idempotency_scope]; [intros [= <-]; by exists []|].
  destruct (encode p) as [b|] eqn:Hb; [|done]. cbn [res_bind]. destruct (_idempotency_scope parts) as [rest|]; [|done].
  intros [= <-]. destruct (IH rest eq_refl) as (bs' & Hbs & Hr). exists (b :: bs'). split; [by constructor|].
  cbn [framed]. rewrite encode_app, encode_digits by apply digits_of, zlen_nonneg. cbn [res_bind].
  change (_ :: p ++ rest) with ([58] ++ p ++ rest). rewrite encode_app.
  change (encode [58]) with (Ok (E := idem_error) [58]). cbn [res_bind].
  rewrite encode_app, Hb. cbn [res_bind]. by rewrite Hr.
Qed.

Lemma scope_injective a b s t r r' x y : length a = length b ->
  _idempotency_scope a = Ok s -> _idempotency_scope b = Ok t -> encode s = Ok x -> encode t = Ok y ->
  x ++ r = y ++ r' -> a = b /\ r = r'.
Proof.
  intros Hl (ba & Ha & Ea)%scope_framed (bb & Hb & Eb)%scope_framed Hx Hy E. rewrite Ea in Hx. rewrite Eb in Hy.
  injection Hx as <-. injection Hy as <-. apply framed_prefix in E as [-> ->].
  - split; [|done]. clear -Ha Hb. revert b Hb. induction Ha as [|p q a ba Hp Ha IH]; intros b Hb; inversion Hb; subst; [done|].
    f_equal; [|by apply IH]. by eapply encode_injective.
  - exact (eq_trans (eq_sym (Forall2_length _ _ _ Ha)) (eq_trans Hl (Forall2_length _ _ _ Hb))).
Qed.

(** ** Requests in flight over the in-memory store

    Requests arrive, run their handlers side by side and finish, each through
    [action] and [after]; what the store holds under the key of a running
    request, as long as handlers end within their window. *)

Section system.
Context {T : Type} `{!Table pystr (option Replay) T} `{!TableLaws pystr (option Replay) T}.
Context (blake2s : bytes -> pystr) (validate_headers : header_list -> option (bool * option bytes))
  (problem_json : Z -> pystr -> bytes).
Abbreviation memory := (CapabilityMap (K := pystr) (T := T)).
Abbreviation entries := (gmap pystr (option Replay * time)).
Abbreviation the_action := (action blake2s validate_headers problem_json).

(** *** The system *)

(** The requests whose handler runs under a key, with the deadline of their claim. *)
Record sys : Type := mk_sys { policy : Policy memory; running : gmap Z (pystr * Z) }.

Inductive event : Type :=
| Arrive (rid : Z) (r : Request) (body : bytes)
| Finish (rid : Z) (resp : Response).

(** The next reading of the clock. *)
Definition next_time (c : memory) : Z := _clock c (_reads c).

Definition started (window : Z) (s : sys) (rid : Z) (st : State) (p : Policy memory) : sys :=
  mk_sys p (match idempotency_key st with
            | Some k => <[rid := (k, next_time (_store (policy s)) + window)]> (running s)
            | None => running s
            end).

Inductive sys_step (window : Z) : sys -> event -> sys -> Prop :=
| step_arrive s rid r body answer st p :
    running s !! rid = None -> the_action (policy s) r body = Ok (answer, st, p) ->
    sys_step window s (Arrive rid r body) (started window s rid st p)
| step_finish s rid resp k d resp' p :
    running s !! rid = Some (k, d) -> after (policy s) (mk_state false (Some k)) resp = Ok (resp', p) ->
    sys_step window s (Finish rid resp) (mk_sys p (delete rid (running s))).

(** A handler that ends within its window. *)
Definition prompt (s : sys) (e : event) : Prop :=
  match e with
  | Arrive _ _ _ => True
  | Finish rid _ => forall k d, running s !! rid = Some (k, d) -> next_time (_store (policy s)) < d
  end.

Inductive prompt_run (window : Z) : sys -> list event -> sys -> Prop :=
| prompt_nil s : prompt_run window s [] s
| prompt_cons s e s' es s'' : prompt s e -> sys_step window s e s' -> prompt_run window s' es s'' ->
    prompt_run window s (e :: es) s''.

(** The same, computed. *)
Definition sys_exec (window : Z) (e : event) (s : sys) : option sys :=
  match e with
  | Arrive rid r body =>
    match running s !! rid, the_action (policy s) r body with
    | None, Ok (_, st, p) => Some (started window s rid st p)
    | _, _ => None
    end
  | Finish rid resp =>
    match running s !! rid with
    | Some (k, d) =>
      match after (policy s) (mk_state false (Some k)) resp with
      | Ok (_, p) => if next_time (_store (policy s)) <? d then Some (mk_sys p (delete rid (running s))) else None
      | Err _ => None
      end
    | None => None
    end
  end.

Fixpoint exec (window : Z) (es : list event) (s : sys) : option sys :=
  match es with
  | [] => Some s
  | e :: es => match sys_exec window e s with Some s' => exec window es s' | None => None end
  end.

Lemma sys_exec_step (window : Z) (e : event) (s s' : sys) : sys_exec window e s = Some s' ->
  prompt s e /\ sys_step window s e s'.
Proof.
  destruct e as [rid r body|rid resp]; cbn [prompt sys_exec].
  - destruct (running s !! rid) eqn:Hr; [done|]. destruct (the_action (policy s) r body) as [[[a st] p]|] eqn:Ha; [|done].
    intros [= <-]. split; [done|]. by eapply step_arrive.
  - destruct (running s !! rid) as [[k d]|] eqn:Hr; [|done]. destruct (after _ _ _) as [[resp' p]|] eqn:Ha; [|done].
    destruct (Z.ltb_spec (next_time (_store (policy s))) d); [|done]. intros [= <-]. split; [by intros k' d' [= <- <-]|].
    by eapply step_finish.
Qed.

Lemma exec_run (window : Z) (es : list event) : forall (s s' : sys), exec window es s = Some s' -> prompt_run window s es s'.
Proof.
  induction es as [|e es IH]; intros s s'; cbn [exec]; [intros [= <-]; constructor|].
  destruct (sys_exec window e s) as [s1|] eqn:He; [|done]. intros Hes. apply sys_exec_step in He as [Hp Hs].
  eapply prompt_cons; [exact Hp|exact Hs|by apply IH].
Qed.

(** *** The store's operations on the map *)

(** A step of the store that keeps its settings and goes on with the clock. *)
Definition onward (c c' : memory) : Prop := settings c' = settings c /\ (_reads c <= _reads c')%nat.

Lemma onward_refl c : onward c c.
Proof. done. Qed.

Lemma onward_trans a b c : onward a b -> onward b c -> onward a c.
Proof. intros [E1 L1] [E2 L2]. split; [congruence|lia]. Qed.

Lemma onward_next c c' : (forall i j, (i <= j)%nat -> _clock c i <= _clock c j) -> onward c c' -> next_time c <= next_time c'.
Proof.
  intros Hm [E L]. unfold next_time. assert (_clock c' = _clock c) as -> by (unfold settings in E; congruence). by apply Hm.
Qed.

Lemma step_onward (o : cap_op (K := pystr) (V := option Replay)) (c c' : memory) r : cap_step o c = Ok (r, c') -> settings c' = settings c -> onward c c'.
Proof. intros Hs E. split; [done|]. by apply ticked_step in Hs as [_ ?]. Qed.

(** What [reserve] leaves of the map. *)
Inductive reserved (window : Z) (key : pystr) (m : entries) (t : Z) (c' : memory) : verdict -> option Replay -> entries -> Prop :=
| reserved_fresh : live t m !! key = None ->
    reserved window key m t c' fresh None (<[key := (None, Some (t + window))]> (live t m))
| reserved_seen v e : t <= _last_now c' -> _last_now c' <= next_time c' ->
    (v, e) = match live (_last_now c') (live t m) !! key with
             | None => (full, None)
             | Some (None, _) => (in_flight, None)
             | Some (Some r, _) => (done, Some r)
             end ->
    reserved window key m t c' v e (live (_last_now c') (live t m)).

Lemma reserve_map (window : Z) (c : memory) (m : entries) (key : pystr) : sound c m -> _ttl c = Some window ->
  (forall i j, (i <= j)%nat -> _clock c i <= _clock c j) ->
  exists v e c' m', memory_reserve key c = Ok (v, e, c') /\ sound c' m' /\ onward c c' /\
    next_time c <= next_time c' /\ reserved window key m (next_time c) c' v e m' /\ (S (_reads c) <= _reads c')%nat.
Proof.
  intros S Ht Hm. pose proof (cap_claim_refines c m key None None None S) as Hr. cbn [spec_step] in Hr.
  change (time_of None c) with (next_time c) in Hr. unfold memory_reserve.
  assert (forall b c1, claim key None None None c = Ok (b, c1) -> (Datatypes.S (_reads c) <= _reads c1)%nat) as Hread.
  { intros b c1 Hc. assert (cap_step (CClaim key None None (Some (next_time c))) (snd (read_clock c)) = Ok (OFlag b, c1)) as Hs.
    - cbn [cap_step]. unfold out_of. change (claim key None None (Some (next_time c)) (snd (read_clock c))) with
        (claim key None None None c). by rewrite Hc.
    - by apply ticked_step in Hs as [_ ?]. }
  assert (forall c1 b, claim key None None None c = Ok (b, c1) -> settings c1 = settings c -> onward c c1) as Hon.
  { intros c1 b Hc E. split; [done|]. specialize (Hread _ _ Hc). lia. }
  assert (forall c1, claim key None None None c = Ok (false, c1) -> sound c1 (live (next_time c) m) -> settings c1 = settings c ->
    exists v e c' m', of_table (let! (entry, s) := peek key None c1 in
      Ok (match entry with None => (full, None) | Some None => (in_flight, None) | Some (Some replay) => (done, Some replay) end, s)) =
      Ok (v, e, c') /\ sound c' m' /\ onward c c' /\ next_time c <= next_time c' /\ reserved window key m (next_time c) c' v e m' /\
      (Datatypes.S (_reads c) <= _reads c')%nat) as Hseen.
  { intros c1 Hc S1 E1. specialize (Hon _ _ Hc E1). destruct (cap_peek_refines c1 _ key None S1) as (c2 & Hp & S2 & E2).
    pose proof (ticked_peek key None c1 c2 _ Hp) as [Hl Hreads]. rewrite Hp. cbn [res_bind of_table].
    assert (onward c c2) as H2 by (eapply onward_trans; [exact Hon|]; by split).
    set (x := live (time_of None c1) (live (next_time c) m) !! key).
    destruct (match fst <$> x with None => (full, None) | Some None => (in_flight, None) | Some (Some replay) => (done, Some replay) end)
      as [v e] eqn:Hve. exists v, e, c2, (live (time_of None c1) (live (next_time c) m)).
    split_and!; [done|exact S2|done|by apply onward_next| |specialize (Hread _ _ Hc); lia].
    rewrite <- Hl. apply reserved_seen.
    - rewrite Hl. by apply onward_next.
    - rewrite Hl. apply (onward_next c1); [|by split]. assert (_clock c1 = _clock c) as -> by (unfold settings in E1; congruence). done.
    - rewrite Hl. fold x. rewrite <- Hve. by destruct x as [[[r|] d]|]. }
  case_bool_decide as Hin.
  { destruct Hr as (r' & c1 & Hc & Ho & S1 & E1). cbn [cap_step] in Hc. unfold out_of in Hc.
    destruct (claim key None None None c) as [[b c1']|] eqn:Hcl; [|done]. injection Hc as <- <-. injection Ho as ->.
    cbn [res_bind]. by apply Hseen. }
  unfold spec_put in Hr. destruct (_ || _).
  - unfold deadline_of in Hr. rewrite Ht in Hr. cbn [res_bind refines] in Hr. destruct Hr as (r' & c1 & Hc & Ho & S1 & E1).
    cbn [cap_step] in Hc. unfold out_of in Hc. destruct (claim key None None None c) as [[b c1']|] eqn:Hcl; [|done].
    injection Hc as <- <-. injection Ho as ->. cbn [res_bind of_table]. apply not_elem_of_dom in Hin.
    eexists _, _, c1', _. split_and!; [done|exact S1|by eapply Hon|apply onward_next; [done|by eapply Hon]| |by eapply Hread].
    unfold written. rewrite Hin. by apply reserved_fresh.
  - cbn [res_bind refines] in Hr. destruct Hr as (r' & c1 & Hc & Ho & S1 & E1). cbn [cap_step] in Hc. unfold out_of in Hc.
    destruct (claim key None None None c) as [[b c1']|] eqn:Hcl; [|done]. injection Hc as <- <-. injection Ho as ->.
    cbn [res_bind]. by apply Hseen.
Qed.

Lemma store_map (c : memory) (m : entries) (key : pystr) (r : Replay) : sound c m ->
  exists c', memory_store key r c = Ok c' /\ onward c c' /\
    sound c' (match live (next_time c) m !! key with Some (_, d) => <[key := (Some r, d)]> m | None => m end).
Proof.
  intros S. pose proof (complete_refines c m key (Some r) None S) as Hr. cbn [spec_step] in Hr.
  change (time_of None c) with (next_time c) in Hr. unfold memory_store.
  destruct (live (next_time c) m !! key) as [[v d]|]; destruct Hr as (r' & c' & Hc & _ & S' & E);
    pose proof (step_onward _ _ _ _ Hc E) as Ho; cbn [cap_step] in Hc; unfold out_of in Hc;
    destruct (complete key (Some r) None c) as [[b c1]|]; try done; injection Hc as _ <-; by exists c1.
Qed.

Lemma release_map (c : memory) (m : entries) (key : pystr) : sound c m ->
  exists c', memory_release key c = Ok c' /\ onward c c' /\ sound c' (delete key m).
Proof.
  intros S. destruct (forget_sound c m key S) as (c' & Hf & S' & E). unfold memory_release, discard. rewrite Hf.
  exists c'. split_and!; [done| |done]. split; [done|]. by apply ticked_forget in Hf as [_ ?].
Qed.

(** *** The policy's hooks on the map *)

(** What [after] does for a request that holds [key]. *)
Lemma after_map (p : Policy memory) (m : entries) (key : pystr) resp resp' p' : sound (_store p) m ->
  after p (mk_state false (Some key)) resp = Ok (resp', p') ->
  onward (_store p) (_store p') /\ exists m', sound (_store p') m' /\
    ((retryable p resp = true /\ m' = delete key m) \/
     exists content, retryable p resp = false /\ r_body resp = Some content /\
       m' = match live (next_time (_store p)) m !! key with
            | Some (_, d) => <[key := (Some (status resp, _replayable_headers (r_headers resp), content), d)]> m
            | None => m
            end).
Proof.
  intros S. unfold after. cbn [idempotency_ignored idempotency_key release store memory_idempotency].
  destruct (retryable p resp).
  - destruct (release_map (_store p) m key S) as (c' & -> & Ho & S'). cbn [res_bind]. intros [= _ <-].
    split; [done|]. eexists. split; [exact S'|]. by left.
  - destruct (r_body resp) as [content|]; [|done].
    destruct (store_map (_store p) m key (status resp, _replayable_headers (r_headers resp), content) S) as (c' & -> & Ho & S').
    cbn [res_bind]. intros [= _ <-]. split; [done|]. eexists. split; [exact S'|]. right. by exists content.
Qed.

(** What [action] does: nothing to the store, or a reservation. *)
Lemma action_map (window : Z) (p : Policy memory) (m : entries) r body answer st p' : sound (_store p) m -> _ttl (_store p) = Some window ->
  (forall i j, (i <= j)%nat -> _clock (_store p) i <= _clock (_store p) j) ->
  the_action p r body = Ok (answer, st, p') ->
  (_store p' = _store p /\ idempotency_key st = None) \/
  exists key v e m', sound (_store p') m' /\ onward (_store p) (_store p') /\
    next_time (_store p) <= next_time (_store p') /\ reserved window key m (next_time (_store p)) (_store p') v e m' /\
    idempotency_key st = match v with fresh => Some key | _ => None end.
Proof.
  intros S Ht Hm. unfold action. destruct (request_key blake2s problem_json p r body) as [[a|[value [key|]]]|]; [| | |done]; cbn [res_bind].
  - intros [= _ <- <-]. by left.
  - destruct (reserve_map window (_store p) m key S Ht Hm) as (v & e & c' & m' & Hr & S' & Ho & Hn & Hres & _).
    cbn [reserve memory_idempotency]. rewrite Hr. cbn [res_bind]. intros Ha. right. exists key, v, e, m'.
    destruct v.
    + injection Ha as _ <- <-. done.
    + injection Ha as _ <- <-. done.
    + inversion Hres as [Hfresh|v0 e0 Hle Hln Hve]; subst.
      destruct (live (_last_now c') (live (next_time (_store p)) m) !! key) as [[[r0|] d]|]; [|by inversion Hve..].
      injection Hve as ->. destruct r0 as [[st0 l] content]. destruct (new_response _ _ _ _) as [replay|]; [|done].
      cbn [res_bind] in Ha. injection Ha as _ <- <-. done.
    + injection Ha as _ <- <-. done.
  - destruct (_ && _); intros [= _ <- <-]; by left.
Qed.

(** *** In flight *)

(** The running requests whose window is open hold their keys, each its own. *)
Record in_order (window : Z) (s : sys) (m : entries) : Prop := {
  o_sound : sound (_store (policy s)) m;
  o_window : _ttl (_store (policy s)) = Some window;
  o_clock : forall i j, (i <= j)%nat -> _clock (_store (policy s)) i <= _clock (_store (policy s)) j;
  o_held : forall rid k d, running s !! rid = Some (k, d) -> next_time (_store (policy s)) < d ->
    m !! k = Some (None, Some d);
  o_alone : forall rid rid' k d d', running s !! rid = Some (k, d) -> running s !! rid' = Some (k, d') ->
    next_time (_store (policy s)) < d -> next_time (_store (policy s)) < d' -> rid = rid' }.

Lemma onward_settings c c' : onward c c' -> _ttl c' = _ttl c /\ _clock c' = _clock c.
Proof. intros [E _]. unfold settings in E. split; congruence. Qed.

Lemma live_keeps (t : Z) (m : entries) (k : pystr) (v : option Replay) (d : Z) : m !! k = Some (v, Some d) -> t < d -> live t m !! k = Some (v, Some d).
Proof. intros Hk Ht. rewrite live_lookup, Hk. cbn. by rewrite (proj2 (Z.leb_gt d t)). Qed.

(** A reservation keeps what is in its window. *)
Lemma reserved_keeps (window : Z) (key : pystr) (m : entries) (t : Z) c' v e m' (k : pystr) (x : option Replay) (d : Z) : reserved window key m t c' v e m' -> m !! k = Some (x, Some d) ->
  t < d -> next_time c' < d -> m' !! k = Some (x, Some d).
Proof.
  intros [Hf|v0 e0 Hle Hln Hve] Hk Ht Hl.
  - rewrite lookup_insert_ne; [by apply live_keeps|]. intros ->. by rewrite (live_keeps t m k x d Hk Ht) in Hf.
  - apply live_keeps; [by apply live_keeps|lia].
Qed.

Lemma onward_order (window : Z) (s s' : sys) (m m' : entries) : in_order window s m -> sound (_store (policy s')) m' ->
  onward (_store (policy s)) (_store (policy s')) ->
  (forall rid k d, running s' !! rid = Some (k, d) -> next_time (_store (policy s')) < d -> m' !! k = Some (None, Some d)) ->
  (forall rid rid' k d d', running s' !! rid = Some (k, d) -> running s' !! rid' = Some (k, d') ->
    next_time (_store (policy s')) < d -> next_time (_store (policy s')) < d' -> rid = rid') -> in_order window s' m'.
Proof.
  intros [I1 I2 I3 I4 I5] S Ho Hh Ha. destruct (onward_settings _ _ Ho) as [Ettl Eclock].
  split; [done|by rewrite Ettl|by rewrite Eclock|done|done].
Qed.

Lemma arrive_in_order (window : Z) (s : sys) (m : entries) (rid : Z) r body answer st p : in_order window s m ->
  running s !! rid = None -> the_action (policy s) r body = Ok (answer, st, p) ->
  exists m', in_order window (started window s rid st p) m' /\
    forall k x d, m !! k = Some (x, Some d) -> next_time (_store (policy s)) < d -> next_time (_store p) < d ->
      m' !! k = Some (x, Some d).
Proof.
  intros I Hrid Ha. destruct I as [I1 I2 I3 I4 I5].
  destruct (action_map window (policy s) m r body answer st p I1 I2 I3 Ha) as [[Es Ek]|(key & v & e & m' & S' & Ho & Hn & Hres & Ek)].
  - exists m. unfold started. rewrite Ek. split; [|done]. split; cbn; rewrite ?Es; done.
  - exists m'. assert (forall k x d, m !! k = Some (x, Some d) -> next_time (_store (policy s)) < d -> next_time (_store p) < d ->
      m' !! k = Some (x, Some d)) as Hkeep by (intros k x d Hk H1 H2; by eapply reserved_keeps).
    split; [|done]. apply (onward_order window s _ m); [done|done|done|..]; unfold started; rewrite Ek; cbn [policy running].
    + intros rid2 k d Hr Hd. destruct v; try (apply Hkeep; [by eapply I4; [|lia]|lia|lia]).
      apply lookup_insert_Some in Hr as [[<- [= <- <-]]|[Hne Hr]]; [|apply Hkeep; [by eapply I4; [|lia]|lia|lia]].
      inversion Hres as [Hfresh|v0 e0 Hle Hln Hve]; subst; [by rewrite lookup_insert_eq|].
      by destruct (live (_last_now (_store p)) (live (next_time (_store (policy s))) m) !! key) as [[[r0|] d0]|].
    + assert (v = fresh -> forall rid2 d, running s !! rid2 = Some (key, d) -> next_time (_store p) < d -> False) as Hfree.
      { intros -> rid2 d Hr Hd. inversion Hres as [Hfresh|v0 e0 Hle Hln Hve]; subst.
        - assert (m !! key = Some (None, Some d)) as Hk by (eapply I4; [done|lia]).
          rewrite (live_keeps (next_time (_store (policy s))) m key None d Hk ltac:(lia)) in Hfresh. done.
        - by destruct (live (_last_now (_store p)) (live (next_time (_store (policy s))) m) !! key) as [[[r0|] d0]|]. }
      intros rid1 rid2 k d1 d2 H1 H2 Hd1 Hd2. destruct v; try (eapply I5; [exact H1|exact H2|lia|lia]).
      apply lookup_insert_Some in H1 as [[<- [= <- <-]]|[Hne1 H1]], H2 as [[<- E2]|[Hne2 H2]]; [done| | |].
      * exfalso. by eapply Hfree.
      * injection E2 as <- <-. exfalso. by eapply (Hfree eq_refl rid1).
      * eapply I5; [exact H1|exact H2|lia|lia].
Qed.

Lemma finish_in_order (window : Z) (s : sys) (m : entries) (rid : Z) (k : pystr) (d : Z) resp resp' p : in_order window s m ->
  running s !! rid = Some (k, d) -> next_time (_store (policy s)) < d ->
  after (policy s) (mk_state false (Some k)) resp = Ok (resp', p) ->
  exists m', in_order window (mk_sys p (delete rid (running s))) m' /\
    (forall j, j <> k -> m' !! j = m !! j) /\ m !! k = Some (None, Some d) /\
    (retryable (policy s) resp = false -> exists content, r_body resp = Some content /\
      m' !! k = Some (Some (status resp, _replayable_headers (r_headers resp), content), Some d)).
Proof.
  intros I Hrid Hd Ha. pose proof I as [I1 I2 I3 I4 I5].
  destruct (after_map (policy s) m k resp resp' p I1 Ha) as (Ho & m' & S' & Hm). exists m'.
  pose proof (onward_next _ _ I3 Ho) as Hn. pose proof (I4 rid k d Hrid Hd) as Hk.
  assert (forall j, j <> k -> m' !! j = m !! j) as Hother.
  { intros j Hj. destruct Hm as [[_ ->]|(content & _ & _ & ->)]; [by rewrite lookup_delete_ne|].
    destruct (live _ m !! k) as [[v0 d0]|]; [by rewrite lookup_insert_ne|done]. }
  split_and!; [|done|done|].
  - apply (onward_order window s _ m); [done|done|done|..]; cbn [policy running].
    + intros rid2 k2 d2 [Hne Hr]%lookup_delete_Some Hd2. rewrite Hother; [eapply I4; [done|lia]|].
      intros ->. apply Hne. eapply I5; [exact Hrid|exact Hr|lia|lia].
    + intros rid1 rid2 k2 d1 d2 [_ H1]%lookup_delete_Some [_ H2]%lookup_delete_Some Hd1 Hd2.
      eapply I5; [exact H1|exact H2|lia|lia].
  - intros Hr. destruct Hm as [[Hr' _]|(content & _ & Hb & ->)]; [congruence|]. exists content. split; [done|].
    rewrite (live_keeps _ m k None d Hk Hd). by rewrite lookup_insert_eq.
Qed.

(** A replay stays until its deadline. *)
Definition answered (k : pystr) (r : Replay) (d : Z) (m : entries) : Prop := m !! k = Some (Some r, Some d).

Lemma step_in_order (window : Z) (s : sys) (e : event) (s' : sys) (m : entries) : in_order window s m -> prompt s e -> sys_step window s e s' ->
  exists m', in_order window s' m' /\ next_time (_store (policy s)) <= next_time (_store (policy s')) /\
    forall k r d, answered k r d m -> next_time (_store (policy s')) < d -> answered k r d m'.
Proof.
  intros I Hp Hs. destruct Hs as [s rid r body answer st p Hrid Ha|s rid resp k d resp' p Hrid Ha].
  - destruct (arrive_in_order window s m rid r body answer st p I Hrid Ha) as (m' & I' & Hkeep). exists m'.
    assert (next_time (_store (policy s)) <= next_time (_store p)) as Hn.
    { destruct I as [I1 I2 I3 _ _]. destruct (action_map window (policy s) m r body answer st p I1 I2 I3 Ha)
        as [[-> _]|(key & v & e & m2 & _ & _ & Hn & _)]; [lia|done]. }
    split_and!; [done|done|]. intros k r0 d Hk Hd. cbn [started policy] in Hd. apply Hkeep; [done|lia|done].
  - cbn [prompt] in Hp. specialize (Hp k d Hrid).
    destruct (finish_in_order window s m rid k d resp resp' p I Hrid Hp Ha) as (m' & I' & Hother & Hk & _). exists m'.
    split_and!; [done| |].
    + destruct I as [I1 I2 I3 _ _]. destruct (after_map (policy s) m k resp resp' p I1 Ha) as (Ho & _). by apply onward_next.
    + intros j r0 d0 Hj _. unfold answered. rewrite Hother; [done|]. intros ->. unfold answered in Hj. congruence.
Qed.

Lemma run_in_order (window : Z) (s : sys) (es : list event) (s' : sys) : prompt_run window s es s' -> forall m : entries, in_order window s m ->
  exists m', in_order window s' m' /\ next_time (_store (policy s)) <= next_time (_store (policy s')) /\
    forall k r d, answered k r d m -> next_time (_store (policy s')) < d -> answered k r d m'.
Proof.
  induction 1 as [s|s e s' es s'' Hp Hs Hrun IH]; intros m I; [exists m; split_and!; [done|lia|done]|].
  destruct (step_in_order window s e s' m I Hp Hs) as (m1 & I1 & Hn1 & H1). destruct (IH m1 I1) as (m2 & I2 & Hn2 & H2).
  exists m2. split_and!; [done|lia|]. intros k r d Hk Hd. apply H2; [apply H1; [done|lia]|done].
Qed.

(** An answered key: the reservation finds the replay. *)
Lemma answered_reserve (window : Z) (c : memory) (m : entries) (key : pystr) (r : Replay) (d : Z) : sound c m -> _ttl c = Some window ->
  (forall i j, (i <= j)%nat -> _clock c i <= _clock c j) -> answered key r d m -> next_time c < d ->
  exists v e c', memory_reserve key c = Ok (v, e, c') /\ (_last_now c' < d -> v = done /\ e = Some r).
Proof.
  intros S Ht Hm Hk Hd. destruct (reserve_map window c m key S Ht Hm) as (v & e & c' & m' & Hr & S' & Ho & Hn & Hres & _).
  exists v, e, c'. split; [done|]. intros Hl. pose proof (live_keeps _ m key (Some r) d Hk Hd) as H1. destruct Hres as [Hf|v e Hle Hln Hve].
  - rewrite H1 in Hf. done.
  - rewrite (live_keeps _ _ _ _ d H1 Hl) in Hve. by injection Hve.
Qed.

End system.

(** ** Replay-safe requests: their properties

    For the in-memory store over the key/value table: no two handlers run under
    one key, a kept response answers every repeat, and a store key stands for one
    request. *)

Section claims.
Context (hash : pystr -> Z).
#[local] Instance the_table : Table pystr (option Replay) (kv (K := pystr) (V := option Replay)) | 0 := kv_table hash.
#[local] Instance the_table_laws : TableLaws pystr (option Replay) (kv (K := pystr) (V := option Replay)) | 0 :=
  kv_table_laws hash.
Context (blake2s : bytes -> pystr) (validate_headers : header_list -> option (bool * option bytes))
  (problem_json : Z -> pystr -> bytes).
Abbreviation memory := (CapabilityMap (K := pystr) (T := kv (K := pystr) (V := option Replay))).
Abbreviation run := (prompt_run blake2s validate_headers problem_json).
Abbreviation the_action := (action blake2s validate_headers problem_json).

(** [MemoryIdempotencyStore.__init__]. *)
Definition memory_init (ttl max_entries : Z) (clock : nat -> Z) : res kv_error memory := refusing max_entries (Some ttl) clock.

(** An application at its start: nothing runs. *)
Definition initial (window n : Z) (clock : nat -> Z) (methods : list pystr) (header : pystr) (max_body : Z) (s : sys) : Prop :=
  n <= 2 ^ 59 /\ (forall i j, (i <= j)%nat -> clock i <= clock j) /\
  exists c p, memory_init window n clock = Ok c /\ policy_init c methods header max_body = Ok p /\ s = mk_sys p ∅.

Lemma initial_in_order window n clock methods header max_body s :
  initial window n clock methods header max_body s -> in_order window s ∅.
Proof.
  intros (Hn & Hm & c & p & Hc & Hp & ->). destruct (refusing_sound hash n (Some window) clock c Hc Hn) as (S & Hs & _).
  unfold policy_init in Hp. destruct (max_body <? 0); [done|]. injection Hp as <-. unfold settings in Hs. injection Hs as E1 E2 _.
  split; cbn; rewrite ?E1, ?E2; done.
Qed.

(** C25. Requests arrive while others run, repeat each other's keys, finish,
    fail and are stored or released in any order: as long as every handler ends
    before the window of its claim does, two requests never run under the same
    store key while both their windows are open. *)
Theorem one_handler_per_key window n clock methods header max_body (s0 s : sys) es rid rid' k d d' :
  initial window n clock methods header max_body s0 -> run window s0 es s ->
  running s !! rid = Some (k, d) -> running s !! rid' = Some (k, d') ->
  next_time (_store (policy s)) < d -> next_time (_store (policy s)) < d' -> rid = rid'.
Proof.
  intros Hi Hrun H1 H2 Hd1 Hd2. apply initial_in_order in Hi.
  destruct (run_in_order _ _ _ window s0 es s Hrun ∅ Hi) as (m & I & _). by eapply (o_alone _ _ _ I).
Qed.

(** Once a handler's response is kept, every later request with its store
    key is answered from it until the window of the first attempt ends, whatever
    else happens: with its status, its body and its headers less the cookies, and
    without running the handler. *)
Theorem kept_response_replayed window n clock methods header max_body (s0 s1 s2 s3 : sys) es es' rid k d resp r body v :
  initial window n clock methods header max_body s0 -> run window s0 es s1 ->
  running s1 !! rid = Some (k, d) -> next_time (_store (policy s1)) < d -> retryable (policy s1) resp = false ->
  sys_step blake2s validate_headers problem_json window s1 (Finish rid resp) s2 -> run window s2 es' s3 ->
  request_key blake2s problem_json (policy s3) r body = Ok (inr (v, Some k)) -> next_time (_store (policy s3)) < d ->
  exists content l c verdict entry, r_body resp = Some content /\ l = _replayable_headers (r_headers resp) /\
    Forall (fun h => map lower_byte (fst h) <> bs "set-cookie") l /\
    reserve k (_store (policy s3)) = Ok (verdict, entry, c) /\
    (_last_now c < d -> the_action (policy s3) r body =
      (let! replay := new_response validate_headers content (status resp) l in
       Ok (Some (add_header (bs "idempotency-replayed") (bs "true") replay), no_state, with_store c (policy s3)))).
Proof.
  intros Hi Hrun Hrid Hd Hkept Hfin Hrun' Hkey Hd3. apply initial_in_order in Hi.
  destruct (run_in_order _ _ _ window s0 es s1 Hrun ∅ Hi) as (m1 & I1 & _).
  inversion Hfin as [|s1' rid1 resp1 k1 d1 resp' p Hrid1 Ha]; subst. rewrite Hrid in Hrid1. injection Hrid1 as <- <-.
  destruct (finish_in_order window s1 m1 rid k d resp resp' p I1 Hrid Hd Ha) as (m2 & I2 & _ & _ & Hk).
  destruct (Hk Hkept) as (content & Hb & Hk2).
  destruct (run_in_order _ _ _ window _ es' s3 Hrun' m2 I2) as (m3 & I3 & _ & Hans).
  destruct (answered_reserve window (_store (policy s3)) m3 k (status resp, _replayable_headers (r_headers resp), content) d
    (o_sound _ _ _ I3) (o_window _ _ _ I3) (o_clock _ _ _ I3)) as (verdict & entry & c & Hr & Hdone); [by apply Hans|done|].
  exists content, (_replayable_headers (r_headers resp)), c, verdict, entry. split_and!; [done|done| |done|].
  - apply Forall_forall. intros [name value] Hin. unfold _replayable_headers in Hin.
    apply list_elem_of_filter in Hin as [(Hc & _ & _) _]. cbn [fst]. intros E. apply Hc. rewrite E. by left.
  - intros Hl. destruct (Hdone Hl) as [-> ->]. unfold action. rewrite Hkey. cbn [res_bind reserve memory_idempotency] in *.
    rewrite Hr. done.
Qed.

End claims.

(** Two guarded requests have the same store key only when they agree in
    method, scheme, authority, path, type and qualified id of the principal,
    tenant, query, body and [Idempotency-Key], or else two different texts with
    the same BLAKE2s digest are at hand: no choice of spaces, digits, colons or
    NULs in one part stands for another part. *)
Theorem store_key_exact (blake2s : bytes -> pystr) methods (r r' : Request) body body' v v' key :
  _key blake2s methods r body v = Ok (Some key) -> _key blake2s methods r' body' v' = Ok (Some key) ->
  (exists x y, x <> y /\ blake2s x = blake2s y) \/
  exists i i', identity r = Some i /\ identity r' = Some i' /\
    method r = method r' /\ scheme r = scheme r' /\ _request_authority r = _request_authority r' /\
    _request_path r = _request_path r' /\ id_type i = id_type i' /\
    qualified_identity_value (id_namespace i) (id_id i) = qualified_identity_value (id_namespace i') (id_id i') /\
    default [] (tenant r) = default [] (tenant r') /\ query_string r = query_string r' /\ body = body' /\ v = v'.
Proof.
  assert (forall (r : Request) body v, _key blake2s methods r body v = Ok (Some key) -> exists i a s x y,
    identity r = Some i /\ _request_authority r = Ok a /\ _idempotency_scope [method r; scheme r; a; _request_path r; id_type i;
      qualified_identity_value (id_namespace i) (id_id i); default [] (tenant r); query_string r; blake2s body] = Ok s /\
    encode s = Ok x /\ encode v = Ok y /\ blake2s (x ++ [0] ++ y) = key) as Hinv.
  { clear. intros r body v. unfold _key. destruct (negb _); [done|]. destruct v as [|c v]; [done|].
    destruct (identity r) as [i|]; [|done]. destruct (_request_authority r) as [a|]; [|done]. cbn [res_bind].
    unfold _idempotency_request_scope. destruct (_idempotency_scope _) as [s|] eqn:Hs; [|done]. cbn [res_bind]. unfold dedup_key.
    destruct (encode s) as [x|] eqn:Hx; [|done]. cbn [res_bind]. destruct (encode (c :: v)) as [y|] eqn:Hy; [|done]. cbn [res_bind].
    intros [= <-]. by exists i, a, s, x, y. }
  intros H1 H2. destruct (Hinv _ _ _ H1) as (i & a & s & x & y & Hi & Ha & Hs & Hx & Hy & <-).
  destruct (Hinv _ _ _ H2) as (i' & a' & s' & x' & y' & Hi' & Ha' & Hs' & Hx' & Hy' & E).
  destruct (decide (x' ++ [0] ++ y' = x ++ [0] ++ y)) as [Ex|Ne]; [|left; by eexists _, _].
  destruct ((fun Hl => scope_injective _ _ _ _ _ _ _ _ Hl Hs' Hs Hx' Hx Ex) eq_refl) as [Eparts Ey].
  injection Eparts as E1 E2 E3 E4 E5 E6 E7 E8 E9.
  destruct (decide (body' = body)) as [->|Nb]; [|left; by eexists _, _]. right. exists i, i'.
  injection Ey as ->. rewrite Ha, Ha', E3. split_and!; try done. by eapply encode_injective.
Qed.

(** *** Witnesses *)

Definition sample_hash (k : pystr) : Z := foldr Z.add 0 k.
Definition sample_headers (l : header_list) : option (bool * option bytes) :=
  Some (existsb (fun h => bool_decide (fst h = bs "content-type")) l, None).
Definition sample_json (s : Z) (detail : pystr) : bytes := detail.
Definition order_request (key : pystr) : Request :=
  mk_request (bs "POST") [(bs "host", bs "shop"); (bs "Idempotency-Key", key)] (Some (bs "/orders")) (bs "/orders") []
    (bs "https") None (Some (mk_identity (bs "User") [] (bs "42"))) None.
Definition created : Response :=
  mk_response 201 [(bs "content-type", bs "text/plain"); (bs "Set-Cookie", bs "sid=1")] (Some (bs "order 7")) (bs "Response").
Definition failed : Response := mk_response 500 [] (Some []) (bs "ProblemResponse").

Abbreviation sample_sys := (sys (T := kv (K := pystr) (V := option Replay))).
Abbreviation sample_policy := (Policy (CapabilityMap (K := pystr) (T := kv (K := pystr) (V := option Replay)))).

Definition at_start (window : Z) : option sample_sys :=
  match memory_init window 4 second with
  | Ok c => match policy_init c [bs "POST"] (bs "idempotency-key") 1000 with Ok p => Some (mk_sys p ∅) | Err _ => None end
  | Err _ => None
  end.

Definition played (es : list event) : option sample_sys :=
  match at_start 100 with
  | Some s => exec (Table0 := kv_table sample_hash) (fun b => b) sample_headers sample_json 100 es s
  | None => None
  end.

Lemma at_start_initial (window : Z) (s : sample_sys) :
  at_start window = Some s -> initial window 4 second [bs "POST"] (bs "idempotency-key") 1000 s.
Proof.
  unfold at_start. destruct (memory_init window 4 second) as [c|] eqn:Hc; [|done].
  destruct (policy_init c _ _ _) as [p|] eqn:Hp; [|done]. intros [= <-]. split; [lia|]. split; [unfold second; lia|].
  by exists c, p.
Qed.

(** Two orders at once and a repeat of the first. *)
Definition first_events : list event :=
  [Arrive 1 (order_request (bs "a")) []; Arrive 2 (order_request (bs "b")) []; Arrive 3 (order_request (bs "a")) []].

Lemma one_handler_per_key_witness : exists s0 s : sample_sys,
  at_start 100 = Some s0 /\ played first_events = Some s /\ map fst (map_to_list (running s)) = [2; 1] /\ (1 : Z) = 1.
Proof.
  eexists _, _. split; [reflexivity|]. split; [vm_compute; reflexivity|]. split; [vm_compute; reflexivity|].
  eapply (one_handler_per_key sample_hash (fun b => b) sample_headers sample_json 100 4 second [bs "POST"]
    (bs "idempotency-key") 1000 _ _ first_events 1 1).
  - apply at_start_initial. reflexivity.
  - apply exec_run. vm_compute. reflexivity.
  - vm_compute. reflexivity.
  - vm_compute. reflexivity.
  - vm_compute. reflexivity.
  - vm_compute. reflexivity.
Defined.

Lemma store_key_exact_witness : exists key,
  _key (fun b => b) [bs "POST"] (order_request (bs "a")) [] (bs "a") = Ok (Some key) /\
  ((exists x y : bytes, x <> y /\ x = y) \/
   exists i i', identity (order_request (bs "a")) = Some i /\ identity (order_request (bs "a")) = Some i' /\
    method (order_request (bs "a")) = method (order_request (bs "a")) /\ scheme (order_request (bs "a")) = scheme (order_request (bs "a")) /\
    _request_authority (order_request (bs "a")) = _request_authority (order_request (bs "a")) /\
    _request_path (order_request (bs "a")) = _request_path (order_request (bs "a")) /\ id_type i = id_type i' /\
    qualified_identity_value (id_namespace i) (id_id i) = qualified_identity_value (id_namespace i') (id_id i') /\
    default [] (tenant (order_request (bs "a"))) = default [] (tenant (order_request (bs "a"))) /\
    query_string (order_request (bs "a")) = query_string (order_request (bs "a")) /\ @nil Z = [] /\ bs "a" = bs "a").
Proof.
  eexists. split; [vm_compute; reflexivity|].
  eapply (store_key_exact (fun b => b) [bs "POST"] (order_request (bs "a")) (order_request (bs "a")) [] [] (bs "a") (bs "a"));
    vm_compute; reflexivity.
Defined.

(** An order is kept; its repeat is answered without the cookie. *)
Definition early : list event := [Arrive 1 (order_request (bs "a")) []; Arrive 2 (order_request (bs "b")) []].
Definition late : list event := [Arrive 3 (order_request (bs "b")) []; Finish 2 failed].

Lemma early_runs : is_Some (played early).
Proof. vm_compute. by eexists. Qed.
Lemma kept_runs : is_Some (played (early ++ [Finish 1 created])).
Proof. vm_compute. by eexists. Qed.
Lemma late_runs : is_Some (played (early ++ [Finish 1 created] ++ late)).
Proof. vm_compute. by eexists. Qed.
Lemma start_runs : is_Some (at_start 100).
Proof. vm_compute. by eexists. Qed.

Definition sys0 : sample_sys := is_Some_proj start_runs.
Definition sys1 : sample_sys := is_Some_proj early_runs.
Definition sys2 : sample_sys := is_Some_proj kept_runs.
Definition sys3 : sample_sys := is_Some_proj late_runs.
Definition order_key : pystr :=
  Eval vm_compute in match _key (fun b => b) [bs "POST"] (order_request (bs "a")) [] (bs "a") with Ok (Some k) => k | _ => [] end.

Abbreviation sample_action := (action (H := memory_idempotency (H := kv_table sample_hash)) (fun b => b) sample_headers sample_json).
Abbreviation sample_exec := (exec (Table0 := kv_table sample_hash) (fun b => b) sample_headers sample_json 100).
Abbreviation sample_step := (sys_step (Table0 := kv_table sample_hash) (fun b => b) sample_headers sample_json 100).

Lemma sample_finish : sample_step sys1 (Finish 1 created) sys2.
Proof. apply sys_exec_step. vm_compute. reflexivity. Qed.

Lemma kept_response_replayed_witness :
  match sample_action (policy sys3) (order_request (bs "a")) [] with
  | Ok (Some replay, _, _) => status replay = 201 /\ r_body replay = Some (bs "order 7") /\
      r_headers replay = [(bs "content-type", bs "text/plain"); (bs "content-length", bs "7"); (bs "idempotency-replayed", bs "true")]
  | _ => False
  end /\
  exists content l c verdict entry, r_body created = Some content /\ l = _replayable_headers (r_headers created) /\
    Forall (fun h => map lower_byte (fst h) <> bs "set-cookie") l /\
    memory_reserve (H := kv_table sample_hash) order_key (_store (policy sys3)) = Ok (verdict, entry, c) /\
    (_last_now c < 101 -> sample_action (policy sys3) (order_request (bs "a")) [] =
      (let! replay := new_response sample_headers content (status created) l in
       Ok (Some (add_header (bs "idempotency-replayed") (bs "true") replay), no_state, with_store c (policy sys3)))).
Proof.
  split; [vm_compute; done|].
  apply (kept_response_replayed sample_hash (fun b => b) sample_headers sample_json 100 4 second [bs "POST"]
    (bs "idempotency-key") 1000 sys0 sys1 sys2 sys3 early late 1 order_key 101 created (order_request (bs "a")) [] (Some (bs "a"))).
  - apply at_start_initial. vm_compute. reflexivity.
  - apply exec_run. vm_compute. reflexivity.
  - vm_compute. reflexivity.
  - vm_compute. reflexivity.
  - vm_compute. reflexivity.
  - exact sample_finish.
  - apply exec_run. vm_compute. reflexivity.
  - vm_compute. reflexivity.
  - vm_compute. reflexivity.
Defined.

(** *** A handler that outlives its window *)

Definition short_exec (es : list event) (s : sample_sys) : option sample_sys :=
  exec (Table0 := kv_table sample_hash) (fun b => b) sample_headers sample_json 10 es s.

(** Request 1 overstays; request 2 claims its key again; request 1 fails and its
    release frees the claim of request 2, so request 3 runs beside it. *)
Definition overstayed : option sample_sys :=
  let repeat rid := Arrive rid (order_request (bs "a")) [] in
  match at_start 10 with
  | None => None
  | Some s =>
    match short_exec (repeat 1 :: Arrive 9 (order_request (bs "b")) [] :: replicate 5 (Arrive 8 (order_request (bs "b")) []) ++ [repeat 2]) s with
    | None => None
    | Some s =>
      match after (H := memory_idempotency (H := kv_table sample_hash)) (policy s) (mk_state false (Some order_key)) failed with
      | Ok (_, p) => short_exec [repeat 3] (mk_sys p (delete 1 (running s)))
      | Err _ => None
      end
    end
  end.

Lemma late_release_frees_claim : match overstayed with
  | Some s => exists d d', running s !! 2 = Some (order_key, d) /\ running s !! 3 = Some (order_key, d') /\
      next_time (_store (policy s)) < d /\ next_time (_store (policy s)) < d'
  | None => False
  end.
Proof. vm_compute. by eexists _, _. Qed.

(** *** The shared table *)

(** What the claim and delete statements promise: a missing row is claimed. *)
Class RowsLaws (D : Type) `{Rows D} : Prop := {
  claim_missing : forall k now d, read_row k d = None -> fst (claim_row k now d) = true;
  delete_read : forall k d, read_row k (delete_row k d) = None }.

(** The holder releases the key between the claim and the read of another
    worker: that one runs the handler without a row, and so does the next. *)
Lemma released_between_claim_and_read `{RowsLaws D} k now now' (d d1 : D) :
  postgres_claim k now d = (Reading k, d1) ->
  let d2 := postgres_release k d1 in
  postgres_read k d2 = Reserved fresh None /\ fst (postgres_claim k now' d2) = Reserved fresh None.
Proof.
  intros _ d2. assert (read_row k d2 = None) as Hd by apply delete_read. split.
  - unfold postgres_read. by rewrite Hd.
  - unfold postgres_claim. pose proof (claim_missing k now' d2 Hd) as Hc. by destruct (claim_row k now' d2) as [[] d3].
Qed.
