(* ===== verification/Temporal.v ===== *)
(** * Dates, wall clocks and buckets: [temporal.py]

    Dates and naive datetimes of Python's [datetime], with the day arithmetic
    the native recurrence search does on its own: leap years, the lengths of
    months, the ordinal of a date and the next day; then zones, wall clocks and
    buckets. *)

From stdpp Require Import base list numbers.
From Stdlib Require Import ZArith Lia.
From S2P Require Import Prelude.
#[local] Open Scope Z_scope.

(** ** Dates *)

Record date : Type := mk_date { year : Z; month : Z; day : Z }.

#[global] Instance date_eq_dec : EqDecision date.
Proof. solve_decision. Defined.

Definition recurrence_leap (y : Z) : bool :=
  (y mod 4 =? 0) && (negb (y mod 100 =? 0) || (y mod 400 =? 0)).

Definition month_lengths : list Z := [0; 31; 28; 31; 30; 31; 30; 31; 31; 30; 31; 30; 31].

Definition recurrence_month_days (y m : Z) : Z :=
  if (m =? 2) && recurrence_leap y then 29 else nth (Z.to_nat m) month_lengths 0.

Definition before_month : list Z := [0; 0; 31; 59; 90; 120; 151; 181; 212; 243; 273; 304; 334].

(** Days before the first of January of year [y]. *)
Definition year_start (y : Z) : Z :=
  let previous := y - 1 in
  previous * 365 + previous / 4 - previous / 100 + previous / 400.

Definition recurrence_ordinal (d : date) : Z :=
  let total := year_start (year d) + nth (Z.to_nat (month d)) before_month 0 + day d - 1 in
  if (2 <? month d) && recurrence_leap (year d) then total + 1 else total.

Definition recurrence_advance_day (d : date) : date :=
  if day d + 1 <=? recurrence_month_days (year d) (month d) then mk_date (year d) (month d) (day d + 1)
  else if month d + 1 <=? 12 then mk_date (year d) (month d + 1) 1
  else mk_date (year d + 1) 1 1.

(** [datetime.weekday()]: Monday is 0. *)
Definition weekday (d : date) : Z := recurrence_ordinal d mod 7.

Definition MAXYEAR : Z := 9999.

(** What the constructor of [datetime] accepts. *)
Definition valid_date (d : date) : bool :=
  (1 <=? year d) && (year d <=? MAXYEAR) && (1 <=? month d) && (month d <=? 12) &&
  (1 <=? day d) && (day d <=? recurrence_month_days (year d) (month d)).

(** ** From ordinals *)

(** Days from 0001-01-01 to the end of year 9999. *)
Definition ordinal_limit : Z := 3652059.

Fixpoint find_year (fuel : nat) (y n : Z) : Z :=
  match fuel with
  | O => y
  | S fuel => if n <? year_start (y + 1) then y else find_year fuel (y + 1) n
  end.

(** The month and day of the day [n] of year [y], both counted from the month
    [m] on. *)
Fixpoint find_month (fuel : nat) (y m n : Z) : date :=
  match fuel with
  | O => mk_date y m (n + 1)
  | S fuel =>
    if n <? recurrence_month_days y m then mk_date y m (n + 1)
    else find_month fuel y (m + 1) (n - recurrence_month_days y m)
  end.

Definition of_ordinal (n : Z) : date :=
  let y := find_year 32 (n / 366 + 1) n in
  find_month 11 y 1 (n - year_start y).

(** ** Naive datetimes *)

Record naive : Type := mk_naive {
  on : date;
  hour : Z;
  minute : Z;
  second : Z;
  microsecond : Z }.

#[global] Instance naive_eq_dec : EqDecision naive.
Proof. solve_decision. Defined.

Definition valid_naive (l : naive) : bool :=
  valid_date (on l) && (0 <=? hour l) && (hour l <? 24) && (0 <=? minute l) && (minute l <? 60) &&
  (0 <=? second l) && (second l <? 60) && (0 <=? microsecond l) && (microsecond l <? 1000000).

Definition day_length : Z := 86400000000.

(** Microseconds since 0001-01-01T00:00:00. *)
Definition stamp (l : naive) : Z :=
  recurrence_ordinal (on l) * day_length +
  ((hour l * 60 + minute l) * 60 + second l) * 1000000 + microsecond l.

Definition of_stamp (n : Z) : naive :=
  let s := n mod day_length in
  mk_naive (of_ordinal (n / day_length)) (s / 3600000000) (s / 60000000 mod 60) (s / 1000000 mod 60)
    (s mod 1000000).

Definition in_range (n : Z) : bool := (0 <=? n) && (n <? ordinal_limit * day_length).

(** ** Lemmas on dates *)

(** Division by constants, for [lia]. *)
Ltac euclid := Z.to_euclidean_division_equations; lia.

Lemma year_start_next y :
  year_start (y + 1) = year_start y + (if recurrence_leap y then 366 else 365).
Proof.
  unfold year_start, recurrence_leap.
  destruct (Z.eqb_spec (y mod 4) 0), (Z.eqb_spec (y mod 100) 0), (Z.eqb_spec (y mod 400) 0); cbn [andb orb negb]; euclid.
Qed.

Lemma valid_date_spec d :
  valid_date d = true <->
  1 <= year d <= MAXYEAR /\ 1 <= month d <= 12 /\ 1 <= day d <= recurrence_month_days (year d) (month d).
Proof. unfold valid_date. rewrite !andb_true_iff, !Z.leb_le. tauto. Qed.

(** A goal for each of the twelve months. *)
Ltac month_cases m :=
  let H := fresh in
  assert (m = 1 \/ m = 2 \/ m = 3 \/ m = 4 \/ m = 5 \/ m = 6 \/ m = 7 \/ m = 8 \/ m = 9 \/ m = 10 \/
          m = 11 \/ m = 12) as H by lia;
  repeat destruct H as [H|H]; subst m.

(** Days before month [m] of year [y]. *)
Definition month_start (y m : Z) : Z :=
  nth (Z.to_nat m) before_month 0 + (if (2 <? m) && recurrence_leap y then 1 else 0).

Lemma ordinal_parts d :
  recurrence_ordinal d = year_start (year d) + month_start (year d) (month d) + day d - 1.
Proof. unfold recurrence_ordinal, month_start. destruct ((2 <? month d) && _); lia. Qed.

Lemma month_start_next y m :
  1 <= m <= 11 -> month_start y (m + 1) = month_start y m + recurrence_month_days y m.
Proof.
  intros Hm. unfold month_start, recurrence_month_days. destruct (recurrence_leap y);
    month_cases m; try lia; reflexivity.
Qed.

Lemma month_start_last y :
  month_start y 12 + recurrence_month_days y 12 = if recurrence_leap y then 366 else 365.
Proof. unfold month_start, recurrence_month_days. by destruct (recurrence_leap y). Qed.

Lemma month_start_first y : month_start y 1 = 0.
Proof. unfold month_start. by destruct (recurrence_leap y). Qed.

Lemma month_days_bounds y m : 1 <= m <= 12 -> 28 <= recurrence_month_days y m <= 31.
Proof.
  intros Hm. unfold recurrence_month_days.
  destruct (recurrence_leap y); month_cases m; split; apply Z.leb_le; reflexivity.
Qed.

Lemma month_start_mono y m k : 1 <= m < k -> k <= 12 ->
  month_start y m + recurrence_month_days y m <= month_start y k.
Proof.
  intros Hm Hk. unfold month_start, recurrence_month_days. destruct (recurrence_leap y);
    month_cases m; month_cases k; first [lia | apply Z.leb_le; reflexivity].
Qed.

Lemma year_start_mono y z : y <= z -> year_start y <= year_start z.
Proof. unfold year_start. intros. euclid. Qed.

(** The day of the year lies in its year. *)
Lemma ordinal_in_year d :
  1 <= month d <= 12 -> 1 <= day d <= recurrence_month_days (year d) (month d) ->
  year_start (year d) <= recurrence_ordinal d < year_start (year d + 1).
Proof.
  intros Hm Hd. rewrite ordinal_parts, year_start_next.
  assert (0 <= month_start (year d) (month d) /\
          month_start (year d) (month d) + recurrence_month_days (year d) (month d) <=
          if recurrence_leap (year d) then 366 else 365) as [H1 H2].
  { rewrite <- month_start_last. destruct (Z.eq_dec (month d) 12) as [->|Hne].
    - split; [|lia]. unfold month_start. destruct (recurrence_leap _); apply Z.leb_le; reflexivity.
    - pose proof (month_start_mono (year d) (month d) 12). pose proof (month_days_bounds (year d) 12).
      split; [|lia]. destruct (Z.eq_dec (month d) 1) as [->|]; [rewrite month_start_first; lia|].
      pose proof (month_start_mono (year d) 1 (month d)) as Hf. rewrite month_start_first in Hf.
      pose proof (month_days_bounds (year d) 1). lia. }
  destruct (recurrence_leap (year d)); lia.
Qed.

Lemma ordinal_inj d e :
  valid_date d = true -> valid_date e = true -> recurrence_ordinal d = recurrence_ordinal e -> d = e.
Proof.
  rewrite !valid_date_spec. intros (Hy & Hm & Hd) (Hy' & Hm' & Hd') H.
  pose proof (ordinal_in_year d Hm Hd) as B. pose proof (ordinal_in_year e Hm' Hd') as B'.
  assert (year d = year e) as E.
  { destruct (Z.lt_trichotomy (year d) (year e)) as [Hlt|[|Hlt]]; [exfalso|done|exfalso].
    - pose proof (year_start_mono (year d + 1) (year e)). lia.
    - pose proof (year_start_mono (year e + 1) (year d)). lia. }
  rewrite !ordinal_parts in H. rewrite E in *.
  assert (month d = month e) as Em.
  { destruct (Z.lt_trichotomy (month d) (month e)) as [Hlt|[|Hlt]]; [exfalso|done|exfalso].
    - pose proof (month_start_mono (year e) (month d) (month e)). lia.
    - pose proof (month_start_mono (year e) (month e) (month d)). lia. }
  rewrite Em in *. destruct d, e; cbn in *. f_equal; lia.
Qed.

Lemma advance_ordinal d :
  1 <= month d <= 12 -> recurrence_ordinal (recurrence_advance_day d) = recurrence_ordinal d + 1 \/
    day d <> recurrence_month_days (year d) (month d) /\ ~ (day d < recurrence_month_days (year d) (month d)).
Proof.
  intros Hm. unfold recurrence_advance_day.
  destruct (Z.leb_spec (day d + 1) (recurrence_month_days (year d) (month d))) as [Hd|Hd].
  { left. rewrite !ordinal_parts. cbn. lia. }
  destruct (Z.eq_dec (day d) (recurrence_month_days (year d) (month d))) as [He|]; [left|right; lia].
  destruct (Z.leb_spec (month d + 1) 12).
  - rewrite !ordinal_parts. cbn. rewrite month_start_next by lia. lia.
  - rewrite !ordinal_parts. cbn. rewrite month_start_first, year_start_next.
    assert (month d = 12) as E by lia. rewrite E in *. pose proof (month_start_last (year d)).
    destruct (recurrence_leap (year d)); lia.
Qed.

(** The next day is a date of the same calendar, except after the last one. *)
Lemma advance_valid d :
  valid_date d = true ->
  recurrence_ordinal (recurrence_advance_day d) = recurrence_ordinal d + 1 /\
  (recurrence_ordinal d + 1 < ordinal_limit -> valid_date (recurrence_advance_day d) = true).
Proof.
  rewrite valid_date_spec. intros (Hy & Hm & Hd). split.
  - destruct (advance_ordinal d Hm) as [|H]; [done|lia].
  - intros Hl. apply valid_date_spec. unfold recurrence_advance_day.
    destruct (Z.leb_spec (day d + 1) (recurrence_month_days (year d) (month d))); cbn [year month day]; [lia|].
    destruct (Z.leb_spec (month d + 1) 12); cbn [year month day].
    + pose proof (month_days_bounds (year d) (month d + 1)). lia.
    + pose proof (month_days_bounds (year d + 1) 1). split; [|lia]. unfold MAXYEAR in *.
      destruct (Z.eq_dec (year d) 9999) as [E|]; [exfalso|lia].
      assert (month d = 12) as E2 by lia. rewrite ordinal_parts, E, E2 in Hl. rewrite E, E2 in *.
      assert (recurrence_month_days 9999 12 = 31) as Hl31 by reflexivity.
      assert (year_start 9999 + month_start 9999 12 + 31 - 1 + 1 = ordinal_limit) as Hlast by reflexivity.
      lia.
Qed.

Lemma ordinal_range d : valid_date d = true -> 0 <= recurrence_ordinal d < ordinal_limit.
Proof.
  rewrite valid_date_spec. intros (Hy & Hm & Hd). pose proof (ordinal_in_year d Hm Hd).
  pose proof (year_start_mono 1 (year d)) as H1. pose proof (year_start_mono (year d + 1) 10000) as H2.
  unfold MAXYEAR in *. change (year_start 1) with 0 in H1. change (year_start 10000) with ordinal_limit in H2. lia.
Qed.

(** ** Ordinals and dates are in bijection *)

Lemma find_year_spec fuel y n :
  year_start y <= n -> n < year_start (y + Z.of_nat fuel) ->
  y <= find_year fuel y n /\ year_start (find_year fuel y n) <= n < year_start (find_year fuel y n + 1).
Proof.
  revert y. induction fuel as [|fuel IH]; intros y Hy Hn; [rewrite Z.add_0_r in Hn; lia|]. cbn [find_year].
  destruct (Z.ltb_spec n (year_start (y + 1))); [lia|].
  destruct (IH (y + 1)) as [H1 H2]; [lia| |lia].
  replace (y + 1 + Z.of_nat fuel) with (y + Z.of_nat (S fuel)) by lia. done.
Qed.

Lemma year_guess n :
  0 <= n < ordinal_limit -> year_start (n / 366 + 1) <= n < year_start (n / 366 + 1 + Z.of_nat 32).
Proof. unfold year_start, ordinal_limit. intros Hn. change (Z.of_nat 32) with 32. euclid. Qed.

Lemma find_month_spec fuel y m n :
  1 <= m -> m + Z.of_nat fuel = 12 -> month_start y m <= n -> n < month_start y 12 + recurrence_month_days y 12 ->
  let d := find_month fuel y m (n - month_start y m) in
  year d = y /\ 1 <= month d <= 12 /\ 1 <= day d <= recurrence_month_days y (month d) /\
  month_start y (month d) + day d - 1 = n.
Proof.
  revert m. induction fuel as [|fuel IH]; intros m Hm Hf Hn Hl; cbn [find_month].
  - assert (m = 12) as -> by lia. cbn [year month day]. lia.
  - destruct (Z.ltb_spec (n - month_start y m) (recurrence_month_days y m)); [cbn [year month day]; lia|].
    replace (n - month_start y m - recurrence_month_days y m) with (n - month_start y (m + 1))
      by (rewrite month_start_next by lia; lia).
    apply IH; [lia|lia| |done]. rewrite month_start_next by lia. lia.
Qed.

Lemma of_ordinal_spec n :
  0 <= n < ordinal_limit -> valid_date (of_ordinal n) = true /\ recurrence_ordinal (of_ordinal n) = n.
Proof.
  intros Hn. unfold of_ordinal. destruct (year_guess n Hn) as [G1 G2].
  destruct (find_year_spec 32 _ n G1 G2) as (Hge & Hy1 & Hy2).
  set (y := find_year 32 (n / 366 + 1) n) in *.
  destruct (find_month_spec 11 y 1 (n - year_start y)) as (E & Hm & Hd & Ho).
  - lia.
  - done.
  - rewrite month_start_first. lia.
  - rewrite month_start_last. rewrite year_start_next in Hy2. lia.
  - rewrite month_start_first, Z.sub_0_r in *. set (d := find_month 11 y 1 (n - year_start y)) in *. split.
    + apply valid_date_spec. rewrite E. assert (1 <= y) by (pose proof (Z.div_pos n 366); lia).
      assert (y <= MAXYEAR); [|lia]. unfold MAXYEAR. destruct (Z.le_gt_cases y 9999); [done|exfalso].
      pose proof (year_start_mono 10000 y) as Hmax. change (year_start 10000) with ordinal_limit in Hmax. lia.
    + rewrite ordinal_parts, E. lia.
Qed.

Lemma of_ordinal_ordinal d : valid_date d = true -> of_ordinal (recurrence_ordinal d) = d.
Proof.
  intros Hd. destruct (of_ordinal_spec _ (ordinal_range d Hd)) as [H1 H2]. by apply ordinal_inj.
Qed.

Lemma valid_naive_spec l :
  valid_naive l = true <->
  valid_date (on l) = true /\ 0 <= hour l < 24 /\ 0 <= minute l < 60 /\ 0 <= second l < 60 /\
  0 <= microsecond l < 1000000.
Proof. unfold valid_naive. rewrite !andb_true_iff, !Z.leb_le, !Z.ltb_lt. tauto. Qed.

Lemma stamp_range l : valid_naive l = true -> in_range (stamp l) = true.
Proof.
  intros (Hd & Hh & Hm & Hs & Hu)%valid_naive_spec. pose proof (ordinal_range _ Hd).
  unfold in_range, stamp, day_length. apply andb_true_intro. rewrite Z.leb_le, Z.ltb_lt. nia.
Qed.

Lemma of_stamp_spec n : in_range n = true -> valid_naive (of_stamp n) = true /\ stamp (of_stamp n) = n.
Proof.
  unfold in_range. rewrite andb_true_iff, Z.leb_le, Z.ltb_lt. intros [H0 H1].
  assert (0 <= n / day_length < ordinal_limit) as Ho.
  { split; [apply Z.div_pos; [lia|done]|]. apply Z.div_lt_upper_bound; [done|lia]. }
  destruct (of_ordinal_spec _ Ho) as [Hv Hr].
  pose proof (Z.mod_pos_bound n day_length ltac:(done)) as Hs.
  pose proof (Z.div_mod n day_length ltac:(done)) as Hn. unfold of_stamp.
  set (s := n mod day_length) in *. set (d := n / day_length) in *.
  split.
  - apply valid_naive_spec. cbn. split; [done|]. unfold day_length in Hs. clear -Hs. euclid.
  - unfold stamp. cbn [on hour minute second microsecond]. rewrite Hr, Hn.
    enough (((s / 3600000000 * 60 + s / 60000000 mod 60) * 60 + s / 1000000 mod 60) * 1000000 + s mod 1000000 = s)
      by lia.
    unfold day_length in Hs. clear -Hs. euclid.
Qed.

Lemma stamp_inj l k : valid_naive l = true -> valid_naive k = true -> stamp l = stamp k -> l = k.
Proof.
  intros (Hd & Hh & Hm & Hs & Hu)%valid_naive_spec (Hd' & Hh' & Hm' & Hs' & Hu')%valid_naive_spec H.
  unfold stamp, day_length in H.
  assert (recurrence_ordinal (on l) = recurrence_ordinal (on k)) as Ho by lia.
  destruct l, k; cbn in *. f_equal; [by apply ordinal_inj|lia..].
Qed.

(** ** Weekdays *)

Lemma weekday_advance d : valid_date d = true -> weekday (recurrence_advance_day d) = (weekday d + 1) mod 7.
Proof.
  intros Hd. unfold weekday. destruct (advance_valid d Hd) as [-> _].
  by rewrite Zplus_mod_idemp_l.
Qed.

(** ** Wall clocks and buckets of [temporal.py]

    Reading an instant on a zone's wall clock and putting a local time back,
    and [Bucket], which cuts the wall clock into minutes, hours, days, weeks,
    months, quarters and years.  An instant is a number of microseconds since
    0001-01-01T00:00Z; a zone is what its [tzinfo] answers. *)

(** [OverflowError] of date arithmetic, [ValueError] of a constructor. *)
Inductive temporal_error : Type := OverflowError | ValueError.

Definition T (A : Type) : Type := res temporal_error A.

(** The offset of a zone at an instant, and the offsets it gives a local time
    (by its stamp) with [fold] 0 and 1. *)
Record tzinfo : Type := mk_tzinfo {
  offset_at : Z -> Z;
  offset_first : Z -> Z;
  offset_second : Z -> Z }.

Definition fixed_offset (o : Z) : tzinfo := mk_tzinfo (fun _ => o) (fun _ => o) (fun _ => o).

Definition UTC : tzinfo := fixed_offset 0.

Definition wall_clock (t : Z) (tz : tzinfo) : T naive :=
  let n := t + offset_at tz t in
  if in_range n then Ok (of_stamp n) else Err OverflowError.

Definition to_utc (n offset : Z) : T Z :=
  if in_range (n - offset) then Ok (n - offset) else Err OverflowError.

(** The later of the two instants a local time can name. *)
Definition from_wall_clock (l : naive) (tz : tzinfo) : T Z :=
  let n := stamp l in
  let! second := to_utc n (offset_second tz n) in
  let! first := to_utc n (offset_first tz n) in
  Ok (if first <? second then second else first).

(** *** Buckets *)

Inductive unit_name : Type := U_minute | U_hour | U_day | U_week | U_month | U_quarter | U_year.

Record Bucket : Type := mk_bucket {
  name : unit_name;
  months : Z;
  delta : Z }.

Definition Minute : Bucket := mk_bucket U_minute 0 60000000.
Definition Hour : Bucket := mk_bucket U_hour 0 3600000000.
Definition Day : Bucket := mk_bucket U_day 0 day_length.
Definition Week : Bucket := mk_bucket U_week 0 (7 * day_length).
Definition Month : Bucket := mk_bucket U_month 1 0.
Definition Quarter : Bucket := mk_bucket U_quarter 3 0.
Definition Year : Bucket := mk_bucket U_year 12 0.

Definition BUCKETS : list Bucket := [Minute; Hour; Day; Week; Month; Quarter; Year].

Definition midnight (d : date) : naive := mk_naive d 0 0 0 0.

Definition _truncate (b : Bucket) (l : naive) : naive :=
  match name b with
  | U_minute => mk_naive (on l) (hour l) (minute l) 0 0
  | U_hour => mk_naive (on l) (hour l) 0 0 0
  | U_day => midnight (on l)
  | U_week => of_stamp (stamp (midnight (on l)) - weekday (on l) * day_length)
  | U_month => midnight (mk_date (year (on l)) (month (on l)) 1)
  | U_quarter => midnight (mk_date (year (on l)) (1 + 3 * ((month (on l) - 1) / 3)) 1)
  | U_year => midnight (mk_date (year (on l)) 1 1)
  end.

(** [local + delta], or [local.replace(year=..., month=...)]. *)
Definition _advance (b : Bucket) (l : naive) : T naive :=
  if months b =? 0 then
    if in_range (stamp l + delta b) then Ok (of_stamp (stamp l + delta b)) else Err OverflowError
  else
    let total := year (on l) * 12 + month (on l) - 1 + months b in
    let d := mk_date (total / 12) (total mod 12 + 1) (day (on l)) in
    if valid_date d then Ok (mk_naive d (hour l) (minute l) (second l) (microsecond l)) else Err ValueError.

Definition floor (b : Bucket) (t : Z) (tz : tzinfo) : T Z :=
  let! l := wall_clock t tz in
  from_wall_clock (_truncate b l) tz.

Definition end_of (b : Bucket) (t : Z) (tz : tzinfo) : T Z :=
  let! l := wall_clock t tz in
  let! e := _advance b (_truncate b l) in
  from_wall_clock e tz.

(** *** Buckets tile the wall clock

    A fixed-width bucket is a quotient of the stamp; a calendar bucket is a
    quotient of the number of months. *)

(** *** Widths *)

Lemma stamp_midnight d : stamp (midnight d) = recurrence_ordinal d * day_length.
Proof. unfold stamp, midnight. cbn. lia. Qed.

Lemma truncate_fixed b l :
  b ∈ BUCKETS -> months b = 0 -> valid_naive l = true ->
  stamp (_truncate b l) = delta b * (stamp l / delta b) /\ valid_naive (_truncate b l) = true.
Proof.
  intros Hb Hm Hl. pose proof Hl as (Hd & Hh & Hmi & Hs & Hu)%valid_naive_spec.
  pose proof (ordinal_range _ Hd) as Ho.
  unfold BUCKETS in Hb. rewrite !elem_of_cons in Hb.
  destruct Hb as [->|[->|[->|[->|[->|[->|[->|Hb]]]]]]]; try done; [..|by apply elem_of_nil in Hb];
    unfold _truncate; cbn [name delta Minute Hour Day Week].
  - split; [|apply valid_naive_spec; cbn; split_and!; (done || lia)].
    unfold stamp, day_length. cbn [on hour minute second microsecond]. clear -Hs Hu. euclid.
  - split; [|apply valid_naive_spec; cbn; split_and!; (done || lia)].
    unfold stamp, day_length. cbn [on hour minute second microsecond]. clear -Hmi Hs Hu. euclid.
  - split; [|apply valid_naive_spec; cbn; split_and!; (done || lia)].
    rewrite stamp_midnight. unfold stamp, day_length. clear -Hh Hmi Hs Hu. euclid.
  - assert (stamp (midnight (on l)) - weekday (on l) * day_length =
      7 * day_length * (stamp l / (7 * day_length))) as Hw.
    { rewrite stamp_midnight. unfold weekday, stamp, day_length. clear -Hh Hmi Hs Hu. euclid. }
    destruct (of_stamp_spec (stamp (midnight (on l)) - weekday (on l) * day_length)) as [Hv He].
    { rewrite stamp_midnight. unfold in_range, weekday.
      apply andb_true_intro. rewrite Z.leb_le, Z.ltb_lt.
      pose proof (Z.mod_pos_bound (recurrence_ordinal (on l)) 7 ltac:(lia)) as Hmod.
      pose proof (Z.mod_le (recurrence_ordinal (on l)) 7 ltac:(lia) ltac:(lia)).
      unfold day_length. nia. }
    split; [by rewrite He, Hw|exact Hv].
Qed.

(** *** Months *)

(** Months since year 0, and the stamp of the first moment of a month. *)
Definition month_index (l : naive) : Z := year (on l) * 12 + month (on l) - 1.

Definition first_of (i : Z) : date := mk_date (i / 12) (i mod 12 + 1) 1.

Definition month_stamp (i : Z) : Z := recurrence_ordinal (first_of i) * day_length.

Lemma month_stamp_next i :
  recurrence_ordinal (first_of (i + 1)) =
  recurrence_ordinal (first_of i) + recurrence_month_days (i / 12) (i mod 12 + 1).
Proof.
  rewrite !ordinal_parts. unfold first_of. cbn [year month day].
  pose proof (Z.mod_pos_bound i 12 ltac:(lia)) as Hm.
  destruct (Z.eq_dec (i mod 12) 11) as [E|E].
  - assert ((i + 1) / 12 = i / 12 + 1 /\ (i + 1) mod 12 = 0) as [-> ->] by (clear -E; euclid).
    rewrite E. change (0 + 1) with 1. change (11 + 1) with 12. rewrite month_start_first, year_start_next.
    pose proof (month_start_last (i / 12)). destruct (recurrence_leap (i / 12)); lia.
  - assert ((i + 1) / 12 = i / 12 /\ (i + 1) mod 12 = i mod 12 + 1) as [-> ->] by (clear -E Hm; euclid).
    rewrite month_start_next by lia. lia.
Qed.

Lemma month_stamp_lt i j : i < j -> month_stamp i < month_stamp j.
Proof.
  unfold month_stamp. intros H.
  enough (recurrence_ordinal (first_of i) < recurrence_ordinal (first_of j)) by (unfold day_length; lia).
  replace j with (i + 1 + Z.of_nat (Z.to_nat (j - i - 1))) by lia.
  induction (Z.to_nat (j - i - 1)) as [|k IH].
  - rewrite Z.add_0_r, month_stamp_next.
    pose proof (month_days_bounds (i / 12) (i mod 12 + 1)). pose proof (Z.mod_pos_bound i 12 ltac:(lia)). lia.
  - replace (i + 1 + Z.of_nat (S k)) with (i + 1 + Z.of_nat k + 1) by lia. rewrite month_stamp_next.
    set (m := i + 1 + Z.of_nat k) in *. pose proof (month_days_bounds (m / 12) (m mod 12 + 1)).
    pose proof (Z.mod_pos_bound m 12 ltac:(lia)). lia.
Qed.

Lemma month_stamp_le i j : i <= j -> month_stamp i <= month_stamp j.
Proof. intros H. destruct (Z.eq_dec i j) as [->|]; [lia|]. pose proof (month_stamp_lt i j). lia. Qed.

Lemma in_month l :
  valid_naive l = true -> month_stamp (month_index l) <= stamp l < month_stamp (month_index l + 1).
Proof.
  intros (Hd & Hh & Hmi & Hs & Hu)%valid_naive_spec. apply valid_date_spec in Hd as (Hy & Hm & Hd).
  unfold month_stamp. rewrite month_stamp_next. unfold month_index.
  assert ((year (on l) * 12 + month (on l) - 1) / 12 = year (on l)) as E1 by (clear -Hm; euclid).
  assert ((year (on l) * 12 + month (on l) - 1) mod 12 = month (on l) - 1) as E2 by (clear -Hm; euclid).
  unfold first_of. rewrite E1, E2. replace (month (on l) - 1 + 1) with (month (on l)) by lia.
  unfold stamp, day_length. rewrite !ordinal_parts. cbn [year month day]. nia.
Qed.

Lemma truncate_months b l :
  b ∈ BUCKETS -> months b <> 0 -> valid_naive l = true ->
  0 < months b /\ _truncate b l = midnight (first_of (months b * (month_index l / months b))) /\
  valid_naive (_truncate b l) = true.
Proof.
  intros Hb Hm Hl. pose proof Hl as (Hd & _)%valid_naive_spec. apply valid_date_spec in Hd as (Hy & Hmo & Hd).
  unfold BUCKETS in Hb. rewrite !elem_of_cons in Hb.
  destruct Hb as [->|[->|[->|[->|[->|[->|[->|Hb]]]]]]]; try done; [..|by apply elem_of_nil in Hb];
    unfold _truncate, month_index, first_of; cbn [name months Month Quarter Year]; (split; [done|]); split.
  all: try (f_equal; f_equal; clear -Hmo; euclid).
  all: apply valid_naive_spec; unfold midnight; cbn [on hour minute second microsecond].
  all: split_and!; try lia; apply valid_date_spec; cbn [year month day]; split_and!; try lia.
  all: try (clear -Hmo; euclid).
  - pose proof (month_days_bounds (year (on l)) (1 + 3 * ((month (on l) - 1) / 3))) as Hb.
    assert (1 <= 1 + 3 * ((month (on l) - 1) / 3) <= 12) by (clear -Hmo; euclid). lia.
  - pose proof (month_days_bounds (year (on l)) 1). lia.
Qed.

Lemma advance_months b i e :
  months b <> 0 -> 0 < months b -> _advance b (midnight (first_of i)) = Ok e ->
  e = midnight (first_of (i + months b)) /\ valid_naive e = true.
Proof.
  intros Hne Hm. unfold _advance. destruct (Z.eqb_spec (months b) 0) as [|_]; [done|].
  unfold midnight, first_of. cbn [on year month day hour minute second microsecond].
  replace (i / 12 * 12 + (i mod 12 + 1) - 1 + months b) with (i + months b) by (clear; euclid).
  destruct (valid_date _) eqn:Hv; [|done]. intros [= <-]. split; [done|].
  apply valid_naive_spec. cbn. split_and!; (done || lia).
Qed.

Lemma advance_fixed b l e :
  months b = 0 -> _advance b l = Ok e -> stamp e = stamp l + delta b /\ valid_naive e = true.
Proof.
  intros Hm. unfold _advance. rewrite Hm. cbn [Z.eqb].
  destruct (in_range (stamp l + delta b)) eqn:Hr; [|done]. intros [= <-].
  destruct (of_stamp_spec _ Hr). done.
Qed.

(** *** Tiling *)

Lemma delta_pos b : b ∈ BUCKETS -> months b = 0 -> 0 < delta b.
Proof.
  unfold BUCKETS. rewrite !elem_of_cons.
  intros [->|[->|[->|[->|[->|[->|[->|Hb]]]]]]]; try done. by apply elem_of_nil in Hb.
Qed.

(** The bucket of [l] is the half-open run of local times that truncate to its
    start. *)
Lemma bucket_tiles b l e k :
  b ∈ BUCKETS -> valid_naive l = true -> _advance b (_truncate b l) = Ok e -> valid_naive k = true ->
  stamp (_truncate b l) <= stamp k < stamp e <-> _truncate b k = _truncate b l.
Proof.
  intros Hb Hl He Hk. destruct (Z.eq_dec (months b) 0) as [Hm|Hm].
  - destruct (truncate_fixed b l Hb Hm Hl) as [El Vl]. destruct (truncate_fixed b k Hb Hm Hk) as [Ek Vk].
    destruct (advance_fixed b _ _ Hm He) as [Ee _]. pose proof (delta_pos b Hb Hm) as Hpos.
    rewrite Ee, El. split.
    + intros H. apply stamp_inj; [done|done|]. rewrite Ek, El. f_equal.
      symmetry. apply Z.div_unique with (r := stamp k - delta b * (stamp l / delta b)); lia.
    + intros H. assert (stamp (_truncate b k) = stamp (_truncate b l)) as Hs by (by rewrite H).
      rewrite Ek, El in Hs. rewrite <- Hs.
      pose proof (Z.mul_div_le (stamp k) (delta b) Hpos).
      pose proof (Z.mul_succ_div_gt (stamp k) (delta b) Hpos). lia.
  - destruct (truncate_months b l Hb Hm Hl) as (Hpos & El & Vl).
    destruct (truncate_months b k Hb Hm Hk) as (_ & Ek & Vk).
    rewrite El in He. apply advance_months in He as [-> _]; [|done|done].
    rewrite El, !stamp_midnight. fold (month_stamp (months b * (month_index l / months b))).
    fold (month_stamp (months b * (month_index l / months b) + months b)).
    pose proof (in_month k Hk) as Hin. split.
    + intros [H1 H2]. rewrite Ek. do 3 f_equal. symmetry.
      apply Z.div_unique with (r := month_index k - months b * (month_index l / months b)); [|lia]. left.
      set (i := months b * (month_index l / months b)) in *.
      destruct (Z.lt_ge_cases (month_index k) i) as [Hlt|Hge].
      { pose proof (month_stamp_le (month_index k + 1) i). lia. }
      destruct (Z.lt_ge_cases (month_index k) (i + months b)) as [Hlt|Hge2]; [lia|].
      pose proof (month_stamp_le (i + months b) (month_index k)). lia.
    + intros H. assert (stamp (_truncate b k) = stamp (_truncate b l)) as Hs by (by rewrite H, El).
      rewrite Ek, El, !stamp_midnight in Hs.
      set (i := months b * (month_index l / months b)) in *.
      set (j := months b * (month_index k / months b)) in *.
      assert (i = j) as Eij.
      { fold (month_stamp i) (month_stamp j) in Hs.
        destruct (Z.lt_trichotomy i j) as [Hlt|[|Hlt]]; [|done|];
          [pose proof (month_stamp_lt i j)|pose proof (month_stamp_lt j i)]; lia. }
      assert (i <= month_index k < i + months b) as Hi.
      { pose proof (Z.mul_div_le (month_index k) (months b) Hpos) as Hle.
        pose proof (Z.mul_succ_div_gt (month_index k) (months b) Hpos) as Hgt.
        rewrite Z.mul_succ_r in Hgt. fold j in Hle, Hgt. lia. }
      pose proof (month_stamp_le i (month_index k)).
      pose proof (month_stamp_le (month_index k + 1) (i + months b)). lia.
Qed.

Lemma truncate_valid b l : b ∈ BUCKETS -> valid_naive l = true -> valid_naive (_truncate b l) = true.
Proof.
  intros Hb Hl. destruct (Z.eq_dec (months b) 0) as [Hm|Hm].
  - by apply truncate_fixed.
  - by apply truncate_months.
Qed.

Lemma advance_valid_bucket b l e :
  b ∈ BUCKETS -> valid_naive l = true -> _advance b (_truncate b l) = Ok e ->
  valid_naive (_truncate b l) = true /\ valid_naive e = true /\ stamp (_truncate b l) < stamp e.
Proof.
  intros Hb Hl He. destruct (Z.eq_dec (months b) 0) as [Hm|Hm].
  - destruct (truncate_fixed b l Hb Hm Hl) as [El Vl]. destruct (advance_fixed b _ _ Hm He) as [Ee Ve].
    pose proof (delta_pos b Hb Hm). split_and!; [done|done|lia].
  - destruct (truncate_months b l Hb Hm Hl) as (Hpos & El & Vl). rewrite El in *.
    apply advance_months in He as [-> Ve]; [|done|done]. split_and!; [done|done|].
    rewrite !stamp_midnight.
    apply (month_stamp_lt (months b * (month_index l / months b)) (months b * (month_index l / months b) + months b)).
    lia.
Qed.

(** The end of a bucket starts the next one. *)
Lemma truncate_end b l e :
  b ∈ BUCKETS -> valid_naive l = true -> _advance b (_truncate b l) = Ok e -> _truncate b e = e.
Proof.
  intros Hb Hl He. destruct (advance_valid_bucket b l e Hb Hl He) as (Vt & Ve & _).
  destruct (Z.eq_dec (months b) 0) as [Hm|Hm].
  - destruct (truncate_fixed b l Hb Hm Hl) as [El _]. destruct (advance_fixed b _ _ Hm He) as [Ee _].
    destruct (truncate_fixed b e Hb Hm Ve) as [Et Vte]. apply stamp_inj; [done|done|].
    pose proof (delta_pos b Hb Hm). rewrite Et, Ee, El.
    replace (delta b * (stamp l / delta b) + delta b) with ((stamp l / delta b + 1) * delta b) by lia.
    rewrite Z.div_mul by lia. lia.
  - destruct (truncate_months b l Hb Hm Hl) as (Hpos & El & _). rewrite El in He.
    apply advance_months in He as [-> _]; [|done|done].
    destruct (truncate_months b _ Hb Hm Ve) as (_ & Et & _). rewrite Et. do 2 f_equal.
    set (q := month_index l / months b).
    assert (month_index (midnight (first_of (months b * q + months b))) = months b * q + months b) as ->.
    { unfold month_index, midnight, first_of. cbn [on year month]. generalize (months b * q + months b). clear. intros i. euclid. }
    replace (months b * q + months b) with ((q + 1) * months b) by lia. rewrite Z.div_mul by lia. lia.
Qed.
