(* ===== verification/RecurrenceText.v ===== *)
(** * Cron expressions and calendar recurrences: the texts of [temporal.py]

    [Recurrence.cron] and [Recurrence.calendar] read a text into five sets of
    numbers, or refuse it and say why.  A [frozenset] is a [gset]; [str.upper]
    beyond ASCII is the interface [CaseData]. *)

From stdpp Require Import base sets strings numbers list gmap.
From Stdlib Require Import ZArith Lia.
From S2P Require Import Prelude PyCollections PyText.
#[local] Open Scope Z_scope.

Class CaseData : Type := { upper : pystr -> pystr }.

Definition ascii_upper (c : Z) : Z := if (97 <=? c) && (c <=? 122) then c - 32 else c.

Class CaseLaws (C : CaseData) : Prop := {
  upper_ascii : forall s, forallb is_ascii s = true -> upper s = map ascii_upper s }.

#[export] Instance ascii_case : CaseData := { upper := map ascii_upper }.
#[export] Instance ascii_case_laws : CaseLaws ascii_case.
Proof. by constructor. Qed.

(** The reason of a [RecurrenceError]; [E_ValueError] is a plain [ValueError]. *)
Inductive recurrence_error : Type :=
| E_fields (n : Z)
| E_step (part : pystr)
| E_number (name item : pystr)
| E_range (item : pystr)
| E_not_part (chunk : pystr)
| E_bounded (name : pystr)
| E_selector (name : pystr)
| E_unknown (names : list pystr)
| E_WKST
| E_no_FREQ
| E_FREQ (freq : pystr)
| E_empty (name : pystr)
| E_plain_weekday (item : pystr)
| E_INTERVAL (interval : Z)
| E_drift (interval : Z)
| E_period (interval : Z) (freq : pystr)
| E_needs (freq : pystr)
| E_ValueError.

Definition R (A : Type) : Type := res recurrence_error A.

(** The five sets, as [Recurrence] and [_calendar_fields] order them. *)
Record fields : Type := mk_fields {
  minutes : gset Z;
  hours : gset Z;
  days : gset Z;
  months : gset Z;
  weekdays : gset Z }.

(** ** Python texts *)

(** [s.split(sep)] for a separator of one character. *)
Fixpoint split_on (sep : Z) (s : pystr) : list pystr :=
  match s with
  | [] => [[]]
  | c :: s =>
    if c =? sep then [] :: split_on sep s
    else match split_on sep s with p :: ps => (c :: p) :: ps | [] => [[c]] end
  end.

(** [s.partition(sep)]; [None] when the separator does not occur. *)
Fixpoint partition_on (sep : Z) (s : pystr) : option (pystr * pystr) :=
  match s with
  | [] => None
  | c :: s =>
    if c =? sep then Some ([], s)
    else match partition_on sep s with Some (a, b) => Some (c :: a, b) | None => None end
  end.

(** [range(start, stop, step)] for a positive step. *)
Definition pyrange (start stop step : Z) : list Z :=
  map (fun k => start + Z.of_nat k * step) (seq 0 (Z.to_nat ((stop - start + step - 1) / step))).

Definition every (start stop : Z) : gset Z := list_to_set (pyrange start stop 1).

Section text.
Context {U : UnicodeData} {C : CaseData}.

(** [s.split()]: the words between runs of blanks. *)
Fixpoint words (current s : pystr) : list pystr :=
  match s with
  | [] => if decide (current = []) then [] else [rev current]
  | c :: s =>
    if isspace c then (if decide (current = []) then words [] s else rev current :: words [] s)
    else words (c :: current) s
  end.

(** What [int] strips, on ASCII and beyond. *)
Definition int_blank (c : Z) : bool :=
  if is_ascii c then ((9 <=? c) && (c <=? 13)) || (c =? 32) else isspace c.

Fixpoint drop_blank (s : pystr) : pystr :=
  match s with c :: s' => if int_blank c then drop_blank s' else s | [] => [] end.

(** The digits, single underscores between them removed. *)
Fixpoint int_digits (after_digit : bool) (s : pystr) : option pystr :=
  match s with
  | [] => if after_digit then Some [] else None
  | c :: s =>
    if c =? 95 then (if after_digit then int_digits false s else None)
    else if decimal c then (match int_digits true s with Some ds => Some (c :: ds) | None => None end)
    else None
  end.

Definition int_unsigned (s : pystr) : option Z :=
  match int_digits false s with Some ds => int_of_digits ds | None => None end.

(** [int(s)]; [None] is the [ValueError]. *)
Definition py_int (s : pystr) : option Z :=
  match rev (drop_blank (rev (drop_blank s))) with
  | c :: s' =>
    if c =? 45 then option_map Z.opp (int_unsigned s')
    else if c =? 43 then int_unsigned s'
    else int_unsigned (c :: s')
  | [] => None
  end.

(** ** Cron *)

(** The [try] of a part: its bounds and its step.  [RecurrenceError] is a
    [ValueError], so the refusal of a small step does not leave it. *)
Definition int_or (e : recurrence_error) (s : pystr) : R Z :=
  match py_int s with Some n => Ok n | None => Err e end.

Definition cron_part (part : pystr) (low high : Z) : R (Z * Z * Z) :=
  let! (body, step) :=
    match partition_on 47 part with
    | Some (body, step_text) =>
      let! step := int_or E_ValueError step_text in
      if step <? 1 then Err (E_step part) else Ok (body, step)
    | None => Ok (part, 1)
    end in
  if decide (body = bs "*") then Ok (low, high, step)
  else
    match partition_on 45 body with
    | Some (start_text, end_text) =>
      let! start := int_or E_ValueError start_text in
      let! stop := int_or E_ValueError end_text in
      Ok (start, stop, step)
    | None => let! start := int_or E_ValueError body in Ok (start, start, step)
    end.

Definition cron_values (low high : Z) (values : gset Z) (part : pystr) : R (gset Z) :=
  match cron_part part low high with
  | Err _ => Err (E_number (bs "cron field") part)
  | Ok (start, stop, step) =>
    if (start <? low) || (high <? stop) || (stop <? start) then Err (E_range part)
    else Ok (values ∪ list_to_set (pyrange start (stop + 1) step))
  end.

(** [for item in items: ...] over a set that grows, until an item is refused. *)
Fixpoint collect {A B} (f : B -> A -> R B) (acc : B) (items : list A) : R B :=
  match items with
  | [] => Ok acc
  | item :: items => let! acc := f acc item in collect f acc items
  end.

Definition _parse_cron_field (field : pystr) (low high : Z) (wrap : bool) : R (gset Z) :=
  let high := if wrap then 7 else high in
  let! values := collect (cron_values low high) ∅ (split_on 44 field) in
  Ok (if wrap then set_map (fun value => if value =? 7 then 0 else value) values else values).

Definition cron_fields (expression : pystr) : R fields :=
  match words [] expression with
  | [m; h; d; mo; w] =>
    let! minute := _parse_cron_field m 0 59 false in
    let! hour := _parse_cron_field h 0 23 false in
    let! day := _parse_cron_field d 1 31 false in
    let! month := _parse_cron_field mo 1 12 false in
    let! weekday := _parse_cron_field w 0 6 true in
    Ok (mk_fields minute hour day month weekday)
  | ws => Err (E_fields (zlen ws))
  end.

(** ** Calendar recurrences *)

Definition _CALENDAR_DAYS : list (pystr * Z) :=
  [(bs "SU", 0); (bs "MO", 1); (bs "TU", 2); (bs "WE", 3); (bs "TH", 4); (bs "FR", 5); (bs "SA", 6)].

Definition _CALENDAR_KNOWN : list pystr :=
  [bs "FREQ"; bs "INTERVAL"; bs "BYMINUTE"; bs "BYHOUR"; bs "BYDAY"; bs "BYMONTHDAY"; bs "BYMONTH"; bs "WKST"].

(** In the order [sorted] gives them. *)
Definition _CALENDAR_SELECTORS : list pystr := [bs "BYEASTER"; bs "BYSETPOS"; bs "BYWEEKNO"; bs "BYYEARDAY"].

Definition _calendar_numbers (value : pystr) (low high : Z) (name : pystr) : R (gset Z) :=
  if decide (strip_text value = []) then Err (E_empty name)
  else
    collect (fun out item =>
      let! number := int_or (E_number name item) item in
      if (low <=? number) && (number <=? high) then Ok (out ∪ {[number]}) else Err (E_range name))
      ∅ (split_on 44 value).

Definition _calendar_step (span interval : Z) : R (gset Z) :=
  if interval <? 1 then Err (E_INTERVAL interval)
  else if negb (span mod interval =? 0) then Err (E_drift interval)
  else Ok (list_to_set (pyrange 0 span interval)).

(** [NAME in parts], read into a set or [None]. *)
Definition calendar_part (parts : list (pystr * pystr)) (name : pystr) (low high : Z) :
    R (option (gset Z)) :=
  match dget parts name with
  | Some value => let! s := _calendar_numbers value low high name in Ok (Some s)
  | None => Ok None
  end.

Definition calendar_weekdays (parts : list (pystr * pystr)) : R (option (gset Z)) :=
  match dget parts (bs "BYDAY") with
  | None => Ok None
  | Some value =>
    if decide (strip_text value = []) then Err (E_empty (bs "BYDAY"))
    else
      let! found :=
        collect (fun found item =>
          match dget _CALENDAR_DAYS (upper (strip_text item)) with
          | Some n => Ok (found ∪ {[n]})
          | None => Err (E_plain_weekday item)
          end) ∅ (split_on 44 value) in
      Ok (Some found)
  end.

(** [s or default]: a missing or empty set takes the default. *)
Definition or_else (s : option (gset Z)) (default : R (gset Z)) : R (gset Z) :=
  match s with
  | Some s => if decide (s = ∅) then default else Ok s
  | None => default
  end.

(** The minutes and hours of a frequency; [None] is an hour left open. *)
Definition calendar_times (freq : pystr) (interval : Z) (minute hour monthday weekday : option (gset Z)) :
    R (gset Z * option (gset Z)) :=
  if decide (freq = bs "MINUTELY") then
    let! minute := or_else minute (_calendar_step 60 interval) in
    Ok (minute, hour)
  else if decide (freq = bs "HOURLY") then
    let! minute := or_else minute (Ok {[0]}) in
    let! hour := or_else hour (_calendar_step 24 interval) in
    Ok (minute, Some hour)
  else if text_in freq [bs "DAILY"; bs "WEEKLY"; bs "MONTHLY"] then
    if negb (interval =? 1) then Err (E_period interval freq)
    else
      let! minute := or_else minute (Ok {[0]}) in
      let! hour := or_else hour (Ok {[0]}) in
      if bool_decide (freq = bs "WEEKLY") && bool_decide (weekday = None) then Err (E_needs freq)
      else if bool_decide (freq = bs "MONTHLY") && bool_decide (monthday = None) && bool_decide (weekday = None)
      then Err (E_needs freq)
      else Ok (minute, Some hour)
  else Err (E_FREQ freq).

(** The parts that are refused before any is read. *)
Definition calendar_refused (parts : list (pystr * pystr)) : option recurrence_error :=
  match List.find (dmem parts) [bs "COUNT"; bs "UNTIL"] with
  | Some name => Some (E_bounded name)
  | None =>
    match List.find (dmem parts) _CALENDAR_SELECTORS with
    | Some name => Some (E_selector name)
    | None =>
      match List.filter (fun name => negb (text_in name _CALENDAR_KNOWN)) (dkeys parts) with
      | _ :: _ as unknown => Some (E_unknown (sorted_by (fun name => name) unknown))
      | [] => None
      end
    end
  end.

Definition get_or (parts : list (pystr * pystr)) (name default : pystr) : pystr :=
  match dget parts name with Some value => value | None => default end.

Definition _calendar_fields (parts : list (pystr * pystr)) : R fields :=
  match calendar_refused parts with
  | Some e => Err e
  | None =>
    if bool_decide (upper (get_or parts (bs "WKST") (bs "MO")) <> bs "MO") then Err E_WKST
    else
      let freq := upper (get_or parts (bs "FREQ") []) in
      if decide (freq = []) then Err E_no_FREQ
      else
        let interval_text := get_or parts (bs "INTERVAL") (bs "1") in
        let! interval := int_or E_ValueError (if decide (interval_text = []) then bs "1" else interval_text) in
        let! minute := calendar_part parts (bs "BYMINUTE") 0 59 in
        let! hour := calendar_part parts (bs "BYHOUR") 0 23 in
        let! monthday := calendar_part parts (bs "BYMONTHDAY") 1 31 in
        let! month := calendar_part parts (bs "BYMONTH") 1 12 in
        let! weekday := calendar_weekdays parts in
        let! (minute, hour) := calendar_times freq interval minute hour monthday weekday in
        Ok (mk_fields minute (default (every 0 24) hour) (default (every 1 32) monthday)
              (default (every 1 13) month) (default (every 0 7) weekday))
  end.

(** The [NAME=VALUE] parts of the text, a later one over an earlier one. *)
Definition calendar_parts (text : pystr) : R (list (pystr * pystr)) :=
  let body := strip_text text in
  let body := if startswith (bs "RRULE:") (upper body) then drop 6 body else body in
  collect (fun parts chunk =>
    if decide (chunk = []) then Ok parts
    else
      match partition_on 61 chunk with
      | None => Err (E_not_part chunk)
      | Some (name, value) => Ok (dset parts (upper (strip_text name)) (strip_text value))
      end) [] (split_on 59 body).

Definition calendar_recurrence (text : pystr) : R fields :=
  let! parts := calendar_parts text in
  _calendar_fields parts.

End text.
