(* ===== verification/Recurrence.v ===== *)
(** * Recurrences: [Recurrence] of [temporal.py], the search of [codecs.c]

    Five sets of numbers read on a zone's wall clock, the bit masks the native
    code compiles them to, and the search for the next occurrence over days,
    hours and minutes. *)

From stdpp Require Import base sets strings numbers list gmap.
From Stdlib Require Import ZArith Lia.
From S2P Require Import Prelude PyCollections PyText Temporal RecurrenceText.
#[local] Open Scope Z_scope.

(** What leaves [cron], [calendar] and [next_after]. *)
Inductive failure : Type :=
| Refused (e : recurrence_error)
| Raised (e : temporal_error)
| No_occurrence.

Definition lift {E A} (f : E -> failure) (c : res E A) : res failure A :=
  match c with Ok a => Ok a | Err e => Err (f e) end.

(** ** The native plan *)

Record RecurrencePlan : Type := mk_plan {
  plan_minutes : Z;
  plan_hours : Z;
  plan_days : Z;
  plan_months : Z;
  plan_weekdays : Z;
  dom_restricted : bool;
  dow_restricted : bool }.

Definition in_long (v : Z) : bool := (- 2 ^ 63 <=? v) && (v <? 2 ^ 63).

Fixpoint mask_loop (low high mask : Z) (values : list Z) : T Z :=
  match values with
  | [] => Ok mask
  | v :: values =>
    if negb (in_long v) then Err OverflowError
    else if (v <? low) || (high <? v) then Err ValueError
    else mask_loop low high (Z.lor mask (Z.shiftl 1 v)) values
  end.

Definition recurrence_mask (source : gset Z) (low high : Z) : T Z := mask_loop low high 0 (elements source).

(** A cast to an unsigned integer of [w] bits. *)
Definition uint (w n : Z) : Z := Z.land n (Z.ones w).

Definition recurrence_plan (f : fields) (dom dow : bool) : T RecurrencePlan :=
  let! minutes_mask := recurrence_mask (minutes f) 0 59 in
  let! hours_mask := recurrence_mask (hours f) 0 23 in
  let! days_mask := recurrence_mask (days f) 1 31 in
  let! months_mask := recurrence_mask (months f) 1 12 in
  let! weekdays_mask := recurrence_mask (weekdays f) 0 6 in
  Ok (mk_plan minutes_mask (uint 32 hours_mask) (uint 32 days_mask) (uint 16 months_mask)
        (uint 8 weekdays_mask) dom dow).

(** [(mask & (1 << i)) != 0]. *)
Definition bit (mask i : Z) : bool := negb (Z.land mask (Z.shiftl 1 i) =? 0).

(** ** The search *)

(** A loop that returns the first result of its body. *)
Fixpoint first_some {A B} (f : A -> T (option B)) (items : list A) : T (option B) :=
  match items with
  | [] => Ok None
  | x :: items =>
    let! found := f x in
    match found with Some b => Ok (Some b) | None => first_some f items end
  end.

Definition upto (n : nat) : list Z := map Z.of_nat (seq 0 n).

(** A local minute, put on the timeline and read back; a minute the zone skips
    reads back as another one. *)
Definition try_minute (tz : tzinfo) (d : date) (h m : Z) : T (option Z) :=
  if valid_date d then
    let local := mk_naive d h m 0 0 in
    let! candidate := from_wall_clock local tz in
    let! readback := wall_clock candidate tz in
    Ok (if decide (readback = local) then Some candidate else None)
  else Err ValueError.

Definition day_ok (p : RecurrencePlan) (d : date) (python_weekday : Z) : bool :=
  let dom := bit (plan_days p) (day d) in
  let dow := bit (plan_weekdays p) ((python_weekday + 1) mod 7) in
  bit (plan_months p) (month d) && if dom_restricted p && dow_restricted p then dom || dow else dom && dow.

Definition search_day (p : RecurrencePlan) (tz : tzinfo) (start : naive) (first : bool) (d : date) :
    T (option Z) :=
  first_some (fun h =>
    if negb (bit (plan_hours p) h) then Ok None
    else
      first_some (fun m =>
        if negb (bit (plan_minutes p) m) then Ok None
        else if first && ((h <? hour start) || ((h =? hour start) && (m <=? minute start))) then Ok None
        else try_minute tz d h m) (upto 60)) (upto 24).

Definition try_day (p : RecurrencePlan) (tz : tzinfo) (start : naive) (first : bool) (d : date)
    (python_weekday : Z) : T (option Z) :=
  if day_ok p d python_weekday then search_day p tz start first d else Ok None.

Fixpoint search (p : RecurrencePlan) (tz : tzinfo) (start : naive) (fuel : nat) (first : bool)
    (d : date) (python_weekday : Z) : T (option Z) :=
  match fuel with
  | O => Ok None
  | S fuel =>
    let! found := try_day p tz start first d python_weekday in
    match found with
    | Some candidate => Ok (Some candidate)
    | None => search p tz start fuel false (recurrence_advance_day d) ((python_weekday + 1) mod 7)
    end
  end.

Definition recurrence_next (start : naive) (p : RecurrencePlan) (tz : tzinfo) (search_days : nat) :
    T (option Z) :=
  search p tz start search_days true (on start) (recurrence_ordinal (on start) mod 7).

(** ** Recurrences *)

Definition _SEARCH_DAYS : nat := 1462.

Record Recurrence : Type := mk_recurrence {
  sets : fields;
  tz : tzinfo;
  _plan : RecurrencePlan }.

Definition days_restricted (f : fields) : bool := negb (Nat.eqb (size (days f)) 31).
Definition weekdays_restricted (f : fields) : bool := negb (Nat.eqb (size (weekdays f)) 7).

(** The constructor, with [__post_init__]. *)
Definition new_recurrence (f : fields) (tz : tzinfo) : T Recurrence :=
  let! plan := recurrence_plan f (days_restricted f) (weekdays_restricted f) in
  Ok (mk_recurrence f tz plan).

Definition cron {U : UnicodeData} (expression : pystr) (tz : tzinfo) : res failure Recurrence :=
  let! f := lift Refused (cron_fields expression) in
  lift Raised (new_recurrence f tz).

Definition calendar {U : UnicodeData} {C : CaseData} (text : pystr) (tz : tzinfo) : res failure Recurrence :=
  let! f := lift Refused (calendar_recurrence text) in
  lift Raised (new_recurrence f tz).

Definition _day_matches (f : fields) (day python_weekday : Z) : bool :=
  let cron_dow := (python_weekday + 1) mod 7 in
  let dom := bool_decide (day ∈ days f) in
  let dow := bool_decide (cron_dow ∈ weekdays f) in
  if days_restricted f && weekdays_restricted f then dom || dow else dom && dow.

Definition matches (f : fields) (minute hour day month weekday : Z) : bool :=
  if negb (bool_decide (minute ∈ minutes f)) || negb (bool_decide (hour ∈ hours f)) ||
     negb (bool_decide (month ∈ months f))
  then false
  else _day_matches f day weekday.

(** [matches] of a local time. *)
Definition matches_local (f : fields) (l : naive) : bool :=
  matches f (minute l) (hour l) (day (on l)) (month (on l)) (weekday (on l)).

Definition matches_at (r : Recurrence) (t : Z) : T bool :=
  let! local := wall_clock t (tz r) in
  Ok (matches_local (sets r) local).

(** [local.replace(second=0, microsecond=0)]. *)
Definition to_minute (l : naive) : naive := mk_naive (on l) (hour l) (minute l) 0 0.

Definition next_after (r : Recurrence) (t : Z) : res failure Z :=
  let! local := lift Raised (wall_clock t (tz r)) in
  let! candidate := lift Raised (recurrence_next (to_minute local) (_plan r) (tz r) _SEARCH_DAYS) in
  match candidate with
  | Some c => Ok c
  | None => Err No_occurrence
  end.

(** ** The cache of [next_after]

    A [datetime] object is its identity and its value; the entry holds the
    object it was computed for. *)

Record moment : Type := mk_moment { address : Z; at_time : Z }.

Definition cache : Type := option (moment * Z).

Definition next_cached (r : Recurrence) (cached : cache) (m : moment) : res failure Z * cache :=
  let fresh :=
    match next_after r (at_time m) with
    | Ok result => (Ok result, Some (m, result))
    | Err e => (Err e, cached)
    end in
  match cached with
  | Some (held, result) => if address held =? address m then (Ok result, cached) else fresh
  | None => fresh
  end.

Fixpoint next_calls (r : Recurrence) (cached : cache) (ms : list moment) : list (res failure Z) :=
  match ms with
  | [] => []
  | m :: ms => let '(result, cached) := next_cached r cached m in result :: next_calls r cached ms
  end.

(** The UTC instant of a minute. *)
Definition instant (y mo d h mi : Z) : Z := stamp (mk_naive (mk_date y mo d) h mi 0 0).

(** ** The masks and the search of [Recurrence]

    A compiled plan tests exactly the sets it was built from, and the search
    visits the local minutes of its days in order. *)

(** *** Masks *)

Lemma bit_testbit mask i : 0 <= i -> bit mask i = Z.testbit mask i.
Proof.
  intros Hi. unfold bit. rewrite Z.shiftl_1_l.
  destruct (Z.eqb_spec (Z.land mask (2 ^ i)) 0) as [E|E]; cbn [negb].
  - symmetry. apply (f_equal (fun n => Z.testbit n i)) in E.
    rewrite Z.land_spec, Z.pow2_bits_true, andb_true_r, Z.bits_0 in E by done. done.
  - destruct (Z.testbit mask i) eqn:Ht; [done|]. exfalso. apply E.
    apply Z.bits_inj'. intros n Hn. rewrite Z.land_spec, Z.bits_0.
    destruct (Z.eq_dec i n) as [<-|Hne]; [by rewrite Ht|].
    by rewrite Z.pow2_bits_false, andb_false_r by done.
Qed.

Lemma mask_loop_spec low high mask values n :
  0 <= low -> mask_loop low high mask values = Ok n ->
  Forall (fun v => low <= v <= high) values /\
  forall i, 0 <= i -> Z.testbit n i = Z.testbit mask i || bool_decide (i ∈ values).
Proof.
  intros Hl. revert mask. induction values as [|v values IH]; intros mask; cbn [mask_loop].
  { intros [= ->]. split; [constructor|]. intros i _. by rewrite orb_false_r. }
  destruct (negb (in_long v)); [done|]. destruct (_ || _) eqn:Hv; [done|].
  intros [Hf Hb]%IH. apply orb_false_iff in Hv as [H1 H2]. split; [constructor; [lia|done]|].
  intros i Hi. rewrite Hb, Z.lor_spec, Z.shiftl_1_l by done.
  rewrite Z.pow2_bits_eqb by lia. rewrite <- orb_assoc. f_equal.
  destruct (Z.eqb_spec v i) as [->|Hne]; cbn [orb].
  - symmetry. apply bool_decide_eq_true. by left.
  - apply bool_decide_ext. rewrite elem_of_cons. naive_solver.
Qed.

Lemma mask_loop_total low high mask values :
  0 <= low -> high < 64 -> Forall (fun v => low <= v <= high) values ->
  is_ok (mask_loop low high mask values) = true.
Proof.
  intros Hl Hh. revert mask. induction values as [|v values IH]; intros mask Hf; [done|].
  apply List.Forall_cons_iff in Hf as [Hv Hf]. cbn [mask_loop].
  assert (in_long v = true) as ->.
  { unfold in_long. apply andb_true_intro. rewrite Z.leb_le, Z.ltb_lt. lia. }
  assert ((v <? low) || (high <? v) = false) as ->.
  { apply orb_false_intro; [apply Z.ltb_ge|apply Z.ltb_ge]; lia. }
  by apply IH.
Qed.

Definition bounded (low high : Z) (s : gset Z) : Prop := forall v, v ∈ s -> low <= v <= high.

Lemma bounded_elements low high s : bounded low high s <-> Forall (fun v => low <= v <= high) (elements s).
Proof. unfold bounded. rewrite Forall_forall. by setoid_rewrite elem_of_elements. Qed.

Lemma recurrence_mask_spec s low high n :
  0 <= low -> recurrence_mask s low high = Ok n ->
  bounded low high s /\ forall i, 0 <= i -> Z.testbit n i = bool_decide (i ∈ s).
Proof.
  intros Hl [Hf Hb]%mask_loop_spec; [|done]. split; [by apply bounded_elements|].
  intros i Hi. rewrite Hb, Z.bits_0 by done. cbn [orb]. apply bool_decide_ext. by rewrite elem_of_elements.
Qed.

Lemma uint_bit w n i : 0 <= i < w -> Z.testbit (uint w n) i = Z.testbit n i.
Proof. intros Hi. unfold uint. rewrite Z.land_spec, Z.ones_spec_low by lia. by rewrite andb_true_r. Qed.

(** The sets a plan can hold. *)
Definition fields_bounded (f : fields) : Prop :=
  bounded 0 59 (minutes f) /\ bounded 0 23 (hours f) /\ bounded 1 31 (days f) /\
  bounded 1 12 (months f) /\ bounded 0 6 (weekdays f).

(** What each mask of a plan tests. *)
Record plan_for (f : fields) (p : RecurrencePlan) : Prop := {
  minutes_bit : forall i, 0 <= i -> bit (plan_minutes p) i = bool_decide (i ∈ minutes f);
  hours_bit : forall i, 0 <= i < 32 -> bit (plan_hours p) i = bool_decide (i ∈ hours f);
  days_bit : forall i, 0 <= i < 32 -> bit (plan_days p) i = bool_decide (i ∈ days f);
  months_bit : forall i, 0 <= i < 16 -> bit (plan_months p) i = bool_decide (i ∈ months f);
  weekdays_bit : forall i, 0 <= i < 8 -> bit (plan_weekdays p) i = bool_decide (i ∈ weekdays f) }.

Lemma recurrence_plan_spec f dom dow p :
  recurrence_plan f dom dow = Ok p ->
  fields_bounded f /\ plan_for f p /\ dom_restricted p = dom /\ dow_restricted p = dow.
Proof.
  unfold recurrence_plan. intros H.
  apply res_bind_Ok in H as (m & [Bm Hm]%recurrence_mask_spec & H); [|lia].
  apply res_bind_Ok in H as (h & [Bh Hh]%recurrence_mask_spec & H); [|lia].
  apply res_bind_Ok in H as (d & [Bd Hd]%recurrence_mask_spec & H); [|lia].
  apply res_bind_Ok in H as (mo & [Bmo Hmo]%recurrence_mask_spec & H); [|lia].
  apply res_bind_Ok in H as (w & [Bw Hw]%recurrence_mask_spec & H); [|lia].
  injection H as <-. split; [by split_and!|]. split; [|done].
  constructor; intros i Hi; cbn [plan_minutes plan_hours plan_days plan_months plan_weekdays];
    rewrite bit_testbit by lia; rewrite ?uint_bit by lia; auto with lia.
Qed.

Lemma recurrence_plan_total f dom dow : fields_bounded f -> exists p, recurrence_plan f dom dow = Ok p.
Proof.
  intros (Bm & Bh & Bd & Bmo & Bw). unfold recurrence_plan, recurrence_mask.
  repeat match goal with
  | B : bounded ?l ?h ?s |- context [mask_loop ?l ?h 0 (elements ?s)] =>
    let E := fresh in
    pose proof (mask_loop_total l h 0 (elements s) ltac:(lia) ltac:(lia) (proj1 (bounded_elements l h s) B)) as E;
    destruct (mask_loop l h 0 (elements s)); [clear E|done]
  end.
  cbn. eauto.
Qed.

(** [_plan] of a recurrence is the plan of its sets. *)
Definition built (r : Recurrence) : Prop := new_recurrence (sets r) (tz r) = Ok r.

Lemma new_recurrence_built f z r : new_recurrence f z = Ok r -> built r /\ sets r = f /\ tz r = z.
Proof.
  unfold built, new_recurrence. intros H. pose proof H as H0. apply res_bind_Ok in H0 as (p & Hp & E).
  injection E as <-. split_and!; [exact H|done|done].
Qed.

Lemma built_plan r :
  built r ->
  fields_bounded (sets r) /\ plan_for (sets r) (_plan r) /\
  dom_restricted (_plan r) = days_restricted (sets r) /\
  dow_restricted (_plan r) = weekdays_restricted (sets r).
Proof.
  unfold built, new_recurrence. intros H. apply res_bind_Ok in H as (p & Hp & E).
  destruct r as [f z q]. injection E as ->. exact (recurrence_plan_spec _ _ _ _ Hp).
Qed.

(** *** Loops that return early *)

Lemma first_some_found {A B} (f : A -> T (option B)) items b :
  first_some f items = Ok (Some b) ->
  exists before x after, items = before ++ x :: after /\ f x = Ok (Some b) /\
    forall y, y ∈ before -> f y = Ok None.
Proof.
  induction items as [|x items IH]; cbn [first_some]; [done|].
  destruct (f x) as [[c|]|] eqn:E; cbn [res_bind]; [|intros H|done].
  - intros [= ->]. exists [], x, items. split_and!; [done|done|]. intros y Hy. by apply elem_of_nil in Hy.
  - destruct (IH H) as (before & z & after & -> & Hz & Hb). exists (x :: before), z, after.
    split_and!; [done|done|]. intros y [->|Hy]%elem_of_cons; auto.
Qed.

Lemma first_some_none {A B} (f : A -> T (option B)) items :
  first_some f items = Ok None <-> forall y, y ∈ items -> f y = Ok None.
Proof.
  induction items as [|x items IH]; cbn [first_some].
  - split; [|done]. intros _ y Hy. by apply elem_of_nil in Hy.
  - destruct (f x) as [[c|]|] eqn:E; cbn [res_bind].
    + split; [done|]. intros H. specialize (H x). rewrite E in H. by discriminate H; left.
    + rewrite IH. split; [intros H y [->|Hy]%elem_of_cons; auto|]. intros H y Hy. apply H. by right.
    + split; [done|]. intros H. specialize (H x). rewrite E in H. by discriminate H; left.
Qed.

Lemma elem_of_upto i n : i ∈ upto n <-> 0 <= i < Z.of_nat n.
Proof.
  unfold upto. rewrite list_elem_of_fmap. split.
  - intros (k & -> & Hk%elem_of_seq). lia.
  - intros Hi. exists (Z.to_nat i). split; [lia|]. apply elem_of_seq. lia.
Qed.

(** The items before one of [upto n] are the smaller ones. *)
Lemma upto_split n before x after :
  upto n = before ++ x :: after -> 0 <= x < Z.of_nat n /\ forall y, y ∈ before <-> 0 <= y < x.
Proof.
  intros E. assert (x = zlen before) as Hx.
  { assert (upto n !! length before = Some x) as H by (rewrite E; apply list_lookup_middle; done).
    unfold upto in H. rewrite list_lookup_fmap in H.
    apply fmap_Some in H as (k & [Hk _]%lookup_seq & ->). unfold zlen. lia. }
  assert (before = upto (length before)) as Hb.
  { apply (f_equal (take (length before))) in E. rewrite take_app_length in E.
    rewrite <- E at 1. unfold upto. rewrite <- fmap_take. f_equal. rewrite take_seq.
    f_equal. apply (f_equal length) in E. rewrite length_take in E. unfold upto in E.
    rewrite length_map, length_seq in E. lia. }
  assert (x ∈ upto n) as Hin by (rewrite E; set_solver). apply elem_of_upto in Hin. split; [done|].
  intros y. rewrite Hb, elem_of_upto. unfold zlen in Hx. lia.
Qed.
