(* ===== verification/RecurrenceSearch.v ===== *)
(** * The search for the next occurrence

    [search] tries the local minutes after its start in order: what it returns
    is the first that matches and exists, and when it returns nothing no such
    minute lies in its days. *)

From stdpp Require Import base sets strings numbers list gmap.
From Stdlib Require Import ZArith Lia.
From S2P Require Import Prelude Temporal RecurrenceText Recurrence.
#[local] Open Scope Z_scope.

(** ** Days in a row *)

Definition day_after (n : nat) (d : date) : date := Nat.iter n recurrence_advance_day d.

Lemma day_after_S n d : day_after (S n) d = day_after n (recurrence_advance_day d).
Proof. unfold day_after. symmetry. apply Nat.iter_swap. Qed.

Lemma day_after_ordinal n d :
  valid_date d = true -> recurrence_ordinal d + Z.of_nat n < ordinal_limit ->
  valid_date (day_after n d) = true /\ recurrence_ordinal (day_after n d) = recurrence_ordinal d + Z.of_nat n.
Proof.
  intros Hd. induction n as [|n IH]; intros Hl; [cbn; split; [done|lia]|].
  destruct IH as [Hv Ho]; [lia|]. change (day_after (S n) d) with (recurrence_advance_day (day_after n d)).
  destruct (advance_valid _ Hv) as [Ho' Hv']. rewrite Ho', Ho. split; [apply Hv'|]; lia.
Qed.

(** A later date is some days after. *)
Lemma day_after_reaches d e :
  valid_date d = true -> valid_date e = true -> recurrence_ordinal d <= recurrence_ordinal e ->
  day_after (Z.to_nat (recurrence_ordinal e - recurrence_ordinal d)) d = e.
Proof.
  intros Hd He Hle. pose proof (ordinal_range e He).
  destruct (day_after_ordinal (Z.to_nat (recurrence_ordinal e - recurrence_ordinal d)) d Hd) as [Hv Ho]; [lia|].
  apply ordinal_inj; [done|done|lia].
Qed.

(** The native code advances the day without a bound on the year. *)
Lemma day_after_shaped n d :
  valid_date d = true ->
  (1 <= month (day_after n d) <= 12 /\
   1 <= day (day_after n d) <= recurrence_month_days (year (day_after n d)) (month (day_after n d))) /\
  recurrence_ordinal (day_after n d) = recurrence_ordinal d + Z.of_nat n.
Proof.
  intros (_ & Hm & Hd)%valid_date_spec. induction n as [|n [[Hm' Hd'] Ho]]; [cbn; split; [done|lia]|].
  change (day_after (S n) d) with (recurrence_advance_day (day_after n d)).
  set (e := day_after n d) in *. split; [|destruct (advance_ordinal e Hm'); lia].
  unfold recurrence_advance_day.
  destruct (Z.leb_spec (day e + 1) (recurrence_month_days (year e) (month e))); cbn [year month day]; [lia|].
  destruct (Z.leb_spec (month e + 1) 12); cbn [year month day].
  - pose proof (month_days_bounds (year e) (month e + 1)). lia.
  - pose proof (month_days_bounds (year e + 1) 1). lia.
Qed.

Lemma weekday_after n d :
  valid_date d = true -> (recurrence_ordinal d + Z.of_nat n) mod 7 = weekday (day_after n d).
Proof. intros Hd. destruct (day_after_shaped n d Hd) as [_ Ho]. unfold weekday. by rewrite Ho. Qed.

(** ** The loop over days *)

Section search.
Variables (p : RecurrencePlan) (z : tzinfo) (start : naive).

Abbreviation try_day := (try_day p z start).

Lemma search_found fuel first d w c :
  search p z start fuel first d (w mod 7) = Ok (Some c) ->
  exists j, (j < fuel)%nat /\
    try_day (first && Nat.eqb j 0) (day_after j d) ((w + Z.of_nat j) mod 7) = Ok (Some c) /\
    forall i, (i < j)%nat -> try_day (first && Nat.eqb i 0) (day_after i d) ((w + Z.of_nat i) mod 7) = Ok None.
Proof.
  revert first d w. induction fuel as [|fuel IH]; intros first d w; cbn [search]; [done|].
  destruct (try_day first d (w mod 7)) as [[b|]|] eqn:E; cbn [res_bind]; [|intros H|done].
  - intros [= ->]. exists O. cbn [Nat.eqb]. rewrite andb_true_r, Z.add_0_r. split_and!; [lia|exact E|intros i Hi; lia].
  - rewrite Zplus_mod_idemp_l in H. apply IH in H as (j & Hj & Ht & Hb).
    exists (S j). split_and!; [lia| |].
    + rewrite andb_false_r, day_after_S. replace (w + Z.of_nat (S j)) with (w + 1 + Z.of_nat j) by lia. exact Ht.
    + intros [|i] Hi; [by rewrite andb_true_r, Z.add_0_r|].
      rewrite andb_false_r, day_after_S. replace (w + Z.of_nat (S i)) with (w + 1 + Z.of_nat i) by lia.
      apply Hb. lia.
Qed.

Lemma search_none fuel first d w :
  search p z start fuel first d (w mod 7) = Ok None <->
  forall i, (i < fuel)%nat -> try_day (first && Nat.eqb i 0) (day_after i d) ((w + Z.of_nat i) mod 7) = Ok None.
Proof.
  revert first d w. induction fuel as [|fuel IH]; intros first d w; cbn [search]; [split; [intros _ i Hi; lia|done]|].
  split.
  - intros H [|i] Hi; destruct (try_day first d (w mod 7)) as [[b|]|] eqn:E; cbn [res_bind] in H; try discriminate H.
    { cbn [Nat.eqb]. rewrite andb_true_r, Z.add_0_r. exact E. }
    rewrite Zplus_mod_idemp_l, IH in H.
    rewrite andb_false_r, day_after_S. replace (w + Z.of_nat (S i)) with (w + 1 + Z.of_nat i) by lia.
    apply H. lia.
  - intros H. pose proof (H O ltac:(lia)) as H0. cbn [Nat.eqb] in H0. rewrite andb_true_r, Z.add_0_r in H0. change (day_after 0 d) with d in H0. rewrite H0.
    cbn [res_bind]. rewrite Zplus_mod_idemp_l, IH. intros i Hi. specialize (H (S i) ltac:(lia)).
    rewrite andb_false_r, day_after_S in H. replace (w + Z.of_nat (S i)) with (w + 1 + Z.of_nat i) in H by lia. exact H.
Qed.

(** ** The minutes of one day *)

(** The minute is tried: its bits are set and, on the first day, it is after
    the start. *)
Definition minute_tried (first : bool) (h m : Z) : bool :=
  bit (plan_hours p) h && bit (plan_minutes p) m &&
  negb (first && ((h <? hour start) || ((h =? hour start) && (m <=? minute start)))).

Lemma search_day_none first d :
  search_day p z start first d = Ok None <->
  forall h m, 0 <= h < 24 -> 0 <= m < 60 -> minute_tried first h m = true -> try_minute z d h m = Ok None.
Proof.
  unfold search_day. rewrite first_some_none. unfold minute_tried. split.
  - intros H h m Hh Hm Ht. apply andb_prop in Ht as [[Hbh Hbm]%andb_prop Ha%negb_true_iff].
    specialize (H h (proj2 (elem_of_upto h 24) Hh)). rewrite Hbh in H. cbn [negb] in H.
    rewrite first_some_none in H. specialize (H m (proj2 (elem_of_upto m 60) Hm)).
    by rewrite Hbm, Ha in H.
  - intros H h Hh%elem_of_upto. destruct (bit (plan_hours p) h) eqn:Hbh; [cbn [negb]|done].
    apply first_some_none. intros m Hm%elem_of_upto.
    destruct (bit (plan_minutes p) m) eqn:Hbm; [cbn [negb]|done].
    destruct (first && _) eqn:Ha; [done|]. apply H; [lia|lia|]. by rewrite Hbh, Hbm, Ha.
Qed.

Lemma search_day_found first d c :
  search_day p z start first d = Ok (Some c) ->
  exists h m, 0 <= h < 24 /\ 0 <= m < 60 /\ minute_tried first h m = true /\ try_minute z d h m = Ok (Some c) /\
    forall h' m', 0 <= h' < 24 -> 0 <= m' < 60 -> h' * 60 + m' < h * 60 + m -> minute_tried first h' m' = true ->
      try_minute z d h' m' = Ok None.
Proof.
  unfold search_day. intros H. apply first_some_found in H as (hb & h & ha & Eh & Hh & Hhb).
  destruct (upto_split _ _ _ _ Eh) as [Bh Sh].
  destruct (bit (plan_hours p) h) eqn:Hbh; cbn [negb] in Hh; [|done].
  apply first_some_found in Hh as (mb & m & ma & Em & Hm & Hmb).
  destruct (upto_split _ _ _ _ Em) as [Bm Sm].
  destruct (bit (plan_minutes p) m) eqn:Hbm; cbn [negb] in Hm; [|done].
  destruct (first && _) eqn:Ha in Hm; [done|].
  exists h, m. split_and!; [lia..|unfold minute_tried; by rewrite Hbh, Hbm, Ha|done|].
  intros h' m' Bh' Bm' Hlt Ht. unfold minute_tried in Ht.
  apply andb_prop in Ht as [[Hbh' Hbm']%andb_prop Ha'%negb_true_iff].
  destruct (Z.eq_dec h' h) as [->|Hne].
  - assert (m' ∈ mb) as Hin by (apply Sm; lia). apply Hmb in Hin. by rewrite Hbm', Ha' in Hin.
  - assert (h' ∈ hb) as Hin by (apply Sh; lia). apply Hhb in Hin. rewrite Hbh' in Hin. cbn [negb] in Hin.
    rewrite first_some_none in Hin. specialize (Hin m' (proj2 (elem_of_upto m' 60) Bm')).
    by rewrite Hbm', Ha' in Hin.
Qed.

End search.

(** ** Existing minutes *)

(** A local time that reads back as itself. *)
Definition exists_in (z : tzinfo) (l : naive) (t : Z) : Prop :=
  from_wall_clock l z = Ok t /\ wall_clock t z = Ok l.

Lemma try_minute_found z d h m c :
  try_minute z d h m = Ok (Some c) <-> valid_date d = true /\ exists_in z (mk_naive d h m 0 0) c.
Proof.
  unfold try_minute, exists_in. destruct (valid_date d); [|split; [done|by intros [? _]]].
  destruct (from_wall_clock _ z) as [t|]; cbn [res_bind]; [|split; [done|by intros (_ & ? & _)]].
  destruct (wall_clock t z) as [l|] eqn:E; cbn [res_bind].
  - destruct (decide _) as [->|Hne].
    + split; [intros [= ->]; by split_and!|by intros (_ & [= ->] & _)].
    + split; [done|]. intros (_ & [= ->] & H). rewrite E in H. congruence.
  - split; [done|]. intros (_ & [= ->] & H). congruence.
Qed.

(** A whole local minute that matches and exists. *)
Record occurs (f : fields) (z : tzinfo) (l : naive) (t : Z) : Prop := {
  occurs_valid : valid_naive l = true;
  occurs_second : second l = 0;
  occurs_microsecond : microsecond l = 0;
  occurs_matches : matches_local f l = true;
  occurs_exists : exists_in z l t }.

Definition minute_of_day (l : naive) : Z := hour l * 60 + minute l.

Lemma whole_minute f z l t : occurs f z l t -> l = mk_naive (on l) (hour l) (minute l) 0 0.
Proof. intros [_ Hs Hu _ _]. destruct l. cbn in *. by subst. Qed.

Lemma stamp_minute l k :
  second l = 0 -> microsecond l = 0 -> second k = 0 -> microsecond k = 0 ->
  stamp l - stamp k =
  ((recurrence_ordinal (on l) - recurrence_ordinal (on k)) * 1440 + (minute_of_day l - minute_of_day k)) * 60000000.
Proof. unfold stamp, minute_of_day, day_length. lia. Qed.

Section next.
Variables (r : Recurrence).
Hypothesis Hr : built r.

Lemma day_ok_spec d :
  1 <= month d <= 12 -> 1 <= day d <= 31 ->
  day_ok (_plan r) d (weekday d) =
  bool_decide (month d ∈ months (sets r)) && _day_matches (sets r) (day d) (weekday d).
Proof.
  intros Hm Hd. destruct (built_plan r Hr) as (_ & Hp & Edom & Edow). unfold day_ok, _day_matches.
  pose proof (Z.mod_pos_bound (weekday d + 1) 7 ltac:(lia)).
  rewrite (months_bit _ _ Hp), (days_bit _ _ Hp), (weekdays_bit _ _ Hp), Edom, Edow by lia. done.
Qed.

(** A minute of day [d] matches when its day and its time do. *)
Lemma matches_parts start first d h m :
  1 <= month d <= 12 -> 1 <= day d <= 31 -> 0 <= h < 24 -> 0 <= m < 60 ->
  (first = true -> minute_of_day start < h * 60 + m) -> 0 <= minute start < 60 ->
  day_ok (_plan r) d (weekday d) && minute_tried (_plan r) start first h m =
  matches_local (sets r) (mk_naive d h m 0 0).
Proof.
  intros Hmo Hd Hh Hm Hf Hs. rewrite day_ok_spec by done. destruct (built_plan r Hr) as (_ & Hp & _).
  unfold minute_tried, matches_local, matches. cbn [on hour minute].
  rewrite (hours_bit _ _ Hp), (minutes_bit _ _ Hp) by lia.
  assert (first && ((h <? hour start) || ((h =? hour start) && (m <=? minute start))) = false) as ->.
  { destruct first; [|done]. specialize (Hf eq_refl). unfold minute_of_day in Hf. cbn [andb].
    apply orb_false_intro; [apply Z.ltb_ge; lia|]. apply andb_false_iff.
    destruct (Z.eqb_spec h (hour start)) as [->|]; [right|by left]. apply Z.leb_gt. lia. }
  destruct (bool_decide (month d ∈ _)), (bool_decide (h ∈ _)), (bool_decide (m ∈ _)),
    (_day_matches _ _ _); done.
Qed.

Lemma minute_tried_after start h m :
  0 <= h < 24 -> 0 <= minute start < 60 -> 0 <= m ->
  minute_tried (_plan r) start true h m = true -> minute_of_day start < h * 60 + m.
Proof.
  intros Hh Hs Hm [_ Ha%negb_true_iff]%andb_prop. cbn [andb] in Ha.
  apply orb_false_iff in Ha as [H1%Z.ltb_ge H2%andb_false_iff]. unfold minute_of_day.
  destruct H2 as [H2%Z.eqb_neq|H2%Z.leb_gt]; lia.
Qed.

(** What a day holds, when its search finds nothing and when it does. *)
Lemma try_day_none start first d :
  0 <= minute start < 60 -> try_day (_plan r) (tz r) start first d (weekday d) = Ok None ->
  forall k t, on k = d -> occurs (sets r) (tz r) k t ->
    (first = true -> minute_of_day start < minute_of_day k) -> False.
Proof.
  intros Hs H k t <- Ho Hf. pose proof Ho as [Hv _ _ Hma He].
  pose proof Hv as (Hd & Hh & Hm & _)%valid_naive_spec.
  apply valid_date_spec in Hd as (_ & Hmo & Hd). pose proof (month_days_bounds (year (on k)) _ Hmo).
  rewrite (whole_minute _ _ _ _ Ho) in Hma, He.
  rewrite <- (matches_parts start first) in Hma by (done || lia).
  apply andb_prop in Hma as [Hday Htried]. unfold try_day in H. rewrite Hday, search_day_none in H.
  specialize (H _ _ Hh Hm Htried).
  assert (try_minute (tz r) (on k) (hour k) (minute k) = Ok (Some t)) as E.
  { apply try_minute_found. split; [by apply valid_naive_spec in Hv as (? & _)|exact He]. }
  congruence.
Qed.

Lemma try_day_found start first d c :
  0 <= minute start < 60 -> try_day (_plan r) (tz r) start first d (weekday d) = Ok (Some c) ->
  exists l, on l = d /\ occurs (sets r) (tz r) l c /\ (first = true -> minute_of_day start < minute_of_day l) /\
    forall k t, on k = d -> occurs (sets r) (tz r) k t ->
      (first = true -> minute_of_day start < minute_of_day k) -> minute_of_day l <= minute_of_day k.
Proof.
  intros Hs H. unfold try_day in H. destruct (day_ok _ d _) eqn:Hday; [|done].
  apply search_day_found in H as (h & m & Hh & Hm & Ht & Hc & Hmin).
  apply try_minute_found in Hc as [Hd Hex]. pose proof Hd as (_ & Hmo & Hdd)%valid_date_spec.
  pose proof (month_days_bounds (year d) _ Hmo).
  assert (first = true -> minute_of_day start < h * 60 + m) as Haft.
  { intros ->. by apply minute_tried_after; [..|lia|]. }
  exists (mk_naive d h m 0 0). split_and!; [done| |exact Haft|].
  - constructor; [|done|done| |exact Hex].
    + apply valid_naive_spec. cbn. split_and!; (done || lia).
    + rewrite <- (matches_parts start first) by (done || lia). by rewrite Hday, Ht.
  - intros k t <- Ho Hf. destruct (Z.le_gt_cases (h * 60 + m) (minute_of_day k)) as [|Hlt]; [done|exfalso].
    pose proof Ho as [Hv _ _ Hma He]. pose proof Hv as (_ & Hhk & Hmk & _)%valid_naive_spec.
    rewrite (whole_minute _ _ _ _ Ho) in Hma, He.
    rewrite <- (matches_parts start first), Hday in Hma by (done || lia).
    specialize (Hmin _ _ Hhk Hmk Hlt Hma).
    assert (try_minute (tz r) (on k) (hour k) (minute k) = Ok (Some t)) as E by by apply try_minute_found.
    congruence.
Qed.

End next.

(** ** [next_after]: the first occurrence of the wall clock

    The result of the search against its specification: the least existing
    local minute after the start that matches, or none within the days
    searched; and its cache. *)

(** [l] is the first occurrence later than [start] on the wall clock. *)
Definition first_occurrence (f : fields) (z : tzinfo) (start : Z) (l : naive) (t : Z) : Prop :=
  occurs f z l t /\ start < stamp l /\
  forall k u, occurs f z k u -> start < stamp k -> stamp l <= stamp k.

Lemma wall_clock_valid t z l : wall_clock t z = Ok l -> valid_naive l = true.
Proof.
  unfold wall_clock. destruct (in_range _) eqn:E; [|done]. intros [= <-]. by apply of_stamp_spec.
Qed.

Lemma to_minute_valid l : valid_naive l = true -> valid_naive (to_minute l) = true.
Proof. rewrite !valid_naive_spec. cbn. intros (? & ? & ? & ? & ?). split_and!; (done || lia). Qed.

(** A whole minute is after a moment when it is after its minute. *)
Lemma to_minute_after l k :
  valid_naive l = true -> second k = 0 -> microsecond k = 0 ->
  stamp (to_minute l) < stamp k <-> stamp l < stamp k.
Proof.
  intros (_ & _ & _ & Hs & Hu)%valid_naive_spec Hk1 Hk2. unfold stamp, day_length, to_minute.
  cbn [on hour minute second microsecond]. rewrite Hk1, Hk2. lia.
Qed.

Lemma minute_of_day_range l : valid_naive l = true -> 0 <= minute_of_day l < 1440.
Proof. intros (_ & ? & ? & _)%valid_naive_spec. unfold minute_of_day. lia. Qed.

Section next.
Variables (r : Recurrence) (start : naive).
Hypothesis Hr : built r.
Hypothesis Hs : valid_naive start = true /\ second start = 0 /\ microsecond start = 0.

Lemma later_day k t :
  occurs (sets r) (tz r) k t -> stamp start < stamp k ->
  recurrence_ordinal (on start) <= recurrence_ordinal (on k) /\
  (on k = on start -> minute_of_day start < minute_of_day k).
Proof.
  intros [Hv Hk1 Hk2 _ _] Hlt. destruct Hs as (Hvs & H1 & H2).
  pose proof (stamp_minute k start Hk1 Hk2 H1 H2).
  pose proof (minute_of_day_range _ Hv). pose proof (minute_of_day_range _ Hvs). split; [lia|].
  intros E. rewrite E in *. lia.
Qed.

(** The day [k] lies on is visited after as many steps. *)
Lemma day_of k t :
  occurs (sets r) (tz r) k t -> stamp start < stamp k ->
  exists i : nat, day_after i (on start) = on k /\
    recurrence_ordinal (on k) = recurrence_ordinal (on start) + Z.of_nat i.
Proof.
  intros Ho Hlt. destruct (later_day k t Ho Hlt) as [Hle _]. destruct Hs as [Hvs _].
  apply valid_naive_spec in Hvs as [Hd _]. pose proof Ho as [(Hdk & _)%valid_naive_spec _ _ _ _].
  exists (Z.to_nat (recurrence_ordinal (on k) - recurrence_ordinal (on start))).
  split; [by apply day_after_reaches|lia].
Qed.

(** A day that was passed over holds no later occurrence. *)
Lemma passed i k t :
  try_day (_plan r) (tz r) start (true && Nat.eqb i 0) (day_after i (on start))
    ((recurrence_ordinal (on start) + Z.of_nat i) mod 7) = Ok None ->
  occurs (sets r) (tz r) k t -> stamp start < stamp k -> day_after i (on start) = on k -> False.
Proof.
  intros H Ho Hlt E. pose proof Hs as [(Hd & _ & Hm & _)%valid_naive_spec _].
  rewrite weekday_after in H by done. rewrite E in H.
  refine (try_day_none r Hr start _ (on k) Hm H k t eq_refl Ho _).
  destruct i as [|i]; [intros _|done]. apply (later_day k t Ho Hlt). by symmetry.
Qed.

Lemma recurrence_next_found n c :
  recurrence_next start (_plan r) (tz r) n = Ok (Some c) ->
  exists l, first_occurrence (sets r) (tz r) (stamp start) l c /\
    recurrence_ordinal (on l) < recurrence_ordinal (on start) + Z.of_nat n.
Proof.
  unfold recurrence_next. intros H. apply search_found in H as (j & Hj & Ht & Hb).
  pose proof Hs as ((Hd & _ & Hm & _)%valid_naive_spec & H1 & H2).
  rewrite weekday_after in Ht by done.
  destruct (try_day_found r Hr start _ _ c Hm Ht) as (l & El & Ho & Haft & Hmin).
  destruct (day_after_shaped j (on start) Hd) as [_ Hoj]. rewrite <- El in Hoj.
  pose proof Ho as [Hv Hl1 Hl2 _ _]. pose proof (minute_of_day_range _ Hv).
  pose proof (minute_of_day_range start (proj1 Hs)).
  exists l. split; [split_and!; [done| |]|lia].
  - pose proof (stamp_minute l start Hl1 Hl2 H1 H2). destruct j as [|j]; [specialize (Haft eq_refl)|]; lia.
  - intros k u Hk Hlt. destruct (day_of k u Hk Hlt) as (i & Ei & Hoi).
    pose proof Hk as [Hvk Hk1 Hk2 _ _]. pose proof (minute_of_day_range _ Hvk).
    pose proof (stamp_minute l k Hl1 Hl2 Hk1 Hk2).
    destruct (Nat.lt_trichotomy i j) as [Hij|[->|Hij]]; [|rewrite Ei in El|lia].
    + exfalso. by apply (passed i k u (Hb i Hij)).
    + assert (minute_of_day l <= minute_of_day k); [|lia].
      apply (Hmin k u); [by rewrite Ei|done|]. destruct j; [intros _|done].
      apply (later_day k u Hk Hlt). by symmetry.
Qed.

Lemma recurrence_next_none n k t :
  recurrence_next start (_plan r) (tz r) n = Ok None ->
  occurs (sets r) (tz r) k t -> stamp start < stamp k ->
  recurrence_ordinal (on start) + Z.of_nat n <= recurrence_ordinal (on k).
Proof.
  unfold recurrence_next. rewrite search_none. intros H Ho Hlt.
  destruct (day_of k t Ho Hlt) as (i & Ei & Hoi).
  destruct (Nat.lt_ge_cases i n) as [Hi|]; [|lia]. exfalso. by apply (passed i k t (H i Hi)).
Qed.

End next.

(** *** [next_after] *)

Lemma next_after_Ok r t c :
  next_after r t = Ok c -> exists local, wall_clock t (tz r) = Ok local /\
    recurrence_next (to_minute local) (_plan r) (tz r) _SEARCH_DAYS = Ok (Some c).
Proof.
  unfold next_after. destruct (wall_clock t (tz r)) as [l|]; cbn [lift res_bind]; [|done].
  destruct (recurrence_next _ _ _ _) as [[x|]|] eqn:E; cbn [lift res_bind]; try done.
  intros [= ->]. by exists l.
Qed.

Lemma next_after_None r t :
  next_after r t = Err No_occurrence -> exists local, wall_clock t (tz r) = Ok local /\
    recurrence_next (to_minute local) (_plan r) (tz r) _SEARCH_DAYS = Ok None.
Proof.
  unfold next_after. destruct (wall_clock t (tz r)) as [l|]; cbn [lift res_bind]; [|done].
  destruct (recurrence_next _ _ _ _) as [[x|]|] eqn:E; cbn [lift res_bind]; try done. by exists l.
Qed.

Lemma to_minute_start t z l :
  wall_clock t z = Ok l ->
  valid_naive (to_minute l) = true /\ second (to_minute l) = 0 /\ microsecond (to_minute l) = 0.
Proof. intros H%wall_clock_valid. by split; [apply to_minute_valid|]. Qed.

Lemma next_after_first r t c :
  built r -> next_after r t = Ok c ->
  exists local l, wall_clock t (tz r) = Ok local /\ first_occurrence (sets r) (tz r) (stamp local) l c /\
    recurrence_ordinal (on l) < recurrence_ordinal (on local) + Z.of_nat _SEARCH_DAYS.
Proof.
  intros Hr (local & Hl & Hn)%next_after_Ok. pose proof (wall_clock_valid _ _ _ Hl) as Hv.
  apply recurrence_next_found in Hn as (l & (Ho & Hlt & Hmin) & Hd); [|done|by eapply to_minute_start].
  exists local, l. split_and!; [done| |done]. pose proof Ho as [_ H1 H2 _ _]. split_and!; [done| |].
  - by apply (to_minute_after local l).
  - intros k u Hk Hk'. apply (Hmin k u Hk). apply to_minute_after; [done|apply Hk|apply Hk|done].
Qed.

Lemma next_after_none r t local k u :
  built r -> next_after r t = Err No_occurrence -> wall_clock t (tz r) = Ok local ->
  occurs (sets r) (tz r) k u -> stamp local < stamp k ->
  recurrence_ordinal (on local) + Z.of_nat _SEARCH_DAYS <= recurrence_ordinal (on k).
Proof.
  intros Hr (l & Hl & Hn)%next_after_None Hw Ho Hlt. assert (l = local) as -> by congruence.
  apply (recurrence_next_none r (to_minute local) Hr (to_minute_start _ _ _ Hl) _ k u Hn Ho).
  apply to_minute_after; [by eapply wall_clock_valid|apply Ho|apply Ho|done].
Qed.

(** The result is a firing time. *)
Lemma occurs_matches_at r l t : occurs (sets r) (tz r) l t -> matches_at r t = Ok true.
Proof.
  intros [_ _ _ Hm [_ Hw]]. unfold matches_at. rewrite Hw. cbn [res_bind]. by rewrite Hm.
Qed.

(** *** The cache *)

(** Objects that are the same object hold the same time. *)
Definition same_objects (ms : list moment) : Prop :=
  forall m m', m ∈ ms -> m' ∈ ms -> address m = address m' -> at_time m = at_time m'.

Definition cache_ok (r : Recurrence) (cached : cache) (ms : list moment) : Prop :=
  match cached with
  | Some (held, result) =>
    next_after r (at_time held) = Ok result /\
    forall m, m ∈ ms -> address m = address held -> at_time m = at_time held
  | None => True
  end.

Lemma next_calls_spec r cached ms :
  cache_ok r cached ms -> same_objects ms ->
  next_calls r cached ms = map (fun m => next_after r (at_time m)) ms.
Proof.
  revert cached. induction ms as [|m ms IH]; intros cached Hc Hs; [done|]. cbn [next_calls map].
  assert (same_objects ms) as Hs' by (intros a b Ha Hb; apply Hs; by right).
  assert (forall m0 x, cached = Some (m0, x) -> cache_ok r cached ms) as Hk.
  { intros m0 x ->. destruct Hc as [H1 H2]. split; [done|]. intros a Ha. apply H2. by right. }
  assert (cache_ok r cached ms) as Hc' by (destruct cached as [[m0 x]|]; [by eapply Hk|done]).
  assert (forall y, next_after r (at_time m) = Ok y -> cache_ok r (Some (m, y)) ms) as Hnew.
  { intros y E. split; [done|]. intros a Ha. apply Hs; [by right|by left]. }
  unfold next_cached.
  assert (forall out, match next_after r (at_time m) with
     | Ok result => (Ok result, Some (m, result)) | Err e => (Err e, cached) end = out ->
     (let '(result, cached) := out in result :: next_calls r cached ms) =
     next_after r (at_time m) :: map (fun m => next_after r (at_time m)) ms) as Hfresh.
  { intros out <-. destruct (next_after r (at_time m)) as [y|e] eqn:E; rewrite IH; auto. }
  destruct cached as [[held x]|]; [|by apply Hfresh].
  destruct (Z.eqb_spec (address held) (address m)) as [E|_]; [|by apply Hfresh].
  destruct Hc as [H1 H2]. rewrite (H2 m) by (by left || done). rewrite H1, IH; done.
Qed.

(** ** A recurrence keeps occurring

    The search finds an occurrence whenever there is one in its days, and a
    recurrence that names a day of an ordinary year has one within two
    years. *)

(** *** The search raises nothing *)

(** A zone that converts every local minute of the days from [lo] to [hi]. *)
Definition zone_answers (z : tzinfo) (lo hi : Z) : Prop :=
  forall d h m, valid_date d = true -> lo <= recurrence_ordinal d < hi -> 0 <= h < 24 -> 0 <= m < 60 ->
    is_ok (try_minute z d h m) = true.

Lemma first_some_ok {A B} (f : A -> T (option B)) items :
  (forall x, x ∈ items -> is_ok (f x) = true) -> is_ok (first_some f items) = true.
Proof.
  induction items as [|x items IH]; intros H; [done|]. cbn [first_some].
  assert (is_ok (f x) = true) as Hx by (apply H; left).
  destruct (f x) as [[b|]|]; [done| |done]. cbn [res_bind]. apply IH. intros y Hy. apply H. by right.
Qed.

Lemma try_day_ok p z start first d w :
  (forall h m, 0 <= h < 24 -> 0 <= m < 60 -> is_ok (try_minute z d h m) = true) ->
  is_ok (try_day p z start first d w) = true.
Proof.
  intros H. unfold try_day. destruct (day_ok _ _ _); [|done]. unfold search_day.
  apply first_some_ok. intros h Hh%elem_of_upto. destruct (negb _); [done|].
  apply first_some_ok. intros m Hm%elem_of_upto. destruct (negb _); [done|]. destruct (first && _); [done|].
  apply H; lia.
Qed.

Lemma search_ok p z start fuel first d w :
  valid_date d = true -> recurrence_ordinal d + Z.of_nat fuel <= ordinal_limit ->
  zone_answers z (recurrence_ordinal d) (recurrence_ordinal d + Z.of_nat fuel) ->
  is_ok (search p z start fuel first d w) = true.
Proof.
  revert first d w. induction fuel as [|fuel IH]; intros first d w Hd Hl Ha; [done|]. cbn [search].
  assert (is_ok (try_day p z start first d w) = true) as Ht.
  { apply try_day_ok. intros h m Hh Hm. apply Ha; [done|lia|done|done]. }
  destruct (try_day p z start first d w) as [[c|]|]; [done|cbn [res_bind]|done].
  destruct fuel as [|fuel]; [done|]. destruct (advance_valid d Hd) as [Ho Hv].
  apply IH; [apply Hv; lia|lia|]. intros e h m He Hr. apply Ha; [done|lia].
Qed.

Lemma next_after_answers r t local :
  wall_clock t (tz r) = Ok local -> recurrence_ordinal (on local) + Z.of_nat _SEARCH_DAYS <= ordinal_limit ->
  zone_answers (tz r) (recurrence_ordinal (on local)) (recurrence_ordinal (on local) + Z.of_nat _SEARCH_DAYS) ->
  next_after r t = Err No_occurrence \/ exists c, next_after r t = Ok c.
Proof.
  intros Hw Hl Ha. pose proof (wall_clock_valid _ _ _ Hw) as (Hd & _)%valid_naive_spec.
  unfold next_after. rewrite Hw. cbn [lift res_bind]. unfold recurrence_next, to_minute at 2 3. cbn [on].
  pose proof (search_ok (_plan r) (tz r) (to_minute local) _SEARCH_DAYS true (on local)
    (recurrence_ordinal (on local) mod 7) Hd Hl Ha) as Hok.
  destruct (search _ _ _ _ _ _ _) as [[c|]|]; [right; by exists c|by left|done].
Qed.

(** *** Zones of a fixed offset *)

Lemma wall_clock_fixed t o :
  wall_clock t (fixed_offset o) = if in_range (t + o) then Ok (of_stamp (t + o)) else Err OverflowError.
Proof. done. Qed.

Lemma in_range_spec n : in_range n = true <-> 0 <= n < ordinal_limit * day_length.
Proof. unfold in_range. rewrite andb_true_iff, Z.leb_le, Z.ltb_lt. done. Qed.

Lemma from_wall_clock_fixed l o :
  from_wall_clock l (fixed_offset o) = if in_range (stamp l - o) then Ok (stamp l - o) else Err OverflowError.
Proof.
  unfold from_wall_clock, to_utc. cbn [offset_first offset_second fixed_offset].
  destruct (in_range _); [|done]. cbn [res_bind]. by rewrite Z.ltb_irrefl.
Qed.

Lemma exists_fixed l o :
  valid_naive l = true -> in_range (stamp l - o) = true -> exists_in (fixed_offset o) l (stamp l - o).
Proof.
  intros Hl Hr. unfold exists_in. rewrite from_wall_clock_fixed, wall_clock_fixed, Hr.
  rewrite Z.sub_add, stamp_range by done. split; [done|]. f_equal.
  destruct (of_stamp_spec (stamp l)) as [Hv Hs]; [by apply stamp_range|]. by apply stamp_inj.
Qed.

Lemma stamp_bounds l :
  valid_naive l = true ->
  recurrence_ordinal (on l) * day_length <= stamp l < (recurrence_ordinal (on l) + 1) * day_length.
Proof. intros (_ & Hh & Hm & Hs & Hu)%valid_naive_spec. unfold stamp, day_length. lia. Qed.

Lemma fixed_in_range l o :
  -day_length < o < day_length -> valid_naive l = true ->
  1 <= recurrence_ordinal (on l) < ordinal_limit - 1 -> in_range (stamp l - o) = true.
Proof.
  intros Ho Hl Hr. pose proof (stamp_bounds l Hl). apply in_range_spec. unfold day_length in *. lia.
Qed.

Lemma fixed_answers o lo hi :
  -day_length < o < day_length -> 1 <= lo -> hi <= ordinal_limit - 1 -> zone_answers (fixed_offset o) lo hi.
Proof.
  intros Ho Hlo Hhi d h m Hd Hr Hh Hm.
  assert (valid_naive (mk_naive d h m 0 0) = true) as Hv.
  { apply valid_naive_spec. cbn. split_and!; (done || lia). }
  assert (try_minute (fixed_offset o) d h m = Ok (Some (stamp (mk_naive d h m 0 0) - o))) as ->; [|done].
  apply try_minute_found. split; [done|]. apply exists_fixed; [done|]. apply fixed_in_range; [done|done|]. cbn. lia.
Qed.

(** *** A day of next year *)

(** A month has a day of an ordinary year, or a weekday, that is asked for. *)
Definition satisfiable (f : fields) : Prop :=
  exists m, m ∈ months f /\
    if weekdays_restricted f then exists w, w ∈ weekdays f
    else exists d, d ∈ days f /\ d <= recurrence_month_days 2001 m.

Lemma full_set low high s v :
  bounded low high s -> low <= high + 1 -> size s = Z.to_nat (high + 1 - low) -> low <= v <= high -> v ∈ s.
Proof.
  intros Hb Hle Hs Hv.
  set (u := list_to_set (map (fun i => low + i) (upto (Z.to_nat (high + 1 - low)))) : gset Z).
  assert (forall x, x ∈ u <-> low <= x <= high) as Hu.
  { intros x. unfold u. rewrite elem_of_list_to_set, list_elem_of_fmap. split.
    - intros (i & -> & Hi%elem_of_upto). lia.
    - intros Hx. exists (x - low). split; [lia|]. apply elem_of_upto. lia. }
  assert (s ⊆ u) as Hsub by (intros x Hx; by apply Hu, Hb).
  assert (size u <= size s)%nat as Hsz.
  { unfold u. rewrite Hs, size_list_to_set; [unfold upto; by rewrite !length_map, length_seq|].
    assert (Inj (=) (=) (fun i => low + i)) by (intros x y Hxy; lia).
    unfold upto. apply (NoDup_fmap_2 (fun i => low + i)), (NoDup_fmap_2 Z.of_nat), NoDup_seq. }
  rewrite (set_subseteq_size_eq s u Hsub Hsz). by apply Hu.
Qed.

(** The date of month [m] in year [y] whose weekday is [w] in cron's count. *)
Definition weekday_in (y m w : Z) : date :=
  mk_date y m (1 + (w - 1 - weekday (mk_date y m 1)) mod 7).

Lemma weekday_in_spec y m w :
  0 <= w < 7 -> (weekday (weekday_in y m w) + 1) mod 7 = w.
Proof.
  intros Hw. unfold weekday_in, weekday. rewrite !ordinal_parts. cbn [year month day]. euclid.
Qed.

Lemma month_days_ordinary y m : 1 <= m <= 12 -> recurrence_month_days 2001 m <= recurrence_month_days y m.
Proof.
  intros Hm. unfold recurrence_month_days. destruct (recurrence_leap y); month_cases m; apply Z.leb_le; reflexivity.
Qed.

(** A satisfiable recurrence names a day of every year. *)
Lemma day_of_year f y :
  fields_bounded f -> satisfiable f -> 1 <= y <= MAXYEAR ->
  exists d, valid_date d = true /\ year d = y /\
    bool_decide (month d ∈ months f) && _day_matches f (day d) (weekday d) = true.
Proof.
  intros (_ & _ & Bd & Bm & Bw) (m & Hm & H) Hy. pose proof (Bm m Hm) as Hmr.
  pose proof (month_days_bounds y m Hmr). unfold _day_matches.
  destruct (weekdays_restricted f) eqn:Ew; [destruct H as [w Hw]|destruct H as (d & Hd & Hle)].
  - pose proof (Bw w Hw). exists (weekday_in y m w).
    assert (valid_date (weekday_in y m w) = true) as Hv.
    { apply valid_date_spec. unfold weekday_in. cbn [year month day].
      pose proof (Z.mod_pos_bound (w - 1 - weekday (mk_date y m 1)) 7). lia. }
    split_and!; [done|done|]. rewrite weekday_in_spec by lia. rewrite andb_true_r.
    rewrite (bool_decide_eq_true_2 _ Hm), (bool_decide_eq_true_2 _ Hw). cbn [andb].
    destruct (days_restricted f) eqn:Ed; [by rewrite orb_true_r|]. rewrite andb_true_r. apply bool_decide_eq_true_2.
    apply (full_set 1 31); [done|lia| |].
    { unfold days_restricted in Ed. by apply negb_false_iff, Nat.eqb_eq in Ed. }
    apply valid_date_spec in Hv. cbn in *. lia.
  - exists (mk_date y m d). pose proof (month_days_ordinary y m Hmr). pose proof (Bd d Hd).
    split_and!; [apply valid_date_spec; cbn; lia|done|]. rewrite andb_false_r. cbn [month day].
    rewrite (bool_decide_eq_true_2 _ Hm), (bool_decide_eq_true_2 _ Hd). apply bool_decide_eq_true_2.
    apply (full_set 0 6); [done|lia| |].
    { unfold weekdays_restricted in Ew. by apply negb_false_iff, Nat.eqb_eq in Ew. }
    pose proof (Z.mod_pos_bound (weekday (mk_date y m d) + 1) 7). lia.
Qed.

Lemma matches_local_parts f l :
  matches_local f l =
  (bool_decide (minute l ∈ minutes f) && bool_decide (hour l ∈ hours f)) &&
  (bool_decide (month (on l) ∈ months f) && _day_matches f (day (on l)) (weekday (on l))).
Proof.
  unfold matches_local, matches.
  by destruct (bool_decide (minute l ∈ _)), (bool_decide (hour l ∈ _)), (bool_decide (month (on l) ∈ _)).
Qed.

Lemma next_year d e :
  valid_date d = true -> valid_date e = true -> year e = year d + 1 ->
  recurrence_ordinal d < recurrence_ordinal e <= recurrence_ordinal d + 731.
Proof.
  intros (_ & Hm & Hd)%valid_date_spec (_ & Hm' & Hd')%valid_date_spec E.
  pose proof (ordinal_in_year d Hm Hd). pose proof (ordinal_in_year e Hm' Hd').
  rewrite E in *. pose proof (year_start_next (year d)). pose proof (year_start_next (year d + 1)).
  destruct (recurrence_leap (year d)), (recurrence_leap (year d + 1)); lia.
Qed.

Lemma ordinal_of_year d :
  valid_date d = true -> year_start (year d) <= recurrence_ordinal d < year_start (year d + 1).
Proof. intros (_ & Hm & Hd)%valid_date_spec. by apply ordinal_in_year. Qed.

(** An occurrence within two years, in a zone of fixed offset. *)
Lemma occurs_next_year r o local :
  built r -> tz r = fixed_offset o -> -day_length < o < day_length ->
  satisfiable (sets r) -> minutes (sets r) <> ∅ -> hours (sets r) <> ∅ ->
  valid_naive local = true -> 2 <= year (on local) <= 9990 ->
  exists k u, occurs (sets r) (tz r) k u /\ stamp local < stamp k /\
    recurrence_ordinal (on k) <= recurrence_ordinal (on local) + 731.
Proof.
  intros Hr Ez Ho Hsat Hmi Hh Hl Hy. destruct (built_plan r Hr) as (Hb & _).
  apply set_choose_L in Hmi as [mi Hmi]. apply set_choose_L in Hh as [h Hh].
  pose proof Hb as (Bmi & Bh & _). pose proof (Bmi mi Hmi). pose proof (Bh h Hh).
  destruct (day_of_year (sets r) (year (on local) + 1) Hb Hsat) as (d & Hd & Ey & Hdm); [unfold MAXYEAR; lia|].
  pose proof Hl as (Hdl & _)%valid_naive_spec.
  pose proof (next_year (on local) d Hdl Hd Ey) as Hn. pose proof (ordinal_range (on local) Hdl).
  pose proof (ordinal_of_year d Hd) as Hoy. rewrite Ey in Hoy.
  pose proof (year_start_mono (year (on local) + 1 + 1) 9992 ltac:(lia)) as Hmono.
  change (year_start 9992) with 3649137 in Hmono.
  assert (valid_naive (mk_naive d h mi 0 0) = true) as Hv.
  { apply valid_naive_spec. cbn. split_and!; (done || lia). }
  exists (mk_naive d h mi 0 0), (stamp (mk_naive d h mi 0 0) - o). split_and!.
  - constructor; [done|done|done| |rewrite Ez; apply exists_fixed; [done|apply fixed_in_range; [done|done|]]].
    + rewrite matches_local_parts. cbn [on hour minute]. rewrite Hdm.
      by rewrite (bool_decide_eq_true_2 _ Hmi), (bool_decide_eq_true_2 _ Hh).
    + cbn [on]. unfold ordinal_limit. lia.
  - pose proof (stamp_bounds local Hl). pose proof (stamp_bounds _ Hv) as Hk. cbn [on] in Hk.
    unfold day_length in *. lia.
  - cbn [on]. lia.
Qed.
