(* ===== verification/TemporalClaims.v ===== *)
(** * What the texts of a recurrence read to

    The sets an accepted text names are not empty and lie within the bounds of
    their fields, so the native plan takes them; and every such recurrence has
    a cron expression. *)

From stdpp Require Import base sets strings numbers list gmap.
From Stdlib Require Import ZArith Lia.
From S2P Require Import Prelude PyCollections PrivacyGraph PyText Temporal RecurrenceText Recurrence.
From S2P Require Import RecurrenceSearch.
#[local] Open Scope Z_scope.

(** ** Ranges and loops *)

Lemma elem_of_pyrange v a b s :
  0 < s -> v ∈ pyrange a b s <-> exists k, 0 <= k /\ v = a + k * s /\ v < b.
Proof.
  intros Hs. unfold pyrange. rewrite list_elem_of_fmap. split.
  - intros (k & -> & Hk%elem_of_seq). exists (Z.of_nat k). split_and!; [lia|done|].
    pose proof (Z.mul_div_le (b - a + s - 1) s Hs). nia.
  - intros (k & Hk & -> & Hlt). exists (Z.to_nat k). split; [lia|]. apply elem_of_seq.
    assert (k + 1 <= (b - a + s - 1) / s) by (apply Z.div_le_lower_bound; lia). lia.
Qed.

Lemma elem_of_every v a b : v ∈ every a b <-> a <= v < b.
Proof.
  unfold every. rewrite elem_of_list_to_set, elem_of_pyrange by lia. split.
  - intros (k & Hk & -> & Hlt). lia.
  - intros Hv. exists (v - a). lia.
Qed.

Lemma collect_inv {A B} (f : B -> A -> R B) (P Q : B -> Prop) acc items out :
  P acc -> (forall acc item acc', P acc -> f acc item = Ok acc' -> P acc' /\ Q acc') ->
  collect f acc items = Ok out -> P out /\ (items <> [] -> Q out).
Proof.
  intros Ha Hf. revert acc Ha. induction items as [|item items IH]; intros acc Ha; cbn [collect].
  - by intros [= <-].
  - intros H. apply res_bind_Ok in H as (acc' & E & H). apply Hf in E as [HP HQ]; [|done].
    destruct (IH acc' HP H) as [HP' HQ']. split; [done|]. intros _.
    destruct items; [by injection H as <-|by apply HQ'].
Qed.

Lemma split_on_nonempty sep s : split_on sep s <> [].
Proof. destruct s as [|c s]; cbn; [done|]. destruct (c =? sep); [done|]. by destruct (split_on sep s). Qed.

(** A set a field may hold. *)
Definition fits (low high : Z) (s : gset Z) : Prop := bounded low high s /\ s <> ∅.

Lemma fits_every low high : low <= high -> fits low high (every low (high + 1)).
Proof.
  intros Hle. split; [intros v Hv%elem_of_every; lia|]. intros E.
  assert (low ∈ every low (high + 1)) as H by (apply elem_of_every; lia). rewrite E in H. set_solver.
Qed.

Section texts.
Context {U : UnicodeData} {C : CaseData}.

(** ** Cron fields *)

Lemma cron_part_step part low high a b s : cron_part part low high = Ok (a, b, s) -> 1 <= s.
Proof.
  unfold cron_part. intros H. apply res_bind_Ok in H as ([body step] & Hs & H).
  assert (1 <= step) as Hstep.
  { destruct (partition_on 47 part) as [[x y]|]; [|by injection Hs as _ <-].
    apply res_bind_Ok in Hs as (n & _ & Hs). destruct (Z.ltb_spec n 1); [done|]. by injection Hs as _ <-. }
  destruct (decide _); [by injection H as _ _ <-|].
  destruct (partition_on 45 body) as [[x y]|].
  - apply res_bind_Ok in H as (? & _ & H). apply res_bind_Ok in H as (? & _ & H). by injection H as _ _ <-.
  - apply res_bind_Ok in H as (? & _ & H). by injection H as _ _ <-.
Qed.

Lemma cron_values_fits low high values part out :
  bounded low high values -> cron_values low high values part = Ok out -> bounded low high out /\ out <> ∅.
Proof.
  intros Hb. unfold cron_values. destruct (cron_part part low high) as [[[a b] s]|] eqn:E; [|done].
  apply cron_part_step in E. destruct (_ || _) eqn:Hr; [done|]. intros [= <-].
  rewrite !orb_false_iff, !Z.ltb_ge in Hr. split.
  - intros v. rewrite elem_of_union, elem_of_list_to_set, elem_of_pyrange by lia.
    intros [Hv|(k & Hk & -> & Hv)]; [by apply Hb|nia].
  - assert (a ∈ pyrange a (b + 1) s) as Ha by (apply elem_of_pyrange; [lia|exists 0; lia]). set_solver.
Qed.

Lemma bounded_empty low high : bounded low high ∅.
Proof. intros v Hv. set_solver. Qed.

Lemma parse_cron_field_fits field low high (wrap : bool) s :
  0 <= low -> (if wrap then low = 0 /\ high = 6 else True) ->
  _parse_cron_field field low high wrap = Ok s -> fits low high s.
Proof.
  intros Hl Hw H. unfold _parse_cron_field in H. apply res_bind_Ok in H as (values & Hc & H).
  eapply collect_inv with (P := (bounded low (if wrap then 7 else high))) (Q := fun s : gset Z => s <> ∅) in Hc as [Hb Hne];
    [|apply bounded_empty|intros acc item acc'; apply cron_values_fits].
  specialize (Hne (split_on_nonempty _ _)). injection H as <-. destruct wrap; [|by split].
  destruct Hw as [-> ->]. split.
  - intros v (x & -> & Hx%Hb)%elem_of_map. destruct (Z.eqb_spec x 7); lia.
  - apply set_choose_L in Hne as [x Hx]. intros E.
    assert ((if x =? 7 then 0 else x) ∈ set_map (D := gset Z) (fun v => if v =? 7 then 0 else v) values) as Hi
      by (apply elem_of_map; by exists x).
    rewrite E in Hi. set_solver.
Qed.

(** The five sets of a recurrence text. *)
Definition fields_fit (f : fields) : Prop :=
  fits 0 59 (minutes f) /\ fits 0 23 (hours f) /\ fits 1 31 (days f) /\ fits 1 12 (months f) /\
  fits 0 6 (weekdays f).

Lemma fields_fit_bounded f : fields_fit f -> fields_bounded f.
Proof. intros ([? _] & [? _] & [? _] & [? _] & [? _]). by split_and!. Qed.

Lemma cron_fields_fit e f : cron_fields e = Ok f -> fields_fit f.
Proof.
  unfold cron_fields. intros H. destruct (words [] e) as [|m [|h [|d [|mo [|w [|]]]]]]; try done.
  apply res_bind_Ok in H as (a & Ha%parse_cron_field_fits & H); [|lia|done].
  apply res_bind_Ok in H as (b & Hb%parse_cron_field_fits & H); [|lia|done].
  apply res_bind_Ok in H as (c & Hc%parse_cron_field_fits & H); [|lia|done].
  apply res_bind_Ok in H as (g & Hg%parse_cron_field_fits & H); [|lia|done].
  apply res_bind_Ok in H as (i & Hi%parse_cron_field_fits & H); [|lia|done].
  injection H as <-. by split_and!.
Qed.

(** ** Calendar parts *)

Definition fits_option (low high : Z) (s : option (gset Z)) : Prop :=
  match s with Some s => fits low high s | None => True end.

Lemma calendar_part_fits parts name low high s :
  calendar_part parts name low high = Ok s -> fits_option low high s.
Proof.
  unfold calendar_part. destruct (dget parts name) as [value|]; [|by intros [= <-]].
  intros H. apply res_bind_Ok in H as (t & Ht & H). injection H as <-.
  unfold _calendar_numbers in Ht. destruct (decide _); [done|].
  eapply collect_inv with (P := (bounded low high)) (Q := fun s : gset Z => s <> ∅) in Ht as [Hb Hne]; [|apply bounded_empty|].
  - split; [done|]. apply Hne, split_on_nonempty.
  - intros acc item acc' Hacc E. apply res_bind_Ok in E as (? & _ & E).
    destruct (_ && _) eqn:Hrange; [|done]. injection E as <-. split; [|set_solver].
    intros v [Hv| ->%elem_of_singleton]%elem_of_union; [by apply Hacc|lia].
Qed.

Lemma calendar_weekdays_fits parts s : calendar_weekdays parts = Ok s -> fits_option 0 6 s.
Proof.
  unfold calendar_weekdays. destruct (dget parts _) as [value|]; [|by intros [= <-]].
  destruct (decide _); [done|]. intros H. apply res_bind_Ok in H as (t & Ht & H). injection H as <-.
  eapply collect_inv with (P := (bounded 0 6)) (Q := fun s : gset Z => s <> ∅) in Ht as [Hb Hne]; [|apply bounded_empty|].
  - split; [done|]. apply Hne, split_on_nonempty.
  - intros acc item acc' Hacc E. destruct (dget _ _) as [x|] eqn:Hx; [|done]. injection E as <-.
    split; [|set_solver]. intros v [Hv| ->%elem_of_singleton]%elem_of_union; [by apply Hacc|].
    apply dget_elem in Hx. unfold _CALENDAR_DAYS in Hx. rewrite !elem_of_cons in Hx.
    destruct Hx as [[= _ ->]|[[= _ ->]|[[= _ ->]|[[= _ ->]|[[= _ ->]|[[= _ ->]|[[= _ ->]|Hx]]]]]]]; try lia.
    by apply elem_of_nil in Hx.
Qed.

Lemma calendar_step_fits span interval s :
  0 < span -> _calendar_step span interval = Ok s -> fits 0 (span - 1) s.
Proof.
  intros Hs. unfold _calendar_step. destruct (Z.ltb_spec interval 1); [done|].
  destruct (negb _); [done|]. intros [= <-]. split.
  - intros v. rewrite elem_of_list_to_set, elem_of_pyrange by lia. intros (k & Hk & -> & Hv). nia.
  - assert (0 ∈ pyrange 0 span interval) as H0 by (apply elem_of_pyrange; [lia|exists 0; lia]). set_solver.
Qed.

Lemma or_else_fits low high s (d : R (gset Z)) t :
  fits_option low high s -> (forall u, d = Ok u -> fits low high u) -> or_else s d = Ok t -> fits low high t.
Proof.
  intros Hs Hd. unfold or_else. destruct s as [s|]; [|apply Hd].
  destruct (decide (s = ∅)); [apply Hd|]. by intros [= <-].
Qed.

Lemma fits_zero high : 0 <= high -> fits 0 high {[0]}.
Proof. intros Hh. split; [intros v ->%elem_of_singleton; lia|set_solver]. Qed.

Lemma calendar_times_fits freq interval mi h md wd m h' :
  fits_option 0 59 mi -> fits_option 0 23 h -> calendar_times freq interval mi h md wd = Ok (m, h') ->
  fits 0 59 m /\ fits_option 0 23 h'.
Proof.
  intros Hmi Hh. unfold calendar_times.
  assert (forall u, Ok (E := recurrence_error) {[0]} = Ok u -> fits 0 59 u) as Z59.
  { intros u [= <-]. by apply fits_zero. }
  assert (forall u, Ok (E := recurrence_error) {[0]} = Ok u -> fits 0 23 u) as Z23.
  { intros u [= <-]. by apply fits_zero. }
  destruct (decide _) as [_|_]; [|destruct (decide _) as [_|_]; [|destruct (text_in _ _); [|done]; destruct (negb _); [done|]]];
    intros H; apply res_bind_Ok in H as (a & Ha & H).
  - apply or_else_fits with (low := 0) (high := 59) in Ha; [|done|]; [by injection H as <- <-|].
    intros u. by apply calendar_step_fits.
  - apply res_bind_Ok in H as (b & Hb & H). injection H as <- <-. split; [by eapply or_else_fits|].
    eapply or_else_fits; [done| |done]. intros u. by apply calendar_step_fits.
  - apply res_bind_Ok in H as (b & Hb & H). destruct (_ && _); [done|]. destruct (_ && _); [done|].
    injection H as <- <-. split; by eapply or_else_fits.
Qed.

Lemma fits_default low high d s : fits_option low high s -> fits low high d -> fits low high (default d s).
Proof. by destruct s. Qed.

Lemma calendar_fields_fit parts f : _calendar_fields parts = Ok f -> fields_fit f.
Proof.
  unfold _calendar_fields. destruct (calendar_refused parts); [done|].
  destruct (bool_decide _); [done|]. destruct (decide _); [done|]. intros H.
  apply res_bind_Ok in H as (interval & _ & H).
  apply res_bind_Ok in H as (mi & Hmi%calendar_part_fits & H).
  apply res_bind_Ok in H as (h & Hh%calendar_part_fits & H).
  apply res_bind_Ok in H as (md & Hmd%calendar_part_fits & H).
  apply res_bind_Ok in H as (mo & Hmo%calendar_part_fits & H).
  apply res_bind_Ok in H as (wd & Hwd%calendar_weekdays_fits & H).
  apply res_bind_Ok in H as ([m h'] & [Hm Hh']%calendar_times_fits & H); [|done|done].
  injection H as <-. unfold fields_fit. cbn [minutes hours days months weekdays].
  split_and!; [done|..]; (apply fits_default; [done|]).
  - by apply (fits_every 0 23).
  - by apply (fits_every 1 31).
  - by apply (fits_every 1 12).
  - by apply (fits_every 0 6).
Qed.

Lemma calendar_recurrence_fit text f : calendar_recurrence text = Ok f -> fields_fit f.
Proof. intros H. apply res_bind_Ok in H as (parts & _ & H). by apply calendar_fields_fit in H. Qed.

End texts.

Example cron_weekdays :
  match cron_fields (bs "*/20 3 1-5,31 * 7") with
  | Ok f => bool_decide (elements (minutes f) ≡ₚ [0; 20; 40]) && bool_decide (elements (days f) ≡ₚ [1; 2; 3; 4; 5; 31])
            && bool_decide (weekdays f = {[0]})
  | Err _ => false
  end = true.
Proof. vm_compute. reflexivity. Qed.

Example cron_small_step : cron_fields (bs "*/0 * * * *") = Err (E_number (bs "cron field") (bs "*/0")).
Proof. vm_compute. reflexivity. Qed.

(** ** Every recurrence has a cron expression

    [cron_text] writes five sets as comma lists; [cron] reads them back.  With
    the bounds of [TemporalClaims] this makes the calendar spelling and
    the cron spelling two forms of the same sets. *)

Definition field_text (s : gset Z) : pystr := str_join (bs ",") (map str_of_Z (elements s)).

Definition cron_text (f : fields) : pystr :=
  str_join (bs " ")
    [field_text (minutes f); field_text (hours f); field_text (days f); field_text (months f);
     field_text (weekdays f)].

(** *** Digits *)

Lemma digit_ascii c : is_ascii_digit c = true -> is_ascii c = true.
Proof. unfold is_ascii_digit, is_ascii. lia. Qed.

Section texts.
Context {U : UnicodeData} {L : UnicodeLaws U}.

Lemma int_blank_digit c : is_ascii_digit c = true -> int_blank c = false.
Proof. intros Hc. unfold int_blank. rewrite digit_ascii by done. unfold is_ascii_digit in Hc. lia. Qed.

Lemma drop_blank_digits s : forallb is_ascii_digit s = true -> drop_blank s = s.
Proof. destruct s as [|c s]; cbn; [done|]. intros [Hc _]%andb_prop. by rewrite int_blank_digit. Qed.

Lemma int_digits_digits after s :
  forallb is_ascii_digit s = true -> s <> [] \/ after = true -> int_digits after s = Some s.
Proof.
  revert after. induction s as [|c s IH]; intros after Hs Ha; cbn [int_digits].
  { destruct Ha as [?| ->]; done. }
  cbn [forallb] in Hs. apply andb_prop in Hs as [Hc Hs].
  assert (c =? 95 = false) as -> by (unfold is_ascii_digit in Hc; lia).
  rewrite (decimal_ascii c Hc), (IH true) by auto. done.
Qed.

Lemma decimals_value_digits acc s :
  forallb is_ascii_digit s = true -> decimals_value acc s = Some (digits_value acc s).
Proof.
  revert acc. induction s as [|c s IH]; intros acc Hs; cbn [decimals_value digits_value]; [done|].
  cbn [forallb] in Hs. apply andb_prop in Hs as [Hc Hs]. by rewrite (decimal_ascii c Hc), IH.
Qed.

(** [int(str(n)) == n]. *)
Lemma py_int_str n : 0 <= n < 100 -> py_int (str_of_Z n) = Some n.
Proof.
  intros Hn. destruct (str_of_Z_digits n ltac:(lia)) as (d & ds & E & Hd & Hv & _ & Hp).
  rewrite E. unfold py_int. rewrite (drop_blank_digits _ Hd), drop_blank_digits by by rewrite forallb_rev.
  rewrite rev_involutive. pose proof Hd as Hd'. cbn [forallb] in Hd'. apply andb_prop in Hd' as [Hc _].
  assert (c45 : d =? 45 = false) by (unfold is_ascii_digit in Hc; lia).
  assert (c43 : d =? 43 = false) by (unfold is_ascii_digit in Hc; lia). rewrite c45, c43.
  unfold int_unsigned, int_of_digits. rewrite int_digits_digits by (done || by left).
  assert (4300 <? zlen (d :: ds) = false) as ->.
  { apply Z.ltb_ge. rewrite zlen_cons. destruct (Z.le_gt_cases n 0) as [H0|H0].
    - assert (n = 0) as -> by lia. vm_compute in E. injection E as _ <-. unfold zlen. cbn. lia.
    - specialize (Hp H0). destruct (Z.le_gt_cases (zlen ds) 2); [lia|].
      pose proof (Z.pow_le_mono_r 10 2 (zlen ds) ltac:(lia) ltac:(lia)). lia. }
  by rewrite decimals_value_digits, Hv.
Qed.

(** *** Separators *)

Definition without (c : Z) (s : pystr) : bool := forallb (fun x => negb (x =? c)) s.

Lemma digits_without c s : is_ascii_digit c = false -> forallb is_ascii_digit s = true -> without c s = true.
Proof.
  intros Hc. unfold without. rewrite !forallb_forall. intros H x Hx. specialize (H x Hx).
  destruct (Z.eqb_spec x c) as [->|]; [congruence|done].
Qed.

Lemma partition_without c s : without c s = true -> partition_on c s = None.
Proof.
  induction s as [|x s IH]; cbn; [done|]. intros [->%negb_true_iff Hs]%andb_prop. by rewrite IH.
Qed.

Lemma split_on_app c p s : without c p = true -> split_on c (p ++ c :: s) = p :: split_on c s.
Proof.
  induction p as [|x p IH]; cbn; [by rewrite Z.eqb_refl|].
  intros [->%negb_true_iff Hp]%andb_prop. by rewrite IH.
Qed.

Lemma split_on_without c p : without c p = true -> split_on c p = [p].
Proof. induction p as [|x p IH]; cbn; [done|]. intros [->%negb_true_iff Hp]%andb_prop. by rewrite IH. Qed.

Lemma split_join c (ps : list pystr) :
  ps <> [] -> forallb (without c) ps = true -> split_on c (str_join [c] ps) = ps.
Proof.
  induction ps as [|p ps IH]; [done|]. intros _ [Hp Hps]%andb_prop.
  destruct ps as [|q ps]; [by apply split_on_without|].
  change (str_join [c] (p :: q :: ps)) with (p ++ c :: str_join [c] (q :: ps)).
  by rewrite split_on_app, IH.
Qed.

(** *** Words *)

Definition word (s : pystr) : bool := forallb (fun c => is_ascii_digit c || (c =? 44)) s.

Lemma word_blank c : is_ascii_digit c || (c =? 44) = true -> isspace c = false.
Proof.
  intros Hc. unfold is_ascii_digit in Hc. rewrite isspace_ascii by (unfold is_ascii; lia). unfold ascii_blank. lia.
Qed.

Lemma words_word current w rest :
  word w = true -> current ++ w <> [] -> words current (w ++ 32 :: rest) = (rev current ++ w) :: words [] rest.
Proof.
  revert current. induction w as [|c w IH]; intros current Hw Hne; cbn [words app].
  - rewrite !app_nil_r in *. rewrite isspace_ascii by done. cbn [ascii_blank].
    change (ascii_blank 32) with true. cbn iota. by rewrite decide_False.
  - cbn [word forallb] in Hw. apply andb_prop in Hw as [Hc Hw]. rewrite (word_blank c Hc).
    rewrite IH by done. cbn [rev]. by rewrite <- app_assoc.
Qed.

Lemma words_last current w : word w = true -> current ++ w <> [] -> words current w = [rev current ++ w].
Proof.
  revert current. induction w as [|c w IH]; intros current Hw Hne; cbn [words].
  - rewrite app_nil_r in *. by rewrite decide_False.
  - cbn [word forallb] in Hw. apply andb_prop in Hw as [Hc Hw]. rewrite (word_blank c Hc).
    rewrite IH by done. cbn [rev]. by rewrite <- app_assoc.
Qed.

Lemma str_of_Z_shape n : 0 <= n -> str_of_Z n <> [] /\ forallb is_ascii_digit (str_of_Z n) = true.
Proof. intros Hn. by destruct (str_of_Z_digits n Hn) as (d & ds & -> & Hd & _). Qed.

Lemma join_word ps :
  forallb (forallb is_ascii_digit) ps = true -> word (str_join [44] ps) = true.
Proof.
  assert (forall p, forallb is_ascii_digit p = true -> word p = true) as Hw.
  { unfold word. intros p. rewrite !forallb_forall. intros H x Hx. by rewrite (H x Hx). }
  induction ps as [|p ps IH]; [done|]. intros [Hp Hps]%andb_prop.
  destruct ps as [|q ps]; [by apply Hw|].
  change (str_join [44] (p :: q :: ps)) with (p ++ [44] ++ str_join [44] (q :: ps)).
  unfold word in *. rewrite !forallb_app, (Hw p Hp), (IH Hps). done.
Qed.

Lemma field_digits low high s :
  0 <= low -> bounded low high s -> forallb (forallb is_ascii_digit) (map str_of_Z (elements s)) = true.
Proof.
  intros Hl Hb. apply forallb_forall. intros x (n & <- & Hn)%in_map_iff.
  apply str_of_Z_shape. apply list_elem_of_In, elem_of_elements, Hb in Hn. lia.
Qed.

Lemma field_text_word low high s :
  0 <= low -> fits low high s -> word (field_text s) = true /\ field_text s <> [].
Proof.
  intros Hl [Hb Hne]. split; [apply join_word; by eapply field_digits|].
  unfold field_text. intros E. destruct (elements s) as [|n ns] eqn:En.
  { by apply Hne, leibniz_equiv, elements_empty_inv. }
  assert (n ∈ s) as Hn%Hb by (apply elem_of_elements; rewrite En; by left).
  destruct (str_of_Z_shape n ltac:(lia)) as [Hs _]. cbn [map] in E.
  destruct ns as [|m ns]; [done|]. by apply app_eq_nil in E as [? _].
Qed.

(** *** A field read back *)

Lemma cron_part_str n low high : 0 <= n < 100 -> cron_part (str_of_Z n) low high = Ok (n, n, 1).
Proof.
  intros Hn. destruct (str_of_Z_shape n ltac:(lia)) as [Hne Hd]. unfold cron_part.
  rewrite partition_without by (by apply digits_without). cbn [res_bind].
  destruct (decide _) as [E|_]; [rewrite E in Hd; discriminate Hd|]. rewrite partition_without by (by apply digits_without). unfold int_or. by rewrite py_int_str.
Qed.

Lemma collect_numbers low high acc ns :
  0 <= low -> high < 100 -> Forall (fun n => low <= n <= high) ns ->
  collect (cron_values low high) acc (map str_of_Z ns) = Ok (acc ∪ list_to_set ns).
Proof.
  intros Hl Hh. revert acc. induction ns as [|n ns IH]; intros acc Hf; cbn [collect map list_to_set].
  { f_equal. set_solver. }
  apply List.Forall_cons_iff in Hf as [Hn Hf].
  assert (cron_values low high acc (str_of_Z n) = Ok (acc ∪ list_to_set (pyrange n (n + 1) 1))) as ->.
  { unfold cron_values. rewrite cron_part_str by lia.
    assert ((n <? low) || (high <? n) || (n <? n) = false) as ->; [|done].
    rewrite !orb_false_iff, !Z.ltb_ge. lia. }
  cbn [res_bind]. rewrite IH by done. f_equal. apply set_eq. intros v.
  rewrite !elem_of_union, !elem_of_list_to_set, elem_of_singleton, elem_of_pyrange by lia. split.
  - intros [[?|(k & Hk & -> & Hv)]|?]; [by left|right; left; lia|by right; right].
  - intros [?|[->|?]]; [by left; left|left; right; exists 0; lia|by right].
Qed.

Lemma parse_field_text low high (wrap : bool) s :
  0 <= low -> high < 60 -> (if wrap then low = 0 /\ high = 6 else True) -> fits low high s ->
  _parse_cron_field (field_text s) low high wrap = Ok s.
Proof.
  intros Hl Hh Hw [Hb Hne]. unfold _parse_cron_field, field_text.
  change (bs ",") with [44]. rewrite split_join.
  - rewrite collect_numbers; [|done|destruct wrap; lia|].
    + cbn [res_bind]. f_equal. rewrite list_to_set_elements_L, (left_id_L ∅ (∪)). destruct wrap; [|done].
      destruct Hw as [-> ->]. apply set_eq. intros v. rewrite elem_of_map. split.
      * intros (x & -> & Hx). pose proof (Hb x Hx). destruct (Z.eqb_spec x 7); [lia|done].
      * intros Hv. exists v. pose proof (Hb v Hv). destruct (Z.eqb_spec v 7); [lia|done].
    + apply bounded_elements. intros v Hv%Hb. destruct wrap; lia.
  - intros E. apply Hne, leibniz_equiv, elements_empty_inv. by destruct (elements s).
  - apply forallb_forall. intros p Hp. apply digits_without; [done|].
    pose proof (field_digits low high s Hl Hb) as Hd. rewrite forallb_forall in Hd. by apply Hd.
Qed.

Lemma cron_fields_text f : fields_fit f -> cron_fields (cron_text f) = Ok f.
Proof.
  intros (Hm & Hh & Hd & Hmo & Hw). unfold cron_fields, cron_text.
  destruct (field_text_word 0 59 _ ltac:(lia) Hm) as [W1 N1].
  destruct (field_text_word 0 23 _ ltac:(lia) Hh) as [W2 N2].
  destruct (field_text_word 1 31 _ ltac:(lia) Hd) as [W3 N3].
  destruct (field_text_word 1 12 _ ltac:(lia) Hmo) as [W4 N4].
  destruct (field_text_word 0 6 _ ltac:(lia) Hw) as [W5 N5].
  cbn [str_join]. change (bs " ") with [32]. cbn [app].
  rewrite !words_word, words_last by done. cbn [rev app].
  rewrite !parse_field_text by (done || lia). cbn [res_bind]. by destruct f.
Qed.

End texts.

(** ** What holds of buckets and recurrences

    The theorems on [temporal.py], over the lemmas of [Temporal] and the
    [Recurrence] files, each with an instance. *)

(** *** Instances *)

Definition hour_length : Z := 3600000000.

(** A zone that springs forward an hour at the instant [switch]. *)
Definition spring_zone (switch : Z) : tzinfo :=
  mk_tzinfo (fun t => if t <? switch then 0 else hour_length)
    (fun n => if n <? switch + hour_length then 0 else hour_length)
    (fun n => if n <? switch then 0 else hour_length).

Definition example_zone : tzinfo := spring_zone (instant 2026 3 29 1 0).

Definition no_fields : fields := mk_fields ∅ ∅ ∅ ∅ ∅.

Definition cron_sets (e : pystr) : fields :=
  match cron_fields e with Ok f => f | Err _ => no_fields end.

Definition half_past_one : fields := cron_sets (bs "30 1 * * *").

Definition recurrence_of (f : fields) (z : tzinfo) : Recurrence :=
  match new_recurrence f z with Ok r => r | Err _ => mk_recurrence f z (mk_plan 0 0 0 0 0 false false) end.

Lemma recurrence_of_fit f z : fields_fit f -> new_recurrence f z = Ok (recurrence_of f z).
Proof.
  intros Hf%fields_fit_bounded. unfold recurrence_of, new_recurrence.
  by destruct (recurrence_plan_total f (days_restricted f) (weekdays_restricted f) Hf) as [p ->].
Qed.

Lemma half_past_one_fits : fields_fit half_past_one.
Proof.
  unfold half_past_one, cron_sets. destruct (cron_fields _) as [f|e] eqn:E; [by eapply cron_fields_fit|].
  vm_compute in E. discriminate E.
Qed.

Lemma half_past_one_built z : new_recurrence half_past_one z = Ok (recurrence_of half_past_one z).
Proof. apply recurrence_of_fit, half_past_one_fits. Qed.

Lemma spring_skips :
  next_after (recurrence_of half_past_one example_zone) (instant 2026 3 28 12 0) = Ok (instant 2026 3 30 0 30).
Proof. vm_compute. reflexivity. Qed.

(** *** The next occurrence *)

(** The result of [next_after] is the first occurrence: a local minute that
    matches, exists in the zone and comes after the moment on the wall clock,
    such that no earlier one does.  It is less than [_SEARCH_DAYS] days away,
    and [matches_at] accepts it; when the search gives up, every occurrence is
    at least that far. *)
Theorem next_after_least f z r t :
  new_recurrence f z = Ok r ->
  match next_after r t with
  | Ok c =>
    matches_at r c = Ok true /\
    exists local l, wall_clock t z = Ok local /\ first_occurrence f z (stamp local) l c /\
      recurrence_ordinal (on l) < recurrence_ordinal (on local) + 1462
  | Err No_occurrence =>
    exists local, wall_clock t z = Ok local /\
      forall k u, occurs f z k u -> stamp local < stamp k ->
        recurrence_ordinal (on local) + 1462 <= recurrence_ordinal (on k)
  | Err _ => True
  end.
Proof.
  intros (Hr & <- & <-)%new_recurrence_built. destruct (next_after r t) as [c|[e|e|]] eqn:E; try done.
  - destruct (next_after_first r t c Hr E) as (local & l & Hw & Hf & Hd).
    split; [by eapply occurs_matches_at, Hf|]. by exists local, l.
  - destruct (next_after_None r t E) as (local & Hw & _). exists local. split; [done|].
    intros k u. by apply (next_after_none r t local k u Hr E Hw).
Qed.

(** 01:30 does not exist on the day the zone springs forward. *)
Lemma next_after_least_witness :
  next_after (recurrence_of half_past_one example_zone) (instant 2026 3 28 12 0) = Ok (instant 2026 3 30 0 30) /\
  match next_after (recurrence_of half_past_one example_zone) (instant 2026 3 28 12 0) with
  | Ok c => matches_at (recurrence_of half_past_one example_zone) c = Ok true
  | Err _ => False
  end.
Proof.
  split; [exact spring_skips|].
  pose proof (next_after_least half_past_one example_zone (recurrence_of half_past_one example_zone)
    (instant 2026 3 28 12 0) (half_past_one_built example_zone)) as H.
  rewrite spring_skips in H |- *. exact (proj1 H).
Defined.

(** The search on the wall clock: the first occurrence, or none in its days. *)
Lemma next_after_in_order f z r t local :
  new_recurrence f z = Ok r -> wall_clock t z = Ok local ->
  recurrence_ordinal (on local) + 1462 <= ordinal_limit ->
  zone_answers z (recurrence_ordinal (on local)) (recurrence_ordinal (on local) + 1462) ->
  (forall c, next_after r t = Ok c <->
    exists l, first_occurrence f z (stamp local) l c /\
      recurrence_ordinal (on l) < recurrence_ordinal (on local) + 1462) /\
  (next_after r t = Err No_occurrence <->
    forall k u, occurs f z k u -> stamp local < stamp k ->
      recurrence_ordinal (on local) + 1462 <= recurrence_ordinal (on k)).
Proof.
  intros (Hr & <- & <-)%new_recurrence_built Hw Hl Ha.
  destruct (next_after_answers r t local Hw Hl Ha) as [E|[c' E]]; rewrite E.
  - pose proof (fun k u => next_after_none r t local k u Hr E Hw) as Hn. split; [intros c; split|].
    + done.
    + intros (l & (Ho & Hlt & _) & Hd). specialize (Hn l c Ho Hlt). unfold _SEARCH_DAYS in Hn. lia.
    + split; [intros _ k u; apply Hn|done].
  - destruct (next_after_first r t c' Hr E) as (local' & l' & Hw' & Hf' & Hd').
    assert (local' = local) as -> by congruence. split; [intros c; split|].
    + intros [= <-]. by exists l'.
    + intros (l & (Ho & Hlt & Hmin) & _). destruct Hf' as (Ho' & Hlt' & Hmin').
      assert (l = l') as ->.
      { apply stamp_inj; [apply Ho|apply Ho'|]. pose proof (Hmin _ _ Ho' Hlt'). pose proof (Hmin' _ _ Ho Hlt). lia. }
      destruct Ho as [_ _ _ _ [F _]], Ho' as [_ _ _ _ [F' _]]. congruence.
    + split; [done|]. intros Hn. destruct Hf' as (Ho' & Hlt' & _). specialize (Hn _ _ Ho' Hlt').
      unfold _SEARCH_DAYS in Hd'. lia.
Qed.

(** *** Instants at which a recurrence fires *)

(** What a clock in the zone reads. *)
Definition reading (z : tzinfo) (t : Z) : Z := t + offset_at z t.

(** A clock in the zone is not ahead of [a] at [b], which is later. *)
Definition set_back (z : tzinfo) (a b : Z) : Prop := a < b /\ reading z b <= reading z a.

(** PEP 495: both folds of a local time that some instant reads name instants that
    read it. *)
Definition folds_read_back (z : tzinfo) : Prop :=
  forall u, let n := reading z u in
    reading z (n - offset_first z n) = n /\ reading z (n - offset_second z n) = n.

(** At [u] a clock in the zone reads the whole minute [k], which matches; a minute
    that is repeated is read at two instants. *)
Definition fires (f : fields) (z : tzinfo) (u : Z) (k : naive) : Prop :=
  wall_clock u z = Ok k /\ second k = 0 /\ microsecond k = 0 /\ matches_local f k = true.

Lemma wall_clock_reading u z k : wall_clock u z = Ok k -> stamp k = reading z u.
Proof.
  unfold wall_clock, reading. destruct (in_range _) eqn:E; [|done]. intros [= <-]. by apply of_stamp_spec.
Qed.

Lemma reads_wall_clock u z k : valid_naive k = true -> reading z u = stamp k -> wall_clock u z = Ok k.
Proof.
  intros Hk Hu. unfold wall_clock. unfold reading in Hu. rewrite Hu, stamp_range by done. f_equal.
  destruct (of_stamp_spec (stamp k)) as [Hv Hs]; [by apply stamp_range|]. by apply stamp_inj.
Qed.

(** A minute at which the recurrence fires within the days searched occurs. *)
Lemma fires_occurs f z lo hi u k :
  folds_read_back z -> zone_answers z lo hi -> lo <= recurrence_ordinal (on k) < hi ->
  fires f z u k -> exists v, occurs f z k v.
Proof.
  intros Hf Ha Hd (Hw & Hs & Hu & Hm). pose proof (wall_clock_valid _ _ _ Hw) as Hv.
  pose proof Hv as (Hdate & Hh & Hmi & _)%valid_naive_spec.
  specialize (Ha (on k) (hour k) (minute k) Hdate Hd Hh Hmi). unfold try_minute in Ha. rewrite Hdate in Ha.
  replace (mk_naive (on k) (hour k) (minute k) 0 0) with k in Ha by (destruct k; cbn in *; by subst).
  pose proof (Hf u) as [H1 H2]. rewrite <- (wall_clock_reading _ _ _ Hw) in H1, H2.
  destruct (from_wall_clock k z) as [v|] eqn:E; [|done]. exists v. constructor; [done..|]. split; [done|].
  apply reads_wall_clock; [done|]. unfold from_wall_clock, to_utc in E.
  do 2 (destruct (in_range _); [|done]). cbn [res_bind] in E. injection E as <-. by destruct (_ <? _).
Qed.

Lemma occurs_fires f z l c : occurs f z l c -> fires f z c l.
Proof. by intros [_ Hs Hu Hm [_ Hw]]. Qed.

(** C8. In a zone that converts every local minute of the days searched and
    names repeated minutes as PEP 495 says, [next_after] returns [c] exactly when
    [c] is the instant of the first minute after the moment, on the wall clock,
    that matches and exists in the zone, a repeated one counting once and at its
    later pass; it refuses exactly when there is none in the days of the search.
    On the timeline: the recurrence fires at [c], and at no instant between the
    moment and [c] but where the clocks were set back from the moment to that
    instant, or from it to [c] (there the first pass is left out).  Where they are
    not, [c] is the first firing time strictly after the moment. *)
Theorem next_after_complete f z r t local :
  new_recurrence f z = Ok r -> wall_clock t z = Ok local ->
  recurrence_ordinal (on local) + 1462 <= ordinal_limit ->
  zone_answers z (recurrence_ordinal (on local)) (recurrence_ordinal (on local) + 1462) ->
  folds_read_back z ->
  (forall c, next_after r t = Ok c <->
    exists l, first_occurrence f z (stamp local) l c /\
      recurrence_ordinal (on l) < recurrence_ordinal (on local) + 1462) /\
  (next_after r t = Err No_occurrence <->
    forall k u, occurs f z k u -> stamp local < stamp k ->
      recurrence_ordinal (on local) + 1462 <= recurrence_ordinal (on k)) /\
  (forall c, next_after r t = Ok c ->
    (exists l, fires f z c l) /\ (t < c \/ set_back z c t) /\
    forall u k, fires f z u k -> t < u < c -> set_back z t u \/ set_back z u c) /\
  (next_after r t = Err No_occurrence -> forall u k, fires f z u k -> t < u ->
    set_back z t u \/ recurrence_ordinal (on local) + 1462 <= recurrence_ordinal (on k)).
Proof.
  intros Hr Hw Hl Ha Hf. destruct (next_after_in_order f z r t local Hr Hw Hl Ha) as [Hok Hnone].
  pose proof (wall_clock_reading _ _ _ Hw) as Hlocal. split; [done|]. split; [done|]. split.
  - intros c (l & Hfirst & Hdays)%Hok. pose proof Hfirst as (Ho & Hlt & Hmin).
    pose proof (occurs_fires _ _ _ _ Ho) as Hc. pose proof (wall_clock_reading _ _ _ (proj1 Hc)) as Hlc.
    split; [by exists l|]. unfold set_back. split; [destruct (Z.lt_trichotomy t c) as [?|[->|?]]; lia|].
    intros u k Hu Htu. pose proof (wall_clock_reading _ _ _ (proj1 Hu)) as Hku.
    destruct (Z.le_gt_cases (stamp k) (stamp local)); [left; lia|].
    destruct (Z.le_gt_cases (stamp l) (stamp k)); [right; lia|]. exfalso.
    pose proof (stamp_bounds _ (wall_clock_valid _ _ _ Hw)). pose proof (stamp_bounds _ (wall_clock_valid _ _ _ (proj1 Hu))).
    pose proof (stamp_bounds _ (occurs_valid _ _ _ _ Ho)).
    destruct (fires_occurs f z _ _ u k Hf Ha ltac:(unfold day_length in *; lia) Hu) as [v Hv].
    specialize (Hmin k v Hv ltac:(lia)). lia.
  - intros E u k Hu Htu. rewrite Hnone in E. pose proof (wall_clock_reading _ _ _ (proj1 Hu)) as Hku. unfold set_back.
    destruct (Z.le_gt_cases (stamp k) (stamp local)); [left; lia|right].
    destruct (Z.le_gt_cases (recurrence_ordinal (on local) + 1462) (recurrence_ordinal (on k))); [done|].
    pose proof (stamp_bounds _ (wall_clock_valid _ _ _ Hw)). pose proof (stamp_bounds _ (wall_clock_valid _ _ _ (proj1 Hu))).
    destruct (fires_occurs f z _ _ u k Hf Ha ltac:(unfold day_length in *; lia) Hu) as [v Hv]. by apply (E k v).
Qed.

Lemma next_after_complete_witness :
  (exists l, first_occurrence half_past_one UTC (stamp (of_stamp (instant 2026 3 28 12 0))) l
      (instant 2026 3 29 1 30) /\
    recurrence_ordinal (on l) < recurrence_ordinal (on (of_stamp (instant 2026 3 28 12 0))) + 1462) /\
  forall u k, fires half_past_one UTC u k -> instant 2026 3 28 12 0 < u < instant 2026 3 29 1 30 ->
    set_back UTC (instant 2026 3 28 12 0) u \/ set_back UTC u (instant 2026 3 29 1 30).
Proof.
  pose proof (next_after_complete half_past_one UTC (recurrence_of half_past_one UTC) (instant 2026 3 28 12 0)
    (of_stamp (instant 2026 3 28 12 0)) (half_past_one_built UTC) ltac:(vm_compute; reflexivity)
    ltac:(apply Z.leb_le; vm_compute; reflexivity)
    ltac:(apply fixed_answers; [done|apply Z.leb_le; vm_compute; reflexivity..])
    ltac:(intros u; unfold reading; cbn; lia)) as (Hok & _ & Hfirst & _).
  assert (next_after (recurrence_of half_past_one UTC) (instant 2026 3 28 12 0) = Ok (instant 2026 3 29 1 30)) as E
    by (vm_compute; reflexivity).
  split; [by apply Hok|by apply (Hfirst _ E)].
Defined.

(** A zone that is set back an hour at the instant [switch]. *)
Definition autumn_zone (switch : Z) : tzinfo :=
  mk_tzinfo (fun t => if t <? switch then hour_length else 0)
    (fun n => if n <? switch + hour_length then hour_length else 0)
    (fun n => if n <? switch then hour_length else 0).

Lemma autumn_folds switch : folds_read_back (autumn_zone switch).
Proof.
  intros u. unfold reading, autumn_zone, hour_length. cbn.
  repeat match goal with |- context [?a <? ?b] => destruct (Z.ltb_spec a b) end; lia.
Qed.

(** 01:30 comes twice; before its first pass [next_after] returns the second,
    though [matches_at] accepts both. *)
Example earlier_pass_skipped :
  let r := recurrence_of half_past_one (autumn_zone (instant 2026 10 25 1 0)) in
  next_after r (instant 2026 10 25 0 0) = Ok (instant 2026 10 25 1 30) /\
  matches_at r (instant 2026 10 25 0 30) = Ok true.
Proof. split; vm_compute; reflexivity. Qed.

(** C9. A recurrence keeps firing: in a zone of fixed offset, one with some
    minute and hour that names a day of an ordinary year, or a weekday, always
    has a next occurrence, later than the moment and within two years. *)
Theorem next_after_liveness f o r t local :
  new_recurrence f (fixed_offset o) = Ok r -> -day_length < o < day_length ->
  satisfiable f -> minutes f <> ∅ -> hours f <> ∅ ->
  wall_clock t (fixed_offset o) = Ok local -> 2 <= year (on local) <= 9990 ->
  exists c, next_after r t = Ok c /\ t < c <= t + 732 * day_length.
Proof.
  intros (Hr & <- & Ez)%new_recurrence_built Ho Hsat Hm Hh Hw Hy. rewrite <- Ez in Hw.
  pose proof (wall_clock_valid _ _ _ Hw) as Hv. pose proof Hv as (Hd & _)%valid_naive_spec.
  pose proof (ordinal_of_year _ Hd) as Hoy.
  pose proof (year_start_mono 2 (year (on local)) ltac:(lia)) as Hlo. change (year_start 2) with 365 in Hlo.
  pose proof (year_start_mono (year (on local) + 1) 9991 ltac:(lia)) as Hhi.
  change (year_start 9991) with 3648772 in Hhi.
  destruct (occurs_next_year r o local Hr Ez Ho Hsat Hm Hh Hv Hy) as (k & u & Hk & Hlt & Hnear).
  assert (zone_answers (tz r) (recurrence_ordinal (on local)) (recurrence_ordinal (on local) + 1462)) as Ha.
  { rewrite Ez. apply fixed_answers; [done|lia|unfold ordinal_limit; lia]. }
  destruct (next_after_answers r t local Hw ltac:(unfold ordinal_limit, _SEARCH_DAYS; lia) Ha) as [E|[c E]].
  { pose proof (next_after_none r t local k u Hr E Hw Hk Hlt). unfold _SEARCH_DAYS in *. lia. }
  exists c. split; [done|]. destruct (next_after_first r t c Hr E) as (local' & l & Hw' & (Hl & Hlt' & Hmin) & _).
  assert (local' = local) as -> by congruence. specialize (Hmin k u Hk Hlt).
  pose proof Hl as [_ _ _ _ [Hc _]]. pose proof (stamp_bounds _ Hv). pose proof (stamp_bounds k (occurs_valid _ _ _ _ Hk)).
  rewrite Ez in Hc, Hw. rewrite from_wall_clock_fixed in Hc. rewrite wall_clock_fixed in Hw.
  destruct (in_range (stamp l - o)); [injection Hc as <-|done].
  destruct (in_range (t + o)) eqn:Er; [injection Hw as <-|done]. destruct (of_stamp_spec _ Er) as [_ Es].
  unfold day_length in *. lia.
Qed.

Lemma next_after_liveness_witness :
  exists c, next_after (recurrence_of half_past_one UTC) (instant 2026 3 28 12 0) = Ok c /\
    instant 2026 3 28 12 0 < c <= instant 2026 3 28 12 0 + 732 * day_length.
Proof.
  apply (next_after_liveness half_past_one 0 (recurrence_of half_past_one UTC) (instant 2026 3 28 12 0)
    (of_stamp (instant 2026 3 28 12 0))).
  - exact (half_past_one_built UTC).
  - done.
  - exists 1. split; [apply (bool_decide_unpack _); vm_compute; exact I|].
    exists 1. split; [apply (bool_decide_unpack _); vm_compute; exact I|done].
  - apply (bool_decide_unpack (minutes half_past_one <> ∅)). vm_compute. exact I.
  - apply (bool_decide_unpack (hours half_past_one <> ∅)). vm_compute. exact I.
  - vm_compute. reflexivity.
  - vm_compute. split; discriminate.
Defined.

(** Four years of search do not always reach a 29th of February: the one of
    2104 is an occurrence that [next_after] does not find from March 2096. *)
Theorem february_29_unreachable :
  exists r, cron (bs "0 0 29 2 *") UTC = Ok r /\
    next_after r (instant 2096 3 1 0 0) = Err No_occurrence /\
    next_after r (instant 2103 1 1 0 0) = Ok (instant 2104 2 29 0 0) /\
    matches_at r (instant 2104 2 29 0 0) = Ok true.
Proof.
  destruct (cron (bs "0 0 29 2 *") UTC) as [r|e] eqn:E; [|vm_compute in E; discriminate E].
  exists r. split; [done|]. vm_compute in E. injection E as <-. vm_compute. done.
Qed.

(** *** The plan *)

(** The masks the native search reads decide what [matches] decides: a
    local minute of a valid date passes the tests on its month, day, weekday,
    hour and minute exactly when the five sets match it. *)
Theorem plan_matches f z r d h m :
  new_recurrence f z = Ok r -> valid_date d = true -> 0 <= h < 24 -> 0 <= m < 60 ->
  day_ok (_plan r) d (weekday d) && bit (plan_hours (_plan r)) h && bit (plan_minutes (_plan r)) m =
  matches f m h (day d) (month d) (weekday d).
Proof.
  intros (Hr & <- & _)%new_recurrence_built (_ & Hmo & Hd)%valid_date_spec Hh Hm.
  pose proof (month_days_bounds (year d) _ Hmo). rewrite day_ok_spec by (done || lia).
  destruct (built_plan r Hr) as (_ & Hp & _). unfold matches.
  rewrite (hours_bit _ _ Hp), (minutes_bit _ _ Hp) by lia.
  by destruct (bool_decide (month d ∈ _)), (bool_decide (h ∈ _)), (bool_decide (m ∈ _)), (_day_matches _ _ _).
Qed.

Lemma plan_matches_witness :
  day_ok (_plan (recurrence_of half_past_one UTC)) (mk_date 2024 2 29) (weekday (mk_date 2024 2 29)) &&
    bit (plan_hours (_plan (recurrence_of half_past_one UTC))) 1 &&
    bit (plan_minutes (_plan (recurrence_of half_past_one UTC))) 30 =
  matches half_past_one 30 1 29 2 3.
Proof.
  exact (plan_matches half_past_one UTC (recurrence_of half_past_one UTC) (mk_date 2024 2 29) 1 30
    (half_past_one_built UTC) eq_refl ltac:(lia) ltac:(lia)).
Defined.

(** *** The two spellings *)

Section spellings.
Context {U : UnicodeData} {C : CaseData}.

(** Reading a text, as cron or as a calendar recurrence, refuses it or gives
    five sets that are not empty and lie in the bounds of their fields; the
    native plan never raises on them. *)
Theorem texts_wellformed text z :
  match cron text z with Ok r => fields_fit (sets r) /\ built r | Err (Refused _) => True | Err _ => False end /\
  match calendar text z with Ok r => fields_fit (sets r) /\ built r | Err (Refused _) => True | Err _ => False end.
Proof.
  assert (forall f, fields_fit f ->
    match lift Raised (new_recurrence f z) with
    | Ok r => fields_fit (sets r) /\ built r | Err (Refused _) => True | Err _ => False end) as Hnew.
  { intros f Hf. pose proof (recurrence_of_fit f z Hf) as E. rewrite E. cbn [lift].
    destruct (new_recurrence_built _ _ _ E) as (Hb & -> & _). done. }
  unfold cron, calendar. split.
  - destruct (cron_fields text) as [f|] eqn:E; cbn [lift res_bind]; [|done]. by eapply Hnew, cron_fields_fit.
  - destruct (calendar_recurrence text) as [f|] eqn:E; cbn [lift res_bind]; [|done].
    by eapply Hnew, calendar_recurrence_fit.
Qed.

(** Both spellings compile to the same five sets: the recurrence a calendar
    or cron text names is the one that the cron expression of its sets names. *)
Theorem calendar_as_cron {L : UnicodeLaws U} text z r :
  calendar text z = Ok r \/ cron text z = Ok r -> cron (cron_text (sets r)) z = Ok r.
Proof.
  intros H.
  assert (fields_fit (sets r) /\ new_recurrence (sets r) z = Ok r) as [Hf Hn].
  { unfold calendar, cron in H. destruct H as [H|H]; apply res_bind_Ok in H as (f & Hf & Hn);
      [destruct (calendar_recurrence text) eqn:E|destruct (cron_fields text) eqn:E]; try done; injection Hf as ->;
      (destruct (new_recurrence f z) eqn:En; [|done]); injection Hn as ->;
      pose proof (new_recurrence_built _ _ _ En) as (_ & -> & _); (split; [|done]).
    - by eapply calendar_recurrence_fit.
    - by eapply cron_fields_fit. }
  unfold cron. rewrite cron_fields_text by done. cbn [lift res_bind]. by rewrite Hn.
Qed.

End spellings.

Definition weekly : Recurrence :=
  match calendar (bs "RRULE:FREQ=WEEKLY;BYDAY=MO,TU;BYHOUR=3") UTC with
  | Ok r => r
  | Err _ => recurrence_of half_past_one UTC
  end.

Lemma calendar_as_cron_witness : cron (cron_text (sets weekly)) UTC = Ok weekly.
Proof.
  apply (calendar_as_cron (bs "RRULE:FREQ=WEEKLY;BYDAY=MO,TU;BYHOUR=3")). left.
  unfold weekly. destruct (calendar _ UTC) as [r|e] eqn:E; [done|vm_compute in E; discriminate E].
Defined.

(** [BYDAY] and [BYMONTHDAY] together: the first firing of 2026 is a Friday,
    not a Friday the 13th. *)
Example friday_the_thirteenth :
  match calendar (bs "FREQ=MONTHLY;BYDAY=FR;BYMONTHDAY=13") UTC with
  | Ok r => next_after r (instant 2026 1 1 0 0)
  | Err e => Err e
  end = Ok (instant 2026 1 2 0 0).
Proof. vm_compute. reflexivity. Qed.

(** *** The cache *)

(** The cache of [next_after] is invisible: over any sequence of calls, each
    returns or raises what the search alone would, as long as one object holds
    one time. *)
Theorem cache_transparent r ms :
  same_objects ms -> next_calls r None ms = map (fun m => next_after r (at_time m)) ms.
Proof. intros H. by apply next_calls_spec. Qed.

Lemma cache_transparent_witness :
  next_calls weekly None [mk_moment 1 (instant 2026 1 1 0 0); mk_moment 1 (instant 2026 1 1 0 0)] =
  [next_after weekly (instant 2026 1 1 0 0); next_after weekly (instant 2026 1 1 0 0)].
Proof.
  apply (cache_transparent weekly [mk_moment 1 (instant 2026 1 1 0 0); mk_moment 1 (instant 2026 1 1 0 0)]).
  intros m m' Hm Hm' _. apply list_elem_of_In in Hm as [<-|[<-|[]]], Hm' as [<-|[<-|[]]]; reflexivity.
Defined.

(** *** Buckets *)

(** The buckets of one width tile the wall clock: a local time is in the
    half-open run from the start of a bucket to its end exactly when it
    truncates to that start, and the end is the start of a bucket. *)
Theorem buckets_tile b l k e :
  b ∈ BUCKETS -> valid_naive l = true -> valid_naive k = true -> _advance b (_truncate b l) = Ok e ->
  (stamp (_truncate b l) <= stamp k < stamp e <-> _truncate b k = _truncate b l) /\ _truncate b e = e.
Proof.
  intros Hb Hl Hk He. split; [by apply bucket_tiles|exact (truncate_end b l e Hb Hl He)].
Qed.

Lemma buckets_tile_witness :
  _truncate Quarter (mk_naive (mk_date 2024 5 31) 23 59 59 999999) =
    _truncate Quarter (mk_naive (mk_date 2024 6 30) 1 2 3 4) /\
  _truncate Quarter (midnight (mk_date 2024 7 1)) = midnight (mk_date 2024 7 1).
Proof.
  destruct (buckets_tile Quarter (mk_naive (mk_date 2024 6 30) 1 2 3 4) (mk_naive (mk_date 2024 5 31) 23 59 59 999999)
    (midnight (mk_date 2024 7 1)) ltac:(do 5 right; left) eq_refl eq_refl eq_refl) as [H1 H2].
  split; [|exact H2]. apply H1. vm_compute. split; [discriminate|reflexivity].
Defined.

(** On the timeline of a zone of fixed offset, the bucket of a moment runs
    from its [floor] to its [end_of]: it contains the moment, the moments in it
    are those with the same floor, and the end is the floor of the next
    bucket. *)
Theorem bucket_instants b o t s e :
  b ∈ BUCKETS -> floor b t (fixed_offset o) = Ok s -> end_of b t (fixed_offset o) = Ok e ->
  s <= t < e /\ (forall u, s <= u < e <-> floor b u (fixed_offset o) = Ok s) /\
  floor b e (fixed_offset o) = Ok e.
Proof.
  intros Hb Hs He. unfold floor, end_of in *. rewrite wall_clock_fixed in Hs, He.
  destruct (in_range (t + o)) eqn:Rt; [cbn [res_bind] in *|done].
  destruct (of_stamp_spec _ Rt) as [Vl El]. set (l := of_stamp (t + o)) in *.
  apply res_bind_Ok in He as (el & Hadv & He).
  destruct (advance_valid_bucket b l el Hb Vl Hadv) as (Vt & Ve & Hlt).
  rewrite from_wall_clock_fixed in Hs, He.
  destruct (in_range (stamp (_truncate b l) - o)) eqn:Rs; [injection Hs as <-|done].
  destruct (in_range (stamp el - o)) eqn:Re; [injection He as <-|done].
  pose proof (stamp_range _ Vt) as Bt%in_range_spec. pose proof (stamp_range _ Ve) as Be%in_range_spec.
  assert (forall u, stamp (_truncate b l) - o <= u < stamp el - o <->
    (let! l := wall_clock u (fixed_offset o) in from_wall_clock (_truncate b l) (fixed_offset o)) =
    Ok (stamp (_truncate b l) - o)) as Hu.
  { intros u. rewrite wall_clock_fixed. split.
    - intros Hr. assert (in_range (u + o) = true) as Ru by (apply in_range_spec; lia). rewrite Ru. cbn [res_bind].
      destruct (of_stamp_spec _ Ru) as [Vu Eu].
      destruct (bucket_tiles b l el (of_stamp (u + o)) Hb Vl Hadv Vu) as [H _].
      rewrite H by (rewrite Eu; lia). by rewrite from_wall_clock_fixed, Rs.
    - destruct (in_range (u + o)) eqn:Ru; cbn [res_bind]; [|done]. intros H.
      destruct (of_stamp_spec _ Ru) as [Vu Eu]. rewrite from_wall_clock_fixed in H.
      destruct (in_range (stamp (_truncate b (of_stamp (u + o))) - o)); [|done]. injection H as H.
      destruct (bucket_tiles b l el (of_stamp (u + o)) Hb Vl Hadv Vu) as [_ Htile].
      rewrite Eu in Htile. assert (stamp (_truncate b l) <= u + o < stamp el); [|lia]. apply Htile.
      apply stamp_inj; [by apply truncate_valid|done|lia]. }
  split_and!; [| |exact Hu|].
  - destruct (bucket_tiles b l el l Hb Vl Hadv Vl) as [_ H]. specialize (H eq_refl). lia.
  - destruct (bucket_tiles b l el l Hb Vl Hadv Vl) as [_ H]. specialize (H eq_refl). lia.
  - rewrite wall_clock_fixed, Z.sub_add. assert (in_range (stamp el) = true) as Rl by by apply stamp_range.
    rewrite Rl. cbn [res_bind]. destruct (of_stamp_spec _ Rl) as [Vx Ex].
    assert (of_stamp (stamp el) = el) as -> by by apply stamp_inj.
    by rewrite (truncate_end b l el Hb Vl Hadv), from_wall_clock_fixed, Re.
Qed.

Lemma bucket_instants_witness :
  floor Week (instant 2024 2 29 12 0) (fixed_offset hour_length) = Ok (instant 2024 2 25 23 0) /\
  instant 2024 2 25 23 0 <= instant 2024 2 29 12 0 < instant 2024 3 3 23 0.
Proof.
  split; [vm_compute; reflexivity|].
  exact (proj1 (bucket_instants Week hour_length (instant 2024 2 29 12 0) (instant 2024 2 25 23 0) (instant 2024 3 3 23 0)
    ltac:(do 3 right; left) eq_refl eq_refl)).
Defined.
