(* ===== verification/GraphqlCost.v ===== *)
(** * GraphQL documents and schemas: [_graphql/ast.py], [_graphql/schema.py]

    The parsed document, the bounds of one parse, and the declarations a
    document is weighed and executed against.  A mapping is a list of pairs in
    insertion order. *)

From stdpp Require Import base sets strings numbers list gmap.
From Stdlib Require Import ZArith Lia.
From S2P Require Import Prelude PyCollections.
#[local] Open Scope Z_scope.

(** ** Documents *)

(** A literal, or a variable.  A float is the text it is written with. *)
Inductive value : Type :=
| VNull
| VBool (b : bool)
| VInt (n : Z)
| VFloat (text : pystr)
| VString (s : pystr)
| VList (items : list value)
| VObject (entries : list (pystr * value))
| VVariable (name : pystr).

Record Argument : Type := mk_argument { a_name : pystr; a_value : value }.

Record field_of (selection : Type) : Type := mk_field {
  f_name : pystr;
  f_key : pystr;
  f_arguments : list Argument;
  f_set : option (list selection) }.
Arguments mk_field {selection} _ _ _ _.
Arguments f_name {selection} _.
Arguments f_key {selection} _.
Arguments f_arguments {selection} _.
Arguments f_set {selection} _.

Inductive selection : Type :=
| Field (f : field_of selection)
| FragmentSpread (name : pystr)
| InlineFragment (type_condition : option pystr) (selection_set : list selection).

Abbreviation field := (field_of selection).

Record VariableDefinition : Type := mk_variable {
  v_name : pystr;
  v_type_name : pystr;
  v_non_null : bool;
  v_is_list : bool;
  v_default : value;
  v_has_default : bool }.

Inductive operation_kind : Type := Query | Mutation.

Record Operation : Type := mk_operation {
  operation : operation_kind;
  o_name : option pystr;
  o_variables : list VariableDefinition;
  o_set : list selection }.

Record FragmentDefinition : Type := mk_fragment {
  d_name : pystr;
  d_condition : pystr;
  d_set : list selection }.

Record Document : Type := mk_document {
  operations : list Operation;
  fragments : list (pystr * FragmentDefinition);
  depth : Z;
  complexity : Z }.

(** [KeyError] and [ValueError] of [Document.operation]. *)
Inductive operation_error : Type := OperationKeyError (name : pystr) | OperationValueError.

Definition document_operation (d : Document) (name : option pystr) : res operation_error Operation :=
  match name with
  | Some n =>
    match List.find (fun o => bool_decide (o_name o = Some n)) (operations d) with
    | Some o => Ok o
    | None => Err (OperationKeyError n)
    end
  | None => match operations d with [o] => Ok o | _ => Err OperationValueError end
  end.

(** ** Limits *)

Record Limits : Type := mk_limits {
  max_depth : Z;
  max_complexity : Z;
  max_aliases : Z;
  max_steps : Z;
  max_document_bytes : Z }.

(** The constructor; [None] is its [ValueError]. *)
Definition new_limits (depth complexity aliases steps bytes : Z) : option Limits :=
  if forallb (fun v => 1 <=? v) [depth; complexity; aliases; steps; bytes]
  then Some (mk_limits depth complexity aliases steps bytes)
  else None.

Definition DEFAULT_LIMITS : Limits := mk_limits 12 1000 50 200000 16384.

(** ** Schemas *)

Record ResolverSpec : Type := mk_resolver {
  r_type_name : pystr;
  r_field_name : pystr;
  requires : list pystr;
  batch : bool;
  type_name_out : pystr;
  r_is_list : bool;
  r_non_null : bool;
  r_policy : option pystr;
  r_cost : Z }.

Record SchemaField : Type := mk_schema_field {
  s_name : pystr;
  s_type_name : pystr;
  s_non_null : bool;
  s_is_list : bool;
  relationship : option Z;
  column : option pystr;
  attribute : option pystr;
  resolver : option ResolverSpec;
  s_policy : pystr;
  s_cost : Z }.

Record ObjectType : Type := mk_object_type {
  t_name : pystr;
  t_fields : list (pystr * SchemaField) }.

Record RootField : Type := mk_root {
  root_name : pystr;
  root_type_name : pystr;
  root_is_list : bool;
  root_resolver : option ResolverSpec;
  root_policy : pystr;
  root_cost : Z }.

Record Schema : Type := mk_schema {
  types : list (pystr * ObjectType);
  roots : list (pystr * RootField);
  mutations : list (pystr * RootField) }.

Definition type_of (s : Schema) (name : pystr) : option ObjectType := dget (types s) name.

(** ** Sizes *)

Fixpoint sel_size (s : selection) : nat :=
  match s with
  | Field (mk_field _ _ _ None) => 1
  | Field (mk_field _ _ _ (Some l)) => S (list_sum (map sel_size l))
  | FragmentSpread _ => 1
  | InlineFragment _ l => S (list_sum (map sel_size l))
  end.

Definition sels_size (l : list selection) : nat := list_sum (map sel_size l).

Lemma sels_size_cons s l : sels_size (s :: l) = (sel_size s + sels_size l)%nat.
Proof. done. Qed.

Lemma sel_size_pos s : (0 < sel_size s)%nat.
Proof. destruct s as [[n k a [l|]]|n|c l]; cbn; lia. Qed.

(** Selections of a document whose fragments are [fs]. *)
Definition fragments_size (fs : list (pystr * FragmentDefinition)) : nat :=
  list_sum (map (fun p => S (sels_size (d_set p.2))) fs).

(** The fragment definitions whose names are not in [seen]. *)
Definition unexpanded (fs : list (pystr * FragmentDefinition)) (seen : list pystr) :
    list (pystr * FragmentDefinition) :=
  List.filter (fun p => negb (bool_decide (p.1 ∈ seen))) fs.

Lemma fragments_size_cons p fs : fragments_size (p :: fs) = (S (sels_size (d_set p.2)) + fragments_size fs)%nat.
Proof. done. Qed.

(** Expanding a fragment takes its size out of what is left. *)
Lemma unexpanded_expand fs seen n d :
  dget fs n = Some d -> n ∉ seen ->
  (S (sels_size (d_set d)) + fragments_size (unexpanded fs (n :: seen)) <= fragments_size (unexpanded fs seen))%nat.
Proof.
  intros Hd Hn. assert (forall l, (fragments_size (unexpanded l (n :: seen)) <= fragments_size (unexpanded l seen))%nat) as Hmono.
  { induction l as [|[k e] l IH]; [done|]. unfold unexpanded in *. cbn [List.filter fst].
    destruct (decide (k ∈ seen)) as [Hs|Hs].
    - rewrite !bool_decide_eq_true_2 by (by right || done). done.
    - rewrite (bool_decide_eq_false_2 (k ∈ seen)) by done. cbn [negb].
      destruct (negb _); rewrite !fragments_size_cons; lia. }
  induction fs as [|[k e] fs IH]; [done|]. cbn [dget] in Hd. unfold unexpanded in *. cbn [List.filter fst].
  destruct (decide (k = n)) as [->|Hne].
  - injection Hd as ->. rewrite (bool_decide_eq_true_2 (n ∈ n :: seen)) by by left.
    rewrite (bool_decide_eq_false_2 (n ∈ seen)) by done. cbn [negb].
    rewrite fragments_size_cons. cbn [snd]. pose proof (Hmono fs). lia.
  - specialize (IH Hd). rewrite (bool_decide_ext (k ∈ n :: seen) (k ∈ seen)) by (rewrite elem_of_cons; naive_solver).
    destruct (negb _); [rewrite !fragments_size_cons|]; lia.
Qed.

(** ** Fragments and costs: [_flatten] and [_graphql/cost.py]

    [_flatten] lists the fields of one selection set with its fragments
    expanded; [weigh] charges an operation for them before it runs.  The fuel of
    [_weigh_type] is the depth of the interpreter's stack: running out is the
    [RecursionError]. *)

(** *** [_flatten] *)

Inductive flatten_error : Type := UnknownFragment (name : pystr) | FlattenFuel.

(** The loop: [levels] are the iterators, innermost first. *)
Fixpoint flatten_loop (fuel : nat) (d : Document) (type_name : pystr) (expanded : list pystr)
    (levels : list (list selection)) (found : list field) : res flatten_error (list field) :=
  match fuel with
  | O => Err FlattenFuel
  | S fuel =>
    match levels with
    | [] => Ok found
    | [] :: levels => flatten_loop fuel d type_name expanded levels found
    | (selection :: rest) :: levels =>
      match selection with
      | Field f => flatten_loop fuel d type_name expanded (rest :: levels) (found ++ [f])
      | InlineFragment condition set =>
        if bool_decide (condition = None) || bool_decide (condition = Some type_name)
        then flatten_loop fuel d type_name expanded (set :: rest :: levels) found
        else flatten_loop fuel d type_name expanded (rest :: levels) found
      | FragmentSpread name =>
        if bool_decide (name ∈ expanded) then flatten_loop fuel d type_name expanded (rest :: levels) found
        else
          match dget (fragments d) name with
          | None => Err (UnknownFragment name)
          | Some definition =>
            if bool_decide (d_condition definition = type_name)
            then flatten_loop fuel d type_name (name :: expanded) (d_set definition :: rest :: levels) found
            else flatten_loop fuel d type_name (name :: expanded) (rest :: levels) found
          end
      end
    end
  end.

Definition flatten_fuel (d : Document) (selections : list selection) : nat :=
  2 * (sels_size selections + fragments_size (fragments d)) + 2.

Definition _flatten (d : Document) (type_name : pystr) (selections : list selection) :
    res flatten_error (list field) :=
  flatten_loop (flatten_fuel d selections) d type_name [] [selections] [].

(** *** [weigh] *)

Inductive weigh_error : Type := Complexity | RecursionError.

(** [_flatten], with an unknown fragment left for the executor to report. *)
Definition _fields (selections : list selection) (d : Document) (type_name : pystr) : list field :=
  match _flatten d type_name selections with Ok l => l | Err _ => [] end.

(** [for field in fields: total += ...]. *)
Fixpoint charge (cost : field -> res weigh_error Z) (total : Z) (l : list field) : res weigh_error Z :=
  match l with
  | [] => Ok total
  | f :: l => let! c := cost f in charge cost (total + c) l
  end.

Fixpoint _weigh_type (stack : nat) (s : Schema) (d : Document) (type_name : pystr)
    (selection_set : list selection) (fanout max_page_size : Z) : res weigh_error Z :=
  match stack with
  | O => Err RecursionError
  | S stack =>
    match type_of s type_name with
    | None => Ok 0
    | Some object_type =>
      charge (fun f =>
        match dget (t_fields object_type) (f_name f) with
        | None => Ok 0
        | Some declared =>
          let own := s_cost declared * fanout in
          match f_set f with
          | None => Ok own
          | Some set =>
            let! below := _weigh_type stack s d (s_type_name declared) set
              (if s_is_list declared then fanout * max_page_size else fanout) max_page_size in
            Ok (own + below)
          end
        end) 0 (_fields selection_set d type_name)
    end
  end.

(** The cost of one root field. *)
Definition weigh_root (stack : nat) (s : Schema) (d : Document) (rs : list (pystr * RootField))
    (max_page_size : Z) (f : field) : res weigh_error Z :=
  match dget rs (f_name f) with
  | None => Ok 0
  | Some root =>
    match f_set f with
    | None => Ok (root_cost root)
    | Some set =>
      let! below := _weigh_type stack s d (root_type_name root) set
        (if root_is_list root then max_page_size else 1) max_page_size in
      Ok (root_cost root + below)
    end
  end.

(** The loop of [weigh]: the budget is looked at after each root field that
    exists. *)
Fixpoint weigh_loop (stack : nat) (s : Schema) (d : Document) (rs : list (pystr * RootField))
    (max_complexity max_page_size total : Z) (l : list field) : res weigh_error Z :=
  match l with
  | [] => Ok total
  | f :: l =>
    match dget rs (f_name f) with
    | None => weigh_loop stack s d rs max_complexity max_page_size total l
    | Some _ =>
      let! c := weigh_root stack s d rs max_page_size f in
      if max_complexity <? total + c then Err Complexity
      else weigh_loop stack s d rs max_complexity max_page_size (total + c) l
    end
  end.

Definition root_table (s : Schema) (k : operation_kind) : list (pystr * RootField) :=
  match k with Query => roots s | Mutation => mutations s end.

Definition root_type (k : operation_kind) : pystr :=
  match k with Query => bs "Query" | Mutation => bs "Mutation" end.

Definition weigh (stack : nat) (s : Schema) (d : Document) (o : Operation) (max_complexity max_page_size : Z) :
    res weigh_error Z :=
  weigh_loop stack s d (root_table s (operation o)) max_complexity max_page_size 0
    (_fields (o_set o) d (root_type (operation o))).
