(* ===== verification/GraphqlExecute.v ===== *)
(** * GraphQL execution: [_graphql/execute.py], [order_fields], [_native/graphql.c]

    One level of objects is projected at a time: its fields in dependency
    order, each resolved for the whole level.  Objects, resolvers, the session
    and the authorizer are the interface [World]; the state of a run is what its
    authorizer has answered and the phases it has marked. *)

From stdpp Require Import base sets strings numbers list gmap.
From Stdlib Require Import ZArith Lia.
From S2P Require Import Prelude PyCollections GraphqlCost.
#[local] Open Scope Z_scope.

Inductive execution_error : Type :=
| NoFragment (name : pystr)
| NoVariable (name : pystr)
| NotAuthorized (resource : pystr)
| NoField (type_name name : pystr)
| BatchTooMany (name : pystr)
| BatchWrongCount (name : pystr)
| ProjectionLengths
| NeedsSelection (name : pystr)
| UnknownType (name : pystr)
| UnknownRoot (name : pystr)
| LimitNotInteger
| OffsetNotInteger
| RootTooMany
| NeedsId
| CompositeKey
| ResolverError (cycle : list pystr)
| ResolverRaised
| VariableRequired (name : pystr)
| NoOperation (e : operation_error)
| StackOverflow.

(** ** The order of one level *)

Record order_state (A : Type) : Type := mk_order {
  ordered : list A;
  placed : list (pystr * bool);
  visiting : list pystr }.
Arguments mk_order {A} _ _ _.
Arguments ordered {A} _.
Arguments placed {A} _.
Arguments visiting {A} _.

(** [visiting[visiting.index(name):]]. *)
Fixpoint from_name (name : pystr) (l : list pystr) : list pystr :=
  match l with
  | [] => []
  | n :: l' => if decide (n = name) then l else from_name name l'
  end.

(** [visit]: [requires_of] is the [requires] of a resolver, [None] where there
    is no resolver; [by_name] is the first selection of a name. *)
Fixpoint visit {A} (stack : nat) (requires_of : pystr -> option (list pystr)) (by_name : pystr -> option A)
    (st : order_state A) (name : pystr) : res execution_error (order_state A) :=
  match stack with
  | O => Err StackOverflow
  | S stack =>
    match dget (placed st) name with
    | Some true => Ok st
    | Some false =>
      Err (ResolverError (from_name name (visiting st) ++ [name]))
    | None =>
      let! st :=
        match requires_of name with
        | None => Ok st
        | Some dependencies =>
          let! st :=
            (fix all (ds : list pystr) (st : order_state A) : res execution_error (order_state A) :=
               match ds with
               | [] => Ok st
               | d :: ds => let! st := visit stack requires_of by_name st d in all ds st
               end) dependencies
              (mk_order (ordered st) (dset (placed st) name false) (visiting st ++ [name])) in
          Ok (mk_order (ordered st) (placed st) (removelast (visiting st)))
        end in
      Ok (mk_order (match by_name name with Some s => ordered st ++ [s] | None => ordered st end)
            (dset (placed st) name true) (visiting st))
    end
  end.

Fixpoint visit_all {A} (stack : nat) (requires_of : pystr -> option (list pystr)) (by_name : pystr -> option A)
    (st : order_state A) (names : list pystr) : res execution_error (order_state A) :=
  match names with
  | [] => Ok st
  | n :: names =>
    let! st := visit stack requires_of by_name st n in
    visit_all stack requires_of by_name st names
  end.

(** The selections with their positions, which stand for their identity. *)
Definition numbered (selected : list field) : list (nat * field) := zip (seq 0 (length selected)) selected.

Definition first_named (items : list (nat * field)) (name : pystr) : option (nat * field) :=
  List.find (fun i => bool_decide (f_name i.2 = name)) items.

(** Every [requires] before its dependents; later selections of the same field
    after all first ones. *)
Definition order_fields (stack : nat) (requires_of : pystr -> option (list pystr)) (selected : list field) :
    res execution_error (list field) :=
  let items := numbered selected in
  let! st := visit_all stack requires_of (first_named items) (mk_order [] [] []) (map f_name selected) in
  let seen_ids := map fst (ordered st) in
  Ok (map snd (ordered st ++ List.filter (fun i => negb (bool_decide (i.1 ∈ seen_ids))) items)).

(** ** The world of a run *)

Class World : Type := {
  obj : Type;
  none : obj;
  is_none : obj -> bool;
  (** [iter(o)]; [None] raises. *)
  iterate : obj -> option (list obj);
  (** [getattr(o, name, None)] is [None] where it does not exist. *)
  getattr : obj -> pystr -> option obj;
  get_relation : obj -> Z -> obj;
  (** A resolver called on a level, on one parent or as a root; [None] raises. *)
  call_batch : ResolverSpec -> list obj -> list (pystr * value) -> option obj;
  call_one : ResolverSpec -> obj -> list (pystr * value) -> option obj;
  call_root : ResolverSpec -> list (pystr * value) -> option obj;
  (** The rows the session fetches for a derived root. *)
  fetch_many : RootField -> Z -> option Z -> list obj;
  fetch_one : RootField -> value -> option (list obj);
  single_key : RootField -> bool;
  (** [int(v)]. *)
  int_of : value -> option Z }.

(** The answer of an authorizer may depend on what it was asked before. *)
Definition Authorizer : Type := list pystr -> pystr -> bool.

Inductive data {W : World} : Type :=
| DNone
| DValue (o : obj)
| DList (l : list data)
| DDict (entries : list (pystr * data)).

(** What a run has resolved: a root, a selected field of a type for so many
    objects, or a field that a resolver required and nobody selected. *)
Inductive resolution : Type :=
| R_root (kind : operation_kind) (name : pystr)
| R_field (type_name name : pystr) (count : Z)
| R_hidden (type_name name : pystr) (count : Z).

(** [resolved] is the history of the run, for the theorems; nothing reads it. *)
Record run_state : Type := mk_run {
  decisions : list (pystr * bool);
  asked : list pystr;
  (** The type, field and number of objects of each [RESOLVER] phase. *)
  phases : list (pystr * pystr * Z);
  resolved : list resolution }.

Definition M (A : Type) : Type := run_state -> res execution_error (A * run_state).

Definition ret {A} (a : A) : M A := fun st => Ok (a, st).
Definition fail {A} (e : execution_error) : M A := fun _ => Err e.
Definition bind {A B} (c : M A) (k : A -> M B) : M B :=
  fun st => match c st with Ok (a, st) => k a st | Err e => Err e end.

Definition lift {A} (c : res execution_error A) : M A :=
  fun st => match c with Ok a => Ok (a, st) | Err e => Err e end.

Notation "'do' x <- c ; k" := (bind c (fun x => k))
  (at level 200, x pattern, c at level 100, k at level 200) : wreath_scope.

(** [for x in l: acc = f(acc, x)]. *)
Fixpoint fold_m {A B} (f : B -> A -> M B) (acc : B) (l : list A) : M B :=
  match l with
  | [] => ret acc
  | x :: l => do acc <- f acc x; fold_m f acc l
  end.

(** ** Arguments *)

Fixpoint _resolve_value (variables : list (pystr * value)) (v : value) : res execution_error value :=
  match v with
  | VVariable name =>
    match dget variables name with Some w => Ok w | None => Err (NoVariable name) end
  | VList items =>
    let! items := (fix all (l : list value) : res execution_error (list value) :=
      match l with
      | [] => Ok []
      | v :: l => let! v := _resolve_value variables v in let! l := all l in Ok (v :: l)
      end) items in
    Ok (VList items)
  | VObject entries =>
    let! entries := (fix all (l : list (pystr * value)) : res execution_error (list (pystr * value)) :=
      match l with
      | [] => Ok []
      | (k, v) :: l => let! v := _resolve_value variables v in let! l := all l in Ok ((k, v) :: l)
      end) entries in
    Ok (VObject entries)
  | v => Ok v
  end.

Fixpoint _arguments (variables : list (pystr * value)) (found : list (pystr * value)) (l : list Argument) :
    res execution_error (list (pystr * value)) :=
  match l with
  | [] => Ok found
  | a :: l =>
    let! v := _resolve_value variables (a_value a) in
    _arguments variables (dset found (a_name a) v) l
  end.

(** ** Levels *)

(** Where the projected children of an object stand in the flat level. *)
Inductive slot : Type := SlotNone | SlotAt (i : nat) | SlotRange (start width : nat).

Section run.
Context {W : World}.

(** [flatten]: the children of a level in one list, and the layout to give them
    back; [None] is the [TypeError] of a value that is no iterable. *)
Fixpoint flatten_values (is_list : bool) (at_ : nat) (values : list obj) : option (list obj * list slot) :=
  match values with
  | [] => Some ([], [])
  | v :: values =>
    let own :=
      if is_list then
        match (if is_none v then Some [] else iterate v) with
        | Some l => Some (l, SlotRange at_ (length l))
        | None => None
        end
      else if is_none v then Some ([], SlotNone)
      else Some ([v], SlotAt at_) in
    match own with
    | None => None
    | Some (l, s) =>
      match flatten_values is_list (at_ + length l) values with
      | Some (flat, layout) => Some (l ++ flat, s :: layout)
      | None => None
      end
    end
  end.

Definition layout_value (projected : list data) (s : slot) : option data :=
  match s with
  | SlotNone => Some DNone
  | SlotAt i => projected !! i
  | SlotRange start width => Some (DList (take width (drop start projected)))
  end.

Fixpoint restore (projected : list data) (layout : list slot) : option (list data) :=
  match layout with
  | [] => Some []
  | s :: layout =>
    match layout_value projected s, restore projected layout with
    | Some v, Some l => Some (v :: l)
    | _, _ => None
    end
  end.

Definition attribute_of (f : SchemaField) : option pystr :=
  match column f with Some c => Some c | None => attribute f end.

Definition read_attribute (a : pystr) (o : obj) : data :=
  match getattr o a with Some v => DValue v | None => DNone end.

(** [graphql_plain_fields_compile]: key and attribute of every field, or the
    decision to decline. *)
Fixpoint plain_fields (declared : list (pystr * SchemaField)) (l : list field) : option (list (pystr * pystr)) :=
  match l with
  | [] => Some []
  | f :: l =>
    match dget declared (f_name f) with
    | None => None
    | Some s =>
      if bool_decide (resolver s = None) && bool_decide (relationship s = None) then
        match attribute_of s, plain_fields declared l with
        | Some a, Some plan => Some ((f_key f, a) :: plan)
        | _, _ => None
        end
      else None
    end
  end.

Definition project_plain (plan : list (pystr * pystr)) (o : obj) : data :=
  DDict (fold_left (fun row '(key, a) => dset row key (read_attribute a o)) plan []).

(** [graphql_finish_results]: one mapping per object from the columns. *)
Definition finish_results (rows : nat) (results : list (pystr * list data)) : list data :=
  map (fun row => DDict (map (fun '(key, values) => (key, default DNone (values !! row))) results)) (seq 0 rows).

Record Run : Type := mk_config {
  c_schema : Schema;
  c_document : Document;
  c_variables : list (pystr * value);
  c_authorizer : option Authorizer;
  c_max_page_size : Z;
  (** [on_denied == "null"]. *)
  c_null_denied : bool;
  (** A phase marker is set. *)
  c_marker : bool }.

Variable c : Run.

Definition _allowed (resource : pystr) : M bool :=
  match c_authorizer c with
  | None => ret true
  | Some authorize => fun st =>
    match dget (decisions st) resource with
    | Some b => Ok (b, st)
    | None =>
      let allowed := authorize (asked st) resource in
      if negb allowed && negb (c_null_denied c) then Err (NotAuthorized resource)
      else Ok (allowed, mk_run (dset (decisions st) resource allowed) (asked st ++ [resource]) (phases st) (resolved st))
    end
  end.

Definition mark (type_name name : pystr) (count : Z) : M unit := fun st =>
  Ok (tt, if c_marker c then mk_run (decisions st) (asked st) (phases st ++ [(type_name, name, count)]) (resolved st) else st).

Definition record (l : list resolution) : M unit := fun st =>
  Ok (tt, mk_run (decisions st) (asked st) (phases st) (resolved st ++ l)).

Fixpoint call_each (spec : ResolverSpec) (arguments : list (pystr * value)) (parents : list obj) :
    res execution_error (list obj) :=
  match parents with
  | [] => Ok []
  | p :: parents =>
    match call_one spec p arguments with
    | None => Err ResolverRaised
    | Some v => let! l := call_each spec arguments parents in Ok (v :: l)
    end
  end.

Definition _call_resolver (spec : ResolverSpec) (parents : list obj) (f : field) : res execution_error (list obj) :=
  let! arguments := _arguments (c_variables c) [] (f_arguments f) in
  if batch spec then
    match call_batch spec parents arguments with
    | None => Err ResolverRaised
    | Some result =>
      match iterate result with
      | None => Err ResolverRaised
      | Some l =>
        let values := take (S (length parents)) l in
        if Nat.ltb (length parents) (length values) then Err (BatchTooMany (r_field_name spec))
        else if negb (Nat.eqb (length values) (length parents)) then Err (BatchWrongCount (r_field_name spec))
        else Ok values
      end
    end
  else call_each spec arguments parents.

Definition flatten_fields (type_name : pystr) (set : list selection) : res execution_error (list field) :=
  match _flatten (c_document c) type_name set with
  | Ok l => Ok l
  | Err (UnknownFragment name) => Err (NoFragment name)
  | Err FlattenFuel => Err StackOverflow
  end.

Section level.
Variables (instances : list obj) (declared : list (pystr * SchemaField)) (selected : list pystr).

(** [ensure]: resolves a required field that was not selected. *)
Fixpoint ensure (stack : nat) (hidden : list pystr) (name : pystr) : res execution_error (list pystr) :=
  match stack with
  | O => Err StackOverflow
  | S stack =>
    if bool_decide (name ∈ hidden) || bool_decide (name ∈ selected) then Ok hidden
    else
      match dget declared name with
      | None => Ok hidden
      | Some s =>
        match resolver s with
        | None => Ok hidden
        | Some spec =>
          let! hidden :=
            (fix all (ds : list pystr) (hidden : list pystr) : res execution_error (list pystr) :=
               match ds with
               | [] => Ok hidden
               | d :: ds => let! hidden := ensure stack hidden d in all ds hidden
               end) (requires spec) hidden in
          let! _ := _call_resolver spec instances (mk_field name name [] None) in
          Ok (name :: hidden)
        end
      end
  end.

Fixpoint ensure_all (stack : nat) (hidden ds : list pystr) : res execution_error (list pystr) :=
  match ds with
  | [] => Ok hidden
  | d :: ds => let! hidden := ensure stack hidden d in ensure_all stack hidden ds
  end.

End level.

(** Children projected as one level and handed back. *)
Definition project_level (project : list obj -> list field -> M (list data)) (target : ObjectType)
    (set : list selection) (is_list : bool) (values : list obj) : M (list data) :=
  do children <- lift (flatten_fields (t_name target) set);
  match flatten_values is_list 0 values with
  | None => fail ResolverRaised
  | Some (flat, layout) =>
    do projected <- project flat children;
    match restore projected layout with Some l => ret l | None => fail ProjectionLengths end
  end.

(** The hidden calls made since [hidden] was the list of them. *)
Definition hidden_calls (type_name : pystr) (count : Z) (hidden hidden' : list pystr) : list resolution :=
  map (fun n => R_hidden type_name n count) (List.filter (fun n => negb (bool_decide (n ∈ hidden))) hidden').

(** The values of one allowed field for the level, and the hidden fields. *)
Definition project_field (stack : nat) (project : ObjectType -> list obj -> list field -> M (list data))
    (instances : list obj) (object_type : ObjectType) (selected hidden : list pystr) (f : field) (s : SchemaField) :
    M (list data * list pystr) :=
  match resolver s with
  | Some spec =>
    do hidden' <- lift (ensure_all instances (t_fields object_type) selected stack hidden (requires spec));
    do values <- lift (_call_resolver spec instances f);
    do _ <- record (hidden_calls (t_name object_type) (zlen instances) hidden hidden' ++
      [R_field (t_name object_type) (f_name f) (zlen instances)]);
    do column <-
      match type_of (c_schema c) (type_name_out spec), f_set f with
      | Some target, Some set => project_level (project target) target set (r_is_list spec) values
      | _, _ => ret (map DValue values)
      end;
    do _ <- mark (t_name object_type) (f_name f) (zlen instances);
    ret (column, hidden')
  | None =>
    match attribute_of s with
    | Some a =>
      do _ <- record [R_field (t_name object_type) (f_name f) (zlen instances)];
      do _ <- mark (t_name object_type) (f_name f) 0;
      ret (map (read_attribute a) instances, hidden)
    | None =>
      match f_set f with
      | None => fail (NeedsSelection (f_name f))
      | Some set =>
        match relationship s with
        | None => fail ResolverRaised
        | Some index =>
          do _ <- record [R_field (t_name object_type) (f_name f) (zlen instances)];
          do _ <- mark (t_name object_type) (f_name f) (zlen instances);
          match type_of (c_schema c) (s_type_name s) with
          | None => fail (UnknownType (s_type_name s))
          | Some target =>
            do column <- project_level (project target) target set (s_is_list s)
              (map (fun o => get_relation o index) instances);
            ret (column, hidden)
          end
        end
      end
    end
  end.

Definition project_step (stack : nat) (project : ObjectType -> list obj -> list field -> M (list data))
    (instances : list obj) (object_type : ObjectType) (selected : list pystr)
    (acc : list (pystr * list data) * list pystr) (f : field) : M (list (pystr * list data) * list pystr) :=
  let '(results, hidden) := acc in
  match dget (t_fields object_type) (f_name f) with
  | None => fail (NoField (t_name object_type) (f_name f))
  | Some s =>
    do allowed <- _allowed (s_policy s);
    if negb allowed then ret (dset results (f_key f) (map (fun _ => DNone) instances), hidden)
    else
      do (column, hidden) <- project_field stack project instances object_type selected hidden f s;
      if Nat.eqb (length column) (length instances) then ret (dset results (f_key f) column, hidden)
      else fail ProjectionLengths
  end.

Definition requires_of (declared : list (pystr * SchemaField)) (name : pystr) : option (list pystr) :=
  match dget declared name with
  | Some s => match resolver s with Some spec => Some (requires spec) | None => None end
  | None => None
  end.

Fixpoint _project (stack : nat) (object_type : ObjectType) (instances : list obj) (fields : list field) :
    M (list data) :=
  match stack with
  | O => fail StackOverflow
  | S stack =>
    let general :=
      do ordered <- lift (order_fields stack (requires_of (t_fields object_type)) fields);
      do (results, _) <- fold_m
        (project_step stack (_project stack) instances object_type (map f_name fields)) ([], []) ordered;
      ret (finish_results (length instances) results) in
    match c_authorizer c, c_marker c, plain_fields (t_fields object_type) fields with
    | None, false, Some plan =>
      do _ <- record (map (fun f => R_field (t_name object_type) (f_name f) (zlen instances)) fields);
      ret (map (project_plain plan) instances)
    | _, _, _ => general
    end
  end.

(** ** Root fields *)

(** [min(int(limit), max_page_size)] and the offset. *)
Definition root_limit (arguments : list (pystr * value)) : res execution_error Z :=
  match dget arguments (bs "limit") with
  | None => Ok (c_max_page_size c)
  | Some v => match int_of v with Some n => Ok (Z.min n (c_max_page_size c)) | None => Err LimitNotInteger end
  end.

Definition root_offset (arguments : list (pystr * value)) : res execution_error (option Z) :=
  match dget arguments (bs "offset") with
  | None | Some VNull => Ok None
  | Some v => match int_of v with Some n => Ok (Some (Z.max n 0)) | None => Err OffsetNotInteger end
  end.

Definition _root_instances (root : RootField) (f : field) : res execution_error (list obj) :=
  let! arguments := _arguments (c_variables c) [] (f_arguments f) in
  match root_resolver root with
  | Some spec =>
    match call_root spec arguments with
    | None => Err ResolverRaised
    | Some result =>
      if root_is_list root then
        match (if is_none result then Some [] else iterate result) with
        | None => Err ResolverRaised
        | Some l =>
          let values := take (S (Z.to_nat (c_max_page_size c))) l in
          if c_max_page_size c <? zlen values then Err RootTooMany else Ok values
        end
      else Ok (if is_none result then [] else [result])
    end
  | None =>
    if root_is_list root then
      let! limit := root_limit arguments in
      let! offset := root_offset arguments in
      Ok (fetch_many root (Z.max limit 0) offset)
    else
      match dget arguments (bs "id") with
      | None | Some VNull => Err NeedsId
      | Some identifier =>
        if negb (single_key root) then Err CompositeKey
        else match fetch_one root identifier with Some l => Ok l | None => Err ResolverRaised end
      end
  end.

Definition head_or_none (l : list data) : data := match l with x :: _ => x | [] => DNone end.

Definition run_root (stack : nat) (kind : operation_kind) (found : list (pystr * data)) (f : field) :
    M (list (pystr * data)) :=
  match dget (root_table (c_schema c) kind) (f_name f) with
  | None => fail (UnknownRoot (f_name f))
  | Some root =>
    do allowed <- _allowed (root_policy root);
    if negb allowed then ret (dset found (f_key f) DNone)
    else
      do instances <- lift (_root_instances root f);
      do _ <- record [R_root kind (f_name f)];
      match type_of (c_schema c) (root_type_name root), f_set f with
      | Some object_type, Some set =>
        do children <- lift (flatten_fields (t_name object_type) set);
        do projected <- _project stack object_type instances children;
        ret (dset found (f_key f) (if root_is_list root then DList projected else head_or_none projected))
      | _, _ =>
        ret (dset found (f_key f)
          (if root_is_list root then DList (map DValue instances) else head_or_none (map DValue instances)))
      end
  end.

Definition run (stack : nat) (o : Operation) : M (list (pystr * data)) :=
  do selections <- lift (flatten_fields (root_type (operation o)) (o_set o));
  fold_m (run_root stack (operation o)) [] selections.

End run.

(** Supplied variables with the defaults of those that are missing. *)
Fixpoint supplied_variables (supplied : list (pystr * value)) (l : list VariableDefinition) :
    res execution_error (list (pystr * value)) :=
  match l with
  | [] => Ok supplied
  | d :: l =>
    if dmem supplied (v_name d) then supplied_variables supplied l
    else if v_has_default d then supplied_variables (dset supplied (v_name d) (v_default d)) l
    else if v_non_null d then Err (VariableRequired (v_name d))
    else supplied_variables supplied l
  end.

Definition execute {W : World} (stack : nat) (s : Schema) (d : Document) (operation_name : option pystr)
    (variables : list (pystr * value)) (authorizer : option Authorizer) (max_page_size : Z)
    (null_denied marker : bool) : res execution_error (list (pystr * data) * run_state) :=
  match document_operation d operation_name with
  | Err e => Err (NoOperation e)
  | Ok o =>
    let! supplied := supplied_variables variables (o_variables o) in
    run (mk_config s d supplied authorizer max_page_size null_denied marker) stack o (mk_run [] [] [] [])
  end.
