(* ===== verification/GraphqlOrderFacts.v ===== *)
(** * Expansion of fragments and the cost of an operation

    [_flatten] always ends and lists the fields of the depth-first expansion
    in which each fragment is expanded once; over fragments without cycles
    [weigh] ends within a bounded stack. *)

From stdpp Require Import base sets strings numbers list gmap relations.
From Stdlib Require Import ZArith Lia.
From S2P Require Import Prelude PyCollections GraphqlCost GraphqlExecute.
#[local] Open Scope Z_scope.

(** ** Expansion as a relation *)

Definition applies (condition : option pystr) (type_name : pystr) : bool :=
  bool_decide (condition = None) || bool_decide (condition = Some type_name).

(** From the fragments [seen] so far, the selections expand to the fields, and
    more fragments have been seen. *)
Inductive expands (d : Document) (ty : pystr) : list pystr -> list selection -> list field -> list pystr -> Prop :=
| expands_nil seen : expands d ty seen [] [] seen
| expands_field seen f l fs seen' :
    expands d ty seen l fs seen' -> expands d ty seen (Field f :: l) (f :: fs) seen'
| expands_inline seen condition set l fs1 seen1 fs2 seen2 :
    applies condition ty = true -> expands d ty seen set fs1 seen1 -> expands d ty seen1 l fs2 seen2 ->
    expands d ty seen (InlineFragment condition set :: l) (fs1 ++ fs2) seen2
| expands_inline_other seen condition set l fs seen' :
    applies condition ty = false -> expands d ty seen l fs seen' ->
    expands d ty seen (InlineFragment condition set :: l) fs seen'
| expands_again seen name l fs seen' :
    name ∈ seen -> expands d ty seen l fs seen' -> expands d ty seen (FragmentSpread name :: l) fs seen'
| expands_other seen name definition l fs seen' :
    name ∉ seen -> dget (fragments d) name = Some definition -> d_condition definition <> ty ->
    expands d ty (name :: seen) l fs seen' -> expands d ty seen (FragmentSpread name :: l) fs seen'
| expands_spread seen name definition l fs1 seen1 fs2 seen2 :
    name ∉ seen -> dget (fragments d) name = Some definition -> d_condition definition = ty ->
    expands d ty (name :: seen) (d_set definition) fs1 seen1 -> expands d ty seen1 l fs2 seen2 ->
    expands d ty seen (FragmentSpread name :: l) (fs1 ++ fs2) seen2.

Create HintDb graphql.
#[export] Hint Constructors expands : graphql.

Inductive expands_levels (d : Document) (ty : pystr) : list pystr -> list (list selection) -> list field -> Prop :=
| levels_nil seen : expands_levels d ty seen [] []
| levels_cons seen l fs1 seen1 ls fs2 :
    expands d ty seen l fs1 seen1 -> expands_levels d ty seen1 ls fs2 ->
    expands_levels d ty seen (l :: ls) (fs1 ++ fs2).
#[export] Hint Constructors expands_levels : graphql.

(** Adding an item in front of the innermost level. *)
Lemma levels_front d ty seen l ls s fs :
  expands_levels d ty seen (l :: ls) fs ->
  (forall fs1 seen1, expands d ty seen l fs1 seen1 -> expands d ty seen (s :: l) fs1 seen1) ->
  expands_levels d ty seen ((s :: l) :: ls) fs.
Proof. intros H Hs. inversion_clear H. eauto with graphql. Qed.

(** The sequence of two levels is the level of what follows the item. *)
Lemma levels_merge d ty seen seen0 set l ls s fs :
  expands_levels d ty seen0 (set :: l :: ls) fs ->
  (forall fs1 seen1 fs2 seen2, expands d ty seen0 set fs1 seen1 -> expands d ty seen1 l fs2 seen2 ->
    expands d ty seen (s :: l) (fs1 ++ fs2) seen2) ->
  expands_levels d ty seen ((s :: l) :: ls) fs.
Proof.
  intros H Hs. inversion H as [|? ? fs1 seen1 ? fs' H1 H2]; subst.
  inversion H2 as [|? ? fs2 seen2 ? fs3 H3 H4]; subst.
  rewrite app_assoc. econstructor; [by eapply Hs|done].
Qed.

Lemma flatten_loop_expands fuel d ty seen levels found out :
  flatten_loop fuel d ty seen levels found = Ok out ->
  exists fs, out = found ++ fs /\ expands_levels d ty seen levels fs.
Proof.
  revert seen levels found. induction fuel as [|fuel IH]; intros seen levels found H; [done|].
  cbn [flatten_loop] in H. destruct levels as [|[|s rest] levels].
  - injection H as <-. exists []. rewrite app_nil_r. eauto with graphql.
  - apply IH in H as (fs & -> & Hl). exists fs. split; [done|]. change fs with ([] ++ fs). eauto with graphql.
  - destruct s as [f|name|condition set].
    + apply IH in H as (fs & -> & Hl). exists (f :: fs). rewrite <- app_assoc. split; [done|].
      inversion Hl; subst. change (f :: ?a ++ ?b) with ((f :: a) ++ b). eauto with graphql.
    + destruct (bool_decide_reflect (name ∈ seen)) as [Hs|Hs].
      { apply IH in H as (fs & -> & Hl). exists fs. split; [done|]. eapply levels_front; eauto with graphql. }
      destruct (dget (fragments d) name) as [def|] eqn:Hd; [|done].
      destruct (bool_decide_reflect (d_condition def = ty)) as [Hc|Hc];
        apply IH in H as (fs & -> & Hl); exists fs; (split; [done|]).
      * eapply levels_merge; eauto with graphql.
      * inversion Hl; subst. eauto with graphql.
    + change (bool_decide (condition = None) || bool_decide (condition = Some ty)) with (applies condition ty) in H.
      destruct (applies condition ty) eqn:Ha; apply IH in H as (fs & -> & Hl); exists fs; (split; [done|]).
      * eapply levels_merge; eauto with graphql.
      * eapply levels_front; eauto with graphql.
Qed.

Lemma flatten_expands d ty l fs : _flatten d ty l = Ok fs -> exists seen, expands d ty [] l fs seen.
Proof.
  intros (fs' & -> & H)%flatten_loop_expands. inversion H as [|? ? fs1 seen1 ? fs2 H1 H2]; subst.
  inversion H2; subst. rewrite app_nil_r. by exists seen1.
Qed.

(** ** The loop ends *)

Definition levels_size (levels : list (list selection)) : nat := list_sum (map sels_size levels).

Definition flatten_measure (d : Document) (seen : list pystr) (levels : list (list selection)) : nat :=
  2 * (levels_size levels + fragments_size (unexpanded (fragments d) seen)) + length levels.

Lemma levels_size_cons l ls : levels_size (l :: ls) = (sels_size l + levels_size ls)%nat.
Proof. done. Qed.

Lemma unexpanded_mono fs n seen :
  (fragments_size (unexpanded fs (n :: seen)) <= fragments_size (unexpanded fs seen))%nat.
Proof.
  induction fs as [|[k e] fs IH]; [done|]. unfold unexpanded in *. cbn [List.filter fst].
  destruct (decide (k ∈ seen)) as [Hs|Hs].
  - rewrite !bool_decide_eq_true_2 by (by right || done). done.
  - rewrite (bool_decide_eq_false_2 (k ∈ seen)) by done. cbn [negb].
    destruct (negb _); rewrite !fragments_size_cons; lia.
Qed.

Lemma flatten_loop_total fuel d ty seen levels found :
  (flatten_measure d seen levels < fuel)%nat -> flatten_loop fuel d ty seen levels found <> Err FlattenFuel.
Proof.
  revert seen levels found. induction fuel as [|fuel IH]; intros seen levels found Hf; [lia|].
  cbn [flatten_loop]. unfold flatten_measure in Hf. destruct levels as [|[|s rest] levels]; [done| |].
  - apply IH. unfold flatten_measure. rewrite levels_size_cons in Hf. cbn [length] in Hf.
    unfold sels_size in Hf. cbn in Hf. lia.
  - rewrite levels_size_cons, sels_size_cons in Hf. cbn [length] in Hf. pose proof (sel_size_pos s).
    assert (forall seen', (fragments_size (unexpanded (fragments d) seen') <=
      fragments_size (unexpanded (fragments d) seen))%nat -> (flatten_measure d seen' (rest :: levels) < fuel)%nat) as Hskip.
    { intros seen' Hle. unfold flatten_measure. rewrite levels_size_cons. cbn [length]. lia. }
    destruct s as [f|name|condition set].
    + apply IH. by apply Hskip.
    + destruct (bool_decide_reflect (name ∈ seen)) as [Hs|Hs]; [apply IH; by apply Hskip|].
      destruct (dget (fragments d) name) as [def|] eqn:Hd; [|done].
      pose proof (unexpanded_expand (fragments d) seen name def Hd Hs) as Hex.
      destruct (bool_decide (d_condition def = ty)); apply IH; [|apply Hskip; lia].
      unfold flatten_measure. rewrite !levels_size_cons. cbn [length]. lia.
    + cbn [sel_size] in Hf. change (list_sum (map sel_size set)) with (sels_size set) in Hf.
      destruct (_ || _); apply IH; [|by apply Hskip].
      unfold flatten_measure. rewrite !levels_size_cons. cbn [length]. lia.
Qed.

Lemma unexpanded_nil fs : unexpanded fs [] = fs.
Proof. induction fs as [|[k e] fs IH]; [done|]. unfold unexpanded in *. cbn. by rewrite IH. Qed.

Lemma flatten_total d ty l : _flatten d ty l <> Err FlattenFuel.
Proof.
  apply flatten_loop_total. unfold flatten_measure, flatten_fuel. rewrite unexpanded_nil, levels_size_cons.
  cbn. lia.
Qed.

(** ** Fields that expansion reaches *)

(** Spreads anywhere below, and nesting of selection sets of fields. *)
Fixpoint sel_spreads (s : selection) : list pystr :=
  match s with
  | Field (mk_field _ _ _ None) => []
  | Field (mk_field _ _ _ (Some l)) => concat (map sel_spreads l)
  | FragmentSpread n => [n]
  | InlineFragment _ l => concat (map sel_spreads l)
  end.

Definition spreads (l : list selection) : list pystr := concat (map sel_spreads l).

Fixpoint sel_nest (s : selection) : nat :=
  match s with
  | Field (mk_field _ _ _ None) => 0
  | Field (mk_field _ _ _ (Some l)) => S (list_max (map sel_nest l))
  | FragmentSpread _ => 0
  | InlineFragment _ l => list_max (map sel_nest l)
  end.

Definition nest (l : list selection) : nat := list_max (map sel_nest l).

(** Every spread below leads to smaller ranks. *)
Definition ranked (d : Document) (rank : pystr -> nat) : Prop :=
  forall n def m, dget (fragments d) n = Some def -> m ∈ spreads (d_set def) -> (rank m < rank n)%nat.

Lemma spreads_cons s l : spreads (s :: l) = sel_spreads s ++ spreads l.
Proof. done. Qed.

Lemma nest_cons s l : nest (s :: l) = (sel_nest s `max` nest l)%nat.
Proof. done. Qed.

Section stack.
Variables (d : Document) (rank : pystr -> nat) (deep : nat).
Hypothesis Hrank : ranked d rank.
Hypothesis Hdeep : forall n def, dget (fragments d) n = Some def -> (nest (d_set def) <= deep)%nat.

(** [k] bounds the stack below a set: its own nesting, and that of every rank
    of fragments its spreads can reach. *)
Definition within (k : nat) (l : list selection) : Prop :=
  exists r : nat, (forall n, n ∈ spreads l -> (rank n < r)%nat) /\ (nest l + r * deep <= k)%nat.

Lemma within_tail k s l : within k (s :: l) -> within k l.
Proof.
  intros (r & Hr & Hk). exists r. rewrite nest_cons in Hk. split; [|lia].
  intros n Hn. apply Hr. rewrite spreads_cons. set_solver.
Qed.

(** The selection set of an expanded field needs less. *)
Lemma expands_within ty seen l fs seen' k :
  expands d ty seen l fs seen' -> within k l ->
  forall f set, f ∈ fs -> f_set f = Some set -> within (pred k) set /\ (0 < k)%nat.
Proof.
  intros H. revert k. induction H as [|seen f l fs seen' H IH|seen c set' l fs1 s1 fs2 s2 Ha H1 IH1 H2 IH2|
    seen c set' l fs seen' Ha H IH|seen n l fs seen' Hn H IH|seen n def l fs seen' Hn Hd Hc H IH|
    seen n def l fs1 s1 fs2 s2 Hn Hd Hc H1 IH1 H2 IH2]; intros k Hk g set Hg Hset.
  - by apply elem_of_nil in Hg.
  - apply elem_of_cons in Hg as [->|Hg]; [|eapply IH; eauto using within_tail].
    destruct Hk as (r & Hr & Hk). destruct f as [fn fk fa [fset|]]; [|done]. injection Hset as ->.
    rewrite nest_cons in Hk. cbn [sel_nest] in Hk. change (list_max (map sel_nest set)) with (nest set) in Hk.
    split; [|lia]. exists r. split; [|lia]. intros n Hn. apply Hr. rewrite spreads_cons. cbn [sel_spreads].
    change (concat (map sel_spreads set)) with (spreads set). set_solver.
  - apply elem_of_app in Hg as [Hg|Hg]; [|eapply IH2; eauto using within_tail].
    apply (IH1 k) with (f := g); [|done|done]. destruct Hk as (r & Hr & Hk). exists r.
    rewrite nest_cons in Hk. cbn [sel_nest] in Hk. change (list_max (map sel_nest set')) with (nest set') in Hk.
    split; [|lia]. intros n Hn. apply Hr. rewrite spreads_cons. cbn [sel_spreads].
    change (concat (map sel_spreads set')) with (spreads set'). set_solver.
  - eapply IH; eauto using within_tail.
  - eapply IH; eauto using within_tail.
  - eapply IH; eauto using within_tail.
  - apply elem_of_app in Hg as [Hg|Hg]; [|eapply IH2; eauto using within_tail].
    apply (IH1 k) with (f := g); [|done|done]. destruct Hk as (r & Hr & Hk). exists (rank n).
    split; [intros m Hm; by eapply Hrank|]. pose proof (Hdeep n def Hd).
    assert (rank n < r)%nat by (apply Hr; rewrite spreads_cons; cbn; set_solver). nia.
Qed.

Lemma charge_ok (cost : field -> res weigh_error Z) total l :
  (forall f, f ∈ l -> is_ok (cost f) = true) -> is_ok (charge cost total l) = true.
Proof.
  revert total. induction l as [|f l IH]; intros total H; [done|]. cbn [charge].
  pose proof (H f ltac:(by left)) as Hf. destruct (cost f); [cbn [res_bind]|done]. apply IH.
  intros g Hg. apply H. by right.
Qed.

Lemma fields_expands ty l f : f ∈ _fields l d ty -> exists fs seen, expands d ty [] l fs seen /\ f ∈ fs.
Proof.
  unfold _fields. destruct (_flatten d ty l) as [fs|] eqn:E; [|by intros Hf%elem_of_nil].
  apply flatten_expands in E as [seen E]. eauto.
Qed.

(** A stack deeper than the document nests is enough. *)
Lemma weigh_type_ok stack s ty l fanout page k :
  within k l -> (k < stack)%nat -> is_ok (_weigh_type stack s d ty l fanout page) = true.
Proof.
  revert ty l fanout k. induction stack as [|stack IH]; intros ty l fanout k Hk Hlt; [lia|]. cbn [_weigh_type].
  destruct (type_of s ty) as [t|]; [|done]. apply charge_ok. intros f Hf.
  destruct (dget (t_fields t) (f_name f)) as [decl|]; [|done]. destruct (f_set f) as [set|] eqn:Hset; [|done].
  apply fields_expands in Hf as (fs & seen & He & Hf).
  destruct (expands_within _ _ _ _ _ _ He Hk f set Hf Hset) as [Hw Hpos].
  pose proof (IH (s_type_name decl) set (if s_is_list decl then fanout * page else fanout) (pred k) Hw ltac:(lia)) as H.
  by destruct (_weigh_type stack s d (s_type_name decl) set _ page).
Qed.

Lemma weigh_loop_ok stack s rs max page total l :
  (forall f, f ∈ l -> is_ok (weigh_root stack s d rs page f) = true) ->
  match weigh_loop stack s d rs max page total l with Ok w => total <= max -> w <= max | Err e => e = Complexity end.
Proof.
  revert total. induction l as [|f l IH]; intros total H; [cbn; lia|]. cbn [weigh_loop].
  assert (forall g, g ∈ l -> is_ok (weigh_root stack s d rs page g) = true) as Hl by (intros; apply H; by right).
  destruct (dget rs (f_name f)); [|by apply IH]. pose proof (H f ltac:(by left)) as Hf.
  destruct (weigh_root stack s d rs page f) as [c|]; [|done]. cbn [res_bind].
  destruct (Z.ltb_spec max (total + c)); [done|]. specialize (IH (total + c) Hl).
  destruct (weigh_loop stack s d rs max page (total + c) l); [auto|done].
Qed.

Lemma weigh_bounded stack s o max page k :
  within k (o_set o) -> (k <= stack)%nat ->
  match weigh stack s d o max page with Ok w => 0 <= max -> w <= max | Err e => e = Complexity end.
Proof.
  intros Hk Hle. apply weigh_loop_ok. intros f (fs & seen & He & Hf)%fields_expands. unfold weigh_root.
  destruct (dget _ (f_name f)) as [root|]; [|done]. destruct (f_set f) as [set|] eqn:Hset; [|done].
  destruct (expands_within _ _ _ _ _ _ He Hk f set Hf Hset) as [Hw Hpos].
  pose proof (weigh_type_ok stack s (root_type_name root) set (if root_is_list root then page else 1) page
    (pred k) Hw ltac:(lia)) as H.
  by destruct (_weigh_type stack s d _ set _ page).
Qed.

End stack.

(** ** The order of the fields of a level

    [order_fields] returns the selections it was given, each dependency of a
    resolver before the resolver, and refuses only a dependency cycle. *)

(** [m] is among the [requires] of [n]. *)
Definition needs (requires_of : pystr -> option (list pystr)) (n m : pystr) : Prop :=
  exists ds, requires_of n = Some ds /\ m ∈ ds.

Section visit.
Context {A : Type} (requires_of : pystr -> option (list pystr)) (by_name : pystr -> option A).
Hypothesis by_name_inj : forall n m s, by_name n = Some s -> by_name m = Some s -> n = m.

Abbreviation needs := (needs requires_of).
Abbreviation state := (order_state A).

Definition done_with (st : state) (n : pystr) : Prop := dget (placed st) n = Some true.
Definition open_at (st : state) (n : pystr) : Prop := dget (placed st) n = Some false.

(** Every selected dependency of [n], however far, is in [l]. *)
Definition supplied (l : list A) (n : pystr) : Prop :=
  forall m s, tc needs n m -> by_name m = Some s -> s ∈ l.

Record order_ok (st : state) : Prop := {
  ok_closed : forall n m, done_with st n -> needs n m -> done_with st m;
  ok_placed : forall n s, done_with st n -> by_name n = Some s -> s ∈ ordered st;
  ok_origin : forall s, s ∈ ordered st -> exists n, by_name n = Some s /\ done_with st n;
  ok_nodup : NoDup (ordered st);
  ok_before : forall l1 s l2 n, ordered st = l1 ++ s :: l2 -> by_name n = Some s -> supplied l1 n;
  ok_acyclic : forall n, done_with st n -> ~ tc needs n n;
  ok_open : forall n, open_at st n <-> n ∈ visiting st;
  ok_visiting : NoDup (visiting st);
  ok_path : forall l1 n m l2, visiting st = l1 ++ n :: m :: l2 -> needs n m }.

(** What a visit changes: names are closed, none is opened or reopened. *)
Record grows (st st' : state) : Prop := {
  grow_done : forall n, done_with st n -> done_with st' n;
  grow_open : forall n, open_at st n <-> open_at st' n;
  grow_visiting : visiting st' = visiting st }.

Lemma grows_refl st : grows st st.
Proof. by constructor. Qed.

Lemma grows_trans st1 st2 st3 : grows st1 st2 -> grows st2 st3 -> grows st1 st3.
Proof. intros [D O V] [D' O' V']. constructor; [auto|intros n; by rewrite O|congruence]. Qed.

(** A visit may start at [n]: it continues the path. *)
Definition continues (st : state) (n : pystr) : Prop := forall m, last (visiting st) = Some m -> needs m n.

(** Opening a name. *)
Lemma open_ok st n :
  order_ok st -> dget (placed st) n = None -> continues st n ->
  order_ok (mk_order (ordered st) (dset (placed st) n false) (visiting st ++ [n])).
Proof.
  intros [Cl Pl Or Nd Be Ac Op Vi Pa] Hn Hc. unfold done_with, open_at in *.
  constructor; cbn [ordered placed visiting]; unfold done_with, open_at; cbn [placed]; try done.
  - intros a b. rewrite !dget_dset. repeat case_decide; subst; try done.
    + intros Ha Hab. by rewrite (Cl a b Ha Hab) in Hn.
    + apply Cl.
  - intros a s. rewrite dget_dset. case_decide; [done|]. apply Pl.
  - intros s Hs. destruct (Or s Hs) as (a & Ha & Hd). exists a. split; [done|].
    rewrite dget_dset. case_decide; [subst; congruence|done].
  - intros a. rewrite dget_dset. case_decide; [done|apply Ac].
  - intros a. rewrite dget_dset, elem_of_app, elem_of_cons, <- Op. case_decide; [subst; split; [set_solver|done]|].
    split; [by left|]. intros [?|[?|?%elem_of_nil]]; [done|congruence|done].
  - apply NoDup_app. split_and!; [done| |by apply NoDup_singleton].
    intros a Ha ->%list_elem_of_singleton. apply Op in Ha. congruence.
  - intros l1 a b l2 E. destruct l2 as [|x l2 _] using rev_ind.
    + assert (visiting st = l1 ++ [a] /\ n = b) as [E1 ->].
      { replace (l1 ++ [a; b]) with ((l1 ++ [a]) ++ [b]) in E by (by rewrite <- app_assoc).
        by apply app_inj_tail in E. }
      apply Hc. by rewrite E1, last_snoc.
    + apply (Pa l1 a b l2). rewrite !app_comm_cons, app_assoc in E. by apply app_inj_tail in E as [-> _].
Qed.

(** Closing it, once its dependencies are. *)
Lemma close_ok st n V :
  order_ok st -> visiting st = V ++ [n] -> (forall m, needs n m -> done_with st m) ->
  order_ok (mk_order (match by_name n with Some s => ordered st ++ [s] | None => ordered st end)
    (dset (placed st) n true) V).
Proof.
  intros [Cl Pl Or Nd Be Ac Op Vi Pa] HV Hdeps. rewrite HV in *. unfold done_with, open_at in *.
  assert (dget (placed st) n = Some false) as Hn by (apply Op; set_solver).
  assert (forall s, by_name n = Some s -> s ∉ ordered st) as Hfresh.
  { intros s Hs (m & Hm & Hd)%Or. assert (m = n) as -> by eauto. congruence. }
  assert (forall m, tc needs n m -> dget (placed st) m = Some true) as Htc.
  { intros m Hm. revert Hdeps. clear -Hm Cl. induction Hm as [a b Hab|a b e Hab _ IH]; intros Hdeps; eauto. }
  apply NoDup_app in Vi as (Vi & Hnotin & _).
  constructor; cbn [ordered placed visiting]; unfold done_with, open_at; cbn [placed].
  - intros a b. rewrite !dget_dset. repeat case_decide; subst; eauto.
  - intros a s. rewrite dget_dset. case_decide as E; [subst; intros _ ->; set_solver|].
    intros Ha Hs. specialize (Pl a s Ha Hs). destruct (by_name n); set_solver.
  - intros s Hs. destruct (by_name n) as [s'|] eqn:Hb; [apply elem_of_app in Hs as [Hs|Hs]|].
    + destruct (Or s Hs) as (a & Ha & Hd). exists a. rewrite dget_dset. case_decide; by subst.
    + apply list_elem_of_singleton in Hs as ->. exists n. rewrite dget_dset. by case_decide.
    + destruct (Or s Hs) as (a & Ha & Hd). exists a. rewrite dget_dset. case_decide; by subst.
  - destruct (by_name n) as [s|] eqn:Hb; [|done]. apply NoDup_app. split_and!; [done| |by apply NoDup_singleton].
    intros x Hx ->%list_elem_of_singleton. by apply (Hfresh s).
  - intros l1 s l2 a E Ha. destruct (by_name n) as [s'|] eqn:Hb; [|by eapply Be].
    destruct l2 as [|x l2 _] using rev_ind.
    + apply app_inj_tail in E as [<- <-]. assert (a = n) as -> by eauto. intros m s Hm Hs. eauto.
    + rewrite app_comm_cons, app_assoc in E. apply app_inj_tail in E as [E _]. by eapply Be.
  - intros a. rewrite dget_dset. case_decide; [|apply Ac]. subst. intros _ Hc%Htc. congruence.
  - intros a. rewrite dget_dset. case_decide as E; [subst; split; [done|]|].
    + intros Ha. exfalso. by apply (Hnotin a Ha), list_elem_of_singleton.
    + rewrite Op, elem_of_app, list_elem_of_singleton. naive_solver.
  - done.
  - intros l1 a b l2 E. apply (Pa l1 a b (l2 ++ [n])). by rewrite E, <- app_assoc.
Qed.

Lemma visit_S stack st name :
  visit (S stack) requires_of by_name st name =
  match dget (placed st) name with
  | Some true => Ok st
  | Some false => Err (ResolverError (from_name name (visiting st) ++ [name]))
  | None =>
    let! st :=
      match requires_of name with
      | None => Ok st
      | Some dependencies =>
        let! st := visit_all stack requires_of by_name
          (mk_order (ordered st) (dset (placed st) name false) (visiting st ++ [name])) dependencies in
        Ok (mk_order (ordered st) (placed st) (removelast (visiting st)))
      end in
    Ok (mk_order (match by_name name with Some s => ordered st ++ [s] | None => ordered st end)
          (dset (placed st) name true) (visiting st))
  end.
Proof.
  cbn [visit]. destruct (dget (placed st) name) as [[]|]; [done..|].
  destruct (requires_of name) as [ds|]; [|done]. do 2 f_equal.
  generalize (mk_order (ordered st) (dset (placed st) name false) (visiting st ++ [name])).
  induction ds as [|d ds IH]; intros s; [done|]. cbn [visit_all].
  destruct (visit stack requires_of by_name s d); [cbn [res_bind]; apply IH|done].
Qed.

Lemma dset_dset (l : list (pystr * bool)) k a b : dset (dset l k a) k b = dset l k b.
Proof.
  induction l as [|[k' v] l IH]; cbn [dset]; [case_decide; congruence|].
  destruct (decide (k' = k)) as [->|Hne]; cbn [dset]; [case_decide; congruence|]. case_decide; [done|by rewrite IH].
Qed.

(** Each name of the list needs the next. *)
Definition chain (l : list pystr) : Prop := forall l1 a b l2, l = l1 ++ a :: b :: l2 -> needs a b.

(** A cycle as it is reported: its first name is its last. *)
Definition is_cycle (l : list pystr) : Prop := exists n l', l = n :: l' ++ [n] /\ chain l.

Lemma chain_cons_inv a l : chain (a :: l) -> chain l.
Proof. intros H l1 x y l2 E. apply (H (a :: l1) x y l2). by rewrite E. Qed.

Lemma chain_snoc l n : chain l -> (forall m, last l = Some m -> needs m n) -> chain (l ++ [n]).
Proof.
  intros Hp Hl l1 a b l2 E. destruct l2 as [|x l2 _] using rev_ind.
  - assert (l = l1 ++ [a] /\ n = b) as [E1 ->]; [|apply Hl; by rewrite E1, last_snoc].
    replace (l1 ++ [a; b]) with ((l1 ++ [a]) ++ [b]) in E by (by rewrite <- app_assoc). by apply app_inj_tail in E.
  - apply (Hp l1 a b l2). rewrite !app_comm_cons, app_assoc in E. by apply app_inj_tail in E as [-> _].
Qed.

Lemma chain_rtc l a b : chain (a :: l ++ [b]) -> tc needs a b.
Proof.
  revert a. induction l as [|x l IH]; intros a H.
  - apply tc_once. apply (H [] a b []). done.
  - eapply tc_l; [by apply (H [] a x (l ++ [b]))|]. apply IH. by apply chain_cons_inv in H.
Qed.

Lemma cycle_tc l : is_cycle l -> exists n, head l = Some n /\ tc needs n n.
Proof. intros (n & l' & -> & H). exists n. split; [done|by eapply chain_rtc]. Qed.

Lemma from_name_suffix l n : n ∈ l -> exists l1 l2, l = l1 ++ n :: l2 /\ from_name n l = n :: l2.
Proof.
  induction l as [|m l IH]; [by intros ?%elem_of_nil|]. cbn [from_name]. intros Hn.
  case_decide; [subst; by exists [], l|]. apply elem_of_cons in Hn as [->|Hn]; [done|].
  destruct (IH Hn) as (l1 & l2 & -> & ->). by exists (m :: l1), l2.
Qed.

Lemma path_closes l n :
  chain l -> (forall m, last l = Some m -> needs m n) -> n ∈ l -> is_cycle (from_name n l ++ [n]).
Proof.
  intros Hp Hl (l1 & l2 & E & ->)%from_name_suffix. exists n, l2. split; [done|].
  pose proof (chain_snoc l n Hp Hl) as H. rewrite E, <- app_assoc in H. clear -H.
  induction l1 as [|a l1 IH]; [done|]. apply IH. by apply chain_cons_inv in H.
Qed.

(** What a visit does, and when it refuses. *)
Definition visited (st : state) (names : list pystr) (out : res execution_error state) : Prop :=
  match out with
  | Ok st' => order_ok st' /\ grows st st' /\ forall n, n ∈ names -> done_with st' n
  | Err (ResolverError cycle) => is_cycle cycle
  | Err e => e = StackOverflow
  end.

Lemma visit_all_ok stack :
  (forall st n, order_ok st -> continues st n -> visited st [n] (visit stack requires_of by_name st n)) ->
  forall names st, order_ok st -> (forall n, n ∈ names -> continues st n) ->
  visited st names (visit_all stack requires_of by_name st names).
Proof.
  intros Hv. induction names as [|n names IH]; intros st Hst Hc; cbn [visit_all].
  { split_and!; [done|apply grows_refl|by intros n Hn%elem_of_nil]. }
  pose proof (Hv st n Hst (Hc n ltac:(by left))) as H.
  destruct (visit stack requires_of by_name st n) as [st1|e] eqn:E; cbn [res_bind]; [|by destruct e].
  destruct H as (Hst1 & Hg & Hn).
  assert (forall m, m ∈ names -> continues st1 m) as Hc1.
  { intros m Hm x. rewrite (grow_visiting _ _ Hg). by apply Hc; right. }
  specialize (IH st1 Hst1 Hc1). destruct (visit_all stack requires_of by_name st1 names) as [st2|e]; [|by destruct e].
  destruct IH as (Hst2 & Hg2 & Hns). split_and!; [done|by eapply grows_trans|].
  intros m [->|Hm]%elem_of_cons; [|auto]. apply (grow_done _ _ Hg2), Hn. by left.
Qed.

Lemma visit_ok stack st n :
  order_ok st -> continues st n -> visited st [n] (visit stack requires_of by_name st n).
Proof.
  revert st n. induction stack as [|stack IH]; intros st n Hst Hc; [done|]. rewrite visit_S.
  destruct (dget (placed st) n) as [[|]|] eqn:Hn.
  - split_and!; [done|apply grows_refl|by intros m ->%list_elem_of_singleton].
  - apply (path_closes (visiting st)); [exact (ok_path _ Hst)|exact Hc|by apply (ok_open _ Hst)].
  - pose proof (open_ok st n Hst Hn Hc) as Hop.
    set (st1 := mk_order (ordered st) (dset (placed st) n false) (visiting st ++ [n])) in *.
    assert (forall st2, order_ok st2 -> grows st1 st2 -> (forall m, needs n m -> done_with st2 m) ->
      visited st [n] (Ok (mk_order (match by_name n with Some s => ordered st2 ++ [s] | None => ordered st2 end)
        (dset (placed st2) n true) (visiting st)))) as Hclose.
    { intros st2 Hst2 [D O V] Hdeps. cbn. split_and!.
      - by apply close_ok.
      - constructor; unfold done_with, open_at; cbn [placed visiting]; [| |done].
        + intros m Hm. rewrite dget_dset. case_decide; [done|]. apply D. unfold done_with, st1. cbn [placed].
          rewrite dget_dset. by rewrite decide_False.
        + intros m. rewrite dget_dset. case_decide; [subst; split; congruence|]. unfold open_at in O. rewrite <- O.
          unfold st1. cbn [placed]. rewrite dget_dset. by rewrite decide_False.
      - intros m ->%list_elem_of_singleton. unfold done_with. cbn [placed]. rewrite dget_dset. by rewrite decide_True. }
    destruct (requires_of n) as [ds|] eqn:Hds; cbn [res_bind].
    + pose proof (visit_all_ok stack IH ds st1 Hop) as H.
      destruct (visit_all stack requires_of by_name st1 ds) as [st2|e] eqn:E; cbn [res_bind].
      * destruct H as (Hst2 & Hg & Hd).
        { intros m Hm x. unfold st1. cbn [visiting]. rewrite last_snoc. intros [= <-]. by exists ds. }
        cbn [ordered placed visiting]. rewrite (grow_visiting _ _ Hg). unfold st1 at 1. cbn [visiting].
        rewrite removelast_last. apply Hclose; [done|done|]. intros m (ds' & E' & Hm). rewrite Hds in E'.
        injection E' as <-. auto.
      * assert (visited st1 ds (Err e)) as He.
        { apply H. intros m Hm x. unfold st1. cbn [visiting]. rewrite last_snoc. intros [= <-]. by exists ds. }
        by destruct e.
    + pose proof (Hclose st1 Hop (grows_refl _)) as H. unfold st1 in H at 2 3 4. cbn [ordered placed] in H.
      rewrite dset_dset in H. apply H. intros m (ds & E & _). congruence.
Qed.

Lemma order_ok_empty : order_ok (mk_order [] [] []).
Proof.
  constructor; cbn; unfold done_with, open_at; cbn; try done; try (intros; set_solver).
  - constructor.
  - by intros [] ? ? ?.
  - constructor.
  - by intros [] ? ? ?.
Qed.

(** A stack as deep as there are names with a resolver is enough. *)
Section deep.
Variable names : list pystr.
Hypothesis Hnames : forall n ds, requires_of n = Some ds -> n ∈ names.

Definition deep_enough (stack : nat) (st : state) : Prop :=
  visiting st ⊆ names /\ (length names < stack + length (visiting st))%nat.

Lemma visit_deep stack st n :
  order_ok st -> continues st n -> deep_enough stack st ->
  visit stack requires_of by_name st n <> Err StackOverflow.
Proof.
  revert st n. induction stack as [|stack IH]; intros st n Hst Hc [Hsub Hlen].
  { pose proof (NoDup_incl_length (proj1 (NoDup_ListNoDup _) (ok_visiting _ Hst)) (l' := names)) as H.
    assert (length (visiting st) <= length names)%nat; [apply H|lia].
    intros x Hx%list_elem_of_In. by apply list_elem_of_In, Hsub. }
  rewrite visit_S. destruct (dget (placed st) n) as [[|]|] eqn:Hn; [done..|].
  destruct (requires_of n) as [ds|] eqn:Hds; [|done]. cbn [res_bind].
  pose proof (open_ok st n Hst Hn Hc) as Hop.
  set (st1 := mk_order (ordered st) (dset (placed st) n false) (visiting st ++ [n])) in *.
  assert (deep_enough stack st1) as Hd1.
  { split; unfold st1; cbn [visiting]; [|rewrite length_app; cbn; lia].
    intros x [Hx|Hx]%elem_of_app; [by apply Hsub|]. apply list_elem_of_singleton in Hx as ->. by eapply Hnames. }
  assert (forall m, m ∈ ds -> continues st1 m) as Hc1.
  { intros m Hm x. unfold st1. cbn [visiting]. rewrite last_snoc. intros [= <-]. by exists ds. }
  clearbody st1. enough (visit_all stack requires_of by_name st1 ds <> Err StackOverflow) as H.
  { destruct (visit_all stack requires_of by_name st1 ds); [done|cbn [res_bind]; congruence]. }
  clear Hds. induction ds as [|d ds IHd] in st1, Hop, Hd1, Hc1 |- *; [done|]. cbn [visit_all].
  pose proof (IH st1 d Hop (Hc1 d ltac:(by left)) Hd1) as H.
  pose proof (visit_ok stack st1 d Hop (Hc1 d ltac:(by left))) as Hv.
  destruct (visit stack requires_of by_name st1 d) as [st2|e]; cbn [res_bind]; [|congruence].
  destruct Hv as (Hst2 & Hg & _). apply IHd; [done| |].
  - destruct Hd1 as [Hs1 Hl1]. split; by rewrite (grow_visiting _ _ Hg).
  - intros m Hm x. rewrite (grow_visiting _ _ Hg). apply Hc1. by right.
Qed.

Lemma visit_all_deep stack st l :
  order_ok st -> visiting st = [] -> (length names < stack)%nat ->
  visit_all stack requires_of by_name st l <> Err StackOverflow.
Proof.
  intros Hst Hv Hlen. induction l as [|n l IH] in st, Hst, Hv |- *; [done|]. cbn [visit_all].
  assert (continues st n) as Hc by (intros x; by rewrite Hv).
  assert (deep_enough stack st) as Hd by (split; rewrite Hv; [set_solver|cbn; lia]).
  pose proof (visit_deep stack st n Hst Hc Hd) as H. pose proof (visit_ok stack st n Hst Hc) as Hok.
  destruct (visit stack requires_of by_name st n) as [st2|e]; cbn [res_bind]; [|congruence].
  destruct Hok as (Hst2 & Hg & _). apply IH; [done|]. by rewrite (grow_visiting _ _ Hg).
Qed.

End deep.

End visit.


(** *** The order of the selections *)

Lemma numbered_snd l : map snd (numbered l) = l.
Proof. apply snd_zip. by rewrite length_seq. Qed.

Lemma numbered_nodup l : NoDup (map fst (numbered l)).
Proof. unfold numbered. rewrite fst_zip by (by rewrite length_seq). apply NoDup_seq. Qed.

Lemma first_named_In items n i : first_named items n = Some i -> i ∈ items /\ f_name i.2 = n.
Proof.
  intros [H1 H2]%List.find_some. apply bool_decide_eq_true in H2. by rewrite list_elem_of_In.
Qed.

Lemma first_named_some items i : i ∈ items -> exists j, first_named items (f_name i.2) = Some j.
Proof.
  intros Hi. destruct (first_named items (f_name i.2)) as [j|] eqn:E; [by exists j|].
  pose proof (List.find_none _ _ E i (proj1 (list_elem_of_In _ _) Hi)) as H. cbn in H.
  by rewrite bool_decide_eq_true_2 in H.
Qed.

Lemma first_named_inj items n m i :
  first_named items n = Some i -> first_named items m = Some i -> n = m.
Proof. intros [_ <-]%first_named_In [_ <-]%first_named_In. done. Qed.

Lemma fst_inj_on {A : Type} (l : list (nat * A)) i j :
  NoDup (map fst l) -> i ∈ l -> j ∈ l -> i.1 = j.1 -> i = j.
Proof.
  induction l as [|x l IH]; [by intros _ ?%elem_of_nil|]. cbn [map]. intros [Hx Hn]%NoDup_cons.
  intros [->|Hi]%elem_of_cons [->|Hj]%elem_of_cons E; [done| | |auto]; destruct Hx.
  - rewrite E. by apply list_elem_of_fmap_2.
  - rewrite <- E. by apply list_elem_of_fmap_2.
Qed.

(** A part without repetitions and the rest of the list are the list. *)
Lemma rest_permutation {A : Type} (l k : list (nat * A)) :
  NoDup (map fst l) -> NoDup k -> (forall i, i ∈ k -> i ∈ l) ->
  k ++ List.filter (fun i => negb (bool_decide (i.1 ∈ map fst k))) l ≡ₚ l.
Proof.
  intros Hl Hk Hsub.
  assert (forall i, i ∈ l -> (i.1 ∈ map fst k <-> i ∈ k)) as Hin.
  { intros i Hi. split; [|intros H; by apply list_elem_of_fmap_2].
    intros (j & E & Hj)%list_elem_of_fmap. by rewrite (fst_inj_on l i j Hl Hi (Hsub j Hj) E). }
  assert (forall i, i ∈ List.filter (fun i => negb (bool_decide (i.1 ∈ map fst k))) l <-> i ∈ l /\ i ∉ k) as Hf.
  { intros i. rewrite list_elem_of_In, List.filter_In, <- list_elem_of_In, negb_true_iff, bool_decide_eq_false.
    split; intros [Hi Hn]; (split; [done|]); by rewrite Hin in *. }
  assert (NoDup l) as Hnl by by eapply NoDup_fmap_1.
  apply NoDup_Permutation; [|done|].
  - apply NoDup_app. split_and!; [done| |].
    + intros i Hi Hr%Hf. by destruct Hr.
    + apply NoDup_ListNoDup, List.NoDup_filter, NoDup_ListNoDup, Hnl.
  - intros i. rewrite elem_of_app, Hf. split; [naive_solver|]. intros Hi.
    destruct (decide (i.1 ∈ map fst k)) as [Hk'|Hk']; rewrite Hin in Hk' by done; auto.
Qed.

(** Every selected dependency of [f] has a selection in [before]. *)
Definition ready (requires_of : pystr -> option (list pystr)) (selected before : list field) (f : field) : Prop :=
  forall m, tc (needs requires_of) (f_name f) m -> m ∈ map f_name selected -> m ∈ map f_name before.

Section order_fields.
Variable requires_of : pystr -> option (list pystr).

Lemma order_fields_out stack selected :
  match order_fields stack requires_of selected with
  | Ok out =>
    out ≡ₚ selected /\
    (forall l1 f l2, out = l1 ++ f :: l2 -> ready requires_of selected l1 f) /\
    (forall f, f ∈ selected -> ~ tc (needs requires_of) (f_name f) (f_name f))
  | Err (ResolverError cycle) => is_cycle requires_of cycle
  | Err e => e = StackOverflow
  end.
Proof.
  unfold order_fields. set (items := numbered selected).
  pose proof (first_named_inj items) as Hinj.
  assert (forall n, n ∈ map f_name selected -> exists i, first_named items n = Some i) as Hfirst.
  { intros n (f & -> & Hf)%list_elem_of_fmap.
    assert (f ∈ map snd items) as (i & -> & Hi)%list_elem_of_fmap by (unfold items; by rewrite numbered_snd).
    by apply first_named_some. }
  pose proof (visit_all_ok requires_of (first_named items) stack
    (visit_ok requires_of (first_named items) Hinj stack) (map f_name selected) (mk_order [] [] [])
    (order_ok_empty _ _ Hinj) ltac:(done)) as H.
  destruct (visit_all _ _ _ _ _) as [st|e]; [|by destruct e]. cbn [res_bind]. destruct H as (Hst & _ & Hdone).
  assert (forall i, i ∈ ordered st -> i ∈ items) as Hsub.
  { intros i Hi. destruct (ok_origin _ _ _ Hst i Hi) as (n & Hn & _). by apply first_named_In in Hn as [Hn _]. }
  assert (forall n i, n ∈ map f_name selected -> first_named items n = Some i -> i ∈ ordered st) as Hpl.
  { intros n i Hn Hi. by apply (ok_placed _ _ _ Hst n), Hi; apply Hdone. }
  split_and!.
  - rewrite (rest_permutation items) by (apply numbered_nodup || apply (ok_nodup _ _ _ Hst) || done).
    unfold items. by rewrite numbered_snd.
  - intros l1 f l2 E m Hm Hsel. destruct (Hfirst m Hsel) as [j Hj].
    assert (f_name j.2 = m) as Hjm by by apply first_named_In in Hj as [_ ?].
    enough (forall L1 i L2, ordered st ++ List.filter (fun i => negb (bool_decide (i.1 ∈ map fst (ordered st)))) items =
      L1 ++ i :: L2 -> i.2 = f -> j ∈ L1) as Hin.
    { apply fmap_app_inv in E as (L1 & [|i L2] & -> & Ef & E); [done|]. injection Ef as Ef _.
      apply list_elem_of_fmap. exists j.2. split; [done|]. apply list_elem_of_fmap_2. by apply (Hin L1 i L2). }
    intros L1 i L2 E' Hi. destruct (app_eq_inv _ _ _ _ E') as [(k & Ek & E2)|(k & -> & _)].
    2: { apply elem_of_app. left. by apply (Hpl m). }
    destruct k as [|i' k]; [rewrite app_nil_r in Ek; rewrite <- Ek; by apply (Hpl m)|].
    injection E2 as <- _. destruct (ok_origin _ _ _ Hst i) as (n & Hn & _); [rewrite Ek; set_solver|].
    apply (ok_before _ _ _ Hst L1 i k n Ek Hn m j); [|done].
    apply first_named_In in Hn as [_ <-]. by rewrite Hi.
  - intros f Hf. apply (ok_acyclic _ _ _ Hst), Hdone. by apply list_elem_of_fmap_2.
Qed.
(** A stack deeper than there are resolvers is enough. *)
Lemma order_fields_deep names stack selected :
  (forall n ds, requires_of n = Some ds -> n ∈ names) -> (length names < stack)%nat ->
  order_fields stack requires_of selected <> Err StackOverflow.
Proof.
  intros Hnames Hlen. unfold order_fields.
  pose proof (visit_all_deep requires_of (first_named (numbered selected)) (first_named_inj _) names Hnames stack
    (mk_order [] [] []) (map f_name selected) (order_ok_empty _ _ (first_named_inj _)) eq_refl Hlen) as H.
  destruct (visit_all _ _ _ _ _); [done|]. cbn [res_bind]. congruence.
Qed.

End order_fields.

Lemma requires_of_declared declared n ds : requires_of declared n = Some ds -> n ∈ map fst declared.
Proof.
  unfold requires_of. destruct (dget declared n) as [d|] eqn:E; [intros _|done].
  by apply dget_elem, (list_elem_of_fmap_2 fst) in E.
Qed.
