(* ===== verification/GraphqlExecuteFacts.v ===== *)
(** * Steps of a run

    A partial-correctness logic for the run's monad, the children of a level
    flattened into one and handed back, and what resolvers and argument lists
    return. *)

From stdpp Require Import base sets strings numbers list gmap.
From Stdlib Require Import ZArith Lia.
From S2P Require Import Prelude PyCollections GraphqlCost GraphqlExecute.
#[local] Open Scope Z_scope.

(** ** Outcomes of a run *)

(** Every result of [m] from [st] meets [Q]. *)
Definition wp {A} (m : M A) (st : run_state) (Q : A -> run_state -> Prop) : Prop :=
  forall a st', m st = Ok (a, st') -> Q a st'.

Lemma wp_ret {A} (a : A) st (Q : A -> run_state -> Prop) : Q a st -> wp (ret a) st Q.
Proof. by intros H ? ? [= <- <-]. Qed.

Lemma wp_fail {A} e st (Q : A -> run_state -> Prop) : wp (fail e) st Q.
Proof. by intros ? ?. Qed.

Lemma wp_bind {A B} (m : M A) (k : A -> M B) st (Q : B -> run_state -> Prop) :
  wp m st (fun a st' => wp (k a) st' Q) -> wp (bind m k) st Q.
Proof.
  intros H b st'. unfold bind. destruct (m st) as [[a st1]|] eqn:E; [|done]. intros Hk. by apply (H a st1 E).
Qed.

Lemma wp_lift {A} (r : res execution_error A) st (Q : A -> run_state -> Prop) :
  (forall a, r = Ok a -> Q a st) -> wp (lift r) st Q.
Proof. intros H a st'. unfold lift. destruct r; [|done]. intros [= <- <-]. by apply H. Qed.

Lemma wp_mono {A} (m : M A) st (Q Q' : A -> run_state -> Prop) :
  wp m st Q -> (forall a st', Q a st' -> Q' a st') -> wp m st Q'.
Proof. intros H HQ a st' E. by apply HQ, H. Qed.

Create HintDb wp.
#[export] Hint Resolve wp_ret wp_fail : wp.

(** An invariant of the loop, indexed by what has been consumed. *)
Lemma wp_fold {A B} (f : B -> A -> M B) (I : list A -> B -> run_state -> Prop) l acc st :
  I [] acc st ->
  (forall l1 x l2 b st', l = l1 ++ x :: l2 -> I l1 b st' -> wp (f b x) st' (I (l1 ++ [x]))) ->
  wp (fold_m f acc l) st (I l).
Proof.
  enough (forall l2 l1 b st', l = l1 ++ l2 -> I l1 b st' ->
    (forall l1 x l2 b st', l = l1 ++ x :: l2 -> I l1 b st' -> wp (f b x) st' (I (l1 ++ [x]))) ->
    wp (fold_m f b l2) st' (I l)) as H by (intros; by apply (H l [])).
  induction l2 as [|x l2 IH]; intros l1 b st' E HI Hstep.
  - apply wp_ret. by rewrite E, app_nil_r.
  - cbn [fold_m]. apply wp_bind. eapply wp_mono; [by eapply Hstep|]. intros b' st'' HI'.
    apply (IH (l1 ++ [x])); [by rewrite <- app_assoc|done|done].
Qed.

Section run.
Context {W : World}.

(** ** Levels flattened and handed back *)

(** The objects below one value of a column. *)
Definition below (is_list : bool) (v : obj) : option (list obj) :=
  if is_list then (if is_none v then Some [] else iterate v) else Some (if is_none v then [] else [v]).

(** What the projected objects below a value become. *)
Definition regroup (is_list : bool) (v : obj) (rows : list data) : data :=
  if is_list then DList rows else if is_none v then DNone else match rows with d :: _ => d | [] => DNone end.

(** One run of the objects below the values, and its rows dealt out. *)
Inductive levelled (is_list : bool) : list obj -> list obj -> list data -> list data -> Prop :=
| levelled_nil : levelled is_list [] [] [] []
| levelled_cons v values own flat rows own_rows rest :
    below is_list v = Some own -> length own_rows = length own ->
    levelled is_list values flat rows rest ->
    levelled is_list (v :: values) (own ++ flat) (own_rows ++ rows) (regroup is_list v own_rows :: rest).

(** The layout of [flatten_values] hands every value the rows of the objects
    below it, in order. *)
Lemma restore_levelled is_list values before flat layout rows :
  flatten_values is_list (length before) values = Some (flat, layout) -> length rows = length flat ->
  exists out, restore (before ++ rows) layout = Some out /\ levelled is_list values flat rows out.
Proof.
  revert before flat layout rows. induction values as [|v values IH]; intros before flat layout rows H Hlen.
  { injection H as <- <-. apply nil_length_inv in Hlen as ->. exists []. split; [done|constructor]. }
  cbn [flatten_values] in H. 
  set (own_slot := if is_list then _ else _) in H.
  destruct own_slot as [[own s]|] eqn:Eo; [|done]. subst own_slot.
  assert (below is_list v = Some own) as Hb.
  { unfold below. destruct is_list; [destruct (if is_none v then _ else _) as [l|]|destruct (is_none v)];
      try done; by injection Eo as <- <-. }
  destruct (flatten_values is_list (length before + length own) values) as [[flat' layout']|] eqn:E; [|done].
  injection H as <- <-. rewrite length_app in Hlen.
  rewrite <- (take_drop (length own) rows). set (own_rows := take (length own) rows) in *.
  set (rows' := drop (length own) rows) in *.
  assert (length own_rows = length own) as Ho by (apply length_take_le; lia).
  rewrite <- Ho, <- length_app in E. apply IH with (rows := rows') in E as (out & Hr & Hl);
    [|unfold rows'; rewrite length_drop; lia].
  exists (regroup is_list v own_rows :: out). split; [|by constructor].
  cbn [restore]. rewrite app_assoc, Hr.
  replace (layout_value ((before ++ own_rows) ++ rows') s) with (Some (regroup is_list v own_rows)); [done|].
  unfold below in Hb. unfold regroup. rewrite <- app_assoc. destruct is_list.
  - destruct (if is_none v then _ else _); [|done]. injection Eo as -> <-. cbn [layout_value].
    by rewrite drop_app_length, <- Ho, take_app_length.
  - destruct (is_none v); injection Eo as <- <-; [done|]. cbn [layout_value].
    destruct own_rows as [|d [|? ?]]; [done| |done]. by rewrite lookup_app_r, Nat.sub_diag by lia.
Qed.

Lemma levelled_rows is_list values flat rows out : levelled is_list values flat rows out ->
  length rows = length flat.
Proof. induction 1; [done|]. rewrite !length_app. lia. Qed.

Lemma levelled_flatten is_list values flat rows out at_ : levelled is_list values flat rows out ->
  exists layout, flatten_values is_list at_ values = Some (flat, layout).
Proof.
  intros H. revert at_. induction H as [|v values own flat rows own_rows rest Hb Hlen _ IH]; intros at_; [by eexists|].
  cbn [flatten_values]. destruct (IH (at_ + length own)%nat) as [layout E]. unfold below in Hb. destruct is_list.
  - destruct (if is_none v then _ else _) as [l|]; [|done]. injection Hb as ->. rewrite E. by eexists.
  - injection Hb as <-. destruct (is_none v); rewrite E; by eexists.
Qed.

Lemma levelled_fun is_list values flat rows out flat' out' :
  levelled is_list values flat rows out -> levelled is_list values flat' rows out' -> flat = flat' /\ out = out'.
Proof.
  intros H. revert flat' out'. induction H as [|v values own flat rows own_rows rest Hb Hlen _ IH]; intros flat' out' H'.
  { by inversion H'. }
  inversion H' as [|? ? own' flat2 rows2 own_rows' rest' Hb' Hlen' Hl']; subst.
  assert (own' = own) as -> by congruence. assert (own_rows' = own_rows /\ rows2 = rows) as [-> ->].
  { apply app_inj_1; [congruence|done]. }
  by destruct (IH _ _ Hl') as [-> ->].
Qed.

Lemma levelled_app is_list v1 v2 flat rows out :
  levelled is_list (v1 ++ v2) flat rows out <->
  exists f1 f2 r1 r2 o1 o2, flat = f1 ++ f2 /\ rows = r1 ++ r2 /\ out = o1 ++ o2 /\
    levelled is_list v1 f1 r1 o1 /\ levelled is_list v2 f2 r2 o2.
Proof.
  revert flat rows out. induction v1 as [|v v1 IH]; intros flat rows out; cbn [app].
  - split.
    + intros H. exists [], flat, [], rows, [], out. split_and!; [done..|constructor|done].
    + intros (f1 & f2 & r1 & r2 & o1 & o2 & -> & -> & -> & H1 & H2). by inversion H1.
  - split.
    + inversion 1 as [|? ? own flat' rows' own_rows rest Hb Hlen Hl]; subst.
      apply IH in Hl as (f1 & f2 & r1 & r2 & o1 & o2 & -> & -> & -> & H1 & H2).
      exists (own ++ f1), f2, (own_rows ++ r1), r2, (regroup is_list v own_rows :: o1), o2.
      rewrite <- !app_assoc. split_and!; [done..|by constructor|done].
    + intros (f1 & f2 & r1 & r2 & o1 & o2 & -> & -> & -> & H1 & H2).
      inversion H1 as [|? ? own flat' rows' own_rows rest Hb Hlen Hl]; subst.
      rewrite <- !app_assoc. constructor; [done|done|]. apply IH. by exists flat', f2, rows', r2, rest, o2.
Qed.

Lemma levelled_length is_list values flat rows out : levelled is_list values flat rows out ->
  length out = length values.
Proof. induction 1; cbn; lia. Qed.

(** ** Resolvers *)

Variable c : Run.

Lemma call_each_length spec arguments parents values :
  call_each spec arguments parents = Ok values -> length values = length parents.
Proof.
  revert values. induction parents as [|p parents IH]; intros values H; [by injection H as <-|].
  cbn [call_each] in H. destruct (call_one spec p arguments) as [v|]; [|done].
  destruct (call_each spec arguments parents) as [l|]; [|done]. cbn [res_bind] in H. injection H as <-.
  cbn. by rewrite (IH l).
Qed.

Lemma call_each_elem spec arguments parents values v :
  call_each spec arguments parents = Ok values -> v ∈ values -> exists p, p ∈ parents /\ call_one spec p arguments = Some v.
Proof.
  revert values. induction parents as [|p parents IH]; intros values H; [injection H as <-; by intros ?%elem_of_nil|].
  cbn [call_each] in H. destruct (call_one spec p arguments) as [w|] eqn:E; [|done].
  destruct (call_each spec arguments parents) as [l|]; [|done]. cbn [res_bind] in H. injection H as <-.
  intros [->|Hv]%elem_of_cons; [exists p; split; [by left|done]|].
  destruct (IH l eq_refl Hv) as (q & Hq & Eq). exists q. split; [by right|done].
Qed.

(** One value per object of the level. *)
Lemma call_resolver_length spec parents f values :
  _call_resolver c spec parents f = Ok values -> length values = length parents.
Proof.
  unfold _call_resolver. destruct (_arguments _ _ _) as [arguments|]; [|done]. cbn [res_bind].
  destruct (batch spec); [|apply call_each_length].
  destruct (call_batch spec parents arguments) as [r|]; [|done]. destruct (iterate r) as [l|]; [|done].
  destruct (Nat.ltb _ _); [done|]. destruct (negb (Nat.eqb _ _)) eqn:E; [done|]. intros [= <-].
  by apply negb_false_iff, Nat.eqb_eq in E.
Qed.

Lemma flatten_fields_ok ty set l : flatten_fields c ty set = Ok l -> _flatten (c_document c) ty set = Ok l.
Proof. unfold flatten_fields. by destruct (_flatten _ _ _) as [l'|[]]; intros [= ->]. Qed.

(** ** A level *)

Lemma wp_project_level project target set is_list values st Q :
  (forall flat layout children, flatten_values is_list 0 values = Some (flat, layout) ->
    _flatten (c_document c) (t_name target) set = Ok children ->
    wp (project flat children) st (fun rows st' =>
      length rows = length flat /\ forall out, levelled is_list values flat rows out -> Q out st')) ->
  wp (project_level c project target set is_list values) st Q.
Proof.
  intros H. unfold project_level. apply wp_bind, wp_lift. intros children Hc%flatten_fields_ok.
  destruct (flatten_values is_list 0 values) as [[flat layout]|] eqn:E; [|apply wp_fail].
  apply wp_bind. eapply wp_mono; [by apply (H flat layout children)|]. intros rows st' [Hlen HQ].
  destruct (restore_levelled is_list values [] flat layout rows E Hlen) as (out & Hr & Hl).
  cbn [app] in Hr. rewrite Hr. apply wp_ret. by apply HQ.
Qed.

(** The flat level is no larger than its lists allow. *)
Lemma flatten_values_bound is_list at_ values flat layout page :
  flatten_values is_list at_ values = Some (flat, layout) -> 0 <= page ->
  (forall v l, v ∈ values -> iterate v = Some l -> zlen l <= page) ->
  zlen flat <= if is_list then zlen values * page else zlen values.
Proof.
  intros H Hp. revert at_ flat layout H. induction values as [|v values IH]; intros at_ flat layout H Hv.
  { injection H as <- <-. by destruct is_list. }
  cbn [flatten_values] in H. set (own_slot := if is_list then _ else _) in H.
  destruct own_slot as [[own s]|] eqn:Eo; [|done]. subst own_slot.
  destruct (flatten_values is_list _ values) as [[flat' layout']|] eqn:E; [|done]. injection H as <- <-.
  apply IH in E; [|intros w l Hw; apply Hv; by right]. unfold zlen in *. rewrite length_app. cbn [length].
  destruct is_list.
  - assert (zlen own <= page) as Hown; [|unfold zlen in Hown; nia].
    destruct (is_none v); [by injection Eo as <- <-|]. destruct (iterate v) as [l|] eqn:Ei; [|done].
    injection Eo as <- <-. apply (Hv v); [by left|done].
  - assert (length own <= 1)%nat; [|lia]. destruct (is_none v); by injection Eo as <- <-; cbn; lia.
Qed.

End run.

(** ** What a run asks its authorizer

    Each resource is asked about once; a phase is marked only for a field
    whose policy was allowed, and in the raising mode nothing was denied. *)

Section access.
Context {W : World}.
Variables (c : Run) (authorize : Authorizer).
Hypothesis Hauth : c_authorizer c = Some authorize.
Abbreviation s := (c_schema c).

(** The answer [b] was given for [r], when [before] had been asked. *)
Definition answered (asked : list pystr) (r : pystr) (b : bool) : Prop :=
  exists before after, asked = before ++ r :: after /\ authorize before r = b.

Record access_ok (st : run_state) : Prop := {
  acc_once : NoDup (asked st);
  acc_asked : forall r, r ∈ asked st -> is_Some (dget (decisions st) r);
  acc_answer : forall r b, dget (decisions st) r = Some b -> answered (asked st) r b;
  acc_raise : c_null_denied c = false -> forall r b, dget (decisions st) r = Some b -> b = true;
  acc_phase : forall ty n k, (ty, n, k) ∈ phases st ->
    exists key t f, type_of s key = Some t /\ t_name t = ty /\ dget (t_fields t) n = Some f /\
      dget (decisions st) (s_policy f) = Some true }.

Lemma access_start : access_ok (mk_run [] [] [] []).
Proof. constructor; cbn; [constructor|by intros ? ?%elem_of_nil|done|done|by intros ? ? ? ?%elem_of_nil]. Qed.

(** Decisions stand once they are made. *)
Definition stands (st st' : run_state) : Prop :=
  forall r b, dget (decisions st) r = Some b -> dget (decisions st') r = Some b.

#[local] Instance stands_preorder : PreOrder stands.
Proof. split; [by intros ? ?|]. intros x y z H1 H2 r b Hr. by apply H2, H1. Qed.

(** [m] keeps the invariant and the decisions, and its results meet [Q]. *)
Definition keeps {A} (m : M A) (st : run_state) (Q : A -> run_state -> Prop) : Prop :=
  access_ok st -> wp m st (fun a st' => access_ok st' /\ stands st st' /\ Q a st').

Definition safe {A} (m : M A) : Prop := forall st, keeps m st (fun _ _ => True).

Lemma keeps_bind {A B} (m : M A) (k : A -> M B) st Q R :
  keeps m st Q -> (forall a st', stands st st' -> Q a st' -> keeps (k a) st' R) -> keeps (bind m k) st R.
Proof.
  intros Hm Hk Hok. apply wp_bind. eapply wp_mono; [by apply Hm|]. cbn. intros a st' (Hok' & Hs & HQ).
  eapply wp_mono; [by apply (Hk a st' Hs HQ)|]. cbn. intros b st'' (? & ? & ?). split_and!; [done|by etrans|done].
Qed.

Lemma safe_bind {A B} (m : M A) (k : A -> M B) : safe m -> (forall a, safe (k a)) -> safe (bind m k).
Proof. intros Hm Hk st. eapply keeps_bind; [apply Hm|]. intros a st' _ _. apply Hk. Qed.

Lemma safe_ret {A} (a : A) : safe (ret a).
Proof. intros st Hok. by apply wp_ret. Qed.

Lemma safe_fail {A} e : safe (A := A) (fail e).
Proof. intros st Hok. apply wp_fail. Qed.

Lemma safe_lift {A} (r : res execution_error A) : safe (lift r).
Proof. intros st Hok. by apply wp_lift. Qed.

Lemma safe_fold {A B} (f : B -> A -> M B) acc l : (forall b x, safe (f b x)) -> safe (fold_m f acc l).
Proof.
  intros Hf. revert acc. induction l as [|x l IH]; intros acc; [apply safe_ret|]. cbn [fold_m].
  apply safe_bind; auto.
Qed.

#[local] Hint Resolve safe_ret safe_fail safe_lift : wp.

Lemma allowed_keeps r st : keeps (_allowed c r) st (fun b st' => dget (decisions st') r = Some b).
Proof.
  intros Hok b st'. unfold _allowed. rewrite Hauth.
  destruct (dget (decisions st) r) as [b'|] eqn:Hr; [by intros [= <- <-]|].
  destruct (negb (authorize (asked st) r) && negb (c_null_denied c)) eqn:Ed; [done|]. intros [= <- <-].
  assert (stands st (mk_run (dset (decisions st) r (authorize (asked st) r)) (asked st ++ [r]) (phases st) (resolved st))) as Hst.
  { intros r' b' Hr'. cbn [decisions]. rewrite dget_dset. case_decide; [congruence|done]. }
  split_and!; [|done|cbn [decisions]; rewrite dget_dset; by case_decide].
  destruct Hok as [On As An Ra Ph]. constructor; cbn [asked decisions phases].
  - apply NoDup_app. split_and!; [done| |by apply NoDup_singleton].
    intros x Hx ->%list_elem_of_singleton. apply As in Hx as [? Hx]. congruence.
  - intros x Hx. rewrite dget_dset. case_decide as Ex; [by eexists|]. apply As.
    apply elem_of_app in Hx as [?|Hx]; [done|]. apply list_elem_of_singleton in Hx. congruence.
  - intros x b. rewrite dget_dset. case_decide as Ex.
    + intros [= <-]. subst. by exists (asked st), [].
    + intros (l1 & l2 & -> & Hb)%An. exists l1, (l2 ++ [r]). by rewrite <- app_assoc.
  - intros Hn x b. rewrite dget_dset. case_decide as Ex; [|by apply Ra]. intros [= <-].
    rewrite Hn in Ed. by destruct (authorize (asked st) r).
  - intros ty n k (key & t & f & Hk & Ht & Hf & Hd)%Ph. exists key, t, f. split_and!; [done..|].
    by apply Hst.
Qed.

Lemma mark_keeps key t n f count st :
  type_of s key = Some t -> dget (t_fields t) n = Some f -> dget (decisions st) (s_policy f) = Some true ->
  keeps (mark c (t_name t) n count) st (fun _ _ => True).
Proof.
  intros Ht Hf Hd Hok b st'. unfold mark. intros [= <- <-]. destruct (c_marker c); [|by split_and!].
  split_and!; [|by intros ?|done]. destruct Hok as [On As An Ra Ph]. constructor; cbn [asked decisions phases]; [done..|].
  intros ty m k [Hin|Hin]%elem_of_app; [by apply (Ph ty m k)|]. apply list_elem_of_singleton in Hin.
  injection Hin as -> -> ->. by exists key, t, f.
Qed.

Lemma safe_record l : safe (record l).
Proof. intros st Hok a st' [= <- <-]. split_and!; [|by intros ?|done]. destruct Hok. by constructor. Qed.

#[local] Hint Resolve safe_record : wp.

Section project.
Variables (stack : nat) (project : ObjectType -> list obj -> list field -> M (list data)).
Hypothesis Hproject : forall key t instances fields, type_of s key = Some t -> safe (project t instances fields).

Lemma level_safe key t set is_list values :
  type_of s key = Some t -> safe (project_level c (project t) t set is_list values).
Proof.
  intros Ht. unfold project_level. apply safe_bind; [apply safe_lift|]. intros children.
  destruct (flatten_values is_list 0 values) as [[flat layout]|]; [|apply safe_fail].
  apply safe_bind; [by eapply Hproject|]. intros projected. destruct (restore projected layout); auto with wp.
Qed.

Lemma project_field_keeps key t instances selected hidden (f : field) d st :
  type_of s key = Some t -> dget (t_fields t) (f_name f) = Some d ->
  dget (decisions st) (s_policy d) = Some true ->
  keeps (project_field c stack project instances t selected hidden f d) st (fun _ _ => True).
Proof.
  intros Ht Hd Hp. unfold project_field. destruct (resolver d) as [spec|].
  - eapply keeps_bind; [apply safe_lift|]. intros hidden' st1 H1 _. eapply keeps_bind; [apply safe_lift|].
    intros values st2 H2 _. eapply keeps_bind; [apply safe_record|]. intros _ st2' H2' _. eapply keeps_bind.
    + destruct (type_of s (type_name_out spec)) as [target|] eqn:Htarget; [|apply safe_ret].
      destruct (f_set f) as [set|]; [|apply safe_ret]. by eapply level_safe.
    + intros column st3 H3 _. eapply keeps_bind; [|intros ? ? _ _; apply safe_ret].
      eapply mark_keeps; [done|done|]. by apply H3, H2', H2, H1.
  - destruct (attribute_of d) as [attr|].
    { eapply keeps_bind; [apply safe_record|]. intros _ st1 H1 _.
      eapply keeps_bind; [eapply mark_keeps; [done|done|by apply H1]|]. intros ? ? _ _. apply safe_ret. }
    destruct (f_set f) as [set|]; [|apply safe_fail]. destruct (relationship d) as [index|]; [|apply safe_fail].
    eapply keeps_bind; [apply safe_record|]. intros _ st1 H1 _.
    eapply keeps_bind; [eapply mark_keeps; [done|done|by apply H1]|]. intros _ st2 _ _.
    destruct (type_of s (s_type_name d)) as [target|] eqn:Htarget; [|apply safe_fail].
    eapply keeps_bind; [by eapply level_safe|]. intros ? ? _ _. apply safe_ret.
Qed.

Lemma project_step_safe key t instances selected acc f :
  type_of s key = Some t -> safe (project_step c stack project instances t selected acc f).
Proof.
  intros Ht st. unfold project_step. destruct acc as [results hidden].
  destruct (dget (t_fields t) (f_name f)) as [d|] eqn:Hd; [|apply safe_fail].
  eapply keeps_bind; [apply allowed_keeps|]. intros [|] st1 _ Hb; cbn [negb]; [|apply safe_ret].
  eapply keeps_bind; [by eapply project_field_keeps|]. intros [column hidden'] st2 _ _.
  destruct (Nat.eqb _ _); [apply safe_ret|apply safe_fail].
Qed.

End project.

Lemma project_safe stack key t instances fields :
  type_of s key = Some t -> safe (_project c stack t instances fields).
Proof.
  revert key t instances fields. induction stack as [|stack IH]; intros key t instances fields Ht; [apply safe_fail|].
  cbn [_project]. rewrite Hauth. apply safe_bind; [apply safe_lift|]. intros ordered. apply safe_bind.
  - apply safe_fold. intros acc f. by eapply project_step_safe.
  - intros [results hidden]. apply safe_ret.
Qed.

Lemma run_root_safe stack kind found f : safe (run_root c stack kind found f).
Proof.
  unfold run_root. destruct (dget (root_table s kind) (f_name f)) as [root|]; [|apply safe_fail].
  apply safe_bind; [|intros [|]; cbn [negb]; [|apply safe_ret]].
  { intros st Hok. eapply wp_mono; [by apply allowed_keeps|]. cbn. naive_solver. }
  apply safe_bind; [apply safe_lift|]. intros instances. apply safe_bind; [apply safe_record|]. intros _.
  destruct (type_of s (root_type_name root)) as [t|] eqn:Ht; [|apply safe_ret].
  destruct (f_set f) as [set|]; [|apply safe_ret]. apply safe_bind; [apply safe_lift|]. intros children.
  apply safe_bind; [by eapply project_safe|]. intros rows. apply safe_ret.
Qed.

Lemma run_access stack o out st : run c stack o (mk_run [] [] [] []) = Ok (out, st) -> access_ok st.
Proof.
  intros H. assert (safe (run c stack o)) as Hs.
  { unfold run. apply safe_bind; [apply safe_lift|]. intros fields. apply safe_fold. intros. apply run_root_safe. }
  by destruct (Hs (mk_run [] [] [] []) access_start out st H).
Qed.

End access.
