(* ===== verification/GraphqlWork.v ===== *)
(** * The work of a run against its charge

    Each field a run resolves costs its declared cost for every object of the
    level, and each root its own.  Where every list a relationship or a resolver
    returns is within a page, what was selected is no more work than [weigh]
    charged for it; what resolvers required without its being selected is charged
    nothing. *)

From stdpp Require Import base sets strings numbers list gmap relations.
From Stdlib Require Import ZArith Lia.
From S2P Require Import Prelude PyCollections GraphqlCost GraphqlExecute.
From S2P Require Import GraphqlOrderFacts GraphqlExecuteFacts.
#[local] Open Scope Z_scope.

(** ** Charges *)

(** A list of charges and their sum. *)
Inductive charges {A} (cost : A -> res weigh_error Z) : list A -> Z -> Prop :=
| charges_nil : charges cost [] 0
| charges_cons f l c w : cost f = Ok c -> charges cost l w -> charges cost (f :: l) (c + w).

Lemma charge_charges cost total l w : charge cost total l = Ok w -> charges cost l (w - total).
Proof.
  revert total. induction l as [|f l IH]; intros total H; cbn [charge] in H.
  { injection H as ->. rewrite Z.sub_diag. constructor. }
  destruct (cost f) as [c|] eqn:E; [|done]. cbn [res_bind] in H. apply IH in H.
  replace (w - total) with (c + (w - (total + c))) by lia. by constructor.
Qed.

Lemma charges_perm {A} (cost : A -> res weigh_error Z) l l' w : l ≡ₚ l' -> charges cost l w -> charges cost l' w.
Proof.
  intros Hp. revert w. induction Hp as [|x l l' _ IH|x y l|l l' l'' _ IH1 _ IH2]; intros w H; [done| | |auto].
  - inversion_clear H. constructor; auto.
  - inversion_clear H as [|? ? a wa Ha H']. inversion_clear H' as [|? ? b wb Hb H'']. rewrite Z.add_shuffle3.
    constructor; [done|]. by constructor.
Qed.

Lemma charges_app {A} (cost : A -> res weigh_error Z) l1 l2 w :
  charges cost (l1 ++ l2) w -> exists w1 w2, w = w1 + w2 /\ charges cost l1 w1 /\ charges cost l2 w2.
Proof.
  revert w. induction l1 as [|f l1 IH]; intros w H; [exists 0, w; split_and!; [lia|constructor|done]|].
  inversion_clear H as [|? ? a w' Ha H']. apply IH in H' as (w1 & w2 & -> & H1 & H2).
  exists (a + w1), w2. split_and!; [lia|by constructor|done].
Qed.

Lemma charges_snoc {A} (cost : A -> res weigh_error Z) l f w c :
  charges cost l w -> cost f = Ok c -> charges cost (l ++ [f]) (w + c).
Proof.
  intros H Hc. induction H as [|g l b w Hg _ IH]; cbn [app].
  - rewrite Z.add_comm. constructor; [done|constructor].
  - rewrite <- Z.add_assoc. by constructor.
Qed.

Lemma charges_fun {A} (cost : A -> res weigh_error Z) l w w' : charges cost l w -> charges cost l w' -> w = w'.
Proof. intros H. revert w'. induction H; intros ? H'; inversion_clear H'; [done|]. f_equal; [congruence|auto]. Qed.

Lemma charges_nonneg {A} (cost : A -> res weigh_error Z) l w :
  (forall f c, f ∈ l -> cost f = Ok c -> 0 <= c) -> charges cost l w -> 0 <= w.
Proof.
  intros Hc H. induction H as [|f l c w Hf _ IH]; [done|].
  assert (0 <= c) by (apply (Hc f); [by left|done]). enough (0 <= w) by lia. apply IH. intros g d Hg. apply Hc. by right.
Qed.

(** ** Schemas and worlds the charge is meant for *)

(** Types are named by their keys, costs are not negative, and a resolver's
    field declares what the resolver does. *)
Record wired (s : Schema) : Prop := {
  wired_name : forall k t, type_of s k = Some t -> t_name t = k;
  wired_cost : forall k t n f, type_of s k = Some t -> dget (t_fields t) n = Some f -> 0 <= s_cost f;
  wired_root : forall o n r, dget (root_table s o) n = Some r -> 0 <= root_cost r;
  wired_resolver : forall k t n f spec, type_of s k = Some t -> dget (t_fields t) n = Some f ->
    resolver f = Some spec -> type_name_out spec = s_type_name f /\ r_is_list spec = s_is_list f }.

Definition within_page {W : World} (page : Z) (v : obj) : Prop :=
  forall l, iterate v = Some l -> zlen l <= page.

Record paged (W : World) (page : Z) : Prop := {
  paged_relation : forall o i, within_page page (get_relation o i);
  paged_one : forall spec o arguments v, call_one spec o arguments = Some v -> within_page page v;
  paged_batch : forall spec os arguments r l v,
    call_batch spec os arguments = Some r -> iterate r = Some l -> v ∈ l -> within_page page v;
  paged_many : forall r n offset, 0 <= n -> zlen (fetch_many r n offset) <= n;
  paged_fetch : forall r v l, fetch_one r v = Some l -> zlen l <= 1 }.

(** Whatever a resolver requires is free, unless it is only read. *)
Definition free_requirements (s : Schema) : Prop :=
  forall k t n f spec r g, type_of s k = Some t -> dget (t_fields t) n = Some f -> resolver f = Some spec ->
    r ∈ requires spec -> dget (t_fields t) r = Some g -> resolver g <> None \/ relationship g <> None -> s_cost g = 0.

(** ** Work *)

Definition field_price (s : Schema) (type_name name : pystr) (count : Z) : Z :=
  match type_of s type_name with
  | None => 0
  | Some t => match dget (t_fields t) name with None => 0 | Some f => s_cost f * count end
  end.

(** [all] counts what was resolved without being selected. *)
Definition resolution_cost (s : Schema) (all : bool) (r : resolution) : Z :=
  match r with
  | R_root kind name => match dget (root_table s kind) name with None => 0 | Some root => root_cost root end
  | R_field type_name name count => field_price s type_name name count
  | R_hidden type_name name count => if all then field_price s type_name name count else 0
  end.

Definition cost_of (s : Schema) (all : bool) (l : list resolution) : Z :=
  fold_right (fun r n => resolution_cost s all r + n) 0 l.

(** What was selected, and everything that was resolved. *)
Definition selected_work (s : Schema) (st : run_state) : Z := cost_of s false (resolved st).
Definition total_work (s : Schema) (st : run_state) : Z := cost_of s true (resolved st).

Lemma cost_of_app s all l1 l2 : cost_of s all (l1 ++ l2) = cost_of s all l1 + cost_of s all l2.
Proof. induction l1 as [|r l1 IH]; cbn [app cost_of fold_right]; [done|]. unfold cost_of in *. rewrite IH. lia. Qed.

(** ** Hidden fields *)

Section hidden.
Context {W : World}.
Variable c : Run.

Lemma ensure_S instances declared selected stack hidden name :
  ensure c instances declared selected (S stack) hidden name =
  if bool_decide (name ∈ hidden) || bool_decide (name ∈ selected) then Ok hidden
  else match dget declared name with
  | None => Ok hidden
  | Some d => match resolver d with
    | None => Ok hidden
    | Some spec =>
      let! hidden := ensure_all c instances declared selected stack hidden (requires spec) in
      let! _ := _call_resolver c spec instances (mk_field name name [] None) in
      Ok (name :: hidden)
    end
  end.
Proof.
  cbn [ensure]. destruct (_ || _); [done|]. destruct (dget declared name) as [d|]; [|done].
  destruct (resolver d) as [spec|]; [|done]. do 2 f_equal.
  induction (requires spec) as [|r rs IH] in hidden |- *; [done|]. cbn [ensure_all].
  destruct (ensure c instances declared selected stack hidden r); cbn [res_bind]; [apply IH|done].
Qed.

(** A resolver declared by the type requires [n]. *)
Definition required (declared : list (pystr * SchemaField)) (n : pystr) : Prop :=
  exists m f spec, dget declared m = Some f /\ resolver f = Some spec /\ n ∈ requires spec.

Definition resolves (declared : list (pystr * SchemaField)) (n : pystr) : Prop :=
  exists f, dget declared n = Some f /\ resolver f <> None.

(** What is ensured was required, and is a resolver's. *)
Lemma ensure_all_required instances declared selected stack hidden ds hidden' :
  (forall d, d ∈ ds -> required declared d) ->
  ensure_all c instances declared selected stack hidden ds = Ok hidden' ->
  forall n, n ∈ hidden' -> n ∈ hidden \/ required declared n /\ resolves declared n.
Proof.
  revert hidden ds hidden'. induction stack as [|stack IH]; intros hidden ds hidden' Hds H n Hn.
  { destruct ds; [injection H as <-; by left|done]. }
  induction ds as [|d ds IHds] in hidden, Hds, H |- *; cbn [ensure_all] in H; [injection H as <-; by left|].
  apply res_bind_Ok in H as (h & He & H).
  assert (n ∈ h -> n ∈ hidden \/ required declared n /\ resolves declared n) as Hone.
  { rewrite ensure_S in He. destruct (_ || _); [injection He as <-; by left|].
    destruct (dget declared d) as [f|] eqn:Ef; [|injection He as <-; by left].
    destruct (resolver f) as [spec|] eqn:Es; [|injection He as <-; by left].
    apply res_bind_Ok in He as (h1 & H1 & He). apply res_bind_Ok in He as (_ & _ & [= <-]).
    intros [->|Hin]%elem_of_cons; [right; split; [apply Hds; by left|exists f; split; congruence]|].
    apply (IH hidden (requires spec) h1); [|done|done]. intros r Hr. by exists d, f, spec. }
  destruct (IHds h) as [Hh|Hr]; [intros e He'; apply Hds; by right|done|by apply Hone|by right].
Qed.

End hidden.

Section work.
Context {W : World}.
Variable c : Run.
Variable weigh_stack : nat.
Abbreviation s := (c_schema c).
Abbreviation page := (c_max_page_size c).
Hypothesis Hwired : wired s.
Hypothesis Hpage : 0 <= page.
Hypothesis Hpaged : paged W page.
Variable all : bool.
Hypothesis Hfree : all = true -> free_requirements s.

Abbreviation work st := (cost_of s all (resolved st)).

Definition field_cost (stack : nat) (t : ObjectType) (fanout : Z) (f : field) : res weigh_error Z :=
  match dget (t_fields t) (f_name f) with
  | None => Ok 0
  | Some declared =>
    match f_set f with
    | None => Ok (s_cost declared * fanout)
    | Some set =>
      let! below := _weigh_type stack s (c_document c) (s_type_name declared) set
        (if s_is_list declared then fanout * page else fanout) page in
      Ok (s_cost declared * fanout + below)
    end
  end.

Lemma weigh_type_charges stack ty t set fanout w fields :
  _weigh_type stack s (c_document c) ty set fanout page = Ok w -> type_of s ty = Some t ->
  _flatten (c_document c) ty set = Ok fields ->
  exists stack', stack = S stack' /\ charges (field_cost stack' t fanout) fields w.
Proof.
  intros H Ht Hf. destruct stack as [|stack]; [done|]. exists stack. split; [done|].
  cbn [_weigh_type] in H. rewrite Ht in H. unfold _fields in H. rewrite Hf in H.
  apply charge_charges in H. by rewrite Z.sub_0_r in H.
Qed.

Lemma weigh_type_nonneg stack ty set fanout w :
  0 <= fanout -> _weigh_type stack s (c_document c) ty set fanout page = Ok w -> 0 <= w.
Proof.
  revert ty set fanout w. induction stack as [|stack IH]; intros ty set fanout w Hf H; [done|].
  cbn [_weigh_type] in H. destruct (type_of s ty) as [t|] eqn:Ht; [|by injection H as <-].
  apply charge_charges in H. rewrite Z.sub_0_r in H. revert H. apply charges_nonneg. intros f a _ Hc.
  destruct (dget (t_fields t) (f_name f)) as [d|] eqn:Hd; [|by injection Hc as <-].
  pose proof (wired_cost _ Hwired _ _ _ _ Ht Hd). destruct (f_set f) as [set'|]; [|injection Hc as <-; nia].
  destruct (_weigh_type stack s _ _ set' _ _) as [b|] eqn:Hb; [|done]. injection Hc as <-.
  apply IH in Hb; [nia|]. destruct (s_is_list d); nia.
Qed.

Lemma field_cost_nonneg stack ty t fanout f a :
  type_of s ty = Some t -> 0 <= fanout -> field_cost stack t fanout f = Ok a -> 0 <= a.
Proof.
  intros Ht Hf. unfold field_cost. destruct (dget (t_fields t) (f_name f)) as [d|] eqn:Hd; [|by intros [= <-]].
  pose proof (wired_cost _ Hwired _ _ _ _ Ht Hd). destruct (f_set f) as [set|]; [|intros [= <-]; nia].
  destruct (_weigh_type stack s _ _ set _ _) as [b|] eqn:Hb; [|done]. intros [= <-].
  apply weigh_type_nonneg in Hb; [nia|]. destruct (s_is_list d); nia.
Qed.

(** ** Steps *)

Lemma wp_allowed resource st Q :
  (forall b st', resolved st' = resolved st -> Q b st') -> wp (_allowed c resource) st Q.
Proof.
  intros HQ b st'. unfold _allowed. destruct (c_authorizer c) as [authorize|]; [|intros [= <- <-]; by apply HQ].
  destruct (dget (decisions st) resource) as [b'|]; [intros [= <- <-]; by apply HQ|].
  destruct (_ && _); [done|]. intros [= <- <-]. by apply HQ.
Qed.

Lemma wp_mark type_name name n st (Q : unit -> run_state -> Prop) :
  (forall st', resolved st' = resolved st -> Q tt st') -> wp (mark c type_name name n) st Q.
Proof. intros HQ b st'. unfold mark. intros [= <- <-]. apply HQ. by destruct (c_marker c). Qed.

Lemma wp_record l st (Q : unit -> run_state -> Prop) :
  (forall st', work st' = work st + cost_of s all l -> Q tt st') -> wp (record l) st Q.
Proof. intros HQ b st' [= <- <-]. apply HQ. apply cost_of_app. Qed.

(** Resolving a field costs no more than its share of the charge. *)
Lemma field_price_charge ty t (f : field) n stack fanout a :
  type_of s ty = Some t -> 0 <= n <= fanout -> field_cost stack t fanout f = Ok a ->
  field_price s (t_name t) (f_name f) n <= a.
Proof.
  intros Ht Hn Ha. unfold field_price. rewrite (wired_name _ Hwired _ _ Ht), Ht. unfold field_cost in Ha.
  destruct (dget (t_fields t) (f_name f)) as [d|] eqn:Hd; [|by injection Ha as <-].
  pose proof (wired_cost _ Hwired _ _ _ _ Ht Hd). destruct (f_set f) as [set|]; [|injection Ha as <-; nia].
  destruct (_weigh_type stack s _ _ set _ _) as [b|] eqn:Hb; [|done]. injection Ha as <-.
  apply weigh_type_nonneg in Hb; [nia|]. destruct (s_is_list d); nia.
Qed.

Lemma plain_charge ty t stack fields n fanout w :
  type_of s ty = Some t -> 0 <= n <= fanout -> charges (field_cost stack t fanout) fields w ->
  cost_of s all (map (fun f => R_field (t_name t) (f_name f) n) fields) <= w.
Proof.
  intros Ht Hn. induction 1 as [|f l a w Ha _ IH]; [done|]. cbn [map cost_of fold_right resolution_cost].
  pose proof (field_price_charge ty t f n stack fanout a Ht Hn Ha). unfold cost_of in IH. lia.
Qed.

(** What a resolver requires is not counted, or is free. *)
Lemma hidden_charge ty t instances selected stack hidden n f spec hidden' count :
  type_of s ty = Some t -> dget (t_fields t) n = Some f -> resolver f = Some spec ->
  ensure_all c instances (t_fields t) selected stack hidden (requires spec) = Ok hidden' ->
  cost_of s all (hidden_calls (t_name t) count hidden hidden') = 0.
Proof.
  intros Ht Hf Hs He.
  assert (forall r, r ∈ requires spec -> required (t_fields t) r) as Hq by (intros r Hr; by exists n, f, spec).
  pose proof (ensure_all_required c _ _ _ _ _ _ _ Hq He) as Hr. clear Hq.
  unfold hidden_calls. induction hidden' as [|h l IH] in Hr |- *; [done|]. cbn [List.filter].
  assert (cost_of s all (map (fun n => R_hidden (t_name t) n count)
    (List.filter (fun n => negb (bool_decide (n ∈ hidden))) l)) = 0) as IH' by (apply IH; intros; apply Hr; by right).
  case_bool_decide as Hin; cbn [negb]; [done|]. cbn [map]. unfold cost_of in *. cbn [fold_right]. rewrite IH', Z.add_0_r.
  destruct (Hr h ltac:(by left)) as [?|[(m & g & spec' & Hg & Hs' & Hm) (d & Hd & Hres)]]; [done|].
  cbn [resolution_cost]. destruct all; [|done]. unfold field_price. rewrite (wired_name _ Hwired _ _ Ht), Ht, Hd.
  by rewrite (Hfree eq_refl _ _ _ _ _ _ _ Ht Hg Hs' Hm Hd (or_introl Hres)).
Qed.

(** The projection of a level stays within the weight of its selections. *)
Definition bounded_project (project : ObjectType -> list obj -> list field -> M (list data)) (stack : nat) : Prop :=
  forall ty t instances set fields fanout w st,
    type_of s ty = Some t -> _flatten (c_document c) ty set = Ok fields -> zlen instances <= fanout ->
    _weigh_type stack s (c_document c) ty set fanout page = Ok w ->
    wp (project t instances fields) st (fun rows st' =>
      work st' <= work st + w /\ length rows = length instances).

Lemma wp_level project stack ty t set is_list values fanout w st (Q : list data -> run_state -> Prop) :
  bounded_project project stack -> type_of s ty = Some t -> zlen values <= fanout ->
  (forall v, v ∈ values -> within_page page v) ->
  _weigh_type stack s (c_document c) ty set (if is_list : bool then fanout * page else fanout) page = Ok w ->
  (forall out st', work st' <= work st + w -> length out = length values -> Q out st') ->
  wp (project_level c (project t) t set is_list values) st Q.
Proof.
  intros Hp Ht Hlen Hv Hw HQ. pose proof (wired_name _ Hwired _ _ Ht) as Hname. rewrite <- Hname in Ht, Hw.
  apply wp_project_level. intros flat layout children Hflat Hc.
  eapply wp_mono; [eapply Hp; [exact Ht|exact Hc| |exact Hw]|].
  - pose proof (flatten_values_bound is_list 0 values flat layout page Hflat Hpage (fun v l Hvl => Hv v Hvl l)).
    destruct is_list; nia.
  - cbn. intros rows st' [Hwork Hrows]. split; [done|]. intros out Hout. apply HQ; [done|].
    by apply levelled_length in Hout.
Qed.

Lemma call_resolver_paged spec parents f values v :
  _call_resolver c spec parents f = Ok values -> v ∈ values -> within_page page v.
Proof.
  unfold _call_resolver. destruct (_arguments _ _ _) as [arguments|]; [|done]. cbn [res_bind].
  destruct (batch spec).
  - destruct (call_batch spec parents arguments) as [r|] eqn:Er; [|done]. destruct (iterate r) as [l|] eqn:Ei; [|done].
    destruct (Nat.ltb _ _); [done|]. destruct (negb _); [done|]. intros [= <-] Hv.
    apply (paged_batch _ _ Hpaged _ _ _ _ _ v Er Ei). apply elem_of_take in Hv as (i & Hi & _).
    by eapply list_elem_of_lookup_2.
  - intros H Hv. destruct (call_each_elem _ _ _ _ _ H Hv) as (p & _ & Hp). by apply (paged_one _ _ Hpaged) in Hp.
Qed.

Lemma wp_project_field stack project ty t instances selected hidden (f : field) d fanout a st :
  bounded_project project weigh_stack ->
  type_of s ty = Some t -> dget (t_fields t) (f_name f) = Some d -> zlen instances <= fanout ->
  field_cost weigh_stack t fanout f = Ok a ->
  wp (project_field c stack project instances t selected hidden f d) st (fun _ st' =>
    work st' <= work st + a).
Proof.
  intros Hp Ht Hd Hlen Ha. unfold project_field. pose proof (zlen_nonneg instances) as Hnn.
  unfold field_cost in Ha. rewrite Hd in Ha.
  assert (0 <= s_cost d) as Hcost by by eapply (wired_cost _ Hwired).
  assert (forall b set, f_set f = Some set -> _weigh_type weigh_stack s (c_document c) (s_type_name d) set
    (if s_is_list d then fanout * page else fanout) page = Ok b -> a = s_cost d * fanout + b /\ 0 <= b) as Hbelow.
  { intros b set Hs Hb. rewrite Hs, Hb in Ha. injection Ha as <-. split; [done|].
    apply weigh_type_nonneg in Hb; [done|]. destruct (s_is_list d); nia. }
  assert (forall set, f_set f = Some set -> exists b, _weigh_type weigh_stack s (c_document c) (s_type_name d) set
    (if s_is_list d then fanout * page else fanout) page = Ok b) as Hsome.
  { intros set Hs. rewrite Hs in Ha. destruct (_weigh_type _ _ _ _ _ _ _) as [b|]; [by exists b|done]. }
  assert (s_cost d * fanout <= a) as Hown.
  { destruct (f_set f) as [set|] eqn:Hs; [|injection Ha; lia].
    destruct (Hsome set eq_refl) as [b Hb]. destruct (Hbelow b set eq_refl Hb). lia. }
  assert (forall l, cost_of s all l = 0 ->
    cost_of s all (l ++ [R_field (t_name t) (f_name f) (zlen instances)]) <= s_cost d * fanout) as Hrec.
  { intros l Hl. rewrite cost_of_app, Hl. unfold cost_of. cbn [fold_right resolution_cost]. unfold field_price.
    rewrite (wired_name _ Hwired _ _ Ht), Ht, Hd. nia. }
  destruct (resolver d) as [spec|] eqn:Hr.
  - destruct (wired_resolver _ Hwired _ _ _ _ _ Ht Hd Hr) as [Hout Hlist]. rewrite Hout, Hlist.
    apply wp_bind, wp_lift. intros hidden' Hens. apply wp_bind, wp_lift. intros values Hval.
    apply wp_bind, wp_record. intros st0 Hst0.
    pose proof (Hrec _ (hidden_charge _ _ _ _ _ _ _ _ _ _ (zlen instances) Ht Hd Hr Hens)) as Hcalls. clear Hrec Hens.
    apply wp_bind. pose proof (call_resolver_length _ _ _ _ _ Hval) as Hvl.
    assert (forall st' column, work st' <= work st + a ->
      wp (do _ <- mark c (t_name t) (f_name f) (zlen instances); ret (column : list data, hidden')) st'
        (fun _ st'' => work st'' <= work st + a)) as Hmark.
    { intros st' column Hst'. apply wp_bind, wp_mark. intros st'' E. apply wp_ret. by rewrite E. }
    destruct (type_of s (s_type_name d)) as [target|] eqn:Htarget; [|by apply wp_ret, Hmark; lia].
    destruct (f_set f) as [set|] eqn:Hs; [|by apply wp_ret, Hmark; lia].
    destruct (Hsome set eq_refl) as [b Hb]. destruct (Hbelow b set eq_refl Hb) as [-> Hb0].
    eapply (wp_level project weigh_stack); [done|exact Htarget| | |exact Hb|].
    + unfold zlen in *. by rewrite Hvl.
    + intros v Hv. by eapply call_resolver_paged.
    + intros out st' Hst' _. apply Hmark. lia.
  - destruct (attribute_of d) as [attr|].
    { apply wp_bind, wp_record. intros st0 Hst0. apply wp_bind, wp_mark. intros st' E. apply wp_ret. rewrite E.
      pose proof (Hrec [] eq_refl) as Hc. cbn [app] in Hc. lia. }
    destruct (f_set f) as [set|] eqn:Hs; [|apply wp_fail]. destruct (relationship d) as [index|]; [|apply wp_fail].
    destruct (Hsome set eq_refl) as [b Hb]. destruct (Hbelow b set eq_refl Hb) as [-> Hb0].
    pose proof (Hrec [] eq_refl) as Hc. cbn [app] in Hc.
    apply wp_bind, wp_record. intros st0 Hst0. apply wp_bind, wp_mark. intros st' Hst'.
    destruct (type_of s (s_type_name d)) as [target|] eqn:Htarget; [|apply wp_fail]. apply wp_bind.
    eapply (wp_level project weigh_stack); [done|exact Htarget| | |exact Hb|].
    + unfold zlen in *. by rewrite length_map.
    + intros v (o & -> & _)%list_elem_of_fmap. apply (paged_relation _ _ Hpaged).
    + intros out st'' Hst'' _. apply wp_ret. rewrite Hst' in Hst''. lia.
Qed.

Lemma wp_project_step stack project ty t instances selected acc (f : field) fanout a st :
  bounded_project project weigh_stack -> type_of s ty = Some t -> zlen instances <= fanout ->
  field_cost weigh_stack t fanout f = Ok a ->
  wp (project_step c stack project instances t selected acc f) st (fun _ st' => work st' <= work st + a).
Proof.
  intros Hp Ht Hlen Ha. unfold project_step. destruct acc as [results hidden].
  destruct (dget (t_fields t) (f_name f)) as [d|] eqn:Hd; [|apply wp_fail].
  pose proof (field_cost_nonneg weigh_stack ty t fanout f a Ht ltac:(pose proof (zlen_nonneg instances); lia) Ha).
  apply wp_bind, wp_allowed. intros b st' Hst'. rewrite <- Hst'. destruct b; cbn [negb]; [|apply wp_ret; lia].
  apply wp_bind. eapply wp_mono; [by eapply wp_project_field|]. cbn. intros [column hidden'] st'' Hst''.
  destruct (Nat.eqb _ _); [apply wp_ret; lia|apply wp_fail].
Qed.

End work.

Section run.
Context {W : World}.
Variable c : Run.
Abbreviation s := (c_schema c).
Abbreviation page := (c_max_page_size c).
Hypothesis Hwired : wired s.
Hypothesis Hpage : 0 <= page.
Hypothesis Hpaged : paged W page.
Variable all : bool.
Hypothesis Hfree : all = true -> free_requirements s.

Abbreviation work st := (cost_of s all (resolved st)).

Lemma project_bounded stack weigh_stack : bounded_project c all (_project c stack) weigh_stack.
Proof.
  revert weigh_stack. induction stack as [|stack IH]; intros weigh_stack ty t instances set fields fanout w st Ht Hf Hlen Hw.
  { apply wp_fail. }
  pose proof (weigh_type_nonneg c Hwired Hpage weigh_stack ty set fanout w
    ltac:(pose proof (zlen_nonneg instances); lia) Hw) as Hw0.
  destruct (weigh_type_charges _ _ _ _ _ _ _ _ Hw Ht Hf) as (weigh_stack' & -> & Hch). cbn [_project].
  set (general := bind _ _).
  enough (wp general st (fun rows st' => work st' <= work st + w /\ length rows = length instances)) as Hg.
  { destruct (c_authorizer c); [done|]. destruct (c_marker c); [done|].
    destruct (plain_fields _ _) as [plan|]; [|done]. apply wp_bind, (wp_record c all). intros st' E.
    pose proof (zlen_nonneg instances). apply wp_ret. rewrite E. split; [|by rewrite length_map].
    pose proof (plain_charge c Hwired Hpage all ty t weigh_stack' fields (zlen instances) fanout w Ht ltac:(lia) Hch). lia. }
  unfold general. apply wp_bind, wp_lift. intros ordered Hord.
  pose proof (order_fields_out (requires_of (t_fields t)) stack fields) as Hout. rewrite Hord in Hout.
  destruct Hout as (Hperm & _ & _). apply (charges_perm _ _ ordered) in Hch; [|done].
  apply wp_bind. eapply wp_mono.
  - apply (wp_fold _ (fun l _ st' => exists w', charges (field_cost c weigh_stack' t fanout) l w' /\
      work st' <= work st + w')).
    { exists 0. split; [constructor|lia]. }
    intros l1 f l2 acc st' E (w' & Hw' & Hst').
    rewrite E in Hch. apply charges_app in Hch as (w1 & w2 & _ & H1 & H2).
    inversion_clear H2 as [|? ? a w3 Ha _]. eapply wp_mono.
    { by eapply (wp_project_step c weigh_stack'). }
    cbn. intros _ st'' Hst''. exists (w' + a). split; [by apply charges_snoc|lia].
  - cbn. intros [results hidden] st' (w' & Hw' & Hst'). apply wp_ret.
    rewrite (charges_fun _ _ _ _ Hch Hw'). split; [done|]. unfold finish_results.
    by rewrite length_map, length_seq.
Qed.

(** Roots are within a page whatever they are asked for. *)
Lemma root_instances_bound root f instances :
  _root_instances c root f = Ok instances -> zlen instances <= if root_is_list root then page else 1.
Proof.
  unfold _root_instances. destruct (_arguments _ _ _) as [arguments|]; [|done]. cbn [res_bind].
  destruct (root_resolver root) as [spec|].
  - destruct (call_root spec arguments) as [r|]; [|done]. destruct (root_is_list root).
    + destruct (if is_none r then _ else _) as [l|]; [|done]. cbn [res_bind].
      destruct (Z.ltb_spec page (zlen (take (S (Z.to_nat page)) l))); [done|]. by intros [= <-].
    + intros [= <-]. by destruct (is_none r).
  - destruct (root_is_list root).
    + destruct (root_limit c arguments) as [limit|] eqn:El; [|done]. cbn [res_bind].
      destruct (root_offset arguments) as [offset|]; [|done]. cbn [res_bind]. intros [= <-].
      assert (limit <= page); [|pose proof (paged_many _ _ Hpaged root (Z.max limit 0) offset); lia].
      unfold root_limit in El. destruct (dget arguments _) as [v|]; [|by injection El as <-].
      destruct (int_of v); [|done]. injection El as <-. lia.
    + destruct (dget arguments _) as [v|]; [|done].
      assert ((if negb (single_key root) then Err CompositeKey
        else match fetch_one root v with Some l => Ok l | None => Err ResolverRaised end) = Ok instances ->
        zlen instances <= 1) as H.
      { destruct (negb _); [done|]. destruct (fetch_one root v) as [l|] eqn:E; [|done]. intros [= <-].
        by apply (paged_fetch _ _ Hpaged) in E. }
      destruct v; [done|apply H..].
Qed.

(** A run stays within the charge for its root fields. *)
Lemma wp_run_root stack weigh_stack kind found (f : field) a st :
  weigh_root weigh_stack s (c_document c) (root_table s kind) page f = Ok a ->
  wp (run_root c stack kind found f) st (fun _ st' => work st' <= work st + a).
Proof.
  intros Ha. unfold run_root. unfold weigh_root in Ha.
  destruct (dget (root_table s kind) (f_name f)) as [root|] eqn:Hroot; [|apply wp_fail].
  pose proof (wired_root _ Hwired _ _ _ Hroot) as Hcost.
  assert (forall b set, f_set f = Some set -> _weigh_type weigh_stack s (c_document c) (root_type_name root) set
    (if root_is_list root then page else 1) page = Ok b -> a = root_cost root + b /\ 0 <= b) as Hbelow.
  { intros b set Hs Hb. rewrite Hs, Hb in Ha. injection Ha as <-. split; [done|].
    apply weigh_type_nonneg in Hb; [done..|]. destruct (root_is_list root); lia. }
  assert (root_cost root <= a) as Ha0.
  { destruct (f_set f) as [set|]; [|injection Ha as <-; lia].
    destruct (_weigh_type _ _ _ _ _ _ _) as [b|] eqn:Hb; [|done]. destruct (Hbelow b set eq_refl Hb). lia. }
  apply wp_bind, wp_allowed. intros b st0 Hst0. rewrite <- Hst0.
  destruct b; cbn [negb]; [|apply wp_ret; lia]. apply wp_bind, wp_lift. intros instances Hi.
  apply wp_bind, (wp_record c all). intros st' Hst'. cbn [cost_of fold_right resolution_cost] in Hst'. rewrite Hroot in Hst'.
  destruct (type_of s (root_type_name root)) as [t|] eqn:Ht; [|apply wp_ret; lia].
  destruct (f_set f) as [set|] eqn:Hs; [|apply wp_ret; lia].
  apply wp_bind, wp_lift. intros children Hc%flatten_fields_ok. rewrite (wired_name _ Hwired _ _ Ht) in Hc.
  destruct (_weigh_type _ _ _ _ _ _ _) as [b|] eqn:Hb; [|done]. destruct (Hbelow b set eq_refl Hb) as [-> _].
  apply wp_bind. eapply wp_mono; [eapply project_bounded; [exact Ht|exact Hc| |exact Hb]|].
  - by apply root_instances_bound in Hi.
  - cbn. intros rows st'' [Hst'' _]. apply wp_ret. lia.
Qed.

Lemma weigh_loop_charges weigh_stack kind max total l w :
  weigh_loop weigh_stack s (c_document c) (root_table s kind) max page total l = Ok w ->
  charges (weigh_root weigh_stack s (c_document c) (root_table s kind) page) l (w - total) /\
  (total <= max -> w <= max).
Proof.
  revert total. induction l as [|f l IH]; intros total H; cbn [weigh_loop] in H.
  { injection H as ->. rewrite Z.sub_diag. split; [constructor|done]. }
  destruct (dget (root_table s kind) (f_name f)) as [root|] eqn:Hr.
  - destruct (weigh_root _ _ _ _ _ f) as [a|] eqn:Ha; [|done]. cbn [res_bind] in H.
    destruct (Z.ltb_spec max (total + a)) as [?|Hle]; [done|]. apply IH in H as [H Hmax].
    split; [|auto]. replace (w - total) with (a + (w - (total + a))) by lia. by constructor.
  - apply IH in H as [H Hmax]. split; [|done]. rewrite <- (Z.add_0_l (w - total)). constructor; [|done].
    unfold weigh_root. by rewrite Hr.
Qed.

Lemma run_work stack weigh_stack o max w out st :
  weigh weigh_stack s (c_document c) o max page = Ok w ->
  run c stack o (mk_run [] [] [] []) = Ok (out, st) -> work st <= w.
Proof.
  intros Hw. enough (wp (run c stack o) (mk_run [] [] [] []) (fun _ st => work st <= w)) as H by exact (H out st).
  unfold run. apply wp_bind, wp_lift. intros fields Hf%flatten_fields_ok. unfold weigh, _fields in Hw.
  rewrite Hf in Hw. apply weigh_loop_charges in Hw as [Hch _]. rewrite Z.sub_0_r in Hch.
  eapply wp_mono.
  - apply (wp_fold _ (fun l _ st' => exists w', charges
      (weigh_root weigh_stack s (c_document c) (root_table s (operation o)) page) l w' /\ work st' <= w')).
    { exists 0. split; [constructor|done]. }
    intros l1 f l2 acc st' E (w' & Hw' & Hst'). pose proof Hch as Hch'.
    rewrite E in Hch'. apply charges_app in Hch' as (w1 & w2 & _ & _ & H2).
    inversion_clear H2 as [|? ? a w3 Ha _]. eapply wp_mono; [by eapply wp_run_root|].
    cbn. intros _ st'' Hst''. exists (w' + a). split; [by apply charges_snoc|lia].
  - cbn. intros _ st' (w' & Hw' & Hst'). by rewrite (charges_fun _ _ _ _ Hch Hw').
Qed.

End run.

(** ** Levels against objects

    The executor resolves each field for a whole level of objects.  Where batch
    resolvers answer each object by itself and there is no authorizer, the
    level's result is that of its parts projected apart. *)

(** *** Results that no state changes *)

(** The result of a computation, from the empty state. *)
Definition value_of {A} (m : M A) : res execution_error A :=
  match m (mk_run [] [] [] []) with Ok (a, _) => Ok a | Err e => Err e end.

(** From every state [m] gives that result. *)
Definition oblivious {A} (m : M A) : Prop :=
  forall st, match m st with Ok (a, _) => value_of m = Ok a | Err e => value_of m = Err e end.

Lemma oblivious_ret {A} (a : A) : oblivious (ret a).
Proof. by intros st. Qed.

Lemma oblivious_fail {A} e : oblivious (A := A) (fail e).
Proof. by intros st. Qed.

Lemma oblivious_lift {A} (r : res execution_error A) : oblivious (lift r).
Proof. intros st. unfold value_of, lift. by destruct r. Qed.

Lemma value_bind {A B} (m : M A) (k : A -> M B) :
  (forall a, oblivious (k a)) -> value_of (bind m k) = let! a := value_of m in value_of (k a).
Proof.
  intros Hk. unfold value_of at 1 2, bind. destruct (m (mk_run [] [] [] [])) as [[a st]|e]; [|done]. cbn [res_bind].
  specialize (Hk a st). by destruct (k a st) as [[b ?]|].
Qed.

Lemma oblivious_bind {A B} (m : M A) (k : A -> M B) :
  oblivious m -> (forall a, oblivious (k a)) -> oblivious (bind m k).
Proof.
  intros Hm Hk st. rewrite value_bind by done. unfold bind. specialize (Hm st).
  destruct (m st) as [[a st']|e]; rewrite Hm; cbn [res_bind]; [|done].
  specialize (Hk a st'). by destruct (k a st') as [[b ?]|].
Qed.

Lemma value_lift {A} (r : res execution_error A) : value_of (lift r) = r.
Proof. unfold value_of, lift. by destruct r. Qed.

Lemma oblivious_fold {A B} (f : B -> A -> M B) acc l :
  (forall b x, oblivious (f b x)) -> oblivious (fold_m f acc l).
Proof.
  intros Hf. revert acc. induction l as [|x l IH]; intros acc; [apply oblivious_ret|].
  by apply oblivious_bind.
Qed.

Lemma value_fold {A B} (f : B -> A -> M B) acc x l :
  (forall b x, oblivious (f b x)) ->
  value_of (fold_m f acc (x :: l)) = let! b := value_of (f acc x) in value_of (fold_m f b l).
Proof. intros Hf. apply value_bind. intros b. by apply oblivious_fold. Qed.

#[local] Hint Resolve oblivious_ret oblivious_fail oblivious_lift oblivious_bind oblivious_fold : wp.

(** *** The parts of a list *)

(** [F] of two lists is [F] of each, put together. *)
Definition additive {A B} (F : list A -> list B -> Prop) : Prop :=
  forall l1 l2 out, F (l1 ++ l2) out <-> exists out1 out2, out = out1 ++ out2 /\ F l1 out1 /\ F l2 out2.

Section batch.
Context {W : World}.
Variable c : Run.
Hypothesis Hnobody : c_authorizer c = None.

(** What a batch resolver computes for one object. *)
Variable one : ResolverSpec -> list (pystr * value) -> obj -> option obj.

(** A batch resolver answers each object by itself. *)
Definition pointwise : Prop := forall spec os arguments,
  match call_batch spec os arguments with Some r => iterate r | None => None end = mapM (one spec arguments) os.
Hypothesis Hpointwise : pointwise.

Lemma call_each_mapM spec arguments parents values :
  call_each spec arguments parents = Ok values <-> mapM (fun o => call_one spec o arguments) parents = Some values.
Proof.
  rewrite mapM_Some. revert values. induction parents as [|p parents IH]; intros values; cbn [call_each].
  { split; [by intros [= <-]|by inversion 1]. }
  destruct (call_one spec p arguments) as [v|] eqn:E.
  - rewrite res_bind_Ok. split.
    + intros (l & Hl & [= <-]). constructor; [done|]. by apply IH.
    + inversion 1 as [|? w ? l Hv Hl]; subst. exists l. split; [by apply IH|]. congruence.
  - split; [done|]. inversion 1; congruence.
Qed.

(** One resolver over a level is the same resolver over each object. *)
Lemma call_resolver_mapM spec f :
  exists g : option (obj -> option obj), forall parents values,
    _call_resolver c spec parents f = Ok values <-> exists h, g = Some h /\ mapM h parents = Some values.
Proof.
  unfold _call_resolver. destruct (_arguments (c_variables c) [] (f_arguments f)) as [arguments|e]; cbn [res_bind].
  2: { exists None. naive_solver. }
  destruct (batch spec) eqn:Eb.
  - exists (Some (one spec arguments)). intros parents values. pose proof (Hpointwise spec parents arguments) as Hp.
    transitivity (mapM (one spec arguments) parents = Some values); [|naive_solver].
    assert (forall l, mapM (one spec arguments) parents = Some l -> length l = length parents) as Hlen.
    { intros l Hl. apply mapM_Some, Forall2_length in Hl. lia. }
    rewrite <- Hp in *. destruct (call_batch spec parents arguments) as [r|]; [|done].
    destruct (iterate r) as [l|]; [|done]. pose proof (Hlen l eq_refl) as Hl. rewrite take_ge by lia.
    rewrite (proj2 (Nat.ltb_ge _ _)) by lia. rewrite (proj2 (Nat.eqb_eq _ _) Hl). cbn [negb]. naive_solver.
  - exists (Some (fun o => call_one spec o arguments)). intros parents values. rewrite call_each_mapM. naive_solver.
Qed.

Lemma call_resolver_additive spec f :
  additive (fun parents values => _call_resolver c spec parents f = Ok values).
Proof.
  intros l1 l2 out. destruct (call_resolver_mapM spec f) as [g Hg]. rewrite Hg. split.
  - intros (h & -> & H). apply mapM_Some, Forall2_app_inv_l in H as (o1 & o2 & H1 & H2 & ->).
    exists o1, o2. rewrite !Hg. split_and!; [done|exists h|exists h]; (split; [done|by apply mapM_Some]).
  - intros (o1 & o2 & -> & H1 & H2). apply Hg in H1 as (h & -> & H1), H2 as (h' & [= <-] & H2).
    exists h. split; [done|]. apply mapM_Some, Forall2_app; by apply mapM_Some.
Qed.

(** Two levels' outcomes, and their concatenation's. *)
Definition agree {A} (whole part1 part2 : res execution_error A) : Prop :=
  (forall a, whole = Ok a <-> part1 = Ok a /\ part2 = Ok a) /\
  (forall a b, part1 = Ok a -> part2 = Ok b -> a = b).

Lemma agree_same {A} (r : res execution_error A) : agree r r r.
Proof. split; [naive_solver|congruence]. Qed.

Lemma agree_bind {A B} (w p1 p2 : res execution_error A) (kw k1 k2 : A -> res execution_error B) :
  agree w p1 p2 -> (forall a, agree (kw a) (k1 a) (k2 a)) -> agree (res_bind w kw) (res_bind p1 k1) (res_bind p2 k2).
Proof.
  intros [Hw Hp] Hk. split.
  - intros b. rewrite !res_bind_Ok. split.
    + intros (a & [H1 H2]%Hw & [H3 H4]%Hk). split; by exists a.
    + intros [(a & H1 & H3) (a' & H2 & H4)]. assert (a = a') as <- by eauto. exists a.
      split; [by apply Hw|by apply Hk].
  - intros b b'. rewrite !res_bind_Ok. intros (a & H1 & H3) (a' & H2 & H4). assert (a = a') as <- by eauto.
    by apply (Hk a).
Qed.

Lemma agree_resolver spec f l1 l2 {B} (k : res execution_error B) :
  agree (let! _ := _call_resolver c spec (l1 ++ l2) f in k) (let! _ := _call_resolver c spec l1 f in k)
    (let! _ := _call_resolver c spec l2 f in k).
Proof.
  split; [|intros a b; rewrite !res_bind_Ok; intros (_ & _ & ?) (_ & _ & ?); congruence].
  intros b. rewrite !res_bind_Ok. split.
  - intros (v & (v1 & v2 & _ & H1 & H2)%call_resolver_additive & ->). naive_solver.
  - intros [(v1 & H1 & Hk) (v2 & H2 & _)]. exists (v1 ++ v2). split; [|done]. apply call_resolver_additive. eauto.
Qed.

Lemma agree_ensure_all declared selected stack hidden ds l1 l2 :
  (forall hidden name, agree (ensure c (l1 ++ l2) declared selected stack hidden name)
    (ensure c l1 declared selected stack hidden name) (ensure c l2 declared selected stack hidden name)) ->
  agree (ensure_all c (l1 ++ l2) declared selected stack hidden ds)
    (ensure_all c l1 declared selected stack hidden ds) (ensure_all c l2 declared selected stack hidden ds).
Proof.
  intros H. induction ds as [|d ds IH] in hidden |- *; [apply agree_same|]. cbn [ensure_all]. by apply agree_bind.
Qed.

Lemma agree_ensure declared selected stack hidden name l1 l2 :
  agree (ensure c (l1 ++ l2) declared selected stack hidden name)
    (ensure c l1 declared selected stack hidden name) (ensure c l2 declared selected stack hidden name).
Proof.
  induction stack as [|stack IH] in hidden, name |- *; [apply agree_same|]. rewrite !ensure_S.
  destruct (_ || _); [apply agree_same|]. destruct (dget declared name) as [d|]; [|apply agree_same].
  destruct (resolver d) as [spec|]; [|apply agree_same]. apply agree_bind; [by apply agree_ensure_all|].
  intros hidden'. apply agree_resolver.
Qed.

(** *** Levels *)

Section level.
Variable project : list obj -> list field -> M (list data).
Hypothesis Hoblivious : forall instances fields, oblivious (project instances fields).
Hypothesis Hlength : forall instances fields rows, value_of (project instances fields) = Ok rows ->
  length rows = length instances.
Hypothesis Hadditive : forall fields,
  additive (fun instances rows => value_of (project instances fields) = Ok rows).

Lemma oblivious_level target set is_list values :
  oblivious (project_level c project target set is_list values).
Proof.
  unfold project_level. apply oblivious_bind; [apply oblivious_lift|]. intros children.
  destruct (flatten_values is_list 0 values) as [[flat layout]|]; [|apply oblivious_fail].
  apply oblivious_bind; [done|]. intros rows. destruct (restore rows layout); [apply oblivious_ret|apply oblivious_fail].
Qed.

(** A level's result: the flat level projected, and dealt out. *)
Lemma level_value target set is_list values out :
  value_of (project_level c project target set is_list values) = Ok out <->
  exists children flat rows, flatten_fields c (t_name target) set = Ok children /\
    value_of (project flat children) = Ok rows /\ levelled is_list values flat rows out.
Proof.
  unfold project_level. rewrite value_bind.
  2: { intros children. destruct (flatten_values is_list 0 values) as [[flat layout]|]; [|apply oblivious_fail].
       apply oblivious_bind; [done|]. intros rows.
       destruct (restore rows layout); [apply oblivious_ret|apply oblivious_fail]. }
  rewrite value_lift, res_bind_Ok. split.
  - intros (children & Hc & H). destruct (flatten_values is_list 0 values) as [[flat layout]|] eqn:E; [|done].
    rewrite value_bind in H by (intros rows; destruct (restore rows layout); auto with wp).
    apply res_bind_Ok in H as (rows & Hr & H).
    destruct (restore_levelled is_list values [] flat layout rows E (Hlength _ _ _ Hr)) as (out' & Ho & Hl).
    cbn [app] in Ho. rewrite Ho in H. injection H as <-. by exists children, flat, rows.
  - intros (children & flat & rows & Hc & Hr & Hl). exists children. split; [done|].
    destruct (levelled_flatten _ _ _ _ _ 0%nat Hl) as [layout E]. rewrite E.
    rewrite value_bind by (intros rows'; destruct (restore rows' layout); auto with wp).
    apply res_bind_Ok. exists rows. split; [done|].
    destruct (restore_levelled is_list values [] flat layout rows E (Hlength _ _ _ Hr)) as (out' & Ho & Hl').
    cbn [app] in Ho. rewrite Ho. by destruct (levelled_fun _ _ _ _ _ _ _ Hl Hl') as [_ <-].
Qed.

Lemma level_additive target set is_list :
  additive (fun values out => value_of (project_level c project target set is_list values) = Ok out).
Proof.
  intros v1 v2 out. setoid_rewrite level_value. split.
  - intros (children & flat & rows & Hc & Hr & (f1 & f2 & r1 & r2 & o1 & o2 & -> & -> & -> & H1 & H2)%levelled_app).
    apply Hadditive in Hr as (r1' & r2' & E & Hr1 & Hr2).
    apply app_inj_1 in E as [<- <-]; [|by rewrite (levelled_rows _ _ _ _ _ H1), (Hlength _ _ _ Hr1)].
    exists o1, o2. split_and!; [done|by exists children, f1, r1|by exists children, f2, r2].
  - intros (o1 & o2 & -> & (children & f1 & r1 & Hc & Hr1 & H1) & (children' & f2 & r2 & Hc' & Hr2 & H2)).
    assert (children' = children) as -> by congruence. exists children, (f1 ++ f2), (r1 ++ r2). split_and!; [done| |].
    + apply Hadditive. eauto.
    + apply levelled_app. exists f1, f2, r1, r2, o1, o2. done.
Qed.

End level.

(** *** Fields *)

Lemma oblivious_allowed resource : oblivious (_allowed c resource).
Proof. unfold _allowed. rewrite Hnobody. apply oblivious_ret. Qed.

Lemma value_allowed resource : value_of (_allowed c resource) = Ok true.
Proof. unfold _allowed. by rewrite Hnobody. Qed.

Lemma oblivious_mark type_name name count : oblivious (mark c type_name name count).
Proof. by intros st. Qed.

Lemma value_mark type_name name count : value_of (mark c type_name name count) = Ok tt.
Proof. done. Qed.

Lemma oblivious_record l : oblivious (record l).
Proof. by intros st. Qed.

(** What is recorded does not matter to the value. *)
Lemma value_record {A} l (m : M A) : oblivious m -> value_of (bind (record l) (fun _ => m)) = value_of m.
Proof. intros Hm. by rewrite value_bind. Qed.

#[local] Hint Resolve oblivious_allowed oblivious_mark oblivious_record oblivious_level : wp.

Section field.
Variables (stack : nat) (project : ObjectType -> list obj -> list field -> M (list data)).
Variables (t : ObjectType) (selected : list pystr).
Hypothesis Hoblivious : forall t instances fields, oblivious (project t instances fields).
Hypothesis Hlength : forall t instances fields rows, value_of (project t instances fields) = Ok rows ->
  length rows = length instances.
Hypothesis Hadditive : forall t fields,
  additive (fun instances rows => value_of (project t instances fields) = Ok rows).

Lemma oblivious_field instances hidden (f : field) d :
  oblivious (project_field c stack project instances t selected hidden f d).
Proof.
  unfold project_field. destruct (resolver d) as [spec|].
  - apply oblivious_bind; [auto with wp|]. intros h. apply oblivious_bind; [auto with wp|]. intros values.
    apply oblivious_bind; [auto with wp|]. intros _.
    apply oblivious_bind; [|intros column; apply oblivious_bind; auto with wp].
    destruct (type_of (c_schema c) (type_name_out spec)) as [target|]; [|auto with wp].
    destruct (f_set f); auto with wp.
  - destruct (attribute_of d); [do 2 (apply oblivious_bind; [auto with wp|intros _]); auto with wp|].
    destruct (f_set f) as [set|]; [|auto with wp]. destruct (relationship d); [|auto with wp].
    do 2 (apply oblivious_bind; [auto with wp|intros _]).
    destruct (type_of (c_schema c) (s_type_name d)); [|auto with wp]. apply oblivious_bind; auto with wp.
Qed.

(** The column of a level is the columns of its parts; the hidden fields are
    the same. *)
Definition columns (whole part1 part2 : res execution_error (list data * list pystr)) : Prop :=
  (forall column hidden, whole = Ok (column, hidden) <->
    exists c1 c2, column = c1 ++ c2 /\ part1 = Ok (c1, hidden) /\ part2 = Ok (c2, hidden)) /\
  (forall c1 h1 c2 h2, part1 = Ok (c1, h1) -> part2 = Ok (c2, h2) -> h1 = h2).

Lemma columns_of (F : list obj -> list data -> Prop) (r : list obj -> res execution_error (list data * list pystr))
    hidden l1 l2 :
  additive F -> (forall l column h, r l = Ok (column, h) <-> F l column /\ h = hidden) ->
  columns (r (l1 ++ l2)) (r l1) (r l2).
Proof.
  intros HF Hr. split; [|by intros c1 h1 c2 h2 [_ ->]%Hr [_ ->]%Hr]. intros column h. rewrite Hr. setoid_rewrite Hr.
  split.
  - intros [(c1 & c2 & -> & H1 & H2)%HF ->]. by exists c1, c2.
  - intros (c1 & c2 & -> & [H1 ->] & [H2 _]). split; [|done]. apply HF. eauto.
Qed.

Lemma map_additive {A B} (g : A -> B) : additive (fun l out => out = map g l).
Proof.
  intros l1 l2 out. split.
  - intros ->. exists (map g l1), (map g l2). by rewrite map_app.
  - intros (o1 & o2 & -> & -> & ->). by rewrite map_app.
Qed.

Lemma ret_map_additive {A B} (g : A -> B) : additive (fun l out => value_of (ret (map g l)) = Ok out).
Proof.
  intros l1 l2 out. unfold value_of, ret. split.
  - intros [= <-]. exists (map g l1), (map g l2). by rewrite map_app.
  - intros (o1 & o2 & -> & [= <-] & [= <-]). by rewrite map_app.
Qed.

(** One additive step after another. *)
Lemma compose_additive {A B C} (F : list A -> list B -> Prop) (G : list B -> list C -> Prop) :
  additive F -> additive G -> additive (fun l out => exists m, F l m /\ G m out).
Proof.
  intros HF HG l1 l2 out. split.
  - intros (m & (m1 & m2 & -> & F1 & F2)%HF & (o1 & o2 & -> & G1 & G2)%HG). exists o1, o2. split; [done|].
    split; [by exists m1|by exists m2].
  - intros (o1 & o2 & -> & (m1 & F1 & G1) & (m2 & F2 & G2)). exists (m1 ++ m2). split; [apply HF|apply HG]; eauto.
Qed.

Lemma field_columns hidden (f : field) d l1 l2 :
  columns (value_of (project_field c stack project (l1 ++ l2) t selected hidden f d))
    (value_of (project_field c stack project l1 t selected hidden f d))
    (value_of (project_field c stack project l2 t selected hidden f d)).
Proof.
  unfold project_field. destruct (resolver d) as [spec|].
  - set (rest := fun values => match type_of (c_schema c) (type_name_out spec), f_set f with
      | Some target, Some set => project_level c (project target) target set (r_is_list spec) values
      | _, _ => ret (map DValue values)
      end).
    assert (forall values, oblivious (rest values)) as Hrest.
    { intros values. unfold rest. destruct (type_of _ _); [|auto with wp]. destruct (f_set f); auto with wp. }
    assert (additive (fun values out => value_of (rest values) = Ok out)) as Hadd.
    { unfold rest. destruct (type_of (c_schema c) (type_name_out spec)) as [target|];
        [destruct (f_set f) as [set|]; [apply level_additive; [apply Hoblivious|apply Hlength|apply Hadditive]|]|];
        apply ret_map_additive. }
    assert (forall l, value_of
      (do hidden' <- lift (ensure_all c l (t_fields t) selected stack hidden (requires spec));
       do values <- lift (_call_resolver c spec l f);
       do _ <- record (hidden_calls (t_name t) (zlen l) hidden hidden' ++ [R_field (t_name t) (f_name f) (zlen l)]);
       do column <- rest values;
       do _ <- mark c (t_name t) (f_name f) (zlen l);
       ret (column, hidden')) =
      let! h := ensure_all c l (t_fields t) selected stack hidden (requires spec) in
      let! values := _call_resolver c spec l f in
      let! column := value_of (rest values) in Ok (column, h)) as Hval.
    { intros l. rewrite value_bind
        by (intros h; apply oblivious_bind; [auto with wp|]; intros values; apply oblivious_bind; eauto with wp).
      rewrite value_lift.
      destruct (ensure_all _ _ _ _ _ _ _) as [h|]; [|done]. cbn [res_bind].
      rewrite value_bind by eauto with wp. rewrite value_lift.
      destruct (_call_resolver _ _ _ _) as [values|]; [|done]. cbn [res_bind].
      rewrite value_record by eauto with wp.
      rewrite value_bind by eauto with wp. destruct (value_of (rest values)); [|done]. cbn [res_bind].
      rewrite value_bind by auto with wp. by rewrite value_mark. }
    rewrite !Hval. clear Hval.
    pose proof (agree_ensure_all (t_fields t) selected stack hidden (requires spec) l1 l2
      (fun h n => agree_ensure (t_fields t) selected stack h n l1 l2)) as [Hw Hp].
    pose proof (compose_additive _ _ (call_resolver_additive spec f) Hadd l1 l2) as Hc.
    set (F := fun l out => exists m, _call_resolver c spec l f = Ok m /\ value_of (rest m) = Ok out) in Hc.
    assert (forall l (e : res execution_error (list pystr)) column h, (let! h := e in
      let! values := _call_resolver c spec l f in
      let! column := value_of (rest values) in Ok (column, h)) = Ok (column, h) <-> e = Ok h /\ F l column) as HF.
    { intros l e column h. unfold F. rewrite res_bind_Ok. split.
      - intros (h' & -> & H). apply res_bind_Ok in H as (v & Hv & H). apply res_bind_Ok in H as (o & Ho & [= -> ->]). eauto.
      - intros [-> (m & Hm & Ho)]. exists h. split; [done|]. rewrite Hm. cbn [res_bind]. by rewrite Ho. }
    split.
    + intros column h. rewrite HF, Hw, Hc. split.
      * intros [[H1 H2] (o1 & o2 & -> & F1 & F2)]. exists o1, o2. by rewrite !HF.
      * intros (c1 & c2 & -> & [H1 F1]%HF & [H2 F2]%HF). split; [done|]. eauto.
    + intros c1 h1 c2 h2 [H1 _]%HF [H2 _]%HF. eauto.
  - destruct (attribute_of d) as [a|].
    { apply (columns_of (fun l out => out = map (read_attribute a) l)
        (fun l => value_of (do _ <- record [R_field (t_name t) (f_name f) (zlen l)];
          do _ <- mark c (t_name t) (f_name f) 0; ret (map (read_attribute a) l, hidden))) hidden);
        [apply map_additive|].
      intros l column h. rewrite value_record, value_bind by auto with wp. rewrite value_mark. cbn. naive_solver. }
    destruct (f_set f) as [set|]; [|split; naive_solver]. destruct (relationship d) as [index|]; [|split; naive_solver].
    set (r := fun l => value_of (do _ <- record [R_field (t_name t) (f_name f) (zlen l)];
      do _ <- mark c (t_name t) (f_name f) (zlen l);
      match type_of (c_schema c) (s_type_name d) with
      | None => fail (UnknownType (s_type_name d))
      | Some target =>
        do column <- project_level c (project target) target set (s_is_list d) (map (fun o => get_relation o index) l);
        ret (column, hidden)
      end)). change (columns (r (l1 ++ l2)) (r l1) (r l2)).
    assert (forall l, r l = match type_of (c_schema c) (s_type_name d) with
      | None => Err (UnknownType (s_type_name d))
      | Some target =>
        let! column := value_of (project_level c (project target) target set (s_is_list d)
          (map (fun o => get_relation o index) l)) in Ok (column, hidden)
      end) as Hr.
    { intros l. unfold r. destruct (type_of (c_schema c) (s_type_name d)) as [target|].
      - rewrite value_record, value_bind by eauto with wp. rewrite value_mark. cbn [res_bind]. rewrite value_bind by auto with wp. done.
      - done. }
    clearbody r. destruct (type_of (c_schema c) (s_type_name d)) as [target|]; [|rewrite !Hr; split; naive_solver].
    apply (columns_of (fun l out => exists m, m = map (fun o => get_relation o index) l /\
      value_of (project_level c (project target) target set (s_is_list d) m) = Ok out) r hidden).
    + apply compose_additive; [apply map_additive|]. apply level_additive; [apply Hoblivious|apply Hlength|apply Hadditive].
    + intros l column h. rewrite Hr, res_bind_Ok. naive_solver.
Qed.

(** A column has a value for each object. *)
Lemma field_length instances hidden (f : field) d column hidden' :
  value_of (project_field c stack project instances t selected hidden f d) = Ok (column, hidden') ->
  length column = length instances.
Proof.
  enough (wp (project_field c stack project instances t selected hidden f d) (mk_run [] [] [] [])
    (fun p _ => length p.1 = length instances)) as H.
  { unfold value_of. destruct (project_field _ _ _ _ _ _ _ _ _ _) as [[p st]|] eqn:E; [|done].
    intros [= ->]. by apply (H (column, hidden') st). }
  assert (forall target set is_list values st (Q : list data -> run_state -> Prop),
    (forall out st', length out = length values -> Q out st') ->
    wp (project_level c (project target) target set is_list values) st Q) as Hl.
  { intros target set is_list values st Q HQ. apply wp_project_level. intros flat layout children Hf Hc rows st' E.
    split; [|intros out Hout; by apply HQ, (levelled_length _ _ _ _ _ Hout)].
    apply (Hlength target flat children). pose proof (Hoblivious target flat children st) as Ho. by rewrite E in Ho. }
  unfold project_field. destruct (resolver d) as [spec|].
  - apply wp_bind, wp_lift. intros h _. apply wp_bind, wp_lift. intros values Hv%call_resolver_length.
    assert (forall values, length values = length instances -> forall st, wp (do _ <- mark c (t_name t) (f_name f) (zlen instances);
      ret (values : list data, h)) st (fun p _ => length p.1 = length instances)) as Hret.
    { intros v Hlen st. apply wp_bind. intros _ st' _. by apply wp_ret. }
    apply wp_bind. intros _ st' _.
    apply wp_bind. destruct (type_of _ _) as [target|]; [|by apply wp_ret, Hret; rewrite length_map].
    destruct (f_set f); [|by apply wp_ret, Hret; rewrite length_map]. apply Hl. intros out st'' Hout. apply Hret. congruence.
  - destruct (attribute_of d); [do 2 (apply wp_bind; intros _ ? _); apply wp_ret; cbn; by rewrite length_map|].
    destruct (f_set f); [|apply wp_fail]. destruct (relationship d); [|apply wp_fail].
    do 2 (apply wp_bind; intros _ ? _). destruct (type_of _ _) as [target|]; [|apply wp_fail]. apply wp_bind, Hl.
    intros out ? Hout. apply wp_ret. cbn. by rewrite Hout, length_map.
Qed.

(** *** Results of a level and of its parts *)

Abbreviation columns_of_rows := (list (pystr * list data)).

Definition merge_results (r1 r2 : columns_of_rows) : columns_of_rows :=
  zip_with (fun p q => (p.1, p.2 ++ q.2)) r1 r2.

(** Columns of [n1] and [n2] rows under the same keys. *)
Definition beside (n1 n2 : nat) (r1 r2 : columns_of_rows) : Prop :=
  Forall2 (fun p q => p.1 = q.1 /\ length p.2 = n1 /\ length q.2 = n2) r1 r2.

Lemma merge_dset n1 n2 r1 r2 k c1 c2 :
  beside n1 n2 r1 r2 -> length c1 = n1 -> length c2 = n2 ->
  dset (merge_results r1 r2) k (c1 ++ c2) = merge_results (dset r1 k c1) (dset r2 k c2) /\
  beside n1 n2 (dset r1 k c1) (dset r2 k c2).
Proof.
  intros H H1 H2. induction H as [|[k1 v1] [k2 v2] r1 r2 (E & Hv1 & Hv2) Hr IH].
  { split; [done|]. by constructor. }
  cbn [fst snd] in E. subst k2. cbn [merge_results zip_with dset fst snd]. case_decide.
  - split; [done|]. constructor; [done|]. exact Hr.
  - destruct IH as [IH1 IH2]. split; [cbn; f_equal; exact IH1|]. by constructor.
Qed.

Lemma finish_merge n1 n2 r1 r2 :
  beside n1 n2 r1 r2 ->
  finish_results (n1 + n2) (merge_results r1 r2) = finish_results n1 r1 ++ finish_results n2 r2.
Proof.
  intros H. unfold finish_results. rewrite seq_app, map_app. f_equal.
  - apply map_ext_in. intros i Hi%in_seq. f_equal. induction H as [|[k1 v1] [k2 v2] r1 r2 (E & Hv1 & Hv2) _ IH]; [done|].
    cbn [merge_results zip_with map fst snd]. f_equal; [|exact IH]. rewrite lookup_app_l; [done|cbn in Hv1; lia].
  - replace (seq (0 + n1) n2) with (map (Nat.add n1) (seq 0 n2))
      by (pose proof (fmap_add_seq n1 0 n2) as Hs; rewrite Nat.add_0_r in Hs; exact Hs).
    rewrite map_map. apply map_ext_in. intros i Hi%in_seq. f_equal.
    induction H as [|[k1 v1] [k2 v2] r1 r2 (E & Hv1 & Hv2) _ IH]; [done|].
    cbn [merge_results zip_with map fst snd] in *. subst. f_equal; [|exact IH].
    rewrite lookup_app_r by lia. do 3 f_equal. lia.
Qed.

Abbreviation step l := (project_step c stack project l t selected).

Lemma oblivious_step l acc f : oblivious (step l acc f).
Proof.
  unfold project_step. destruct acc as [r h]. destruct (dget (t_fields t) (f_name f)); [|auto with wp].
  apply oblivious_bind; [auto with wp|]. intros []; cbn [negb]; [|auto with wp].
  apply oblivious_bind; [apply oblivious_field|]. intros [column h']. destruct (Nat.eqb _ _); auto with wp.
Qed.

Lemma step_value l r h f out h' :
  value_of (step l (r, h) f) = Ok (out, h') <->
  exists d column, dget (t_fields t) (f_name f) = Some d /\
    value_of (project_field c stack project l t selected h f d) = Ok (column, h') /\ out = dset r (f_key f) column.
Proof.
  unfold project_step. destruct (dget (t_fields t) (f_name f)) as [d|]; [|naive_solver].
  rewrite value_bind.
  2: { intros []; cbn [negb]; [|auto with wp]. apply oblivious_bind; [apply oblivious_field|].
       intros [column h'']. destruct (Nat.eqb _ _); auto with wp. }
  rewrite value_allowed. cbn [res_bind negb]. rewrite value_bind by (intros [column h'']; destruct (Nat.eqb _ _); auto with wp).
  rewrite res_bind_Ok. split.
  - intros ([column h''] & Hf & H). destruct (Nat.eqb _ _); [|done]. injection H as <- <-. by exists d, column.
  - intros (d' & column & [= <-] & Hf & ->). exists (column, h'). split; [done|].
    by rewrite (field_length _ _ _ _ _ _ Hf), Nat.eqb_refl.
Qed.

Abbreviation steps l := (fold_m (step l)).

Lemma steps_value l r h f fs out h' :
  value_of (steps l (r, h) (f :: fs)) = Ok (out, h') <->
  exists r1 h1, value_of (step l (r, h) f) = Ok (r1, h1) /\ value_of (steps l (r1, h1) fs) = Ok (out, h').
Proof.
  rewrite value_fold by apply oblivious_step. rewrite res_bind_Ok. split.
  - intros ([r1 h1] & H1 & H2). eauto.
  - intros (r1 & h1 & H1 & H2). eauto.
Qed.

Lemma steps_merge l1 l2 fs r1 r2 h out h' :
  beside (length l1) (length l2) r1 r2 ->
  value_of (steps (l1 ++ l2) (merge_results r1 r2, h) fs) = Ok (out, h') <->
  exists out1 out2, out = merge_results out1 out2 /\ beside (length l1) (length l2) out1 out2 /\
    value_of (steps l1 (r1, h) fs) = Ok (out1, h') /\ value_of (steps l2 (r2, h) fs) = Ok (out2, h').
Proof.
  revert r1 r2 h. induction fs as [|f fs IH]; intros r1 r2 h Hb.
  { cbn [fold_m]. unfold value_of, ret. split.
    - intros [= <- <-]. by exists r1, r2.
    - intros (? & ? & -> & _ & [= <- <-] & [= <-]). done. }
  rewrite steps_value. setoid_rewrite steps_value. split.
  - intros (r' & h1 & (d & column & Hd & Hcol & ->)%step_value & Hrest).
    apply field_columns in Hcol as (c1 & c2 & -> & Hc1 & Hc2).
    destruct (merge_dset _ _ r1 r2 (f_key f) c1 c2 Hb (field_length _ _ _ _ _ _ Hc1) (field_length _ _ _ _ _ _ Hc2))
      as [E Hb']. rewrite E in Hrest. apply IH in Hrest as (o1 & o2 & -> & Ho & H1 & H2); [|done].
    exists o1, o2. split_and!; [done|done| |].
    + exists (dset r1 (f_key f) c1), h1. split; [|done]. apply step_value. by exists d, c1.
    + exists (dset r2 (f_key f) c2), h1. split; [|done]. apply step_value. by exists d, c2.
  - intros (o1 & o2 & -> & Ho & (r1' & h1 & (d & c1 & Hd & Hc1 & ->)%step_value & H1) &
      (r2' & h2 & (d' & c2 & Hd' & Hc2 & ->)%step_value & H2)).
    rewrite Hd in Hd'. injection Hd' as <-.
    assert (h1 = h2) as <- by (eapply (field_columns h f d l1 l2); eauto).
    destruct (merge_dset _ _ r1 r2 (f_key f) c1 c2 Hb (field_length _ _ _ _ _ _ Hc1) (field_length _ _ _ _ _ _ Hc2))
      as [E Hb']. exists (dset (merge_results r1 r2) (f_key f) (c1 ++ c2)), h1. split.
    + apply step_value. exists d, (c1 ++ c2). split_and!; [done| |done]. apply field_columns. eauto.
    + rewrite E. apply IH; [done|]. by exists o1, o2.
Qed.

Lemma steps_beside l1 l2 fs r1 r2 h h' o1 h1 o2 h2 :
  beside (length l1) (length l2) r1 r2 -> value_of (steps l1 (r1, h) fs) = Ok (o1, h1) ->
  value_of (steps l2 (r2, h') fs) = Ok (o2, h2) -> beside (length l1) (length l2) o1 o2.
Proof.
  revert r1 r2 h h'. induction fs as [|f fs IH]; intros r1 r2 h h' Hb; [by intros [= <- <-] [= <- <-]|].
  rewrite !steps_value. intros (r1' & h1' & (d & c1 & Hd & Hc1 & ->)%step_value & H1).
  intros (r2' & h2' & (d' & c2 & Hd' & Hc2 & ->)%step_value & H2). eapply IH; [|exact H1|exact H2].
  apply field_length in Hc1, Hc2. by destruct (merge_dset _ _ r1 r2 (f_key f) c1 c2 Hb Hc1 Hc2).
Qed.

Lemma steps_hidden l1 l2 fs r1 r2 h o1 h1 o2 h2 :
  value_of (steps l1 (r1, h) fs) = Ok (o1, h1) -> value_of (steps l2 (r2, h) fs) = Ok (o2, h2) -> h1 = h2.
Proof.
  revert r1 r2 h. induction fs as [|f fs IH]; intros r1 r2 h; [by intros [= <- <-] [= <- <-]|].
  rewrite !steps_value. intros (r1' & h1' & (d & c1 & Hd & Hc1 & ->)%step_value & H1).
  intros (r2' & h2' & (d' & c2 & Hd' & Hc2 & ->)%step_value & H2).
  rewrite Hd in Hd'. injection Hd' as <-.
  assert (h1' = h2') as -> by (eapply (field_columns h f d l1 l2); eauto). eauto.
Qed.

End field.

(** *** The projection of a level *)

#[local] Hint Resolve oblivious_step : wp.

Definition general (stack : nat) (t : ObjectType) (instances : list obj) (fields : list field) : M (list data) :=
  do ordered <- lift (order_fields stack (requires_of (t_fields t)) fields);
  do (results, _) <- fold_m (project_step c stack (_project c stack) instances t (map f_name fields)) ([], []) ordered;
  ret (finish_results (length instances) results).

Lemma project_cases stack t instances fields :
  _project c (S stack) t instances fields =
  match (if c_marker c then None else plain_fields (t_fields t) fields) with
  | Some plan =>
    do _ <- record (map (fun f => R_field (t_name t) (f_name f) (zlen instances)) fields);
    ret (map (project_plain plan) instances)
  | None => general stack t instances fields
  end.
Proof. cbn [_project]. rewrite Hnobody. destruct (c_marker c); [done|]. by destruct (plain_fields _ _). Qed.

Record level_facts (stack : nat) : Prop := {
  level_oblivious : forall t instances fields, oblivious (_project c stack t instances fields);
  level_length : forall t instances fields rows, value_of (_project c stack t instances fields) = Ok rows ->
    length rows = length instances;
  level_additivity : forall t fields,
    additive (fun instances rows => value_of (_project c stack t instances fields) = Ok rows) }.

Lemma general_oblivious stack t instances fields : level_facts stack -> oblivious (general stack t instances fields).
Proof.
  intros [Ho Hl Ha]. unfold general. apply oblivious_bind; [auto with wp|]. intros ordered.
  apply oblivious_bind; [apply oblivious_fold; intros; by apply oblivious_step|]. intros [r h]. auto with wp.
Qed.

Lemma general_value stack t instances fields rows :
  level_facts stack ->
  value_of (general stack t instances fields) = Ok rows <->
  exists ordered results hidden, order_fields stack (requires_of (t_fields t)) fields = Ok ordered /\
    value_of (fold_m (project_step c stack (_project c stack) instances t (map f_name fields)) ([], []) ordered) =
      Ok (results, hidden) /\
    rows = finish_results (length instances) results.
Proof.
  intros [Ho Hl Ha]. unfold general. rewrite value_bind.
  2: { intros ordered. apply oblivious_bind; [apply oblivious_fold; intros; by apply oblivious_step|].
       intros [r h]. auto with wp. }
  rewrite value_lift, res_bind_Ok.
  assert (forall ordered, value_of (do (results, _) <-
    fold_m (project_step c stack (_project c stack) instances t (map f_name fields)) ([], []) ordered;
    ret (finish_results (length instances) results)) =
    let! p := value_of (fold_m (project_step c stack (_project c stack) instances t (map f_name fields)) ([], []) ordered) in
    Ok (finish_results (length instances) p.1)) as Hv.
  { intros ordered. rewrite value_bind by (intros [r h]; apply oblivious_ret).
    by destruct (value_of (fold_m _ _ _)) as [[r h]|]. }
  split.
  - intros (ordered & H1 & H). rewrite Hv in H. apply res_bind_Ok in H as ([r h] & H2 & [= <-]). by exists ordered, r, h.
  - intros (ordered & r & h & H1 & H2 & ->). exists ordered. split; [done|]. rewrite Hv. apply res_bind_Ok. by exists (r, h).
Qed.

Lemma project_facts stack : level_facts stack.
Proof.
  induction stack as [|stack IH]; [split; [intros; apply oblivious_fail|done|]|].
  { intros t fields l1 l2 out. cbn. naive_solver. }
  pose proof IH as [Ho Hl Ha]. split; intros t.
  - intros instances fields. rewrite project_cases. destruct (if c_marker c then _ else _); [apply oblivious_bind; auto with wp|].
    by apply general_oblivious.
  - intros instances fields rows. rewrite project_cases. destruct (if c_marker c then _ else _) as [plan|].
    + rewrite value_record by apply oblivious_ret. intros [= <-]. by rewrite length_map.
    + intros (ordered & r & h & _ & _ & ->)%general_value; [|done]. unfold finish_results.
      by rewrite length_map, length_seq.
  - intros fields l1 l2 out. rewrite !project_cases. destruct (if c_marker c then _ else _) as [plan|];
      [rewrite !value_record by apply oblivious_ret; apply ret_map_additive|].
    pose proof (fun l rows => general_value stack t l fields rows IH) as Hg.
    rewrite (Hg (l1 ++ l2) out). split.
    + intros (ordered & r & h & Hord & Hr & ->).
      apply (steps_merge stack (_project c stack) t (map f_name fields) Ho Hl Ha l1 l2 ordered [] [] []) in Hr
        as (r1 & r2 & -> & Hb & H1 & H2); [|constructor].
      exists (finish_results (length l1) r1), (finish_results (length l2) r2).
      rewrite length_app, (finish_merge _ _ _ _ Hb), !Hg.
      split_and!; [done|by exists ordered, r1, h|by exists ordered, r2, h].
    + intros (o1 & o2 & -> & H1 & H2). rewrite Hg in H1, H2.
      destruct H1 as (ordered & r1 & h & Hord & H1 & ->), H2 as (ordered' & r2 & h' & Hord' & H2 & ->).
      assert (ordered' = ordered) as -> by congruence.
      assert (h' = h) as -> by (symmetry; eapply (steps_hidden stack (_project c stack) t _ Ho Hl Ha); eassumption).
      pose proof (steps_beside stack (_project c stack) t (map f_name fields) Ho Hl l1 l2 ordered [] [] [] [] _ _ _ _
        ltac:(constructor) H1 H2) as Hb.
      exists ordered, (merge_results r1 r2), h. rewrite length_app, (finish_merge _ _ _ _ Hb). split_and!; [done| |done].
      apply (steps_merge stack (_project c stack) t (map f_name fields) Ho Hl Ha l1 l2 ordered [] [] []); [constructor|].
      by exists r1, r2.
Qed.

End batch.
