(* ===== verification/GraphqlClaims.v ===== *)
(** * GraphQL: the claims

    Against a small schema and world for their witnesses: a type [T] with a
    column, a list relationship and a batch resolver, and a list root. *)

From stdpp Require Import base sets strings numbers list gmap relations.
From Stdlib Require Import ZArith Lia.
From S2P Require Import Prelude PyCollections GraphqlCost GraphqlExecute GraphqlOrderFacts.
From S2P Require Import GraphqlExecuteFacts GraphqlWork.
#[local] Open Scope Z_scope.

(** ** A schema and a world *)

Inductive cell : Type := CNone | CNum (n : Z) | CRow (n : Z) | CList (l : list cell).

Definition cell_x (o : cell) : cell := match o with CRow n => CNum n | _ => CNone end.
Definition cell_score (o : cell) : cell := match o with CRow n => CNum (100 + n) | _ => CNone end.

#[export] Instance cells : World := {|
  obj := cell;
  none := CNone;
  is_none := fun o => match o with CNone => true | _ => false end;
  iterate := fun o => match o with CList l => Some l | _ => None end;
  getattr := fun o a => if bool_decide (a = bs "x") then Some (cell_x o) else None;
  get_relation := fun o _ => match o with CRow n => CList [CRow (10 * n + 1); CRow (10 * n + 2)] | _ => CNone end;
  call_batch := fun _ os _ => Some (CList (map cell_score os));
  call_one := fun _ o _ => Some (cell_score o);
  call_root := fun _ _ => Some CNone;
  fetch_many := fun _ n _ => take (Z.to_nat n) [CRow 1; CRow 2];
  fetch_one := fun _ _ => Some [CRow 1];
  single_key := fun _ => true;
  int_of := fun v => match v with VInt n => Some n | _ => None end |}.

Definition score : ResolverSpec := mk_resolver (bs "T") (bs "score") [bs "x"] true (bs "Int") false true None 3.

Definition type_T : ObjectType := mk_object_type (bs "T") [
  (bs "x", mk_schema_field (bs "x") (bs "Int") true false None (Some (bs "x")) None None (bs "T.x") 1);
  (bs "kids", mk_schema_field (bs "kids") (bs "T") true true (Some 0) None None None (bs "T.kids") 2);
  (bs "score", mk_schema_field (bs "score") (bs "Int") true false None None None (Some score) (bs "T.score") 3)].

Definition small : Schema := mk_schema [(bs "T", type_T)]
  [(bs "top", mk_root (bs "top") (bs "T") true None (bs "Query.top") 1)] [].

Definition leaf (n : pystr) : selection := Field (mk_field n n [] None).
Definition node (n : pystr) (l : list selection) : selection := Field (mk_field n n [] (Some l)).

(** [{ top { score x kids { ...F } } }] with [fragment F on T { x }]. *)
Definition asked_for : Operation := mk_operation Query None []
  [node (bs "top") [leaf (bs "score"); leaf (bs "x"); node (bs "kids") [FragmentSpread (bs "F")]]].
Definition asking : Document := mk_document [asked_for]
  [(bs "F", mk_fragment (bs "F") (bs "T") [leaf (bs "x")])] 3 6.

Definition two_fields : list field := [mk_field (bs "score") (bs "score") [] None; mk_field (bs "x") (bs "y") [] None].

Definition plain_run : Run := mk_config small asking [] None 10 false true.
Definition guarded_run : Run := mk_config small asking [] (Some (fun _ r => negb (bool_decide (r = bs "T.score")))) 10 true true.

Example asked_answer :
  match execute 20 small asking None [] None 10 false true with
  | Ok (out, st) => Some (length out, zlen (phases st), selected_work small st, total_work small st)
  | Err _ => None
  end = Some (1%nat, 4, 17, 17).
Proof. vm_compute. reflexivity. Qed.

Lemma small_wired : wired small.
Proof.
  assert (forall k t, type_of small k = Some t -> k = bs "T" /\ t = type_T) as Ht.
  { intros k t. unfold type_of, small. cbn [types dget]. case_decide; [|done]. by intros [= <-]. }
  assert (forall n f, dget (t_fields type_T) n = Some f ->
    0 <= s_cost f /\ forall spec, resolver f = Some spec -> type_name_out spec = s_type_name f /\ r_is_list spec = s_is_list f) as Hf.
  { intros n f. unfold type_T. cbn [t_fields dget]. repeat case_decide; try done; intros [= <-]; cbn; split; try lia; try done.
    by intros spec [= <-]. }
  constructor.
  - by intros k t [-> ->]%Ht.
  - intros k t n f [-> ->]%Ht Hd. by apply Hf in Hd as [? _].
  - intros [] n r; cbn; [|done]. case_decide; [|done]. by intros [= <-].
  - intros k t n f spec [-> ->]%Ht Hd. apply Hf in Hd as [_ H]. apply H.
Qed.

Lemma cells_paged : paged cells 10.
Proof.
  constructor; unfold within_page; cbn.
  - intros o _ l. destruct o; try done. by intros [= <-].
  - intros _ o _ v [= <-] l. by destruct o.
  - intros _ os _ r l v [= <-] [= <-] (o & -> & _)%list_elem_of_fmap k. by destruct o.
  - intros _ n _ Hn. unfold zlen. rewrite length_take. lia.
  - by intros _ _ l [= <-].
Qed.

(** ** The charge *)

(** C31. What an operation selects is no more work than it was charged: the
    roots and the selected fields, each at its cost for every object it is resolved
    for, summed over the run, are within the weight, and the weight is within the
    budget.  What a resolver requires and nobody selected is resolved as well and
    charged nothing (see [hidden_uncharged]); where that is free, everything the run
    resolves is within the weight.  Asked of the schema and the world: costs are not
    negative, resolver fields declare what their resolvers do, and no list exceeds
    a page. *)
Theorem work_within_charge {W : World} (c : Run) stack weigh_stack o max w out st :
  wired (c_schema c) -> 0 <= c_max_page_size c -> paged W (c_max_page_size c) -> 0 <= max ->
  weigh weigh_stack (c_schema c) (c_document c) o max (c_max_page_size c) = Ok w ->
  run c stack o (mk_run [] [] [] []) = Ok (out, st) ->
  selected_work (c_schema c) st <= w <= max /\ (free_requirements (c_schema c) -> total_work (c_schema c) st <= w).
Proof.
  intros Hw Hp Hg Hmax Hweigh Hrun. split.
  - split; [by eapply (run_work c Hw Hp Hg false)|].
    unfold weigh in Hweigh. apply weigh_loop_charges in Hweigh as [_ H]. by apply H.
  - intros Hfree. by eapply (run_work c Hw Hp Hg true).
Qed.

Lemma work_within_charge_witness : exists out st,
  run plain_run 20 asked_for (mk_run [] [] [] []) = Ok (out, st) /\
  selected_work small st <= 161 <= 1000 /\ (free_requirements small -> total_work small st <= 161).
Proof.
  destruct (run plain_run 20 asked_for (mk_run [] [] [] [])) as [[out st]|] eqn:E; [|vm_compute in E; discriminate].
  exists out, st. split; [reflexivity|].
  apply (work_within_charge plain_run 20 20 asked_for 1000 161 out st small_wired ltac:(cbn; lia) cells_paged ltac:(lia));
    [vm_compute; reflexivity|exact E].
Defined.

(** A selected field of cost 1 whose resolver requires another of cost 1000, which
    nobody selects: ten objects are charged for the one and resolved by both. *)
Definition dear : ResolverSpec := mk_resolver (bs "T") (bs "dear") [] true (bs "Int") false true None 1000.
Definition cheap : ResolverSpec := mk_resolver (bs "T") (bs "cheap") [bs "dear"] true (bs "Int") false true None 1.

Definition hiding : Schema := mk_schema [(bs "T", mk_object_type (bs "T") [
    (bs "dear", mk_schema_field (bs "dear") (bs "Int") true false None None None (Some dear) (bs "T.dear") 1000);
    (bs "cheap", mk_schema_field (bs "cheap") (bs "Int") true false None None None (Some cheap) (bs "T.cheap") 1)])]
  [(bs "top", mk_root (bs "top") (bs "T") true None (bs "Query.top") 1)] [].

Definition asks_cheap : Operation := mk_operation Query None [] [node (bs "top") [leaf (bs "cheap")]].

Example hidden_uncharged :
  weigh 5 hiding (mk_document [asks_cheap] [] 2 2) asks_cheap 100 10 = Ok 11 /\
  match execute 20 hiding (mk_document [asks_cheap] [] 2 2) None [] None 10 false false with
  | Ok (_, st) => (resolved st, selected_work hiding st, total_work hiding st)
  | Err _ => ([], 0, 0)
  end = ([R_root Query (bs "top"); R_hidden (bs "T") (bs "dear") 2; R_field (bs "T") (bs "cheap") 2], 3, 2003).
Proof. split; vm_compute; reflexivity. Qed.

(** C33. Weighing ends.  Where fragments do not lead back to themselves, so that
    each has a [rank] above those it spreads, a stack of the nesting of the
    operation and of the nesting of fragments for each rank is enough, and the
    only refusal is the budget's.  The depth the parser bounds is that of a single
    definition and would not be enough: see [chain_outruns_depth]. *)
Theorem weighing_terminates stack s d o max page (rank : pystr -> nat) deep bound :
  ranked d rank -> (forall n def, dget (fragments d) n = Some def -> (nest (d_set def) <= deep)%nat) ->
  (forall n, n ∈ spreads (o_set o) -> (rank n < bound)%nat) ->
  (nest (o_set o) + bound * deep <= stack)%nat ->
  match weigh stack s d o max page with Ok w => 0 <= max -> w <= max | Err e => e = Complexity end.
Proof.
  intros Hr Hd Hb Hs. eapply (weigh_bounded d rank deep Hr Hd); [|exact Hs]. by exists bound.
Qed.

Lemma weighing_terminates_witness :
  match weigh 2 small asking asked_for 1000 10 with Ok w => 0 <= 1000 -> w <= 1000 | Err e => e = Complexity end.
Proof.
  apply (weighing_terminates 2 small asking asked_for 1000 10 (fun _ => 0%nat) 0 1).
  - intros n def m. cbn [asking fragments dget]. case_decide; [|done]. intros [= <-]. cbn. by intros ?%elem_of_nil.
  - intros n def. cbn [asking fragments dget]. case_decide; [|done]. by intros [= <-].
  - intros n _. lia.
  - cbn. lia.
Defined.

(** ** Execution *)

(** The fields of a level are resolved in an order that is a rearrangement
    of the selections in which everything a resolver requires, directly or
    through other resolvers, comes before it; a level is refused exactly for a
    cycle, which is reported. *)
Theorem order_respects_requires declared selected stack :
  (length declared < stack)%nat ->
  match order_fields stack (requires_of declared) selected with
  | Ok out =>
    out ≡ₚ selected /\
    (forall l1 f l2, out = l1 ++ f :: l2 -> ready (requires_of declared) selected l1 f) /\
    (forall f, f ∈ selected -> ~ tc (needs (requires_of declared)) (f_name f) (f_name f))
  | Err (ResolverError cycle) => is_cycle (requires_of declared) cycle
  | Err _ => False
  end.
Proof.
  intros Hlen. pose proof (order_fields_out (requires_of declared) stack selected) as H.
  pose proof (order_fields_deep (requires_of declared) (map fst declared) stack selected
    (requires_of_declared declared) ltac:(by rewrite length_map)) as Hd.
  destruct (order_fields _ _ _) as [out|[]]; try done; congruence.
Qed.

Lemma order_respects_requires_witness :
  order_fields 4 (requires_of (t_fields type_T)) two_fields = Ok (rev two_fields) /\
  forall l1 f l2, rev two_fields = l1 ++ f :: l2 -> ready (requires_of (t_fields type_T)) two_fields l1 f.
Proof.
  assert (order_fields 4 (requires_of (t_fields type_T)) two_fields = Ok (rev two_fields)) as E by (vm_compute; reflexivity).
  split; [exact E|].
  pose proof (order_respects_requires (t_fields type_T) two_fields 4 ltac:(cbn; lia)) as H. rewrite E in H. apply H.
Defined.

(** C32. A run asks its authorizer about no resource twice; every phase it marks
    is of a field whose policy the authorizer allowed, given what had been
    asked before; and where denials are raised, a run that returns was denied
    nothing. *)
Theorem phases_authorized {W : World} (c : Run) authorize stack o out st :
  c_authorizer c = Some authorize -> run c stack o (mk_run [] [] [] []) = Ok (out, st) ->
  NoDup (asked st) /\
  (forall ty n k, (ty, n, k) ∈ phases st -> exists key t f, type_of (c_schema c) key = Some t /\ t_name t = ty /\
    dget (t_fields t) n = Some f /\ answered authorize (asked st) (s_policy f) true) /\
  (c_null_denied c = false -> forall r, r ∈ asked st -> answered authorize (asked st) r true).
Proof.
  intros Ha Hrun. destruct (run_access c authorize Ha stack o out st Hrun) as [On As An Ra Ph]. split_and!; [done| |].
  - intros ty n k (key & t & f & Hk & Ht & Hf & Hd)%Ph. exists key, t, f. split_and!; [done..|]. by apply An.
  - intros Hn r [b Hb]%As. rewrite (Ra Hn r b Hb) in Hb. by apply An.
Qed.

Lemma phases_authorized_witness : exists out st,
  run guarded_run 20 asked_for (mk_run [] [] [] []) = Ok (out, st) /\
  asked st = [bs "Query.top"; bs "T.x"; bs "T.score"; bs "T.kids"] /\ NoDup (asked st).
Proof.
  destruct (run guarded_run 20 asked_for (mk_run [] [] [] [])) as [[out st]|] eqn:E; [|vm_compute in E; discriminate].
  exists out, st. split; [reflexivity|]. split; [vm_compute in E; injection E as <- <-; reflexivity|].
  apply (phases_authorized guarded_run _ 20 asked_for out st eq_refl E).
Defined.

(** Resolving field by field for a whole level gives what resolving each
    part of the level would: without an authorizer, and where batch resolvers
    answer each object by itself, a level projects to the concatenation of its
    parts, and succeeds exactly when they do. *)
Theorem level_is_its_parts {W : World} (c : Run) one stack t fields l1 l2 rows :
  c_authorizer c = None -> pointwise one ->
  value_of (_project c stack t (l1 ++ l2) fields) = Ok rows <->
  exists r1 r2, rows = r1 ++ r2 /\ value_of (_project c stack t l1 fields) = Ok r1 /\
    value_of (_project c stack t l2 fields) = Ok r2.
Proof. intros Ha Hone. apply (level_additivity _ _ (project_facts c Ha one Hone stack)). Qed.

Lemma cells_pointwise : pointwise (fun _ _ o => Some (cell_score o)).
Proof.
  intros spec os arguments. cbn. symmetry. apply mapM_Some. induction os; by constructor.
Qed.

Lemma level_is_its_parts_witness : exists rows,
  value_of (_project plain_run 9 type_T ([CRow 1] ++ [CRow 2]) two_fields) = Ok rows /\ length rows = 2%nat /\
  exists r1 r2, rows = r1 ++ r2 /\ value_of (_project plain_run 9 type_T [CRow 1] two_fields) = Ok r1 /\
    value_of (_project plain_run 9 type_T [CRow 2] two_fields) = Ok r2.
Proof.
  eexists. split; [vm_compute; reflexivity|]. split; [reflexivity|].
  apply (level_is_its_parts (W := cells) plain_run _ 9 type_T two_fields [CRow 1] [CRow 2] _ eq_refl cells_pointwise).
  vm_compute. reflexivity.
Defined.

(** ** What a document can cost before it is refused *)

(** Fragment [i + 1] selects fragment [i] below two fields. *)
Definition bomb_name (i : nat) : pystr := bs "F" ++ repeat 48 i.

Definition bomb_fragment (i : nat) : pystr * FragmentDefinition :=
  (bomb_name i, mk_fragment (bomb_name i) (bs "U")
    match i with
    | O => [leaf (bs "a")]
    | S i => [node (bs "a") [FragmentSpread (bomb_name i)]; node (bs "b") [FragmentSpread (bomb_name i)]]
    end).

Definition bomb (k : nat) : Document := mk_document [] (map bomb_fragment (seq 0 (S k))) 2 (2 * Z.of_nat k + 1).

Definition bomb_field (n : pystr) : SchemaField :=
  mk_schema_field n (bs "U") true false (Some 0) None None None (bs "U") 1.
Definition bomb_schema : Schema :=
  mk_schema [(bs "U", mk_object_type (bs "U") [(bs "a", bomb_field (bs "a")); (bs "b", bomb_field (bs "b"))])]
    [(bs "u", mk_root (bs "u") (bs "U") false None (bs "u") 1)] [].

Definition bomb_operation (k : nat) : Operation := mk_operation Query None [] [node (bs "u") [FragmentSpread (bomb_name k)]].

(** Twelve fragments of two fields are charged as twelve thousand fields, each
    of which is visited before the budget is compared. *)
Example bomb_doubles :
  map (fun k => weigh 20 bomb_schema (bomb k)
    (bomb_operation k) 1000000 50) [1%nat; 2%nat; 10%nat] =
  [Ok 5; Ok 11; Ok 3071].
Proof. vm_compute. reflexivity. Qed.

(** A chain of fragments, none nested deeper than one level, needs a stack as long
    as the chain. *)
Example chain_outruns_depth :
  depth (bomb 3) = 2 /\
  map (fun stack => weigh stack bomb_schema (bomb 3) (bomb_operation 3) 1000 10) [2; 3; 5]%nat =
    [Err RecursionError; Err RecursionError; Ok 23].
Proof. split; vm_compute; reflexivity. Qed.
