(* ===== verification/TokenBucket.v ===== *)
(** * The token-bucket table: [_native/ratelimit.c]

    Buckets in an open-addressed table of a power of two slots, probed linearly;
    what a bucket is owed is computed when it is read.  A C [double] is an exact
    rational here: the claims are about the arithmetic the code means, without
    rounding, NaN or infinities.  Sizes are [size_t], wrapped at 64 bits where
    the code multiplies.  Probing takes one unit of fuel per slot; running out
    is [Stuck]. *)

From stdpp Require Import base sets strings numbers list gmap.
From Stdlib Require Import ZArith QArith Lia Lqa.
From S2P Require Import Prelude.
#[local] Open Scope Z_scope.

(** [x > y] and the like on [double]. *)
Definition qlt (x y : Q) : bool := negb (Qle_bool y x).
Abbreviation qle := Qle_bool.

Inductive bucket_error : Type :=
| BadCapacity | BadRate | BadEntries | CostNotPositive | CostOverCapacity | Stuck.

(** [self->used + 1] keys in [slots] slots are at most 3/4 load. *)
Definition WREATH_FITS (used slots : Z) : bool := (used + 1) * 4 <=? slots * 3.

Definition size_t (z : Z) : Z := z mod 2 ^ 64.

(** [result <<= 1] while it is too small. *)
Fixpoint doubled (fuel : nat) (result value : Z) : Z :=
  match fuel with
  | O => result
  | S fuel => if (result <? value) && (result <? 2 ^ 63 - 1) then doubled fuel (2 * result) value else result
  end.

Definition next_power_of_two (value : Z) : Z := doubled 64 8 value.

Section bucket.
Context {K : Type} `{EqDecision K} (hash : K -> Z).

Record WreathBucket : Type := mk_bucket {
  b_key : K;
  b_hash : Z;
  b_tokens : Q;
  b_updated : Q }.

(** A slot is [None] when its key is [NULL]. *)
Abbreviation slot := (option WreathBucket).

Record TokenBucket : Type := mk_table {
  slots : list slot;
  used : Z;
  max_slots : Z;
  max_entries : Z;
  capacity : Q;
  rate : Q }.

Definition mask (t : TokenBucket) : Z := zlen (slots t) - 1.

Definition WREATH_HAS_ROOM (t : TokenBucket) : bool :=
  WREATH_FITS (used t) (mask t + 1) && (used t <? max_entries t).

Definition with_slots (sl : list slot) (n : Z) (t : TokenBucket) : TokenBucket :=
  mk_table sl n (max_slots t) (max_entries t) (capacity t) (rate t).

Definition bucket_refill (capacity rate : Q) (s : WreathBucket) (now : Q) : WreathBucket :=
  let elapsed := (now - b_updated s)%Q in
  if qle elapsed 0 then s
  else let tokens := (b_tokens s + elapsed * rate)%Q in
       mk_bucket (b_key s) (b_hash s) (if qlt capacity tokens then capacity else tokens) now.

(** The slot of a key, or the empty slot it would take. *)
Fixpoint find_loop (fuel : nat) (sl : list slot) (m : Z) (k : K) (h : Z) (index : Z) : option (nat * bool) :=
  match fuel with
  | O => None
  | S fuel =>
      match sl !! Z.to_nat index with
      | None => None
      | Some None => Some (Z.to_nat index, false)
      | Some (Some s) =>
          if (b_hash s =? h) && bool_decide (b_key s = k) then Some (Z.to_nat index, true)
          else find_loop fuel sl m k h (Z.land (index + 1) m)
      end
  end.

Definition bucket_find (t : TokenBucket) (k : K) (h : Z) : option (nat * bool) :=
  find_loop (length (slots t)) (slots t) (mask t) k h (Z.land (size_t h) (mask t)).

(** The first free slot from [index] on. *)
Fixpoint place_loop (fuel : nat) (sl : list slot) (m : Z) (index : Z) : option nat :=
  match fuel with
  | O => None
  | S fuel =>
      match sl !! Z.to_nat index with
      | None => None
      | Some None => Some (Z.to_nat index)
      | Some (Some _) => place_loop fuel sl m (Z.land (index + 1) m)
      end
  end.

(** The loop of [bucket_rebuild] over the old slots, the first of which is slot [i]. *)
Fixpoint rebuild_loop (cap rate : Q) (now : Q) (drop : Z) (new_mask : Z) (old : list slot) (i : Z)
    (fresh : list slot) (n : Z) : option (list slot * Z) :=
  match old with
  | [] => Some (fresh, n)
  | None :: old => rebuild_loop cap rate now drop new_mask old (i + 1) fresh n
  | Some s :: old =>
      let s := bucket_refill cap rate s now in
      if (i =? drop) || qle cap (b_tokens s) then rebuild_loop cap rate now drop new_mask old (i + 1) fresh n
      else match place_loop (length fresh) fresh new_mask (Z.land (size_t (b_hash s)) new_mask) with
           | None => None
           | Some index => rebuild_loop cap rate now drop new_mask old (i + 1) (<[index := Some s]> fresh) (n + 1)
           end
  end.

Definition bucket_rebuild (t : TokenBucket) (target : Z) (now : Q) (drop : Z) : option TokenBucket :=
  match rebuild_loop (capacity t) (rate t) now drop (target - 1) (slots t) 0 (replicate (Z.to_nat target) None) 0 with
  | None => None
  | Some (fresh, n) => Some (with_slots fresh n t)
  end.

(** [target <<= 1] while the survivors do not fit. *)
Fixpoint grow_loop (fuel : nat) (survivors most target : Z) : Z :=
  match fuel with
  | O => target
  | S fuel => if negb (WREATH_FITS survivors target) && (target <? most) then grow_loop fuel survivors most (2 * target)
              else target
  end.

Definition refill_all (t : TokenBucket) (now : Q) : TokenBucket :=
  with_slots (map (fmap (fun s => bucket_refill (capacity t) (rate t) s now)) (slots t)) (used t) t.

Definition survivor (cap : Q) (s : slot) : bool := match s with Some s => qlt (b_tokens s) cap | None => false end.
Definition refilled (cap : Q) (s : slot) : bool := match s with Some s => negb (qlt (b_tokens s) cap) | None => false end.

(** [true] when there is room for one more key. *)
Definition bucket_ensure_room (t : TokenBucket) (now : Q) : option (bool * TokenBucket) :=
  if WREATH_HAS_ROOM t then Some (true, t)
  else
    let t := refill_all t now in
    let survivors := zlen (List.filter (survivor (capacity t)) (slots t)) in
    let reclaimable := zlen (List.filter (refilled (capacity t)) (slots t)) in
    let target := grow_loop 64 survivors (max_slots t) (mask t + 1) in
    if (target =? mask t + 1) && (reclaimable =? 0) then Some (false, t)
    else match bucket_rebuild t target now (-1) with
         | None => None
         | Some t => Some (WREATH_HAS_ROOM t, t)
         end.

Definition token_bucket_acquire (k : K) (now cost : Q) (t : TokenBucket) : res bucket_error (Q * TokenBucket) :=
  if qle cost 0 then Err CostNotPositive
  else if qlt (capacity t) cost then Err CostOverCapacity
  else
    match bucket_find t k (hash k) with
    | None => Err Stuck
    | Some (index, true) =>
        match slots t !! index with
        | Some (Some s) =>
            let s := bucket_refill (capacity t) (rate t) s now in
            if qle cost (b_tokens s) then
              Ok (0%Q, with_slots (<[index := Some (mk_bucket (b_key s) (b_hash s) (b_tokens s - cost)%Q (b_updated s))]>
                                     (slots t)) (used t) t)
            else Ok (((cost - b_tokens s) / rate t)%Q, with_slots (<[index := Some s]> (slots t)) (used t) t)
        | _ => Err Stuck
        end
    | Some (_, false) =>
        match bucket_ensure_room t now with
        | None => Err Stuck
        | Some (false, t) => Ok ((capacity t / rate t)%Q, t)
        | Some (true, t) =>
            match bucket_find t k (hash k) with
            | None => Err Stuck
            | Some (index, _) =>
                Ok (0%Q, with_slots (<[index := Some (mk_bucket k (hash k) (capacity t - cost)%Q now)]> (slots t))
                           (used t + 1) t)
            end
        end
    end.

Definition token_bucket_clear (t : TokenBucket) : TokenBucket :=
  with_slots (map (fun _ => None) (slots t)) 0 t.

Definition token_bucket_new (cap rt : Q) (entries : Z) : res bucket_error TokenBucket :=
  if negb (qlt 0 cap) then Err BadCapacity
  else if negb (qlt 0 rt) then Err BadRate
  else if entries <? 1 then Err BadEntries
  else
    let most := next_power_of_two (size_t (entries * 4) / 3 + 1) in
    let initial := if most <? 64 then most else 64 in
    Ok (mk_table (replicate (Z.to_nat initial) None) 0 most entries cap rt).

(** [tracked] and [slots] of the Python type. *)
Definition token_bucket_get_tracked (t : TokenBucket) : Z := used t.
Definition token_bucket_get_slots (t : TokenBucket) : Z := mask t + 1.

End bucket.
Arguments WreathBucket K : clear implicits.
Arguments TokenBucket K : clear implicits.
