(* ===== verification/TokenBucketRefine.v ===== *)
(** * What the table promises: a level per key

    The specification keeps a level for every key it has seen and forgets
    nothing ([spec_acquire]); two states are the same when all levels are, from
    some time on ([same_levels]).  The table, which drops full buckets, is
    related to it by [acquire_refines]. *)

From stdpp Require Import base sets strings numbers list gmap.
From Stdlib Require Import ZArith QArith Qminmax Lia Lqa.
From S2P Require Import Prelude TokenBucket TokenBucketFacts.
#[local] Open Scope Z_scope.

Section spec.
Context {K : Type} `{Countable K}.
Context (cap rt : Q) (entries : Z).

(** Tokens and the time they were counted at. *)
Abbreviation levels := (gmap K (Q * Q)).

(** A key never seen has a full bucket. *)
Definition level (m : levels) (k : K) (now : Q) : Q :=
  match m !! k with Some (tokens, updated) => credit cap rt tokens updated now | None => cap end.

(** The keys whose bucket is not full. *)
Definition live (m : levels) (now : Q) : gset K := filter (fun k => qlt (level m k now) cap = true) (dom m).

Definition spec_acquire (k : K) (now cost : Q) (m : levels) : Q * levels :=
  if qle cap (level m k now) && (entries <=? Z.of_nat (size (live m now))) then ((cap / rt)%Q, m)
  else if qle cost (level m k now) then (0%Q, <[k := ((level m k now - cost)%Q, now)]> m)
  else (((cost - level m k now) / rt)%Q, m).

(** Equal levels from [from] on. *)
Definition same_levels (from : Q) (m m' : levels) : Prop :=
  forall k now, (from <= now)%Q -> (level m k now == level m' k now)%Q.

#[export] Instance same_levels_equiv from : Equivalence (same_levels from).
Proof.
  split.
  - intros m k now _. reflexivity.
  - intros m m' E k now Ht. symmetry. by apply E.
  - intros m1 m2 m3 E1 E2 k now Ht. etransitivity; [by apply E1|by apply E2].
Qed.

Lemma same_levels_later from now m m' : (from <= now)%Q -> same_levels from m m' -> same_levels now m m'.
Proof. intros Ht E k t Hk. apply E. lra. Qed.

Lemma elem_live m now k : k ∈ live m now <-> (level m k now < cap)%Q.
Proof.
  unfold live. rewrite elem_of_filter, qlt_true, elem_of_dom. split; [by intros [? _]|].
  intros Hl. split; [done|]. unfold level in Hl. destruct (m !! k); [done|]. lra.
Qed.

Lemma live_levels from now m m' : (from <= now)%Q -> same_levels from m m' -> live m now = live m' now.
Proof. intros Ht E. apply set_eq. intros k. rewrite !elem_live. by rewrite (E k now Ht). Qed.

(** What the state must satisfy at [from]. *)
Definition levels_ok (from : Q) (m : levels) : Prop :=
  map_Forall (fun _ v => (0 <= fst v <= cap)%Q /\ (snd v <= from)%Q) m.

Context (Hcap : (0 < cap)%Q) (Hrt : (0 < rt)%Q).

Lemma level_bounds from m k now : levels_ok from m -> (0 <= level m k now <= cap)%Q.
Proof.
  intros Hok. unfold level. destruct (m !! k) as [[tok upd]|] eqn:E; [|lra].
  apply credit_bounds; [done|]. by apply (Hok k (tok, upd) E).
Qed.

Lemma level_insert m k tok upd k' now :
  level (<[k := (tok, upd)]> m) k' now = if decide (k = k') then credit cap rt tok upd now else level m k' now.
Proof.
  unfold level. destruct (decide (k = k')) as [->|Hne]; [by rewrite lookup_insert_eq|by rewrite lookup_insert_ne].
Qed.

(** The answers agree, and so do the levels after. *)
Lemma spec_acquire_same from now k cost m m' : (from <= now)%Q -> same_levels from m m' ->
  (fst (spec_acquire k now cost m) == fst (spec_acquire k now cost m'))%Q /\
  same_levels now (snd (spec_acquire k now cost m)) (snd (spec_acquire k now cost m')).
Proof.
  intros Ht E. pose proof (same_levels_later _ _ _ _ Ht E) as E'. unfold spec_acquire.
  rewrite (live_levels from now m m' Ht E). pose proof (E k now Ht) as Ek.
  assert (qle cap (level m k now) = qle cap (level m' k now)) as -> by by rewrite Ek.
  assert (qle cost (level m k now) = qle cost (level m' k now)) as -> by by rewrite Ek.
  destruct (qle cap _ && _); cbn; [done|]. destruct (qle cost (level m' k now)); cbn.
  - split; [reflexivity|]. intros k' t Hk. rewrite !level_insert. destruct (decide (k = k')); [by rewrite Ek|by apply E'].
  - split; [by rewrite Ek|done].
Qed.

Lemma spec_acquire_ok from now k cost m : (0 < cost)%Q -> (from <= now)%Q -> levels_ok from m ->
  levels_ok now (snd (spec_acquire k now cost m)).
Proof.
  intros Hc Ht Hok. assert (levels_ok now m) as Hok'.
  { intros k' v Hv. destruct (Hok k' v Hv). split; [done|lra]. }
  unfold spec_acquire. destruct (_ && _); [done|]. destruct (qle cost (level m k now)) eqn:Hle; [|done]. cbn.
  apply qle_true in Hle. apply map_Forall_insert_2; [|done]. cbn.
  pose proof (level_bounds from m k now Hok). split; lra.
Qed.

(** At most [entries] keys are live. *)
Lemma spec_acquire_live from now k cost m : (0 < cost)%Q -> (from <= now)%Q -> levels_ok from m ->
  Z.of_nat (size (live m now)) <= entries ->
  Z.of_nat (size (live (snd (spec_acquire k now cost m)) now)) <= entries.
Proof.
  intros Hc Ht Hok Hn. unfold spec_acquire. destruct (_ && _) eqn:Hfull; [done|].
  destruct (qle cost (level m k now)) eqn:Hle; [|done]. cbn.
  apply qle_true in Hle. pose proof (level_bounds from m k now Hok) as Hb.
  assert (live (<[k := ((level m k now - cost)%Q, now)]> m) now ⊆ {[k]} ∪ live m now) as Hsub.
  { intros k' Hk. apply elem_live in Hk. rewrite level_insert in Hk. destruct (decide (k = k')) as [->|Hne]; [set_solver|].
    apply elem_of_union_r, elem_live. done. }
  apply subseteq_size in Hsub. destruct (decide (k ∈ live m now)) as [Hin|Hnin].
  - replace ({[k]} ∪ live m now) with (live m now) in Hsub by set_solver. lia.
  - rewrite elem_live in Hnin. apply andb_false_iff in Hfull as [Hl|Hl].
    + apply qle_false in Hl. lra.
    + apply Z.leb_gt in Hl. pose proof (size_union_alt {[k]} (live m now)) as Eu. rewrite size_singleton in Eu.
      pose proof (subseteq_size (live m now ∖ {[k]}) (live m now) ltac:(set_solver)). lia.
Qed.

(** The live keys only become fewer with time. *)
Lemma live_mono now later m : (now <= later)%Q -> live m later ⊆ live m now.
Proof.
  intros Ht k. rewrite !elem_live. unfold level. destruct (m !! k) as [[tok upd]|]; [|done].
  pose proof (credit_mono cap rt tok upd now later Hrt Ht). lra.
Qed.

End spec.

(** ** The table's levels *)

Section refine.
Context {K : Type} `{Countable K} (hash : K -> Z).
Abbreviation bucket := (WreathBucket K).
Abbreviation slot := (option (WreathBucket K)).
Abbreviation table := (TokenBucket K).

Definition entry (b : bucket) : K * (Q * Q) := (b_key b, (b_tokens b, b_updated b)).

Definition held (l : list bucket) : gmap K (Q * Q) := list_to_map (map entry l).

Lemma held_lookup (l : list bucket) b : NoDup (map b_key l) -> b ∈ l -> held l !! b_key b = Some (b_tokens b, b_updated b).
Proof.
  intros Hn Hb. unfold held. apply elem_of_list_to_map.
  - by rewrite map_map.
  - apply (list_elem_of_fmap_2 entry l b Hb).
Qed.

Lemma held_none (l : list bucket) k : k ∉ map b_key l -> held l !! k = None.
Proof. intros Hn. apply not_elem_of_list_to_map. by rewrite <- list_fmap_compose. Qed.

Lemma held_perm (l l' : list bucket) : NoDup (map b_key l) -> l ≡ₚ l' -> held l = held l'.
Proof. intros Hn Hp. apply list_to_map_proper; [by rewrite map_map|by apply Permutation_map]. Qed.

Lemma held_cons b (l : list bucket) : held (b :: l) = <[b_key b := (b_tokens b, b_updated b)]> (held l).
Proof. reflexivity. Qed.

Lemma held_update b b' (l1 l2 : list bucket) : b_key b' = b_key b -> NoDup (map b_key (l1 ++ b :: l2)) ->
  held (l1 ++ b' :: l2) = <[b_key b := (b_tokens b', b_updated b')]> (held (l1 ++ b :: l2)).
Proof.
  intros Ek Hn. assert (NoDup (map b_key (l1 ++ b' :: l2))) as Hn' by (rewrite !map_app in *; cbn in *; by rewrite Ek).
  rewrite (held_perm _ (b :: l1 ++ l2) Hn) by (by rewrite Permutation_middle).
  rewrite (held_perm _ (b' :: l1 ++ l2) Hn') by (by rewrite Permutation_middle).
  rewrite !held_cons, Ek. by rewrite insert_insert_eq.
Qed.

Section levels.
Context (cap rt : Q) (Hcap : (0 < cap)%Q) (Hrt : (0 < rt)%Q).

Abbreviation lv := (level cap rt).

Lemma refill_level (s : bucket) now : (b_tokens s <= cap)%Q ->
  (b_tokens (bucket_refill cap rt s now) == credit cap rt (b_tokens s) (b_updated s) now)%Q.
Proof.
  intros Ht. unfold bucket_refill, credit. destruct (qle (now - b_updated s) 0) eqn:He; apply qle_true in He || apply qle_false in He.
  - rewrite Q.max_l by lra. assert (0 * rt == 0)%Q as -> by ring. rewrite Q.min_r; lra.
  - rewrite Q.max_r by lra. cbn. qsplit; lra.
Qed.

Lemma refill_key (s : bucket) now : b_key (bucket_refill cap rt s now) = b_key s.
Proof. unfold bucket_refill. by destruct (qle _ _). Qed.

Lemma refill_hash (s : bucket) now : b_hash (bucket_refill cap rt s now) = b_hash s.
Proof. unfold bucket_refill. by destruct (qle _ _). Qed.

Lemma refill_updated (s : bucket) now : (b_updated s <= now)%Q -> (b_updated (bucket_refill cap rt s now) == now)%Q.
Proof. intros Ht. unfold bucket_refill. destruct (qle _ _) eqn:He; cbn; [apply qle_true in He; lra|reflexivity]. Qed.

(** A bucket in use at [T]. *)
Definition bucket_ok (T : Q) (b : bucket) : Prop := (0 <= b_tokens b <= cap)%Q /\ (b_updated b <= T)%Q.

Lemma refill_ok T now (s : bucket) : bucket_ok T s -> (T <= now)%Q -> bucket_ok now (bucket_refill cap rt s now).
Proof.
  intros [Hb Hu] Ht. split.
  - rewrite refill_level by lra. by apply credit_bounds.
  - rewrite refill_updated; lra.
Qed.

Lemma refill_credit T now later (s : bucket) : bucket_ok T s -> (T <= now)%Q -> (now <= later)%Q ->
  let s' := bucket_refill cap rt s now in
  (credit cap rt (b_tokens s') (b_updated s') later == credit cap rt (b_tokens s) (b_updated s) later)%Q.
Proof.
  intros [Hb Hu] Ht Hl s'. unfold s'. rewrite refill_level by lra. rewrite refill_updated by lra.
  apply credit_trans; [done|lra|done].
Qed.

Lemma level_full (l : list bucket) k now : NoDup (map b_key l) ->
  (forall b, b ∈ l -> b_key b = k -> (credit cap rt (b_tokens b) (b_updated b) now == cap)%Q) -> (lv (held l) k now == cap)%Q.
Proof.
  intros Hn Hf. unfold level. destruct (decide (k ∈ map b_key l)) as [Hin|Hnin].
  - apply list_elem_of_fmap in Hin as (b & -> & Hb). rewrite (held_lookup l b Hn Hb). by apply Hf.
  - by rewrite held_none.
Qed.

Lemma level_held (l : list bucket) b now : NoDup (map b_key l) -> b ∈ l ->
  lv (held l) (b_key b) now = credit cap rt (b_tokens b) (b_updated b) now.
Proof. intros Hn Hb. unfold level. by rewrite (held_lookup l b Hn Hb). Qed.

(** Refilling at [now] and dropping full buckets leaves the levels from [now] on. *)
Lemma compact_levels T now (l l' : list bucket) : (T <= now)%Q -> Forall (bucket_ok T) l -> NoDup (map b_key l) ->
  l' ≡ₚ filter (fun b => qle cap (b_tokens b) = false) (map (fun b => bucket_refill cap rt b now) l) \/
  l' = map (fun b => bucket_refill cap rt b now) l ->
  same_levels cap rt now (held l) (held l').
Proof.
  intros Ht Hok Hn Hl'. set (r := map (fun b => bucket_refill cap rt b now) l) in *.
  assert (map b_key r = map b_key l) as Er.
  { unfold r. rewrite map_map. apply map_ext. intros b. apply refill_key. }
  assert (NoDup (map b_key l')) as Hn'.
  { destruct Hl' as [->| ->]; [|by rewrite Er]. 
    apply NoDup_map_filter. by rewrite Er. }
  intros k later Hl. destruct (decide (k ∈ map b_key l)) as [Hin|Hnin].
  - apply list_elem_of_fmap in Hin as (b & -> & Hb). rewrite (level_held l b later Hn Hb).
    pose proof (proj1 (Forall_forall _ _) Hok b Hb) as Hbo.
    assert (bucket_refill cap rt b now ∈ r) as Hr by (apply (list_elem_of_fmap_2 (fun b => bucket_refill cap rt b now) l b Hb)).
    rewrite <- (refill_credit T now later b Hbo Ht Hl). rewrite <- (refill_key b now).
    destruct (qle cap (b_tokens (bucket_refill cap rt b now))) eqn:Hfull.
    + apply qle_true in Hfull. pose proof (refill_ok T now b Hbo Ht) as [Hb' _].
      assert (credit cap rt (b_tokens (bucket_refill cap rt b now)) (b_updated (bucket_refill cap rt b now)) later == cap)%Q as Ec.
      { unfold credit. assert (0 <= Qmax 0 (later - b_updated (bucket_refill cap rt b now)) * rt)%Q as Hp.
        { apply Qmult_le_0_compat; [|lra]. apply Q.le_max_l. }
        rewrite Q.min_l; lra. }
      rewrite Ec. symmetry. apply level_full; [done|]. intros b2 Hb2 Ek.
      assert (b2 ∈ r) as Hb2r by (destruct Hl' as [Hp| ->]; [rewrite Hp in Hb2; by apply list_elem_of_filter in Hb2 as [_ ?]|done]).
      assert (b2 = bucket_refill cap rt b now) as ->; [|exact Ec].
      rewrite <- Er in Hn. apply list_elem_of_lookup in Hb2r as (i & Hi). apply list_elem_of_lookup in Hr as (j & Hj).
      assert (i = j) as ->; [|congruence].
      apply (NoDup_lookup (map b_key r) i j (b_key b2)); [done|by rewrite list_lookup_fmap, Hi|rewrite list_lookup_fmap, Hj; cbn; by rewrite Ek].
    + assert (bucket_refill cap rt b now ∈ l') as Hin'.
      { destruct Hl' as [Hp| ->]; [|done]. rewrite Hp. by apply list_elem_of_filter. }
      by rewrite (level_held l' _ later Hn' Hin').
  - assert (k ∉ map b_key l') as Hnin'.
    { intros Hin. apply Hnin. rewrite <- Er. destruct Hl' as [Hp| ->]; [|done]. rewrite Hp in Hin.
      apply list_elem_of_fmap in Hin as (b & -> & Hb). apply list_elem_of_filter in Hb as [_ Hb]. by apply list_elem_of_fmap_2. }
    unfold level. by rewrite !held_none.
Qed.

End levels.
End refine.

(** ** Each operation of the table, as an operation on levels

    [table_ok] is the invariant; [ensure_room_spec] says when there is room;
    [acquire_refines] is the simulation. *)

Lemma fits_true n m : WREATH_FITS n m = true <-> (n + 1) * 4 <= m * 3.
Proof. unfold WREATH_FITS. apply Z.leb_le. Qed.

Lemma fits_false n m : WREATH_FITS n m = false <-> m * 3 < (n + 1) * 4.
Proof. unfold WREATH_FITS. apply Z.leb_gt. Qed.

Lemma grow_spec s most : sized most -> most <= 2 ^ 63 -> forall fuel n, sized n -> n <= most ->
  most <= n * 2 ^ Z.of_nat fuel ->
  let T := grow_loop fuel s most n in sized T /\ n <= T <= most /\ (WREATH_FITS s T = true \/ T = most).
Proof.
  intros Hm Hb. induction fuel as [|fuel IH]; intros n Hn Hle Hf; cbn [grow_loop].
  - replace n with most by lia. split_and!; try done; try lia.
  - destruct (WREATH_FITS s n) eqn:E; cbn [negb andb]; [split_and!; try done; try lia; by left|].
    destruct (n <? most) eqn:El; [|split_and!; try done; try lia; right; lia].
    apply Z.ltb_lt in El. assert (sized (2 * n)) as H2.
    { destruct Hn as (p & Hp & ->). exists (p + 1). split; [lia|]. rewrite Z.pow_add_r by lia. lia. }
    assert (2 * n <= most) as Hle2.
    { destruct Hn as (p & Hp & ->), Hm as (q & Hq & ->). apply Z.pow_lt_mono_r_iff in El; [|lia|lia].
      replace (2 * 2 ^ p) with (2 ^ (p + 1)) by (rewrite Z.pow_add_r by lia; lia). apply Z.pow_le_mono_r; lia. }
    destruct (IH (2 * n) H2 Hle2) as (? & ? & ?).
    { rewrite Nat2Z.inj_succ, Z.pow_succ_r in Hf by lia.
      replace (2 * n * 2 ^ Z.of_nat fuel) with (n * (2 * 2 ^ Z.of_nat fuel)) by ring. done. }
    pose proof (sized_pos n Hn). split_and!; [done|lia|lia|done].
Qed.

Section refine.
Context {K : Type} `{Countable K} (hash : K -> Z).
Abbreviation bucket := (WreathBucket K).
Abbreviation slot := (option (WreathBucket K)).
Abbreviation table := (TokenBucket K).

Definition table_levels (t : table) : gmap K (Q * Q) := held (buckets (slots t)).

Record table_ok (T : Q) (t : table) : Prop := {
  o_shape : shape hash (slots t);
  o_used : used t = zlen (buckets (slots t));
  o_load : used t * 4 <= zlen (slots t) * 3;
  o_entries : used t <= max_entries t;
  o_slots : zlen (slots t) <= max_slots t;
  o_sized : sized (max_slots t) /\ max_slots t <= 2 ^ 63;
  o_max : 1 <= max_entries t /\ max_entries t * 4 <= max_slots t * 3;
  o_cap : (0 < capacity t)%Q;
  o_rate : (0 < rate t)%Q;
  o_buckets : Forall (bucket_ok (capacity t) T) (buckets (slots t)) }.

Definition same_limits (t t' : table) : Prop :=
  capacity t' = capacity t /\ rate t' = rate t /\ max_entries t' = max_entries t /\ max_slots t' = max_slots t.

Lemma bucket_ok_later (cap T now : Q) (b : bucket) : (T <= now)%Q -> bucket_ok cap T b -> bucket_ok cap now b.
Proof. intros Ht [? ?]. split; [done|lra]. Qed.

Lemma table_ok_later T now t : (T <= now)%Q -> table_ok T t -> table_ok now t.
Proof.
  intros Ht []. split; try done. eapply Forall_impl; [done|]. intros b. by apply bucket_ok_later.
Qed.

Lemma table_room T t : table_ok T t -> (length (buckets (slots t)) < length (slots t))%nat.
Proof.
  intros Ho. pose proof (o_used _ _ Ho) as Hu. pose proof (o_load _ _ Ho) as Hl.
  pose proof (sized_pos _ (sh_sized _ _ (o_shape _ _ Ho))). unfold zlen in *. lia.
Qed.

Lemma levels_ok_table T t : table_ok T t -> levels_ok (capacity t) T (table_levels t).
Proof.
  intros Ho k v Hv. unfold table_levels, held in Hv. apply elem_of_list_to_map_2 in Hv.
  apply list_elem_of_fmap in Hv as (b & [= -> ->] & Hb).
  apply (proj1 (Forall_forall _ _) (o_buckets _ _ Ho) b Hb).
Qed.

(** *** Live keys of a table *)

Lemma live_among_keys cap rt now (l : list bucket) : live cap rt (held l) now ⊆ list_to_set (map b_key l).
Proof.
  intros k Hk. apply elem_live in Hk. apply elem_of_list_to_set. destruct (decide (k ∈ map b_key l)) as [|Hn]; [done|].
  unfold level in Hk. rewrite held_none in Hk by done. lra.
Qed.

Lemma live_size cap rt now (l : list bucket) : NoDup (map b_key l) -> (size (live cap rt (held l) now) <= length l)%nat.
Proof.
  intros Hn. pose proof (subseteq_size _ _ (live_among_keys cap rt now l)) as Hs.
  rewrite size_list_to_set in Hs by done. by rewrite length_map in Hs.
Qed.

Lemma live_size_without cap rt now (l : list bucket) k : NoDup (map b_key l) -> k ∈ map b_key l ->
  (cap <= level cap rt (held l) k now)%Q -> (size (live cap rt (held l) now) < length l)%nat.
Proof.
  intros Hn Hin Hl. assert (live cap rt (held l) now ⊂ list_to_set (map b_key l)) as Hs.
  { split; [apply live_among_keys|]. intros Hsub. specialize (Hsub k). rewrite elem_of_list_to_set, elem_live in Hsub.
    specialize (Hsub Hin). lra. }
  apply subset_size in Hs. rewrite size_list_to_set in Hs by done. by rewrite length_map in Hs.
Qed.

Lemma live_every_short cap rt now (l : list bucket) : NoDup (map b_key l) ->
  Forall (fun b => (b_tokens b < cap)%Q /\ (b_updated b == now)%Q) l -> size (live cap rt (held l) now) = length l.
Proof.
  intros Hn Hf. rewrite <- (length_map b_key l), <- (size_list_to_set (C := gset K) (map b_key l)) by done. f_equal.
  apply set_eq. intros k. split; [apply live_among_keys|]. intros Hk. apply elem_of_list_to_set in Hk.
  apply list_elem_of_fmap in Hk as (b & -> & Hb). apply elem_live. rewrite (level_held cap rt l b now Hn Hb).
  destruct (proj1 (Forall_forall _ _) Hf b Hb) as [Ht Hu]. rewrite Hu, credit_now; lra.
Qed.

(** *** Refilling every bucket *)

Abbreviation short cap := (fun b : bucket => qle cap (b_tokens b) = false).

Lemma buckets_map (f : bucket -> bucket) (sl : list slot) : buckets (map (fmap f) sl) = map f (buckets sl).
Proof. unfold buckets. induction sl as [|[b|] sl IH]; cbn; [done| |done]. f_equal. exact IH. Qed.

Lemma survivors_count cap (sl : list slot) :
  zlen (List.filter (survivor cap) sl) = zlen (filter (short cap) (buckets sl)).
Proof.
  unfold zlen. f_equal. induction sl as [|[b|] sl IH]; [done| |done].
  change (buckets (Some b :: sl)) with (b :: buckets sl). cbn [List.filter survivor]. rewrite filter_cons.
  unfold qlt. destruct (qle cap (b_tokens b)); cbn [negb]; rewrite ?decide_False, ?decide_True by done; [done|].
  cbn [length]. by rewrite IH.
Qed.

Lemma refilled_none cap (sl : list slot) :
  zlen (List.filter (refilled cap) sl) = 0 -> filter (short cap) (buckets sl) = buckets sl.
Proof.
  unfold zlen. induction sl as [|[b|] sl IH]; [done| |done].
  change (buckets (Some b :: sl)) with (b :: buckets sl). cbn [List.filter refilled]. rewrite filter_cons. unfold qlt.
  destruct (qle cap (b_tokens b)); cbn [negb]; rewrite ?decide_False, ?decide_True by done; intros Hz; [cbn in Hz; lia|].
  by rewrite IH.
Qed.

Lemma shape_refill cap rt now (sl : list slot) : shape hash sl ->
  shape hash (map (fmap (fun s => bucket_refill cap rt s now)) sl).
Proof.
  intros [Hsz Hix Hk]. assert (zlen (map (fmap (fun s => bucket_refill cap rt s now)) sl) = zlen sl) as El
    by (unfold zlen; by rewrite length_map).
  split.
  - by rewrite El.
  - intros i b Hi. rewrite El. rewrite list_lookup_fmap in Hi.
    destruct (sl !! i) as [[b0|]|] eqn:H0; try discriminate Hi. injection Hi as <-.
    rewrite refill_key, refill_hash. destruct (Hix i b0 H0) as (? & j & Hp & Hf). split; [done|]. exists j. split; [done|].
    intros j' Hj. destruct (Hf j' Hj) as (b' & Hb'). exists (bucket_refill cap rt b' now). by rewrite list_lookup_fmap, Hb'.
  - rewrite buckets_map, map_map. erewrite map_ext; [done|]. intros b. apply refill_key.
Qed.

Lemma refill_all_ok T now t : table_ok T t -> (T <= now)%Q -> table_ok now (refill_all t now) /\
  buckets (slots (refill_all t now)) = map (fun b => bucket_refill (capacity t) (rate t) b now) (buckets (slots t)).
Proof.
  intros Ho Ht. assert (zlen (slots (refill_all t now)) = zlen (slots t)) as El by (unfold zlen; cbn; by rewrite length_map).
  assert (slots (refill_all t now) = map (fmap (fun s => bucket_refill (capacity t) (rate t) s now)) (slots t)) as Es by done.
  split; [|apply buckets_map]. destruct Ho. split; cbn [refill_all with_slots used max_slots max_entries capacity rate] in *;
    try (rewrite El; done); try done.
  - by apply shape_refill.
  - rewrite Es, buckets_map. unfold zlen. by rewrite length_map.
  - rewrite Es, buckets_map. apply Forall_map. eapply Forall_impl; [done|]. intros b Hb. by eapply refill_ok.
Qed.

(** *** Rebuilding *)

Lemma rebuild_loop_spec cap rt now new_mask : forall (old : list slot) i fresh n,
  0 <= i -> shape hash fresh -> new_mask = zlen fresh - 1 -> n = zlen (buckets fresh) ->
  (forall b, b ∈ buckets old -> b_hash b = hash (b_key b)) ->
  NoDup (map b_key (buckets fresh ++ buckets old)) ->
  (length (buckets fresh) +
     length (filter (short cap) (map (fun b => bucket_refill cap rt b now) (buckets old))) < length fresh)%nat ->
  exists fresh' n', rebuild_loop cap rt now (-1) new_mask old i fresh n = Some (fresh', n') /\
    shape hash fresh' /\ length fresh' = length fresh /\ n' = zlen (buckets fresh') /\
    buckets fresh' ≡ₚ buckets fresh ++ filter (short cap) (map (fun b => bucket_refill cap rt b now) (buckets old)).
Proof.
  induction old as [|[b|] old IH]; intros i fresh n Hi Hs Hm Hn Hh Hk Hl; cbn [rebuild_loop].
  - exists fresh, n. cbn. by rewrite app_nil_r.
  - change (buckets (Some b :: old)) with (b :: buckets old) in *. cbn [map]. cbn [map] in Hl. rewrite filter_cons in Hl.
    rewrite filter_cons. replace (i =? -1) with false by lia. cbn [orb].
    rewrite map_app in Hk. cbn [map] in Hk.
    destruct (qle cap (b_tokens (bucket_refill cap rt b now))) eqn:Hfull.
    + rewrite decide_False in Hl |- * by done. destruct (IH (i + 1) fresh n) as (fresh' & n' & E & ?); try done; [lia| | |].
      * intros b' Hb'. apply Hh. by apply list_elem_of_further.
      * rewrite map_app. eapply NoDup_app in Hk as (H1 & H2 & H3). apply NoDup_cons in H3 as [H3 H4].
        apply NoDup_app. split_and!; [done| |done]. intros k Hin Hin'. apply (H2 k Hin). by apply list_elem_of_further.
      * by exists fresh', n'.
    + rewrite decide_True in Hl |- * by done. cbn [length] in Hl.
      assert (b_key b ∉ map b_key (buckets fresh)) as Hnew.
      { apply NoDup_app in Hk as (_ & H2 & _). intros Hin. apply (H2 _ Hin). by apply list_elem_of_here. }
      destruct (place_spec hash fresh (bucket_refill cap rt b now)) as (p & Ep & Hfree & Hs'); [done|lia| | |].
      { by rewrite refill_key. }
      { rewrite refill_key, refill_hash. apply Hh, list_elem_of_here. }
      rewrite Hm, Ep. pose proof (buckets_fill fresh p (bucket_refill cap rt b now) Hfree) as Hb.
      pose proof (Permutation_length Hb) as Hbl. cbn [length] in Hbl.
      destruct (IH (i + 1) (<[p := Some (bucket_refill cap rt b now)]> fresh) (n + 1)) as (fresh' & n' & E & Hsh & El & En & Hp);
        try done; [lia| | | | | |].
      * unfold zlen. by rewrite length_insert.
      * unfold zlen in *. lia.
      * intros b' Hb'. apply Hh. by apply list_elem_of_further.
      * assert (map b_key (buckets (<[p:=Some (bucket_refill cap rt b now)]> fresh) ++ buckets old) ≡ₚ
          map b_key (buckets fresh) ++ b_key b :: map b_key (buckets old)) as Hpk.
        { rewrite Hb. cbn. rewrite refill_key, map_app. by rewrite Permutation_middle. }
        by rewrite Hpk.
      * rewrite length_insert. lia.
      * exists fresh', n'. rewrite length_insert in El. rewrite Hm in E. split_and!; [done|done|done|done|].
        rewrite Hp, Hb. cbn. by rewrite Permutation_middle.
  - change (buckets (None :: old)) with (buckets old) in *. apply IH; try done. lia.
Qed.

Lemma rebuild_spec T now t target : table_ok T t -> (T <= now)%Q -> sized target -> zlen (slots t) <= target <= max_slots t ->
  exists t', bucket_rebuild t target now (-1) = Some t' /\ table_ok now t' /\ same_limits t t' /\ zlen (slots t') = target /\
    buckets (slots t') ≡ₚ filter (short (capacity t)) (map (fun b => bucket_refill (capacity t) (rate t) b now) (buckets (slots t))).
Proof.
  intros Ho Ht Hsz Hle. pose proof (sized_pos _ Hsz) as Hp8. pose proof (table_room T t Ho) as Hroom.
  pose proof (o_used _ _ Ho) as Hu. pose proof (o_load _ _ Ho) as Hl.
  set (kept := filter (short (capacity t)) (map (fun b => bucket_refill (capacity t) (rate t) b now) (buckets (slots t)))).
  assert (length kept <= length (buckets (slots t)))%nat as Hkl.
  { unfold kept. etransitivity; [apply length_filter|]. by rewrite length_map. }
  destruct (rebuild_loop_spec (capacity t) (rate t) now (target - 1) (slots t) 0 (replicate (Z.to_nat target) None) 0)
    as (fresh & n & E & Hs & El & En & Hp).
  - done.
  - apply shape_empty. by rewrite Z2Nat.id by lia.
  - unfold zlen. rewrite length_replicate. lia.
  - by rewrite buckets_empty.
  - intros b Hb. apply elem_buckets in Hb as (i & Hi). by apply (sh_indexed _ _ (o_shape _ _ Ho) i b).
  - rewrite buckets_empty. apply (sh_keys _ _ (o_shape _ _ Ho)).
  - rewrite buckets_empty, length_replicate. fold kept. cbn [length]. unfold zlen in *. lia.
  - rewrite buckets_empty in Hp. cbn [app] in Hp. fold kept in Hp. rewrite length_replicate in El.
    unfold bucket_rebuild. rewrite E. exists (with_slots fresh n t).
    assert (zlen fresh = target) as Ez by (unfold zlen; lia).
    assert (zlen (buckets fresh) = zlen kept) as Ek by (unfold zlen; by rewrite Hp).
    destruct Ho. split_and!; [done| |done|done|done]. split; cbn; try done.
    + rewrite Ez. unfold zlen in *. lia.
    + unfold zlen in *. lia.
    + lia.
    + rewrite Hp. unfold kept. apply Forall_forall. intros b Hb. apply list_elem_of_filter in Hb as [_ Hb].
      apply list_elem_of_fmap in Hb as (b0 & -> & Hb0). eapply refill_ok; [done| |done].
      by apply (proj1 (Forall_forall _ _) o_buckets0).
Qed.

(** *** Room *)

Lemma has_room_true (t : table) : WREATH_HAS_ROOM t = true <-> (used t + 1) * 4 <= zlen (slots t) * 3 /\ used t < max_entries t.
Proof. unfold WREATH_HAS_ROOM, mask. rewrite andb_true_iff, fits_true, Z.ltb_lt. lia. Qed.

Lemma has_room_false (t : table) : WREATH_HAS_ROOM t = false ->
  zlen (slots t) * 3 < (used t + 1) * 4 \/ max_entries t <= used t.
Proof. unfold WREATH_HAS_ROOM, mask. rewrite andb_false_iff, fits_false, Z.ltb_ge. lia. Qed.

Lemma ensure_room_spec T now t : table_ok T t -> (T <= now)%Q ->
  exists r t', bucket_ensure_room t now = Some (r, t') /\ table_ok now t' /\ same_limits t t' /\
    same_levels (capacity t) (rate t) now (table_levels t) (table_levels t') /\
    (forall k, k ∈ map b_key (buckets (slots t')) -> k ∈ map b_key (buckets (slots t))) /\
    (if r then WREATH_HAS_ROOM t' = true
     else max_entries t <= Z.of_nat (size (live (capacity t) (rate t) (table_levels t) now))).
Proof.
  intros Ho Ht. unfold bucket_ensure_room. destruct (WREATH_HAS_ROOM t) eqn:Hroom.
  { exists true, t. split_and!; try done. by eapply table_ok_later. }
  destruct (refill_all_ok T now t Ho Ht) as [Ho1 Eb1]. set (t1 := refill_all t now) in *.
  set (r := map (fun b => bucket_refill (capacity t) (rate t) b now) (buckets (slots t))) in *.
  assert (capacity t1 = capacity t /\ rate t1 = rate t /\ max_entries t1 = max_entries t /\ max_slots t1 = max_slots t /\
    used t1 = used t) as (Ec & Er & Em & Ems & Eu) by done.
  assert (zlen (slots t1) = zlen (slots t)) as Ez by (unfold zlen, t1; cbn; by rewrite length_map).
  assert (map b_key r = map b_key (buckets (slots t))) as Ekeys.
  { unfold r. rewrite map_map. apply map_ext. intros b. apply refill_key. }
  assert (NoDup (map b_key (buckets (slots t)))) as Hn by apply (sh_keys _ _ (o_shape _ _ Ho)).
  assert (Forall (fun b => (b_updated b == now)%Q) r) as Hup.
  { apply Forall_map. eapply Forall_impl; [apply (o_buckets _ _ Ho)|]. intros b [_ Hb]. apply refill_updated. lra. }
  assert (forall l, NoDup (map b_key l) -> same_levels (capacity t) (rate t) now (table_levels t) (held l) ->
    l ≡ₚ filter (short (capacity t)) r ->
    Z.of_nat (size (live (capacity t) (rate t) (table_levels t) now)) = zlen (filter (short (capacity t)) r)) as Hlive.
  { intros l Hnl Hsame Hl. rewrite (live_levels _ _ now now _ _ (Qle_refl now) Hsame). rewrite live_every_short; [unfold zlen; by rewrite Hl|done|].
    rewrite Hl. apply Forall_forall. intros b Hb. apply list_elem_of_filter in Hb as [Hs Hb].
    split; [by apply qle_false|]. by apply (proj1 (Forall_forall _ _) Hup). }
  destruct Ho as [Hsh Hused Hload Hent Hsl [Hsz H63] [Hm1 Hm] Hcap Hrt Hbk].
  destruct Hsh as [Hsize Hix Hnd].
  rewrite survivors_count, Eb1. rewrite Ec, Ems.
  set (s := zlen (filter (short (capacity t)) r)) in *.
  replace (mask t1 + 1) with (zlen (slots t)) by (unfold mask; lia).
  destruct (grow_spec s (max_slots t) Hsz H63 64 (zlen (slots t)) Hsize Hsl) as (HT & HTb & Hfit).
  { pose proof (sized_pos _ Hsize). change (2 ^ Z.of_nat 64) with (2 * 2 ^ 63). lia. }
  set (target := grow_loop 64 s (max_slots t) (zlen (slots t))) in *.
  assert (zlen r = used t) as Elr by (rewrite Hused; unfold zlen, r; by rewrite length_map).
  destruct ((target =? zlen (slots t)) && (zlen (List.filter (refilled (capacity t)) (slots t1)) =? 0)) eqn:Hc.
  - apply andb_true_iff in Hc as [Et Erc]. apply Z.eqb_eq in Et, Erc. apply refilled_none in Erc. rewrite Eb1 in Erc. fold r in Erc.
    assert (same_levels (capacity t) (rate t) now (table_levels t) (table_levels t1)) as Hsame.
    { unfold table_levels. rewrite Eb1. eapply compact_levels; try done; by right. }
    exists false, t1. split_and!; try done.
    + intros k Hk. rewrite Eb1 in Hk. fold r in Hk. by rewrite Ekeys in Hk.
    + rewrite (Hlive r); [|by rewrite Ekeys|unfold table_levels in Hsame at 2; by rewrite Eb1 in Hsame|by rewrite Erc].
      fold s. assert (s = used t) as Es by (unfold s; by rewrite Erc). rewrite Es in *.
      apply has_room_false in Hroom. destruct Hfit as [Hfit|Hfit]; [apply fits_true in Hfit; lia|lia].
  - destruct (rebuild_spec now now t1 target) as (t2 & E2 & Ho2 & Hlim & Ez2 & Hp2); [done|lra|done|lia|].
    rewrite E2. rewrite Ec, Er, Eb1 in Hp2.
    assert (buckets (slots t2) ≡ₚ filter (short (capacity t)) r) as Hp3.
    { rewrite Hp2. fold r. assert (map (fun b => bucket_refill (capacity t) (rate t) b now) r = r) as ->; [|done].
      rewrite <- (map_id r) at 2. apply map_ext_in. intros b Hb. apply list_elem_of_In in Hb.
      pose proof (proj1 (Forall_forall _ _) Hup b Hb) as Hbu. unfold bucket_refill.
      assert (qle (now - b_updated b) 0 = true) as ->; [|done]. apply qle_true. cbn in Hbu. lra. }
    assert (same_levels (capacity t) (rate t) now (table_levels t) (table_levels t2)) as Hsame
      by (eapply compact_levels; try done; by left).
    exists (WREATH_HAS_ROOM t2), t2. destruct Hlim as (L1 & L2 & L3 & L4). split_and!; try done.
    + intros k Hk. rewrite Hp3 in Hk. rewrite <- Ekeys. apply list_elem_of_fmap in Hk as (b & -> & Hb).
      apply list_elem_of_filter in Hb as [_ Hb]. by apply list_elem_of_fmap_2.
    + destruct (WREATH_HAS_ROOM t2) eqn:Hr2; [done|].
      rewrite (Hlive (buckets (slots t2))); [|apply (sh_keys _ _ (o_shape _ _ Ho2))|done|done]. fold s.
      assert (used t2 = s) as Eus by (rewrite (o_used _ _ Ho2); unfold s, zlen; by rewrite Hp3).
      apply has_room_false in Hr2. rewrite L3, Ez2, Eus, Em in Hr2.
      destruct Hfit as [Hfit|Hfit]; [apply fits_true in Hfit; lia|lia].
Qed.
End refine.
