(* ===== verification/TokenBucketClaims.v ===== *)
(** * What the token-bucket table guarantees

    Runs of calls, in order of their clock: the table answers as the levels do
    ([bucket_runs_as_levels]), admits no more than burst and rate allow
    ([admitted_within_rate]), and a refused caller who waits is admitted
    ([wait_then_admitted]). *)

From stdpp Require Import base sets strings numbers list gmap.
From Stdlib Require Import ZArith QArith Qminmax Qfield Lia Lqa.
From S2P Require Import Prelude TokenBucket TokenBucketFacts TokenBucketRefine.
#[local] Open Scope Z_scope.

Lemma quotient_pos x rt : (0 < rt)%Q -> (0 < x)%Q -> (0 < x / rt)%Q.
Proof. intros Hr Hx. apply Qlt_shift_div_l; lra. Qed.

(** ** One call *)

Section acquire.
Context {K : Type} `{Countable K} (hash : K -> Z).
Abbreviation table := (TokenBucket K).

Definition spec_of (t : table) (k : K) (now cost : Q) : Q * gmap K (Q * Q) :=
  spec_acquire (capacity t) (rate t) (max_entries t) k now cost (table_levels t).

(** What a call has to establish. *)
Definition acquired (T now cost : Q) (k : K) (t : table) (r : Q) (t' : table) : Prop :=
  table_ok hash now t' /\ same_limits t t' /\ (r == fst (spec_of t k now cost))%Q /\
  same_levels (capacity t) (rate t) now (table_levels t') (snd (spec_of t k now cost)).

Lemma limits_refl (t : table) sl n : same_limits t (with_slots sl n t).
Proof. done. Qed.

(** A held key is never refused for want of room. *)
Lemma held_has_room T now t k : table_ok hash T t -> k ∈ map b_key (buckets (slots t)) ->
  qle (capacity t) (level (capacity t) (rate t) (table_levels t) k now) &&
  (max_entries t <=? Z.of_nat (size (live (capacity t) (rate t) (table_levels t) now))) = false.
Proof.
  intros Ho Hk. destruct (qle _ _) eqn:Hl; [|done]. apply qle_true in Hl. cbn [andb]. apply Z.leb_gt.
  pose proof (live_size_without _ _ now _ k (sh_keys _ _ (o_shape _ _ _ Ho)) Hk Hl).
  pose proof (o_used _ _ _ Ho). pose proof (o_entries _ _ _ Ho). unfold table_levels, zlen in *. lia.
Qed.

(** Writing a bucket whose credit is known. *)
Lemma write_bucket T now t i b b' : table_ok hash T t -> (T <= now)%Q -> slots t !! i = Some (Some b) ->
  b_key b' = b_key b -> b_hash b' = b_hash b -> bucket_ok (capacity t) now b' ->
  let t' := with_slots (<[i := Some b']> (slots t)) (used t) t in
  table_ok hash now t' /\ table_levels t' = <[b_key b := (b_tokens b', b_updated b')]> (table_levels t).
Proof.
  intros Ho Ht Hi Ek Eh Hb' t'. destruct (shape_update hash (slots t) i b b' (o_shape _ _ _ Ho) Hi Ek Eh) as (Hs & l1 & l2 & E1 & E2).
  split.
  - apply (table_ok_later hash T now t Ht) in Ho. subst t'. destruct Ho.
    split; cbn [with_slots slots used max_slots max_entries capacity rate]; try done.
    + rewrite o_used. unfold zlen. rewrite E1, E2, !length_app. done.
    + unfold zlen in *. by rewrite length_insert.
    + unfold zlen in *. by rewrite length_insert.
    + rewrite E2. rewrite E1 in o_buckets. apply Forall_app in o_buckets as [F1 F2].
      apply Forall_cons in F2 as [_ F2]. apply Forall_app. split; [done|]. by apply Forall_cons.
  - unfold table_levels. cbn [t' with_slots slots]. rewrite E2. rewrite E1. apply held_update; [done|]. rewrite <- E1. apply (o_shape _ _ _ Ho).
Qed.

Lemma acquire_found T now cost k t i b : table_ok hash T t -> (T <= now)%Q -> (0 < cost <= capacity t)%Q ->
  slots t !! i = Some (Some b) -> b_key b = k ->
  let s := bucket_refill (capacity t) (rate t) b now in
  let s' := if qle cost (b_tokens s) then mk_bucket (b_key s) (b_hash s) (b_tokens s - cost)%Q (b_updated s) else s in
  acquired T now cost k t (if qle cost (b_tokens s) then 0 else (cost - b_tokens s) / rate t)%Q
    (with_slots (<[i := Some s']> (slots t)) (used t) t).
Proof.
  intros Ho Ht Hc Hi <- s s'. assert (b ∈ buckets (slots t)) as Hb by (apply elem_buckets; by exists i).
  pose proof (proj1 (Forall_forall _ _) (o_buckets _ _ _ Ho) b Hb) as Hbo.
  pose proof (refill_ok _ _ (o_rate _ _ _ Ho) T now b Hbo Ht) as Hso. fold s in Hso.
  assert (b_tokens s == level (capacity t) (rate t) (table_levels t) (b_key b) now)%Q as El.
  { unfold table_levels. rewrite (level_held _ _ _ b now (sh_keys _ _ (o_shape _ _ _ Ho)) Hb).
    apply refill_level. apply Hbo. }
  assert (b_updated s == now)%Q as Eu by (apply refill_updated; destruct Hbo; lra).
  destruct (write_bucket T now t i b s' Ho Ht Hi) as [Ho' Elv].
  { unfold s', s. destruct (qle _ _); cbn; apply refill_key. }
  { unfold s', s. destruct (qle _ _); cbn; apply refill_hash. }
  { unfold s'. destruct (qle cost (b_tokens s)) eqn:E; [|done]. apply qle_true in E. destruct Hso as [? ?]. split; cbn; lra. }
  split_and!; [done|done| |]; unfold spec_of, spec_acquire;
    rewrite (held_has_room T now t (b_key b) Ho) by (by apply list_elem_of_fmap_2);
    (assert (qle cost (level (capacity t) (rate t) (table_levels t) (b_key b) now) = qle cost (b_tokens s)) as -> by by rewrite El);
    destruct (qle cost (b_tokens s)) eqn:E; cbn [fst snd]; try reflexivity.
  - by rewrite El.
  - unfold s' in *. rewrite Elv. cbn [b_tokens b_updated]. intros k' later Hl. rewrite !level_insert.
    destruct (decide _); [|done]. by rewrite El, Eu.
  - unfold s' in *. rewrite Elv. intros k' later Hl. rewrite level_insert.
    destruct (decide (b_key b = k')) as [<-|]; [|done]. unfold table_levels.
    rewrite (level_held _ _ _ b later (sh_keys _ _ (o_shape _ _ _ Ho)) Hb).
    apply (refill_credit _ _ (o_rate _ _ _ Ho) T now later b Hbo Ht Hl).
Qed.

Lemma acquire_new T now cost k t t2 i : table_ok hash T t -> (T <= now)%Q -> (0 < cost <= capacity t)%Q ->
  table_ok hash now t2 -> same_limits t t2 -> WREATH_HAS_ROOM t2 = true ->
  same_levels (capacity t) (rate t) now (table_levels t) (table_levels t2) ->
  k ∉ map b_key (buckets (slots t)) -> k ∉ map b_key (buckets (slots t2)) -> slots t2 !! i = Some None ->
  shape hash (<[i := Some (mk_bucket k (hash k) (capacity t2 - cost)%Q now)]> (slots t2)) ->
  acquired T now cost k t 0%Q
    (with_slots (<[i := Some (mk_bucket k (hash k) (capacity t2 - cost)%Q now)]> (slots t2)) (used t2 + 1) t2).
Proof.
  intros Ho Ht Hc Ho2 (L1 & L2 & L3 & L4) Hroom Hsame Hn Hn2 Hi Hs. set (b := mk_bucket k (hash k) (capacity t2 - cost)%Q now) in *.
  pose proof (buckets_fill (slots t2) i b Hi) as Hp. apply has_room_true in Hroom as [Hr1 Hr2].
  assert (level (capacity t) (rate t) (table_levels t) k now = capacity t) as El
    by (unfold level, table_levels; by rewrite held_none).
  assert (table_levels (with_slots (<[i := Some b]> (slots t2)) (used t2 + 1) t2) =
    <[k := ((capacity t2 - cost)%Q, now)]> (table_levels t2)) as Elv.
  { unfold table_levels. cbn [with_slots slots]. rewrite (held_perm _ _ (sh_keys _ _ Hs) Hp). apply held_cons. }
  split_and!; [| |unfold spec_of, spec_acquire|unfold spec_of, spec_acquire].
  - destruct Ho2. split; cbn [with_slots slots used max_slots max_entries capacity rate]; try done.
    + rewrite o_used. unfold zlen. rewrite Hp. cbn. lia.
    + unfold zlen in *. rewrite length_insert. lia.
    + lia.
    + unfold zlen in *. by rewrite length_insert.
    + rewrite Hp. constructor; [|done]. split; cbn; [rewrite L1; lra|lra].
  - unfold same_limits. cbn. by rewrite L1, L2, L3, L4.
  - rewrite El. assert (qle cost (capacity t) = true) as -> by (apply qle_true; lra).
    rewrite (proj2 (Z.leb_gt _ _)); [by rewrite andb_false_r|].
    rewrite (live_levels _ _ now now _ _ (Qle_refl now) Hsame). unfold table_levels.
    pose proof (live_size (capacity t) (rate t) now _ (sh_keys _ _ (o_shape _ _ _ Ho2))).
    rewrite (o_used _ _ _ Ho2) in Hr2. unfold zlen in Hr2. lia.
  - rewrite El. assert (qle cost (capacity t) = true) as -> by (apply qle_true; lra).
    rewrite (proj2 (Z.leb_gt _ _)).
    + rewrite andb_false_r. cbn [snd]. rewrite Elv, L1. intros k' later Hl. rewrite !level_insert.
      destruct (decide (k = k')); [done|]. symmetry. by apply Hsame.
    + rewrite (live_levels _ _ now now _ _ (Qle_refl now) Hsame). unfold table_levels.
      pose proof (live_size (capacity t) (rate t) now _ (sh_keys _ _ (o_shape _ _ _ Ho2))).
      rewrite (o_used _ _ _ Ho2) in Hr2. unfold zlen in Hr2. lia.
Qed.

Lemma acquire_refines T now cost k t : table_ok hash T t -> (T <= now)%Q ->
  match token_bucket_acquire hash k now cost t with
  | Ok (r, t') => (0 < cost <= capacity t)%Q /\ acquired T now cost k t r t'
  | Err e => e = CostNotPositive /\ (cost <= 0)%Q \/ e = CostOverCapacity /\ (0 < cost)%Q /\ (capacity t < cost)%Q
  end.
Proof.
  intros Ho Ht. unfold token_bucket_acquire. destruct (qle cost 0) eqn:H0; [left; split; [done|by apply qle_true]|].
  apply qle_false in H0. destruct (qlt (capacity t) cost) eqn:H1; [right; apply qlt_true in H1; done|]. apply qlt_false in H1.
  unfold bucket_find at 1, mask.
  destruct (find_spec hash (slots t) k (o_shape _ _ _ Ho) (table_room hash T t Ho)) as [(i & b & -> & Hi & Ek)|(Hn & i & -> & Hi & _)].
  - rewrite Hi. pose proof (acquire_found T now cost k t i b Ho Ht (conj H0 H1) Hi Ek) as Ha. cbn zeta in Ha.
    destruct (qle cost (b_tokens _)); by split.
  - destruct (ensure_room_spec hash T now t Ho Ht) as (r & t2 & -> & Ho2 & Hlim & Hsame & Hkeys & Hr). destruct r.
    + assert (k ∉ map b_key (buckets (slots t2))) as Hn2 by (intros Hin; by apply Hn, Hkeys). unfold bucket_find, mask.
      destruct (find_spec hash (slots t2) k (o_shape _ _ _ Ho2) (table_room hash now t2 Ho2))
        as [(j & b & _ & Hj & Ek)|(_ & j & -> & Hj & Hfill)].
      * destruct Hn2. rewrite <- Ek. apply list_elem_of_fmap_2, elem_buckets. by exists j.
      * split; [done|]. apply acquire_new; try done. by apply Hfill.
    + split; [done|]. assert (level (capacity t) (rate t) (table_levels t) k now = capacity t) as El
        by (unfold level, table_levels; by rewrite held_none).
      assert (fst (spec_of t k now cost) = (capacity t / rate t)%Q /\ snd (spec_of t k now cost) = table_levels t) as [E1 E2].
      { unfold spec_of, spec_acquire. rewrite El, (proj2 (Z.leb_le _ _) Hr).
        assert (qle (capacity t) (capacity t) = true) as -> by (apply qle_true; lra). done. }
      destruct Hlim as (L1 & L2 & L3 & L4). split_and!; [done|done|by rewrite E1, L1, L2|]. rewrite E2. by symmetry.
Qed.
End acquire.

(** ** Runs *)

Inductive bucket_op (K : Type) : Type :=
| Acquire (k : K) (now cost : Q)
| Clear.
Arguments Acquire {K} k now cost.
Arguments Clear {K}.

Section runs.
Context {K : Type} `{Countable K} (hash : K -> Z).
Abbreviation table := (TokenBucket K).

(** The answers of a run, and the table after it; a call that raises changes nothing. *)
Fixpoint bucket_run (ops : list (bucket_op K)) (t : table) : list (res bucket_error Q) * table :=
  match ops with
  | [] => ([], t)
  | Clear :: ops => bucket_run ops (token_bucket_clear t)
  | Acquire k now cost :: ops =>
      match token_bucket_acquire hash k now cost t with
      | Err e => let '(l, t) := bucket_run ops t in (Err e :: l, t)
      | Ok (r, t) => let '(l, t) := bucket_run ops t in (Ok r :: l, t)
      end
  end.

Definition spec_call (cap rt : Q) (entries : Z) (k : K) (now cost : Q) (m : gmap K (Q * Q)) :
    res bucket_error Q * gmap K (Q * Q) :=
  if qle cost 0 then (Err CostNotPositive, m)
  else if qlt cap cost then (Err CostOverCapacity, m)
  else let '(r, m) := spec_acquire cap rt entries k now cost m in (Ok r, m).

Fixpoint spec_run (cap rt : Q) (entries : Z) (ops : list (bucket_op K)) (m : gmap K (Q * Q)) : list (res bucket_error Q) :=
  match ops with
  | [] => []
  | Clear :: ops => spec_run cap rt entries ops ∅
  | Acquire k now cost :: ops =>
      let '(r, m) := spec_call cap rt entries k now cost m in r :: spec_run cap rt entries ops m
  end.

Definition same_answer (r r' : res bucket_error Q) : Prop :=
  match r, r' with
  | Ok x, Ok y => (x == y)%Q
  | Err e, Err e' => e = e'
  | _, _ => False
  end.

(** The clock does not go back. *)
Fixpoint in_order (from : Q) (ops : list (bucket_op K)) : Prop :=
  match ops with
  | [] => True
  | Clear :: ops => in_order from ops
  | Acquire _ now _ :: ops => (from <= now)%Q /\ in_order now ops
  end.

(** The last time the clock was read. *)
Fixpoint last_time (from : Q) (ops : list (bucket_op K)) : Q :=
  match ops with
  | [] => from
  | Clear :: ops => last_time from ops
  | Acquire _ now _ :: ops => last_time now ops
  end.

(** Tokens that the run spent on [k]. *)
Fixpoint admitted (k : K) (ops : list (bucket_op K)) (answers : list (res bucket_error Q)) : Q :=
  match ops, answers with
  | Clear :: ops, l => admitted k ops l
  | Acquire k' _ cost :: ops, Ok r :: l =>
      (if bool_decide (k = k') && Qeq_bool r 0 then cost + admitted k ops l else admitted k ops l)%Q
  | Acquire _ _ _ :: ops, Err _ :: l => admitted k ops l
  | _, _ => 0%Q
  end.

Definition no_clear (ops : list (bucket_op K)) : Prop := Forall (fun o => o <> Clear) ops.

Lemma power_of_two_spec value : 1 <= value <= 2 ^ 62 ->
  let T := next_power_of_two value in sized T /\ value <= T /\ T <= 2 ^ 63.
Proof.
  intros Hv. unfold next_power_of_two.
  assert (forall fuel p, 3 <= p <= 63 -> 62 <= p + Z.of_nat fuel -> let T := doubled fuel (2 ^ p) value in
    sized T /\ value <= T /\ T <= 2 ^ 63) as Hd.
  { induction fuel as [|fuel IH]; intros p Hp Hf; cbn [doubled].
    - split_and!; [exists p; lia| |apply Z.pow_le_mono_r; lia].
      transitivity (2 ^ 62); [lia|]. apply Z.pow_le_mono_r; lia.
    - destruct (2 ^ p <? value) eqn:E; cbn [andb].
      + apply Z.ltb_lt in E. assert (p < 62) by (apply (Z.pow_lt_mono_r_iff 2); lia).
        assert (2 ^ p <? 2 ^ 63 - 1 = true) as ->.
        { apply Z.ltb_lt. pose proof (Z.pow_lt_mono_r 2 p 62). lia. }
        replace (2 * 2 ^ p) with (2 ^ (p + 1)) by (rewrite Z.pow_add_r by lia; lia). apply IH; lia.
      + apply Z.ltb_ge in E. split_and!; [exists p; lia|lia|apply Z.pow_le_mono_r; lia]. }
  apply (Hd 64%nat 3); lia.
Qed.

Lemma new_ok cap rt entries t T : token_bucket_new cap rt entries = Ok t -> entries <= 2 ^ 60 ->
  table_ok hash T t /\ table_levels t = ∅ /\ capacity t = cap /\ rate t = rt /\ max_entries t = entries.
Proof.
  unfold token_bucket_new. destruct (qlt 0 cap) eqn:Hc; [|done]. destruct (qlt 0 rt) eqn:Hr; [|done]. cbn [negb].
  apply qlt_true in Hc, Hr. destruct (entries <? 1) eqn:He; [done|]. apply Z.ltb_ge in He. intros [= <-] Hb.
  assert (size_t (entries * 4) = entries * 4) as -> by (unfold size_t; apply Z.mod_small; lia).
  destruct (power_of_two_spec (entries * 4 / 3 + 1)) as (Hs & Hle & H63).
  { split; [pose proof (Z.div_pos (entries * 4) 3); lia|]. apply Z.add_le_mono_r with (p := -1). transitivity (2 ^ 60 * 4 / 3); [|by vm_compute].
    replace (entries * 4 / 3 + 1 + -1) with (entries * 4 / 3) by lia. apply Z.div_le_mono; lia. }
  set (most := next_power_of_two (entries * 4 / 3 + 1)) in *.
  assert (sized (if most <? 64 then most else 64) /\ (if most <? 64 then most else 64) <= most) as [Hi Hm].
  { destruct (most <? 64) eqn:E; [done|]. apply Z.ltb_ge in E. split; [by exists 6|done]. }
  set (initial := if most <? 64 then most else 64) in *. pose proof (sized_pos _ Hi).
  split; [|by cbn; unfold table_levels; cbn [slots]; rewrite buckets_empty].
  assert (zlen (replicate (Z.to_nat initial) (@None (WreathBucket K))) = initial) as El
    by (unfold zlen; rewrite length_replicate; lia).
  split; cbn [slots used max_slots max_entries capacity rate]; rewrite ?buckets_empty, ?El; try done; try lia.
  - apply shape_empty. by rewrite Z2Nat.id by lia.
  - split; [lia|]. pose proof (Z.div_mod (entries * 4) 3 ltac:(lia)). pose proof (Z.mod_pos_bound (entries * 4) 3). lia.
Qed.

Lemma clear_ok T t : table_ok hash T t -> table_ok hash T (token_bucket_clear t) /\ table_levels (token_bucket_clear t) = ∅.
Proof.
  intros Ho. assert (slots (token_bucket_clear t) = replicate (length (slots t)) None) as Es
    by (cbn; induction (slots t) as [|s l IH]; cbn; congruence).
  assert (zlen (replicate (length (slots t)) (@None (WreathBucket K))) = zlen (slots t)) as El
    by (unfold zlen; by rewrite length_replicate).
  split; [|unfold table_levels; by rewrite Es, buckets_empty].
  pose proof (zlen_nonneg (slots t)). destruct Ho as [Hs]. split; rewrite ?Es, ?buckets_empty, ?El; cbn; try done; try lia.
  apply shape_empty. apply Hs.
Qed.

(** A run of the table against a run of the levels. *)
Lemma run_agrees ops : forall T t m, table_ok hash T t -> in_order T ops ->
  same_levels (capacity t) (rate t) T (table_levels t) m ->
  Forall2 same_answer (fst (bucket_run ops t)) (spec_run (capacity t) (rate t) (max_entries t) ops m) /\
  same_limits t (snd (bucket_run ops t)) /\ table_ok hash (last_time T ops) (snd (bucket_run ops t)).
Proof.
  induction ops as [|[k now cost|] ops IH]; intros T t m Ho Hord Hsame; cbn [bucket_run spec_run].
  - split_and!; [constructor|done|done].
  - destruct Hord as [Ht Hord]. pose proof (acquire_refines hash T now cost k t Ho Ht) as Ha.
    unfold spec_call. destruct (token_bucket_acquire hash k now cost t) as [[r t']|e].
    + destruct Ha as (Hc & Ho' & (L1 & L2 & L3 & L4) & Hr & Hl).
      assert (qle cost 0 = false) as -> by (apply qle_false; lra).
      assert (qlt (capacity t) cost = false) as -> by (apply qlt_false; lra).
      destruct (spec_acquire_same (capacity t) (rate t) (max_entries t) T now k cost _ _ Ht Hsame) as [E1 E2].
      unfold spec_of in *. destruct (spec_acquire _ _ _ k now cost m) as [r' m'] eqn:Es. cbn in E1, E2.
      destruct (IH now t' m') as (H1 & (M1 & M2 & M3 & M4) & H3); [done|done|rewrite L1, L2; by etransitivity|].
      destruct (bucket_run ops t') as [l t2]. cbn in *. rewrite L1, L2, L3 in H1. split_and!; [|unfold same_limits; by rewrite M1, M2, M3, M4|done].
      constructor; [cbn; by rewrite Hr|done].
    + destruct (IH now t m) as (H1 & H2 & H3); [by eapply table_ok_later|done|by eapply same_levels_later|].
      destruct (bucket_run ops t) as [l t2]. cbn in *.
      destruct Ha as [[-> Hc]|(-> & Hp & Hc)].
      * rewrite (proj2 (qle_true _ _) Hc). split_and!; [by constructor|done|done].
      * rewrite (proj2 (qle_false _ _) Hp), (proj2 (qlt_true _ _) Hc). split_and!; [by constructor|done|done].
  - destruct (clear_ok T t Ho) as [Ho' El]. destruct (IH T (token_bucket_clear t) ∅ Ho' Hord) as (H1 & H2 & H3).
    { rewrite El. reflexivity. }
    done.
Qed.

(** The specification spends what a level allows. *)
Lemma spec_admitted cap rt entries k (Hcap : (0 < cap)%Q) (Hrt : (0 < rt)%Q) until ops : forall T m,
  levels_ok cap T m -> in_order T ops -> no_clear ops -> (forall k' now cost, Acquire k' now cost ∈ ops -> now <= until)%Q ->
  (T <= until)%Q ->
  (admitted k ops (spec_run cap rt entries ops m) <= level cap rt m k T + rt * (until - T))%Q.
Proof.
  induction ops as [|[k' now cost|] ops IH]; intros T m Hok Hord Hnc Hu Hle; cbn [spec_run].
  - cbn. pose proof (level_bounds cap rt Hcap Hrt T m k T Hok).
    assert (0 <= rt * (until - T))%Q by (apply Qmult_le_0_compat; lra). lra.
  - destruct Hord as [Ht Hord]. apply Forall_cons in Hnc as [_ Hnc].
    assert (now <= until)%Q as Hnow by (eapply Hu, list_elem_of_here).
    assert (forall k' now cost, Acquire k' now cost ∈ ops -> now <= until)%Q as Hu'
      by (intros ??? Hin; eapply Hu, list_elem_of_further, Hin).
    assert (level cap rt m k now <= level cap rt m k T + rt * (now - T))%Q as Hgrow.
    { unfold level. destruct (m !! k) as [[tok upd]|] eqn:E.
      - destruct (Hok k _ E) as [Hb Hupd]. cbn in *. rewrite <- (credit_trans cap rt tok upd T now) by lra.
        unfold credit at 1. rewrite (Q.max_r 0) by lra. eapply Qle_trans; [apply Q.le_min_r|]. lra.
      - assert (0 <= rt * (now - T))%Q by (apply Qmult_le_0_compat; lra). lra. }
    assert (rt * (until - T) == rt * (now - T) + rt * (until - now))%Q as Esplit by ring.
    assert (levels_ok cap now m) as Hok' by (intros q v Hv; destruct (Hok q v Hv); split; [done|lra]).
    unfold spec_call. destruct (qle cost 0) eqn:H0; [cbn; specialize (IH now m Hok' Hord Hnc Hu' Hnow); lra|].
    apply qle_false in H0.
    destruct (qlt cap cost) eqn:H1; [cbn; specialize (IH now m Hok' Hord Hnc Hu' Hnow); lra|].
    pose proof (spec_acquire_ok cap rt entries Hcap Hrt T now k' cost m H0 Ht Hok) as Hok2.
    destruct (spec_acquire cap rt entries k' now cost m) as [r m'] eqn:Es. cbn in Hok2.
    specialize (IH now m' Hok2 Hord Hnc Hu' Hnow). cbn [admitted].
    unfold spec_acquire in Es. destruct (qle cap _ && _).
    { injection Es as <- <-. assert (Qeq_bool (cap / rt) 0 = false) as ->.
      { apply not_true_iff_false. rewrite Qeq_bool_iff. intros E0. pose proof (quotient_pos cap rt Hrt Hcap). lra. }
      rewrite andb_false_r. cbv iota. lra. }
    destruct (qle cost (level cap rt m k' now)) eqn:Hc; injection Es as <- <-.
    + apply qle_true in Hc. pose proof (level_bounds cap rt Hcap Hrt T m k' now Hok).
      rewrite level_insert in IH. destruct (bool_decide (k = k')) eqn:Ek.
      * apply bool_decide_eq_true in Ek as <-. rewrite decide_True in IH by done.
        rewrite credit_now in IH by lra. change (Qeq_bool 0 0) with true. cbn [andb]. lra.
      * apply bool_decide_eq_false in Ek. rewrite decide_False in IH by done. cbn [andb]. lra.
    + apply qle_false in Hc. assert (Qeq_bool ((cost - level cap rt m k' now) / rt) 0 = false) as ->.
      { apply not_true_iff_false. rewrite Qeq_bool_iff. intros E0.
        pose proof (quotient_pos (cost - level cap rt m k' now) rt Hrt). lra. }
      rewrite andb_false_r. cbv iota. lra.
  - apply Forall_cons in Hnc as [Hn _]. by destruct Hn.
Qed.

Lemma admitted_same k ops : forall l l', Forall2 same_answer l l' -> admitted k ops l = admitted k ops l'.
Proof.
  induction ops as [|[k' now cost|] ops IH]; intros l l' Hf; [done| |by apply IH].
  destruct Hf as [|r r' l l' Hr Hf]; [done|]. cbn. destruct r as [x|e], r' as [y|e']; try done; [|by apply IH].
  cbn in Hr. rewrite Hr. by rewrite (IH _ _ Hf).
Qed.

(** A refused key that waits, if nothing else is asked meanwhile. *)
Lemma spec_waiting cap rt entries (k : K) now cost m later : (0 < cap)%Q -> (0 < rt)%Q -> 1 <= entries ->
  levels_ok cap now m -> Z.of_nat (size (live cap rt m now)) <= entries -> (0 < cost <= cap)%Q ->
  let w := fst (spec_acquire cap rt entries k now cost m) in
  (0 < w)%Q -> (now + w <= later)%Q ->
  snd (spec_acquire cap rt entries k now cost m) = m /\ fst (spec_acquire cap rt entries k later cost m) = 0%Q.
Proof.
  intros Hcap Hrt He Hok Hn Hc. cbn zeta. pose proof (level_bounds cap rt Hcap Hrt now m k now Hok) as Hl.
  unfold spec_acquire at 1 2 3. destruct (qle cap (level cap rt m k now) && _) eqn:Hfull; cbn [fst snd].
  - intros Hw Hlater. split; [done|]. assert (cap <= (later - now) * rt)%Q as Hgain.
    { assert (cap / rt <= later - now)%Q as Hd by lra. apply Qmult_le_compat_r with (z := rt) in Hd; [|lra].
      rewrite (Qmult_comm (cap / rt)), Qmult_div_r in Hd; lra. }
    assert (forall k', (level cap rt m k' later == cap)%Q) as Hall.
    { intros k'. unfold level. destruct (m !! k') as [[tok upd]|] eqn:E; [|reflexivity]. destruct (Hok k' _ E) as [Hb Hu]. cbn in *.
      unfold credit. apply Q.min_l. rewrite Q.max_r by lra.
      assert ((later - now) * rt <= (later - upd) * rt)%Q by (apply Qmult_le_compat_r; lra). lra. }
    assert (live cap rt m later = ∅) as Hlive.
    { apply set_eq. intros k'. rewrite elem_live, (Hall k'). split; [lra|set_solver]. }
    unfold spec_acquire. rewrite Hlive, size_empty. rewrite (proj2 (Z.leb_gt _ _)) by lia. rewrite andb_false_r.
    assert (qle cost (level cap rt m k later) = true) as ->; [|done]. apply qle_true. rewrite Hall. lra.
  - destruct (qle cost (level cap rt m k now)) eqn:Hle; cbn [fst snd]; [lra|]. apply qle_false in Hle.
    intros Hw Hlater. split; [done|]. assert (level cap rt m k now < cap)%Q as Hlt by lra.
    assert (cost <= level cap rt m k later)%Q as Henough.
    { assert (cost - level cap rt m k now <= (later - now) * rt)%Q as Hgain.
      { assert ((cost - level cap rt m k now) / rt <= later - now)%Q as Hd by lra.
        apply Qmult_le_compat_r with (z := rt) in Hd; [|lra]. rewrite (Qmult_comm (_ / rt)), Qmult_div_r in Hd; lra. }
      unfold level in *. destruct (m !! k) as [[tok upd]|] eqn:E; [|lra]. destruct (Hok k _ E) as [Hb Hu]. cbn in Hb, Hu.
      rewrite <- (credit_trans cap rt tok upd now later) by lra. unfold credit at 1. rewrite (Q.max_r 0) by lra.
      apply Q.min_glb; lra. }
    assert ((size (live cap rt m later) < size (live cap rt m now))%nat \/ (level cap rt m k later < cap)%Q) as Hcase.
    { destruct (Qlt_le_dec (level cap rt m k later) cap) as [|Hge]; [by right|left]. apply subset_size. split.
      - apply live_mono; lra.
      - intros Hsub. specialize (Hsub k). rewrite !elem_live in Hsub. specialize (Hsub Hlt). lra. }
    unfold spec_acquire. rewrite (proj2 (qle_true cost _) Henough).
    destruct (qle cap (level cap rt m k later)) eqn:Hq; cbn [andb]; [|done]. apply qle_true in Hq.
    destruct Hcase as [Hs|]; [|lra]. rewrite (proj2 (Z.leb_gt _ _)) by lia. done.
Qed.

(** ** Claims *)

(** C27. The limiter of [ratelimit.c] answers every run of calls whose clock
    does not go back as the ideal bucket per key does, one that never forgets a
    key and refuses a key with a full bucket only while [max_entries] other keys
    are short: dropping full buckets, rebuilding and growing the table cannot be
    observed, and the table never holds more than [max_entries] keys.  So no short
    bucket is evicted for a new key, the fullest one neither: [fullest_kept]. *)
Theorem bucket_runs_as_levels cap rt entries (t : table) (ops : list (bucket_op K)) from :
  token_bucket_new cap rt entries = Ok t -> entries <= 2 ^ 60 -> in_order from ops ->
  Forall2 same_answer (fst (bucket_run ops t)) (spec_run cap rt entries ops ∅) /\
  0 <= token_bucket_get_tracked (snd (bucket_run ops t)) <= entries.
Proof.
  intros Hnew He Hord. destruct (new_ok cap rt entries t from Hnew He) as (Ho & Hl & <- & <- & <-).
  destruct (run_agrees ops from t ∅ Ho Hord) as (H1 & (_ & _ & L3 & _) & H3); [rewrite Hl; reflexivity|].
  split; [done|]. unfold token_bucket_get_tracked. pose proof (o_entries _ _ _ H3) as Hb. rewrite L3 in Hb.
  rewrite (o_used _ _ _ H3) in *. split; [apply zlen_nonneg|done].
Qed.

(** C28. Over any interval, whatever was asked before and whatever other keys
    ask, a key is admitted at most the burst and what the rate gives in that
    time: no spray of new keys evicts a throttled bucket and resets it. *)
Theorem admitted_within_rate cap rt entries (t : table) (k : K) pre ops from start until :
  token_bucket_new cap rt entries = Ok t -> entries <= 2 ^ 60 ->
  in_order from pre -> (last_time from pre <= start)%Q -> in_order start ops -> no_clear ops ->
  (forall k' now cost, Acquire k' now cost ∈ ops -> now <= until)%Q -> (start <= until)%Q ->
  (admitted k ops (fst (bucket_run ops (snd (bucket_run pre t)))) <= cap + rt * (until - start))%Q.
Proof.
  intros Hnew He Hpre Hlast Hord Hnc Hu Hle. destruct (new_ok cap rt entries t from Hnew He) as (Ho & Hl & <- & <- & <-).
  destruct (run_agrees pre from t ∅ Ho Hpre) as (_ & (L1 & L2 & L3 & _) & H3); [rewrite Hl; reflexivity|].
  set (t1 := snd (bucket_run pre t)) in *. apply (table_ok_later hash _ start) in H3; [|done].
  destruct (run_agrees ops start t1 (table_levels t1) H3 Hord) as (Hf & _ & _); [reflexivity|].
  rewrite (admitted_same k ops _ _ Hf). rewrite L1, L2, L3.
  pose proof (levels_ok_table hash start t1 H3) as Hok. rewrite L1 in Hok.
  pose proof (spec_admitted (capacity t) (rate t) (max_entries t) k (o_cap _ _ _ Ho) (o_rate _ _ _ Ho) until ops start _ Hok Hord Hnc Hu Hle).
  pose proof (level_bounds _ _ (o_cap _ _ _ Ho) (o_rate _ _ _ Ho) start _ k start Hok). lra.
Qed.

End runs.

(** The wait that a refusal answers with is enough, if nothing else is asked
    meanwhile; also for a key refused because the table is full. *)
Lemma wait_then_admitted {K : Type} `{Countable K} (hash : K -> Z) (t : TokenBucket K) (k : K) now cost later w t' :
  table_ok hash now t -> token_bucket_acquire hash k now cost t = Ok (w, t') -> (0 < w)%Q -> (now + w <= later)%Q ->
  exists r t'', token_bucket_acquire hash k later cost t' = Ok (r, t'') /\ (r == 0)%Q.
Proof.
  intros Ho Ha Hw Hlater. pose proof (acquire_refines hash now now cost k t Ho (Qle_refl now)) as H1. rewrite Ha in H1.
  destruct H1 as (Hc & Ho' & (M1 & M2 & M3 & _) & Hr & Hs).
  assert (now <= later)%Q as Hle by lra.
  pose proof (acquire_refines hash now later cost k t' Ho' Hle) as H2.
  unfold spec_of in *. rewrite M1 in H2. rewrite Hr in Hw.
  destruct (spec_waiting (capacity t) (rate t) (max_entries t) k now cost (table_levels t) later) as [Hsame Hzero];
    try apply Ho; try done.
  { by apply (levels_ok_table hash). }
  { pose proof (live_size (capacity t) (rate t) now _ (sh_keys _ _ (o_shape _ _ _ Ho))).
    pose proof (o_used _ _ _ Ho). pose proof (o_entries _ _ _ Ho). unfold table_levels, zlen in *. lia. }
  { by rewrite Hr in Hlater. }
  destruct (token_bucket_acquire hash k later cost t') as [[r t'']|e].
  - exists r, t''. split; [done|]. destruct H2 as (_ & _ & _ & Hr2 & _). unfold spec_of in Hr2. rewrite Hr2, M1, M2, M3.
    rewrite Hsame in Hs.
    destruct (spec_acquire_same (capacity t) (rate t) (max_entries t) now later k cost _ _ Hle Hs) as [-> _].
    by rewrite Hzero.
  - destruct H2 as [[_ ?]|(_ & _ & ?)]; lra.
Qed.

(** ** Witnesses

    A table for two keys, a burst of two and one token a second.  A third key is
    refused while the first two are short, and has room once they are full. *)

Definition small : TokenBucket Z := mk_table (replicate 8 None) 0 8 2 2 1.

Definition spray : list (bucket_op Z) :=
  [Acquire 1 0 1; Acquire 1 0 1; Acquire 1 0 1; Acquire 9 0 2; Acquire 17 (1 # 2) 1; Acquire 1 1 1; Acquire 17 3 1; Acquire 1 3 3].

Lemma small_new : token_bucket_new 2 1 2 = Ok small.
Proof. reflexivity. Qed.

(** The first key is short after two tokens; the third finds the table full. *)
Example spray_answers : List.Forall2 same_answer (fst (bucket_run (fun k => k) spray small))
  [Ok 0; Ok 0; Ok 1; Ok 0; Ok 2; Ok 0; Ok 0; Err CostOverCapacity]%Q.
Proof. vm_compute. repeat constructor. Qed.

(** At the ceiling, with no bucket full, the fullest one is not evicted for a new
    key: key 9 with one token of two is kept, and key 17 told to wait. *)
Example fullest_kept :
  let '(answers, t) := bucket_run (fun k => k) [Acquire 1 0 2; Acquire 9 0 1; Acquire 17 0 1] small in
  List.Forall2 same_answer answers [Ok 0; Ok 0; Ok 2]%Q /\
  map (fun b => (b_key b, b_tokens b)) (buckets (slots t)) = [(1, 0%Q); (9, 1%Q)].
Proof. vm_compute. repeat constructor. Qed.

Lemma bucket_runs_as_levels_witness :
  Forall2 same_answer (fst (bucket_run (fun k => k) spray small)) (spec_run 2 1 2 spray ∅) /\
  0 <= token_bucket_get_tracked (snd (bucket_run (fun k => k) spray small)) <= 2.
Proof. apply (bucket_runs_as_levels _ 2 1 2 small spray 0); [reflexivity|lia|cbn; repeat split; lra]. Defined.

Lemma admitted_within_rate_witness :
  (admitted 1%Z spray (fst (bucket_run (fun k => k) spray (snd (bucket_run (fun k => k) [Acquire 9%Z 0 1] small)))) <= 2 + 1 * (3 - 0))%Q.
Proof.
  apply (admitted_within_rate _ 2 1 2 small 1 [Acquire 9 0 1] spray 0 0 3); try reflexivity; try (cbn; repeat split; lra).
  - lia.
  - repeat constructor; discriminate.
  - intros k' now cost Hin. unfold spray in Hin. rewrite !elem_of_cons in Hin.
    destruct_or! Hin; try (injection Hin as -> -> ->; apply qle_true; reflexivity). by apply not_elem_of_nil in Hin.
Defined.

