(* ===== verification/Quota.v ===== *)
(** * Quotas: [quota.py]

    A counter per principal and period: [Quota], the two stores, the meter that
    composes the key and builds the refusal, the registry [Quotas].  Seconds and
    units are exact rationals; an SQL statement is the change it makes to its
    row, with the database's clock as an argument. *)

From stdpp Require Import base sets strings numbers list gmap.
From Stdlib Require Import ZArith QArith Qround Lia.
From S2P Require Import Prelude PyCollections PyText CedarAuthorizer TokenBucket.
#[local] Open Scope Z_scope.

Inductive quota_error : Type :=
| ValueError | RuntimeError | KeyMissing | BucketError (e : bucket_error).

(** ** Numbers in headers *)

(** [round] to the nearest integer, ties to even. *)
Definition round_half_even (q : Q) : Z :=
  let f := Qfloor q in
  let rest := (q - inject_Z f)%Q in
  if qlt rest (1 # 2) then f else if qlt (1 # 2) rest then f + 1 else if Z.even f then f else f + 1.

Definition ten_to (e : Z) : Q := Qpower (inject_Z 10) e.

(** The [e] with [10 ^ e <= q < 10 ^ (e + 1)]. *)
Definition decimal_exponent (q : Q) : Z :=
  let e := zlen (str_of_Z (Qnum q)) - zlen (str_of_Z (Z.pos (Qden q))) in
  if qle (ten_to e) q then e else e - 1.

Fixpoint drop_zeros (s : pystr) : pystr :=
  match s with 48 :: s => drop_zeros s | _ => s end.

(** The digits of a fraction, without the zeros at its end. *)
Definition fraction (s : pystr) : pystr :=
  match rev (drop_zeros (rev s)) with [] => [] | ds => bs "." ++ ds end.

(** [f'{q:g}']: six significant digits. *)
Definition format_g (q : Q) : pystr :=
  if qle q 0 && qle 0 q then bs "0"
  else
    let sign := if qlt q 0 then bs "-" else [] in
    let q := if qlt q 0 then Qopp q else q in
    let e := decimal_exponent q in
    let n := round_half_even (q / ten_to (e - 5)) in
    let '(n, e) := if n =? 10 ^ 6 then (10 ^ 5, e + 1) else (n, e) in
    let ds := str_of_Z n in
    sign ++
    (if (-4 <=? e) && (e <? 6) then
       if 0 <=? e then take (Z.to_nat (e + 1)) ds ++ fraction (drop (Z.to_nat (e + 1)) ds)
       else bs "0" ++ fraction (replicate (Z.to_nat (- e - 1)) 48 ++ ds)
     else take 1 ds ++ fraction (drop 1 ds) ++ bs "e" ++ (if e <? 0 then bs "-" else bs "+") ++
          (if Z.abs e <? 10 then bs "0" else []) ++ str_of_Z (Z.abs e)).

(** [max(1, math.ceil(wait))]. *)
Definition whole_seconds (wait : Q) : Z := Z.max 1 (Qceiling wait).

(** ** A refusal

    [ProblemResponse(status=..., title=..., detail=...)] with the headers
    appended to it. *)
Record Refusal : Type := mk_refusal {
  r_status : Z;
  r_title : pystr;
  r_detail : pystr;
  r_headers : list (pystr * pystr) }.

(** ** [Quota] *)

Record Quota : Type := mk_quota { q_name : pystr; q_limit : Q; q_period : Q; q_cost : Q }.

Section names.
Context `{UnicodeData}.

Definition token_name (s : pystr) : bool :=
  (zlen s <=? 64) && forallb is_ascii s &&
  match s with c :: _ => isalnum c | [] => false end &&
  forallb (fun c => isalnum c || text_in [c] [bs "_"; bs "."; bs "-"]) s.

Definition __post_init__ (q : Quota) : res quota_error Quota :=
  if bool_decide (q_name q = []) then Err ValueError
  else if negb (token_name (q_name q)) then Err ValueError
  else if qle (q_limit q) 0 then Err ValueError
  else if qle (q_period q) 0 then Err ValueError
  else if qle (q_cost q) 0 then Err ValueError
  else if qlt (q_limit q) (q_cost q) then Err ValueError
  else Ok q.
End names.

Definition window (q : Quota) (now : Q) : Z * Q :=
  let index := Qfloor (now / q_period q) in
  (index, (inject_Z (index + 1) * q_period q - now)%Q).

(** ** The store's interface *)

Class QuotaStore (St : Type) : Type := {
  configure : Quota -> St -> res quota_error St;
  (** The wait, 0 when admitted. *)
  spend : pystr -> Q -> St -> res quota_error (Q * St);
  used_units : pystr -> Q -> St -> res quota_error Q;
  (** No synchronous [try_spend]. *)
  store_awaits : bool }.

(** ** In memory *)

Record MemoryQuotaStore : Type := mk_memory {
  _counts : gmap pystr Q;
  _periods : gmap pystr Z;
  _full_period : option Z;
  _max_entries : Z;
  _quota : option Quota }.

Definition memory_init (max_entries : Z) : res quota_error MemoryQuotaStore :=
  if max_entries <=? 0 then Err ValueError else Ok (mk_memory ∅ ∅ None max_entries None).

Definition memory_configure (q : Quota) (s : MemoryQuotaStore) : res quota_error MemoryQuotaStore :=
  match _quota s with
  | Some _ => Err ValueError
  | None => Ok (mk_memory (_counts s) (_periods s) (_full_period s) (_max_entries s) (Some q))
  end.

Definition memory_tracked (s : MemoryQuotaStore) : Z := Z.of_nat (size (_counts s)).

Definition _quota_or_raise (q : option Quota) : res quota_error Quota :=
  match q with Some q => Ok q | None => Err RuntimeError end.

Definition with_counts (c : gmap pystr Q) (p : gmap pystr Z) (f : option Z) (s : MemoryQuotaStore) : MemoryQuotaStore :=
  mk_memory c p f (_max_entries s) (_quota s).

(** [del self._counts[entry]; del self._periods[entry]] for each stale entry;
    a missing counter is a [KeyError]. *)
Definition drop_stale (period : Z) (s : MemoryQuotaStore) : res quota_error MemoryQuotaStore :=
  let stale := filter (fun e : pystr * Z => e.2 <> period) (_periods s) in
  if bool_decide (dom stale ⊆ dom (_counts s)) then
    Ok (with_counts (filter (fun e : pystr * Q => e.1 ∉ dom stale) (_counts s))
          (filter (fun e : pystr * Z => e.2 = period) (_periods s)) (_full_period s) s)
  else Err KeyMissing.

(** Room for a new key at [period]: false is a refusal. *)
Definition make_room (period : Z) (s : MemoryQuotaStore) : res quota_error (bool * MemoryQuotaStore) :=
  if bool_decide (_full_period s = Some period) then Ok (false, s)
  else
    let! s := drop_stale period s in
    if _max_entries s <=? memory_tracked s then Ok (false, with_counts (_counts s) (_periods s) (Some period) s)
    else Ok (true, s).

Definition try_spend (key : pystr) (now : Q) (s : MemoryQuotaStore) : res quota_error (Q * MemoryQuotaStore) :=
  let! quota := _quota_or_raise (_quota s) in
  let '(period, reset) := window quota now in
  let used := default 0%Q (_counts s !! key) in
  if qlt (q_limit quota) (used + q_cost quota) then Ok (reset, s)
  else
    let! (room, s) :=
      if bool_decide (key ∉ dom (_counts s)) && (_max_entries s <=? memory_tracked s) then make_room period s
      else Ok (true, s) in
    if room then
      Ok (0%Q, with_counts (<[key := (used + q_cost quota)%Q]> (_counts s))
                 (<[key := default period (_periods s !! key)]> (_periods s)) (_full_period s) s)
    else Ok (reset, s).

Definition peek (key : pystr) (s : MemoryQuotaStore) : res quota_error Q :=
  let! _ := _quota_or_raise (_quota s) in
  Ok (default 0%Q (_counts s !! key)).

Definition memory_clear (s : MemoryQuotaStore) : MemoryQuotaStore := with_counts ∅ ∅ None s.

#[export] Instance memory_quota_store : QuotaStore MemoryQuotaStore := {
  configure := memory_configure;
  spend := try_spend;
  used_units key _ s := peek key s;
  store_awaits := false }.

(** ** In a table *)

(** The table, with the clock of the database: one reading a statement. *)
Record PostgresQuotaStore : Type := mk_postgres {
  pg_rows : gmap pystr (Q * bool);
  pg_clock : nat -> Q;
  pg_reads : nat;
  pg_quota : option Quota }.

Definition postgres_configure (q : Quota) (s : PostgresQuotaStore) : res quota_error PostgresQuotaStore :=
  match pg_quota s with
  | Some _ => Err ValueError
  | None => Ok (mk_postgres (pg_rows s) (pg_clock s) (pg_reads s) (Some q))
  end.

(** [key.rpartition(':')]: what is before the last colon. *)
Fixpoint before_last_colon (s : pystr) : option pystr :=
  match s with
  | [] => None
  | c :: s =>
      match before_last_colon s with
      | Some a => Some (c :: a)
      | None => if c =? 58 then Some [] else None
      end
  end.

(** [$1 || ':' || floor(EXTRACT(EPOCH FROM clock_timestamp()) / $4)::bigint::text]. *)
Definition period_key (base : pystr) (period clock : Q) : pystr :=
  base ++ bs ":" ++ str_of_Z (Qfloor (clock / period)).

(** [INSERT ... ON CONFLICT (key) DO UPDATE ... RETURNING used, admitted]. *)
Definition spend_statement (base : pystr) (cost limit period clock : Q) (rows : gmap pystr (Q * bool)) :
    (Q * bool) * gmap pystr (Q * bool) :=
  let key := period_key base period clock in
  let row :=
    match rows !! key with
    | None => (cost, true)
    | Some (used, _) => ((used + (if qle (used + cost) limit then cost else 0))%Q, qle (used + cost) limit)
    end in
  (row, <[key := row]> rows).

Definition used_statement (base : pystr) (period clock : Q) (rows : gmap pystr (Q * bool)) : option Q :=
  fst <$> rows !! period_key base period clock.

Definition postgres_spend (key : pystr) (now : Q) (s : PostgresQuotaStore) : res quota_error (Q * PostgresQuotaStore) :=
  let! quota := _quota_or_raise (pg_quota s) in
  let '(_, reset) := window quota now in
  match before_last_colon key with
  | None => Err ValueError
  | Some base =>
      let '((_, admitted), rows) :=
        spend_statement base (q_cost quota) (q_limit quota) (q_period quota) (pg_clock s (pg_reads s)) (pg_rows s) in
      Ok (if admitted then 0%Q else reset, mk_postgres rows (pg_clock s) (S (pg_reads s)) (pg_quota s))
  end.

Definition postgres_used (key : pystr) (s : PostgresQuotaStore) : res quota_error Q :=
  let! quota := _quota_or_raise (pg_quota s) in
  match before_last_colon key with
  | None => Err ValueError
  | Some base => Ok (default 0%Q (used_statement base (q_period quota) (pg_clock s (pg_reads s)) (pg_rows s)))
  end.

#[export] Instance postgres_quota_store : QuotaStore PostgresQuotaStore := {
  configure := postgres_configure;
  spend := postgres_spend;
  used_units key _ s := postgres_used key s;
  store_awaits := true }.

(** ** The meter *)

(** [len]-framed type and namespace, and the id. *)
Definition qualified_identity_key (identity_type namespace value : pystr) : pystr :=
  let identity_value := str_of_Z (zlen namespace) ++ bs ":" ++ namespace ++ value in
  str_of_Z (zlen identity_type) ++ bs ":" ++ identity_type ++ identity_value.

Definition identity_key (i : Identity) : pystr := qualified_identity_key (i_type i) (i_namespace i) (i_id i).

Section meter.
Context {St : Type} `{QuotaStore St}.

Record QuotaMeter : Type := mk_meter { quota : Quota; _store : St; refused : Z }.

(** [wall] is what the wall clock says. *)
Definition meter_key (m : QuotaMeter) (identity : option Identity) (wall : Q) : option pystr :=
  match identity with
  | None => None
  | Some i => Some (q_name (quota m) ++ bs ":" ++ identity_key i ++ bs ":" ++ str_of_Z (fst (window (quota m) wall)))
  end.

Definition refusal (m : QuotaMeter) (reset : Q) : Refusal * QuotaMeter :=
  (mk_refusal 429 (bs "Quota Exceeded") (bs "The " ++ q_name (quota m) ++ bs " quota for this period is exhausted.")
     [(bs "retry-after", str_of_Z (whole_seconds reset));
      (bs "x-quota-limit", format_g (q_limit (quota m)));
      (bs "x-quota-remaining", bs "0");
      (bs "quota-policy",
       q_name (quota m) ++ bs ";u=" ++ format_g (q_limit (quota m)) ++ bs ";w=" ++ format_g (q_period (quota m)))],
   mk_meter (quota m) (_store m) (refused m + 1)).

(** The clock is read for the key, and again for the store. *)
Definition spend_sync (m : QuotaMeter) (identity : option Identity) (wall_key wall : Q) :
    res quota_error (option Refusal * QuotaMeter) :=
  match meter_key m identity wall_key with
  | None => Ok (None, m)
  | Some key =>
      let! (reset, s) := spend key wall (_store m) in
      let m := mk_meter (quota m) s (refused m) in
      if Qeq_bool reset 0 then Ok (None, m)
      else if qlt reset 0 then Err RuntimeError
      else let '(r, m) := refusal m reset in Ok (Some r, m)
  end.

Definition awaits (m : QuotaMeter) : bool := store_awaits.

(** ** The registry *)

(** What the provider of states answers: a text, or a collection whose members
    may not be texts. *)
Inductive states_answer : Type := Text (s : pystr) | Members (l : list (option pystr)).

Record Quotas : Type := mk_quotas {
  _meters : list (pystr * QuotaMeter);
  _store_factory : res quota_error St;
  _states : option (Identity -> states_answer) }.

Definition declare `{UnicodeData} (name : pystr) (limit period cost : Q) (r : Quotas) : res quota_error Quotas :=
  if dmem (_meters r) name then Err ValueError
  else
    let! q := __post_init__ (mk_quota name limit period cost) in
    let! s := _store_factory r in
    let! s := configure q s in
    Ok (mk_quotas (dset (_meters r) name (mk_meter q s 0)) (_store_factory r) (_states r)).

Definition meter (name : pystr) (r : Quotas) : res quota_error QuotaMeter :=
  match dget (_meters r) name with Some m => Ok m | None => Err KeyMissing end.

Fixpoint resolve_states (l : list (option pystr)) : res quota_error (gset pystr) :=
  match l with
  | [] => Ok ∅
  | None :: _ | Some [] :: _ => Err ValueError
  | Some s :: l => let! r := resolve_states l in Ok ({[s]} ∪ r)
  end.

Definition for_identity (i : Identity) (r : Quotas) : res quota_error (gset pystr) :=
  match _states r with
  | None => Ok ∅
  | Some states => match states i with Text _ => Err ValueError | Members l => resolve_states l end
  end.

Definition quota_headers (m : QuotaMeter) (used : Q) : list (pystr * pystr) :=
  let left := (q_limit (quota m) - used)%Q in
  [(bs "x-quota-limit", format_g (q_limit (quota m)));
   (bs "x-quota-remaining", format_g (if qlt 0 left then left else 0%Q))].
End meter.
Arguments QuotaMeter St : clear implicits.
Arguments Quotas St : clear implicits.
