(* ===== verification/QuotaClaims.v ===== *)
(** * Quotas hold

    Keys are exact ([meter_key_injective]); what a period admits stays within
    the limit, in memory ([quota_never_overspent]) and in the shared table
    ([shared_quota_never_overspent]). *)

From stdpp Require Import base sets strings numbers list gmap fin_maps.
From Stdlib Require Import ZArith QArith Qround Lia Lqa.
From S2P Require Import Prelude PyCollections PyText CedarAuthorizer TokenBucket TokenBucketFacts Quota.
#[local] Open Scope Z_scope.

(** ** Keys *)

Lemma split_last_colon a b x y : 58 ∉ x -> 58 ∉ y -> a ++ 58 :: x = b ++ 58 :: y -> a = b /\ x = y.
Proof.
  intros Hx Hy E. revert b E. induction a as [|c a IH]; intros [|d b]; cbn; intros E; injection E.
  - done.
  - intros -> _. destruct Hx. set_solver.
  - intros <- _. destruct Hy. set_solver.
  - intros E' ->. by destruct (IH b E') as [-> ->].
Qed.

Lemma before_last_colon_none s : 58 ∉ s -> before_last_colon s = None.
Proof.
  induction s as [|c s IH]; intros Hn; [done|]. cbn. rewrite IH by set_solver.
  destruct (Z.eqb_spec c 58) as [->|]; [set_solver|done].
Qed.

Lemma before_last_colon_app a s : 58 ∉ s -> before_last_colon (a ++ 58 :: s) = Some a.
Proof.
  intros Hn. induction a as [|c a IH]; cbn; [by rewrite before_last_colon_none|]. by rewrite IH.
Qed.

Lemma identity_key_framed i : identity_key i = framed [i_type i; i_namespace i] ++ i_id i.
Proof. unfold identity_key, qualified_identity_key. cbn [framed]. rewrite app_nil_r, <- !app_assoc. cbn [app]. by rewrite <- !app_assoc. Qed.

Lemma identity_key_injective i j : identity_key i = identity_key j ->
  i_type i = i_type j /\ i_namespace i = i_namespace j /\ i_id i = i_id j.
Proof. rewrite !identity_key_framed. intros E. apply framed_prefix in E as [E1 E2]; [|done]. injection E1. auto. Qed.

(** A counter's key, of an identity and a period. *)
Definition counter_key (q : Quota) (who : pystr) (index : Z) : pystr :=
  q_name q ++ bs ":" ++ who ++ bs ":" ++ str_of_Z index.

Lemma counter_key_injective q who index who' index' :
  counter_key q who index = counter_key q who' index' -> who = who' /\ index = index'.
Proof.
  unfold counter_key. intros E. apply app_inv_head in E. change (bs ":") with [58] in E. cbn [app] in E. injection E as E.
  apply split_last_colon in E as [-> E%str_of_Z_injective]; [done|apply str_of_Z_no_colon..].
Qed.

(** ** Windows *)

Section quota.
Context (q : Quota).

Definition index_at (now : Q) : Z := Qfloor (now / q_period q).
#[local] Arguments index_at : simpl never.

(** What [__post_init__] leaves. *)
Record quota_ok : Prop := {
  period_pos : (0 < q_period q)%Q;
  cost_pos : (0 < q_cost q)%Q;
  cost_limit : (q_cost q <= q_limit q)%Q }.

Lemma post_init_ok `{UnicodeData} r : __post_init__ q = Ok r -> quota_ok /\ r = q.
Proof.
  unfold __post_init__. case_bool_decide; [done|]. destruct (token_name _); [|done]. cbn [negb].
  destruct (qle (q_limit q) 0); [done|]. destruct (qle (q_period q) 0) eqn:E2; [done|].
  destruct (qle (q_cost q) 0) eqn:E3; [done|]. destruct (qlt (q_limit q) (q_cost q)) eqn:E4; [done|].
  intros [= <-]. apply qle_false in E2, E3. apply qlt_false in E4. done.
Qed.

Context (Hq : quota_ok).

Lemma index_mono a b : (a <= b)%Q -> index_at a <= index_at b.
Proof.
  intros Hab. unfold index_at. apply Qfloor_resp_le. pose proof (period_pos Hq) as Hp.
  apply Qmult_le_compat_r; [done|]. apply Qinv_le_0_compat. lra.
Qed.

(** The wait of a refusal ends the period, and is never zero. *)
Lemma window_reset now : let '(index, reset) := window q now in
  index = index_at now /\ (0 < reset)%Q /\ (reset <= q_period q)%Q /\ index_at (now + reset) = index + 1.
Proof.
  unfold window, index_at. pose proof (period_pos Hq) as Hp. set (i := Qfloor (now / q_period q)).
  assert (inject_Z i <= now / q_period q)%Q as H1 by apply Qfloor_le.
  assert (now / q_period q < inject_Z (i + 1))%Q as H2 by apply Qlt_floor.
  assert (inject_Z (i + 1) == inject_Z i + 1)%Q as E1 by (rewrite inject_Z_plus; reflexivity).
  assert (inject_Z i * q_period q <= now)%Q as H3.
  { apply Qmult_le_compat_r with (z := q_period q) in H1; [|lra].
    unfold Qdiv in H1. rewrite <- Qmult_assoc, (Qmult_comm (/ q_period q)), Qmult_inv_r, Qmult_1_r in H1 by lra. done. }
  assert (now < inject_Z (i + 1) * q_period q)%Q as H4.
  { apply Qmult_lt_compat_r with (z := q_period q) in H2; [|lra].
    unfold Qdiv in H2. rewrite <- Qmult_assoc, (Qmult_comm (/ q_period q)), Qmult_inv_r, Qmult_1_r in H2 by lra. done. }
  split_and!; [done|lra| |].
  - assert (inject_Z (i + 1) * q_period q == inject_Z i * q_period q + q_period q)%Q as -> by (rewrite E1; ring). lra.
  - assert ((now + (inject_Z (i + 1) * q_period q - now)) / q_period q == inject_Z (i + 1))%Q as ->; [|apply Qfloor_Z].
    field. lra.
Qed.
End quota.

(** ** Requests against the in-memory store *)

(** A request: who asks, and the two readings of the wall clock. *)
Record ask : Type := mk_ask { a_who : option Identity; a_key : Q; a_spend : Q }.

Fixpoint meter_run (l : list ask) (m : QuotaMeter MemoryQuotaStore) : list (option bool) :=
  match l with
  | [] => []
  | a :: l =>
      match spend_sync m (a_who a) (a_key a) (a_spend a) with
      | Err _ => [None]
      | Ok (r, m) => Some (bool_decide (r = None)) :: meter_run l m
      end
  end.

(** Units that the requests of [who] in the period [index] were admitted. *)
Fixpoint charged (q : Quota) (who : pystr) (index : Z) (l : list ask) (answers : list (option bool)) : Q :=
  match l, answers with
  | a :: l, Some true :: answers =>
      (if bool_decide (identity_key <$> a_who a = Some who /\ index_at q (a_key a) = index)
       then q_cost q + charged q who index l answers else charged q who index l answers)%Q
  | _ :: l, _ :: answers => charged q who index l answers
  | _, _ => 0%Q
  end.

(** The clock does not go back. *)
Fixpoint wall_order (from : Q) (l : list ask) : Prop :=
  match l with
  | [] => True
  | a :: l => (from <= a_key a)%Q /\ (a_key a <= a_spend a)%Q /\ wall_order (a_spend a) l
  end.

#[export] Instance Refusal_eq : EqDecision Refusal.
Proof. solve_decision. Defined.

#[local] Arguments index_at : simpl never.
#[local] Arguments counter_key : simpl never.

Section memory.
Context (q : Quota) (Hq : quota_ok q).

(** The store against what was admitted: [g] holds the units and the period of
    each key ever charged. *)
Record counts_ok (now : Q) (s : MemoryQuotaStore) (g : gmap (pystr * Z) Q) : Prop := {
  c_quota : _quota s = Some q;
  c_dom : dom (_counts s) = dom (_periods s);
  c_entries : 1 <= _max_entries s;
  c_held : forall who index c, g !! (who, index) = Some c -> index_at q now <= index ->
    exists c', _counts s !! counter_key q who index = Some c' /\ (c' == c)%Q;
  c_seen : forall key seen, _periods s !! key = Some seen ->
    seen <= index_at q now /\ exists who index, key = counter_key q who index /\ index <= seen /\ is_Some (g !! (who, index));
  c_within : map_Forall (fun _ c => (c <= q_limit q)%Q) g }.

Lemma counts_later now later s g : (now <= later)%Q -> counts_ok now s g -> counts_ok later s g.
Proof.
  intros Ht []. pose proof (index_mono q Hq now later Ht). split; try done.
  - intros who index c Hc Hi. eapply c_held0; [done|lia].
  - intros key seen Hs. destruct (c_seen0 key seen Hs) as [? ?]. split; [lia|done].
Qed.

(** Dropping the counters of past periods. *)
Lemma drop_stale_ok now s g : counts_ok now s g ->
  exists s', drop_stale (index_at q now) s = Ok s' /\ counts_ok now s' g /\ _counts s' ⊆ _counts s.
Proof.
  intros []. unfold drop_stale.
  set (stale := filter (fun e : pystr * Z => e.2 <> index_at q now) (_periods s)).
  assert (dom stale ⊆ dom (_counts s)) as Hsub by (rewrite c_dom0; apply dom_filter_subseteq).
  rewrite bool_decide_eq_true_2 by done. eexists. split; [reflexivity|].
  assert (forall key, key ∈ dom stale <-> exists seen, _periods s !! key = Some seen /\ seen <> index_at q now) as Hst.
  { intros key. rewrite elem_of_dom. unfold stale, is_Some. setoid_rewrite map_lookup_filter_Some. done. }
  split; [|cbn; apply map_filter_subseteq].
  split; cbn; try done.
  - apply set_eq. intros key. rewrite !elem_of_dom. unfold is_Some. setoid_rewrite map_lookup_filter_Some. cbn.
    split.
    + intros (c & Hc & Hn). assert (key ∈ dom (_periods s)) as Hk by (rewrite <- c_dom0; apply elem_of_dom; by exists c).
      apply elem_of_dom in Hk as [seen Hseen]. exists seen. split; [done|].
      destruct (decide (seen = index_at q now)); [done|]. destruct Hn. apply Hst. by exists seen.
    + intros (seen & Hs & ->). assert (key ∈ dom (_counts s)) as Hk by (rewrite c_dom0; apply elem_of_dom; by exists (index_at q now)).
      apply elem_of_dom in Hk as [c Hc]. exists c. split; [done|]. rewrite Hst. intros (seen & Hs' & Hne). rewrite Hs in Hs'. injection Hs' as <-. by apply Hne.
  - intros who index c Hc Hi. destruct (c_held0 who index c Hc Hi) as (c' & Hc' & E). exists c'. split; [|done].
    apply map_lookup_filter_Some. split; [done|]. cbn. rewrite Hst. intros (seen & Hs & Hne).
    destruct (c_seen0 _ seen Hs) as [Hle (who' & index' & Ek & Hi' & _)].
    apply counter_key_injective in Ek as [-> ->]. lia.
  - intros key seen Hs. apply map_lookup_filter_Some in Hs as [Hs _]. by apply c_seen0.
Qed.

Lemma make_room_ok now s g : counts_ok now s g ->
  exists room s', make_room (index_at q now) s = Ok (room, s') /\ counts_ok now s' g /\ _counts s' ⊆ _counts s /\
    (room = true -> memory_tracked s' < _max_entries s').
Proof.
  intros Hs. unfold make_room. case_bool_decide; [by exists false, s|].
  destruct (drop_stale_ok now s g Hs) as (s' & -> & Hs' & Hsub). cbn [res_bind].
  destruct (_max_entries s' <=? memory_tracked s') eqn:E.
  - eexists false, _. split_and!; [reflexivity| |done|done]. by destruct Hs'.
  - exists true, s'. apply Z.leb_gt in E. by split_and!.
Qed.

(** Charging one request. *)
Lemma try_spend_ok from s g who wall_key wall : counts_ok from s g -> (from <= wall_key)%Q -> (wall_key <= wall)%Q ->
  let index := index_at q wall_key in
  exists r s', try_spend (counter_key q who index) wall s = Ok (r, s') /\ (0 <= r)%Q /\
    if Qeq_bool r 0 then counts_ok wall s' (<[(who, index) := (default 0 (g !! (who, index)) + q_cost q)%Q]> g)
    else counts_ok wall s' g.
Proof.
  intros Hs Hk Hw index. assert (counts_ok wall_key s g) as Hsk by (by eapply counts_later).
  set (key := counter_key q who index).
  assert (default 0 (_counts s !! key) == default 0 (g !! (who, index)))%Q as Eused.
  { destruct (g !! (who, index)) as [c|] eqn:Hg.
    - destruct (c_held _ _ _ Hsk who index c Hg) as (c' & Hc' & E); [done|]. unfold key. rewrite Hc'. done.
    - destruct (_counts s !! key) as [c|] eqn:Hc; [|done]. assert (key ∈ dom (_periods s)) as Hin
        by (rewrite <- (c_dom _ _ _ Hsk); apply elem_of_dom; by exists c).
      apply elem_of_dom in Hin as [seen Hseen]. destruct (c_seen _ _ _ Hsk key seen Hseen) as (_ & who' & index' & Ek & _ & [c' Hc']).
      apply counter_key_injective in Ek as [<- <-]. congruence. }
  unfold try_spend. rewrite (c_quota _ _ _ Hs). cbn [_quota_or_raise res_bind].
  pose proof (window_reset q Hq wall) as Hwin. destruct (window q wall) as [period reset]. destruct Hwin as (-> & Hr0 & _ & _).
  assert (Qeq_bool reset 0 = false) as Er.
  { apply not_true_iff_false. rewrite Qeq_bool_iff. lra. }
  destruct (qlt (q_limit q) (default 0%Q (_counts s !! key) + q_cost q)%Q) eqn:Hlim.
  { exists reset, s. rewrite Er. split_and!; [done|lra|by eapply counts_later]. }
  apply qlt_false in Hlim. assert (counts_ok wall s g) as Hsw by (by eapply counts_later).
  assert (exists room s', (if bool_decide (key ∉ dom (_counts s)) && (_max_entries s <=? memory_tracked s)
      then make_room (index_at q wall) s else Ok (true, s)) = Ok (room, s') /\ counts_ok wall s' g) as (room & s' & -> & Hs').
  { destruct (_ && _); [|by exists true, s]. destruct (make_room_ok wall s g Hsw) as (room & s' & E & ? & _). by exists room, s'. }
  cbn [res_bind]. destruct room; [|exists reset, s'; rewrite Er; split_and!; [done|lra|done]].
  exists 0%Q. eexists. split_and!; [reflexivity|lra|]. change (Qeq_bool 0 0) with true. cbv iota.
  pose proof (index_mono q Hq wall_key wall Hw) as Him. fold index in Him.
  destruct Hs'. split; cbn; try done.
  - rewrite !dom_insert_L. by rewrite c_dom0.
  - intros who' index' c Hc Hi. apply lookup_insert_Some in Hc as [[[= <- <-] <-]|[Hne Hc]].
    + exists (default 0 (_counts s !! key) + q_cost q)%Q. split; [apply lookup_insert_eq|by rewrite Eused].
    + destruct (c_held0 who' index' c Hc Hi) as (c' & Hc' & E). exists c'. split; [|done].
      rewrite lookup_insert_ne; [done|]. intros Ek. apply counter_key_injective in Ek as [-> ->]. done.
  - intros key' seen Hs2. apply lookup_insert_Some in Hs2 as [[<- <-]|[Hne Hs2]].
    + destruct (_periods s' !! key) as [seen|] eqn:Hold; cbn [default].
      * destruct (c_seen0 key seen Hold) as (Hle & who' & index' & Ek & Hi & Hg). split; [done|]. exists who, index.
        apply counter_key_injective in Ek as [<- <-]. split_and!; [done|done|]. rewrite lookup_insert_eq. by eexists.
      * split; [done|]. exists who, index. rewrite lookup_insert_eq. split_and!; [done|done|by eexists].
    + destruct (c_seen0 key' seen Hs2) as (Hle & who' & index' & Ek & Hi & Hg). split; [done|]. exists who', index'.
      split_and!; [done|done|]. destruct (decide ((who, index) = (who', index'))) as [->|Hn]; [rewrite lookup_insert_eq; by eexists|].
      by rewrite lookup_insert_ne.
  - apply map_Forall_insert_2; [|done]. rewrite <- Eused. done.
Qed.

Lemma meter_run_within who index : forall l from m g, quota m = q -> counts_ok from (_store m) g -> wall_order from l ->
  (default 0 (g !! (who, index)) + charged q who index l (meter_run l m) <= q_limit q)%Q /\ Forall is_Some (meter_run l m).
Proof.
  induction l as [|a l IH]; intros from m g Hm Hs Hord; cbn [meter_run].
  - split; [|constructor]. cbn. pose proof (cost_limit _ Hq). pose proof (cost_pos _ Hq). destruct (g !! (who, index)) as [c|] eqn:Hg; cbn; [|lra].
    pose proof (c_within _ _ _ Hs (who, index) c Hg) as Hc. cbn in Hc. lra.
  - destruct Hord as (H1 & H2 & Hord). unfold spend_sync, meter_key. destruct (a_who a) as [i|] eqn:Hi.
    + rewrite Hm. change (q_name q ++ bs ":" ++ identity_key i ++ bs ":" ++ str_of_Z (window q (a_key a)).1)
        with (counter_key q (identity_key i) (index_at q (a_key a))).
      destruct (try_spend_ok from (_store m) g (identity_key i) (a_key a) (a_spend a) Hs H1 H2) as (r & s' & E & Hr & Hs').
      change (spend (counter_key q (identity_key i) (index_at q (a_key a))) (a_spend a) (_store m))
        with (try_spend (counter_key q (identity_key i) (index_at q (a_key a))) (a_spend a) (_store m)).
      rewrite E. cbn [res_bind]. destruct (Qeq_bool r 0) eqn:Er.
      * rewrite bool_decide_eq_true_2 by done. cbn [charged]. rewrite Hi. cbn [fmap option_fmap option_map].
        specialize (IH (a_spend a) (mk_meter q s' (refused m)) _ eq_refl Hs' Hord).
        case_bool_decide as Hc.
        -- destruct Hc as [[= <-] <-]. rewrite lookup_insert_eq in IH. cbn [default id] in IH.
           destruct IH as [IH ?]. split; [lra|by constructor].
        -- rewrite lookup_insert_ne in IH; [|intros [= <- <-]; by destruct Hc]. destruct IH as [IH ?]. split; [lra|by constructor].
      * assert (qlt r 0 = false) as -> by (by apply qlt_false). cbn [refusal fst snd].
        rewrite bool_decide_eq_false_2 by done. cbn [charged].
        match goal with |- context [meter_run l ?m1] => destruct (IH (a_spend a) m1 g) as [? ?] end; try done. split; [done|by constructor].
    + rewrite bool_decide_eq_true_2 by done. cbn [charged]. rewrite Hi. cbn [fmap option_fmap option_map].
      rewrite bool_decide_eq_false_2 by (by intros [? _]).
      destruct (IH (a_spend a) m g Hm) as [? ?]; [|done|split; [done|by constructor]]. eapply counts_later; [|done]. lra.
Qed.
End memory.

(** A registry over the in-memory store. *)
Definition memory_quotas (max_entries : Z) : Quotas MemoryQuotaStore := mk_quotas [] (memory_init max_entries) None.

Lemma declared_ok `{UnicodeData} name limit period cost entries r m : 
  declare name limit period cost (memory_quotas entries) = Ok r -> meter name r = Ok m ->
  quota m = mk_quota name limit period cost /\ quota_ok (quota m) /\ forall from, counts_ok (quota m) from (_store m) ∅.
Proof.
  unfold declare, memory_quotas. cbn [_meters _store_factory dmem dget]. 
  destruct (__post_init__ _) as [q|] eqn:Hq; [|done]. destruct (post_init_ok _ q Hq) as [Hok ->].
  unfold memory_init. destruct (entries <=? 0) eqn:He; [done|]. apply Z.leb_gt in He. cbn [res_bind configure memory_quota_store].
  unfold memory_configure. cbn [_quota res_bind]. intros [= <-]. unfold meter. cbn [_meters dset dget].
  rewrite decide_True by done. intros [= <-]. cbn [quota _store]. split_and!; [done|done|].
  intros from. split; cbn; try done; try lia; intros *; by rewrite lookup_empty.
Qed.

(** C30. A declared quota in memory is never overspent: while the clock does not
    go back, the units that the requests of one identity are admitted in one
    period stay within the limit, whatever other callers ask, however often the
    store reaches its ceiling and drops the counters of past periods, and however
    the two readings of the clock fall around the end of a period; and no request
    fails. *)
Theorem quota_never_overspent `{UnicodeData} name limit period cost entries r m from l who index :
  declare name limit period cost (memory_quotas entries) = Ok r -> meter name r = Ok m -> wall_order from l ->
  (charged (quota m) who index l (meter_run l m) <= limit)%Q /\ Forall is_Some (meter_run l m).
Proof.
  intros Hd Hm Hord. destruct (declared_ok name limit period cost entries r m Hd Hm) as (Eq & Hok & Hc).
  destruct (meter_run_within (quota m) Hok who index l from m ∅ eq_refl (Hc from) Hord) as [H1 H2]. split; [|done].
  rewrite lookup_empty in H1. cbn [default] in H1. rewrite Eq in H1 at 2. cbn in H1. lra.
Qed.

(** ** The shared table *)

(** Spends of any workers: a composed key and the worker's clock. *)
Fixpoint postgres_run (l : list (pystr * Q)) (s : PostgresQuotaStore) : list (res quota_error Q) :=
  match l with
  | [] => []
  | (key, now) :: l =>
      match postgres_spend key now s with
      | Err e => Err e :: postgres_run l s
      | Ok (r, s) => Ok r :: postgres_run l s
      end
  end.

(** Units admitted to [base] while the database's clock is in [index]. *)
Fixpoint table_charged (q : Quota) (base : pystr) (index : Z) (clock : nat -> Q) (reads : nat) (l : list (pystr * Q))
    (answers : list (res quota_error Q)) : Q :=
  match l, answers with
  | (key, _) :: l, Ok r :: answers =>
      let rest := table_charged q base index clock (S reads) l answers in
      if bool_decide (before_last_colon key = Some base /\ index_at q (clock reads) = index) && Qeq_bool r 0
      then (q_cost q + rest)%Q else rest
  | _ :: l, Err _ :: answers => table_charged q base index clock reads l answers
  | _, _ => 0%Q
  end.

Definition counter (base : pystr) (index : Z) : pystr := base ++ bs ":" ++ str_of_Z index.

Lemma counter_injective a i b j : counter a i = counter b j -> a = b /\ i = j.
Proof.
  unfold counter. change (bs ":") with [58]. cbn [app].
  intros [-> E%str_of_Z_injective]%split_last_colon; [done|apply str_of_Z_no_colon..].
Qed.

Lemma postgres_run_within q (Hq : quota_ok q) base index : forall l s, pg_quota s = Some q ->
  map_Forall (fun _ row => (row.1 <= q_limit q)%Q) (pg_rows s) ->
  (default 0 (fst <$> pg_rows s !! counter base index) +
     table_charged q base index (pg_clock s) (pg_reads s) l (postgres_run l s) <= q_limit q)%Q.
Proof.
  induction l as [|[key now] l IH]; intros s Hs Hrows; cbn [postgres_run].
  - cbn. pose proof (cost_limit _ Hq). pose proof (cost_pos _ Hq).
    destruct (pg_rows s !! counter base index) as [[u b]|] eqn:E; cbn; [|lra]. pose proof (Hrows _ _ E) as Hr. cbn in Hr. lra.
  - unfold postgres_spend. rewrite Hs. cbn [_quota_or_raise res_bind].
    pose proof (window_reset q Hq now) as Hwin. destruct (window q now) as [p reset]. destruct Hwin as (_ & Hr0 & _ & _).
    assert (Qeq_bool reset 0 = false) as Er by (apply not_true_iff_false; rewrite Qeq_bool_iff; lra).
    destruct (before_last_colon key) as [base'|] eqn:Hb; [|by apply IH].
    unfold spend_statement. change (period_key base' (q_period q) (pg_clock s (pg_reads s)))
      with (counter base' (index_at q (pg_clock s (pg_reads s)))).
    set (index' := index_at q (pg_clock s (pg_reads s))).
    set (row := match pg_rows s !! counter base' index' with
                | Some (used, _) => ((used + (if qle (used + q_cost q) (q_limit q) then q_cost q else 0))%Q, qle (used + q_cost q) (q_limit q))
                | None => (q_cost q, true) end).
    assert ((row.1 == default 0 (fst <$> pg_rows s !! counter base' index') + (if row.2 then q_cost q else 0)) /\
            row.1 <= q_limit q)%Q as [Erow Hrow].
    { unfold row. destruct (pg_rows s !! counter base' index') as [[u b]|] eqn:E; cbn.
      - pose proof (Hrows _ _ E) as Hr. cbn in Hr. destruct (qle (u + q_cost q) (q_limit q)) eqn:Hl; [apply qle_true in Hl; lra|].
        split; lra.
      - pose proof (cost_limit _ Hq). split; lra. }
    clearbody row. destruct row as [u admitted]. cbn [fst snd] in *. cbn [table_charged]. rewrite Hb.
    specialize (IH (mk_postgres (<[counter base' index' := (u, admitted)]> (pg_rows s)) (pg_clock s) (S (pg_reads s)) (Some q)) eq_refl).
    cbn [pg_rows pg_clock pg_reads] in IH. specialize (IH ltac:(by apply map_Forall_insert_2)).
    change (index_at q (pg_clock s (pg_reads s))) with index'.
    destruct (decide (counter base' index' = counter base index)) as [Ek|Hne].
    + rewrite Ek in *. rewrite lookup_insert_eq in IH. cbn [fmap option_fmap option_map default id fst] in IH.
      apply counter_injective in Ek as [-> Ei]. rewrite bool_decide_eq_true_2 by done. cbn [andb].
      destruct admitted; [change (Qeq_bool 0 0) with true|rewrite Er]; cbv iota; lra.
    + rewrite lookup_insert_ne in IH by done. rewrite bool_decide_eq_false_2; [done|].
      intros [[= ->] Ei]. apply Hne. by rewrite Ei.
Qed.

(** The shared table is never overspent either, with no assumption on any
    clock: whatever keys the workers compose and whatever their clocks say, the
    units admitted to one principal while the database's clock is in one period
    stay within the limit. *)
Theorem shared_quota_never_overspent `{UnicodeData} q s s' base index l :
  __post_init__ q = Ok q -> postgres_configure q s = Ok s' -> pg_rows s = ∅ ->
  (table_charged q base index (pg_clock s') (pg_reads s') l (postgres_run l s') <= q_limit q)%Q.
Proof.
  intros Hp Hc Hr. apply post_init_ok in Hp as [Hok _]. unfold postgres_configure in Hc. destruct (pg_quota s); [done|].
  injection Hc as <-. pose proof (postgres_run_within q Hok base index l
    (mk_postgres (pg_rows s) (pg_clock s) (pg_reads s) (Some q)) eq_refl) as H1. cbn [pg_rows pg_clock pg_reads] in *.
  rewrite Hr in *. specialize (H1 (map_Forall_empty _)). rewrite lookup_empty in H1. cbn [fmap option_fmap option_map default id] in H1. lra.
Qed.

(** ** A clock that goes back *)

Definition caller (name : Z) : Identity := mk_identity (bs "User") [name] [] [] [] None.

Definition one_each : QuotaMeter MemoryQuotaStore :=
  mk_meter (mk_quota (bs "api") 1 10 1) (mk_memory ∅ ∅ None 1 (Some (mk_quota (bs "api") 1 10 1))) 0.

Definition at_time (name : Z) (t : Q) : ask := mk_ask (Some (caller name)) t t.

(** When the clock steps back over the end of a period, the capacity miss of
    another caller drops the counter of the later period, and its caller is
    admitted the limit again when the clock returns. *)
Lemma step_back_overspends :
  let l := [at_time 97 15; at_time 98 5; at_time 97 15] in
  meter_run l one_each = [Some true; Some true; Some true] /\
  (charged (quota one_each) (identity_key (caller 97)) 1 l (meter_run l one_each) == 2)%Q.
Proof. split; vm_compute; reflexivity. Qed.

(** ** Witnesses *)

Definition day_quota : Quota := mk_quota (bs "api_calls") 2 86400 1.

Definition day_meter : QuotaMeter MemoryQuotaStore :=
  mk_meter day_quota (mk_memory ∅ ∅ None 1 (Some day_quota)) 0.

Definition day_asks : list ask := [at_time 97 0; at_time 98 1; at_time 97 2; at_time 97 3; at_time 98 86400; at_time 97 86401].

(** The second caller finds the store full, and has room in the next period. *)
Example day_answers : meter_run day_asks day_meter = [Some true; Some false; Some true; Some false; Some true; Some false].
Proof. vm_compute. reflexivity. Qed.

Lemma quota_never_overspent_witness :
  (charged (quota day_meter) (identity_key (caller 97)) 0 day_asks (meter_run day_asks day_meter) <= 2)%Q /\
  Forall is_Some (meter_run day_asks day_meter).
Proof.
  apply (quota_never_overspent (bs "api_calls") 2 86400 1 1
    (mk_quotas [(bs "api_calls", day_meter)] (memory_init 1) None) day_meter 0 day_asks (identity_key (caller 97)) 0).
  - vm_compute. reflexivity.
  - vm_compute. reflexivity.
  - cbn. repeat split; apply qle_true; reflexivity.
Defined.

Lemma shared_quota_never_overspent_witness :
  (table_charged day_quota (bs "api_calls:u") 0 (fun n => inject_Z (Z.of_nat n)) 0
     (replicate 4 (bs "api_calls:u:7", 0%Q))
     (postgres_run (replicate 4 (bs "api_calls:u:7", 0%Q)) (mk_postgres ∅ (fun n => inject_Z (Z.of_nat n)) 0 (Some day_quota))) <= 2)%Q.
Proof.
  apply (shared_quota_never_overspent day_quota (mk_postgres ∅ (fun n => inject_Z (Z.of_nat n)) 0 None)
    (mk_postgres ∅ (fun n => inject_Z (Z.of_nat n)) 0 (Some day_quota)) (bs "api_calls:u") 0); reflexivity.
Defined.
