(* ===== verification/RateLimit.v ===== *)
(** * Rate limits: [policy/ratelimit.py]

    The policy around the token buckets: the in-memory store over
    [TokenBucket], the shared table as the change its statement makes to a row,
    the stage [_before_local_sync] with the quota behind it, and the tiers.
    Clocks are arguments: the monotonic one in seconds, and the two readings of
    the wall clock a quota takes. *)

From stdpp Require Import base sets strings numbers list gmap.
From Stdlib Require Import ZArith QArith Qround Lia.
From S2P Require Import Prelude PyCollections PyText CedarAuthorizer TokenBucket Quota.
#[local] Open Scope Z_scope.

(** ** The store's interface *)

Class RateLimitStore (St : Type) : Type := {
  rl_configure : Q -> Q -> St -> res quota_error St;
  rl_acquire : pystr -> Q -> Q -> St -> res quota_error (Q * St);
  (** [try_acquire], where the store offers it. *)
  rl_try_acquire : option (pystr -> Q -> Q -> St -> res quota_error (Q * St)) }.

(** ** In memory *)

Record MemoryRateLimitStore : Type := mk_limits {
  _bucket : option (TokenBucket pystr);
  rl_max_entries : Z;
  _policy : option (Q * Q) }.

Definition limits_init (max_entries : Z) : res quota_error MemoryRateLimitStore :=
  if max_entries <=? 0 then Err ValueError else Ok (mk_limits None max_entries None).

Definition of_bucket {A} (r : res bucket_error A) : res quota_error A :=
  match r with Ok a => Ok a | Err e => Err (BucketError e) end.

Definition limits_configure (capacity rate : Q) (s : MemoryRateLimitStore) : res quota_error MemoryRateLimitStore :=
  match _policy s with
  | Some _ => Err ValueError
  | None =>
      let! t := of_bucket (token_bucket_new capacity rate (rl_max_entries s)) in
      Ok (mk_limits (Some t) (rl_max_entries s) (Some (capacity, rate)))
  end.

Definition limits_tracked (s : MemoryRateLimitStore) : Z :=
  match _bucket s with None => 0 | Some t => token_bucket_get_tracked t end.

Section memory.
Context (hash : pystr -> Z).

Definition try_acquire (key : pystr) (cost now : Q) (s : MemoryRateLimitStore) : res quota_error (Q * MemoryRateLimitStore) :=
  match _bucket s with
  | None => Err RuntimeError
  | Some t =>
      let! (wait, t) := of_bucket (token_bucket_acquire hash key now cost t) in
      Ok (wait, mk_limits (Some t) (rl_max_entries s) (_policy s))
  end.

Definition limits_clear (s : MemoryRateLimitStore) : MemoryRateLimitStore :=
  mk_limits (token_bucket_clear <$> _bucket s) (rl_max_entries s) (_policy s).

#[export] Instance memory_limits : RateLimitStore MemoryRateLimitStore := {
  rl_configure := limits_configure;
  rl_acquire := try_acquire;
  rl_try_acquire := Some try_acquire }.
End memory.

(** ** In a table

    Every [clock_timestamp()] of the statement reads the clock again: once for
    the row it proposes, and, when the key exists, for the refill, for the
    condition of the [CASE], for [allowed] and for [updated]. *)

Record bucket_row : Type := mk_row { row_tokens : Q; row_allowed : bool; row_updated : Q }.

Record PostgresRateLimitStore : Type := mk_shared {
  rl_rows : gmap pystr bucket_row;
  rl_clock : nat -> Q;
  rl_reads : nat;
  _capacity : Q;
  _rate : Q;
  rl_policy : option (Q * Q) }.

Definition refill (capacity rate clock : Q) (row : bucket_row) : Q :=
  let owed := (row_tokens row + (clock - row_updated row) * rate)%Q in
  if qlt owed capacity then owed else capacity.

Definition acquire_statement (key : pystr) (capacity cost rate : Q) (c0 c1 c2 c3 c4 : Q) (rows : gmap pystr bucket_row) :
    bucket_row * gmap pystr bucket_row :=
  let row :=
    match rows !! key with
    | None => mk_row (capacity - cost) true c0
    | Some row =>
        mk_row (refill capacity rate c1 row - (if qle cost (refill capacity rate c2 row) then cost else 0))
          (qle cost (refill capacity rate c3 row)) c4
    end in
  (row, <[key := row]> rows).

Definition shared_configure (capacity rate : Q) (s : PostgresRateLimitStore) : res quota_error PostgresRateLimitStore :=
  match rl_policy s with
  | Some _ => Err ValueError
  | None => Ok (mk_shared (rl_rows s) (rl_clock s) (rl_reads s) capacity rate (Some (capacity, rate)))
  end.

(** [now] is ignored. *)
Definition shared_acquire (key : pystr) (cost now : Q) (s : PostgresRateLimitStore) : res quota_error (Q * PostgresRateLimitStore) :=
  let at_ i := rl_clock s (rl_reads s + i)%nat in
  let '(row, rows) := acquire_statement key (_capacity s) cost (_rate s) (at_ 0%nat) (at_ 1%nat) (at_ 2%nat) (at_ 3%nat) (at_ 4%nat)
                        (rl_rows s) in
  Ok (if row_allowed row then 0%Q else ((cost - row_tokens row) / _rate s)%Q,
      mk_shared rows (rl_clock s) (rl_reads s + 5) (_capacity s) (_rate s) (rl_policy s)).

#[export] Instance shared_limits : RateLimitStore PostgresRateLimitStore := {
  rl_configure := shared_configure;
  rl_acquire := shared_acquire;
  rl_try_acquire := None }.

(** ** Keys *)

(** What a limiter reads of a request. *)
Record Request : Type := mk_request { rq_identity : option Identity; rq_client : option pystr }.

Definition principal_key (r : Request) : option pystr :=
  match rq_identity r with
  | Some i => Some (identity_key i)
  | None => match rq_client r with Some host => Some (bs "ip:" ++ host) | None => None end
  end.

Definition _client_key (r : Request) : option pystr := rq_client r.

(** The key function: [key is principal_key] is asked of it. *)
Inductive key_function : Type := ClientKey | PrincipalKey | CustomKey (f : Request -> option pystr).

Definition apply_key (k : key_function) : Request -> option pystr :=
  match k with ClientKey => _client_key | PrincipalKey => principal_key | CustomKey f => f end.

Definition UNKEYED : pystr := 0 :: bs "unkeyed".

(** ** The policy *)

(** [float(n)], without rounding: the [OverflowError] of an [int] too large. *)
Definition float_of_int (n : Z) : option Q :=
  if n <? 2 ^ 1024 - 2 ^ 970 then Some (inject_Z n) else None.

Section policy.
Context {St Sq : Type} `{RateLimitStore St} `{QuotaStore Sq}.
Abbreviation meter := (QuotaMeter Sq).

Record RateLimitPolicy : Type := mk_policy {
  _policy_headers : list (pystr * pystr);
  _store : St;
  _cost : Q;
  _key : key_function;
  throttled : Z;
  _exempt : option (Request -> bool) }.

(** [RateLimitPolicy.__init__]; whether a quota is given is [quota]. *)
Definition policy_init (limit : Z) (win : Q) (burst : option Z) (cost : Q) (store : St) (key : option key_function)
    (exempt : option (Request -> bool)) (quota route_scoped : bool) : res quota_error RateLimitPolicy :=
  if limit <=? 0 then Err ValueError
  else match float_of_int limit with
  | None => Err ValueError
  | Some numeric_limit =>
    if qle win 0 then Err ValueError
    else if qle cost 0 then Err ValueError
    else
      let selected_burst := default limit burst in
      if selected_burst <=? 0 then Err ValueError
      else match float_of_int selected_burst with
      | None => Err ValueError
      | Some capacity =>
        if qlt capacity cost then Err ValueError
        else if (match key with Some PrincipalKey => true | _ => false end) && negb route_scoped then Err ValueError
        else if quota && negb route_scoped then Err ValueError
        else
          let! selected := rl_configure capacity (numeric_limit / win) store in
          Ok (mk_policy [(bs "x-ratelimit-limit", str_of_Z limit);
                         (bs "ratelimit-policy", str_of_Z limit ++ bs ";w=" ++ format_g win)]
                selected cost (default ClientKey key) 0 exempt)
      end
  end.

Definition with_store (s : St) (p : RateLimitPolicy) : RateLimitPolicy :=
  mk_policy (_policy_headers p) s (_cost p) (_key p) (throttled p) (_exempt p).

Definition _identify (p : RateLimitPolicy) (r : Request) : option pystr :=
  if match _exempt p with Some f => f r | None => false end then None
  else match apply_key (_key p) r with
       | Some [] | None => Some UNKEYED
       | Some k => Some k
       end.

Definition _limited (p : RateLimitPolicy) (retry_after : Q) : Refusal * RateLimitPolicy :=
  (mk_refusal 429 (bs "Too Many Requests") (bs "Rate limit exceeded")
     ((bs "retry-after", str_of_Z (whole_seconds retry_after)) :: _policy_headers p ++ [(bs "x-ratelimit-remaining", bs "0")]),
   mk_policy (_policy_headers p) (_store p) (_cost p) (_key p) (throttled p + 1) (_exempt p)).

Definition admit_key (p : RateLimitPolicy) (key : pystr) (now : Q) : res quota_error (option Refusal * RateLimitPolicy) :=
  if bool_decide (key = []) then Err ValueError
  else
    let acquire := default rl_acquire rl_try_acquire in
    let! (retry_after, s) := acquire key (_cost p) now (_store p) in
    let p := with_store s p in
    if Qeq_bool retry_after 0 then Ok (None, p)
    else if qlt retry_after 0 then Err RuntimeError
    else let '(r, p) := _limited p retry_after in Ok (Some r, p).

(** A stage: the answer, the policy and the quota it meters. *)
Definition answer : Type := option Refusal * RateLimitPolicy * option meter.

(** The readings of the clocks: monotonic, and the wall clock twice. *)
Record clocks : Type := mk_clocks { monotonic : Q; wall_key : Q; wall_spend : Q }.

Definition spend_quota (p : RateLimitPolicy) (m : option meter) (r : Request) (c : clocks) : res quota_error answer :=
  match m with
  | None => Ok (None, p, None)
  | Some m =>
      let! (refused, m) := spend_sync m (rq_identity r) (wall_key c) (wall_spend c) in
      Ok (refused, p, Some m)
  end.

Definition staged (acquire : pystr -> Q -> Q -> St -> res quota_error (Q * St)) (p : RateLimitPolicy) (m : option meter)
    (r : Request) (c : clocks) : res quota_error answer :=
  match _identify p r with
  | None => Ok (None, p, m)
  | Some key =>
      let! (retry_after, s) := acquire key (_cost p) (monotonic c) (_store p) in
      let p := with_store s p in
      if negb (Qeq_bool retry_after 0) then
        if qlt retry_after 0 then Err RuntimeError
        else let '(refused, p) := _limited p retry_after in Ok (Some refused, p, m)
      else spend_quota p m r c
  end.

Definition _before_local_sync (p : RateLimitPolicy) (m : option meter) (r : Request) (c : clocks) : res quota_error answer :=
  match rl_try_acquire with
  | Some try => staged try p m r c
  | None => Err RuntimeError
  end.

Definition _before_remote (p : RateLimitPolicy) (m : option meter) (r : Request) (c : clocks) : res quota_error answer :=
  staged rl_acquire p m r c.

(** The stage chosen when the policy is built. *)
Definition stage (p : RateLimitPolicy) (m : option meter) (r : Request) (c : clocks) : res quota_error answer :=
  let awaiting := match rl_try_acquire with None => true | Some _ => match m with Some m => awaits m | None => false end end in
  if awaiting then _before_remote p m r c else _before_local_sync p m r c.

(** ** Tiers *)

Record TieredRateLimitPolicy : Type := mk_tiered {
  _dispatch : list (option pystr * RateLimitPolicy);
  _tier_rates : list (pystr * Q);
  _tier : option (Request -> option pystr);
  _meter : option meter }.

Fixpoint build_tiers (l : list (option pystr * (Z * Q))) (cost : Q) (exempt : option (Request -> bool))
    (build : res quota_error St) (key : key_function) (quota : bool) (done : list (option pystr * RateLimitPolicy)) :
    res quota_error (list (option pystr * RateLimitPolicy)) :=
  match l with
  | [] => Ok done
  | (name, (limit, win)) :: l =>
      let! store := build in
      let! child := policy_init limit win None cost store (Some key) exempt quota true in
      build_tiers l cost exempt build key quota (dset done name child)
  end.

(** [{**tiers, None: default}]. *)
Definition all_tiers (tiers : list (pystr * (Z * Q))) (default : Z * Q) : list (option pystr * (Z * Q)) :=
  map (fun e => (Some e.1, e.2)) tiers ++ [(None, default)].

Definition tiered_init (tiers : list (pystr * (Z * Q))) (default : Z * Q) (tier : option (Request -> option pystr))
    (key : key_function) (cost : Q) (exempt : option (Request -> bool)) (build : res quota_error St) (m : option meter) :
    res quota_error TieredRateLimitPolicy :=
  if bool_decide (tiers = []) then Err ValueError
  else
    let! children := build_tiers (all_tiers tiers default) cost exempt build key (bool_decide (is_Some m)) [] in
    Ok (mk_tiered children (map (fun e => (e.1, (inject_Z e.2.1 / e.2.2)%Q)) tiers) tier m).

(** The roles in the order the set is iterated. *)
Fixpoint most_generous (rates : list (pystr * Q)) (roles : list pystr) (selected : option pystr) (selected_rate : Q) :
    option pystr :=
  match roles with
  | [] => selected
  | role :: roles =>
      match dget rates role with
      | Some rate => if qlt selected_rate rate then most_generous rates roles (Some role) rate
                     else most_generous rates roles selected selected_rate
      | None => most_generous rates roles selected selected_rate
      end
  end.

Definition _tier_from_roles (t : TieredRateLimitPolicy) (r : Request) : option pystr :=
  match rq_identity r with
  | None => None
  | Some i => most_generous (_tier_rates t) (authority_roles i) None (-1)
  end.

Definition tier_name (t : TieredRateLimitPolicy) (r : Request) : option pystr :=
  match _tier t with Some f => f r | None => _tier_from_roles t r end.

(** The name under which the request is charged. *)
Definition tier_of (t : TieredRateLimitPolicy) (r : Request) : option pystr :=
  if dmem (_dispatch t) (tier_name t r) then tier_name t r else None.

Definition _ingress (t : TieredRateLimitPolicy) (r : Request) (c : clocks) :
    res quota_error (option Refusal * TieredRateLimitPolicy) :=
  match dget (_dispatch t) (tier_of t r) with
  | None => Err KeyMissing
  | Some child =>
      let! (refused, child, m) := stage child (_meter t) r c in
      Ok (refused, mk_tiered (dset (_dispatch t) (tier_of t r) child) (_tier_rates t) (_tier t) m)
  end.

End policy.
Arguments RateLimitPolicy St : clear implicits.
Arguments TieredRateLimitPolicy St Sq : clear implicits.
