(* ===== verification/RateClaims.v ===== *)
(** * The limiter's stage

    [Retry-After] is honest ([retry_after_honoured]); a caller of several tiers
    gets the most generous ([most_generous_tier]); what the shared table's
    statement does when its clock moves ([shared_exact], [shared_free_ride]). *)

From stdpp Require Import base sets strings numbers list gmap.
From Stdlib Require Import ZArith QArith Qround Qminmax Lia Lqa.
From S2P Require Import Prelude PyCollections PyText CedarAuthorizer TokenBucket TokenBucketFacts TokenBucketRefine.
From S2P Require Import TokenBucketClaims Quota RateLimit.
#[local] Open Scope Z_scope.

(** ** The stage over buckets in memory *)

Section local.
Context (hash : pystr -> Z) {Sq : Type} `{QuotaStore Sq}.
Abbreviation policy := (RateLimitPolicy MemoryRateLimitStore).
#[local] Instance limits : RateLimitStore MemoryRateLimitStore | 0 := memory_limits hash.

(** The policy's table, used until [T]. *)
Definition policy_ok (T : Q) (p : policy) : Prop :=
  exists t, _bucket (_store p) = Some t /\ table_ok hash T t /\ (0 < _cost p <= capacity t)%Q.

Lemma policy_init_ok limit win burst cost entries key exempt quota scoped p T :
  policy_init limit win burst cost (mk_limits None entries None) key exempt quota scoped = Ok p -> entries <= 2 ^ 60 ->
  policy_ok T p.
Proof.
  unfold policy_init. destruct (limit <=? 0); [done|]. destruct (float_of_int limit) as [fl|]; [|done].
  destruct (qle win 0); [done|]. destruct (qle cost 0) eqn:Hc; [done|]. destruct (default limit burst <=? 0); [done|].
  destruct (float_of_int (default limit burst)) as [cap|]; [|done]. destruct (qlt cap cost) eqn:Hcap; [done|].
  destruct (_ && negb scoped); [done|]. destruct (quota && _); [done|].
  cbn [rl_configure limits memory_limits]. unfold limits_configure. cbn [_policy rl_max_entries].
  destruct (token_bucket_new cap (fl / win) entries) as [t|] eqn:Ht; [|done]. cbn [of_bucket res_bind]. intros [= <-] He.
  destruct (new_ok hash cap (fl / win) entries t T Ht He) as (Ho & _ & E & _). exists t. cbn. rewrite E.
  apply qle_false in Hc. apply qlt_false in Hcap. done.
Qed.

(** What the stage does to the table, whatever the quota answers. *)
Lemma stage_acquires T p m r c a p' m' : policy_ok T p -> (T <= monotonic c)%Q ->
  _before_local_sync p m r c = Ok (a, p', m') ->
  policy_ok (monotonic c) p' /\ _cost p' = _cost p /\ _key p' = _key p /\ _exempt p' = _exempt p /\
  _policy_headers p' = _policy_headers p.
Proof.
  intros (t & Hb & Ho & Hc) Ht. unfold _before_local_sync, staged. cbn [rl_try_acquire limits memory_limits].
  destruct (_identify p r) as [key|].
  2: { intros [= <- <- <-]. split_and!; [|done..]. exists t. split_and!; [done| |apply Hc..]. by eapply table_ok_later. }
  unfold try_acquire. rewrite Hb. pose proof (acquire_refines hash T (monotonic c) (_cost p) key t Ho Ht) as Ha.
  destruct (token_bucket_acquire hash key (monotonic c) (_cost p) t) as [[w t']|]; [|done]. cbn [of_bucket res_bind].
  destruct Ha as (_ & Ho' & (L1 & _) & _).
  set (p1 := with_store _ p). assert (policy_ok (monotonic c) p1) as Hp1 by (exists t'; by rewrite L1).
  destruct (negb _).
  - destruct (qlt w 0); [done|]. cbn [_limited]. intros [= <- <- <-]. split_and!; [|done..]. exact Hp1.
  - unfold spend_quota. destruct m as [m|]; [|by intros [= <- <- <-]]. intros Hs. apply res_bind_Ok in Hs as ([a1 m1] & _ & [= <- <- <-]).
    by split_and!.
Qed.

(** Requests in the order of the clock. *)
Fixpoint requests_run (l : list (Request * clocks)) (p : policy) (m : option (QuotaMeter Sq)) :
    res quota_error (policy * option (QuotaMeter Sq)) :=
  match l with
  | [] => Ok (p, m)
  | (r, c) :: l => let! (_, p, m) := _before_local_sync p m r c in requests_run l p m
  end.

Fixpoint clock_order (T : Q) (l : list (Request * clocks)) (until : Q) : Prop :=
  match l with
  | [] => (T <= until)%Q
  | (_, c) :: l => (T <= monotonic c)%Q /\ clock_order (monotonic c) l until
  end.

Lemma requests_ok l until : forall T p m p' m', policy_ok T p -> clock_order T l until ->
  requests_run l p m = Ok (p', m') -> policy_ok until p'.
Proof.
  induction l as [|[r c] l IH]; intros T p m p' m' Hp Hord; cbn [requests_run].
  - intros [= <- <-]. destruct Hp as (t & Hb & Ho & Hc). exists t. split; [done|]. split; [by eapply table_ok_later|done].
  - destruct Hord as [Ht Hord]. intros Hr. apply res_bind_Ok in Hr as ([[a p1] m1] & E & Hr).
    destruct (stage_acquires T p m r c a p1 m1 Hp Ht E) as [Hp1 _]. by eapply IH.
Qed.

(** C29. [Retry-After] is honest. Whatever was asked before, a caller whom the
    rate limiter refuses is told a whole number of seconds, at least one, and if
    nothing else is asked meanwhile, the same request after that many seconds
    passes the limiter: its answer is the quota's alone. This holds whether the
    caller was short of tokens or the table full. *)
Theorem retry_after_honoured limit win burst cost entries key exempt quota scoped p0 m0 start l p m r c refused p' m' n c' :
  policy_init limit win burst cost (mk_limits None entries None) key exempt quota scoped = Ok p0 -> entries <= 2 ^ 60 ->
  clock_order start l (monotonic c) -> requests_run l p0 m0 = Ok (p, m) ->
  _before_local_sync p m r c = Ok (Some refused, p', m') -> r_title refused = bs "Too Many Requests" ->
  head (r_headers refused) = Some (bs "retry-after", str_of_Z n) -> (monotonic c + inject_Z n <= monotonic c')%Q ->
  1 <= n /\ exists p'', throttled p'' = throttled p' /\ _before_local_sync p' m' r c' = spend_quota p'' m' r c'.
Proof.
  intros Hinit He Hord Hrun Hs Htitle Hn Hlater.
  pose proof (policy_init_ok limit win burst cost entries key exempt quota scoped p0 start Hinit He) as Hp0.
  pose proof (requests_ok l (monotonic c) start p0 m0 p m Hp0 Hord Hrun) as (t & Hb & Ho & Hc).
  revert Hs. unfold _before_local_sync, staged. cbn [rl_try_acquire limits memory_limits].
  destruct (_identify p r) as [k|] eqn:Hk; [|done]. unfold try_acquire. rewrite Hb.
  destruct (token_bucket_acquire hash k (monotonic c) (_cost p) t) as [[w t']|] eqn:Ha; [|done]. cbn [of_bucket res_bind].
  destruct (Qeq_bool w 0) eqn:Hw; cbn [negb].
  { unfold spend_quota. destruct m as [m|]; [|done]. intros Hsp. apply res_bind_Ok in Hsp as ([a1 m1] & Hq & [= -> _ _]).
    exfalso. unfold spend_sync in Hq. destruct (meter_key m (rq_identity r) (wall_key c)); [|done].
    apply res_bind_Ok in Hq as ([reset s] & _ & Hq). destruct (Qeq_bool reset 0); [done|]. destruct (qlt reset 0); [done|].
    unfold refusal in Hq. injection Hq as <- _. done. }
  destruct (qlt w 0) eqn:Hneg; [done|]. cbn [_limited]. intros [= <- <- <-]. cbn [r_headers head] in Hn.
  injection Hn as Hn. apply str_of_Z_injective in Hn. subst n. apply qlt_false in Hneg.
  assert (0 < w)%Q as Hpos.
  { apply Qle_lteq in Hneg as [|E]; [done|]. symmetry in E. apply Qeq_bool_iff in E. congruence. }
  split; [unfold whole_seconds; lia|].
  assert (w <= inject_Z (whole_seconds w))%Q as Hceil.
  { eapply Qle_trans; [apply Qle_ceiling|]. rewrite <- Zle_Qle. unfold whole_seconds. lia. }
  destruct (wait_then_admitted hash t k (monotonic c) (_cost p) (monotonic c') w t' Ho Ha Hpos) as (w2 & t2 & Ha2 & E2).
  { lra. }
  eexists. split; [|change (_identify _ r) with (_identify p r); rewrite Hk]; [|cbn [with_store _store _bucket _cost];
    rewrite Ha2; cbn [of_bucket res_bind]; rewrite (proj2 (Qeq_bool_iff w2 0) E2); cbn [negb]; reflexivity].
  reflexivity.
Qed.
End local.

(** ** Tiers *)

(** The choice among the roles seen so far. *)
Lemma most_generous_spec rates : forall roles selected selected_rate,
  match selected with Some s => dget rates s = Some selected_rate | None => (selected_rate < 0)%Q end ->
  Forall (fun e => (0 < e.2)%Q) rates ->
  match most_generous rates roles selected selected_rate with
  | Some s => exists rate, dget rates s = Some rate /\ (s ∈ roles \/ selected = Some s) /\ (selected_rate <= rate)%Q /\
      forall role rate', role ∈ roles -> dget rates role = Some rate' -> (rate' <= rate)%Q
  | None => selected = None /\ forall role, role ∈ roles -> dget rates role = None
  end.
Proof.
  induction roles as [|role roles IH]; intros selected selected_rate Hsel Hpos; cbn [most_generous].
  - destruct selected as [s|]; [|split; [done|set_solver]]. exists selected_rate. split_and!; [done|by right|lra|set_solver].
  - destruct (dget rates role) as [rate|] eqn:Hr.
    + destruct (qlt selected_rate rate) eqn:Hq; [apply qlt_true in Hq|apply qlt_false in Hq].
      * specialize (IH (Some role) rate Hr Hpos). destruct (most_generous rates roles (Some role) rate) as [s|]; [|by destruct IH].
        destruct IH as (rate' & Hs & Hin & Hle & Hall). exists rate'. split_and!; [done| |lra|].
        -- left. destruct Hin as [?|[= ->]]; set_solver.
        -- intros role' r' [->|Hin']%elem_of_cons Hr'; [|by eapply Hall]. rewrite Hr in Hr'. by injection Hr' as <-.
      * specialize (IH selected selected_rate Hsel Hpos). destruct (most_generous rates roles selected selected_rate) as [s|].
        -- destruct IH as (rate' & Hs & Hin & Hle & Hall). exists rate'. split_and!; [done| |done|].
           ++ destruct Hin; [left; set_solver|by right].
           ++ intros role' r' [->|Hin']%elem_of_cons Hr'; [|by eapply Hall]. rewrite Hr in Hr'. injection Hr' as <-. lra.
        -- exfalso. destruct IH as [-> _]. apply dget_elem in Hr. pose proof (proj1 (Forall_forall _ _) Hpos _ Hr) as Hrp.
           cbn in Hrp. lra.
    + specialize (IH selected selected_rate Hsel Hpos). destruct (most_generous rates roles selected selected_rate) as [s|].
      * destruct IH as (rate' & Hs & Hin & Hle & Hall). exists rate'. split_and!; [done| |done|].
        -- destruct Hin; [left; set_solver|by right].
        -- intros role' r' [->|Hin']%elem_of_cons Hr'; [congruence|by eapply Hall].
      * destruct IH as [-> Hall]. split; [done|]. intros role' [->|Hin]%elem_of_cons; [done|by apply Hall].
Qed.

Lemma dget_map_value {A B} (f : A -> B) (d : list (pystr * A)) k :
  dget (map (fun e => (e.1, f e.2)) d) k = f <$> dget d k.
Proof. induction d as [|[k' a] d IH]; [done|]. cbn. by destruct (decide (k' = k)). Qed.

Section tiers.
Context {St Sq : Type} `{RateLimitStore St} `{QuotaStore Sq}.
Abbreviation tiered := (TieredRateLimitPolicy St Sq).

Lemma init_positive limit win burst cost (store : St) key exempt quota scoped p :
  policy_init limit win burst cost store key exempt quota scoped = Ok p -> 0 < limit /\ (0 < win)%Q.
Proof.
  unfold policy_init. destruct (limit <=? 0) eqn:Hl; [done|]. destruct (float_of_int limit); [|done].
  destruct (qle win 0) eqn:Hw; [done|]. intros _. apply qle_false in Hw. split; [lia|done].
Qed.

Lemma build_tiers_spec cost exempt build key quota : forall l done children,
  build_tiers (St := St) l cost exempt build key quota done = Ok children ->
  Forall (fun e => 0 < e.2.1 /\ (0 < e.2.2)%Q) l /\
  forall name, name ∈ dkeys children <-> name ∈ dkeys done \/ name ∈ map fst l.
Proof.
  induction l as [|[name [limit win]] l IH]; intros acc children; cbn [build_tiers].
  - intros [= <-]. split; [constructor|]. set_solver.
  - intros Hb. apply res_bind_Ok in Hb as (store & _ & Hb). apply res_bind_Ok in Hb as (child & Hi & Hb).
    apply IH in Hb as [Hf Hk]. split; [constructor; [by eapply init_positive|done]|].
    intros n. rewrite Hk, dset_keys. cbn [map fst]. rewrite elem_of_cons.
    destruct (decide (name ∈ dkeys acc)) as [Hin|Hnin]; [|rewrite elem_of_app, list_elem_of_singleton]; naive_solver.
Qed.

Lemma tiers_of_init tiers base tier key cost exempt build m (t : tiered) :
  tiered_init tiers base tier key cost exempt build m = Ok t ->
  _tier t = tier /\ _tier_rates t = map (fun e => (e.1, (inject_Z e.2.1 / e.2.2)%Q)) tiers /\
  Forall (fun e => (0 < e.2)%Q) (_tier_rates t) /\
  forall name, name ∈ dkeys (_dispatch t) <-> name ∈ None :: map (fun e => Some e.1) tiers.
Proof.
  unfold tiered_init. case_bool_decide; [done|]. intros Ht. apply res_bind_Ok in Ht as (children & Hb & [= <-]).
  apply build_tiers_spec in Hb as [Hf Hk]. cbn. split_and!; [done|done| |].
  - apply Forall_map. unfold all_tiers in Hf. apply Forall_app in Hf as [Hf _]. apply (proj1 (Forall_map _ _ _)) in Hf.
    eapply Forall_impl; [exact Hf|]. intros [name [limit win]] [Hl Hw]. cbn in *. apply quotient_pos; [done|].
    by rewrite Zlt_Qlt in Hl.
  - intros name. rewrite Hk. unfold all_tiers. rewrite map_app, map_map. cbn. set_solver.
Qed.

(** A caller is charged to the most generous of the tiers its roles name:
    whatever order the set of roles is visited in, the chosen tier is one of
    them and no other named tier has a higher rate; a caller whose roles name no
    tier, or who is anonymous, is charged to the default; and a request changes
    the buckets of the chosen tier only. *)
Theorem most_generous_tier tiers base key cost exempt build m (t : tiered) (r : Request) :
  tiered_init tiers base None key cost exempt build m = Ok t ->
  (match tier_of t r with
   | Some name => exists i limit win, rq_identity r = Some i /\ name ∈ authority_roles i /\ dget tiers name = Some (limit, win) /\
       forall role limit' win', role ∈ authority_roles i -> dget tiers role = Some (limit', win') ->
         (inject_Z limit' / win' <= inject_Z limit / win)%Q
   | None => forall i role, rq_identity r = Some i -> role ∈ authority_roles i -> dget tiers role = None
   end) /\
  forall c a t', _ingress t r c = Ok (a, t') -> forall name, name <> tier_of t r -> dget (_dispatch t') name = dget (_dispatch t) name.
Proof.
  intros Ht. destruct (tiers_of_init _ _ _ _ _ _ _ _ _ Ht) as (Etier & Erates & Hpos & Hkeys). split.
  - assert (forall role, dget (_tier_rates t) role = (fun e => (inject_Z e.1 / e.2)%Q) <$> dget tiers role) as Hget
      by (intros role; rewrite Erates; apply (dget_map_value (fun e : Z * Q => (inject_Z e.1 / e.2)%Q))).
    assert (tier_of t r = tier_name t r) as ->.
    { unfold tier_of. destruct (dmem _ _) eqn:Hm; [done|]. apply not_true_iff_false in Hm. rewrite dmem_spec, Hkeys in Hm.
      destruct (tier_name t r) as [name|] eqn:En; [|done]. destruct Hm. apply list_elem_of_further.
      unfold tier_name in En. rewrite Etier in En. unfold _tier_from_roles in En. destruct (rq_identity r) as [i|]; [|done].
      pose proof (most_generous_spec (_tier_rates t) (authority_roles i) None (-1) ltac:(done) Hpos) as Hs. rewrite En in Hs.
      destruct Hs as (rate & Hr & _). rewrite Hget in Hr. destruct (dget tiers name) as [v|] eqn:Hv; [|done].
      apply dget_elem in Hv. by apply (list_elem_of_fmap_2 (fun e => Some e.1) tiers (name, v)). }
    unfold tier_name. rewrite Etier. unfold _tier_from_roles. destruct (rq_identity r) as [i|]; [|done].
    pose proof (most_generous_spec (_tier_rates t) (authority_roles i) None (-1) ltac:(done) Hpos) as Hs.
    destruct (most_generous _ _ None (-1)) as [name|].
    + destruct Hs as (rate & Hr & Hin & _ & Hall). destruct Hin as [Hin|?]; [|done]. rewrite Hget in Hr.
      destruct (dget tiers name) as [[limit win]|] eqn:Hv; [|done]. injection Hr as <-. exists i, limit, win.
      split_and!; [done|done|done|]. intros role limit' win' Hrole Hv'. apply (Hall role); [done|]. by rewrite Hget, Hv'.
    + intros i' role [= <-] Hrole. destruct Hs as [_ Hs]. specialize (Hs role Hrole). rewrite Hget in Hs. by destruct (dget tiers role).
  - intros c a t' Hi name Hne. unfold _ingress in Hi. destruct (dget (_dispatch t) (tier_of t r)) as [child|]; [|done].
    apply res_bind_Ok in Hi as ([[refused child'] m'] & _ & [= <- <-]). cbn [_dispatch]. rewrite dget_dset.
    destruct (decide (tier_of t r = name)) as [E|]; [by destruct Hne|done].
Qed.
End tiers.

(** ** The shared table *)

(** With one reading of the clock for the whole statement, it is the bucket. *)
Lemma shared_exact key capacity cost rate c rows row : (0 < rate)%Q -> rows !! key = Some row ->
  (row_tokens row <= capacity)%Q -> (row_updated row <= c)%Q ->
  let level := credit capacity rate (row_tokens row) (row_updated row) c in
  let row' := fst (acquire_statement key capacity cost rate c c c c c rows) in
  row_allowed row' = qle cost level /\ (row_tokens row' == level - (if row_allowed row' then cost else 0))%Q /\ row_updated row' = c.
Proof.
  intros Hr Hrow Hcap Hup level row'. assert (refill capacity rate c row == level)%Q as E.
  { unfold refill, level, credit. rewrite Q.max_r by lra. qsplit; lra. }
  unfold row', acquire_statement. rewrite Hrow. cbn [fst row_allowed row_tokens row_updated]. split; [by rewrite E|]. split; [|done].
  destruct (qle cost _); lra.
Qed.

(** The clock moves between the condition of the charge and [allowed]: the
    request is admitted and nothing is taken. *)
Example shared_free_ride :
  let row := fst (acquire_statement [97] 1 1 1 (8 # 10) (9 # 10) (95 # 100) 1 1 (<[[97] := mk_row 0 false 0]> ∅)) in
  row_allowed row = true /\ (row_tokens row == 9 # 10)%Q.
Proof. split; vm_compute; reflexivity. Qed.

(** ** Witnesses *)

Definition same_hash : pystr -> Z := fun _ => 0.

Definition anonymous (host : Z) : Request := mk_request None (Some [host]).

Definition second (t : Q) : clocks := mk_clocks t t t.

(** One request in ten seconds, and room for two clients. *)
Definition demo_limits : res quota_error (RateLimitPolicy MemoryRateLimitStore) :=
  policy_init (H := memory_limits same_hash) 1 10 None 1 (mk_limits None 2 None) None None false false.

Definition demo_policy : RateLimitPolicy MemoryRateLimitStore := Eval vm_compute in
  match demo_limits with Ok p => p | Err _ => mk_policy [] (mk_limits None 0 None) 0 ClientKey 0 None end.

Definition stepped (p : RateLimitPolicy MemoryRateLimitStore) (r : Request) (c : clocks) :
    option Refusal * RateLimitPolicy MemoryRateLimitStore :=
  match _before_local_sync (H := memory_limits same_hash) (Sq := MemoryQuotaStore) p None r c with
  | Ok (a, p, _) => (a, p)
  | Err _ => (None, p)
  end.

Definition demo_used : RateLimitPolicy MemoryRateLimitStore := Eval vm_compute in snd (stepped demo_policy (anonymous 97) (second 0)).

Definition demo_refused : option Refusal * RateLimitPolicy MemoryRateLimitStore :=
  Eval vm_compute in stepped demo_used (anonymous 97) (second (1 # 2)).

Example demo_headers : option_map r_headers (fst demo_refused) =
  Some [(bs "retry-after", bs "10"); (bs "x-ratelimit-limit", bs "1"); (bs "ratelimit-policy", bs "1;w=10"); (bs "x-ratelimit-remaining", bs "0")].
Proof. reflexivity. Qed.

Lemma retry_after_honoured_witness :
  1 <= 10 /\ exists p'', throttled p'' = throttled (snd demo_refused) /\
    _before_local_sync (H := memory_limits same_hash) (H0 := memory_quota_store) (snd demo_refused) None (anonymous 97) (second (21 # 2)) =
    spend_quota p'' None (anonymous 97) (second (21 # 2)).
Proof.
  eapply (retry_after_honoured same_hash 1 10 None 1 2 None None false false demo_policy None 0
    [(anonymous 97, second 0)] demo_used None (anonymous 97) (second (1 # 2))
    (default (mk_refusal 0 [] [] []) (fst demo_refused)) (snd demo_refused) None 10 (second (21 # 2))).
  - vm_compute. reflexivity.
  - lia.
  - cbn. split; apply qle_true; reflexivity.
  - vm_compute. reflexivity.
  - vm_compute. reflexivity.
  - vm_compute. reflexivity.
  - vm_compute. reflexivity.
  - apply qle_true. reflexivity.
Defined.

Definition plans : list (pystr * (Z * Q)) := [(bs "pro", (600, inject_Z 60)); (bs "team", (10, 1 # 2)); (bs "trial", (5, inject_Z 60))].

Definition member : Request := mk_request (Some (mk_identity (bs "User") (bs "u") [] [bs "trial"; bs "team"; bs "pro"; bs "other"] [] None)) None.

Definition demo_tiers : res quota_error (TieredRateLimitPolicy MemoryRateLimitStore MemoryQuotaStore) :=
  tiered_init (H := memory_limits same_hash) plans (60, inject_Z 60) None PrincipalKey 1 None (limits_init 10) None.

Definition demo_tiered : TieredRateLimitPolicy MemoryRateLimitStore MemoryQuotaStore := Eval vm_compute in
  match demo_tiers with Ok t => t | Err _ => mk_tiered [] [] None None end.

Lemma most_generous_tier_witness :
  (match tier_of demo_tiered member with
   | Some name => exists i limit win, rq_identity member = Some i /\ name ∈ authority_roles i /\ dget plans name = Some (limit, win) /\
       forall role limit' win', role ∈ authority_roles i -> dget plans role = Some (limit', win') ->
         (inject_Z limit' / win' <= inject_Z limit / win)%Q
   | None => forall i role, rq_identity member = Some i -> role ∈ authority_roles i -> dget plans role = None
   end) /\
  forall c a t', _ingress (H := memory_limits same_hash) (H0 := memory_quota_store) demo_tiered member c = Ok (a, t') ->
    forall name, name <> tier_of demo_tiered member -> dget (_dispatch t') name = dget (_dispatch demo_tiered) name.
Proof.
  apply (most_generous_tier (H := memory_limits same_hash) (H0 := memory_quota_store) plans (60, inject_Z 60) PrincipalKey 1 None (limits_init 10) None demo_tiered member).
  vm_compute. reflexivity.
Defined.
