(* ===== verification/JobQueue.v ===== *)
(** * Durable jobs: [_jobcore.py], [_leased.py] and [jobs.py]

    One table of jobs shared by every process.  A statement of the runner is the
    change it makes to the rows, with its [now()] as an argument; times are
    microseconds.  The runner's settings and handlers are a record; backoff
    numbers and the seconds of a lease are exact rationals.  BLAKE2s, the order
    in which PostgreSQL visits rows, the rows other sessions hold locked and the
    random source of the jitter are arguments. *)

From stdpp Require Import base sets strings numbers list gmap.
From Stdlib Require Import ZArith QArith Qround Qminmax Lia.
From S2P Require Import Prelude PyCollections PyText StructuredFields Idempotency Temporal RecurrenceText Recurrence.
From S2P Require Import TokenBucket Quota.
#[local] Open Scope Z_scope.

Inductive job_error : Type :=
| ValueError | KeyError | TenancyError | PayloadTooLarge | RuntimeError | JobVanished | UndefinedColumn
| Unmatched (e : temporal_error).

(** ** Primitives: [_jobcore.py] *)

Inductive jstate : Type := READY | LEASED | DONE | FAILED | DEAD.

#[global] Instance jstate_eq_dec : EqDecision jstate.
Proof. solve_decision. Defined.

Definition _TRANSITIONS (s : jstate) : list jstate :=
  match s with
  | READY => [LEASED]
  | LEASED => [DONE; READY; DEAD]
  | FAILED => [READY; DEAD]
  | DONE | DEAD => []
  end.

Definition valid_transition (old new : jstate) : bool := bool_decide (new ∈ _TRANSITIONS old).

Inductive backoff_kind : Type := Exp | Linear | Fixed.

(** Of rationals no power overflows, so [OverflowError] does not arise. *)
Definition compute_backoff (attempt : Z) (kind : backoff_kind) (base factor cap jitter source : Q) : res job_error Q :=
  if attempt <? 1 then Err ValueError
  else if qlt base 0 || qlt factor 0 || qlt cap 0 || qlt jitter 0 then Err ValueError
  else if qlt 1 jitter then Err ValueError
  else
    let delay :=
      match kind with
      | Fixed => base
      | Linear => (base * inject_Z attempt)%Q
      | Exp => (base * Qpower factor (Z.min (attempt - 1) 32))%Q
      end in
    let delay := if qlt cap delay then cap else delay in
    if qlt 0 jitter then
      if negb (qle 0 source && qle source 1) then Err ValueError
      else Ok (Qmax 0 (delay + delay * jitter * (source * 2 - 1)))
    else Ok (Qmax 0 delay).

Definition MAX_NOTIFY_PAYLOAD : Z := 7000.
Definition MAX_DURABLE_PAYLOAD : Z := 16 * 1024 * 1024.

Definition check_notify_payload (payload : list Z) : res job_error unit :=
  if MAX_NOTIFY_PAYLOAD <? zlen payload then Err PayloadTooLarge else Ok tt.

Definition check_durable_payload (size : Z) : res job_error unit :=
  if MAX_DURABLE_PAYLOAD <? size then Err PayloadTooLarge else Ok tt.

(** [validate_identifier]; the text is ASCII when every character passes, so
    its bytes are its characters. *)
Definition validate_identifier (value : pystr) : res job_error pystr :=
  if bool_decide (value = []) || (63 <? zlen value) ||
     negb (forallb (fun c => ascii_letter c || is_ascii_digit c || (c =? 95) || (c =? 36)) value)
  then Err ValueError else Ok value.

(** [f'{seconds:.3f}'] read back as an interval, in microseconds. *)
Definition interval (seconds : Q) : Z := 1000 * round_half_even (seconds * 1000).

(** ** The table *)

Record row : Type := mk_job {
  j_queue : pystr;
  j_task : pystr;
  j_args : pystr;
  j_tenant : pystr;
  j_state : jstate;
  j_run_at : Z;
  j_attempts : Z;
  j_max_attempts : Z;
  j_lease_expiry : option Z;
  j_owner : option pystr;
  j_fence : Z;
  j_dedup_key : option pystr;
  j_last_error : option pystr;
  j_trace_context : option pystr;
  j_priority : Z;
  j_created_at : Z;
  j_updated_at : Z }.

Record jobs : Type := mk_jobs { next_id : Z; rows : gmap Z row }.

(** [UPDATE ... SET f WHERE p]. *)
Definition update_rows (p : Z -> row -> bool) (f : row -> row) (t : jobs) : jobs :=
  mk_jobs (next_id t) (map_imap (fun id r => Some (if p id r then f r else r)) (rows t)).

(** [UPDATE ... SET f WHERE id=$1 AND p], and whether a row changed. *)
Definition update_row (id : Z) (p : row -> bool) (f : row -> row) (t : jobs) : bool * jobs :=
  match rows t !! id with
  | Some r => if p r then (true, mk_jobs (next_id t) (<[id := f r]> (rows t))) else (false, t)
  | None => (false, t)
  end.

Definition set_row (state : jstate) (run_at attempts : Z) (lease : option Z) (owner : option pystr) (fence : Z)
    (err : option pystr) (now : Z) (r : row) : row :=
  mk_job (j_queue r) (j_task r) (j_args r) (j_tenant r) state run_at attempts (j_max_attempts r) lease owner fence
    (j_dedup_key r) err (j_trace_context r) (j_priority r) (j_created_at r) now.

(** ** Handlers and the runner *)

Record _Task : Type := mk_task {
  t_max_attempts : Z;
  t_kind : backoff_kind;
  t_base : Q;
  t_factor : Q;
  t_cap : Q;
  t_jitter : Q;
  t_timeout : option Q;
  (** [signature.bind(ctx, *args)] succeeds. *)
  t_binds : pystr -> bool }.

Record _Schedule : Type := mk_schedule {
  s_task : pystr;
  s_recurrence : Recurrence;
  s_args : pystr;
  s_tenant : pystr }.

(** What [drive] reads of a [ChunkedPass]. *)
Record Pass : Type := mk_pass { p_name : pystr; p_tenant : pystr; p_shift : Q; p_recurring : bool }.

Record JobRunner : Type := mk_runner {
  _name : pystr;
  _concurrency : Z;
  _lease : Q;
  _batch : Z;
  _worker_id : pystr;
  (** The version-2 and version-3 columns are there, as [start] has found. *)
  _carries_trace : bool;
  _carries_priority : bool;
  _tasks : gmap pystr _Task;
  _schedules : list _Schedule;
  _passes : list (pystr * Pass) }.

Definition runner_init (name : pystr) (concurrency : Z) (lease poll_interval : Q) (schema : pystr) (batch : Z)
    (worker_id : pystr) (trace priority : bool) : res job_error JobRunner :=
  if concurrency <? 1 then Err ValueError
  else if qle lease 0 || qle poll_interval 0 then Err ValueError
  else if batch <? 1 then Err ValueError
  else
    let! name := validate_identifier name in
    let! schema := validate_identifier schema in
    let! _ := validate_identifier (bs "wj_" ++ schema ++ bs "_" ++ name) in
    Ok (mk_runner name concurrency lease batch worker_id trace priority ∅ [] []).

Definition with_task (name : pystr) (t : _Task) (R : JobRunner) : JobRunner :=
  mk_runner (_name R) (_concurrency R) (_lease R) (_batch R) (_worker_id R) (_carries_trace R) (_carries_priority R)
    (<[name := t]> (_tasks R)) (_schedules R) (_passes R).

Definition with_schedule (s : _Schedule) (R : JobRunner) : JobRunner :=
  mk_runner (_name R) (_concurrency R) (_lease R) (_batch R) (_worker_id R) (_carries_trace R) (_carries_priority R)
    (_tasks R) (_schedules R ++ [s]) (_passes R).

Definition with_pass (task : pystr) (w : Pass) (R : JobRunner) : JobRunner :=
  mk_runner (_name R) (_concurrency R) (_lease R) (_batch R) (_worker_id R) (_carries_trace R) (_carries_priority R)
    (_tasks R) (_schedules R) (_passes R ++ [(task, w)]).

(** [@runner.task(name, ...)] applied to a handler. *)
Definition task (name : pystr) (retries : Z) (kind : backoff_kind) (base factor cap jitter : Q) (timeout : option Q)
    (binds : pystr -> bool) (R : JobRunner) : res job_error JobRunner :=
  let! _ := validate_identifier name in
  match _tasks R !! name with
  | Some _ => Err ValueError
  | None =>
    if (retries <? 0) || (2147483646 <? retries) then Err ValueError
    else if qlt base 0 || qlt factor 0 || qlt cap 0 || qlt jitter 0 then Err ValueError
    else if qlt 1 jitter then Err ValueError
    else if match timeout with Some s => qle s 0 || qle (_lease R) s | None => false end then Err ValueError
    else Ok (with_task name (mk_task (retries + 1) kind base factor cap jitter timeout binds) R)
  end.

(** The defaults of [task]. *)
Definition default_task (name : pystr) (timeout : option Q) (binds : pystr -> bool) (R : JobRunner) : res job_error JobRunner :=
  task name 5 Exp 1 2 3600 (1 # 5) timeout binds R.

Definition DEADLINE_FRACTION : Q := 4 # 5.

Definition deadline_for (R : JobRunner) (name : pystr) : Q :=
  match _tasks R !! name with
  | Some t => default (_lease R * DEADLINE_FRACTION)%Q (t_timeout t)
  | None => (_lease R * DEADLINE_FRACTION)%Q
  end.

(** [schedule(task, cron=..., recurrence=...)]. *)
Definition schedule {U : UnicodeData} (name : pystr) (cron_text : option pystr) (recurrence : option Recurrence)
    (args tenant misfire : pystr) (R : JobRunner) : res job_error JobRunner :=
  if bool_decide (misfire <> bs "skip") then Err ValueError
  else
    let! resolved :=
      match cron_text, recurrence with
      | Some _, Some _ => Err ValueError
      | Some text, None => match cron text UTC with Ok r => Ok r | Err _ => Err ValueError end
      | None, Some r => Ok r
      | None, None => Err ValueError
      end in
    Ok (with_schedule (mk_schedule name resolved args tenant) R).

(** ** [enqueue] *)

(** [check_enqueue_tenant], under the scope [bound]. *)
Definition check_enqueue_tenant (bound explicit : option pystr) : res job_error pystr :=
  match bound with
  | None => Ok (default [] explicit)
  | Some b =>
    match explicit with
    | Some (_ :: _ as e) => if bool_decide (e = b) then Ok b else Err TenancyError
    | _ => Ok b
    end
  end.

(** The row of [(queue, tenant, dedup_key)]. *)
Definition named (queue tenant key : pystr) (r : row) : bool :=
  bool_decide (j_queue r = queue) && bool_decide (j_tenant r = tenant) && bool_decide (j_dedup_key r = Some key).

Definition find_row (p : row -> bool) (t : jobs) : option Z :=
  fst <$> head (filter (fun e => p e.2 = true) (map_to_list (rows t))).

(** [INSERT ... ON CONFLICT ...]: a repeated key changes nothing, or with
    [coalesce] merges into a row that is still ready.  The identity column
    spends a value in any case. *)
Definition merge_row (new r : row) (now : Z) : row :=
  mk_job (j_queue r) (j_task r) (j_args new) (j_tenant r) (j_state r) (Z.min (j_run_at r) (j_run_at new)) (j_attempts r)
    (j_max_attempts r) (j_lease_expiry r) (j_owner r) (j_fence r) (j_dedup_key r) (j_last_error r) (j_trace_context r)
    (Z.max (j_priority r) (j_priority new)) (j_created_at r) now.

Definition insert_row (new : row) (coalesce : bool) (now : Z) (t : jobs) : option Z * jobs :=
  let spent := mk_jobs (next_id t + 1) (rows t) in
  match j_dedup_key new ≫= fun key => find_row (named (j_queue new) (j_tenant new) key) t with
  | Some id =>
    if coalesce then
      let '(changed, t) := update_row id (fun r => bool_decide (j_state r = READY)) (fun r => merge_row new r now) spent in
      (if changed then Some id else None, t)
    else (None, spent)
  | None => (Some (next_id t), mk_jobs (next_id t + 1) (<[next_id t := new]> (rows t)))
  end.

(** The arguments of [enqueue]; [e_args] is the JSON text of the positional
    arguments, [e_bound] and [e_trace] the tenant scope and the trace context of
    the caller. *)
Record enqueue_args : Type := mk_enqueue {
  e_task : pystr;
  e_args : pystr;
  e_run_at : option Z;
  e_key : option pystr;
  e_tenant : pystr;
  e_max_attempts : option Z;
  e_priority : Z;
  e_coalesce : bool;
  e_bound : option pystr;
  e_trace : option pystr }.

Section keys.
Context (blake2s : bytes -> pystr).

Definition dedup (R : JobRunner) (key : option pystr) : res job_error (option pystr) :=
  match key with
  | None => Ok None
  | Some k => match dedup_key blake2s (_name R) k with Ok d => Ok (Some d) | Err _ => Err ValueError end
  end.

(** The row [enqueue] inserts; the conflict clause of [coalesce] names the
    version-3 column whether it is there or not. *)
Definition new_job (R : JobRunner) (e : enqueue_args) (now : Z) : res job_error row :=
  match _tasks R !! e_task e with
  | None => Err KeyError
  | Some handler =>
    let! tenant := check_enqueue_tenant (e_bound e) (Some (e_tenant e)) in
    if e_coalesce e && bool_decide (e_key e = None) then Err ValueError
    else if match e_max_attempts e with Some m => negb (within 1 m 2147483647) | None => false end then Err ValueError
    else if negb (within (- 2 ^ 31) (e_priority e) (2 ^ 31 - 1)) then Err ValueError
    else
      let! _ := check_durable_payload (zlen (e_args e)) in
      let! dk := dedup R (e_key e) in
      if negb (e_priority e =? 0) && negb (_carries_priority R) then Err RuntimeError
      else if e_coalesce e && negb (_carries_priority R) then Err UndefinedColumn
      else Ok (mk_job (_name R) (e_task e) (e_args e) tenant READY (default now (e_run_at e)) 0
                 (default (t_max_attempts handler) (e_max_attempts e)) None None 0 dk None
                 (if _carries_trace R then e_trace e else None) (e_priority e) now now)
  end.

Definition enqueue (R : JobRunner) (e : enqueue_args) (now : Z) (t : jobs) : res job_error (option Z * jobs) :=
  let! new := new_job R e now in
  Ok (insert_row new (e_coalesce e) now t).

Definition _existing_job_id (R : JobRunner) (key : option pystr) (tenant : pystr) (t : jobs) : res job_error (option Z) :=
  let! dk := dedup R key in
  Ok (dk ≫= fun key => find_row (named (_name R) tenant key) t).

(** [launch]: the id to watch and the state at hand-back; [meanwhile] is what
    happens to the table before the surviving row is looked for. *)
Definition launch (R : JobRunner) (e : enqueue_args) (now : Z) (t : jobs) (meanwhile : jobs -> jobs) :
    res job_error (Z * pystr * jobs) :=
  let! tenant := check_enqueue_tenant (e_bound e) (Some (e_tenant e)) in
  let bound := match tenant with [] => None | _ => Some tenant end in
  let e := mk_enqueue (e_task e) (e_args e) (e_run_at e) (e_key e) tenant (e_max_attempts e) 0 false bound (e_trace e) in
  let! (id, t) := enqueue R e now t in
  match id with
  | Some id => Ok (id, bs "queued", t)
  | None =>
    let t := meanwhile t in
    let! existing := _existing_job_id R (e_key e) tenant t in
    match existing with Some id => Ok (id, bs "running", t) | None => Err JobVanished end
  end.

(** ** [cancel] and [purge] *)

Definition unfinished (r : row) : bool := bool_decide (j_state r = READY) || bool_decide (j_state r = LEASED).

Definition cancel_row (reason : pystr) (now : Z) (r : row) : row :=
  set_row DEAD (j_run_at r) (j_attempts r) None None (j_fence r + 1) (Some (take 2000 reason)) now r.

(** The condition of the [WHERE] clause on the row [id]. *)
Definition selects (R : JobRunner) (tenant : pystr) (job_id : option Z) (dk : option pystr) (id : Z) (r : row) : bool :=
  bool_decide (j_queue r = _name R) && bool_decide (j_tenant r = tenant) &&
  match dk with Some k => bool_decide (j_dedup_key r = Some k) | None => bool_decide (job_id = Some id) end &&
  unfinished r.

Definition cancel (R : JobRunner) (job_id : option Z) (key : option pystr) (reason : pystr) (bound : option pystr)
    (tenant : pystr) (now : Z) (t : jobs) : res job_error (bool * jobs) :=
  if Bool.eqb (bool_decide (job_id = None)) (bool_decide (key = None)) then Err ValueError
  else
    let! tenant := check_enqueue_tenant bound (Some tenant) in
    let! dk := dedup R key in
    let chosen := selects R tenant job_id dk in
    Ok (existsb (fun e => chosen e.1 e.2) (map_to_list (rows t)), update_rows chosen (cancel_row reason now) t).

(** [DELETE ... WHERE queue=$1 AND state IN ('done', 'dead') AND updated_at < ...]. *)
Definition purgeable (queue : pystr) (before : Z) (r : row) : bool :=
  bool_decide (j_queue r = queue) && (bool_decide (j_state r = DONE) || bool_decide (j_state r = DEAD)) &&
  (j_updated_at r <? before).

Definition purge (R : JobRunner) (older_than : Q) (now : Z) (t : jobs) : res job_error jobs :=
  if qle older_than 0 then Err ValueError
  else Ok (mk_jobs (next_id t) (filter (fun e => purgeable (_name R) (now - interval older_than) e.2 = false) (rows t))).

(** ** Claims *)

Record _Claimed : Type := mk_claimed {
  c_id : Z;
  c_task : pystr;
  c_args : pystr;
  c_tenant : pystr;
  c_attempts : Z;
  c_max_attempts : Z;
  c_fence : Z;
  c_key : option pystr;
  c_trace_context : option pystr }.

Definition claimable (queue : pystr) (now : Z) (r : row) : bool :=
  bool_decide (j_queue r = queue) && bool_decide (j_state r = READY) && (j_run_at r <=? now).

Definition lease_row (R : JobRunner) (now : Z) (r : row) : row :=
  set_row LEASED (j_run_at r) (j_attempts r) (Some (now + interval (_lease R))) (Some (_worker_id R)) (j_fence r + 1)
    (j_last_error r) now r.

(** [ORDER BY priority DESC, run_at]; without the column, [ORDER BY run_at]. *)
Definition claim_key (R : JobRunner) (e : Z * row) : list Z :=
  if _carries_priority R then [- j_priority e.2; j_run_at e.2] else [j_run_at e.2].

Definition candidate (R : JobRunner) (now : Z) (locked : gset Z) (t : jobs) (id : Z) : option (Z * row) :=
  r ← rows t !! id;
  if bool_decide (id ∈ locked) then None else if claimable (_name R) now r then Some (id, r) else None.

(** The rows in the order of the scan, those locked elsewhere skipped. *)
Definition candidates (R : JobRunner) (now : Z) (scan : list Z) (locked : gset Z) (t : jobs) : list (Z * row) :=
  omap (candidate R now locked t) scan.

Definition claimed_rows (R : JobRunner) (now : Z) (scan : list Z) (locked : gset Z) (t : jobs) : list (Z * row) :=
  take (Z.to_nat (_batch R)) (sorted_by (claim_key R) (candidates R now scan locked t)).

Definition _row_to_claim (R : JobRunner) (id : Z) (r : row) : _Claimed :=
  mk_claimed id (j_task r) (j_args r) (j_tenant r) (j_attempts r) (j_max_attempts r) (j_fence r) (j_dedup_key r)
    (if _carries_trace R then j_trace_context r else None).

Definition _claim (R : JobRunner) (now : Z) (scan : list Z) (locked : gset Z) (t : jobs) : list _Claimed * jobs :=
  let leased := map (fun e => (e.1, lease_row R now e.2)) (claimed_rows R now scan locked t) in
  (map (fun e => _row_to_claim R e.1 e.2) leased,
   mk_jobs (next_id t) (foldr (fun e m => <[e.1 := e.2]> m) (rows t) leased)).

(** ** The outcome of a claim *)

Definition fenced (job : _Claimed) (r : row) : bool := j_fence r =? c_fence job.

Definition _complete (job : _Claimed) (now : Z) (t : jobs) : bool * jobs :=
  update_row (c_id job) (fenced job)
    (fun r => set_row DONE (j_run_at r) (j_attempts r) (j_lease_expiry r) (j_owner r) (j_fence r) (j_last_error r) now r) t.

(** [_fail]: whether the job was dead-lettered by this call. *)
Definition _fail (job : _Claimed) (error : pystr) (handler : option _Task) (permanent : bool) (source : Q) (now : Z) (t : jobs) :
    res job_error (bool * jobs) :=
  let attempts := c_attempts job + 1 in
  let max_att := match handler with Some h => t_max_attempts h | None => c_max_attempts job end in
  if permanent || (max_att <=? attempts) then
    Ok (update_row (c_id job) (fenced job)
          (fun r => set_row DEAD (j_run_at r) attempts (j_lease_expiry r) (j_owner r) (j_fence r) (Some (take 2000 error)) now r) t)
  else
    let! delay :=
      match handler with
      | Some h => compute_backoff attempts (t_kind h) (t_base h) (t_factor h) (t_cap h) (t_jitter h) source
      | None => Ok 0%Q
      end in
    Ok (false, snd (update_row (c_id job) (fenced job)
          (fun r => set_row READY (now + interval delay) attempts None None (j_fence r) (Some (take 2000 error)) now r) t)).

(** One statement of [_release_unstarted]. *)
Definition _release (job : _Claimed) (now : Z) (t : jobs) : bool * jobs :=
  update_row (c_id job) (fun r => fenced job r && bool_decide (j_state r = LEASED))
    (fun r => set_row READY (j_run_at r) (j_attempts r) None None (j_fence r) (j_last_error r) now r) t.

(** ** The sweep *)

Definition expired (queue : pystr) (now : Z) (r : row) : bool :=
  bool_decide (j_queue r = queue) && bool_decide (j_state r = LEASED) &&
  match j_lease_expiry r with Some e => e <? now | None => false end.

Definition reclaim_row (now : Z) (r : row) : row :=
  set_row (if j_max_attempts r <=? j_attempts r + 1 then DEAD else READY) (j_run_at r) (j_attempts r + 1) None None
    (j_fence r + 1) (Some (default (bs "lease expired before completion") (j_last_error r))) now r.

Definition _reclaim_expired (R : JobRunner) (now : Z) (t : jobs) : jobs :=
  update_rows (fun _ => expired (_name R) now) (reclaim_row now) t.

(** ** Schedules *)

Definition pad2 (n : Z) : pystr := (if n <? 10 then bs "0" else []) ++ str_of_Z n.

(** [Recurrence.bucket_key]; [%Y] does not pad years before 1000. *)
Definition bucket_key (r : Recurrence) (moment : Z) : res job_error pystr :=
  match wall_clock moment (tz r) with
  | Err e => Err (Unmatched e)
  | Ok l => Ok (str_of_Z (year (on l)) ++ pad2 (month (on l)) ++ pad2 (day (on l)) ++ pad2 (hour l) ++ pad2 (minute l))
  end.

Definition schedule_key (s : _Schedule) (now : Z) : res job_error pystr :=
  let! bucket := bucket_key (s_recurrence s) now in
  Ok (bs "cron:" ++ s_task s ++ bs ":" ++ bucket).

Definition plain_enqueue (name args : pystr) (key : option pystr) (tenant : pystr) : enqueue_args :=
  mk_enqueue name args None key tenant None 0 false None None.

(** One schedule of a tick at [moment]; its insert runs at [now]. *)
Definition tick_schedule (R : JobRunner) (s : _Schedule) (moment now : Z) (t : jobs) : res job_error jobs :=
  match matches_at (s_recurrence s) moment with
  | Err e => Err (Unmatched e)
  | Ok false => Ok t
  | Ok true =>
    let! key := schedule_key s moment in
    let! (_, t) := enqueue R (plain_enqueue (s_task s) (s_args s) (Some key) (s_tenant s)) now t in
    Ok t
  end.

(** The table the tick leaves, and the exception that ended it.  [clock i] is
    [now()] of the [i]-th insert. *)
Fixpoint tick_loop (R : JobRunner) (schedules : list _Schedule) (moment : Z) (clock : nat -> Z) (t : jobs) :
    jobs * option job_error :=
  match schedules with
  | [] => (t, None)
  | s :: schedules =>
    match tick_schedule R s moment (clock O) t with
    | Ok t => tick_loop R schedules moment (fun i => clock (S i)) t
    | Err e => (t, Some e)
    end
  end.

Definition _tick_schedules (R : JobRunner) (moment : Z) (clock : nat -> Z) (t : jobs) : jobs * option job_error :=
  tick_loop R (_schedules R) moment clock t.

(** ** Passes *)

Definition slug_char (c : Z) : Z := if ascii_letter c || is_ascii_digit c || (c =? 95) then c else 95.

Definition _pass_task_name (name tenant : pystr) : res job_error pystr :=
  let slug := map slug_char (match tenant with [] => name | _ => name ++ bs "_" ++ tenant end) in
  validate_identifier (take 63 (bs "pass_" ++ slug)).

(** [drive(walk, cron=...)]; the shift's handler takes no arguments. *)
Definition drive {U : UnicodeData} (w : Pass) (cron_text : option pystr) (no_args : pystr -> bool) (R : JobRunner) :
    res job_error (pystr * JobRunner) :=
  if qle (_lease R) (p_shift w) then Err ValueError
  else if p_recurring w && bool_decide (cron_text = None) then Err ValueError
  else
    let! name := _pass_task_name (p_name w) (p_tenant w) in
    match _tasks R !! name with
    | Some _ => Err ValueError
    | None =>
      let! R := default_task name (Some (p_shift w)) no_args R in
      let R := with_pass name w R in
      match cron_text with
      | Some text => let! R := schedule name (Some text) None (bs "[]") (p_tenant w) (bs "skip") R in Ok (name, R)
      | None => Ok (name, R)
      end
    end.

(** The key of the next shift, by the process's clock. *)
Definition shift_key (w : Pass) (wall : Z) : pystr :=
  bs "pass:" ++ p_name w ++ bs ":" ++ p_tenant w ++ bs ":" ++ str_of_Z (wall / 60000000).

Definition _enqueue_next_shift (R : JobRunner) (name : pystr) (w : Pass) (bound : option pystr) (wall now : Z) (t : jobs) :
    res job_error jobs :=
  let! (_, t) := enqueue R (mk_enqueue name (bs "[]") None (Some (shift_key w wall)) (p_tenant w) None 0 false bound None) now t in
  Ok t.

(** What a shift reports: [ShiftResult]. *)
Inductive stopped : Type := Complete | Budget | Stopping | Lost | Pool | Failed_chunk | Blocked.

Record ShiftResult : Type := mk_shift { r_chunks : Z; r_complete : bool; r_stopped : stopped; r_error : bool }.

Definition should_continue (r : ShiftResult) : bool :=
  match r_stopped r with Budget | Pool => true | _ => false end.

(** The handler [drive] registers, after [walk.run_shift] has returned [r]. *)
Definition finish_shift (R : JobRunner) (name : pystr) (w : Pass) (r : ShiftResult) (bound : option pystr) (wall now : Z)
    (t : jobs) : res job_error jobs :=
  match r_stopped r, r_error r with
  | Failed_chunk, true => Err RuntimeError
  | Blocked, _ => Ok t
  | _, _ =>
    if should_continue r || (negb (r_chunks r =? 0) && negb (r_complete r))
    then _enqueue_next_shift R name w bound wall now t
    else Ok t
  end.

(** [_start_passes] for one pass, whose ledger says [done] or not. *)
Definition start_pass (R : JobRunner) (name : pystr) (w : Pass) (finished : bool) (wall now : Z) (t : jobs) : res job_error jobs :=
  if finished && negb (p_recurring w) then Ok t else _enqueue_next_shift R name w None wall now t.
End keys.
