(* ===== verification/JobFacts.v ===== *)
(** * What the statements of the jobs table do to a row

    Each statement of [JobQueue] moves each row along the life of a job: the
    changes made around the workers ([outside]) and those a claim's holder makes
    ([worked]). *)

From stdpp Require Import base sets strings numbers list gmap fin_maps.
From Stdlib Require Import ZArith QArith Qround Qminmax Qpower Lqa Lia.
From S2P Require Import Prelude PyCollections PyText StructuredFields Idempotency TokenBucket TokenBucketFacts JobQueue.
#[local] Open Scope Z_scope.

(** ** The life of a job *)

(** What no statement changes. *)
Record same_job (r r' : row) : Prop := {
  same_queue : j_queue r' = j_queue r;
  same_task : j_task r' = j_task r;
  same_tenant : j_tenant r' = j_tenant r;
  same_max : j_max_attempts r' = j_max_attempts r;
  same_key : j_dedup_key r' = j_dedup_key r;
  same_trace : j_trace_context r' = j_trace_context r;
  same_created : j_created_at r' = j_created_at r }.

Definition moves (r r' : row) (state : jstate) (fence attempts : Z) : Prop :=
  same_job r r' /\ j_state r' = state /\ j_fence r' = j_fence r + fence /\ j_attempts r' = j_attempts r + attempts.

(** Merged by a repeated key, cancelled, or swept at [now]. *)
Inductive outside (now : Z) (r r' : row) : Prop :=
| out_merge : j_state r = READY -> moves r r' READY 0 0 -> outside now r r'
| out_cancel : unfinished r = true -> moves r r' DEAD 1 0 -> outside now r r'
| out_sweep e :
    j_state r = LEASED -> j_lease_expiry r = Some e -> e < now ->
    moves r r' (if j_max_attempts r <=? j_attempts r + 1 then DEAD else READY) 1 1 -> outside now r r'.

(** Claimed, done, failed or handed back; the arguments stay. *)
Inductive worked (r r' : row) : Prop :=
| work_claim : j_state r = READY -> moves r r' LEASED 1 0 -> worked r r'
| work_done : j_state r = LEASED -> moves r r' DONE 0 0 -> worked r r'
| work_retry : j_state r = LEASED -> moves r r' READY 0 1 -> worked r r'
| work_bury : j_state r = LEASED -> moves r r' DEAD 0 1 -> worked r r'
| work_return : j_state r = LEASED -> moves r r' READY 0 0 -> worked r r'.

(** A row as [enqueue] inserts it. *)
Definition fresh (r : row) : Prop := j_state r = READY /\ j_attempts r = 0 /\ j_fence r = 0.

(** What a statement around the workers does to one id. *)
Inductive around (now : Z) : option row -> option row -> Prop :=
| around_same o : around now o o
| around_new r : fresh r -> around now None (Some r)
| around_moved r r' : outside now r r' -> around now (Some r) (Some r')
| around_purged r : unfinished r = false -> around now (Some r) None.

#[export] Hint Constructors around : core.

Lemma unfinished_spec r : unfinished r = true <-> j_state r = READY \/ j_state r = LEASED.
Proof. unfold unfinished. by rewrite orb_true_iff, !bool_decide_eq_true. Qed.

Lemma same_job_refl r : same_job r r.
Proof. done. Qed.

Lemma same_job_trans a b c : same_job a b -> same_job b c -> same_job a c.
Proof. intros [] []. split; congruence. Qed.

Lemma same_set_row r state run_at attempts lease owner fence err now :
  same_job r (set_row state run_at attempts lease owner fence err now r).
Proof. done. Qed.

#[export] Hint Resolve same_job_refl same_set_row : core.

(** ** Updates *)

Lemma update_rows_lookup p f t id :
  rows (update_rows p f t) !! id = (fun r => if p id r then f r else r) <$> rows t !! id.
Proof. unfold update_rows. cbn [rows]. rewrite map_lookup_imap. by destruct (rows t !! id). Qed.

Lemma update_rows_around now p f t :
  (forall id r, rows t !! id = Some r -> p id r = true -> outside now r (f r)) ->
  forall id, around now (rows t !! id) (rows (update_rows p f t) !! id).
Proof.
  intros H id. rewrite update_rows_lookup. destruct (rows t !! id) as [r|] eqn:Hr; [|constructor]. cbn [fmap option_fmap option_map].
  destruct (p id r) eqn:Hp; [|constructor]. apply around_moved. by eapply H.
Qed.

(** The row a single-row update finds and what it leaves. *)
Lemma update_row_cases id p f t : 
  (exists r, rows t !! id = Some r /\ p r = true /\
    update_row id p f t = (true, mk_jobs (next_id t) (<[id := f r]> (rows t)))) \/
  (update_row id p f t = (false, t) /\ forall r, rows t !! id = Some r -> p r = false).
Proof.
  unfold update_row. destruct (rows t !! id) as [r|] eqn:Hr; [|by right].
  destruct (p r) eqn:Hp; [left; eauto|right]. split; [done|]. by intros ? [= <-].
Qed.

(** ** The statements around the workers *)

Section keys.
Context (blake2s : bytes -> pystr).

Lemma sweep_around R now t id : around now (rows t !! id) (rows (_reclaim_expired R now t) !! id).
Proof.
  apply update_rows_around. clear id. intros id r _. unfold expired. rewrite !andb_true_iff, !bool_decide_eq_true.
  intros [[_ Hs] He]. destruct (j_lease_expiry r) as [e|] eqn:E; [|done]. apply Z.ltb_lt in He.
  eapply out_sweep; [done|done|done|]. repeat split.
Qed.

Lemma cancel_around R job_id key reason bound tenant now t b t' :
  cancel blake2s R job_id key reason bound tenant now t = Ok (b, t') ->
  next_id t' = next_id t /\ (forall id, rows t !! id = None -> rows t' !! id = None) /\
  forall id, around now (rows t !! id) (rows t' !! id).
Proof.
  unfold cancel. destruct (Bool.eqb _ _); [done|]. destruct (check_enqueue_tenant bound (Some tenant)) as [tn|]; [cbn [res_bind]|done].
  destruct (dedup blake2s R key) as [dk|]; [cbn [res_bind]|done]. intros [= _ <-]. split; [done|].
  split; [intros id; rewrite update_rows_lookup; by intros ->|]. apply update_rows_around. intros id r _ Hsel. unfold selects in Hsel. apply andb_true_iff in Hsel as [_ Hu].
  apply out_cancel; [done|]. repeat split; cbn; lia.
Qed.

Lemma purge_around R older now t t' : purge R older now t = Ok t' ->
  next_id t' = next_id t /\ (forall id, rows t !! id = None -> rows t' !! id = None) /\
  forall id, around now (rows t !! id) (rows t' !! id).
Proof.
  unfold purge. destruct (qle older 0); [done|]. intros [= <-]. split; [done|]. cbn [rows].
  split; [intros id Hr; apply map_lookup_filter_None; by left|]. intros id. destruct (rows t !! id) as [r|] eqn:Hr.
  - destruct (purgeable (_name R) (now - interval older) r) eqn:Hp.
    + assert (filter (fun e => purgeable (_name R) (now - interval older) e.2 = false) (rows t) !! id = None) as ->.
      { apply map_lookup_filter_None. right. intros r' Hr' Hf. cbn in Hf. rewrite Hr in Hr'. injection Hr' as <-. congruence. }
      apply around_purged. unfold purgeable in Hp. rewrite !andb_true_iff, orb_true_iff, !bool_decide_eq_true in Hp.
      destruct (unfinished r) eqn:Hu; [|done]. apply unfinished_spec in Hu. destruct Hu as [Hu|Hu], Hp as [[_ [Hs|Hs]] _]; congruence.
    + assert (filter (fun e => purgeable (_name R) (now - interval older) e.2 = false) (rows t) !! id = Some r) as ->;
        [|constructor]. by apply map_lookup_filter_Some.
  - assert (filter (fun e => purgeable (_name R) (now - interval older) e.2 = false) (rows t) !! id = None) as ->;
      [|constructor]. apply map_lookup_filter_None. by left.
Qed.

Lemma find_row_Some p t id : find_row p t = Some id -> exists r, rows t !! id = Some r /\ p r = true.
Proof.
  unfold find_row. intros H. apply fmap_Some in H as ([i r] & Hh & ->). apply head_Some_elem_of in Hh.
  apply list_elem_of_filter in Hh as [Hp Hin]. exists r. split; [|done]. by apply elem_of_map_to_list.
Qed.

Lemma find_row_None p t : find_row p t = None -> forall id r, rows t !! id = Some r -> p r = false.
Proof.
  unfold find_row. intros H id r Hr. apply fmap_None, head_None in H. destruct (p r) eqn:Hp; [|done].
  assert ((id, r) ∈ filter (fun e => p e.2 = true) (map_to_list (rows t))) as Hin.
  { apply list_elem_of_filter. split; [done|]. by apply elem_of_map_to_list. }
  rewrite H in Hin. by apply elem_of_nil in Hin.
Qed.

(** What a row is inserted with. *)
Record inserted (R : JobRunner) (e : enqueue_args) (new : row) : Prop := {
  ins_fresh : fresh new;
  ins_queue : j_queue new = _name R;
  ins_task : j_task new = e_task e;
  ins_max : exists handler, _tasks R !! e_task e = Some handler /\
    j_max_attempts new = default (t_max_attempts handler) (e_max_attempts e);
  ins_range : forall m, e_max_attempts e = Some m -> 1 <= m <= 2147483647 }.

Lemma new_job_inserted R e now new : new_job blake2s R e now = Ok new -> inserted R e new.
Proof.
  unfold new_job. destruct (_tasks R !! e_task e) as [handler|] eqn:Ht; [|done].
  destruct (check_enqueue_tenant _ _) as [tn|]; [cbn [res_bind]|done]. destruct (e_coalesce e && _); [done|].
  destruct (match e_max_attempts e with Some m => _ | None => _ end) eqn:Hm; [done|]. destruct (negb (within _ _ _)); [done|].
  destruct (check_durable_payload _); [cbn [res_bind]|done]. destruct (dedup blake2s R _) as [dk|]; [cbn [res_bind]|done].
  destruct (negb (e_priority e =? 0) && _); [done|]. destruct (e_coalesce e && _); [done|]. intros [= <-]. split; cbn; try done; [by exists handler|].
  intros m Em. rewrite Em in Hm. apply negb_false_iff in Hm. unfold StructuredFields.within in Hm.
  apply andb_true_iff in Hm as [H1%Z.leb_le H2%Z.leb_le]. lia.
Qed.

Definition below (t : jobs) : Prop := forall id r, rows t !! id = Some r -> id < next_id t.

Lemma below_fresh t : below t -> rows t !! next_id t = None.
Proof. intros H. destruct (rows t !! next_id t) as [r|] eqn:E; [|done]. apply H in E. lia. Qed.

(** What an insert does: the new row under the next id, a merge, or nothing. *)
Lemma insert_cases new coalesce now t o t' : insert_row new coalesce now t = (o, t') ->
  next_id t' = next_id t + 1 /\
  ((o = Some (next_id t) /\ rows t' = <[next_id t := new]> (rows t) /\
    forall key, j_dedup_key new = Some key -> forall id r, rows t !! id = Some r -> named (j_queue new) (j_tenant new) key r = false) \/
   (exists key id r, j_dedup_key new = Some key /\ rows t !! id = Some r /\ named (j_queue new) (j_tenant new) key r = true /\
      ((coalesce = true /\ j_state r = READY /\ o = Some id /\ rows t' = <[id := merge_row new r now]> (rows t)) \/
       (o = None /\ rows t' = rows t)))).
Proof.
  unfold insert_row. intros H.
  destruct (j_dedup_key new ≫= fun key => find_row (named (j_queue new) (j_tenant new) key) t) as [id|] eqn:Hf.
  - apply bind_Some in Hf as (key & Hk & Hf). apply find_row_Some in Hf as (r & Hr & Hn).
    destruct coalesce.
    + destruct (update_row_cases id (fun r => bool_decide (j_state r = READY)) (fun r => merge_row new r now)
        (mk_jobs (next_id t + 1) (rows t))) as [(r' & Hr' & Hp & E)|[E _]]; rewrite E in H; injection H as <- <-; (split; [done|]); right;
        exists key, id, r; (split_and!; [done|done|done|]); [left|by right]. cbn in Hr'. rewrite Hr in Hr'. injection Hr' as <-.
      by apply bool_decide_eq_true in Hp.
    + injection H as <- <-. split; [done|]. right. exists key, id, r. split_and!; [done..|by right].
  - injection H as <- <-. split; [done|]. left. split; [done|]. split; [done|]. intros key Hk. rewrite Hk in Hf. cbn in Hf.
    by apply find_row_None.
Qed.

Lemma enqueue_around R e now t o t' : below t -> enqueue blake2s R e now t = Ok (o, t') ->
  next_id t <= next_id t' /\ below t' /\ (forall id, around now (rows t !! id) (rows t' !! id)) /\
  (forall id r, rows t !! id = None -> rows t' !! id = Some r -> id = next_id t /\ inserted R e r).
Proof.
  intros Hb H. unfold enqueue in H. destruct (new_job blake2s R e now) as [new|] eqn:Hn; [cbn [res_bind] in H|done].
  injection H as H. apply new_job_inserted in Hn. apply insert_cases in H as (Hid & H).
  assert (forall id r, rows t !! id = Some r -> id < next_id t') as Hb' by (intros id r Hr; apply Hb in Hr; lia).
  split; [lia|]. destruct H as [(-> & Hr & _)|(key & id & r & _ & Hr & _ & [(_ & Hs & _ & E)|(_ & E)])].
  - split_and!.
    + intros id r. rewrite Hr. intros [[<- _]|[_ Hl]]%lookup_insert_Some; [lia|]. by eapply Hb'.
    + intros id. rewrite Hr. destruct (decide (id = next_id t)) as [->|Hne]; [|by rewrite lookup_insert_ne].
      rewrite lookup_insert_eq, below_fresh by done. apply around_new. apply Hn.
    + intros id r H1. rewrite Hr. intros [[<- <-]|[_ Hl]]%lookup_insert_Some; [done|congruence].
  - split_and!.
    + intros i r'. rewrite E. intros [[<- _]|[_ Hl]]%lookup_insert_Some; [by apply (Hb' _ _ Hr)|by apply (Hb' _ _ Hl)].
    + intros i. rewrite E. destruct (decide (i = id)) as [->|Hne]; [|by rewrite lookup_insert_ne].
      rewrite lookup_insert_eq, Hr. apply around_moved, out_merge; [done|]. repeat split; cbn; try lia. done.
    + intros i r' H1. rewrite E. intros [[<- _]|[_ Hl]]%lookup_insert_Some; congruence.
  - split_and!; [intros i r'; rewrite E; apply Hb'|intros i; by rewrite E|]. intros i r' H1. rewrite E. congruence.
Qed.

(** ** The statements of a claim *)

Lemma complete_row job now t b t' : _complete job now t = (b, t') ->
  next_id t' = next_id t /\
  ((b = true /\ exists r r', rows t !! c_id job = Some r /\ j_fence r = c_fence job /\ rows t' = <[c_id job := r']> (rows t) /\
     moves r r' DONE 0 0) \/
   (b = false /\ t' = t /\ forall r, rows t !! c_id job = Some r -> j_fence r <> c_fence job)).
Proof.
  unfold _complete. intros H. destruct (update_row_cases (c_id job) (fenced job)
    (fun r => set_row DONE (j_run_at r) (j_attempts r) (j_lease_expiry r) (j_owner r) (j_fence r) (j_last_error r) now r) t)
    as [(r & Hr & Hf & E)|[E Hf]]; rewrite E in H; injection H as <- <-; (split; [done|]).
  - left. split; [done|]. eexists r, _. split; [done|]. split; [by apply Z.eqb_eq|]. split; [done|]. repeat split; cbn; lia.
  - right. split; [done|]. split; [done|]. intros r Hr. by apply Hf, Z.eqb_neq in Hr.
Qed.

Lemma fail_row job error handler permanent source now t b t' : _fail job error handler permanent source now t = Ok (b, t') ->
  let attempts := c_attempts job + 1 in
  let last := permanent || (match handler with Some h => t_max_attempts h | None => c_max_attempts job end <=? attempts) in
  next_id t' = next_id t /\
  ((exists r r', rows t !! c_id job = Some r /\ j_fence r = c_fence job /\ rows t' = <[c_id job := r']> (rows t) /\
     (b = last) /\ same_job r r' /\ j_state r' = (if last then DEAD else READY) /\ j_fence r' = j_fence r /\ j_attempts r' = attempts) \/
   (b = false /\ t' = t /\ forall r, rows t !! c_id job = Some r -> j_fence r <> c_fence job)).
Proof.
  unfold _fail. cbn zeta. set (last := permanent || _). destruct last eqn:Hl.
  - intros [= H]. destruct (update_row_cases (c_id job) (fenced job)
      (fun r => set_row DEAD (j_run_at r) (c_attempts job + 1) (j_lease_expiry r) (j_owner r) (j_fence r) (Some (take 2000 error)) now r) t)
      as [(r & Hr & Hf & E)|[E Hf]]; rewrite E in H; injection H as <- <-; (split; [done|]).
    + left. eexists r, _. split; [done|]. split; [by apply Z.eqb_eq|]. by split_and!.
    + right. split; [done|]. split; [done|]. intros r Hr. by apply Hf, Z.eqb_neq in Hr.
  - intros (delay & Hd & H)%res_bind_Ok. injection H as <- H. destruct (update_row_cases (c_id job) (fenced job)
      (fun r => set_row READY (now + interval delay) (c_attempts job + 1) None None (j_fence r) (Some (take 2000 error)) now r) t)
      as [(r & Hr & Hf & E)|[E Hf]]; rewrite E in H; cbn [snd] in H; subst t'; (split; [done|]).
    + left. eexists r, _. split; [done|]. split; [by apply Z.eqb_eq|]. by split_and!.
    + right. split; [done|]. split; [done|]. intros r Hr. by apply Hf, Z.eqb_neq in Hr.
Qed.

Lemma release_row job now t b t' : _release job now t = (b, t') ->
  next_id t' = next_id t /\
  ((b = true /\ exists r r', rows t !! c_id job = Some r /\ j_fence r = c_fence job /\ j_state r = LEASED /\
     rows t' = <[c_id job := r']> (rows t) /\ moves r r' READY 0 0) \/
   (b = false /\ t' = t /\ forall r, rows t !! c_id job = Some r -> j_fence r = c_fence job -> j_state r <> LEASED)).
Proof.
  unfold _release. intros H. destruct (update_row_cases (c_id job) (fun r => fenced job r && bool_decide (j_state r = LEASED))
    (fun r => set_row READY (j_run_at r) (j_attempts r) None None (j_fence r) (j_last_error r) now r) t)
    as [(r & Hr & Hf & E)|[E Hf]]; rewrite E in H; injection H as <- <-; (split; [done|]).
  - apply andb_true_iff in Hf as [Hf%Z.eqb_eq Hs%bool_decide_eq_true]. left. split; [done|]. eexists r, _.
    split_and!; try done. repeat split; cbn; lia.
  - right. split; [done|]. split; [done|]. intros r Hr Hf1 Hs. apply Hf in Hr. unfold fenced in Hr.
    by rewrite Hf1, Z.eqb_refl, bool_decide_true in Hr.
Qed.

Lemma candidate_Some R now locked t id e : candidate R now locked t id = Some e ->
  e.1 = id /\ rows t !! e.1 = Some e.2 /\ claimable (_name R) now e.2 = true /\ e.1 ∉ locked.
Proof.
  unfold candidate. intros (r & Hr & He)%bind_Some. case_bool_decide; [done|]. destruct (claimable _ _ _) eqn:Hc; [|done].
  by injection He as <-.
Qed.

(** A claim's rows: ready and due, under distinct ids; each is leased. *)
Lemma claimed_rows_spec R now scan locked t :
  Forall (fun e => rows t !! e.1 = Some e.2 /\ claimable (_name R) now e.2 = true /\ e.1 ∉ locked) (claimed_rows R now scan locked t) /\
  (NoDup scan -> NoDup (map fst (claimed_rows R now scan locked t))).
Proof.
  assert (forall e, e ∈ candidates R now scan locked t ->
    rows t !! e.1 = Some e.2 /\ claimable (_name R) now e.2 = true /\ e.1 ∉ locked) as Hc.
  { intros e He. unfold candidates in He. apply list_elem_of_omap in He as (id & _ & He). by apply candidate_Some in He as [_ ?]. }
  assert (NoDup scan -> NoDup (map fst (candidates R now scan locked t))) as Hn.
  { clear Hc. unfold candidates. intros Hn. induction Hn as [|id scan Hni Hn IH]; [constructor|]. cbn [omap list_omap].
    destruct (candidate R now locked t id) as [e|] eqn:He; [|exact IH]. cbn [map]. constructor; [|exact IH].
    apply candidate_Some in He as [-> _]. intros Hin. apply list_elem_of_fmap in Hin as (e' & E & Hin).
    apply list_elem_of_omap in Hin as (i' & Hi & Hin). apply candidate_Some in Hin as [Hi' _]. by subst. }
  unfold claimed_rows. split.
  - apply Forall_forall. intros e He. apply Hc. rewrite <- (sorted_by_perm (claim_key R) (candidates R now scan locked t)).
    eapply sublist_subseteq; [apply (sublist_take _ (Z.to_nat (_batch R)))|done].
  - intros Hs. rewrite <- firstn_map. eapply sublist_NoDup; [|apply sublist_take].
    change (map fst (sorted_by (claim_key R) (candidates R now scan locked t)))
      with (fst <$> sorted_by (claim_key R) (candidates R now scan locked t)).
    rewrite sorted_by_perm. by apply Hn.
Qed.

Lemma claim_jobs R now scan locked t claims t' : NoDup scan -> _claim R now scan locked t = (claims, t') ->
  next_id t' = next_id t /\ NoDup (map c_id claims) /\
  (forall c, c ∈ claims -> exists r, rows t !! c_id c = Some r /\ j_state r = READY /\ j_queue r = _name R /\ j_run_at r <= now /\
     c = _row_to_claim R (c_id c) (lease_row R now r) /\ rows t' !! c_id c = Some (lease_row R now r)) /\
  (forall id, (forall c, c ∈ claims -> c_id c <> id) -> rows t' !! id = rows t !! id).
Proof.
  intros Hs H. unfold _claim in H. destruct (claimed_rows_spec R now scan locked t) as [Hf Hn]. specialize (Hn Hs).
  set (L := claimed_rows R now scan locked t) in *. injection H as <- <-. split; [done|].
  assert (forall l, map c_id (map (fun e => _row_to_claim R e.1 e.2) (map (fun e => (e.1, lease_row R now e.2)) l)) = map fst l) as Hid.
  { intros l. rewrite !map_map. by apply map_ext. }
  split; [by rewrite Hid|]. clearbody L. cbn [rows].
  assert (forall id, (forall e, e ∈ L -> e.1 <> id) ->
    foldr (fun e m => <[e.1 := e.2]> m) (rows t) (map (fun e => (e.1, lease_row R now e.2)) L) !! id = rows t !! id) as Hout.
  { clear. intros id. induction L as [|e L IH]; intros H; [done|]. cbn [map foldr fst snd].
    rewrite lookup_insert_ne; [apply IH; intros e' He'; apply H; by right|]. apply H. left. }
  assert (forall e, e ∈ L -> foldr (fun e m => <[e.1 := e.2]> m) (rows t) (map (fun e => (e.1, lease_row R now e.2)) L) !! e.1 =
    Some (lease_row R now e.2)) as Hin.
  { clear -Hn. induction L as [|e L IH]; intros e' He'; [by apply elem_of_nil in He'|]. cbn [map foldr fst snd] in *.
    apply NoDup_cons in Hn as [Hni Hn]. apply elem_of_cons in He' as [->|He']; [by rewrite lookup_insert_eq|].
    rewrite lookup_insert_ne; [by apply IH|]. intros E. apply Hni. rewrite E. by apply (list_elem_of_fmap_2 fst). }
  split.
  - intros c Hc. apply list_elem_of_fmap in Hc as (e & -> & Hc). apply list_elem_of_fmap in Hc as (e' & -> & Hc).
    rewrite Forall_forall in Hf. destruct (Hf _ Hc) as (Hr & Hcl & _). cbn [fst snd].
    unfold claimable in Hcl. rewrite !andb_true_iff, !bool_decide_eq_true in Hcl. destruct Hcl as [[Hq Hst] Hd%Z.leb_le].
    exists e'.2. cbn [c_id _row_to_claim]. split_and!; try done. by apply Hin.
  - intros id H. apply Hout. intros e He E. 
    apply (H (_row_to_claim R e.1 (lease_row R now e.2))); [|done].
    apply list_elem_of_fmap. exists (e.1, lease_row R now e.2). split; [done|]. apply list_elem_of_fmap. by exists e.
Qed.
End keys.

(** ** Runners as they are built *)

Record task_ok (lease : Q) (t : _Task) : Prop := {
  ok_attempts : 1 <= t_max_attempts t <= 2147483647;
  ok_base : (0 <= t_base t)%Q;
  ok_factor : (0 <= t_factor t)%Q;
  ok_cap : (0 <= t_cap t)%Q;
  ok_jitter : (0 <= t_jitter t <= 1)%Q;
  ok_timeout : forall s, t_timeout t = Some s -> (0 < s < lease)%Q }.

Record runner_ok (R : JobRunner) : Prop := {
  ok_lease : (0 < _lease R)%Q;
  ok_batch : 1 <= _batch R;
  ok_tasks : forall name t, _tasks R !! name = Some t -> task_ok (_lease R) t }.

Lemma runner_init_ok name conc lease poll schema batch wid trace prio R :
  runner_init name conc lease poll schema batch wid trace prio = Ok R -> runner_ok R.
Proof.
  unfold runner_init. destruct (conc <? 1); [done|]. destruct (qle lease 0 || qle poll 0) eqn:Hl; [done|].
  apply orb_false_iff in Hl as [Hl%qle_false _]. destruct (Z.ltb_spec batch 1); [done|].
  intros (n & _ & (sc & _ & (ch & _ & [= <-])%res_bind_Ok)%res_bind_Ok)%res_bind_Ok. split; [done|done|].
  intros m t. cbn [_tasks]. by rewrite lookup_empty.
Qed.

Lemma task_keeps_ok name retries kind base factor cap jitter timeout binds R R' : runner_ok R ->
  task name retries kind base factor cap jitter timeout binds R = Ok R' -> runner_ok R'.
Proof.
  intros [H1 H2 H3]. unfold task. intros (n & _ & H)%res_bind_Ok. destruct (_tasks R !! name); [done|].
  destruct (_ || _) eqn:Hr in H; [done|]. apply orb_false_iff in Hr as [Hr1%Z.ltb_ge Hr2%Z.ltb_ge].
  destruct (_ || _) eqn:Hq in H; [done|]. rewrite !orb_false_iff in Hq. destruct Hq as [[[Hq1 Hq2] Hq3] Hq4].
  destruct (qlt 1 jitter) eqn:Hj; [done|]. destruct (match timeout with Some s => _ | None => _ end) eqn:Ht; [done|]. injection H as <-.
  apply qlt_false in Hq1, Hq2, Hq3, Hq4, Hj. split; [done|done|]. cbn [with_task _tasks _lease]. intros m t.
  intros [[<- <-]|[_ Hl]]%lookup_insert_Some; [|by eapply H3]. split; cbn; try done; [lia|].
  intros s ->. apply orb_false_iff in Ht as [Ht1%qle_false Ht2%qle_false]. done.
Qed.

Lemma drive_keeps_ok {U : UnicodeData} w cron_text no_args R name R' : runner_ok R ->
  drive w cron_text no_args R = Ok (name, R') -> runner_ok R'.
Proof.
  intros H. unfold drive. destruct (qle _ _); [done|]. destruct (_ && _); [done|]. intros (n & _ & Hd)%res_bind_Ok.
  destruct (_tasks R !! n); [done|]. apply res_bind_Ok in Hd as (R1 & Ht & Hd). apply task_keeps_ok in Ht; [|done].
  assert (runner_ok (with_pass n w R1)) as Hp by (destruct Ht; by split). destruct cron_text; [|injection Hd as _ <-; exact Hp].
  apply res_bind_Ok in Hd as (R2 & Hs & [= _ <-]). unfold schedule in Hs. case_bool_decide; [done|].
  apply res_bind_Ok in Hs as (r & _ & [= <-]). destruct Hp. by split.
Qed.

Lemma deadline_nonneg R name : runner_ok R -> (0 <= deadline_for R name)%Q.
Proof.
  intros [H1 _ H3]. unfold deadline_for, DEADLINE_FRACTION. destruct (_tasks R !! name) as [t|] eqn:E; [|lra].
  destruct (t_timeout t) as [s|] eqn:Et; cbn; [|lra]. apply H3 in E. apply (ok_timeout _ _ E) in Et. lra.
Qed.

(** ** Backoff *)

Lemma backoff_bounds attempt kind base factor cap jitter source : 1 <= attempt ->
  (0 <= base)%Q -> (0 <= factor)%Q -> (0 <= cap)%Q -> (0 <= jitter <= 1)%Q -> (0 <= source <= 1)%Q ->
  exists d, compute_backoff attempt kind base factor cap jitter source = Ok d /\ (0 <= d <= cap * (1 + jitter))%Q.
Proof.
  intros Ha Hb Hf Hc [Hj1 Hj2] [Hs1 Hs2]. unfold compute_backoff. rewrite (proj2 (Z.ltb_ge attempt 1)) by done.
  rewrite (proj2 (qlt_false base 0)), (proj2 (qlt_false factor 0)), (proj2 (qlt_false cap 0)), (proj2 (qlt_false jitter 0)),
    (proj2 (qlt_false 1 jitter)) by done. cbn [orb].
  set (raw := match kind with Fixed => _ | Linear => _ | Exp => _ end).
  assert (0 <= raw)%Q as Hraw.
  { unfold raw. destruct kind; [|apply Qmult_le_0_compat; [done|]|done].
    - apply Qmult_le_0_compat; [done|]. by apply Qpower_0_le.
    - change 0%Q with (inject_Z 0). rewrite <- Zle_Qle. lia. }
  set (delay := if qlt cap raw then cap else raw).
  assert (0 <= delay <= cap)%Q as [Hd1 Hd2].
  { unfold delay. destruct (qlt cap raw) eqn:E; [by split; [|apply Qle_refl]|]. by apply qlt_false in E. }
  clearbody delay. clear raw Hraw.
  assert (0 <= delay * jitter)%Q as H1 by (by apply Qmult_le_0_compat).
  assert (0 <= (cap - delay) * (1 + jitter))%Q as H2 by (apply Qmult_le_0_compat; lra).
  assert (0 <= delay * jitter * (1 - source))%Q as H3 by (apply Qmult_le_0_compat; [done|lra]).
  assert (0 <= cap * jitter)%Q as H4 by (by apply Qmult_le_0_compat).
  destruct (qlt 0 jitter) eqn:Ej.
  - rewrite (proj2 (qle_true 0 source)), (proj2 (qle_true source 1)) by done. cbn [andb negb]. eexists. split; [done|].
    split; [apply Q.le_max_l|]. apply Q.max_lub; lra.
  - eexists. split; [done|]. split; [apply Q.le_max_l|]. apply Q.max_lub; lra.
Qed.
