(* ===== verification/JobSystem.v ===== *)
(** * Workers over the jobs table

    The processes of [JobQueue]: each worker claims, runs its claims one after
    another and records what came of them, while rows are enqueued, cancelled,
    swept and purged around it.  Every statement has its own [now()], no later
    than the moment it takes effect; workers stop, lose a claim or die at any
    point.  Time passes as long as no handler outlasts its deadline. *)

From stdpp Require Import base sets strings numbers list gmap fin_maps.
From Stdlib Require Import ZArith QArith Qround Lia.
From S2P Require Import Prelude PyCollections Idempotency TokenBucket JobQueue JobFacts.
#[local] Open Scope Z_scope.

Lemma size_remove (x : Z) (P : gset Z) : x ∈ P -> S (size (P ∖ {[x]})) = size P.
Proof.
  intros Hx. pose proof (size_union {[x]} (P ∖ {[x]}) ltac:(set_solver)) as H. rewrite size_singleton in H.
  assert ({[x]} ∪ P ∖ {[x]} = P) as E. { apply set_eq. intros y. destruct (decide (y = x)); set_solver. } rewrite E in H. lia.
Qed.

(** ** Workers

    The rows of a claim come back in any order, so which pending claim is next
    is a choice of the step. *)

(** A claim and the lease it came with. *)
Record held : Type := mk_held { h_claim : _Claimed; h_expiry : Z }.

(** How [_run] ends: the handler returned, or [_fail] is called. *)
Inductive outcome : Type := Completed | Failing (error : pystr) (permanent : bool).

Inductive phase : Type :=
| Idle
| Running (h : held) (started : Z)
| Recording (h : held) (o : outcome).

Record worker : Type := mk_worker { w_pending : list held; w_phase : phase; w_stopping : bool }.

Definition resting : worker := mk_worker [] Idle false.

(** [s_starts]: the job and the fence of every handler started, in any process. *)
Record sys : Type := mk_sys {
  s_clock : Z;
  s_jobs : jobs;
  s_workers : gmap Z worker;
  s_starts : list (Z * Z) }.

Definition worker_at (s : sys) (w : Z) : worker := default resting (s_workers s !! w).

Definition set_worker (w : Z) (k : worker) (s : sys) : sys :=
  mk_sys (s_clock s) (s_jobs s) (<[w := k]> (s_workers s)) (s_starts s).

Definition set_jobs (t : jobs) (s : sys) : sys := mk_sys (s_clock s) t (s_workers s) (s_starts s).

Inductive event : Type :=
| E_tick (d : Z)
| E_claim (w now : Z) (scan : list Z) (locked : gset Z)
| E_start (w : Z) (i : nat) (refusal : pystr)
| E_end (w : Z) (error : option pystr)
| E_record (w now : Z) (source : Q)
| E_drop (w : Z)
| E_crash (w : Z)
| E_stop (w : Z)
| E_release (w : Z) (i : nat) (now : Z)
| E_sweep (w now : Z)
| E_enqueue (w : Z) (e : enqueue_args) (now : Z)
| E_cancel (w : Z) (job_id : option Z) (key : option pystr) (reason tenant : pystr) (now : Z)
| E_purge (w : Z) (older_than : Q) (now : Z).

Section system.
Context (blake2s : bytes -> pystr).

(** The runner a worker belongs to. *)
Context (runner_of : Z -> JobRunner).

(** The whole microseconds a handler may run. *)
Definition allowed (w : Z) (h : held) : Z := Qfloor (deadline_for (runner_of w) (c_task (h_claim h)) * 1000000).

(** The handler of a worker is within its deadline at [clock]. *)
Definition in_time (clock w : Z) (k : worker) : bool :=
  match w_phase k with Running h started => clock <=? started + allowed w h | _ => true end.

Definition all_in_time (clock : Z) (s : sys) : bool :=
  forallb (fun e => in_time clock e.1 e.2) (map_to_list (s_workers s)).

Definition claim_held (w now : Z) (c : _Claimed) : held := mk_held c (now + interval (_lease (runner_of w))).

(** [_run] up to the handler: it starts, or [_fail] is called at once. *)
Definition begin (w : Z) (refusal : pystr) (h : held) (rest : list held) (s : sys) : sys :=
  let c := h_claim h in
  match _tasks (runner_of w) !! c_task c with
  | None => set_worker w (mk_worker rest (Recording h (Failing refusal false)) false) s
  | Some t =>
    if t_binds t (c_args c) then
      let s := set_worker w (mk_worker rest (Running h (s_clock s)) false) s in
      mk_sys (s_clock s) (s_jobs s) (s_workers s) ((c_id c, c_fence c) :: s_starts s)
    else set_worker w (mk_worker rest (Recording h (Failing refusal true)) false) s
  end.

Definition record (w now : Z) (source : Q) (h : held) (o : outcome) (t : jobs) : option jobs :=
  let c := h_claim h in
  match o with
  | Completed => Some (snd (_complete c now t))
  | Failing error permanent =>
    match _fail c error (_tasks (runner_of w) !! c_task c) permanent source now t with
    | Ok (_, t) => Some t
    | Err _ => None
    end
  end.

Definition step (e : event) (s : sys) : option sys :=
  match e with
  | E_tick d =>
    if (0 <=? d) && all_in_time (s_clock s + d) s
    then Some (mk_sys (s_clock s + d) (s_jobs s) (s_workers s) (s_starts s)) else None
  | E_claim w now scan locked =>
    match worker_at s w with
    | mk_worker [] Idle false =>
      if (now <=? s_clock s) && bool_decide (NoDup scan) then
        let '(claims, t) := _claim (runner_of w) now scan locked (s_jobs s) in
        Some (set_worker w (mk_worker (map (claim_held w now) claims) Idle false) (set_jobs t s))
      else None
    | _ => None
    end
  | E_start w i refusal =>
    match worker_at s w with
    | mk_worker pending Idle false => h ← pending !! i; Some (begin w refusal h (delete i pending) s)
    | _ => None
    end
  | E_end w error =>
    match worker_at s w with
    | mk_worker rest (Running h _) stopping =>
      let o := match error with None => Completed | Some e => Failing e false end in
      Some (set_worker w (mk_worker rest (Recording h o) stopping) s)
    | _ => None
    end
  | E_record w now source =>
    match worker_at s w with
    | mk_worker rest (Recording h o) stopping =>
      if now <=? s_clock s then
        t ← record w now source h o (s_jobs s);
        Some (set_worker w (mk_worker rest Idle stopping) (set_jobs t s))
      else None
    | _ => None
    end
  | E_drop w =>
    let k := worker_at s w in Some (set_worker w (mk_worker (w_pending k) Idle (w_stopping k)) s)
  | E_crash w => Some (set_worker w resting s)
  | E_stop w => let k := worker_at s w in Some (set_worker w (mk_worker (w_pending k) (w_phase k) true) s)
  | E_release w i now =>
    match worker_at s w with
    | mk_worker pending p true =>
      if now <=? s_clock s then
        h ← pending !! i;
        Some (set_worker w (mk_worker (delete i pending) p true) (set_jobs (snd (_release (h_claim h) now (s_jobs s))) s))
      else None
    | _ => None
    end
  | E_sweep w now =>
    if now <=? s_clock s then Some (set_jobs (_reclaim_expired (runner_of w) now (s_jobs s)) s) else None
  | E_enqueue w e now =>
    if now <=? s_clock s then
      match enqueue blake2s (runner_of w) e now (s_jobs s) with Ok (_, t) => Some (set_jobs t s) | Err _ => None end
    else None
  | E_cancel w job_id key reason tenant now =>
    if now <=? s_clock s then
      match cancel blake2s (runner_of w) job_id key reason None tenant now (s_jobs s) with
      | Ok (_, t) => Some (set_jobs t s)
      | Err _ => None
      end
    else None
  | E_purge w older_than now =>
    if now <=? s_clock s then
      match purge (runner_of w) older_than now (s_jobs s) with Ok t => Some (set_jobs t s) | Err _ => None end
    else None
  end.

Definition start_of (clock : Z) : sys := mk_sys clock (mk_jobs 1 ∅) ∅ [].

Inductive reachable (clock : Z) : sys -> Prop :=
| reach_start : reachable clock (start_of clock)
| reach_step s e s' : reachable clock s -> step e s = Some s' -> reachable clock s'.

Fixpoint run (es : list event) (s : sys) : option sys :=
  match es with [] => Some s | e :: es => s ← step e s; run es s end.

Lemma run_reachable clock es : forall s s', reachable clock s -> run es s = Some s' -> reachable clock s'.
Proof.
  induction es as [|e es IH]; intros s s' Hs; cbn [run]; [by intros [= <-]|].
  destruct (step e s) as [s1|] eqn:He; [cbn|done]. apply IH. by eapply reach_step.
Qed.

(** ** What workers hold *)

Definition phase_claims (p : phase) : list held :=
  match p with Idle => [] | Running h _ | Recording h _ => [h] end.

Definition claims_of (k : worker) : list held := w_pending k ++ phase_claims (w_phase k).

Definition ticket (h : held) : Z * Z := (c_id (h_claim h), c_fence (h_claim h)).

Definition holds (s : sys) (w : Z) (h : held) : Prop := h ∈ claims_of (worker_at s w).

Definition pending (s : sys) (w : Z) (h : held) : Prop := h ∈ w_pending (worker_at s w).

(** A claim and the row it is of: the row is leased by it, or has moved on after
    its lease, or is dead. *)
Record agrees (clock : Z) (h : held) (r : row) : Prop := {
  ag_task : c_task (h_claim h) = j_task r;
  ag_max : c_max_attempts (h_claim h) = j_max_attempts r;
  ag_fence : c_fence (h_claim h) <= j_fence r;
  ag_current : c_fence (h_claim h) = j_fence r ->
    j_state r = LEASED /\ j_lease_expiry r = Some (h_expiry h) /\ c_attempts (h_claim h) = j_attempts r;
  ag_stale : c_fence (h_claim h) < j_fence r -> j_state r = DEAD \/ h_expiry h < clock }.

(** A bound on the attempts of a job. *)
Definition limit (r : row) (M : Z) : Prop :=
  j_max_attempts r <= M /\ forall w t, _tasks (runner_of w) !! j_task r = Some t -> t_max_attempts t <= M.

(** The handlers a job may have started. *)
Definition budget (r : row) (M : Z) : Z :=
  match j_state r with READY => j_attempts r | LEASED => j_attempts r + 1 | _ => M end.

(** The fences under which a job was or may yet be started. *)
Definition spent_on (s : sys) (id : Z) (P : gset Z) : Prop :=
  (forall f, (id, f) ∈ s_starts s -> f ∈ P) /\
  (forall w h, pending s w h -> c_id (h_claim h) = id -> c_fence (h_claim h) ∈ P).

Definition within_budget (s : sys) (id : Z) (r : row) : Prop :=
  forall M, limit r M ->
    (unfinished r = true -> j_attempts r < M) /\ exists P, spent_on s id P /\ Z.of_nat (size P) <= budget r M.

Record Inv (s : sys) : Prop := {
  inv_below : below (s_jobs s);
  inv_held : forall w h, holds s w h -> c_id (h_claim h) < next_id (s_jobs s) /\
    forall r, rows (s_jobs s) !! c_id (h_claim h) = Some r -> agrees (s_clock s) h r;
  inv_order : forall w1 h1 w2 h2, holds s w1 h1 -> holds s w2 h2 ->
    c_id (h_claim h1) = c_id (h_claim h2) -> c_fence (h_claim h1) < c_fence (h_claim h2) -> h_expiry h1 < s_clock s;
  inv_once : forall w1 h1 w2 h2, holds s w1 h1 -> holds s w2 h2 -> ticket h1 = ticket h2 -> w1 = w2;
  inv_distinct : forall w, NoDup (ticket <$> claims_of (worker_at s w));
  inv_pending : forall w h, pending s w h -> ticket h ∉ s_starts s;
  inv_starts : forall id f, (id, f) ∈ s_starts s -> id < next_id (s_jobs s) /\
    forall r, rows (s_jobs s) !! id = Some r -> f <= j_fence r;
  inv_started_once : NoDup (s_starts s);
  inv_budget : forall id r, rows (s_jobs s) !! id = Some r -> within_budget s id r }.

(** Registered handlers may be attempted at least once ([task] adds one to
    [retries]). *)
Definition attempts_once : Prop := forall w n t, _tasks (runner_of w) !! n = Some t -> 1 <= t_max_attempts t.

Lemma submseteq_nodup {A} (l k : list A) : l ⊆+ k -> NoDup k -> NoDup l.
Proof. intros [m ->]%submseteq_Permutation H. by apply NoDup_app in H as [? _]. Qed.

Lemma pending_holds s w h : pending s w h -> holds s w h.
Proof. intros H. apply elem_of_app. by left. Qed.

Lemma worker_at_set s w k w' : worker_at (set_worker w k s) w' = if decide (w' = w) then k else worker_at s w'.
Proof.
  unfold worker_at, set_worker. cbn [s_workers]. destruct (decide (w' = w)) as [->|Hne].
  - by rewrite lookup_insert_eq.
  - by rewrite lookup_insert_ne by done.
Qed.

Lemma start_inv clock : Inv (start_of clock).
Proof.
  assert (forall w, claims_of (worker_at (start_of clock) w) = []) as Hc.
  { intros w. unfold worker_at, start_of. cbn [s_workers]. by rewrite lookup_empty. }
  assert (forall w h, ~ holds (start_of clock) w h) as Hh.
  { intros w h. unfold holds. rewrite Hc. apply not_elem_of_nil. }
  split; try (by intros w h Hp%pending_holds; apply Hh in Hp); try (by intros ? ? ? ? Hf; apply Hh in Hf);
    try (by intros ? ? Hf; apply Hh in Hf).
  - intros id r. cbn. by rewrite lookup_empty.
  - intros w. rewrite Hc. constructor.
  - intros id f Hf. cbn in Hf. by apply elem_of_nil in Hf.
  - constructor.
  - intros id r. cbn. by rewrite lookup_empty.
Qed.

(** *** Workers move, rows stay *)

Lemma workers_move s s' :
  s_jobs s' = s_jobs s -> s_clock s <= s_clock s' ->
  (forall w, claims_of (worker_at s' w) ⊆+ claims_of (worker_at s w)) ->
  (forall w h, pending s' w h -> pending s w h /\ ticket h ∉ s_starts s') ->
  (forall x, x ∈ s_starts s' -> x ∈ s_starts s \/ exists w h, pending s w h /\ x = ticket h) ->
  NoDup (s_starts s') ->
  Inv s -> Inv s'.
Proof.
  intros Et Hclock Hw Hp Hst Hnd H.
  assert (forall w h, holds s' w h -> holds s w h) as Hh.
  { intros w h Hh. unfold holds in *. specialize (Hw w). by apply (elem_of_submseteq _ _ _ Hh) in Hw. }
  destruct H as [H1 H2 H3 H4 H5 H6 H7 H8 H9]. split; try rewrite Et.
  - done.
  - intros w h Hhh. apply Hh in Hhh. destruct (H2 w h Hhh) as [Hlt Ha]. split; [done|]. intros r Hr. destruct (Ha r Hr) as [? ? ? ? Hs].
    split; try done. intros Hf. destruct (Hs Hf); [by left|right; lia].
  - intros w1 h1 w2 h2 Hh1 Hh2 Hid Hf. apply Hh in Hh1, Hh2. specialize (H3 _ _ _ _ Hh1 Hh2 Hid Hf). lia.
  - intros w1 h1 w2 h2 Hh1 Hh2. by apply H4; apply Hh.
  - intros w. eapply submseteq_nodup; [|exact (H5 w)]. apply fmap_submseteq, Hw.
  - intros w h Hpp. by apply Hp in Hpp as [_ ?].
  - intros id f Hf. apply Hst in Hf as [Hf|(w & h & Hpp & E)]; [by apply H7|]. unfold ticket in E. injection E as -> ->.
    apply pending_holds in Hpp. destruct (H2 _ _ Hpp) as [Hlt Ha]. split; [done|]. intros r Hr. by apply Ha in Hr as [].
  - done.
  - intros id r Hr M HM. destruct (H9 id r Hr M HM) as [Ha (P & [HP1 HP2] & Hs)]. split; [done|]. exists P. split; [|done]. split.
    + intros f Hf. apply Hst in Hf as [Hf|(w & h & Hpp & E)]; [by apply HP1|]. injection E as -> ->. by eapply HP2.
    + intros w h Hpp. apply Hp in Hpp as [Hpp _]. by eapply HP2.
Qed.

Lemma worker_shrinks s w k : Inv s -> claims_of k ⊆+ claims_of (worker_at s w) ->
  (forall h, h ∈ w_pending k -> h ∈ w_pending (worker_at s w)) -> Inv (set_worker w k s).
Proof.
  intros H Hc Hp. apply (workers_move s); [done|cbn; lia|..]; [|
    intros w' h' Hh'; unfold pending in *; rewrite worker_at_set in Hh'|by left|by apply H|done].
  - intros w'. rewrite worker_at_set. destruct (decide (w' = w)) as [->|]; done.
  - assert (pending s w' h') as Hh by (destruct (decide (w' = w)) as [->|]; [by apply Hp|done]).
    split; [exact Hh|by eapply (inv_pending _ H)].
Qed.

(** *** Statements around the workers *)

Lemma limit_same r r' M : same_job r r' -> limit r' M -> limit r M.
Proof. intros [] [H1 H2]. split; [congruence|]. intros w t Ht. apply (H2 w). congruence. Qed.

Lemma outside_agrees now clock h r r' : outside now r r' -> now <= clock -> agrees clock h r -> agrees clock h r'.
Proof.
  intros Ho Hn [A1 A2 A3 A4 A5].
  destruct Ho as [Hs (Hj & Hs' & Hf & Ha)|Hu (Hj & Hs' & Hf & Ha)|e Hs He Hlt (Hj & Hs' & Hf & Ha)]; destruct Hj; (split; [congruence|congruence|lia|..]).
  - intros E. destruct A4 as [A4 _]; [lia|]. congruence.
  - intros Hl. destruct A5 as [A5|A5]; [lia|congruence|by right].
  - lia.
  - intros _. by left.
  - lia.
  - intros _. destruct (decide (c_fence (h_claim h) = j_fence r)) as [E|E].
    + destruct (A4 E) as (_ & He' & _). right. rewrite He in He'. injection He' as ->. lia.
    + destruct A5 as [A5|A5]; [lia|congruence|by right].
Qed.

Lemma outside_budget now s id r r' : outside now r r' -> within_budget s id r -> within_budget s id r'.
Proof.
  intros Ho Hb M HM.
  assert (same_job r r') as Hj by (destruct Ho as [? Hm|? Hm|? ? ? ? Hm]; apply Hm).
  destruct (Hb M (limit_same _ _ _ Hj HM)) as [Hlt (P & HP & Hsz)]. destruct HM as [HM _].
  unfold budget in *. 
  destruct Ho as [Hs (_ & Hs' & Hf & Ha)|Hu (_ & Hs' & Hf & Ha)|e Hs He Hl (_ & Hs' & Hf & Ha)].
  - rewrite Hs in Hsz. rewrite Hs'. split; [intros _; rewrite Ha, Z.add_0_r; apply Hlt, unfinished_spec; by left|].
    exists P. split; [done|lia].
  - specialize (Hlt Hu). rewrite Hs'. split; [intros Hu'; apply unfinished_spec in Hu' as [?|?]; congruence|].
    exists P. split; [done|]. apply unfinished_spec in Hu as [E|E]; rewrite E in Hsz; lia.
  - assert (j_attempts r < M) by (apply Hlt, unfinished_spec; by right). rewrite Hs in Hsz. destruct Hj.
    destruct (Z.leb_spec (j_max_attempts r) (j_attempts r + 1)); rewrite Hs'.
    + split; [intros Hu'; apply unfinished_spec in Hu' as [?|?]; congruence|]. exists P. split; [done|lia].
    + split; [intros _; lia|]. exists P. split; [done|lia].
Qed.

Lemma around_keeps s now t' : Inv s -> now <= s_clock s ->
  next_id (s_jobs s) <= next_id t' -> below t' -> (forall id, around now (rows (s_jobs s) !! id) (rows t' !! id)) ->
  (forall id r, rows (s_jobs s) !! id = None -> rows t' !! id = Some r ->
     next_id (s_jobs s) <= id /\ forall M, limit r M -> 1 <= M) ->
  Inv (set_jobs t' s).
Proof.
  intros [H1 H2 H3 H4 H5 H6 H7 H8 H9] Hn Hid Hb Har Hnew. split; cbn [set_jobs s_jobs s_clock s_starts]; try done.
  - intros w h Hh. destruct (H2 w h Hh) as [Hlt Ha]. split; [lia|]. intros r' Hr'.
    specialize (Har (c_id (h_claim h))). rewrite Hr' in Har. inversion Har as [? E|? ? E|r ? Ho E| ]; subst.
    + by apply Ha.
    + symmetry in E. destruct (Hnew _ _ E Hr'). lia.
    + eapply outside_agrees; [done|done|]. by apply Ha.
  - intros id f Hf. destruct (H7 id f Hf) as [Hlt Ha]. split; [lia|]. intros r' Hr'.
    specialize (Har id). rewrite Hr' in Har. inversion Har as [? E|? ? E|r ? Ho E| ]; subst.
    + by apply Ha.
    + symmetry in E. destruct (Hnew _ _ E Hr'). lia.
    + symmetry in E. apply Ha in E. destruct Ho as [? Hm|? Hm|? ? ? ? Hm]; destruct Hm as (_ & _ & -> & _); lia.
  - intros id r' Hr'. specialize (Har id). rewrite Hr' in Har. inversion Har as [? E|? Hf E|r ? Ho E| ]; subst.
    + by apply H9.
    + intros M HM. symmetry in E. destruct (Hnew _ _ E Hr') as [Hge H1M]. specialize (H1M M HM). destruct Hf as (Hs & Ha & _).
      split; [intros _; lia|]. exists ∅. split; [split|unfold budget; rewrite Hs, size_empty; lia].
      * intros f Hf. apply H7 in Hf. lia.
      * intros w h Hp%pending_holds Ec. apply H2 in Hp. cbn in Hp. lia.
    + symmetry in E. exact (outside_budget now s id r r' Ho (H9 id r E)).
Qed.

(** *** A claim's holder writes *)

Lemma spent_shrinks s w k t' id P :
  (forall h, h ∈ w_pending k -> h ∈ w_pending (worker_at s w)) ->
  spent_on s id P -> spent_on (set_worker w k (set_jobs t' s)) id P.
Proof.
  intros Hp [HP1 HP2]. split; [exact HP1|]. intros w' h Hh. unfold pending in Hh. rewrite worker_at_set in Hh.
  destruct (decide (w' = w)) as [->|]; [apply Hp in Hh|]; by eapply HP2.
Qed.

(** With its claim gone, nobody holds the ticket. *)
Lemma ticket_gone s w h k t' w' h' : Inv s -> claims_of (worker_at s w) ≡ₚ h :: claims_of k ->
  holds (set_worker w k (set_jobs t' s)) w' h' -> holds s w' h' /\ ticket h' <> ticket h.
Proof.
  intros H Hc Hh. unfold holds in Hh. rewrite worker_at_set in Hh.
  assert (NoDup (ticket <$> h :: claims_of k)) as Hnd by (rewrite <- Hc; apply H).
  apply NoDup_cons in Hnd as [Hnd _]. destruct (decide (w' = w)) as [->|Hne].
  - split; [unfold holds; rewrite Hc; by right|]. intros E. apply Hnd. rewrite <- E. by apply list_elem_of_fmap_2.
  - split; [done|]. intros E. apply Hne. eapply (inv_once _ H w' h' w h); [done| |done]. unfold holds. rewrite Hc. by left.
Qed.

Lemma holder_writes s w h k r r' :
  let id := c_id (h_claim h) in
  let s' := set_worker w k (set_jobs (mk_jobs (next_id (s_jobs s)) (<[id := r']> (rows (s_jobs s)))) s) in
  Inv s -> claims_of (worker_at s w) ≡ₚ h :: claims_of k ->
  (forall h, h ∈ w_pending k -> h ∈ w_pending (worker_at s w)) ->
  rows (s_jobs s) !! id = Some r -> j_fence r = c_fence (h_claim h) -> same_job r r' -> j_fence r' = j_fence r ->
  within_budget s' id r' -> Inv s'.
Proof.
  intros id s' H Hc Hp Hr Hf Hj Hf' Hbud. pose proof H as [H1 H2 H3 H4 H5 H6 H7 H8 H9].
  assert (forall w' h', holds s' w' h' -> holds s w' h' /\ (c_id (h_claim h') = id -> c_fence (h_claim h') <> c_fence (h_claim h))) as Hh.
  { intros w' h' Hh. destruct (ticket_gone _ _ _ _ _ _ _ H Hc Hh) as [Hh' Hne]. split; [done|]. intros E1 E2. apply Hne.
    unfold ticket. unfold id in E1. congruence. }
  assert (holds s w h) as Hhold by (unfold holds; rewrite Hc; by left).
  destruct (H2 w h Hhold) as [_ Hag]. destruct (Hag r Hr) as [_ _ _ Hcur _]. destruct (Hcur (eq_sym Hf)) as (Hleased & _).
  split; cbn [s' set_worker set_jobs s_jobs s_clock s_starts next_id rows].
  - intros i r0. cbn [rows next_id]. intros [[<- _]|[_ Hl]]%lookup_insert_Some; [by apply (H1 id r)|by apply (H1 i r0)].
  - intros w' h' Hh'. apply Hh in Hh' as [Hh' Hne]. destruct (H2 w' h' Hh') as [Hlt Ha]. split; [done|].
    intros r0 [[E <-]|[_ Hl]]%lookup_insert_Some; [|by apply Ha]. rewrite <- E in Ha, Hne. destruct (Ha r Hr) as [A1 A2 A3 A4 A5].
    specialize (Hne eq_refl). destruct Hj. split; try congruence; try lia.
    intros _. destruct A5 as [A5|A5]; [lia|congruence|by right].
  - intros w1 h1 w2 h2 Hh1 Hh2. apply Hh in Hh1 as [Hh1 _], Hh2 as [Hh2 _]. by eapply H3.
  - intros w1 h1 w2 h2 Hh1 Hh2. apply Hh in Hh1 as [Hh1 _], Hh2 as [Hh2 _]. by apply H4.
  - intros w'. change (worker_at s' w') with (worker_at (set_worker w k s) w'). rewrite worker_at_set.
    destruct (decide (w' = w)) as [->|]; [|apply H5]. specialize (H5 w). rewrite Hc in H5. by apply NoDup_cons in H5 as [_ ?].
  - intros w' h' Hp'. unfold pending in Hp'. change (worker_at s' w') with (worker_at (set_worker w k s) w') in Hp'.
    rewrite worker_at_set in Hp'. destruct (decide (w' = w)) as [->|]; [apply Hp in Hp'|]; by eapply H6.
  - intros i f Hi. destruct (H7 i f Hi) as [Hlt Ha]. split; [done|].
    intros r0 [[<- <-]|[_ Hl]]%lookup_insert_Some; [rewrite Hf'|]; by apply Ha.
  - done.
  - intros i r0 [[<- <-]|[Hne Hl]]%lookup_insert_Some; [exact Hbud|]. intros M HM. destruct (H9 i r0 Hl M HM) as [Hlt (P & HP & Hs)].
    split; [done|]. exists P. split; [|done]. by apply spent_shrinks.
Qed.

(** *** Claims *)

Section claim.
Context (s : sys) (w now : Z) (scan : list Z) (locked : gset Z) (claims : list _Claimed) (t' : jobs).
Hypothesis Hinv : Inv s.
Hypothesis Hscan : NoDup scan.
Hypothesis Hidle : claims_of (worker_at s w) = [].
Hypothesis Hclaim : _claim (runner_of w) now scan locked (s_jobs s) = (claims, t').

#[local] Definition claiming : worker := mk_worker (map (claim_held w now) claims) Idle false.
#[local] Definition after_claim : sys := set_worker w claiming (set_jobs t' s).

Lemma claimed_row c : c ∈ claims -> exists r, rows (s_jobs s) !! c_id c = Some r /\ j_state r = READY /\
  c = _row_to_claim (runner_of w) (c_id c) (lease_row (runner_of w) now r) /\ rows t' !! c_id c = Some (lease_row (runner_of w) now r).
Proof.
  destruct (claim_jobs _ _ _ _ _ _ _ Hscan Hclaim) as (_ & _ & Hin & _). intros Hc.
  destruct (Hin c Hc) as (r & ? & ? & _ & _ & ? & ?). eauto.
Qed.

Lemma claim_ids : next_id t' = next_id (s_jobs s) /\ NoDup (map c_id claims).
Proof. destruct (claim_jobs _ _ _ _ _ _ _ Hscan Hclaim) as (? & ? & _). done. Qed.

Lemma claim_rows i : (exists c, c ∈ claims /\ c_id c = i) \/ rows t' !! i = rows (s_jobs s) !! i.
Proof.
  destruct (claim_jobs _ _ _ _ _ _ _ Hscan Hclaim) as (_ & _ & _ & Hout). destruct (decide (i ∈ map c_id claims)) as [Hi|Hi].
  - left. apply list_elem_of_fmap in Hi as (c & -> & Hc). by exists c.
  - right. apply Hout. intros c Hc E. apply Hi. rewrite <- E. by apply (list_elem_of_fmap_2 c_id).
Qed.

Lemma claim_same c c' : c ∈ claims -> c' ∈ claims -> c_id c = c_id c' -> c = c'.
Proof.
  intros Hc Hc' E. destruct (claimed_row c Hc) as (r & Hr & _ & -> & _), (claimed_row c' Hc') as (r' & Hr' & _ & -> & _).
  cbn [c_id _row_to_claim] in *. congruence.
Qed.

Lemma claim_holds w' h : holds after_claim w' h ->
  (w' = w /\ exists c, c ∈ claims /\ h = claim_held w now c) \/ (w' <> w /\ holds s w' h).
Proof.
  intros Hh. unfold holds, after_claim in Hh. rewrite worker_at_set in Hh. destruct (decide (w' = w)) as [->|]; [left|by right].
  split; [done|]. unfold claims_of, claiming in Hh. cbn [w_pending w_phase phase_claims] in Hh. rewrite app_nil_r in Hh.
  apply list_elem_of_fmap in Hh as (c & -> & Hc). by exists c.
Qed.

Lemma claim_pending w' h : pending after_claim w' h ->
  (exists c, c ∈ claims /\ h = claim_held w now c) \/ pending s w' h.
Proof.
  intros Hp. unfold pending, after_claim in Hp. rewrite worker_at_set in Hp. destruct (decide (w' = w)) as [->|]; [left|by right].
  apply list_elem_of_fmap in Hp as (c & -> & Hc). by exists c.
Qed.

(** Another worker's claim of a job that is claimed now is behind it, and its
    lease is over. *)
Lemma claim_old w' h c : holds s w' h -> c ∈ claims -> c_id (h_claim h) = c_id c ->
  c_fence (h_claim h) < c_fence c /\ h_expiry h < s_clock s.
Proof.
  intros Hh Hc E. destruct (inv_held _ Hinv _ _ Hh) as [_ Ha], (claimed_row c Hc) as (r & Hr & Hs & Ec & _). rewrite E in Ha.
  destruct (Ha r Hr) as [_ _ Hle Hcur Hst]. rewrite Ec. cbn. split; [lia|].
  destruct (decide (c_fence (h_claim h) = j_fence r)) as [Ef|Ef]; [destruct (Hcur Ef); congruence|].
  destruct Hst as [Hst|Hst]; [lia|congruence|done].
Qed.

Lemma claim_agrees w' h : holds after_claim w' h -> c_id (h_claim h) < next_id t' /\
  forall r, rows t' !! c_id (h_claim h) = Some r -> agrees (s_clock s) h r.
Proof.
  destruct claim_ids as [-> _]. intros [(-> & c & Hc & ->)|[Hne Hh]]%claim_holds.
  - destruct (claimed_row c Hc) as (r0 & Hr0 & Hs0 & Ec & Hr'). cbn [claim_held h_claim h_expiry].
    split; [by eapply (inv_below _ Hinv)|]. intros r E. rewrite Hr' in E. injection E as <-. rewrite Ec. split; try done. cbn. lia.
  - destruct (inv_held _ Hinv _ _ Hh) as [Hlt Ha]. split; [done|]. intros r Hr. destruct (claim_rows (c_id (h_claim h))) as [(c & Hc & E)|E].
    + destruct (claimed_row c Hc) as (r0 & Hr0 & Hs0 & Ec & Hr'). destruct (claim_old w' h c Hh Hc (eq_sym E)) as [Hf ?].
      rewrite <- E, Hr' in Hr. injection Hr as <-. rewrite <- E in Ha. destruct (Ha r0 Hr0). rewrite Ec in Hf. cbn in Hf.
      split; try done; cbn; lia.
    + rewrite E in Hr. by apply Ha.
Qed.

Lemma claim_order w1 h1 w2 h2 : holds after_claim w1 h1 -> holds after_claim w2 h2 ->
  c_id (h_claim h1) = c_id (h_claim h2) -> c_fence (h_claim h1) < c_fence (h_claim h2) -> h_expiry h1 < s_clock s.
Proof.
  intros [(-> & c1 & Hc1 & ->)|[N1 Hh1]]%claim_holds [(-> & c2 & Hc2 & ->)|[N2 Hh2]]%claim_holds E Hf; cbn [claim_held h_claim] in *.
  - rewrite (claim_same _ _ Hc1 Hc2 E) in Hf. lia.
  - destruct (claim_old w2 h2 c1 Hh2 Hc1 (eq_sym E)). lia.
  - by destruct (claim_old w1 h1 c2 Hh1 Hc2 E).
  - by eapply (inv_order _ Hinv w1 h1 w2 h2).
Qed.

Lemma claim_once w1 h1 w2 h2 : holds after_claim w1 h1 -> holds after_claim w2 h2 -> ticket h1 = ticket h2 -> w1 = w2.
Proof.
  assert (forall w' h c, holds s w' h -> c ∈ claims -> ticket h <> ticket (claim_held w now c)) as Hdiff.
  { intros w' h c Hh Hc E. unfold ticket in E. cbn [claim_held h_claim] in E. injection E as E1 E2.
    destruct (claim_old w' h c Hh Hc E1). lia. }
  intros [(-> & c1 & Hc1 & ->)|[N1 Hh1]]%claim_holds [(-> & c2 & Hc2 & ->)|[N2 Hh2]]%claim_holds E.
  - done.
  - by destruct (Hdiff w2 h2 c1 Hh2 Hc1).
  - by destruct (Hdiff w1 h1 c2 Hh1 Hc2).
  - by eapply (inv_once _ Hinv).
Qed.

Lemma claim_budget i r : rows t' !! i = Some r -> within_budget after_claim i r.
Proof.
  intros Hr M HM. destruct (claim_rows i) as [(c & Hc & <-)|E].
  - destruct (claimed_row c Hc) as (r0 & Hr0 & Hs0 & Ec & Hr'). rewrite Hr' in Hr. injection Hr as <-.
    destruct (inv_budget _ Hinv _ _ Hr0 M HM) as [Hlt (P & [HP1 HP2] & Hsz)].
    split; [intros _; apply Hlt, unfinished_spec; by left|]. exists ({[c_fence c]} ∪ P). split.
    + split; [intros f Hf; apply elem_of_union_r; by apply HP1|]. intros w' h [(c' & Hc' & ->)|Hp]%claim_pending E.
      * cbn [claim_held h_claim] in *. rewrite (claim_same _ _ Hc' Hc E). set_solver.
      * apply elem_of_union_r. by eapply HP2.
    + unfold budget in *. rewrite Hs0 in Hsz. cbn. rewrite size_union_alt, size_singleton.
      pose proof (subseteq_size (P ∖ {[c_fence c]}) P ltac:(set_solver)). lia.
  - rewrite E in Hr. destruct (inv_budget _ Hinv _ _ Hr M HM) as [Hlt (P & [HP1 HP2] & Hsz)]. split; [done|]. exists P. split; [|done].
    split; [done|]. intros w' h [(c' & Hc' & ->)|Hp]%claim_pending Ei; [|by eapply HP2]. cbn [claim_held h_claim] in *.
    destruct (claimed_row c' Hc') as (r0 & Hr0 & _ & _ & Hr'). rewrite Ei in Hr0, Hr'. rewrite E, Hr0 in Hr'. injection Hr' as Hr'.
    apply (f_equal j_fence) in Hr'. cbn in Hr'. lia.
Qed.

Lemma claim_keeps : Inv after_claim.
Proof.
  pose proof Hinv as [H1 H2 H3 H4 H5 H6 H7 H8 H9]. destruct claim_ids as [Hid Hnd].
  split; cbn [after_claim set_worker set_jobs s_jobs s_clock s_starts]; [|exact claim_agrees|exact claim_order|exact claim_once|..|done|exact claim_budget].
  - intros i r Hr. rewrite Hid. destruct (claim_rows i) as [(c & Hc & <-)|E].
    + destruct (claimed_row c Hc) as (r0 & Hr0 & _). by eapply H1.
    + rewrite E in Hr. by eapply H1.
  - intros w'. unfold after_claim. rewrite worker_at_set. destruct (decide (w' = w)) as [->|]; [|apply H5].
    unfold claims_of, claiming. cbn [w_pending w_phase phase_claims]. rewrite app_nil_r, <- list_fmap_compose.
    apply (NoDup_fmap_1 fst). by rewrite <- list_fmap_compose.
  - intros w' h [(c & Hc & ->)|Hp]%claim_pending; [|by eapply H6]. destruct (claimed_row c Hc) as (r0 & Hr0 & _ & Ec & _).
    intros Hst. unfold ticket in Hst. cbn [claim_held h_claim] in Hst. apply H7 in Hst as [_ Hst]. apply Hst in Hr0.
    rewrite Ec in Hr0. cbn in Hr0. lia.
  - intros i f Hf. rewrite Hid. destruct (H7 i f Hf) as [Hlt Ha]. split; [done|]. intros r Hr. destruct (claim_rows i) as [(c & Hc & <-)|E].
    + destruct (claimed_row c Hc) as (r0 & Hr0 & _ & _ & Hr'). rewrite Hr' in Hr. injection Hr as <-. apply Ha in Hr0. cbn. lia.
    + rewrite E in Hr. by apply Ha.
Qed.
End claim.

(** *** Records and releases *)

Lemma release_keeps s w i h pend p now : Inv s -> worker_at s w = mk_worker pend p true -> pend !! i = Some h ->
  Inv (set_worker w (mk_worker (delete i pend) p true) (set_jobs (snd (_release (h_claim h) now (s_jobs s))) s)).
Proof.
  intros H Hw Hi. set (k := mk_worker (delete i pend) p true).
  assert (claims_of (worker_at s w) ≡ₚ h :: claims_of k) as Hc.
  { rewrite Hw. unfold claims_of. cbn [k w_pending w_phase]. by rewrite (delete_Permutation _ _ _ Hi) at 1. }
  assert (forall h, h ∈ w_pending k -> h ∈ w_pending (worker_at s w)) as Hp.
  { intros h'. rewrite Hw. cbn [k w_pending]. intros Hh. rewrite (delete_Permutation _ _ _ Hi). by right. }
  assert (pending s w h) as Hpend. { unfold pending. rewrite Hw. by eapply list_elem_of_lookup_2. }
  destruct (_release (h_claim h) now (s_jobs s)) as [b t'] eqn:Hr. cbn [snd].
  apply release_row in Hr as (En & [(_ & r & r' & Hr & Hf & Hs & E & (Hj & Hs' & Hf' & Ha'))|(_ & -> & _)]).
  - assert (t' = mk_jobs (next_id (s_jobs s)) (<[c_id (h_claim h) := r']> (rows (s_jobs s)))) as -> by (destruct t'; cbn in *; congruence).
    eapply holder_writes; try done; [lia|]. intros M HM.
    destruct (inv_budget _ H _ _ Hr M (limit_same _ _ _ Hj HM)) as [Hlt (P & HP & Hsz)].
    split; [intros _; rewrite Ha', Z.add_0_r; apply Hlt, unfinished_spec; by right|]. exists (P ∖ {[c_fence (h_claim h)]}). split.
    + destruct (spent_shrinks s w k (mk_jobs (next_id (s_jobs s)) (<[c_id (h_claim h) := r']> (rows (s_jobs s)))) _ _ Hp HP) as [HP1 HP2].
      split.
      * intros f Hfs. apply elem_of_difference. split; [by apply HP1|]. intros ->%elem_of_singleton. by apply (inv_pending _ H _ _ Hpend).
      * intros w' h' Hh' E'. apply elem_of_difference. split; [by eapply HP2|]. intros Ef%elem_of_singleton.
        apply pending_holds in Hh'. destruct (ticket_gone _ _ _ _ _ _ _ H Hc Hh') as [_ Hne]. apply Hne. unfold ticket. congruence.
    + unfold budget in *. rewrite Hs', Ha'. rewrite Hs in Hsz. destruct HP as [_ HP2].
      pose proof (size_remove _ _ (HP2 _ _ Hpend eq_refl)). lia.
  - assert (Inv (set_worker w k s)); [|done]. apply worker_shrinks; [done| |exact Hp]. rewrite Hc. by apply submseteq_cons.
Qed.

Lemma record_keeps s w h o rest stopping now source t' : Inv s -> worker_at s w = mk_worker rest (Recording h o) stopping ->
  record w now source h o (s_jobs s) = Some t' ->
  Inv (set_worker w (mk_worker rest Idle stopping) (set_jobs t' s)).
Proof.
  intros H Hw Hrec. set (k := mk_worker rest Idle stopping).
  assert (claims_of (worker_at s w) ≡ₚ h :: claims_of k) as Hc.
  { rewrite Hw. unfold claims_of. cbn [k w_pending w_phase phase_claims]. by rewrite app_nil_r, Permutation_app_comm. }
  assert (forall h, h ∈ w_pending k -> h ∈ w_pending (worker_at s w)) as Hp by (by rewrite Hw).
  assert (holds s w h) as Hhold by (unfold holds; rewrite Hc; by left).
  assert (Inv (set_worker w k s)) as Hnone.
  { apply worker_shrinks; [done| |exact Hp]. rewrite Hc. by apply submseteq_cons. }
  assert (forall r r' n, rows (s_jobs s) !! c_id (h_claim h) = Some r -> j_fence r = c_fence (h_claim h) ->
    next_id t' = next_id (s_jobs s) -> rows t' = <[c_id (h_claim h) := r']> (rows (s_jobs s)) -> same_job r r' -> j_fence r' = j_fence r ->
    j_attempts r' = j_attempts r + n -> 0 <= n <= 1 ->
    (j_state r' = DONE \/ j_state r' = DEAD \/ (j_state r' = READY /\ n = 1 /\ forall M, limit r M -> j_attempts r' < M)) ->
    Inv (set_worker w k (set_jobs t' s))) as Hwrite.
  { intros r r' n Hr Hf En E Hj Hf' Ha Hn Hst.
    assert (t' = mk_jobs (next_id (s_jobs s)) (<[c_id (h_claim h) := r']> (rows (s_jobs s)))) as -> by (destruct t'; cbn in *; congruence).
    eapply holder_writes; try done. intros M HM. pose proof (limit_same _ _ _ Hj HM) as HM0.
    destruct (inv_held _ H _ _ Hhold) as [_ Hag]. destruct (Hag r Hr) as [_ _ _ Hcur _]. destruct (Hcur (eq_sym Hf)) as (Hs & _).
    destruct (inv_budget _ H _ _ Hr M HM0) as [Hlt (P & HP & Hsz)]. unfold budget in *. rewrite Hs in Hsz.
    assert (j_attempts r < M) by (apply Hlt, unfinished_spec; by right). split.
    - intros Hu. apply unfinished_spec in Hu. destruct Hst as [Hst|[Hst|(Hst & _ & Hst')]]; [destruct Hu; congruence|destruct Hu; congruence|by apply Hst'].
    - exists P. split; [by apply spent_shrinks|]. destruct Hst as [->|[->|(-> & -> & _)]]; lia. }
  unfold record in Hrec. destruct o as [|error permanent].
  - injection Hrec as <-. destruct (_complete (h_claim h) now (s_jobs s)) as [b t'] eqn:E. cbn [snd] in *.
    apply complete_row in E as (En & [(_ & r & r' & Hr & Hf & Hrows & (Hj & Hs' & Hf' & Ha))|(_ & -> & _)]); [|exact Hnone].
    apply (Hwrite r r' 0); try done; [lia|]. by left.
  - destruct (_fail _ _ _ _ _ _ _) as [[b t]|] eqn:E; [|done]. injection Hrec as <-.
    apply fail_row in E as (En & [(r & r' & Hr & Hf & Hrows & _ & Hj & Hs' & Hf' & Ha)|(_ & -> & _)]); [|exact Hnone].
    destruct (inv_held _ H _ _ Hhold) as [_ Hag]. destruct (Hag r Hr) as [At Am _ Hcur _]. destruct (Hcur (eq_sym Hf)) as (_ & _ & Hat).
    apply (Hwrite r r' 1); try done; [lia|]. right. destruct (_ || _) eqn:Hl; [by left|right]. split; [done|]. split; [done|].
    apply orb_false_iff in Hl as [_ Hl%Z.leb_gt]. intros M [HM1 HM2]. destruct (_tasks _ !! _) as [hd|] eqn:Ht; [|lia].
    rewrite At in Ht. apply HM2 in Ht. lia.
Qed.

Lemma begin_keeps s w i h pend refusal : Inv s -> worker_at s w = mk_worker pend Idle false -> pend !! i = Some h ->
  Inv (begin w refusal h (delete i pend) s).
Proof.
  intros H Hw Hi.
  assert (forall p, phase_claims p = [h] -> claims_of (mk_worker (delete i pend) p false) ⊆+ claims_of (worker_at s w)) as Hc.
  { intros p Hp. rewrite Hw. unfold claims_of. cbn [w_pending w_phase phase_claims]. rewrite Hp, app_nil_r.
    rewrite (delete_Permutation _ _ _ Hi) at 2. by rewrite Permutation_app_comm. }
  assert (forall h', h' ∈ delete i pend -> h' ∈ w_pending (worker_at s w)) as Hp.
  { intros h' Hh. rewrite Hw. cbn [w_pending]. rewrite (delete_Permutation _ _ _ Hi). by right. }
  assert (pending s w h) as Hpend. { unfold pending. rewrite Hw. by eapply list_elem_of_lookup_2. }
  unfold begin. destruct (_tasks _ !! _) as [t|]; [destruct (t_binds t _)|]; [|apply worker_shrinks; auto..].
  set (k := mk_worker (delete i pend) (Running h (s_clock s)) false).
  assert (forall w' h', pending (set_worker w k s) w' h' -> pending s w' h' /\ ticket h' <> ticket h) as Hq.
  { intros w' h' Hh. unfold pending in Hh. rewrite worker_at_set in Hh. destruct (decide (w' = w)) as [->|Hne].
    - split; [by apply Hp|]. pose proof (inv_distinct _ H w) as Hnd. rewrite Hw in Hnd. unfold claims_of in Hnd.
      cbn [w_pending w_phase phase_claims k] in *. rewrite app_nil_r, (delete_Permutation _ _ _ Hi) in Hnd.
      apply NoDup_cons in Hnd as [Hnd _]. intros E. apply Hnd. rewrite <- E. by apply list_elem_of_fmap_2.
    - split; [done|]. intros E. apply Hne. by eapply (inv_once _ H w' h' w h); [apply pending_holds|apply pending_holds|]. }
  apply (workers_move s); cbn [s_jobs s_clock s_starts]; try done.
  - intros w'. change (worker_at _ w') with (worker_at (set_worker w k s) w') at 1. rewrite worker_at_set.
    destruct (decide (w' = w)) as [->|]; [by apply Hc|done].
  - intros w' h' Hh. apply Hq in Hh as [Hh Hne]. split; [done|]. intros [E|Hst]%elem_of_cons; [by apply Hne|].
    by apply (inv_pending _ H _ _ Hh).
  - intros x [->|Hx]%elem_of_cons; [right|by left]. by exists w, h.
  - constructor; [by apply (inv_pending _ H _ _ Hpend)|apply H].
Qed.

(** ** Every step keeps the invariant *)

Lemma limit_positive r M R e : attempts_once -> (exists w, R = runner_of w) -> inserted R e r -> limit r M -> 1 <= M.
Proof.
  intros Hone (w & ->) [_ _ _ (hd & Ht & Hm) Hr] [HM _]. apply Hone in Ht. destruct (e_max_attempts e) as [m|]; cbn in Hm; [|lia].
  specialize (Hr m eq_refl). lia.
Qed.

Lemma step_inv s e s' : attempts_once -> Inv s -> step e s = Some s' -> Inv s'.
Proof.
  intros Hone H. assert (forall t now, now <= s_clock s -> next_id t = next_id (s_jobs s) ->
    (forall id, around now (rows (s_jobs s) !! id) (rows t !! id)) -> 
    (forall id r, rows (s_jobs s) !! id = None -> rows t !! id = Some r -> False) -> Inv (set_jobs t s)) as Haround.
  { intros t now Hn Hid Har Hnew. apply (around_keeps s now); [done|done|lia| |done|by intros id r H1 H2; destruct (Hnew id r H1 H2)].
    intros id r Hr. rewrite Hid. destruct (rows (s_jobs s) !! id) as [r0|] eqn:E; [by eapply (inv_below _ H)|by destruct (Hnew id r E Hr)]. }
  destruct e as [d|w now scan locked|w i refusal|w error|w now source|w|w|w|w i now|w now|w e now|w job_id key reason tenant now|w older now];
    cbn [step].
  - destruct (_ && _) eqn:Hd; [|done]. apply andb_true_iff in Hd as [Hd%Z.leb_le _]. intros [= <-].
    apply (workers_move s); cbn [s_jobs s_clock s_starts]; try done; [lia| |by left|by apply H].
    intros w h Hh. split; [done|by eapply (inv_pending _ H)].
  - destruct (worker_at s w) as [[|] [| |] []] eqn:Hw; try done. destruct (_ && _) eqn:Hn; [|done].
    apply andb_true_iff in Hn as [Hn%Z.leb_le Hscan%bool_decide_eq_true]. destruct (_claim _ _ _ _ _) as [claims t'] eqn:Hcl. intros [= <-].
    eapply claim_keeps; [done|done| |exact Hcl]. by rewrite Hw.
  - destruct (worker_at s w) as [pend [| |] []] eqn:Hw; try done. intros (h & Hi & [= <-])%bind_Some. by apply begin_keeps.
  - destruct (worker_at s w) as [rest [|h started|] stopping] eqn:Hw; try done. intros [= <-].
    apply worker_shrinks; rewrite ?Hw; done.
  - destruct (worker_at s w) as [rest [| |h o] stopping] eqn:Hw; try done. destruct (_ <=? _); [|done].
    intros (t & Ht & [= <-])%bind_Some. by eapply record_keeps.
  - intros [= <-]. apply worker_shrinks; [done| |done]. unfold claims_of. cbn. rewrite app_nil_r. by apply submseteq_inserts_r.
  - intros [= <-]. apply worker_shrinks; [done| |]; cbn; [apply submseteq_nil_l|]. by intros h Hh%elem_of_nil.
  - intros [= <-]. by apply worker_shrinks.
  - destruct (worker_at s w) as [pend p []] eqn:Hw; try done. destruct (_ <=? _); [|done]. intros (h & Hi & [= <-])%bind_Some.
    by apply release_keeps.
  - destruct (Z.leb_spec now (s_clock s)); [|done]. intros [= <-]. apply (Haround _ now); [done|done|apply sweep_around|].
    intros id r. unfold _reclaim_expired. rewrite update_rows_lookup. by intros ->.
  - destruct (Z.leb_spec now (s_clock s)); [|done]. destruct (enqueue _ _ _ _ _) as [[o t']|] eqn:He; [|done]. intros [= <-].
    apply enqueue_around in He as (Hid & Hb & Har & Hnew); [|apply H]. apply (around_keeps s now); try done.
    intros id r H1 H2. destruct (Hnew id r H1 H2) as [-> Hins]. split; [lia|]. intros M. eapply limit_positive; [done|by exists w|done].
  - destruct (Z.leb_spec now (s_clock s)); [|done]. destruct (cancel _ _ _ _ _ _ _ _ _) as [[b t']|] eqn:He; [|done]. intros [= <-].
    apply cancel_around in He as (Hid & Hnone & Har). apply (Haround _ now); [done|done|done|].
    intros id r Hn Hr. apply Hnone in Hn. congruence.
  - destruct (Z.leb_spec now (s_clock s)); [|done]. destruct (purge _ _ _ _) as [t'|] eqn:He; [|done]. intros [= <-].
    apply purge_around in He as (Hid & Hnone & Har). apply (Haround _ now); [done|done|done|].
    intros id r Hn Hr. apply Hnone in Hn. congruence.
Qed.

Lemma reachable_inv clock s : attempts_once -> reachable clock s -> Inv s.
Proof. intros Hone. induction 1 as [|s e s' _ IH He]; [apply start_inv|by eapply step_inv]. Qed.
End system.
