(* ===== verification/JobClaims.v ===== *)
(** * What the jobs table guarantees

    Over every interleaving of [JobSystem]: the life of a row, one handler per
    job at a time, a bound on the handlers started, one row per key; ticks of a
    schedule; and runs in which a documented limit does not hold. *)

From stdpp Require Import base sets strings numbers list gmap fin_maps.
From Stdlib Require Import ZArith QArith Qround Lqa Lia.
From S2P Require Import Prelude PyCollections PyText Idempotency Temporal RecurrenceText Recurrence TokenBucket.
From S2P Require Import JobQueue JobFacts JobSystem.
#[local] Open Scope Z_scope.

Section claims.
Context (blake2s : bytes -> pystr) (runner_of : Z -> JobRunner).
Abbreviation the_step := (step blake2s runner_of).
Abbreviation the_runs := (reachable blake2s runner_of).

(** Every worker's runner was built by the constructor and [task]. *)
Definition runners_ok : Prop := forall w, runner_ok (runner_of w).

Lemma runners_attempts : runners_ok -> attempts_once runner_of.
Proof. intros H w n t Ht. by apply (ok_tasks _ (H w)), ok_attempts in Ht as [? _]. Qed.

(** ** One step on one row *)

Inductive life (now : Z) : option row -> option row -> Prop :=
| life_around o o' : around now o o' -> life now o o'
| life_worked r r' : worked r r' -> life now (Some r) (Some r').

Lemma life_same now o : life now o o.
Proof. apply life_around. constructor. Qed.

Lemma insert_life now t id r r' i : rows t !! id = Some r -> worked r r' ->
  life now (rows t !! i) (<[id := r']> (rows t) !! i).
Proof.
  intros Hr Hw. destruct (decide (i = id)) as [->|Hne].
  - rewrite lookup_insert_eq, Hr. by apply life_worked.
  - rewrite lookup_insert_ne by done. apply life_same.
Qed.

Lemma record_life s w h o now source t i : Inv runner_of s -> holds s w h ->
  record runner_of w now source h o (s_jobs s) = Some t -> life now (rows (s_jobs s) !! i) (rows t !! i).
Proof.
  intros H Hh Hrec. destruct (inv_held _ _ H _ _ Hh) as [_ Hag].
  assert (forall r, rows (s_jobs s) !! c_id (h_claim h) = Some r -> j_fence r = c_fence (h_claim h) ->
    j_state r = LEASED /\ c_attempts (h_claim h) = j_attempts r) as Hcur.
  { intros r Hr Hf. destruct (Hag r Hr) as [_ _ _ Hc _]. by destruct (Hc (eq_sym Hf)) as (? & _ & ?). }
  unfold record in Hrec. destruct o as [|error permanent].
  - injection Hrec as <-. destruct (_complete (h_claim h) now (s_jobs s)) as [b t'] eqn:E. cbn [snd].
    apply complete_row in E as (_ & [(_ & r & r' & Hr & Hf & -> & Hm)|(_ & -> & _)]); [|apply life_same].
    apply (insert_life _ _ _ r); [done|]. apply work_done; [by apply Hcur|done].
  - destruct (_fail _ _ _ _ _ _ _) as [[b t']|] eqn:E; [|done]. injection Hrec as <-.
    apply fail_row in E as (_ & [(r & r' & Hr & Hf & -> & _ & Hj & Hs & Hf' & Ha)|(_ & -> & _)]); [|apply life_same].
    destruct (Hcur r Hr Hf) as [Hl Hat]. apply (insert_life _ _ _ r); [done|]. rewrite Hat in Ha.
    destruct (_ || _); [apply work_bury|apply work_retry]; try done; split_and!; try done; lia.
Qed.

(** Every step moves every row along the life of a job. *)
Lemma step_life s e s' : attempts_once runner_of -> Inv runner_of s -> the_step e s = Some s' ->
  exists now, now <= s_clock s /\ forall i, life now (rows (s_jobs s) !! i) (rows (s_jobs s') !! i).
Proof.
  intros Hone H.
  assert (forall s'', rows (s_jobs s'') = rows (s_jobs s) -> exists now, now <= s_clock s /\
    forall i, life now (rows (s_jobs s) !! i) (rows (s_jobs s'') !! i)) as Hsame.
  { intros s'' ->. exists (s_clock s). split; [lia|]. intros i. apply life_same. }
  destruct e as [d|w now scan locked|w i refusal|w error|w now source|w|w|w|w i now|w now|w e now|w job_id key reason tenant now|w older now];
    cbn [step].
  - destruct (_ && _); [|done]. intros [= <-]. by apply Hsame.
  - destruct (worker_at s w) as [[|] [| |] []] eqn:Hw; try done. destruct (_ && _) eqn:Hn; [|done].
    apply andb_true_iff in Hn as [Hn%Z.leb_le Hscan%bool_decide_eq_true]. destruct (_claim _ _ _ _ _) as [claims t'] eqn:Hcl. intros [= <-].
    exists now. split; [done|]. intros i. destruct (claim_rows runner_of s w now scan locked claims t' Hscan Hcl i) as [(c & Hc & <-)|E].
    + destruct (claimed_row runner_of s w now scan locked claims t' Hscan Hcl c Hc) as (r & Hr & Hs & _ & Hr').
      cbn [set_worker set_jobs s_jobs]. rewrite Hr, Hr'. apply life_worked, work_claim; [done|]. repeat split; cbn; lia.
    + cbn [set_worker set_jobs s_jobs]. rewrite E. apply life_same.
  - destruct (worker_at s w) as [pend [| |] []]; try done. intros (h & Hi & [= <-])%bind_Some. apply Hsame.
    unfold begin. by repeat case_match.
  - destruct (worker_at s w) as [rest [|h started|] stopping]; try done. intros [= <-]. by apply Hsame.
  - destruct (worker_at s w) as [rest [| |h o] stopping] eqn:Hw; try done. destruct (Z.leb_spec now (s_clock s)); [|done].
    intros (t & Ht & [= <-])%bind_Some. exists now. split; [done|]. intros i. eapply record_life; [done| |exact Ht].
    unfold holds. rewrite Hw. apply elem_of_app. right. by left.
  - intros [= <-]. by apply Hsame.
  - intros [= <-]. by apply Hsame.
  - intros [= <-]. by apply Hsame.
  - destruct (worker_at s w) as [pend p []] eqn:Hw; try done. destruct (Z.leb_spec now (s_clock s)); [|done].
    intros (h & Hi & [= <-])%bind_Some. exists now. split; [done|]. intros j. cbn [set_worker set_jobs s_jobs].
    destruct (_release (h_claim h) now (s_jobs s)) as [b t'] eqn:Hr. cbn [snd].
    apply release_row in Hr as (_ & [(_ & r & r' & Hr & Hf & Hs & -> & Hm)|(_ & -> & _)]); [|apply life_same].
    apply (insert_life _ _ _ r); [done|]. by apply work_return.
  - destruct (Z.leb_spec now (s_clock s)); [|done]. intros [= <-]. exists now. split; [done|]. intros i. apply life_around, sweep_around.
  - destruct (Z.leb_spec now (s_clock s)); [|done]. destruct (enqueue _ _ _ _ _) as [[o t']|] eqn:He; [|done]. intros [= <-].
    apply enqueue_around in He as (_ & _ & Har & _); [|apply H]. exists now. split; [done|]. intros i. apply life_around, Har.
  - destruct (Z.leb_spec now (s_clock s)); [|done]. destruct (cancel _ _ _ _ _ _ _ _ _) as [[b t']|] eqn:He; [|done]. intros [= <-].
    apply cancel_around in He as (_ & _ & Har). exists now. split; [done|]. intros i. apply life_around, Har.
  - destruct (Z.leb_spec now (s_clock s)); [|done]. destruct (purge _ _ _ _) as [t'|] eqn:He; [|done]. intros [= <-].
    apply purge_around in He as (_ & _ & Har). exists now. split; [done|]. intros i. apply life_around, Har.
Qed.

Lemma outside_unfinished now r r' : outside now r r' -> unfinished r = true.
Proof. intros [Hs _|Hu _|? Hs _ _ _]; [apply unfinished_spec; by left|done|apply unfinished_spec; by right]. Qed.

Lemma worked_unfinished r r' : worked r r' -> unfinished r = true.
Proof. intros [Hs _|Hs _|Hs _|Hs _|Hs _]; apply unfinished_spec; auto. Qed.

Lemma life_gone now r o : life now (Some r) o -> unfinished r = false -> o = Some r \/ o = None.
Proof.
  inversion 1 as [? ? Har|? r' Hw]; subst.
  - inversion Har as [| |? ? Ho|]; subst; [by left| |by right]. apply outside_unfinished in Ho. congruence.
  - apply worked_unfinished in Hw. congruence.
Qed.

(** C10. A job's state changes only along the declared transitions, or from ready
    to dead when it is cancelled; a finished job is never changed again, by
    whatever worker still holds a claim of it, and only a finished job is
    deleted. *)
Theorem job_life_legal clock s e s' id r :
  runners_ok -> the_runs clock s -> the_step e s = Some s' -> rows (s_jobs s) !! id = Some r ->
  match rows (s_jobs s') !! id with
  | Some r' =>
    same_job r r' /\ (unfinished r = false -> r' = r) /\
    (j_state r' = j_state r \/ valid_transition (j_state r) (j_state r') = true \/ (j_state r = READY /\ j_state r' = DEAD))
  | None => unfinished r = false
  end.
Proof.
  intros Hone%runners_attempts Hs He Hr. pose proof (reachable_inv _ _ _ _ Hone Hs) as H. destruct (step_life s e s' Hone H He) as (now & _ & Hl).
  specialize (Hl id). rewrite Hr in Hl. destruct (rows (s_jobs s') !! id) as [r'|] eqn:Hr'.
  - split_and!.
    + inversion Hl as [? ? Har|? ? Hw]; subst; [inversion Har as [| |? ? Ho|]; subst; [done|destruct Ho as [? Hm|? Hm|? ? ? ? Hm]; apply Hm]|].
      destruct Hw as [? Hm|? Hm|? Hm|? Hm|? Hm]; apply Hm.
    + intros Hu. destruct (life_gone _ _ _ Hl Hu); congruence.
    + inversion Hl as [? ? Har|? ? Hw]; subst.
      * inversion Har as [| |? ? Ho|]; subst; [by left|].
        destruct Ho as [Hst (_ & -> & _)|Hu (_ & -> & _)|? Hst _ _ (_ & -> & _)].
        -- by left.
        -- apply unfinished_spec in Hu as [->| ->]; [by right; right|by right; left].
        -- rewrite Hst. right. left. by destruct (_ <=? _).
      * destruct Hw as [-> (_ & -> & _)| -> (_ & -> & _)| -> (_ & -> & _)| -> (_ & -> & _)| -> (_ & -> & _)]; by right; left.
  - inversion Hl as [? ? Har|]; subst. by inversion Har.
Qed.

(** ** One handler at a time *)

Definition running (s : sys) (w : Z) (h : held) (started : Z) : Prop := w_phase (worker_at s w) = Running h started.

Lemma running_holds s w h t : running s w h t -> holds s w h.
Proof. intros Hr. unfold holds, claims_of. rewrite Hr. apply elem_of_app. right. by left. Qed.

(** Deadlines are not negative: [task] refuses other timeouts. *)
Definition deadlines_ok : Prop := forall w h, 0 <= allowed runner_of w h.

Lemma runners_deadlines : runners_ok -> deadlines_ok.
Proof.
  intros H w h. unfold allowed. change 0 with (Qfloor 0). apply Qfloor_resp_le.
  pose proof (deadline_nonneg _ (c_task (h_claim h)) (H w)). lra.
Qed.

Definition timely (s : sys) : Prop := forall w h t, running s w h t -> s_clock s <= t + allowed runner_of w h.

Lemma timely_set s w k s0 : timely s0 -> s_clock s = s_clock s0 ->
  (forall w', worker_at s w' = if decide (w' = w) then k else worker_at s0 w') ->
  (forall h t, w_phase k = Running h t -> s_clock s <= t + allowed runner_of w h) -> timely s.
Proof.
  intros Hs Hc Hw Hk w' h t Hr. unfold running in Hr. rewrite Hw in Hr. destruct (decide (w' = w)) as [->|]; [by apply Hk|].
  rewrite Hc. by apply Hs.
Qed.

Lemma step_timely s e s' : deadlines_ok -> timely s -> the_step e s = Some s' -> timely s'.
Proof.
  intros Hd H. assert (forall w k s1, s_clock s1 = s_clock s -> s_workers s1 = s_workers s ->
    (forall h t, w_phase k = Running h t -> running s w h t) -> timely (set_worker w k s1)) as Hset.
  { intros w k s1 E Ew Hk. apply (timely_set _ w k s1); [|done|apply worker_at_set|].
    - intros w' h t Hr. rewrite E. apply H. unfold running, worker_at in *. by rewrite <- Ew.
    - intros h t Hr. cbn. rewrite E. by apply H, Hk. }
  destruct e as [d|w now scan locked|w i refusal|w error|w now source|w|w|w|w i now|w now|w e now|w job_id key reason tenant now|w older now];
    cbn [step].
  - destruct (_ && _) eqn:Hn; [|done]. apply andb_true_iff in Hn as [_ Hn]. intros [= <-] w h t Hr. cbn [s_clock].
    unfold all_in_time in Hn. rewrite forallb_forall in Hn. unfold running, worker_at in Hr. cbn [s_workers] in Hr.
    destruct (s_workers s !! w) as [k|] eqn:Ew; [|done]. specialize (Hn (w, k)). cbn [fst snd] in Hn. unfold in_time in Hn.
    cbn in Hr. rewrite Hr in Hn. apply Z.leb_le, Hn, list_elem_of_In. by apply elem_of_map_to_list.
  - destruct (worker_at s w) as [[|] [| |] []] eqn:Hw; try done. destruct (_ && _); [|done]. destruct (_claim _ _ _ _ _) as [claims t'].
    intros [= <-]. by apply Hset.
  - destruct (worker_at s w) as [pend [| |] []] eqn:Hw; try done. intros (h & Hi & [= <-])%bind_Some.
    unfold begin. destruct (_tasks _ !! _) as [t|]; [destruct (t_binds _ _)|]; try (by apply Hset).
    set (k := mk_worker (delete i pend) (Running h (s_clock s)) false). apply (timely_set _ w k s); [done|done| |].
    + intros w'. change (worker_at _ w') with (worker_at (set_worker w k s) w') at 1. by rewrite worker_at_set.
    + intros h' t' E. cbn [k w_phase] in E. injection E as <- <-. specialize (Hd w h). cbn [s_clock set_worker]. lia.
  - destruct (worker_at s w) as [rest [|h started|] stopping]; try done. intros [= <-]. by apply Hset.
  - destruct (worker_at s w) as [rest [| |h o] stopping]; try done. destruct (_ <=? _); [|done].
    intros (t & Ht & [= <-])%bind_Some. by apply Hset.
  - intros [= <-]. by apply Hset.
  - intros [= <-]. by apply Hset.
  - intros [= <-]. by apply Hset.
  - destruct (worker_at s w) as [pend p []] eqn:Hw; try done. destruct (_ <=? _); [|done]. intros (h & Hi & [= <-])%bind_Some.
    apply Hset; [done|done|]. intros h' t' E. unfold running. by rewrite Hw.
  - destruct (_ <=? _); [|done]. by intros [= <-].
  - destruct (_ <=? _); [|done]. destruct (enqueue _ _ _ _ _) as [[? ?]|]; [|done]. by intros [= <-].
  - destruct (_ <=? _); [|done]. destruct (cancel _ _ _ _ _ _ _ _ _) as [[? ?]|]; [|done]. by intros [= <-].
  - destruct (_ <=? _); [|done]. destruct (purge _ _ _ _); [|done]. by intros [= <-].
Qed.

Lemma reachable_timely clock s : deadlines_ok -> the_runs clock s -> timely s.
Proof.
  intros Hd. induction 1 as [|s e s' _ IH He]; [|by eapply step_timely].
  intros w h t Hr. unfold running, worker_at, start_of in Hr. cbn [s_workers] in Hr. by rewrite lookup_empty in Hr.
Qed.

(** C11. Handlers of one job do not run side by side: when two workers run
    handlers of the same job, one of them started so long after its claim that
    its deadline lies beyond its lease. *)
Theorem one_handler_per_job clock s w1 h1 t1 w2 h2 t2 :
  runners_ok -> the_runs clock s ->
  running s w1 h1 t1 -> running s w2 h2 t2 -> c_id (h_claim h1) = c_id (h_claim h2) ->
  t1 + allowed runner_of w1 h1 <= h_expiry h1 -> t2 + allowed runner_of w2 h2 <= h_expiry h2 -> w1 = w2.
Proof.
  intros Hok Hs Hr1 Hr2 E L1 L2. pose proof (runners_attempts Hok) as Hone. pose proof (runners_deadlines Hok) as Hd.
  pose proof (reachable_inv _ _ _ _ Hone Hs) as H. pose proof (reachable_timely _ _ Hd Hs) as Ht.
  pose proof (Ht _ _ _ Hr1). pose proof (Ht _ _ _ Hr2). apply running_holds in Hr1, Hr2.
  destruct (Z.lt_trichotomy (c_fence (h_claim h1)) (c_fence (h_claim h2))) as [Hf|[Hf|Hf]].
  - pose proof (inv_order _ _ H _ _ _ _ Hr1 Hr2 E Hf). lia.
  - eapply (inv_once _ _ H); [done|done|]. unfold ticket. congruence.
  - pose proof (inv_order _ _ H _ _ _ _ Hr2 Hr1 (eq_sym E) Hf). lia.
Qed.

(** ** Attempts *)

Definition starts_of (s : sys) (id : Z) : Z := zlen (filter (fun x => x.1 = id) (s_starts s)).

Lemma starts_le s id (P : gset Z) : NoDup (s_starts s) -> (forall f, (id, f) ∈ s_starts s -> f ∈ P) -> starts_of s id <= Z.of_nat (size P).
Proof.
  intros Hnd HP. unfold starts_of, zlen. apply inj_le.
  assert (forall l : list (Z * Z), NoDup l -> (forall x, x ∈ l -> x.1 = id /\ x.2 ∈ P) -> (length l <= size P)%nat) as Hl.
  { clear. intros l Hnd Hl. assert (NoDup (snd <$> l)) as Hn2.
    { apply NoDup_fmap_2_strong; [|done]. intros [a b] [c d] Hx Hy E. cbn in E. apply Hl in Hx as [Hx _], Hy as [Hy _]. cbn in *. congruence. }
    rewrite <- (length_fmap snd l), <- (size_list_to_set (C := gset Z)) by done. apply subseteq_size. intros y Hy.
    apply elem_of_list_to_set, list_elem_of_fmap in Hy as (x & -> & Hx). by apply Hl. }
  apply Hl; [by apply NoDup_filter|]. intros [i f] Hx. apply list_elem_of_filter in Hx as [E Hx]. cbn in *. subst. split; [done|]. by apply HP.
Qed.

(** C12. However claims are lost, swept, released and retried, the handler of a
    job is started at most [M] times, where [M] bounds the job's own
    [max_attempts] and that of every handler registered for its task: a job that
    kills its workers is not redelivered forever. *)
Theorem starts_bounded clock s id r M :
  runners_ok -> the_runs clock s -> rows (s_jobs s) !! id = Some r -> limit runner_of r M -> starts_of s id <= M.
Proof.
  intros Hone%runners_attempts Hs Hr HM. pose proof (reachable_inv _ _ _ _ Hone Hs) as H.
  destruct (inv_budget _ _ H _ _ Hr M HM) as [Hlt (P & [HP _] & Hsz)]. pose proof (starts_le s id P (inv_started_once _ _ H) HP).
  rewrite unfinished_spec in Hlt. unfold budget in Hsz. destruct (j_state r); try lia.
  - specialize (Hlt (or_introl eq_refl)). lia.
  - specialize (Hlt (or_intror eq_refl)). lia.
Qed.

(** ** Keys *)

Lemma insert_none t id r r' i : rows t !! id = Some r -> rows t !! i = None -> <[id := r']> (rows t) !! i = None.
Proof. intros Hr Hi. rewrite lookup_insert_ne; [done|congruence]. Qed.

Lemma record_none w h o now source t t' i : record runner_of w now source h o t = Some t' -> rows t !! i = None -> rows t' !! i = None.
Proof.
  intros Hrec Hi. unfold record in Hrec. destruct o as [|error permanent].
  - injection Hrec as <-. destruct (_complete _ _ _) as [b t'] eqn:E. cbn [snd].
    apply complete_row in E as (_ & [(_ & r & r' & Hr & _ & -> & _)|(_ & -> & _)]); [by eapply insert_none|done].
  - destruct (_fail _ _ _ _ _ _ _) as [[b t2]|] eqn:E; [|done]. injection Hrec as <-.
    apply fail_row in E as (_ & [(r & r' & Hr & _ & -> & _)|(_ & -> & _)]); [by eapply insert_none|done].
Qed.

(** A row appears only by an enqueue, under the next id, when no row has its
    queue, tenant and key. *)
Lemma step_new s e s' i r' : the_step e s = Some s' -> rows (s_jobs s) !! i = None -> rows (s_jobs s') !! i = Some r' ->
  i = next_id (s_jobs s) /\ forall key, j_dedup_key r' = Some key -> forall j r, rows (s_jobs s) !! j = Some r ->
    named (j_queue r') (j_tenant r') key r = false.
Proof.
  intros Hst Hi Hr'. destruct e as [d|w now scan locked|w k refusal|w error|w now source|w|w|w|w k now|w now|w e now|w job_id key reason tenant now|w older now];
    cbn [step] in Hst.
  - destruct (_ && _); [|done]. injection Hst as <-. cbn in Hr'. congruence.
  - destruct (worker_at s w) as [[|] [| |] []]; try done. destruct (_ && _) eqn:Hn; [|done].
    apply andb_true_iff in Hn as [_ Hscan%bool_decide_eq_true]. destruct (_claim _ _ _ _ _) as [claims t'] eqn:Hcl. injection Hst as <-.
    cbn [set_worker set_jobs s_jobs] in Hr'. destruct (claim_rows runner_of s w now scan locked claims t' Hscan Hcl i) as [(c & Hc & <-)|E]; [|congruence].
    destruct (claimed_row runner_of s w now scan locked claims t' Hscan Hcl c Hc) as (r & Hr & _). congruence.
  - destruct (worker_at s w) as [pend [| |] []]; try done. apply bind_Some in Hst as (h & _ & Hst). injection Hst as <-.
    unfold begin in Hr'. repeat case_match; cbn in Hr'; congruence.
  - destruct (worker_at s w) as [rest [|h started|] stopping]; try done. injection Hst as <-. cbn in Hr'. congruence.
  - destruct (worker_at s w) as [rest [| |h o] stopping]; try done. destruct (_ <=? _); [|done].
    apply bind_Some in Hst as (t & Ht & Hst). injection Hst as <-. apply (record_none _ _ _ _ _ _ _ _ Ht) in Hi. cbn in Hr'. congruence.
  - injection Hst as <-. cbn in Hr'. congruence.
  - injection Hst as <-. cbn in Hr'. congruence.
  - injection Hst as <-. cbn in Hr'. congruence.
  - destruct (worker_at s w) as [pend p []]; try done. destruct (_ <=? _); [|done].
    apply bind_Some in Hst as (h & _ & Hst). injection Hst as <-. cbn [set_worker set_jobs s_jobs] in Hr'.
    destruct (_release (h_claim h) now (s_jobs s)) as [b t'] eqn:Hr. cbn [snd] in Hr'.
    apply release_row in Hr as (_ & [(_ & r & r2 & Hr & _ & _ & E & _)|(_ & -> & _)]); [|congruence].
    rewrite E, (insert_none _ _ _ _ _ Hr Hi) in Hr'. done.
  - destruct (_ <=? _); [|done]. injection Hst as <-. cbn [set_jobs s_jobs] in Hr'. unfold _reclaim_expired in Hr'.
    rewrite update_rows_lookup, Hi in Hr'. done.
  - destruct (_ <=? _); [|done]. destruct (enqueue _ _ _ _ _) as [[o t']|] eqn:He; [|done]. injection Hst as <-. cbn [set_jobs s_jobs] in Hr'.
    unfold enqueue in He. destruct (new_job _ _ _ _) as [new|]; [|done]. injection He as He.
    apply insert_cases in He as (_ & [(_ & E & Hfree)|(key & id & r & _ & Hr & _ & [(_ & _ & _ & E)|(_ & E)])]).
    + rewrite E in Hr'. apply lookup_insert_Some in Hr' as [[<- <-]|[_ Hl]]; [done|congruence].
    + rewrite E, (insert_none _ _ _ _ _ Hr Hi) in Hr'. done.
    + congruence.
  - destruct (_ <=? _); [|done]. destruct (cancel _ _ _ _ _ _ _ _ _) as [[b t']|] eqn:He; [|done]. injection Hst as <-.
    apply cancel_around in He as (_ & Hn & _). apply Hn in Hi. cbn in Hr'. congruence.
  - destruct (_ <=? _); [|done]. destruct (purge _ _ _ _) as [t'|] eqn:He; [|done]. injection Hst as <-.
    apply purge_around in He as (_ & Hn & _). apply Hn in Hi. cbn in Hr'. congruence.
Qed.

Lemma life_same_job now r r' : life now (Some r) (Some r') -> same_job r r'.
Proof.
  inversion 1 as [? ? Har|? ? Hw]; subst.
  - inversion Har as [| |? ? Ho|]; subst; [done|]. destruct Ho as [? Hm|? Hm|? ? ? ? Hm]; apply Hm.
  - destruct Hw as [? Hm|? Hm|? Hm|? Hm|? Hm]; apply Hm.
Qed.

(** C13. At any time a queue and tenant has at most one job of a key: whoever
    enqueues it again, and at whatever point of the job's life, adds no second
    row. *)
Theorem one_job_per_key clock s i j r q key :
  runners_ok -> the_runs clock s -> rows (s_jobs s) !! i = Some r -> rows (s_jobs s) !! j = Some q ->
  j_queue r = j_queue q -> j_tenant r = j_tenant q -> j_dedup_key r = Some key -> j_dedup_key q = Some key -> i = j.
Proof.
  intros Hone%runners_attempts Hs. revert i j r q. induction Hs as [|s e s' Hs IH He]; intros i j r' q'.
  - cbn. by rewrite lookup_empty.
  - intros Hr' Hq' Eq Et Hk Hk'. pose proof (reachable_inv _ _ _ _ Hone Hs) as H.
    destruct (step_life s e s' Hone H He) as (now & _ & Hl).
    assert (forall a b x y, rows (s_jobs s) !! a = None -> rows (s_jobs s') !! a = Some x -> rows (s_jobs s) !! b <> None ->
      rows (s_jobs s') !! b = Some y -> j_queue x = j_queue y -> j_tenant x = j_tenant y -> j_dedup_key x = Some key ->
      j_dedup_key y = Some key -> False) as Hnew.
    { intros a b x y Ha Hx Hb Hy E1 E2 K1 K2. destruct (step_new _ _ _ _ _ He Ha Hx) as [_ Hf]. specialize (Hf key K1 b).
      destruct (rows (s_jobs s) !! b) as [r|] eqn:Er; [|done]. specialize (Hf r eq_refl). pose proof (Hl b) as Hb'. rewrite Er, Hy in Hb'.
      apply life_same_job in Hb'. destruct Hb'. unfold named in Hf. rewrite !bool_decide_true in Hf by congruence. done. }
    destruct (rows (s_jobs s) !! i) as [r|] eqn:Er, (rows (s_jobs s) !! j) as [q|] eqn:Ej.
    + pose proof (Hl i) as Hi. pose proof (Hl j) as Hj. rewrite Er, Hr' in Hi. rewrite Ej, Hq' in Hj.
      apply life_same_job in Hi, Hj. destruct Hi, Hj. eapply (IH i j r q); congruence.
    + exfalso. eapply (Hnew j i); try done; congruence.
    + exfalso. eapply (Hnew i j); try done; congruence.
    + destruct (step_new _ _ _ _ _ He Er Hr') as [-> _], (step_new _ _ _ _ _ He Ej Hq') as [-> _]. done.
Qed.

(** A retry is always scheduled: for a handler as [task] registers it the
    backoff is a delay, between nothing and the cap with its jitter. *)
Lemma backoff_of_task lease t attempt source : task_ok lease t -> 1 <= attempt -> (0 <= source <= 1)%Q ->
  exists d, compute_backoff attempt (t_kind t) (t_base t) (t_factor t) (t_cap t) (t_jitter t) source = Ok d /\
    (0 <= d <= t_cap t * (1 + t_jitter t))%Q.
Proof. intros [] Ha Hs. by apply backoff_bounds. Qed.

(** ** Schedules *)

Definition holds_key (t : jobs) (queue tenant key : pystr) : Prop :=
  exists id r, rows t !! id = Some r /\ named queue tenant key r = true.

(** Every job of [t] is still in [t']. *)
Definition keeps (t t' : jobs) : Prop :=
  forall id r, rows t !! id = Some r -> exists r', rows t' !! id = Some r' /\ same_job r r'.

Lemma keeps_key t t' q tn k : keeps t t' -> holds_key t q tn k -> holds_key t' q tn k.
Proof.
  intros Hk (id & r & Hr & Hn). destruct (Hk id r Hr) as (r' & Hr' & Hj). exists id, r'. split; [done|].
  unfold named in *. by destruct Hj as [-> _ -> _ -> _ _].
Qed.

Lemma keeps_trans a b c : keeps a b -> keeps b c -> keeps a c.
Proof.
  intros H1 H2 id r Hr. destruct (H1 id r Hr) as (r1 & Hr1 & Hj1), (H2 id r1 Hr1) as (r2 & Hr2 & Hj2).
  exists r2. split; [done|]. by eapply same_job_trans.
Qed.

Lemma keeps_rows t t' : rows t' = rows t -> keeps t t'.
Proof. intros E id r Hr. exists r. by rewrite E. Qed.

(** A row under a key. *)
Definition keyed (R : JobRunner) (tenant d : pystr) (new : row) : Prop :=
  j_queue new = _name R /\ j_tenant new = tenant /\ j_dedup_key new = Some d.

(** [plain_enqueue] always makes a row under the same key, or never. *)
Lemma new_job_keyed R name args key tenant now new :
  new_job blake2s R (plain_enqueue name args (Some key) tenant) now = Ok new ->
  exists d, forall now2, exists new2,
    new_job blake2s R (plain_enqueue name args (Some key) tenant) now2 = Ok new2 /\ keyed R tenant d new2.
Proof.
  unfold new_job. cbn [e_task e_bound e_tenant e_coalesce e_key e_max_attempts e_priority e_args e_run_at e_trace plain_enqueue].
  destruct (_tasks R !! name) as [hd|]; [|done]. cbn [check_enqueue_tenant res_bind andb]. destruct (negb _); [done|].
  destruct (check_durable_payload _); [cbn [res_bind]|done]. destruct (dedup blake2s R (Some key)) as [dk|] eqn:Hd; [cbn [res_bind]|done].
  assert (exists d, dk = Some d) as [d ->].
  { unfold dedup in Hd. destruct (dedup_key _ _ _) as [d|]; [|done]. injection Hd as <-. by exists d. }
  cbn [Z.eqb negb andb]. intros _. exists d. intros now2. by eexists.
Qed.

Lemma insert_keyed R tenant d new now t o t' : keyed R tenant d new -> insert_row new false now t = (o, t') ->
  (below t -> below t') /\ (below t -> keeps t t') /\ holds_key t' (_name R) tenant d /\
  (holds_key t (_name R) tenant d -> rows t' = rows t).
Proof.
  intros (Kq & Kt & Kd) H. apply insert_cases in H as (Hid & [(-> & E & Hf)|(k & i & r & Hk & Hr & Hn & [(? & _)|(-> & E)])]); [|done|].
  - rewrite Kq, Kt in Hf. split_and!.
    + intros Hb id r. rewrite E. intros [[<- _]|[_ Hl]]%lookup_insert_Some; [lia|]. apply Hb in Hl. lia.
    + intros Hb id r Hr. exists r. split; [|done]. rewrite E, lookup_insert_ne; [done|]. apply Hb in Hr. lia.
    + exists (next_id t), new. rewrite E, lookup_insert_eq. split; [done|]. unfold named. by rewrite !bool_decide_true.
    + intros (id & r & Hr & Hn). specialize (Hf d Kd id r Hr). congruence.
  - split_and!; [|by intros _; apply keeps_rows| |done].
    + intros Hb id r0 Hr0. rewrite E in Hr0. apply Hb in Hr0. lia.
    + exists i, r. rewrite E. split; [done|]. rewrite Kd in Hk. injection Hk as ->. by rewrite <- Kq, <- Kt.
Qed.

(** The local minute of a schedule at a moment. *)
Definition same_minute (s : _Schedule) (m m' : Z) : Prop :=
  exists l l', wall_clock m (tz (s_recurrence s)) = Ok l /\ wall_clock m' (tz (s_recurrence s)) = Ok l' /\ to_minute l = to_minute l'.

Lemma same_minute_key s m m' : same_minute s m m' ->
  schedule_key s m' = schedule_key s m /\ matches_at (s_recurrence s) m' = matches_at (s_recurrence s) m.
Proof.
  intros (l & l' & E & E' & Hm). unfold schedule_key, bucket_key, matches_at, to_minute in *. rewrite E, E'. cbn [res_bind].
  injection Hm as H1 H2 H3. unfold matches_local. by rewrite H1, H2, H3.
Qed.

(** One schedule of a tick, done again in the same minute over a table that
    still has its job. *)
Lemma tick_schedule_again R s m m' now t t1 : below t -> same_minute s m m' -> tick_schedule blake2s R s m now t = Ok t1 ->
  below t1 /\ keeps t t1 /\
  forall now' t2, keeps t1 t2 -> below t2 -> exists t3, tick_schedule blake2s R s m' now' t2 = Ok t3 /\ rows t3 = rows t2 /\ below t3.
Proof.
  intros Hb [Hk Hm]%same_minute_key H. unfold tick_schedule in *. rewrite Hk, Hm. destruct (matches_at _ m) as [[]|]; [|injection H as <-|done].
  - destruct (schedule_key s m) as [key|]; [cbn [res_bind] in *|done]. unfold enqueue in *.
    destruct (new_job _ _ _ now) as [new|] eqn:Hn; [cbn [res_bind] in *|done]. destruct (new_job_keyed _ _ _ _ _ _ _ Hn) as [d Hd].
    destruct (Hd now) as (new' & Hn' & Hkd). rewrite Hn in Hn'. injection Hn' as <-.
    destruct (insert_row new _ now t) as [o t1'] eqn:Hi. injection H as <-. cbn [e_coalesce plain_enqueue] in *.
    destruct (insert_keyed _ _ _ _ _ _ _ _ Hkd Hi) as (Hb1 & Hk1 & Hh & _). split; [by apply Hb1|]. split; [by apply Hk1|].
    intros now' t2 Hk2 Hb2. destruct (Hd now') as (new2 & -> & Hkd2). cbn [res_bind]. destruct (insert_row new2 _ now' t2) as [o2 t3] eqn:Hi2.
    destruct (insert_keyed _ _ _ _ _ _ _ _ Hkd2 Hi2) as (Hb3 & _ & _ & Hs). exists t3. split; [done|]. split; [|by apply Hb3].
    apply Hs. by eapply keeps_key.
  - split; [done|]. split; [by apply keeps_rows|]. intros now' t2 _ Hb2. by exists t2.
Qed.

Lemma tick_loop_keeps R m m' L : (forall s, s ∈ L -> same_minute s m m') ->
  forall clock t t', below t -> tick_loop blake2s R L m clock t = (t', None) -> keeps t t'.
Proof.
  induction L as [|s L IH]; intros Hm clock t t' Hb H; cbn [tick_loop] in H; [injection H as <-; by apply keeps_rows|].
  destruct (tick_schedule blake2s R s m (clock O) t) as [t1|] eqn:H1; [|done].
  destruct (tick_schedule_again R s m m' _ _ _ Hb (Hm s (list_elem_of_here _ _)) H1) as (Hb1 & Hk1 & _).
  eapply keeps_trans; [exact Hk1|]. eapply IH; [|exact Hb1|exact H]. intros x Hx. apply Hm. by right.
Qed.

(** C14. A schedule fires once, however many instances tick: when a tick has
    passed, a second one in the same local minute of each schedule, with
    anything but a deletion of the jobs in between, leaves the rows alone. *)
Theorem schedules_fire_once R m m' clock clock' t t1 t2 :
  below t -> (forall s, s ∈ _schedules R -> same_minute s m m') ->
  _tick_schedules blake2s R m clock t = (t1, None) -> keeps t1 t2 -> below t2 ->
  exists t3, _tick_schedules blake2s R m' clock' t2 = (t3, None) /\ rows t3 = rows t2.
Proof.
  unfold _tick_schedules. generalize (_schedules R) as L. intros L. revert t t2 clock clock'.
  induction L as [|s L IH]; intros t t2 clock clock' Hb Hm H Hk Hb2; cbn [tick_loop] in *; [by exists t2|].
  destruct (tick_schedule blake2s R s m (clock O) t) as [ta|] eqn:Ha; [|done].
  destruct (tick_schedule_again R s m m' _ _ _ Hb (Hm s (list_elem_of_here _ _)) Ha) as (Hba & Hka & Hagain).
  assert (keeps ta t1) as Hk1 by (eapply tick_loop_keeps; [|exact Hba|exact H]; intros x Hx; apply Hm; by right).
  destruct (Hagain (clock' O) t2 (keeps_trans _ _ _ Hk1 Hk) Hb2) as (t3 & -> & Er & Hb3).
  destruct (IH ta t3 (fun i => clock (S i)) (fun i => clock' (S i)) Hba ltac:(intros x Hx; apply Hm; by right) H
    (keeps_trans _ _ _ Hk (keeps_rows _ _ Er)) Hb3) as (t4 & H4 & E4). exists t4. split; [done|congruence].
Qed.

(** ** Launching *)

(** What [launch] hands back is a row of the table to watch: the new one, or
    the one that has the key already. *)
Theorem launch_watchable R e now t meanwhile id state t' :
  launch blake2s R e now t meanwhile = Ok (id, state, t') ->
  exists r, rows t' !! id = Some r /\ j_queue r = _name R /\
    (state = bs "queued" /\ j_state r = READY /\ j_task r = e_task e \/
     state = bs "running" /\ exists d, dedup blake2s R (e_key e) = Ok (Some d) /\ j_dedup_key r = Some d).
Proof.
  unfold launch. intros (tn & Ht & H)%res_bind_Ok. apply res_bind_Ok in H as ([o t1] & He & H). unfold enqueue in He.
  apply res_bind_Ok in He as (new & Hn & He). injection He as He. cbn [e_coalesce] in He. apply new_job_inserted in Hn.
  apply insert_cases in He as (_ & [(-> & E & _)|(k & i & r & _ & _ & _ & [(? & _)|(-> & E)])]); [|done|].
  - injection H as <- <- <-. exists new. rewrite E, lookup_insert_eq. split; [done|]. destruct Hn as [(Hs & _) Hq Htk _ _].
    split; [done|]. by left.
  - apply res_bind_Ok in H as (x & Hx & H). destruct x as [j|]; [|done]. injection H as <- <- <-. unfold _existing_job_id in Hx.
    apply res_bind_Ok in Hx as (dk & Hd & Hx). cbn [e_key] in Hd. injection Hx as Hx. apply bind_Some in Hx as (d & -> & Hx).
    apply find_row_Some in Hx as (r2 & Hr2 & Hnm). unfold named in Hnm. rewrite !andb_true_iff, !bool_decide_eq_true in Hnm.
    destruct Hnm as [[Hq _] Hk]. exists r2. split; [done|]. split; [done|]. right. split; [done|]. by exists d.
Qed.

(** ** Passes *)

(** The next shift of a pass is dropped while the key of its minute is taken,
    by the row of the shift that asks for it if that began in the same
    minute. *)
Lemma next_shift_dropped R name w r bound wall now t t' d :
  finish_shift blake2s R name w r bound wall now t = Ok t' -> check_enqueue_tenant bound (Some (p_tenant w)) = Ok (p_tenant w) ->
  dedup blake2s R (Some (shift_key w wall)) = Ok (Some d) -> holds_key t (_name R) (p_tenant w) d -> rows t' = rows t.
Proof.
  intros H Hb Hd Hh. assert (forall u, _enqueue_next_shift blake2s R name w bound wall now t = Ok u -> rows u = rows t) as Hn.
  { intros u. unfold _enqueue_next_shift. intros ([o t2] & He & [= ->])%res_bind_Ok. unfold enqueue in He.
    apply res_bind_Ok in He as (new & Hnew & He). injection He as He. cbn [e_coalesce] in He.
    assert (keyed R (p_tenant w) d new) as Hk.
    { unfold new_job in Hnew. destruct (_tasks R !! _) as [hd|]; [|done]. cbn [e_bound e_tenant e_key] in Hnew. rewrite Hb in Hnew.
      cbn [res_bind] in Hnew. destruct (_ && _) in Hnew; [done|]. destruct (match e_max_attempts _ with Some _ => _ | None => _ end); [done|].
      destruct (negb _) in Hnew; [done|]. destruct (check_durable_payload _); [cbn [res_bind] in Hnew|done]. rewrite Hd in Hnew.
      cbn in Hnew. by injection Hnew as <-. }
    by destruct (insert_keyed _ _ _ _ _ _ _ _ Hk He) as (_ & _ & _ & Hs); apply Hs. }
  unfold finish_shift in H. destruct (r_stopped r), (r_error r); try done; try (by injection H as <-);
    (destruct (_ || _) in H; [by apply Hn|by injection H as <-]).
Qed.
End claims.

(** ** Runs *)

(** BLAKE2s is the identity in the runs below. *)
Definition digest (b : list Z) : pystr := b.

Definition always (_ : pystr) : bool := true.

Definition built (r : res job_error JobRunner) : JobRunner :=
  match r with Ok R => R | Err _ => mk_runner [] 0 0 0 [] false false ∅ [] [] end.

(** A queue with one task of six attempts, claiming [batch] jobs at a time. *)
Definition mail_runner (batch : Z) : JobRunner :=
  built (let! R := runner_init (bs "mail") 8 30 5 (bs "wreath") batch (bs "mail:0") true true in
         let! R := default_task (bs "send") None always R in
         default_task (bs "bill") None always R).

Lemma mail_runner_ok batch : 1 <= batch -> runner_ok (mail_runner batch).
Proof.
  intros Hb. unfold mail_runner. destruct (let! R := runner_init _ _ _ _ _ _ _ _ _ in _) as [R|e] eqn:E.
  - apply res_bind_Ok in E as (R0 & H0 & (R1 & H1 & H2)%res_bind_Ok). apply runner_init_ok in H0.
    apply task_keeps_ok in H1; [|done]. by apply task_keeps_ok in H2.
  - exfalso. unfold runner_init in E. rewrite (proj2 (Z.ltb_ge batch 1) Hb) in E. cbn in E. vm_compute in E. discriminate E.
Qed.

Definition second : Z := 1000000.

Definition send_job : enqueue_args := mk_enqueue (bs "send") (bs "[]") None None [] None 0 false None None.

(** Two jobs are claimed together at 0 and run one after the other, 20 seconds
    each; at 31 the lease of both is over and another worker takes the second. *)
Definition batch_run : list event :=
  [E_enqueue 1 send_job 0; E_enqueue 1 send_job 0; E_claim 1 0 [1; 2] ∅; E_start 1 0 []; E_tick (20 * second);
   E_end 1 None; E_record 1 (20 * second) 0; E_start 1 0 []; E_tick (11 * second); E_sweep 2 (31 * second);
   E_claim 2 (31 * second) [1; 2] ∅; E_start 2 0 []].

Definition running_job (s : sys) (w : Z) : option Z :=
  match w_phase (worker_at s w) with Running h _ => Some (c_id (h_claim h)) | _ => None end.

(** Both handlers of job 2 are within their deadline, and both run. *)
Lemma batch_runs_twice : exists s, reachable digest (fun _ => mail_runner 2) 0 s /\ timely (fun _ => mail_runner 2) s /\
  running_job s 1 = Some 2 /\ running_job s 2 = Some 2.
Proof.
  destruct (run digest (fun _ => mail_runner 2) batch_run (start_of 0)) as [s|] eqn:E; [|vm_compute in E; discriminate E].
  exists s. assert (reachable digest (fun _ => mail_runner 2) 0 s) as Hs by (eapply run_reachable; [constructor|exact E]).
  split; [done|]. split; [eapply reachable_timely; [|exact Hs]; apply runners_deadlines; intros w; by apply mail_runner_ok|].
  vm_compute in E. injection E as <-. split; reflexivity.
Qed.

(** A job enqueued with [max_attempts=1] whose handler raises. *)
Definition once_job : enqueue_args := mk_enqueue (bs "send") (bs "[]") None (Some (bs "k")) [] (Some 1) 0 false None None.

Definition retry_run : list event :=
  [E_enqueue 1 once_job 0; E_claim 1 0 [1] ∅; E_start 1 0 []; E_tick second; E_end 1 (Some (bs "boom")); E_record 1 second (1 # 2);
   E_tick second; E_claim 1 (2 * second) [1] ∅; E_start 1 0 []].

Definition reached (batch : Z) (es : list event) : sys :=
  default (start_of 0) (run digest (fun _ => mail_runner batch) es (start_of 0)).

Definition retried : sys := Eval vm_compute in reached 1 retry_run.

Lemma retried_reachable : reachable digest (fun _ => mail_runner 1) 0 retried.
Proof. eapply run_reachable; [constructor|]. instantiate (1 := retry_run). vm_compute. reflexivity. Qed.

(** Its own limit is not what stops it: the handler is running a second time. *)
Lemma own_limit_passed : exists r, rows (s_jobs retried) !! 1 = Some r /\ j_max_attempts r = 1 /\ starts_of retried 1 = 2.
Proof. eexists. split; [reflexivity|]. split; reflexivity. Qed.

Lemma mail_limit r : rows (s_jobs retried) !! 1 = Some r -> limit (fun _ => mail_runner 1) r 6.
Proof.
  intros E. vm_compute in E. injection E as <-. split; [done|]. intros _ t Ht. vm_compute in Ht. by injection Ht as <-.
Qed.

Lemma starts_bounded_witness : starts_of retried 1 <= 6.
Proof.
  destruct (rows (s_jobs retried) !! 1) as [r|] eqn:E; [|vm_compute in E; discriminate E].
  apply (starts_bounded digest (fun _ => mail_runner 1) 0 retried 1 r 6); [|exact retried_reachable|exact E|by apply mail_limit].
  intros w. by apply mail_runner_ok.
Defined.

Lemma one_job_per_key_witness : exists r, rows (s_jobs retried) !! 1 = Some r /\ (1 = 1).
Proof.
  destruct (rows (s_jobs retried) !! 1) as [r|] eqn:E; [|vm_compute in E; discriminate E]. exists r. split; [done|].
  apply (one_job_per_key digest (fun _ => mail_runner 1) 0 retried 1 1 r r (bs "mail" ++ [0] ++ bs "k"));
    [|exact retried_reachable|exact E|exact E|reflexivity|reflexivity|..]; [intros w; by apply mail_runner_ok| |];
    vm_compute in E; injection E as <-; reflexivity.
Defined.

Lemma one_handler_per_job_witness : running_job retried 1 = Some 1 /\ 1 = 1.
Proof.
  split; [reflexivity|]. destruct (w_phase (worker_at retried 1)) as [|h t|] eqn:E; try (vm_compute in E; discriminate E).
  apply (one_handler_per_job digest (fun _ => mail_runner 1) 0 retried 1 h t 1 h t);
    [|exact retried_reachable|exact E|exact E|reflexivity|..]; [intros w; by apply mail_runner_ok| |];
    vm_compute in E; injection E as <- <-; vm_compute; discriminate.
Defined.

(** Cancelled while its handler runs, the job is dead, whatever comes after. *)
Definition cancelled : sys := Eval vm_compute in reached 1 (retry_run ++ [E_cancel 2 None (Some (bs "k")) (bs "stop") [] (2 * second)]).

Definition completed : sys := Eval vm_compute in
  reached 1 (retry_run ++ [E_cancel 2 None (Some (bs "k")) (bs "stop") [] (2 * second); E_end 1 None; E_record 1 (2 * second) 0]).

Lemma job_life_legal_witness :
  rows (s_jobs cancelled) !! 1 = rows (s_jobs completed) !! 1 /\ (j_state <$> rows (s_jobs completed) !! 1) = Some DEAD.
Proof.
  set (ended := reached 1 (retry_run ++ [E_cancel 2 None (Some (bs "k")) (bs "stop") [] (2 * second); E_end 1 None])).
  destruct (rows (s_jobs ended) !! 1) as [r|] eqn:E; [|vm_compute in E; discriminate E].
  assert (reachable digest (fun _ => mail_runner 1) 0 ended) as Hr.
  { eapply run_reachable; [constructor|]. instantiate (1 := retry_run ++ [E_cancel 2 None (Some (bs "k")) (bs "stop") [] (2 * second); E_end 1 None]).
    vm_compute. reflexivity. }
  pose proof (job_life_legal digest (fun _ => mail_runner 1) 0 ended (E_record 1 (2 * second) 0) completed 1 r
    (fun w => mail_runner_ok 1 ltac:(done)) Hr ltac:(vm_compute; reflexivity) E) as H.
  destruct (rows (s_jobs completed) !! 1) as [r'|] eqn:E'; [|vm_compute in E'; discriminate E'].
  destruct H as (_ & Hsame & _). vm_compute in E. injection E as <-. specialize (Hsame eq_refl). subst r'. split; [exact (eq_sym E') || reflexivity|reflexivity].
Defined.

(** *** Schedules *)

(** One task on two schedules of the same minute, with different arguments. *)
Definition reports : JobRunner :=
  built (let! R := schedule (U := ascii_data) (bs "send") (Some (bs "* * * * *")) None (bs "[1]") [] (bs "skip") (mail_runner 1) in
         schedule (U := ascii_data) (bs "send") (Some (bs "* * * * *")) None (bs "[2]") [] (bs "skip") R).

Definition noon : Z := instant 2026 5 4 12 0.

(** The second is never enqueued: the key has neither the schedule nor its
    arguments. *)
Example schedules_collide :
  let '(t, e) := _tick_schedules digest reports noon (fun _ => noon) (mk_jobs 1 ∅) in
  e = None /\ map (fun e => j_args e.2) (map_to_list (rows t)) = [bs "[1]"].
Proof. vm_compute. split; reflexivity. Qed.

Lemma schedules_fire_once_witness :
  let '(t1, _) := _tick_schedules digest reports noon (fun _ => noon) (mk_jobs 1 ∅) in
  exists t3, _tick_schedules digest reports (noon + 30 * second) (fun _ => noon) t1 = (t3, None) /\ rows t3 = rows t1.
Proof.
  destruct (_tick_schedules digest reports noon (fun _ => noon) (mk_jobs 1 ∅)) as [t1 e] eqn:E.
  apply (schedules_fire_once digest reports noon (noon + 30 * second) (fun _ => noon) (fun _ => noon) (mk_jobs 1 ∅) t1 t1).
  - intros id r. cbn. by rewrite lookup_empty.
  - intros s Hs. assert (tz (s_recurrence s) = UTC) as Hz.
    { vm_compute in Hs. apply list_elem_of_In in Hs. destruct Hs as [<-|[<-|[]]]; reflexivity. }
    unfold same_minute. rewrite Hz. eexists _, _. split; [vm_compute; reflexivity|]. split; vm_compute; reflexivity.
  - vm_compute in E. injection E as <- <-. vm_compute. reflexivity.
  - by apply keeps_rows.
  - vm_compute in E. injection E as <- _. intros id r Hr. apply elem_of_map_to_list in Hr. vm_compute in Hr.
    apply list_elem_of_In in Hr. destruct Hr as [[= <- _]|[]]. reflexivity.
Defined.

(** *** Passes *)

Definition backfill : Pass := mk_pass (bs "fill") [] 10 false.

Definition pass_runner : pystr * JobRunner :=
  match drive (U := ascii_data) backfill None always (mail_runner 1) with Ok p => p | Err _ => ([], mail_runner 1) end.

(** The first shift of a pass, started and out of its budget in one minute. *)
Definition stalled : jobs :=
  let '(name, R) := pass_runner in
  match start_pass digest R name backfill false 0 0 (mk_jobs 1 ∅) with
  | Err _ => mk_jobs 1 ∅
  | Ok t =>
    let '(claims, t) := _claim R 0 [1] ∅ t in
    match finish_shift digest R name backfill (mk_shift 5 false Budget false) None (10 * second) (10 * second) t, claims with
    | Ok t, [job] => snd (_complete job (10 * second) t)
    | _, _ => mk_jobs 1 ∅
    end
  end.

(** The pass is not finished and nothing is queued to go on with it. *)
Example pass_stalls : map (fun e => j_state e.2) (map_to_list (rows stalled)) = [DONE].
Proof. vm_compute. reflexivity. Qed.

(** *** Merges *)

Definition merged : res job_error (option Z * jobs) :=
  let! (_, t) := enqueue digest (mail_runner 1) (mk_enqueue (bs "send") (bs "[1]") None (Some (bs "k")) [] None 0 true None None) 0 (mk_jobs 1 ∅) in
  enqueue digest (mail_runner 1) (mk_enqueue (bs "bill") (bs "[2]") None (Some (bs "k")) [] None 0 true None None) 0 t.

(** The arguments of one task under the name of another. *)
Example merge_mixes_tasks :
  match merged with
  | Ok (_, t) => map (fun e => (j_task e.2, j_args e.2)) (map_to_list (rows t)) = [(bs "send", bs "[2]")]
  | Err _ => False
  end.
Proof. vm_compute. reflexivity. Qed.

(** Before the version-3 column, merging fails. *)
Example merge_needs_priority :
  enqueue digest (built (let! R := runner_init (bs "mail") 8 30 5 (bs "wreath") 1 (bs "mail:0") true false in
                         default_task (bs "send") None always R))
    (mk_enqueue (bs "send") (bs "[1]") None (Some (bs "k")) [] None 0 true None None) 0 (mk_jobs 1 ∅) = Err UndefinedColumn.
Proof. vm_compute. reflexivity. Qed.

(** [cancel] is not one of the declared transitions. *)
Example cancel_undeclared : valid_transition READY DEAD = false.
Proof. reflexivity. Qed.
