(* ===== verification/PassKeys.v ===== *)
(** * Chunked passes: keys, ranges and declarations

    [_passes/keyset.py], [_passes/pace.py], the gate of [_passes/gate.py] and the
    declaration of [passes.py].  The walked table is a map from the values of the
    key columns to the rest of the row, so the key columns identify a row.  A
    key value is the list of its columns' values, each an integer (a timestamp is
    its microseconds); numbers of seconds are exact rationals.  A probe is the
    rows its statement selects, in the order of its [ORDER BY]. *)

From stdpp Require Import base sets strings numbers list gmap fin_maps.
From Stdlib Require Import ZArith QArith Qround Lia.
From S2P Require Import Prelude PyCollections PyText PrivacyRegistry TokenBucket.
#[local] Open Scope Z_scope.

Inductive pass_error : Type := PassDeclarationError | ValueError | IndexError.

(** ** Keys: [_passes/keyset.py] *)

Definition key_value : Type := list Z.

(** [validate_unquoted_identifier]; what passes the pattern is ASCII. *)
Definition unquoted_start (c : Z) : bool := ((97 <=? c) && (c <=? 122)) || (c =? 95).

Definition validate_unquoted_identifier (value : pystr) : res pass_error pystr :=
  match value with
  | [] => Err PassDeclarationError
  | c :: rest =>
    if unquoted_start c && forallb (fun c => unquoted_start c || is_ascii_digit c || (c =? 36)) rest
    then if 63 <? zlen value then Err PassDeclarationError else Ok value
    else Err PassDeclarationError
  end.

Definition _SQL_TYPE (t : pystr) : bool :=
  match t with
  | [] => false
  | c :: rest => ascii_letter c && forallb (fun c => ascii_letter c || is_ascii_digit c || (c =? 95) || (c =? 32)) rest
  end.

Definition _MONOTONE_DEFAULTS : list pystr := [bs "now()"; bs "clock_timestamp()"; bs "current_timestamp"; bs "nextval("].

Definition _CLOCK_TYPES : list pystr :=
  [bs "timestamptz"; bs "timestamp"; bs "timestamp with time zone"; bs "timestamp without time zone"].

Definition _INEXACT_TYPES : list pystr := [bs "numeric"; bs "decimal"].

Record Key : Type := mk_Key {
  k_name : pystr;
  k_type : pystr;
  k_indexed : bool;
  k_unique : bool;
  k_monotone : bool;
  k_descending : bool }.

(** [Key(...)]. *)
Definition new_Key (name type : pystr) (indexed unique monotone descending : bool) : res pass_error Key :=
  let! _ := validate_unquoted_identifier name in
  if _SQL_TYPE type then Ok (mk_Key name type indexed unique monotone descending) else Err PassDeclarationError.

Definition is_clock (k : Key) : bool := text_in (lower (k_type k)) _CLOCK_TYPES.

(** [token in text]. *)
Fixpoint text_contains (token s : pystr) : bool :=
  startswith token s || match s with [] => false | _ :: s => text_contains token s end.

(** What a key reads of a model column. *)
Record column : Type := mk_column {
  database_name : pystr;
  pg_type : pystr;
  c_indexed : bool;
  c_primary_key : bool;
  c_unique : bool;
  server_default : option pystr }.

Definition _monotone (c : column) : bool :=
  match server_default c with
  | Some default => existsb (fun token => text_contains token (lower default)) _MONOTONE_DEFAULTS
  | None => false
  end.

(** What [key=] may hold: a key, a column (ordered by [asc()], [desc()] or not
    ordered, the direction in ASCII), or something else. *)
Inductive key_argument : Type :=
| A_key (k : Key)
| A_column (direction : option pystr) (c : column)
| A_other.

Definition key_from_column (a : key_argument) : res pass_error Key :=
  match a with
  | A_column direction c =>
    let descending := match direction with Some d => bool_decide (lower d = bs "desc") | None => false end in
    new_Key (database_name c) (pg_type c) (c_indexed c || c_primary_key c || c_unique c)
      (c_primary_key c || c_unique c) (_monotone c) descending
  | _ => Err PassDeclarationError
  end.

Fixpoint normalise_items (items : list key_argument) : res pass_error (list Key) :=
  match items with
  | [] => Ok []
  | a :: items =>
    let! k := match a with A_key k => Ok k | _ => key_from_column a end in
    let! ks := normalise_items items in
    Ok (k :: ks)
  end.

Definition normalise (items : list key_argument) : res pass_error (list Key) :=
  if bool_decide (items = []) then Err PassDeclarationError else normalise_items items.

Definition refuse_unsound_key (keys : list Key) : res pass_error unit :=
  if existsb k_descending keys && negb (forallb k_descending keys) then Err PassDeclarationError
  else if negb (bool_decide (NoDup (map k_name keys))) then Err PassDeclarationError
  else
    match keys with
    | [] => Err IndexError
    | k :: _ =>
      if negb (k_indexed k) then Err PassDeclarationError
      else if negb (existsb k_unique keys) then Err PassDeclarationError
      else if existsb (fun k => text_in (lower (k_type k)) _INEXACT_TYPES) keys then Err PassDeclarationError
      else Ok tt
    end.

Definition refuse_unmonotone_key (keys : list Key) (reason : option pystr) : res pass_error unit :=
  match keys with
  | [] => Err IndexError
  | k :: _ =>
    if k_monotone k || match reason with Some r => negb (bool_decide (r = [])) | None => false end then Ok tt
    else Err PassDeclarationError
  end.

Definition refuse_unclocked_key (keys : list Key) : res pass_error unit :=
  match keys with
  | [] => Err IndexError
  | k :: _ => if is_clock k then Ok tt else Err PassDeclarationError
  end.

(** ** Comparisons and probes *)

(** [keys[0].descending]. *)
Definition walks_down (keys : list Key) : bool := match keys with k :: _ => k_descending k | [] => false end.

(** The row comparison of [after_operator]: [k] lies past [c]. *)
Definition after (down : bool) (c k : key_value) : bool :=
  match list_cmp c k with Lt => negb down | Gt => down | Eq => false end.

(** The row comparison of [upto_operator]: [k] does not lie past [c]. *)
Definition upto (down : bool) (c k : key_value) : bool :=
  match list_cmp c k with Lt => down | Gt => negb down | Eq => true end.

Definition range_predicate (down : bool) (cursor : option key_value) (frontier : key_value -> bool) (k : key_value) : bool :=
  match cursor with Some c => after down c k | None => true end && frontier k.

Definition chunk_predicate (down : bool) (cursor_from : option key_value) (cursor_to : key_value)
    (frontier : key_value -> bool) (k : key_value) : bool :=
  match cursor_from with Some c => after down c k | None => true end && upto down cursor_to k && frontier k.

(** [ORDER BY] [order_clause]. *)
Definition order_clause (down reverse : bool) (l : list key_value) : list key_value :=
  if xorb down reverse then rev (sorted_by id l) else sorted_by id l.

(** ** The table, its frontier and its work: [passes.py] *)

(** The rows of the walked table by their key. *)
Notation table := (gmap key_value).

Section table.
Context {V : Type}.

Definition keys_where (p : key_value -> bool) (t : table V) : list key_value :=
  List.filter p (map fst (map_to_list t)).

Definition fetch_key (down : bool) (t : table V) (cursor : option key_value) (frontier : key_value -> bool)
    (offset : option Z) (reverse : bool) : option key_value :=
  let l := order_clause down reverse (keys_where (range_predicate down cursor frontier) t) in
  l !! Z.to_nat (default 0 offset).

(** [Rows.next_range], its two probes at one moment. *)
Definition next_range (down : bool) (limit : Z) (t : table V) (cursor : option key_value) (frontier : key_value -> bool) :
    option (option key_value * key_value) :=
  match
    match fetch_key down t cursor frontier (Some (limit - 1)) false with
    | Some k => Some k
    | None => fetch_key down t cursor frontier None true
    end
  with
  | Some k => Some (cursor, k)
  | None => None
  end.

(** [Ceiling], and [Sealed] with its lateness in microseconds. *)
Inductive frontier : Type := Ceiling (monotone : option pystr) | Sealed (lateness : Z).

Definition recurring (f : frontier) : bool := match f with Ceiling _ => false | Sealed _ => true end.

Definition derive (f : frontier) (down : bool) (now : Z) (t : table V) : option key_value :=
  match f with
  | Ceiling _ => head (order_clause down true (map fst (map_to_list t)))
  | Sealed lateness => Some [now - lateness]
  end.

Definition frontier_predicate (f : frontier) (down : bool) (ceiling : option key_value) (k : key_value) : bool :=
  match f, ceiling with
  | _, None => false
  | Ceiling _, Some c => upto down c k
  | Sealed _, Some c =>
    match c, k with
    | stamp :: _, value :: _ => if down then stamp <? value else value <? stamp
    | _, _ => false
    end
  end.

Definition frontier_refuse (f : frontier) (keys : list Key) : res pass_error unit :=
  match f with
  | Ceiling monotone => refuse_unmonotone_key keys monotone
  | Sealed _ => refuse_unclocked_key keys
  end.

(** The declared shapes.  [where_] is the extra condition on the rest of a row;
    a callback has the transaction's view of the table and the rows of its
    chunk, and may raise. *)
Inductive work : Type :=
| Purge (where_ : option (V -> bool))
| Rewrite (columns : list pystr) (set_ : V -> V) (where_ : option (V -> bool))
| Apply (callback : (key_value -> bool) -> table V -> option (table V * Z)).

Definition writes (w : work) : list pystr := match w with Rewrite columns _ _ => columns | _ => [] end.

Definition matches (where_ : option (V -> bool)) (v : V) : bool := match where_ with Some p => p v | None => true end.

(** The work on the chunk of the keys that satisfy [p], and the rows it touched;
    [None]: it raised. *)
Definition apply (w : work) (p : key_value -> bool) (t : table V) : option (table V * Z) :=
  match w with
  | Purge where_ =>
    let hit kv := p kv.1 && matches where_ kv.2 in
    Some (list_to_map (List.filter (fun kv => negb (hit kv)) (map_to_list t)),
      zlen (List.filter hit (map_to_list t)))
  | Rewrite _ set_ where_ =>
    let hit kv := p kv.1 && matches where_ kv.2 in
    Some (map_imap (fun k v => Some (if hit (k, v) then set_ v else v)) t, zlen (List.filter hit (map_to_list t)))
  | Apply callback => callback p t
  end.

End table.
Arguments work : clear implicits.

(** ** Pacing: [_passes/pace.py] *)

Definition new_DutyCycle (fraction : Q) : res pass_error Q :=
  if qlt 0 fraction && qle fraction 1 then Ok fraction else Err ValueError.

Definition rest_after (fraction elapsed : Q) : Q :=
  if qle elapsed 0 then 0%Q else (elapsed * (1 / fraction - 1))%Q.

(** ** Gates: [_passes/gate.py]

    Of its verification a gate here keeps nothing: what a check answers is an
    argument of the step that runs it. *)

Inductive scope : Type := S_pass | S_unit.

#[global] Instance scope_eq_dec : EqDecision scope.
Proof. solve_decision. Defined.

(** [has_then]: the gate was given an irreversible step. *)
Record Gate : Type := mk_Gate { publishes : option pystr; has_then : bool; g_scope : scope }.

Inductive verdict : Type := V_ok (detail : pystr) | V_no (detail : pystr) | V_transient (detail : pystr).

Section declaration.
Context `{U : UnicodeData}.

Definition new_Gate (publishes : option pystr) (has_then : bool) (s : scope) : res pass_error Gate :=
  if match publishes with Some p => bool_decide (strip_text p = []) | None => false end then Err PassDeclarationError
  else if negb (bool_decide (is_Some publishes)) && negb has_then then Err PassDeclarationError
  else if bool_decide (s = S_unit) && bool_decide (is_Some publishes) then Err PassDeclarationError
  else Ok (mk_Gate publishes has_then s).

(** [Ceiling.at_launch]. *)
Definition at_launch (monotone : option pystr) : res pass_error frontier :=
  match monotone with
  | Some m => if bool_decide (strip_text m = []) then Err PassDeclarationError else Ok (Ceiling monotone)
  | None => Ok (Ceiling None)
  end.
End declaration.

(** ** The declaration of a pass: [ChunkedPass.__init__]

    [over], the query budget and the identity of the row are left out; of the
    reused predicate of a gate, see the header of the library. *)

Inductive denominator_kind : Type := Estimated | Exact | Keyspace.

#[global] Instance denominator_kind_eq_dec : EqDecision denominator_kind.
Proof. solve_decision. Defined.

(** The types of [_EXAMPLE]; all of them have a position on a line. *)
Definition _EXAMPLE : list pystr :=
  [bs "int2"; bs "int4"; bs "int8"; bs "smallint"; bs "integer"; bs "bigint"; bs "float4"; bs "float8"; bs "real";
   bs "double precision"; bs "numeric"; bs "timestamptz"; bs "timestamp"; bs "timestamp with time zone";
   bs "timestamp without time zone"; bs "date"].

Definition progress_refuse (d : denominator_kind) (keys : list Key) : res pass_error unit :=
  match d, keys with
  | Keyspace, [] => Err IndexError
  | Keyspace, k :: _ => if text_in (lower (k_type k)) _EXAMPLE then Ok tt else Err PassDeclarationError
  | _, _ => Ok tt
  end.

Record Rows : Type := mk_Rows { r_keys : list Key; r_limit : Z; r_within : Q }.

(** [_seconds] of a number. *)
Definition _seconds (value : Q) : res pass_error Q := if qle value 0 then Err PassDeclarationError else Ok value.

Definition new_Rows (items : list key_argument) (limit : Z) (within_ : Q) : res pass_error Rows :=
  if limit <? 1 then Err PassDeclarationError
  else
    let! keys := normalise items in
    let! within_ := _seconds within_ in
    Ok (mk_Rows keys limit within_).

Section pass.
Context {V : Type}.

Record ChunkedPass : Type := mk_pass {
  p_units : Rows;
  p_frontier : frontier;
  p_work : work V;
  p_gate : option Gate;
  p_pace : Q;
  p_progress : denominator_kind;
  p_skip : bool;
  p_chunk_retries : Z;
  p_shift : Q;
  p_rewrites : option pystr }.

Definition new_pass (name : pystr) (units : Rows) (f : frontier) (w : work V) (gate : option Gate) (pace : option Q)
    (progress : option denominator_kind) (on_chunk_failure : pystr) (chunk_retries : Z) (shift : Q)
    (rewrites : option pystr) : res pass_error ChunkedPass :=
  if bool_decide (name = []) || (200 <? zlen name) then Err PassDeclarationError
  else if negb (text_in on_chunk_failure [bs "halt"; bs "skip"]) then Err PassDeclarationError
  else if chunk_retries <? 1 then Err PassDeclarationError
  else
    let pace := default (1 # 4) pace in
    let progress := default Estimated progress in
    let! shift := _seconds shift in
    let keys := r_keys units in
    let! _ := refuse_unsound_key keys in
    let! _ := progress_refuse progress keys in
    let! _ := frontier_refuse f keys in
    if qle shift (r_within units) then Err PassDeclarationError
    else if existsb (fun c => text_in c (map k_name keys)) (writes w) then Err PassDeclarationError
    else if match gate with Some g => bool_decide (g_scope g = S_pass) && recurring f | None => false end
    then Err PassDeclarationError
    else Ok (mk_pass units f w gate pace progress (bool_decide (on_chunk_failure = bs "skip")) chunk_retries shift rewrites).

Definition p_keys (p : ChunkedPass) : list Key := r_keys (p_units p).
Definition p_down (p : ChunkedPass) : bool := walks_down (p_keys p).
Definition p_guards (p : ChunkedPass) : option pystr := p_gate p ≫= publishes.

(** The gate that verifies the whole table once the walk completes. *)
Definition whole_gate (p : ChunkedPass) : option Gate :=
  match p_gate p with Some g => if bool_decide (g_scope g = S_pass) then Some g else None | None => None end.
End pass.
Arguments ChunkedPass : clear implicits.
