(* ===== verification/PassLedger.v ===== *)
(** * Chunked passes: the ledger

    [_passes/ledger.py] and [_passes/progress.py].  The ledger row of one pass,
    its holes and the append-only record of rewrites, with each statement as the
    change it makes; its clock reading is an argument, in microseconds.  A cursor
    is kept as the key it encodes.  Progress is computed with exact rationals. *)

From stdpp Require Import base sets strings numbers list gmap fin_maps.
From Stdlib Require Import ZArith QArith Qround Qminmax Lia.
From S2P Require Import Prelude PyCollections PyText TokenBucket PassKeys.
#[local] Open Scope Z_scope.

(** ** Rows *)

Inductive phase : Type := WALKING | DONE | BLOCKED | VERIFYING | VERIFIED | APPLYING | UNVERIFIED.

#[global] Instance phase_eq_dec : EqDecision phase.
Proof. solve_decision. Defined.

Definition STOPPED : list phase := [BLOCKED; UNVERIFIED].

(** A requeued unit, the object with members from and to. *)
Record unit_ : Type := mk_unit { u_from : option key_value; u_to : key_value }.

#[global] Instance unit_eq_dec : EqDecision unit_.
Proof. solve_decision. Defined.

(** A hole, without its key [cursor_to] and the predicate that reproduces it. *)
Record Hole : Type := mk_hole { h_from : option key_value; h_attempts : Z; h_error : pystr; h_failed_at : Z }.

(** The columns that only report. *)
Record report : Type := mk_report {
  keyspace_from : option key_value;
  rows_done : Z;
  denominator : option Z;
  kind_of_denominator : option denominator_kind;
  chunk_limit : Z;
  paced_reason : option pystr;
  window_started : option Z;
  window_rows : Z;
  window_units : Z;
  started_at : option Z;
  last_advance : option Z;
  cycle_started : option Z;
  driven_at : option Z;
  last_drive_error : option pystr }.

(** The columns other programs read. *)
Record claims : Type := mk_claims {
  guards : option pystr;
  rewrites : option pystr;
  verified_at : option Z;
  verified_fact : option pystr;
  trace_context : option pystr }.

Record LedgerRow : Type := mk_row {
  l_phase : phase;
  l_cursor : option key_value;
  l_ceiling : option key_value;
  l_pending : list unit_;
  l_units_done : Z;
  l_last_error : option pystr;
  l_report : report;
  l_claims : claims }.

(** The row of one pass, its holes, and the facts recorded as rewritten. *)
Record ledger : Type := mk_ledger {
  the_row : option LedgerRow;
  holes : gmap key_value Hole;
  pass_rewrites : list pystr }.

Definition empty_ledger : ledger := mk_ledger None ∅ [].

Definition set_row (r : LedgerRow) (d : ledger) : ledger := mk_ledger (Some r) (holes d) (pass_rewrites d).
Definition set_holes (h : gmap key_value Hole) (d : ledger) : ledger := mk_ledger (the_row d) h (pass_rewrites d).

(** [UPDATE passes SET f WHERE p], and whether a row changed. *)
Definition update (p : LedgerRow -> bool) (f : LedgerRow -> LedgerRow) (d : ledger) : bool * ledger :=
  match the_row d with
  | Some r => if p r then (true, set_row (f r) d) else (false, d)
  | None => (false, d)
  end.

Definition with_report (g : report -> report) (r : LedgerRow) : LedgerRow :=
  mk_row (l_phase r) (l_cursor r) (l_ceiling r) (l_pending r) (l_units_done r) (l_last_error r) (g (l_report r)) (l_claims r).

Definition with_phase (p : phase) (e : option pystr) (r : LedgerRow) : LedgerRow :=
  mk_row p (l_cursor r) (l_ceiling r) (l_pending r) (l_units_done r) e (l_report r) (l_claims r).

Definition with_pending (p : list unit_) (r : LedgerRow) : LedgerRow :=
  mk_row (l_phase r) (l_cursor r) (l_ceiling r) p (l_units_done r) (l_last_error r) (l_report r) (l_claims r).

Definition set_advance (now : Z) (g : report) : report :=
  mk_report (keyspace_from g) (rows_done g) (denominator g) (kind_of_denominator g) (chunk_limit g) (paced_reason g)
    (window_started g) (window_rows g) (window_units g) (started_at g) (Some now) (cycle_started g) (driven_at g)
    (last_drive_error g).

Definition set_cycle (now : Z) (g : report) : report :=
  mk_report (keyspace_from g) (rows_done g) (denominator g) (kind_of_denominator g) (chunk_limit g) (paced_reason g)
    (window_started g) (window_rows g) (window_units g) (started_at g) (last_advance g) (Some now) (driven_at g)
    (last_drive_error g).

(** ** Statements: [Ledger] *)

Definition coalesce {A} (x y : option A) : option A := match x with Some _ => x | None => y end.

Definition fresh_row (now limit : Z) (guards rewrites trace : option pystr) : LedgerRow :=
  mk_row WALKING None None [] 0 None
    (mk_report None 0 None None limit None None 0 0 (Some now) None None None None)
    (mk_claims guards rewrites None None trace).

(** [carries]: the table has the version-2 column. *)
Definition seed (carries : bool) (now limit : Z) (guards_ rewrites_ trace : option pystr) (d : ledger) : ledger :=
  let log :=
    match rewrites_ with
    | Some f => if text_in f (pass_rewrites d) then pass_rewrites d else pass_rewrites d ++ [f]
    | None => pass_rewrites d
    end in
  let r :=
    match the_row d with
    | None => fresh_row now limit guards_ rewrites_ (if carries then trace else None)
    | Some r =>
      let c := l_claims r in
      mk_row (l_phase r) (l_cursor r) (l_ceiling r) (l_pending r) (l_units_done r) (l_last_error r) (l_report r)
        (mk_claims guards_ (coalesce rewrites_ (rewrites c)) (verified_at c) (verified_fact c)
          (if carries then coalesce (trace_context c) trace else trace_context c))
    end in
  mk_ledger (Some r) (holes d) log.

Definition _move_cursor (now : Z) (expected : option key_value) (cursor : key_value) (count : bool) (d : ledger) : bool * ledger :=
  update (fun r => bool_decide (l_cursor r = expected))
    (fun r =>
      mk_row (l_phase r) (Some cursor) (l_ceiling r) (l_pending r) (if count then l_units_done r + 1 else l_units_done r)
        (if count then None else l_last_error r) (set_advance now (l_report r)) (l_claims r)) d.

Definition advance (now : Z) (expected : option key_value) (cursor : key_value) (d : ledger) : bool * ledger :=
  _move_cursor now expected cursor true d.

Definition skip_to (now : Z) (expected : option key_value) (cursor : key_value) (d : ledger) : bool * ledger :=
  _move_cursor now expected cursor false d.

Definition WINDOW : Z := 60 * 1000000.

Definition count_rows (now n : Z) (d : ledger) : ledger :=
  snd (update (fun _ => true) (with_report (fun g =>
    let roll := match window_started g with None => true | Some s => WINDOW <? now - s end in
    mk_report (keyspace_from g) (rows_done g + n) (denominator g) (kind_of_denominator g) (chunk_limit g) (paced_reason g)
      (if roll then Some now else window_started g) (if roll then 0 else window_rows g + n)
      (if roll then 0 else window_units g + 1) (started_at g) (last_advance g) (cycle_started g) (driven_at g)
      (last_drive_error g))) d).

Definition set_ceiling (now : Z) (ceiling : option key_value) (cycle : bool) (d : ledger) : ledger :=
  snd (update (fun _ => true) (fun r =>
    mk_row (l_phase r) (l_cursor r) ceiling (l_pending r) (l_units_done r) (l_last_error r)
      (if cycle then set_cycle now (l_report r) else l_report r) (l_claims r)) d).

Definition set_denominator (total : option Z) (kind : denominator_kind) (d : ledger) : ledger :=
  snd (update (fun _ => true) (with_report (fun g =>
    mk_report (keyspace_from g) (rows_done g) total (Some kind) (chunk_limit g) (paced_reason g) (window_started g)
      (window_rows g) (window_units g) (started_at g) (last_advance g) (cycle_started g) (driven_at g)
      (last_drive_error g))) d).

Definition set_keyspace_floor (floor : option key_value) (d : ledger) : ledger :=
  snd (update (fun _ => true) (with_report (fun g =>
    mk_report floor (rows_done g) (denominator g) (kind_of_denominator g) (chunk_limit g) (paced_reason g)
      (window_started g) (window_rows g) (window_units g) (started_at g) (last_advance g) (cycle_started g)
      (driven_at g) (last_drive_error g))) d).

Definition set_pacing (limit : Z) (reason : pystr) (d : ledger) : ledger :=
  snd (update (fun _ => true) (with_report (fun g =>
    mk_report (keyspace_from g) (rows_done g) (denominator g) (kind_of_denominator g) limit (Some reason)
      (window_started g) (window_rows g) (window_units g) (started_at g) (last_advance g) (cycle_started g)
      (driven_at g) (last_drive_error g))) d).

Definition mark_driven (now : Z) (error : option pystr) (d : ledger) : ledger :=
  snd (update (fun _ => true) (with_report (fun g =>
    mk_report (keyspace_from g) (rows_done g) (denominator g) (kind_of_denominator g) (chunk_limit g) (paced_reason g)
      (window_started g) (window_rows g) (window_units g) (started_at g) (last_advance g) (cycle_started g)
      (Some now) (take 2000 <$> error))) d).

Definition in_phase (p : phase) (r : LedgerRow) : bool := bool_decide (l_phase r = p).

Definition expecting (expected : option phase) (r : LedgerRow) : bool :=
  match expected with Some p => in_phase p r | None => true end.

Definition set_phase (expected p : phase) (d : ledger) : bool * ledger :=
  update (in_phase expected) (fun r => with_phase p (l_last_error r) r) d.

Definition block (error : pystr) (p : phase) (expected : option phase) (d : ledger) : bool * ledger :=
  update (expecting expected) (with_phase p (Some (take 2000 error))) d.

Definition unblock (d : ledger) : bool * ledger := update (in_phase BLOCKED) (with_phase WALKING None) d.

Definition publish (now : Z) (fact : option pystr) (detail : pystr) (d : ledger) : bool * ledger :=
  update (in_phase VERIFYING) (fun r =>
    let c := l_claims r in
    mk_row VERIFIED (l_cursor r) (l_ceiling r) (l_pending r) (l_units_done r) None (l_report r)
      (mk_claims (guards c) (rewrites c) (Some now) (Some (take 2000 (default detail fact))) (trace_context c))) d.

Definition begin_cycle (carries : bool) (now : Z) (trace : option pystr) (d : ledger) : bool * ledger :=
  update (fun r => bool_decide (l_phase r ∈ [WALKING; DONE; VERIFIED])) (fun r =>
    let c := l_claims r in
    mk_row WALKING None (l_ceiling r) (l_pending r) (l_units_done r) (l_last_error r) (set_cycle now (l_report r))
      (mk_claims (guards c) (rewrites c) (verified_at c) (verified_fact c) (if carries then trace else trace_context c))) d.

Definition record_error (error : pystr) (expected : option phase) (d : ledger) : bool * ledger :=
  update (expecting expected) (fun r => with_phase (l_phase r) (Some (take 2000 error)) r) d.

(** [@>] on arrays of scalars, and on arrays of units: every element of the
    right is found in the left, in any order and any number of times. *)
Definition key_contains (k c : key_value) : bool := forallb (fun x => bool_decide (x ∈ k)) c.

Definition unit_contains (u v : unit_) : bool :=
  match u_from u, u_from v with
  | None, None => true
  | Some k, Some c => key_contains k c
  | _, _ => false
  end && key_contains (u_to u) (u_to v).

Definition queued (p : list unit_) (v : unit_) : bool := existsb (fun u => unit_contains u v) p.

Definition requeue (cursor_from : option key_value) (cursor_to : key_value) (d : ledger) : bool * ledger :=
  let u := mk_unit cursor_from cursor_to in
  update (fun r => negb (queued (l_pending r) u)) (fun r => with_pending (l_pending r ++ [u]) r) d.

Definition hole_units (d : ledger) : list unit_ :=
  map (fun kh => mk_unit (h_from kh.2) kh.1) (sorted_by (fun kh => h_failed_at kh.2) (map_to_list (holes d))).

Definition retry_holes (d : ledger) : Z * ledger :=
  match the_row d with
  | Some r =>
    let fresh := List.filter (fun u => negb (queued (l_pending r) u)) (hole_units d) in
    let r := with_pending (l_pending r ++ fresh) r in
    (zlen fresh, set_row (if in_phase BLOCKED r then with_phase WALKING None r else r) d)
  | None => (0, d)
  end.

(** One statement of its own: it commits before the chunk begins. *)
Definition claim_pending (d : ledger) : option unit_ * ledger :=
  match the_row d with
  | Some r =>
    match l_pending r with
    | u :: rest => (Some u, set_row (with_pending rest r) d)
    | [] => (None, d)
    end
  | None => (None, d)
  end.

Definition drop_pending (u : unit_) (d : ledger) : ledger :=
  snd (update (fun _ => true) (fun r => with_pending (List.filter (fun e => negb (bool_decide (e = u))) (l_pending r)) r) d).

Definition record_hole (now : Z) (cursor_from : option key_value) (cursor_to : key_value) (attempts : Z) (error : pystr)
    (d : ledger) : ledger :=
  let h :=
    match holes d !! cursor_to with
    | Some h => mk_hole (h_from h) (h_attempts h + attempts) (take 4000 error) now
    | None => mk_hole cursor_from attempts (take 4000 error) now
    end in
  set_holes (<[cursor_to := h]> (holes d)) d.

Definition clear_hole (cursor_to : key_value) (d : ledger) : ledger := set_holes (delete cursor_to (holes d)) d.

Definition open_holes (d : ledger) : Z := Z.of_nat (size (holes d)).

(** ** Readers *)

Definition published_facts (fact : option pystr) (ds : list ledger) : list pystr :=
  omap (fun d =>
    r ← the_row d; _ ← verified_at (l_claims r);
    f ← verified_fact (l_claims r);
    if match fact with Some g => bool_decide (f = g) | None => true end then Some f else None) ds.

Definition pending_facts (facts : list pystr) (ds : list ledger) : list (pystr * phase * Z) :=
  omap (fun d =>
    r ← the_row d;
    match verified_at (l_claims r), guards (l_claims r) with
    | None, Some g => if text_in g facts then Some (g, l_phase r, open_holes d) else None
    | _, _ => None
    end) ds.

(** Whether a downgrade is told that the values of [fact] were overwritten, by
    the record or by the row. *)
Definition rewritten (fact : pystr) (d : ledger) : bool :=
  text_in fact (pass_rewrites d) ||
  match the_row d with Some r => bool_decide (rewrites (l_claims r) = Some fact) | None => false end.

(** ** Progress: [_passes/progress.py] *)

Definition seconds (microseconds : Z) : Q := (inject_Z microseconds / 1000000)%Q.

Definition _seconds_between (later earlier : option Z) : option Q :=
  match later, earlier with Some l, Some e => Some (seconds (l - e)) | _, _ => None end.

Definition STALL_MULTIPLE : Q := 10.
Definition STALL_FLOOR_SECONDS : Q := 30.
Definition DRIVE_SILENCE_SECONDS : Q := 300.

(** What the trailing window measures per unit of time, if it holds anything. *)
Definition window_elapsed (g : report) : option Q :=
  if window_units g <? 1 then None
  else
    match _seconds_between (last_advance g) (window_started g) with
    | Some elapsed => if qle elapsed 0 then None else Some elapsed
    | None => None
    end.

Definition rate_of (g : report) : option Q := elapsed ← window_elapsed g; Some (inject_Z (window_rows g) / elapsed)%Q.

Definition mean_chunk_seconds (g : report) : option Q :=
  elapsed ← window_elapsed g; Some (elapsed / inject_Z (window_units g))%Q.

Definition stall_after (g : report) : Q :=
  match mean_chunk_seconds g with
  | None => STALL_FLOOR_SECONDS
  | Some mean => Qmax STALL_FLOOR_SECONDS (mean * STALL_MULTIPLE)
  end.

Definition percentage (part whole : Q) : Q := Qmax 0 (Qmin 100 (100 * part / whole)).

(** [position] of the leading column, a number or a time. *)
Definition position (k : option key_value) : option Q := v ← k ≫= head; Some (inject_Z v).

Definition _keyspace_percent (down : bool) (r : LedgerRow) : option Q :=
  low ← position (keyspace_from (l_report r)); high ← position (l_ceiling r);
  match l_cursor r ≫= head with
  | None => Some 0%Q
  | Some c =>
    let here := inject_Z c in
    let '(low, high, here) := if down then (- low, - high, - here)%Q else (low, high, here) in
    let span := (high - low)%Q in
    Some (if qle span 0 then 100%Q else percentage (here - low) span)
  end.

Definition percent_of (down : bool) (r : LedgerRow) : option Q :=
  if bool_decide (kind_of_denominator (l_report r) = Some Keyspace) then _keyspace_percent down r
  else
    match denominator (l_report r) with
    | Some total =>
      if total <=? 0 then None else Some (percentage (inject_Z (rows_done (l_report r))) (inject_Z total))
    | None => None
    end.

Inductive pass_state : Type := Walking | Slow | Stalled | Blocked | Done.

Definition truthy (s : option pystr) : bool := match s with Some (_ :: _) => true | _ => false end.

(** Without the sentence that goes with it. *)
Definition _state (now : Z) (r : LedgerRow) : pass_state :=
  let g := l_report r in
  if in_phase DONE r then Done
  else if in_phase BLOCKED r then Blocked
  else if truthy (last_drive_error g) then Blocked
  else
    match _seconds_between (Some now) (driven_at g) with
    | None => Blocked
    | Some silence =>
      if qlt DRIVE_SILENCE_SECONDS silence then Blocked
      else if match _seconds_between (Some now) (last_advance g) with
              | Some idle => qlt (stall_after g) idle
              | None => false
              end then Stalled
      else if truthy (paced_reason g) then Slow
      else Walking
    end.

Inductive absence : Type := In_keyspace | No_denominator | Rate_unknown | Rate_zero.

Definition _eta (now : Z) (r : LedgerRow) : option Q * option absence :=
  let g := l_report r in
  match _state now r with
  | Done => (None, None)
  | _ =>
    if bool_decide (kind_of_denominator g = Some Keyspace) then (None, Some In_keyspace)
    else
      match denominator g with
      | None => (None, Some No_denominator)
      | Some total =>
        if total <=? 0 then (None, Some No_denominator)
        else
          match rate_of g with
          | None => (None, Some Rate_unknown)
          | Some rate =>
            if qle rate 0 then (None, Some Rate_zero)
            else
              let remaining := inject_Z (total - rows_done g) in
              if qle remaining 0 then (Some 0%Q, None) else (Some (remaining / rate)%Q, None)
          end
      end
  end.

(** [PassStatus.gate_barred]. *)
Definition gate_barred (d : ledger) : bool := 0 <? open_holes d.
