(* ===== verification/PassDriver.v ===== *)
(** * Chunked passes: the shifts

    [_passes/driver.py]: any number of workers run shifts of one pass over the
    ledger of [PassLedger] and the walked table of [PassKeys].  A worker is where
    it stands between two statements; a statement outside a transaction commits
    by itself, and the transaction of a chunk takes effect at once.  Between the
    steps of workers rows are written and deleted, units are requeued, holes are
    retried, and a shift ends: stopped, out of budget, or dead.

    The history records, for the statements of the theorems, the rows present
    when the ledger row was made, the keys processed by committed chunks, the
    keys that left the table in another way, where the cursor skipped from, and
    the phase in which each run of the irreversible step began. *)

From stdpp Require Import base sets strings numbers list gmap fin_maps.
From Stdlib Require Import ZArith QArith Qround Lia.
From S2P Require Import Prelude PyCollections PyText TokenBucket PassKeys PassLedger.
#[local] Open Scope Z_scope.

(** ** Workers *)

(** The variables of the loop of [_shift_bound]: the cursor, the ceiling,
    [bool(row.holes_open)] and [finished_but_requeued]. *)
Record loop : Type := mk_loop {
  o_cursor : option key_value;
  o_ceiling : option key_value;
  o_holes : bool;
  o_only : bool }.

(** A range and the unit it was requeued as. *)
Record chunk : Type := mk_chunk { c_from : option key_value; c_to : key_value; c_pending : option unit_ }.

(** Each constructor is the statement that comes next. *)
Inductive stand : Type :=
| Idle
| Seeded (trace : option pystr)
| Restarting (trace : option pystr)
| Rewound
| Deriving (cursor : option key_value) (only : bool)
| Setting (cursor : option key_value) (only : bool) (ceiling : option key_value)
| Rereading (cursor : option key_value) (only : bool) (ceiling : option key_value)
| Looping (o : loop)
| Probing (o : loop)
| Probing_end (o : loop)
| Trying (o : loop) (c : chunk) (attempts : Z)
| Dead_letter (o : loop) (c : chunk) (attempts : Z) (error : pystr)
| Dropping (o : loop) (u : unit_)
| Skipping (o : loop) (c : chunk)
| Halting (error : pystr)
| Unit_check (o : loop)
| Unit_then (o : loop)
| Unit_stop (transient : bool) (error : pystr)
| Finishing (o : loop)
| Barring (n : Z)
| Entering
| Entered
| Checking
| Answered (v : verdict)
| Claiming
| Terminal
| Applied
| Step_failed (error : pystr).

(** What the world gives a step: nothing, the trace of the drive, an exception
    of the work or of the irreversible step, or the answer of a check. *)
Inductive input : Type := I_none | I_trace (t : option pystr) | I_raised (error : pystr) | I_verdict (v : verdict).

Section driver.
Context {V : Type}.

Record history : Type := mk_history {
  g_launch : gset key_value;
  g_done : list key_value;
  g_gone : gset key_value;
  g_skips : gmap key_value (option key_value);
  g_steps : list (option phase) }.

Record sys : Type := mk_sys {
  s_ledger : ledger;
  s_table : table V;
  s_workers : gmap Z stand;
  s_history : history }.

Definition worker_at (s : sys) (w : Z) : stand := default Idle (s_workers s !! w).

(** ** One step of a worker *)

(** [carries]: the ledger has its version-2 column; [reason]: [DutyCycle.reason]. *)
Context (p : ChunkedPass V) (carries : bool) (reason : pystr).

Definition down : bool := p_down p.
Definition allowed (ceiling : option key_value) (k : key_value) : bool := frontier_predicate (p_frontier p) down ceiling k.
Definition unit_gate : option Gate :=
  match p_gate p with Some g => if bool_decide (g_scope g = S_unit) then Some g else None | None => None end.

Definition gate_at (ph : phase) : stand :=
  match ph with VERIFYING => Checking | VERIFIED => Claiming | _ => Terminal end.

(** [_shift_bound] up to its loop; [_run_gate] without a gate raises. *)
Definition shift_bound (r : LedgerRow) (holes_open only : bool) : stand :=
  if bool_decide (l_phase r ∈ [VERIFYING; VERIFIED; APPLYING]) then
    match p_gate p with Some _ => gate_at (l_phase r) | None => Idle end
  else if negb (in_phase WALKING r) && negb only then Idle
  else
    match l_ceiling r with
    | Some c =>
      if recurring (p_frontier p) && bool_decide (l_cursor r = None) then Deriving (l_cursor r) only
      else Looping (mk_loop (l_cursor r) (Some c) holes_open only)
    | None => Deriving (l_cursor r) only
    end.

(** [_shift] after its read. *)
Definition shift (r : LedgerRow) (holes_open : bool) (trace : option pystr) : stand :=
  let only := in_phase DONE r && negb (recurring (p_frontier p)) && negb (bool_decide (l_pending r = [])) in
  if in_phase DONE r && negb only then if recurring (p_frontier p) then Restarting trace else Idle
  else shift_bound r holes_open only.

Definition launch_of (s : sys) : history :=
  let h := s_history s in
  match the_row (s_ledger s) with
  | None => mk_history (dom (s_table s)) (g_done h) (g_gone h) (g_skips h) (g_steps h)
  | Some _ => h
  end.

Definition goto (w : Z) (k : stand) (s : sys) : sys := mk_sys (s_ledger s) (s_table s) (<[w := k]> (s_workers s)) (s_history s).
Definition with_ledger (d : ledger) (s : sys) : sys := mk_sys d (s_table s) (s_workers s) (s_history s).
Definition with_history (h : history) (s : sys) : sys := mk_sys (s_ledger s) (s_table s) (s_workers s) h.

(** A compare-and-swap, and where its winner and its loser go. *)
Definition swap (w : Z) (r : bool * ledger) (won lost : stand) (s : sys) : sys :=
  goto w (if r.1 then won else lost) (with_ledger r.2 s).

(** The seed and [set_pacing]. *)
Definition seed_row (now : Z) (trace : option pystr) (s : sys) : sys :=
  let d := seed carries now (r_limit (p_units p)) (p_guards p) (p_rewrites p) trace (s_ledger s) in
  with_history (launch_of s) (with_ledger (set_pacing (r_limit (p_units p)) reason d) s).

Definition past_chunk (c : chunk) (o : loop) : loop :=
  match c_pending c with Some _ => o | None => mk_loop (Some (c_to c)) (o_ceiling o) (o_holes o) (o_only o) end.

(** The keys of the chunk: [chunk_where] with the frontier of the shift. *)
Definition chunk_where (o : loop) (c : chunk) (k : key_value) : bool :=
  chunk_predicate down (c_from c) (c_to c) (allowed (o_ceiling o)) k.

(** [_run_chunk]: [None] when the work raises, which rolls everything back. *)
Definition run_chunk (w now : Z) (o : loop) (c : chunk) (s : sys) : option sys :=
  let swapped :=
    match c_pending c with Some _ => (true, s_ledger s) | None => advance now (o_cursor o) (c_to c) (s_ledger s) end in
  if swapped.1 then
    result ← apply (p_work p) (chunk_where o c) (s_table s);
    let d := count_rows now result.2 swapped.2 in
    let d := if bool_decide (is_Some (c_pending c)) || o_holes o then clear_hole (c_to c) d else d in
    let h := s_history s in
    let h := mk_history (g_launch h) (g_done h ++ keys_where (chunk_where o c) (s_table s))
      (g_gone h ∪ filter (fun k => chunk_where o c k = false) (dom (s_table s) ∖ dom result.1)) (g_skips h) (g_steps h) in
    let next := match c_pending c, unit_gate with None, Some _ => Unit_check (past_chunk c o) | _, _ => Looping (past_chunk c o) end in
    Some (mk_sys d result.1 (<[w := next]> (s_workers s)) h)
  else Some (goto w Idle s).

(** [_attempt] after the last attempt: [record_hole], then what the policy says. *)
Definition dead_letter (w now : Z) (o : loop) (c : chunk) (attempts : Z) (error : pystr) (s : sys) : sys :=
  let next :=
    match c_pending c with
    | Some u => Dropping o u
    | None => if p_skip p then Skipping o c else Halting error
    end in
  goto w next (with_ledger (record_hole now (c_from c) (c_to c) attempts error (s_ledger s)) s).

Definition skip_chunk (w now : Z) (o : loop) (c : chunk) (s : sys) : sys :=
  let r := skip_to now (o_cursor o) (c_to c) (s_ledger s) in
  let h := s_history s in
  let h := if r.1 then mk_history (g_launch h) (g_done h) (g_gone h) (<[c_to c := o_cursor o]> (g_skips h)) (g_steps h) else h in
  with_history h (swap w r (Looping (past_chunk c o)) Idle s).

(** [_finish]. *)
Definition finish (w : Z) (s : sys) : sys :=
  match whole_gate p with
  | None => swap w (set_phase WALKING DONE (s_ledger s)) Idle Idle s
  | Some _ =>
    let n := open_holes (s_ledger s) in
    goto w (if 0 <? n then Barring n else Entering) s
  end.

(** The irreversible step begins; a gate without one raises. *)
Definition terminal (w : Z) (i : input) (s : sys) : option sys :=
  g ← p_gate p;
  let h := s_history s in
  let ran := with_history (mk_history (g_launch h) (g_done h) (g_gone h) (g_skips h)
    (g_steps h ++ [l_phase <$> the_row (s_ledger s)])) s in
  match has_then g, i with
  | true, I_none => Some (goto w Applied ran)
  | true, I_raised e => Some (goto w (Step_failed e) ran)
  | false, I_raised e => Some (goto w (Step_failed e) s)
  | _, _ => None
  end.

(** [_gate_unit], after a chunk of a gate over units. *)
Definition _gate_unit (w : Z) (i : input) (s : sys) : option sys :=
  let d := s_ledger s in
  match worker_at s w, i with
  | Unit_check o, I_verdict v =>
    match v with
    | V_ok _ =>
      Some (goto w (match unit_gate with Some g => if has_then g then Unit_then o else Looping o | None => Looping o end) s)
    | V_no e => Some (goto w (Unit_stop false e) s)
    | V_transient e => Some (goto w (Unit_stop true e) s)
    end
  | Unit_then o, I_none => Some (goto w (Looping o) s)
  | Unit_then o, I_raised e => Some (goto w (Unit_stop true (bs "the terminal step failed: " ++ e)) s)
  | Unit_stop transient e, I_none =>
    Some (swap w (block e (if transient then BLOCKED else UNVERIFIED) None d) Idle Idle s)
  | _, _ => None
  end.

(** [_run_gate], and the read before it. *)
Definition _run_gate (w now : Z) (i : input) (s : sys) : option sys :=
  let d := s_ledger s in
  match worker_at s w, i with
  | Entered, I_none => r ← the_row d; Some (goto w (gate_at (l_phase r)) s)
  | Checking, I_verdict v => Some (goto w (Answered v) s)
  | Answered v, I_none =>
    match v with
    | V_transient e => Some (swap w (record_error e (Some VERIFYING) d) Idle Idle s)
    | V_no e => Some (swap w (block e UNVERIFIED (Some VERIFYING) d) Idle Idle s)
    | V_ok detail => g ← p_gate p; Some (swap w (publish now (publishes g) detail d) Claiming Idle s)
    end
  | Claiming, I_none =>
    g ← p_gate p;
    if has_then g then Some (swap w (set_phase VERIFIED APPLYING d) Terminal Idle s)
    else Some (swap w (set_phase VERIFIED DONE d) Idle Idle s)
  | Terminal, _ => terminal w i s
  | Applied, I_none => Some (swap w (set_phase APPLYING DONE d) Idle Idle s)
  | Step_failed e, I_none =>
    Some (swap w (record_error (bs "the terminal step failed: " ++ e) (Some APPLYING) d) Idle Idle s)
  | _, _ => None
  end.

(** One statement of a worker: [_shift], [_shift_bound] and what they call. *)
Definition work_step (w now : Z) (i : input) (s : sys) : option sys :=
  let d := s_ledger s in
  let holes_open := negb (bool_decide (holes d = ∅)) in
  match worker_at s w, i with
  | Idle, I_trace t => Some (goto w (Seeded t) (seed_row now t s))
  | Seeded t, I_none => r ← the_row d; Some (goto w (shift r holes_open t) s)
  | Restarting t, I_none => Some (swap w (begin_cycle carries now t d) Rewound Idle s)
  | Rewound, I_none => r ← the_row d; Some (goto w (shift_bound r holes_open false) s)
  | Deriving cursor only, I_none => Some (goto w (Setting cursor only (derive (p_frontier p) down now (s_table s))) s)
  | Setting cursor only ceiling, I_none =>
    Some (goto w (Rereading cursor only ceiling) (with_ledger (set_ceiling now ceiling (bool_decide (cursor = None)) d) s))
  | Rereading cursor only ceiling, I_none => Some (goto w (Looping (mk_loop cursor ceiling holes_open only)) s)
  | Looping o, I_none =>
    match claim_pending d with
    | (Some u, d) => Some (goto w (Trying o (mk_chunk (u_from u) (u_to u) (Some u)) 0) (with_ledger d s))
    | (None, _) => Some (goto w (if o_only o then Idle else Probing o) s)
    end
  | Probing o, I_none =>
    match fetch_key down (s_table s) (o_cursor o) (allowed (o_ceiling o)) (Some (r_limit (p_units p) - 1)) false with
    | Some k => Some (goto w (Trying o (mk_chunk (o_cursor o) k None) 0) s)
    | None => Some (goto w (Probing_end o) s)
    end
  | Probing_end o, I_none =>
    match fetch_key down (s_table s) (o_cursor o) (allowed (o_ceiling o)) None true with
    | Some k => Some (goto w (Trying o (mk_chunk (o_cursor o) k None) 0) s)
    | None => Some (goto w (Finishing o) s)
    end
  | Trying o c attempts, I_none => run_chunk w now o c s
  | Trying o c attempts, I_raised e =>
    let attempts := attempts + 1 in
    Some (goto w (if attempts <? p_chunk_retries p then Trying o c attempts else Dead_letter o c attempts e) s)
  | Dead_letter o c attempts e, I_none => Some (dead_letter w now o c attempts e s)
  | Dropping o u, I_none => Some (goto w (Looping o) (with_ledger (drop_pending u d) s))
  | Skipping o c, I_none => Some (skip_chunk w now o c s)
  | Halting e, I_none => Some (swap w (block e BLOCKED None d) Idle Idle s)
  | (Unit_check _ | Unit_then _ | Unit_stop _ _), _ => _gate_unit w i s
  | Finishing o, I_none => Some (finish w s)
  | Barring n, I_none =>
    let e := str_of_Z n ++ bs " chunk(s) were given up on, so the gate is barred. Clear them with `wreath passes retry`." in
    Some (swap w (block e BLOCKED (Some WALKING) d) Idle Idle s)
  | Entering, I_none => Some (swap w (set_phase WALKING VERIFYING d) Entered Idle s)
  | (Entered | Checking | Answered _ | Claiming | Terminal | Applied | Step_failed _), _ => _run_gate w now i s
  | _, _ => None
  end.

(** ** The world *)

Inductive event : Type :=
| E_work (w now : Z) (i : input)
| E_end (w : Z)
| E_write (k : key_value) (v : V)
| E_erase (k : key_value)
| E_requeue (now : Z) (cursor_from : option key_value) (cursor_to : key_value)
| E_retry
| E_measure (total : option Z) (floor : option key_value)
| E_driven (now : Z) (error : option pystr).

Definition erase (k : key_value) (s : sys) : sys :=
  let h := s_history s in
  mk_sys (s_ledger s) (delete k (s_table s)) (s_workers s)
    (mk_history (g_launch h) (g_done h) ({[k]} ∪ g_gone h) (g_skips h) (g_steps h)).

(** [ChunkedPass.requeue], which seeds the row first. *)
Definition requeue_unit (now : Z) (cursor_from : option key_value) (cursor_to : key_value) (s : sys) : sys :=
  let d := seed carries now (r_limit (p_units p)) (p_guards p) (p_rewrites p) None (s_ledger s) in
  with_history (launch_of s) (with_ledger (snd (requeue cursor_from cursor_to d)) s).

Definition step (e : event) (s : sys) : option sys :=
  match e with
  | E_work w now i => work_step w now i s
  | E_end w => Some (goto w Idle s)
  | E_write k v => Some (mk_sys (s_ledger s) (<[k := v]> (s_table s)) (s_workers s) (s_history s))
  | E_erase k => Some (erase k s)
  | E_requeue now cursor_from cursor_to => Some (requeue_unit now cursor_from cursor_to s)
  | E_retry => Some (with_ledger (snd (retry_holes (s_ledger s))) s)
  | E_measure total floor =>
    Some (with_ledger (set_keyspace_floor floor (set_denominator total (p_progress p) (s_ledger s))) s)
  | E_driven now error => Some (with_ledger (mark_driven now error (s_ledger s)) s)
  end.

Definition start_of (t : table V) : sys := mk_sys empty_ledger t ∅ (mk_history ∅ [] ∅ ∅ []).

Fixpoint run (es : list event) (s : sys) : option sys :=
  match es with [] => Some s | e :: es => s ← step e s; run es s end.

(** What can happen by events that satisfy [P]. *)
Inductive reachable (P : event -> Prop) (t : table V) : sys -> Prop :=
| reach_start : reachable P t (start_of t)
| reach_step s e s' : reachable P t s -> P e -> step e s = Some s' -> reachable P t s'.
End driver.
Arguments history : clear implicits.
Arguments sys : clear implicits.
Arguments event : clear implicits.
