(* ===== verification/PassFacts.v ===== *)
(** * Chunked passes: the invariant of a walk

    Facts of [PassKeys] and [PassDriver]: the order of the walk, what a probe
    answers, and the invariant of a pass with a fixed ceiling.  The cursor only
    moves forward; a key of the launch at or below it is settled, or lies in a
    range that was skipped and whose hole is open; no range in anybody's hands
    that ends where a skip went begins above the start of that skip. *)

From stdpp Require Import base sets strings numbers list gmap fin_maps.
From Stdlib Require Import ZArith QArith Qround Lia.
From S2P Require Import Prelude PyCollections PyText TokenBucket PassKeys PassLedger PassDriver.
#[local] Open Scope Z_scope.

(** ** The order of the walk *)

Section order.
Context (d : bool).
Implicit Types a b c k : key_value.

Lemma upto_pyleb c k : upto d c k = if d then pyleb c k else pyleb k c.
Proof.
  unfold upto, pyleb. change (pycmp (A := key_value)) with (list_cmp (A := Z)).
  destruct d; [by destruct (list_cmp c k)|]. rewrite (list_cmp_flip c k). by destruct (list_cmp c k).
Qed.

Lemma after_upto c k : after d c k = negb (upto d c k).
Proof. unfold after, upto. by destruct (list_cmp c k), d. Qed.

Lemma upto_refl k : upto d k k = true.
Proof. rewrite upto_pyleb. destruct (pyleb_total k k) as [E|E]; by destruct d. Qed.

Lemma upto_trans a b c : upto d b a = true -> upto d c b = true -> upto d c a = true.
Proof. rewrite !upto_pyleb. destruct d; intros H1 H2; eapply pyleb_trans; done. Qed.

Lemma upto_antisym a b : upto d a b = true -> upto d b a = true -> a = b.
Proof. rewrite !upto_pyleb. destruct d; intros H1 H2; by apply pyleb_antisym. Qed.

Lemma upto_total a b : upto d a b = true \/ upto d b a = true.
Proof. rewrite !upto_pyleb. destruct d; [destruct (pyleb_total a b)|destruct (pyleb_total b a)]; auto. Qed.

(** Positions: [None] is before every key. *)
Definition le (a b : option key_value) : Prop :=
  match a, b with None, _ => True | Some a, Some b => upto d b a = true | Some _, None => False end.

Definition past (f : option key_value) (k : key_value) : Prop :=
  match f with None => True | Some c => after d c k = true end.

Lemma le_refl f : le f f.
Proof. destruct f; [apply upto_refl|done]. Qed.

Lemma le_trans f g h : le f g -> le g h -> le f h.
Proof. destruct f, g, h; cbn; try done. intros. by eapply upto_trans. Qed.

Lemma le_antisym f g : le f g -> le g f -> f = g.
Proof. destruct f, g; cbn; try done. intros H1 H2. f_equal. by apply upto_antisym. Qed.

Lemma past_or_le f k : past f k \/ le (Some k) f.
Proof. destruct f as [c|]; cbn; [|by left]. rewrite after_upto. destruct (upto d c k); auto. Qed.

Lemma past_not_le f k : past f k -> ~ le (Some k) f.
Proof. destruct f as [c|]; cbn; [|by intros _ []]. rewrite after_upto. by destruct (upto d c k). Qed.

Lemma past_le f k : past f k -> le f (Some k).
Proof.
  destruct f as [c|]; cbn; [|done]. rewrite after_upto. intros H. destruct (upto_total c k) as [E|E]; [|done]. by rewrite E in H.
Qed.

Lemma past_lower f g k : le f g -> past g k -> past f k.
Proof. intros H Hp. destruct (past_or_le f k) as [|Hle]; [done|]. exfalso. eapply past_not_le; [exact Hp|]. by eapply le_trans. Qed.

Lemma past_upto f k t : past f k -> upto d t k = true -> past f t.
Proof.
  intros Hp Hk. destruct (past_or_le f t) as [|Hle]; [done|]. exfalso. eapply past_not_le; [exact Hp|].
  eapply (le_trans (Some k) (Some t)); [exact Hk|done].
Qed.

End order.

(** ** Probes *)

Lemma order_clause_elem d r l k : k ∈ order_clause d r l <-> k ∈ l.
Proof.
  unfold order_clause. assert (k ∈ sorted_by id l <-> k ∈ l) as H by by rewrite sorted_by_perm.
  destruct (xorb d r); [|done]. by rewrite <- H, !list_elem_of_In, <- in_rev.
Qed.

Section probes.
Context {V : Type}.
Implicit Types t : table V.

Lemma keys_where_elem (f : key_value -> bool) t k : k ∈ keys_where f t <-> k ∈ dom t /\ f k = true.
Proof.
  unfold keys_where. rewrite list_elem_of_In, filter_In, <- list_elem_of_In. split; intros [H1 H2]; (split; [|done]).
  - apply list_elem_of_fmap in H1 as ([k' v] & -> & H). apply elem_of_map_to_list in H. by eapply elem_of_dom_2.
  - apply elem_of_dom in H1 as [v H]. apply list_elem_of_fmap. exists (k, v). split; [done|]. by apply elem_of_map_to_list.
Qed.

Lemma keys_where_nodup (f : key_value -> bool) t : NoDup (keys_where f t).
Proof. unfold keys_where. apply NoDup_ListNoDup, List.NoDup_filter, NoDup_ListNoDup. apply (NoDup_fst_map_to_list t). Qed.

Lemma fetch_some d t c f off r k : fetch_key d t c f off r = Some k -> k ∈ dom t /\ past d c k /\ f k = true.
Proof.
  unfold fetch_key. intros H%list_elem_of_lookup_2. apply order_clause_elem, keys_where_elem in H as [Hd H].
  unfold range_predicate in H. apply andb_prop in H as [H1 H2]. split; [done|]. split; [|done]. by destruct c.
Qed.

Lemma fetch_none d t c f r k : fetch_key d t c f None r = None -> k ∈ dom t -> f k = true -> le d (Some k) c.
Proof.
  unfold fetch_key. cbn. intros H Hk Hf. destruct (past_or_le d c k) as [Hp|]; [|done]. exfalso.
  assert (k ∈ order_clause d r (keys_where (range_predicate d c f) t)) as Hin.
  { apply order_clause_elem, keys_where_elem. split; [done|]. unfold range_predicate. rewrite Hf, andb_true_r. by destruct c. }
  destruct (order_clause d r _); [by apply elem_of_nil in Hin|done].
Qed.

Lemma head_rev_le d (l : list key_value) k c : head (order_clause d true l) = Some c -> k ∈ l -> upto d c k = true.
Proof.
  unfold order_clause. intros Hh Hk. rewrite upto_pyleb.
  assert (k ∈ sorted_by id l) as Hs by by rewrite sorted_by_perm.
  pose proof (sorted_by_sorted id l) as HS. rewrite xorb_true_r in Hh. destruct d; cbn [negb] in Hh.
  - destruct (sorted_by id l) as [|x m]; [done|]. injection Hh as ->. apply elem_of_cons in Hs as [->|Hs].
    + destruct (pyleb_total c c); done.
    + inversion HS as [|? ? _ HF]. rewrite List.Forall_forall in HF. apply HF. by apply list_elem_of_In.
  - remember (sorted_by id l) as m eqn:Em. clear Em. destruct (rev m) as [|x n] eqn:E; [done|]. injection Hh as ->.
    apply (f_equal (@rev _)) in E. rewrite rev_involutive in E. cbn in E. subst m. rewrite elem_of_app in Hs.
    destruct Hs as [Hs|Hs]; [|apply list_elem_of_singleton in Hs as ->; destruct (pyleb_total c c); done].
    clear Hk. induction (rev n) as [|y q IH]; [by apply elem_of_nil in Hs|]. cbn in HS. inversion HS as [|? ? HS' HF].
    apply elem_of_cons in Hs as [->|Hs]; [|by apply IH]. rewrite List.Forall_forall in HF. apply HF, in_or_app. right. by left.
Qed.

End probes.

(** ** What a worker holds *)

Definition loop_of (k : stand) : option loop :=
  match k with
  | Looping o | Probing o | Probing_end o | Trying o _ _ | Dead_letter o _ _ _ | Dropping o _ | Skipping o _
  | Unit_check o | Unit_then o | Finishing o => Some o
  | _ => None
  end.

Definition cursor_of (k : stand) : option (option key_value) :=
  match k with
  | Deriving c _ | Setting c _ _ | Rereading c _ _ => Some c
  | _ => o_cursor <$> loop_of k
  end.

Definition ceiling_of (k : stand) : option (option key_value) :=
  match k with Setting _ _ c | Rereading _ _ c => Some c | _ => o_ceiling <$> loop_of k end.

Definition chunk_of (k : stand) : option chunk :=
  match k with Trying _ c _ | Dead_letter _ c _ _ | Skipping _ c => Some c | _ => None end.

(** The walk is over and the gate is not barred. *)
Definition in_gate (k : stand) : bool :=
  match k with
  | Entering | Entered | Checking | Answered _ | Claiming | Terminal | Applied | Step_failed _ => true
  | _ => false
  end.

Section invariant.
Context {V : Type} (p : ChunkedPass V) (carries : bool) (reason : pystr).
Implicit Types (s : sys V) (d : ledger) (x : key_value) (k : stand).

Notation dn := (down p).

Definition cursor s : option key_value := the_row (s_ledger s) ≫= l_cursor.

Definition settled s x : Prop := x ∈ g_done (s_history s) \/ x ∈ g_gone (s_history s).
Definition outstanding s x : Prop := x ∈ g_launch (s_history s) /\ ~ settled s x.
Definition all_settled s : Prop := forall x, ~ outstanding s x.

Definition good_cursor s (c : option key_value) : Prop :=
  le dn c (cursor s) /\
  forall to f, g_skips (s_history s) !! to = Some f -> le dn c f \/ le dn (Some to) c.

Definition good_range s (from : option key_value) (to : key_value) : Prop :=
  le dn from (cursor s) /\ forall f, g_skips (s_history s) !! to = Some f -> le dn from f.

Definition good_ceiling s (c : option key_value) : Prop := forall x, outstanding s x -> allowed p c x = true.

Definition covered s x : Prop :=
  exists to f, g_skips (s_history s) !! to = Some f /\ past dn f x /\ upto dn to x = true /\ is_Some (holes (s_ledger s) !! to).

Record W s (k : stand) : Prop := {
  w_row : the_row (s_ledger s) = None -> k = Idle;
  w_cycle : forall t, k <> Restarting t;
  w_cursor : forall c, cursor_of k = Some c -> good_cursor s c;
  w_ceiling : forall c, ceiling_of k = Some c -> good_ceiling s c;
  w_range : forall c, chunk_of k = Some c -> good_range s (c_from c) (c_to c);
  w_chunk : forall o c, loop_of k = Some o -> chunk_of k = Some c -> c_pending c = None ->
    c_from c = o_cursor o /\ past dn (c_from c) (c_to c);
  w_skipping : forall o c, k = Skipping o c -> c_pending c = None /\
    (cursor s = o_cursor o -> forall x, outstanding s x -> past dn (c_from c) x -> upto dn (c_to c) x = true ->
      is_Some (holes (s_ledger s) !! c_to c));
  w_finishing : forall o, k = Finishing o -> forall x, outstanding s x -> le dn (Some x) (o_cursor o);
  w_gate : in_gate k = true -> all_settled s }.

Record R s (r : LedgerRow) : Prop := {
  r_ceiling : forall c, l_ceiling r = Some c -> good_ceiling s (Some c);
  r_pending : forall u, u ∈ l_pending r -> good_range s (u_from u) (u_to u);
  r_gate : l_phase r ∈ [VERIFYING; VERIFIED; APPLYING] -> all_settled s;
  r_fact : is_Some (verified_at (l_claims r)) -> all_settled s;
  r_done : l_phase r = DONE -> forall x, outstanding s x -> le dn (Some x) (cursor s);
  r_done_gate : l_phase r = DONE -> is_Some (whole_gate p) -> all_settled s }.

Record G s : Prop := {
  g_table : forall x, outstanding s x -> x ∈ dom (s_table s);
  g_row : forall r, the_row (s_ledger s) = Some r -> R s r;
  g_holes : forall to h, holes (s_ledger s) !! to = Some h -> good_range s (h_from h) to;
  g_skipped : forall to f, g_skips (s_history s) !! to = Some f -> le dn (Some to) (cursor s);
  g_covered : forall x, outstanding s x -> le dn (Some x) (cursor s) -> covered s x }.

Definition Inv s : Prop := G s /\ forall w, W s (worker_at s w).

Lemma gate_phases (ph : phase) : ph ∈ [VERIFYING; VERIFIED; APPLYING] -> ph = VERIFYING \/ ph = VERIFIED \/ ph = APPLYING.
Proof. rewrite !elem_of_cons, elem_of_nil. tauto. Qed.

(** *** What others keep while a worker moves *)

Record grows s s' : Prop := {
  gr_row : the_row (s_ledger s') = None -> the_row (s_ledger s) = None;
  gr_out : forall x, outstanding s' x -> outstanding s x;
  gr_cursor : le dn (cursor s) (cursor s');
  gr_skips : forall to f, g_skips (s_history s) !! to = Some f -> g_skips (s_history s') !! to = Some f;
  gr_new : forall to f, g_skips (s_history s') !! to = Some f -> g_skips (s_history s) !! to = Some f \/ f = cursor s;
  gr_holes : forall to, is_Some (holes (s_ledger s) !! to) -> is_Some (holes (s_ledger s') !! to) \/
    exists from, good_range s from to /\ forall x, outstanding s' x -> past dn from x -> upto dn to x = false }.

Lemma grows_range s s' from to : grows s s' -> good_range s from to -> good_range s' from to.
Proof.
  intros H [H1 H2]. split; [eapply le_trans; [exact H1|apply H]|]. intros f Hf.
  apply (gr_new _ _ H) in Hf as [Hf| ->]; [by apply H2|done].
Qed.

Lemma grows_cursor s s' c : grows s s' -> good_cursor s c -> good_cursor s' c.
Proof.
  intros H [H1 H2]. split; [eapply le_trans; [exact H1|apply H]|]. intros to f Hf.
  apply (gr_new _ _ H) in Hf as [Hf| ->]; [by apply H2|by left].
Qed.

Lemma grows_ceiling s s' c : grows s s' -> good_ceiling s c -> good_ceiling s' c.
Proof. intros H Hc x Hx. by apply Hc, (gr_out _ _ H). Qed.

Lemma grows_settled s s' : grows s s' -> all_settled s -> all_settled s'.
Proof. intros H Hc x Hx. by eapply Hc, (gr_out _ _ H). Qed.

Lemma grows_covered s s' x : grows s s' -> outstanding s' x -> covered s x -> covered s' x.
Proof.
  intros H Hx (to & f & Hs & Hp & Hu & Hh). exists to, f. split; [by apply H|]. split; [done|]. split; [done|].
  apply (gr_holes _ _ H) in Hh as [Hh|(from & [_ Hr] & Hno)]; [done|].
  rewrite (Hno x Hx) in Hu; [done|]. eapply past_lower; [by apply Hr|done].
Qed.

Lemma grows_W s s' k : grows s s' -> W s k -> W s' k.
Proof.
  intros H [H1 H2 H3 H4 H5 H6 H7 H8 H9]. split; try done.
  - intros Hn. by apply H1, (gr_row _ _ H).
  - intros c Hc. by eapply grows_cursor, H3.
  - intros c Hc. by eapply grows_ceiling, H4.
  - intros c Hc. by eapply grows_range, H5.
  - intros o c E. destruct (H7 o c E) as [Hp Hs]. split; [done|]. intros Hcur x Hx Hf Ht. subst k.
    destruct (H3 (o_cursor o) eq_refl) as [Hle _]. destruct (H6 o c eq_refl eq_refl Hp) as [Ef _].
    assert (cursor s = o_cursor o) as E. { apply (le_antisym dn); [rewrite <- Hcur; apply H|done]. }
    destruct (gr_holes _ _ H _ (Hs E x (gr_out _ _ H x Hx) Hf Ht)) as [|(from & [Hfrom _] & Hno)]; [done|].
    exfalso. rewrite (Hno x Hx) in Ht; [done|]. eapply past_lower; [|exact Hf]. by rewrite Ef, <- E.
  - intros o E x Hx. eapply H8; [done|]. by apply (gr_out _ _ H).
  - intros E. by eapply grows_settled, H9.
Qed.

Lemma grows_R s s' r : grows s s' -> R s r -> R s' r.
Proof.
  intros H [H1 H2 H3 H4 H5 H6]. split.
  - intros c Hc. by eapply grows_ceiling, H1.
  - intros u Hu. by eapply grows_range, H2.
  - intros E. by eapply grows_settled, H3.
  - intros E. by eapply grows_settled, H4.
  - intros E x Hx. eapply le_trans; [by apply H5, (gr_out _ _ H)|apply H].
  - intros E Hg. by eapply grows_settled, H6.
Qed.

Lemma R_fields s r r' : l_phase r' = l_phase r -> l_ceiling r' = l_ceiling r -> l_pending r' = l_pending r ->
  verified_at (l_claims r') = verified_at (l_claims r) -> R s r -> R s r'.
Proof. intros E1 E2 E3 E4 [H1 H2 H3 H4 H5 H6]. split; rewrite ?E1, ?E2, ?E3, ?E4; done. Qed.

Lemma worker_at_goto s w k w' : worker_at (goto w k s) w' = if decide (w' = w) then k else worker_at s w'.
Proof.
  unfold worker_at, goto. cbn [s_workers]. destruct (decide (w' = w)) as [->|Hne].
  - by rewrite lookup_insert_eq.
  - by rewrite lookup_insert_ne by done.
Qed.

Lemma G_goto s w k : G s -> G (goto w k s).
Proof. intros [H1 H2 H3 H4 H5]. split; try done. intros r Hr. destruct (H2 r Hr). by split. Qed.

Lemma W_goto s w k k' : W s k -> W (goto w k' s) k.
Proof. intros []. by split. Qed.

Lemma Inv_goto s w k : Inv s -> W s k -> Inv (goto w k s).
Proof.
  intros [HG HW] Hk. split; [by apply G_goto|]. intros w'. rewrite worker_at_goto. destruct (decide (w' = w)); by apply W_goto.
Qed.

Lemma W_idle s : W s Idle.
Proof. by split. Qed.

(** A change that the other workers do not notice. *)
Lemma Inv_grows s s' w k : grows s s' -> G s' -> W s' k -> s_workers s' = <[w := k]> (s_workers s) -> Inv s -> Inv s'.
Proof.
  intros H HG Hk E [_ HW]. split; [done|]. intros w'. unfold worker_at. rewrite E. destruct (decide (w' = w)) as [->|Hne].
  - by rewrite lookup_insert_eq.
  - rewrite lookup_insert_ne by done. by eapply grows_W, HW.
Qed.

(** A new row at the same cursor, more holes: nothing moves. *)
Lemma grows_ledger s d : cursor (with_ledger d s) = cursor s ->
  (the_row d = None -> the_row (s_ledger s) = None) ->
  (forall to, is_Some (holes (s_ledger s) !! to) -> is_Some (holes d !! to)) -> grows s (with_ledger d s).
Proof.
  intros E H1 H2. split; try done; [by rewrite E; apply le_refl|by left|]. intros to Hh. left. by apply H2.
Qed.

Lemma G_ledger s d : cursor (with_ledger d s) = cursor s ->
  (the_row d = None -> the_row (s_ledger s) = None) ->
  (forall to, is_Some (holes (s_ledger s) !! to) -> is_Some (holes d !! to)) ->
  (forall r, the_row d = Some r -> R s r) ->
  (forall to h, holes d !! to = Some h -> good_range s (h_from h) to) ->
  G s -> G (with_ledger d s).
Proof.
  intros E H1 H2 H3 H4 [G1 G2 G3 G4 G5]. pose proof (grows_ledger s d E H1 H2) as Hg. split.
  - done.
  - intros r Hr. by eapply grows_R, H3.
  - intros to h Hh. by eapply grows_range, H4.
  - intros to f Hf. rewrite E. by eapply G4.
  - intros x Hx Hle. rewrite E in Hle. eapply grows_covered; [done..|]. by apply G5.
Qed.

Lemma Inv_ledger s d : cursor (with_ledger d s) = cursor s ->
  (the_row d = None -> the_row (s_ledger s) = None) ->
  (forall to, is_Some (holes (s_ledger s) !! to) -> is_Some (holes d !! to)) ->
  (forall r, the_row d = Some r -> R s r) ->
  (forall to h, holes d !! to = Some h -> good_range s (h_from h) to) ->
  Inv s -> Inv (with_ledger d s) /\ forall k, W s k -> W (with_ledger d s) k.
Proof.
  intros E H1 H2 H3 H4 [HG HW]. pose proof (grows_ledger s d E H1 H2) as Hg.
  split; [|intros k; by apply grows_W]. split; [by apply G_ledger|]. intros w. by eapply grows_W, HW.
Qed.

(** An update of the row, and a worker that follows from its answer. *)
Lemma Inv_update s q f : Inv s ->
  (forall r, the_row (s_ledger s) = Some r -> q r = true -> l_cursor (f r) = l_cursor r /\ R s (f r)) ->
  Inv (with_ledger (update q f (s_ledger s)).2 s) /\ forall k, W s k -> W (with_ledger (update q f (s_ledger s)).2 s) k.
Proof.
  intros HI Hf. pose proof (proj1 HI) as HG.
  set (d := (update q f (s_ledger s)).2).
  assert (holes d = holes (s_ledger s) /\ (the_row d = the_row (s_ledger s) \/ exists r, the_row (s_ledger s) = Some r /\
    q r = true /\ the_row d = Some (f r))) as [Eh Er].
  { unfold d, update. destruct (the_row (s_ledger s)) as [r|] eqn:Er; [|by split; [|left]].
    destruct (q r) eqn:Eq; [|by split; [|left]]. split; [done|]. right. by exists r. }
  apply Inv_ledger; [..|done].
  - unfold cursor. cbn. destruct Er as [->|(r & Hr & Hq & ->)]; [done|]. rewrite Hr. by apply Hf.
  - destruct Er as [->|(r & Hr & Hq & ->)]; done.
  - by rewrite Eh.
  - intros r' Hr'. destruct Er as [E|(r & Hr & Hq & E)]; rewrite E in Hr'; [by apply (g_row _ HG)|].
    injection Hr' as <-. by apply Hf.
  - rewrite Eh. apply (g_holes _ HG).
Qed.

Lemma Inv_swap s w q f won lost : Inv s ->
  (forall r, the_row (s_ledger s) = Some r -> q r = true -> l_cursor (f r) = l_cursor r /\ R s (f r)) ->
  (forall r, the_row (s_ledger s) = Some r -> q r = true -> W s won) -> W s lost ->
  Inv (swap w (update q f (s_ledger s)) won lost s).
Proof.
  intros HI Hf Hwon Hlost. destruct (Inv_update s q f HI Hf) as [HI' HW]. apply Inv_goto; [done|]. apply HW.
  unfold update. destruct (the_row (s_ledger s)) as [r|] eqn:Er; [|done]. destruct (q r) eqn:Eq; [|done]. by eapply Hwon.
Qed.
(** *** The row as a worker reads it *)

(** The frontier is a ceiling captured at launch. *)
Context (Hfix : recurring (p_frontier p) = false).

Lemma cursor_row s r : the_row (s_ledger s) = Some r -> cursor s = l_cursor r.
Proof. intros Hr. unfold cursor. by rewrite Hr. Qed.

Lemma good_cursor_here s : G s -> good_cursor s (cursor s).
Proof. intros HG. split; [apply le_refl|]. intros to f Hf. right. by apply (g_skipped _ HG to f). Qed.

Lemma holes_open_empty s : negb (bool_decide (holes (s_ledger s) = ∅)) = false -> holes (s_ledger s) = ∅.
Proof. destruct (bool_decide_reflect (holes (s_ledger s) = ∅)); done. Qed.

(** A worker that holds a loop, and no range. *)
Lemma W_loop s k o : the_row (s_ledger s) <> None -> good_cursor s (o_cursor o) -> good_ceiling s (o_ceiling o) ->
  loop_of k = Some o -> cursor_of k = Some (o_cursor o) -> ceiling_of k = Some (o_ceiling o) -> chunk_of k = None ->
  (forall t, k <> Restarting t) -> in_gate k = false ->
  (k = Finishing o -> forall x, outstanding s x -> le dn (Some x) (o_cursor o)) -> W s k.
Proof.
  intros Hr Hc He E1 E2 E3 E4 E5 E6 Hf. split.
  - intros Hn. by destruct (Hr Hn).
  - exact E5.
  - intros c Ec. rewrite E2 in Ec. by injection Ec as <-.
  - intros c Ec. rewrite E3 in Ec. by injection Ec as <-.
  - by rewrite E4.
  - intros o' c _. by rewrite E4.
  - intros o' c Ek. by rewrite Ek in E4.
  - intros o' Ek. rewrite Ek in E1. injection E1 as ->. by apply Hf.
  - by rewrite E6.
Qed.

(** A worker that holds none. *)
Lemma W_bare s k : the_row (s_ledger s) <> None -> loop_of k = None -> cursor_of k = None -> ceiling_of k = None ->
  chunk_of k = None -> (forall t, k <> Restarting t) -> (in_gate k = true -> all_settled s) -> W s k.
Proof.
  intros Hr E1 E2 E3 E4 E5 Ha. split.
  - intros Hn. by destruct (Hr Hn).
  - exact E5.
  - by rewrite E2.
  - by rewrite E3.
  - by rewrite E4.
  - by rewrite E1.
  - intros o c Ek. by rewrite Ek in E1.
  - intros o Ek. by rewrite Ek in E1.
  - exact Ha.
Qed.

Lemma W_shift_bound s r h only : G s -> the_row (s_ledger s) = Some r -> W s (shift_bound p r h only).
Proof.
  intros HG Hr. unfold shift_bound. destruct (g_row _ HG r Hr) as [R1 R2 R3 R4 R5 R6].
  assert (the_row (s_ledger s) <> None) as Hn by by rewrite Hr.
  destruct (bool_decide_reflect (l_phase r ∈ [VERIFYING; VERIFIED; APPLYING])) as [Hp|_].
  { destruct (p_gate p); [|apply W_idle]. specialize (R3 Hp). by destruct (l_phase r); apply W_bare. }
  destruct (_ && _); [apply W_idle|]. rewrite Hfix. cbn [andb].
  pose proof (good_cursor_here s HG) as Hc. rewrite (cursor_row _ _ Hr) in Hc.
  destruct (l_ceiling r) as [c|] eqn:Ec.
  - eapply (W_loop _ _ (mk_loop (l_cursor r) (Some c) h only)); try done. by apply R1.
  - split; try done. intros c [= <-]. exact Hc.
Qed.

Lemma W_shift s r h t : G s -> the_row (s_ledger s) = Some r -> W s (shift p r h t).
Proof.
  intros HG Hr. unfold shift. rewrite Hfix. destruct (_ && _); [apply W_idle|by apply W_shift_bound].
Qed.

(** *** The seed *)

Lemma Inv_launch s d : Inv s -> the_row (s_ledger s) = None -> holes d = holes (s_ledger s) ->
  (exists r, the_row d = Some r /\ l_phase r = WALKING /\ l_cursor r = None /\ l_ceiling r = None /\
    (forall u, u ∈ l_pending r -> u_from u = None) /\ verified_at (l_claims r) = None) ->
  Inv (with_history (launch_of s) (with_ledger d s)).
Proof.
  intros [HG HW] Hn Eh (r & Hr & E1 & E2 & E3 & E4 & E5). unfold launch_of. rewrite Hn.
  assert (cursor s = None) as Ec by (unfold cursor; by rewrite Hn).
  split.
  - split; cbn.
    + intros x [Hx _]. exact Hx.
    + intros r' Hr'. rewrite Hr in Hr'. injection Hr' as <-. split; rewrite ?E1, ?E3, ?E5; try done.
      * intros u Hu. rewrite (E4 u Hu). split; [done|]. done.
      * intros [H|[H|H]]%gate_phases; done.
    + intros to h Hh. rewrite Eh in Hh. destruct (g_holes _ HG to h Hh) as [H1 H2]. rewrite Ec in H1. split; [|exact H2].
      destruct (h_from h); done.
    + intros to f Hf. apply (g_skipped _ HG) in Hf. rewrite Ec in Hf. done.
    + intros x _ Hle. unfold cursor in Hle. cbn in Hle. rewrite Hr in Hle. cbn in Hle. by rewrite E2 in Hle.
  - intros w. unfold worker_at. cbn. change (W (with_history
      (mk_history (dom (s_table s)) (g_done (s_history s)) (g_gone (s_history s)) (g_skips (s_history s)) (g_steps (s_history s)))
      (with_ledger d s)) (worker_at s w)). rewrite (w_row _ _ (HW w) Hn). apply W_idle.
Qed.

(** The seed: a launch, or a row as it was. *)
Lemma seed_row_kept now limit g w t d r : the_row d = Some r -> exists r', the_row (seed carries now limit g w t d) = Some r' /\
  l_phase r' = l_phase r /\ l_cursor r' = l_cursor r /\ l_ceiling r' = l_ceiling r /\ l_pending r' = l_pending r /\
  verified_at (l_claims r') = verified_at (l_claims r).
Proof. intros Hr. unfold seed. rewrite Hr. eexists. split; [reflexivity|]. done. Qed.

(** A launched row keeps the history. *)
Lemma launched s r d : the_row (s_ledger s) = Some r -> with_history (launch_of s) (with_ledger d s) = with_ledger d s.
Proof. intros Hr. unfold launch_of. by rewrite Hr. Qed.

Lemma update_all f d r : the_row d = Some r -> (update (fun _ => true) f d).2 = set_row (f r) d.
Proof. intros Hr. unfold update. by rewrite Hr. Qed.

Lemma Inv_same_row s d r r' : Inv s -> the_row (s_ledger s) = Some r -> the_row d = Some r' -> holes d = holes (s_ledger s) ->
  l_phase r' = l_phase r -> l_cursor r' = l_cursor r -> l_ceiling r' = l_ceiling r ->
  (forall u, u ∈ l_pending r' -> u ∈ l_pending r \/ good_range s (u_from u) (u_to u)) ->
  verified_at (l_claims r') = verified_at (l_claims r) ->
  Inv (with_ledger d s) /\ forall k, W s k -> W (with_ledger d s) k.
Proof.
  intros HI Hr Hr' Eh E1 E2 E3 E4 E5. pose proof (proj1 HI) as HG. apply Inv_ledger; [..|done].
  - unfold cursor. cbn. by rewrite Hr, Hr'.
  - by rewrite Hr'.
  - by rewrite Eh.
  - intros q Hq. rewrite Hr' in Hq. injection Hq as <-. destruct (g_row _ HG r Hr) as [R1 R2 R3 R4 R5 R6].
    split; rewrite ?E1, ?E3, ?E5; try done. intros u Hu. destruct (E4 u Hu) as [H|H]; [by apply R2|done].
  - rewrite Eh. apply (g_holes _ HG).
Qed.

Lemma Inv_seeded s now t k : Inv s ->
  (forall s', the_row (s_ledger s') <> None -> W s' k) ->
  (forall w, Inv (goto w k (seed_row p carries reason now t s))).
Proof.
  intros HI Hk w. apply Inv_goto.
  - unfold seed_row. destruct (the_row (s_ledger s)) as [r|] eqn:Hr.
    + rewrite (launched s r) by done.
      destruct (seed_row_kept now (r_limit (p_units p)) (p_guards p) (p_rewrites p) t (s_ledger s) r Hr) as (r' & Hr' & E1 & E2 & E3 & E4 & E5).
      unfold set_pacing. rewrite (update_all _ _ _ Hr').
      eapply proj1, Inv_same_row; [exact HI|exact Hr|reflexivity|reflexivity|exact E1|exact E2|exact E3| |exact E5].
      intros u Hu. left. cbn in Hu. by rewrite E4 in Hu.
    + apply Inv_launch; [done|done| |].
      * unfold set_pacing, seed. rewrite Hr. done.
      * unfold set_pacing, seed. rewrite Hr. cbn. eexists. split; [reflexivity|]. cbn. repeat split; try done. by intros u ?%elem_of_nil.
  - apply Hk. unfold seed_row, set_pacing, seed. by destruct (the_row (s_ledger s)).
Qed.

(** *** Statements about the walk *)

Lemma Inv_ceiling s w now cursor' only ceiling : Inv s -> worker_at s w = Setting cursor' only ceiling ->
  Inv (goto w (Rereading cursor' only ceiling)
    (with_ledger (set_ceiling now ceiling (bool_decide (cursor' = None)) (s_ledger s)) s)).
Proof.
  intros HI Hw. destruct HI as [HG HW]. pose proof (HW w) as Hk. rewrite Hw in Hk.
  assert (Inv s) as HI by done.
  assert (W s (Rereading cursor' only ceiling)) as Hk'.
  { destruct Hk as [K1 K2 K3 K4 K5 K6 K7 K8 K9]. split; try done. intros Hn. by specialize (K1 Hn). }
  unfold set_ceiling. edestruct Inv_update as [HI' HW']; [exact HI| |apply Inv_goto; [exact HI'|by apply HW']].
  intros r Hr _. split; [done|]. destruct (g_row _ HG r Hr) as [R1 R2 R3 R4 R5 R6]. split; try done.
  intros c Hc. cbn in Hc. subst ceiling. by apply (w_ceiling _ _ Hk).
Qed.

(** A derived ceiling bounds whatever is outstanding. *)
Lemma derive_good s now : G s -> good_ceiling s (derive (p_frontier p) dn now (s_table s)).
Proof.
  intros HG x Hx. apply (g_table _ HG) in Hx. unfold derive, allowed. destruct (p_frontier p) as [m|l]; [|done].
  assert (x ∈ map fst (map_to_list (s_table s))) as Hin.
  { apply elem_of_dom in Hx as [v Hv]. apply list_elem_of_fmap. exists (x, v). split; [done|]. by apply elem_of_map_to_list. }
  cbn. destruct (head _) as [c|] eqn:Eh; [by eapply head_rev_le|].
  exfalso. assert (x ∈ order_clause dn true (map fst (map_to_list (s_table s)))) as H by by apply order_clause_elem.
  destruct (order_clause _ _ _); [by apply elem_of_nil in H|done].
Qed.

Lemma chunk_where_spec o c x : chunk_where p o c x = true <-> past dn (c_from c) x /\ upto dn (c_to c) x = true /\ allowed p (o_ceiling o) x = true.
Proof.
  unfold chunk_where, chunk_predicate. rewrite !andb_true_iff. destruct (c_from c); cbn; intuition.
Qed.

(** *** A chunk commits *)

(** What is outstanding afterwards lies outside the chunk. *)
Lemma outstanding_after s o c d T n w next x :
  G s -> good_ceiling s (o_ceiling o) -> apply (p_work p) (chunk_where p o c) (s_table s) = Some (T, n) ->
  let h := s_history s in
  let s' := mk_sys d T (<[w := next]> (s_workers s))
    (mk_history (g_launch h) (g_done h ++ keys_where (chunk_where p o c) (s_table s))
      (g_gone h ∪ filter (fun x => chunk_where p o c x = false) (dom (s_table s) ∖ dom T)) (g_skips h) (g_steps h)) in
  outstanding s' x -> outstanding s x /\ x ∈ dom T /\ (past dn (c_from c) x -> upto dn (c_to c) x = false).
Proof.
  intros HG Hc _ h s' [Hl Hs]. cbn in Hl.
  assert (outstanding s x) as Hx.
  { split; [done|]. intros [H|H]; apply Hs; [left|right]; cbn; set_solver. }
  pose proof (g_table _ HG x Hx) as Ht.
  assert (chunk_where p o c x = false) as Hw.
  { destruct (chunk_where p o c x) eqn:E; [|done]. exfalso. apply Hs. left. cbn. apply elem_of_app. right. by apply keys_where_elem. }
  split; [done|]. split.
  - destruct (decide (x ∈ dom T)) as [|Hn]; [done|]. exfalso. apply Hs. right. cbn. apply elem_of_union. right.
    apply elem_of_filter. split; [done|]. by apply elem_of_difference.
  - intros Hp. destruct (upto dn (c_to c) x) eqn:E; [|done]. exfalso.
    assert (chunk_where p o c x = true) as Hw' by (apply chunk_where_spec; split; [done|]; split; [done|]; by apply Hc).
    by rewrite Hw in Hw'.
Qed.

Lemma past_chunk_loop (o : loop) (c : chunk) : o_ceiling (past_chunk c o) = o_ceiling o.
Proof. unfold past_chunk. by destruct (c_pending c). Qed.

(** The loop goes on at the ledger's cursor, or where it was. *)
Lemma W_past_chunk s s' o c : grows s s' -> G s' -> the_row (s_ledger s') <> None ->
  good_cursor s (o_cursor o) -> good_ceiling s (o_ceiling o) ->
  (c_pending c = None -> cursor s' = Some (c_to c)) -> W s' (Looping (past_chunk c o)).
Proof.
  intros Hg HG' Hn Hc He Hcur. eapply (W_loop _ _ (past_chunk c o)); try done.
  - unfold past_chunk. destruct (c_pending c); [by eapply grows_cursor|]. cbn. rewrite <- (Hcur eq_refl). by apply good_cursor_here.
  - rewrite past_chunk_loop. by eapply grows_ceiling.
Qed.

Lemma W_unit_check s o : W s (Looping o) -> W s (Unit_check o).
Proof.
  intros [K1 K2 K3 K4 K5 K6 K7 K8 K9]. split; try done. intros Hn. by specialize (K1 Hn).
Qed.

(** The row of the ledger after the statements of a committed chunk. *)
Lemma chunk_ledger s now o c (r0 : LedgerRow) : the_row (s_ledger s) = Some r0 ->
  let swapped := match c_pending c with Some _ => (true, s_ledger s) | None => advance now (o_cursor o) (c_to c) (s_ledger s) end in
  swapped.1 = true -> forall n, let d := count_rows now n swapped.2 in
  let d := if bool_decide (is_Some (c_pending c)) || o_holes o then clear_hole (c_to c) d else d in
  (exists r, the_row d = Some r /\ l_phase r = l_phase r0 /\ l_ceiling r = l_ceiling r0 /\ l_pending r = l_pending r0 /\
    verified_at (l_claims r) = verified_at (l_claims r0) /\
    (c_pending c <> None -> l_cursor r = l_cursor r0) /\
    (c_pending c = None -> l_cursor r0 = o_cursor o /\ l_cursor r = Some (c_to c))) /\
  (forall to, to <> c_to c -> holes d !! to = holes (s_ledger s) !! to) /\
  (forall to h, holes d !! to = Some h -> holes (s_ledger s) !! to = Some h).
Proof.
  intros Hr swapped Hs n.
  assert (exists r, the_row swapped.2 = Some r /\ holes swapped.2 = holes (s_ledger s) /\ l_phase r = l_phase r0 /\
    l_ceiling r = l_ceiling r0 /\ l_pending r = l_pending r0 /\ verified_at (l_claims r) = verified_at (l_claims r0) /\
    (c_pending c <> None -> l_cursor r = l_cursor r0) /\
    (c_pending c = None -> l_cursor r0 = o_cursor o /\ l_cursor r = Some (c_to c))) as (r & Hr' & Eh & E1 & E2 & E3 & E4 & E5 & E6).
  { unfold swapped in *. destruct (c_pending c) as [u|].
    - exists r0. by repeat split.
    - revert Hs. unfold advance, _move_cursor, update. rewrite Hr.
      destruct (bool_decide_reflect (l_cursor r0 = o_cursor o)); [|done]. intros _. eexists. split; [reflexivity|]. by repeat split. }
  cbn zeta. unfold count_rows. rewrite (update_all _ _ _ Hr').
  split.
  - eexists. split; [by destruct (_ || _)|]. exact (conj E1 (conj E2 (conj E3 (conj E4 (conj E5 E6))))).
  - destruct (_ || _); cbn; rewrite Eh; [|by split]. split.
    + intros to Hne. by apply lookup_delete_ne.
    + intros to h Hh. by apply lookup_delete_Some in Hh as [_ ?].
Qed.

Lemma Inv_run_chunk s w now o c n s' : Inv s -> worker_at s w = Trying o c n -> run_chunk p w now o c s = Some s' -> Inv s'.
Proof.
  intros HI Hw. pose proof (proj1 HI) as HG. pose proof (proj2 HI w) as Hk. rewrite Hw in Hk. unfold run_chunk.
  set (swapped := match c_pending c with Some _ => _ | None => _ end).
  destruct (the_row (s_ledger s)) as [r0|] eqn:Hr; [|by apply (w_row _ _ Hk) in Hr].
  destruct swapped.1 eqn:Hs; [|intros [= <-]; apply Inv_goto; [done|apply W_idle]].
  destruct (apply _ _ _) as [[T m]|] eqn:Ha; [|done]. cbn [mbind option_bind fst snd].
  destruct (chunk_ledger s now o c r0 Hr Hs m) as ((r & Hr' & E1 & E2 & E3 & E4 & E5 & E6) & Hd & Hh). fold swapped in Hr', Hd, Hh.
  set (d := if _ || _ then _ else _) in *. intros [= <-]. set (s' := mk_sys _ _ _ _).
  assert (the_row (s_ledger s') = Some r) as Hrow by exact Hr'.
  pose proof (cursor_row s' r Hrow) as Ecur.
  pose proof (w_cursor _ _ Hk _ eq_refl) as Hc. pose proof (w_ceiling _ _ Hk _ eq_refl) as He.
  pose proof (w_range _ _ Hk _ eq_refl) as Hg.
  assert (forall x, outstanding s' x -> outstanding s x /\ x ∈ dom T /\ (past dn (c_from c) x -> upto dn (c_to c) x = false)) as Hout.
  { intros x Hx. eapply outstanding_after; done. }
  assert (c_pending c = None -> c_from c = cursor s /\ cursor s = o_cursor o /\ cursor s' = Some (c_to c)) as Hnew.
  { intros Ep. destruct (w_chunk _ _ Hk _ _ eq_refl eq_refl Ep) as [Ef _]. destruct (E6 Ep) as [Ec Ec'].
    by rewrite Ecur, (cursor_row s r0 Hr), Ef, Ec. }
  assert (le dn (cursor s) (cursor s')) as Hle.
  { destruct (c_pending c) as [u|] eqn:Ep.
    - rewrite Ecur, E5, (cursor_row s r0 Hr) by done. apply le_refl.
    - destruct (Hnew eq_refl) as (Ef & _ & ->). rewrite <- Ef. apply past_le. by apply (w_chunk _ _ Hk o c eq_refl eq_refl Ep). }
  assert (grows s s') as Hgr.
  { split; [by rewrite Hrow|by apply Hout|done|done|by left|]. intros to Hto. destruct (decide (to = c_to c)) as [->|Hne].
    - right. exists (c_from c). split; [done|]. by apply Hout.
    - left. cbn. by rewrite Hd. }
  assert (G s') as HG'.
  { split.
    - intros x Hx. by apply Hout.
    - intros q Hq. cbn in Hq. rewrite Hr' in Hq. injection Hq as <-. eapply R_fields; [done..|]. eapply grows_R; [done|].
      by apply (g_row _ HG).
    - intros to h Hto. apply Hh in Hto. eapply grows_range; [done|]. by apply (g_holes _ HG).
    - intros to f Hf. eapply le_trans; [by eapply (g_skipped _ HG)|done].
    - intros x Hx Hcx. destruct (Hout x Hx) as (Hx' & _ & Hno). eapply grows_covered; [done..|]. apply (g_covered _ HG); [done|].
      destruct (c_pending c) as [u|] eqn:Ep; [|destruct (Hnew eq_refl) as (Ef & _ & Ec)].
      + by rewrite (cursor_row s r0 Hr), <- E5, <- Ecur by done.
      + destruct (past_or_le dn (cursor s) x) as [Hp|]; [|done]. rewrite <- Ef in Hp. apply Hno in Hp. rewrite Ec in Hcx. cbn in Hcx. congruence. }
  eapply (Inv_grows s s' w); [done|done| |reflexivity|done].
  assert (W s' (Looping (past_chunk c o))) as HWl.
  { eapply W_past_chunk; [exact Hgr|done|by rewrite Hrow|done|done|]. intros Ep. by apply Hnew. }
  destruct (c_pending c); [done|]. destruct (unit_gate p); [by apply W_unit_check|done].
Qed.

(** *** A chunk is given up *)

Lemma Inv_dead_letter s w now o c n e : Inv s -> worker_at s w = Dead_letter o c n e -> Inv (dead_letter p w now o c n e s).
Proof.
  intros HI Hw. pose proof (proj1 HI) as HG. pose proof (proj2 HI w) as Hk. rewrite Hw in Hk.
  assert (the_row (s_ledger s) <> None) as Hn by (intros Hn; by apply (w_row _ _ Hk) in Hn).
  pose proof (w_cursor _ _ Hk _ eq_refl) as Hc. pose proof (w_ceiling _ _ Hk _ eq_refl) as He.
  pose proof (w_range _ _ Hk _ eq_refl) as Hg. pose proof (w_chunk _ _ Hk _ _ eq_refl eq_refl) as Hch.
  unfold dead_letter, record_hole. set (h := match holes (s_ledger s) !! c_to c with Some _ => _ | None => _ end).
  assert (good_range s (h_from h) (c_to c)) as Hh.
  { unfold h. destruct (holes (s_ledger s) !! c_to c) as [h0|] eqn:E; [|done]. exact (g_holes _ HG _ _ E). }
  edestruct (Inv_ledger s (set_holes (<[c_to c := h]> (holes (s_ledger s))) (s_ledger s))) as [HI' HW']; [..|exact HI|].
  - done.
  - done.
  - intros to Hto. cbn. destruct (decide (to = c_to c)) as [->|]; [by rewrite lookup_insert_eq|by rewrite lookup_insert_ne].
  - by apply (g_row _ HG).
  - intros to h' Hto. cbn in Hto. apply lookup_insert_Some in Hto as [[<- <-]|[_ Hto]]; [done|]. by apply (g_holes _ HG).
  - apply Inv_goto; [done|]. destruct (c_pending c) as [u|] eqn:Ep; [|destruct (p_skip p)].
    + apply HW'. by eapply (W_loop _ _ o).
    + assert (W s (Trying o c n)) as K0.
      { destruct Hk as [K1 K2 K3 K4 K5 K6 K7 K8 K9]. by split. }
      apply HW' in K0 as [K1 K2 K3 K4 K5 K6 K7 K8 K9]. split; try done.
      intros o' c' [= <- <-]. split; [done|]. intros _ x _ _ _. cbn. by rewrite lookup_insert_eq.
    + apply HW'. by apply W_bare.
Qed.

Lemma Inv_skip s w now o c : Inv s -> worker_at s w = Skipping o c -> Inv (skip_chunk w now o c s).
Proof.
  intros HI Hw. pose proof (proj1 HI) as HG. pose proof (proj2 HI w) as Hk. rewrite Hw in Hk.
  destruct (the_row (s_ledger s)) as [r0|] eqn:Hr; [|by apply (w_row _ _ Hk) in Hr].
  destruct (w_skipping _ _ Hk _ _ eq_refl) as [Ep Hhole]. destruct (w_chunk _ _ Hk _ _ eq_refl eq_refl Ep) as [Ef Hp].
  unfold skip_chunk, swap, skip_to, _move_cursor, update. rewrite Hr.
  destruct (bool_decide_reflect (l_cursor r0 = o_cursor o)) as [Ec|_]; cbn [fst snd].
  2: { change (Inv (goto w Idle (with_ledger (s_ledger s) s))). apply Inv_goto; [|apply W_idle].
       exact (proj1 (Inv_ledger s (s_ledger s) eq_refl (fun H => H) (fun _ H => H) (g_row _ HG) (g_holes _ HG) HI)). }
  pose proof (cursor_row s r0 Hr) as Ecs. rewrite Ec in Ecs. specialize (Hhole Ecs).
  set (s' := with_history _ _). assert (cursor s' = Some (c_to c)) as Ecs' by done.
  assert (le dn (cursor s) (cursor s')) as Hle by (rewrite Ecs, Ecs', <- Ef; by apply past_le).
  assert (g_skips (s_history s) !! c_to c = None) as Hnew.
  { destruct (g_skips (s_history s) !! c_to c) as [f|] eqn:E; [|done]. exfalso. apply (g_skipped _ HG) in E. rewrite Ecs, <- Ef in E. by eapply past_not_le. }
  assert (grows s s') as Hgr.
  { split; [done|done|done| | |by left].
    - intros to f Hf. cbn. rewrite lookup_insert_ne; [done|]. intros <-. by rewrite Hnew in Hf.
    - intros to f Hf. cbn in Hf. apply lookup_insert_Some in Hf as [[_ <-]|[_ Hf]]; [by right|by left]. }
  assert (G s') as HG'.
  { split.
    - apply (g_table _ HG).
    - intros r [= <-]. eapply R_fields; [..|eapply grows_R; [done|by apply (g_row _ HG)]]; done.
    - intros to h Hto. eapply grows_range; [done|]. by apply (g_holes _ HG).
    - intros to f Hf. rewrite Ecs'. cbn in Hf. apply lookup_insert_Some in Hf as [[<- _]|[_ Hf]]; [apply le_refl|].
      rewrite <- Ecs'. eapply le_trans; [by eapply (g_skipped _ HG)|done].
    - intros x Hx Hcx. rewrite Ecs' in Hcx. destruct (past_or_le dn (c_from c) x) as [Hf|Hf].
      + exists (c_to c), (o_cursor o). cbn. rewrite lookup_insert_eq. split; [done|]. rewrite <- Ef. split; [done|]. split; [done|].
        by apply (Hhole x).
      + eapply grows_covered; [done..|]. apply (g_covered _ HG); [done|]. by rewrite Ecs, <- Ef. }
  eapply (Inv_grows s s' w); [done|done| |reflexivity|done].
  eapply (W_past_chunk s); [done|done|done|by apply (w_cursor _ _ Hk)|by apply (w_ceiling _ _ Hk)|done].
Qed.

(** *** The end of the walk *)

Lemma no_holes_settled s o : G s -> W s (Finishing o) -> holes (s_ledger s) = ∅ -> all_settled s.
Proof.
  intros HG Hk E x Hx. destruct (g_covered _ HG x Hx) as (to & f & _ & _ & _ & [h Hh]).
  - eapply le_trans; [by apply (w_finishing _ _ Hk)|]. by apply (w_cursor _ _ Hk (o_cursor o)).
  - by rewrite E, lookup_empty in Hh.
Qed.

(** A change of phase keeps what the row promises. *)
Lemma R_phase s r ph e : R s r -> (ph ∈ [VERIFYING; VERIFIED; APPLYING] -> all_settled s) ->
  (ph = DONE -> all_settled s \/ (whole_gate p = None /\ forall x, outstanding s x -> le dn (Some x) (cursor s))) ->
  R s (with_phase ph e r).
Proof.
  intros [R1 R2 R3 R4 R5 R6] H1 H2. split; try done; cbn.
  - intros E x Hx. destruct (H2 E) as [Ha|[_ Ha]]; [by destruct (Ha x)|by apply Ha].
  - intros E Hg. destruct (H2 E) as [Ha|[E' _]]; [done|]. rewrite E' in Hg. by destruct Hg.
Qed.

Lemma Inv_finish s w o : Inv s -> worker_at s w = Finishing o -> Inv (finish p w s).
Proof.
  intros HI Hw. pose proof (proj1 HI) as HG. pose proof (proj2 HI w) as Hk. rewrite Hw in Hk. unfold finish.
  destruct (whole_gate p) as [g|] eqn:Eg.
  - apply Inv_goto; [done|]. assert (the_row (s_ledger s) <> None) as Hn by (intros Hn; by apply (w_row _ _ Hk) in Hn).
    unfold open_holes. destruct (Z.ltb_spec 0 (Z.of_nat (size (holes (s_ledger s))))); [by apply W_bare|].
    apply W_bare; try done. intros _. eapply no_holes_settled; [done..|]. apply map_size_empty_iff. lia.
  - apply Inv_swap; [done| |by intros|apply W_idle]. intros r Hr _. split; [done|].
    apply R_phase; [by apply (g_row _ HG)|by intros [H|[H|H]]%gate_phases|]. intros _. right. split; [done|].
    intros x Hx. eapply le_trans; [by apply (w_finishing _ _ Hk)|]. by apply (w_cursor _ _ Hk (o_cursor o)).
Qed.

(** *** Every step *)

Lemma Inv_claim s w o d u : Inv s -> worker_at s w = Looping o -> claim_pending (s_ledger s) = (Some u, d) ->
  Inv (goto w (Trying o (mk_chunk (u_from u) (u_to u) (Some u)) 0) (with_ledger d s)).
Proof.
  intros HI Hw. pose proof (proj1 HI) as HG. pose proof (proj2 HI w) as Hk. rewrite Hw in Hk.
  unfold claim_pending. destruct (the_row (s_ledger s)) as [r|] eqn:Hr; [|done].
  destruct (l_pending r) as [|v rest] eqn:Ep; [done|]. intros [= -> <-].
  destruct (Inv_same_row s (set_row (with_pending rest r) (s_ledger s)) r (with_pending rest r)) as [HI' HW']; try done.
  { intros v Hv. left. rewrite Ep. by apply list_elem_of_further. }
  apply Inv_goto; [done|]. apply HW'. destruct Hk as [K1 K2 K3 K4 K5 K6 K7 K8 K9]. split; try done.
  - intros Hn. by rewrite Hr in Hn.
  - intros c [= <-]. apply (r_pending _ _ (g_row _ HG r Hr)). rewrite Ep. by left.
  - by intros o' c _ [= <-].
Qed.

(** A probe that finds a key gives the range up to it. *)
Lemma W_range s o to off rv : G s -> W s (Looping o) ->
  fetch_key dn (s_table s) (o_cursor o) (allowed p (o_ceiling o)) off rv = Some to ->
  W s (Trying o (mk_chunk (o_cursor o) to None) 0).
Proof.
  intros HG Hk Hf. apply fetch_some in Hf as (_ & Hp & _). destruct Hk as [K1 K2 K3 K4 K5 K6 K7 K8 K9].
  destruct (K3 (o_cursor o) eq_refl) as [Hc1 Hc2]. split; try done.
  - intros Hn. by specialize (K1 Hn).
  - intros c [= <-]. split; [done|]. intros f Hf. destruct (Hc2 to f Hf) as [|Hle]; [done|]. by apply past_not_le in Hp.
  - by intros o' c [= <-] [= <-] _.
Qed.

Lemma W_like s k k' : W s k -> k <> Idle -> cursor_of k' = cursor_of k -> ceiling_of k' = ceiling_of k -> loop_of k' = loop_of k ->
  chunk_of k' = chunk_of k -> in_gate k' = in_gate k -> (forall t, k' <> Restarting t) ->
  (forall o c, k' <> Skipping o c) -> (forall o, k' <> Finishing o) -> W s k'.
Proof.
  intros [K1 K2 K3 K4 K5 K6 K7 K8 K9] Hi E1 E2 E3 E4 E5 H1 H2 H3. split; rewrite ?E1, ?E2, ?E3, ?E4, ?E5; try done.
  - intros Hn. by specialize (K1 Hn).
  - intros o c E. by destruct (H2 o c).
  - intros o E. by destruct (H3 o).
Qed.

Lemma block_spec e ph expected d : block e ph expected d = update (expecting expected) (with_phase ph (Some (take 2000 e))) d.
Proof. done. Qed.

(** A shift stopped by its own statement. *)
Lemma Inv_block s w e ph expected : Inv s -> ph = BLOCKED \/ ph = UNVERIFIED -> Inv (swap w (block e ph expected (s_ledger s)) Idle Idle s).
Proof.
  intros HI Hph. apply Inv_swap; [done| |intros; apply W_idle|apply W_idle]. intros r Hr _. split; [done|].
  apply R_phase; [by apply (g_row _ (proj1 HI))|intros [H|[H|H]]%gate_phases; by destruct Hph as [->| ->]|].
  by destruct Hph as [->| ->].
Qed.

Lemma Inv_record_error s w e expected : Inv s -> Inv (swap w (record_error e expected (s_ledger s)) Idle Idle s).
Proof.
  intros HI. apply Inv_swap; [done| |intros; apply W_idle|apply W_idle]. intros r Hr _. split; [done|].
  eapply R_fields; [..|by apply (g_row _ (proj1 HI))]; done.
Qed.

(** A transition of the gate. *)
Lemma Inv_gate_swap s w k from to won lost : Inv s -> worker_at s w = k -> in_gate k = true ->
  (won = Idle \/ in_gate won = true) -> lost = Idle -> loop_of won = None -> cursor_of won = None -> ceiling_of won = None ->
  chunk_of won = None -> (forall t, won <> Restarting t) ->
  Inv (swap w (set_phase from to (s_ledger s)) won lost s).
Proof.
  intros HI Hw Hg Hwon -> E1 E2 E3 E4 E5. pose proof (proj2 HI w) as Hk. rewrite Hw in Hk. pose proof (w_gate _ _ Hk Hg) as Ha.
  apply Inv_swap; [done| |intros r Hr _; apply W_bare; try done; by rewrite Hr|apply W_idle].
  intros r Hr _. split; [done|]. apply R_phase; [by apply (g_row _ (proj1 HI))|done|by left].
Qed.

Lemma Inv_publish s w now fact detail v : Inv s -> worker_at s w = Answered v -> Inv (swap w (publish now fact detail (s_ledger s)) Claiming Idle s).
Proof.
  intros HI Hw. pose proof (proj2 HI w) as Hk. rewrite Hw in Hk. pose proof (w_gate _ _ Hk eq_refl) as Ha.
  apply Inv_swap; [done| |intros r Hr _; apply W_bare; try done; by rewrite Hr|apply W_idle].
  intros r Hr _. split; [done|]. destruct (g_row _ (proj1 HI) r Hr) as [R1 R2 R3 R4 R5 R6]. by split.
Qed.

Lemma W_gate_at s ph : the_row (s_ledger s) <> None -> all_settled s -> W s (gate_at ph).
Proof. intros Hn Ha. destruct ph; by apply W_bare. Qed.

Lemma Inv_history s h : g_launch h = g_launch (s_history s) -> g_done h = g_done (s_history s) ->
  g_gone h = g_gone (s_history s) -> g_skips h = g_skips (s_history s) -> Inv s -> Inv (with_history h s).
Proof.
  intros E1 E2 E3 E4 HI. destruct h as [a b c d e]. cbn in E1, E2, E3, E4. subst a b c d.
  destruct HI as [[G1 G2 G3 G4 G5] HW]. split; [split; try done|].
  - intros r Hr. destruct (G2 r Hr). by split.
  - intros w. destruct (HW w). by split.
Qed.

(** The statements up to the loop. *)
Lemma Inv_open s w now i s' : Inv s -> loop_of (worker_at s w) = None -> in_gate (worker_at s w) = false ->
  work_step p carries reason w now i s = Some s' -> Inv s'.
Proof.
  intros HI Hl Hg. pose proof (proj1 HI) as HG. pose proof (proj2 HI w) as Hk. unfold work_step, _gate_unit, _run_gate.
  destruct (worker_at s w) as [|t|t| |cur only|cur only ce|cur only ce| | | | | | | |e| | |ph e| |n| | | | | | | |] eqn:Hw; try done;
    destruct i as [|t'|e'|v]; try done.
  - intros [= <-]. apply Inv_seeded; [done|]. intros s1 Hn. by apply W_bare.
  - destruct (the_row (s_ledger s)) as [r|] eqn:Hr; [|done]. intros [= <-]. apply Inv_goto; [done|]. by apply W_shift.
  - by destruct (w_cycle _ _ Hk t).
  - destruct (the_row (s_ledger s)) as [r|] eqn:Hr; [|done]. intros [= <-]. apply Inv_goto; [done|]. by apply W_shift_bound.
  - intros [= <-]. apply Inv_goto; [done|]. destruct Hk as [K1 K2 K3 K4 K5 K6 K7 K8 K9]. split; try done.
    + intros Hn. by specialize (K1 Hn).
    + intros c [= <-]. by apply derive_good.
  - intros [= <-]. by apply Inv_ceiling.
  - intros [= <-]. apply Inv_goto; [done|]. destruct Hk as [K1 K2 K3 K4 K5 K6 K7 K8 K9].
    eapply (W_loop _ _ (mk_loop cur ce _ only)); try done; [|by apply K3|by apply K4]. intros Hn. by specialize (K1 Hn).
  - intros [= <-]. apply Inv_block; [done|by left].
  - intros [= <-]. apply Inv_block; [done|]. destruct ph; [by left|by right].
  - intros [= <-]. apply Inv_block; [done|by left].
Qed.

(** The statements of the loop. *)
Lemma Inv_loop s w now i o s' : Inv s -> loop_of (worker_at s w) = Some o ->
  work_step p carries reason w now i s = Some s' -> Inv s'.
Proof.
  intros HI Hl. pose proof (proj1 HI) as HG. pose proof (proj2 HI w) as Hk.
  assert (the_row (s_ledger s) <> None) as Hn.
  { intros Hn. apply (w_row _ _ Hk) in Hn. by rewrite Hn in Hl. }
  assert (W s (Looping o)) as Ho.
  { apply (W_loop _ _ o); try done; [apply (w_cursor _ _ Hk)|apply (w_ceiling _ _ Hk)]; by destruct (worker_at s w); try done; injection Hl as <-. }
  assert (forall k, loop_of k = Some o -> cursor_of k = Some (o_cursor o) -> ceiling_of k = Some (o_ceiling o) -> chunk_of k = None ->
    (forall t, k <> Restarting t) -> in_gate k = false -> (forall o', k <> Finishing o') -> W s k) as Hloop.
  { intros k E1 E2 E3 E4 E5 E6 E7. apply (W_loop _ _ o); try done; [apply (w_cursor _ _ Ho)|apply (w_ceiling _ _ Ho)|]; try done.
    intros E. by destruct (E7 o). }
  assert (forall b e, W s (Unit_stop b e)) as Hstop by (intros; by apply W_bare).
  unfold work_step, _gate_unit, _run_gate.
  destruct (worker_at s w) as [|t|t| |cur only|cur only ce|cur only ce|o'|o'|o'|o' c n|o' c n e|o' u|o' c|e|o'|o'|ph e|o'|n| | | | | | | |] eqn:Hw;
    try done; injection Hl as ->; destruct i as [|t'|e'|v]; try done.
  - destruct (claim_pending (s_ledger s)) as [[u|] d] eqn:E; intros [= <-]; [by apply Inv_claim|].
    apply Inv_goto; [done|]. destruct (o_only o); [apply W_idle|by apply Hloop].
  - destruct (fetch_key _ _ _ _ _ _) as [x|] eqn:E; intros [= <-]; apply Inv_goto; try done; [by eapply W_range|by apply Hloop].
  - destruct (fetch_key _ _ _ _ _ _) as [x|] eqn:E; intros [= <-]; apply Inv_goto; try done; [by eapply W_range|].
    apply (W_loop _ _ o); try done; [by apply (w_cursor _ _ Ho)|by apply (w_ceiling _ _ Ho)|]. intros _ x Hx.
    eapply fetch_none; [exact E|by apply (g_table _ HG)|by apply (w_ceiling _ _ Ho (o_ceiling o))].
  - intros E. by eapply Inv_run_chunk.
  - intros [= <-]. apply Inv_goto; [done|]. destruct (_ <? _); by apply (W_like s (Trying o c n)).
  - intros [= <-]. by apply Inv_dead_letter.
  - intros [= <-]. destruct (Inv_update s (fun _ => true)
      (fun r => with_pending (List.filter (fun e => negb (bool_decide (e = u))) (l_pending r)) r) HI) as [HI' HW'].
    + intros r Hr _. split; [done|]. destruct (g_row _ HG r Hr) as [R1 R2 R3 R4 R5 R6]. split; try done. intros v Hv. apply R2.
      cbn in Hv. by apply list_elem_of_In, filter_In, proj1, list_elem_of_In in Hv.
    + apply Inv_goto; [done|]. by apply HW'.
  - intros [= <-]. by apply Inv_skip.
  - destruct v as [e|e|e]; intros [= <-]; apply Inv_goto; try done. destruct (unit_gate p) as [g|]; [|done].
    destruct (has_then g); [by apply Hloop|done].
  - intros [= <-]. by apply Inv_goto.
  - intros [= <-]. by apply Inv_goto.
  - intros [= <-]. by eapply Inv_finish.
Qed.

(** The statements of the gate. *)
Lemma Inv_gate s w now i s' : Inv s -> in_gate (worker_at s w) = true -> work_step p carries reason w now i s = Some s' -> Inv s'.
Proof.
  intros HI Hg. pose proof (proj1 HI) as HG. pose proof (proj2 HI w) as Hk. pose proof (w_gate _ _ Hk Hg) as Ha.
  assert (the_row (s_ledger s) <> None) as Hn.
  { intros Hn. apply (w_row _ _ Hk) in Hn. by rewrite Hn in Hg. }
  assert (terminal p w i s = Some s' -> Inv s') as Hterm.
  { unfold terminal. destruct (p_gate p) as [g|]; [|done]. cbn.
    destruct (has_then g), i as [|t'|e'|v']; try done; intros [= <-]; (apply Inv_goto; [|by apply W_bare]); try done; by apply Inv_history. }
  unfold work_step, _gate_unit, _run_gate. destruct (worker_at s w) as [|t|t| |cur only|cur only ce|cur only ce|o'|o'|o'|o' c n|o' c n e|o' u|o' c|e|o'|o'|ph e|o'|n| | | |v| | | |e] eqn:Hw;
    try done; destruct i as [|t'|e'|v']; try done.
  - intros [= <-]. apply (Inv_gate_swap s w Entering); try done. by right.
  - destruct (the_row (s_ledger s)) as [r|] eqn:Hr; [|done]. intros [= <-]. apply Inv_goto; [done|]. apply W_gate_at; [by rewrite Hr|done].
  - intros [= <-]. apply Inv_goto; [done|]. by apply W_bare.
  - destruct v as [detail|e|e].
    + destruct (p_gate p) as [g|]; [|done]. intros [= <-]. by eapply Inv_publish.
    + intros [= <-]. apply Inv_block; [done|by right].
    + intros [= <-]. by apply Inv_record_error.
  - destruct (p_gate p) as [g|]; [|done]. cbn. destruct (has_then g); intros [= <-].
    + apply (Inv_gate_swap s w Claiming); try done. by right.
    + apply (Inv_gate_swap s w Claiming); try done. by left.
  - intros [= <-]. apply (Inv_gate_swap s w Applied); try done. by left.
  - intros [= <-]. by apply Inv_record_error.
Qed.

Lemma Inv_work s w now i s' : Inv s -> work_step p carries reason w now i s = Some s' -> Inv s'.
Proof.
  intros HI. destruct (loop_of (worker_at s w)) as [o|] eqn:El; [by eapply Inv_loop|].
  destruct (in_gate (worker_at s w)) eqn:Eg; [by apply Inv_gate|by apply Inv_open].
Qed.

(** *** The world around the workers *)

(** A unit is requeued from the start of the domain, as [requeue] does without [after]. *)
Definition whole_requeue (e : event V) : Prop := match e with E_requeue _ (Some _) _ => False | _ => True end.

Lemma Inv_requeue s now to : Inv s -> Inv (requeue_unit p carries now None to s).
Proof.
  intros HI. unfold requeue_unit, requeue.
  destruct (the_row (s_ledger s)) as [r|] eqn:Hr.
  - rewrite (launched s r) by done.
    destruct (seed_row_kept now (r_limit (p_units p)) (p_guards p) (p_rewrites p) None (s_ledger s) r Hr) as (r' & Hr' & E1 & E2 & E3 & E4 & E5).
    unfold update. rewrite Hr'. destruct (negb _); cbn [snd].
    + eapply proj1, Inv_same_row; [exact HI|exact Hr|reflexivity|reflexivity|exact E1|exact E2|exact E3| |exact E5].
      intros u Hu. cbn in Hu. rewrite E4 in Hu. apply elem_of_app in Hu as [Hu|Hu]; [by left|right].
      apply list_elem_of_singleton in Hu as ->. by split.
    + eapply proj1, Inv_same_row; [exact HI|exact Hr|exact Hr'|reflexivity|exact E1|exact E2|exact E3| |exact E5].
      intros u Hu. left. by rewrite E4 in Hu.
  - apply Inv_launch; [done|done|unfold update, seed; by rewrite Hr|].
    unfold update, seed. rewrite Hr. cbn. eexists. split; [reflexivity|]. cbn. repeat split; try done.
    by intros u ->%list_elem_of_singleton.
Qed.

Lemma hole_units_from d u : u ∈ hole_units d -> exists h, holes d !! u_to u = Some h /\ u_from u = h_from h.
Proof.
  unfold hole_units. intros H. apply list_elem_of_fmap in H as ([to h] & -> & H). cbn. rewrite sorted_by_perm in H.
  apply elem_of_map_to_list in H. by exists h.
Qed.

Lemma Inv_retry s : Inv s -> Inv (with_ledger (snd (retry_holes (s_ledger s))) s).
Proof.
  intros HI. pose proof (proj1 HI) as HG. unfold retry_holes. destruct (the_row (s_ledger s)) as [r|] eqn:Hr; cbn [snd].
  2: { exact (proj1 (Inv_ledger s (s_ledger s) eq_refl (fun H => H) (fun _ H => H) (g_row _ HG) (g_holes _ HG) HI)). }
  set (fresh := List.filter _ _). pose proof (g_row _ HG r Hr) as HR.
  assert (R s (with_pending (l_pending r ++ fresh) r)) as HR'.
  { destruct HR as [R1 R2 R3 R4 R5 R6]. split; try done. intros u Hu. cbn in Hu. apply elem_of_app in Hu as [Hu|Hu]; [by apply R2|].
    apply list_elem_of_In, filter_In, proj1, list_elem_of_In, hole_units_from in Hu as (h & Hh & ->). by apply (g_holes _ HG). }
  apply Inv_ledger; [unfold cursor; cbn; rewrite Hr; by destruct (in_phase _ _)|done|done| |apply (g_holes _ HG)|done].
  intros q [= <-]. destruct (in_phase _ _); [|done]. apply R_phase; [done|by intros [H|[H|H]]%gate_phases|done].
Qed.

Lemma Inv_outside s s' : s_workers s' = s_workers s -> grows s s' -> G s' -> Inv s -> Inv s'.
Proof. intros E Hg HG [_ HW]. split; [done|]. intros w. unfold worker_at. rewrite E. by eapply grows_W, HW. Qed.

Lemma Inv_write s (k : key_value) (v : V) : Inv s -> Inv (mk_sys (s_ledger s) (<[k := v]> (s_table s)) (s_workers s) (s_history s)).
Proof.
  intros HI. pose proof (proj1 HI) as [G1 G2 G3 G4 G5]. set (s' := mk_sys _ _ _ _).
  assert (grows s s') as Hg by (split; try done; [apply le_refl|by left|by left]).
  apply (Inv_outside s); [done|done| |done]. split; try done.
  - intros x Hx. cbn. rewrite dom_insert. apply elem_of_union. right. by apply G1.
  - intros r Hr. by eapply grows_R, G2.
Qed.

Lemma Inv_erase s (k : key_value) : Inv s -> Inv (erase k s).
Proof.
  intros HI. pose proof (proj1 HI) as [G1 G2 G3 G4 G5].
  assert (forall x, outstanding (erase k s) x -> outstanding s x /\ x <> k) as Hout.
  { intros x [Hl Hs]. split; [split; [done|]|].
    - intros [H|H]; apply Hs; [by left|right]. cbn. set_solver.
    - intros ->. apply Hs. right. cbn. set_solver. }
  assert (grows s (erase k s)) as Hg.
  { split; try done; [by apply Hout|apply le_refl|by left|by left]. }
  apply (Inv_outside s); [done|done| |done]. split.
  - intros x Hx. apply Hout in Hx as [Hx Hne]. cbn. rewrite dom_delete. apply elem_of_difference. split; [by apply G1|set_solver].
  - intros r Hr. by eapply grows_R, G2.
  - intros to h Hh. eapply grows_range; [done|]. by apply G3.
  - done.
  - intros x Hx Hc. eapply grows_covered; [done..|]. apply G5; [by apply Hout|done].
Qed.

Lemma Inv_report s g : Inv s -> Inv (with_ledger (update (fun _ => true) (with_report g) (s_ledger s)).2 s).
Proof.
  intros HI. eapply proj1, Inv_update; [done|]. intros r Hr _. split; [done|].
  eapply R_fields; [..|by apply (g_row _ (proj1 HI))]; done.
Qed.

Theorem Inv_step s e s' : Inv s -> whole_requeue e -> step p carries reason e s = Some s' -> Inv s'.
Proof.
  intros HI He. destruct e as [w now i|w|k v|k|now [f|] to| |total floor|now err]; cbn [step]; try done.
  - by apply Inv_work.
  - intros [= <-]. apply Inv_goto; [done|apply W_idle].
  - intros [= <-]. by apply Inv_write.
  - intros [= <-]. by apply Inv_erase.
  - intros [= <-]. by apply Inv_requeue.
  - intros [= <-]. by apply Inv_retry.
  - intros [= <-]. change (with_ledger _ s) with (with_ledger
      (set_keyspace_floor floor (s_ledger (with_ledger (set_denominator total (p_progress p) (s_ledger s)) s)))
      (with_ledger (set_denominator total (p_progress p) (s_ledger s)) s)). by apply Inv_report, Inv_report.
  - intros [= <-]. by apply Inv_report.
Qed.

Lemma start_Inv t : Inv (start_of t).
Proof.
  split; [|intros w; unfold worker_at, start_of; cbn; rewrite lookup_empty; apply W_idle].
  split; cbn; try done. intros x [H _]. by apply elem_of_empty in H.
Qed.

Lemma reachable_Inv t s : reachable p carries reason whole_requeue t s -> Inv s.
Proof. induction 1 as [|s e s' _ IH He Hs]; [apply start_Inv|by eapply Inv_step]. Qed.

(** *** What the invariant says of the launch *)

Lemma settled_dec s x : settled s x \/ ~ settled s x.
Proof. unfold settled. destruct (decide (x ∈ g_done (s_history s))), (decide (x ∈ g_gone (s_history s))); tauto. Qed.

Lemma launch_settled s x : all_settled s -> x ∈ g_launch (s_history s) -> settled s x.
Proof. intros Ha Hx. destruct (settled_dec s x) as [|Hn]; [done|]. by destruct (Ha x). Qed.

End invariant.
