(* ===== verification/PassClaims.v ===== *)
(** * Chunked passes: what a pass promises

    A probe cuts a chunk of the declared size.  Over every run of the shifts of
    [PassDriver] the irreversible step comes after the walk, a finished walk has
    left no row of the launch behind but under an open hole, no row is processed
    twice, and a worker left alone finishes.  Then runs on a table of three rows
    that show where a promise of the documentation ends. *)

From stdpp Require Import base sets strings numbers list gmap fin_maps sorting.
From Stdlib Require Import ZArith QArith Qround Lia.
From S2P Require Import Prelude PyCollections PyText TokenBucket PassKeys PassLedger PassDriver PassFacts.
#[local] Open Scope Z_scope.

(** ** A pass and its runs *)

Definition id_key : Key := mk_Key (bs "id") (bs "int8") true true true false.

Definition demo_gate : Gate := mk_Gate (Some (bs "column:public.treks.grade")) true S_pass.

Definition demo_work : work Z := Rewrite [bs "grade"] (fun _ => 1) (Some (fun v => v =? 0)).

Definition demo_pass (skip : bool) (gate : option Gate) : ChunkedPass Z :=
  mk_pass (mk_Rows [id_key] 2 5) (Ceiling None) demo_work gate (1 # 4) Estimated skip 3 10 None.

Example demo_declared (skip : bool) :
  new_pass (bs "regrade") (mk_Rows [id_key] 2 5) (Ceiling None) demo_work (Some demo_gate) None None
    (if skip then bs "skip" else bs "halt") 3 10 None = Ok (demo_pass skip (Some demo_gate)).
Proof. by destruct skip. Qed.

Definition demo_table : gmap key_value Z := list_to_map [([1], 0); ([2], 0); ([3], 0)].

Definition demo_reason : pystr := bs "duty cycle 0.25".

Definition demo (skip : bool) (gate : option Gate) (es : list (event Z)) : option (sys Z) :=
  run (demo_pass skip gate) true demo_reason es (start_of demo_table).

Definition go (w : Z) : event Z := E_work w 0 I_none.
Definition drive (w : Z) : event Z := E_work w 0 (I_trace None).
Definition raise (w : Z) : event Z := E_work w 0 (I_raised (bs "boom")).
Definition answer (w : Z) (v : verdict) : event Z := E_work w 0 (I_verdict v).

(** To the loop, the first time and later; a chunk with keys to spare, the last
    one, and the probes that find nothing. *)
Definition start (w : Z) : list (event Z) := drive w :: replicate 4 (go w).
Definition restart (w : Z) : list (event Z) := [drive w; go w].
Definition full_chunk (w : Z) : list (event Z) := replicate 3 (go w).
Definition last_chunk (w : Z) : list (event Z) := replicate 4 (go w).
Definition walked (w : Z) : list (event Z) := replicate 3 (go w).
Definition whole_walk (w : Z) : list (event Z) := start w ++ full_chunk w ++ last_chunk w ++ walked w.
Definition to_step (w : Z) : list (event Z) :=
  whole_walk w ++ replicate 3 (go w) ++ [answer w (V_ok (bs "no rows match")); go w; go w].

Definition phase_of (s : sys Z) : option phase := l_phase <$> the_row (s_ledger s).

(** ** Probes cut chunks of the declared size *)

Lemma sorted_lookup {A} (R : A -> A -> Prop) (l : list A) i j a b :
  StronglySorted R l -> l !! i = Some a -> l !! j = Some b -> (i < j)%nat -> R a b.
Proof.
  intros Hs. revert i j. induction Hs as [|x l Hs IH Hx]; intros [|i] [|j] Ha Hb Hij; try done; try lia.
  - injection Ha as ->. cbn in Hb. apply list_elem_of_lookup_2, list_elem_of_In in Hb. rewrite List.Forall_forall in Hx. by apply Hx.
  - cbn in Ha, Hb. eapply IH; [done..|lia].
Qed.

Lemma rev_reverse {A} (l : list A) : rev l = reverse l.
Proof. apply rev_alt. Qed.

(** In the order of the walk a later key is not before an earlier one. *)
Lemma order_clause_lookup d (l : list key_value) i j a b :
  order_clause d false l !! i = Some a -> order_clause d false l !! j = Some b -> (i < j)%nat -> upto d b a = true.
Proof.
  unfold order_clause. rewrite xorb_false_r. pose proof (sorted_by_sorted id l) as HS. intros Ha Hb Hij. rewrite upto_pyleb.
  destruct d; [|exact (sorted_lookup _ _ _ _ _ _ HS Ha Hb Hij)].
  rewrite rev_reverse in Ha, Hb. apply reverse_lookup_Some in Ha as [Ha Hi], Hb as [Hb Hj].
  refine (sorted_lookup _ _ _ _ _ _ HS Hb Ha _). lia.
Qed.

Lemma order_clause_perm d r l : order_clause d r l ≡ₚ l.
Proof.
  unfold order_clause. destruct (xorb d r); [|apply sorted_by_perm]. rewrite rev_reverse, reverse_Permutation. apply sorted_by_perm.
Qed.

Section fill.
Context {V : Type} (d : bool) (t : gmap key_value V) (c : option key_value) (f : key_value -> bool).

Definition in_chunk (to : key_value) : list key_value := keys_where (chunk_predicate d c to f) t.

Lemma in_chunk_range to x : x ∈ in_chunk to <-> x ∈ keys_where (range_predicate d c f) t /\ upto d to x = true.
Proof.
  unfold in_chunk. rewrite !keys_where_elem. unfold chunk_predicate, range_predicate. rewrite !andb_true_iff. tauto.
Qed.

(** C19. A range that [next_range] cuts starts at the cursor, ends at a key of the
    table and holds at least one row and at most [limit] rows, exactly [limit]
    while more follow; there is none only when no row is past the cursor within
    the frontier. *)
Theorem next_range_fills limit : 1 <= limit ->
  match next_range d limit t c f with
  | Some (from, to) =>
    from = c /\ to ∈ dom t /\ (1 <= length (in_chunk to) <= Z.to_nat limit)%nat /\
    ((exists x, x ∈ keys_where (range_predicate d c f) t /\ upto d to x = false) -> length (in_chunk to) = Z.to_nat limit)
  | None => keys_where (range_predicate d c f) t = []
  end.
Proof.
  intros Hl. set (n := Z.to_nat limit). assert (1 <= n)%nat as Hn by lia.
  assert (Z.to_nat (default 0 (Some (limit - 1))) = (n - 1)%nat) as En by (cbn; lia).
  set (l := order_clause d false (keys_where (range_predicate d c f) t)).
  assert (NoDup l) as Hnd by (unfold l; rewrite order_clause_perm; apply keys_where_nodup).
  assert (forall x, x ∈ l <-> x ∈ keys_where (range_predicate d c f) t) as Hel by (intros x; apply order_clause_elem).
  unfold next_range, fetch_key. rewrite En. fold l. destruct (l !! (n - 1)%nat) as [to|] eqn:Eto.
  - assert (in_chunk to ≡ₚ take n l) as Hperm.
    { apply NoDup_Permutation; [apply keys_where_nodup|rewrite <- (take_drop n l) in Hnd; by apply NoDup_app in Hnd as [? _]|]. intros x. rewrite in_chunk_range, <- Hel. split.
      - intros [Hx Hu]. apply list_elem_of_lookup in Hx as [i Hi]. destruct (decide (i < n)%nat) as [Hlt|Hge].
        + apply list_elem_of_lookup. exists i. by rewrite lookup_take_lt.
        + exfalso. assert (upto d x to = true) as Hu' by (eapply order_clause_lookup; [exact Eto|exact Hi|lia]).
          pose proof (upto_antisym d _ _ Hu Hu') as ->. pose proof (NoDup_lookup _ _ _ _ Hnd Eto Hi). lia.
      - intros Hx. apply list_elem_of_lookup in Hx as [i Hi]. apply lookup_take_Some in Hi as [Hi Hlt].
        split; [by eapply list_elem_of_lookup_2|]. destruct (decide (i = n - 1)%nat) as [->|Hne].
        + rewrite Eto in Hi. injection Hi as ->. apply upto_refl.
        + eapply order_clause_lookup; [exact Hi|exact Eto|lia]. }
    assert (length (in_chunk to) = n) as Elen.
    { rewrite Hperm, length_take. apply lookup_lt_Some in Eto. lia. }
    split; [done|]. split; [|lia]. apply list_elem_of_lookup_2, Hel, keys_where_elem in Eto. by apply Eto.
  - apply lookup_ge_None in Eto. change (Z.to_nat (default 0 None)) with 0%nat.
    set (l' := keys_where (range_predicate d c f) t) in *.
    assert (length l = length l') as Elen by (unfold l; by rewrite order_clause_perm).
    destruct (order_clause d true l' !! 0%nat) as [to|] eqn:Elast.
    + assert (to ∈ l') as Hto.
      { apply (order_clause_elem d true). by eapply list_elem_of_lookup_2. }
      assert (forall x, x ∈ l' -> upto d to x = true) as Hall.
      { intros x Hx. eapply head_rev_le; [rewrite head_lookup; exact Elast|exact Hx]. }
      assert (in_chunk to ≡ₚ l') as Hperm.
      { apply NoDup_Permutation; [apply keys_where_nodup..|]. intros x. rewrite in_chunk_range. fold l'. split; [by intros [? _]|].
        intros Hx. split; [done|by apply Hall]. }
      split; [done|]. split; [by apply keys_where_elem in Hto as [? _]|]. rewrite Hperm. split.
      * split; [|lia]. destruct l'; [by apply elem_of_nil in Hto|cbn; lia].
      * intros (x & Hx & Hu). apply Hall in Hx. by rewrite Hx in Hu.
    + apply lookup_ge_None in Elast. rewrite order_clause_perm in Elast. destruct l'; [done|cbn in Elast; lia].
Qed.
End fill.

Definition three : key_value := [3].

Lemma next_range_fills_witness :
  match next_range false 2 demo_table None (upto false three) with
  | Some (from, to) =>
    from = None /\ to ∈ dom demo_table /\ (1 <= length (in_chunk false demo_table None (upto false three) to) <= 2)%nat /\
    ((exists x, x ∈ keys_where (range_predicate false None (upto false three)) demo_table /\ upto false to x = false) ->
      length (in_chunk false demo_table None (upto false three) to) = 2%nat)
  | None => keys_where (range_predicate false None (upto false three)) demo_table = []
  end.
Proof. apply (next_range_fills false demo_table None (upto false three) 2). lia. Defined.

(** ** The irreversible step comes after the walk *)

Section promises.
Context {V : Type} (p : ChunkedPass V) (carries : bool) (reason : pystr).
Implicit Types s : sys V.

Definition at_step s : Prop := exists w, worker_at s w = Terminal.

(** The row says that the walk was verified, or is past it. *)
Definition verified s : Prop :=
  exists r, the_row (s_ledger s) = Some r /\
    (is_Some (verified_at (l_claims r)) \/ l_phase r ∈ [VERIFYING; VERIFIED; APPLYING]).

(** C15. However many workers walk, fail, skip, retry and die, when one of them is
    about to run the irreversible step of a pass with a fixed ceiling, or the
    ledger says that the pass is being verified or was, every row of the launch
    was processed by a committed chunk or left the table by another hand, as
    long as units are requeued from the start of the domain. *)
Theorem irreversible_after_walk t s x :
  recurring (p_frontier p) = false -> reachable p carries reason whole_requeue t s ->
  at_step s \/ verified s -> x ∈ g_launch (s_history s) ->
  x ∈ g_done (s_history s) \/ x ∈ g_gone (s_history s).
Proof.
  intros Hfix Hs Hv Hx. pose proof (reachable_Inv p carries reason Hfix t s Hs) as [HG HW].
  apply (launch_settled s x); [|done]. destruct Hv as [[w Hw]|(r & Hr & [Hv|Hv])].
  - apply (w_gate _ _ _ (HW w)). by rewrite Hw.
  - by apply (r_fact _ _ _ (g_row _ _ HG r Hr)).
  - by apply (r_gate _ _ _ (g_row _ _ HG r Hr)).
Qed.

(** C16. When a pass with a fixed ceiling is done, every row of the launch was
    processed by a committed chunk, or left the table by another hand, or lies in
    the range of a hole that is still open; with a gate over the whole pass no
    row is left under a hole.  This asks that units be requeued from the start of
    the domain ([whole_requeue]): [narrow_unit_clears_hole] is a run in which a
    unit that begins inside a skipped range clears its hole. *)
Theorem finished_pass_complete t s r x :
  recurring (p_frontier p) = false -> reachable p carries reason whole_requeue t s ->
  the_row (s_ledger s) = Some r -> l_phase r = DONE -> x ∈ g_launch (s_history s) ->
  (x ∈ g_done (s_history s) \/ x ∈ g_gone (s_history s)) \/
  (whole_gate p = None /\ exists to h, holes (s_ledger s) !! to = Some h /\
    chunk_predicate (down p) (h_from h) to (fun _ => true) x = true).
Proof.
  intros Hfix Hs Hr Hd Hx. pose proof (reachable_Inv p carries reason Hfix t s Hs) as [HG HW].
  pose proof (g_row _ _ HG r Hr) as HR. destruct (settled_dec s x) as [|Hn]; [by left|right].
  assert (outstanding s x) as Ho by done. split.
  - destruct (whole_gate p) as [g|] eqn:E; [|done]. exfalso. by apply (r_done_gate _ _ _ HR Hd (ltac:(by rewrite E)) x).
  - destruct (g_covered _ _ HG x Ho) as (to & f & Hf & Hp & Hu & [h Hh]); [by apply (r_done _ _ _ HR)|].
    exists to, h. split; [done|]. apply (g_holes _ _ HG) in Hh as [_ Hle]. specialize (Hle f Hf).
    pose proof (past_lower _ _ _ _ Hle Hp) as Hp'. unfold chunk_predicate. rewrite Hu, andb_true_r.
    destruct (h_from h) as [c|]; [|done]. cbn in Hp'. by rewrite Hp'.
Qed.
End promises.

Lemma run_reaches {V : Type} (p : ChunkedPass V) carries reason (P : event V -> Prop) t es : forall s s',
  reachable p carries reason P t s -> Forall P es -> run p carries reason es s = Some s' -> reachable p carries reason P t s'.
Proof.
  induction es as [|e es IH]; intros s s' Hs HP; cbn [run]; [by intros [= <-]|].
  apply Forall_cons in HP as [He HP]. destruct (step p carries reason e s) as [s1|] eqn:E; [|done]. cbn. apply IH; [|done].
  by eapply reach_step.
Qed.

(** A worker about to run the step of the demonstration. *)
Definition stepping : sys Z := Eval vm_compute in default (start_of ∅) (demo false (Some demo_gate) (to_step 1)).

Lemma irreversible_after_walk_witness : [2] ∈ g_done (s_history stepping) \/ [2] ∈ g_gone (s_history stepping).
Proof.
  apply (irreversible_after_walk (demo_pass false (Some demo_gate)) true demo_reason demo_table); [reflexivity| | |].
  - eapply (run_reaches _ _ _ _ _ (to_step 1)); [constructor|by repeat constructor|vm_compute; reflexivity].
  - left. exists 1. reflexivity.
  - apply (bool_decide_unpack _). vm_compute. exact I.
Defined.

(** A pass that walked past a chunk it gave up on. *)
Definition skipped : sys Z := Eval vm_compute in
  default (start_of ∅) (demo true None (start 1 ++ replicate 2 (go 1) ++ replicate 3 (raise 1) ++ [go 1; go 1] ++ last_chunk 1 ++ walked 1 ++ [go 1])).

Lemma finished_pass_complete_witness :
  ([2] ∈ g_done (s_history skipped) \/ [2] ∈ g_gone (s_history skipped)) \/
  (whole_gate (demo_pass true None) = None /\ exists to h, holes (s_ledger skipped) !! to = Some h /\
    chunk_predicate (down (demo_pass true None)) (h_from h) to (fun _ => true) [2] = true).
Proof.
  eapply (finished_pass_complete (demo_pass true None) true demo_reason demo_table); [reflexivity| |reflexivity|reflexivity|].
  - eapply (run_reaches _ _ _ _ _ (start 1 ++ replicate 2 (go 1) ++ replicate 3 (raise 1) ++ [go 1; go 1] ++ last_chunk 1 ++ walked 1 ++ [go 1]));
      [constructor|by repeat constructor|vm_compute; reflexivity].
  - apply (bool_decide_unpack _). vm_compute. exact I.
Defined.

(** ** No row is processed twice *)

Section once.
Context {V : Type} (p : ChunkedPass V) (carries : bool) (reason : pystr).
Implicit Types (s : sys V) (k : stand).
Context (Hfix : recurring (p_frontier p) = false).

(** Nothing is requeued. *)
Definition unattended (e : event V) : Prop := match e with E_requeue _ _ _ | E_retry => False | _ => True end.

Definition fresh_chunk k : Prop := forall c, chunk_of k = Some c -> c_pending c = None.

Record Once s : Prop := {
  on_pending : forall r, the_row (s_ledger s) = Some r -> l_pending r = [];
  on_chunk : forall w, fresh_chunk (worker_at s w);
  on_past : forall x, x ∈ g_done (s_history s) -> le (down p) (Some x) (cursor s);
  on_once : NoDup (g_done (s_history s)) }.

(** A worker moves, and the row keeps its cursor and its empty queue. *)
Lemma Once_move s s' w k : Once s -> fresh_chunk k -> s_workers s' = <[w := k]> (s_workers s) ->
  g_done (s_history s') = g_done (s_history s) -> cursor s' = cursor s ->
  (forall r, the_row (s_ledger s') = Some r -> l_pending r = []) -> Once s'.
Proof.
  intros [H1 H2 H3 H4] Hk Ew Ed Ec Hp. split; [done| |by rewrite Ed, Ec|by rewrite Ed].
  intros w'. unfold worker_at. rewrite Ew. destruct (decide (w' = w)) as [->|Hne].
  - by rewrite lookup_insert_eq.
  - rewrite lookup_insert_ne by done. apply H2.
Qed.

Lemma Once_goto s w k : Once s -> fresh_chunk k -> Once (goto w k s).
Proof. intros Ho Hk. eapply (Once_move s _ w k); try done. apply (on_pending _ Ho). Qed.

(** An update of the row that keeps its cursor and does not fill its queue. *)
Definition quiet (f : LedgerRow -> LedgerRow) : Prop :=
  forall r, l_cursor (f r) = l_cursor r /\ (l_pending r = [] -> l_pending (f r) = []).

Lemma Once_update s q f : quiet f -> Once s -> Once (with_ledger (update q f (s_ledger s)).2 s).
Proof.
  intros Hf Ho. pose proof Ho as [H1 H2 H3 H4]. unfold update.
  destruct (the_row (s_ledger s)) as [r|] eqn:Hr; [destruct (q r)|].
  - assert (cursor (with_ledger (set_row (f r) (s_ledger s)) s) = cursor s) as Ec.
    { unfold cursor. cbn. rewrite Hr. apply Hf. }
    split; [|done|cbn [snd]; by rewrite Ec|done]. intros r' [= <-]. by apply (proj2 (Hf r)), H1.
  - split; [exact (on_pending _ Ho)|exact H2|exact H3|exact H4].
  - split; [exact (on_pending _ Ho)|exact H2|exact H3|exact H4].
Qed.

Lemma Once_swap s w q f won lost : quiet f -> Once s -> fresh_chunk won -> fresh_chunk lost ->
  Once (swap w (update q f (s_ledger s)) won lost s).
Proof. intros Hf Ho Hw Hl. apply Once_goto; [by apply Once_update|by destruct (_.1)]. Qed.

Lemma Once_seed s now g t d : Once s -> (forall r, l_pending (g r) = l_pending r /\ l_cursor (g r) = l_cursor r) ->
  d = (update (fun _ => true) g (seed carries now (r_limit (p_units p)) (p_guards p) (p_rewrites p) t (s_ledger s))).2 ->
  Once (with_history (launch_of s) (with_ledger d s)).
Proof.
  intros Ho Hg ->. pose proof Ho as [H1 H2 H3 H4]. unfold launch_of, seed, update.
  destruct (the_row (s_ledger s)) as [r|] eqn:Hr; cbn [the_row snd].
  - set (d := set_row _ _). assert (cursor (with_ledger d s) = cursor s) as Ec.
    { unfold cursor. cbn. rewrite Hr. cbn. by rewrite (proj2 (Hg _)). }
    split; [|exact H2| |exact H4].
    + intros r' [= <-]. rewrite (proj1 (Hg _)). cbn. by apply H1.
    + intros x Hx. change (le (down p) (Some x) (cursor (with_ledger d s))). rewrite Ec. by apply H3.
  - assert (cursor s = None) as Ec by (unfold cursor; by rewrite Hr).
    split; [|exact H2| |exact H4].
    + intros r' [= <-]. by rewrite (proj1 (Hg _)).
    + intros x Hx. apply H3 in Hx. by rewrite Ec in Hx.
Qed.

Lemma Once_run_chunk s w now o c n s' : Inv p s -> Once s -> worker_at s w = Trying o c n ->
  run_chunk p w now o c s = Some s' -> Once s'.
Proof.
  intros HI Ho Hw. pose proof (proj2 HI w) as Hk. rewrite Hw in Hk. pose proof Ho as [H1 H2 H3 H4].
  pose proof (H2 w) as Hc. rewrite Hw in Hc. specialize (Hc c eq_refl).
  destruct (w_chunk _ _ _ Hk _ _ eq_refl eq_refl Hc) as [Ef Hp].
  destruct (the_row (s_ledger s)) as [r0|] eqn:Hr; [|by apply (w_row _ _ _ Hk) in Hr].
  unfold run_chunk. rewrite Hc. destruct (advance _ _ _ _) as [b d0] eqn:Ea. cbn [fst snd]. destruct b.
  2: { intros [= <-]. by apply Once_goto. }
  destruct (apply _ _ _) as [[T m]|]; [|done]. cbn [mbind option_bind fst snd bool_decide].
  pose proof (chunk_ledger s now o c r0 Hr) as Hd. rewrite Hc, Ea in Hd. specialize (Hd eq_refl m). cbn [fst snd] in Hd.
  destruct Hd as ((r & Hr' & _ & _ & Ep & _ & _ & Ecur) & _). destruct (Ecur eq_refl) as [Eo Ec].
  set (d := if _ || _ then _ else _) in *. intros [= <-]. set (s' := mk_sys _ _ _ _).
  assert (cursor s' = Some (c_to c)) as Ecs by (unfold cursor; cbn; by rewrite Hr').
  assert (cursor s = c_from c) as Ecf by (rewrite Ef, <- Eo; by apply cursor_row).
  assert (forall x, x ∈ keys_where (chunk_where p o c) (s_table s) -> past (down p) (c_from c) x /\ upto (down p) (c_to c) x = true) as Hnew.
  { intros x Hx. apply keys_where_elem in Hx as [_ Hx]. apply chunk_where_spec in Hx as (? & ? & _). done. }
  split.
  - intros q Hq. cbn in Hq. rewrite Hr' in Hq. injection Hq as <-. rewrite Ep. by apply H1.
  - intros w'. unfold worker_at. cbn. destruct (decide (w' = w)) as [->|Hne].
    + rewrite lookup_insert_eq. cbn. destruct (unit_gate p); by intros ? ?.
    + rewrite lookup_insert_ne by done. apply H2.
  - intros x Hx. rewrite Ecs. cbn in Hx. apply elem_of_app in Hx as [Hx|Hx]; [|by apply Hnew].
    apply H3 in Hx. eapply le_trans; [exact Hx|]. rewrite Ecf. by apply past_le.
  - cbn. apply NoDup_app. split; [done|]. split; [|apply keys_where_nodup].
    intros x Hx Hx'. apply Hnew in Hx' as [Hx' _]. eapply past_not_le; [exact Hx'|]. rewrite <- Ecf. by apply H3.
Qed.

Lemma Once_skip s w now o c : Inv p s -> Once s -> worker_at s w = Skipping o c -> Once (skip_chunk w now o c s).
Proof.
  intros HI Ho Hw. pose proof (proj2 HI w) as Hk. rewrite Hw in Hk. pose proof Ho as [H1 H2 H3 H4].
  pose proof (H2 w) as Hc. rewrite Hw in Hc. specialize (Hc c eq_refl).
  destruct (w_chunk _ _ _ Hk _ _ eq_refl eq_refl Hc) as [Ef Hp].
  unfold skip_chunk, swap, skip_to, _move_cursor, update. destruct (the_row (s_ledger s)) as [r0|] eqn:Hr; [|by apply (w_row _ _ _ Hk) in Hr].
  destruct (bool_decide_reflect (l_cursor r0 = o_cursor o)) as [Ec|_]; cbn [fst snd].
  - split; cbn.
    + intros r [= <-]. cbn. by apply H1.
    + intros w'. unfold worker_at. cbn. destruct (decide (w' = w)) as [->|Hne]; [by rewrite lookup_insert_eq|].
      rewrite lookup_insert_ne by done. apply H2.
    + intros x Hx. apply H3 in Hx. apply (le_trans _ _ (cursor s) (Some (c_to c)) Hx). rewrite (cursor_row s r0 Hr), Ec, <- Ef. by apply past_le.
    + done.
  - eapply (Once_move s _ w Idle); try done. exact (on_pending _ Ho).
Qed.

Lemma fresh_bare k : chunk_of k = None -> fresh_chunk k.
Proof. intros E c. by rewrite E. Qed.

Lemma fresh_shift_bound r h only : fresh_chunk (shift_bound p r h only).
Proof.
  apply fresh_bare. unfold shift_bound. destruct (bool_decide _); [destruct (p_gate p); [by destruct (l_phase r)|done]|].
  destruct (_ && _); [done|]. destruct (l_ceiling r); [by destruct (_ && _)|done].
Qed.

Lemma fresh_shift r h t : fresh_chunk (shift p r h t).
Proof. unfold shift. destruct (_ && _); [destruct (recurring _); by apply fresh_bare|apply fresh_shift_bound]. Qed.

Lemma quiet_swap s w d q f won lost : d = update q f (s_ledger s) -> quiet f -> Once s -> chunk_of won = None -> chunk_of lost = None ->
  Once (swap w d won lost s).
Proof. intros -> Hf Ho Hw Hl. apply Once_swap; try done; by apply fresh_bare. Qed.

Lemma Once_work s w now i s' : Inv p s -> Once s -> work_step p carries reason w now i s = Some s' -> Once s'.
Proof.
  intros HI Ho. pose proof (proj2 HI w) as Hk. pose proof (on_chunk _ Ho w) as Hc.
  assert (terminal p w i s = Some s' -> Once s') as Hterm.
  { unfold terminal. destruct (p_gate p) as [g|]; [|done]. cbn.
    destruct (has_then g), i as [|t'|e'|v']; try done; intros [= <-]; (apply Once_goto; [by split; apply Ho|by apply fresh_bare]). }
  unfold work_step, _gate_unit, _run_gate.
  destruct (worker_at s w) as [|t|t| |cur only|cur only ce|cur only ce|o|o|o|o c n|o c n e|o u|o c|e|o|o|b e|o|n| | | |v| | | |e] eqn:Hw;
    destruct i as [|t'|e'|v']; try done.
  - intros [= <-]. apply Once_goto; [|by apply fresh_bare].
    by eapply (Once_seed s now (with_report _)); [done| |reflexivity].
  - destruct (the_row (s_ledger s)); [|done]. intros [= <-]. apply Once_goto; [done|apply fresh_shift].
  - by destruct (w_cycle _ _ _ Hk t).
  - destruct (the_row (s_ledger s)); [|done]. intros [= <-]. apply Once_goto; [done|apply fresh_shift_bound].
  - intros [= <-]. apply Once_goto; [done|by apply fresh_bare].
  - intros [= <-]. apply Once_goto; [by apply Once_update|by apply fresh_bare].
  - intros [= <-]. apply Once_goto; [done|by apply fresh_bare].
  - unfold claim_pending. destruct (the_row (s_ledger s)) as [r|] eqn:Hr; [rewrite (on_pending _ Ho r Hr)|]; intros [= <-];
      (apply Once_goto; [done|]); destruct (o_only o); by apply fresh_bare.
  - destruct (fetch_key _ _ _ _ _ _); intros [= <-]; (apply Once_goto; [done|]); [by intros c [= <-]|by apply fresh_bare].
  - destruct (fetch_key _ _ _ _ _ _); intros [= <-]; (apply Once_goto; [done|]); [by intros c [= <-]|by apply fresh_bare].
  - intros E. by eapply Once_run_chunk.
  - intros [= <-]. apply Once_goto; [done|]. intros c' E. apply Hc. by destruct (_ <? _).
  - intros [= <-]. unfold dead_letter. rewrite (Hc c eq_refl). apply Once_goto.
    + split; apply Ho.
    + destruct (p_skip p); [|by apply fresh_bare]. intros c' [= <-]. by apply Hc.
  - intros [= <-]. apply Once_goto; [|by apply fresh_bare]. apply Once_update; [|done]. intros r. split; [done|]. cbn. by intros ->.
  - intros [= <-]. by apply Once_skip.
  - intros [= <-]. by eapply quiet_swap.
  - destruct v'; intros [= <-]; (apply Once_goto; [done|]); apply fresh_bare; try done. destruct (unit_gate p) as [g|]; [by destruct (has_then g)|done].
  - intros [= <-]. apply Once_goto; [done|by apply fresh_bare].
  - intros [= <-]. apply Once_goto; [done|by apply fresh_bare].
  - intros [= <-]. by eapply quiet_swap.
  - intros [= <-]. unfold finish. destruct (whole_gate p); [|by eapply quiet_swap]. apply Once_goto; [done|]. apply fresh_bare. by destruct (_ <? _).
  - intros [= <-]. by eapply quiet_swap.
  - intros [= <-]. by eapply quiet_swap.
  - destruct (the_row (s_ledger s)) as [r|]; [|done]. intros [= <-]. apply Once_goto; [done|]. apply fresh_bare. by destruct (l_phase r).
  - intros [= <-]. apply Once_goto; [done|by apply fresh_bare].
  - destruct v; [destruct (p_gate p); [|done]| |]; intros [= <-]; by eapply quiet_swap.
  - destruct (p_gate p) as [g|]; [|done]. cbn. destruct (has_then g); intros [= <-]; by eapply quiet_swap.
  - intros [= <-]. by eapply quiet_swap.
  - intros [= <-]. by eapply quiet_swap.
Qed.

Lemma Once_step s e s' : Inv p s -> Once s -> unattended e -> step p carries reason e s = Some s' -> Once s'.
Proof.
  intros HI Ho He. pose proof Ho as [H1 H2 H3 H4]. destruct e as [w now i|w|k v|k|now f to| |total floor|now err]; cbn [step]; try done.
  - by apply Once_work.
  - intros [= <-]. apply Once_goto; [done|by apply fresh_bare].
  - intros [= <-]. by split.
  - intros [= <-]. by split.
  - intros [= <-]. change (with_ledger _ s) with (with_ledger
      (set_keyspace_floor floor (s_ledger (with_ledger (set_denominator total (p_progress p) (s_ledger s)) s)))
      (with_ledger (set_denominator total (p_progress p) (s_ledger s)) s)). by apply Once_update, Once_update.
  - intros [= <-]. by apply Once_update.
Qed.

Lemma unattended_whole e : unattended e -> whole_requeue e.
Proof. by destruct e as [| | | |now [f|] to| | |]. Qed.

Lemma reachable_weaken (P Q : event V -> Prop) t s : (forall e, P e -> Q e) ->
  reachable p carries reason P t s -> reachable p carries reason Q t s.
Proof. intros H. induction 1 as [|s e s' _ IH He Hs]; [constructor|]. eapply reach_step; [done|by apply H|done]. Qed.

Lemma reachable_Once t s : reachable p carries reason unattended t s -> Once s.
Proof.
  intros Hs. assert (Inv p s /\ Once s) as [_ Ho]; [|done]. induction Hs as [|s e s' _ [HI Ho] He Hs].
  - split; [apply start_Inv|]. split.
    + done.
    + intros w. assert (worker_at (start_of t) w = Idle) as -> by done. by apply fresh_bare.
    + intros x Hx. by apply elem_of_nil in Hx.
    + constructor.
  - split; [|by eapply Once_step]. eapply (Inv_step p carries reason Hfix); [exact HI|by apply unattended_whole|exact Hs].
Qed.

(** C17. While nothing is requeued or retried, no row of a pass with a fixed
    ceiling is processed by two committed chunks, whatever fails, is skipped,
    blocked or raced for by however many workers. *)
Theorem walk_once t s : reachable p carries reason unattended t s -> NoDup (g_done (s_history s)).
Proof. intros Hs. exact (on_once _ (reachable_Once t s Hs)). Qed.
End once.

(** ** A worker left alone finishes *)

Section lone.
Context {V : Type} (p : ChunkedPass V) (carries : bool) (reason : pystr) (w now : Z).
Implicit Types s : sys V.

Local Notation lone n := (run p carries reason (replicate n (E_work w now I_none))).

Lemma run_app es fs s : run p carries reason (es ++ fs) s = run p carries reason es s ≫= run p carries reason fs.
Proof.
  revert s. induction es as [|e es IH]; intros s; [done|]. cbn. destruct (step p carries reason e s) as [s1|]; [apply IH|done].
Qed.

Lemma lone_add n m s s1 : lone n s = Some s1 -> lone (n + m) s = lone m s1.
Proof. intros H. by rewrite replicate_add, run_app, H. Qed.

Lemma lone_1 s s' : worker_at s w = worker_at s w -> work_step p carries reason w now I_none s = Some s' -> lone 1 s = Some s'.
Proof. intros _ H. cbn. by rewrite H. Qed.

(** [Purge] and [Rewrite] do not raise; only the rows of the chunk leave. *)
Definition declared_work : Prop := match p_work p with Apply _ => False | _ => True end.

Lemma declared_apply sel t : declared_work -> exists t' n, apply (p_work p) sel t = Some (t', n) /\
  (forall x, x ∈ dom t' -> x ∈ dom t) /\ (forall x, x ∈ dom t -> sel x = false -> x ∈ dom t').
Proof.
  unfold declared_work, apply. destruct (p_work p) as [wh|cols f wh|cb]; [| |done]; intros _; eexists _, _; (split; [reflexivity|]).
  - assert (forall l : list (key_value * V), NoDup l.*1 -> NoDup (List.filter (fun kv => negb (sel kv.1 && matches wh kv.2)) l).*1) as Hnd.
    { intros l. induction l as [|[k v] l IH]; [done|]. cbn. intros [Hk Hl]%NoDup_cons. destruct (negb _); [|by apply IH].
      cbn. apply NoDup_cons. split; [|by apply IH]. intros Hin. apply Hk. apply list_elem_of_fmap in Hin as ([k' v'] & -> & Hin).
      apply list_elem_of_fmap. exists (k', v'). split; [done|]. apply list_elem_of_In, filter_In in Hin. by apply list_elem_of_In, Hin. }
    split; intros x Hx.
    + rewrite dom_list_to_map in Hx. apply elem_of_list_to_set, list_elem_of_fmap in Hx as ([k v] & -> & Hx).
      apply list_elem_of_In, filter_In, proj1, list_elem_of_In, elem_of_map_to_list in Hx. by eapply elem_of_dom_2.
    + intros Hs. apply elem_of_dom in Hx as [v Hx]. rewrite dom_list_to_map. apply elem_of_list_to_set, list_elem_of_fmap.
      exists (x, v). split; [done|]. apply list_elem_of_In, filter_In. split; [by apply list_elem_of_In, elem_of_map_to_list|].
      cbn. by rewrite Hs.
  - assert (forall x, x ∈ dom (map_imap (fun k v => Some (if sel k && matches wh v then f v else v)) t) <-> x ∈ dom t) as E.
    { intros x. rewrite !elem_of_dom, map_lookup_imap. destruct (t !! x); cbn; split; intros [? H]; try done; by eexists. }
    split; intros x Hx; [by apply E|]. intros _. by apply E.
Qed.

(** The keys still ahead of the loop. *)
Definition ahead (o : loop) s : list key_value :=
  keys_where (range_predicate (down p) (o_cursor o) (allowed p (o_ceiling o))) (s_table s).

Lemma ahead_elem o s x : x ∈ ahead o s <-> x ∈ dom (s_table s) /\ past (down p) (o_cursor o) x /\ allowed p (o_ceiling o) x = true.
Proof.
  unfold ahead. rewrite keys_where_elem. unfold range_predicate. rewrite andb_true_iff.
  destruct (o_cursor o); cbn; intuition.
Qed.

(** At the loop, with the position of the ledger and nothing requeued. *)
Definition on_its_own (o : loop) s : Prop :=
  worker_at s w = Looping o /\ o_only o = false /\
  exists r, the_row (s_ledger s) = Some r /\ l_pending r = [] /\ l_cursor r = o_cursor o.

Context (Hwork : declared_work) (Hgate : unit_gate p = None).

Lemma lone_commit s o c : worker_at s w = Trying o c 0 -> c_pending c = None -> o_only o = false ->
  (exists r, the_row (s_ledger s) = Some r /\ l_pending r = [] /\ l_cursor r = o_cursor o) ->
  exists s', lone 1 s = Some s' /\ on_its_own (past_chunk c o) s' /\
    (forall x, x ∈ g_done (s_history s) -> x ∈ g_done (s_history s')) /\
    (forall x, x ∈ dom (s_table s) -> chunk_where p o c x = true -> x ∈ g_done (s_history s')) /\
    (forall x, x ∈ dom (s_table s') -> x ∈ dom (s_table s)) /\
    (forall x, x ∈ dom (s_table s) -> chunk_where p o c x = false -> x ∈ dom (s_table s')).
Proof.
  intros Hw Hc Ho (r0 & Hr & Hp & Hcur). destruct (declared_apply (chunk_where p o c) (s_table s) Hwork) as (T & n & Ha & H1 & H2).
  assert ((advance now (o_cursor o) (c_to c) (s_ledger s)).1 = true) as Hadv.
  { unfold advance, _move_cursor, update. rewrite Hr. by rewrite (bool_decide_eq_true_2 _ Hcur). }
  pose proof (chunk_ledger s now o c r0 Hr) as Hd. rewrite Hc in Hd. specialize (Hd Hadv n). cbn zeta in Hd.
  destruct Hd as ((r & Hr' & _ & _ & Ep & _ & _ & Ec) & _). destruct (Ec eq_refl) as [_ Ec'].
  eexists. split.
  { apply lone_1; [done|]. unfold work_step, _gate_unit, _run_gate. rewrite Hw. unfold run_chunk. rewrite Hc, Hadv, Ha. reflexivity. }
  cbn [fst snd mbind option_bind]. rewrite Hgate. unfold past_chunk. rewrite Hc. split; [|split; [|split; [|split]]].
  - split; [unfold worker_at; cbn [s_workers]; by rewrite lookup_insert_eq|]. split; [done|]. exists r. split; [exact Hr'|].
    by rewrite Ep, Ec'.
  - intros x Hx. cbn. apply elem_of_app. by left.
  - intros x Hx Hs. cbn. apply elem_of_app. right. by apply keys_where_elem.
  - exact H1.
  - exact H2.
Qed.

Lemma lone_probe s o : on_its_own o s ->
  (exists k, lone 2 s = Some (goto w (Trying o (mk_chunk (o_cursor o) k None) 0) (goto w (Probing o) s)) /\ k ∈ ahead o s) \/
  (exists k, lone 3 s = Some (goto w (Trying o (mk_chunk (o_cursor o) k None) 0) (goto w (Probing_end o) (goto w (Probing o) s))) /\ k ∈ ahead o s) \/
  (ahead o s = [] /\ lone 3 s = Some (goto w (Finishing o) (goto w (Probing_end o) (goto w (Probing o) s)))).
Proof.
  intros (Hw & Ho & r & Hr & Hp & Hcur).
  assert (lone 1 s = Some (goto w (Probing o) s)) as E1.
  { apply lone_1; [done|]. unfold work_step, _gate_unit, _run_gate. rewrite Hw. unfold claim_pending. rewrite Hr, Hp. by rewrite Ho. }
  set (s1 := goto w (Probing o) s) in *.
  assert (worker_at s1 w = Probing o) as Hw1 by (unfold s1; rewrite worker_at_goto; by destruct (decide (w = w))).
  destruct (fetch_key (down p) (s_table s) (o_cursor o) (allowed p (o_ceiling o)) (Some (r_limit (p_units p) - 1)) false) as [k|] eqn:Ef.
  { left. exists k. apply fetch_some in Ef as Hk. split; [|by apply ahead_elem]. refine (eq_trans (lone_add 1 1 _ _ E1) _).
    apply lone_1; [done|]. unfold work_step, _gate_unit, _run_gate. rewrite Hw1. change (s_table s1) with (s_table s). by rewrite Ef. }
  assert (lone 2 s = Some (goto w (Probing_end o) s1)) as E2.
  { refine (eq_trans (lone_add 1 1 _ _ E1) _). apply lone_1; [done|]. unfold work_step, _gate_unit, _run_gate. rewrite Hw1. change (s_table s1) with (s_table s). by rewrite Ef. }
  set (s2 := goto w (Probing_end o) s1) in *.
  assert (worker_at s2 w = Probing_end o) as Hw2 by (unfold s2; rewrite worker_at_goto; by destruct (decide (w = w))).
  right. destruct (fetch_key (down p) (s_table s) (o_cursor o) (allowed p (o_ceiling o)) None true) as [k|] eqn:Eg.
  - left. exists k. apply fetch_some in Eg as Hk. split; [|by apply ahead_elem]. refine (eq_trans (lone_add 2 1 _ _ E2) _).
    apply lone_1; [done|]. unfold work_step, _gate_unit, _run_gate. rewrite Hw2. change (s_table s2) with (s_table s). by rewrite Eg.
  - right. split.
    + destruct (ahead o s) as [|k l] eqn:Ea; [done|]. exfalso. assert (k ∈ ahead o s) as Hk by (rewrite Ea; by left).
      apply ahead_elem in Hk as (Hk & Hp' & Hal). eapply past_not_le; [exact Hp'|]. by eapply fetch_none.
    + refine (eq_trans (lone_add 2 1 _ _ E2) _). apply lone_1; [done|]. unfold work_step, _gate_unit, _run_gate. rewrite Hw2. change (s_table s2) with (s_table s). by rewrite Eg.
Qed.

(** A round from a probe that found [k]. *)
Lemma lone_chunk s s0 o k n : on_its_own o s -> s_ledger s0 = s_ledger s -> s_table s0 = s_table s -> s_history s0 = s_history s ->
  lone n s = Some (goto w (Trying o (mk_chunk (o_cursor o) k None) 0) s0) -> k ∈ ahead o s ->
  exists o' s', lone (n + 1) s = Some s' /\ on_its_own o' s' /\ (length (ahead o' s') < length (ahead o s))%nat /\
    (forall x, x ∈ g_done (s_history s) -> x ∈ g_done (s_history s')) /\
    (forall x, x ∈ ahead o s -> x ∈ g_done (s_history s') \/ x ∈ ahead o' s').
Proof.
  intros (Hw & Ho & Hrow) El Et Eh Hn Hk. set (c := mk_chunk (o_cursor o) k None) in *. set (s1 := goto w (Trying o c 0) s0) in *.
  destruct (lone_commit s1 o c) as (s' & Hs' & Hown & Hd1 & Hd2 & Ht1 & Ht2); [|done|done| |].
  { unfold s1. rewrite worker_at_goto. by destruct (decide (w = w)). }
  { unfold s1. cbn. by rewrite El. }
  exists (past_chunk c o), s'. rewrite (lone_add n 1 _ _ Hn). split; [done|]. split; [done|].
  apply ahead_elem in Hk as Hk'. destruct Hk' as (Hkd & Hkp & Hka).
  assert (s_table s1 = s_table s) as Et1 by done. assert (g_done (s_history s1) = g_done (s_history s)) as Eh1 by (unfold s1; cbn; by rewrite Eh).
  rewrite Et1 in *. rewrite Eh1 in *.
  assert (forall x, x ∈ ahead (past_chunk c o) s' -> x ∈ ahead o s /\ x <> k) as Hsub.
  { intros x Hx. apply ahead_elem in Hx as (Hxd & Hxp & Hxa). cbn in Hxa. change (past (down p) (Some k) x) in Hxp. split.
    - apply ahead_elem. split; [by apply Ht1|]. split; [|done]. eapply past_lower; [|exact Hxp]. by apply past_le.
    - intros ->. eapply past_not_le; [exact Hxp|]. apply le_refl. }
  split; [|split].
  - assert (incl (k :: ahead (past_chunk c o) s') (ahead o s)) as Hincl.
    { intros x [<-|Hx]; apply list_elem_of_In; [done|]. by apply Hsub, list_elem_of_In. }
    apply NoDup_incl_length in Hincl; [done|]. constructor; [|apply NoDup_ListNoDup, keys_where_nodup].
    intros Hx%list_elem_of_In. by destruct (Hsub k Hx).
  - exact Hd1.
  - intros x Hx. apply ahead_elem in Hx as (Hxd & Hxp & Hxa). destruct (chunk_where p o c x) eqn:E; [left; by apply Hd2|right].
    apply ahead_elem. split; [by apply Ht2|]. split; [|done]. cbn. rewrite after_upto.
    destruct (upto (down p) k x) eqn:Eu; [|done]. exfalso.
    assert (chunk_where p o c x = true) as E' by (by apply chunk_where_spec). by rewrite E' in E.
Qed.

(** The same with what was processed before. *)
Lemma lone_walk s o : on_its_own o s ->
  exists n o' s', (n <= 4 * length (ahead o s) + 3)%nat /\ lone n s = Some s' /\ worker_at s' w = Finishing o' /\
    (forall x, x ∈ g_done (s_history s) -> x ∈ g_done (s_history s')) /\
    forall x, x ∈ ahead o s -> x ∈ g_done (s_history s').
Proof.
  remember (length (ahead o s)) as m eqn:Em. revert s o Em. induction (lt_wf m) as [m _ IH]. intros s o Em Hown.
  assert (forall k s0 j, (j <= 3)%nat -> s_ledger s0 = s_ledger s -> s_table s0 = s_table s -> s_history s0 = s_history s ->
    lone j s = Some (goto w (Trying o (mk_chunk (o_cursor o) k None) 0) s0) -> k ∈ ahead o s ->
    exists n o' s', (n <= 4 * m + 3)%nat /\ lone n s = Some s' /\ worker_at s' w = Finishing o' /\
      (forall x, x ∈ g_done (s_history s) -> x ∈ g_done (s_history s')) /\
      forall x, x ∈ ahead o s -> x ∈ g_done (s_history s')) as Hround.
  { intros k s0 j Hj E1 E2 E3 Hl Hk. destruct (lone_chunk s s0 o k j Hown E1 E2 E3 Hl Hk) as (o1 & s1 & Hs1 & Hown1 & Hlt & Hd & Ha).
    destruct (IH (length (ahead o1 s1)) ltac:(lia) s1 o1 eq_refl Hown1) as (n & o' & s' & Hn & Hs' & Hf & Hkeep & Hdone).
    exists (j + 1 + n)%nat, o', s'. split; [lia|]. split; [by rewrite (lone_add _ _ _ _ Hs1)|]. split; [done|].
    split; [by intros x Hx; apply Hkeep, Hd|]. intros x Hx. destruct (Ha x Hx) as [Hx'|Hx']; [by apply Hkeep|by apply Hdone]. }
  destruct (lone_probe s o Hown) as [(k & Hl & Hk)|[(k & Hl & Hk)|[Hnil Hl]]].
  - eapply (Hround k _ 2%nat); [lia|..|exact Hl|exact Hk]; reflexivity.
  - eapply (Hround k _ 3%nat); [lia|..|exact Hl|exact Hk]; reflexivity.
  - eexists 3%nat, o, _. split; [lia|]. split; [exact Hl|]. split; [rewrite worker_at_goto; by destruct (decide (w = w))|].
    split; [done|]. intros x. rewrite Hnil. by intros ?%elem_of_nil.
Qed.

(** C18. A worker at the loop that is left alone with [Purge] or [Rewrite] comes to
    the end of the walk within four statements for each key ahead of it and three
    more, and by then a committed chunk has processed every one of those keys:
    the walk of a fixed table ends. *)
Theorem lone_walk_finishes s o : on_its_own o s ->
  exists n o' s', (n <= 4 * length (ahead o s) + 3)%nat /\ lone n s = Some s' /\ worker_at s' w = Finishing o' /\
    forall x, x ∈ ahead o s -> x ∈ g_done (s_history s').
Proof.
  intros Hown. destruct (lone_walk s o Hown) as (n & o' & s' & Hn & Hs & Hf & _ & Hd). by exists n, o', s'.
Qed.
End lone.

Lemma walk_once_witness : exists s, demo false None (whole_walk 1) = Some s /\ length (g_done (s_history s)) = 3%nat /\ NoDup (g_done (s_history s)).
Proof.
  eexists. split; [vm_compute; reflexivity|]. split; [reflexivity|].
  apply (walk_once (demo_pass false None) true demo_reason eq_refl demo_table).
  eapply (run_reaches _ _ _ _ _ (whole_walk 1)); [constructor|by repeat constructor|vm_compute; reflexivity].
Defined.

Definition entered : sys Z := Eval vm_compute in default (start_of ∅) (demo false None (start 1)).

Lemma lone_walk_finishes_witness : exists n o' s',
  (n <= 15)%nat /\ run (demo_pass false None) true demo_reason (replicate n (go 1)) entered = Some s' /\
  worker_at s' 1 = Finishing o' /\ forall x, x ∈ [[1]; [2]; [3]] -> x ∈ g_done (s_history s').
Proof.
  destruct (lone_walk_finishes (demo_pass false None) true demo_reason 1 0 I eq_refl entered (mk_loop None (Some [3]) false false))
    as (n & o' & s' & Hn & Hs & Hw & Hd).
  - split; [reflexivity|]. split; [reflexivity|]. eexists. split; [reflexivity|]. by split.
  - exists n, o', s'. split; [exact Hn|]. split; [exact Hs|]. split; [exact Hw|]. intros x Hx. apply Hd.
    rewrite ahead_elem. split; [|split].
    + apply elem_of_cons in Hx as [->|Hx]; [|apply elem_of_cons in Hx as [->|Hx]; [|apply list_elem_of_singleton in Hx as ->]];
        apply (bool_decide_unpack _); vm_compute; exact I.
    + exact I.
    + apply elem_of_cons in Hx as [->|Hx]; [|apply elem_of_cons in Hx as [->|Hx]; [|apply list_elem_of_singleton in Hx as ->]]; reflexivity.
Defined.

(** ** Where a promise ends *)

(** Between [set_phase] and the read of the row another shift may find the
    verification and answer it; [_run_gate] takes every phase but verifying and
    verified for applying.  Here the check said no, the pass is unverified, and the
    irreversible step runs. *)
Theorem step_without_verification :
  exists s, demo false (Some demo_gate) (whole_walk 1 ++ [go 1; go 1] ++ restart 2 ++
      [answer 2 (V_no (bs "rows still match")); go 2] ++ [go 1; go 1]) = Some s /\
    g_steps (s_history s) = [Some UNVERIFIED] /\ phase_of s = Some UNVERIFIED /\
    (r ← the_row (s_ledger s); verified_at (l_claims r)) = None.
Proof. eexists. split; [vm_compute; reflexivity|]. by split. Qed.

(** A shift that finds the pass applying runs the step again: beside the worker
    that runs it, and after a worker died in it. *)
Theorem step_runs_twice :
  (exists s, demo false (Some demo_gate) (to_step 1 ++ restart 2 ++ [go 1; go 2]) = Some s /\
    worker_at s 1 = Applied /\ worker_at s 2 = Applied /\ g_steps (s_history s) = [Some APPLYING; Some APPLYING]) /\
  (exists s, demo false (Some demo_gate) (to_step 1 ++ [go 1; E_end 1] ++ restart 2 ++ [go 2; go 2]) = Some s /\
    phase_of s = Some DONE /\ g_steps (s_history s) = [Some APPLYING; Some APPLYING]).
Proof. split; (eexists; split; [vm_compute; reflexivity|]); by repeat split. Qed.

(** Two workers at the first chunk; the second runs out of attempts, and the first
    goes on to the end. *)
Definition raced : list (event Z) :=
  start 1 ++ restart 2 ++ replicate 2 (go 1) ++ replicate 2 (go 2) ++ replicate 3 (raise 2) ++ [go 1] ++ last_chunk 1.

(** The halt of a stale worker expects no phase: it blocks a pass that is done,
    with every row processed. *)
Theorem stale_halt_blocks_done :
  exists s s', demo false None (raced ++ walked 1 ++ [go 1]) = Some s /\ phase_of s = Some DONE /\
    g_done (s_history s) = [[1]; [2]; [3]] /\
    run (demo_pass false None) true demo_reason [go 2; go 2] s = Some s' /\ phase_of s' = Some BLOCKED.
Proof. eexists _, _. split; [vm_compute; reflexivity|]. split; [done|]. split; [done|]. by split; [vm_compute; reflexivity|]. Qed.

(** The loser of a swap has written its hole by then: the chunk is committed, its
    hole stays, and the gate is barred. *)
Theorem loser_leaves_a_hole :
  exists s, demo true (Some demo_gate) (raced ++ [go 2; go 2] ++ walked 1 ++ [go 1; go 1]) = Some s /\
    g_done (s_history s) = [[1]; [2]; [3]] /\ is_Some (holes (s_ledger s) !! [2]) /\ phase_of s = Some BLOCKED.
Proof. eexists. split; [vm_compute; reflexivity|]. split; [done|]. split; [by eexists|done]. Qed.

(** [claim_pending] commits by itself: a worker that dies with a requeued unit
    takes it along, and the next shift has nothing to do. *)
Theorem claimed_unit_lost :
  exists s, demo false None (whole_walk 1 ++ [go 1; E_requeue 0 None [2]] ++ restart 1 ++ [go 1; E_end 1] ++ restart 2) = Some s /\
    g_done (s_history s) = [[1]; [2]; [3]] /\ (l_pending <$> the_row (s_ledger s)) = Some [] /\
    worker_at s 1 = Idle /\ worker_at s 2 = Idle.
Proof. eexists. split; [vm_compute; reflexivity|]. by repeat split. Qed.

(** A hole is cleared by the upper end of a range alone: the chunk up to [2] was
    skipped, only its second row is requeued, and the gate opens with the first
    row never processed. *)
Theorem narrow_unit_clears_hole :
  exists s, demo true (Some demo_gate) (start 1 ++ replicate 2 (go 1) ++ replicate 3 (raise 1) ++ [go 1; go 1] ++
      [E_requeue 0 (Some [1]) [2]; go 1; go 1] ++ last_chunk 1 ++ walked 1 ++ [go 1; go 1]) = Some s /\
    phase_of s = Some VERIFYING /\ [1] ∈ g_launch (s_history s) /\
    ([1] ∉ g_done (s_history s)) /\ ([1] ∉ g_gone (s_history s)).
Proof.
  eexists. split; [vm_compute; reflexivity|]. split; [done|].
  repeat split; apply (bool_decide_unpack _); vm_compute; exact I.
Qed.

(** Containment of arrays ignores order: a unit is taken for one that is queued. *)
Theorem requeue_drops_unit d r f :
  the_row d = Some r -> l_pending r = [mk_unit f [1; 2]] -> requeue f [2; 1] d = (false, d).
Proof.
  intros Hr Hp. unfold requeue, update. rewrite Hr, Hp. unfold queued, unit_contains. cbn [existsb u_from u_to].
  destruct f as [c|]; cbn; [|done].
  assert (key_contains c c = true) as ->; [|done]. unfold key_contains. apply forallb_forall. intros x Hx.
  by apply bool_decide_eq_true_2, list_elem_of_In.
Qed.

Lemma requeue_drops_unit_witness : exists d, requeue None [2; 1] d = (false, d).
Proof.
  exists (set_row (with_pending [mk_unit None [1; 2]] (fresh_row 0 2 None None None)) empty_ledger).
  by eapply requeue_drops_unit.
Defined.

(** ** Recurring passes *)

Definition stamp_keys (descending : bool) : list Key :=
  [mk_Key (bs "expires") (bs "timestamptz") true false false descending;
   mk_Key (bs "key") (bs "text") false true false descending].

Definition purge (descending : bool) : ChunkedPass Z :=
  mk_pass (mk_Rows (stamp_keys descending) 2 5) (Sealed 0) (Purge None) None (1 # 4) Estimated true 3 10 None.

Example purge_declared descending : new_pass (bs "purge") (mk_Rows (stamp_keys descending) 2 5) (Sealed 0) (Purge None : work Z)
  None None None (bs "skip") 3 10 None = Ok (purge descending).
Proof. by destruct descending. Qed.

(** Over a key that descends the frontier of [Sealed] holds the rows the clock has
    not passed. *)
Theorem sealed_descending {V : Type} (p : ChunkedPass V) lateness frontier stamp rest :
  p_frontier p = Sealed lateness -> down p = true ->
  allowed p (Some [frontier]) (stamp :: rest) = (frontier <? stamp).
Proof. intros Hf Hd. unfold allowed. by rewrite Hf, Hd. Qed.

Lemma sealed_descending_witness : allowed (purge true) (Some [100]) [150; 7] = true.
Proof. apply (sealed_descending (purge true) 0 100 150 [7] eq_refl eq_refl). Defined.

(** A purge at time 100 of a row that expired at 50 and one that expires at 150
    deletes the second. *)
Theorem descending_purge_deletes_live :
  exists s, run (purge true) true demo_reason (drive 1 :: go 1 :: E_work 1 100 I_none :: replicate 6 (go 1))
      (start_of (list_to_map [([50; 7], 0); ([150; 8], 0)])) = Some s /\ s_table s = list_to_map [([50; 7], 0)].
Proof. eexists. split; [vm_compute; reflexivity|]. by vm_compute. Qed.

(** [begin_cycle] also takes a pass that walks: of two workers that saw the end of
    a cycle the second rewinds the first. *)
Definition begun (w : Z) : list (event Z) := [go w; E_work w 100 I_none; go w; go w].

Theorem cycle_rewound :
  exists s s', run (purge false) true demo_reason
      (drive 1 :: begun 1 ++ replicate 4 (go 1) ++ [E_write [40; 1] 0; E_write [41; 2] 0; E_write [42; 3] 0] ++
        restart 1 ++ restart 2 ++ go 1 :: begun 1 ++ full_chunk 1) (start_of ∅) = Some s /\
    cursor s = Some [41; 2] /\ phase_of s = Some WALKING /\
    run (purge false) true demo_reason [go 2] s = Some s' /\ cursor s' = None.
Proof. eexists _, _. split; [vm_compute; reflexivity|]. split; [done|]. split; [done|]. by split; [vm_compute; reflexivity|]. Qed.

(** ** Reports *)

(** An unverified pass, stopped until somebody acts, is never reported as blocked
    while it is driven. *)
Theorem unverified_not_blocked now r driven :
  l_phase r = UNVERIFIED -> last_drive_error (l_report r) = None -> driven_at (l_report r) = Some driven ->
  qle (seconds (now - driven)) DRIVE_SILENCE_SECONDS = true -> _state now r <> Blocked.
Proof.
  intros Hp He Hd Hq. unfold _state, in_phase. rewrite Hp, He, Hd. cbn [bool_decide truthy _seconds_between].
  unfold qlt. replace (Qle_bool (seconds (now - driven)) DRIVE_SILENCE_SECONDS) with true by by rewrite <- Hq.
  cbn [negb]. by repeat case_match.
Qed.

Definition unverified_row : LedgerRow :=
  mk_row UNVERIFIED (Some [3]) (Some [3]) [] 2 (Some (bs "rows still match"))
    (mk_report None 3 None None 2 (Some demo_reason) None 0 0 (Some 0) (Some 0) None (Some 0) None) (mk_claims None None None None None).

Lemma unverified_not_blocked_witness : _state 60000000 unverified_row <> Blocked.
Proof. by apply (unverified_not_blocked _ _ 0). Defined.

(** A pass whose declaration now guards another fact after it published one: the
    new fact is neither published nor pending. *)
Theorem changed_guard_forgotten :
  exists s, demo false (Some demo_gate) (to_step 1 ++ [go 1; go 1]) = Some s /\
    let d := seed true 1 2 (Some (bs "column:public.treks.peak")) None None (s_ledger s) in
    published_facts (Some (bs "column:public.treks.peak")) [d] = [] /\
    pending_facts [bs "column:public.treks.peak"] [d] = [].
Proof. eexists. split; [vm_compute; reflexivity|]. by split; vm_compute. Qed.

(** What a pass declared as rewriting a column is told to a downgrade for good. *)
Theorem rewrites_remembered carries now limit g f t d : rewritten f (seed carries now limit g (Some f) t d) = true.
Proof.
  unfold rewritten, seed. cbn [pass_rewrites]. destruct (text_in f (pass_rewrites d)) eqn:E; [by rewrite E|].
  unfold text_in at 1. rewrite bool_decide_eq_true_2; [done|]. apply elem_of_app. right. by left.
Qed.

(** ** Pacing *)

(** Of the time a paced pass takes, work and rest together, the work is the
    declared fraction. *)
Theorem duty_cycle_share fraction elapsed :
  new_DutyCycle fraction = Ok fraction -> (0 < elapsed)%Q ->
  (elapsed == fraction * (elapsed + rest_after fraction elapsed))%Q.
Proof.
  unfold new_DutyCycle, rest_after. destruct (qlt 0 fraction && qle fraction 1) eqn:E; [|done]. intros _ He.
  apply andb_prop in E as [E _]. apply negb_true_iff in E.
  assert (~ (fraction <= 0)%Q) as Hf by (intros H; apply Qle_bool_iff in H; congruence).
  destruct (qle elapsed 0) eqn:Ee; [exfalso; apply (Qle_not_lt elapsed 0); [by apply Qle_bool_iff|done]|].
  field. intros H. apply Hf. rewrite H. apply Qle_refl.
Qed.

Lemma duty_cycle_share_witness : (2 == (1 # 4) * (2 + rest_after (1 # 4) 2))%Q.
Proof. apply (duty_cycle_share (1 # 4) 2); reflexivity. Defined.
